(* ===== verification/_CoqProject ===== *)
-Q . S2P
Prelude.v
Strings.v
Dictionary.v
DictUtils.v
Dataset.v
BatchDataset.v
PrefetchDataset.v
Partition.v
EditDistance.v
LRUCache.v
CachingMM.v
CachingMMInv.v
CachingMMBook.v
CachingMMSafety.v
Float.v
StdAlgorithm.v
DecoderUtils.v
DecoderBeam.v
LexiconFree.v
FloatRound.v
DecoderPaths.v
LexiconFreeProofs.v
Trie.v
Lexicon.v
LexiconProofs.v
Seq2Seq.v
Seq2SeqProofs.v
Autograd.v
AutogradProofs.v
AutogradFunctions.v
AutogradReal.v
Numeric.v
ViterbiPath.v
Workspace.v
RealSum.v
FullConnection.v
FullConnectionProofs.v
FullConnectionBackward.v
ForceAlignment.v
ForceAlignmentProofs.v
ForceAlignmentViterbi.v
CTC.v
ForceAlignmentGrad.v
ForceAlignmentBackward.v
ForceAlignmentDerivative.v
System.v
PartialFileReader.v
Tokenizer.v
TextDataset.v
Transcription.v
ProducerConsumer.v
ProducerConsumerProofs.v
Hungarian.v
HungarianProofs.v
HungarianOptimal.v
Vectors.v
Audio.v
AudioProofs.v
AudioReal.v
Blob.v
BlobProofs.v
DefaultMM.v
ConvLM.v
ConvLMProofs.v
AutogradPrograms.v
AutogradAdjoint.v
TensorFunctions.v
TensorSpace.v
TensorSpecs.v
TensorReductions.v
TensorLayout.v
TensorSoftmax.v
TensorProducts.v
TensorLosses.v
TensorDerivative.v
Optimizers.v
OptimizerProofs.v
LmTrainer.v
Meters.v
Distributed.v
