(* ===== verification/Prelude.v ===== *)
(** * A verification of flashlight's core

    Flashlight is a C++ machine-learning library: tensors and reverse-mode
    differentiation ([flashlight/fl]), domain libraries for text, sequences,
    audio and sets ([flashlight/lib]), and applications built on both
    ([flashlight/app]).  This development models the parts of it that are the
    program's own algorithms, in the order of the files of [_CoqProject], and
    proves what makes them correct.  File names below are relative to
    [src/flashlight].

    ** How the code is modelled

    Pure functions are functions; a method of a class is a function from the
    record of its members to the new record; code that throws returns a
    [result] with the exception class, and an access the language leaves
    undefined is the value [Throw Undefined], so that a theorem that a call
    returns [Ok] also shows that it stays within bounds.  Loops that are not
    structural run on explicit fuel, and a totality lemma shows that the fuel
    passed is enough.  Pointers that are compared, shared or updated in place
    are identities into an explicit heap.  The scratch buffers of the
    criteria are functions from the index ([buf]), whose bounds are what Workspace
    proves; what they hold before they are written is arbitrary.  The arrays the
    decoders read are lists with checked reads ([DecoderUtils.array_at]).  Unsigned
    arithmetic and integer conversions that can change the value wrap ([u64], [i32]);
    an [int] expression that can leave its range is undefined ([int_value]).  The
    remaining loop counters and indices are unbounded integers, faithful to the code
    for arrays of fewer than [2 ^ 31] elements.  Scores of the
    decoders are IEEE 754 numbers of the Standard Library's executable
    specification; numeric code is written once over a class of scalars
    ([Numeric.Num]) and proved over exact reals with the special values of IEEE
    754, or over any scalar whose addition is monotone.  Third-party code
    (ArrayFire, the C++ random engines, [exp] and [log] on floats, language and
    acoustic models behind callbacks) is a parameter.  A language model is a record
    of operations that may throw ([DecoderUtils.LM]); the decoders are proved against
    [lm_total] or [lm_contract], which [ZeroLM] meets.

    ** Files and what they prove

    - Prelude: exceptions, machine integers, loops, list lemmas, tactics and the
      hint database [fl].
    - Strings, System ([lib/common/String], [lib/common/System]): splitting,
      joining, replacing, trimming; paths; input streams with their state bits.
    - Dictionary, DictUtils ([lib/text/dictionary]): entry/index round trips,
      loading, splitting of words into UTF-8 tokens, packing of replabels.
    - Tokenizer, PartialFileReader ([lib/text/tokenizer]): the readers of all ranks
      read every terminated line once; parallel counting equals counting in
      sequence.
    - Trie, DecoderUtils, DecoderBeam, DecoderPaths, LexiconFree, Lexicon,
      Seq2Seq and their Proofs files ([lib/text/decoder]): candidate selection is
      the best-[beamSize] beam, decoding is total and reads within the arrays given to
      it (merging by maximum, emissions of the stated size), results replay as paths of
      the score recursion, every emitted word is spelled by its tokens, and decoding
      chunk by chunk equals decoding at once.  Float, FloatRound and StdAlgorithm
      hold the arithmetic and the [std::sort] interface they use.
    - Numeric, Workspace, ViterbiPath, FullConnection*, ForceAlignment*, CTC,
      RealSum ([lib/sequence/criterion]): the criteria compute the logarithm of
      the sum over label sequences or alignments, their backward passes the
      derivatives of it, the Viterbi passes an optimal path; scratch memory is
      partitioned into disjoint aligned arrays.
    - Dataset, BatchDataset, PrefetchDataset, Partition ([fl/dataset]): every
      combinator behaves like the list of samples it documents (the class
      [Represents]); batching, prefetching and sharding lose nothing.
    - TextDataset, Transcription ([app/lm/data], [app/asr/data],
      [app/asr/decoder]): the samples of a text corpus; targets decode to the words
      they were made from.
    - EditDistance, Meters ([fl/meter], [ext/common/DistributedUtils]): the error
      counts are those of a shortest edit script; averages are weighted means, and
      synchronising the meters of workers gives the mean of all their samples.
    - LRUCache ([fl/distributed]): the cache refines a bounded
      most-recently-used list.
    - CachingMM, CachingMMInv, CachingMMBook, CachingMMSafety
      ([fl/memory/managers]): the allocator keeps its block lists, pools and
      statistics consistent and refines an allocator of disjoint regions.
    - Autograd, AutogradProofs ([fl/autograd/Variable]): variables that share data
      and gradients in a heap, the graph sorted topologically, the backward pass as
      the chain rule.
    - AutogradFunctions, AutogradReal ([fl/autograd/Functions]): the element-wise
      functions and their derivatives over the reals.
    - AutogradPrograms, AutogradAdjoint: straight-line programs of functions over any
      space with directions and a pairing; if every gradient function is the adjoint
      of the derivative of its function, [backward] computes the gradient.
    - TensorFunctions, TensorSpace, TensorSpecs, TensorReductions, TensorLayout,
      TensorProducts, TensorSoftmax, TensorLosses, TensorDerivative: the functions on
      arrays with dimensions (tiling, reductions, reshaping, products, softmax,
      losses, layers).  TensorSpace states what ArrayFire documents of its functions
      as a class with a concrete instance; the middle files prove the gradient
      function of each tensor function the adjoint of its derivative; TensorDerivative
      draws the conclusion for programs of tensor functions.
    - ProducerConsumer, ProducerConsumerProofs ([lib/common]): the bounded queue
      keeps order and bounds, loses no wakeup and lets the documented threads
      finish.
    - Hungarian, HungarianProofs, HungarianOptimal ([lib/set]): the assignment the
      matrix loops compute is a cheapest one.
    - Vectors, Audio, AudioProofs, AudioReal ([lib/audio/feature]): the sizes of
      the front ends (batch entries are transformed in any order, and race on the dither
      generator when there are several), the frequency scales and derivatives over the
      reals.
    - Blob, BlobProofs ([fl/dataset]): a written blob reads back, and merging two
      blobs appends their samples; memory and files are instances of [BlobLaws].
    - DefaultMM ([fl/memory/managers]): the statistics of the default manager, its
      memory limit, and what unlocking does.
    - ConvLM, ConvLMProofs ([lib/text/decoder/lm]): the cache of the
      convolutional language model is transparent.
    - Optimizers, OptimizerProofs ([fl/optim]): the optimisers and gradient clipping,
      in place on shared variables.  The class [Optimizer] states what their steps
      have in common; a step acts on each parameter by itself, so that training is
      the iteration of a rule on one array.  NAG is SGD with Nesterov momentum, Adam
      divides exact weighted means, clipping bounds the norm.
    - LmTrainer ([app/lm/Trainer], [ext/amp]): the optimisation part of the language
      model trainer and the dynamic loss scale; what the default flags do.
    - Distributed ([fl/distributed/reducers]): workers that reduce through the
      coalescing reducer make the same collective calls and end with the sum on the
      backends that accept its flags; the others throw.

    ** Bounds and fuel

    String and replabel loops get one unit of fuel per character or token, trie
    descents one per token, block merging one per neighbour; [Dataset.iterate]
    one per sample; each file states why its fuel is enough.  Theorems on 32-bit
    and 64-bit quantities carry the bounds under which the source's arithmetic
    does not overflow: [N * N * 2 < 2 ^ 31] for the Hungarian algorithm, fewer than
    [2 ^ 31] lines for the tokenizer and elements for the edit distance, [T * N] and
    [N * N] below [2 ^ 31] for the decoders, windows of the front ends that fit.

    ** Not modelled

    Device code (CUDA, OpenCL, cuDNN, oneDNN backends) and the ArrayFire tensor
    backend: the algorithms live in those libraries.  The general indexing operator
    of variables and [split], whose gradient functions update a gradient in place.
    Rounding of tensor arithmetic: theorems on tensors and optimisers are over exact
    reals.  Neural-network modules and criteria whose [forward] only composes tensor
    functions, image and sound file formats, command-line flags, logging, training
    drivers other than the optimisation part of the language model trainer, Python
    bindings, vendored code (warp-ctc, the thread pool), cereal serialization and
    the collective operations themselves.  PROJECT.json lists each with its
    reason. *)
From Stdlib Require Export ZArith Lia Permutation Sorted.
From stdpp Require Export base tactics gmap strings fin_maps numbers list list_relations.

#[global] Open Scope Z_scope.

(** * Exceptions

    The source reports errors by throwing; a fallible operation returns a
    [result].  The constructors are the exception classes the modelled code
    throws; the message text is not kept.  [Undefined] is not a C++ exception:
    it marks an access the language leaves undefined (an index out of range in
    [operator[]], dereferencing a null pointer, popping an empty container). *)
Inductive exn : Type :=
| InvalidArgument
| OutOfRange
| RuntimeError
| LogicError
| Undefined.

Inductive result (A : Type) : Type :=
| Ok (a : A)
| Throw (e : exn).
Arguments Ok {A} a.
Arguments Throw {A} e.

#[global] Instance exn_eq_dec : EqDecision exn.
Proof. solve_decision. Defined.

#[global] Instance result_ret : MRet result := fun A a => Ok a.
#[global] Instance result_bind : MBind result :=
  fun A B k m => match m with Ok a => k a | Throw e => Throw e end.

(** [guard_throw b e]: the early [if (b) throw e;] of the source. *)
Definition throw_if (b : bool) (e : exn) : result unit :=
  if b then Throw e else Ok tt.

Fixpoint mapM_result {A B} (f : A -> result B) (l : list A) : result (list B) :=
  match l with
  | [] => Ok []
  | x :: l' => match f x with
               | Throw e => Throw e
               | Ok y => match mapM_result f l' with
                         | Throw e => Throw e
                         | Ok ys => Ok (y :: ys)
                         end
               end
  end.

(** Sequential loop over a container whose body may throw. *)
Fixpoint foldM_result {A S} (f : S -> A -> result S) (s : S) (l : list A) : result S :=
  match l with
  | [] => Ok s
  | x :: l' => match f s x with
               | Throw e => Throw e
               | Ok s' => foldM_result f s' l'
               end
  end.

(** [v[i]] on a vector, with an [int]/[size_t] index. *)
Definition vec_get {A} (l : list A) (i : Z) : result A :=
  if decide (0 <= i) then
    match l !! Z.to_nat i with Some x => Ok x | None => Throw Undefined end
  else Throw Undefined.

Definition zlen {A} (l : list A) : Z := Z.of_nat (length l).

(** Integers [lo, lo+1, ..., hi-1] (the values of [for (i = lo; i < hi; ++i)]). *)
Definition zrange (lo hi : Z) : list Z := seqZ lo (hi - lo).

(** Wrap-around of 64-bit unsigned arithmetic ([size_t]). *)
Definition u64 (z : Z) : Z := z mod 2 ^ 64.

(** Conversion to [int], modulo 2^32 as on every supported compiler. *)
Definition i32 (z : Z) : Z := (z + 2 ^ 31) mod 2 ^ 32 - 2 ^ 31.

(** The value of an expression computed in [int]; its overflow is undefined. *)
Definition int_value (z : Z) : result Z := if (- 2 ^ 31 <=? z) && (z <? 2 ^ 31) then Ok z else Throw Undefined.

(** * Development tactics *)

(** Split on the first [match]/[if] scrutinee of the goal. *)
Ltac case_head :=
  match goal with
  | |- context [if decide ?P then _ else _] => destruct (decide P)
  | |- context [match ?x with _ => _ end] => destruct x eqn:?
  end.

Ltac inv H := inversion H; subst; clear H.

(** Decompose an equation [m >>= k = Ok y] of the result monad. *)
Ltac inv_result :=
  repeat match goal with
  | H : Ok _ = Ok _ |- _ => injection H as H; subst
  | H : Throw _ = Ok _ |- _ => discriminate H
  | H : Ok _ = Throw _ |- _ => discriminate H
  | H : mbind ?k ?m = Ok _ |- _ =>
      unfold mbind, result_bind in H; destruct m eqn:?; try discriminate H
  | H : match ?m with Ok _ => _ | Throw _ => _ end = Ok _ |- _ =>
      destruct m eqn:?; try discriminate H
  end.

(** * Generic lemmas *)

Lemma u64_id z : 0 <= z < 2 ^ 64 -> u64 z = z.
Proof. intros Hz. by apply Z.mod_small. Qed.

Lemma i32_id z : - 2 ^ 31 <= z < 2 ^ 31 -> i32 z = z.
Proof. intros Hz. unfold i32. rewrite Z.mod_small; lia. Qed.

Lemma i32_range z : - 2 ^ 31 <= i32 z < 2 ^ 31.
Proof. unfold i32. pose proof (Z.mod_pos_bound (z + 2 ^ 31) (2 ^ 32)). lia. Qed.

Lemma int_value_fits z : - 2 ^ 31 <= z < 2 ^ 31 -> int_value z = Ok z.
Proof. intros Hz. unfold int_value. by rewrite (proj2 (Z.leb_le _ _)), (proj2 (Z.ltb_lt _ _)) by lia. Qed.

Lemma int_value_Ok z x : int_value z = Ok x -> x = z /\ - 2 ^ 31 <= z < 2 ^ 31.
Proof. unfold int_value. destruct (Z.leb_spec (- 2 ^ 31) z), (Z.ltb_spec z (2 ^ 31)); cbn; intros [= <-]; lia. Qed.

Lemma zlen_nonneg {A} (l : list A) : 0 <= zlen l.
Proof. unfold zlen; lia. Qed.

Lemma zlen_app {A} (l k : list A) : zlen (l ++ k) = zlen l + zlen k.
Proof. unfold zlen; rewrite length_app; lia. Qed.

Lemma zlen_cons {A} (x : A) l : zlen (x :: l) = 1 + zlen l.
Proof. unfold zlen; cbn [length]; lia. Qed.

Lemma mapM_result_Ok {A B} (f : A -> result B) l ys :
  mapM_result f l = Ok ys <-> Forall2 (fun x y => f x = Ok y) l ys.
Proof.
  revert ys; induction l as [|x l IH]; intros ys; cbn.
  - split; [intros [= <-]; constructor | intros H; inv H; done].
  - destruct (f x) as [y|e] eqn:E.
    + destruct (mapM_result f l) as [zs|e] eqn:E'.
      * split.
        -- intros [= <-]. constructor; [done | by apply IH].
        -- intros H; inv H. apply IH in H4. congruence.
      * split; [done | intros H; inv H]. apply IH in H4. congruence.
    + split; [done | intros H; inv H; congruence].
Qed.

Lemma foldM_result_app {A S} (f : S -> A -> result S) s l1 l2 :
  foldM_result f s (l1 ++ l2) =
  match foldM_result f s l1 with Ok s' => foldM_result f s' l2 | Throw e => Throw e end.
Proof.
  revert s; induction l1 as [|x l1 IH]; intros s; cbn; [done|].
  destruct (f s x); [apply IH | done].
Qed.

(** Invariant rule for loops that may throw. *)
Lemma foldM_result_inv {A S} (f : S -> A -> result S) (P : S -> Prop) l :
  (forall s x s', x ∈ l -> P s -> f s x = Ok s' -> P s') ->
  forall s s', P s -> foldM_result f s l = Ok s' -> P s'.
Proof.
  induction l as [|x l IH]; intros Hf s s' Hs H; cbn in H; [congruence|].
  destruct (f s x) as [s1|] eqn:E; [|done].
  eapply IH; [|by eapply Hf; [left|..] |done].
  intros ????; eapply Hf; by right.
Qed.

(** The state of a loop that cannot throw is right at the end. *)
Lemma foldM_result_total {A S} (f : S -> A -> result S) (P : S -> Prop) l :
  (forall s x, x ∈ l -> P s -> exists s', f s x = Ok s' /\ P s') -> forall s, P s -> exists s', foldM_result f s l = Ok s' /\ P s'.
Proof.
  induction l as [|x l IH]; intros Hf s Hs; cbn; [eauto|]. destruct (Hf s x) as (s1 & -> & H1); [left|done|].
  apply IH; [|done]. intros s' y Hy. apply Hf. by right.
Qed.

Lemma vec_get_Ok {A} (l : list A) i x :
  vec_get l i = Ok x <-> 0 <= i /\ l !! Z.to_nat i = Some x.
Proof.
  unfold vec_get. case_decide; [|naive_solver lia].
  destruct (l !! Z.to_nat i); naive_solver.
Qed.

Lemma vec_get_lt {A} (l : list A) i x : vec_get l i = Ok x -> 0 <= i < zlen l.
Proof.
  rewrite vec_get_Ok. intros [? H%lookup_lt_Some]. unfold zlen; lia.
Qed.

Lemma vec_get_is_Ok {A} (l : list A) i : 0 <= i < zlen l -> exists x, vec_get l i = Ok x.
Proof.
  intros H. destruct (lookup_lt_is_Some_2 l (Z.to_nat i)) as [x Hx].
  { unfold zlen in H; lia. }
  exists x. apply vec_get_Ok. split; [lia | done].
Qed.

Lemma zrange_lookup lo hi i :
  (i < Z.to_nat (hi - lo))%nat -> zrange lo hi !! i = Some (lo + Z.of_nat i).
Proof. intros H. unfold zrange. apply lookup_seqZ. split; lia. Qed.

Lemma elem_of_zrange lo hi x : x ∈ zrange lo hi <-> lo <= x < hi.
Proof. unfold zrange. rewrite elem_of_seqZ. lia. Qed.

Lemma zrange_app lo mid hi :
  lo <= mid <= hi -> zrange lo hi = zrange lo mid ++ zrange mid hi.
Proof.
  intros H. unfold zrange.
  replace (hi - lo) with ((mid - lo) + (hi - mid)) by lia.
  rewrite seqZ_app by lia. f_equal. f_equal; lia.
Qed.

Lemma zrange_nil lo hi : hi <= lo -> zrange lo hi = [].
Proof. intros H. unfold zrange. apply seqZ_nil. lia. Qed.

Lemma zrange_cons lo hi : lo < hi -> zrange lo hi = lo :: zrange (lo + 1) hi.
Proof.
  intros H. unfold zrange. rewrite seqZ_cons by lia.
  f_equal. f_equal; lia.
Qed.

Lemma zrange_snoc lo hi : lo <= hi -> zrange lo (hi + 1) = zrange lo hi ++ [hi].
Proof. intros. rewrite (zrange_app lo hi) by lia. by rewrite (zrange_cons hi), (zrange_nil (hi + 1)) by lia. Qed.

Lemma length_zrange lo hi : length (zrange lo hi) = Z.to_nat (hi - lo).
Proof. unfold zrange. apply length_seqZ. Qed.

(** Invariant rule for a counted loop that may throw, but does not. *)
Lemma foldM_zrange {S} (P : Z -> S -> Prop) lo hi body s :
  lo <= hi -> P lo s ->
  (forall i s, lo <= i < hi -> P i s -> exists s', body s i = Ok s' /\ P (i + 1) s') ->
  exists s', foldM_result body s (zrange lo hi) = Ok s' /\ P hi s'.
Proof.
  intros Hle H0 Hs. remember (Z.to_nat (hi - lo)) as n eqn:En. revert lo s En Hle H0 Hs.
  induction n as [|n IH]; intros lo s En Hle H0 Hs.
  - assert (lo = hi) as -> by lia. rewrite zrange_nil by lia. by exists s.
  - rewrite zrange_cons by lia. cbn. destruct (Hs lo s) as (s1 & -> & H1); [lia|done|].
    apply (IH (lo + 1)); [lia|lia|done|]. intros i s' Hi. apply Hs. lia.
Qed.

Lemma list_filter_True {A} (P : A -> Prop) `{!forall x, Decision (P x)} (l : list A) :
  Forall P l -> filter P l = l.
Proof.
  induction 1; [done|]. rewrite filter_cons_True by done. by f_equal.
Qed.

Lemma elem_of_concat {A} (x : A) (ls : list (list A)) :
  x ∈ concat ls <-> exists l, x ∈ l /\ l ∈ ls.
Proof.
  rewrite list_elem_of_In, in_concat. setoid_rewrite list_elem_of_In. naive_solver.
Qed.

(** * Hint database of the development *)
Create HintDb fl.
#[export] Hint Resolve zlen_nonneg : fl.
#[export] Hint Rewrite @zlen_app @zlen_cons @length_zrange : fl.

Lemma mapM_result_total {A B} (f : A -> result B) l :
  (forall x, x ∈ l -> exists y, f x = Ok y) -> exists ys, mapM_result f l = Ok ys.
Proof.
  induction l as [|x l IH]; intros Hf; [by exists []|]. cbn.
  destruct (Hf x) as [y ->]; [by left|]. destruct IH as [ys ->]; [|by eauto]. intros z Hz. apply Hf. by right.
Qed.

Lemma mapM_result_ext_in {A B} (f g : A -> result B) l : (forall x, x ∈ l -> f x = g x) -> mapM_result f l = mapM_result g l.
Proof.
  induction l as [|x l IH]; intros E; cbn; [done|]. rewrite E by left. rewrite IH; [done|]. intros. apply E. by right.
Qed.

Lemma foldM_result_fmap {A B S} (f : S -> B -> result S) (g : A -> B) s l :
  foldM_result f s (g <$> l) = foldM_result (fun s x => f s (g x)) s l.
Proof. revert s. induction l as [|x l IH]; intros s; cbn; [done|]. by destruct (f s (g x)). Qed.

Lemma foldM_result_ext_in {A S} (f g : S -> A -> result S) s l :
  (forall s x, x ∈ l -> f s x = g s x) -> foldM_result f s l = foldM_result g s l.
Proof.
  revert s. induction l as [|x l IH]; intros s E; cbn; [done|]. rewrite E by left.
  destruct (g s x); [|done]. apply IH. intros. apply E. by right.
Qed.

Lemma foldM_result_ext {A S} (f g : S -> A -> result S) s l :
  (forall s x, f s x = g s x) -> foldM_result f s l = foldM_result g s l.
Proof. intros E. apply foldM_result_ext_in. auto. Qed.

Lemma fold_left_ext {A B} (f g : A -> B -> A) (l : list B) (a : A) :
  (forall a b, f a b = g a b) -> fold_left f l a = fold_left g l a.
Proof. intros E. revert a. induction l as [|b l IH]; intros a; cbn; [done|]. by rewrite E. Qed.

Lemma fold_left_ext_in {A B} (f g : A -> B -> A) (l : list B) (a : A) :
  (forall a b, b ∈ l -> f a b = g a b) -> fold_left f l a = fold_left g l a.
Proof.
  revert a. induction l as [|b l IH]; intros a E; cbn; [done|]. rewrite E by (by left).
  apply IH. intros a' b' Hb. apply E. by right.
Qed.

Lemma fold_left_inv {A B} (I : A -> Prop) (f : A -> B -> A) (l : list B) (a : A) :
  I a -> (forall a b, b ∈ l -> I a -> I (f a b)) -> I (fold_left f l a).
Proof.
  revert a. induction l as [|b l IH]; intros a Ha Hf; cbn; [done|].
  apply IH; [apply Hf; [by left|done]|]. intros a' b' Hb. apply Hf. by right.
Qed.
