(* ===== verification/Strings.v ===== *)
(** String utilities of [lib/common/String.h] and [lib/common/String.cpp].

    A [std::string] is a byte list ([str]); [npos] is [None].  The loops of
    [splitImpl] and [replaceAll] run on explicit fuel, one unit per iteration;
    [splitLoop_total] and [replaceLoop_total] show that the fuel the wrappers
    pass is always enough. *)
From S2P Require Import Prelude.
From Stdlib Require Ascii String.

Open Scope nat_scope.

Abbreviation ascii := Ascii.ascii.
Abbreviation string := String.string.
Abbreviation str := (list ascii).

(** String literals of the source. *)
Definition lit (s : string) : str := String.list_ascii_of_string s.

(** * The [std::string] searches the code uses *)

Fixpoint is_prefix (p s : str) : bool :=
  match p, s with
  | [], _ => true
  | a :: p', b :: s' => bool_decide (a = b) && is_prefix p' s'
  | _ :: _, [] => false
  end.

(** First position [>= off] of [p], where [s] is the text from [off] on. *)
Fixpoint find_from (p s : str) (off : nat) : option nat :=
  if is_prefix p s then Some off
  else match s with
       | [] => None
       | _ :: s' => find_from p s' (S off)
       end.

(** [s.find(p, pos)] *)
Definition str_find (p s : str) (pos : nat) : option nat :=
  if decide (pos <= length s) then find_from p (drop pos s) pos else None.

Fixpoint find_if_from (f : ascii -> bool) (s : str) (off : nat) : option nat :=
  match s with
  | [] => None
  | c :: s' => if f c then Some off else find_if_from f s' (S off)
  end.

(** [s.find_first_of(delims, pos)] *)
Definition find_first_of (delims s : str) (pos : nat) : option nat :=
  find_if_from (fun c => bool_decide (c ∈ delims)) (drop pos s) pos.

(** [s.find_first_not_of(chars)] *)
Definition find_first_not_of (chars s : str) : option nat :=
  find_if_from (fun c => bool_decide (c ∉ chars)) s 0.

(** [s.find_last_not_of(chars)] *)
Definition find_last_not_of (chars s : str) : option nat :=
  match find_if_from (fun c => bool_decide (c ∉ chars)) (rev s) 0 with
  | None => None
  | Some k => Some (length s - 1 - k)
  end.

(** [s.substr(i, n)] *)
Definition substr (s : str) (i n : nat) : str := take n (drop i s).

(** The range constructor [std::string(begin + i, begin + j)]. *)
Definition slice (s : str) (i j : nat) : str := take (j - i) (drop i s).

(** * Operations of String.cpp *)

(** Tab, newline, vertical tab, form feed, carriage return, space. *)
Definition kSpaceChars : str :=
  map Ascii.ascii_of_nat [9; 10; 11; 12; 13; 32].

Definition trim (s : str) : str :=
  match find_first_not_of kSpaceChars s with
  | None => []
  | Some i =>
      match find_last_not_of kSpaceChars s with
      | None => []
      | Some j => if decide (j < i) then [] else substr s i (j - i + 1)
      end
  end.

Fixpoint replaceLoop (from repl : str) (fuel : nat) (s : str) (pos : nat) : option str :=
  match fuel with
  | O => None
  | S fuel' =>
      match str_find from s pos with
      | None => Some s
      | Some p =>
          replaceLoop from repl fuel'
            (take p s ++ repl ++ drop (p + length from) s) (p + length repl)
      end
  end.

Definition replaceAll (s from repl : str) : str :=
  match from with
  | [] => s
  | _ => default s (replaceLoop from repl (S (length s)) s 0)
  end.

Definition startsWith (input pattern : str) : bool :=
  bool_decide (str_find pattern input 0 = Some 0).

Definition endsWith (input pattern : str) : bool :=
  if decide (length input < length pattern) then false
  else bool_decide (rev pattern = take (length pattern) (rev input)).

(** The [while (true)] loop of [splitImpl]; [find] is the search the template
    parameter [Any] selects. *)
Fixpoint splitLoop (find : nat -> option nat) (delimSize : nat) (input : str)
    (ignoreEmpty : bool) (fuel i : nat) : option (list str) :=
  match fuel with
  | O => None
  | S fuel' =>
      match find i with
      | None =>
          Some (if ignoreEmpty && bool_decide (i = length input) then []
                else [slice input i (length input)])
      | Some j =>
          match splitLoop find delimSize input ignoreEmpty fuel' (j + delimSize) with
          | None => None
          | Some rest =>
              Some (if ignoreEmpty && bool_decide (i = j) then rest
                    else slice input i j :: rest)
          end
      end
  end.

Definition splitImpl (any : bool) (delim : str) (delimSize : nat) (input : str)
    (ignoreEmpty : bool) : list str :=
  let find := fun i => if any then find_first_of delim input i else str_find delim input i in
  default [] (splitLoop find delimSize input ignoreEmpty (S (length input)) 0).

Definition split_char (delim : ascii) (input : str) (ignoreEmpty : bool) : list str :=
  splitImpl false [delim] 1 input ignoreEmpty.

Definition split (delim input : str) (ignoreEmpty : bool) : result (list str) :=
  match delim with
  | [] => Throw InvalidArgument
  | _ => Ok (splitImpl false delim (length delim) input ignoreEmpty)
  end.

Definition splitOnAnyOf (delim input : str) (ignoreEmpty : bool) : list str :=
  splitImpl true delim 1 input ignoreEmpty.

Definition splitOnWhitespace (input : str) (ignoreEmpty : bool) : list str :=
  splitOnAnyOf kSpaceChars input ignoreEmpty.

Definition join (delim : str) (vec : list str) : str :=
  match vec with
  | [] => []
  | b :: rest => fold_left (fun res s => res ++ delim ++ s) rest b
  end.

(** [dedup] of String.h: [std::unique] keeps the first of each run. *)
Fixpoint dedup {A} `{EqDecision A} (l : list A) : list A :=
  match l with
  | [] => []
  | x :: l' =>
      match l' with
      | [] => [x]
      | y :: _ => if decide (x = y) then dedup l' else x :: dedup l'
      end
  end.

(** * Search lemmas *)

Lemma is_prefix_spec p s : is_prefix p s = true <-> exists r, s = p ++ r.
Proof.
  revert s; induction p as [|a p IH]; intros s; cbn; [naive_solver|].
  destruct s as [|b s]; [naive_solver|].
  rewrite andb_true_iff, bool_decide_eq_true, IH. naive_solver.
Qed.

Lemma find_from_shift p s off k :
  find_from p s (k + off) = (fun j => k + j) <$> find_from p s off.
Proof.
  revert off; induction s as [|a s IH]; intros off; cbn;
    destruct (is_prefix p _); cbn; try done.
  rewrite <- IH. f_equal; lia.
Qed.

Lemma find_from_Some p s off j :
  find_from p s off = Some j ->
  exists k, j = off + k /\ k + length p <= length s /\
            drop k s = p ++ drop (k + length p) s /\
            (forall k', k' < k -> is_prefix p (drop k' s) = false).
Proof.
  revert off; induction s as [|a s IH]; intros off H; cbn in H.
  - destruct (is_prefix p []) eqn:E; [|done]. injection H as <-.
    apply is_prefix_spec in E as [r Hr]. exists 0.
    symmetry in Hr. apply app_nil in Hr as [-> ->]. cbn. naive_solver lia.
  - destruct (is_prefix p (a :: s)) eqn:E.
    + injection H as <-. apply is_prefix_spec in E as [r Hr]. exists 0.
      rewrite !drop_0. cbn [Nat.add]. rewrite Hr, drop_app_length, length_app.
      split_and!; [lia.. | done | intros; lia].
    + apply IH in H as (k & -> & ? & ? & Hlt). exists (S k).
      cbn. split_and!; [lia.. | done |].
      intros [|k'] ?; [done | apply Hlt; lia].
Qed.

Lemma find_from_None p s off k :
  find_from p s off = None -> k <= length s -> is_prefix p (drop k s) = false.
Proof.
  revert off k; induction s as [|a s IH]; intros off k H Hk; cbn in H, Hk.
  - replace k with 0 by lia. cbn. destruct (is_prefix p []); done.
  - destruct (is_prefix p (a :: s)) eqn:E; [done|].
    destruct k as [|k]; [done|]. cbn. eapply IH; [done | lia].
Qed.

Lemma find_if_from_Some f s off j :
  find_if_from f s off = Some j ->
  exists k c, j = off + k /\ s !! k = Some c /\ f c = true /\
              Forall (fun d => f d = false) (take k s).
Proof.
  revert off; induction s as [|a s IH]; intros off H; cbn in H; [done|].
  destruct (f a) eqn:E.
  - injection H as <-. exists 0, a. cbn.
    split_and!; [lia | done | done | constructor].
  - apply IH in H as (k & c & -> & ? & ? & ?). exists (S k), c. cbn.
    split_and!; [lia | done | done | by constructor].
Qed.

Lemma find_if_from_None f s off :
  find_if_from f s off = None <-> Forall (fun d => f d = false) s.
Proof.
  revert off; induction s as [|a s IH]; intros off; cbn; [done|].
  rewrite Forall_cons. destruct (f a) eqn:E; [split; [done | by intros [? _]]|].
  rewrite IH. tauto.
Qed.

Lemma str_find_from p s i :
  i <= length s -> str_find p s i = find_from p (drop i s) i.
Proof. intros. unfold str_find. by rewrite decide_True. Qed.

(** * [split] and [join] *)

(** Every search the code passes to [splitImpl] returns a position at or after
    the start, with the delimiter inside the text. *)
Definition find_ok (find : nat -> option nat) (d : nat) (input : str) : Prop :=
  forall i j, i <= length input -> find i = Some j -> i <= j /\ j + d <= length input.

Lemma str_find_ok p s : find_ok (str_find p s) (length p) s.
Proof.
  intros i j Hi H. rewrite str_find_from in H by done.
  apply find_from_Some in H as (k & -> & Hk & _ & _).
  rewrite length_drop in Hk. lia.
Qed.

Lemma find_first_of_ok d s : find_ok (find_first_of d s) 1 s.
Proof.
  intros i j Hi H. apply find_if_from_Some in H as (k & c & -> & Hk & _ & _).
  apply lookup_lt_Some in Hk. rewrite length_drop in Hk. lia.
Qed.

(** Termination of [splitImpl]: one iteration per delimiter found. *)
Lemma splitLoop_total find d input ie :
  find_ok find d input -> 1 <= d ->
  forall fuel i, i <= length input -> length input - i < fuel ->
  exists l, splitLoop find d input ie fuel i = Some l.
Proof.
  intros Hok Hd. induction fuel as [|fuel IH]; intros i Hi Hf; [lia|]. cbn.
  destruct (find i) as [j|] eqn:E; [|eauto].
  apply Hok in E as [? ?]; [|done].
  destruct (IH (j + d)) as [l ->]; [lia.. | eauto].
Qed.

Lemma join_cons d x y l : join d (x :: y :: l) = x ++ d ++ join d (y :: l).
Proof.
  cbn. revert x y; induction l as [|z l IH]; intros x y; cbn; [done|].
  rewrite (IH (x ++ d ++ y) z), (IH y z). by rewrite <- !app_assoc.
Qed.

(** The pieces between occurrences, as a function of the remaining text. *)
Fixpoint pieces (p : str) (fuel : nat) (rest : str) : list str :=
  match fuel with
  | O => [rest]
  | S fuel' =>
      match find_from p rest 0 with
      | None => [rest]
      | Some k => take k rest :: pieces p fuel' (drop (k + length p) rest)
      end
  end.

Lemma pieces_cons p fuel rest : exists x l, pieces p fuel rest = x :: l.
Proof. destruct fuel; cbn; [|destruct (find_from _ _ _)]; eauto. Qed.

Lemma join_pieces p fuel rest : join p (pieces p fuel rest) = rest.
Proof.
  revert rest; induction fuel as [|fuel IH]; intros rest; cbn; [done|].
  destruct (find_from p rest 0) as [k|] eqn:E; [|done].
  apply find_from_Some in E as (k' & -> & ? & Hd & _). cbn [Nat.add] in *.
  destruct (pieces_cons p fuel (drop (k' + length p) rest)) as (x & l & Hx).
  rewrite Hx, join_cons, <- Hx, IH, <- Hd. apply take_drop.
Qed.

Lemma drop_find_from p input i :
  i <= length input ->
  str_find p input i = (fun k => i + k) <$> find_from p (drop i input) 0.
Proof.
  intros. rewrite str_find_from by done.
  by rewrite <- find_from_shift, Nat.add_0_r.
Qed.

Lemma splitLoop_pieces p input :
  1 <= length p ->
  forall fuel i, i <= length input -> length input - i < fuel ->
  splitLoop (str_find p input) (length p) input false fuel i
  = Some (pieces p fuel (drop i input)).
Proof.
  intros Hp. induction fuel as [|fuel IH]; intros i Hi Hf; [lia|]. cbn.
  rewrite drop_find_from by done.
  destruct (find_from p (drop i input) 0) as [k|] eqn:E; cbn.
  - apply find_from_Some in E as (k' & -> & Hk & _ & _). rewrite length_drop in Hk.
    cbn [Nat.add]. rewrite IH by lia. unfold slice.
    rewrite drop_drop, Nat.add_assoc. by replace (i + k' - i) with k' by lia.
  - unfold slice. rewrite take_ge; [done | rewrite length_drop; lia].
Qed.

Lemma split_pieces delim input :
  delim <> [] ->
  split delim input false = Ok (pieces delim (S (length input)) input).
Proof.
  intros Hd. unfold split, splitImpl. destruct delim as [|c d]; [done|].
  rewrite splitLoop_pieces; [done | cbn; lia..].
Qed.

(** Splitting on a non-empty delimiter and joining the pieces with the
    same delimiter gives the input back, for every input. *)
Theorem split_join delim input :
  delim <> [] ->
  exists l, split delim input false = Ok l /\ join delim l = input.
Proof.
  intros Hd. eexists; split; [by apply split_pieces | apply join_pieces].
Qed.

Lemma split_join_witness :
  exists l, split (lit ", ") (lit "a, b,c, , d") false = Ok l /\
            join (lit ", ") l = lit "a, b,c, , d".
Proof. apply (split_join (lit ", ") (lit "a, b,c, , d")). discriminate. Defined.

(** * [replaceAll] *)

Lemma replaceLoop_pieces from repl :
  1 <= length from ->
  forall fuel done rest, length rest < fuel ->
  replaceLoop from repl fuel (done ++ rest) (length done)
  = Some (done ++ join repl (pieces from fuel rest)).
Proof.
  intros Hp. induction fuel as [|fuel IH]; intros dn rest Hf; [lia|]. cbn.
  rewrite drop_find_from by (rewrite length_app; lia). rewrite drop_app_length.
  destruct (find_from from rest 0) as [k|] eqn:E; cbn [fmap option_fmap option_map]; [|done].
  apply find_from_Some in E as (k' & -> & Hk & _ & _). cbn [Nat.add].
  destruct (pieces_cons from fuel (drop (k' + length from) rest)) as (x & l & Hx).
  rewrite Hx, join_cons, <- Hx.
  rewrite <- !Nat.add_assoc, take_app_add, drop_app_add.
  replace ((dn ++ take k' rest) ++ repl ++ drop (k' + length from) rest)
    with ((dn ++ take k' rest ++ repl) ++ drop (k' + length from) rest)
    by (by rewrite <- !app_assoc).
  replace (length dn + (k' + length repl)) with (length (dn ++ take k' rest ++ repl))
    by (rewrite !length_app, length_take; lia).
  rewrite IH by (rewrite length_drop; lia). by rewrite <- !app_assoc.
Qed.

(** [replaceAll] with a non-empty pattern replaces exactly the
    occurrences [split] finds: it is [split] on the pattern followed by [join]
    with the replacement (the replacement text is never rescanned). *)
Theorem replaceAll_split_join s from repl :
  from <> [] ->
  exists l, split from s false = Ok l /\ replaceAll s from repl = join repl l.
Proof.
  intros Hd. eexists; split; [by apply split_pieces|].
  unfold replaceAll. destruct from as [|c from']; [done|].
  rewrite (replaceLoop_pieces (c :: from') repl ltac:(cbn; lia) _ [] s); [done | lia].
Qed.

Lemma replaceAll_split_join_witness :
  exists l, split (lit "aa") (lit "aaaXaa") false = Ok l /\
            replaceAll (lit "aaaXaa") (lit "aa") (lit "aaa") = join (lit "aaa") l.
Proof. apply (replaceAll_split_join (lit "aaaXaa") (lit "aa") (lit "aaa")). discriminate. Defined.

(** * Tokenisation on whitespace *)

Lemma splitLoop_any_true delim input :
  forall fuel i l, i <= length input ->
  splitLoop (find_first_of delim input) 1 input true fuel i = Some l ->
  Forall (fun t => t <> [] /\ Forall (fun c => c ∉ delim) t) l /\
  concat l = filter (fun c => c ∉ delim) (drop i input).
Proof.
  induction fuel as [|fuel IH]; intros i l Hi H; cbn in H; [done|].
  destruct (find_first_of delim input i) as [j|] eqn:E.
  - destruct (splitLoop _ _ _ _ _ (j + 1)) as [rest|] eqn:E'; [|done].
    pose proof (find_first_of_ok delim input i j Hi E) as [? ?].
    apply find_if_from_Some in E as (k & c & -> & Hk & Hc & Hall).
    apply bool_decide_eq_true in Hc.
    apply IH in E' as [Hr Hcat]; [|done].
    assert (Hsplit : drop i input = take k (drop i input) ++ c :: drop (i + k + 1) input).
    { rewrite <- (take_drop_middle (drop i input) k c) at 1 by done.
      rewrite drop_drop. do 3 f_equal. lia. }
    assert (Hno : Forall (fun c => c ∉ delim) (take k (drop i input))).
    { eapply Forall_impl; [apply Hall | intros x Hx; by apply bool_decide_eq_false in Hx]. }
    rewrite Hsplit at 1. rewrite filter_app, filter_cons_False by (intros Hn; by apply Hn).
    rewrite (list_filter_True _ (take k _)) by done.
    rewrite <- Hcat. injection H as <-. unfold slice.
    replace (i + k - i) with k by lia. cbn [andb].
    case_bool_decide as Hik.
    + replace k with 0 by lia. by rewrite take_0.
    + split; [|done]. constructor; [split; [|done] | done].
      intros Hn. apply (f_equal length) in Hn. apply lookup_lt_Some in Hk.
      rewrite length_take in Hn. cbn in Hn. lia.
  - injection H as <-. apply find_if_from_None in E.
    assert (Hno : Forall (fun c => c ∉ delim) (drop i input)).
    { eapply Forall_impl; [apply E | intros x Hx; by apply bool_decide_eq_false in Hx]. }
    rewrite list_filter_True by done. unfold slice. cbn [andb].
    case_bool_decide as Hik.
    + split; [constructor|]. by rewrite drop_ge by lia.
    + rewrite take_ge by (rewrite length_drop; lia). cbn. rewrite app_nil_r.
      split; [|done]. constructor; [split; [|done] | constructor].
      intros Hn. apply (f_equal length) in Hn. rewrite length_drop in Hn. cbn in Hn. lia.
Qed.

(** The tokens [splitOnWhitespace(s, true)] returns are non-empty,
    contain no whitespace, and together hold exactly the non-whitespace bytes
    of the input, in order. *)
Theorem splitOnWhitespace_tokens s :
  Forall (fun t => t <> [] /\ Forall (fun c => c ∉ kSpaceChars) t)
    (splitOnWhitespace s true) /\
  concat (splitOnWhitespace s true) = filter (fun c => c ∉ kSpaceChars) s.
Proof.
  unfold splitOnWhitespace, splitOnAnyOf, splitImpl.
  destruct (splitLoop_total (find_first_of kSpaceChars s) 1 s true
              (find_first_of_ok _ _) ltac:(lia) (S (length s)) 0) as [l Hl]; [lia..|].
  cbv zeta.
  match goal with |- context [splitLoop ?f] => change f with (find_first_of kSpaceChars s) end.
  rewrite Hl. apply splitLoop_any_true in Hl; [|lia].
  by rewrite drop_0 in Hl.
Qed.

(** * [trim] *)

Lemma find_last_not_of_Some chars s j :
  find_last_not_of chars s = Some j ->
  exists a c b, s = a ++ c :: b /\ length a = j /\ c ∉ chars /\ Forall (fun c => c ∈ chars) b.
Proof.
  unfold find_last_not_of. destruct (find_if_from _ (rev s) 0) as [k|] eqn:E; [|done].
  intros [= <-]. apply find_if_from_Some in E as (k' & c & -> & Hk & Hc & Hall).
  apply bool_decide_eq_true in Hc.
  pose proof (take_drop_middle (rev s) k' c Hk) as Hs.
  apply lookup_lt_Some in Hk. rewrite length_rev in Hk.
  apply (f_equal (@rev _)) in Hs. rewrite rev_involutive, rev_app_distr in Hs. cbn in Hs.
  exists (rev (drop (S k') (rev s))), c, (rev (take k' (rev s))).
  rewrite <- app_assoc in Hs. split_and!; [done | | done |].
  - rewrite length_rev, length_drop, length_rev. cbn [Nat.add]. lia.
  - apply Forall_rev. eapply Forall_impl; [apply Hall|].
    intros x Hx. apply bool_decide_eq_false in Hx. by apply dec_stable.
Qed.

Lemma find_first_not_of_Some chars s i :
  find_first_not_of chars s = Some i ->
  exists a c b, s = a ++ c :: b /\ length a = i /\ c ∉ chars /\ Forall (fun c => c ∈ chars) a.
Proof.
  intros E. apply find_if_from_Some in E as (k' & c & -> & Hk & Hc & Hall).
  apply bool_decide_eq_true in Hc. exists (take k' s), c, (drop (S k') s).
  rewrite take_drop_middle by done. split_and!; [done | | done |].
  - apply lookup_lt_Some in Hk. rewrite length_take. lia.
  - eapply Forall_impl; [apply Hall|].
    intros x Hx. apply bool_decide_eq_false in Hx. by apply dec_stable.
Qed.

(** [trim] removes a whitespace prefix and suffix and nothing else: what
    is left neither begins nor ends with whitespace. *)
Theorem trim_spec s :
  exists pre post, s = pre ++ trim s ++ post /\
    Forall (fun c => c ∈ kSpaceChars) pre /\ Forall (fun c => c ∈ kSpaceChars) post /\
    (forall c, head (trim s) = Some c -> c ∉ kSpaceChars) /\
    (forall c, last (trim s) = Some c -> c ∉ kSpaceChars).
Proof.
  unfold trim. destruct (find_first_not_of kSpaceChars s) as [i|] eqn:Ei.
  - apply find_first_not_of_Some in Ei as (a & c & b & Hs & Hi & Hc & Ha).
    destruct (find_last_not_of kSpaceChars s) as [j|] eqn:Ej.
    + apply find_last_not_of_Some in Ej as (a' & c' & b' & Hs' & Hj & Hc' & Hb').
      assert (Hci : s !! i = Some c) by (by rewrite Hs, list_lookup_middle).
      assert (Hcj : s !! j = Some c') by (by rewrite Hs', list_lookup_middle).
      destruct (decide (j < i)) as [Hlt|Hge].
      { exfalso. rewrite Hs, lookup_app_l in Hcj by lia.
        rewrite Forall_lookup in Ha. by apply Hc', (Ha j). }
      assert (Ht : substr s i (j - i + 1) !! 0 = Some c).
      { unfold substr. rewrite lookup_take_lt by lia. by rewrite lookup_drop, Nat.add_0_r. }
      assert (Hlen : length (substr s i (j - i + 1)) = j - i + 1).
      { unfold substr. rewrite length_take, length_drop. apply lookup_lt_Some in Hcj. lia. }
      exists a, b'. split_and!; try done.
      * assert (take i s = a) as <- by (rewrite Hs, <- Hi; apply take_app_length).
        assert (drop (j + 1) s = b') as <-.
        { rewrite Hs', <- Hj. rewrite drop_app_add. done. }
        replace (drop (j + 1) s) with (drop (j - i + 1) (drop i s))
          by (rewrite drop_drop; f_equal; lia).
        unfold substr. by rewrite !take_drop.
      * intros x. rewrite head_lookup, Ht. by intros [= <-].
      * intros x. rewrite last_lookup, Hlen. unfold substr.
        rewrite lookup_take_lt, lookup_drop by lia.
        replace (i + pred (j - i + 1)) with j by lia. rewrite Hcj. by intros [= <-].
    + unfold find_last_not_of in Ej.
      destruct (find_if_from _ (rev s) 0) eqn:E; [done|]. exfalso.
      apply find_if_from_None in E. rewrite Forall_forall in E.
      assert (Hin : c ∈ rev s) by (rewrite Hs; apply list_elem_of_In, in_rev; rewrite rev_involutive; apply in_elt).
      apply E, bool_decide_eq_false in Hin. done.
  - exists s, []. apply find_if_from_None in Ei. rewrite !app_nil_r.
    split_and!; [done | | constructor | done..].
    eapply Forall_impl; [apply Ei|].
    intros x Hx. apply bool_decide_eq_false in Hx. by apply dec_stable.
Qed.
