(* ===== verification/Dictionary.v ===== *)
(** The token dictionary of [lib/text/dictionary/Dictionary.h] and
    [Dictionary.cpp]: a bidirectional map between entries (byte strings) and
    integer indices, where several entries may share an index and the first
    entry added for an index is the one [getEntry] returns. *)
From S2P Require Import Prelude Strings.

Open Scope Z_scope.

(** * State *)

Record dict := Dict {
  entry2idx : gmap str Z;
  idx2entry : gmap Z str;
  defaultIndex : Z
}.

Definition empty_dict : dict := Dict ∅ ∅ (-1).

(** * Operations *)

Definition entrySize (d : dict) : nat := size (entry2idx d).
Definition indexSize (d : dict) : nat := size (idx2entry d).

(** [addEntry(entry, idx)] *)
Definition addEntry_at (d : dict) (entry : str) (idx : Z) : result dict :=
  match entry2idx d !! entry with
  | Some _ => Throw InvalidArgument
  | None =>
      Ok (Dict (<[entry := idx]> (entry2idx d))
               (match idx2entry d !! idx with
                | None => <[idx := entry]> (idx2entry d)
                | Some _ => idx2entry d
                end)
               (defaultIndex d))
  end.

(** [while (idx2entry_.find(idx) != end) ++idx;] *)
Fixpoint first_free (m : gmap Z str) (fuel : nat) (idx : Z) : option Z :=
  match fuel with
  | O => None
  | S fuel' =>
      match m !! idx with
      | None => Some idx
      | Some _ => first_free m fuel' (idx + 1)
      end
  end.

(** [addEntry(entry)]; the search needs at most [indexSize + 1] probes. *)
Definition addEntry (d : dict) (entry : str) : result dict :=
  match entry2idx d !! entry with
  | Some _ => Throw InvalidArgument
  | None =>
      match first_free (idx2entry d) (S (indexSize d)) (Z.of_nat (indexSize d)) with
      | Some idx => addEntry_at d entry idx
      | None => Throw Undefined (* unreachable: [first_free_total] *)
      end
  end.

Definition getEntry (d : dict) (idx : Z) : result str :=
  match idx2entry d !! idx with
  | None => Throw InvalidArgument
  | Some e => Ok e
  end.

Definition setDefaultIndex (d : dict) (idx : Z) : dict :=
  Dict (entry2idx d) (idx2entry d) idx.

Definition getIndex (d : dict) (entry : str) : result Z :=
  match entry2idx d !! entry with
  | None => if defaultIndex d <? 0 then Throw InvalidArgument else Ok (defaultIndex d)
  | Some i => Ok i
  end.

Definition contains (d : dict) (entry : str) : bool :=
  match entry2idx d !! entry with None => false | Some _ => true end.

Definition isContiguous (d : dict) : bool :=
  forallb (fun i => bool_decide (is_Some (idx2entry d !! i))) (zrange 0 (Z.of_nat (indexSize d))) &&
  forallb (fun ei : str * Z => bool_decide (is_Some (idx2entry d !! ei.2)))
    (map_to_list (entry2idx d)).

Definition mapEntriesToIndices (d : dict) (entries : list str) : result (list Z) :=
  mapM_result (getIndex d) entries.

Definition mapIndicesToEntries (d : dict) (indices : list Z) : result (list str) :=
  mapM_result (getEntry d) indices.

(** One iteration of the line loop of [createFromStream]. *)
Definition addLine (d : dict) (line : str) : result dict :=
  match line with
  | [] => Ok d
  | _ =>
      let tkns := splitOnWhitespace line true in
      let idx := Z.of_nat (indexSize d) in
      foldM_result (fun d tkn => addEntry_at d tkn idx) d tkns
  end.

(** [createFromStream] on a new dictionary; [good] is the stream's state and
    [lines] what the successive calls of [std::getline] return. *)
Definition createFromStream (good : bool) (lines : list str) : result dict :=
  if negb good then Throw RuntimeError
  else match foldM_result addLine empty_dict lines with
       | Throw e => Throw e
       | Ok d => if isContiguous d then Ok d else Throw RuntimeError
       end.

(** * Well-formedness *)

(** The two maps agree: every index an entry maps to has a representative,
    and the representative of an index maps to that index. *)
Record wf (d : dict) : Prop := {
  wf_back : forall e i, entry2idx d !! e = Some i -> is_Some (idx2entry d !! i);
  wf_fwd : forall i e, idx2entry d !! i = Some e -> entry2idx d !! e = Some i
}.

Lemma wf_empty : wf empty_dict.
Proof. split; cbn; intros ? ? H; by rewrite lookup_empty in H. Qed.

Lemma addEntry_at_Ok d e i d' :
  addEntry_at d e i = Ok d' ->
  entry2idx d !! e = None /\
  entry2idx d' = <[e := i]> (entry2idx d) /\
  idx2entry d' = match idx2entry d !! i with
                 | None => <[i := e]> (idx2entry d) | Some _ => idx2entry d end /\
  defaultIndex d' = defaultIndex d.
Proof.
  unfold addEntry_at. destruct (entry2idx d !! e) eqn:E; [done|]. by intros [= <-].
Qed.

Lemma addEntry_at_wf d e i d' : wf d -> addEntry_at d e i = Ok d' -> wf d'.
Proof.
  intros [Hb Hf] H. apply addEntry_at_Ok in H as (Hn & He & Hi & _).
  split; rewrite He, Hi.
  - intros e' i'. destruct (decide (e = e')) as [<-|Hne].
    + rewrite lookup_insert_eq. intros [= <-].
      destruct (idx2entry d !! i) eqn:E; [by eexists|]. rewrite lookup_insert_eq. by eexists.
    + rewrite lookup_insert_ne by done. intros H%Hb.
      destruct (idx2entry d !! i) eqn:E; [done|].
      destruct (decide (i = i')) as [<-|]; [rewrite lookup_insert_eq; by eexists|].
      by rewrite lookup_insert_ne.
  - intros i' e'. destruct (idx2entry d !! i) eqn:E.
    + intros H%Hf. rewrite lookup_insert_ne by congruence. done.
    + destruct (decide (i = i')) as [<-|].
      * rewrite lookup_insert_eq. intros [= <-]. by rewrite lookup_insert_eq.
      * rewrite lookup_insert_ne by done. intros H%Hf.
        rewrite lookup_insert_ne by congruence. done.
Qed.

(** * Search for a free index *)

Lemma first_free_spec m fuel i j :
  first_free m fuel i = Some j ->
  i <= j /\ m !! j = None /\ forall k, i <= k < j -> is_Some (m !! k).
Proof.
  revert i; induction fuel as [|fuel IH]; intros i; cbn; [done|].
  destruct (m !! i) eqn:E.
  - intros (? & ? & Hk)%IH. split_and!; [lia | done |].
    intros k ?. destruct (decide (k = i)) as [->|]; [by eexists | apply Hk; lia].
  - intros [= <-]. split_and!; [lia | done | lia].
Qed.

Lemma first_free_None m fuel i :
  first_free m fuel i = None ->
  forall k, i <= k < i + Z.of_nat fuel -> is_Some (m !! k).
Proof.
  revert i; induction fuel as [|fuel IH]; intros i; cbn -[Z.of_nat]; [lia|].
  destruct (m !! i) eqn:E; [|done].
  intros H k ?. destruct (decide (k = i)) as [->|]; [by eexists|].
  eapply IH; [done|]. lia.
Qed.

(** A map with [n] keys misses one of any [n + 1] consecutive indices. *)
Lemma first_free_total (m : gmap Z str) i :
  exists j, first_free m (S (size m)) i = Some j.
Proof.
  destruct (first_free m (S (size m)) i) as [j|] eqn:E; [by eexists|]. exfalso.
  pose proof (first_free_None _ _ _ E) as Hk.
  assert (Hsub : list_to_set (seqZ i (Z.of_nat (S (size m)))) ⊆ dom m).
  { intros k. rewrite elem_of_list_to_set, elem_of_seqZ, elem_of_dom. apply Hk. }
  apply subseteq_size in Hsub.
  rewrite size_list_to_set, length_seqZ, size_dom in Hsub by apply NoDup_seqZ. lia.
Qed.

(** * Correctness of [addEntry] *)

(** [addEntry(entry)] on a well-formed dictionary throws exactly when the
    entry is known; otherwise it returns a well-formed dictionary in which
    [entry] and a previously unused index name each other, every old index
    keeps its entry and every old entry its index. *)
Theorem addEntry_fresh d e :
  wf d ->
  match addEntry d e with
  | Throw x => x = InvalidArgument /\ contains d e = true
  | Ok d' =>
      contains d e = false /\ wf d' /\
      (exists i, getEntry d i = Throw InvalidArgument /\
                 getEntry d' i = Ok e /\ getIndex d' e = Ok i) /\
      (forall i e', getEntry d i = Ok e' -> getEntry d' i = Ok e') /\
      (forall e' i, entry2idx d !! e' = Some i -> getIndex d' e' = Ok i)
  end.
Proof.
  intros Hwf. unfold addEntry, contains.
  destruct (entry2idx d !! e) as [i0|] eqn:E; [done|].
  destruct (first_free_total (idx2entry d) (Z.of_nat (indexSize d))) as [j Hj].
  unfold indexSize in *. rewrite Hj.
  apply first_free_spec in Hj as (_ & Hfree & _).
  destruct (addEntry_at d e j) as [d'|x] eqn:Ed;
    [|by unfold addEntry_at in Ed; rewrite E in Ed].
  pose proof (addEntry_at_wf _ _ _ _ Hwf Ed) as Hwf'.
  apply addEntry_at_Ok in Ed as (_ & He & Hi & _). rewrite Hfree in Hi.
  unfold getEntry, getIndex. rewrite He, Hi. split_and!; [done | done | | |].
  - exists j. by rewrite Hfree, !lookup_insert_eq.
  - intros i e'. destruct (idx2entry d !! i) eqn:Ei; [|done].
    rewrite lookup_insert_ne by congruence. by rewrite Ei.
  - intros e' i Hei. rewrite lookup_insert_ne by congruence. by rewrite Hei.
Qed.

(** * Contiguity *)

Lemma size_range (m : gmap Z str) (n : nat) :
  (forall i, is_Some (m !! i) <-> 0 <= i < Z.of_nat n) -> size m = n.
Proof.
  intros H. rewrite <- size_dom.
  replace (dom m) with (list_to_set (seqZ 0 (Z.of_nat n)) : gset Z).
  - rewrite size_list_to_set by apply NoDup_seqZ. rewrite length_seqZ. lia.
  - apply set_eq. intros i. rewrite elem_of_list_to_set, elem_of_seqZ, elem_of_dom, H. lia.
Qed.

(** On a well-formed dictionary [isContiguous] holds exactly when the
    used indices are 0, ..., indexSize - 1. *)
Theorem isContiguous_iff d :
  wf d ->
  isContiguous d = true <->
  (forall i, is_Some (idx2entry d !! i) <-> 0 <= i < Z.of_nat (indexSize d)).
Proof.
  intros [Hb _]. unfold isContiguous. rewrite andb_true_iff, !forallb_forall.
  setoid_rewrite <- list_elem_of_In. setoid_rewrite bool_decide_eq_true.
  setoid_rewrite elem_of_zrange. split.
  - intros [Hin _] i. split; [|by apply Hin]. intros Hi.
    assert (Hsub : list_to_set (seqZ 0 (Z.of_nat (indexSize d))) ⊆ dom (idx2entry d)).
    { intros k. rewrite elem_of_list_to_set, elem_of_seqZ, elem_of_dom.
      intros. apply Hin. lia. }
    assert (Heq : dom (idx2entry d) = list_to_set (seqZ 0 (Z.of_nat (indexSize d)))).
    { symmetry. apply set_subseteq_size_eq; [done|].
      rewrite size_list_to_set, length_seqZ, size_dom by apply NoDup_seqZ.
      unfold indexSize. lia. }
    apply elem_of_dom in Hi. rewrite Heq in Hi.
    apply elem_of_list_to_set, elem_of_seqZ in Hi. lia.
  - intros H. split; [intros i; by rewrite H|].
    intros [e i] He%elem_of_map_to_list. by eapply Hb.
Qed.

(** * Loading a dictionary from a stream *)

(** The token groups of the lines that carry at least one token. *)
Definition groups (lines : list str) : list (list str) :=
  filter (fun g => g <> []) (map (fun l => splitOnWhitespace l true) lines).

(** [d] holds exactly the groups [gs]: group [k] is index [k], named by its
    first token. *)
Record holds (d : dict) (gs : list (list str)) : Prop := {
  holds_e2i : forall e i, entry2idx d !! e = Some i <->
                exists k g, gs !! k = Some g /\ e ∈ g /\ i = Z.of_nat k;
  holds_i2e : forall i e, idx2entry d !! i = Some e <->
                exists k g, gs !! k = Some g /\ head g = Some e /\ i = Z.of_nat k;
  holds_nonempty : Forall (fun g => g <> []) gs;
  holds_default : defaultIndex d = -1
}.

Lemma holds_dom d gs i :
  holds d gs -> is_Some (idx2entry d !! i) <-> 0 <= i < Z.of_nat (length gs).
Proof.
  intros [_ Hi Hne _]. split.
  - intros [e He]. apply Hi in He as (k & g & Hk%lookup_lt_Some & _ & ->). lia.
  - intros Hr. destruct (lookup_lt_is_Some_2 gs (Z.to_nat i)) as [g Hg]; [lia|].
    rewrite Forall_lookup in Hne. specialize (Hne _ _ Hg).
    destruct g as [|e g]; [done|]. exists e. apply Hi.
    exists (Z.to_nat i), (e :: g). split_and!; [done | done | lia].
Qed.

Lemma holds_size d gs : holds d gs -> indexSize d = length gs.
Proof. intros H. apply size_range. intros i. by apply holds_dom. Qed.

Lemma holds_wf d gs : NoDup (concat gs) -> holds d gs -> wf d.
Proof.
  intros Hnd H. split.
  - intros e i He. apply (holds_e2i _ _ H) in He as (k & g & Hk & _ & ->).
    apply (holds_dom d gs); [done|]. apply lookup_lt_Some in Hk. lia.
  - intros i e He. apply (holds_i2e _ _ H) in He as (k & g & Hk & Hh & ->).
    apply (holds_e2i _ _ H). exists k, g. split_and!; [done | | done].
    apply head_Some_elem_of. done.
Qed.

(** Add a (possibly empty) last group. *)
Definition snoc_group (gs : list (list str)) (g : list str) : list (list str) :=
  match g with [] => gs | _ => gs ++ [g] end.

Lemma concat_snoc_group gs g : concat (snoc_group gs g) = concat gs ++ g.
Proof. destruct g; cbn; [by rewrite app_nil_r|]. by rewrite concat_app; cbn; rewrite app_nil_r. Qed.

Lemma lookup_snoc_group gs g k h :
  snoc_group gs g !! k = Some h <->
  gs !! k = Some h \/ (g <> [] /\ k = length gs /\ h = g).
Proof.
  destruct g as [|x g]; cbn.
  - split; [by left | by intros [?|[? _]]].
  - rewrite lookup_snoc_Some. split.
    + intros [[? ?]|[-> <-]]; [by left | by right].
    + intros [H|(_ & -> & ->)]; [|by right]. left. split; [|done]. by eapply lookup_lt_Some.
Qed.

Lemma head_snoc {A} (g : list A) t e :
  head (g ++ [t]) = Some e <-> head g = Some e \/ (g = [] /\ e = t).
Proof. destruct g; cbn; naive_solver. Qed.

Lemma holds_not_in d gs e : holds d gs -> entry2idx d !! e = None <-> e ∉ concat gs.
Proof.
  intros H. rewrite elem_of_concat. split.
  - intros Hn (g & Hg & [k Hk]%list_elem_of_lookup).
    assert (entry2idx d !! e = Some (Z.of_nat k)); [|congruence].
    apply (holds_e2i _ _ H); eauto.
  - intros Hn. destruct (entry2idx d !! e) as [i|] eqn:E; [|done].
    apply (holds_e2i _ _ H) in E as (k & g & Hk & He & _). destruct Hn.
    exists g. split; [done|]. apply list_elem_of_lookup. eauto.
Qed.

Lemma holds_add d gs g t :
  holds d (snoc_group gs g) -> t ∉ concat gs ++ g ->
  exists d', addEntry_at d t (Z.of_nat (length gs)) = Ok d' /\
             holds d' (snoc_group gs (g ++ [t])).
Proof.
  intros H Ht. rewrite <- concat_snoc_group in Ht.
  pose proof (proj2 (holds_not_in _ _ _ H) Ht) as Hn.
  destruct (addEntry_at d t (Z.of_nat (length gs))) as [d'|] eqn:E;
    [|by unfold addEntry_at in E; rewrite Hn in E].
  exists d'. split; [done|].
  apply addEntry_at_Ok in E as (_ & He & Hi & Hd).
  assert (Hne : g ++ [t] <> []) by (by destruct g).
  assert (Hidx : idx2entry d !! Z.of_nat (length gs) = head g).
  { destruct (head g) as [x|] eqn:Eg.
    - apply (holds_i2e _ _ H). exists (length gs), g. split_and!; [|done..].
      apply lookup_snoc_group. right. by destruct g.
    - destruct g; [|done]. cbn in *. destruct (idx2entry d !! _) eqn:E'; [|done].
      apply (holds_i2e _ _ H) in E' as (k & g' & Hk%lookup_lt_Some & _ & ?). lia. }
  split.
  - intros e i. rewrite He. setoid_rewrite lookup_snoc_group.
    destruct (decide (t = e)) as [<-|Hte].
    + rewrite lookup_insert_eq. split.
      * intros [= <-]. exists (length gs), (g ++ [t]). split_and!; [by right | set_solver | done].
      * intros (k & h & [Hk|(_ & -> & ->)] & Hin & ->); [|done]. exfalso. apply Ht.
        rewrite concat_snoc_group. apply elem_of_app. left. apply elem_of_concat.
        exists h. split; [done|]. by eapply list_elem_of_lookup_2.
    + rewrite lookup_insert_ne by done. rewrite (holds_e2i _ _ H).
      setoid_rewrite lookup_snoc_group. split.
      * intros (k & h & [Hk|(? & -> & ->)] & Hin & ->); eauto 10.
        exists (length gs), (g ++ [t]). split_and!; [by right | set_solver | done].
      * intros (k & h & [Hk|(? & -> & ->)] & Hin & ->); eauto 10.
        exists (length gs), g. apply elem_of_app in Hin as [Hin|Hin%list_elem_of_singleton];
          [|by subst].
        split_and!; [right; split_and!; [by destruct g; [apply not_elem_of_nil in Hin|]|..] |..]; done.
  - intros i e. rewrite Hi, Hidx. setoid_rewrite lookup_snoc_group.
    destruct (head g) as [x|] eqn:Eg.
    + rewrite (holds_i2e _ _ H). setoid_rewrite lookup_snoc_group.
      split; intros (k & h & [Hk|(? & -> & ->)] & Hin & ->).
      * eauto 10.
      * exists (length gs), (g ++ [t]). split_and!; [by right | by apply head_snoc; left | done].
      * eauto 10.
      * apply head_snoc in Hin as [Hin|[-> ?]]; [|done].
        exists (length gs), g. split_and!; [|done..]. right. by destruct g.
    + assert (g = []) as -> by (by destruct g). cbn [app snoc_group] in *.
      destruct (decide (Z.of_nat (length gs) = i)) as [<-|Hne'].
      * rewrite lookup_insert_eq. split.
        -- intros [= <-]. exists (length gs), [t]. split_and!; [by right | done | done].
        -- intros (k & h & [Hk%lookup_lt_Some|(? & -> & ->)] & Hin & ?); [lia | done].
      * rewrite lookup_insert_ne by done. rewrite (holds_i2e _ _ H).
        split; intros (k & h & Hk & Hin & ->); [eauto 10|].
        destruct Hk as [Hk|(_ & -> & _)]; [eauto 10 | done].
  - pose proof (holds_nonempty _ _ H) as Hall.
    rewrite Forall_lookup in Hall |- *. intros k h [Hk|(? & -> & ->)]%lookup_snoc_group; [|done].
    apply (Hall k). apply lookup_snoc_group. by left.
  - rewrite Hd. apply (holds_default _ _ H).
Qed.

Lemma holds_addTokens gs ts : forall d g,
  holds d (snoc_group gs g) -> NoDup (concat gs ++ g) ->
  match foldM_result (fun d t => addEntry_at d t (Z.of_nat (length gs))) d ts with
  | Ok d' => NoDup (concat gs ++ g ++ ts) /\ holds d' (snoc_group gs (g ++ ts))
  | Throw e => e = InvalidArgument /\ ~ NoDup (concat gs ++ g ++ ts)
  end.
Proof.
  induction ts as [|t ts IH]; intros d g H Hnd; cbn; [by rewrite !app_nil_r|].
  destruct (decide (t ∈ concat gs ++ g)) as [Hin|Hout].
  - destruct (addEntry_at d t (Z.of_nat (length gs))) as [d'|e] eqn:E.
    + apply addEntry_at_Ok in E as (Hn & _). apply (holds_not_in _ _ _ H) in Hn.
      by rewrite concat_snoc_group in Hn.
    + split; [unfold addEntry_at in E; destruct (entry2idx d !! t); congruence|].
      rewrite app_assoc. intros (_ & Hd & _)%NoDup_app. apply (Hd t); [done|]. by left.
  - destruct (holds_add d gs g t H Hout) as (d' & -> & H').
    specialize (IH d' (g ++ [t]) H'). rewrite <- app_assoc in IH. cbn in IH.
    apply IH. rewrite app_assoc. apply NoDup_app. split_and!; [done | | apply NoDup_singleton].
    intros x Hx ->%list_elem_of_singleton. done.
Qed.

Lemma splitOnWhitespace_nil : splitOnWhitespace [] true = [].
Proof. reflexivity. Qed.

Lemma holds_addLines lines : forall d gs,
  holds d gs -> NoDup (concat gs) ->
  match foldM_result addLine d lines with
  | Ok d' => NoDup (concat (gs ++ groups lines)) /\ holds d' (gs ++ groups lines)
  | Throw e => e = InvalidArgument /\ ~ NoDup (concat (gs ++ groups lines))
  end.
Proof.
  induction lines as [|line lines IH]; intros d gs H Hnd; cbn [foldM_result].
  { change (groups []) with (@nil (list str)). by rewrite !app_nil_r. }
  assert (Hline : addLine d line =
    foldM_result (fun d tkn => addEntry_at d tkn (Z.of_nat (length gs))) d
      (splitOnWhitespace line true)).
  { unfold addLine. rewrite (holds_size d gs H). by destruct line. }
  rewrite Hline. set (ts := splitOnWhitespace line true) in *.
  assert (Hg : gs ++ groups (line :: lines) = snoc_group gs ts ++ groups lines).
  { unfold groups at 1. cbn [map]. fold ts. rewrite filter_cons.
    destruct ts; cbn; [done|]. by rewrite <- app_assoc. }
  pose proof (holds_addTokens gs ts d [] H) as Hstep. cbn [app] in Hstep.
  specialize (Hstep ltac:(by rewrite app_nil_r)). rewrite Hg.
  destruct (foldM_result _ d ts) as [d'|e].
  - destruct Hstep as [Hnd' H']. apply IH; [done|]. by rewrite concat_snoc_group.
  - destruct Hstep as [-> Hnot]. split; [done|]. intros Hn. apply Hnot.
    rewrite concat_app, concat_snoc_group in Hn. by apply NoDup_app in Hn as [? _].
Qed.

Lemma holds_empty : holds empty_dict [].
Proof. split; cbn; [| |constructor|done]; intros ? ?; rewrite lookup_empty; naive_solver. Qed.

(** Loading a readable dictionary stream succeeds exactly when no token
    occurs twice in the file; the tokens of the k-th line that has any all map
    to index k and its first token is the entry of index k, the contiguity
    check at the end never fires, and a repeated token is reported as
    [invalid_argument]. *)
Theorem createFromStream_spec lines :
  match createFromStream true lines with
  | Ok d => NoDup (concat (groups lines)) /\ holds d (groups lines) /\ isContiguous d = true
  | Throw e => e = InvalidArgument /\ ~ NoDup (concat (groups lines))
  end.
Proof.
  unfold createFromStream. cbn [negb].
  pose proof (holds_addLines lines empty_dict [] holds_empty ltac:(constructor)) as H.
  destruct (foldM_result addLine empty_dict lines) as [d|e]; [|done].
  cbn [app] in H. destruct H as [Hnd H].
  assert (Hc : isContiguous d = true).
  { apply (isContiguous_iff d (holds_wf _ _ Hnd H)).
    intros i. rewrite (holds_size _ _ H). by apply holds_dom. }
  rewrite Hc. split_and!; done.
Qed.

(** * Round trips *)

Lemma getIndex_getEntry d i e : wf d -> getEntry d i = Ok e -> getIndex d e = Ok i.
Proof.
  intros Hwf. unfold getEntry, getIndex. destruct (idx2entry d !! i) eqn:E; [|done].
  intros [= <-]. by rewrite (wf_fwd d Hwf _ _ E).
Qed.

(** On a well-formed dictionary, whenever a sequence of indices can be
    spelled out, mapping the entries back gives the same indices. *)
Theorem mapIndices_roundtrip d idxs es :
  wf d -> mapIndicesToEntries d idxs = Ok es -> mapEntriesToIndices d es = Ok idxs.
Proof.
  unfold mapIndicesToEntries, mapEntriesToIndices. intros Hwf.
  rewrite !mapM_result_Ok. intros H. apply Forall2_flip.
  eapply Forall2_impl; [apply H|]. intros i e. by apply getIndex_getEntry.
Qed.

(** * Witnesses *)

Definition ab_dict : dict :=
  match createFromStream true [lit "a A"; lit "b"] with Ok d => d | Throw _ => empty_dict end.

Lemma ab_dict_wf : wf ab_dict.
Proof.
  pose proof (holds_addLines [lit "a A"; lit "b"] empty_dict [] holds_empty ltac:(constructor)) as H.
  change (foldM_result addLine empty_dict [lit "a A"; lit "b"]) with (Ok ab_dict) in H.
  destruct H as [Hn Hh]. by eapply holds_wf.
Qed.

Lemma addEntry_fresh_witness :
  match addEntry ab_dict (lit "c") with
  | Throw _ => False
  | Ok d' => contains ab_dict (lit "c") = false /\ wf d'
  end.
Proof.
  pose proof (addEntry_fresh ab_dict (lit "c") ab_dict_wf) as H.
  destruct (addEntry ab_dict (lit "c")) as [d'|x].
  - destruct H as (H1 & H2 & _). split; done.
  - destruct H as [_ H]. vm_compute in H. discriminate.
Defined.

Lemma isContiguous_iff_witness : isContiguous ab_dict = true /\ is_Some (idx2entry ab_dict !! 1).
Proof.
  assert (H : isContiguous ab_dict = true) by (vm_compute; reflexivity). split; [done|].
  apply (isContiguous_iff ab_dict ab_dict_wf); [done|]. vm_compute. split; congruence.
Defined.

Lemma mapIndices_roundtrip_witness :
  mapEntriesToIndices ab_dict [lit "b"; lit "a"] = Ok [1; 0].
Proof.
  apply (mapIndices_roundtrip ab_dict [1; 0] [lit "b"; lit "a"] ab_dict_wf).
  vm_compute. reflexivity.
Defined.
