(* ===== verification/DictUtils.v ===== *)
(** Helpers over dictionaries, [lib/text/dictionary/Utils.cpp]: word lists and
    lexicons, UTF-8 word splitting, and replabels (packing of consecutive
    repeated tokens). *)
From S2P Require Import Prelude Strings Dictionary.
From stdpp Require Import pretty.

Open Scope Z_scope.

Definition kUnkToken : str := lit "<unk>".

Abbreviation lexicon_map := (gmap str (list (list str))).

(** * Word dictionaries and lexicons *)

(** [iter] is the lexicon in the (unspecified) order the [unordered_map] is
    walked. *)
Definition createWordDict (iter : list (str * list (list str))) : result dict :=
  match foldM_result addEntry empty_dict (map fst iter) with
  | Throw e => Throw e
  | Ok d => match getIndex d kUnkToken with
            | Throw e => Throw e
            | Ok i => Ok (setDefaultIndex d i)
            end
  end.

(** One line of a lexicon file. *)
Definition loadLine (lexicon : lexicon_map) (line : str) : result lexicon_map :=
  match splitOnWhitespace line true with
  | word :: s0 :: spelling =>
      let lexicon1 := match lexicon !! word with
                      | None => <[word := []]> lexicon
                      | Some _ => lexicon end in
      Ok (<[word := default [] (lexicon1 !! word) ++ [s0 :: spelling]]> lexicon1)
  | _ => Throw RuntimeError
  end.

(** [while (maxWords != lexicon.size() && std::getline(infile, line))] *)
Fixpoint loadLoop (maxWords : Z) (lexicon : lexicon_map) (lines : list str)
    : result lexicon_map :=
  if Z.eqb maxWords (Z.of_nat (size lexicon)) then Ok lexicon
  else match lines with
       | [] => Ok lexicon
       | line :: lines' =>
           match loadLine lexicon line with
           | Throw e => Throw e
           | Ok lexicon' => loadLoop maxWords lexicon' lines'
           end
       end.

Definition loadWords (lines : list str) (maxWords : Z) : result lexicon_map :=
  match loadLoop maxWords ∅ lines with
  | Throw e => Throw e
  | Ok lexicon => Ok (<[kUnkToken := []]> lexicon)
  end.

(** * UTF-8 word splitting *)

(** Length of the sequence a leading byte announces. *)
Definition curTknBytes (ch : ascii) : option nat :=
  let c := Z.of_nat (Ascii.nat_of_ascii ch) in
  if Z.land c 0x80 =? 0 then Some 1%nat
  else if Z.land c 0xE0 =? 0xC0 then Some 2%nat
  else if Z.land c 0xF0 =? 0xE0 then Some 3%nat
  else if Z.land c 0xF8 =? 0xF0 then Some 4%nat
  else None.

(** [for (int i = 0; i < len;)]; every round consumes at least one byte. *)
Fixpoint splitWrdLoop (word : str) (fuel i : nat) : result (list str) :=
  match fuel with
  | O => Throw Undefined (* unreachable: [splitWrdLoop_fuel] *)
  | S fuel' =>
      match word !! i with
      | None => Ok []
      | Some c =>
          match curTknBytes c with
          | None => Throw RuntimeError
          | Some n =>
              if decide (length word < i + n)%nat then Throw RuntimeError
              else match splitWrdLoop word fuel' (i + n) with
                   | Throw e => Throw e
                   | Ok tokens => Ok (slice word i (i + n) :: tokens)
                   end
          end
      end
  end.

Definition splitWrd (word : str) : result (list str) :=
  splitWrdLoop word (S (length word)) 0.

(** * Replabels *)

(** ["<" + std::to_string(i) + ">"] *)
Definition replabel_name (i : Z) : str := lit "<" ++ lit (pretty i) ++ lit ">".

(** The loop of [packReplabels] from state [(prevToken, numReps)];
    [repIdx i] is [replabelValueToIdx[i]]. *)
Fixpoint packLoop (repIdx : list Z) (maxReps : Z) (prevToken numReps : Z)
    (tokens : list Z) : list Z :=
  match tokens with
  | [] => if 0 <? numReps then [nth (Z.to_nat numReps) repIdx 0] else []
  | token :: tokens' =>
      if (token =? prevToken) && (numReps <? maxReps)
      then packLoop repIdx maxReps prevToken (numReps + 1) tokens'
      else (if 0 <? numReps then [nth (Z.to_nat numReps) repIdx 0] else [])
             ++ token :: packLoop repIdx maxReps token 0 tokens'
  end.

Definition packReplabels (tokens : list Z) (d : dict) (maxReps : Z) : result (list Z) :=
  match tokens with
  | [] => Ok tokens
  | _ =>
      if maxReps <=? 0 then Ok tokens
      else match mapM_result (fun i => getIndex d (replabel_name i)) (zrange 1 (maxReps + 1)) with
           | Throw e => Throw e
           | Ok idxs => Ok (packLoop (0 :: idxs) maxReps (-1) 0 tokens)
           end
  end.

(** [replabelIdxToValue.emplace(idx, i)] keeps the first value of a key. *)
Definition emplace (m : gmap Z Z) (k v : Z) : gmap Z Z :=
  match m !! k with None => <[k := v]> m | Some _ => m end.

Fixpoint unpackLoop (repVal : gmap Z Z) (prevToken : Z) (tokens : list Z) : list Z :=
  match tokens with
  | [] => []
  | token :: tokens' =>
      match repVal !! token with
      | None => token :: unpackLoop repVal token tokens'
      | Some v =>
          if prevToken =? -1 then unpackLoop repVal prevToken tokens'
          else replicate (Z.to_nat v) prevToken ++ unpackLoop repVal (-1) tokens'
      end
  end.

Definition unpackReplabels (tokens : list Z) (d : dict) (maxReps : Z) : result (list Z) :=
  match tokens with
  | [] => Ok tokens
  | _ =>
      if maxReps <=? 0 then Ok tokens
      else match foldM_result (fun m i =>
                   match getIndex d (replabel_name i) with
                   | Throw e => Throw e
                   | Ok idx => Ok (emplace m idx i)
                   end) (∅ : gmap Z Z) (zrange 1 (maxReps + 1)) with
           | Throw e => Throw e
           | Ok m => Ok (unpackLoop m (-1) tokens)
           end
  end.

(** * Replabel round trip *)

(** The replabel tables [packReplabels] and [unpackReplabels] build describe
    the same finite injection [1..maxReps -> indices]. *)
Definition replabels_ok (d : dict) (maxReps : Z) (r : Z -> Z) : Prop :=
  (forall i, 1 <= i <= maxReps -> getIndex d (replabel_name i) = Ok (r i)) /\
  (forall i j, 1 <= i <= maxReps -> 1 <= j <= maxReps -> r i = r j -> i = j).

Lemma pack_table d maxReps r lo :
  (forall i, lo <= i <= maxReps -> getIndex d (replabel_name i) = Ok (r i)) ->
  mapM_result (fun i => getIndex d (replabel_name i)) (zrange lo (maxReps + 1))
  = Ok (map r (zrange lo (maxReps + 1))).
Proof.
  intros H. apply mapM_result_Ok. apply Forall2_fmap_r.
  apply Forall_Forall2_diag, Forall_forall. intros i Hi%elem_of_zrange.
  apply H. lia.
Qed.

Lemma unpack_table d maxReps r :
  replabels_ok d maxReps r ->
  forall hi, 1 <= hi <= maxReps + 1 ->
  exists m, foldM_result (fun m i =>
      match getIndex d (replabel_name i) with
      | Throw e => Throw e | Ok idx => Ok (emplace m idx i) end)
      (∅ : gmap Z Z) (zrange 1 hi) = Ok m /\
    (forall k v, m !! k = Some v <-> 1 <= v < hi /\ k = r v).
Proof.
  intros [Hr Hinj] hi [Hhi Hle].
  pattern hi; revert Hle; pattern hi; revert hi Hhi.
  refine (Zlt_lower_bound_ind _ 1 _). intros hi IH Hhi Hle.
  destruct (decide (hi = 1)) as [->|Hne].
  - exists ∅. split; [done|]. intros k v. rewrite lookup_empty. naive_solver lia.
  - destruct (IH (hi - 1)) as (m & Hm & Hspec); [lia..|].
    rewrite (zrange_app 1 (hi - 1) hi) by lia. rewrite foldM_result_app, Hm.
    rewrite (zrange_cons (hi - 1) hi), (zrange_nil (hi - 1 + 1)) by lia. cbn [foldM_result].
    rewrite Hr by lia. eexists; split; [done|].
    assert (Hfree : m !! r (hi - 1) = None).
    { destruct (m !! r (hi - 1)) as [v|] eqn:E; [|done].
      apply Hspec in E as [? ?%Hinj]; lia. }
    unfold emplace. rewrite Hfree. intros k v.
    destruct (decide (r (hi - 1) = k)) as [<-|Hk].
    + rewrite lookup_insert_eq. split; [intros [= <-]; split; [lia | done]|].
      intros [? ?%Hinj]; [f_equal; lia | lia..].
    + rewrite lookup_insert_ne by done. rewrite Hspec.
      split; intros [? ->]; split; try done; try lia.
      destruct (decide (v = hi - 1)); [subst; done | lia].
Qed.

Lemma unpackLoop_rep m prev x v l :
  m !! x = Some v -> prev <> -1 ->
  unpackLoop m prev (x :: l) = replicate (Z.to_nat v) prev ++ unpackLoop m (-1) l.
Proof. intros H Hp. cbn. rewrite H. by destruct (Z.eqb_spec prev (-1)). Qed.

Lemma unpack_pack repIdx maxReps m :
  (forall v, 1 <= v <= maxReps -> m !! nth (Z.to_nat v) repIdx 0 = Some v) ->
  forall ts prev n,
  Forall (fun t => t <> -1 /\ m !! t = None) ts ->
  0 <= n <= maxReps -> (0 < n -> prev <> -1) ->
  unpackLoop m prev (packLoop repIdx maxReps prev n ts)
  = replicate (Z.to_nat n) prev ++ ts.
Proof.
  intros Hm. induction ts as [|t ts IH]; intros prev n Hts Hn Hp; cbn [packLoop].
  - destruct (Z.ltb_spec 0 n); cbn [unpackLoop].
    + rewrite Hm by lia. destruct (Z.eqb_spec prev (-1)); [naive_solver|]. done.
    + replace n with 0 by lia. done.
  - apply Forall_cons in Hts as [[Ht1 Ht2] Hts].
    assert (Hrest : forall p, unpackLoop m p (t :: packLoop repIdx maxReps t 0 ts) = t :: ts).
    { intros p. cbn [unpackLoop]. rewrite Ht2, IH by (done || lia). done. }
    destruct (Z.eqb_spec t prev) as [Heq|Hne], (Z.ltb_spec n maxReps) as [Hlt|Hge]; cbn [andb].
    1: { subst t. rewrite IH by (done || lia).
         replace (Z.to_nat (n + 1)) with (S (Z.to_nat n)) by lia.
         by rewrite replicate_S_end, <- app_assoc. }
    all: destruct (Z.ltb_spec 0 n); cbn [app];
         [rewrite (unpackLoop_rep m prev _ n) by (auto with lia); by rewrite Hrest
         | replace n with 0 by lia; apply Hrest].
Qed.

Lemma unpack_packed d maxReps r tokens :
  replabels_ok d maxReps r ->
  Forall (fun t => t <> -1 /\ forall i, 1 <= i <= maxReps -> t <> r i) tokens ->
  exists packed, packReplabels tokens d maxReps = Ok packed /\
                 unpackReplabels packed d maxReps = Ok tokens.
Proof.
  intros Hok Hts. unfold packReplabels.
  destruct tokens as [|t0 ts0] eqn:Etok; [by exists []|]. rewrite <- Etok in *.
  destruct (Z.leb_spec maxReps 0) as [Hmax|Hmax].
  { exists tokens. split; [done|]. subst tokens. cbn. by rewrite (proj2 (Z.leb_le _ _) Hmax). }
  rewrite (pack_table d maxReps r 1) by (intros; apply Hok; lia).
  eexists; split; [done|].
  destruct (unpack_table d maxReps r Hok (maxReps + 1)) as (m & Hm & Hspec); [lia|].
  unfold unpackReplabels.
  destruct (packLoop _ _ _ _ _) as [|p0 ps] eqn:Ep.
  { subst tokens. cbn in Ep. destruct ((t0 =? -1) && (0 <? maxReps)) eqn:E; [|done].
    apply andb_true_iff in E as [E%Z.eqb_eq _]. apply Forall_cons in Hts. naive_solver. }
  rewrite <- Ep, Hm, (proj2 (Z.leb_gt _ _) Hmax). f_equal.
  rewrite unpack_pack; [done | | | lia | lia].
  - intros v Hv. apply Hspec. split; [lia|].
    destruct (Z.to_nat v) as [|k] eqn:Ek; [lia|]. cbn [nth].
    rewrite (nth_indep _ 0 (r 0)) by (rewrite length_map, length_zrange; lia).
    rewrite map_nth. f_equal. apply nth_lookup_Some.
    rewrite zrange_lookup by lia. f_equal. lia.
  - eapply Forall_impl; [apply Hts|]. intros t [? Ht]. split; [done|].
    destruct (m !! t) as [v|] eqn:E; [|done]. apply Hspec in E as [? ->].
    exfalso. eapply Ht; [|done]. lia.
Qed.

(** Packing repeated tokens into replabels and unpacking them again is
    the identity, when the dictionary has a distinct index for each replabel
    [<1>], ..., [<maxReps>] and the tokens are neither replabels nor -1. *)
Theorem unpackReplabels_packReplabels d maxReps r tokens :
  replabels_ok d maxReps r ->
  Forall (fun t => t <> -1 /\ forall i, 1 <= i <= maxReps -> t <> r i) tokens ->
  exists packed, packReplabels tokens d maxReps = Ok packed /\
                 unpackReplabels packed d maxReps = Ok tokens.
Proof. apply unpack_packed. Qed.

(** Replabels [<1>], [<2>] after the letters a, b, c. *)
Definition rep_dict : dict :=
  match createFromStream true [lit "a"; lit "b"; lit "c"; lit "<1>"; lit "<2>"] with
  | Ok d => d | Throw _ => empty_dict end.

Lemma rep_dict_replabels : replabels_ok rep_dict 2 (fun i => 2 + i).
Proof.
  split; [|lia]. intros i Hi. assert (i = 1 \/ i = 2) as [-> | ->] by lia; vm_compute; done.
Qed.

Lemma unpackReplabels_packReplabels_witness :
  exists packed, packReplabels [0; 0; 0; 0; 1; 2; 2] rep_dict 2 = Ok packed /\
                 unpackReplabels packed rep_dict 2 = Ok [0; 0; 0; 0; 1; 2; 2].
Proof.
  apply (unpackReplabels_packReplabels rep_dict 2 (fun i => 2 + i) [0; 0; 0; 0; 1; 2; 2]).
  - exact rep_dict_replabels.
  - repeat constructor; lia.
Defined.

(** * UTF-8 splitting *)

(** A token is one UTF-8 sequence: its first byte announces its length. *)
Definition utf8_token (t : str) : Prop :=
  exists c rest, t = c :: rest /\ curTknBytes c = Some (length t).

Lemma curTknBytes_pos c n : curTknBytes c = Some n -> (1 <= n)%nat.
Proof. unfold curTknBytes. repeat case_match; intros; simplify_eq; lia. Qed.

Lemma splitWrdLoop_sound word : forall fuel i ts,
  (i <= length word)%nat ->
  splitWrdLoop word fuel i = Ok ts -> concat ts = drop i word /\ Forall utf8_token ts.
Proof.
  induction fuel as [|fuel IH]; intros i ts Hi H; cbn in H; [done|].
  destruct (word !! i) as [c|] eqn:Ec.
  2: { injection H as <-. apply lookup_ge_None in Ec. by rewrite drop_ge. }
  destruct (curTknBytes c) as [n|] eqn:En; [|done]. case_decide as Hlen; [done|].
  destruct (splitWrdLoop word fuel (i + n)) as [tks|] eqn:E; [|done].
  injection H as <-. apply IH in E as [Hc Hv]; [|lia].
  pose proof (curTknBytes_pos _ _ En). cbn. unfold slice.
  replace (i + n - i)%nat with n by lia. split.
  - rewrite Hc, <- drop_drop. apply take_drop.
  - constructor; [|done]. rewrite (drop_S word c i) by done.
    destruct n as [|n]; [lia|]. cbn [take]. exists c, (take n (drop (S i) word)).
    split; [done|]. rewrite En. cbn [length]. rewrite length_take, length_drop. f_equal. lia.
Qed.

Lemma splitWrdLoop_complete word : forall fuel i ts,
  (i <= length word)%nat -> (length word - i < fuel)%nat ->
  concat ts = drop i word -> Forall utf8_token ts -> splitWrdLoop word fuel i = Ok ts.
Proof.
  induction fuel as [|fuel IH]; intros i ts Hi Hf Hc Hv; [lia|]. cbn.
  destruct ts as [|t ts].
  - cbn in Hc. assert (Hn : word !! i = None).
    { apply lookup_ge_None. apply (f_equal length) in Hc. rewrite length_drop in Hc.
      cbn in Hc. lia. }
    by rewrite Hn.
  - apply Forall_cons in Hv as [(c & rest & -> & En) Hv]. cbn [concat app] in Hc.
    assert (Hci : word !! i = Some c).
    { rewrite <- (Nat.add_0_r i), <- lookup_drop, <- Hc. done. }
    rewrite Hci, En.
    assert (Hd : drop (i + length (c :: rest)) word = concat ts).
    { rewrite <- drop_drop, <- Hc. cbn. apply drop_app_length. }
    assert (Hl : (length (drop i word) = S (length rest) + length (concat ts))%nat).
    { rewrite <- Hc. cbn. rewrite length_app. lia. }
    rewrite length_drop in Hl. cbn [length] in *.
    rewrite decide_False by lia.
    rewrite (IH _ ts) by (done || lia). unfold slice.
    replace (i + S (length rest) - i)%nat with (S (length rest)) by lia.
    rewrite <- Hc. cbn. by rewrite take_app_length.
Qed.

Lemma splitWrdLoop_fuel word : forall fuel i,
  (i <= length word)%nat -> (length word - i < fuel)%nat ->
  splitWrdLoop word fuel i <> Throw Undefined.
Proof.
  induction fuel as [|fuel IH]; intros i Hi Hf; [lia|]. cbn.
  destruct (word !! i) as [c|]; [|done].
  destruct (curTknBytes c) as [n|] eqn:En; [|done]. case_decide; [done|].
  apply curTknBytes_pos in En. specialize (IH (i + n)%nat).
  destruct (splitWrdLoop word fuel (i + n)); [done|]. intros [= ->]. apply IH; [lia..|done].
Qed.

(** [splitWrd] cuts a word into the unique sequence of UTF-8 sequences
    whose concatenation it is, and throws [runtime_error] exactly when there
    is none. *)
Theorem splitWrd_spec word :
  (forall ts, splitWrd word = Ok ts <-> concat ts = word /\ Forall utf8_token ts) /\
  ((forall ts, Forall utf8_token ts -> concat ts <> word) ->
   splitWrd word = Throw RuntimeError).
Proof.
  assert (Hiff : forall ts, splitWrd word = Ok ts <-> concat ts = word /\ Forall utf8_token ts).
  { intros ts. unfold splitWrd. split.
    - intros H%splitWrdLoop_sound; [done | lia].
    - intros [? ?]. apply splitWrdLoop_complete; [lia.. | done | done]. }
  split; [done|]. intros Hno.
  pose proof (splitWrdLoop_fuel word (S (length word)) 0 ltac:(lia) ltac:(lia)) as Hu.
  destruct (splitWrd word) as [ts|e] eqn:E.
  - destruct (proj1 (Hiff ts) eq_refl) as [? ?]. exfalso. by eapply Hno.
  - unfold splitWrd in E. rewrite E in Hu.
    assert (Hthrow : forall fuel i e', splitWrdLoop word fuel i = Throw e' ->
                     e' = RuntimeError \/ e' = Undefined).
    { clear. induction fuel as [|fuel IH]; intros i e'; cbn; [naive_solver|].
      repeat (case_match; try naive_solver). }
    apply Hthrow in E as [-> | ->]; [done | by destruct Hu].
Qed.

(** A two-byte and a one-byte sequence; a lone continuation byte. *)
Lemma splitWrd_spec_witness :
  splitWrd (map Ascii.ascii_of_nat [195; 169; 97]%nat)
    = Ok [map Ascii.ascii_of_nat [195; 169]%nat; map Ascii.ascii_of_nat [97]%nat] /\
  splitWrd (map Ascii.ascii_of_nat [169]%nat) = Throw RuntimeError.
Proof.
  split.
  - apply (proj1 (splitWrd_spec _)). split; [done|].
    repeat constructor; (do 2 eexists; split; [reflexivity | vm_compute; reflexivity]).
  - apply (proj2 (splitWrd_spec _)). intros ts Hv Hc.
    destruct ts as [|t ts]; [done|]. apply Forall_cons in Hv as [(c & rest & -> & Hb) _].
    cbn in Hc. injection Hc as -> _. vm_compute in Hb. done.
Defined.

(** * Word dictionaries *)

Lemma addEntry_holds d gs w :
  holds d gs -> NoDup (concat gs) ->
  w ∉ concat gs -> exists d', addEntry d w = Ok d' /\ holds d' (gs ++ [[w]]).
Proof.
  intros H Hnd Hw. unfold addEntry.
  rewrite (proj2 (holds_not_in d gs w H) Hw).
  assert (Hff : first_free (idx2entry d) (S (indexSize d)) (Z.of_nat (indexSize d))
                = Some (Z.of_nat (length gs))).
  { cbn [first_free]. rewrite (holds_size d gs H).
    destruct (idx2entry d !! Z.of_nat (length gs)) eqn:E; [|done].
    assert (is_Some (idx2entry d !! Z.of_nat (length gs))) as Hs by (by eexists).
    apply (holds_dom d gs) in Hs; [lia | done]. }
  rewrite Hff. apply (holds_add d gs [] w H). by rewrite app_nil_r.
Qed.

Lemma concat_singletons {A} (ws : list A) : concat (map (fun w => [w]) ws) = ws.
Proof. induction ws; cbn; congruence. Qed.

Lemma addEntries_holds ws : forall d gs,
  holds d gs -> NoDup (concat gs ++ ws) ->
  exists d', foldM_result addEntry d ws = Ok d' /\ holds d' (gs ++ map (fun w => [w]) ws).
Proof.
  induction ws as [|w ws IH]; intros d gs H Hnd; cbn.
  { exists d. by rewrite app_nil_r. }
  pose proof Hnd as (Hnd1 & Hdis & Hndw)%NoDup_app.
  destruct (addEntry_holds d gs w H Hnd1) as (d' & -> & H').
  { intros Hin. apply (Hdis w Hin). by left. }
  destruct (IH d' (gs ++ [[w]]) H') as (d'' & -> & H'').
  { rewrite concat_app. cbn. by rewrite <- app_assoc. }
  exists d''. split; [done|]. by rewrite <- app_assoc in H''.
Qed.

(** For every iteration order of a lexicon that holds the unknown token,
    [createWordDict] succeeds; the result numbers the words of the lexicon
    bijectively with 0, ..., n-1, and any word that is not in the lexicon gets
    the index of the unknown token. *)
Theorem createWordDict_spec (lexicon : lexicon_map) iter :
  iter ≡ₚ map_to_list lexicon -> is_Some (lexicon !! kUnkToken) ->
  exists d unk, createWordDict iter = Ok d /\
    getIndex d kUnkToken = Ok unk /\ isContiguous d = true /\
    indexSize d = size lexicon /\
    (forall w, is_Some (lexicon !! w) ->
       exists i, getIndex d w = Ok i /\ getEntry d i = Ok w) /\
    (forall w, lexicon !! w = None -> getIndex d w = Ok unk).
Proof.
  intros Hiter [sp Hunk]. unfold createWordDict.
  assert (Hperm : map fst iter ≡ₚ map fst (map_to_list lexicon)) by (by rewrite Hiter).
  assert (Hnd : NoDup (map fst iter)).
  { rewrite Hperm. apply (NoDup_fst_map_to_list lexicon). }
  assert (Hin : forall w, w ∈ map fst iter <-> is_Some (lexicon !! w)).
  { intros w. rewrite Hperm, list_elem_of_fmap. split.
    - intros ([w' v] & -> & Hw%elem_of_map_to_list). by eexists.
    - intros [v Hv]. exists (w, v). by rewrite elem_of_map_to_list. }
  destruct (addEntries_holds (map fst iter) empty_dict [] holds_empty Hnd) as (d & -> & H).
  cbn [app] in H. set (gs := map (fun w => [w]) (map fst iter)) in *.
  assert (Hidx : forall w, is_Some (lexicon !! w) ->
            exists i, 0 <= i /\ entry2idx d !! w = Some i /\ idx2entry d !! i = Some w).
  { intros w [k Hk]%Hin%list_elem_of_lookup.
    assert (Hg : gs !! k = Some [w]) by (unfold gs; by rewrite list_lookup_fmap, Hk).
    exists (Z.of_nat k). split; [lia|]. split.
    - apply (holds_e2i _ _ H). exists k, [w]. split_and!; [done | by left | done].
    - apply (holds_i2e _ _ H). exists k, [w]. done. }
  destruct (Hidx kUnkToken ltac:(by eexists)) as (unk & Hpos & Hu & _).
  unfold getIndex at 1. rewrite Hu.
  exists (setDefaultIndex d unk), unk. unfold getIndex, getEntry.
  cbn [entry2idx setDefaultIndex idx2entry defaultIndex].
  rewrite Hu. split_and!; [done | done | | | |].
  - apply (isContiguous_iff (setDefaultIndex d unk)).
    + assert (Hw : wf d) by (apply (holds_wf d gs); [by unfold gs; rewrite concat_singletons | done]).
      destruct Hw as [Hb Hf]. split; [apply Hb | apply Hf].
    + intros i. change (indexSize (setDefaultIndex d unk)) with (indexSize d).
      rewrite (holds_size d gs H). apply (holds_dom d gs i H).
  - change (indexSize (setDefaultIndex d unk)) with (indexSize d).
    rewrite (holds_size d gs H). unfold gs. rewrite !length_map.
    rewrite (Permutation_length Hiter). apply length_map_to_list.
  - intros w Hw. destruct (Hidx w Hw) as (i & _ & -> & Hi). exists i. by rewrite Hi.
  - intros w Hw. assert (Hn : entry2idx d !! w = None).
    { apply (holds_not_in _ _ _ H). unfold gs. rewrite concat_singletons, Hin, Hw.
      by intros [? ?]. }
    rewrite Hn. by destruct (Z.ltb_spec unk 0); [lia|].
Qed.

Lemma createWordDict_spec_witness :
  exists d unk, createWordDict [(lit "b", [[lit "b"]]); (kUnkToken, []); (lit "a", [])] = Ok d /\
    getIndex d kUnkToken = Ok unk /\ isContiguous d = true /\ indexSize d = 3%nat.
Proof.
  destruct (createWordDict_spec
    (list_to_map [(lit "b", [[lit "b"]]); (kUnkToken, []); (lit "a", [])])
    [(lit "b", [[lit "b"]]); (kUnkToken, []); (lit "a", [])])
    as (d & unk & H1 & H2 & H3 & H4 & _).
  - symmetry. apply map_to_list_to_map. vm_compute. repeat (constructor; [set_solver|]). constructor.
  - vm_compute. by eexists.
  - exists d, unk. split_and!; [done.. |]. rewrite H4. vm_compute. done.
Defined.

(** * Lexicon files *)

(** The spellings a lexicon file gives for a word, in file order. *)
Definition spellings (w : str) (lines : list str) : list (list str) :=
  omap (fun line => match splitOnWhitespace line true with
                    | w' :: sp => if decide (w' = w) then Some sp else None
                    | [] => None
                    end) lines.

Definition lexicon_line (line : str) : Prop :=
  (2 <= length (splitOnWhitespace line true))%nat.

Lemma loadLine_spec lex line :
  lexicon_line line ->
  exists lex', loadLine lex line = Ok lex' /\
    forall w, default [] (lex' !! w) = default [] (lex !! w) ++ spellings w [line] /\
              (is_Some (lex' !! w) <-> is_Some (lex !! w) \/ spellings w [line] <> []).
Proof.
  unfold lexicon_line, loadLine, spellings. cbn [omap list_omap].
  destruct (splitOnWhitespace line true) as [|w0 [|s0 sp]]; cbn; intros Hl; [lia..|]. clear Hl.
  eexists; split; [done|]. intros w. case_decide as Hw; [subst w0|].
  - destruct (lex !! w) eqn:E; rewrite !lookup_insert_eq; cbn; rewrite ?E; cbn;
      (split; [done | split; [by right | by eexists]]).
  - assert (Hne : forall m : lexicon_map, <[w0 := default [] (m !! w0) ++ [s0 :: sp]]> m !! w = m !! w)
      by (intros m; by rewrite lookup_insert_ne).
    rewrite Hne, app_nil_r.
    destruct (lex !! w0) eqn:E; [|rewrite lookup_insert_ne by done];
      (split; [done | split; [by left | by intros [?|?]]]).
Qed.

Lemma spellings_cons w line lines :
  spellings w (line :: lines) = spellings w [line] ++ spellings w lines.
Proof. unfold spellings. cbn. by repeat case_match. Qed.

Lemma loadLoop_spec maxWords lines : maxWords < 0 -> forall lex,
  Forall lexicon_line lines ->
  exists lex', loadLoop maxWords lex lines = Ok lex' /\
    forall w, default [] (lex' !! w) = default [] (lex !! w) ++ spellings w lines /\
              (is_Some (lex' !! w) <-> is_Some (lex !! w) \/ spellings w lines <> []).
Proof.
  intros Hmax. induction lines as [|line lines IH]; intros lex Hl; cbn [loadLoop];
    destruct (Z.eqb_spec maxWords (Z.of_nat (size lex))); try lia.
  - exists lex. split; [done|]. intros w. cbn. rewrite app_nil_r. naive_solver.
  - apply Forall_cons in Hl as [Hline Hl].
    destruct (loadLine_spec lex line Hline) as (lex1 & -> & H1).
    destruct (IH lex1 Hl) as (lex2 & -> & H2). exists lex2. split; [done|].
    intros w. destruct (H1 w) as [Hd1 Hs1], (H2 w) as [Hd2 Hs2].
    rewrite spellings_cons, Hd2, Hd1, <- app_assoc. split; [done|].
    rewrite Hs2, Hs1. destruct (spellings w [line]) eqn:E1; cbn; naive_solver.
Qed.

(** Without a word limit, [loadWords] on a file whose lines all have a
    word and a spelling returns, for every word but the unknown token, exactly
    the spellings the file lists for it, in file order; the unknown token is
    always present, with no spelling. *)
Theorem loadWords_spec lines maxWords :
  maxWords < 0 -> Forall lexicon_line lines ->
  exists lex, loadWords lines maxWords = Ok lex /\
    lex !! kUnkToken = Some [] /\
    forall w, w <> kUnkToken ->
      lex !! w = match spellings w lines with [] => None | sps => Some sps end.
Proof.
  intros Hmax Hl. unfold loadWords.
  destruct (loadLoop_spec maxWords lines Hmax ∅ Hl) as (lex & -> & H).
  eexists; split; [done|]. split; [by rewrite lookup_insert_eq|].
  intros w Hw. rewrite lookup_insert_ne by done. destruct (H w) as [Hd Hs].
  rewrite lookup_empty in Hd, Hs. cbn in Hd.
  destruct (lex !! w) as [sps|] eqn:E; cbn in Hd.
  - destruct (proj1 Hs ltac:(by eexists)) as [[? ?]|Hne]; [done|].
    subst sps. by destruct (spellings w lines).
  - by rewrite <- Hd.
Qed.

Lemma loadWords_spec_witness :
  exists lex, loadWords [lit "ab a b"; lit "c c"; lit "ab a b |"] (-1) = Ok lex /\
    lex !! lit "ab" = Some [[lit "a"; lit "b"]; [lit "a"; lit "b"; lit "|"]].
Proof.
  destruct (loadWords_spec [lit "ab a b"; lit "c c"; lit "ab a b |"] (-1)) as (lex & H1 & _ & H2).
  - lia.
  - repeat constructor; vm_compute; lia.
  - exists lex. split; [done|]. rewrite H2 by discriminate. vm_compute. done.
Defined.
