(* ===== verification/Dataset.v ===== *)
(** Datasets of [fl/dataset]: the abstract [Dataset] interface, the combinators
    over it and the iterator.

    A dataset is a size and an indexed [get] that may throw.  What a dataset
    promises its clients is stated by the class [Represents d xs]: [d] behaves
    like the list of samples [xs], and throws [out_of_range] outside it.  Each
    combinator is proved against that interface and provides it in turn.

    Arrays ([af::array]) are a parameter type [A]; the ArrayFire functions the
    code calls on them are parameters as well.  Sizes and indices are [int64_t]
    kept as integers: they are bounded by the number of samples held.  The
    [double] quotients in the [BatchDataset] constructor are taken exactly,
    which is what binary64 gives for sizes below 2^53. *)
From S2P Require Import Prelude.

Open Scope Z_scope.

(** * The Dataset interface *)

Record dataset (A : Type) := MkDataset {
  ds_size : Z;
  ds_get : Z -> result (list A)
}.
Arguments MkDataset {A} _ _.
Arguments ds_size {A} _.
Arguments ds_get {A} _ _.

(** [checkIndexBounds] *)
Definition checkIndexBounds (size idx : Z) : result unit :=
  if (0 <=? idx) && (idx <? size) then Ok tt else Throw OutOfRange.

(** The contract of a dataset that holds the samples [xs]. *)
Class Represents {A} (d : dataset A) (xs : list (list A)) : Prop := {
  rep_size : ds_size d = zlen xs;
  rep_get : forall i x, 0 <= i -> xs !! Z.to_nat i = Some x -> ds_get d i = Ok x;
  rep_oob : forall i, ~ (0 <= i < zlen xs) -> ds_get d i = Throw OutOfRange
}.

(** The reference implementation: a list of samples. *)
Definition list_dataset {A} (xs : list (list A)) : dataset A :=
  MkDataset (zlen xs) (fun i =>
    match checkIndexBounds (zlen xs) i with
    | Throw e => Throw e
    | Ok _ => vec_get xs i
    end).

(** * ConcatDataset *)

(** [cumulativedatasetsizes_]: 0 and the running sums of the sizes. *)
Fixpoint cumulative (acc : Z) (sizes : list Z) : list Z :=
  acc :: match sizes with [] => [] | s :: rest => cumulative (acc + s) rest end.

(** [std::upper_bound(v.begin(), v.end(), x) - v.begin()] on a sorted vector. *)
Fixpoint upper_bound (v : list Z) (x : Z) : Z :=
  match v with
  | [] => 0
  | y :: v' => if x <? y then 0 else 1 + upper_bound v' x
  end.

Definition ConcatDataset {A} (datasets : list (dataset A)) : result (dataset A) :=
  match datasets with
  | [] => Throw InvalidArgument
  | _ =>
      let cum := cumulative 0 (map ds_size datasets) in
      let size := fold_left (fun s d => s + ds_size d) datasets 0 in
      Ok (MkDataset size (fun idx =>
        match checkIndexBounds size idx with
        | Throw e => Throw e
        | Ok _ =>
            let datasetidx := upper_bound cum idx - 1 in
            match vec_get datasets datasetidx, vec_get cum datasetidx with
            | Ok d, Ok c => ds_get d (idx - c)
            | Throw e, _ => Throw e
            | _, Throw e => Throw e
            end
        end))
  end.

(** * MergeDataset *)

Definition MergeDataset {A} (datasets : list (dataset A)) : dataset A :=
  let size := fold_left (fun s d => Z.max (ds_size d) s) datasets 0 in
  MkDataset size (fun idx =>
    match checkIndexBounds size idx with
    | Throw e => Throw e
    | Ok _ =>
        foldM_result (fun res d =>
          if idx <? ds_size d then
            match ds_get d idx with
            | Throw e => Throw e
            | Ok f => Ok (res ++ f)
            end
          else Ok res) [] datasets
    end).

(** * ResampleDataset *)

Definition makeIdentityPermutation (size : Z) : list Z := zrange 0 size.

Definition makePermutationFromFn (size : Z) (fn : option (Z -> Z)) : result (list Z) :=
  match fn with
  | None => Throw InvalidArgument
  | Some f => Ok (map f (makeIdentityPermutation size))
  end.

(** [ResampleDataset(dataset, resamplevec)]; the null dataset is [None]. *)
Definition ResampleDataset {A} (d : option (dataset A)) (resampleVec : list Z)
    : result (dataset A) :=
  match d with
  | None => Throw InvalidArgument
  | Some d =>
      Ok (MkDataset (zlen resampleVec) (fun idx =>
        match checkIndexBounds (zlen resampleVec) idx with
        | Throw e => Throw e
        | Ok _ => match vec_get resampleVec idx with
                  | Throw e => Throw e
                  | Ok j => ds_get d j
                  end
        end))
  end.

(** [ResampleDataset(dataset)]: the identity mapping.  A null dataset is
    dereferenced for its size before it is checked. *)
Definition ResampleDataset_id {A} (d : option (dataset A)) : result (dataset A) :=
  match d with
  | None => Throw Undefined
  | Some d => ResampleDataset (Some d) (makeIdentityPermutation (ds_size d))
  end.

(** [ResampleDataset(dataset, fn, n)] *)
Definition ResampleDataset_fn {A} (d : dataset A) (fn : option (Z -> Z)) (n : Z)
    : result (dataset A) :=
  match makePermutationFromFn (if n =? -1 then ds_size d else n) fn with
  | Throw e => Throw e
  | Ok perm => ResampleDataset (Some d) perm
  end.

(** * ShuffleDataset *)

(** [std::swap(v[i], v[j])] *)
Definition vec_swap {A} (v : list A) (i j : nat) : result (list A) :=
  match v !! i, v !! j with
  | Some x, Some y => Ok (<[j := x]> (<[i := y]> v))
  | _, _ => Throw Undefined
  end.

(** [for (int i = n - 1; i > 0; --i) swap(v[i], v[D(rng, (0, i))])]; [draw] is
    the uniform distribution object applied to the generator state. *)
Fixpoint shuffleLoop {R} (draw : R -> nat -> nat * R) (i : nat) (rng : R) (v : list Z)
    : result (list Z * R) :=
  match i with
  | O => Ok (v, rng)
  | S i' => let '(j, rng') := draw rng i in
            match vec_swap v i j with
            | Throw e => Throw e
            | Ok v' => shuffleLoop draw i' rng' v'
            end
  end.

(** [ShuffleDataset::resample]: the new mapping and generator state. *)
Definition shuffle_resample {R} (draw : R -> nat -> nat * R) (n : Z) (rng : R)
    : result (list Z * R) :=
  shuffleLoop draw (Z.to_nat n - 1) rng (zrange 0 n).

(** The constructor: [ResampleDataset(dataset)], then [resample()]. *)
Definition ShuffleDataset {A R} (draw : R -> nat -> nat * R) (d : option (dataset A)) (rng : R)
    : result (dataset A) :=
  match d with
  | None => Throw Undefined
  | Some d0 => match shuffle_resample draw (ds_size d0) rng with
               | Throw e => Throw e
               | Ok (v, _) => ResampleDataset (Some d0) v
               end
  end.

(** * TransformDataset *)

(** [result[i] = transformFns_[i](result[i])] where there is a function. *)
Fixpoint applyTransforms {A} (fns : list (option (A -> A))) (sample : list A)
    {struct sample} : list A :=
  match sample, fns with
  | [], _ => []
  | x :: xs, [] => x :: xs
  | x :: xs, f :: fs =>
      match f with Some g => g x | None => x end :: applyTransforms fs xs
  end.

Definition TransformDataset {A} (d : option (dataset A)) (fns : list (option (A -> A)))
    : result (dataset A) :=
  match d with
  | None => Throw InvalidArgument
  | Some d =>
      Ok (MkDataset (ds_size d) (fun idx =>
        match checkIndexBounds (ds_size d) idx with
        | Throw e => Throw e
        | Ok _ => match ds_get d idx with
                  | Throw e => Throw e
                  | Ok sample => Ok (applyTransforms fns sample)
                  end
        end))
  end.

(** * The iterator of DatasetIterator.h *)

Definition iter_begin {A} (d : dataset A) : Z := if 0 <? ds_size d then 0 else -1.
Definition iter_end : Z := -1.
Definition iter_next {A} (d : dataset A) (idx : Z) : Z :=
  if ds_size d <=? idx + 1 then -1 else idx + 1.

(** [for (auto& sample : dataset)]: the samples visited from [idx] on. *)
Fixpoint iterate {A} (d : dataset A) (fuel : nat) (idx : Z) : result (list (list A)) :=
  match fuel with
  | O => Throw Undefined (* unreachable: [iterate_all] *)
  | S fuel' =>
      if idx =? iter_end then Ok []
      else match ds_get d idx with
           | Throw e => Throw e
           | Ok x => match iterate d fuel' (iter_next d idx) with
                     | Throw e => Throw e
                     | Ok xs => Ok (x :: xs)
                     end
           end
  end.

(** * Lemmas *)

Lemma checkIndexBounds_in size idx : 0 <= idx < size -> checkIndexBounds size idx = Ok tt.
Proof. intros. unfold checkIndexBounds. by rewrite (proj2 (Z.leb_le _ _)), (proj2 (Z.ltb_lt _ _)) by lia. Qed.

Lemma checkIndexBounds_out size idx : ~ (0 <= idx < size) -> checkIndexBounds size idx = Throw OutOfRange.
Proof.
  intros. unfold checkIndexBounds.
  destruct (Z.leb_spec 0 idx), (Z.ltb_spec idx size); cbn; try done; lia.
Qed.

#[export] Hint Resolve checkIndexBounds_out : fl.

(** A [get] guarded by [checkIndexBounds] only has to be right inside. *)
Lemma represents_guarded {A} size (f : Z -> result (list A)) xs :
  size = zlen xs ->
  (forall i x, 0 <= i -> xs !! Z.to_nat i = Some x -> f i = Ok x) ->
  Represents (MkDataset size (fun i =>
    match checkIndexBounds size i with Throw e => Throw e | Ok _ => f i end)) xs.
Proof.
  intros -> Hf. split; cbn; [done | |].
  - intros i x Hi Hx. pose proof (lookup_lt_Some _ _ _ Hx).
    rewrite checkIndexBounds_in by (unfold zlen; lia). by apply Hf.
  - intros i Hi. by rewrite checkIndexBounds_out.
Qed.

#[export] Instance list_dataset_represents {A} (xs : list (list A)) :
  Represents (list_dataset xs) xs.
Proof. apply represents_guarded; [done|]. intros. by apply vec_get_Ok. Qed.

Lemma fold_left_size {A} (ds : list (dataset A)) xss acc :
  Forall2 Represents ds xss ->
  fold_left (fun s d => s + ds_size d) ds acc = acc + zlen (concat xss).
Proof.
  intros H. revert acc. induction H as [|d xs ds xss Hd H IH]; intros acc; cbn; [unfold zlen; cbn; lia|].
  rewrite IH, zlen_app, (rep_size (d := d)). lia.
Qed.

(** Positions below the first cumulative size are found at 0. *)
Lemma concat_lookup {A} (ds : list (dataset A)) xss : Forall2 Represents ds xss ->
  forall base i x, 0 <= i - base -> concat xss !! Z.to_nat (i - base) = Some x ->
  exists k d c, upper_bound (cumulative base (map ds_size ds)) i = 1 + Z.of_nat k /\
    ds !! k = Some d /\ cumulative base (map ds_size ds) !! k = Some c /\ ds_get d (i - c) = Ok x.
Proof.
  induction 1 as [|d xs ds xss Hd H IH]; intros base i x Hi Hx; cbn in Hx; [done|].
  cbn [map cumulative upper_bound]. destruct (Z.ltb_spec i base); [lia|].
  rewrite (rep_size (d := d)) in *.
  destruct (decide (i - base < zlen xs)) as [Hlt|Hge].
  - exists 0%nat, d, base. rewrite lookup_app_l in Hx by (unfold zlen in Hlt; lia).
    split_and!; [|done..|by apply rep_get].
    destruct ds; cbn [map cumulative upper_bound]; destruct (Z.ltb_spec i (base + zlen xs)); lia.
  - rewrite lookup_app_r in Hx by (unfold zlen in Hge; lia).
    destruct (IH (base + zlen xs) i x) as (k & d' & c & Hub & Hk & Hc & Hget).
    + lia.
    + rewrite <- Hx. f_equal. unfold zlen in *. lia.
    + exists (S k), d', c. rewrite Hub. split_and!; [lia | done..].
Qed.

(** [ConcatDataset] of datasets that hold [xss] holds the concatenation
    of [xss] (empty parts included), and rejects an empty list of datasets. *)
Theorem ConcatDataset_represents {A} (ds : list (dataset A)) xss :
  Forall2 Represents ds xss ->
  match ConcatDataset ds with
  | Ok d => Represents d (concat xss)
  | Throw e => e = InvalidArgument /\ ds = []
  end.
Proof.
  intros H. unfold ConcatDataset. destruct ds as [|d0 ds0] eqn:E; [done|]. rewrite <- E in *.
  apply (represents_guarded _ (fun idx =>
    match vec_get ds (upper_bound (cumulative 0 (map ds_size ds)) idx - 1),
          vec_get (cumulative 0 (map ds_size ds)) (upper_bound (cumulative 0 (map ds_size ds)) idx - 1) with
    | Ok d, Ok c => ds_get d (idx - c) | Throw e, _ => Throw e | _, Throw e => Throw e end)).
  { by rewrite (fold_left_size _ xss). }
  intros i x Hi Hx.
  destruct (concat_lookup ds xss H 0 i x) as (k & d & c & Hub & Hk & Hc & Hget);
    [lia | by rewrite Z.sub_0_r |].
  rewrite Hub. replace (1 + Z.of_nat k - 1) with (Z.of_nat k) by lia.
  rewrite (proj2 (vec_get_Ok ds (Z.of_nat k) d)) by (rewrite Nat2Z.id; split; [lia | done]).
  rewrite (proj2 (vec_get_Ok _ (Z.of_nat k) c)) by (rewrite Nat2Z.id; split; [lia | done]).
  done.
Qed.

Lemma ConcatDataset_represents_witness :
  match ConcatDataset [list_dataset [[1]; [2]]; list_dataset []; list_dataset [[3]]] with
  | Ok d => Represents d [[1]; [2]; [3]]
  | Throw e => False
  end.
Proof.
  pose proof (ConcatDataset_represents
    [list_dataset [[1]; [2]]; list_dataset []; list_dataset [[3]]] [[[1]; [2]]; []; [[3]]]) as H.
  apply H. repeat constructor; apply list_dataset_represents.
Defined.

(** * MergeDataset joins the fields of the samples with the same index *)

Definition merge_lists {A} (xss : list (list (list A))) : list (list A) :=
  map (fun i => concat (omap (fun xs => xs !! i) xss)) (seq 0 (max_list (map length xss))).

Lemma fold_left_max {A} (ds : list (dataset A)) xss acc :
  Forall2 Represents ds xss -> 0 <= acc ->
  fold_left (fun s d => Z.max (ds_size d) s) ds acc
  = Z.max acc (Z.of_nat (max_list (map length xss))).
Proof.
  intros H. revert acc. induction H as [|d xs ds xss Hd H IH]; intros acc Hacc; cbn; [lia|].
  rewrite IH, (rep_size (d := d)) by lia. unfold zlen. lia.
Qed.

Lemma merge_fold {A} (ds : list (dataset A)) xss i acc :
  Forall2 Represents ds xss -> 0 <= i ->
  foldM_result (fun res d => if i <? ds_size d then
      match ds_get d i with Throw e => Throw e | Ok f => Ok (res ++ f) end else Ok res) acc ds
  = Ok (acc ++ concat (omap (fun xs => xs !! Z.to_nat i) xss)).
Proof.
  intros H Hi. revert acc. induction H as [|d xs ds xss Hd H IH]; intros acc; cbn.
  { by rewrite app_nil_r. }
  rewrite (rep_size (d := d)). destruct (xs !! Z.to_nat i) as [x|] eqn:E.
  - pose proof (lookup_lt_Some _ _ _ E). destruct (Z.ltb_spec i (zlen xs)); [|unfold zlen in *; lia].
    rewrite (rep_get i x) by done. rewrite IH. cbn. by rewrite <- app_assoc.
  - apply lookup_ge_None in E. destruct (Z.ltb_spec i (zlen xs)); [unfold zlen in *; lia|].
    apply IH.
Qed.

(** [MergeDataset] holds, at each index, the fields of all the underlying
    datasets that reach that index, in order. *)
Theorem MergeDataset_represents {A} (ds : list (dataset A)) xss :
  Forall2 Represents ds xss -> Represents (MergeDataset ds) (merge_lists xss).
Proof.
  intros H. apply represents_guarded.
  - rewrite (fold_left_max ds xss) by (done || lia). unfold merge_lists, zlen.
    rewrite length_map, length_seq. lia.
  - intros i x Hi Hx. rewrite (merge_fold ds xss) by done.
    unfold merge_lists in Hx. apply list_lookup_fmap_Some in Hx as (k & -> & Hk).
    apply lookup_seq in Hk as [-> _]. done.
Qed.

Lemma MergeDataset_represents_witness :
  Represents (MergeDataset [list_dataset [[1]; [2]]; list_dataset [[5]]]) [[1; 5]; [2]].
Proof.
  apply (MergeDataset_represents [list_dataset [[1]; [2]]; list_dataset [[5]]] [[[1]; [2]]; [[5]]]).
  repeat constructor; apply list_dataset_represents.
Defined.

(** * Resampling and shuffling *)

Lemma ResampleDataset_represents {A} (d : dataset A) xs v ys :
  Represents d xs -> Forall2 (fun i y => 0 <= i /\ xs !! Z.to_nat i = Some y) v ys ->
  exists r, ResampleDataset (Some d) v = Ok r /\ Represents r ys.
Proof.
  intros Hd Hv. eexists; split; [done|].
  apply (represents_guarded _ (fun idx =>
    match vec_get v idx with Throw e => Throw e | Ok j => ds_get d j end)).
  - unfold zlen. by rewrite (Forall2_length _ _ _ Hv).
  - intros i y Hi Hy. destruct (Forall2_lookup_r _ _ _ _ _ Hv Hy) as (j & Hj & Hj0 & Hx).
    rewrite (proj2 (vec_get_Ok v i j)) by done. by apply rep_get.
Qed.

Lemma shuffleLoop_Permutation {R} (draw : R -> nat -> nat * R) :
  (forall rng i, (fst (draw rng i) <= i)%nat) ->
  forall i rng v, (i < length v \/ i = 0)%nat ->
  exists v' rng', shuffleLoop draw i rng v = Ok (v', rng') /\ v' ≡ₚ v.
Proof.
  intros Hd. induction i as [|i IH]; intros rng v Hi; cbn; [eauto|].
  specialize (Hd rng (S i)). destruct (draw rng (S i)) as [j rng1]. cbn in Hd.
  destruct (lookup_lt_is_Some_2 v (S i)) as [x Hx]; [lia|].
  destruct (lookup_lt_is_Some_2 v j) as [y Hy]; [lia|].
  unfold vec_swap. rewrite Hx, Hy.
  destruct (IH rng1 (<[j := x]> (<[S i := y]> v))) as (v' & rng' & -> & Hp).
  { left. rewrite !length_insert. lia. }
  exists v', rng'. split; [done|]. rewrite Hp. by apply Permutation_insert_swap.
Qed.

Lemma identity_resample {A} (xs : list A) :
  Forall2 (fun i y => 0 <= i /\ xs !! Z.to_nat i = Some y) (zrange 0 (zlen xs)) xs.
Proof.
  apply Forall2_same_length_lookup_2.
  - rewrite length_zrange. unfold zlen. lia.
  - intros k i y Hk Hy. pose proof (lookup_lt_Some _ _ _ Hy).
    rewrite zrange_lookup in Hk by (unfold zlen; lia). injection Hk as <-.
    rewrite Z.add_0_l, Nat2Z.id. split; [lia | done].
Qed.

(** For every generator state, [ShuffleDataset] holds a permutation of
    the samples of the dataset it shuffles: nothing is lost or repeated. The
    only assumption on the generator is that the distribution draws from the
    closed range [0, i] it is given. *)
Theorem ShuffleDataset_permutation {A R} (draw : R -> nat -> nat * R) (d : dataset A) xs rng :
  (forall rng i, (fst (draw rng i) <= i)%nat) -> Represents d xs ->
  exists r ys, ShuffleDataset draw (Some d) rng = Ok r /\ Represents r ys /\ ys ≡ₚ xs.
Proof.
  intros Hd Hrep. unfold ShuffleDataset, shuffle_resample. rewrite (rep_size (d := d)).
  destruct (shuffleLoop_Permutation draw Hd (Z.to_nat (zlen xs) - 1) rng (zrange 0 (zlen xs)))
    as (v & rng' & -> & Hp).
  { rewrite length_zrange. lia. }
  symmetry in Hp.
  destruct (Permutation_Forall2 Hp (identity_resample xs)) as (ys & Hys & Hv).
  destruct (ResampleDataset_represents d xs v ys Hrep Hv) as (r & -> & Hr).
  exists r, ys. by rewrite Hys.
Qed.

Lemma ShuffleDataset_permutation_witness :
  exists r ys,
    ShuffleDataset (fun rng i => (rng mod S i, S rng)%nat)
      (Some (list_dataset [[10]; [20]; [30]])) 7%nat = Ok r /\
    Represents r ys /\ ys ≡ₚ [[10]; [20]; [30]].
Proof.
  apply (ShuffleDataset_permutation (fun rng i => (rng mod S i, S rng)%nat)).
  - intros rng i. cbn [fst]. pose proof (Nat.mod_upper_bound rng (S i)). lia.
  - apply list_dataset_represents.
Defined.

(** * Transforms and iteration *)

(** [TransformDataset] applies the i-th function, where there is one, to
    the i-th field of every sample. *)
Theorem TransformDataset_represents {A} (d : dataset A) xs fns :
  Represents d xs ->
  exists r, TransformDataset (Some d) fns = Ok r /\
    Represents r (map (applyTransforms fns) xs) /\
    (forall sample k x, applyTransforms fns sample !! k = Some x <->
       exists y, sample !! k = Some y /\
         x = match fns !! k with Some (Some f) => f y | _ => y end).
Proof.
  intros Hrep. eexists; split; [done|]. split.
  - apply (represents_guarded _ (fun idx => match ds_get d idx with
             | Throw e => Throw e | Ok sample => Ok (applyTransforms fns sample) end)).
    + rewrite (rep_size (d := d)). unfold zlen. by rewrite length_map.
    + intros i x Hi Hx. apply list_lookup_fmap_Some in Hx as (y & -> & Hy).
      by rewrite (rep_get i y).
  - intros sample. revert fns. induction sample as [|y sample IH]; intros fns k x; cbn.
    + setoid_rewrite lookup_nil. split; [done | by intros (? & ? & _)].
    + destruct fns as [|f fns]; [|destruct k as [|k]; cbn].
      * split; [|intros (y' & -> & ->)]; destruct k; cbn; naive_solver.
      * destruct f; naive_solver.
      * apply IH.
Qed.

Lemma TransformDataset_represents_witness :
  exists r, TransformDataset (Some (list_dataset [[1; 2]; [3; 4]])) [None; Some Z.opp] = Ok r /\
            Represents r [[1; -2]; [3; -4]].
Proof.
  destruct (TransformDataset_represents (list_dataset [[1; 2]; [3; 4]]) [[1; 2]; [3; 4]]
              [None; Some Z.opp]) as (r & H1 & H2 & _).
  - apply list_dataset_represents.
  - exists r. split; [done | apply H2].
Defined.

Lemma iterate_from {A} (d : dataset A) xs : Represents d xs ->
  forall fuel i, 0 <= i < zlen xs -> zlen xs - i < Z.of_nat fuel ->
  iterate d fuel i = Ok (drop (Z.to_nat i) xs).
Proof.
  intros Hrep. induction fuel as [|fuel IH]; intros i Hi Hf; [lia|]. cbn [iterate].
  unfold iter_end. destruct (Z.eqb_spec i (-1)); [lia|].
  destruct (lookup_lt_is_Some_2 xs (Z.to_nat i)) as [x Hx]; [unfold zlen in Hi; lia|].
  rewrite (rep_get i x) by (done || lia). unfold iter_next. rewrite (rep_size (d := d)).
  rewrite (drop_S xs x) by done. destruct (Z.leb_spec (zlen xs) (i + 1)).
  - rewrite drop_ge by (unfold zlen in *; lia). by destruct fuel; [lia|].
  - rewrite IH by lia. do 3 f_equal. lia.
Qed.

(** A range-based loop over a dataset visits every sample once, in index
    order, and terminates after [size] increments. *)
Theorem iterate_all {A} (d : dataset A) xs :
  Represents d xs -> iterate d (S (length xs)) (iter_begin d) = Ok xs.
Proof.
  intros Hrep. unfold iter_begin. rewrite (rep_size (d := d)).
  destruct (Z.ltb_spec 0 (zlen xs)).
  - rewrite (iterate_from d xs Hrep); [by rewrite drop_0 | lia | unfold zlen; lia].
  - assert (xs = []) as -> by (destruct xs; [done | unfold zlen in *; cbn in *; lia]). done.
Qed.

Lemma iterate_all_witness :
  iterate (list_dataset [[1]; [2]]) 3 (iter_begin (list_dataset [[1]; [2]])) = Ok [[1]; [2]].
Proof. apply (iterate_all (list_dataset [[1]; [2]]) [[1]; [2]]), list_dataset_represents. Defined.
