(* ===== verification/BatchDataset.v ===== *)
(** Batching: [makeBatch] and [makeBatchFromRange] of [fl/dataset/Utils.cpp]
    and [fl/dataset/BatchDataset.cpp]. *)
From S2P Require Import Prelude Dataset.

Open Scope Z_scope.

Inductive BatchDatasetPolicy := INCLUDE_LAST | SKIP_LAST | DIVISIBLE_ONLY.

Section batching.
(** ArrayFire arrays and the functions [makeBatch] calls on them: [af_stack n
    data] is the array [batcharr] whose slice [i] along dimension [n] was
    assigned [data[i]]. *)
Context {A : Type}.
Variable af_empty : A.
Variable af_dims : A -> list Z.
Variable af_elements : A -> Z.
Variable af_ndims : A -> Z.
Variable af_stack : Z -> list A -> A.

Abbreviation BatchFunction := (option (list A -> A)).

Definition makeBatch (data : list A) (batchFn : BatchFunction) : result A :=
  match batchFn with
  | Some f => Ok (f data)
  | None =>
      match data with
      | [] => Ok af_empty
      | d0 :: _ =>
          if forallb (fun d => bool_decide (af_dims d = af_dims d0)) data then
            let ndims := if 1 <? af_elements d0 then af_ndims d0 else 0 in
            if 4 <=? ndims then Throw InvalidArgument
            else Ok (af_stack ndims data)
          else Throw InvalidArgument
      end
  end.

(** [buffer.resize(max)] and [buffer[i].emplace_back(fds[i])] for one sample. *)
Fixpoint addFields (buffer : list (list A)) (fds : list A) : list (list A) :=
  match fds, buffer with
  | [], _ => buffer
  | f :: fs, [] => [f] :: addFields [] fs
  | f :: fs, b :: bs => (b ++ [f]) :: addFields bs fs
  end.

(** [makeBatch(buffer[i], i < batchFns.size() ? batchFns[i] : nullptr)] for the
    fields from number [i] on. *)
Fixpoint batchFields (batchFns : list BatchFunction) (buffer : list (list A))
    : result (list A) :=
  match buffer with
  | [] => Ok []
  | b :: bs =>
      match makeBatch b (match batchFns with f :: _ => f | [] => None end) with
      | Throw e => Throw e
      | Ok r => match batchFields (tail batchFns) bs with
                | Throw e => Throw e
                | Ok rs => Ok (r :: rs)
                end
      end
  end.

Definition makeBatchFromRange (d : dataset A) (batchFns : list BatchFunction)
    (start stop : Z) : result (list A) :=
  match foldM_result (fun buffer i =>
          match ds_get d i with
          | Throw e => Throw e
          | Ok fds => Ok (addFields buffer fds)
          end) [] (zrange start stop) with
  | Throw e => Throw e
  | Ok buffer => batchFields batchFns buffer
  end.

(** [get] with a fixed batch size. *)
Definition batch_get (d : dataset A) (batchFns : list BatchFunction)
    (size batchSize preBatchSize idx : Z) : result (list A) :=
  match checkIndexBounds size idx with
  | Throw e => Throw e
  | Ok _ =>
      let start := batchSize * idx in
      makeBatchFromRange d batchFns start (Z.min (start + batchSize) preBatchSize)
  end.

(** The fixed-size constructor.  [size0] is the value the member [size_] holds
    before it is assigned: the constructor reads it in the [DIVISIBLE_ONLY]
    case. *)
Definition BatchDataset (size0 : Z) (d : option (dataset A)) (batchSize : Z)
    (policy : BatchDatasetPolicy) (batchFns : list BatchFunction) : result (dataset A) :=
  match d with
  | None => Throw InvalidArgument
  | Some d =>
      if batchSize <=? 0 then Throw InvalidArgument
      else
        let pre := ds_size d in
        match (match policy with
               | INCLUDE_LAST => Ok (- ((- pre) / batchSize))
               | SKIP_LAST => Ok (pre / batchSize)
               | DIVISIBLE_ONLY =>
                   if Z.rem size0 batchSize =? 0 then Ok (- ((- pre) / batchSize))
                   else Throw InvalidArgument
               end) with
        | Throw e => Throw e
        | Ok size => Ok (MkDataset size (batch_get d batchFns size batchSize pre))
        end
  end.

(** [std::partial_sum] in place. *)
Fixpoint partial_sum (acc : Z) (l : list Z) : list Z :=
  match l with
  | [] => []
  | x :: l' => (acc + x) :: partial_sum (acc + x) l'
  end.

(** The constructor with one size per batch, and its [get]. *)
Definition BatchDataset_sizes (d : option (dataset A)) (batchSizes : list Z)
    (batchFns : list BatchFunction) : result (dataset A) :=
  match d with
  | None => Throw InvalidArgument
  | Some d =>
      match batchSizes with
      | [] => Throw InvalidArgument
      | _ =>
          let cum := partial_sum 0 batchSizes in
          Ok (MkDataset (zlen cum) (fun idx =>
            match checkIndexBounds (zlen cum) idx with
            | Throw e => Throw e
            | Ok _ =>
                match (if idx =? 0 then Ok 0 else vec_get cum (idx - 1)), vec_get cum idx with
                | Ok start, Ok c => makeBatchFromRange d batchFns start (Z.min c (ds_size d))
                | Throw e, _ => Throw e
                | _, Throw e => Throw e
                end
            end))
      end
  end.

(** * Batches are made of the columns of a run of samples *)

(** Field [k] of the samples that have one. *)
Definition column (xs : list (list A)) (k : nat) : list A := omap (fun s => s !! k) xs.

Definition width (xs : list (list A)) : nat := max_list (map length xs).

(** The batch of a run of samples: one [makeBatch] per column. *)
Definition batch_of (batchFns : list BatchFunction) (xs : list (list A)) : result (list A) :=
  batchFields batchFns (map (column xs) (seq 0 (width xs))).

Lemma addFields_lookup buffer fds k :
  addFields buffer fds !! k =
  match buffer !! k, fds !! k with
  | None, None => None
  | b, f => Some (default [] b ++ option_list f)
  end.
Proof.
  revert buffer k. induction fds as [|f fds IH]; intros buffer k.
  - rewrite lookup_nil. cbn. destruct (buffer !! k); cbn; [by rewrite app_nil_r | done].
  - destruct buffer as [|b buffer], k as [|k]; cbn; try done.
    all: by rewrite IH.
Qed.


Lemma omap_snoc {B C} (f : B -> option C) l x : omap f (l ++ [x]) = omap f l ++ option_list (f x).
Proof. induction l as [|y l IH]; cbn; [by destruct (f x)|]. destruct (f y); cbn; by rewrite IH. Qed.

Lemma max_list_snoc l n : max_list (l ++ [n]) = Nat.max (max_list l) n.
Proof. induction l as [|m l IH]; cbn; [lia|]. rewrite IH. lia. Qed.

Lemma column_short xs k : (width xs <= k)%nat -> column xs k = [].
Proof.
  unfold width, column. induction xs as [|s xs IH]; cbn; intros Hk; [done|].
  rewrite lookup_ge_None_2 by lia. apply IH. lia.
Qed.

Lemma columns_lookup xs k :
  map (column xs) (seq 0 (width xs)) !! k =
  if decide (k < width xs)%nat then Some (column xs k) else None.
Proof.
  rewrite list_lookup_fmap. case_decide.
  - by rewrite lookup_seq_lt.
  - by rewrite lookup_seq_ge by lia.
Qed.

Lemma addFields_columns xs s :
  addFields (map (column xs) (seq 0 (width xs))) s
  = map (column (xs ++ [s])) (seq 0 (width (xs ++ [s]))).
Proof.
  apply list_eq. intros k. rewrite addFields_lookup, !columns_lookup.
  assert (Hw : width (xs ++ [s]) = Nat.max (width xs) (length s)).
  { unfold width. rewrite map_app. cbn. apply max_list_snoc. }
  rewrite Hw. unfold column at 2. rewrite omap_snoc. fold (column xs k).
  destruct (s !! k) as [f|] eqn:Es.
  - pose proof (lookup_lt_Some _ _ _ Es). rewrite (decide_True (P := (k < Nat.max _ _)%nat)) by lia.
    case_decide; cbn; [done|]. by rewrite column_short by lia.
  - apply lookup_ge_None in Es. case_decide; cbn.
    + by rewrite decide_True by lia.
    + by rewrite decide_False by lia.
Qed.

(** A batch of a range of a dataset is the batch of the samples in the range. *)
Lemma makeBatchFromRange_spec d xs fns start stop :
  Represents d xs -> 0 <= start <= stop -> stop <= zlen xs ->
  makeBatchFromRange d fns start stop
  = batch_of fns (take (Z.to_nat (stop - start)) (drop (Z.to_nat start) xs)).
Proof.
  intros Hrep Hs He. unfold makeBatchFromRange, batch_of.
  assert (H : forall n, start + Z.of_nat n <= zlen xs ->
    foldM_result (fun buffer i => match ds_get d i with
        | Throw e => Throw e | Ok fds => Ok (addFields buffer fds) end) []
      (zrange start (start + Z.of_nat n))
    = let ys := take n (drop (Z.to_nat start) xs) in
      Ok (map (column ys) (seq 0 (width ys)))).
  { induction n as [|n IH]; intros Hn.
    - rewrite zrange_nil by lia. by rewrite take_0.
    - rewrite (zrange_app start (start + Z.of_nat n)) by lia.
      rewrite foldM_result_app, IH by lia.
      rewrite (zrange_cons (start + Z.of_nat n)), zrange_nil by lia. cbn [foldM_result].
      destruct (lookup_lt_is_Some_2 xs (Z.to_nat start + n)) as [x Hx]; [unfold zlen in Hn; lia|].
      rewrite (rep_get _ x);
        [| lia | by replace (Z.to_nat (start + Z.of_nat n)) with (Z.to_nat start + n)%nat by lia].
      rewrite addFields_columns. cbv zeta.
      rewrite (take_S_r (drop (Z.to_nat start) xs) n x); [done | by rewrite lookup_drop]. }
  specialize (H (Z.to_nat (stop - start)) ltac:(lia)).
  replace (start + Z.of_nat (Z.to_nat (stop - start))) with stop in H by lia.
  by rewrite H.
Qed.

(** * Fixed batch sizes *)

Definition chunks (b n : nat) (xs : list (list A)) : list (list (list A)) :=
  map (fun i => take b (drop (b * i) xs)) (seq 0 n).

Lemma concat_chunks b n xs : concat (chunks b n xs) = take (b * n) xs.
Proof.
  unfold chunks. induction n as [|n IH]; [by rewrite Nat.mul_0_r, take_0|].
  rewrite seq_S, map_app, concat_app, IH. cbn. rewrite app_nil_r.
  replace (b * S n)%nat with (b * n + b)%nat by lia. by rewrite take_take_drop.
Qed.

Lemma chunks_lookup b n xs i c :
  chunks b n xs !! i = Some c <-> (i < n)%nat /\ c = take b (drop (b * i) xs).
Proof.
  unfold chunks. rewrite list_lookup_fmap_Some. split.
  - intros (k & -> & [-> ?]%lookup_seq). done.
  - intros [? ->]. exists i. split; [done|]. by apply lookup_seq.
Qed.

Lemma batch_get_chunk d xs fns (b n : nat) i c :
  Represents d xs -> (0 < b)%nat -> (b * (n - 1) <= length xs)%nat ->
  chunks b n xs !! i = Some c ->
  batch_get d fns (Z.of_nat n) (Z.of_nat b) (zlen xs) (Z.of_nat i) = batch_of fns c.
Proof.
  intros Hrep Hb Hn [Hi ->]%chunks_lookup. unfold batch_get.
  rewrite checkIndexBounds_in by lia. cbv zeta.
  assert (b * i <= length xs)%nat by nia.
  rewrite (makeBatchFromRange_spec d xs) by (done || unfold zlen; lia).
  f_equal. replace (Z.to_nat (Z.of_nat b * Z.of_nat i)) with (b * i)%nat by lia.
  destruct (decide (b * i + b <= length xs)%nat) as [Hle|Hgt].
  - f_equal. unfold zlen. lia.
  - rewrite !take_ge; [done | rewrite length_drop; unfold zlen; lia..].
Qed.

Lemma batch_get_out d fns size b pre i :
  ~ (0 <= i < size) -> batch_get d fns size b pre i = Throw OutOfRange.
Proof. intros. unfold batch_get. by rewrite checkIndexBounds_out. Qed.

(** With [INCLUDE_LAST] the batches cover the dataset exactly: they are
    the columns of consecutive chunks whose concatenation is the whole
    dataset, every chunk but the last has [batchSize] samples and no chunk is
    empty. *)
Theorem BatchDataset_include_last size0 d xs (b : nat) fns :
  Represents d xs -> (0 < b)%nat ->
  exists r cs, BatchDataset size0 (Some d) (Z.of_nat b) INCLUDE_LAST fns = Ok r /\
    concat cs = xs /\ ds_size r = zlen cs /\
    (forall i c, cs !! i = Some c ->
       (0 < length c <= b)%nat /\ ((S i < length cs)%nat -> length c = b) /\
       ds_get r (Z.of_nat i) = batch_of fns c) /\
    (forall i, ~ (0 <= i < zlen cs) -> ds_get r i = Throw OutOfRange).
Proof.
  intros Hrep Hb. unfold BatchDataset. destruct (Z.leb_spec (Z.of_nat b) 0); [lia|].
  rewrite (rep_size (d := d)).
  set (m := - (- zlen xs / Z.of_nat b)).
  assert (Hm : Z.of_nat b * (m - 1) < zlen xs <= Z.of_nat b * m /\ 0 <= m).
  { unfold m. pose proof (zlen_nonneg xs).
    pose proof (Z.div_mod (- zlen xs) (Z.of_nat b) ltac:(lia)).
    pose proof (Z.mod_pos_bound (- zlen xs) (Z.of_nat b) ltac:(lia)). nia. }
  destruct Hm as [Hm Hm0]. assert (Hn : m = Z.of_nat (Z.to_nat m)) by lia.
  set (n := Z.to_nat m) in *. rewrite Hn. unfold zlen in Hm.
  assert (Hb1 : (b * (n - 1) <= length xs)%nat) by nia.
  assert (Hb2 : (0 < n -> b * (n - 1) < length xs)%nat) by nia.
  assert (Hb3 : (length xs <= b * n)%nat) by nia.
  assert (Hlen : length (chunks b n xs) = n) by (unfold chunks; by rewrite length_map, length_seq).
  eexists _, (chunks b n xs). split; [done|]. cbn [ds_size ds_get].
  split_and!; [by rewrite concat_chunks, take_ge by lia | unfold zlen; by rewrite Hlen | |].
  - intros i c Hc. split_and!; [..| by apply (batch_get_chunk d xs)];
      apply chunks_lookup in Hc as [Hi ->]; rewrite length_take, length_drop;
      [nia.. | intros; rewrite Hlen in *; nia].
  - intros i Hi. apply batch_get_out. unfold zlen in Hi. by rewrite Hlen in Hi.
Qed.

(** With [SKIP_LAST] every batch is made of exactly [batchSize] samples
    and only a tail shorter than a batch is left out. *)
Theorem BatchDataset_skip_last size0 d xs (b : nat) fns :
  Represents d xs -> (0 < b)%nat ->
  exists r cs rest, BatchDataset size0 (Some d) (Z.of_nat b) SKIP_LAST fns = Ok r /\
    concat cs ++ rest = xs /\ (length rest < b)%nat /\ ds_size r = zlen cs /\
    (forall i c, cs !! i = Some c -> length c = b /\ ds_get r (Z.of_nat i) = batch_of fns c) /\
    (forall i, ~ (0 <= i < zlen cs) -> ds_get r i = Throw OutOfRange).
Proof.
  intros Hrep Hb. unfold BatchDataset. destruct (Z.leb_spec (Z.of_nat b) 0); [lia|].
  rewrite (rep_size (d := d)).
  set (m := zlen xs / Z.of_nat b).
  assert (Hm : Z.of_nat b * m <= zlen xs < Z.of_nat b * (m + 1) /\ 0 <= m).
  { unfold m. pose proof (zlen_nonneg xs).
    pose proof (Z.div_mod (zlen xs) (Z.of_nat b) ltac:(lia)).
    pose proof (Z.mod_pos_bound (zlen xs) (Z.of_nat b) ltac:(lia)). nia. }
  destruct Hm as [Hm Hm0]. assert (Hn : m = Z.of_nat (Z.to_nat m)) by lia.
  set (n := Z.to_nat m) in *. rewrite Hn. unfold zlen in Hm.
  assert (Hb1 : (b * n <= length xs)%nat) by nia.
  assert (Hb3 : (length xs < b * n + b)%nat) by nia.
  assert (Hlen : length (chunks b n xs) = n) by (unfold chunks; by rewrite length_map, length_seq).
  eexists _, (chunks b n xs), (drop (b * n) xs). split; [done|]. cbn [ds_size ds_get].
  split_and!; [by rewrite concat_chunks, take_drop | rewrite length_drop; lia
              | unfold zlen; by rewrite Hlen | |].
  - intros i c Hc. split; [| apply (batch_get_chunk d xs); [done | lia | nia | done]].
    apply chunks_lookup in Hc as [Hi ->]. rewrite length_take, length_drop. nia.
  - intros i Hi. apply batch_get_out. unfold zlen in Hi. by rewrite Hlen in Hi.
Qed.

(** Under [DIVISIBLE_ONLY] the divisibility test reads the member [size_]
    before it is assigned, so it never looks at the dataset: the constructor
    accepts or rejects every dataset alike, whatever its size. *)
Theorem BatchDataset_divisible_only size0 d (b : nat) fns :
  (0 < b)%nat ->
  (exists r, BatchDataset size0 (Some d) (Z.of_nat b) DIVISIBLE_ONLY fns = Ok r)
  <-> Z.rem size0 (Z.of_nat b) = 0.
Proof.
  intros Hb. unfold BatchDataset. destruct (Z.leb_spec (Z.of_nat b) 0); [lia|].
  destruct (Z.eqb_spec (Z.rem size0 (Z.of_nat b)) 0) as [->|Hne]; split; try done; eauto.
  by intros [r ?].
Qed.
End batching.

(** Scalars as arrays; the batch function adds up a column. *)
Definition sum_batch (l : list Z) : Z := fold_left Z.add l 0.

Definition BatchDataset_scalar :=
  BatchDataset (A := Z) 0 (fun _ => []) (fun _ => 1) (fun _ => 1) (fun _ l => hd 0 l).

Lemma BatchDataset_include_last_witness :
  exists r cs,
    BatchDataset_scalar 5 (Some (list_dataset [[1]; [2]; [3]])) 2 INCLUDE_LAST [Some sum_batch] = Ok r /\
    concat cs = [[1]; [2]; [3]] /\ ds_size r = zlen cs.
Proof.
  destruct (BatchDataset_include_last 0 (fun _ => []) (fun _ => 1) (fun _ => 1) (fun _ l => hd 0 l)
    5 (list_dataset [[1]; [2]; [3]]) [[1]; [2]; [3]] 2 [Some sum_batch]) as (r & cs & H1 & H2 & H3 & _).
  - apply list_dataset_represents.
  - lia.
  - exists r, cs. split_and!; done.
Defined.

Lemma BatchDataset_skip_last_witness :
  exists r cs rest,
    BatchDataset_scalar 5 (Some (list_dataset [[1]; [2]; [3]])) 2 SKIP_LAST [Some sum_batch] = Ok r /\
    concat cs ++ rest = [[1]; [2]; [3]] /\ (length rest < 2)%nat.
Proof.
  destruct (BatchDataset_skip_last 0 (fun _ => []) (fun _ => 1) (fun _ => 1) (fun _ l => hd 0 l)
    5 (list_dataset [[1]; [2]; [3]]) [[1]; [2]; [3]] 2 [Some sum_batch])
    as (r & cs & rest & H1 & H2 & H3 & _).
  - apply list_dataset_represents.
  - lia.
  - exists r, cs, rest. split_and!; done.
Defined.

(** Three samples in batches of two are accepted under [DIVISIBLE_ONLY]. *)
Lemma BatchDataset_divisible_only_witness :
  exists r, BatchDataset_scalar 0 (Some (list_dataset [[1]; [2]; [3]])) 2 DIVISIBLE_ONLY [] = Ok r.
Proof.
  apply (BatchDataset_divisible_only 0 (fun _ => []) (fun _ => 1) (fun _ => 1) (fun _ l => hd 0 l)
    0 (list_dataset [[1]; [2]; [3]]) 2 []); [lia | done].
Defined.
