(* ===== verification/PrefetchDataset.v ===== *)
(** [fl/dataset/PrefetchDataset.cpp]: samples computed ahead of time by worker
    threads, kept in a queue of futures.

    A future is the value the task will produce, [Some r]; [None] is a future
    whose value was already taken.  A task computes [dataset_->get(fetchIdx)]
    on an immutable dataset, so when it runs does not matter. *)
From S2P Require Import Prelude Dataset.

Open Scope Z_scope.

Section prefetch.
Context {A : Type}.
Variable d : dataset A.
Variables numThreads prefetchSize : Z.

(** The mutable members [prefetchCache_] and [curIdx_]. *)
Record pstate := PState {
  cache : list (option (result (list A)));
  curIdx : Z
}.

(** The constructor's argument checks and initial state. *)
Definition PrefetchDataset (isNull : bool) : result pstate :=
  if isNull then Throw InvalidArgument
  else if negb ((0 <? numThreads) && (0 <? prefetchSize))
          && negb ((numThreads =? 0) && (prefetchSize =? 0))
  then Throw InvalidArgument
  else Ok (PState [] (-1)).

(** [while (!prefetchCache_.empty() && idx != curIdx_) { pop(); ++curIdx_; }] *)
Fixpoint dropLoop (c : list (option (result (list A)))) (cur idx : Z) : pstate :=
  match c with
  | [] => PState [] cur
  | _ :: c' => if idx =? cur then PState c cur else dropLoop c' (cur + 1) idx
  end.

(** [while (prefetchCache_.size() < prefetchSize_) ...]; each round adds one
    future, so [prefetchSize] rounds are enough. *)
Fixpoint fillLoop (fuel : nat) (c : list (option (result (list A)))) (idx : Z)
    : list (option (result (list A))) :=
  match fuel with
  | O => c
  | S fuel' =>
      if zlen c <? prefetchSize then
        let fetchIdx := idx + zlen c in
        if ds_size d <=? fetchIdx then c
        else fillLoop fuel' (c ++ [Some (ds_get d fetchIdx)]) idx
      else c
  end.

Definition prefetch_get (st : pstate) (idx : Z) : result (list A) * pstate :=
  match checkIndexBounds (ds_size d) idx with
  | Throw e => (Throw e, st)
  | Ok _ =>
      if numThreads =? 0 then (ds_get d idx, st)
      else
        let st1 := dropLoop (cache st) (curIdx st) idx in
        let c := fillLoop (Z.to_nat prefetchSize) (cache st1) idx in
        match c with
        | [] => (Throw Undefined, PState c (curIdx st1))
        | None :: _ => (Throw Undefined, PState c (curIdx st1))
        | Some (Throw e) :: rest => (Throw e, PState (None :: rest) (curIdx st1))
        | Some (Ok sample) :: rest => (Ok sample, PState rest (idx + 1))
        end
  end.

(** A run of [get] calls. *)
Fixpoint prefetch_run (st : pstate) (idxs : list Z) : list (result (list A)) :=
  match idxs with
  | [] => []
  | i :: idxs' => let '(r, st') := prefetch_get st i in r :: prefetch_run st' idxs'
  end.

(** * Refinement: the queue never changes what [get] returns *)

(** The queued futures are the samples from [curIdx] on. *)
Definition cache_ok (c : list (option (result (list A)))) (cur : Z) : Prop :=
  forall k f, c !! k = Some f -> f = Some (ds_get d (cur + Z.of_nat k)).

Lemma dropLoop_ok c cur idx :
  cache_ok c cur ->
  cache_ok (cache (dropLoop c cur idx)) idx.
Proof.
  revert cur. induction c as [|f c IH]; intros cur Hc; cbn.
  - intros k g. by rewrite lookup_nil.
  - destruct (Z.eqb_spec idx cur) as [->|]; [done|]. apply IH.
    intros k g Hk. rewrite (Hc (S k) g Hk). do 2 f_equal. lia.
Qed.

Lemma fillLoop_ok fuel c idx : cache_ok c idx -> cache_ok (fillLoop fuel c idx) idx.
Proof.
  revert c. induction fuel as [|fuel IH]; intros c Hc; cbn; [done|].
  destruct (zlen c <? prefetchSize); [|done].
  destruct (ds_size d <=? idx + zlen c); [done|]. apply IH.
  intros k f Hk. apply lookup_snoc_Some in Hk as [[_ Hk]|[-> <-]]; [by apply Hc | done].
Qed.

Lemma fillLoop_nonempty fuel c idx :
  idx < ds_size d -> 0 < prefetchSize -> (0 < fuel)%nat -> fillLoop fuel c idx <> [].
Proof.
  intros Hi Hp Hf. destruct fuel as [|fuel]; [lia|]. clear Hf.
  assert (Hne : forall fuel c, c <> [] -> fillLoop fuel c idx <> []).
  { clear fuel c. induction fuel as [|fuel IH]; intros c Hc; cbn; [done|].
    repeat case_match; try done. apply IH. by destruct c. }
  destruct c as [|f c]; [|by apply Hne]. cbn [fillLoop app].
  change (zlen []) with 0. destruct (Z.ltb_spec 0 prefetchSize); [|lia].
  destruct (Z.leb_spec (ds_size d) (idx + 0)); [lia|]. by apply Hne.
Qed.

Lemma prefetch_get_step xs st idx :
  Represents d xs -> 0 <= numThreads -> (numThreads = 0 \/ 0 < prefetchSize) ->
  cache_ok (cache st) (curIdx st) ->
  (prefetch_get st idx).1 = ds_get d idx /\
  cache_ok (cache (prefetch_get st idx).2) (curIdx (prefetch_get st idx).2).
Proof.
  intros Hrep Hn Hp Hc. unfold prefetch_get.
  destruct (decide (0 <= idx < zlen xs)) as [Hi|Hi].
  2: { rewrite checkIndexBounds_out by (by rewrite (rep_size (d := d))). cbn.
       by rewrite rep_oob. }
  rewrite checkIndexBounds_in by (by rewrite (rep_size (d := d))).
  destruct (Z.eqb_spec numThreads 0) as [|Hnz]; [done|]. cbv zeta.
  pose proof (fillLoop_ok (Z.to_nat prefetchSize) _ idx (dropLoop_ok _ _ idx Hc)) as Hf.
  pose proof (fillLoop_nonempty (Z.to_nat prefetchSize) (cache (dropLoop (cache st) (curIdx st) idx)) idx) as Hne.
  destruct (fillLoop _ _ idx) as [|f rest].
  { exfalso. apply Hne; [rewrite (rep_size (d := d)) | |..]; lia || done. }
  pose proof (Hf 0%nat f eq_refl) as ->. rewrite Z.add_0_r.
  destruct (lookup_lt_is_Some_2 xs (Z.to_nat idx)) as [x Hx]; [unfold zlen in Hi; lia|].
  rewrite (rep_get idx x) by (done || lia). cbn. split; [done|].
  intros k g Hk. rewrite (Hf (S k) g Hk). do 2 f_equal. lia.
Qed.

(** C33. Prefetching is transparent: whatever the number of threads, the queue
    length and the order (with repeats and out-of-range indices) in which
    samples are asked for, every [get] of a constructed [PrefetchDataset]
    returns or throws exactly what the underlying dataset does. *)
Theorem prefetch_transparent xs st idxs :
  Represents d xs -> PrefetchDataset false = Ok st ->
  prefetch_run st idxs = map (ds_get d) idxs.
Proof.
  intros Hrep. unfold PrefetchDataset.
  destruct (_ && _) eqn:E; [done|]. intros [= <-].
  assert (Hargs : 0 <= numThreads /\ (numThreads = 0 \/ 0 < prefetchSize)).
  { destruct (Z.ltb_spec 0 numThreads), (Z.ltb_spec 0 prefetchSize),
      (Z.eqb_spec numThreads 0), (Z.eqb_spec prefetchSize 0); cbn in E; try done; lia. }
  destruct Hargs as [Hn Hp].
  assert (Hok : cache_ok (cache (PState [] (-1))) (-1)) by (intros k f H; cbn in H; by rewrite lookup_nil in H).
  revert Hok. change (-1) with (curIdx (PState [] (-1))) at 2.
  generalize (PState [] (-1)) as st.
  induction idxs as [|i idxs IH]; intros st Hc; cbn; [done|].
  destruct (prefetch_get_step xs st i Hrep Hn Hp Hc) as [H1 H2].
  destruct (prefetch_get st i) as [r st']. cbn in *. by rewrite H1, IH.
Qed.
End prefetch.

Lemma prefetch_transparent_witness :
  prefetch_run (list_dataset [[1]; [2]; [3]; [4]]) 2 2 (PState [] (-1)) [0; 1; 3; 9; 2; 2]
  = [Ok [1]; Ok [2]; Ok [4]; Throw OutOfRange; Ok [3]; Ok [3]].
Proof.
  apply (prefetch_transparent (list_dataset [[1]; [2]; [3]; [4]]) 2 2 [[1]; [2]; [3]; [4]]).
  - apply list_dataset_represents.
  - reflexivity.
Defined.
