(* ===== verification/Partition.v ===== *)
(** Sharding of a dataset between workers, [partitionByRoundRobin] of
    [fl/dataset/Utils.cpp]. *)
From S2P Require Import Prelude.

Open Scope Z_scope.

(** Number of global batches, and whether the last one is partial. *)
Definition includeLast (numSamples numPartitions batchSz : Z) (allowEmpty : bool) : bool :=
  let r := Z.rem numSamples (numPartitions * batchSz) in
  (numPartitions <=? r) || (allowEmpty && (0 <? r)).

Definition nGlobalBatches (numSamples numPartitions batchSz : Z) (allowEmpty : bool) : Z :=
  Z.quot numSamples (numPartitions * batchSz)
  + (if includeLast numSamples numPartitions batchSz allowEmpty then 1 else 0).

(** The body of the batch loop: the samples of global batch [i] that go to
    [partitionId]. *)
Definition partitionBatch (numSamples partitionId numPartitions batchSz : Z)
    (inclLast : bool) (nBatches i : Z) : list Z :=
  let offset := i * (numPartitions * batchSz) in
  let '(offset, nCurSamples) :=
    if inclLast && (i =? nBatches - 1) then
      let n := Z.quot (numSamples - offset) numPartitions in
      let remaining := Z.rem (numSamples - offset) numPartitions in
      let offset := offset + n * partitionId in
      let n' := if partitionId <? remaining then n + 1 else n in
      (offset + Z.min partitionId remaining, n')
    else (offset + batchSz * partitionId, batchSz) in
  map (fun b => b + offset) (zrange 0 nCurSamples).

Definition partitionByRoundRobin (numSamples partitionId numPartitions batchSz : Z)
    (allowEmpty : bool) : result (list Z) :=
  if (partitionId <? 0) || (numPartitions <=? partitionId) then Throw InvalidArgument
  else
    let inclLast := includeLast numSamples numPartitions batchSz allowEmpty in
    let n := nGlobalBatches numSamples numPartitions batchSz allowEmpty in
    Ok (flat_map (partitionBatch numSamples partitionId numPartitions batchSz inclLast n)
          (zrange 0 n)).

(** * Ranges that tile an interval *)

Lemma map_shift_zrange n o : map (fun b => b + o) (zrange 0 n) = zrange o (o + n).
Proof.
  unfold zrange. rewrite Z.sub_0_r. replace (o + n - o) with n by lia.
  replace (seqZ o n) with (seqZ (o + 0) n) by (f_equal; lia).
  rewrite <- fmap_add_seqZ. apply list_fmap_ext. intros; lia.
Qed.

(** Consecutive ranges given by a monotone sequence of bounds. *)
Lemma flat_map_tiles (f : Z -> Z) lo hi :
  lo <= hi -> (forall i, lo <= i < hi -> f i <= f (i + 1)) ->
  flat_map (fun i => zrange (f i) (f (i + 1))) (zrange lo hi) = zrange (f lo) (f hi).
Proof.
  intros Hle Hmono.
  assert (Hind : forall n, (forall i, lo <= i < lo + Z.of_nat n -> f i <= f (i + 1)) ->
    flat_map (fun i => zrange (f i) (f (i + 1))) (zrange lo (lo + Z.of_nat n))
      = zrange (f lo) (f (lo + Z.of_nat n)) /\ f lo <= f (lo + Z.of_nat n)).
  { induction n as [|n IH]; intros Hm.
    - rewrite Z.add_0_r, !zrange_nil by lia. split; [done | lia].
    - destruct IH as [IH IHle]; [intros; apply Hm; lia|].
      pose proof (Hm (lo + Z.of_nat n) ltac:(lia)) as Hstep.
      replace (lo + Z.of_nat (S n)) with (lo + Z.of_nat n + 1) by lia.
      split; [|lia].
      rewrite (zrange_app lo (lo + Z.of_nat n)) by lia.
      rewrite flat_map_app, IH. rewrite (zrange_cons (lo + Z.of_nat n)), (zrange_nil (lo + Z.of_nat n + 1)) by lia.
      cbn. rewrite app_nil_r. symmetry. apply zrange_app. lia. }
  specialize (Hind (Z.to_nat (hi - lo))).
  replace (lo + Z.of_nat (Z.to_nat (hi - lo))) with hi in Hind by lia. by apply Hind.
Qed.

Lemma flat_map_ext_in {B C} (f g : B -> list C) l :
  (forall x, x ∈ l -> f x = g x) -> flat_map f l = flat_map g l.
Proof.
  induction l as [|x l IH]; intros H; cbn; [done|].
  rewrite H by left. f_equal. apply IH. intros; apply H; by right.
Qed.

Lemma flat_map_swap {B C D} (f : B -> C -> list D) xs ys :
  flat_map (fun x => flat_map (f x) ys) xs ≡ₚ flat_map (fun y => flat_map (fun x => f x y) xs) ys.
Proof.
  induction xs as [|x xs IH]; cbn.
  - induction ys; cbn; done.
  - rewrite IH. clear IH. induction ys as [|y ys IH]; cbn; [done|].
    rewrite <- IH. rewrite <- !app_assoc. apply Permutation_app_head.
    rewrite !app_assoc. apply Permutation_app_tail, Permutation_app_comm.
Qed.

(** * The shards partition a prefix of the samples *)

Section spec.
Variables numSamples numPartitions batchSz : Z.
Variable allowEmpty : bool.
Hypothesis Hns : 0 <= numSamples.
Hypothesis Hnp : 0 < numPartitions.
Hypothesis Hbs : 0 < batchSz.

Let G := numPartitions * batchSz.
Let inclLast := includeLast numSamples numPartitions batchSz allowEmpty.
Let n := nGlobalBatches numSamples numPartitions batchSz allowEmpty.

(** First sample after global batch [i]. *)
Let bound (i : Z) : Z := if inclLast && (i =? n) then numSamples else i * G.

Lemma G_pos : 0 < G.
Proof. unfold G. nia. Qed.

Lemma batches_eq : numSamples = (n - (if inclLast then 1 else 0)) * G + Z.rem numSamples G
  /\ 0 <= Z.rem numSamples G < G /\ 0 <= n - (if inclLast then 1 else 0).
Proof.
  pose proof G_pos as HG.
  unfold n, nGlobalBatches. fold inclLast. fold G.
  pose proof (Z.quot_rem' numSamples G). pose proof (Z.rem_bound_pos numSamples G Hns HG).
  pose proof (Z.quot_pos numSamples G Hns HG). destruct inclLast; lia.
Qed.

Lemma inclLast_rem : inclLast = true -> 0 < Z.rem numSamples G.
Proof.
  unfold inclLast, includeLast. fold G. intros [H|H]%orb_true_iff; [lia|].
  apply andb_true_iff in H as [_ H]. lia.
Qed.

(** Across the partitions, a global batch is one interval of samples. *)
Lemma partitionBatch_tiles i :
  0 <= i < n ->
  flat_map (fun p => partitionBatch numSamples p numPartitions batchSz inclLast n i)
    (zrange 0 numPartitions) = zrange (bound i) (bound (i + 1)).
Proof.
  intros Hi. pose proof G_pos as HG. destruct batches_eq as (Hnum & Hrem & Hn).
  unfold partitionBatch, bound. fold G.
  destruct inclLast eqn:EL; cbn [andb].
  - destruct (Z.eqb_spec i (n - 1)) as [->|Hne].
    + pose proof (inclLast_rem EL) as Hpos.
      destruct (Z.eqb_spec (n - 1) n); [lia|]. destruct (Z.eqb_spec (n - 1 + 1) n); [|lia].
      set (r := numSamples - (n - 1) * G). assert (Hr : 0 <= r) by (unfold r; lia).
      pose proof (Z.quot_rem' r numPartitions) as Hqr.
      pose proof (Z.rem_bound_pos r numPartitions Hr Hnp) as Hrb.
      pose proof (Z.quot_pos r numPartitions Hr Hnp) as Hq.
      set (q := Z.quot r numPartitions) in *. set (s := Z.rem r numPartitions) in *.
      set (f := fun p => (n - 1) * G + q * p + Z.min p s).
      transitivity (flat_map (fun p => zrange (f p) (f (p + 1))) (zrange 0 numPartitions)).
      * apply flat_map_ext_in. intros p Hp%elem_of_zrange. rewrite map_shift_zrange. unfold f.
        destruct (Z.ltb_spec p s); f_equal; lia.
      * rewrite flat_map_tiles; [|lia | intros; unfold f; nia]. unfold f. f_equal; [lia|].
        rewrite (Z.min_r numPartitions s) by lia. unfold r in Hqr. lia.
    + destruct (Z.eqb_spec i n); [lia|]. destruct (Z.eqb_spec (i + 1) n); [lia|].
      set (f := fun p => i * G + batchSz * p).
      transitivity (flat_map (fun p => zrange (f p) (f (p + 1))) (zrange 0 numPartitions)).
      * apply flat_map_ext_in. intros p Hp%elem_of_zrange. rewrite map_shift_zrange. unfold f.
        f_equal; lia.
      * rewrite flat_map_tiles; [|lia | intros; unfold f; nia]. unfold f, G. f_equal; lia.
  - set (f := fun p => i * G + batchSz * p).
    transitivity (flat_map (fun p => zrange (f p) (f (p + 1))) (zrange 0 numPartitions)).
    * apply flat_map_ext_in. intros p Hp%elem_of_zrange. rewrite map_shift_zrange. unfold f.
      f_equal; lia.
    * rewrite flat_map_tiles; [|lia | intros; unfold f; nia]. unfold f, G. f_equal; lia.
Qed.
End spec.

(** * Round-robin sharding *)

(** The shards of the partitions 0, ..., numPartitions - 1 are disjoint
    and together hold the samples 0, ..., m - 1 exactly once, where fewer than
    [numPartitions] samples are left out, and none when [allowEmpty] is set. *)
Theorem partitionByRoundRobin_partition numSamples numPartitions batchSz allowEmpty :
  0 <= numSamples -> 0 < numPartitions -> 0 < batchSz ->
  exists shards m,
    mapM_result (fun p => partitionByRoundRobin numSamples p numPartitions batchSz allowEmpty)
      (zrange 0 numPartitions) = Ok shards /\
    concat shards ≡ₚ zrange 0 m /\ m <= numSamples < m + numPartitions /\
    (allowEmpty = true -> m = numSamples).
Proof.
  intros Hns Hnp Hbs.
  set (n := nGlobalBatches numSamples numPartitions batchSz allowEmpty).
  set (il := includeLast numSamples numPartitions batchSz allowEmpty).
  set (G := numPartitions * batchSz).
  exists (map (fun p => flat_map (partitionBatch numSamples p numPartitions batchSz il n) (zrange 0 n))
            (zrange 0 numPartitions)).
  exists (if il then numSamples else n * G). split; [|split].
  - apply mapM_result_Ok, Forall2_fmap_r, Forall_Forall2_diag, Forall_forall.
    intros p Hp%elem_of_zrange. unfold partitionByRoundRobin.
    destruct (Z.ltb_spec p 0); [lia|]. destruct (Z.leb_spec numPartitions p); [lia|]. done.
  - rewrite <- flat_map_concat_map, flat_map_swap.
    destruct (batches_eq numSamples numPartitions batchSz allowEmpty Hns Hnp Hbs) as (Hnum & Hrem & Hn).
    fold G n il in Hnum, Hrem, Hn. assert (HG : 0 < G) by (unfold G; nia).
    assert (Hil : il = true -> 1 <= n /\ (n - 1) * G <= numSamples) by (intros E; rewrite E in *; lia).
    assert (Hil' : il = false -> 0 <= n) by (intros E; rewrite E in *; lia).
    set (bound := fun i => if il && (i =? n) then numSamples else i * G).
    rewrite (flat_map_ext_in _ (fun i => zrange (bound i) (bound (i + 1)))).
    2: { intros i Hi%elem_of_zrange. by apply partitionBatch_tiles. }
    rewrite flat_map_tiles.
    + assert (bound 0 = 0) as ->.
      { unfold bound. destruct il; cbn [andb]; [|lia]. destruct (Z.eqb_spec 0 n); [|lia].
        specialize (Hil eq_refl). lia. }
      assert (bound n = if il then numSamples else n * G) as ->; [|done].
      unfold bound. rewrite Z.eqb_refl. by destruct il.
    + destruct il; [specialize (Hil eq_refl) | specialize (Hil' eq_refl)]; lia.
    + intros i Hi. unfold bound. destruct il; cbn [andb]; [|nia].
      specialize (Hil eq_refl).
      destruct (Z.eqb_spec i n); [lia|]. destruct (Z.eqb_spec (i + 1) n); [|nia].
      replace i with (n - 1) by lia. lia.
  - destruct (batches_eq numSamples numPartitions batchSz allowEmpty Hns Hnp Hbs) as (Hnum & Hrem & Hn).
    fold G n il in Hnum, Hrem, Hn. destruct il eqn:EL; [split; [lia | done]|].
    unfold il, includeLast in EL. fold G in EL. apply orb_false_iff in EL as [E1 E2].
    apply Z.leb_gt in E1. split; [lia|]. intros ->. cbn in E2. lia.
Qed.

Lemma partitionByRoundRobin_partition_witness :
  exists shards m,
    mapM_result (fun p => partitionByRoundRobin 11 p 3 2 true) (zrange 0 3) = Ok shards /\
    concat shards ≡ₚ zrange 0 m /\ m <= 11 < m + 3 /\ (true = true -> m = 11).
Proof. apply (partitionByRoundRobin_partition 11 3 2 true); lia. Defined.

(** In every shard the last, partial batch is balanced: two partitions differ
    by at most one sample. *)
Lemma partitionBatch_length numSamples p numPartitions batchSz il n i :
  0 <= p < numPartitions -> 0 <= batchSz -> 0 <= numSamples - i * (numPartitions * batchSz) ->
  let q := if il && (i =? n - 1)
           then Z.quot (numSamples - i * (numPartitions * batchSz)) numPartitions else batchSz in
  q <= zlen (partitionBatch numSamples p numPartitions batchSz il n i) <= q + 1.
Proof.
  intros Hp Hb Hr q. unfold partitionBatch, q.
  destruct (il && (i =? n - 1)); cbv zeta; unfold zlen; rewrite length_map, length_zrange.
  - pose proof (Z.quot_pos _ numPartitions Hr ltac:(lia)).
    destruct (Z.ltb_spec p (Z.rem (numSamples - i * (numPartitions * batchSz)) numPartitions)); lia.
  - lia.
Qed.

Lemma partitionByRoundRobin_Ok numSamples p numPartitions batchSz allowEmpty l :
  partitionByRoundRobin numSamples p numPartitions batchSz allowEmpty = Ok l ->
  0 <= p < numPartitions /\
  l = flat_map (partitionBatch numSamples p numPartitions batchSz
                 (includeLast numSamples numPartitions batchSz allowEmpty)
                 (nGlobalBatches numSamples numPartitions batchSz allowEmpty))
        (zrange 0 (nGlobalBatches numSamples numPartitions batchSz allowEmpty)).
Proof.
  unfold partitionByRoundRobin.
  destruct (Z.ltb_spec p 0), (Z.leb_spec numPartitions p); try done. intros [= <-]. split; [lia | done].
Qed.

Lemma flat_map_zlen {B C} (f g : B -> list C) l :
  (forall x, x ∈ l -> zlen (f x) = zlen (g x)) -> zlen (flat_map f l) = zlen (flat_map g l).
Proof.
  induction l as [|x l IH]; intros H; cbn; [done|].
  rewrite !zlen_app, (H x) by left. f_equal. apply IH. intros; apply H; by right.
Qed.

(** No two partitions differ by more than one sample, so the workers stay
    in step. *)
Theorem partitionByRoundRobin_balanced numSamples numPartitions batchSz allowEmpty p1 p2 l1 l2 :
  0 <= numSamples -> 0 < batchSz ->
  partitionByRoundRobin numSamples p1 numPartitions batchSz allowEmpty = Ok l1 ->
  partitionByRoundRobin numSamples p2 numPartitions batchSz allowEmpty = Ok l2 ->
  zlen l1 <= zlen l2 + 1.
Proof.
  intros Hns Hbs H1 H2.
  apply partitionByRoundRobin_Ok in H1 as [Hp1 ->], H2 as [Hp2 ->].
  destruct (batches_eq numSamples numPartitions batchSz allowEmpty Hns ltac:(lia) Hbs)
    as (Hnum & Hrem & Hn).
  set (n := nGlobalBatches _ _ _ _) in *. set (il := includeLast _ _ _ _) in *.
  set (G := numPartitions * batchSz) in *.
  destruct (decide (n <= 0)); [rewrite !zrange_nil by lia; cbn; unfold zlen; cbn; lia|].
  rewrite (zrange_app 0 (n - 1) n) by lia. rewrite !flat_map_app, !zlen_app.
  rewrite (zrange_cons (n - 1)), (zrange_nil (n - 1 + 1)) by lia. cbn [flat_map]. rewrite !app_nil_r.
  rewrite (flat_map_zlen _ (partitionBatch numSamples p2 numPartitions batchSz il n)).
  2: { intros i Hi%elem_of_zrange. unfold partitionBatch.
       destruct (Z.eqb_spec i (n - 1)); [lia|]. rewrite andb_false_r. unfold zlen.
       by rewrite !length_map. }
  pose proof (partitionBatch_length numSamples p1 numPartitions batchSz il n (n - 1)) as L1.
  pose proof (partitionBatch_length numSamples p2 numPartitions batchSz il n (n - 1)) as L2.
  cbv zeta in L1, L2. destruct il; fold G in L1, L2; lia.
Qed.

Lemma partitionByRoundRobin_balanced_witness : zlen [0; 1; 6; 7] <= zlen [4; 5; 10] + 1.
Proof.
  apply (partitionByRoundRobin_balanced 11 3 2 true 0 2); [lia | lia | reflexivity | reflexivity].
Defined.
