(* ===== verification/EditDistance.v ===== *)
(** [fl/meter/EditDistanceMeter.h]: edit distance between an output and a
    target sequence with the error counts by kind, and the meter's counters.
    [levensteinDistance] keeps one column of the dynamic-programming table and
    updates it in place; it is proved optimal against edit scripts. *)
From S2P Require Import Prelude.

Open Scope Z_scope.

Record ErrorState := ES { ndel : Z; nins : Z; nsub : Z }.

Definition es_zero : ErrorState := ES 0 0 0.
Definition es_sum (e : ErrorState) : Z := ndel e + nins e + nsub e.

Section levenshtein.
Context {T : Type} `{EqDecision T}.

(** One cell of the inner loop: [cur] is [column[y]] before the update, [left]
    is [column[y - 1]] after it, [lastdiagonal] is [column[y - 1]] before it.
    [std::min_element] takes the first of equal possibilities. *)
Definition updateCell (c1 c2 : T) (cur left lastdiagonal : ErrorState) : ErrorState :=
  let p0 := es_sum cur + 1 in
  let p1 := es_sum left + 1 in
  let p2 := es_sum lastdiagonal + (if decide (c1 = c2) then 0 else 1) in
  if (p0 <=? p1) && (p0 <=? p2) then ES (ndel cur + 1) (nins cur) (nsub cur)
  else if p1 <=? p2 then ES (ndel left) (nins left + 1) (nsub left)
  else if decide (c1 = c2) then lastdiagonal
  else ES (ndel lastdiagonal) (nins lastdiagonal) (nsub lastdiagonal + 1).

(** The inner loop over [y], from the cell after [left]; [cells] holds the old
    values of the cells still to be updated. *)
Fixpoint innerLoop (c2 : T) (in1 : list T) (lastdiagonal left : ErrorState)
    (cells : list ErrorState) : list ErrorState :=
  match in1, cells with
  | c1 :: in1', cur :: cells' =>
      let new := updateCell c1 c2 cur left lastdiagonal in
      new :: innerLoop c2 in1' cur new cells'
  | _, _ => []
  end.

(** The body of the outer loop: column [x] from column [x - 1]. *)
Definition updateColumn (in1 : list T) (x : Z) (c2 : T) (column : list ErrorState)
    : list ErrorState :=
  match column with
  | [] => []
  | first :: cells =>
      let first' := ES x (nins first) (nsub first) in
      first' :: innerLoop c2 in1 first first' cells
  end.

Fixpoint outerLoop (in1 : list T) (x : Z) (in2 : list T) (column : list ErrorState)
    : list ErrorState :=
  match in2 with
  | [] => column
  | c2 :: in2' => outerLoop in1 (x + 1) in2' (updateColumn in1 x c2 column)
  end.

Definition initColumn (in1 : list T) : list ErrorState :=
  map (fun i => ES 0 i 0) (zrange 0 (zlen in1 + 1)).

Definition levensteinDistance (in1 in2 : list T) : ErrorState :=
  default es_zero (outerLoop in1 1 in2 (initColumn in1) !! length in1).
End levenshtein.

(** * The meter *)

Record meter := Meter { n_ : Z; ndel_ : Z; nins_ : Z; nsub_ : Z }.

Definition reset : meter := Meter 0 0 0 0.

Definition add_counts (m : meter) (n ndel nins nsub : Z) : meter :=
  Meter (n_ m + n) (ndel_ m + ndel) (nins_ m + nins) (nsub_ m + nsub).

Definition add_state (m : meter) (es : ErrorState) (n : Z) : meter :=
  add_counts m n (ndel es) (nins es) (nsub es).

(** [add(output, target)] on two sequences. *)
Definition add_seq {T} `{EqDecision T} (m : meter) (output target : list T) : meter :=
  add_state m (levensteinDistance output target) (zlen target).

Definition sumErr (m : meter) : Z := ndel_ m + nins_ m + nsub_ m.

Definition value (m : meter) : list Z := [sumErr m; n_ m; ndel_ m; nins_ m; nsub_ m].

(** * Edit scripts *)

(** An edit script from left to right: kept, substituted, inserted (only in
    the output) and deleted (only in the target) elements. *)
Inductive edit (T : Type) :=
| Keep (c : T)
| Sub (c1 c2 : T)
| Ins (c1 : T)
| Del (c2 : T).
Arguments Keep {T} _.
Arguments Sub {T} _ _.
Arguments Ins {T} _.
Arguments Del {T} _.

Definition edit_out {T} (s : list (edit T)) : list T :=
  omap (fun e => match e with Keep c => Some c | Sub c _ => Some c | Ins c => Some c | Del _ => None end) s.
Definition edit_tgt {T} (s : list (edit T)) : list T :=
  omap (fun e => match e with Keep c => Some c | Sub _ c => Some c | Ins _ => None | Del c => Some c end) s.

Definition edit_cost {T} (e : edit T) : ErrorState :=
  match e with Keep _ => ES 0 0 0 | Sub _ _ => ES 0 0 1 | Ins _ => ES 0 1 0 | Del _ => ES 1 0 0 end.

Definition es_plus (a b : ErrorState) : ErrorState :=
  ES (ndel a + ndel b) (nins a + nins b) (nsub a + nsub b).

Definition script_cost {T} (s : list (edit T)) : ErrorState :=
  fold_right (fun e acc => es_plus (edit_cost e) acc) es_zero s.

(** [e] is the cost of some script from [t] to [o], and no script is cheaper. *)
Definition optimal {T} (o t : list T) (e : ErrorState) : Prop :=
  (exists s, edit_out s = o /\ edit_tgt s = t /\ script_cost s = e) /\
  (forall s, edit_out s = o -> edit_tgt s = t -> es_sum e <= es_sum (script_cost s)).

(** * Lemmas *)

Lemma es_eq a b : ndel a = ndel b -> nins a = nins b -> nsub a = nsub b -> a = b.
Proof. destruct a, b; cbn; intros; congruence. Qed.

Lemma script_cost_snoc {T} (s : list (edit T)) e :
  script_cost (s ++ [e]) = es_plus (script_cost s) (edit_cost e).
Proof.
  unfold script_cost. induction s as [|x s IH]; cbn.
  - apply es_eq; destruct e; cbn; lia.
  - rewrite IH. apply es_eq; cbn; lia.
Qed.

Lemma omap_snoc_opt {A B} (f : A -> option B) l x :
  omap f (l ++ [x]) = match f x with Some y => omap f l ++ [y] | None => omap f l end.
Proof.
  induction l as [|y l IH]; cbn; [by destruct (f x)|].
  destruct (f y); rewrite IH; by destruct (f x).
Qed.

Lemma script_cost_nonneg {T} (s : list (edit T)) :
  0 <= ndel (script_cost s) /\ 0 <= nins (script_cost s) /\ 0 <= nsub (script_cost s).
Proof. unfold script_cost. induction s as [|e s IH]; cbn; [lia|]. destruct e; cbn; lia. Qed.

Lemma script_lengths {T} (s : list (edit T)) :
  nins (script_cost s) - ndel (script_cost s) = zlen (edit_out s) - zlen (edit_tgt s).
Proof.
  unfold zlen, edit_out, edit_tgt, script_cost. induction s as [|e s IH]; cbn in *; [lia|].
  destruct e; cbn in *; lia.
Qed.

Lemma script_no_output {T} (s : list (edit T)) :
  edit_out s = [] -> script_cost s = ES (zlen (edit_tgt s)) 0 0.
Proof.
  unfold zlen, edit_out, edit_tgt, script_cost. induction s as [|e s IH]; cbn; [done|].
  destruct e; cbn; try done. intros H. specialize (IH H). cbn in IH. rewrite IH.
  apply es_eq; cbn; lia.
Qed.

Section optimality.
Context {T : Type} `{EqDecision T}.
Implicit Types o t : list T.

Lemma optimal_no_target o : optimal o [] (ES 0 (zlen o) 0).
Proof.
  split.
  - exists (map Ins o). unfold zlen, edit_out, edit_tgt, script_cost.
    induction o as [|c o IH]; [done|]. destruct IH as (H1 & H2 & H3). cbn in *.
    rewrite H1, H2, H3. split_and!; [done..|]. apply es_eq; cbn; lia.
  - intros s <- Ht. pose proof (script_lengths s) as Hl. pose proof (script_cost_nonneg s).
    rewrite Ht in Hl. unfold es_sum; cbn. unfold zlen in *. cbn in Hl. lia.
Qed.

Lemma optimal_no_output t : optimal [] t (ES (zlen t) 0 0).
Proof.
  split.
  - exists (map Del t). unfold zlen, edit_out, edit_tgt, script_cost.
    induction t as [|c t IH]; [done|]. destruct IH as (H1 & H2 & H3). cbn in *.
    rewrite H1, H2, H3. split_and!; [done..|]. apply es_eq; cbn; lia.
  - intros s Ho <-. pose proof (script_lengths s) as Hl. pose proof (script_cost_nonneg s).
    rewrite Ho in Hl. unfold es_sum; cbn. unfold zlen in *. cbn in Hl. lia.
Qed.

(** Extending a script by one operation. *)
Lemma script_snoc s (e : edit T) o t es :
  edit_out s = o -> edit_tgt s = t -> script_cost s = es ->
  exists s', edit_out s' = o ++ edit_out [e] /\ edit_tgt s' = t ++ edit_tgt [e] /\
             script_cost s' = es_plus es (edit_cost e).
Proof.
  intros <- <- <-. exists (s ++ [e]). rewrite script_cost_snoc.
  unfold edit_out, edit_tgt. rewrite !omap_snoc_opt. by destruct e; cbn; rewrite ?app_nil_r.
Qed.

(** The recurrence of the table: the cell the code computes from three optimal
    neighbours is optimal. *)
Lemma updateCell_optimal o t a b cur left diag :
  optimal (o ++ [a]) t cur -> optimal o (t ++ [b]) left -> optimal o t diag ->
  optimal (o ++ [a]) (t ++ [b]) (updateCell a b cur left diag).
Proof.
  intros [(sc & Hc1 & Hc2 & Hc3) Hcur] [(sl & Hl1 & Hl2 & Hl3) Hleft] [(sd & Hd1 & Hd2 & Hd3) Hdiag].
  assert (Hpick : es_sum (updateCell a b cur left diag) <= es_sum cur + 1 /\
                  es_sum (updateCell a b cur left diag) <= es_sum left + 1 /\
                  es_sum (updateCell a b cur left diag)
                    <= es_sum diag + (if decide (a = b) then 0 else 1)).
  { unfold updateCell.
    destruct (Z.leb_spec (es_sum cur + 1) (es_sum left + 1)),
             (Z.leb_spec (es_sum cur + 1) (es_sum diag + (if decide (a = b) then 0 else 1))),
             (Z.leb_spec (es_sum left + 1) (es_sum diag + (if decide (a = b) then 0 else 1)));
      cbn [andb]; unfold es_sum in *; cbn in *; destruct (decide (a = b)); cbn in *; lia. }
  split.
  - unfold updateCell. clear Hpick.
    destruct (_ && _); [|destruct (_ <=? _); [|destruct (decide (a = b)) as [Hab|Hab]]].
    + destruct (script_snoc sc (Del b) _ _ _ Hc1 Hc2 Hc3) as (s & H1 & H2 & H3).
      exists s. cbn in H1. rewrite app_nil_r in H1. split_and!; [done..|].
      rewrite H3. apply es_eq; cbn; lia.
    + destruct (script_snoc sl (Ins a) _ _ _ Hl1 Hl2 Hl3) as (s & H1 & H2 & H3).
      exists s. cbn in H2. rewrite app_nil_r in H2. split_and!; [done..|].
      rewrite H3. apply es_eq; cbn; lia.
    + subst b. destruct (script_snoc sd (Keep a) _ _ _ Hd1 Hd2 Hd3) as (s & H1 & H2 & H3).
      exists s. split_and!; [done..|]. rewrite H3. apply es_eq; cbn; lia.
    + destruct (script_snoc sd (Sub a b) _ _ _ Hd1 Hd2 Hd3) as (s & H1 & H2 & H3).
      exists s. split_and!; [done..|]. rewrite H3. apply es_eq; cbn; lia.
  - intros s Ho Ht. destruct s as [|e s _] using rev_ind; [by destruct o|].
    rewrite script_cost_snoc. unfold edit_out, edit_tgt in Ho, Ht.
    rewrite omap_snoc_opt in Ho, Ht. fold (edit_out s) (edit_tgt s) in Ho, Ht.
    destruct e as [c|c1 c2|c1|c2].
    + apply app_inj_tail in Ho as [Ho ->], Ht as [Ht <-].
      specialize (Hdiag s Ho Ht). rewrite decide_True in Hpick by done.
      unfold es_sum in *; cbn in *; lia.
    + apply app_inj_tail in Ho as [Ho ->], Ht as [Ht ->].
      specialize (Hdiag s Ho Ht). unfold es_sum in *; cbn in *. case_decide; lia.
    + apply app_inj_tail in Ho as [Ho ->]. specialize (Hleft s Ho Ht).
      unfold es_sum in *; cbn in *; lia.
    + apply app_inj_tail in Ht as [Ht ->]. specialize (Hcur s Ho Ht).
      unfold es_sum in *; cbn in *; lia.
Qed.

(** A column is right when cell [y] is optimal for the first [y] outputs. *)
Definition column_ok (in1 t : list T) (column : list ErrorState) : Prop :=
  length column = S (length in1) /\
  forall y e, column !! y = Some e -> optimal (take y in1) t e.

Lemma innerLoop_ok c2 t : forall in1 o lastdiag left cells,
  length cells = length in1 ->
  (forall y e, (lastdiag :: cells) !! y = Some e -> optimal (o ++ take y in1) t e) ->
  optimal o (t ++ [c2]) left ->
  length (innerLoop c2 in1 lastdiag left cells) = length in1 /\
  (forall y e, innerLoop c2 in1 lastdiag left cells !! y = Some e ->
     optimal (o ++ take (S y) in1) (t ++ [c2]) e).
Proof.
  induction in1 as [|c1 in1 IH]; intros o lastdiag left cells Hlen Hcells Hleft.
  { destruct cells; [|done]. cbn. split; [done|]. intros y e. by rewrite lookup_nil. }
  destruct cells as [|cur cells]; [done|]. cbn [innerLoop]. cbv zeta.
  set (new := updateCell c1 c2 cur left lastdiag).
  assert (Hnew : optimal (o ++ [c1]) (t ++ [c2]) new).
  { apply updateCell_optimal; [by apply (Hcells 1%nat) | done |].
    specialize (Hcells 0%nat lastdiag eq_refl). by rewrite take_0, app_nil_r in Hcells. }
  destruct (IH (o ++ [c1]) cur new cells) as [Hl Hc].
  - cbn in Hlen. lia.
  - intros y e Hy. specialize (Hcells (S y) e Hy). by rewrite <- app_assoc.
  - done.
  - cbn [length]. split; [lia|]. intros [|y] e Hy; cbn in Hy.
    + injection Hy as <-. done.
    + specialize (Hc y e Hy). by rewrite <- app_assoc in Hc.
Qed.

Lemma updateColumn_ok in1 t c2 column :
  column_ok in1 t column ->
  column_ok in1 (t ++ [c2]) (updateColumn in1 (zlen t + 1) c2 column).
Proof.
  intros [Hlen Hc]. destruct column as [|first cells]; [done|]. cbn [updateColumn].
  assert (Hf : ES (zlen t + 1) (nins first) (nsub first) = ES (zlen (t ++ [c2])) 0 0).
  { destruct (Hc 0%nat first eq_refl) as [(s & Ho & Ht & <-) _]. rewrite take_0 in Ho.
    rewrite (script_no_output s Ho). apply es_eq; cbn; [|done..].
    rewrite zlen_app. unfold zlen; cbn. lia. }
  rewrite Hf. cbn in Hlen.
  destruct (innerLoop_ok c2 t in1 [] first (ES (zlen (t ++ [c2])) 0 0) cells) as [Hl Hin].
  - lia.
  - intros y e Hy. cbn [app]. by apply Hc.
  - apply optimal_no_output.
  - split; [cbn; lia|]. intros [|y] e Hy; cbn in Hy.
    + injection Hy as <-. rewrite take_0. apply optimal_no_output.
    + by apply (Hin y).
Qed.

Lemma outerLoop_ok in1 in2 : forall t column,
  column_ok in1 t column ->
  column_ok in1 (t ++ in2) (outerLoop in1 (zlen t + 1) in2 column).
Proof.
  induction in2 as [|c2 in2 IH]; intros t column Hc; cbn [outerLoop].
  { by rewrite app_nil_r. }
  replace (t ++ c2 :: in2) with ((t ++ [c2]) ++ in2) by (by rewrite <- app_assoc).
  replace (zlen t + 1 + 1) with (zlen (t ++ [c2]) + 1)
    by (rewrite zlen_app; unfold zlen; cbn; lia).
  by apply IH, updateColumn_ok.
Qed.

Lemma initColumn_ok in1 : column_ok in1 [] (initColumn in1).
Proof.
  unfold initColumn. split.
  - rewrite length_map, length_zrange. unfold zlen. lia.
  - intros y e Hy. apply list_lookup_fmap_Some in Hy as (i & -> & Hi).
    pose proof (lookup_lt_Some _ _ _ Hi) as Hlt. rewrite length_zrange in Hlt.
    rewrite zrange_lookup in Hi by lia. injection Hi as <-.
    replace (0 + Z.of_nat y) with (zlen (take y in1)); [apply optimal_no_target|].
    unfold zlen in *. rewrite length_take. lia.
Qed.

Lemma levenstein_optimal_aux (output target : list T) :
  optimal output target (levensteinDistance output target).
Proof.
  destruct (outerLoop_ok output target [] (initColumn output) (initColumn_ok output)) as [Hlen Hc].
  unfold levensteinDistance. change (zlen [] + 1) with 1 in *. cbn [app] in *.
  destruct (outerLoop output 1 target (initColumn output) !! length output) as [e|] eqn:E.
  - apply Hc in E. by rewrite take_ge in E by lia.
  - apply lookup_ge_None in E. lia.
Qed.

(** C25. [levensteinDistance] is the cost of an edit script between the two
    sequences, with its deletions, insertions and substitutions counted
    separately, and no edit script has a smaller total. (The loop counters are
    [int]s: the sequences have fewer than [2 ^ 31] elements.) *)
Theorem levensteinDistance_optimal (output target : list T) :
  optimal output target (levensteinDistance output target).
Proof. apply levenstein_optimal_aux. Qed.

Lemma short_script (o t : list T) :
  exists s, edit_out s = o /\ edit_tgt s = t /\
            es_sum (script_cost s) <= Z.max (zlen o) (zlen t).
Proof.
  revert t. induction o as [|a o IH]; intros t.
  - destruct (optimal_no_output t) as [(s & H1 & H2 & H3) _]. exists s.
    rewrite H3. split_and!; [done..|]. unfold es_sum; cbn. lia.
  - destruct t as [|b t].
    + destruct (optimal_no_target (a :: o)) as [(s & H1 & H2 & H3) _]. exists s.
      rewrite H3. split_and!; [done..|]. unfold es_sum; cbn. lia.
    + destruct (IH t) as (s & <- & <- & H3). exists (Sub a b :: s).
      split_and!; [done..|]. rewrite !zlen_cons.
      assert (es_sum (script_cost (Sub a b :: s)) = 1 + es_sum (script_cost s)) as ->
        by (unfold es_sum, script_cost; cbn; lia).
      lia.
Qed.

(** The counts balance the lengths, and the total number of errors is at
    least the difference of the lengths and at most the longer of the two; no
    count is negative. *)
Theorem levensteinDistance_bounds (output target : list T) :
  let e := levensteinDistance output target in
  nins e - ndel e = zlen output - zlen target /\
  Z.abs (zlen output - zlen target) <= es_sum e <= Z.max (zlen output) (zlen target) /\
  0 <= ndel e /\ 0 <= nins e /\ 0 <= nsub e.
Proof.
  cbv zeta. destruct (levenstein_optimal_aux output target) as [(s & Ho & Ht & <-) Hmin].
  pose proof (script_lengths s) as Hl. pose proof (script_cost_nonneg s).
  destruct (short_script output target) as (s' & Ho' & Ht' & Hs').
  specialize (Hmin s' Ho' Ht'). rewrite Ho, Ht in Hl. unfold es_sum in *. lia.
Qed.
End optimality.

(** Adding samples to the meter: the total never exceeds what the worst
    alignment would give, and [n_] is the total target length. *)
Definition add_all {T} `{EqDecision T} (m : meter) (samples : list (list T * list T)) : meter :=
  fold_left (fun m s => add_seq m s.1 s.2) samples m.

(** After any number of samples the meter's value is the sum of the
    distances and of the target lengths of the samples. *)
Theorem meter_value {T} `{EqDecision T} (samples : list (list T * list T)) :
  let es := map (fun s => levensteinDistance s.1 s.2) samples in
  value (add_all reset samples) =
  [foldr Z.add 0 (map es_sum es); foldr Z.add 0 (map (fun s => zlen s.2) samples);
   foldr Z.add 0 (map ndel es); foldr Z.add 0 (map nins es); foldr Z.add 0 (map nsub es)].
Proof.
  cbv zeta.
  assert (H : forall m, value (add_all m samples) =
    [sumErr m + foldr Z.add 0 (map es_sum (map (fun s => levensteinDistance s.1 s.2) samples));
     n_ m + foldr Z.add 0 (map (fun s => zlen s.2) samples);
     ndel_ m + foldr Z.add 0 (map ndel (map (fun s => levensteinDistance s.1 s.2) samples));
     nins_ m + foldr Z.add 0 (map nins (map (fun s => levensteinDistance s.1 s.2) samples));
     nsub_ m + foldr Z.add 0 (map nsub (map (fun s => levensteinDistance s.1 s.2) samples))]).
  { unfold add_all. induction samples as [|[o t] samples IH]; intros m; cbn [fold_left map foldr].
    - unfold value. by rewrite !Z.add_0_r.
    - rewrite IH. cbn [fst snd]. unfold sumErr, add_seq, add_state, add_counts, es_sum.
      cbn [n_ ndel_ nins_ nsub_]. repeat (apply f_equal2; [lia|]). done. }
  rewrite H. done.
Qed.
