(* ===== verification/LRUCache.v ===== *)
(** The least-recently-used cache of [fl/distributed/LRUCache.h].

    The [std::list] of keys is a list of nodes; a node's identity (what an
    iterator refers to) is a number that survives [splice].  The hash map holds,
    for each key, its node and its value.  The cache refines an association
    list kept most-recent-first and cut to the capacity. *)
From S2P Require Import Prelude.

Open Scope nat_scope.

Section lru.
Context {K V : Type} `{Countable K}.

Record lru := LRU {
  dq_ : list (nat * K);       (* nodes, front first *)
  map_ : gmap K (nat * V);    (* key -> (iterator, value) *)
  csize_ : nat;
  nextNode : nat              (* identity of the next node created *)
}.

Definition lru_new (n : nat) : lru := LRU [] ∅ n 0.

(** [dq_.erase(it)] *)
Definition erase_node (it : nat) (dq : list (nat * K)) : list (nat * K) :=
  filter (fun n => n.1 <> it) dq.

(** The first half of [put]: make room, or unlink the old node. *)
Definition make_room (c : lru) (k : K) : result lru :=
  match map_ c !! k with
  | None =>
      if decide (length (dq_ c) = csize_ c) then
        match last (dq_ c) with
        | None => Throw Undefined (* back() of an empty list *)
        | Some (_, kb) =>
            Ok (LRU (removelast (dq_ c)) (delete kb (map_ c)) (csize_ c) (nextNode c))
        end
      else Ok c
  | Some (it, _) => Ok (LRU (erase_node it (dq_ c)) (map_ c) (csize_ c) (nextNode c))
  end.

Definition put (c : lru) (k : K) (v : V) : result lru :=
  match make_room c k with
  | Throw e => Throw e
  | Ok c1 =>
      Ok (LRU ((nextNode c1, k) :: dq_ c1) (<[k := (nextNode c1, v)]> (map_ c1))
            (csize_ c1) (S (nextNode c1)))
  end.

(** [dq_.splice(dq_.begin(), dq_, it)] *)
Definition splice_front (it : nat) (dq : list (nat * K)) : list (nat * K) :=
  filter (fun n => n.1 = it) dq ++ erase_node it dq.

Definition get (c : lru) (k : K) : option V * lru :=
  match map_ c !! k with
  | None => (None, c)
  | Some (it, v) =>
      (Some v, LRU (splice_front it (dq_ c)) (map_ c) (csize_ c) (nextNode c))
  end.

(** * Abstract cache *)

(** Entries, most recently used first. *)
Definition spec_get (l : list (K * V)) (k : K) : option V * list (K * V) :=
  match list_find (fun p => p.1 = k) l with
  | None => (None, l)
  | Some (_, p) => (Some p.2, p :: filter (fun q => q.1 <> k) l)
  end.

Definition spec_put (n : nat) (l : list (K * V)) (k : K) (v : V) : list (K * V) :=
  take n ((k, v) :: filter (fun q => q.1 <> k) l).

(** * Refinement *)

Abbreviation node := (nat * K * V)%type.
Definition nkey (x : node) : K := x.1.2.
Definition nid (x : node) : nat := x.1.1.

(** The nodes [ns], front first, behind both the cache and the abstract list. *)
Record refines (c : lru) (l : list (K * V)) (ns : list node) : Prop := {
  ref_dq : dq_ c = map fst ns;
  ref_map : forall k i v, map_ c !! k = Some (i, v) <-> (i, k, v) ∈ ns;
  ref_abs : l = map (fun x => (nkey x, x.2)) ns;
  ref_keys : NoDup (map nkey ns);
  ref_ids : NoDup (map nid ns);
  ref_fresh : Forall (fun x => nid x < nextNode c) ns;
  ref_cap : length ns <= csize_ c
}.

Lemma filter_map {A B} (f : A -> B) (P : B -> Prop) `{!forall x, Decision (P x)} l :
  filter P (map f l) = map f (filter (fun x => P (f x)) l).
Proof.
  induction l as [|x l IH]; [done|]. cbn [map].
  rewrite !filter_cons. case_decide; cbn [map]; by rewrite IH.
Qed.

Lemma NoDup_map_inj {A B} (f : A -> B) l x y :
  NoDup (map f l) -> x ∈ l -> y ∈ l -> f x = f y -> x = y.
Proof.
  induction l as [|z l IH]; cbn; [by rewrite elem_of_nil|].
  rewrite NoDup_cons, !elem_of_cons. intros [Hz Hnd] [->|Hx] [->|Hy] Hf; auto.
  - destruct Hz. rewrite Hf. by apply list_elem_of_fmap_2.
  - destruct Hz. rewrite <- Hf. by apply list_elem_of_fmap_2.
Qed.

(** Erasing a node by identity erases exactly its key. *)
Lemma filter_id_key ns (i : nat) k v :
  NoDup (map nkey ns) -> NoDup (map nid ns) -> (i, k, v) ∈ ns ->
  filter (fun x => nid x <> i) ns = filter (fun x => nkey x <> k) ns.
Proof.
  intros Hk Hi Hin.
  assert (Hiff : forall x, x ∈ ns -> (nid x <> i <-> nkey x <> k)).
  { intros x Hx. split; intros Hne Heq; apply Hne.
    - assert (x = (i, k, v)) as -> by (by apply (NoDup_map_inj nkey ns)). done.
    - assert (x = (i, k, v)) as -> by (by apply (NoDup_map_inj nid ns)). done. }
  clear Hk Hi Hin. induction ns as [|x ns IH]; [done|].
  rewrite !filter_cons. rewrite IH by (intros; apply Hiff; by right).
  pose proof (Hiff x ltac:(left)). repeat case_decide; tauto.
Qed.

Lemma NoDup_map_filter {A B} (f : A -> B) (P : A -> Prop) `{!forall x, Decision (P x)} l :
  NoDup (map f l) -> NoDup (map f (filter P l)).
Proof. intros Hn. eapply sublist_NoDup; [done|]. apply fmap_sublist, sublist_filter. Qed.

Lemma filter_unique {A} (P : A -> Prop) `{!forall x, Decision (P x)} (l : list A) x :
  NoDup l -> x ∈ l -> (forall y, y ∈ l -> P y <-> y = x) -> filter P l = [x].
Proof.
  induction l as [|y l IH]; intros Hnd Hin Hun; [by apply elem_of_nil in Hin|].
  apply NoDup_cons in Hnd as [Hy Hnd]. rewrite filter_cons. case_decide as Hd.
  - apply Hun in Hd as ->; [|left]. f_equal.
    assert (Hall : Forall (fun z => ~ P z) l).
    { apply Forall_forall. intros z Hz Hpz. apply Hun in Hpz as ->; [done | by right]. }
    clear - Hall. induction Hall; [done|]. by rewrite filter_cons_False.
  - apply elem_of_cons in Hin as [<-|Hin]; [by destruct Hd; apply Hun; [left|]|].
    apply IH; [done | done | intros; apply Hun; by right].
Qed.

Lemma filter_fresh_key (ns : list node) k :
  (forall i v, (i, k, v) ∉ ns) -> filter (fun x => nkey x <> k) ns = ns.
Proof.
  intros Hno. apply list_filter_True, Forall_forall. intros [[i k'] v] Hin Heq. cbn in Heq.
  subst k'. by apply (Hno i v).
Qed.

Lemma abs_filter (ns : list node) k :
  filter (fun q : K * V => q.1 <> k) (map (fun x => (nkey x, x.2)) ns)
  = map (fun x => (nkey x, x.2)) (filter (fun x => nkey x <> k) ns).
Proof. by rewrite filter_map. Qed.

(** The state between the two halves of [put k]: the nodes [ns] of the other
    keys, with room for one more. *)
Record ready (c : lru) (k : K) (ns : list node) : Prop := {
  rd_dq : dq_ c = map fst ns;
  rd_map : forall k' i v, k' <> k -> map_ c !! k' = Some (i, v) <-> (i, k', v) ∈ ns;
  rd_none : forall i v, (i, k, v) ∉ ns;
  rd_keys : NoDup (map nkey ns);
  rd_ids : NoDup (map nid ns);
  rd_fresh : Forall (fun x => nid x < nextNode c) ns;
  rd_cap : length ns < csize_ c
}.

Lemma ready_push c k v ns :
  ready c k ns ->
  refines (LRU ((nextNode c, k) :: dq_ c) (<[k := (nextNode c, v)]> (map_ c)) (csize_ c) (S (nextNode c)))
    ((k, v) :: map (fun x => (nkey x, x.2)) ns) ((nextNode c, k, v) :: ns).
Proof.
  intros [Hdq Hmap Hno Hk Hi Hf Hc]. split; cbn; try done.
  - by rewrite Hdq.
  - intros k' i v'. destruct (decide (k = k')) as [<-|Hne].
    + rewrite lookup_insert_eq, elem_of_cons. split; [intros [= <- <-]; by left|].
      intros [[= <- <-]|Hin]; [done|]. by apply Hno in Hin.
    + rewrite lookup_insert_ne, Hmap, elem_of_cons by done. split; [by right|].
      intros [[= -> -> ->]|]; done.
  - constructor; [|done]. intros ([[i k'] v'] & -> & Hin)%list_elem_of_fmap. by apply Hno in Hin.
  - constructor; [|done]. intros ([[i k'] v'] & Heq & Hin)%list_elem_of_fmap.
    rewrite Forall_forall in Hf. apply Hf in Hin. cbn in *. lia.
  - constructor; [cbn; lia|]. eapply Forall_impl; [done|]. cbn; intros; lia.
Qed.

Lemma map_removelast {A B} (f : A -> B) l : removelast (map f l) = map f (removelast l).
Proof.
  induction l as [|x l IH]; [done|]. destruct l; [done|]. cbn in *. by rewrite IH.
Qed.

Lemma make_room_ready c l ns k :
  refines c l ns -> 0 < csize_ c ->
  exists c1 ns1, make_room c k = Ok c1 /\ ready c1 k ns1 /\ csize_ c1 = csize_ c /\
    nextNode c1 = nextNode c /\
    map (fun x => (nkey x, x.2)) ns1 = take (csize_ c - 1) (filter (fun q => q.1 <> k) l).
Proof.
  intros [Hdq Hmap Habs Hk Hi Hf Hc] Hpos. unfold make_room. subst l. rewrite abs_filter.
  destruct (map_ c !! k) as [[it v0]|] eqn:E.
  - apply Hmap in E. eexists _, (filter (fun x => nkey x <> k) ns). split; [done|].
    assert (Hlt : length (filter (fun x => nkey x <> k) ns) < length ns)
      by (eapply length_filter_lt; [apply E | by intros Hn; apply Hn]).
    split_and!; cbn; try done.
    2: { rewrite take_ge; [done | rewrite length_map; lia]. }
    split; cbn.
    + rewrite <- (filter_id_key ns it k v0) by done. rewrite Hdq. unfold erase_node.
      by rewrite filter_map.
    + intros k' i v Hne. rewrite Hmap, list_elem_of_filter. cbn. naive_solver.
    + intros i v. rewrite list_elem_of_filter. cbn. naive_solver.
    + by apply NoDup_map_filter.
    + by apply NoDup_map_filter.
    + rewrite Forall_forall in Hf |- *. intros x [_ Hx]%list_elem_of_filter. auto.
    + lia.
  - assert (Hno : forall i v, (i, k, v) ∉ ns) by (intros i v Hin%Hmap; congruence).
    rewrite filter_fresh_key by done. case_decide as Hfull.
    + rewrite Hdq, length_map in Hfull.
      destruct ns as [|[[ib kb] vb] ns _] using rev_ind; [cbn in Hfull; lia|].
      rewrite Hdq, map_app. cbn. rewrite last_snoc, removelast_last.
      eexists _, ns. split; [done|]. rewrite length_app in Hfull. cbn in Hfull.
      split_and!; cbn; try done.
      2: { rewrite map_app, take_app_le by (rewrite length_map; lia).
           rewrite take_ge; [done | rewrite length_map; lia]. }
      rewrite map_app in Hk, Hi. apply NoDup_app in Hk as (Hk & Hkb & _), Hi as (Hi & Hib & _).
      cbn in Hkb. apply Forall_app in Hf as [Hf _].
      split; cbn; try done.
      * intros k' i v Hne. destruct (decide (kb = k')) as [<-|Hne'].
        -- rewrite lookup_delete_eq. split; [done|]. intros Hin. exfalso.
           apply (Hkb kb); [|by left]. by apply (list_elem_of_fmap_2 nkey _ (i, kb, v)).
        -- rewrite lookup_delete_ne by done. rewrite Hmap, elem_of_app, list_elem_of_singleton.
           naive_solver.
      * intros i v Hin. apply (Hno i v). apply elem_of_app. by left.
      * lia.
    + exists c, ns. rewrite Hdq, length_map in Hfull. split_and!; try done.
      2: { rewrite take_ge; [done | rewrite length_map; lia]. }
      split; try done; try lia; intros; apply Hmap.
Qed.

Lemma put_refines c l ns k v :
  refines c l ns -> 0 < csize_ c ->
  exists c' ns', put c k v = Ok c' /\ refines c' (spec_put (csize_ c) l k v) ns' /\
                 csize_ c' = csize_ c.
Proof.
  intros Href Hpos. destruct (make_room_ready c l ns k Href Hpos) as (c1 & ns1 & Hm & Hr & Hc & Hn & Habs).
  unfold put. rewrite Hm. eexists _, _. split; [done|]. split; [|done].
  unfold spec_put. destruct (csize_ c) as [|n] eqn:En; [lia|]. cbn [take].
  replace (S n - 1) with n in Habs by lia. rewrite <- Habs. by apply ready_push.
Qed.

Lemma list_find_abs ns k i v :
  NoDup (map nkey ns) -> (i, k, v) ∈ ns ->
  exists j, list_find (fun p : K * V => p.1 = k) (map (fun x => (nkey x, x.2)) ns) = Some (j, (k, v)).
Proof.
  intros Hnd Hin. apply list_elem_of_lookup in Hin as [j Hj]. exists j.
  apply list_find_Some. split_and!.
  - by rewrite list_lookup_fmap, Hj.
  - done.
  - intros j' y Hj' Hlt Hy. apply list_lookup_fmap_Some in Hj' as (x & -> & Hx). cbn in Hy.
    assert (j' = j); [|lia]. eapply (NoDup_lookup (map nkey ns)); [done|..];
      rewrite list_lookup_fmap; [rewrite Hx | rewrite Hj]; cbn; by rewrite ?Hy.
Qed.

Lemma get_refines c l ns k :
  refines c l ns ->
  exists ns', (get c k).1 = (spec_get l k).1 /\
    refines (get c k).2 (spec_get l k).2 ns' /\ csize_ (get c k).2 = csize_ c.
Proof.
  intros [Hdq Hmap Habs Hk Hi Hf Hc]. unfold get, spec_get.
  destruct (map_ c !! k) as [[it v]|] eqn:E.
  - apply Hmap in E. destruct (list_find_abs ns k it v Hk E) as [j Hj].
    rewrite Habs, Hj, abs_filter. cbn [fst snd].
    exists ((it, k, v) :: filter (fun x => nkey x <> k) ns). split; [done|]. split; [|done].
    assert (Hlt : length (filter (fun x => nkey x <> k) ns) < length ns)
      by (eapply length_filter_lt; [apply E | by intros Hn; apply Hn]).
    split; cbn; try done.
    + rewrite <- (filter_id_key ns it k v) by done. rewrite Hdq. unfold splice_front, erase_node.
      rewrite !filter_map. cbn.
      assert (filter (fun x : node => x.1.1 = it) ns = [(it, k, v)]) as ->; [|done].
      apply filter_unique; [by apply (NoDup_fmap_1 nkey) | done |].
      intros x Hx. split; [|by intros ->]. intros Heq. by apply (NoDup_map_inj nid ns).
    + intros k' i v'. rewrite Hmap, elem_of_cons, list_elem_of_filter. cbn.
      destruct (decide (k' = k)) as [->|Hne].
      * split; [|intros [[= -> ->]|[? _]]; done]. intros Hin. left.
        by apply (NoDup_map_inj nkey ns).
      * split; [by right|]. intros [[= ? ? ?]|[_ ?]]; done.
    + constructor; [|by apply NoDup_map_filter]. intros (x & Hx & [Hne _]%list_elem_of_filter)%list_elem_of_fmap.
      by destruct Hne.
    + constructor; [|by apply NoDup_map_filter].
      intros (x & Hx & [Hne Hin]%list_elem_of_filter)%list_elem_of_fmap. apply Hne.
      assert (x = (it, k, v)) as ->; [|done]. by apply (NoDup_map_inj nid ns).
    + rewrite Forall_forall in Hf. constructor; [by apply (Hf (it, k, v))|].
      apply Forall_forall. intros x [_ Hx]%list_elem_of_filter. auto.
    + lia.
  - assert (list_find (fun p : K * V => p.1 = k) l = None) as ->; [|by exists ns].
    apply list_find_None. rewrite Habs. apply Forall_forall.
    intros p ([[i k'] v] & -> & Hin)%list_elem_of_fmap. cbn. intros ->.
    apply Hmap in Hin. congruence.
Qed.

(** * Runs of operations *)

Inductive op := Put (k : K) (v : V) | Get (k : K).

(** What each operation returns: the value [put] stored, or what [get] found. *)
Fixpoint run (c : lru) (ops : list op) : result (list (option V) * lru) :=
  match ops with
  | [] => Ok ([], c)
  | Put k v :: ops' =>
      match put c k v with
      | Throw e => Throw e
      | Ok c' => match run c' ops' with
                 | Throw e => Throw e
                 | Ok (rs, c'') => Ok (Some v :: rs, c'')
                 end
      end
  | Get k :: ops' =>
      let '(r, c') := get c k in
      match run c' ops' with
      | Throw e => Throw e
      | Ok (rs, c'') => Ok (r :: rs, c'')
      end
  end.

Fixpoint spec_run (n : nat) (l : list (K * V)) (ops : list op) : list (option V) * list (K * V) :=
  match ops with
  | [] => ([], l)
  | Put k v :: ops' =>
      let '(rs, l') := spec_run n (spec_put n l k v) ops' in (Some v :: rs, l')
  | Get k :: ops' =>
      let '(r, l1) := spec_get l k in
      let '(rs, l') := spec_run n l1 ops' in (r :: rs, l')
  end.

Lemma run_refines ops : forall c l ns,
  refines c l ns -> 0 < csize_ c ->
  exists c' ns', run c ops = Ok ((spec_run (csize_ c) l ops).1, c') /\
    refines c' (spec_run (csize_ c) l ops).2 ns'.
Proof.
  induction ops as [|[k v|k] ops IH]; intros c l ns Href Hpos; cbn [run spec_run]; [eauto|..].
  - destruct (put_refines c l ns k v Href Hpos) as (c1 & ns1 & -> & Href1 & Hc1).
    destruct (IH c1 _ ns1 Href1) as (c2 & ns2 & -> & Href2); [lia|]. rewrite Hc1 in *.
    destruct (spec_run _ _ ops). cbn in *. eauto.
  - destruct (get_refines c l ns k Href) as (ns1 & Hr & Href1 & Hc1).
    destruct (get c k) as [r c1], (spec_get l k) as [r' l1]. cbn in *. subst r'.
    destruct (IH c1 l1 ns1 Href1) as (c2 & ns2 & -> & Href2); [lia|]. rewrite Hc1 in *.
    destruct (spec_run _ _ ops). cbn in *. eauto.
Qed.

Lemma put_csize c k v c' : put c k v = Ok c' -> csize_ c' = csize_ c.
Proof.
  unfold put, make_room. repeat case_match; intros; simplify_eq; done.
Qed.

Lemma run_csize ops : forall c rs c', run c ops = Ok (rs, c') -> csize_ c' = csize_ c.
Proof.
  induction ops as [|[k v|k] ops IH]; intros c rs c'; cbn; [by intros [= _ <-]|..].
  - destruct (put c k v) as [c1|] eqn:Ep; [|done]. apply put_csize in Ep.
    destruct (run c1 ops) as [[rs' c2]|] eqn:Er; [|done]. intros [= _ <-].
    apply IH in Er. congruence.
  - unfold get. destruct (map_ c !! k) as [[it v]|];
      (destruct (run _ ops) as [[rs' c2]|] eqn:Er; [|done]; intros [= _ <-];
       apply IH in Er; cbn in Er; congruence).
Qed.

(** C29. The LRU cache refines an association list kept most recently used
    first: for every capacity above zero and every sequence of puts and gets,
    no operation fails, the results are those of the abstract cache, and the
    cache never holds more than its capacity. *)
Theorem lru_refinement (n : nat) (ops : list op) :
  0 < n ->
  exists c, run (lru_new n) ops = Ok ((spec_run n [] ops).1, c) /\
    map snd (dq_ c) = map fst (spec_run n [] ops).2 /\
    size (map_ c) = length (dq_ c) /\ length (dq_ c) <= n.
Proof.
  intros Hn. destruct (run_refines ops (lru_new n) [] []) as (c & ns & Hrun & Href).
  - split; cbn; [done | | done | constructor | constructor | constructor | lia].
    intros k i v. by rewrite lookup_empty, elem_of_nil.
  - done.
  - exists c. split; [done|].
    pose proof (run_csize _ _ _ _ Hrun) as Hcap.
    destruct Href as [Hdq Hmap Habs Hk Hi Hf Hc]. split_and!.
    + cbn [csize_ lru_new] in Habs. rewrite Hdq, Habs, !map_map. done.
    + rewrite Hdq, length_map.
      rewrite <- (length_map nkey ns), <- (size_list_to_set (C := gset K)) by done.
      rewrite <- size_dom. f_equal. apply set_eq. intros k.
      rewrite elem_of_dom, elem_of_list_to_set, list_elem_of_fmap. split.
      * intros [[i v] Hkv%Hmap]. by exists (i, k, v).
      * intros ([[i k'] v] & -> & Hin). exists (i, v). by apply Hmap.
    + rewrite Hdq, length_map. cbn in Hcap. lia.
Qed.
End lru.

Lemma lru_refinement_witness :
  exists c, run (lru_new 2) [Put 1 10; Put 2 20; Get 1; Put 3 30; Get 2; Get 1]
            = Ok ([Some 10; Some 20; Some 10; Some 30; None; Some 10], c) /\
    map snd (dq_ c) = [1; 3] /\ size (map_ c) = length (dq_ c) /\ length (dq_ c) <= 2.
Proof.
  destruct (lru_refinement 2 [Put 1 10; Put 2 20; Get 1; Put 3 30; Get 2; Get 1])
    as (c & H1 & H2 & H3 & H4); [lia|].
  exists c. split_and!; [rewrite H1; f_equal | rewrite H2; vm_compute; reflexivity | done | done].
Defined.
