(* ===== verification/CachingMM.v ===== *)
(** The caching allocator of [fl/memory/managers/CachingMemoryManager.cpp].

    [Block] objects live in a heap indexed by identities ([bid]); [prev_] and
    [next_] are identities, so sharing and in-place updates are explicit.  A
    [BlockSet] is a [std::set] ordered by size and address: it is kept as the
    list of its elements in iteration order, with insertion, erasure and
    [lower_bound] defined through the comparator on the block contents.  Addresses are
    integers and [nullptr] is 0; [size_t] arithmetic wraps modulo 2^64.  The
    device interface is not under the repository's control: what [nativeAlloc]
    answers is an input of [alloc] ([None] is an exception), and the calls of
    [nativeFree] are logged.  One [mm] is the state of one device; every
    operation runs under that device's mutex. *)
From S2P Require Import Prelude.

Open Scope Z_scope.

Abbreviation bid := positive.

(** * Constants and size classes *)

Definition kMinBlockSize : Z := 512.
Definition kSmallSize : Z := 1048576.
Definition kSmallBuffer : Z := 2097152.
Definition kLargeBuffer : Z := 20971520.
Definition kMinLargeAlloc : Z := 10485760.
Definition kRoundLarge : Z := 2097152.

Definition roundSize (size : Z) : Z :=
  if size <? kMinBlockSize then kMinBlockSize
  else u64 (kMinBlockSize * (u64 (size + kMinBlockSize - 1) / kMinBlockSize)).

Definition getAllocationSize (size : Z) : Z :=
  if size <=? kSmallSize then kSmallBuffer
  else if size <? kMinLargeAlloc then kLargeBuffer
  else u64 (kRoundLarge * (u64 (size + kRoundLarge - 1) / kRoundLarge)).

(** [size = elementSize; for (...) size *= dims[i];] *)
Definition requestSize (elementSize : Z) (dims : list Z) : Z :=
  fold_left (fun s d => u64 (s * u64 d)) dims elementSize.

(** * State *)

Record Block := MkBlock {
  size_ : Z;
  ptr_ : Z;
  managerLock_ : bool;
  userLock_ : bool;
  prev_ : option bid;
  next_ : option bid
}.

Definition isSplit (b : Block) : bool :=
  match prev_ b, next_ b with None, None => false | _, _ => true end.
Definition inUse (b : Block) : bool := managerLock_ b || userLock_ b.

(** [new Block(size, ptr)] *)
Definition newBlock (size ptr : Z) : Block := MkBlock size ptr false false None None.

Record MemoryAllocationStats := Stats {
  totalNativeMallocs_ : Z;
  totalNativeFrees_ : Z;
  allocatedBytes_ : Z;
  cachedBytes_ : Z
}.

Record mm := MM {
  heap : gmap bid Block;                 (* every Block object *)
  largeBlocks_ : list bid;
  smallBlocks_ : list bid;
  allocatedBlocks_ : gmap Z bid;         (* by device pointer *)
  stats_ : MemoryAllocationStats;
  nativeFreed : list Z;                  (* log of nativeFree calls *)
  recyclingSizeLimit_ : Z;
  splitSizeLimit_ : Z
}.

Definition mm_new (recyclingLimit splitLimit : Z) : mm :=
  MM ∅ [] [] ∅ (Stats 0 0 0 0) [] recyclingLimit splitLimit.

(** ** Field updates *)

Definition set_heap (h : gmap bid Block) (s : mm) : mm :=
  MM h (largeBlocks_ s) (smallBlocks_ s) (allocatedBlocks_ s) (stats_ s) (nativeFreed s)
     (recyclingSizeLimit_ s) (splitSizeLimit_ s).
Definition set_allocated (a : gmap Z bid) (s : mm) : mm :=
  MM (heap s) (largeBlocks_ s) (smallBlocks_ s) a (stats_ s) (nativeFreed s)
     (recyclingSizeLimit_ s) (splitSizeLimit_ s).
Definition set_stats (st : MemoryAllocationStats) (s : mm) : mm :=
  MM (heap s) (largeBlocks_ s) (smallBlocks_ s) (allocatedBlocks_ s) st (nativeFreed s)
     (recyclingSizeLimit_ s) (splitSizeLimit_ s).
Definition set_freed (l : list Z) (s : mm) : mm :=
  MM (heap s) (largeBlocks_ s) (smallBlocks_ s) (allocatedBlocks_ s) (stats_ s) l
     (recyclingSizeLimit_ s) (splitSizeLimit_ s).

(** The pool [isSmall ? smallBlocks_ : largeBlocks_]. *)
Definition pool (isSmall : bool) (s : mm) : list bid :=
  if isSmall then smallBlocks_ s else largeBlocks_ s.
Definition set_pool (isSmall : bool) (l : list bid) (s : mm) : mm :=
  MM (heap s) (if isSmall then largeBlocks_ s else l) (if isSmall then l else smallBlocks_ s)
     (allocatedBlocks_ s) (stats_ s) (nativeFreed s) (recyclingSizeLimit_ s) (splitSizeLimit_ s).

Definition addCached (d : Z) (s : mm) : mm :=
  set_stats (Stats (totalNativeMallocs_ (stats_ s)) (totalNativeFrees_ (stats_ s))
                   (allocatedBytes_ (stats_ s)) (u64 (cachedBytes_ (stats_ s) + d))) s.
Definition addAllocated (d : Z) (s : mm) : mm :=
  set_stats (Stats (totalNativeMallocs_ (stats_ s)) (totalNativeFrees_ (stats_ s))
                   (u64 (allocatedBytes_ (stats_ s) + d)) (cachedBytes_ (stats_ s))) s.
Definition countMalloc (s : mm) : mm :=
  set_stats (Stats (totalNativeMallocs_ (stats_ s) + 1) (totalNativeFrees_ (stats_ s))
                   (allocatedBytes_ (stats_ s)) (cachedBytes_ (stats_ s))) s.
Definition nativeFree (p : Z) (s : mm) : mm :=
  set_freed (p :: nativeFreed s)
    (set_stats (Stats (totalNativeMallocs_ (stats_ s)) (totalNativeFrees_ (stats_ s) + 1)
                      (allocatedBytes_ (stats_ s)) (cachedBytes_ (stats_ s))) s).

(** Assignments to the fields of a block. *)
Definition with_size (z : Z) (b : Block) : Block :=
  MkBlock z (ptr_ b) (managerLock_ b) (userLock_ b) (prev_ b) (next_ b).
Definition with_ptr (p : Z) (b : Block) : Block :=
  MkBlock (size_ b) p (managerLock_ b) (userLock_ b) (prev_ b) (next_ b).
Definition with_prev (p : option bid) (b : Block) : Block :=
  MkBlock (size_ b) (ptr_ b) (managerLock_ b) (userLock_ b) p (next_ b).
Definition with_next (n : option bid) (b : Block) : Block :=
  MkBlock (size_ b) (ptr_ b) (managerLock_ b) (userLock_ b) (prev_ b) n.
Definition with_locks (m u : bool) (b : Block) : Block :=
  MkBlock (size_ b) (ptr_ b) m u (prev_ b) (next_ b).

(** * BlockSet *)

(** [BlockComparator] *)
Definition BlockComparator (a b : Block) : bool :=
  if size_ a =? size_ b then ptr_ a <? ptr_ b else size_ a <? size_ b.

(** The order of two block objects.  Comparing through a dangling pointer is
    undefined in the source; it is [false] here. *)
Definition less (h : gmap bid Block) (a b : bid) : bool :=
  match h !! a, h !! b with
  | Some x, Some y => BlockComparator x y
  | _, _ => false
  end.

(** [pool.insert(b)]: nothing happens when an equivalent element is there. *)
Fixpoint set_insert (h : gmap bid Block) (b : bid) (l : list bid) : list bid :=
  match l with
  | [] => [b]
  | c :: r => if less h b c then b :: l
              else if less h c b then c :: set_insert h b r
              else l
  end.

(** [pool.erase(b)]: removes the element equivalent to [*b]. *)
Definition set_erase (h : gmap bid Block) (b : bid) (l : list bid) : list bid :=
  filter (fun c => less h b c || less h c b = true) l.

(** [pool.lower_bound(&key)]: the first element that is not less than the key. *)
Definition lower_bound (h : gmap bid Block) (key : Block) (l : list bid) : option bid :=
  find (fun c => match h !! c with Some y => negb (BlockComparator y key) | None => true end) l.

(** * Operations *)

(** [freeBlocks(blocks, begin, end)]: give the unsplit blocks of a pool back. *)
Definition freeBlocks (isSmall : bool) (s : mm) : mm :=
  fold_left (fun s b =>
    match heap s !! b with
    | None => s
    | Some x =>
        if isSplit x then s
        else
          let s := nativeFree (ptr_ x) s in
          let s := addAllocated (- size_ x) s in
          let s := addCached (- size_ x) s in
          let s := set_pool isSmall (filter (fun c => c <> b) (pool isSmall s)) s in
          set_heap (delete b (heap s)) s
    end) (pool isSmall s) s.

Definition signalMemoryCleanup (s : mm) : mm := freeBlocks true (freeBlocks false s).

(** [mallocWithRetry]; [r1] and [r2] are the answers of [nativeAlloc]. *)
Definition mallocWithRetry (r1 r2 : option Z) (s : mm) : result Z * mm :=
  let s := countMalloc s in
  match r1 with
  | Some p => (Ok p, s)
  | None =>
      let s := countMalloc (signalMemoryCleanup s) in
      match r2 with
      | Some p => (Ok p, s)
      | None => (Throw RuntimeError, s)
      end
  end.

(** The first part of [alloc]: recycle the best fitting cached block, or get a
    new one from the device. *)
Definition findBlock (size : Z) (isSmall : bool) (r1 r2 : option Z) (s : mm) : result bid * mm :=
  let fromDevice :=
    let allocSize := getAllocationSize size in
    match mallocWithRetry r1 r2 s with
    | (Throw e, s) => (Throw e, s)
    | (Ok p, s) =>
        let b := fresh (dom (heap s)) in
        (Ok b, addAllocated allocSize (set_heap (<[b := newBlock allocSize p]> (heap s)) s))
    end in
  match lower_bound (heap s) (newBlock size 0) (pool isSmall s) with
  | None => fromDevice
  | Some b =>
      match heap s !! b with
      | None => fromDevice
      | Some x =>
          if isSmall || (size_ x <? recyclingSizeLimit_ s) then
            (Ok b, addCached (- size_ x)
                     (set_pool isSmall (filter (fun c => c <> b) (pool isSmall s)) s))
          else fromDevice
      end
  end.

(** The second part: cut the tail off a block that is large enough. *)
Definition splitBlock (size : Z) (isSmall : bool) (b : bid) (s : mm) : bid * mm :=
  match heap s !! b with
  | None => (b, s)
  | Some x =>
      let diff := u64 (size_ x - size) in
      if ((if isSmall then kMinBlockSize else kSmallSize) <=? diff)
         && (size_ x <? splitSizeLimit_ s) then
        let n := fresh (dom (heap s)) in
        let front := MkBlock size (ptr_ x) false false (prev_ x) (Some b) in
        let remaining := with_size (u64 (size_ x - size)) (with_ptr (ptr_ x + size) (with_prev (Some n) x)) in
        let h := <[b := remaining]> (<[n := front]>
                   (match prev_ x with
                    | None => heap s
                    | Some p => alter (with_next (Some n)) p (heap s)
                    end)) in
        let s := set_heap h s in
        let s := set_pool isSmall (set_insert (heap s) b (pool isSmall s)) s in
        (n, addCached (size_ remaining) s)
      else (b, s)
  end.

(** [alloc]: returns the device pointer ([nullptr] for an empty request). *)
Definition alloc (userLock : bool) (dims : list Z) (elementSize : Z) (r1 r2 : option Z) (s : mm)
    : result Z * mm :=
  let size := requestSize elementSize dims in
  if size =? 0 then (Ok 0, s)
  else
    let size := roundSize size in
    let isSmallAlloc := size <=? kSmallSize in
    match findBlock size isSmallAlloc r1 r2 s with
    | (Throw e, s) => (Throw e, s)
    | (Ok b, s) =>
        let '(b, s) := splitBlock size isSmallAlloc b s in
        match heap s !! b with
        | None => (Throw Undefined, s)
        | Some x =>
            let s := set_heap (<[b := with_locks (negb userLock) userLock x]> (heap s)) s in
            (Ok (ptr_ x), set_allocated (<[ptr_ x := b]> (allocatedBlocks_ s)) s)
        end
    end.

(** [tryMergeBlocks(dst, src, pool)] *)
Definition tryMergeBlocks (dst : bid) (src : option bid) (isSmall : bool) (s : mm) : mm :=
  match src with
  | None => s
  | Some sr =>
      match heap s !! dst, heap s !! sr with
      | Some d, Some x =>
          if inUse x then s
          else
            let h :=
              if bool_decide (prev_ d = Some sr) then
                let d' := with_size (u64 (size_ d + size_ x)) (with_ptr (ptr_ x) (with_prev (prev_ x) d)) in
                match prev_ x with
                | None => <[dst := d']> (heap s)
                | Some p => <[dst := d']> (alter (with_next (Some dst)) p (heap s))
                end
              else
                let d' := with_size (u64 (size_ d + size_ x)) (with_next (next_ x) d) in
                match next_ x with
                | None => <[dst := d']> (heap s)
                | Some n => <[dst := d']> (alter (with_prev (Some dst)) n (heap s))
                end in
            let s := set_heap h s in
            let s := set_pool isSmall (set_erase (heap s) sr (pool isSmall s)) s in
            let s := addCached (- size_ x) s in
            set_heap (delete sr (heap s)) s
      | _, _ => s
      end
  end.

(** [freeBlock(block)] *)
Definition freeBlock (b : bid) (s : mm) : result unit * mm :=
  match heap s !! b with
  | None => (Throw Undefined, s)
  | Some x =>
      if inUse x then (Throw RuntimeError, s)
      else
        let isSmallAlloc := size_ x <=? kSmallSize in
        let s := tryMergeBlocks b (prev_ x) isSmallAlloc s in
        let s := tryMergeBlocks b (match heap s !! b with Some y => next_ y | None => None end)
                   isSmallAlloc s in
        let s := set_pool isSmallAlloc (set_insert (heap s) b (pool isSmallAlloc s)) s in
        (Ok tt, addCached (match heap s !! b with Some y => size_ y | None => 0 end) s)
  end.

Definition unlock (ptr : Z) (userUnlock : bool) (s : mm) : result unit * mm :=
  if ptr =? 0 then (Ok tt, s)
  else match allocatedBlocks_ s !! ptr with
       | None => (Ok tt, nativeFree ptr s)
       | Some b =>
           match heap s !! b with
           | None => (Throw Undefined, s)
           | Some x =>
               let x' := if userUnlock then with_locks (managerLock_ x) false x
                         else with_locks false (userLock_ x) x in
               let s := set_heap (<[b := x']> (heap s)) s in
               if inUse x' then (Ok tt, s)
               else freeBlock b (set_allocated (delete ptr (allocatedBlocks_ s)) s)
           end
       end.

Definition allocated (ptr : Z) (s : mm) : Z :=
  if ptr =? 0 then 0
  else match allocatedBlocks_ s !! ptr with
       | None => 0
       | Some b => match heap s !! b with Some x => size_ x | None => 0 end
       end.

Definition userLock (ptr : Z) (s : mm) : mm :=
  if ptr =? 0 then s
  else match allocatedBlocks_ s !! ptr with
       | None =>
           let b := fresh (dom (heap s)) in
           let x := with_locks false true (newBlock kSmallBuffer ptr) in
           set_allocated (<[ptr := b]> (allocatedBlocks_ s)) (set_heap (<[b := x]> (heap s)) s)
       | Some b =>
           set_heap (alter (fun x => with_locks (managerLock_ x) true x) b (heap s)) s
       end.

Definition userUnlock (ptr : Z) (s : mm) : result unit * mm := unlock ptr true s.

Definition isUserLocked (ptr : Z) (s : mm) : bool :=
  if ptr =? 0 then false
  else match allocatedBlocks_ s !! ptr with
       | None => false
       | Some b => match heap s !! b with Some x => userLock_ x | None => false end
       end.

Definition setRecyclingSizeLimit (limit : Z) (s : mm) : mm :=
  MM (heap s) (largeBlocks_ s) (smallBlocks_ s) (allocatedBlocks_ s) (stats_ s) (nativeFreed s)
     limit (splitSizeLimit_ s).
Definition setSplitSizeLimit (limit : Z) (s : mm) : mm :=
  MM (heap s) (largeBlocks_ s) (smallBlocks_ s) (allocatedBlocks_ s) (stats_ s) (nativeFreed s)
     (recyclingSizeLimit_ s) limit.
Definition shutdown (s : mm) : mm := signalMemoryCleanup s.

(** * Devices *)

(** The manager: one [mm] per device; the two limits are shared. *)
Record manager := Manager {
  deviceMemInfos_ : gmap Z mm;
  mgrRecyclingSizeLimit_ : Z;
  mgrSplitSizeLimit_ : Z
}.

(** The constructor, after the environment variables have been read. *)
Definition CachingMemoryManager (numDevices recyclingLimit splitLimit : Z) : manager :=
  Manager (list_to_map ((fun i => (i, mm_new recyclingLimit splitLimit)) <$> zrange 0 numDevices))
    recyclingLimit splitLimit.

Definition addMemoryManagement (device : Z) (m : manager) : manager :=
  match deviceMemInfos_ m !! device with
  | Some _ => m
  | None => Manager (<[device := mm_new (mgrRecyclingSizeLimit_ m) (mgrSplitSizeLimit_ m)]> (deviceMemInfos_ m))
              (mgrRecyclingSizeLimit_ m) (mgrSplitSizeLimit_ m)
  end.

Definition removeMemoryManagement (device : Z) (m : manager) : manager :=
  match deviceMemInfos_ m !! device with
  | None => m
  | Some _ => Manager (delete device (deviceMemInfos_ m)) (mgrRecyclingSizeLimit_ m) (mgrSplitSizeLimit_ m)
  end.

(** [active] is the answer of [getActiveDeviceId]. *)
Definition getDeviceMemoryInfo (active device : Z) (m : manager) : result mm :=
  let device := if device =? -1 then active else device in
  match deviceMemInfos_ m !! device with
  | None => Throw RuntimeError
  | Some s => Ok s
  end.
