(* ===== verification/CachingMMInv.v ===== *)
(** The invariant of the caching allocator and its preservation.

    Every block lies in the region of one call of [nativeAlloc] (its
    [segment]); the blocks of a segment are chained by [prev_] and [next_] in
    address order without holes; every block is either cached in the pool of its
    segment's size class or recorded in [allocatedBlocks_].  A block in transit
    between the two is the [open] block of the invariant. *)
From S2P Require Import Prelude CachingMM.

Open Scope Z_scope.

(** The ghost description of a native allocation. *)
Record segment := Seg { seg_small : bool; seg_base : Z; seg_len : Z }.

Definition gset_at (b : bid) (σ : segment) (g : bid -> segment) : bid -> segment :=
  fun c => if decide (c = b) then σ else g c.

Definition endp (x : Block) : Z := ptr_ x + size_ x.

(** * Geometry of the heap *)

Definition in_segment (σ : segment) (x : Block) : Prop :=
  0 < size_ x /\ (kMinBlockSize | size_ x) /\ 0 < seg_base σ <= ptr_ x
  /\ endp x <= seg_base σ + seg_len σ /\ seg_len σ < 2 ^ 64.

Definition apart (x y : Block) : Prop := endp x <= ptr_ y \/ endp y <= ptr_ x.

Definition nx (h : gmap bid Block) (b : bid) : option bid := h !! b ≫= next_.
Definition pv (h : gmap bid Block) (b : bid) : option bid := h !! b ≫= prev_.

Record geometry (limit : Z) (g : bid -> segment) (h : gmap bid Block) : Prop := {
  geo_in : forall b x, h !! b = Some x -> in_segment (g b) x;
  geo_link : forall b c, nx h b = Some c <-> pv h c = Some b;
  geo_adj : forall b c x, h !! b = Some x -> next_ x = Some c ->
    exists y, h !! c = Some y /\ ptr_ y = endp x /\ g c = g b;
  geo_first : forall b x, h !! b = Some x -> prev_ x = None -> ptr_ x = seg_base (g b);
  geo_last : forall b x, h !! b = Some x -> next_ x = None -> endp x = seg_base (g b) + seg_len (g b);
  geo_limit : forall b x, h !! b = Some x -> isSplit x = true -> seg_len (g b) < limit;
  geo_apart : forall b c x y, h !! b = Some x -> h !! c = Some y -> b <> c -> apart x y
}.

Lemma isSplit_false x : isSplit x = false <-> prev_ x = None /\ next_ x = None.
Proof. unfold isSplit. destruct (prev_ x), (next_ x); naive_solver. Qed.

Lemma geo_prev limit g h b p x :
  geometry limit g h -> h !! b = Some x -> prev_ x = Some p ->
  exists y, h !! p = Some y /\ next_ y = Some b /\ ptr_ x = endp y /\ g p = g b /\ p <> b.
Proof.
  intros G Hb Hp.
  assert (Hn : nx h p = Some b) by (apply (geo_link _ _ _ G); unfold pv; by rewrite Hb).
  unfold nx in Hn. destruct (h !! p) as [y|] eqn:Hy; [|done]. cbn in Hn.
  destruct (geo_adj _ _ _ G p b y Hy Hn) as (z & Hz & Hptr & Hg). simplify_eq.
  exists y. repeat split; auto. intros ->. simplify_eq.
  pose proof (geo_in _ _ _ G _ _ Hb) as I. unfold in_segment, endp in *. lia.
Qed.

Lemma geo_next limit g h b n x :
  geometry limit g h -> h !! b = Some x -> next_ x = Some n ->
  exists y, h !! n = Some y /\ prev_ y = Some b /\ ptr_ y = endp x /\ g n = g b /\ n <> b.
Proof.
  intros G Hb Hn. destruct (geo_adj _ _ _ G b n x Hb Hn) as (y & Hy & Hptr & Hg).
  assert (Hp : pv h n = Some b) by (apply (geo_link _ _ _ G); unfold nx; by rewrite Hb).
  unfold pv in Hp. rewrite Hy in Hp. cbn in Hp.
  exists y. repeat split; auto. intros ->. simplify_eq.
  pose proof (geo_in _ _ _ G _ _ Hb) as I. unfold in_segment, endp in *. lia.
Qed.

(** ** Blocks whose links and extent are unchanged *)

(** Two heaps that differ in the lock flags only. *)
Definition same_shape (x y : Block) : Prop :=
  size_ x = size_ y /\ ptr_ x = ptr_ y /\ prev_ x = prev_ y /\ next_ x = next_ y.

Lemma geometry_locks limit g h b x y :
  geometry limit g h -> h !! b = Some x -> same_shape x y -> geometry limit g (<[b := y]> h).
Proof.
  intros G Hb (S1 & S2 & S3 & S4).
  assert (Hnx : forall c, nx (<[b := y]> h) c = nx h c).
  { intros c. unfold nx. destruct (decide (c = b)) as [->|]; simplify_map_eq; [congruence|done]. }
  assert (Hpv : forall c, pv (<[b := y]> h) c = pv h c).
  { intros c. unfold pv. destruct (decide (c = b)) as [->|]; simplify_map_eq; [congruence|done]. }
  assert (Hl : forall c z, <[b := y]> h !! c = Some z -> exists w, h !! c = Some w /\ same_shape w z).
  { intros c z. destruct (decide (c = b)) as [->|]; rewrite ?lookup_insert_eq, ?lookup_insert_ne by done.
    - intros [= <-]. by exists x.
    - intros Hc. exists z. by unfold same_shape. }
  assert (Hsp : forall w z, same_shape w z -> isSplit w = isSplit z).
  { intros w z (_ & _ & E1 & E2). unfold isSplit. by rewrite E1, E2. }
  split.
  - intros c z (w & Hw & T1 & T2 & _)%Hl. pose proof (geo_in _ _ _ G _ _ Hw) as I.
    unfold in_segment, endp in *. by rewrite <- T1, <- T2.
  - intros c d. rewrite Hnx, Hpv. apply (geo_link _ _ _ G).
  - intros c d z (w & Hw & T1 & T2 & T3 & T4)%Hl Hd. rewrite <- T4 in Hd.
    destruct (geo_adj _ _ _ G _ _ _ Hw Hd) as (v & Hv & P & Q).
    unfold endp in *. rewrite T1, T2 in P.
    destruct (decide (d = b)) as [->|]; simplify_map_eq; eauto with congruence.
  - intros c z (w & Hw & T1 & T2 & T3 & T4)%Hl E. rewrite <- T2. eapply geo_first; eauto; congruence.
  - intros c z (w & Hw & T1 & T2 & T3 & T4)%Hl E. unfold endp. rewrite <- T1, <- T2.
    eapply geo_last; eauto; congruence.
  - intros c z (w & Hw & Hs)%Hl E. rewrite <- (Hsp _ _ Hs) in E. eapply geo_limit; eauto.
  - intros c d z z' (w & Hw & T1 & T2 & _)%Hl (w' & Hw' & T1' & T2' & _)%Hl Hne.
    pose proof (geo_apart _ _ _ G _ _ _ _ Hw Hw' Hne) as A.
    unfold apart, endp in *. congruence || (rewrite <- T1, <- T2, <- T1', <- T2'; done).
Qed.

(** ** Cutting a block in two *)

Definition split_heap (h : gmap bid Block) (b n : bid) (x : Block) (size : Z) : gmap bid Block :=
  <[b := with_size (size_ x - size) (with_ptr (ptr_ x + size) (with_prev (Some n) x))]>
  (<[n := MkBlock size (ptr_ x) false false (prev_ x) (Some b)]>
   (match prev_ x with None => h | Some p => alter (with_next (Some n)) p h end)).

Section Split.
Context (limit : Z) (g : bid -> segment) (h : gmap bid Block) (b n : bid) (x : Block) (size : Z).
Hypothesis G : geometry limit g h.
Hypothesis Hb : h !! b = Some x.
Hypothesis Hn : h !! n = None.
Hypothesis Hsize : 0 < size < size_ x.
Hypothesis Hdiv : (kMinBlockSize | size).
Hypothesis Hlim : seg_len (g b) < limit.

Lemma split_b :
  split_heap h b n x size !! b
  = Some (with_size (size_ x - size) (with_ptr (ptr_ x + size) (with_prev (Some n) x))).
Proof. unfold split_heap. by rewrite lookup_insert_eq. Qed.

Lemma split_n :
  split_heap h b n x size !! n = Some (MkBlock size (ptr_ x) false false (prev_ x) (Some b)).
Proof. unfold split_heap. rewrite lookup_insert_ne by congruence. by rewrite lookup_insert_eq. Qed.

Lemma split_other c :
  c <> b -> c <> n ->
  split_heap h b n x size !! c
  = if decide (prev_ x = Some c) then with_next (Some n) <$> h !! c else h !! c.
Proof.
  intros Hcb Hcn. unfold split_heap. rewrite !lookup_insert_ne by done.
  destruct (prev_ x) as [p|]; [|by rewrite decide_False].
  destruct (decide (Some p = Some c)) as [[= ->]|Hne]; [by rewrite lookup_alter_eq|].
  rewrite lookup_alter_ne; congruence.
Qed.

(** Every block of the new heap, by origin. *)
Lemma split_cases c z :
  split_heap h b n x size !! c = Some z ->
  (c = b /\ z = with_size (size_ x - size) (with_ptr (ptr_ x + size) (with_prev (Some n) x)))
  \/ (c = n /\ z = MkBlock size (ptr_ x) false false (prev_ x) (Some b))
  \/ (c <> b /\ c <> n /\ exists w, h !! c = Some w /\ size_ z = size_ w /\ ptr_ z = ptr_ w
      /\ prev_ z = prev_ w /\ managerLock_ z = managerLock_ w /\ userLock_ z = userLock_ w
      /\ next_ z = if decide (prev_ x = Some c) then Some n else next_ w).
Proof.
  destruct (decide (c = b)) as [->|Hcb]; [rewrite split_b; naive_solver|].
  destruct (decide (c = n)) as [->|Hcn]; [rewrite split_n; naive_solver|].
  rewrite split_other by done. intros Hz. right. right. split_and!; [done..|].
  destruct (decide (prev_ x = Some c)).
  - destruct (h !! c) as [w|]; [|done]. cbn in Hz. simplify_eq. by exists w.
  - by exists z.
Qed.

Lemma split_link c d : nx (split_heap h b n x size) c = Some d <-> pv (split_heap h b n x size) d = Some c.
Proof.
  assert (Hnx : nx (split_heap h b n x size) c
     = if decide (c = n) then Some b else if decide (prev_ x = Some c) then Some n else nx h c).
  { unfold nx. destruct (decide (c = n)) as [->|]; [by rewrite split_n|].
    destruct (decide (c = b)) as [->|].
    - rewrite split_b, Hb. cbn. case_decide as E; [|done].
      destruct (geo_prev _ _ _ _ _ _ G Hb E) as (? & ? & ? & ? & ? & ?). congruence.
    - rewrite split_other by done. case_decide as E; [|done].
      destruct (geo_prev _ _ _ _ _ _ G Hb E) as (? & -> & ?). done. }
  assert (Hpv : pv (split_heap h b n x size) d
     = if decide (d = b) then Some n else if decide (d = n) then prev_ x else pv h d).
  { unfold pv. destruct (decide (d = b)) as [->|]; [by rewrite split_b|].
    destruct (decide (d = n)) as [->|]; [by rewrite split_n|].
    rewrite split_other by done. destruct (decide (prev_ x = Some d)); [|done]. by destruct (h !! d). }
  rewrite Hnx, Hpv. pose proof (geo_link _ _ _ G c d) as L.
  assert (Lb : nx h c = Some b <-> prev_ x = Some c).
  { rewrite (geo_link _ _ _ G c b). unfold pv. by rewrite Hb. }
  assert (Ln : nx h n = None) by (unfold nx; by rewrite Hn).
  assert (Ln' : nx h c <> Some n).
  { intros E. apply (geo_link _ _ _ G) in E. unfold pv in E. by rewrite Hn in E. }
  assert (Lpn : prev_ x <> Some n).
  { intros E. destruct (geo_prev _ _ _ _ _ _ G Hb E) as (? & ? & ?). congruence. }
  assert (n <> b) by congruence.
  repeat case_decide; naive_solver.
Qed.

Lemma geometry_split : geometry limit (gset_at n (g b) g) (split_heap h b n x size).
Proof.
  assert (Hnb : n <> b) by congruence.
  pose proof (geo_in _ _ _ G _ _ Hb) as Ib.
  assert (Gn : gset_at n (g b) g n = g b) by (unfold gset_at; by rewrite decide_True).
  assert (Go : forall c, c <> n -> gset_at n (g b) g c = g c)
    by (intros c Hc; unfold gset_at; by rewrite decide_False).
  split.
  - intros c z [(-> & ->)|[(-> & ->)|(Hcb & Hcn & w & Hw & S & P & _)]]%split_cases.
    + rewrite Go by done. unfold in_segment, endp in *. cbn.
      destruct Ib as (? & ? & ? & ? & ?). split_and!; try lia. by apply Z.divide_sub_r.
    + rewrite Gn. unfold in_segment, endp in *. cbn. intuition lia.
    + rewrite Go by done. pose proof (geo_in _ _ _ G _ _ Hw) as I.
      unfold in_segment, endp in *. by rewrite S, P.
  - apply split_link.
  - intros c d z [(-> & ->)|[(-> & ->)|(Hcb & Hcn & w & Hw & S & P & _ & _ & _ & N)]]%split_cases; cbn; intros Hd.
    + destruct (geo_next _ _ _ _ _ _ G Hb Hd) as (y & Hy & Hp & Hptr & Hg & Hne).
      assert (d <> n) by congruence.
      destruct (split_heap h b n x size !! d) as [y'|] eqn:Hy'.
      * exists y'. split; [done|]. rewrite !Go by done. split; [|done].
        apply split_cases in Hy' as [?|[?|(_ & _ & w & Hw & _ & P & _)]]; [naive_solver..|].
        simplify_eq. rewrite P. unfold endp in *. cbn. lia.
      * rewrite split_other, Hy in Hy' by done. by case_decide.
    + injection Hd as <-. eexists. split; [apply split_b|]. rewrite Gn, Go by done. done.
    + rewrite N in Hd. rewrite (Go c) by done. case_decide as E.
      * injection Hd as <-. eexists. split; [apply split_n|]. cbn. rewrite Gn.
        destruct (geo_prev _ _ _ _ _ _ G Hb E) as (y & Hy & _ & Hptr & Hg & _). simplify_eq.
        unfold endp in *. rewrite S, P. done.
      * destruct (geo_next _ _ _ _ _ _ G Hw Hd) as (y & Hy & Hp & Hptr & Hg & Hne).
        assert (d <> n) by congruence.
        assert (d <> b) by (intros ->; simplify_eq; congruence).
        destruct (split_heap h b n x size !! d) as [y'|] eqn:Hy'.
        -- exists y'. split; [done|]. rewrite Go by done. split; [|done].
           apply split_cases in Hy' as [?|[?|(_ & _ & w' & Hw' & _ & P' & _)]]; [naive_solver..|].
           simplify_eq. rewrite P'. unfold endp in *. lia.
        -- rewrite split_other, Hy in Hy' by done. by case_decide.
  - intros c z [(-> & ->)|[(-> & ->)|(Hcb & Hcn & w & Hw & S & P & Q & _)]]%split_cases; cbn; intros E.
    + done.
    + rewrite Gn. eapply geo_first; eauto.
    + rewrite Go, P by done. eapply geo_first; eauto. congruence.
  - intros c z [(-> & ->)|[(-> & ->)|(Hcb & Hcn & w & Hw & S & P & Q & _ & _ & N)]]%split_cases; cbn; intros E.
    + rewrite Go by done. pose proof (geo_last _ _ _ G _ _ Hb E). unfold endp in *. cbn. lia.
    + done.
    + rewrite Go by done. rewrite N in E. case_decide; [done|].
      unfold endp. rewrite S, P. eapply geo_last; eauto.
  - intros c z [(-> & ->)|[(-> & ->)|(Hcb & Hcn & w & Hw & S & P & Q & _ & _ & N)]]%split_cases E.
    + by rewrite Go.
    + by rewrite Gn.
    + rewrite Go by done. destruct (decide (prev_ x = Some c)) as [Hp|Hp].
      * destruct (geo_prev _ _ _ _ _ _ G Hb Hp) as (y & Hy & _ & _ & Hg & _). by rewrite Hg.
      * eapply geo_limit; eauto. unfold isSplit in *. by rewrite <- Q, <- N.
  - intros c d z z' Hc Hd Hne.
    assert (A : forall w k, h !! k = Some w -> k <> b -> apart x w /\ apart w x).
    { intros w k Hw Hk. split; eapply geo_apart; eauto. }
    apply split_cases in Hc as [(-> & ->)|[(-> & ->)|(Hcb & Hcn & w & Hw & S & P & _)]];
    apply split_cases in Hd as [(-> & ->)|[(-> & ->)|(Hdb & Hdn & w' & Hw' & S' & P' & _)]];
      try done;
      try (destruct (A _ _ Hw Hcb)); try (destruct (A _ _ Hw' Hdb));
      try (pose proof (geo_apart _ _ _ G _ _ _ _ Hw Hw' Hne));
      unfold apart, endp in *; cbn; try lia.
Qed.
End Split.

(** ** Joining two adjacent blocks *)

(** [xl] (at [l]) and [xr] (at [r]) are neighbours; the result is kept in [e]
    and the other one, [o], is deleted. *)
Section Merge.
Context (limit : Z) (g : bid -> segment) (h h' : gmap bid Block) (l r e o : bid) (xl xr m : Block).
Hypothesis G : geometry limit g h.
Hypothesis Hl : h !! l = Some xl.
Hypothesis Hr : h !! r = Some xr.
Hypothesis Hlr : next_ xl = Some r.
Hypothesis Heo : (e = l /\ o = r) \/ (e = r /\ o = l).
Hypothesis Me : h' !! e = Some m.
Hypothesis Mo : h' !! o = None.
Hypothesis Mm : ptr_ m = ptr_ xl /\ size_ m = size_ xl + size_ xr
                /\ prev_ m = prev_ xl /\ next_ m = next_ xr.
Hypothesis Mc : forall c z, c <> e -> c <> o -> h' !! c = Some z ->
  exists w, h !! c = Some w /\ size_ z = size_ w /\ ptr_ z = ptr_ w
    /\ prev_ z = (if decide (next_ xr = Some c) then Some e else prev_ w)
    /\ next_ z = (if decide (prev_ xl = Some c) then Some e else next_ w).
Hypothesis Mc' : forall c, c <> e -> c <> o -> is_Some (h !! c) -> is_Some (h' !! c).

Lemma merge_neq : l <> r.
Proof. destruct (geo_next _ _ _ _ _ _ G Hl Hlr) as (? & ? & ? & ? & ? & ?). congruence. Qed.

Lemma merge_facts : prev_ xr = Some l /\ ptr_ xr = endp xl /\ g r = g l.
Proof. destruct (geo_next _ _ _ _ _ _ G Hl Hlr) as (? & ? & ? & ? & ? & ?). by simplify_eq. Qed.

Lemma merge_g : g e = g l /\ g o = g l.
Proof. destruct merge_facts as (_ & _ & Hg). destruct Heo as [[-> ->]|[-> ->]]; auto. Qed.

(** The neighbours of the pair are outside the pair. *)
Lemma merge_outer_l c : prev_ xl = Some c ->
  c <> e /\ c <> o /\ exists w, h !! c = Some w /\ next_ w = Some l /\ ptr_ xl = endp w /\ g c = g l.
Proof.
  intros Hc. destruct (geo_prev _ _ _ _ _ _ G Hl Hc) as (w & Hw & Hn & Hp & Hg & Hne).
  assert (c <> r) by (intros ->; simplify_eq; pose proof merge_facts; pose proof (geo_in _ _ _ G _ _ Hl);
    pose proof (geo_in _ _ _ G _ _ Hr); unfold in_segment, endp in *; lia).
  split_and!; [destruct Heo as [[-> ->]|[-> ->]]; done..|]. by exists w.
Qed.

Lemma merge_outer_r c : next_ xr = Some c ->
  c <> e /\ c <> o /\ exists w, h !! c = Some w /\ prev_ w = Some r /\ ptr_ w = endp xr /\ g c = g l.
Proof.
  intros Hc. destruct (geo_next _ _ _ _ _ _ G Hr Hc) as (w & Hw & Hn & Hp & Hg & Hne).
  destruct merge_facts as (F1 & F2 & F3).
  assert (c <> l) by (intros ->; simplify_eq; pose proof (geo_in _ _ _ G _ _ Hl);
    pose proof (geo_in _ _ _ G _ _ Hr); unfold in_segment, endp in *; lia).
  split_and!; [destruct Heo as [[-> ->]|[-> ->]]; done..|]. exists w. by rewrite Hg, F3.
Qed.

Lemma merge_nx c :
  nx h' c = if decide (c = o) then None else if decide (c = e) then next_ xr
            else if decide (prev_ xl = Some c) then Some e else nx h c.
Proof.
  unfold nx. destruct Mm as (_ & _ & _ & M4).
  destruct (decide (c = o)) as [->|Ho]; [by rewrite Mo|].
  destruct (decide (c = e)) as [->|He]; [by rewrite Me|].
  destruct (h' !! c) as [z|] eqn:Hz.
  - destruct (Mc c z He Ho Hz) as (w & Hw & _ & _ & _ & E). rewrite Hw. cbn. rewrite E.
    by destruct (decide (prev_ xl = Some c)).
  - destruct (h !! c) as [w|] eqn:Hw.
    { destruct (Mc' c He Ho) as [? ?]; [eauto|congruence]. }
    destruct (decide (prev_ xl = Some c)) as [E|]; [|done].
    destruct (merge_outer_l c E) as (_ & _ & ? & ? & _). congruence.
Qed.

Lemma merge_pv c :
  pv h' c = if decide (c = o) then None else if decide (c = e) then prev_ xl
            else if decide (next_ xr = Some c) then Some e else pv h c.
Proof.
  unfold pv. destruct Mm as (_ & _ & M3 & _).
  destruct (decide (c = o)) as [->|Ho]; [by rewrite Mo|].
  destruct (decide (c = e)) as [->|He]; [by rewrite Me|].
  destruct (h' !! c) as [z|] eqn:Hz.
  - destruct (Mc c z He Ho Hz) as (w & Hw & _ & _ & E & _). rewrite Hw. cbn. rewrite E.
    by destruct (decide (next_ xr = Some c)).
  - destruct (h !! c) as [w|] eqn:Hw.
    { destruct (Mc' c He Ho) as [? ?]; [eauto|congruence]. }
    destruct (decide (next_ xr = Some c)) as [E|]; [|done].
    destruct (merge_outer_r c E) as (_ & _ & ? & ? & _). congruence.
Qed.

Lemma merge_link c d : nx h' c = Some d <-> pv h' d = Some c.
Proof.
  rewrite merge_nx, merge_pv. pose proof (geo_link _ _ _ G c d) as L.
  destruct merge_facts as (F1 & _ & _). pose proof merge_neq as Hne.
  assert (Ll : nx h l = Some r) by (unfold nx; by rewrite Hl).
  assert (Lr : pv h r = Some l) by (unfold pv; by rewrite Hr).
  assert (Lr' : nx h r = next_ xr) by (unfold nx; by rewrite Hr).
  assert (Ll' : pv h l = prev_ xl) by (unfold pv; by rewrite Hl).
  pose proof (geo_link _ _ _ G c l) as K1. pose proof (geo_link _ _ _ G r d) as K2.
  pose proof (geo_link _ _ _ G c r) as K3. pose proof (geo_link _ _ _ G l d) as K4.
  pose proof (merge_outer_l c) as Ol. pose proof (merge_outer_r d) as Or.
  rewrite Ll' in K1. rewrite Lr' in K2. rewrite Lr in K3. rewrite Ll in K4.
  clear Me Mo Mm Mc Mc'.
  destruct Heo as [[-> ->]|[-> ->]];
    destruct (decide (c = l)), (decide (c = r)), (decide (d = l)), (decide (d = r));
    destruct (decide (prev_ xl = Some c)), (decide (next_ xr = Some d)); subst; try naive_solver.
Qed.

(** A block of the new heap is the joined one or an old one. *)
Lemma merge_cases c z :
  h' !! c = Some z ->
  (c = e /\ z = m) \/ (c <> e /\ c <> o /\ exists w, h !! c = Some w /\ size_ z = size_ w /\ ptr_ z = ptr_ w
    /\ prev_ z = (if decide (next_ xr = Some c) then Some e else prev_ w)
    /\ next_ z = (if decide (prev_ xl = Some c) then Some e else next_ w)).
Proof.
  intros Hz. destruct (decide (c = e)) as [->|He]; [left; naive_solver|].
  right. split; [done|]. destruct (decide (c = o)) as [->|Ho]; [congruence|]. eauto.
Qed.

Lemma merge_adj c d z :
  h' !! c = Some z -> next_ z = Some d -> exists y, h' !! d = Some y /\ ptr_ y = endp z /\ g d = g c.
Proof.
  intros Hc Hd. destruct merge_facts as (F1 & F2 & F3). destruct merge_g as [Ge Go].
  destruct Mm as (M1 & M2 & M3 & M4).
  apply merge_cases in Hc as [(-> & ->)|(He & Ho & w & Hw & S & P & Q & N)].
  - rewrite M4 in Hd. destruct (merge_outer_r d Hd) as (De & Do & w & Hw & _ & Hp & Hg).
    destruct (Mc' d De Do) as [y Hy]; [eauto|]. exists y. split; [done|].
    destruct (Mc d y De Do Hy) as (w' & Hw' & _ & P' & _). simplify_eq.
    rewrite P', Hg, Ge. unfold endp in *. split; [lia|done].
  - rewrite N in Hd. destruct (decide (prev_ xl = Some c)) as [E|E].
    + injection Hd as <-. exists m. destruct (merge_outer_l c E) as (_ & _ & w' & Hw' & _ & Hp & Hg).
      simplify_eq. rewrite M1, Ge, Hg. unfold endp in *. split_and!; [done|lia|done].
    + destruct (geo_next _ _ _ _ _ _ G Hw Hd) as (y & Hy & Py & Hp & Hg & Hne).
      assert (d <> l) by congruence.
      assert (d <> r) by (intros ->; rewrite Hr in Hy; destruct Heo as [[-> ->]|[-> ->]]; congruence).
      assert (De : d <> e) by (destruct Heo as [[-> ->]|[-> ->]]; done).
      assert (Do : d <> o) by (destruct Heo as [[-> ->]|[-> ->]]; done).
      destruct (Mc' d De Do) as [y' Hy']; [eauto|]. exists y'. split; [done|].
      destruct (Mc d y' De Do Hy') as (w' & Hw' & _ & P' & _). simplify_eq.
      rewrite P', Hg. unfold endp in *. split; [lia|done].
Qed.

Lemma geometry_merge : geometry limit g h'.
Proof.
  destruct merge_facts as (F1 & F2 & F3). destruct merge_g as [Ge Go].
  destruct Mm as (M1 & M2 & M3 & M4).
  pose proof (geo_in _ _ _ G _ _ Hl) as Il. pose proof (geo_in _ _ _ G _ _ Hr) as Ir. rewrite F3 in Ir.
  split.
  - intros c z [(-> & ->)|(He & Ho & w & Hw & S & P & _)]%merge_cases.
    + rewrite Ge. unfold in_segment, endp in *. rewrite M1, M2.
      destruct Il as (? & ? & ? & ? & ?), Ir as (? & ? & ? & ? & ?).
      split_and!; try lia. by apply Z.divide_add_r.
    + pose proof (geo_in _ _ _ G _ _ Hw) as I. unfold in_segment, endp in *. by rewrite S, P.
  - apply merge_link.
  - apply merge_adj.
  - intros c z [(-> & ->)|(He & Ho & w & Hw & S & P & Q & _)]%merge_cases E.
    + rewrite Ge, M1. rewrite M3 in E. by apply (geo_first _ _ _ G).
    + rewrite P. rewrite Q in E. destruct (decide (next_ xr = Some c)); [done|].
      by apply (geo_first _ _ _ G).
  - intros c z [(-> & ->)|(He & Ho & w & Hw & S & P & Q & N)]%merge_cases E.
    + rewrite M4 in E. pose proof (geo_last _ _ _ G _ _ Hr E) as K. rewrite F3 in K.
      rewrite Ge. unfold endp in *. lia.
    + rewrite N in E. destruct (decide (prev_ xl = Some c)); [done|].
      pose proof (geo_last _ _ _ G _ _ Hw E) as K. unfold endp in *. lia.
  - assert (Hsp : seg_len (g l) < limit).
    { eapply geo_limit; eauto. unfold isSplit. rewrite Hlr. by destruct (prev_ xl). }
    intros c z [(-> & ->)|(He & Ho & w & Hw & S & P & Q & N)]%merge_cases E; [by rewrite Ge|].
    destruct (decide (prev_ xl = Some c)) as [Ec|].
    { destruct (merge_outer_l c Ec) as (_ & _ & ? & _ & _ & _ & ->). done. }
    destruct (decide (next_ xr = Some c)) as [Ec|].
    { destruct (merge_outer_r c Ec) as (_ & _ & ? & _ & _ & _ & ->). done. }
    eapply geo_limit; eauto. unfold isSplit in *. by rewrite Q, N in E.
  - intros c d z z' Hc Hd Hne.
    assert (A : forall w k, h !! k = Some w -> k <> e -> k <> o -> apart xl w /\ apart xr w).
    { intros w k Hw Hk Hk'. split; eapply geo_apart; eauto; destruct Heo as [[-> ->]|[-> ->]]; done. }
    assert (B : forall w k, h !! k = Some w -> 0 < size_ w).
    { intros w k Hw. apply (geo_in _ _ _ G _ _ Hw). }
    apply merge_cases in Hc as [(-> & ->)|(Hce & Hco & w & Hw & S & P & _)];
    apply merge_cases in Hd as [(-> & ->)|(Hde & Hdo & w' & Hw' & S' & P' & _)]; [done|..].
    + destruct (A _ _ Hw' Hde Hdo). pose proof (B _ _ Hw'). unfold apart, endp, in_segment in *. lia.
    + destruct (A _ _ Hw Hce Hco). pose proof (B _ _ Hw). unfold apart, endp, in_segment in *. lia.
    + pose proof (geo_apart _ _ _ G _ _ _ _ Hw Hw' Hne). unfold apart, endp in *. lia.
Qed.
End Merge.

(** ** New and returned segments *)

Lemma geometry_new limit g h n sm p len :
  geometry limit g h -> h !! n = None -> 0 < p -> 0 < len < 2 ^ 64 -> (kMinBlockSize | len) ->
  (forall b x, h !! b = Some x -> apart (newBlock len p) x) ->
  geometry limit (gset_at n (Seg sm p len) g) (<[n := newBlock len p]> h).
Proof.
  intros G Hn Hp Hlen Hdiv Hap.
  assert (Gn : gset_at n (Seg sm p len) g n = Seg sm p len) by (unfold gset_at; by rewrite decide_True).
  assert (Go : forall c, c <> n -> gset_at n (Seg sm p len) g c = g c)
    by (intros c Hc; unfold gset_at; by rewrite decide_False).
  assert (Hnx : forall c, nx (<[n := newBlock len p]> h) c = nx h c).
  { intros c. unfold nx. destruct (decide (c = n)) as [->|]; by simplify_map_eq. }
  assert (Hpv : forall c, pv (<[n := newBlock len p]> h) c = pv h c).
  { intros c. unfold pv. destruct (decide (c = n)) as [->|]; by simplify_map_eq. }
  split.
  - intros c z [(<- & <-)|(Hc & Hz)]%lookup_insert_Some.
    + rewrite Gn. unfold in_segment, endp. cbn. split_and!; (done || lia).
    + rewrite Go by done. by apply (geo_in _ _ _ G).
  - intros c d. rewrite Hnx, Hpv. apply (geo_link _ _ _ G).
  - intros c d z [(<- & <-)|(Hc & Hz)]%lookup_insert_Some E; [done|].
    destruct (geo_adj _ _ _ G _ _ _ Hz E) as (y & Hy & P & Q).
    assert (d <> n) by congruence. exists y. rewrite lookup_insert_ne, !Go by done. done.
  - intros c z [(<- & <-)|(Hc & Hz)]%lookup_insert_Some E; [by rewrite Gn|].
    rewrite Go by done. by apply (geo_first _ _ _ G).
  - intros c z [(<- & <-)|(Hc & Hz)]%lookup_insert_Some E; [by rewrite Gn|].
    rewrite Go by done. by apply (geo_last _ _ _ G).
  - intros c z [(<- & <-)|(Hc & Hz)]%lookup_insert_Some E; [done|].
    rewrite Go by done. by eapply (geo_limit _ _ _ G).
  - intros c d z z' [(<- & <-)|(Hc & Hz)]%lookup_insert_Some
      [(<- & <-)|(Hd & Hz')]%lookup_insert_Some Hne; [done|by eauto|..].
    + destruct (Hap _ _ Hz); unfold apart; auto.
    + by apply (geo_apart _ _ _ G c d).
Qed.

Lemma geometry_delete limit g h b x :
  geometry limit g h -> h !! b = Some x -> isSplit x = false -> geometry limit g (delete b h).
Proof.
  intros G Hb [Ep En]%isSplit_false.
  assert (Hnx : forall c, nx (delete b h) c = nx h c).
  { intros c. unfold nx. destruct (decide (c = b)) as [->|]; simplify_map_eq; congruence. }
  assert (Hpv : forall c, pv (delete b h) c = pv h c).
  { intros c. unfold pv. destruct (decide (c = b)) as [->|]; simplify_map_eq; congruence. }
  split.
  - intros c z [_ Hz]%lookup_delete_Some. by apply (geo_in _ _ _ G).
  - intros c d. rewrite Hnx, Hpv. apply (geo_link _ _ _ G).
  - intros c d z [Hc Hz]%lookup_delete_Some E.
    destruct (geo_next _ _ _ _ _ _ G Hz E) as (y & Hy & Q & P & Hg & _).
    assert (b <> d) by congruence. exists y. by rewrite lookup_delete_ne.
  - intros c z [_ Hz]%lookup_delete_Some. by apply (geo_first _ _ _ G).
  - intros c z [_ Hz]%lookup_delete_Some. by apply (geo_last _ _ _ G).
  - intros c z [_ Hz]%lookup_delete_Some. by apply (geo_limit _ _ _ G).
  - intros c d z z' [_ Hz]%lookup_delete_Some [_ Hz']%lookup_delete_Some. by apply (geo_apart _ _ _ G).
Qed.

(** The size class of a whole segment may be reassigned. *)
Lemma geometry_class limit g h b x sm :
  geometry limit g h -> h !! b = Some x -> isSplit x = false ->
  geometry limit (gset_at b (Seg sm (seg_base (g b)) (seg_len (g b))) g) h.
Proof.
  intros G Hb Hs. set (g' := gset_at b _ g).
  assert (Gn : g' b = Seg sm (seg_base (g b)) (seg_len (g b))) by (unfold g', gset_at; by rewrite decide_True).
  assert (Go : forall c, c <> b -> g' c = g c) by (intros c Hc; unfold g', gset_at; by rewrite decide_False).
  clearbody g'. apply isSplit_false in Hs as [Ep En].
  split.
  - intros c z Hz. pose proof (geo_in _ _ _ G _ _ Hz) as I.
    destruct (decide (c = b)) as [->|]; [by rewrite Gn|by rewrite Go].
  - apply (geo_link _ _ _ G).
  - intros c d z Hz E. destruct (geo_next _ _ _ _ _ _ G Hz E) as (y & Hy & P & Q & Hg & Hne).
    assert (c <> b) by congruence. assert (d <> b) by congruence.
    exists y. by rewrite !Go.
  - intros c z Hz E. pose proof (geo_first _ _ _ G _ _ Hz E).
    destruct (decide (c = b)) as [->|]; [by rewrite Gn|by rewrite Go].
  - intros c z Hz E. pose proof (geo_last _ _ _ G _ _ Hz E).
    destruct (decide (c = b)) as [->|]; [by rewrite Gn|by rewrite Go].
  - intros c z Hz E. pose proof (geo_limit _ _ _ G _ _ Hz E).
    destruct (decide (c = b)) as [->|]; [by rewrite Gn|by rewrite Go].
  - apply (geo_apart _ _ _ G).
Qed.
