(* ===== verification/CachingMMBook.v ===== *)
(** The bookkeeping half of the allocator's invariant: the two pools, the map of
    allocated blocks and the statistics, and how the elementary steps of the
    allocator maintain them. *)
From S2P Require Import Prelude CachingMM CachingMMInv.

Open Scope Z_scope.

(** What a client can observe of a block. *)
Definition obs (x : Block) : Z * Z * bool * bool := (size_ x, ptr_ x, managerLock_ x, userLock_ x).

Definition kept (h h' : gmap bid Block) (c : bid) : Prop := obs <$> h' !! c = obs <$> h !! c.

Definition sizeof (h : gmap bid Block) (c : bid) : Z := from_option size_ 0 (h !! c).

(** Bytes of the blocks of a list, and of the whole heap. *)
Fixpoint bytes (h : gmap bid Block) (l : list bid) : Z :=
  match l with [] => 0 | c :: r => sizeof h c + bytes h r end.
Definition total (h : gmap bid Block) : Z := map_fold (fun _ x acc => size_ x + acc) 0 h.

Definition ordered (h : gmap bid Block) (l : list bid) : Prop := StronglySorted (fun a b => less h a b = true) l.

(** * Lemmas on [kept], [bytes], [total] and [less] *)

Lemma kept_Some h h' c x :
  kept h h' c -> h !! c = Some x ->
  exists z, h' !! c = Some z /\ size_ z = size_ x /\ ptr_ z = ptr_ x
    /\ managerLock_ z = managerLock_ x /\ userLock_ z = userLock_ x.
Proof.
  unfold kept, obs. intros K Hx. rewrite Hx in K. destruct (h' !! c) as [z|]; [|done].
  exists z. cbn in K. by simplify_eq.
Qed.

Lemma kept_refl h c : kept h h c.
Proof. done. Qed.

Lemma kept_sym h h' c : kept h h' c -> kept h' h c.
Proof. unfold kept. done. Qed.

Lemma kept_trans h1 h2 h3 c : kept h1 h2 c -> kept h2 h3 c -> kept h1 h3 c.
Proof. unfold kept. congruence. Qed.

Lemma kept_inUse h h' c x z : kept h h' c -> h !! c = Some x -> h' !! c = Some z -> inUse z = inUse x.
Proof.
  intros K Hx Hz. destruct (kept_Some _ _ _ _ K Hx) as (z' & Hz' & _ & _ & E1 & E2).
  simplify_eq. unfold inUse. by rewrite E1, E2.
Qed.

Lemma less_kept h h' a b : kept h h' a -> kept h h' b -> less h' a b = less h a b.
Proof.
  unfold kept, less, obs, BlockComparator. intros Ka Kb.
  destruct (h !! a) as [x|], (h' !! a) as [x'|]; cbn in *; simplify_eq; [|done..].
  destruct (h !! b) as [y|], (h' !! b) as [y'|]; cbn in *; simplify_eq; [|done].
  repeat match goal with E : _ = _ |- _ => rewrite E; clear E end. done.
Qed.

Lemma sizeof_kept h h' c : kept h h' c -> sizeof h' c = sizeof h c.
Proof.
  unfold kept, sizeof, obs. destruct (h !! c), (h' !! c); cbn; congruence.
Qed.

Lemma bytes_kept h h' l : (forall c, c ∈ l -> kept h h' c) -> bytes h' l = bytes h l.
Proof.
  induction l as [|c l IH]; intros K; cbn; [done|].
  rewrite (sizeof_kept h h' c) by (apply K; left). rewrite IH; [done|]. intros d Hd. apply K. by right.
Qed.

Lemma bytes_perm h l l' : l ≡ₚ l' -> bytes h l = bytes h l'.
Proof. induction 1; cbn; lia. Qed.

Lemma ordered_kept h h' l : (forall c, c ∈ l -> kept h h' c) -> ordered h l -> ordered h' l.
Proof.
  intros K. induction 1 as [|c l Hl IH Hc]; constructor.
  - apply IH. intros d Hd. apply K. by right.
  - rewrite Forall_forall in Hc |- *. intros d Hd.
    rewrite (less_kept h h'); [by apply Hc|apply K; by left|apply K; by right].
Qed.

Lemma less_irrefl h a : less h a a = false.
Proof. unfold less, BlockComparator. destruct (h !! a); [|done]. rewrite Z.eqb_refl. lia. Qed.

Lemma less_trans h a b c : less h a b = true -> less h b c = true -> less h a c = true.
Proof.
  unfold less, BlockComparator. destruct (h !! a), (h !! b), (h !! c); try done.
  repeat case_match; lia.
Qed.

Lemma ordered_NoDup h l : ordered h l -> NoDup l.
Proof.
  induction 1 as [|c l Hl IH Hc]; constructor; [|done].
  rewrite Forall_forall in Hc. intros Hin. specialize (Hc c Hin). by rewrite less_irrefl in Hc.
Qed.

Lemma ordered_filter h (P : bid -> Prop) `{!forall c, Decision (P c)} l :
  ordered h l -> ordered h (filter P l).
Proof.
  induction 1 as [|c l Hl IH Hc]; [constructor|]. rewrite filter_cons. case_decide; [|done].
  constructor; [done|]. rewrite Forall_forall in Hc |- *. intros d [_ Hd]%list_elem_of_filter. auto.
Qed.

Lemma filter_agree (P Q : bid -> Prop) `{!forall c, Decision (P c)} `{!forall c, Decision (Q c)} (l : list bid) :
  (forall c, c ∈ l -> P c <-> Q c) -> filter P l = filter Q l.
Proof.
  induction l as [|c l IH]; intros E; [done|]. rewrite !filter_cons.
  assert (Hc : P c <-> Q c) by (apply E; by left).
  rewrite IH by (intros d Hd; apply E; by right).
  destruct (decide (P c)), (decide (Q c)); tauto.
Qed.

Lemma ordered_remove h l b : ordered h l -> ordered h (filter (fun c => c <> b) l).
Proof. intros. by apply ordered_filter. Qed.

Lemma remove_perm b (l : list bid) : NoDup l -> b ∈ l -> l ≡ₚ b :: filter (fun c => c <> b) l.
Proof.
  induction l as [|c l IH]; [by intros _ ?%elem_of_nil|].
  intros [Hc Hl]%NoDup_cons [->|Hb]%elem_of_cons.
  - rewrite filter_cons_False by naive_solver. constructor.
    rewrite list_filter_True; [done|]. apply Forall_forall. intros d Hd ->. done.
  - assert (c <> b) by congruence. rewrite filter_cons_True by done.
    rewrite (IH Hl Hb) at 1. constructor.
Qed.

(** Distinct members of a [std::set] are comparable. *)
Definition separated (h : gmap bid Block) (b : bid) (l : list bid) : Prop :=
  forall c, c ∈ l -> c <> b -> less h b c || less h c b = true.

Lemma set_erase_remove h b l : separated h b l -> set_erase h b l = filter (fun c => c <> b) l.
Proof.
  intros Hs. unfold set_erase. apply filter_agree. intros c Hc. split; [|by auto].
  intros E ->. by rewrite less_irrefl in E.
Qed.

Lemma set_insert_perm h b l : separated h b l -> b ∉ l -> set_insert h b l ≡ₚ b :: l.
Proof.
  induction l as [|c l IH]; intros Hs Hb; cbn; [done|].
  apply not_elem_of_cons in Hb as [Hbc Hb].
  destruct (less h b c) eqn:E1; [done|].
  destruct (less h c b) eqn:E2.
  - rewrite IH; [constructor| |done]. intros d Hd. apply Hs. by right.
  - specialize (Hs c). rewrite E1, E2 in Hs. naive_solver set_solver.
Qed.

Lemma set_insert_ordered h b l : separated h b l -> b ∉ l -> ordered h l -> ordered h (set_insert h b l).
Proof.
  induction l as [|c l IH]; intros Hs Hb Ho; cbn; [repeat constructor|].
  apply not_elem_of_cons in Hb as [Hbc Hb]. inv Ho.
  assert (Hs' : separated h b l) by (intros d Hd; apply Hs; by right).
  destruct (less h b c) eqn:E1; [|destruct (less h c b) eqn:E2].
  - constructor; [by constructor|]. constructor; [done|].
    eapply Forall_impl; [done|]. cbn. eauto using less_trans.
  - constructor; [by apply IH|]. rewrite set_insert_perm by done. by constructor.
  - by constructor.
Qed.

(** ** Bytes of the heap *)

Lemma total_insert h i x : h !! i = None -> total (<[i := x]> h) = size_ x + total h.
Proof. intros Hi. unfold total. rewrite map_fold_insert_L; [done| |done]. intros. lia. Qed.

Lemma total_delete h i x : h !! i = Some x -> total h = size_ x + total (delete i h).
Proof.
  intros Hi. rewrite <- (total_insert (delete i h) i x) by apply lookup_delete_eq.
  by rewrite insert_delete_id.
Qed.

Lemma total_update h i x y : h !! i = Some x -> total (<[i := y]> h) = total h - size_ x + size_ y.
Proof.
  intros Hi. rewrite (total_delete h i x Hi), <- insert_delete_eq, total_insert by apply lookup_delete_eq. lia.
Qed.

Lemma total_kept h h' : (forall c, kept h h' c) -> total h' = total h.
Proof.
  intros K.
  assert (E : forall m, total m = map_fold (fun _ z acc => z + acc) 0 (size_ <$> m))
    by (intros m; rewrite map_fold_fmap; done).
  rewrite !E. f_equal. apply map_eq. intros c. rewrite !lookup_fmap.
  specialize (K c). unfold kept, obs in K. destruct (h !! c), (h' !! c); cbn in *; congruence.
Qed.

Lemma u64_add_l a b : u64 (u64 a + b) = u64 (a + b).
Proof. unfold u64. by rewrite Zplus_mod_idemp_l. Qed.

(** * The invariant *)

Record book (o : option bid) (g : bid -> segment) (s : mm) : Prop := {
  bk_pool : forall k b, b ∈ pool k s ->
    exists x, heap s !! b = Some x /\ inUse x = false /\ seg_small (g b) = k /\ o <> Some b;
  bk_cached : forall b x, heap s !! b = Some x -> o <> Some b -> inUse x = false ->
    b ∈ pool (seg_small (g b)) s;
  bk_alloc : forall p b, allocatedBlocks_ s !! p = Some b ->
    exists x, heap s !! b = Some x /\ ptr_ x = p /\ inUse x = true /\ o <> Some b;
  bk_used : forall b x, heap s !! b = Some x -> o <> Some b -> inUse x = true ->
    allocatedBlocks_ s !! ptr_ x = Some b
    /\ (isSplit x = true -> (size_ x <=? kSmallSize) = seg_small (g b));
  bk_open : forall b, o = Some b -> exists x, heap s !! b = Some x /\ inUse x = false;
  bk_ordered : forall k, ordered (heap s) (pool k s);
  bk_bytes : cachedBytes_ (stats_ s) = u64 (bytes (heap s) (pool true s) + bytes (heap s) (pool false s));
  bk_total : allocatedBytes_ (stats_ s) = u64 (total (heap s))
}.

Definition InvG (o : option bid) (g : bid -> segment) (s : mm) : Prop :=
  geometry (splitSizeLimit_ s) g (heap s) /\ book o g s.

(** The invariant of the allocator between two calls. *)
Definition Inv (s : mm) : Prop := exists g, InvG None g s.

Lemma geo_separated limit g h b l :
  geometry limit g h -> is_Some (h !! b) -> (forall c, c ∈ l -> is_Some (h !! c)) -> separated h b l.
Proof.
  intros G [x Hx] Hl c Hc Hne. destruct (Hl c Hc) as [y Hy].
  pose proof (geo_apart _ _ _ G _ _ _ _ Hx Hy (not_eq_sym Hne)) as A.
  pose proof (geo_in _ _ _ G _ _ Hx) as Ix. pose proof (geo_in _ _ _ G _ _ Hy) as Iy.
  unfold less. rewrite Hx, Hy. unfold apart, endp, in_segment, BlockComparator in *.
  repeat case_match; lia.
Qed.

Lemma pool_set_pool k k' l s : pool k (set_pool k' l s) = if eqb k k' then l else pool k s.
Proof. by destruct k, k'. Qed.

Lemma bytes_pools h k s :
  bytes h (pool true s) + bytes h (pool false s) = bytes h (pool k s) + bytes h (pool (negb k) s).
Proof. destruct k; cbn; lia. Qed.

(** * Elementary steps *)

Lemma eqb_neq k k' : k <> k' -> eqb k k' = false.
Proof. by destruct k, k'. Qed.

(** The pools after [b] has left pool [k]. *)
Definition without (k : bool) (b : bid) (s : mm) : mm :=
  set_pool k (filter (fun c => c <> b) (pool k s)) s.

Lemma elem_of_without k b k' c s : c ∈ pool k' (without k b s) <-> c ∈ pool k' s /\ (k' = k -> c <> b).
Proof.
  unfold without. rewrite pool_set_pool. destruct k, k'; cbn; rewrite ?list_elem_of_filter; naive_solver.
Qed.

Lemma without_ordered h k b k' s : ordered h (pool k' s) -> ordered h (pool k' (without k b s)).
Proof.
  intros Ho. unfold without. rewrite pool_set_pool. destruct (eqb k' k) eqn:E; [|done].
  apply eqb_prop in E as ->. by apply ordered_remove.
Qed.

Lemma without_bytes h k b s :
  ordered h (pool k s) -> b ∈ pool k s ->
  bytes h (pool true (without k b s)) + bytes h (pool false (without k b s))
  = bytes h (pool true s) + bytes h (pool false s) - sizeof h b.
Proof.
  intros Ho Hb. rewrite !(bytes_pools h k). unfold without. rewrite !pool_set_pool, eqb_reflx.
  rewrite eqb_neq by (by destruct k).
  rewrite (bytes_perm h (pool k s) _ (remove_perm b _ (ordered_NoDup _ _ Ho) Hb)). cbn. lia.
Qed.

Lemma book_in_one_pool o g s k b : book o g s -> b ∈ pool k s -> forall k', b ∈ pool k' s -> k' = k.
Proof.
  intros B H1 k' H2. destruct (bk_pool _ _ _ B _ _ H1) as (? & _ & _ & <- & _).
  by destruct (bk_pool _ _ _ B _ _ H2) as (? & _ & _ & <- & _).
Qed.

(** A cached block is taken out of its pool. *)
Lemma inv_take g s k b x :
  InvG None g s -> b ∈ pool k s -> heap s !! b = Some x ->
  InvG (Some b) g (addCached (- size_ x) (without k b s)).
Proof.
  intros [G B] Hb Hx. split; [exact G|].
  destruct (bk_pool _ _ _ B _ _ Hb) as (x' & Hx' & Hu & Hk & _). simplify_eq.
  assert (P : forall k' c, c ∈ pool k' (addCached (- size_ x) (without (seg_small (g b)) b s))
                <-> c ∈ pool k' s /\ c <> b).
  { intros k' c. change (pool k' (addCached _ ?t)) with (pool k' t). rewrite elem_of_without.
    split; [|naive_solver]. intros [Hc Hne]. split; [done|]. intros ->.
    apply Hne; [|done]. by apply (book_in_one_pool _ _ _ _ _ B Hb). }
  split; change (heap (addCached _ _)) with (heap s);
    change (allocatedBlocks_ (addCached _ _)) with (allocatedBlocks_ s).
  - intros k' c [Hc Hne]%P. destruct (bk_pool _ _ _ B _ _ Hc) as (y & ? & ? & ? & _).
    exists y. naive_solver.
  - intros c y Hy Ho Hi. apply P. split; [by eapply bk_cached|congruence].
  - intros p c Hc. destruct (bk_alloc _ _ _ B _ _ Hc) as (y & ? & ? & ? & _).
    exists y. split_and!; try done. intros [= ->]. congruence.
  - intros c y Hy Ho Hi. by apply (bk_used _ _ _ B).
  - intros c [= <-]. eauto.
  - intros k'. apply without_ordered, (bk_ordered _ _ _ B).
  - cbn -[pool u64]. change (pool ?k (addCached _ ?t)) with (pool k t).
    rewrite without_bytes by (done || apply (bk_ordered _ _ _ B)).
    rewrite (bk_bytes _ _ _ B), u64_add_l. unfold sizeof. rewrite Hx. done.
  - apply (bk_total _ _ _ B).
Qed.

(** A new block from the device. *)
Lemma inv_new g s n sm p len :
  InvG None g s -> heap s !! n = None -> 0 < p -> 0 < len < 2 ^ 64 -> (kMinBlockSize | len) ->
  (forall b x, heap s !! b = Some x -> apart (newBlock len p) x) ->
  InvG (Some n) (gset_at n (Seg sm p len) g)
    (addAllocated len (set_heap (<[n := newBlock len p]> (heap s)) s)).
Proof.
  intros [G B] Hn Hp Hl Hd Ha. split; [by apply geometry_new|].
  set (g' := gset_at _ _ _). set (h' := <[n := newBlock len p]> (heap s)).
  assert (Go : forall c, c <> n -> g' c = g c)
    by (intros c Hc; unfold g', gset_at; by rewrite decide_False).
  assert (L : forall c, c <> n -> h' !! c = heap s !! c)
    by (intros c Hc; unfold h'; by rewrite lookup_insert_ne).
  assert (K : forall k c, c ∈ pool k s -> c <> n).
  { intros k c Hc ->. destruct (bk_pool _ _ _ B _ _ Hc) as (? & ? & _). congruence. }
  split; change (heap (addAllocated _ _)) with h';
    change (allocatedBlocks_ (addAllocated _ _)) with (allocatedBlocks_ s);
    change (fun k => pool k (addAllocated _ _)) with (fun k => pool k s).
  - intros k c Hc. change (c ∈ pool k s) in Hc. pose proof (K _ _ Hc).
    destruct (bk_pool _ _ _ B _ _ Hc) as (y & ? & ? & ? & _).
    exists y. rewrite L, Go by done. naive_solver.
  - intros c y Hy Ho Hi. assert (c <> n) by congruence. rewrite Go by done. rewrite L in Hy by done.
    change (c ∈ pool (seg_small (g c)) s). by eapply bk_cached.
  - intros q c Hc. destruct (bk_alloc _ _ _ B _ _ Hc) as (y & ? & ? & ? & _).
    assert (c <> n) by congruence. exists y. rewrite L by done. naive_solver.
  - intros c y Hy Ho Hi. assert (c <> n) by congruence. rewrite L in Hy by done. rewrite Go by done.
    by apply (bk_used _ _ _ B).
  - intros c [= <-]. exists (newBlock len p). unfold h'. by rewrite lookup_insert_eq.
  - intros k. change (ordered h' (pool k s)). eapply ordered_kept; [|apply (bk_ordered _ _ _ B)].
    intros c Hc. unfold kept. rewrite L; [done|eauto].
  - change (cachedBytes_ (stats_ s) = u64 (bytes h' (pool true s) + bytes h' (pool false s))).
    rewrite !(bytes_kept (heap s) h'); [apply (bk_bytes _ _ _ B)|..];
      intros c Hc; unfold kept; rewrite L; eauto.
  - unfold h'. rewrite total_insert by done. cbn -[u64].
    rewrite (bk_total _ _ _ B), u64_add_l. f_equal. lia.
Qed.

(** An unsplit cached block is given back to the device. *)
Lemma inv_drop g s k b x :
  InvG None g s -> b ∈ pool k s -> heap s !! b = Some x -> isSplit x = false ->
  InvG None g (set_heap (delete b (heap s))
    (without k b (addCached (- size_ x) (addAllocated (- size_ x) (nativeFree (ptr_ x) s))))).
Proof.
  intros [G B] Hb Hx Hs. split; [by eapply geometry_delete|].
  destruct (inv_take g s k b x (conj G B) Hb Hx) as [_ B']. 
  set (h' := delete b (heap s)). set (s' := set_heap _ _).
  assert (P : forall k', pool k' s' = pool k' (addCached (- size_ x) (without k b s))) by (by intros []).
  assert (Hne : forall k' c, c ∈ pool k' s' -> c <> b).
  { intros k' c Hc. rewrite P in Hc. destruct (bk_pool _ _ _ B' _ _ Hc) as (? & _ & _ & _ & ?). congruence. }
  assert (K : forall k' c, c ∈ pool k' s' -> kept (heap s) h' c).
  { intros k' c Hc%Hne. unfold kept, h'. by rewrite lookup_delete_ne. }
  split; change (heap s') with h'; change (allocatedBlocks_ s') with (allocatedBlocks_ s).
  - intros k' c Hc. pose proof (Hne _ _ Hc). rewrite P in Hc.
    destruct (bk_pool _ _ _ B' _ _ Hc) as (y & ? & ? & ? & _).
    exists y. unfold h'. by rewrite lookup_delete_ne.
  - intros c y [Hc Hy]%lookup_delete_Some _ Hi. rewrite P. eapply bk_cached; eauto. congruence.
  - intros q c Hc. destruct (bk_alloc _ _ _ B' _ _ Hc) as (y & ? & ? & ? & ?).
    exists y. unfold h'. rewrite lookup_delete_ne by congruence. done.
  - intros c y [Hc Hy]%lookup_delete_Some _ Hi. by apply (bk_used _ _ _ B).
  - done.
  - intros k'. rewrite P. eapply ordered_kept; [rewrite <- P; apply K|apply (bk_ordered _ _ _ B')].
  - rewrite !(bytes_kept (heap s) h') by apply K. rewrite !P. apply (bk_bytes _ _ _ B').
  - cbn -[u64 total]. rewrite (bk_total _ _ _ B), u64_add_l. unfold h'.
    rewrite (total_delete _ _ _ Hx). f_equal. lia.
Qed.

(** ** Lock flags *)

Lemma with_locks_shape m u x : same_shape x (with_locks m u x).
Proof. done. Qed.

Lemma inUse_with_locks m u x : inUse (with_locks m u x) = m || u.
Proof. done. Qed.

Lemma geo_ptr limit g h b c x y :
  geometry limit g h -> h !! b = Some x -> h !! c = Some y -> b <> c -> ptr_ x <> ptr_ y.
Proof.
  intros G Hx Hy Hne. pose proof (geo_apart _ _ _ G _ _ _ _ Hx Hy Hne) as A.
  pose proof (geo_in _ _ _ G _ _ Hx). pose proof (geo_in _ _ _ G _ _ Hy).
  unfold apart, endp, in_segment in *. lia.
Qed.

(** Changing the locks of a block that is in no pool. *)
Lemma bytes_locks g s b x m u :
  (forall k, b ∉ pool k s) -> heap s !! b = Some x -> book (Some b) g s \/ book None g s ->
  let h' := <[b := with_locks m u x]> (heap s) in
  (forall k, ordered h' (pool k s))
  /\ cachedBytes_ (stats_ s) = u64 (bytes h' (pool true s) + bytes h' (pool false s))
  /\ allocatedBytes_ (stats_ s) = u64 (total h').
Proof.
  intros Hb Hx B h'.
  assert (K : forall k c, c ∈ pool k s -> kept (heap s) h' c).
  { intros k c Hc. unfold kept, h'. rewrite lookup_insert_ne; [done|]. intros ->. by apply (Hb k). }
  assert (T : total h' = total (heap s)).
  { unfold h'. rewrite (total_update _ _ x) by done. cbn. lia. }
  rewrite !(bytes_kept (heap s) h'), T by apply K.
  destruct B as [B|B]; (split; [|by destruct B]); intros k;
    (eapply ordered_kept; [apply K|apply (bk_ordered _ _ _ B)]).
Qed.

(** The open block is handed out. *)
Lemma inv_close_alloc g s b x m u :
  InvG (Some b) g s -> heap s !! b = Some x -> m || u = true ->
  (isSplit x = true -> (size_ x <=? kSmallSize) = seg_small (g b)) ->
  InvG None g (set_allocated (<[ptr_ x := b]> (allocatedBlocks_ s))
                (set_heap (<[b := with_locks m u x]> (heap s)) s)).
Proof.
  intros [G B] Hx Hmu Hc. split; [by eapply geometry_locks|].
  assert (Hp : forall k, b ∉ pool k s).
  { intros k Hin. destruct (bk_pool _ _ _ B _ _ Hin) as (? & _ & _ & _ & ?). done. }
  destruct (bytes_locks g s b x m u Hp Hx (or_introl B)) as (Bo & Bb & Bt).
  set (h' := <[b := with_locks m u x]> (heap s)) in *.
  assert (L : forall c, c <> b -> h' !! c = heap s !! c)
    by (intros c Hcb; unfold h'; by rewrite lookup_insert_ne).
  split; [..|exact Bo|exact Bb|exact Bt]; change (heap (set_allocated _ _)) with h';
    change (allocatedBlocks_ (set_allocated ?a _)) with a.
  - intros k c Hk. change (c ∈ pool k s) in Hk.
    assert (c <> b) by (intros ->; by apply (Hp k)).
    destruct (bk_pool _ _ _ B _ _ Hk) as (y & ? & ? & ? & ?). exists y. by rewrite L.
  - intros c y Hy _ Hi. change (c ∈ pool (seg_small (g c)) s).
    assert (c <> b). { intros ->. unfold h' in Hy. simplify_map_eq. by rewrite inUse_with_locks, Hmu in Hi. }
    rewrite L in Hy by done. eapply bk_cached; eauto. congruence.
  - intros q c [(<- & <-)|(Hq & Hc')]%lookup_insert_Some.
    + exists (with_locks m u x). unfold h'. by rewrite lookup_insert_eq.
    + destruct (bk_alloc _ _ _ B _ _ Hc') as (y & ? & ? & ? & ?).
      exists y. rewrite L by congruence. done.
  - intros c y Hy _ Hi. destruct (decide (c = b)) as [->|Hcb].
    + unfold h' in Hy. rewrite lookup_insert_eq in Hy. simplify_eq. cbn. by rewrite lookup_insert_eq.
    + rewrite L in Hy by done.
      destruct (bk_used _ _ _ B c y) as [U1 U2]; [done|congruence|done|]. split; [|done].
      rewrite lookup_insert_ne; [done|]. by apply (geo_ptr _ _ _ _ _ _ _ G Hx Hy).
  - done.
Qed.

(** The locks of an allocated block change and it stays in use. *)
Lemma inv_relock g s p b x m u :
  InvG None g s -> allocatedBlocks_ s !! p = Some b -> heap s !! b = Some x -> m || u = true ->
  InvG None g (set_heap (<[b := with_locks m u x]> (heap s)) s).
Proof.
  intros [G B] Hp Hx Hmu. split; [by eapply geometry_locks|].
  destruct (bk_alloc _ _ _ B _ _ Hp) as (x' & Hx' & Hptr & Hu & _). simplify_eq.
  assert (Hpl : forall k, b ∉ pool k s).
  { intros k Hin. destruct (bk_pool _ _ _ B _ _ Hin) as (? & ? & ? & _). congruence. }
  destruct (bytes_locks g s b x m u Hpl Hx (or_intror B)) as (Bo & Bb & Bt).
  set (h' := <[b := with_locks m u x]> (heap s)) in *.
  assert (L : forall c, c <> b -> h' !! c = heap s !! c)
    by (intros c Hcb; unfold h'; by rewrite lookup_insert_ne).
  assert (Lb : h' !! b = Some (with_locks m u x)) by (unfold h'; by rewrite lookup_insert_eq).
  split; [..|exact Bo|exact Bb|exact Bt]; change (heap (set_heap ?h _)) with h;
    change (allocatedBlocks_ (set_heap _ _)) with (allocatedBlocks_ s).
  - intros k c Hk. change (c ∈ pool k s) in Hk.
    assert (c <> b) by (intros ->; by apply (Hpl k)).
    destruct (bk_pool _ _ _ B _ _ Hk) as (y & ? & ? & ? & ?). exists y. by rewrite L.
  - intros c y Hy _ Hi. change (c ∈ pool (seg_small (g c)) s).
    assert (c <> b). { intros ->. simplify_eq. by rewrite inUse_with_locks, Hmu in Hi. }
    rewrite L in Hy by done. by eapply bk_cached.
  - intros q c Hc. destruct (bk_alloc _ _ _ B _ _ Hc) as (y & Hy & Hq & Hi & _).
    destruct (decide (c = b)) as [->|]; [|exists y; by rewrite L].
    exists (with_locks m u x). simplify_eq. done.
  - intros c y Hy _ Hi. destruct (decide (c = b)) as [->|Hcb].
    + simplify_eq. by apply (bk_used _ _ _ B b x).
    + rewrite L in Hy by done. by apply (bk_used _ _ _ B).
  - done.
Qed.

(** An allocated block is unlocked and leaves the map. *)
Lemma inv_open_alloc g s p b x :
  InvG None g s -> allocatedBlocks_ s !! p = Some b -> heap s !! b = Some x ->
  InvG (Some b) g (set_allocated (delete p (allocatedBlocks_ s))
                (set_heap (<[b := with_locks false false x]> (heap s)) s)).
Proof.
  intros [G B] Hp Hx. split; [by eapply geometry_locks|].
  destruct (bk_alloc _ _ _ B _ _ Hp) as (x' & Hx' & Hptr & Hu & _). simplify_eq.
  assert (Hpl : forall k, b ∉ pool k s).
  { intros k Hin. destruct (bk_pool _ _ _ B _ _ Hin) as (? & ? & ? & _). congruence. }
  destruct (bytes_locks g s b x false false Hpl Hx (or_intror B)) as (Bo & Bb & Bt).
  set (h' := <[b := with_locks false false x]> (heap s)) in *.
  assert (L : forall c, c <> b -> h' !! c = heap s !! c)
    by (intros c Hcb; unfold h'; by rewrite lookup_insert_ne).
  split; [..|exact Bo|exact Bb|exact Bt]; change (heap (set_allocated _ _)) with h';
    change (allocatedBlocks_ (set_allocated ?a _)) with a.
  - intros k c Hk. change (c ∈ pool k s) in Hk.
    assert (c <> b) by (intros ->; by apply (Hpl k)).
    destruct (bk_pool _ _ _ B _ _ Hk) as (y & ? & ? & ? & ?). exists y. rewrite L by done. naive_solver.
  - intros c y Hy Ho Hi. change (c ∈ pool (seg_small (g c)) s).
    rewrite L in Hy by congruence. by eapply bk_cached.
  - intros q c [Hq Hc]%lookup_delete_Some. destruct (bk_alloc _ _ _ B _ _ Hc) as (y & Hy & Hyq & Hi & _).
    assert (c <> b) by congruence. exists y. rewrite L by done. naive_solver.
  - intros c y Hy Ho Hi. assert (Hcb : b <> c) by congruence. rewrite L in Hy by done.
    destruct (bk_used _ _ _ B c y) as [U1 U2]; [done..|]. split; [|done].
    rewrite lookup_delete_ne; [done|]. by apply (geo_ptr _ _ _ _ _ _ _ G Hx Hy).
  - intros c [= <-]. exists (with_locks false false x). unfold h'. by rewrite lookup_insert_eq.
Qed.

(** The open block goes into the pool of its class. *)
Lemma inv_close_pool g s b x k :
  InvG (Some b) g s -> heap s !! b = Some x -> seg_small (g b) = k ->
  InvG None g (addCached (size_ x) (set_pool k (set_insert (heap s) b (pool k s)) s)).
Proof.
  intros [G B] Hx Hk. split; [exact G|].
  assert (Hpl : forall k, b ∉ pool k s).
  { intros k' Hin. destruct (bk_pool _ _ _ B _ _ Hin) as (? & _ & _ & _ & ?). done. }
  assert (Hsep : separated (heap s) b (pool k s)).
  { eapply geo_separated; eauto. intros c Hc. destruct (bk_pool _ _ _ B _ _ Hc) as (? & ? & _). eauto. }
  destruct (bk_open _ _ _ B b eq_refl) as (x' & Hx' & Hu). simplify_eq.
  set (k := seg_small (g b)) in *. set (s' := addCached _ _).
  assert (P : forall k' c, c ∈ pool k' s' <-> c ∈ pool k' s \/ (k' = k /\ c = b)).
  { intros k' c. change (pool k' s') with (pool k' (set_pool k (set_insert (heap s) b (pool k s)) s)).
    rewrite pool_set_pool. destruct (eqb k' k) eqn:E.
    - apply eqb_prop in E as ->. rewrite set_insert_perm by done. rewrite elem_of_cons. naive_solver.
    - split; [by left|]. intros [?|[-> ->]]; [done|]. by rewrite eqb_reflx in E. }
  split; change (heap s') with (heap s); change (allocatedBlocks_ s') with (allocatedBlocks_ s).
  - intros k' c [Hc|[-> ->]]%P; [|by exists x].
    destruct (bk_pool _ _ _ B _ _ Hc) as (y & ? & ? & ? & _). by exists y.
  - intros c y Hy _ Hi. apply P. destruct (decide (c = b)) as [->|]; [by right|left].
    eapply bk_cached; eauto. congruence.
  - intros q c Hc. destruct (bk_alloc _ _ _ B _ _ Hc) as (y & ? & ? & ? & _). by exists y.
  - intros c y Hy _ Hi. apply (bk_used _ _ _ B); [done| |done]. congruence.
  - done.
  - intros k'. change (pool k' s') with (pool k' (set_pool k (set_insert (heap s) b (pool k s)) s)).
    rewrite pool_set_pool. destruct (eqb k' k) eqn:E; [|apply (bk_ordered _ _ _ B)].
    apply set_insert_ordered; auto. apply (bk_ordered _ _ _ B).
  - cbn -[pool u64]. rewrite (bk_bytes _ _ _ B), u64_add_l. f_equal.
    rewrite !(bytes_pools _ k).
    change (pool ?k' s') with (pool k' (set_pool k (set_insert (heap s) b (pool k s)) s)).
    rewrite !pool_set_pool, eqb_reflx, eqb_neq by (by destruct k).
    rewrite (bytes_perm _ _ _ (set_insert_perm _ _ _ Hsep (Hpl k))). cbn. unfold sizeof. rewrite Hx. cbn. lia.
  - apply (bk_total _ _ _ B).
Qed.

(** The class of an open whole segment is chosen when it is cached again. *)
Lemma inv_reclass g s b x k :
  InvG (Some b) g s -> heap s !! b = Some x -> isSplit x = false ->
  InvG (Some b) (gset_at b (Seg k (seg_base (g b)) (seg_len (g b))) g) s.
Proof.
  intros [G B] Hx Hs. split; [by eapply geometry_class|].
  set (g' := gset_at _ _ _).
  assert (Go : forall c, c <> b -> g' c = g c)
    by (intros c Hc; unfold g', gset_at; by rewrite decide_False).
  destruct B as [B1 B2 B3 B4 B5 B6 B7 B8].
  split; [..|done|done|done|done].
  - intros k' c Hc. destruct (B1 _ _ Hc) as (y & ? & ? & ? & ?). exists y. rewrite Go by congruence. done.
  - intros c y Hy Ho Hi. rewrite Go by congruence. eauto.
  - eauto.
  - intros c y Hy Ho Hi. rewrite Go by congruence. eauto.
Qed.
