(* ===== verification/CachingMMSafety.v ===== *)
(** Safety of the caching allocator: every operation keeps the invariant and
    behaves, for the client, like an abstract allocator over disjoint regions. *)
From S2P Require Import Prelude CachingMM CachingMMInv CachingMMBook.

Open Scope Z_scope.

(** * The abstract allocator *)

(** What the client holds: the live pointers with their size and locks. *)
Definition abs (s : mm) : gmap Z (Z * bool * bool) :=
  omap (fun b => (fun x => (size_ x, managerLock_ x, userLock_ x)) <$> heap s !! b) (allocatedBlocks_ s).

(** A step that neither touches a block in use nor the map. *)
Definition frame (s s' : mm) : Prop :=
  allocatedBlocks_ s' = allocatedBlocks_ s
  /\ forall c x, heap s !! c = Some x -> inUse x = true -> kept (heap s) (heap s') c.

Lemma frame_refl s : frame s s.
Proof. done. Qed.

Lemma frame_trans s1 s2 s3 : frame s1 s2 -> frame s2 s3 -> frame s1 s3.
Proof.
  intros [A1 F1] [A2 F2]. split; [congruence|]. intros c x Hx Hi.
  pose proof (F1 _ _ Hx Hi) as K. destruct (kept_Some _ _ _ _ K Hx) as (z & Hz & _).
  eapply kept_trans; [exact K|]. eapply F2; [exact Hz|]. by rewrite (kept_inUse _ _ _ _ _ K Hx Hz).
Qed.

Lemma abs_frame o g s s' : book o g s -> frame s s' -> abs s' = abs s.
Proof.
  intros B [A F]. unfold abs. rewrite A. apply map_eq. intros p. rewrite !lookup_omap.
  destruct (allocatedBlocks_ s !! p) as [b|] eqn:Hb; [|done]. cbn.
  destruct (bk_alloc _ _ _ B _ _ Hb) as (x & Hx & _ & Hi & _).
  destruct (kept_Some _ _ _ _ (F _ _ Hx Hi) Hx) as (z & Hz & E1 & _ & E2 & E3).
  rewrite Hx, Hz. cbn. congruence.
Qed.

(** * Cutting and joining with the bookkeeping *)

Definition weaker_split (x z : Block) : Prop := isSplit z = true -> isSplit x = true.

(** [n] is cut off the open block [b], which goes back to its pool. *)
Lemma book_split g s b n h' :
  book (Some b) g s -> n <> b -> heap s !! n = None ->
  geometry (splitSizeLimit_ s) (gset_at n (g b) g) h' ->
  (exists x, h' !! n = Some x /\ inUse x = false) -> (exists x, h' !! b = Some x /\ inUse x = false) ->
  (forall c, c <> b -> c <> n -> kept (heap s) h' c) ->
  (forall c x z, c <> b -> c <> n -> heap s !! c = Some x -> h' !! c = Some z -> weaker_split x z) ->
  total h' = total (heap s) ->
  let k := seg_small (g b) in
  book (Some n) (gset_at n (g b) g)
    (addCached (sizeof h' b) (set_pool k (set_insert h' b (pool k s)) (set_heap h' s))).
Proof.
  intros B Hnb Hn G' (xn & Hxn & Hun) (xb & Hxb & Hub) K W T k.
  set (g' := gset_at n (g b) g) in *.
  assert (Go : forall c, c <> n -> g' c = g c)
    by (intros c Hc; unfold g', gset_at; by rewrite decide_False).
  assert (Hpb : forall k, b ∉ pool k s).
  { intros k' Hin. destruct (bk_pool _ _ _ B _ _ Hin) as (? & _ & _ & _ & ?). done. }
  assert (Hpn : forall k c, c ∈ pool k s -> c <> n).
  { intros k' c Hin ->. destruct (bk_pool _ _ _ B _ _ Hin) as (? & ? & _). congruence. }
  assert (Kp : forall k c, c ∈ pool k s -> kept (heap s) h' c).
  { intros k' c Hc. apply K; [|eauto]. intros ->. by apply (Hpb k'). }
  (* an intermediate state in which [n] does not exist and [b] is open *)
  set (s1 := set_heap h' s).
  assert (E1 : forall c, c <> n -> c <> b -> forall z, h' !! c = Some z ->
     exists x, heap s !! c = Some x /\ size_ z = size_ x /\ ptr_ z = ptr_ x /\ inUse z = inUse x /\ weaker_split x z).
  { intros c Hcn Hcb z Hz.
    destruct (kept_Some _ _ _ _ (kept_sym _ _ _ (K c Hcb Hcn)) Hz) as (x & Hx & S & P & M & U).
    exists x. unfold inUse. rewrite M, U. split_and!; eauto. }
  assert (Hsep : separated h' b (pool k s)).
  { eapply geo_separated; [exact G'|eauto|]. intros c Hc.
    destruct (bk_pool _ _ _ B _ _ Hc) as (x & Hx & _).
    destruct (kept_Some _ _ _ _ (Kp _ _ Hc) Hx) as (z & Hz & _). eauto. }
  set (s' := addCached _ _).
  assert (P : forall k' c, c ∈ pool k' s' <-> c ∈ pool k' s \/ (k' = k /\ c = b)).
  { intros k' c. change (pool k' s') with (pool k' (set_pool k (set_insert h' b (pool k s)) s)).
    rewrite pool_set_pool. destruct (eqb k' k) eqn:E.
    - apply eqb_prop in E as ->. rewrite set_insert_perm by done. rewrite elem_of_cons. naive_solver.
    - split; [by left|]. intros [?|[-> ->]]; [done|]. by rewrite eqb_reflx in E. }
  split; change (heap s') with h'; change (allocatedBlocks_ s') with (allocatedBlocks_ s).
  - intros k' c [Hc|[-> ->]]%P.
    + pose proof (Hpn _ _ Hc). destruct (bk_pool _ _ _ B _ _ Hc) as (x & Hx & Hi & Hk & Ho).
      destruct (kept_Some _ _ _ _ (Kp _ _ Hc) Hx) as (z & Hz & _).
      exists z. rewrite (kept_inUse _ _ _ _ _ (Kp _ _ Hc) Hx Hz), Go by done. naive_solver.
    + exists xb. rewrite Go by done. naive_solver.
  - intros c z Hz Ho Hi. apply P. assert (c <> n) by congruence.
    destruct (decide (c = b)) as [->|Hcb]; [right; by rewrite Go|left].
    destruct (E1 c ltac:(done) Hcb z Hz) as (x & Hx & _ & _ & Hi' & _).
    rewrite Go by done. eapply bk_cached; [exact B|exact Hx|congruence|congruence].
  - intros q c Hc. destruct (bk_alloc _ _ _ B _ _ Hc) as (x & Hx & Hq & Hi & Ho).
    assert (Kc : kept (heap s) h' c) by (apply K; congruence).
    destruct (kept_Some _ _ _ _ Kc Hx) as (z & Hz & _ & Pz & _).
    exists z. rewrite (kept_inUse _ _ _ _ _ Kc Hx Hz), Pz. split_and!; try done. congruence.
  - intros c z Hz Ho Hi. assert (c <> n) by congruence. assert (c <> b) by congruence.
    destruct (E1 c ltac:(done) ltac:(done) z Hz) as (x & Hx & S & Pz & Hi' & Wz).
    destruct (bk_used _ _ _ B c x Hx) as [U1 U2]; [congruence..|].
    rewrite Pz, S, Go by done. auto.
  - intros c [= <-]. eauto.
  - intros k'. change (pool k' s') with (pool k' (set_pool k (set_insert h' b (pool k s)) s)).
    assert (Ho : forall k, ordered h' (pool k s)).
    { intros k0. eapply ordered_kept; [apply Kp|apply (bk_ordered _ _ _ B)]. }
    rewrite pool_set_pool. destruct (eqb k' k) eqn:E; [|apply Ho].
    apply set_insert_ordered; auto.
  - cbn -[pool u64 sizeof]. rewrite (bk_bytes _ _ _ B), u64_add_l. f_equal.
    rewrite !(bytes_pools _ k).
    change (pool ?k' s') with (pool k' (set_pool k (set_insert h' b (pool k s)) s)).
    rewrite !pool_set_pool, eqb_reflx, eqb_neq by (by destruct k).
    rewrite (bytes_perm _ _ _ (set_insert_perm _ _ _ Hsep (Hpb k))). cbn.
    rewrite !(bytes_kept (heap s) h') by apply Kp. lia.
  - cbn -[u64]. rewrite T. apply (bk_total _ _ _ B).
Qed.

(** The cached block [sr] is joined into the open block [b]. *)
Lemma book_merge g s b sr y h' :
  book (Some b) g s -> sr <> b -> heap s !! sr = Some y -> inUse y = false ->
  h' !! sr = None -> (exists x, h' !! b = Some x /\ inUse x = false) ->
  (forall c, c <> b -> c <> sr -> kept (heap s) h' c) ->
  (forall c x z, c <> b -> c <> sr -> heap s !! c = Some x -> h' !! c = Some z -> weaker_split x z) ->
  total h' = total (heap s) ->
  book (Some b) g (set_heap h' (addCached (- size_ y) (without (seg_small (g sr)) sr s))).
Proof.
  intros B Hne Hy Huy Hsr Hb K W T. set (k := seg_small (g sr)). set (s' := set_heap _ _).
  assert (Hin : sr ∈ pool k s) by (eapply bk_cached; eauto; congruence).
  assert (P : forall k' c, c ∈ pool k' s' <-> c ∈ pool k' s /\ c <> sr).
  { intros k' c. change (pool k' s') with (pool k' (without k sr s)). rewrite elem_of_without.
    split; [|naive_solver]. intros [Hc Hn]. split; [done|]. intros ->.
    apply Hn; [|done]. by apply (book_in_one_pool _ _ _ _ _ B Hin). }
  assert (Kp : forall k' c, c ∈ pool k' s -> c <> sr -> kept (heap s) h' c).
  { intros k' c Hc Hn. apply K; [|done]. intros ->.
    destruct (bk_pool _ _ _ B _ _ Hc) as (? & _ & _ & _ & ?). done. }
  assert (Kp' : forall k' c, c ∈ pool k' s' -> kept (heap s) h' c).
  { intros k' c [Hc Hn]%P. eauto. }
  assert (E1 : forall c, c <> b -> forall z, h' !! c = Some z ->
     exists x, heap s !! c = Some x /\ size_ z = size_ x /\ ptr_ z = ptr_ x /\ inUse z = inUse x /\ weaker_split x z).
  { intros c Hcb z Hz. assert (Hcn : c <> sr) by congruence.
    destruct (kept_Some _ _ _ _ (kept_sym _ _ _ (K c Hcb Hcn)) Hz) as (x & Hx & S & Pz & M & U).
    exists x. unfold inUse. rewrite M, U. split_and!; eauto. }
  split; change (heap s') with h'; change (allocatedBlocks_ s') with (allocatedBlocks_ s).
  - intros k' c Hc. pose proof (Kp' _ _ Hc) as Kc. apply P in Hc as [Hc Hn].
    destruct (bk_pool _ _ _ B _ _ Hc) as (x & Hx & Hi & Hk & Ho).
    destruct (kept_Some _ _ _ _ Kc Hx) as (z & Hz & _).
    exists z. by rewrite (kept_inUse _ _ _ _ _ Kc Hx Hz).
  - intros c z Hz Ho Hi. destruct (E1 c ltac:(congruence) z Hz) as (x & Hx & _ & _ & Hi' & _).
    apply P. split; [eapply bk_cached; eauto; congruence|congruence].
  - intros q c Hc. destruct (bk_alloc _ _ _ B _ _ Hc) as (x & Hx & Hq & Hi & Ho).
    assert (Kc : kept (heap s) h' c) by (apply K; congruence).
    destruct (kept_Some _ _ _ _ Kc Hx) as (z & Hz & _ & Pz & _).
    exists z. by rewrite (kept_inUse _ _ _ _ _ Kc Hx Hz), Pz.
  - intros c z Hz Ho Hi. destruct (E1 c ltac:(congruence) z Hz) as (x & Hx & S & Pz & Hi' & Wz).
    destruct (bk_used _ _ _ B c x Hx) as [U1 U2]; [congruence..|]. rewrite Pz, S. auto.
  - intros c [= <-]. done.
  - intros k'. eapply ordered_kept; [apply Kp'|].
    change (pool k' s') with (pool k' (without k sr s)). apply without_ordered, (bk_ordered _ _ _ B).
  - rewrite !(bytes_kept (heap s) h') by apply Kp'.
    change (pool ?k' s') with (pool k' (without k sr s)).
    rewrite without_bytes by (done || apply (bk_ordered _ _ _ B)).
    cbn -[pool u64]. rewrite (bk_bytes _ _ _ B), u64_add_l. unfold sizeof. by rewrite Hy.
  - cbn -[u64]. rewrite T. apply (bk_total _ _ _ B).
Qed.

(** * Size classes *)

(** The largest request whose rounding cannot wrap. *)
Definition kMaxRequest : Z := 2 ^ 64 - kRoundLarge.

Lemma round_up_bounds a n : 0 < a -> 0 <= n -> n <= a * ((n + a - 1) / a) <= n + a - 1.
Proof.
  intros Ha Hn. pose proof (Z.div_mod (n + a - 1) a ltac:(lia)).
  pose proof (Z.mod_pos_bound (n + a - 1) a Ha). lia.
Qed.

Lemma roundSize_bounds n :
  0 < n <= kMaxRequest ->
  n <= roundSize n <= kMaxRequest /\ (kMinBlockSize | roundSize n) /\ 0 < roundSize n
  /\ roundSize n < n + kMinBlockSize.
Proof.
  intros Hn. unfold roundSize. unfold kMaxRequest, kRoundLarge in *.
  destruct (n <? kMinBlockSize) eqn:E.
  - apply Z.ltb_lt in E. unfold kMinBlockSize in *. split_and!; try lia. by exists 1.
  - apply Z.ltb_ge in E. unfold u64. rewrite (Z.mod_small (n + kMinBlockSize - 1)) by (unfold kMinBlockSize; lia).
    pose proof (round_up_bounds kMinBlockSize n ltac:(unfold kMinBlockSize; lia) ltac:(lia)) as R.
    rewrite Z.mod_small by (unfold kMinBlockSize in *; lia).
    split_and!; [lia| | |unfold kMinBlockSize in *; lia..].
    + unfold kMinBlockSize in *. lia.
    + exists ((n + kMinBlockSize - 1) / kMinBlockSize). lia.
Qed.

Lemma getAllocationSize_bounds n :
  0 < n <= kMaxRequest -> n <= getAllocationSize n < 2 ^ 64 /\ (kMinBlockSize | getAllocationSize n).
Proof.
  intros Hn. unfold getAllocationSize, kMaxRequest in *.
  destruct (n <=? kSmallSize) eqn:E1; [|destruct (n <? kMinLargeAlloc) eqn:E2].
  - unfold kSmallSize, kSmallBuffer in *. split; [lia|]. by exists 4096.
  - unfold kMinLargeAlloc, kLargeBuffer in *. split; [lia|]. by exists 40960.
  - unfold u64, kRoundLarge in *. rewrite (Z.mod_small (n + _ - 1)) by lia.
    pose proof (round_up_bounds 2097152 n ltac:(lia) ltac:(lia)) as R.
    rewrite Z.mod_small by lia. split; [lia|].
    exists (4096 * ((n + 2097152 - 1) / 2097152)). unfold kMinBlockSize. lia.
Qed.

Lemma requestSize_product es dims :
  0 < es -> Forall (fun d => 0 < d) dims -> es * foldr Z.mul 1 dims < 2 ^ 64 ->
  requestSize es dims = es * foldr Z.mul 1 dims.
Proof.
  revert es. induction dims as [|d dims IH]; intros es Hes Hd Hb; cbn [requestSize fold_left foldr] in *; [lia|].
  inv Hd. assert (0 < foldr Z.mul 1 dims).
  { clear - H2. induction H2; cbn; [lia|]. by apply Z.mul_pos_pos. }
  assert (es * d <= es * (d * foldr Z.mul 1 dims)) by nia.
  assert (d <= es * d) by nia.
  unfold u64 in *. rewrite (Z.mod_small d) by lia. rewrite (Z.mod_small (es * d)) by nia.
  unfold requestSize in IH. rewrite IH; [lia|nia|done|lia].
Qed.

(** * The two phases of [alloc] *)

Lemma open_limit g s b x :
  InvG (Some b) g s -> heap s !! b = Some x -> size_ x < splitSizeLimit_ s -> seg_len (g b) < splitSizeLimit_ s.
Proof.
  intros [G _] Hx Hlt. destruct (isSplit x) eqn:E; [by eapply geo_limit|].
  apply isSplit_false in E as [Ep En].
  pose proof (geo_first _ _ _ G _ _ Hx Ep). pose proof (geo_last _ _ _ G _ _ Hx En). unfold endp in *. lia.
Qed.

Lemma split_heap_total limit g h b n x size :
  geometry limit g h -> h !! b = Some x -> h !! n = None ->
  total (split_heap h b n x size) = total h.
Proof.
  intros G Hb Hn. unfold split_heap.
  set (h1 := match prev_ x with None => h | Some p => alter (with_next (Some n)) p h end).
  assert (K : forall c, kept h h1 c).
  { intros c. unfold kept, h1. destruct (prev_ x) as [p|]; [|done].
    destruct (decide (c = p)) as [->|]; [rewrite lookup_alter_eq; by destruct (h !! p)|by rewrite lookup_alter_ne]. }
  assert (h1 !! n = None).
  { specialize (K n). unfold kept in K. rewrite Hn in K. by destruct (h1 !! n). }
  destruct (kept_Some _ _ _ _ (K b) Hb) as (x1 & Hx1 & S1 & _).
  rewrite (total_update _ b x1) by (rewrite lookup_insert_ne; congruence).
  rewrite total_insert, (total_kept h h1) by done. cbn. lia.
Qed.

Lemma splitBlock_inv g s b x size n s' :
  InvG (Some b) g s -> heap s !! b = Some x -> 0 < size <= size_ x -> (kMinBlockSize | size) ->
  seg_small (g b) = (size <=? kSmallSize) ->
  splitBlock size (size <=? kSmallSize) b s = (n, s') ->
  exists g' x', InvG (Some n) g' s' /\ heap s' !! n = Some x' /\ size <= size_ x' /\ frame s s'
    /\ (isSplit x' = true -> (size_ x' <=? kSmallSize) = seg_small (g' n)).
Proof.
  intros [G B] Hx Hsz Hdiv Hk. unfold splitBlock. rewrite Hx.
  pose proof (geo_in _ _ _ G _ _ Hx) as (I1 & I2 & I3 & I4 & I5).
  unfold endp in I4.
  assert (Hu : u64 (size_ x - size) = size_ x - size) by (unfold u64; apply Z.mod_small; lia).
  rewrite !Hu.
  set (thr := if size <=? kSmallSize then kMinBlockSize else kSmallSize).
  destruct ((thr <=? size_ x - size) && (size_ x <? splitSizeLimit_ s)) eqn:E; intros [= <- <-].
  - apply andb_prop in E as [E1 E2]. apply Z.leb_le in E1. apply Z.ltb_lt in E2.
    set (n := fresh (dom (heap s))).
    assert (Hn : heap s !! n = None) by apply not_elem_of_dom, is_fresh.
    assert (Hnb : n <> b) by congruence.
    assert (Hthr : 0 < thr) by (unfold thr; destruct (_ <=? _); unfold kMinBlockSize, kSmallSize; lia).
    pose proof (open_limit _ _ _ _ (conj G B) Hx E2) as Hl.
    fold (split_heap (heap s) b n x size).
    pose proof (geometry_split _ _ _ b n x size G Hx Hn ltac:(lia) Hdiv Hl) as G'.
    pose proof (split_n (heap s) b n x size Hx Hn) as Ln.
    pose proof (split_b (heap s) b n x size) as Lb.
    destruct (bk_open _ _ _ B b eq_refl) as (x' & Hx' & Hux). simplify_eq.
    assert (K : forall c, c <> b -> c <> n -> kept (heap s) (split_heap (heap s) b n x size) c).
    { intros c Hcb Hcn. unfold kept. rewrite split_other by done.
      destruct (decide _); [|done]. by destruct (heap s !! c). }
    exists (gset_at n (g b) g). eexists. split_and!; [|exact Ln|done|..].
    + split; [exact G'|].
      assert (Hb' := book_split g s b n _ B Hnb Hn G').
      rewrite <- Hk. unfold sizeof in Hb'. rewrite Lb in Hb'. apply Hb'; [by eauto|by eauto|done| |].
      * intros c w z Hcb Hcn Hw Hz. unfold weaker_split, isSplit.
        rewrite split_other in Hz by done. destruct (decide (prev_ x = Some c)) as [Ep|]; [|by simplify_eq].
        destruct (geo_prev _ _ _ _ _ _ G Hx Ep) as (w' & Hw' & Nw & _). simplify_eq.
        rewrite Nw. by destruct (prev_ w).
      * by eapply split_heap_total.
    + split; [done|]. intros c y Hy Hi. apply K; congruence.
    + intros _. cbn. unfold gset_at. rewrite decide_True by done. done.
  - exists g, x. split_and!; [done|done|lia|done|].
    intros Hs. pose proof (geo_limit _ _ _ G _ _ Hx Hs) as Hl.
    apply andb_false_iff in E as [E|E]; [apply Z.leb_gt in E|apply Z.ltb_ge in E; lia].
    rewrite Hk. unfold thr in E. destruct (size <=? kSmallSize) eqn:Es.
    + apply Z.leb_le in Es. destruct I2 as [u1 Hu1], Hdiv as [u2 Hu2].
      unfold kMinBlockSize in *. apply Z.leb_le. lia.
    + apply Z.leb_gt in Es. apply Z.leb_gt. lia.
Qed.

(** * Cleanup *)

(** The blocks [freeBlocks] gives back. *)
Definition returnable (x : Block) : bool := negb (isSplit x).

Definition freeOne (isSmall : bool) (s : mm) (b : bid) : mm :=
  match heap s !! b with
  | None => s
  | Some x =>
      if isSplit x then s
      else set_heap (delete b (heap s))
             (without isSmall b (addCached (- size_ x) (addAllocated (- size_ x) (nativeFree (ptr_ x) s))))
  end.

Lemma freeBlocks_fold k s : freeBlocks k s = fold_left (freeOne k) (pool k s) s.
Proof. reflexivity. Qed.

(** The effect of giving back the blocks [l] of pool [k]. *)
Definition cleaned (l : list bid) (s s' : mm) : Prop :=
  (forall b, heap s' !! b = x ← heap s !! b; if decide (b ∈ l /\ isSplit x = false) then None else Some x)
  /\ nativeFreed s' = rev (omap (fun b => x ← heap s !! b; if isSplit x then None else Some (ptr_ x)) l)
                      ++ nativeFreed s
  /\ allocatedBlocks_ s' = allocatedBlocks_ s
  /\ splitSizeLimit_ s' = splitSizeLimit_ s /\ recyclingSizeLimit_ s' = recyclingSizeLimit_ s.

Lemma freeOne_spec g k s b :
  InvG None g s -> b ∈ pool k s ->
  InvG None g (freeOne k s b) /\ cleaned [b] s (freeOne k s b)
  /\ (forall k' c, c ∈ pool k' s -> c <> b -> c ∈ pool k' (freeOne k s b)).
Proof.
  intros I Hb. destruct I as [G B]. destruct (bk_pool _ _ _ B _ _ Hb) as (x & Hx & Hu & Hk & _).
  unfold freeOne. rewrite Hx. destruct (isSplit x) eqn:Es.
  - split_and!; [done| |done]. split_and!; try done.
    + intros c. destruct (heap s !! c) as [y|] eqn:Hy; cbn; [|done].
      rewrite decide_False; [done|]. intros [->%list_elem_of_singleton Ey]. congruence.
    + cbn. rewrite Hx. cbn. by rewrite Es.
  - split_and!.
    + by apply inv_drop.
    + split_and!; try done.
      * intros c. cbn. destruct (decide (c = b)) as [->|Hcb].
        -- rewrite lookup_delete_eq, Hx. cbn. rewrite decide_True; [done|]. split; [by left|done].
        -- rewrite lookup_delete_ne by done. destruct (heap s !! c); cbn; [|done].
           rewrite decide_False; [done|]. intros [->%list_elem_of_singleton _]. done.
      * cbn. rewrite Hx. cbn. by rewrite Es.
    + intros k' c Hc Hcb. destruct k, k'; cbn in *; rewrite ?list_elem_of_filter; done.
Qed.

Lemma cleaned_trans l1 l2 s1 s2 s3 :
  (forall b, b ∈ l2 -> b ∉ l1) ->
  cleaned l1 s1 s2 -> cleaned l2 s2 s3 -> cleaned (l1 ++ l2) s1 s3.
Proof.
  intros Hd (H1 & N1 & A1 & L1 & R1) (H2 & N2 & A2 & L2 & R2).
  split_and!; [| |congruence..].
  - intros b. rewrite H2, H1. destruct (heap s1 !! b) as [x|]; cbn; [|done].
    pose proof (elem_of_app l1 l2 b) as Ea.
    destruct (decide (b ∈ l1 /\ isSplit x = false)), (decide (b ∈ l1 ++ l2 /\ isSplit x = false)),
      (decide (b ∈ l2 /\ isSplit x = false)); cbn; repeat (rewrite decide_False by done);
      repeat (rewrite decide_True by done); try done; tauto.
  - rewrite N2, N1, omap_app, rev_app_distr, <- app_assoc. f_equal. f_equal.
    apply list_omap_ext, Forall2_same_length_lookup_2; [done|].
    intros i b b' Hb Hb'. rewrite Hb in Hb'. injection Hb' as <-.
    rewrite H1. destruct (heap s1 !! b) as [x|]; cbn; [|done].
    rewrite decide_False; [done|]. intros [Hin _]. eapply Hd; [|exact Hin]. by eapply list_elem_of_lookup_2.
Qed.

Lemma freeFold_spec g k l s :
  InvG None g s -> NoDup l -> (forall b, b ∈ l -> b ∈ pool k s) ->
  InvG None g (fold_left (freeOne k) l s) /\ cleaned l s (fold_left (freeOne k) l s)
  /\ (forall k' c, c ∈ pool k' s -> c ∉ l -> c ∈ pool k' (fold_left (freeOne k) l s)).
Proof.
  revert s. induction l as [|b l IH]; intros s I Hnd Hl; cbn [fold_left].
  - split_and!; [done| |done]. split_and!; try done. intros b. destruct (heap s !! b); cbn; [|done].
    rewrite decide_False; [done|]. by intros [?%elem_of_nil _].
  - apply NoDup_cons in Hnd as [Hb Hnd].
    destruct (freeOne_spec g k s b I) as (I1 & C1 & P1); [apply Hl; by left|].
    destruct (IH (freeOne k s b) I1 Hnd) as (I2 & C2 & P2).
    { intros c Hc. apply P1; [apply Hl; by right|]. by intros ->. }
    split_and!; [done| |].
    + change (b :: l) with ([b] ++ l). eapply cleaned_trans; [|exact C1|exact C2].
      intros c Hc ->%list_elem_of_singleton. done.
    + intros k' c Hc [Hcb Hcl]%not_elem_of_cons. by apply P2; [apply P1|].
Qed.

Lemma freeBlocks_inv g k s :
  InvG None g s -> InvG None g (freeBlocks k s) /\ cleaned (pool k s) s (freeBlocks k s)
  /\ pool (negb k) (freeBlocks k s) = pool (negb k) s.
Proof.
  intros I. rewrite freeBlocks_fold.
  destruct (freeFold_spec g k (pool k s) s I) as (I' & C & _); [|done|].
  { eapply ordered_NoDup. apply I. }
  split_and!; [done|done|]. clear. generalize (pool k s) as l. intros l. revert s.
  induction l as [|b l IH]; intros s; cbn [fold_left]; [done|]. rewrite IH.
  unfold freeOne. repeat case_match; try done; by destruct k.
Qed.

(** Cleanup removes exactly the unsplit cached blocks and gives each of their
    pointers back once. *)
Lemma cleanup_inv g s :
  InvG None g s -> InvG None g (signalMemoryCleanup s)
  /\ cleaned (largeBlocks_ s ++ smallBlocks_ s) s (signalMemoryCleanup s).
Proof.
  intros I. unfold signalMemoryCleanup.
  destruct (freeBlocks_inv g false s I) as (I1 & C1 & P1).
  destruct (freeBlocks_inv g true _ I1) as (I2 & C2 & _).
  split; [done|]. cbn [negb pool] in P1. 
  rewrite <- P1.
  eapply cleaned_trans; [|exact C1|exact C2].
  intros b Hb Hb'. change (b ∈ smallBlocks_ (freeBlocks false s)) in Hb. rewrite P1 in Hb.
  pose proof (book_in_one_pool _ _ _ true b (proj2 I) Hb false Hb'). done.
Qed.

Lemma cleaned_frame g l s s' :
  book None g s -> (forall b, b ∈ l -> exists k, b ∈ pool k s) -> cleaned l s s' -> frame s s'.
Proof.
  intros B Hl (H & _ & A & _). split; [done|]. intros c x Hx Hi. unfold kept. rewrite H, Hx. cbn.
  rewrite decide_False; [done|]. intros [Hc _]. destruct (Hl c Hc) as [k Hk].
  destruct (bk_pool _ _ _ B _ _ Hk) as (? & ? & ? & _). congruence.
Qed.

Lemma cleanup_frame g s : InvG None g s -> frame s (signalMemoryCleanup s).
Proof.
  intros I. destruct (cleanup_inv g s I) as [_ C]. eapply cleaned_frame; [apply I| |exact C].
  intros b [Hb|Hb]%elem_of_app; [by exists false|by exists true].
Qed.

(** * Allocation *)

(** What is asked of the device: the region it answers with is not null and
    overlaps no block that the manager still holds. *)
Definition fresh_region (p len : Z) (s : mm) : Prop :=
  0 < p /\ forall b x, heap s !! b = Some x -> apart (newBlock len p) x.

Definition device_ok (len : Z) (r1 r2 : option Z) (s : mm) : Prop :=
  (forall p, r1 = Some p -> fresh_region p len s)
  /\ (forall p, r1 = None -> r2 = Some p -> fresh_region p len (signalMemoryCleanup s)).

Lemma countMalloc_inv o g s : InvG o g s -> InvG o g (countMalloc s).
Proof. intros [G B]. split; [exact G|]. by destruct B. Qed.

Lemma countMalloc_cleanup s : heap (countMalloc (signalMemoryCleanup (countMalloc s))) = heap (signalMemoryCleanup s).
Proof.
  assert (H : forall k l t t', heap t = heap t' -> pool k t = pool k t' -> pool (negb k) t = pool (negb k) t' ->
     let u := fold_left (freeOne k) l t in let u' := fold_left (freeOne k) l t' in
     heap u = heap u' /\ pool k u = pool k u' /\ pool (negb k) u = pool (negb k) u').
  { intros k l. induction l as [|b l IH]; intros t t' E1 E2 E3; cbn [fold_left]; [done|].
    apply IH; unfold freeOne; rewrite E1; destruct (heap t' !! b) as [x|]; try done;
      destruct (isSplit x); try done; cbn [heap set_heap]; try congruence;
      destruct k; cbn in *; congruence. }
  change (heap (signalMemoryCleanup (countMalloc s)) = heap (signalMemoryCleanup s)).
  unfold signalMemoryCleanup. rewrite !freeBlocks_fold.
  change (pool false (countMalloc s)) with (pool false s).
  destruct (H false (pool false s) (countMalloc s) s) as (E1 & E2 & E3); [done..|].
  cbn [negb] in E3. rewrite E3. apply H; done.
Qed.

Lemma mallocWithRetry_inv g s len r1 r2 :
  InvG None g s -> device_ok len r1 r2 s ->
  match mallocWithRetry r1 r2 s with
  | (Ok p, s') => InvG None g s' /\ frame s s' /\ fresh_region p len s' /\ splitSizeLimit_ s' = splitSizeLimit_ s
  | (Throw _, s') => InvG None g s' /\ frame s s' /\ r1 = None /\ r2 = None
  end.
Proof.
  intros I [D1 D2]. unfold mallocWithRetry. destruct r1 as [p|].
  - split_and!; [by apply countMalloc_inv|done|by apply D1|done].
  - pose proof (countMalloc_inv _ _ _ I) as I0.
    destruct (cleanup_inv g _ I0) as [I1 (_ & _ & _ & L & _)].
    pose proof (cleanup_frame g _ I0) as F.
    assert (F' : frame s (countMalloc (signalMemoryCleanup (countMalloc s)))).
    { eapply frame_trans; [|exact F]. done. }
    destruct r2 as [p|]; (split_and!; [by apply countMalloc_inv|exact F'|..]); try done.
    unfold fresh_region. rewrite countMalloc_cleanup. by apply D2.
Qed.

Lemma findBlock_inv g s size r1 r2 :
  let k := size <=? kSmallSize in
  InvG None g s -> 0 < size <= kMaxRequest -> device_ok (getAllocationSize size) r1 r2 s ->
  match findBlock size k r1 r2 s with
  | (Ok b, s') => exists g' x, InvG (Some b) g' s' /\ heap s' !! b = Some x /\ size <= size_ x
                  /\ seg_small (g' b) = k /\ frame s s'
  | (Throw _, s') => InvG None g s' /\ frame s s' /\ r1 = None /\ r2 = None
  end.
Proof.
  intros k I Hsz D. unfold findBlock.
  set (dev := match mallocWithRetry r1 r2 s with (Ok p, s0) => _ | (Throw e, s0) => _ end).
  assert (Hdev : match dev with
    | (Ok b, s') => exists g' x, InvG (Some b) g' s' /\ heap s' !! b = Some x /\ size <= size_ x
                  /\ seg_small (g' b) = k /\ frame s s'
    | (Throw _, s') => InvG None g s' /\ frame s s' /\ r1 = None /\ r2 = None end).
  { unfold dev. pose proof (mallocWithRetry_inv g s _ r1 r2 I D) as M.
    destruct (mallocWithRetry r1 r2 s) as [[p|e] s1]; [|done].
    destruct M as (I1 & F & (Hp & Ha) & _).
    destruct (getAllocationSize_bounds size Hsz) as [A1 A2].
    set (n := fresh (dom (heap s1))).
    assert (Hn : heap s1 !! n = None) by apply not_elem_of_dom, is_fresh.
    pose proof (inv_new g s1 n k p (getAllocationSize size) I1 Hn Hp ltac:(lia) A2 Ha) as I2.
    eexists _, _. split_and!; [exact I2|apply lookup_insert_eq|cbn; lia| |].
    - unfold gset_at. by rewrite decide_True.
    - eapply frame_trans; [exact F|]. split; [done|]. intros c x Hx Hi. unfold kept. cbn.
      rewrite lookup_insert_ne by congruence. done. }
  clearbody dev. destruct (lower_bound (heap s) (newBlock size 0) (pool k s)) as [b|] eqn:Hlb; [|exact Hdev].
  destruct (heap s !! b) as [x|] eqn:Hx; [|exact Hdev].
  destruct (k || (size_ x <? recyclingSizeLimit_ s)); [|exact Hdev].
  unfold lower_bound in Hlb. apply find_some in Hlb as [Hin Hcmp]. rewrite Hx in Hcmp.
  apply list_elem_of_In in Hin. destruct I as [G B].
  destruct (bk_pool _ _ _ B _ _ Hin) as (x' & Hx' & Hu & Hk & _). simplify_eq.
  exists g, x. split_and!; [by apply inv_take|done| |done|].
  - unfold BlockComparator in Hcmp. cbn in Hcmp. repeat case_match; lia.
  - done.
Qed.

Lemma abs_lookup o g s p n m u :
  book o g s -> abs s !! p = Some (n, m, u) <->
  exists b x, allocatedBlocks_ s !! p = Some b /\ heap s !! b = Some x /\ ptr_ x = p
    /\ size_ x = n /\ managerLock_ x = m /\ userLock_ x = u.
Proof.
  intros B. unfold abs. rewrite lookup_omap. split.
  - destruct (allocatedBlocks_ s !! p) as [b|] eqn:Hb; [|done]. cbn.
    destruct (bk_alloc _ _ _ B _ _ Hb) as (x & Hx & Hp & _ & _). rewrite Hx. cbn. intros [= <- <- <-].
    by exists b, x.
  - intros (b & x & -> & Hx & _ & <- & <- & <-). cbn. by rewrite Hx.
Qed.

(** Handing out the open block adds its region to what the client holds. *)
Lemma abs_close_alloc g s b x m u :
  InvG (Some b) g s -> heap s !! b = Some x ->
  abs (set_allocated (<[ptr_ x := b]> (allocatedBlocks_ s)) (set_heap (<[b := with_locks m u x]> (heap s)) s))
  = <[ptr_ x := (size_ x, m, u)]> (abs s).
Proof.
  intros [G B] Hx. unfold abs. cbn [allocatedBlocks_ set_allocated heap set_heap].
  apply map_eq. intros q. rewrite lookup_omap. destruct (decide (q = ptr_ x)) as [->|Hq].
  - rewrite !lookup_insert_eq. cbn. by rewrite lookup_insert_eq.
  - rewrite !lookup_insert_ne, lookup_omap by done.
    destruct (allocatedBlocks_ s !! q) as [c|] eqn:Hc; [|done]. cbn.
    destruct (bk_alloc _ _ _ B _ _ Hc) as (y & Hy & _ & _ & Ho).
    rewrite lookup_insert_ne by congruence. done.
Qed.

(** The open block is apart from everything the client holds. *)
Lemma open_apart g s b x q n m u :
  InvG (Some b) g s -> heap s !! b = Some x -> abs s !! q = Some (n, m, u) ->
  q <> ptr_ x /\ (ptr_ x + size_ x <= q \/ q + n <= ptr_ x).
Proof.
  intros [G B] Hx Hq. apply (abs_lookup _ _ _ _ _ _ _ B) in Hq as (c & y & Hc & Hy & <- & <- & _).
  destruct (bk_alloc _ _ _ B _ _ Hc) as (y' & Hy' & _ & _ & Ho). simplify_eq.
  assert (Hne : b <> c) by congruence.
  split; [by apply not_eq_sym, (geo_ptr _ _ _ _ _ _ _ G Hx Hy)|].
  apply (geo_apart _ _ _ G _ _ _ _ Hx Hy Hne).
Qed.

Definition alloc_post (ul : bool) (request : Z) (r1 r2 : option Z) (s : mm) (out : result Z * mm) : Prop :=
  match out with
  | (Ok p, s') =>
      Inv s' /\ exists n,
        abs s' = <[p := (n, negb ul, ul)]> (abs s) /\ request <= n /\ 0 < p /\ abs s !! p = None
        /\ (forall q n' m u, abs s !! q = Some (n', m, u) -> p + n <= q \/ q + n' <= p)
  | (Throw _, s') => Inv s' /\ abs s' = abs s /\ r1 = None /\ r2 = None
  end.

Lemma alloc_aux ul dims es r1 r2 s :
  Inv s -> 0 < es -> Forall (fun d => 0 < d) dims -> es * foldr Z.mul 1 dims <= kMaxRequest ->
  device_ok (getAllocationSize (roundSize (es * foldr Z.mul 1 dims))) r1 r2 s ->
  alloc_post ul (es * foldr Z.mul 1 dims) r1 r2 s (alloc ul dims es r1 r2 s).
Proof.
  intros [g I] Hes Hd Hmax D. set (req := es * foldr Z.mul 1 dims) in *.
  assert (Hpos : 0 < req).
  { apply Z.mul_pos_pos; [done|]. clear - Hd. induction Hd; cbn; [lia|]. by apply Z.mul_pos_pos. }
  unfold alloc. rewrite requestSize_product by (done || (fold req; unfold kMaxRequest, kRoundLarge in *; lia)).
  fold req. rewrite (proj2 (Z.eqb_neq req 0)) by lia.
  destruct (roundSize_bounds req ltac:(lia)) as (R1 & R2 & R3 & _).
  pose proof (findBlock_inv g s (roundSize req) r1 r2 I ltac:(lia) D) as F. cbn zeta in F.
  destruct (findBlock _ _ r1 r2 s) as [[b|e] s1].
  - destruct F as (g1 & x1 & I1 & Hx1 & Hs1 & Hk1 & F1).
    destruct (splitBlock (roundSize req) (roundSize req <=? kSmallSize) b s1) as [n s2] eqn:Hsp.
    destruct (splitBlock_inv g1 s1 b x1 (roundSize req) n s2) as (g2 & x2 & I2 & Hx2 & Hs2 & F2 & Hc2);
      [done|done|lia|done|done|done|].
    rewrite Hx2. pose proof (abs_frame _ _ _ _ (proj2 I) (frame_trans _ _ _ F1 F2)) as A.
    assert (Ha := open_apart g2 s2 n x2). rewrite A in Ha.
    split; [exists g2; refine (inv_close_alloc g2 s2 n x2 _ _ I2 Hx2 _ Hc2); by destruct ul|].
    exists (size_ x2).
    split_and!; [|lia| | |].
    + rewrite <- A. exact (abs_close_alloc g2 s2 n x2 _ _ I2 Hx2).
    + pose proof (geo_in _ _ _ (proj1 I2) _ _ Hx2). unfold in_segment in *. lia.
    + destruct (abs s !! ptr_ x2) as [[[n' m] u]|] eqn:E; [|done].
      destruct (Ha _ _ _ _ I2 Hx2 E) as [Hn _]. done.
    + intros q n' m u Hq. destruct (Ha _ _ _ _ I2 Hx2 Hq) as [_ Hor]. exact Hor.
  - destruct F as (I1 & F1 & -> & ->). split_and!; [by exists g| |done..].
    by apply (abs_frame _ _ _ _ (proj2 I)).
Qed.

(** * Freeing *)

(** The heap after [sr] has been joined into the open block [b]. *)
Definition joined (limit : Z) (g : bid -> segment) (h : gmap bid Block) (b sr : bid) (h' : gmap bid Block) : Prop :=
  geometry limit g h' /\ h' !! sr = None /\ (exists m, h' !! b = Some m /\ inUse m = false)
  /\ (forall c, c <> b -> c <> sr -> kept h h' c)
  /\ (forall c x z, c <> b -> c <> sr -> h !! c = Some x -> h' !! c = Some z -> weaker_split x z)
  /\ total h' = total h.

Lemma alter_kept h p f c :
  (forall w, obs (f w) = obs w) -> kept h (alter f p h) c.
Proof.
  intros Hf. unfold kept. destruct (decide (c = p)) as [->|].
  - rewrite lookup_alter_eq. destruct (h !! p); cbn; [by rewrite Hf|done].
  - by rewrite lookup_alter_ne.
Qed.

(** Replacing [b] and deleting [sr] in a heap that is otherwise kept. *)
Lemma joined_total h h1 b sr x y m :
  (forall c, kept h h1 c) -> b <> sr -> h !! b = Some x -> h !! sr = Some y -> size_ m = size_ x + size_ y ->
  total (delete sr (<[b := m]> h1)) = total h.
Proof.
  intros K Hne Hx Hy Hm.
  destruct (kept_Some _ _ _ _ (K b) Hx) as (x1 & Hx1 & S1 & _).
  destruct (kept_Some _ _ _ _ (K sr) Hy) as (y1 & Hy1 & S2 & _).
  assert (E : <[b := m]> h1 !! sr = Some y1) by (by rewrite lookup_insert_ne).
  pose proof (total_delete _ _ _ E) as T. rewrite (total_update _ _ _ _ Hx1), (total_kept h h1 K) in T. lia.
Qed.

Lemma joined_prev limit g h b x sr y :
  geometry limit g h -> h !! b = Some x -> prev_ x = Some sr -> h !! sr = Some y -> inUse x = false ->
  joined limit g h b sr
    (delete sr (<[b := with_size (size_ x + size_ y) (with_ptr (ptr_ y) (with_prev (prev_ y) x))]>
       (match prev_ y with None => h | Some p => alter (with_next (Some b)) p h end))).
Proof.
  intros G Hx Hp Hy Hu.
  destruct (geo_prev _ _ _ _ _ _ G Hx Hp) as (y' & Hy' & Hn & Hptr & Hg & Hne). simplify_eq.
  set (h1 := match prev_ y with None => h | Some p => alter (with_next (Some b)) p h end).
  set (m := with_size _ _). set (h' := delete sr _).
  assert (K : forall c, kept h h1 c).
  { intros c. unfold h1. destruct (prev_ y); [by apply alter_kept|done]. }
  assert (L : forall c, c <> b -> c <> sr -> h' !! c = if decide (prev_ y = Some c) then with_next (Some b) <$> h !! c else h !! c).
  { intros c Hcb Hcs. unfold h', h1. rewrite lookup_delete_ne, lookup_insert_ne by done.
    destruct (prev_ y) as [p|]; [|by rewrite decide_False].
    destruct (decide (Some p = Some c)) as [[= ->]|Hpc]; [by rewrite lookup_alter_eq|].
    rewrite lookup_alter_ne; congruence. }
  assert (Me : h' !! b = Some m).
  { unfold h'. rewrite lookup_delete_ne by done. by rewrite lookup_insert_eq. }
  assert (Mo : h' !! sr = None) by apply lookup_delete_eq.
  split_and!; [|done|by exists m| | |].
  - apply (geometry_merge limit g h h' sr b b sr y x m); auto.
    + cbn. split_and!; (done || lia).
    + intros c z Hcb Hcs Hz. rewrite L in Hz by done.
      destruct (h !! c) as [w|] eqn:Hw; [|by destruct (decide _)].
      exists w. assert (Hpw : prev_ w = if decide (next_ x = Some c) then Some b else prev_ w).
      { destruct (decide (next_ x = Some c)) as [En|]; [|done].
        destruct (geo_next _ _ _ _ _ _ G Hx En) as (w' & Hw' & Pw & _). congruence. }
      destruct (decide (prev_ y = Some c)); cbn in Hz; simplify_eq; auto.
    + intros c Hcb Hcs [w Hw]. rewrite L, Hw by done. destruct (decide _); eauto.
  - intros c Hcb Hcs. unfold kept. rewrite L by done. destruct (decide _); [|done]. by destruct (h !! c).
  - intros c w z Hcb Hcs Hw Hz. rewrite L, Hw in Hz by done. unfold weaker_split, isSplit.
    destruct (decide (prev_ y = Some c)) as [Ep|]; cbn in Hz; simplify_eq; [|done].
    destruct (geo_prev _ _ _ _ _ _ G Hy Ep) as (w' & Hw' & Nw & _). simplify_eq. rewrite Nw. by destruct (prev_ w).
  - by apply (joined_total h h1 b sr x y).
Qed.

Lemma joined_next limit g h b x sr y :
  geometry limit g h -> h !! b = Some x -> next_ x = Some sr -> h !! sr = Some y -> inUse x = false ->
  joined limit g h b sr
    (delete sr (<[b := with_size (size_ x + size_ y) (with_next (next_ y) x)]>
       (match next_ y with None => h | Some n => alter (with_prev (Some b)) n h end))).
Proof.
  intros G Hx Hn Hy Hu.
  destruct (geo_next _ _ _ _ _ _ G Hx Hn) as (y' & Hy' & Hp & Hptr & Hg & Hne). simplify_eq.
  set (h1 := match next_ y with None => h | Some n => alter (with_prev (Some b)) n h end).
  set (m := with_size _ _). set (h' := delete sr _).
  assert (K : forall c, kept h h1 c).
  { intros c. unfold h1. destruct (next_ y); [by apply alter_kept|done]. }
  assert (L : forall c, c <> b -> c <> sr -> h' !! c = if decide (next_ y = Some c) then with_prev (Some b) <$> h !! c else h !! c).
  { intros c Hcb Hcs. unfold h', h1. rewrite lookup_delete_ne, lookup_insert_ne by done.
    destruct (next_ y) as [p|]; [|by rewrite decide_False].
    destruct (decide (Some p = Some c)) as [[= ->]|Hpc]; [by rewrite lookup_alter_eq|].
    rewrite lookup_alter_ne; congruence. }
  assert (Me : h' !! b = Some m).
  { unfold h'. rewrite lookup_delete_ne by done. by rewrite lookup_insert_eq. }
  assert (Mo : h' !! sr = None) by apply lookup_delete_eq.
  split_and!; [|done|by exists m| | |].
  - apply (geometry_merge limit g h h' b sr b sr x y m); auto.
    intros c z Hcb Hcs Hz. rewrite L in Hz by done.
    + destruct (h !! c) as [w|] eqn:Hw; [|by destruct (decide _)].
      exists w. assert (Hpw : next_ w = if decide (prev_ x = Some c) then Some b else next_ w).
      { destruct (decide (prev_ x = Some c)) as [En|]; [|done].
        destruct (geo_prev _ _ _ _ _ _ G Hx En) as (w' & Hw' & Pw & _). congruence. }
      destruct (decide (next_ y = Some c)); cbn in Hz; simplify_eq; auto.
    + intros c Hcb Hcs [w Hw]. rewrite L, Hw by done. destruct (decide _); eauto.
  - intros c Hcb Hcs. unfold kept. rewrite L by done. destruct (decide _); [|done]. by destruct (h !! c).
  - intros c w z Hcb Hcs Hw Hz. rewrite L, Hw in Hz by done. unfold weaker_split, isSplit.
    destruct (decide (next_ y = Some c)) as [Ep|]; cbn in Hz; simplify_eq; [|done].
    destruct (geo_next _ _ _ _ _ _ G Hy Ep) as (w' & Hw' & Nw & _). simplify_eq. rewrite Nw. by destruct (next_ w).
  - by apply (joined_total h h1 b sr x y).
Qed.

(** The state [tryMergeBlocks] leaves when it joins. *)
Lemma inv_joined g s b sr y h1 :
  InvG (Some b) g s -> sr <> b -> heap s !! sr = Some y -> inUse y = false ->
  joined (splitSizeLimit_ s) g (heap s) b sr (delete sr h1) -> kept (heap s) h1 sr ->
  let k := seg_small (g sr) in
  let s' := set_heap (delete sr h1)
              (addCached (- size_ y) (set_pool k (set_erase h1 sr (pool k s)) (set_heap h1 s))) in
  InvG (Some b) g s' /\ frame s s' /\ is_Some (heap s' !! b).
Proof.
  intros [G B] Hne Hy Huy (G' & Jo & Jb & K & W & T) Ks k s'.
  assert (Es : s' = set_heap (delete sr h1) (addCached (- size_ y) (without k sr s))).
  { unfold s'. rewrite set_erase_remove; [done|].
    assert (S : separated (heap s) sr (pool k s)).
    { eapply geo_separated; [exact G|eauto|]. intros c Hc.
      destruct (bk_pool _ _ _ B _ _ Hc) as (? & ? & _). eauto. }
    intros c Hc Hcs. destruct (bk_pool _ _ _ B _ _ Hc) as (? & ? & _ & _ & ?).
    assert (Kc : kept (heap s) h1 c).
    { specialize (K c ltac:(congruence) Hcs). unfold kept in *. by rewrite lookup_delete_ne in K. }
    rewrite !(less_kept (heap s) h1) by done. by apply S. }
  rewrite Es. split_and!.
  - split; [exact G'|]. by apply book_merge.
  - split; [done|]. intros c x Hx Hi. cbn. apply K.
    + intros ->. destruct (bk_open _ _ _ B b eq_refl) as (? & ? & ?). congruence.
    + congruence.
  - destruct Jb as (m & Hm & _). eauto.
Qed.

Lemma tryMerge_inv g s b x src :
  InvG (Some b) g s -> heap s !! b = Some x -> src = prev_ x \/ src = next_ x ->
  let s' := tryMergeBlocks b src (seg_small (g b)) s in
  InvG (Some b) g s' /\ frame s s' /\ is_Some (heap s' !! b).
Proof.
  intros I Hx Hsrc. unfold tryMergeBlocks. cbn zeta. pose proof I as [G B].
  destruct src as [sr|]; [|by eauto using frame_refl]. rewrite Hx.
  destruct (bk_open _ _ _ B b eq_refl) as (x' & Hx' & Hu). simplify_eq.
  assert (Hn : exists y, heap s !! sr = Some y /\ g sr = g b /\ sr <> b /\ size_ x + size_ y < 2 ^ 64
                         /\ 0 <= size_ x + size_ y /\ (prev_ x <> Some sr -> next_ x = Some sr)).
  { pose proof (geo_in _ _ _ G _ _ Hx) as Ix. destruct Hsrc as [E|E].
    - destruct (geo_prev _ _ _ _ _ _ G Hx (eq_sym E)) as (y & Hy & Hyn & Hp & Hg & Hne).
      pose proof (geo_in _ _ _ G _ _ Hy) as Iy. rewrite Hg in Iy.
      exists y. unfold in_segment, endp in *. split_and!; (done || lia || naive_solver).
    - destruct (geo_next _ _ _ _ _ _ G Hx (eq_sym E)) as (y & Hy & Hyn & Hp & Hg & Hne).
      pose proof (geo_in _ _ _ G _ _ Hy) as Iy. rewrite Hg in Iy.
      exists y. unfold in_segment, endp in *. split_and!; (done || lia || naive_solver). }
  destruct Hn as (y & Hy & Hg & Hne & Hlt & Hge & Hnext). rewrite Hy.
  destruct (inUse y) eqn:Huy; [by eauto using frame_refl|].
  assert (Eu : u64 (size_ x + size_ y) = size_ x + size_ y) by (unfold u64; apply Z.mod_small; lia).
  rewrite Eu, <- Hg. destruct (bool_decide_reflect (prev_ x = Some sr)) as [Ep|Ep].
  - assert (J := joined_prev _ _ _ _ _ _ _ G Hx Ep Hy Hu).
    assert (Ks : forall h1, h1 = match prev_ y with None => heap s | Some p => alter (with_next (Some b)) p (heap s) end ->
      kept (heap s) (<[b := with_size (size_ x + size_ y) (with_ptr (ptr_ y) (with_prev (prev_ y) x))]> h1) sr).
    { intros h1 ->. unfold kept. rewrite lookup_insert_ne by done.
      destruct (prev_ y); [by apply alter_kept|done]. }
    destruct (prev_ y) as [p|]; apply (inv_joined g s b sr y); auto.
  - assert (J := joined_next _ _ _ _ _ _ _ G Hx (Hnext Ep) Hy Hu).
    assert (Ks : forall h1, h1 = match next_ y with None => heap s | Some n => alter (with_prev (Some b)) n (heap s) end ->
      kept (heap s) (<[b := with_size (size_ x + size_ y) (with_next (next_ y) x)]> h1) sr).
    { intros h1 ->. unfold kept. rewrite lookup_insert_ne by done.
      destruct (next_ y); [by apply alter_kept|done]. }
    destruct (next_ y) as [n|]; apply (inv_joined g s b sr y); auto.
Qed.

Lemma freeBlock_inv g s b x :
  InvG (Some b) g s -> heap s !! b = Some x ->
  (isSplit x = true -> (size_ x <=? kSmallSize) = seg_small (g b)) ->
  exists s', freeBlock b s = (Ok tt, s') /\ Inv s' /\ frame s s'.
Proof.
  intros I Hx Hc. unfold freeBlock. rewrite Hx.
  destruct (bk_open _ _ _ (proj2 I) b eq_refl) as (x' & Hx' & Hu). simplify_eq. rewrite Hu.
  assert (Hg : exists g', InvG (Some b) g' s /\ seg_small (g' b) = (size_ x <=? kSmallSize)).
  { destruct (isSplit x) eqn:Es; [exists g; by rewrite Hc|].
    eexists. split; [by eapply inv_reclass|]. unfold gset_at. rewrite decide_True by done. done. }
  clear Hc I. destruct Hg as (g' & I & <-).
  destruct (tryMerge_inv g' s b x (prev_ x) I Hx) as (I1 & F1 & x1 & Hx1); [by left|].
  rewrite Hx1.
  destruct (tryMerge_inv g' _ b x1 (next_ x1) I1 Hx1) as (I2 & F2 & x2 & Hx2); [by right|].
  pose proof (inv_close_pool g' _ b x2 _ I2 Hx2 eq_refl) as I3.
  eexists. split; [reflexivity|]. 
  set (s2 := tryMergeBlocks b (next_ x1) _ _) in *.
  change (heap (set_pool _ _ s2)) with (heap s2). rewrite Hx2.
  split; [by exists g'|]. eapply frame_trans; [|exact F2]. exact F1.
Qed.

(** * The operations as steps of the abstract allocator *)

Lemma abs_relock o g s p b x m u :
  book o g s -> allocatedBlocks_ s !! p = Some b -> heap s !! b = Some x ->
  abs (set_heap (<[b := with_locks m u x]> (heap s)) s) = <[p := (size_ x, m, u)]> (abs s).
Proof.
  intros B Hp Hx. unfold abs. cbn [allocatedBlocks_ heap set_heap].
  apply map_eq. intros q. rewrite lookup_omap. destruct (decide (q = p)) as [->|Hq].
  - rewrite lookup_insert_eq, Hp. cbn. by rewrite lookup_insert_eq.
  - rewrite lookup_insert_ne, lookup_omap by done.
    destruct (allocatedBlocks_ s !! q) as [c|] eqn:Hc; [|done]. cbn.
    destruct (bk_alloc _ _ _ B _ _ Hc) as (y & Hy & Hq' & _).
    destruct (bk_alloc _ _ _ B _ _ Hp) as (y' & Hy' & Hp' & _).
    rewrite lookup_insert_ne by congruence. done.
Qed.

Lemma abs_delete p s h :
  (forall q c, q <> p -> allocatedBlocks_ s !! q = Some c -> heap s !! c = h !! c) ->
  abs (set_allocated (delete p (allocatedBlocks_ s)) (set_heap h s)) = delete p (abs s).
Proof.
  intros Hh. unfold abs. cbn [allocatedBlocks_ heap set_heap set_allocated].
  apply map_eq. intros q. rewrite lookup_omap. destruct (decide (q = p)) as [->|Hq].
  - by rewrite !lookup_delete_eq.
  - rewrite !lookup_delete_ne, lookup_omap by done.
    destruct (allocatedBlocks_ s !! q) as [c|] eqn:Hc; [|done]. cbn. by rewrite (Hh q).
Qed.

(** [unlock] on the abstract state. *)
Definition abs_unlock (p : Z) (userUnlock : bool) (a : gmap Z (Z * bool * bool)) : gmap Z (Z * bool * bool) :=
  match a !! p with
  | None => a
  | Some (n, m, u) =>
      let m' := if userUnlock then m else false in
      let u' := if userUnlock then false else u in
      if m' || u' then <[p := (n, m', u')]> a else delete p a
  end.

Lemma unlock_aux p uu s :
  Inv s -> exists s', unlock p uu s = (Ok tt, s') /\ Inv s' /\ abs s' = abs_unlock p uu (abs s).
Proof.
  intros [g I]. pose proof I as [G B]. unfold unlock, abs_unlock. destruct (Z.eqb_spec p 0) as [->|Hp0].
  { assert (E : abs s !! 0 = None).
    { destruct (abs s !! 0) as [[[n m] u]|] eqn:E; [|done].
      apply (abs_lookup _ _ _ _ _ _ _ B) in E as (b & x & _ & Hx & Hp & _).
      pose proof (geo_in _ _ _ G _ _ Hx) as Ix. unfold in_segment in Ix. lia. }
    rewrite E. exists s. split_and!; [done|by exists g|done]. }
  destruct (allocatedBlocks_ s !! p) as [b|] eqn:Hb.
  2: { assert (E : abs s !! p = None) by (unfold abs; by rewrite lookup_omap, Hb).
       rewrite E. eexists. split_and!; [done| |done]. exists g. split; [exact G|]. by destruct B. }
  destruct (bk_alloc _ _ _ B _ _ Hb) as (x & Hx & Hp & Hi & _). rewrite Hx.
  assert (E : abs s !! p = Some (size_ x, managerLock_ x, userLock_ x)).
  { apply (abs_lookup _ _ _ _ _ _ _ B). by exists b, x. }
  rewrite E. set (m' := if uu then managerLock_ x else false). set (u' := if uu then false else userLock_ x).
  assert (Ex : (if uu then with_locks (managerLock_ x) false x else with_locks false (userLock_ x) x)
               = with_locks m' u' x) by (by destruct uu).
  rewrite Ex, inUse_with_locks. destruct (m' || u') eqn:Hmu.
  - eexists. split_and!; [done|exists g; by eapply inv_relock|]. by eapply abs_relock.
  - apply orb_false_elim in Hmu as [-> ->].
    pose proof (inv_open_alloc g s p b x I Hb Hx) as I1.
    destruct (bk_used _ _ _ B b x Hx ltac:(done) Hi) as [_ U].
    destruct (freeBlock_inv g _ b (with_locks false false x) I1) as (s' & Hf & I2 & F2);
      [apply lookup_insert_eq|exact U|].
    exists s'. split_and!; [exact Hf|done|].
    rewrite (abs_frame _ _ _ _ (proj2 I1) F2). apply abs_delete.
    intros q c Hq Hc. rewrite lookup_insert_ne; [done|]. intros ->.
    destruct (bk_alloc _ _ _ B _ _ Hc) as (? & ? & ? & _). congruence.
Qed.

Lemma userLock_aux p n m u s :
  Inv s -> abs s !! p = Some (n, m, u) ->
  Inv (userLock p s) /\ abs (userLock p s) = <[p := (n, m, true)]> (abs s).
Proof.
  intros [g I] Hp. pose proof I as [G B].
  apply (abs_lookup _ _ _ _ _ _ _ B) in Hp as (b & x & Hb & Hx & Hpx & <- & <- & _).
  unfold userLock. rewrite Hb. destruct (Z.eqb_spec p 0) as [->|_].
  { pose proof (geo_in _ _ _ G _ _ Hx) as Ix. unfold in_segment in Ix. lia. }
  assert (Ea : alter (fun x => with_locks (managerLock_ x) true x) b (heap s)
               = <[b := with_locks (managerLock_ x) true x]> (heap s)).
  { apply map_eq. intros c. destruct (decide (c = b)) as [->|].
    - by rewrite lookup_alter_eq, lookup_insert_eq, Hx.
    - by rewrite lookup_alter_ne, lookup_insert_ne. }
  rewrite Ea. split; [|by eapply abs_relock].
  exists g. eapply inv_relock; eauto. by destruct (managerLock_ x).
Qed.

Lemma mm_new_inv r l : Inv (mm_new r l).
Proof.
  exists (fun _ => Seg true 1 1). split; split; try done; try set_solver.
  - intros k b Hb. by destruct k; apply elem_of_nil in Hb.
  - intros []; constructor.
Qed.

(** * Executions *)

(** One call on the manager.  A device answer is assumed to be a fresh region,
    and [userLock] is given a pointer the manager handed out. *)
Inductive step (s : mm) : mm -> Prop :=
| step_alloc ul dims es r1 r2 :
    0 < es -> Forall (fun d => 0 < d) dims -> es * foldr Z.mul 1 dims <= kMaxRequest ->
    device_ok (getAllocationSize (roundSize (es * foldr Z.mul 1 dims))) r1 r2 s ->
    step s (snd (alloc ul dims es r1 r2 s))
| step_unlock p uu : step s (snd (unlock p uu s))
| step_userLock p : is_Some (abs s !! p) -> step s (userLock p s)
| step_cleanup : step s (signalMemoryCleanup s)
| step_limit n : step s (setRecyclingSizeLimit n s).

Inductive reachable (r l : Z) : mm -> Prop :=
| reach_new : reachable r l (mm_new r l)
| reach_step s s' : reachable r l s -> step s s' -> reachable r l s'.

Lemma step_inv s s' : Inv s -> step s s' -> Inv s'.
Proof.
  intros I [ul dims es r1 r2 H1 H2 H3 H4|p uu|p [[[n m] u] Hp]| |n].
  - pose proof (alloc_aux ul dims es r1 r2 s I H1 H2 H3 H4) as A.
    destruct (alloc ul dims es r1 r2 s) as [[p|e] t]; apply A.
  - destruct (unlock_aux p uu s I) as (t & -> & It & _). done.
  - by destruct (userLock_aux p n m u s I Hp).
  - destruct I as [g I]. exists g. by apply cleanup_inv.
  - destruct I as [g [G B]]. exists g. split; [exact G|]. by destruct B.
Qed.

Lemma reachable_inv r l s : reachable r l s -> Inv s.
Proof. induction 1; [apply mm_new_inv|by eapply step_inv]. Qed.

(** * Theorems *)

(** C8. [alloc] refines the abstract allocator: for a request whose byte count
    fits, it hands out a non-null pointer that was not live, with at least the
    requested bytes, apart from every live region, with the locks asked for;
    the other live regions are untouched. It fails only when the device
    refuses twice, and then nothing the client holds changes. The invariant is
    kept. *)
Theorem alloc_refines ul dims es r1 r2 s :
  Inv s -> 0 < es -> Forall (fun d => 0 < d) dims -> es * foldr Z.mul 1 dims <= kMaxRequest ->
  device_ok (getAllocationSize (roundSize (es * foldr Z.mul 1 dims))) r1 r2 s ->
  alloc_post ul (es * foldr Z.mul 1 dims) r1 r2 s (alloc ul dims es r1 r2 s).
Proof. apply alloc_aux. Qed.

Lemma device_ok_new len p r l : 0 < p -> device_ok len (Some p) None (mm_new r l).
Proof. intros Hp. split; [|done]. intros q [= <-]. by split. Qed.

Lemma alloc_refines_witness :
  alloc_post false 80000 (Some 4096) None (mm_new (2 ^ 64 - 1) (2 ^ 64 - 1))
    (alloc false [100; 200] 4 (Some 4096) None (mm_new (2 ^ 64 - 1) (2 ^ 64 - 1))).
Proof.
  apply (alloc_refines false [100; 200] 4 (Some 4096) None (mm_new (2 ^ 64 - 1) (2 ^ 64 - 1))).
  - apply mm_new_inv.
  - lia.
  - repeat constructor.
  - vm_compute. discriminate.
  - apply device_ok_new. lia.
Defined.

(** C35. [unlock] never fails and refines the abstract step: it drops the lock
    asked for; when no lock is left the region leaves the live set (and the
    block, merged with its free neighbours, goes back to its pool); all other
    live regions are untouched and the invariant is kept. *)
Theorem unlock_refines p uu s :
  Inv s -> exists s', unlock p uu s = (Ok tt, s') /\ Inv s' /\ abs s' = abs_unlock p uu (abs s).
Proof. apply unlock_aux. Qed.

(** A state with two neighbouring allocations in one native block. *)
Definition demo : mm :=
  snd (alloc false [100; 200] 4 None None
    (snd (alloc false [100; 200] 4 (Some 4096) None (mm_new (2 ^ 64 - 1) (2 ^ 64 - 1))))).

Lemma demo_reachable : reachable (2 ^ 64 - 1) (2 ^ 64 - 1) demo.
Proof.
  eapply reach_step; [eapply reach_step; [apply reach_new|]|].
  - apply (step_alloc _ false [100; 200] 4 (Some 4096) None);
      [lia|repeat constructor|vm_compute; discriminate|]. apply device_ok_new. lia.
  - apply (step_alloc _ false [100; 200] 4 None None);
      [lia|repeat constructor|vm_compute; discriminate|]. by split.
Qed.

Lemma unlock_refines_witness :
  exists s', unlock 4096 false demo = (Ok tt, s') /\ Inv s' /\ abs s' = abs_unlock 4096 false (abs demo).
Proof. apply (unlock_refines 4096 false demo). exact (reachable_inv _ _ _ demo_reachable). Defined.

(** C12. In every reachable state of the manager: live regions are pairwise
    disjoint; every block object is either recorded in [allocatedBlocks_] or
    cached in exactly one pool, so no memory is lost; and the two byte
    counters are the sizes of the cached blocks and of all blocks, modulo
    2^64. *)
Theorem reachable_safe r l s :
  reachable r l s ->
  (forall p q n n' m u m' u', abs s !! p = Some (n, m, u) -> abs s !! q = Some (n', m', u') -> p <> q ->
     p + n <= q \/ q + n' <= p)
  /\ (forall b x, heap s !! b = Some x ->
        (inUse x = true /\ allocatedBlocks_ s !! ptr_ x = Some b /\ forall k, b ∉ pool k s)
        \/ (inUse x = false /\ exists k, b ∈ pool k s /\ b ∉ pool (negb k) s))
  /\ cachedBytes_ (stats_ s) = u64 (bytes (heap s) (smallBlocks_ s) + bytes (heap s) (largeBlocks_ s))
  /\ allocatedBytes_ (stats_ s) = u64 (total (heap s)).
Proof.
  intros [g [G B]]%reachable_inv. split_and!; [| |apply (bk_bytes _ _ _ B)|apply (bk_total _ _ _ B)].
  - intros p q n n' m u m' u' Hp Hq Hne.
    apply (abs_lookup _ _ _ _ _ _ _ B) in Hp as (b & x & _ & Hx & <- & <- & _).
    apply (abs_lookup _ _ _ _ _ _ _ B) in Hq as (c & y & _ & Hy & <- & <- & _).
    apply (geo_apart _ _ _ G b c x y Hx Hy). congruence.
  - intros b x Hx. destruct (inUse x) eqn:Hi; [left|right]; (split; [done|]).
    + destruct (bk_used _ _ _ B b x Hx ltac:(done) Hi) as [U _]. split; [done|].
      intros k Hk. destruct (bk_pool _ _ _ B _ _ Hk) as (? & ? & ? & _). congruence.
    + pose proof (bk_cached _ _ _ B b x Hx ltac:(done) Hi) as Hk. eexists. split; [exact Hk|].
      intros Hk'. pose proof (book_in_one_pool _ _ _ _ _ B Hk _ Hk') as E. by destruct (seg_small (g b)).
Qed.

Lemma reachable_safe_witness :
  allocatedBytes_ (stats_ demo) = u64 (total (heap demo)) /\ allocatedBytes_ (stats_ demo) = 2097152.
Proof. split; [apply (reachable_safe _ _ demo demo_reachable)|reflexivity]. Defined.

(** [signalMemoryCleanup] deletes exactly the cached blocks that are not
    split and hands each of their pointers to [nativeFree], once; every such
    block is the whole region of one native allocation. What the client holds
    is untouched and the invariant is kept. *)
Theorem cleanup_exact r l s :
  reachable r l s ->
  let s' := signalMemoryCleanup s in
  Inv s' /\ abs s' = abs s
  /\ (forall b, heap s' !! b = x ← heap s !! b; if inUse x || isSplit x then Some x else None)
  /\ nativeFreed s' = rev (omap (fun b => x ← heap s !! b; if isSplit x then None else Some (ptr_ x))
                             (largeBlocks_ s ++ smallBlocks_ s)) ++ nativeFreed s
  /\ NoDup (omap (fun b => x ← heap s !! b; if isSplit x then None else Some (ptr_ x))
              (largeBlocks_ s ++ smallBlocks_ s)).
Proof.
  intros [g I]%reachable_inv. cbn zeta. pose proof I as [G B].
  destruct (cleanup_inv g s I) as [I' C]. pose proof C as (H & N & _ & _ & _).
  assert (HN : NoDup (largeBlocks_ s ++ smallBlocks_ s)).
  { apply NoDup_app. split_and!; [apply (ordered_NoDup (heap s)), (bk_ordered _ _ _ B false)| |
      apply (ordered_NoDup (heap s)), (bk_ordered _ _ _ B true)].
    intros b H1 H2. by pose proof (book_in_one_pool _ _ _ true b B H2 false H1). }
  split_and!; [by exists g|by apply (abs_frame _ _ _ _ B), (cleanup_frame g)| |done|].
  - intros b. rewrite H. destruct (heap s !! b) as [x|] eqn:Hx; [|done]. cbn.
    destruct (inUse x) eqn:Hi; cbn.
    + rewrite decide_False; [done|]. intros [[Hb|Hb]%elem_of_app _].
      * destruct (bk_pool _ _ _ B false b Hb) as (? & ? & ? & _). congruence.
      * destruct (bk_pool _ _ _ B true b Hb) as (? & ? & ? & _). congruence.
    + pose proof (bk_cached _ _ _ B b x Hx ltac:(done) Hi) as Hb.
      destruct (isSplit x); [by rewrite decide_False by naive_solver|].
      rewrite decide_True; [done|]. split; [|done]. rewrite elem_of_app. destruct (seg_small (g b)); auto.
  - clear - HN G. induction (largeBlocks_ s ++ smallBlocks_ s) as [|b bs IH]; cbn; [constructor|].
    apply NoDup_cons in HN as [Hb HN]. specialize (IH HN).
    destruct (heap s !! b) as [x|] eqn:Hx; cbn; [|done]. destruct (isSplit x); [done|].
    constructor; [|done]. rewrite list_elem_of_omap. intros (c & Hc & E).
    destruct (heap s !! c) as [y|] eqn:Hy; cbn in E; [|done]. destruct (isSplit y); [done|]. injection E as E.
    by apply (geo_ptr _ _ _ b c x y G Hx Hy); [intros ->|].
Qed.

Lemma cleanup_exact_witness :
  let s := snd (unlock 84480 false (snd (unlock 4096 false demo))) in
  abs (signalMemoryCleanup s) = abs s /\ nativeFreed (signalMemoryCleanup s) = [4096].
Proof.
  split; [|reflexivity]. apply (cleanup_exact (2 ^ 64 - 1) (2 ^ 64 - 1)).
  eapply reach_step; [eapply reach_step; [apply demo_reachable|apply step_unlock]|apply step_unlock].
Defined.

Lemma lower_bound_ordered h size l :
  ordered h l -> (forall c, c ∈ l -> exists y, h !! c = Some y /\ 0 < ptr_ y) ->
  match lower_bound h (newBlock size 0) l with
  | Some b => b ∈ l /\ size <= sizeof h b
              /\ forall c, c ∈ l -> size <= sizeof h c -> sizeof h b <= sizeof h c
  | None => forall c, c ∈ l -> sizeof h c < size
  end.
Proof.
  induction 1 as [|c cs Hcs IH Hc]; intros Hf; cbn [lower_bound find]; [by intros c ?%elem_of_nil|].
  destruct (Hf c) as (y & Hy & Hp); [by left|]. rewrite Hy.
  assert (E : negb (BlockComparator y (newBlock size 0)) = (size <=? size_ y)).
  { unfold BlockComparator. cbn. destruct (size_ y =? size) eqn:E1; lia. }
  assert (Sc : sizeof h c = size_ y) by (unfold sizeof; by rewrite Hy).
  rewrite E. destruct (Z.leb_spec size (size_ y)) as [Hle|Hlt].
  - split_and!; [by left|lia|]. intros d [->|Hd]%elem_of_cons _; [lia|].
    rewrite Forall_forall in Hc. specialize (Hc d Hd). destruct (Hf d) as (z & Hz & _); [by right|].
    unfold less, sizeof, BlockComparator in *. rewrite Hy, Hz in Hc. rewrite Hz. cbn. repeat case_match; lia.
  - assert (Hf' : forall d, d ∈ cs -> exists z, h !! d = Some z /\ 0 < ptr_ z) by (intros d Hd; apply Hf; by right).
    specialize (IH Hf'). unfold lower_bound in IH. destruct (find _ cs) as [b|].
    + destruct IH as (I1 & I2 & I3). split_and!; [by right|done|].
      intros d [->|Hd]%elem_of_cons Hs; [lia|auto].
    + intros d [->|Hd]%elem_of_cons; [lia|auto].
Qed.

(** The search of [alloc] is a best fit: [lower_bound] yields a cached
    block of the pool that is large enough and no larger than any other that
    is, and reports none only when no cached block of the pool is large
    enough. *)
Theorem lower_bound_best_fit r l s size k :
  reachable r l s ->
  match lower_bound (heap s) (newBlock size 0) (pool k s) with
  | Some b => b ∈ pool k s /\ size <= sizeof (heap s) b
              /\ forall c, c ∈ pool k s -> size <= sizeof (heap s) c -> sizeof (heap s) b <= sizeof (heap s) c
  | None => forall c, c ∈ pool k s -> sizeof (heap s) c < size
  end.
Proof.
  intros [g [G B]]%reachable_inv.
  assert (Hf : forall c, c ∈ pool k s -> exists y, heap s !! c = Some y /\ 0 < ptr_ y).
  { intros c Hc. destruct (bk_pool _ _ _ B _ _ Hc) as (y & Hy & _). exists y. split; [done|].
    pose proof (geo_in _ _ _ G _ _ Hy). unfold in_segment in *. lia. }
  apply lower_bound_ordered; [apply (bk_ordered _ _ _ B k)|done].
Qed.

Lemma demo_free_reachable : reachable (2 ^ 64 - 1) (2 ^ 64 - 1) (snd (unlock 4096 false demo)).
Proof. eapply reach_step; [apply demo_reachable|apply step_unlock]. Qed.

Lemma lower_bound_best_fit_witness :
  lower_bound (heap (snd (unlock 4096 false demo))) (newBlock 512 0) (pool true (snd (unlock 4096 false demo)))
    = Some 2%positive
  /\ sizeof (heap (snd (unlock 4096 false demo))) 2%positive
     <= sizeof (heap (snd (unlock 4096 false demo))) 1%positive.
Proof.
  assert (E : lower_bound (heap (snd (unlock 4096 false demo))) (newBlock 512 0)
                (pool true (snd (unlock 4096 false demo))) = Some 2%positive) by (vm_compute; reflexivity).
  split; [exact E|].
  pose proof (lower_bound_best_fit _ _ (snd (unlock 4096 false demo)) 512 true demo_free_reachable) as H.
  rewrite E in H. apply (proj2 (proj2 H)).
  - apply (bool_decide_unpack _). vm_compute. exact I.
  - vm_compute. discriminate.
Defined.

(** Lowering the split limit while blocks are live breaks the pools: a block cut
    from a small segment is handed out whole, filed under the large blocks when
    it is freed, and deleted by its neighbour's merge, which erases it from the
    small pool only; [largeBlocks_] keeps a dangling pointer. *)
Example setSplitSizeLimit_dangling :
  let s0 := snd (alloc false [1] 512 (Some 4096) None (mm_new (2 ^ 64 - 1) (2 ^ 64 - 1))) in
  let s1 := setSplitSizeLimit kSmallSize s0 in
  let '(p, s2) := alloc false [1] 512 None None s1 in
  let s3 := snd (unlock 4608 false s2) in
  let s4 := snd (unlock 4096 false s3) in
  p = Ok 4608 /\ largeBlocks_ s4 = [1%positive] /\ heap s4 !! 1%positive = None.
Proof. vm_compute. auto. Qed.

(** Locking a pointer the manager does not know and unlocking it files a block
    the device never counted: the next cleanup makes [allocatedBytes_] wrap. *)
Example userLock_unknown_wraps :
  let s1 := userLock 4096 (mm_new (2 ^ 64 - 1) (2 ^ 64 - 1)) in
  let s2 := signalMemoryCleanup (snd (userUnlock 4096 s1)) in
  allocatedBytes_ (stats_ s2) = 2 ^ 64 - kSmallBuffer /\ nativeFreed s2 = [4096].
Proof. vm_compute. auto. Qed.
