(* ===== verification/Float.v ===== *)
(** IEEE 754 arithmetic as the C++ code uses it, on the Standard Library's
    executable specification of binary floating point: [double] is binary64,
    [float] is binary32, and mixed expressions are evaluated in [double] after
    widening.  The order of the non-NaN values is shown to be total. *)
From Stdlib Require Import Floats.SpecFloat.
From S2P Require Import Prelude.

Open Scope Z_scope.

Definition f64 : Type := spec_float.
Definition f32 : Type := spec_float.

Definition f64_add : f64 -> f64 -> f64 := SFadd 53 1024.
Definition f64_sub : f64 -> f64 -> f64 := SFsub 53 1024.
Definition f64_mul : f64 -> f64 -> f64 := SFmul 53 1024.
Definition f64_div : f64 -> f64 -> f64 := SFdiv 53 1024.
Definition f32_add : f32 -> f32 -> f32 := SFadd 24 128.
Definition f32_sub : f32 -> f32 -> f32 := SFsub 24 128.

(** [a < b], [a > b], [a >= b]: false when one side is NaN. *)
Definition flt (a b : spec_float) : bool := SFltb a b.
Definition fgt (a b : spec_float) : bool := SFltb b a.
Definition fge (a b : spec_float) : bool := SFleb b a.
Definition fle (a b : spec_float) : bool := SFleb a b.

(** Conversion of a [float] to [double], exact. *)
Definition widen (x : f32) : f64 :=
  match x with
  | S754_finite s m e => binary_round 53 1024 s m e
  | _ => x
  end.

(** Conversion of a [double] to [float], rounded to nearest. *)
Definition narrow (x : f64) : f32 :=
  match x with
  | S754_finite s m e => binary_round 24 128 s m e
  | _ => x
  end.

(** Conversion of an integer. *)
Definition f64_of_Z (z : Z) : f64 := binary_normalize 53 1024 z 0 false.
Definition f32_of_Z (z : Z) : f32 := binary_normalize 24 128 z 0 false.

Definition f_zero : spec_float := S754_zero false.
Definition f_inf : spec_float := S754_infinity false.
Definition f_neg_inf : spec_float := S754_infinity true.

(** [std::max(a, b)] and [std::min(a, b)] on floating point. *)
Definition fmax (a b : spec_float) : spec_float := if flt a b then b else a.
Definition fmin (a b : spec_float) : spec_float := if flt b a then b else a.

Definition is_nan (a : spec_float) : bool := match a with S754_nan => true | _ => false end.

(** * Order *)

(** The position of a non-NaN value on the line, read lexicographically. *)
Definition fkey (a : spec_float) : Z * Z * Z :=
  match a with
  | S754_infinity true => (-2, 0, 0)
  | S754_finite true m e => (-1, - e, Zneg m)
  | S754_zero _ | S754_nan => (0, 0, 0)
  | S754_finite false m e => (1, e, Zpos m)
  | S754_infinity false => (2, 0, 0)
  end.

Definition klt (x y : Z * Z * Z) : Prop :=
  x.1.1 < y.1.1 \/ (x.1.1 = y.1.1 /\ (x.1.2 < y.1.2 \/ (x.1.2 = y.1.2 /\ x.2 < y.2))).

Lemma flt_key a b : is_nan a = false -> is_nan b = false -> flt a b = true <-> klt (fkey a) (fkey b).
Proof.
  unfold flt, SFltb, klt.
  destruct a as [[]|[]| |[] m e], b as [[]|[]| |[] m' e']; try done; intros _ _; cbn; try lia.
  all: try (split; [done|lia]).
  - destruct (Z.compare_spec e e'); try (split; [try done; lia|try done; lia]).
    change (Pos.compare_cont Eq m m') with (Pos.compare m m').
    destruct (Pos.compare_spec m m'); cbn; split; try done; try lia.
  - destruct (Z.compare_spec e e'); try (split; [try done; lia|try done; lia]).
    change (Pos.compare_cont Eq m m') with (Pos.compare m m').
    destruct (Pos.compare_spec m m'); cbn; split; try done; try lia.
Qed.

Lemma fle_key a b : is_nan a = false -> is_nan b = false -> fle a b = true <-> ~ klt (fkey b) (fkey a).
Proof.
  unfold fle, SFleb, klt.
  destruct a as [[]|[]| |[] m e], b as [[]|[]| |[] m' e']; try done; intros _ _; cbn; try lia.
  all: try (split; [done|lia]).
  - destruct (Z.compare_spec e e'); try (split; [try done; lia|try done; lia]).
    change (Pos.compare_cont Eq m m') with (Pos.compare m m').
    destruct (Pos.compare_spec m m'); cbn; split; try done; try lia.
  - destruct (Z.compare_spec e e'); try (split; [try done; lia|try done; lia]).
    change (Pos.compare_cont Eq m m') with (Pos.compare m m').
    destruct (Pos.compare_spec m m'); cbn; split; try done; try lia.
Qed.

Section Order.
Context (a b c : spec_float).
Hypothesis Ha : is_nan a = false.
Hypothesis Hb : is_nan b = false.
Hypothesis Hc : is_nan c = false.

Lemma flt_irrefl : flt a a = false.
Proof. apply not_true_is_false. rewrite flt_key by done. unfold klt. lia. Qed.

Lemma flt_trans : flt a b = true -> flt b c = true -> flt a c = true.
Proof. rewrite !flt_key by done. unfold klt. lia. Qed.

Lemma fle_trans : fle a b = true -> fle b c = true -> fle a c = true.
Proof. rewrite !fle_key by done. unfold klt. lia. Qed.

Lemma fle_refl : fle a a = true.
Proof. rewrite fle_key by done. unfold klt. lia. Qed.

Lemma fle_flt : fle a b = negb (flt b a).
Proof.
  apply Bool.eq_iff_eq_true. rewrite fle_key, negb_true_iff, <- not_true_iff_false, flt_key by done. done.
Qed.

Lemma flt_fle : flt a b = true -> fle a b = true.
Proof. rewrite fle_key, flt_key by done. unfold klt. lia. Qed.

Lemma fle_total : fle a b = true \/ fle b a = true.
Proof. rewrite !fle_key by done. unfold klt. lia. Qed.

Lemma fle_flt_trans : fle a b = true -> flt b c = true -> flt a c = true.
Proof. rewrite !flt_key, fle_key by done. unfold klt. lia. Qed.

Lemma flt_fle_trans : flt a b = true -> fle b c = true -> flt a c = true.
Proof. rewrite !flt_key, fle_key by done. unfold klt. lia. Qed.
End Order.

Lemma fle_nan a b : fle a b = true -> is_nan a = false /\ is_nan b = false.
Proof. by destruct a as [[]|[]| |[] m e], b as [[]|[]| |[] m' e']. Qed.

Lemma fmax_nan a b : is_nan a = false -> is_nan b = false -> is_nan (fmax a b) = false.
Proof. unfold fmax. by destruct (flt a b). Qed.

Lemma fmax_ge_l a b : is_nan a = false -> is_nan b = false -> fle a (fmax a b) = true.
Proof. intros. unfold fmax. destruct (flt a b) eqn:E; [by apply flt_fle|by apply fle_refl]. Qed.

Lemma fmax_ge_r a b : is_nan a = false -> is_nan b = false -> fle b (fmax a b) = true.
Proof. intros. unfold fmax. destruct (flt a b) eqn:E; [by apply fle_refl|]. by rewrite fle_flt, E. Qed.

#[export] Hint Resolve fle_refl fmax_nan fmax_ge_l fmax_ge_r : fl.
