(* ===== verification/StdAlgorithm.v ===== *)
(** [std::sort], [std::nth_element] and [std::partial_sort] as the sources use
    them.  The standard fixes their result up to the order of equivalent
    elements only, so clients are stated against the interface [StdAlgo] and its
    laws [StdAlgoLaws]; insertion sort discharges it. *)
From S2P Require Import Prelude.

Open Scope Z_scope.

(** The comparator is a strict weak order on the elements of a list. *)
Record strict_weak {A} (lt : A -> A -> bool) (l : list A) : Prop := {
  sw_irrefl : forall a, a ∈ l -> lt a a = false;
  sw_trans : forall a b c, a ∈ l -> b ∈ l -> c ∈ l -> lt a b = true -> lt b c = true -> lt a c = true;
  sw_negtrans : forall a b c, a ∈ l -> b ∈ l -> c ∈ l -> lt a b = false -> lt b c = false -> lt a c = false
}.

Lemma strict_weak_sub {A} (lt : A -> A -> bool) l l' :
  (forall a, a ∈ l' -> a ∈ l) -> strict_weak lt l -> strict_weak lt l'.
Proof. intros H [I T N]. split; intros; eauto. Qed.

(** No element comes after one it should precede. *)
Definition sorted {A} (lt : A -> A -> bool) (l : list A) : Prop :=
  StronglySorted (fun a b => lt b a = false) l.

(** Nothing of [l2] should precede something of [l1]. *)
Definition before {A} (lt : A -> A -> bool) (l1 l2 : list A) : Prop :=
  forall a b, a ∈ l1 -> b ∈ l2 -> lt b a = false.

Class StdAlgo := {
  std_sort : forall {A}, (A -> A -> bool) -> list A -> list A;
  std_nth_element : forall {A}, (A -> A -> bool) -> nat -> list A -> list A;
  std_partial_sort : forall {A}, (A -> A -> bool) -> nat -> list A -> list A
}.

Class StdAlgoLaws (alg : StdAlgo) := {
  std_sort_perm : forall {A} (lt : A -> A -> bool) l, strict_weak lt l -> std_sort lt l ≡ₚ l;
  std_sort_sorted : forall {A} (lt : A -> A -> bool) l, strict_weak lt l -> sorted lt (std_sort lt l);
  std_nth_perm : forall {A} (lt : A -> A -> bool) n l, strict_weak lt l -> std_nth_element lt n l ≡ₚ l;
  std_nth_before : forall {A} (lt : A -> A -> bool) n l, strict_weak lt l ->
    before lt (take n (std_nth_element lt n l)) (drop n (std_nth_element lt n l));
  std_partial_perm : forall {A} (lt : A -> A -> bool) n l, strict_weak lt l -> std_partial_sort lt n l ≡ₚ l;
  std_partial_sorted : forall {A} (lt : A -> A -> bool) n l, strict_weak lt l ->
    sorted lt (take n (std_partial_sort lt n l));
  std_partial_ext : forall {A} (lt lt' : A -> A -> bool) n l, (forall a b, lt a b = lt' a b) ->
    std_partial_sort lt n l = std_partial_sort lt' n l;
  std_partial_before : forall {A} (lt : A -> A -> bool) n l, strict_weak lt l ->
    before lt (take n (std_partial_sort lt n l)) (drop n (std_partial_sort lt n l))
}.

(** * Insertion sort *)

Section Insertion.
Context {A : Type} (lt : A -> A -> bool).

Fixpoint insert_sorted (x : A) (l : list A) : list A :=
  match l with
  | [] => [x]
  | y :: r => if lt y x then y :: insert_sorted x r else x :: l
  end.

Definition insertion_sort (l : list A) : list A := foldr insert_sorted [] l.

Lemma insert_sorted_perm x l : insert_sorted x l ≡ₚ x :: l.
Proof.
  induction l as [|y l IH]; cbn; [done|]. destruct (lt y x); [|done]. rewrite IH. constructor.
Qed.

Lemma insertion_sort_perm l : insertion_sort l ≡ₚ l.
Proof. induction l as [|x l IH]; cbn; [done|]. by rewrite insert_sorted_perm, IH. Qed.

Lemma insert_sorted_sorted x l : strict_weak lt (x :: l) -> sorted lt l -> sorted lt (insert_sorted x l).
Proof.
  intros Hsw Hs. induction Hs as [|y l Hl IH Hy]; cbn; [repeat constructor|].
  destruct (lt y x) eqn:E.
  - constructor.
    + apply IH. eapply strict_weak_sub; [|exact Hsw]. set_solver.
    + rewrite insert_sorted_perm. constructor; [|done].
      destruct (lt x y) eqn:E'; [|done].
      pose proof (sw_trans _ _ Hsw y x y ltac:(set_solver) ltac:(set_solver) ltac:(set_solver) E E') as H.
      by rewrite (sw_irrefl _ _ Hsw) in H by set_solver.
  - constructor; [by constructor|]. constructor; [done|].
    rewrite Forall_forall in Hy |- *. intros z Hz.
    apply (sw_negtrans _ _ Hsw z y x); [set_solver..|by apply Hy|done].
Qed.

Lemma insertion_sort_sorted l : strict_weak lt l -> sorted lt (insertion_sort l).
Proof.
  induction l as [|x l IH]; intros Hsw; cbn; [constructor|].
  apply insert_sorted_sorted.
  - eapply strict_weak_sub; [|exact Hsw]. intros a. by rewrite insertion_sort_perm.
  - apply IH. eapply strict_weak_sub; [|exact Hsw]. set_solver.
Qed.

Lemma sorted_take n l : sorted lt l -> sorted lt (take n l).
Proof.
  intros Hs. revert n. induction Hs as [|y l Hl IH Hy]; intros [|n]; cbn; try constructor; [by apply IH|].
  by apply Forall_take.
Qed.

Lemma sorted_before n l : sorted lt l -> before lt (take n l) (drop n l).
Proof.
  intros Hs. revert n. induction Hs as [|y l Hl IH Hy]; intros [|n] a b; cbn; try set_solver.
  intros [->|Ha]%elem_of_cons Hb; [|by eapply IH].
  rewrite Forall_forall in Hy. apply Hy. eapply subseteq_drop, Hb.
Qed.
End Insertion.

Lemma insertion_sort_ext {A} (lt lt' : A -> A -> bool) l :
  (forall a b, lt a b = lt' a b) -> insertion_sort lt l = insertion_sort lt' l.
Proof.
  intros E. unfold insertion_sort. induction l as [|x l IH]; cbn; [done|]. rewrite IH.
  generalize (foldr (insert_sorted lt') [] l) as r. clear IH. induction r as [|y r IH]; cbn; [done|].
  rewrite E, IH. done.
Qed.

#[export] Instance insertion_algo : StdAlgo := {
  std_sort A lt l := insertion_sort lt l;
  std_nth_element A lt n l := insertion_sort lt l;
  std_partial_sort A lt n l := insertion_sort lt l
}.

#[export] Instance insertion_laws : StdAlgoLaws insertion_algo.
Proof.
  split; intros; cbn; auto using insertion_sort_perm, insertion_sort_sorted, sorted_take, sorted_before,
    insertion_sort_ext.
Qed.
