(* ===== verification/DecoderUtils.v ===== *)
(** The routines the beam search decoders share
    ([lib/text/decoder/Utils.h], [lib/text/decoder/lm/LM.h], [ZeroLM.cpp]).

    The templates over [DecoderState] are definitions over a class of the same
    name.  The vectors of hypotheses live in a store indexed by identities; a
    [parent] pointer is the identity of a vector and an index in it, so swapping
    two entries of [hyp_] moves the vectors and keeps the pointers valid, as
    [std::vector::swap] does.  Scores are IEEE [double]s; [exp] and [log1p] are
    parameters, used by the [logAdd] option only. *)
From Stdlib Require Import Floats.SpecFloat.
From S2P Require Import Prelude Float StdAlgorithm.

Open Scope Z_scope.

Abbreviation lmptr := positive.
Abbreviation ptr := (nat * nat)%type.

(** [CriterionType] of [Decoder.h] *)
Inductive CriterionType := ASG | CTC | S2S.
#[export] Instance CriterionType_eq_dec : EqDecision CriterionType.
Proof. solve_decision. Defined.

(** * Language models *)

(** [LM]: the calls may throw, and may change the model's own state [W] (the
    states they create and their caches). *)
Record LM (W : Type) := MkLM {
  lm_start : bool -> W -> result (lmptr * W);
  lm_score : lmptr -> Z -> W -> result (lmptr * f32 * W);
  lm_finish : lmptr -> W -> result (lmptr * f32 * W);
  lm_updateCache : list lmptr -> W -> result W
}.
Arguments lm_start {W}. Arguments lm_score {W}. Arguments lm_finish {W}. Arguments lm_updateCache {W}.

(** [LMState::compare]: the order of the two addresses. *)
Definition lm_compare (a b : lmptr) : Z :=
  if bool_decide (a = b) then 0 else if (Z.pos a <? Z.pos b) then -1 else 1.

(** [LMState::child] and [ZeroLM]; a state is the map of its children. *)
Definition lmheap : Type := gmap lmptr (gmap Z lmptr).

Definition child (s : lmptr) (usrIdx : Z) (h : lmheap) : lmptr * lmheap :=
  let children := default ∅ (h !! s) in
  match children !! usrIdx with
  | Some c => (c, h)
  | None => let c := fresh (dom (<[s := children]> h)) in
            (c, <[c := ∅]> (<[s := <[usrIdx := c]> children]> h))
  end.

Definition ZeroLM : LM lmheap :=
  MkLM _ (fun _ h => let s := fresh (dom h) in Ok (s, <[s := ∅]> h))
         (fun s n h => let '(c, h) := child s n h in Ok (c, f_zero, h))
         (fun s h => Ok (s, f_zero, h))
         (fun _ h => Ok h).

(** A language model whose calls do not throw. *)
Record lm_total {W} (lm : LM W) : Prop := {
  lt_start b w : exists s w', lm_start lm b w = Ok (s, w');
  lt_score s n w : exists s' z w', lm_score lm s n w = Ok (s', z, w');
  lt_finish s w : exists s' z w', lm_finish lm s w = Ok (s', z, w');
  lt_update l w : exists w', lm_updateCache lm l w = Ok w'
}.

Lemma ZeroLM_total : lm_total ZeroLM.
Proof.
  split; cbn; [eauto| |eauto|eauto]. intros s n w. destruct (child s n w) as [c h]. eauto.
Qed.

(** What a client may rely on while one sentence is decoded.  [means w s h]: the
    state at address [s] stands for the tokens [h] scored since the start; [ready]:
    it can be scored now.  Scores depend on the tokens only, never on addresses
    or caches; the calls on ready states and known tokens do not throw; addresses
    keep their meaning, and the states passed to [updateCache] are ready after it. *)
Record lm_contract {W} (lm : LM W) (tok : Z -> Prop) (inv : W -> Prop) (means : W -> lmptr -> list Z -> Prop)
    (ready : W -> lmptr -> Prop) (scoreOf : list Z -> Z -> f32) (finishOf : list Z -> f32) : Prop := {
  lc_fun w s h h' : inv w -> means w s h -> means w s h' -> h = h';
  lc_start w : inv w -> exists s w', lm_start lm false w = Ok (s, w') /\ inv w' /\ means w' s [] /\ ready w' s;
  lc_score w s h n : inv w -> ready w s -> means w s h -> tok n ->
    exists s' w', lm_score lm s n w = Ok (s', scoreOf h n, w') /\ inv w' /\ means w' s' (h ++ [n])
      /\ (forall s h, means w s h -> means w' s h) /\ (forall s, ready w s -> ready w' s);
  lc_finish w s h : inv w -> ready w s -> means w s h ->
    exists s' w', lm_finish lm s w = Ok (s', finishOf h, w') /\ inv w'
      /\ (forall s h, means w s h -> means w' s h) /\ (forall s, ready w s -> ready w' s);
  lc_update w l : inv w -> (forall s, s ∈ l -> exists h, means w s h) ->
    exists w', lm_updateCache lm l w = Ok w' /\ inv w' /\ (forall s h, means w s h -> means w' s h)
      /\ (forall s, s ∈ l -> ready w' s)
}.

(** [a[i]] for an index computed in [int]. *)
Definition array_at {A} (a : list A) (i : Z) : result A := i ← int_value i; vec_get a i.

Lemma array_at_ok {A} (a : list A) i : 0 <= i < zlen a -> i < 2 ^ 31 -> exists x, array_at a i = Ok x.
Proof. intros Hi Hb. unfold array_at. rewrite int_value_fits by lia. by apply vec_get_is_Ok. Qed.

(** The tokens the frame-synchronous decoders consider at a frame: the best
    emissions.  The sort compares every emission of the frame; its position in the
    array is an [int] product plus a [size_t]. *)
Definition frameOrder {alg : StdAlgo} (beamSizeToken : Z) (emissions : list f32) (t N : Z) : result (list Z) :=
  let idx := zrange 0 N in
  if beamSizeToken <? N then
    if beamSizeToken <? 0 then Throw Undefined
    else
      start ← int_value (t * N);
      row ← mapM_result (fun n => vec_get emissions (start + n)) idx;
      let at_ (n : Z) : f32 := default S754_nan (row !! Z.to_nat n) in
      Ok (std_partial_sort (fun l r => fgt (at_ l) (at_ r)) (Z.to_nat beamSizeToken) idx)
  else Ok idx.

(** ** [ZeroLM] meets the contract *)

(** The state reached from [r] by the tokens [h]. *)
Fixpoint descend (w : gmap lmptr (gmap Z lmptr)) (r : lmptr) (h : list Z) : option lmptr :=
  match h with
  | [] => Some r
  | n :: h => m ← w !! r; c ← m !! n; descend w c h
  end.

(** Every state is the child of at most one other, and is allocated. *)
Record heap_ok (w : gmap lmptr (gmap Z lmptr)) : Prop := {
  ho_alloc p m n c : w !! p = Some m -> m !! n = Some c -> c ∈ dom w;
  ho_parent p q m m' n n' c : w !! p = Some m -> m !! n = Some c -> w !! q = Some m' -> m' !! n' = Some c -> p = q /\ n = n'
}.

(** A start state: a child of none. *)
Definition is_root (w : gmap lmptr (gmap Z lmptr)) (r : lmptr) : Prop := r ∈ dom w /\ forall p m n, w !! p = Some m -> m !! n <> Some r.

Definition zero_means (w : gmap lmptr (gmap Z lmptr)) (s : lmptr) (h : list Z) : Prop := exists r, is_root w r /\ descend w r h = Some s.

Lemma descend_snoc w r h n :
  descend w r (h ++ [n]) = (p ← descend w r h; m ← w !! p; m !! n).
Proof.
  revert r. induction h as [|k h IH]; intros r; cbn.
  - destruct (w !! r) as [m|]; [|done]. cbn. by destruct (m !! n).
  - destruct (w !! r) as [m|]; [|done]. cbn. destruct (m !! k); [|done]. cbn. apply IH.
Qed.

Lemma descend_dom w r h s : heap_ok w -> r ∈ dom w -> descend w r h = Some s -> s ∈ dom w.
Proof.
  intros Hw Hr. destruct h as [|n h _] using rev_ind; [by intros [= <-]|]. rewrite descend_snoc.
  destruct (descend w r h) as [p|]; [|done]. cbn. destruct (w !! p) as [m|] eqn:Em; [|done]. cbn. by eapply ho_alloc.
Qed.

Lemma zero_means_fun w s h h' : heap_ok w -> zero_means w s h -> zero_means w s h' -> h = h'.
Proof.
  intros Hw (r & Hr & Hs) (r' & Hr' & Hs'). revert s Hs h' Hs'. induction h as [|n h IH] using rev_ind; intros s Hs h' Hs'.
  - injection Hs as <-. destruct h' as [|n' h' _] using rev_ind; [done|]. rewrite descend_snoc in Hs'.
    destruct (descend w r' h') as [p|]; [|done]. cbn in Hs'. destruct (w !! p) as [m|] eqn:Em; [|done].
    cbn in Hs'. by destruct (proj2 Hr _ _ _ Em Hs').
  - rewrite descend_snoc in Hs. destruct (descend w r h) as [p|] eqn:Ep; [|done]. cbn in Hs.
    destruct (w !! p) as [m|] eqn:Em; [|done]. cbn in Hs.
    destruct h' as [|n' h' _] using rev_ind; [injection Hs' as <-; by destruct (proj2 Hr' _ _ _ Em Hs)|].
    rewrite descend_snoc in Hs'. destruct (descend w r' h') as [p'|] eqn:Ep'; [|done]. cbn in Hs'.
    destruct (w !! p') as [m'|] eqn:Em'; [|done]. cbn in Hs'.
    destruct (ho_parent _ Hw _ _ _ _ _ _ _ Em Hs Em' Hs') as [<- <-]. by rewrite (IH p eq_refl h' Ep').
Qed.

(** A heap with more children, and no new parent for an old state. *)
Definition grows (w w' : gmap lmptr (gmap Z lmptr)) : Prop :=
  (forall p m n c, w !! p = Some m -> m !! n = Some c -> exists m', w' !! p = Some m' /\ m' !! n = Some c)
  /\ (forall r, is_root w r -> is_root w' r).

Lemma grows_means w w' s h : grows w w' -> zero_means w s h -> zero_means w' s h.
Proof.
  intros [H1 H2] (r & Hr & Hs). exists r. split; [by apply H2|]. clear Hr. revert r Hs. induction h as [|n h IH]; intros r; cbn; [done|].
  destruct (w !! r) as [m|] eqn:Em; [|done]. cbn. destruct (m !! n) as [c|] eqn:Ec; [|done]. cbn.
  destruct (H1 _ _ _ _ Em Ec) as (m' & -> & Ec'). cbn. rewrite Ec'. cbn. apply IH.
Qed.

Lemma child_grows (w : gmap lmptr (gmap Z lmptr)) s n c (w' : gmap lmptr (gmap Z lmptr)) :
  heap_ok w -> s ∈ dom w -> child s n w = (c, w') ->
  heap_ok w' /\ grows w w' /\ exists m, w' !! s = Some m /\ m !! n = Some c.
Proof.
  intros Hw Hs. unfold child, lmheap. apply elem_of_dom in Hs as [m Em]. rewrite Em. cbn [default from_option id].
  destruct (m !! n) as [c0|] eqn:En.
  - intros [= <- <-]. split; [done|]. split; [|eauto]. split; eauto.
  - rewrite (insert_id w s m Em). set (f := fresh (dom w)). intros [= <- <-].
    assert (Hf : w !! f = None) by (apply not_elem_of_dom, is_fresh).
    assert (Hsf : s <> f) by (intros ->; congruence).
    assert (Hlook : forall p k, <[f := ∅]> (<[s := <[n := f]> m]> w) !! p = Some k ->
      (p = f /\ k = ∅) \/ (p = s /\ k = <[n := f]> m) \/ (p <> f /\ p <> s /\ w !! p = Some k)).
    { intros p k. destruct (decide (p = f)) as [->|Hpf]; [rewrite lookup_insert_eq; intros [= <-]; auto|].
      rewrite lookup_insert_ne by done. destruct (decide (p = s)) as [->|Hps]; [rewrite lookup_insert_eq; intros [= <-]; auto|].
      rewrite lookup_insert_ne by done. auto. }
    assert (Hold : forall p k j x, w !! p = Some k -> k !! j = Some x -> x <> f).
    { intros p k j x Hp Hk ->. apply (ho_alloc _ Hw _ _ _ _ Hp), elem_of_dom in Hk as [? ?]. congruence. }
    assert (Hchild : forall p k j x, <[f := ∅]> (<[s := <[n := f]> m]> w) !! p = Some k -> k !! j = Some x ->
      (p = s /\ j = n /\ x = f) \/ (x <> f /\ exists k0, w !! p = Some k0 /\ k0 !! j = Some x)).
    { intros p k j x [[-> ->]|[[-> ->]|(Hpf & Hps & Hp)]]%Hlook Hk.
      - by rewrite lookup_empty in Hk.
      - destruct (decide (j = n)) as [->|Hj]; [rewrite lookup_insert_eq in Hk; injection Hk as <-; auto|].
        rewrite lookup_insert_ne in Hk by done. right. split; [by eapply Hold|eauto].
      - right. split; [by eapply Hold|eauto]. }
    split; [split|split; [split|]].
    + intros p k j x Hp Hk. rewrite !dom_insert, !elem_of_union, !elem_of_singleton.
      destruct (Hchild _ _ _ _ Hp Hk) as [(_ & _ & ->)|(_ & k0 & H1 & H2)]; [by left|]. right. right. by eapply ho_alloc.
    + intros p q k k' j j' x Hp Hk Hq Hk'.
      destruct (Hchild _ _ _ _ Hp Hk) as [(-> & -> & ->)|(Hx & k0 & H1 & H2)], (Hchild _ _ _ _ Hq Hk') as [(-> & -> & E)|(Hx' & k1 & H3 & H4)];
        try done. by eapply ho_parent.
    + intros p k j x Hp Hk. assert (p <> f) by (intros ->; congruence). rewrite lookup_insert_ne by done.
      destruct (decide (p = s)) as [->|Hps].
      * rewrite lookup_insert_eq. eexists. split; [done|]. rewrite Hp in Em. injection Em as ->.
        rewrite lookup_insert_ne; [done|]. intros ->. congruence.
      * rewrite lookup_insert_ne by done. eauto.
    + intros r [Hr Hno]. split; [rewrite !dom_insert; set_solver|]. intros p k j Hp Hk.
      destruct (Hchild _ _ _ _ Hp Hk) as [(_ & _ & ->)|(_ & k0 & H1 & H2)]; [apply elem_of_dom in Hr as [? ?]; congruence|by eapply Hno].
    + eexists. rewrite lookup_insert_ne, lookup_insert_eq by done. split; [done|]. by rewrite lookup_insert_eq.
Qed.

Lemma ZeroLM_contract :
  lm_contract ZeroLM (fun _ => True) heap_ok zero_means (fun _ _ => True) (fun _ _ => f_zero) (fun _ => f_zero).
Proof.
  split; cbn; unfold lmheap.
  - intros w s h h' Hw. by apply zero_means_fun.
  - intros w Hw. set (f := fresh (dom w)). assert (Hf : w !! f = None) by (apply not_elem_of_dom, is_fresh).
    assert (Hlook : forall p k j x, <[f := ∅]> w !! p = Some k -> k !! j = Some x -> w !! p = Some k).
    { intros p k j x. destruct (decide (p = f)) as [->|Hne]; [|by rewrite lookup_insert_ne by done].
      rewrite lookup_insert_eq. intros [= <-] Hk. by rewrite lookup_empty in Hk. }
    assert (Hroot : is_root (<[f := ∅]> w) f).
    { split; [rewrite dom_insert; set_solver|]. intros p m n Hp Hm. pose proof (Hlook _ _ _ _ Hp Hm) as Hp'.
      apply (ho_alloc _ Hw _ _ _ _ Hp'), elem_of_dom in Hm as [? ?]. congruence. }
    eexists _, _. split; [done|]. split; [|split; [by exists f|done]]. split.
    + intros p m n c Hp Hm. rewrite dom_insert, elem_of_union. right. eapply ho_alloc; [done|by eapply Hlook|done].
    + intros p q m m' n n' c Hp Hm Hq Hm'. eapply ho_parent; [done|by eapply Hlook|done|by eapply Hlook|done].
  - intros w s h n Hw _ Hs _. pose proof Hs as (r & Hr & Hd). destruct (child s n w) as [c w'] eqn:Ec.
    destruct (child_grows w s n c w' Hw) as (Hw' & Hg & m & Em & En); [|done|].
    { by eapply descend_dom; [|apply (proj1 Hr)|]. }
    eexists _, _. split; [done|]. split; [done|]. split; [|split; [|done]]; [|intros; by eapply grows_means].
    destruct (grows_means _ _ _ _ Hg Hs) as (r' & Hr' & Hd'). exists r'. split; [done|]. rewrite descend_snoc, Hd'. cbn. rewrite Em. done.
  - intros w s h Hw _ Hs. eexists _, _. split; [done|]. split_and!; done.
  - intros w l Hw Hl. eexists. split; [done|]. split_and!; done.
Qed.

(** * Candidates *)

Class DecoderState (S : Type) := {
  score : S -> f64;
  set_score : f64 -> S -> S;
  parent : S -> option ptr;
  set_parent : option ptr -> S -> S;
  lmState : S -> lmptr;
  token : S -> Z;
  amScore : S -> f64;
  lmScore : S -> f64;
  getWord : S -> Z;
  compareNoScoreStates : S -> S -> Z
}.

Definition kNegativeInfinity : f64 := f_neg_inf.
Definition kLookBackLimit : nat := 100.

Section Candidates.
Context {S : Type} `{DecoderState S}.

(** [candidatesBestScore_] and [candidates_]. *)
Record cands := Cands { candidatesBestScore : f64; candidates : list S }.

Definition candidatesReset : cands := Cands kNegativeInfinity [].

(** [mk] builds the candidate from its score ([emplace_back(score, args...)]). *)
Definition candidatesAdd (beamThreshold sc : f64) (mk : f64 -> S) (c : cands) : cands :=
  let best := if fge sc (candidatesBestScore c) then sc else candidatesBestScore c in
  if fge sc (f64_sub best beamThreshold) then Cands best (candidates c ++ [mk sc])
  else Cands best (candidates c).

Context (exp log1p : f64 -> f64).
Context {alg : StdAlgo}.

(** The order of step 2: equal states are adjacent, best score first. *)
Definition mergeOrder (a b : S) : bool :=
  let cmp := compareNoScoreStates a b in
  if cmp =? 0 then fgt (score a) (score b) else 0 <? cmp.

(** The score of two merged candidates. *)
Definition mergeScore (logAdd : bool) (a b : f64) : f64 :=
  let maxScore := fmax a b in
  if logAdd then
    let minScore := fmin a b in
    f64_add maxScore (log1p (exp (f64_sub minScore maxScore)))
  else maxScore.

(** The loop of step 2; [last] is [candidatePtrs[nHypAfterMerging - 1]]. *)
Fixpoint mergeLoop (logAdd : bool) (last : S) (rest : list S) : list S :=
  match rest with
  | [] => [last]
  | c :: r =>
      if negb (compareNoScoreStates c last =? 0) then last :: mergeLoop logAdd c r
      else mergeLoop logAdd (set_score (mergeScore logAdd (score last) (score c)) last) r
  end.

Definition compareNodeScore (a b : S) : bool := fgt (score a) (score b).

(** [candidatesStore]: the new contents of [outputs].  With no valid candidate
    the code resizes the pointer array to one null pointer and reads it. *)
Definition candidatesStore (cs : list S) (beamSize : Z) (threshold : f64) (logAdd returnSorted : bool)
    : result (list S) :=
  match cs with
  | [] => Ok []
  | _ =>
      let valid := filter (fun c => fge (score c) threshold = true) cs in
      match std_sort mergeOrder valid with
      | [] => if 0 <? beamSize then Throw Undefined
              else if beamSize <? 0 then Throw Undefined else Ok []
      | first :: rest =>
          let merged := mergeLoop logAdd first rest in
          let nValidHyp := zlen merged in
          let finalSize := Z.min nValidHyp beamSize in
          if finalSize <? 0 then Throw Undefined
          else
            let ptrs :=
              if negb returnSorted && (beamSize <? nValidHyp)
              then std_nth_element compareNodeScore (Z.to_nat finalSize) merged
              else if returnSorted
              then std_partial_sort compareNodeScore (Z.to_nat finalSize) merged
              else merged in
            Ok (take (Z.to_nat finalSize) ptrs)
      end
  end.
End Candidates.
Arguments cands S : clear implicits.

(** * The buffer of hypotheses *)

Section Buffer.
Context {S : Type} `{DecoderState S}.

(** [std::unordered_map<int, std::vector<DecoderState>> hyp_]. *)
Record hyps := Hyps {
  frames : gmap Z nat;            (* the vector of a frame *)
  store : gmap nat (list S);      (* the contents of a vector *)
  nextVec : nat                   (* the next unused identity *)
}.

Definition hyps_empty : hyps := Hyps ∅ ∅ 0.

(** [hyp_.emplace(i, std::vector<DecoderState>())] *)
Definition emplace (i : Z) (h : hyps) : hyps :=
  match frames h !! i with
  | Some _ => h
  | None => Hyps (<[i := nextVec h]> (frames h)) (<[nextVec h := []]> (store h)) (nextVec h + 1)%nat
  end.

(** The vector [hyp_.find(i)->second], undefined for a missing key. *)
Definition vec (i : Z) (h : hyps) : result nat :=
  match frames h !! i with Some v => Ok v | None => Throw Undefined end.

Definition frame_at (i : Z) (h : hyps) : list S :=
  default [] (v ← frames h !! i; store h !! v).

(** Assignment of the contents of [hyp_[i]], which creates a missing entry. *)
Definition set_frame (i : Z) (l : list S) (h : hyps) : hyps :=
  let h := emplace i h in
  match frames h !! i with
  | Some v => Hyps (frames h) (<[v := l]> (store h)) (nextVec h)
  | None => h
  end.

(** [hyp_[i].swap(hyp_[j])] *)
Definition swap_frames (i j : Z) (h : hyps) : hyps :=
  let h := emplace j (emplace i h) in
  match frames h !! i, frames h !! j with
  | Some v, Some w => Hyps (<[i := w]> (<[j := v]> (frames h))) (store h) (nextVec h)
  | _, _ => h
  end.

(** Reading through a pointer. *)
Definition deref (h : hyps) (p : ptr) : option S := l ← store h !! p.1; l !! p.2.

(** The elements of [hyp_[i]] with their addresses. *)
Definition addressed (i : Z) (h : hyps) : list (ptr * S) :=
  match frames h !! i with
  | None => []
  | Some v => imap (fun j x => ((v, j), x)) (default [] (store h !! v))
  end.

(** [for (i = hyp_.size(); i < n; i++) hyp_.emplace(i, ...)] *)
Definition extend (n : Z) (h : hyps) : hyps :=
  if Z.of_nat (size (frames h)) <? n then
    fold_left (fun h i => emplace i h) (zrange (Z.of_nat (size (frames h))) n) h
  else h.

(** ** Results *)

Record DecodeResult := DResult {
  r_score : f64; r_amScore : f64; r_lmScore : f64; words : list Z; tokens : list Z
}.

(** [DecodeResult(length)]; the constructor leaves [amScore] and [lmScore]
    uninitialised, which is NaN here. *)
Definition newResult (length : nat) : DecodeResult :=
  DResult f_zero S754_nan S754_nan (replicate length (-1)) (replicate length (-1)).

(** The loop of [getHypothesis], writing at [room - 1], [room - 2], ...; a write
    before the first element is undefined. *)
Fixpoint backtrack (h : hyps) (room : nat) (node : option S) (ws ts : list Z)
    : result (list Z * list Z) :=
  match node with
  | None => Ok (ws, ts)
  | Some x =>
      match room with
      | O => Throw Undefined
      | Datatypes.S i =>
          backtrack h i (p ← parent x; deref h p) (<[i := getWord x]> ws) (<[i := token x]> ts)
      end
  end.

Definition getHypothesis (h : hyps) (node : option S) (finalFrame : Z) : result DecodeResult :=
  match node with
  | None => Ok (newResult 0)
  | Some x =>
      let res := newResult (Z.to_nat (finalFrame + 1)) in
      match backtrack h (Z.to_nat (finalFrame + 1)) node (words res) (tokens res) with
      | Throw e => Throw e
      | Ok (ws, ts) => Ok (DResult (score x) (amScore x) (lmScore x) ws ts)
      end
  end.

Definition getAllHypothesis (h : hyps) (finalHyps : list S) (finalFrame : Z) : result (list DecodeResult) :=
  mapM_result (fun x => getHypothesis h (Some x) finalFrame) finalHyps.

(** The best scoring final hypothesis, the first one on ties. *)
Definition bestNode (finalHyps : list S) : option S :=
  match finalHyps with
  | [] => None
  | x :: r => Some (fold_left (fun b y => if fgt (score y) (score b) then y else b) r x)
  end.

(** [while (bestNode && n < lookBack)] *)
Fixpoint stepBack (h : hyps) (k : nat) (n : Z) (node : option S) : option S * Z :=
  match k, node with
  | Datatypes.S k, Some x => stepBack h k (n + 1) (p ← parent x; deref h p)
  | _, _ => (node, n)
  end.

(** The second loop: on to the first complete hypothesis, at most
    [kLookBackLimit] frames further ([fuel] of them are left). *)
Fixpoint lookComplete (isComplete : hyps -> S -> bool) (h : hyps) (fuel : nat) (n : Z) (node : option S)
    : option S * Z :=
  match node with
  | None => (None, n)
  | Some x =>
      if isComplete h x then (node, n)
      else let node := p ← parent x; deref h p in
           match fuel with
           | O | 1%nat => (node, n + 1)
           | Datatypes.S f => lookComplete isComplete h f (n + 1) node
           end
  end.

(** [findBestAncestor(finalHyps, lookBack)] for a non-negative [lookBack]; the
    second component is the new value of [lookBack]. *)
Definition findBestAncestor (isComplete : hyps -> S -> bool) (h : hyps) (finalHyps : list S) (lookBack : Z)
    : option S * Z :=
  match bestNode finalHyps with
  | None => (None, lookBack)
  | node =>
      let '(node, n) := stepBack h (Z.to_nat lookBack) 0 node in
      lookComplete isComplete h kLookBackLimit n node
  end.

(** [pruneAndNormalize]; the callers' frames [startFrame + i] for [i <= lookBack]
    are in the buffer, so the loop does not change its size.  Reading [front()] of
    an empty frame is undefined. *)
Definition pruneAndNormalize (startFrame lookBack : Z) (h : hyps) : result hyps :=
  let h := fold_left (fun h i => if i <=? lookBack then swap_frames i (i + startFrame) h
                                 else set_frame i [] h)
             (zrange 0 (Z.of_nat (size (frames h)))) h in
  let h := set_frame 0 (set_parent None <$> frame_at 0 h) h in
  match frame_at lookBack h with
  | [] => Throw Undefined
  | x :: r =>
      let largestScore := fold_left (fun m y => if flt m (score y) then score y else m) r (score x) in
      Ok (set_frame lookBack ((fun y => set_score (f64_sub (score y) largestScore) y) <$> (x :: r)) h)
  end.

(** [updateLMCache] *)
Definition updateLMCache {W} (lm : LM W) (hypothesis : list S) (w : W) : result W :=
  lm_updateCache lm (lmState <$> hypothesis) w.
End Buffer.
Arguments hyps S : clear implicits.
