(* ===== verification/DecoderBeam.v ===== *)
(** The candidate selection of the decoders is a beam: [candidatesStore] keeps
    one best candidate per state and, among those, the best [beamSize]. *)
From Stdlib Require Import Floats.SpecFloat.
From S2P Require Import Prelude Float StdAlgorithm DecoderUtils.

Open Scope Z_scope.

(** Lexicographic comparison, the shape of every [compareNoScoreStates]. *)
Fixpoint lexcmp (l m : list Z) : Z :=
  match l, m with
  | [], [] => 0
  | [], _ :: _ => -1
  | _ :: _, [] => 1
  | a :: l, b :: m => if a =? b then lexcmp l m else if b <? a then 1 else -1
  end.

Lemma lexcmp_eq l m : lexcmp l m = 0 <-> l = m.
Proof.
  revert m. induction l as [|a l IH]; intros [|b m]; cbn; try (split; (done || lia)).
  destruct (Z.eqb_spec a b) as [->|]; [rewrite IH; naive_solver|]. split; [destruct (b <? a); lia|naive_solver].
Qed.

Lemma lexcmp_refl l : lexcmp l l = 0.
Proof. by apply lexcmp_eq. Qed.

Lemma lexcmp_opp l m : lexcmp m l = - lexcmp l m.
Proof.
  revert m. induction l as [|a l IH]; intros [|b m]; cbn; try done.
  destruct (Z.eqb_spec a b), (Z.eqb_spec b a); try lia; [apply IH|].
  destruct (Z.ltb_spec b a), (Z.ltb_spec a b); lia.
Qed.

Lemma lexcmp_trans l m k : 0 < lexcmp l m -> 0 < lexcmp m k -> 0 < lexcmp l k.
Proof.
  revert m k. induction l as [|a l IH]; intros [|b m] [|c k]; cbn; try lia.
  destruct (Z.eqb_spec a b) as [->|].
  - destruct (Z.eqb_spec b c) as [->|]; [apply IH|done].
  - destruct (Z.ltb_spec b a); [|lia]. intros _.
    destruct (Z.eqb_spec b c) as [->|], (Z.eqb_spec a c), (Z.ltb_spec c a); try lia;
      destruct (Z.ltb_spec c b); lia.
Qed.

Lemma NoDup_fmap_inj_on {A B} (f : A -> B) (l : list A) x y :
  NoDup (f <$> l) -> x ∈ l -> y ∈ l -> f x = f y -> x = y.
Proof.
  intros Hnd [i Hi]%list_elem_of_lookup_1 [j Hj]%list_elem_of_lookup_1 E.
  assert (i = j) as ->; [|congruence].
  apply (NoDup_lookup _ i j (f x) Hnd).
  - by rewrite list_lookup_fmap, Hi.
  - by rewrite list_lookup_fmap, Hj, E.
Qed.

(** The laws the selection relies on. *)
Class DecoderStateLaws (S : Type) `{DecoderState S} := {
  key : S -> list Z;
  compare_key : forall x y, compareNoScoreStates x y = lexcmp (key x) (key y);
  key_set_score : forall z x, key (set_score z x) = key x;
  score_set_score : forall z x, score (set_score z x) = z;
  set_score_id : forall x, set_score (score x) x = x
}.

Section Beam.
Context {S : Type} `{DecoderStateLaws S} {alg : StdAlgo} `{!StdAlgoLaws alg}.
Context (exp log1p : f64 -> f64).

Definition no_nan (l : list S) : Prop := forall x, x ∈ l -> is_nan (score x) = false.

Lemma mergeOrder_key a b :
  mergeOrder a b = if lexcmp (key a) (key b) =? 0 then flt (score b) (score a) else 0 <? lexcmp (key a) (key b).
Proof. unfold mergeOrder. rewrite compare_key. done. Qed.

Lemma mergeOrder_spec a b :
  mergeOrder a b = true <-> 0 < lexcmp (key a) (key b) \/ (key a = key b /\ flt (score b) (score a) = true).
Proof.
  rewrite mergeOrder_key. destruct (Z.eqb_spec (lexcmp (key a) (key b)) 0) as [E|E].
  - rewrite E. apply lexcmp_eq in E. split; [by right|intros [?|[_ ?]]; [lia|done]].
  - rewrite Z.ltb_lt. split; [by left|]. intros [?|[Ek _]]; [done|]. by apply lexcmp_eq in Ek.
Qed.

Lemma mergeOrder_strict l : no_nan l -> strict_weak mergeOrder l.
Proof.
  intros Hn. split.
  - intros a Ha. apply not_true_is_false. rewrite mergeOrder_spec, lexcmp_refl.
    intros [?|[_ E]]; [lia|]. rewrite flt_irrefl in E; auto. congruence.
  - intros a b c Ha Hb Hc. rewrite !mergeOrder_spec. intros [H1|[E1 H1]] [H2|[E2 H2]].
    + left. by eapply lexcmp_trans.
    + left. by rewrite <- E2.
    + left. by rewrite E1.
    + right. split; [congruence|]. eapply flt_trans; [..|exact H2|exact H1]; auto.
  - intros a b c Ha Hb Hc. rewrite <- !not_true_iff_false, !mergeOrder_spec. intros H1 H2 [H3|[E3 H3]].
    + destruct (Z.lt_trichotomy (lexcmp (key a) (key b)) 0) as [L|[E|G]]; [|apply lexcmp_eq in E|tauto].
      * apply H2. left. eapply lexcmp_trans; [|exact H3]. rewrite lexcmp_opp. lia.
      * apply H2. left. by rewrite <- E.
    + destruct (Z.lt_trichotomy (lexcmp (key a) (key b)) 0) as [L|[E|G]]; [|apply lexcmp_eq in E|tauto].
      * apply H2. left. rewrite <- E3, lexcmp_opp. lia.
      * destruct (flt (score b) (score a)) eqn:F1; [tauto|].
        apply H2. right. split; [congruence|].
        eapply flt_fle_trans; [| | |exact H3|]; auto. rewrite fle_flt by auto. by rewrite F1.
Qed.

Lemma compareNodeScore_strict l : no_nan l -> strict_weak compareNodeScore l.
Proof.
  intros Hn. unfold compareNodeScore, fgt. fold flt. split.
  - intros a Ha. apply flt_irrefl. auto.
  - intros a b c Ha Hb Hc H1 H2. by eapply flt_trans; [..|exact H2|exact H1]; auto.
  - intros a b c Ha Hb Hc H1 H2. change SFltb with flt in *.
    apply negb_true_iff. apply negb_true_iff in H1, H2. rewrite <- fle_flt in * by auto.
    eapply fle_trans; [..|exact H1|exact H2]; auto.
Qed.

(** ** Merging a sorted list keeps the first of every run *)

Fixpoint firsts (last : S) (rest : list S) : list S :=
  match rest with
  | [] => [last]
  | c :: r => if decide (key c = key last) then firsts last r else last :: firsts c r
  end.

Lemma mergeLoop_firsts last rest :
  sorted mergeOrder (last :: rest) -> mergeLoop exp log1p false last rest = firsts last rest.
Proof.
  revert last. induction rest as [|c r IH]; intros last Hs; cbn; [done|].
  inversion Hs as [|? ? Hs' Hl]; subst. inversion Hs' as [|? ? Hr Hc]; subst. inversion Hl as [|? ? Hlc Hlr]; subst.
  rewrite compare_key. destruct (decide (key c = key last)) as [E|E].
  - rewrite E, lexcmp_refl. cbn.
    assert (Hm : fmax (score last) (score c) = score last).
    { rewrite mergeOrder_key, E, lexcmp_refl in Hlc. cbn in Hlc. unfold fmax. by rewrite Hlc. }
    rewrite Hm, set_score_id. apply IH. by constructor.
  - rewrite (proj2 (Z.eqb_neq _ _)) by (by rewrite lexcmp_eq). cbn. f_equal. by apply IH.
Qed.

Lemma firsts_sub last rest o : o ∈ firsts last rest -> o ∈ last :: rest.
Proof.
  revert last. induction rest as [|c r IH]; intros last; cbn; [done|].
  destruct (decide _); [intros Ho%IH; set_solver|]. intros [->|Ho%IH]%elem_of_cons; set_solver.
Qed.

(** Later elements of a sorted list have smaller keys, or the same key and no
    better score. *)
Lemma sorted_key last rest x :
  sorted mergeOrder (last :: rest) -> x ∈ rest ->
  lexcmp (key x) (key last) < 0 \/ (key x = key last /\ flt (score last) (score x) = false).
Proof.
  intros Hs Hx. inversion Hs as [|? ? _ Hl]; subst. rewrite Forall_forall in Hl. specialize (Hl x Hx).
  rewrite mergeOrder_key in Hl. destruct (Z.eqb_spec (lexcmp (key x) (key last)) 0) as [E|E].
  - apply lexcmp_eq in E. auto.
  - left. apply Z.ltb_ge in Hl. lia.
Qed.

Lemma sorted_skip last c r : sorted mergeOrder (last :: c :: r) -> sorted mergeOrder (last :: r).
Proof.
  intros Hs. inversion Hs as [|? ? Hs' Hl]; subst. inversion Hs'; subst. inversion Hl; subst. by constructor.
Qed.

Lemma firsts_cover last rest x :
  no_nan (last :: rest) -> sorted mergeOrder (last :: rest) -> x ∈ last :: rest ->
  exists o, o ∈ firsts last rest /\ key o = key x /\ fle (score x) (score o) = true.
Proof.
  revert last x. induction rest as [|c r IH]; intros last x Hn Hs Hx; cbn.
  - apply list_elem_of_singleton in Hx as ->. exists last. split_and!; [by left|done|].
    apply fle_refl, Hn. by left.
  - assert (Hn' : no_nan (last :: r)) by (intros y Hy; apply Hn; set_solver).
    destruct (decide (key c = key last)) as [E|E].
    + apply elem_of_cons in Hx as [->|[->|Hx]%elem_of_cons];
        [apply IH; [done|by eapply sorted_skip|by left]| |apply IH; [done|by eapply sorted_skip|by right]].
      destruct (IH last last Hn') as (o & Ho & Hk & Hle); [by eapply sorted_skip|by left|].
      exists o. split_and!; [done|congruence|].
      destruct (sorted_key last (c :: r) c Hs) as [Hlt|[_ Hf]]; [by left|rewrite E, lexcmp_refl in Hlt; lia|].
      assert (Hol : o ∈ last :: r) by (by apply firsts_sub).
      eapply fle_trans; [..|exact Hle]; try (apply Hn; set_solver).
      rewrite fle_flt by (apply Hn; set_solver). by rewrite Hf.
    + apply elem_of_cons in Hx as [->|Hx].
      * exists last. split_and!; [by left|done|]. apply fle_refl, Hn. by left.
      * destruct (IH c x) as (o & Ho & Hk & Hle).
        { intros y Hy. apply Hn. by right. }
        { by inversion Hs. }
        { done. }
        exists o. split_and!; [by right|done|done].
Qed.

Lemma firsts_nodup last rest : sorted mergeOrder (last :: rest) -> NoDup (key <$> firsts last rest).
Proof.
  revert last. induction rest as [|c r IH]; intros last Hs; cbn; [apply NoDup_singleton|].
  destruct (decide (key c = key last)) as [E|E]; [apply IH; by eapply sorted_skip|].
  assert (Hs' : sorted mergeOrder (c :: r)) by (by inversion Hs).
  cbn. constructor; [|by apply IH].
  intros (o & Ho & Hin)%list_elem_of_fmap. apply firsts_sub in Hin.
  assert (L : forall y, y ∈ c :: r -> lexcmp (key y) (key last) < 0).
  { destruct (sorted_key last (c :: r) c Hs) as [Lc|[? _]]; [by left| |done].
    intros y [->|Hy]%elem_of_cons; [done|].
    destruct (sorted_key c r y Hs' Hy) as [Ly|[Ey _]]; [|by rewrite Ey].
    rewrite lexcmp_opp in Lc, Ly |- *.
    enough (0 < lexcmp (key last) (key y)) by lia. apply lexcmp_trans with (key c); lia. }
  specialize (L o Hin). rewrite <- Ho, lexcmp_refl in L. lia.
Qed.

(** ** The beam *)

(** [out] is a best beam of [beamSize] states out of [valid]. *)
Record beam (valid : list S) (beamSize : Z) (returnSorted : bool) (out : list S) : Prop := {
  beam_best : forall o, o ∈ out ->
    o ∈ valid /\ forall c, c ∈ valid -> key c = key o -> fle (score c) (score o) = true;
  beam_distinct : NoDup (key <$> out);
  beam_size : zlen out <= beamSize;
  beam_complete : forall c, c ∈ valid ->
    (exists o, o ∈ out /\ key o = key c)
    \/ (zlen out = beamSize /\ forall o, o ∈ out -> fle (score c) (score o) = true);
  beam_sorted : returnSorted = true -> sorted compareNodeScore out
}.

(** Selecting the first [n] of a rearrangement of the merged candidates. *)
Lemma beam_take valid merged ptrs beamSize rs n :
  no_nan valid -> (forall o, o ∈ merged -> o ∈ valid) -> NoDup (key <$> merged) ->
  (forall x, x ∈ valid -> exists o, o ∈ merged /\ key o = key x /\ fle (score x) (score o) = true) ->
  ptrs ≡ₚ merged -> n = Z.to_nat (Z.min (zlen merged) beamSize) -> 0 <= beamSize ->
  before compareNodeScore (take n ptrs) (drop n ptrs) ->
  (rs = true -> sorted compareNodeScore (take n ptrs)) ->
  beam valid beamSize rs (take n ptrs).
Proof.
  intros Hn Hsub Hnd Hcov Hp Hnn Hbs Hbef Hsort.
  assert (Hin : forall o, o ∈ take n ptrs -> o ∈ merged).
  { intros o Ho. rewrite <- Hp. eapply subseteq_take, Ho. }
  assert (Hlen : length ptrs = length merged) by (by rewrite Hp).
  assert (Htl : zlen (take n ptrs) = Z.min (zlen merged) beamSize).
  { unfold zlen in *. rewrite length_take, Hlen. lia. }
  assert (Hnd' : NoDup (key <$> ptrs)) by (by rewrite Hp).
  split; [| |lia| |done].
  - intros o Ho. split; [auto|]. intros c Hc Hk.
    destruct (Hcov c Hc) as (o' & Ho' & Hk' & Hle).
    enough (o' = o) by (by subst).
    eapply (NoDup_fmap_inj_on key merged); auto. congruence.
  - rewrite <- (take_drop n ptrs), fmap_app in Hnd'. by apply NoDup_app in Hnd' as [? _].
  - intros c Hc. destruct (Hcov c Hc) as (m & Hm & Hk & Hle).
    assert (Hm' : m ∈ take n ptrs ++ drop n ptrs) by (by rewrite take_drop, Hp).
    apply elem_of_app in Hm' as [Ht|Hd]; [left; eauto|right].
    assert (Hne : drop n ptrs <> []) by (intros E; rewrite E in Hd; by apply elem_of_nil in Hd).
    assert (n < length ptrs)%nat.
    { destruct (decide (n < length ptrs)%nat); [done|]. rewrite drop_ge in Hne by lia. done. }
    split; [unfold zlen in *; lia|]. intros o Ho. specialize (Hbef o m Ho Hd).
    unfold compareNodeScore, fgt in Hbef. change SFltb with flt in Hbef.
    assert (is_nan (score o) = false) by auto. assert (is_nan (score m) = false) by auto.
    eapply fle_trans; [..|exact Hle|]; auto. rewrite fle_flt by auto. by rewrite Hbef.
Qed.

Lemma candidatesStore_aux cs beamSize threshold rs :
  let valid := filter (fun c => fge (score c) threshold = true) cs in
  no_nan cs -> 0 <= beamSize -> (cs <> [] -> valid <> []) ->
  exists out, candidatesStore exp log1p cs beamSize threshold false rs = Ok out /\ beam valid beamSize rs out.
Proof.
  intros valid Hn Hbs Hv.
  assert (Hnv : no_nan valid).
  { intros x [_ Hx]%list_elem_of_filter. auto. }
  unfold candidatesStore. fold valid. destruct cs as [|c0 cs0] eqn:Ecs.
  { exists []. split; [done|]. unfold valid. split; cbn; try (intros ? ?%elem_of_nil; done).
    - constructor.
    - done.
    - intros _. constructor. }
  rewrite <- Ecs in *. specialize (Hv ltac:(congruence)).
  pose proof (mergeOrder_strict valid Hnv) as Hsw.
  pose proof (std_sort_perm mergeOrder valid Hsw) as Hp.
  pose proof (std_sort_sorted mergeOrder valid Hsw) as Hs.
  destruct (std_sort mergeOrder valid) as [|first rest].
  { apply Permutation_nil in Hp. by symmetry in Hp. }
  rewrite mergeLoop_firsts by done. set (merged := firsts first rest).
  assert (Hnf : no_nan (first :: rest)) by (intros x; rewrite Hp; apply Hnv).
  assert (Hsub : forall o, o ∈ merged -> o ∈ valid) by (intros o Ho%firsts_sub; by rewrite <- Hp).
  assert (Hcov : forall x, x ∈ valid -> exists o, o ∈ merged /\ key o = key x /\ fle (score x) (score o) = true).
  { intros x Hx. apply firsts_cover; [done|done|]. by rewrite Hp. }
  assert (Hnm : no_nan merged) by (intros x Hx; auto).
  pose proof (compareNodeScore_strict merged Hnm) as Hcs.
  pose proof (firsts_nodup first rest Hs) as Hnd. fold merged in Hnd.
  destruct (Z.ltb_spec (Z.min (zlen merged) beamSize) 0) as [?|_]; [unfold zlen in *; lia|].
  eexists. split; [reflexivity|].
  destruct rs; cbn [negb andb].
  - eapply beam_take; eauto using std_partial_perm, std_partial_before, std_partial_sorted.
  - destruct (Z.ltb_spec beamSize (zlen merged)).
    + eapply beam_take; eauto using std_nth_perm, std_nth_before; done.
    + eapply beam_take; eauto; [|done]. rewrite drop_ge by (unfold zlen in *; lia).
      intros a b _ ?%elem_of_nil. done.
Qed.

(** C11. Beam selection. On candidates without NaN scores, and with a
    candidate above the threshold when there is any, [candidatesStore]
    (merging by maximum) succeeds and yields: a best candidate of its state
    for every state it keeps; no state twice; at most [beamSize] of them;
    every state it drops is no better than all those it keeps, and is dropped
    only when the beam is full; and the result is sorted by score when asked
    for. *)
Theorem candidatesStore_beam cs beamSize threshold rs :
  let valid := filter (fun c => fge (score c) threshold = true) cs in
  no_nan cs -> 0 <= beamSize -> (cs <> [] -> valid <> []) ->
  exists out, candidatesStore exp log1p cs beamSize threshold false rs = Ok out /\ beam valid beamSize rs out.
Proof. apply candidatesStore_aux. Qed.
End Beam.
