(* ===== verification/LexiconFree.v ===== *)
(** [lib/text/decoder/LexiconFreeDecoder]: beam search over all token sequences.

    A [const float*] or a vector read without a bounds check is a list;
    [emissions[t * N + n]] is [array_at emissions (t * N + n)], undefined when the
    index leaves the array or overflows [int]. *)
From Stdlib Require Import Floats.SpecFloat.
From S2P Require Import Prelude Float StdAlgorithm DecoderUtils DecoderBeam.

Open Scope Z_scope.

Record LexiconFreeDecoderOptions := LFOptions {
  beamSize : Z; beamSizeToken : Z; beamThreshold : f64; lmWeight : f64; silScore : f64;
  logAdd : bool; criterionType : CriterionType
}.

Record LexiconFreeDecoderState := LFState {
  s_score : f64; s_lmState : lmptr; s_parent : option ptr; s_token : Z; s_prevBlank : bool;
  s_amScore : f64; s_lmScore : f64
}.

(** [compareNoScoreStates] *)
Definition lf_compare (a b : LexiconFreeDecoderState) : Z :=
  let lmCmp := lm_compare (s_lmState a) (s_lmState b) in
  if negb (lmCmp =? 0) then (if 0 <? lmCmp then 1 else -1)
  else if negb (s_token a =? s_token b) then (if s_token b <? s_token a then 1 else -1)
  else if negb (eqb (s_prevBlank a) (s_prevBlank b))
       then (if s_prevBlank a && negb (s_prevBlank b) then 1 else -1)
  else 0.

#[export] Instance LexiconFree_DecoderState : DecoderState LexiconFreeDecoderState := {
  score := s_score;
  set_score z x := LFState z (s_lmState x) (s_parent x) (s_token x) (s_prevBlank x) (s_amScore x) (s_lmScore x);
  parent := s_parent;
  set_parent p x := LFState (s_score x) (s_lmState x) p (s_token x) (s_prevBlank x) (s_amScore x) (s_lmScore x);
  lmState := s_lmState;
  token := s_token;
  amScore := s_amScore;
  lmScore := s_lmScore;
  getWord _ := -1;
  compareNoScoreStates := lf_compare
}.

(** [isComplete] *)
Definition lf_isComplete (h : hyps LexiconFreeDecoderState) (x : LexiconFreeDecoderState) : bool := true.

#[export] Instance LexiconFree_laws : DecoderStateLaws LexiconFreeDecoderState.
Proof.
  refine {| key x := [Z.pos (s_lmState x); s_token x; Z.b2z (s_prevBlank x)] |}; try done.
  - intros [score0 a parent0 ta pa amScore0 lmScore0] [score1 b parent1 tb pb amScore1 lmScore1].
    change (lf_compare (LFState score0 a parent0 ta pa amScore0 lmScore0) (LFState score1 b parent1 tb pb amScore1 lmScore1)
      = lexcmp [Z.pos a; ta; Z.b2z pa] [Z.pos b; tb; Z.b2z pb]).
    unfold lf_compare, lm_compare. cbn [s_lmState s_token s_prevBlank lexcmp].
    destruct (bool_decide_reflect (a = b)) as [->|Hne].
    + rewrite !Z.eqb_refl. cbn [negb]. destruct (Z.eqb_spec ta tb); cbn [negb]; [by destruct pa, pb|done].
    + rewrite (proj2 (Z.eqb_neq (Z.pos a) (Z.pos b))) by congruence.
      destruct (Z.ltb_spec (Z.pos a) (Z.pos b)), (Z.ltb_spec (Z.pos b) (Z.pos a)); try done; lia.
  - by intros [].
Defined.

(** * The decoder *)

Section LexiconFreeDecoder.
Context {W : Type} (lm_ : LM W) (exp log1p : f64 -> f64) {alg : StdAlgo}.
Context (opt_ : LexiconFreeDecoderOptions) (transitions_ : list f32) (sil_ blank_ : Z).

Abbreviation St := LexiconFreeDecoderState.

(** The members that change; [lmw] is the state of the language model. *)
Record lfd := LFD { hyp_ : hyps St; nDecodedFrames_ : Z; nPrunedFrames_ : Z; lmw : W }.

Definition decodeBegin (d : lfd) : result lfd :=
  '(s, w) ← lm_start lm_ false (lmw d);
  Ok (LFD (set_frame 0 [LFState f_zero s None sil_ false f_zero f_zero] (emplace 0 hyps_empty)) 0 0 w).

(** The tokens considered at a frame: the [beamSizeToken] best emissions. *)
Definition tokenOrder (emissions : list f32) (t N : Z) : result (list Z) := frameOrder (beamSizeToken opt_) emissions t N.

Definition tokensAt (emissions : list f32) (t N : Z) : result (list Z) :=
  idx ← tokenOrder emissions t N;
  Ok (take (Z.to_nat (Z.min (beamSizeToken opt_) N)) idx).

(** The body of the loop over tokens. *)
Definition proposeToken (nDecoded : Z) (emissions : list f32) (t N : Z) (prev : ptr * St)
    (acc : cands St * W) (n : Z) : result (cands St * W) :=
  let '(prevPtr, prevHyp) := prev in
  let '(c, w) := acc in
  let prevIdx := s_token prevHyp in
  e ← array_at emissions (t * N + n);
  let e := widen e in
  amSc ← (if (0 <? nDecoded + t) && bool_decide (criterionType opt_ = ASG)
          then tr ← array_at transitions_ (n * N + prevIdx); Ok (f64_add e (widen tr)) else Ok e);
  let sc := f64_add (s_score prevHyp) e in
  let sc := if n =? sil_ then f64_add sc (silScore opt_) else sc in
  if (bool_decide (criterionType opt_ = ASG) && negb (n =? prevIdx))
     || (bool_decide (criterionType opt_ = CTC) && negb (n =? blank_)
         && (negb (n =? prevIdx) || s_prevBlank prevHyp))
  then
    '(ls, lmSc, w) ← lm_score lm_ (s_lmState prevHyp) n w;
    Ok (candidatesAdd (beamThreshold opt_) (f64_add sc (f64_mul (lmWeight opt_) (widen lmSc)))
       (fun z => LFState z ls (Some prevPtr) n false (f64_add (s_amScore prevHyp) amSc)
                   (f64_add (s_lmScore prevHyp) (widen lmSc))) c, w)
  else if bool_decide (criterionType opt_ = CTC) && (n =? blank_) then
    Ok (candidatesAdd (beamThreshold opt_) sc
       (fun z => LFState z (s_lmState prevHyp) (Some prevPtr) n true (f64_add (s_amScore prevHyp) amSc)
                   (s_lmScore prevHyp)) c, w)
  else
    Ok (candidatesAdd (beamThreshold opt_) sc
       (fun z => LFState z (s_lmState prevHyp) (Some prevPtr) n false (f64_add (s_amScore prevHyp) amSc)
                   (s_lmScore prevHyp)) c, w).

Definition proposeHyp (nDecoded : Z) (emissions : list f32) (t N : Z) (toks : list Z) (acc : cands St * W) (prev : ptr * St)
    : result (cands St * W) :=
  foldM_result (proposeToken nDecoded emissions t N prev) acc toks.

(** The candidates of one frame. *)
Definition propose (nDecoded : Z) (emissions : list f32) (t N : Z) (prevs : list (ptr * St)) (w : W)
    : result (cands St * W) :=
  toks ← tokensAt emissions t N;
  foldM_result (proposeHyp nDecoded emissions t N toks) (candidatesReset, w) prevs.

(** One iteration of the loop over frames. *)
Definition decodeFrame (nDecoded startFrame : Z) (emissions : list f32) (N : Z) (hw : hyps St * W) (t : Z)
    : result (hyps St * W) :=
  let '(h, w) := hw in
  '(c, w) ← propose nDecoded emissions t N (addressed (startFrame + t) h) w;
  match candidatesStore exp log1p (candidates c) (beamSize opt_)
          (f64_sub (candidatesBestScore c) (beamThreshold opt_)) (logAdd opt_) false with
  | Throw e => Throw e
  | Ok out => w ← updateLMCache lm_ out w; Ok (set_frame (startFrame + t + 1) out h, w)
  end.

(** [std::vector<size_t> idx(N)] throws for a negative [N]. *)
Definition decodeStep (emissions : list f32) (T N : Z) (d : lfd) : result lfd :=
  let startFrame := nDecodedFrames_ d - nPrunedFrames_ d in
  let h := extend (startFrame + T + 2) (hyp_ d) in
  if N <? 0 then Throw LogicError
  else match foldM_result (decodeFrame (nDecodedFrames_ d) startFrame emissions N) (h, lmw d) (zrange 0 T) with
  | Throw e => Throw e
  | Ok (h, w) => Ok (LFD h (nDecodedFrames_ d + T) (nPrunedFrames_ d) w)
  end.

Definition proposeEnd (acc : cands St * W) (prev : ptr * St) : result (cands St * W) :=
  let '(prevPtr, prevHyp) := prev in
  let '(c, w) := acc in
  '(ls, lmSc, w) ← lm_finish lm_ (s_lmState prevHyp) w;
  Ok (candidatesAdd (beamThreshold opt_) (f64_add (s_score prevHyp) (f64_mul (lmWeight opt_) (widen lmSc)))
     (fun z => LFState z ls (Some prevPtr) sil_ false (s_amScore prevHyp)
                 (f64_add (s_lmScore prevHyp) (widen lmSc))) c, w).

Definition decodeEnd (d : lfd) : result lfd :=
  let finalFrame := nDecodedFrames_ d - nPrunedFrames_ d in
  '(c, w) ← foldM_result proposeEnd (candidatesReset, lmw d) (addressed finalFrame (hyp_ d));
  match candidatesStore exp log1p (candidates c) (beamSize opt_)
          (f64_sub (candidatesBestScore c) (beamThreshold opt_)) (logAdd opt_) true with
  | Throw e => Throw e
  | Ok out => Ok (LFD (set_frame (finalFrame + 1) out (hyp_ d)) (nDecodedFrames_ d + 1) (nPrunedFrames_ d) w)
  end.

Definition getAllFinalHypothesis (d : lfd) : result (list DecodeResult) :=
  let finalFrame := nDecodedFrames_ d - nPrunedFrames_ d in
  match vec finalFrame (hyp_ d) with
  | Throw e => Throw e
  | Ok _ => getAllHypothesis (hyp_ d) (frame_at finalFrame (hyp_ d)) finalFrame
  end.

Definition getBestHypothesis (lookBack : Z) (d : lfd) : result DecodeResult :=
  let finalFrame := nDecodedFrames_ d - nPrunedFrames_ d in
  match vec finalFrame (hyp_ d) with
  | Throw e => Throw e
  | Ok _ =>
      let '(node, lookBack) := findBestAncestor lf_isComplete (hyp_ d) (frame_at finalFrame (hyp_ d)) lookBack in
      getHypothesis (hyp_ d) node (nDecodedFrames_ d - nPrunedFrames_ d - lookBack)
  end.

Definition nHypothesis (d : lfd) : Z := zlen (frame_at (nDecodedFrames_ d - nPrunedFrames_ d) (hyp_ d)).
Definition nDecodedFramesInBuffer (d : lfd) : Z := nDecodedFrames_ d - nPrunedFrames_ d + 1.

Definition prune (lookBack : Z) (d : lfd) : result lfd :=
  if nDecodedFrames_ d - nPrunedFrames_ d - lookBack <? 1 then Ok d
  else
    let finalFrame := nDecodedFrames_ d - nPrunedFrames_ d in
    match vec finalFrame (hyp_ d) with
    | Throw e => Throw e
    | Ok _ =>
        let '(node, lookBack) := findBestAncestor lf_isComplete (hyp_ d) (frame_at finalFrame (hyp_ d)) lookBack in
        match node with
        | None => Ok d
        | Some _ =>
            let startFrame := nDecodedFrames_ d - nPrunedFrames_ d - lookBack in
            if startFrame <? 1 then Ok d
            else match pruneAndNormalize startFrame lookBack (hyp_ d) with
                 | Throw e => Throw e
                 | Ok h => Ok (LFD h (nDecodedFrames_ d) (nDecodedFrames_ d - lookBack) (lmw d))
                 end
        end
    end.

(** [Decoder::decode], the offline use. *)
Definition decode (emissions : list f32) (T N : Z) (d : lfd) : result (list DecodeResult) :=
  d ← decodeBegin d;
  d ← decodeStep emissions T N d;
  d ← decodeEnd d;
  getAllFinalHypothesis d.
End LexiconFreeDecoder.
