(* ===== verification/FloatRound.v ===== *)
(** Rounding in the executable IEEE arithmetic: results are in canonical form,
    and rounding does not cross a representable number.  It follows that taking
    a non-negative amount off a score never raises it. *)
From S2P Require Import Prelude Float.
From Stdlib Require Import Floats.SpecFloat.

Open Scope Z_scope.

Lemma digits2_pos_bounds m : 2 ^ (Z.pos (digits2_pos m) - 1) <= Z.pos m < 2 ^ Z.pos (digits2_pos m).
Proof.
  induction m as [m IH|m IH|]; cbn [digits2_pos]; [| |done];
    rewrite Pos2Z.inj_succ; set (d := Z.pos (digits2_pos m)) in *;
    replace (Z.succ d - 1) with (Z.succ (d - 1)) by lia;
    rewrite !Z.pow_succ_r by lia; lia.
Qed.

Lemma digits2_pos_unique m d : 2 ^ (d - 1) <= Z.pos m < 2 ^ d -> Z.pos (digits2_pos m) = d.
Proof.
  intros [H1 H2]. pose proof (digits2_pos_bounds m) as [H3 H4]. set (k := Z.pos (digits2_pos m)) in *.
  assert (0 < d). { destruct (Z_lt_le_dec 0 d); [done|]. assert (2 ^ d <= 2 ^ 0); [|lia].
    destruct (Z.eq_dec d 0) as [->|]; [done|]. rewrite Z.pow_neg_r by lia. lia. }
  apply Z.le_antisymm; apply Z.lt_succ_r; apply (Z.pow_lt_mono_r_iff 2); try lia.
  - apply Z.le_lt_trans with (2 * Z.pos m); [|rewrite Z.pow_succ_r; lia].
    replace k with (Z.succ (k - 1)) by lia. rewrite Z.pow_succ_r by lia. lia.
  - apply Z.le_lt_trans with (2 * Z.pos m); [|rewrite Z.pow_succ_r; lia].
    replace d with (Z.succ (d - 1)) by lia. rewrite Z.pow_succ_r by lia. lia.
Qed.

Lemma iter_pos_nat {A} (f : A -> A) p x : SpecFloat.iter_pos f p x = Nat.iter (Pos.to_nat p) f x.
Proof.
  revert x. induction p as [p IH|p IH|]; intros x; cbn [SpecFloat.iter_pos].
  - rewrite !IH, Pos2Nat.inj_xI. change (S (2 * Pos.to_nat p)) with (1 + 2 * Pos.to_nat p)%nat.
    replace (1 + 2 * Pos.to_nat p)%nat with (Pos.to_nat p + (Pos.to_nat p + 1))%nat by lia.
    rewrite !Nat.iter_add. done.
  - rewrite !IH, Pos2Nat.inj_xO. replace (2 * Pos.to_nat p)%nat with (Pos.to_nat p + Pos.to_nat p)%nat by lia.
    by rewrite Nat.iter_add.
  - done.
Qed.

(** One right shift, with the round and sticky bits. *)
Lemma shr_1_spec m r s :
  0 <= m -> shr_1 {| shr_m := m; shr_r := r; shr_s := s |}
            = {| shr_m := m / 2; shr_r := Z.odd m; shr_s := r || s |}.
Proof.
  intros Hm. destruct m as [|p|]; [done| |lia]. rewrite <- Z.div2_div. by destruct p.
Qed.

Lemma shr_iter m n :
  0 <= m -> exists r s, Nat.iter n shr_1 {| shr_m := m; shr_r := false; shr_s := false |}
    = {| shr_m := m / 2 ^ Z.of_nat n; shr_r := r; shr_s := s |}
    /\ (m mod 2 ^ Z.of_nat n = 0 -> r = false /\ s = false).
Proof.
  intros Hm. induction n as [|n (r & s & IH & Hx)].
  - exists false, false. cbn. by rewrite Z.div_1_r.
  - rewrite Nat.iter_succ.
    rewrite IH, shr_1_spec by (apply Z.div_pos; lia).
    exists (Z.odd (m / 2 ^ Z.of_nat n)), (r || s).
    replace (Z.of_nat (S n)) with (Z.succ (Z.of_nat n)) by lia. rewrite Z.pow_succ_r, Z.mul_comm by lia.
    rewrite Z.div_div by lia. split; [done|]. intros Hmod.
    rewrite Z.rem_mul_r in Hmod by lia.
    pose proof (Z.mod_pos_bound m (2 ^ Z.of_nat n) ltac:(lia)).
    pose proof (Z.mod_pos_bound (m / 2 ^ Z.of_nat n) 2 ltac:(lia)).
    assert (m mod 2 ^ Z.of_nat n = 0) by nia. assert ((m / 2 ^ Z.of_nat n) mod 2 = 0) by nia.
    destruct Hx as [-> ->]; [done|]. split; [|done].
    rewrite Zmod_odd in *. by destruct (Z.odd _).
Qed.

Section Round.
Context (prec emax : Z).
Hypothesis Hprec : 1 < prec < emax.

Lemma shr_exact m e n :
  0 <= m -> 0 <= n ->
  exists mrs, shr (shr_record_of_loc m loc_Exact) e n = (mrs, e + n)
    /\ m / 2 ^ n <= round_nearest_even (shr_m mrs) (loc_of_shr_record mrs) <= m / 2 ^ n + 1
    /\ (m mod 2 ^ n = 0 -> round_nearest_even (shr_m mrs) (loc_of_shr_record mrs) = m / 2 ^ n)
    /\ shr_m mrs = m / 2 ^ n.
Proof.
  intros Hm Hn. destruct n as [|p|]; [|cbn [shr]|lia].
  - exists {| shr_m := m; shr_r := false; shr_s := false |}.
    change (2 ^ 0) with 1. rewrite Z.div_1_r, Z.add_0_r. cbn [round_nearest_even loc_of_shr_record shr_m].
    split_and!; (done || lia).
  - rewrite iter_pos_nat. destruct (shr_iter m (Pos.to_nat p) Hm) as (r & s & E & Hx).
    rewrite positive_nat_Z in *. cbn [shr_record_of_loc]. rewrite E. eexists. split; [done|]. cbn [shr_m].
    split_and!; [destruct r, s; cbn; try destruct (Z.even _); lia|destruct r, s; cbn; try destruct (Z.even _); lia| |done].
    intros Hmod. by destruct (Hx Hmod) as [-> ->].
Qed.

(** The rounded result as a mantissa at exponent [E]. *)
Definition finish (s : bool) (m E : Z) : spec_float :=
  if m =? 0 then S754_zero s
  else if m =? 2 ^ prec
       then if E + 1 <=? emax - prec then S754_finite s (Z.to_pos (2 ^ (prec - 1))) (E + 1) else S754_infinity s
       else if E <=? emax - prec then S754_finite s (Z.to_pos m) E else S754_infinity s.

Abbreviation fe := (fexp prec emax).

Lemma fexp_ge e : emin prec emax <= fe e /\ e - prec <= fe e.
Proof. unfold fexp. lia. Qed.

Lemma round_aux_spec s m e :
  let E := fe (Z.pos (digits2_pos m) + e) in
  e <= E ->
  exists m1, Z.pos m / 2 ^ (E - e) <= m1 <= Z.pos m / 2 ^ (E - e) + 1
    /\ (Z.pos m mod 2 ^ (E - e) = 0 -> m1 = Z.pos m / 2 ^ (E - e))
    /\ 0 <= m1 <= 2 ^ prec /\ (emin prec emax < E -> 2 ^ (prec - 1) <= m1)
    /\ binary_round_aux prec emax s (Z.pos m) e loc_Exact = finish s m1 E
    /\ (forall mrs, shr (shr_record_of_loc (Z.pos m) loc_Exact) e (E - e) = (mrs, E) ->
          m1 = round_nearest_even (shr_m mrs) (loc_of_shr_record mrs)).
Proof.
  intros E HE. unfold binary_round_aux, shr_fexp. cbn [Zdigits2]. fold E.
  destruct (shr_exact (Z.pos m) e (E - e)) as (mrs & Hs & H1 & H2 & H3); [lia..|]. rewrite Hs.
  set (m1 := round_nearest_even _ _) in *. replace (e + (E - e)) with E by lia.
  pose proof (digits2_pos_bounds m) as [D1 D2]. set (d := Z.pos (digits2_pos m)) in *.
  destruct (fexp_ge (d + e)) as [F1 F2]. fold E in F1, F2.
  assert (Hq : Z.pos m / 2 ^ (E - e) < 2 ^ prec).
  { apply Z.div_lt_upper_bound; [apply Z.pow_pos_nonneg; lia|]. rewrite <- Z.pow_add_r by lia.
    eapply Z.lt_le_trans; [exact D2|]. apply Z.pow_le_mono_r; lia. }
  assert (Hq' : emin prec emax < E -> 2 ^ (prec - 1) <= Z.pos m / 2 ^ (E - e)).
  { intros Hlt. apply Z.div_le_lower_bound; [apply Z.pow_pos_nonneg; lia|].
    assert (E = d + e - prec) by (unfold E, fexp in *; lia).
    rewrite <- Z.pow_add_r by lia. eapply Z.le_trans; [|exact D1]. apply Z.pow_le_mono_r; lia. }
  assert (Hq0 : 0 <= Z.pos m / 2 ^ (E - e)) by (apply Z.div_pos; [lia|apply Z.pow_pos_nonneg; lia]).
  exists m1. split_and!; [lia|lia|done|lia|lia|intros; specialize (Hq' ltac:(done)); lia| |].
  2: { intros mrs' Hs'. by injection Hs' as <-. }
  unfold finish. destruct (Z.eqb_spec m1 0) as [->|Hm0].
  - cbn [Zdigits2]. assert (Hle : fe (0 + E) - E <= 0) by (unfold fexp; lia).
    destruct (fe (0 + E) - E); cbn; try done; lia.
  - assert (Hpos : 0 < m1) by lia. rewrite <- (Z2Pos.id m1 Hpos). cbn [Zdigits2].
    destruct (Z.eqb_spec m1 (2 ^ prec)) as [Ep|Ep].
    + rewrite !Z2Pos.id by lia. rewrite (proj2 (Z.eqb_eq m1 (2 ^ prec))) by done.
      assert (Hd : Z.pos (digits2_pos (Z.to_pos m1)) = prec + 1).
      { apply digits2_pos_unique. rewrite Z2Pos.id by lia. rewrite Ep.
        replace (prec + 1 - 1) with prec by lia. split; [lia|]. apply Z.pow_lt_mono_r; lia. }
      rewrite Hd. assert (Hf : fe (prec + 1 + E) - E = 1) by (unfold fexp; lia). rewrite Hf.
      destruct (shr_exact m1 E 1) as (mrs2 & -> & _ & _ & G3); [lia..|].
      rewrite G3, Ep. replace (2 ^ prec / 2 ^ 1) with (2 ^ (prec - 1))
        by (replace prec with (Z.succ (prec - 1)) at 2 by lia; rewrite Z.pow_succ_r by lia;
            change (2 ^ 1) with 2; rewrite Z.mul_comm, Z.div_mul by lia; done).
      assert (0 < 2 ^ (prec - 1)) by (apply Z.pow_pos_nonneg; lia).
      rewrite <- (Z2Pos.id (2 ^ (prec - 1))) by done. by rewrite Z2Pos.id.
    + rewrite !Z2Pos.id by lia. rewrite (proj2 (Z.eqb_neq m1 (2 ^ prec))) by done.
      pose proof (digits2_pos_bounds (Z.to_pos m1)) as [B1 B2]. rewrite Z2Pos.id in B1 by lia.
      assert (Hd : Z.pos (digits2_pos (Z.to_pos m1)) <= prec).
      { assert (Z.pos (digits2_pos (Z.to_pos m1)) - 1 < prec); [|lia].
        apply (Z.pow_lt_mono_r_iff 2); lia. }
      assert (Hle : fe (Z.pos (digits2_pos (Z.to_pos m1)) + E) - E <= 0) by (unfold fexp; lia).
      assert (Hsh : shr (shr_record_of_loc m1 loc_Exact) E (fe (Z.pos (digits2_pos (Z.to_pos m1)) + E) - E)
                    = (shr_record_of_loc m1 loc_Exact, E)).
      { destruct (fe (Z.pos (digits2_pos (Z.to_pos m1)) + E) - E); cbn; try done; lia. }
      rewrite Hsh. cbn [shr_record_of_loc shr_m]. rewrite <- (Z2Pos.id m1 Hpos) at 1. done.
Qed.

(** ** Canonical results *)

Lemma bounded_spec m e :
  bounded prec emax m e = true <->
  fe (Z.pos (digits2_pos m) + e) = e /\ e <= emax - prec.
Proof. unfold bounded, canonical_mantissa. rewrite andb_true_iff, Z.eqb_eq, Z.leb_le. done. Qed.

Lemma bounded_mantissa m e :
  bounded prec emax m e = true ->
  Z.pos m < 2 ^ prec /\ emin prec emax <= e <= emax - prec /\ (emin prec emax < e -> 2 ^ (prec - 1) <= Z.pos m).
Proof.
  intros [E1 E2]%bounded_spec. pose proof (digits2_pos_bounds m) as [D1 D2].
  unfold fexp in E1. split_and!; [|lia|lia|].
  - eapply Z.lt_le_trans; [exact D2|]. apply Z.pow_le_mono_r; lia.
  - intros Hlt. eapply Z.le_trans; [|exact D1]. apply Z.pow_le_mono_r; lia.
Qed.

Lemma finish_valid s m1 E :
  0 <= m1 <= 2 ^ prec -> emin prec emax <= E -> (emin prec emax < E -> 2 ^ (prec - 1) <= m1) ->
  valid_binary prec emax (finish s m1 E) = true.
Proof.
  intros Hm HE Hn. unfold finish.
  destruct (Z.eqb_spec m1 0); [done|]. destruct (Z.eqb_spec m1 (2 ^ prec)) as [Ep|Ep].
  - destruct (Z.leb_spec (E + 1) (emax - prec)); [|done]. cbn [valid_binary]. apply bounded_spec. split; [|lia].
    assert (0 < 2 ^ (prec - 1)) by (apply Z.pow_pos_nonneg; lia).
    rewrite (digits2_pos_unique _ prec) by (rewrite Z2Pos.id by lia; split; [lia|]; apply Z.pow_lt_mono_r; lia).
    unfold fexp. lia.
  - destruct (Z.leb_spec E (emax - prec)); [|done]. cbn [valid_binary]. apply bounded_spec. split; [|lia].
    pose proof (digits2_pos_bounds (Z.to_pos m1)) as [B1 B2]. rewrite Z2Pos.id in B1, B2 by lia.
    set (d := Z.pos (digits2_pos (Z.to_pos m1))) in *.
    assert (Hd : d <= prec). { assert (d - 1 < prec); [|lia]. apply (Z.pow_lt_mono_r_iff 2); lia. }
    unfold fexp. destruct (Z.eq_dec E (emin prec emax)) as [->|]; [lia|].
    assert (prec - 1 < d); [|lia]. apply (Z.pow_lt_mono_r_iff 2); lia.
Qed.

Lemma pos_iter_xO m d : Z.pos (Pos.iter xO m d) = Z.pos m * 2 ^ Z.pos d.
Proof.
  induction d as [|d IH] using Pos.peano_ind; [cbn; lia|].
  rewrite Pos.iter_succ, Pos2Z.inj_succ, Z.pow_succ_r by lia. rewrite Pos2Z.inj_xO, IH. lia.
Qed.

Lemma shl_align_spec m e e' m' ez :
  shl_align m e e' = (m', ez) -> ez <= e /\ ez <= Z.max e' ez /\ Z.pos m' = Z.pos m * 2 ^ (e - ez) /\ ez = Z.min e e'.
Proof.
  unfold shl_align. destruct (e' - e) as [|d|d] eqn:E; intros [= <- <-].
  - rewrite Z.sub_diag. lia.
  - rewrite Z.sub_diag. lia.
  - rewrite pos_iter_xO. replace (e - e') with (Z.pos d) by lia. lia.
Qed.

Lemma digits2_pos_shift m m' k :
  0 <= k -> Z.pos m' = Z.pos m * 2 ^ k -> Z.pos (digits2_pos m') = Z.pos (digits2_pos m) + k.
Proof.
  intros Hk E. apply digits2_pos_unique. rewrite E. pose proof (digits2_pos_bounds m) as [D1 D2].
  assert (0 < 2 ^ k) by (apply Z.pow_pos_nonneg; lia).
  replace (Z.pos (digits2_pos m) + k - 1) with ((Z.pos (digits2_pos m) - 1) + k) by lia.
  rewrite !Z.pow_add_r by lia. nia.
Qed.

(** [binary_round] at the exponent [E] of the format. *)
Lemma round_spec s m e :
  let E := fe (Z.pos (digits2_pos m) + e) in
  exists m1 k m', k <= e /\ k <= E /\ Z.pos m' = Z.pos m * 2 ^ (e - k)
    /\ Z.pos m' / 2 ^ (E - k) <= m1 <= Z.pos m' / 2 ^ (E - k) + 1
    /\ (Z.pos m' mod 2 ^ (E - k) = 0 -> m1 = Z.pos m' / 2 ^ (E - k))
    /\ 0 <= m1 <= 2 ^ prec /\ (emin prec emax < E -> 2 ^ (prec - 1) <= m1)
    /\ binary_round prec emax s m e = finish s m1 E.
Proof.
  intros E. unfold binary_round. fold E. destruct (shl_align m e E) as [m' k] eqn:Ea.
  apply shl_align_spec in Ea as (H1 & _ & H3 & H4).
  assert (HE : fe (Z.pos (digits2_pos m') + k) = E).
  { rewrite (digits2_pos_shift m m' (e - k)) by (done || lia). unfold E. f_equal. lia. }
  destruct (round_aux_spec s m' k) as (m1 & A1 & A2 & A3 & A4 & A5 & _); [rewrite HE; lia|].
  rewrite HE in *. exists m1, k, m'. split_and!; (done || lia).
Qed.

Lemma round_valid s m e : valid_binary prec emax (binary_round prec emax s m e) = true.
Proof.
  destruct (round_spec s m e) as (m1 & k & m' & _ & _ & _ & _ & _ & H1 & H2 & ->).
  apply finish_valid; [done| |done]. apply fexp_ge.
Qed.

Lemma normalize_valid m e s : valid_binary prec emax (binary_normalize prec emax m e s) = true.
Proof. destruct m; cbn [binary_normalize]; auto using round_valid. Qed.

(** ** Rounding does not cross a representable number *)

Lemma fle_finite_pos m e m0 e0 :
  fle (S754_finite false m e) (S754_finite false m0 e0) = true <-> e < e0 \/ (e = e0 /\ Z.pos m <= Z.pos m0).
Proof. rewrite fle_key by done. unfold klt. cbn. lia. Qed.

Lemma fle_finite_neg m e m0 e0 :
  fle (S754_finite true m e) (S754_finite true m0 e0) = true <-> e0 < e \/ (e = e0 /\ Z.pos m0 <= Z.pos m).
Proof. rewrite fle_key by done. unfold klt. cbn. lia. Qed.

Lemma scale_le a b c d : 0 <= c -> 0 <= d -> a * 2 ^ c <= b * 2 ^ c -> a * 2 ^ (c + d) <= b * 2 ^ (c + d).
Proof. intros Hc Hd H. rewrite Z.pow_add_r by lia. pose proof (Z.pow_pos_nonneg 2 d). nia. Qed.

Lemma rescale m e j i : i <= j -> j <= e -> m * 2 ^ (e - i) = m * 2 ^ (e - j) * 2 ^ (j - i).
Proof. intros. replace (e - i) with ((e - j) + (j - i)) by lia. rewrite Z.pow_add_r by lia. lia. Qed.

Lemma round_le m e m0 e0 j :
  bounded prec emax m0 e0 = true -> j <= e -> j <= e0 -> Z.pos m * 2 ^ (e - j) <= Z.pos m0 * 2 ^ (e0 - j) ->
  fle (binary_round prec emax false m e) (S754_finite false m0 e0) = true.
Proof.
  intros Hb Hj Hj0 Hle. destruct (bounded_mantissa _ _ Hb) as (M1 & M2 & M3).
  destruct (round_spec false m e) as (m1 & k & m' & K1 & K2 & Em & R1 & R2 & R3 & R4 & ->).
  pose proof (digits2_pos_bounds m) as [D1 D2]. set (d := Z.pos (digits2_pos m)) in *.
  set (E := fe (d + e)) in *. destruct (fexp_ge (d + e)) as [F1 F2]. fold E in F1, F2.
  set (i := Z.min j k).
  assert (Hi : Z.pos m * 2 ^ (e - i) <= Z.pos m0 * 2 ^ (e0 - i)).
  { rewrite (rescale _ e j i), (rescale _ e0 j i) by lia. apply Z.mul_le_mono_nonneg_r; [|done].
    apply Z.pow_nonneg. lia. }
  assert (He0 : E <= e0).
  { destruct (Z_lt_le_dec e0 E) as [Hlt|]; [exfalso|done].
    assert (EE : E = d + e - prec) by (unfold E, fexp in *; lia).
    assert (2 ^ (prec + E - 1 - i) <= Z.pos m * 2 ^ (e - i)).
    { replace (prec + E - 1 - i) with ((d - 1) + (e - i)) by lia. rewrite Z.pow_add_r by lia.
      apply Z.mul_le_mono_nonneg_r; [apply Z.pow_nonneg; lia|done]. }
    assert (Z.pos m0 * 2 ^ (e0 - i) < 2 ^ (prec + E - 1 - i)); [|lia].
    apply Z.lt_le_trans with (2 ^ (prec + (e0 - i))).
    - rewrite Z.pow_add_r by lia. apply Z.mul_lt_mono_pos_r; [apply Z.pow_pos_nonneg; lia|done].
    - apply Z.pow_le_mono_r; lia. }
  assert (Hm : Z.pos m' <= Z.pos m0 * 2 ^ (e0 - E) * 2 ^ (E - k)).
  { rewrite <- (rescale _ e0 E k) by lia. rewrite (rescale _ e k i), (rescale _ e0 k i), <- Em in Hi by lia.
    apply (Z.mul_le_mono_pos_r _ _ (2 ^ (k - i))); [apply Z.pow_pos_nonneg; lia|exact Hi]. }
  set (M := Z.pos m0 * 2 ^ (e0 - E)) in *.
  assert (Hpos : 0 < 2 ^ (E - k)) by (apply Z.pow_pos_nonneg; lia).
  assert (Hm1 : m1 <= M).
  { pose proof (Z.div_mod (Z.pos m') (2 ^ (E - k)) ltac:(lia)).
    pose proof (Z.mod_pos_bound (Z.pos m') (2 ^ (E - k)) Hpos).
    destruct (Z.eq_dec (Z.pos m' mod 2 ^ (E - k)) 0) as [E0|E0]; [rewrite (R2 E0)|]; nia. }
  unfold finish. destruct (Z.eqb_spec m1 0); [done|]. destruct (Z.eqb_spec m1 (2 ^ prec)) as [Ep|Ep].
  - assert (E <> e0) by (intros ->; unfold M in Hm1; rewrite Z.sub_diag in Hm1; lia).
    rewrite (proj2 (Z.leb_le _ _)) by lia. apply fle_finite_pos.
    destruct (Z.eq_dec e0 (E + 1)) as [->|]; [right|left; lia]. split; [done|].
    rewrite Z2Pos.id by (apply Z.pow_pos_nonneg; lia). unfold M in Hm1. replace (E + 1 - E) with 1 in Hm1 by lia.
    replace prec with (Z.succ (prec - 1)) in Ep by lia. rewrite Z.pow_succ_r in Ep by lia. lia.
  - rewrite (proj2 (Z.leb_le _ _)) by lia. apply fle_finite_pos. rewrite Z2Pos.id by lia.
    destruct (Z.eq_dec E e0) as [->|]; [right|left; lia]. split; [done|].
    unfold M in Hm1. rewrite Z.sub_diag in Hm1. lia.
Qed.

Lemma round_ge m e m0 e0 j :
  bounded prec emax m0 e0 = true -> j <= e -> j <= e0 -> Z.pos m0 * 2 ^ (e0 - j) <= Z.pos m * 2 ^ (e - j) ->
  fle (binary_round prec emax true m e) (S754_finite true m0 e0) = true.
Proof.
  intros Hb Hj Hj0 Hle. destruct (bounded_mantissa _ _ Hb) as (M1 & M2 & M3).
  destruct (round_spec true m e) as (m1 & k & m' & K1 & K2 & Em & R1 & R2 & R3 & R4 & ->).
  pose proof (digits2_pos_bounds m) as [D1 D2]. set (d := Z.pos (digits2_pos m)) in *.
  set (E := fe (d + e)) in *. destruct (fexp_ge (d + e)) as [F1 F2]. fold E in F1, F2.
  set (i := Z.min j k).
  assert (Hi : Z.pos m0 * 2 ^ (e0 - i) <= Z.pos m * 2 ^ (e - i)).
  { rewrite (rescale _ e j i), (rescale _ e0 j i) by lia. apply Z.mul_le_mono_nonneg_r; [|done].
    apply Z.pow_nonneg. lia. }
  assert (He0 : e0 <= E).
  { destruct (Z_lt_le_dec E e0) as [Hlt|]; [exfalso|done].
    assert (Z.pos m * 2 ^ (e - i) < 2 ^ (d + (e - i))).
    { rewrite Z.pow_add_r by lia. apply Z.mul_lt_mono_pos_r; [apply Z.pow_pos_nonneg; lia|done]. }
    assert (2 ^ (prec - 1 + (e0 - i)) <= Z.pos m0 * 2 ^ (e0 - i)).
    { rewrite Z.pow_add_r by lia. apply Z.mul_le_mono_nonneg_r; [apply Z.pow_nonneg; lia|]. apply M3. lia. }
    assert (2 ^ (d + (e - i)) <= 2 ^ (prec - 1 + (e0 - i))); [|lia]. apply Z.pow_le_mono_r; lia. }
  assert (Hm1 : e0 = E -> Z.pos m0 <= m1).
  { intros ->. apply Z.le_trans with (Z.pos m' / 2 ^ (E - k)); [|lia].
    apply Z.div_le_lower_bound; [apply Z.pow_pos_nonneg; lia|].
    rewrite (rescale _ e k i), (rescale _ E k i), <- Em in Hi by lia. rewrite Z.mul_comm.
    apply (Z.mul_le_mono_pos_r _ _ (2 ^ (k - i))); [apply Z.pow_pos_nonneg; lia|exact Hi]. }
  assert (Hpp : 0 < 2 ^ (prec - 1)) by (apply Z.pow_pos_nonneg; lia).
  assert (Hnz : 0 < m1).
  { destruct (Z.eq_dec e0 E) as [Ee|]; [specialize (Hm1 Ee); lia|]. specialize (R4 ltac:(lia)). lia. }
  unfold finish. rewrite (proj2 (Z.eqb_neq m1 0)) by lia. destruct (Z.eqb_spec m1 (2 ^ prec)) as [Ep|Ep].
  - destruct (_ <=? _); [|done]. apply fle_finite_neg. lia.
  - destruct (_ <=? _); [|done]. apply fle_finite_neg. rewrite Z2Pos.id by lia.
    destruct (Z.eq_dec e0 E) as [Ee|]; [right; auto|left; lia].
Qed.

(** A rounded negative number is not positive. *)
Lemma round_neg_le m e m0 e0 : fle (binary_round prec emax true m e) (S754_finite false m0 e0) = true.
Proof.
  destruct (round_spec true m e) as (m1 & k & m' & _ & _ & _ & _ & _ & _ & _ & ->).
  unfold finish. repeat case_match; done.
Qed.

(** Taking a non-negative finite amount off a number does not raise it. *)
Definition nonneg_finite (y : spec_float) : bool :=
  match y with S754_zero _ | S754_finite false _ _ => true | _ => false end.

Lemma sub_nonneg x y :
  is_nan x = false -> valid_binary prec emax x = true -> nonneg_finite y = true ->
  fge x (SFsub prec emax x y) = true.
Proof.
  unfold fge. change SFleb with fle.
  intros Hx Hv Hy. destruct x as [sx|sx| |sx mx ex]; [..|done|].
  - destruct y as [sy| | |[] my ey]; try done; destruct sx; try destruct sy; done.
  - destruct y as [sy| | |[] my ey]; try done; destruct sx; done.
  - destruct y as [sy| | |[] my ey]; try done; [by apply fle_refl|]. cbn [valid_binary] in Hv.
    cbn [SFsub]. set (ez := Z.min ex ey).
    destruct (shl_align mx ex ez) as [mx' ez1] eqn:Ax. destruct (shl_align my ey ez) as [my' ez2] eqn:Ay.
    apply shl_align_spec in Ax as (_ & _ & Ex & Hz1), Ay as (_ & _ & Ey & Hz2).
    replace ez1 with ez in Ex by lia. replace ez2 with ez in Ey by lia. cbn [fst].
    destruct sx; cbn [cond_Zopp].
    + replace (- Z.pos mx' - Z.pos my') with (Z.neg (mx' + my')) by lia. cbn [binary_normalize].
      apply (round_ge _ _ _ _ ez); [done|lia|lia|]. rewrite Z.sub_diag, <- Ex. lia.
    + destruct (Z.pos mx' - Z.pos my') as [|p|p] eqn:Ep; cbn [binary_normalize]; [done| |apply round_neg_le].
      apply (round_le _ _ _ _ ez); [done|lia|lia|]. rewrite Z.sub_diag, <- Ex. lia.
Qed.
End Round.

(** * Canonical doubles *)

Definition valid64 (x : f64) : Prop := valid_binary 53 1024 x = true.

Lemma prec64 : 1 < 53 < 1024.
Proof. lia. Qed.

Lemma valid64_add x y : valid64 x -> valid64 y -> valid64 (f64_add x y).
Proof.
  unfold valid64, f64_add. intros Hx Hy.
  destruct x as [sx|sx| |sx mx ex], y as [sy|sy| |sy my ey]; try done; try (by destruct sx, sy).
  apply (normalize_valid _ _ prec64).
Qed.

Lemma valid64_sub x y : valid64 x -> valid64 y -> valid64 (f64_sub x y).
Proof.
  unfold valid64, f64_sub. intros Hx Hy.
  destruct x as [sx|sx| |sx mx ex], y as [sy|sy| |sy my ey]; try done; try (by destruct sx, sy).
  apply (normalize_valid _ _ prec64).
Qed.

(** The exact product has enough digits for its exponent. *)
Lemma product_exponent mx ex my ey :
  bounded 53 1024 mx ex = true -> bounded 53 1024 my ey = true ->
  ex + ey <= fexp 53 1024 (Z.pos (digits2_pos (mx * my)) + (ex + ey)).
Proof.
  intros Hx Hy. destruct (bounded_mantissa _ _ _ _ Hx) as (_ & X2 & X3).
  destruct (bounded_mantissa _ _ _ _ Hy) as (_ & Y2 & Y3).
  pose proof (digits2_pos_bounds (mx * my)) as [_ D]. set (d := Z.pos (digits2_pos (mx * my))) in *.
  unfold fexp, emin in *. cbn [Z.sub Z.max] in *.
  assert (Hbig : 2 ^ 52 <= Z.pos (mx * my) -> 53 <= d).
  { intros Hl. assert (52 < d); [|lia]. apply (Z.pow_lt_mono_r_iff 2); lia. }
  destruct (Z_lt_le_dec (-1074) ex) as [Lx|Lx]; [|destruct (Z_lt_le_dec (-1074) ey) as [Ly|Ly]]; [..|lia].
  - specialize (X3 Lx). change (53 - 1) with 52 in X3. specialize (Hbig ltac:(nia)). lia.
  - specialize (Y3 Ly). change (53 - 1) with 52 in Y3. specialize (Hbig ltac:(nia)). lia.
Qed.

Lemma valid64_mul x y : valid64 x -> valid64 y -> valid64 (f64_mul x y).
Proof.
  unfold valid64, f64_mul. intros Hx Hy.
  destruct x as [sx|sx| |sx mx ex], y as [sy|sy| |sy my ey]; try done.
  cbn [SFmul]. cbn [valid_binary] in Hx, Hy.
  destruct (round_aux_spec _ _ prec64 (xorb sx sy) (mx * my) (ex + ey)) as (m1 & _ & _ & M1 & M2 & -> & _).
  - by apply product_exponent.
  - apply (finish_valid _ _ prec64); [done|apply fexp_ge|done].
Qed.

Lemma valid64_widen x : valid64 (widen x).
Proof. destruct x; try done. apply (round_valid _ _ prec64). Qed.

Lemma valid64_zero : valid64 f_zero.
Proof. done. Qed.

Lemma valid64_neg_inf : valid64 f_neg_inf.
Proof. done. Qed.

(** A beam threshold: a finite, non-negative amount. *)
Lemma threshold_ok x t : is_nan x = false -> valid64 x -> nonneg_finite t = true -> fge x (f64_sub x t) = true.
Proof. apply (sub_nonneg _ _ prec64). Qed.

#[export] Hint Resolve valid64_add valid64_sub valid64_mul valid64_widen valid64_zero valid64_neg_inf : fl.

(** ** Addition in the executable IEEE arithmetic is monotone: rounding to nearest
    even is a monotone function of the exact value, and a sum depends only on the
    exact sum of the operands. *)

Open Scope Z_scope.

(** [m / 2^n] rounded to the nearest integer, ties to even. *)
Definition rne (m n : Z) : Z :=
  let q := m / 2 ^ n in
  let x := m mod 2 ^ n in
  if 2 * x <? 2 ^ n then q else if 2 ^ n <? 2 * x then q + 1 else if Z.even q then q else q + 1.

Lemma rne_mono m m' n : 0 <= n -> m <= m' -> rne m n <= rne m' n.
Proof.
  intros Hn Hm. unfold rne. assert (Hp : 0 < 2 ^ n) by (apply Z.pow_pos_nonneg; lia).
  pose proof (Z.div_mod m (2 ^ n) ltac:(lia)) as D. pose proof (Z.mod_pos_bound m (2 ^ n) Hp) as B.
  pose proof (Z.div_mod m' (2 ^ n) ltac:(lia)) as D'. pose proof (Z.mod_pos_bound m' (2 ^ n) Hp) as B'.
  set (q := m / 2 ^ n) in *. set (q' := m' / 2 ^ n) in *. set (x := m mod 2 ^ n) in *. set (x' := m' mod 2 ^ n) in *.
  assert (Hq : q <= q') by nia. assert (Hx : q = q' -> x <= x') by nia. clear D D' Hm.
  destruct (Z.ltb_spec (2 * x) (2 ^ n)), (Z.ltb_spec (2 ^ n) (2 * x)), (Z.ltb_spec (2 * x') (2 ^ n)), (Z.ltb_spec (2 ^ n) (2 * x'));
    destruct (Z.even q) eqn:Eq, (Z.even q') eqn:Eq'; try lia;
    (destruct (Z.eq_dec q q') as [->|]; [specialize (Hx eq_refl); first [lia|congruence]|lia]).
Qed.

Lemma rne_scale m n k : 0 <= n -> 0 <= k -> rne (m * 2 ^ k) (n + k) = rne m n.
Proof.
  intros Hn Hk. unfold rne. assert (Hp : 0 < 2 ^ n) by (apply Z.pow_pos_nonneg; lia).
  assert (Hp' : 0 < 2 ^ k) by (apply Z.pow_pos_nonneg; lia).
  rewrite Z.pow_add_r by lia. rewrite Z.div_mul_cancel_r by lia. rewrite Z.mul_mod_distr_r by lia.
  replace (2 * (m mod 2 ^ n * 2 ^ k)) with (2 * (m mod 2 ^ n) * 2 ^ k) by lia.
  assert (E : forall a b, (a * 2 ^ k <? b * 2 ^ k) = (a <? b)).
  { intros a b. apply Bool.eq_iff_eq_true. rewrite !Z.ltb_lt. nia. }
  by rewrite !E.
Qed.

Lemma rne_0 m : rne m 0 = m.
Proof. unfold rne. change (2 ^ 0) with 1. by rewrite Z.mod_1_r, Z.div_1_r. Qed.

Lemma shr_iter_loc m n :
  0 <= m -> exists r s, Nat.iter n shr_1 {| shr_m := m; shr_r := false; shr_s := false |}
    = {| shr_m := m / 2 ^ Z.of_nat n; shr_r := r; shr_s := s |}
    /\ (r = true <-> 2 ^ Z.of_nat n <= 2 * (m mod 2 ^ Z.of_nat n))
    /\ (s = true <-> 2 * (m mod 2 ^ Z.of_nat n) <> 0 /\ 2 * (m mod 2 ^ Z.of_nat n) <> 2 ^ Z.of_nat n).
Proof.
  intros Hm. induction n as [|n (r & s & IH & Hr & Hs)].
  - exists false, false. cbn. rewrite Z.mod_1_r, Z.div_1_r. split_and!; [done|..]; split; done || lia.
  - rewrite Nat.iter_succ, IH, shr_1_spec by (apply Z.div_pos; lia).
    exists (Z.odd (m / 2 ^ Z.of_nat n)), (r || s).
    replace (Z.of_nat (S n)) with (Z.succ (Z.of_nat n)) by lia. rewrite Z.pow_succ_r, Z.mul_comm by lia.
    assert (Hp : 0 < 2 ^ Z.of_nat n) by (apply Z.pow_pos_nonneg; lia).
    rewrite Z.div_div by lia. split; [done|]. rewrite Z.rem_mul_r by lia.
    pose proof (Z.mod_pos_bound m (2 ^ Z.of_nat n) ltac:(lia)). set (x := m mod 2 ^ Z.of_nat n) in *.
    rewrite Zmod_odd. set (o := Z.odd _). split.
    + destruct o; split; done || nia.
    + rewrite orb_true_iff, Hr, Hs. destruct o; lia.
Qed.

Lemma shr_rne m e n :
  0 <= m -> 0 <= n ->
  exists mrs, shr (shr_record_of_loc m loc_Exact) e n = (mrs, e + n)
    /\ round_nearest_even (shr_m mrs) (loc_of_shr_record mrs) = rne m n.
Proof.
  intros Hm Hn. destruct n as [|p|]; [|cbn [shr]|lia].
  - exists {| shr_m := m; shr_r := false; shr_s := false |}. rewrite Z.add_0_r, rne_0. done.
  - rewrite iter_pos_nat. destruct (shr_iter_loc m (Pos.to_nat p) Hm) as (r & s & E & Hr & Hs).
    rewrite positive_nat_Z in *. cbn [shr_record_of_loc]. rewrite E. eexists. split; [done|]. cbn [shr_m]. unfold rne.
    pose proof (Z.mod_pos_bound m (2 ^ Z.pos p) ltac:(lia)). set (x := m mod 2 ^ Z.pos p) in *.
    destruct r, s; cbn; destruct (Z.ltb_spec (2 * x) (2 ^ Z.pos p)), (Z.ltb_spec (2 ^ Z.pos p) (2 * x)); try done; exfalso;
      destruct Hr, Hs; try (assert (2 ^ Z.pos p <= 2 * x) by auto; lia); lia.
Qed.

Section Mono.
Context (prec emax : Z).
Hypothesis Hprec : 1 < prec < emax.

Abbreviation fe := (fexp prec emax).

(** Rounding, from the exact value at any fine enough scale. *)
Lemma round_exact s p e j :
  let E := fe (Z.pos (digits2_pos p) + e) in
  j <= e -> j <= E ->
  let m1 := rne (Z.pos p * 2 ^ (e - j)) (E - j) in
  0 <= m1 <= 2 ^ prec /\ (emin prec emax < E -> 2 ^ (prec - 1) <= m1)
  /\ binary_round prec emax s p e = finish prec emax s m1 E.
Proof.
  intros E Hj HjE m1. unfold binary_round. fold E. destruct (shl_align p e E) as [m' k] eqn:Ea.
  apply shl_align_spec in Ea as (H1 & _ & H3 & H4).
  assert (HE : fe (Z.pos (digits2_pos m') + k) = E).
  { rewrite (digits2_pos_shift p m' (e - k)) by (done || lia). unfold E. f_equal. lia. }
  destruct (round_aux_spec _ _ Hprec s m' k) as (m2 & _ & _ & A3 & A4 & A5 & A6); [rewrite HE; lia|].
  rewrite HE in *. destruct (shr_rne (Z.pos m') k (E - k)) as (mrs & Hs & Hr); [lia..|].
  rewrite (A6 mrs), Hr in * by (rewrite Hs; f_equal; lia).
  assert (Em : rne (Z.pos m') (E - k) = m1).
  { unfold m1. rewrite H3. rewrite (rescale _ e k j) by lia. replace (E - j) with (E - k + (k - j)) by lia.
    rewrite rne_scale by lia. done. }
  rewrite Em in *. done.
Qed.

Lemma finish_mono m m' E E' :
  0 <= m <= 2 ^ prec -> 0 <= m' <= 2 ^ prec -> emin prec emax <= E ->
  (emin prec emax < E' -> 2 ^ (prec - 1) <= m') -> (E = E' /\ m <= m') \/ E < E' ->
  fle (finish prec emax false m E) (finish prec emax false m' E') = true
  /\ fle (finish prec emax true m' E') (finish prec emax true m E) = true.
Proof.
  intros Hm Hm' HE Hn Hc. assert (Hp : 0 < 2 ^ (prec - 1)) by (apply Z.pow_pos_nonneg; lia).
  assert (H2 : 2 ^ prec = 2 * 2 ^ (prec - 1)).
  { replace prec with (Z.succ (prec - 1)) at 1 by lia. by rewrite Z.pow_succ_r by lia. }
  assert (Hn' : E < E' -> 2 ^ (prec - 1) <= m') by (intros; apply Hn; lia). clear Hn.
  unfold finish.
  destruct (Z.eqb_spec m 0) as [->|], (Z.eqb_spec m' 0) as [->|]; try lia.
  - done.
  - destruct (m' =? 2 ^ prec), (E' + 1 <=? emax - prec), (E' <=? emax - prec); done.
  - destruct (Z.eqb_spec m (2 ^ prec)) as [->|], (Z.eqb_spec m' (2 ^ prec)) as [->|]; try lia;
      repeat match goal with |- context [?a <=? ?b] => destruct (Z.leb_spec a b) end; try done; try lia;
      rewrite fle_finite_pos, fle_finite_neg, ?Z2Pos.id by lia; lia.
Qed.

Lemma digits2_pos_mono p q : Z.pos p <= Z.pos q -> Z.pos (digits2_pos p) <= Z.pos (digits2_pos q).
Proof.
  intros H. pose proof (digits2_pos_bounds p). pose proof (digits2_pos_bounds q).
  assert (Z.pos (digits2_pos p) - 1 < Z.pos (digits2_pos q)); [|lia]. apply (Z.pow_lt_mono_r_iff 2); lia.
Qed.

(** Rounding is monotone in the exact value. *)
Lemma round_mono p e q e' j :
  j <= e -> j <= e' -> Z.pos p * 2 ^ (e - j) <= Z.pos q * 2 ^ (e' - j) ->
  fle (binary_round prec emax false p e) (binary_round prec emax false q e') = true
  /\ fle (binary_round prec emax true q e') (binary_round prec emax true p e) = true.
Proof.
  intros Hj Hj' Hle. set (E := fe (Z.pos (digits2_pos p) + e)). set (E' := fe (Z.pos (digits2_pos q) + e')).
  set (i := Z.min j (Z.min E E')).
  destruct (round_exact false p e i) as (A1 & A2 & A3); [lia|fold E; lia|].
  destruct (round_exact true p e i) as (_ & _ & A4); [lia|fold E; lia|].
  destruct (round_exact false q e' i) as (B1 & B2 & B3); [lia|fold E'; lia|].
  destruct (round_exact true q e' i) as (_ & _ & B4); [lia|fold E'; lia|].
  fold E in A1, A2, A3, A4. fold E' in B1, B2, B3, B4. rewrite A3, A4, B3, B4.
  assert (Hi : Z.pos p * 2 ^ (e - i) <= Z.pos q * 2 ^ (e' - i)).
  { rewrite (rescale _ e j i), (rescale _ e' j i) by lia. apply Z.mul_le_mono_nonneg_r; [|done]. apply Z.pow_nonneg. lia. }
  apply finish_mono; [done|done|apply fexp_ge|done|].
  assert (HE : Z.pos (digits2_pos p) + e <= Z.pos (digits2_pos q) + e').
  { assert (Hd : forall x k, 0 <= k -> exists y, Z.pos y = Z.pos x * 2 ^ k /\ Z.pos (digits2_pos y) = Z.pos (digits2_pos x) + k).
    { intros x k Hk. assert (0 < 2 ^ k) by (apply Z.pow_pos_nonneg; lia). exists (Z.to_pos (Z.pos x * 2 ^ k)).
      assert (Ey : Z.pos (Z.to_pos (Z.pos x * 2 ^ k)) = Z.pos x * 2 ^ k) by (apply Z2Pos.id; lia).
      split; [done|]. by apply digits2_pos_shift. }
    destruct (Hd p (e - i)) as (y & Y1 & Y2); [lia|]. destruct (Hd q (e' - i)) as (y' & Y1' & Y2'); [lia|].
    pose proof (digits2_pos_mono y y'). lia. }
  destruct (Z.eq_dec E E') as [EE|]; [left|right; unfold E, E', fexp in *; lia]. split; [done|].
  rewrite EE. apply rne_mono; [lia|done].
Qed.

(** * Values at a scale *)

Definition finite (x : spec_float) : bool := match x with S754_zero _ | S754_finite _ _ _ => true | _ => false end.

(** [x * 2^-j], for [j] at most the exponent. *)
Definition sval (j : Z) (x : spec_float) : Z :=
  match x with S754_finite s m e => cond_Zopp s (Z.pos m * 2 ^ (e - j)) | _ => 0 end.
Definition exp_ge (j : Z) (x : spec_float) : Prop := match x with S754_finite _ _ e => j <= e | _ => True end.

Definition rnd (v j : Z) : spec_float := binary_normalize prec emax v j false.

Lemma round_sign p e : fle (binary_round prec emax true p e) f_zero = true
  /\ fle f_zero (binary_round prec emax false p e) = true.
Proof.
  split; [destruct (round_spec _ _ Hprec true p e) as (m1 & k & m' & _ & _ & _ & _ & _ & _ & _ & ->)
         |destruct (round_spec _ _ Hprec false p e) as (m1 & k & m' & _ & _ & _ & _ & _ & _ & _ & ->)];
    unfold finish; repeat case_match; done.
Qed.

Lemma round_nan s p e : is_nan (binary_round prec emax s p e) = false.
Proof.
  destruct (round_spec _ _ Hprec s p e) as (m1 & k & m' & _ & _ & _ & _ & _ & _ & _ & ->). unfold finish; repeat case_match; done.
Qed.

Lemma rnd_nan v j : is_nan (rnd v j) = false.
Proof. unfold rnd. destruct v; cbn [binary_normalize]; auto using round_nan. Qed.

Lemma rnd_mono v v' j : v <= v' -> fle (rnd v j) (rnd v' j) = true.
Proof.
  intros Hv. unfold rnd. destruct v as [|p|p], v' as [|q|q]; cbn [binary_normalize]; try lia; try done.
  - apply round_sign.
  - apply (round_mono p j q j j); [lia..|]. rewrite !Z.mul_1_r || rewrite Z.sub_diag; lia.
  - apply round_sign.
  - eapply (fle_trans _ f_zero); [apply round_nan|done|apply round_nan|apply round_sign..].
  - apply (round_mono q j p j j); [lia..|]. rewrite Z.sub_diag. lia.
Qed.
Lemma pos_scale p k : 0 <= k -> exists y, Z.pos y = Z.pos p * 2 ^ k /\ Z.pos (digits2_pos y) = Z.pos (digits2_pos p) + k.
Proof.
  intros Hk. assert (0 < 2 ^ k) by (apply Z.pow_pos_nonneg; lia). exists (Z.to_pos (Z.pos p * 2 ^ k)).
  assert (Ey : Z.pos (Z.to_pos (Z.pos p * 2 ^ k)) = Z.pos p * 2 ^ k) by (apply Z2Pos.id; lia).
  split; [done|]. by apply digits2_pos_shift.
Qed.

Lemma round_scale s p y e j :
  j <= e -> Z.pos y = Z.pos p * 2 ^ (e - j) -> Z.pos (digits2_pos y) = Z.pos (digits2_pos p) + (e - j) ->
  binary_round prec emax s y j = binary_round prec emax s p e.
Proof.
  intros Hj Ey Ed. assert (EE : fe (Z.pos (digits2_pos y) + j) = fe (Z.pos (digits2_pos p) + e)) by (f_equal; lia).
  set (i := Z.min j (fe (Z.pos (digits2_pos p) + e))).
  destruct (round_exact s y j i) as (_ & _ & ->); [lia|lia|]. destruct (round_exact s p e i) as (_ & _ & ->); [lia|lia|].
  rewrite EE, Ey. by rewrite <- (rescale (Z.pos p) e j i) by lia.
Qed.

Lemma rnd_scale v e j : j <= e -> rnd (v * 2 ^ (e - j)) j = rnd v e.
Proof.
  intros Hj. destruct v as [|p|p]; [done|..]; destruct (pos_scale p (e - j)) as (y & Y1 & Y2); try lia.
  - rewrite <- Y1. by apply round_scale.
  - replace (Z.neg p * 2 ^ (e - j)) with (Z.neg y) by lia. by apply round_scale.
Qed.

Lemma round_bounded s m e : bounded prec emax m e = true -> binary_round prec emax s m e = S754_finite s m e.
Proof.
  intros Hb. pose proof Hb as [E1 E2]%bounded_spec. destruct (bounded_mantissa _ _ _ _ Hb) as (M1 & _ & _).
  destruct (round_exact s m e e) as (_ & _ & ->); [lia|rewrite E1; lia|]. rewrite E1, Z.sub_diag, rne_0, Z.mul_1_r.
  unfold finish. rewrite (proj2 (Z.eqb_neq _ 0)), (proj2 (Z.eqb_neq _ (2 ^ prec))), (proj2 (Z.leb_le _ _)) by lia. done.
Qed.

Lemma rnd_sval s m e j :
  bounded prec emax m e = true -> j <= e -> rnd (sval j (S754_finite s m e)) j = S754_finite s m e.
Proof.
  intros Hb Hj. cbn [sval]. destruct s; cbn [cond_Zopp].
  - rewrite <- Z.mul_opp_l, rnd_scale by done. by apply round_bounded.
  - rewrite rnd_scale by done. by apply round_bounded.
Qed.

(** A sum of finite numbers is the rounded exact sum. *)
Lemma add_rnd x z j :
  finite x = true -> finite z = true -> valid_binary prec emax x = true -> valid_binary prec emax z = true ->
  exp_ge j x -> exp_ge j z ->
  fkey (SFadd prec emax x z) = fkey (rnd (sval j x + sval j z) j) /\ is_nan (SFadd prec emax x z) = false.
Proof.
  intros Fx Fz Vx Vz Hx Hz.
  destruct x as [sx| | |sx mx ex], z as [sz| | |sz mz ez]; try done.
  - by destruct sx, sz.
  - change (sval j (S754_zero sx)) with 0. by rewrite Z.add_0_l, rnd_sval.
  - change (sval j (S754_zero sz)) with 0. by rewrite Z.add_0_r, rnd_sval.
  - cbn [SFadd]. cbn [exp_ge] in *. set (m := Z.min ex ez).
    destruct (shl_align mx ex m) as [mx' ez1] eqn:Ax. destruct (shl_align mz ez m) as [mz' ez2] eqn:Az.
    apply shl_align_spec in Ax as (_ & _ & Ex & Hz1), Az as (_ & _ & Ey & Hz2).
    replace ez1 with m in Ex by lia. replace ez2 with m in Ey by lia. cbn [fst].
    split; [|apply rnd_nan]. fold (rnd (cond_Zopp sx (Z.pos mx') + cond_Zopp sz (Z.pos mz')) m).
    rewrite <- (rnd_scale _ m j) by lia. do 2 f_equal. cbn [sval]. rewrite Ex, Ey.
    rewrite (rescale _ ex m j), (rescale _ ez m j) by lia.
    destruct sx, sz; cbn [cond_Zopp]; lia.
Qed.

Lemma fle_sval x y j :
  finite x = true -> finite y = true -> valid_binary prec emax x = true -> valid_binary prec emax y = true ->
  exp_ge j x -> exp_ge j y -> fle x y = true -> sval j x <= sval j y.
Proof.
  intros Fx Fy Vx Vy Hx Hy Hle.
  destruct (Z_le_gt_dec (sval j x) (sval j y)) as [|Hgt]; [done|exfalso].
  assert (Hk : forall v, finite v = true -> valid_binary prec emax v = true -> exp_ge j v -> fkey (rnd (sval j v) j) = fkey v).
  { intros v Fv Vv Hv. destruct v as [s| | |s m e]; try done. rewrite rnd_sval by done. done. }
  (* equal keys would make the values equal *)
  assert (Eq : fkey x = fkey y).
  { pose proof (rnd_mono (sval j y) (sval j x) j ltac:(lia)) as Hm.
    rewrite fle_key in Hm by apply rnd_nan. rewrite !Hk in Hm by done.
    rewrite fle_key in Hle by (first [by destruct x|by destruct y]). unfold klt in *.
    destruct (fkey x) as [[a1 a2] a3], (fkey y) as [[b1 b2] b3]. cbn in *. f_equal; [f_equal|]; lia. }
  destruct x as [sx| | |[] mx ex], y as [sy| | |[] my ey]; cbn in Eq; try done; cbn in Hgt; try lia;
    injection Eq; intros; try subst mx; assert (ex = ey) by lia; subst ex; lia.
Qed.

(** Addition is monotone. *)
Lemma add_mono x y z :
  finite x = true -> finite y = true -> finite z = true ->
  valid_binary prec emax x = true -> valid_binary prec emax y = true -> valid_binary prec emax z = true ->
  fle x y = true -> fle (SFadd prec emax x z) (SFadd prec emax y z) = true.
Proof.
  intros Fx Fy Fz Vx Vy Vz Hle.
  assert (Hj : exists j, exp_ge j x /\ exp_ge j y /\ exp_ge j z).
  { exists (Z.min (match x with S754_finite _ _ e => e | _ => 0 end)
      (Z.min (match y with S754_finite _ _ e => e | _ => 0 end) (match z with S754_finite _ _ e => e | _ => 0 end))).
    destruct x, y, z; try done; cbn; lia. }
  destruct Hj as (j & Jx & Jy & Jz).
  destruct (add_rnd x z j) as [K1 N1]; [done..|]. destruct (add_rnd y z j) as [K2 N2]; [done..|].
  rewrite fle_key, K1, K2 by done. rewrite <- fle_key by apply rnd_nan. apply rnd_mono.
  pose proof (fle_sval x y j Fx Fy Vx Vy Jx Jy Hle). lia.
Qed.
End Mono.
