(* ===== verification/DecoderPaths.v ===== *)
(** The buffer of hypotheses as a set of paths: every hypothesis of a frame points
    to one of the frame before, so back-tracking is defined and returns one entry
    per frame; candidate selection is defined for every finite threshold. *)
From Stdlib Require Import Floats.SpecFloat.
From S2P Require Import Prelude Float FloatRound StdAlgorithm DecoderUtils DecoderBeam.

Open Scope Z_scope.

Section Candidates.
Context {S : Type} `{DecoderStateLaws S} {alg : StdAlgo} `{!StdAlgoLaws alg}.
Context (exp log1p : f64 -> f64).

(** What holds of the candidates collected so far. *)
Record cands_ok (P : S -> Prop) (c : cands S) : Prop := {
  co_each : forall x, x ∈ candidates c -> is_nan (score x) = false /\ valid64 (score x) /\ P x;
  co_best : is_nan (candidatesBestScore c) = false /\ valid64 (candidatesBestScore c);
  co_attained : (candidates c = [] /\ candidatesBestScore c = kNegativeInfinity)
                \/ exists x, x ∈ candidates c /\ score x = candidatesBestScore c
}.

Lemma candidatesReset_ok P : cands_ok P candidatesReset.
Proof. split; cbn; [by intros x ?%elem_of_nil|done|by left]. Qed.

Lemma fge_nan a b : fge a b = true -> is_nan a = false.
Proof. intros E%fle_nan. by destruct E. Qed.

Lemma fge_neg_inf a : is_nan a = false -> fge a kNegativeInfinity = true.
Proof. by destruct a as [[]|[]| |[] m e]. Qed.

Lemma candidatesAdd_ok P thr sc mk c :
  nonneg_finite thr = true -> valid64 sc -> (forall z, score (mk z) = z) -> (valid64 sc -> P (mk sc)) ->
  cands_ok P c -> cands_ok P (candidatesAdd thr sc mk c).
Proof.
  intros Ht Hv Hmk HP [C1 [C2 C2'] C3]. unfold candidatesAdd.
  destruct (fge sc (candidatesBestScore c)) eqn:E1.
  - pose proof (fge_nan _ _ E1) as Hn. rewrite (threshold_ok sc thr Hn Hv Ht).
    split; cbn [candidates candidatesBestScore].
    + intros x [Hx| ->%list_elem_of_singleton]%elem_of_app; [by apply C1|]. rewrite Hmk. auto.
    + done.
    + right. exists (mk sc). split; [|apply Hmk]. apply elem_of_app. right. by left.
  - destruct (fge sc (f64_sub (candidatesBestScore c) thr)) eqn:E2; [|done].
    pose proof (fge_nan _ _ E2) as Hn.
    split; cbn [candidates candidatesBestScore]; [|done|].
    + intros x [Hx| ->%list_elem_of_singleton]%elem_of_app; [by apply C1|]. rewrite Hmk. auto.
    + right. destruct C3 as [[_ E]|(x & Hx & E)].
      * rewrite E, fge_neg_inf in E1 by done. done.
      * exists x. split; [|done]. apply elem_of_app. by left.
Qed.

(** Selection never fails on collected candidates, and yields a beam of them. *)
Lemma candidatesStore_ok P thr bs rs c :
  nonneg_finite thr = true -> 0 <= bs -> cands_ok P c ->
  exists out, candidatesStore exp log1p (candidates c) bs (f64_sub (candidatesBestScore c) thr) false rs = Ok out
    /\ beam (filter (fun x => fge (score x) (f64_sub (candidatesBestScore c) thr) = true) (candidates c)) bs rs out
    /\ forall x, x ∈ out -> x ∈ candidates c /\ is_nan (score x) = false /\ valid64 (score x) /\ P x.
Proof.
  intros Ht Hbs [C1 [C2 C2'] C3].
  destruct (candidatesStore_aux exp log1p (candidates c) bs (f64_sub (candidatesBestScore c) thr) rs)
    as (out & Ho & Hb).
  - intros x Hx. by apply C1.
  - done.
  - intros Hne. destruct C3 as [[E _]|(x & Hx & E)]; [done|].
    intros Hnil. assert (Hin : x ∈ filter (fun y => fge (score y) (f64_sub (candidatesBestScore c) thr) = true) (candidates c)).
    { apply list_elem_of_filter. split; [|done]. rewrite E. by apply threshold_ok. }
    rewrite Hnil in Hin. by apply elem_of_nil in Hin.
  - exists out. split_and!; [done|done|]. intros x Hx.
    destruct (beam_best _ _ _ _ Hb x Hx) as [[_ Hc]%list_elem_of_filter _]. split; [done|]. by apply C1.
Qed.
End Candidates.

(** A weaker property of the candidates. *)
Lemma cands_ok_impl {S} `{DecoderState S} (P Q : S -> Prop) c : (forall x, P x -> Q x) -> cands_ok P c -> cands_ok Q c.
Proof. intros HPQ [C1 C2 C3]. split; [|done|done]. intros x Hx. destruct (C1 x Hx) as (? & ? & ?). auto. Qed.

(** * Emissions *)

(** An array of [T] frames of [N] emissions that [int]s can index, without NaN
    where a sort compares them. *)
Record emissions_ok (beamSizeToken : Z) (emissions : list f32) (T N : Z) : Prop := {
  eo_size : T * N <= zlen emissions;
  eo_int : T * N < 2 ^ 31;
  eo_nan : beamSizeToken < N -> 0 <= beamSizeToken /\ forall x, x ∈ emissions -> is_nan x = false
}.

(** The transition scores of [N] tokens, which only ASG reads. *)
Definition transitions_ok (criterion : CriterionType) (transitions : list f32) (N : Z) : Prop :=
  criterion = ASG -> N * N <= zlen transitions /\ N * N < 2 ^ 31.

Lemma transition_ok criterion transitions N n m :
  transitions_ok criterion transitions N -> criterion = ASG -> 0 <= n < N -> 0 <= m < N ->
  exists z, array_at transitions (n * N + m) = Ok z.
Proof. intros Htr [Hz Hb]%Htr Hn Hm. assert (0 <= n * N + m < N * N) by nia. apply array_at_ok; lia. Qed.

(** The entry of an array at an index within its bounds. *)
Definition entry (a : list f32) (i : Z) : f32 := default S754_nan (a !! Z.to_nat i).

Lemma array_at_entry a i e : array_at a i = Ok e -> e = entry a i.
Proof.
  unfold array_at, entry. destruct (int_value i) as [j|] eqn:Ej; [|done]. apply int_value_Ok in Ej as [-> _].
  intros [_ E]%vec_get_Ok. symmetry. exact (f_equal (default S754_nan) E).
Qed.

Section Emissions.
Context {alg : StdAlgo} `{!StdAlgoLaws alg} (bst : Z) (emissions : list f32) (T N : Z).
Hypothesis Hem : emissions_ok bst emissions T N.
Hypothesis HN : 0 <= N.

Lemma emission_ok t n : 0 <= t < T -> 0 <= n < N -> exists e, array_at emissions (t * N + n) = Ok e.
Proof.
  intros Ht Hn. pose proof (eo_size _ _ _ _ Hem). pose proof (eo_int _ _ _ _ Hem).
  assert (t * N + n < T * N) by nia. apply array_at_ok; nia.
Qed.

Lemma frameOrder_ok t :
  0 <= t < T -> exists idx, frameOrder bst emissions t N = Ok idx /\ forall n, n ∈ idx -> 0 <= n < N.
Proof.
  intros Ht. unfold frameOrder. destruct (Z.ltb_spec bst N) as [Hlt|]; [|exists (zrange 0 N); split; [done|]; apply elem_of_zrange].
  destruct (eo_nan _ _ _ _ Hem Hlt) as [Hb Hnan]. rewrite (proj2 (Z.ltb_ge _ _)) by done.
  pose proof (eo_size _ _ _ _ Hem). pose proof (eo_int _ _ _ _ Hem). assert (0 <= t * N /\ t * N + N <= T * N) as [H1 H2] by nia.
  rewrite int_value_fits by lia. cbn [mbind result_bind].
  destruct (mapM_result_total (fun n => vec_get emissions (t * N + n)) (zrange 0 N)) as [row Hrow].
  { intros n Hn%elem_of_zrange. apply vec_get_is_Ok. lia. }
  rewrite Hrow. cbn [mbind result_bind]. eexists. split; [done|]. intros n Hin.
  assert (forall k, k ∈ zrange 0 N -> is_nan (default S754_nan (row !! Z.to_nat k)) = false) as Hk.
  { intros k Hk%elem_of_zrange. apply mapM_result_Ok in Hrow.
    destruct (Forall2_lookup_l _ _ _ (Z.to_nat k) k Hrow) as (x & Ex & Hx); [rewrite zrange_lookup by lia; f_equal; lia|].
    etrans; [exact (f_equal (fun o => is_nan (default S754_nan o)) Ex)|]. apply Hnan. apply vec_get_Ok in Hx as [_ Hx]. by eapply list_elem_of_lookup_2. }
  rewrite std_partial_perm in Hin; [by apply elem_of_zrange|].
  split; unfold fgt.
  - intros a Ha. by apply flt_irrefl, Hk.
  - intros a b c Ha Hb' Hc Hab Hbc. eapply flt_trans; [..|exact Hbc|exact Hab]; by apply Hk.
  - intros a b c Ha Hb' Hc Hab Hbc. apply not_true_iff_false. intros Hac.
    apply negb_true_iff in Hab, Hbc. rewrite <- fle_flt in Hab, Hbc by (by apply Hk).
    assert (flt (default S754_nan (row !! Z.to_nat c)) (default S754_nan (row !! Z.to_nat c)) = true) as Hcc.
    { eapply flt_fle_trans; [..|exact Hac|eapply fle_trans; [..|exact Hab|exact Hbc]]; by apply Hk. }
    rewrite flt_irrefl in Hcc by (by apply Hk). done.
Qed.
End Emissions.

(** * Buffers *)

Lemma Forall2_impl_strong {A B} (P Q : A -> B -> Prop) l k :
  Forall2 P l k -> (forall x y, x ∈ l -> P x y -> Q x y) -> Forall2 Q l k.
Proof.
  induction 1 as [|x y l k Hxy Hlk IH]; intros HPQ; constructor; [apply HPQ; [by left|done]|].
  apply IH. intros x' y' Hx'. apply HPQ. by right.
Qed.

Section Paths.
Context {S : Type} `{DecoderState S}.

(** The keys of [hyp_] are an initial segment and its vectors are distinct. *)
Record buffer_ok (h : hyps S) : Prop := {
  bo_inj : forall i j v, frames h !! i = Some v -> frames h !! j = Some v -> i = j;
  bo_new : forall i v, frames h !! i = Some v -> (v < nextVec h)%nat;
  bo_dom : forall i, is_Some (frames h !! i) <-> 0 <= i < Z.of_nat (size (frames h))
}.

(** Frames [0] to [last] hold hypotheses linked by [R]. *)
Record linked (R : Z -> S -> S -> Prop) (Q : S -> Prop) (last : Z) (h : hyps S) : Prop := {
  ln_buffer : buffer_ok h;
  ln_last : 0 <= last < Z.of_nat (size (frames h));
  ln_root : forall x, x ∈ frame_at 0 h -> parent x = None /\ Q x;
  ln_step : forall f x, 0 <= f < last -> x ∈ frame_at (f + 1) h ->
    exists v j y, parent x = Some (v, j) /\ frames h !! f = Some v /\ frame_at f h !! j = Some y /\ R f y x
}.

Lemma linked_impl (R R' : Z -> S -> S -> Prop) (Q Q' : S -> Prop) last h :
  (forall f y x, R f y x -> R' f y x) -> (forall x, Q x -> Q' x) -> linked R Q last h -> linked R' Q' last h.
Proof.
  intros HR HQ [B Hl Hr Hs]. split; [done|done| |].
  - intros x Hx. destruct (Hr x Hx). auto.
  - intros f x Hf Hx. destruct (Hs f x Hf Hx) as (v & j & y & ? & ? & ? & ?). exists v, j, y. auto.
Qed.

Lemma deref_frame (h : hyps S) f v j : frames h !! f = Some v -> deref h (v, j) = frame_at f h !! j.
Proof. intros E. unfold deref, frame_at. cbn. rewrite E. cbn. by destruct (store h !! v). Qed.

Lemma addressed_lookup (h : hyps S) f p x :
  (p, x) ∈ addressed f h <-> exists v j, p = (v, j) /\ frames h !! f = Some v /\ frame_at f h !! j = Some x.
Proof.
  unfold addressed, frame_at. destruct (frames h !! f) as [v|]; cbn.
  - rewrite list_elem_of_lookup. setoid_rewrite list_lookup_imap_Some. split.
    + intros (j & y & Hy & [= -> ->]). eauto 6.
    + intros (v' & j & -> & [= <-] & Hx). eauto.
  - split; [by intros ?%elem_of_nil|]. intros (v & j & _ & ? & _). done.
Qed.

(** The hypotheses on the way from the first frame to [x]. *)
Inductive path (R : Z -> S -> S -> Prop) (Q : S -> Prop) : Z -> S -> list S -> Prop :=
| path_root x : Q x -> path R Q 0 x [x]
| path_step f y x l : path R Q f y l -> R f y x -> path R Q (f + 1) x (l ++ [x]).

Lemma path_length R Q f x l : path R Q f x l -> 0 <= f /\ zlen l = f + 1.
Proof. induction 1; unfold zlen in *; rewrite ?length_app; cbn; lia. Qed.

Lemma insert_end {A} (l rest : list A) (n : nat) (x : A) :
  length l = n -> rest <> [] -> <[n := x]> (l ++ rest) = l ++ x :: tail rest.
Proof. intros <- Hr. destruct rest; [done|]. by rewrite insert_app_r_alt, Nat.sub_diag by lia. Qed.

Lemma insert_replicate_end {A} (n k : nat) (z x : A) (rest : list A) :
  <[n := x]> (replicate (n + 1 + k) z ++ rest) = replicate n z ++ x :: replicate k z ++ rest.
Proof.
  replace (n + 1 + k)%nat with (n + Datatypes.S k)%nat by lia. rewrite replicate_add, <- app_assoc.
  rewrite insert_end; [done|apply length_replicate|done].
Qed.

(** Back-tracking from frame [f] succeeds when there is room for [k] entries more
    than the path has, and fills the end of the results with the path. *)
Lemma backtrack_path R Q last (h : hyps S) k f x (wr tr : list Z) :
  linked R Q last h -> 0 <= f <= last -> x ∈ frame_at f h ->
  exists l, path R Q f x l
    /\ backtrack h (k + Z.to_nat (f + 1)) (Some x)
         (replicate (k + Z.to_nat (f + 1)) (-1) ++ wr) (replicate (k + Z.to_nat (f + 1)) (-1) ++ tr)
       = Ok (replicate k (-1) ++ (getWord <$> l) ++ wr, replicate k (-1) ++ (token <$> l) ++ tr).
Proof.
  intros L Hf Hx. destruct Hf as [Hf0 Hfl]. revert f Hf0 x wr tr Hfl Hx.
  refine (natlike_ind _ _ _).
  - intros x wr tr _ Hx. destruct (ln_root _ _ _ _ L x Hx) as [Hp HQ].
    exists [x]. split; [by constructor|]. change (Z.to_nat (0 + 1)) with 1%nat. replace (k + 1)%nat with (Datatypes.S k) by lia.
    cbn [backtrack]. rewrite Hp. cbn [mbind option_bind]. replace (Datatypes.S k) with (k + 1 + 0)%nat by lia.
    rewrite !insert_replicate_end. by destruct k.
  - intros f Hf IH x wr tr Hfl Hx. replace (Z.succ f) with (f + 1) in * by lia.
    destruct (ln_step _ _ _ _ L f x) as (v & j & y & Hp & Hv & Hy & HR); [lia|done|].
    assert (Hyin : y ∈ frame_at f h) by (by eapply list_elem_of_lookup_2).
    destruct (IH y (getWord x :: wr) (token x :: tr)) as (l & Hl & E); [lia|done|].
    exists (l ++ [x]). split; [by econstructor|].
    replace (k + Z.to_nat (f + 1 + 1))%nat with (Datatypes.S (k + Z.to_nat (f + 1))) by lia.
    cbn [backtrack]. rewrite Hp. cbn [mbind option_bind]. rewrite (deref_frame h f v j Hv), Hy.
    replace (Datatypes.S (k + Z.to_nat (f + 1))) with ((k + Z.to_nat (f + 1)) + 1 + 0)%nat by lia.
    rewrite !insert_replicate_end. cbn [replicate app]. rewrite E, !fmap_app, <- !app_assoc. done.
Qed.

(** Results with room for more entries than the path has. *)
Lemma getHypothesis_room R Q last (h : hyps S) f n x :
  linked R Q last h -> 0 <= f <= last -> f <= n -> x ∈ frame_at f h ->
  exists l, path R Q f x l
    /\ getHypothesis h (Some x) n
       = Ok (DResult (score x) (amScore x) (lmScore x) (replicate (Z.to_nat (n - f)) (-1) ++ (getWord <$> l))
               (replicate (Z.to_nat (n - f)) (-1) ++ (token <$> l))).
Proof.
  intros L Hf Hn Hx. destruct (backtrack_path R Q last h (Z.to_nat (n - f)) f x [] [] L Hf Hx) as (l & Hl & E).
  exists l. split; [done|]. unfold getHypothesis, newResult. cbn [words tokens].
  rewrite !app_nil_r in E. replace (Z.to_nat (n - f) + Z.to_nat (f + 1))%nat with (Z.to_nat (n + 1)) in E by lia.
  by rewrite E.
Qed.

Lemma getHypothesis_path R Q last (h : hyps S) f x :
  linked R Q last h -> 0 <= f <= last -> x ∈ frame_at f h ->
  exists l, path R Q f x l
    /\ getHypothesis h (Some x) f
       = Ok (DResult (score x) (amScore x) (lmScore x) (getWord <$> l) (token <$> l)).
Proof.
  intros L Hf Hx. destruct (getHypothesis_room R Q last h f f x L Hf ltac:(lia) Hx) as (l & Hl & E).
  exists l. split; [done|]. by rewrite Z.sub_diag in E.
Qed.

(** ** Buffer operations *)

Lemma set_frame_frames i l (h : hyps S) v : frames h !! i = Some v -> frames (set_frame i l h) = frames h.
Proof. intros E. unfold set_frame, emplace. rewrite E. by rewrite E. Qed.

Lemma set_frame_same i l (h : hyps S) v : frames h !! i = Some v -> frame_at i (set_frame i l h) = l.
Proof.
  intros E. unfold frame_at, set_frame, emplace. rewrite !E. cbn. rewrite E. cbn. by rewrite lookup_insert_eq.
Qed.

Lemma set_frame_other i j l (h : hyps S) v :
  buffer_ok h -> frames h !! i = Some v -> j <> i -> frame_at j (set_frame i l h) = frame_at j h.
Proof.
  intros B E Hne. unfold frame_at, set_frame, emplace. rewrite !E. cbn.
  destruct (frames h !! j) as [w|] eqn:Ew; cbn; [|done].
  rewrite lookup_insert_ne; [done|]. intros ->. apply Hne. by eapply bo_inj.
Qed.

Lemma set_frame_buffer i l (h : hyps S) : buffer_ok h -> is_Some (frames h !! i) -> buffer_ok (set_frame i l h).
Proof.
  intros [B1 B2 B3] [v E]. split; rewrite (set_frame_frames _ _ _ _ E); [done| |done].
  intros j w Hw. unfold set_frame, emplace. rewrite E. rewrite E. cbn. eauto.
Qed.

Lemma emplace_next (h : hyps S) :
  buffer_ok h ->
  let i := Z.of_nat (size (frames h)) in
  buffer_ok (emplace i h) /\ Z.of_nat (size (frames (emplace i h))) = i + 1
  /\ (forall f v, frames h !! f = Some v -> frames (emplace i h) !! f = Some v /\ frame_at f (emplace i h) = frame_at f h).
Proof.
  intros B i. pose proof B as [B1 B2 B3].
  assert (Hi : frames h !! i = None).
  { apply eq_None_not_Some. rewrite B3. lia. }
  unfold emplace. rewrite Hi. cbn [frames nextVec store]. split_and!.
  - split; cbn [frames nextVec].
    + intros a b v [(<- & <-)|(Ha & Hv)]%lookup_insert_Some [(<- & E)|(Hb & Hw)]%lookup_insert_Some; [done|..].
      * apply B2 in Hw. lia.
      * subst v. apply B2 in Hv. lia.
      * by eapply B1.
    + intros a v [(<- & <-)|(Ha & Hv)]%lookup_insert_Some; [lia|]. apply B2 in Hv. lia.
    + intros a. rewrite map_size_insert_None by done. rewrite lookup_insert_is_Some, B3. unfold i. lia.
  - rewrite map_size_insert_None by done. unfold i. lia.
  - intros f v Hv. assert (f <> i) by congruence. split; [by rewrite lookup_insert_ne|].
    unfold frame_at. cbn [frames store]. rewrite lookup_insert_ne, Hv by done. cbn.
    rewrite lookup_insert_ne; [done|]. apply B2 in Hv. lia.
Qed.

Lemma extend_fold (h : hyps S) k :
  buffer_ok h -> 0 <= k ->
  let h' := fold_left (fun h i => emplace i h) (zrange (Z.of_nat (size (frames h))) (Z.of_nat (size (frames h)) + k)) h in
  buffer_ok h' /\ Z.of_nat (size (frames h')) = Z.of_nat (size (frames h)) + k
  /\ (forall f v, frames h !! f = Some v -> frames h' !! f = Some v /\ frame_at f h' = frame_at f h).
Proof.
  intros B Hk. revert k Hk h B. refine (natlike_ind _ _ _).
  - intros h B. rewrite zrange_nil by lia. cbn. split_and!; [done|lia|done].
  - intros k Hk IH h B. rewrite zrange_cons by lia. cbn [fold_left].
    destruct (emplace_next h B) as (B1 & E1 & F1).
    destruct (IH _ B1) as (B2 & E2 & F2). rewrite E1 in B2, E2, F2.
    replace (Z.of_nat (size (frames h)) + 1 + k) with (Z.of_nat (size (frames h)) + Z.succ k) in * by lia.
    split_and!; [done|lia|].
    intros f v Hv. destruct (F1 f v Hv) as [G1 G2]. destruct (F2 f v G1) as [G3 G4]. split; [done|congruence].
Qed.

Lemma extend_spec n (h : hyps S) :
  buffer_ok h ->
  buffer_ok (extend n h) /\ Z.of_nat (size (frames (extend n h))) = Z.max n (Z.of_nat (size (frames h)))
  /\ (forall f v, frames h !! f = Some v -> frames (extend n h) !! f = Some v /\ frame_at f (extend n h) = frame_at f h).
Proof.
  intros B. unfold extend. destruct (Z.ltb_spec (Z.of_nat (size (frames h))) n).
  - destruct (extend_fold h (n - Z.of_nat (size (frames h))) B) as (B1 & E1 & F1); [lia|].
    replace (Z.of_nat (size (frames h)) + (n - Z.of_nat (size (frames h)))) with n in * by lia.
    split_and!; [done|lia|done].
  - split_and!; [done|lia|done].
Qed.

Lemma linked_extend R Q last n (h : hyps S) : linked R Q last h -> linked R Q last (extend n h).
Proof.
  intros [B Hl Hr Hs]. destruct (extend_spec n h B) as (B1 & E1 & F1).
  assert (Hf : forall f, 0 <= f <= last -> exists v, frames h !! f = Some v
    /\ frames (extend n h) !! f = Some v /\ frame_at f (extend n h) = frame_at f h).
  { intros f Hf. destruct (proj2 (bo_dom _ B f)) as [v Hv]; [lia|]. exists v. destruct (F1 f v Hv). done. }
  split; [done|lia| |].
  - destruct (Hf 0) as (v & _ & _ & ->); [lia|]. done.
  - intros f x Hfl. destruct (Hf (f + 1)) as (w & _ & _ & ->); [lia|].
    intros Hx. destruct (Hs f x Hfl Hx) as (v & j & y & P1 & P2 & P3 & P4).
    destruct (Hf f) as (v' & Hv & Hv' & ->); [lia|]. exists v, j, y. split_and!; try done. congruence.
Qed.

(** The next frame is filled with children of the last one. *)
Lemma linked_push R Q last (h : hyps S) out :
  linked R Q last h -> last + 1 < Z.of_nat (size (frames h)) ->
  (forall x, x ∈ out -> exists p y, (p, y) ∈ addressed last h /\ parent x = Some p /\ R last y x) ->
  linked R Q (last + 1) (set_frame (last + 1) out h).
Proof.
  intros [B Hl Hr Hs] Hsz Ho. destruct (proj2 (bo_dom _ B (last + 1))) as [v Hv]; [lia|].
  pose proof (set_frame_frames (last + 1) out h v Hv) as Ef.
  assert (Hf : forall f, f <> last + 1 -> frame_at f (set_frame (last + 1) out h) = frame_at f h).
  { intros f Hne. by apply (set_frame_other _ _ _ _ v). }
  split.
  - apply set_frame_buffer; [done|]. eauto.
  - rewrite Ef. lia.
  - rewrite Hf by lia. done.
  - intros f x Hfl. destruct (Z.eq_dec f last) as [->|Hne].
    + rewrite (set_frame_same _ _ _ v Hv), Ef. intros Hx. destruct (Ho x Hx) as (p & y & Hp & E & HR).
      apply addressed_lookup in Hp as (w & j & -> & Hw & Hy). exists w, j, y. rewrite Hf by lia. done.
    + rewrite !Hf, Ef by lia. apply Hs. lia.
Qed.

Lemma linked_frame R Q last (h : hyps S) f : linked R Q last h -> 0 <= f <= last -> exists v, frames h !! f = Some v.
Proof. intros [B Hl _ _] Hf. destruct (proj2 (bo_dom _ B f)) as [v Hv]; [lia|]. eauto. Qed.

Lemma addressed_frame (h : hyps S) f p x : (p, x) ∈ addressed f h -> x ∈ frame_at f h.
Proof. intros (v & j & _ & _ & Hx)%addressed_lookup. by eapply list_elem_of_lookup_2. Qed.

(** [decodeBegin]: a buffer with the initial hypothesis. *)
Lemma hyps_empty_ok : buffer_ok (hyps_empty (S := S)).
Proof.
  split; cbn.
  - intros i j v Hv. by rewrite lookup_empty in Hv.
  - intros i v Hv. by rewrite lookup_empty in Hv.
  - intros i. rewrite map_size_empty, lookup_empty. split; [intros [? ?]; done|cbn; lia].
Qed.

Lemma linked_init R Q (x : S) :
  parent x = None -> Q x -> linked R Q 0 (set_frame 0 [x] (emplace 0 hyps_empty)).
Proof.
  intros Hp HQ. pose proof hyps_empty_ok as B0.
  destruct (emplace_next _ B0) as (B1 & E1 & _).
  change (Z.of_nat (size (frames (hyps_empty (S := S))))) with 0 in *.
  destruct (proj2 (bo_dom _ B1 0)) as [v Hv]; [lia|].
  split.
  - apply set_frame_buffer; eauto.
  - rewrite (set_frame_frames _ _ _ v Hv). lia.
  - rewrite (set_frame_same _ _ _ v Hv). intros y ->%list_elem_of_singleton. done.
  - intros f y Hf. lia.
Qed.

(** ** Growing the buffer early or late *)

Lemma emplace_set_frame i j l (h : hyps S) :
  buffer_ok h -> is_Some (frames h !! i) -> set_frame i l (emplace j h) = emplace j (set_frame i l h).
Proof.
  intros B [v Hv]. unfold emplace at 1. destruct (frames h !! j) as [w|] eqn:Hj.
  - unfold emplace. rewrite (set_frame_frames _ _ _ _ Hv), Hj. done.
  - assert (i <> j) by congruence.
    assert (Ei : forall h' : hyps S, frames h' !! i = Some v -> set_frame i l h' = Hyps (frames h') (<[v := l]> (store h')) (nextVec h')).
    { intros h' E. unfold set_frame, emplace. by rewrite !E. }
    rewrite !Ei; [|done|cbn; by rewrite lookup_insert_ne].
    unfold emplace. cbn [frames store nextVec]. rewrite Hj. f_equal.
    apply insert_insert_ne. apply (bo_new _ B) in Hv. lia.
Qed.

Lemma emplace_keeps j (h : hyps S) i v : frames h !! i = Some v -> frames (emplace j h) !! i = Some v.
Proof.
  intros Hv. unfold emplace. destruct (frames h !! j) eqn:Hj; [done|]. cbn. rewrite lookup_insert_ne; [done|congruence].
Qed.

Lemma fold_emplace_set_frame k lo i l (h : hyps S) :
  buffer_ok h -> lo = Z.of_nat (size (frames h)) -> is_Some (frames h !! i) ->
  set_frame i l (fold_left (fun h j => emplace j h) (zrange lo (lo + Z.of_nat k)) h)
  = fold_left (fun h j => emplace j h) (zrange lo (lo + Z.of_nat k)) (set_frame i l h).
Proof.
  revert lo h. induction k as [|k IH]; intros lo h B -> [v Hv].
  - rewrite zrange_nil by lia. done.
  - rewrite zrange_cons by lia. cbn [fold_left].
    destruct (emplace_next h B) as (B1 & E1 & _).
    replace (Z.of_nat (size (frames h)) + Z.of_nat (Datatypes.S k))
      with (Z.of_nat (size (frames h)) + 1 + Z.of_nat k) by lia.
    rewrite IH; [|done|lia|exists v; by apply emplace_keeps].
    rewrite emplace_set_frame by eauto. done.
Qed.

Lemma extend_set_frame n i l (h : hyps S) :
  buffer_ok h -> is_Some (frames h !! i) -> set_frame i l (extend n h) = extend n (set_frame i l h).
Proof.
  intros B Hi. unfold extend. destruct Hi as [v Hv]. rewrite (set_frame_frames _ _ _ _ Hv).
  destruct (Z.ltb_spec (Z.of_nat (size (frames h))) n) as [Hlt|]; [|done].
  pose proof (fold_emplace_set_frame (Z.to_nat (n - Z.of_nat (size (frames h)))) (Z.of_nat (size (frames h))) i l h B
    eq_refl ltac:(eauto)) as E.
  replace (Z.of_nat (size (frames h)) + Z.of_nat (Z.to_nat (n - Z.of_nat (size (frames h))))) with n in E by lia.
  exact E.
Qed.

Lemma extend_addressed n f (h : hyps S) : buffer_ok h -> is_Some (frames h !! f) -> addressed f (extend n h) = addressed f h.
Proof.
  intros B [v Hv]. destruct (extend_spec n h B) as (_ & _ & F). destruct (F f v Hv) as [E1 E2].
  unfold addressed. rewrite Hv, E1. unfold frame_at in E2. rewrite Hv, E1 in E2. cbn in E2. by rewrite E2.
Qed.

Lemma extend_extend n m (h : hyps S) : buffer_ok h -> n <= m -> extend m (extend n h) = extend m h.
Proof.
  intros B Hnm. destruct (extend_spec n h B) as (_ & E & _).
  unfold extend in *. destruct (Z.ltb_spec (Z.of_nat (size (frames h))) n) as [Hlt|Hge].
  - rewrite (proj2 (Z.ltb_lt (Z.of_nat (size (frames h))) m)) by lia. rewrite E, Z.max_l by lia.
    destruct (Z.ltb_spec n m) as [Hl|Hl].
    + rewrite <- fold_left_app. f_equal. symmetry. apply zrange_app. lia.
    + assert (n = m) as -> by lia. done.
  - done.
Qed.

(** ** The loop over frames *)

Lemma frames_loop {W} R Q T (step : hyps S * W -> Z -> result (hyps S * W)) k t h w :
  (forall h w t, linked R Q t h -> t < T -> t + 1 < Z.of_nat (size (frames h)) ->
     exists h' w', step (h, w) t = Ok (h', w') /\ linked R Q (t + 1) h' /\ frames h' = frames h) ->
  t + Z.of_nat k = T -> linked R Q t h -> T + 1 < Z.of_nat (size (frames h)) ->
  exists h' w', foldM_result step (h, w) (zrange t T) = Ok (h', w') /\ linked R Q T h' /\ frames h' = frames h.
Proof.
  intros Hstep. revert t h w. induction k as [|k IH]; intros t h w Hk L Hsz.
  - rewrite zrange_nil by lia. assert (t = T) as <- by lia. eexists _, _. split; [done|]. done.
  - rewrite zrange_cons by lia. cbn [foldM_result].
    destruct (Hstep h w t L) as (h1 & w1 & E & L1 & F1); [lia..|]. rewrite E.
    destruct (IH (t + 1) h1 w1) as (h2 & w2 & E2 & L2 & F2); [lia|done|by rewrite F1|].
    rewrite E2. eexists _, _. split_and!; [done|done|congruence].
Qed.

(** All hypotheses of a frame have a result, in order. *)
Lemma getAllHypothesis_paths R Q last (h : hyps S) f :
  linked R Q last h -> 0 <= f <= last ->
  exists rs, getAllHypothesis h (frame_at f h) f = Ok rs
    /\ Forall2 (fun x r => exists l, path R Q f x l
         /\ r = DResult (score x) (amScore x) (lmScore x) (getWord <$> l) (token <$> l)) (frame_at f h) rs.
Proof.
  intros L Hf. unfold getAllHypothesis.
  destruct (mapM_result_total (fun x => getHypothesis h (Some x) f) (frame_at f h)) as [rs Hrs].
  { intros x Hx. destruct (getHypothesis_path _ _ _ _ f x L Hf Hx) as (l & _ & E). eauto. }
  exists rs. split; [done|]. apply mapM_result_Ok in Hrs.
  eapply Forall2_impl_strong; [exact Hrs|]. intros x r Hx E.
  destruct (getHypothesis_path _ _ _ _ f x L Hf Hx) as (l & Hl & E'). exists l. split; [done|]. congruence.
Qed.

(** Results inherit the order of the hypotheses. *)
Lemma sorted_results (out : list S) rs :
  Forall2 (fun x r => r_score r = score x) out rs -> sorted compareNodeScore out ->
  sorted (fun a b => fgt (r_score a) (r_score b)) rs.
Proof.
  intros HF. induction HF as [|x r out rs Hx HF IH]; intros Hs; [constructor|].
  inversion Hs as [|? ? Hs' Hf]; subst. constructor; [by apply IH|].
  pose proof (proj1 (Forall_forall _ _) Hf) as Hf'. apply Forall_forall. intros q [i Hi]%list_elem_of_lookup.
  destruct (Forall2_lookup_r _ _ _ _ _ HF Hi) as (y & Hy & Hyq). rewrite Hyq, Hx.
  apply Hf'. by eapply list_elem_of_lookup_2.
Qed.
End Paths.
