(* ===== verification/LexiconFreeProofs.v ===== *)
(** The lexicon-free decoder: totality, what its results mean, and online use. *)
From Stdlib Require Import Floats.SpecFloat.
From S2P Require Import Prelude Float FloatRound StdAlgorithm DecoderUtils DecoderBeam DecoderPaths LexiconFree.

Open Scope Z_scope.

Abbreviation St := LexiconFreeDecoderState.

(** The options the theorems assume: a sane beam, plain maximum on merging and
    canonical weights. *)
Record options_ok (opt : LexiconFreeDecoderOptions) : Prop := {
  oo_beam : 0 <= beamSize opt;
  oo_thr : nonneg_finite (beamThreshold opt) = true;
  oo_sil : valid64 (silScore opt);
  oo_lmw : valid64 (lmWeight opt);
  oo_max : logAdd opt = false
}.

(** * Replaying a token sequence *)

(** A hypothesis without addresses: the labels the language model has seen stand
    for its state. *)
Record rstate := RS { q_score : f64; q_labels : list Z; q_token : Z; q_blank : bool; q_am : f64; q_lm : f64 }.

(** A hypothesis whose state stands for the labels [h]. *)
Definition rs_of (x : St) (h : list Z) : rstate := RS (s_score x) h (s_token x) (s_prevBlank x) (s_amScore x) (s_lmScore x).

Section Replay.
Context (opt_ : LexiconFreeDecoderOptions) (transitions_ : list f32) (sil_ blank_ : Z).
Context (scoreOf : list Z -> Z -> f32) (finishOf : list Z -> f32).

(** Whether token [n] after hypothesis [y] is a new label for the language model. *)
Definition emits (y : rstate) (n : Z) : bool :=
  (bool_decide (criterionType opt_ = ASG) && negb (n =? q_token y))
  || (bool_decide (criterionType opt_ = CTC) && negb (n =? blank_)
      && (negb (n =? q_token y) || q_blank y)).

(** The acoustic score of token [n] at frame [t]. *)
Definition amTerm (emissions : list f32) (N t : Z) (y : rstate) (n : Z) : f64 :=
  let e := widen (entry emissions (t * N + n)) in
  if (0 <? t) && bool_decide (criterionType opt_ = ASG)
  then f64_add e (widen (entry transitions_ (n * N + q_token y))) else e.

(** The hypothesis [y] extended with token [n] at frame [t]. *)
Definition replayStep (emissions : list f32) (N t : Z) (y : rstate) (n : Z) : rstate :=
  let sc := f64_add (q_score y) (widen (entry emissions (t * N + n))) in
  let sc := if n =? sil_ then f64_add sc (silScore opt_) else sc in
  let am := f64_add (q_am y) (amTerm emissions N t y n) in
  if emits y n
  then RS (f64_add sc (f64_mul (lmWeight opt_) (widen (scoreOf (q_labels y) n)))) (q_labels y ++ [n]) n
         false am (f64_add (q_lm y) (widen (scoreOf (q_labels y) n)))
  else RS sc (q_labels y) n (bool_decide (criterionType opt_ = CTC) && (n =? blank_)) am (q_lm y).

Definition replayEnd (y : rstate) : rstate :=
  RS (f64_add (q_score y) (f64_mul (lmWeight opt_) (widen (finishOf (q_labels y))))) (q_labels y)
    sil_ false (q_am y) (f64_add (q_lm y) (widen (finishOf (q_labels y)))).

Definition replayInit : rstate := RS f_zero [] sil_ false f_zero f_zero.

(** The hypothesis after the tokens [toks] of frames [t], [t + 1], ... *)
Fixpoint replay (emissions : list f32) (N t : Z) (y : rstate) (toks : list Z) : rstate :=
  match toks with
  | [] => y
  | n :: r => replay emissions N (t + 1) (replayStep emissions N t y n) r
  end.

Lemma replay_snoc emissions N t y toks n :
  replay emissions N t y (toks ++ [n]) = replayStep emissions N (t + zlen toks) (replay emissions N t y toks) n.
Proof.
  revert t y. induction toks as [|m r IH]; intros t y; cbn [replay app].
  - f_equal. unfold zlen. cbn. lia.
  - rewrite IH. f_equal. unfold zlen. cbn. lia.
Qed.

(** What a returned result says. *)
Definition explained {alg : StdAlgo} (emissions : list f32) (T N : Z) (r : DecodeResult) : Prop :=
  exists toks, zlen toks = T
    /\ (forall i n, toks !! i = Some n -> exists ts, tokensAt opt_ emissions (Z.of_nat i) N = Ok ts /\ n ∈ ts)
    /\ tokens r = sil_ :: toks ++ [sil_] /\ words r = replicate (Z.to_nat (T + 2)) (-1)
    /\ let x := replayEnd (replay emissions N 0 replayInit toks) in
       r_score r = q_score x /\ r_amScore r = q_am x /\ r_lmScore r = q_lm x.

(** ** CTC labels *)

(** The labels of a token sequence under CTC: repetitions are merged and blanks
    dropped. *)
Fixpoint collapse (prev : Z) (toks : list Z) : list Z :=
  match toks with
  | [] => []
  | n :: r => if (n =? blank_) || (n =? prev) then collapse n r else n :: collapse n r
  end.

(** The language model's score of some labels after the labels [h]. *)
Fixpoint lmRun (h : list Z) (acc : f64) (labels : list Z) : f64 :=
  match labels with
  | [] => acc
  | n :: r => lmRun (h ++ [n]) (f64_add acc (widen (scoreOf h n))) r
  end.

Lemma replay_ctc emissions N t y toks :
  criterionType opt_ = CTC -> (q_blank y = true -> q_token y = blank_) ->
  let x := replay emissions N t y toks in
  q_labels x = q_labels y ++ collapse (q_token y) toks /\ q_lm x = lmRun (q_labels y) (q_lm y) (collapse (q_token y) toks).
Proof.
  intros Hc. revert t y. induction toks as [|n r IH]; intros t y Hb; cbn [replay collapse lmRun]; [by rewrite app_nil_r|].
  set (z := replayStep emissions N t y n).
  assert (Ez : q_token z = n /\ (q_blank z = true -> n = blank_)
    /\ q_labels z = (if (n =? blank_) || (n =? q_token y) then q_labels y else q_labels y ++ [n])
    /\ q_lm z = (if (n =? blank_) || (n =? q_token y) then q_lm y
                      else f64_add (q_lm y) (widen (scoreOf (q_labels y) n)))).
  { unfold z, replayStep, emits. rewrite Hc. rewrite bool_decide_false by done. rewrite bool_decide_true by done.
    cbn [orb andb]. destruct (Z.eqb_spec n blank_) as [->|Hnb]; cbn [negb orb andb]; [done|].
    destruct (Z.eqb_spec n (q_token y)) as [->|Hny]; cbn [negb orb andb].
    - destruct (q_blank y); [by specialize (Hb eq_refl)|]. done.
    - done. }
  destruct Ez as (E1 & E2 & E3 & E4). specialize (IH (t + 1) z). cbn zeta in IH. rewrite E1, E3, E4 in IH.
  destruct (IH E2) as [-> ->]. destruct ((n =? blank_) || (n =? q_token y)); [done|]. by rewrite <- app_assoc.
Qed.
End Replay.

(** * Decoding *)

Section Proofs.
Context {W : Type} (lm_ : LM W) (exp log1p : f64 -> f64) {alg : StdAlgo} `{!StdAlgoLaws alg}.
Context (opt_ : LexiconFreeDecoderOptions) (transitions_ : list f32) (sil_ blank_ : Z).
Hypothesis Hopt : options_ok opt_.

(** The language model, known by its contract. *)
Context (tok : Z -> Prop) (inv : W -> Prop) (means : W -> lmptr -> list Z -> Prop) (ready : W -> lmptr -> Prop).
Context (scoreOf : list Z -> Z -> f32) (finishOf : list Z -> f32).
Hypothesis Hlm : lm_contract lm_ tok inv means ready scoreOf finishOf.

Context (emissions : list f32) (T N : Z).
Hypothesis HT : 0 <= T.
Hypothesis HN : 0 <= N.
Hypothesis Hem : emissions_ok (beamSizeToken opt_) emissions T N.
Hypothesis Htr : transitions_ok (criterionType opt_) transitions_ N.
Hypothesis Htok : forall n, 0 <= n < N -> tok n.

Abbreviation step := (replayStep opt_ transitions_ sil_ blank_ scoreOf emissions N).
Abbreviation finish := (replayEnd opt_ sil_ finishOf).

Lemma tokensAt_ok t : 0 <= t < T -> exists ts, tokensAt opt_ emissions t N = Ok ts /\ forall n, n ∈ ts -> 0 <= n < N.
Proof.
  intros Ht. unfold tokensAt, tokenOrder. destruct (frameOrder_ok _ _ _ _ Hem HN t Ht) as (idx & -> & Hidx).
  eexists. split; [done|]. intros n Hn. apply Hidx. eapply subseteq_take, Hn.
Qed.

(** ** Extending a hypothesis *)

(** [x] extends [y] at frame [t], with the addresses of the model's state [w]. *)
Definition extends (w : W) (t : Z) (y x : St) : Prop :=
  exists h, means w (s_lmState y) h /\ means w (s_lmState x) (q_labels (step t (rs_of y h) (s_token x)))
    /\ rs_of x (q_labels (step t (rs_of y h) (s_token x))) = step t (rs_of y h) (s_token x)
    /\ (exists ts, tokensAt opt_ emissions t N = Ok ts /\ s_token x ∈ ts) /\ valid64 (s_score x).

(** [x] closes [y]. *)
Definition closes (w : W) (y x : St) : Prop :=
  exists h, means w (s_lmState y) h /\ rs_of x h = finish (rs_of y h) /\ valid64 (s_score x).

Definition from_prev (R : St -> St -> Prop) (prevs : list (ptr * St)) (x : St) : Prop :=
  exists p y, (p, y) ∈ prevs /\ s_parent x = Some p /\ R y x.

(** The model's state has grown: addresses keep their meaning and stay ready. *)
Definition later (w w' : W) : Prop :=
  inv w' /\ (forall s h, means w s h -> means w' s h) /\ (forall s, ready w s -> ready w' s).

Lemma later_trans w w' w'' : later w w' -> later w' w'' -> later w w''.
Proof. intros (H1 & H2 & H3) (H4 & H5 & H6). split_and!; auto. Qed.

(** A hypothesis that frame [t] can extend. *)
Definition live (w : W) (t : Z) (y : St) : Prop :=
  ready w (s_lmState y) /\ (exists h, means w (s_lmState y) h) /\ valid64 (s_score y) /\ (0 < t -> 0 <= s_token y < N).

(** The candidates collected from [prevs], starting with the model in state [w0]. *)
Definition collected (R : W -> St -> St -> Prop) (w0 : W) (prevs : list (ptr * St)) (acc : cands St * W) : Prop :=
  later w0 acc.2 /\ cands_ok (from_prev (R acc.2) prevs) acc.1.

(** One more candidate. *)
Lemma collected_add (R : W -> St -> St -> Prop) w0 prevs c w w' sc mk :
  (forall y x, R w y x -> R w' y x) -> later w w' -> valid64 sc -> (forall z, score (mk z) = z) ->
  (valid64 sc -> from_prev (R w') prevs (mk sc)) ->
  collected R w0 prevs (c, w) -> collected R w0 prevs (candidatesAdd (beamThreshold opt_) sc mk c, w').
Proof.
  intros HR Hw Hv Hmk Hx [Hl Hc]. split; cbn [fst snd] in *; [by eapply later_trans|].
  apply candidatesAdd_ok; [apply Hopt|done|done|done|]. eapply cands_ok_impl; [|exact Hc].
  intros x (p & y & ? & ? & ?). exists p, y. auto.
Qed.

Lemma extends_later w w' t y x : later w w' -> extends w t y x -> extends w' t y x.
Proof. intros (_ & Hm & _) (h & H1 & H2 & H3). exists h. split_and!; [by apply Hm|by apply Hm|apply H3..]. Qed.

Lemma closes_later w w' y x : later w w' -> closes w y x -> closes w' y x.
Proof. intros (_ & Hm & _) (h & H1 & H2). exists h. auto. Qed.

Lemma lf_proposeToken_ok w0 t prevs p y n ts acc :
  0 <= t < T -> (p, y) ∈ prevs -> live w0 t y -> tokensAt opt_ emissions t N = Ok ts -> n ∈ ts -> 0 <= n < N ->
  collected (fun w => extends w t) w0 prevs acc ->
  exists acc', proposeToken lm_ opt_ transitions_ sil_ blank_ 0 emissions t N (p, y) acc n = Ok acc'
    /\ collected (fun w => extends w t) w0 prevs acc'.
Proof.
  intros Ht Hin (Hr & (h & Hh) & Hv & Hp) Hts Hn Hrange Hacc. destruct acc as [c w]. pose proof Hacc as [Hl _]. cbn [fst snd] in Hl.
  pose proof Hl as (Hi & Hm & Hrd). unfold proposeToken. rewrite Z.add_0_l.
  destruct (emission_ok _ _ _ _ Hem HN t n Ht Hrange) as [e Ee]. rewrite Ee. cbn [mbind result_bind].
  apply array_at_entry in Ee. subst e.
  assert (Eam : (if (0 <? t) && bool_decide (criterionType opt_ = ASG)
          then tr ← array_at transitions_ (n * N + s_token y);
               Ok (f64_add (widen (entry emissions (t * N + n))) (widen tr))
          else Ok (widen (entry emissions (t * N + n)))) = Ok (amTerm opt_ transitions_ emissions N t (rs_of y h) n)).
  { unfold amTerm. destruct (Z.ltb_spec 0 t); cbn [andb]; [|done]. case_bool_decide; [|done].
    destruct (transition_ok _ _ _ n (s_token y) Htr) as [z Ez]; [done|done|auto|]. rewrite Ez.
    apply array_at_entry in Ez. by subst z. }
  rewrite Eam. cbn [mbind result_bind].
  set (sc := if n =? sil_ then _ else _).
  assert (Vsc : valid64 sc) by (unfold sc; pose proof (oo_sil _ Hopt); destruct (n =? sil_); auto with fl).
  assert (Hex : forall w' z ls b am lm', later w w' -> valid64 z ->
    means w' ls (q_labels (step t (rs_of y h) n)) ->
    RS z (q_labels (step t (rs_of y h) n)) n b am lm' = step t (rs_of y h) n ->
    from_prev (extends w' t) prevs (LFState z ls (Some p) n b am lm')).
  { intros w' z ls b am lm' (_ & Hm' & _) Vz Hls E. exists p, y. split; [done|]. split; [done|]. exists h.
    split_and!; [auto|exact Hls|exact E|eauto|done]. }
  assert (Hl0 : later w w) by (by split_and!).
  pose proof (oo_lmw _ Hopt). unfold replayStep in Hex.
  fold sc in Hex.
  match goal with |- context [if ?b then mbind _ _ else _] => change b with (emits opt_ blank_ (rs_of y h) n) end.
  destruct (emits opt_ blank_ (rs_of y h) n) eqn:Ee.
  - destruct (lc_score _ _ _ _ _ _ _ Hlm w (s_lmState y) h n Hi (Hrd _ Hr) (Hm _ _ Hh) (Htok _ Hrange))
      as (s' & w' & -> & Hi' & Hs' & Hm' & Hr'). cbn [mbind result_bind].
    assert (Hl' : later w w') by (by split_and!). eexists. split; [done|].
    apply (collected_add _ _ _ _ w); [intros ? ?; by apply extends_later|done|auto with fl|done| |done].
    intros Vz. by apply Hex.
  - destruct (bool_decide (criterionType opt_ = CTC) && (n =? blank_)) eqn:Eb; (eexists; split; [done|]);
      (apply (collected_add _ _ _ _ w); [intros ? ?; by apply extends_later|done|done|done| |done]);
      intros Vz; apply Hex; auto.
Qed.

Lemma lf_propose_ok w t prevs :
  0 <= t < T -> inv w -> (forall p y, (p, y) ∈ prevs -> live w t y) ->
  exists acc, propose lm_ opt_ transitions_ sil_ blank_ 0 emissions t N prevs w = Ok acc
    /\ collected (fun w => extends w t) w prevs acc.
Proof.
  intros Ht Hi Hlive. unfold propose. destruct (tokensAt_ok t Ht) as (ts & Hts & Hrange). rewrite Hts. cbn [mbind result_bind].
  apply (foldM_result_total _ (collected (fun w => extends w t) w prevs)).
  - intros acc [p y] Hin Hacc. unfold proposeHyp.
    apply (foldM_result_total _ (collected (fun w => extends w t) w prevs)); [|done].
    intros acc' n Hn Hacc'. eapply lf_proposeToken_ok; eauto.
  - split; [by split_and!|]. apply candidatesReset_ok.
Qed.

(** ** Frames *)

(** Frame [f + 1] extends frame [f]; the last frame closes the hypotheses. *)
Definition stepR (w : W) (f : Z) (y x : St) : Prop := (f < T /\ extends w f y x) \/ (f = T /\ closes w y x).

Definition rootQ (w : W) (x : St) : Prop := means w (s_lmState x) [] /\ rs_of x [] = replayInit sil_.

Abbreviation good w := (linked (stepR w) (rootQ w)).

Lemma good_later w w' last h : later w w' -> good w last h -> good w' last h.
Proof.
  intros Hl. apply linked_impl.
  - intros f y x [[? ?]|[? ?]]; [left|right]; (split; [done|]); [by eapply extends_later|by eapply closes_later].
  - intros x [? ?]. split; [|done]. by apply Hl.
Qed.

(** Between two frames; [fr] are the vectors of the buffer. *)
Definition between (fr : gmap Z nat) (t : Z) (hw : hyps St * W) : Prop :=
  good hw.2 t hw.1 /\ inv hw.2 /\ frames hw.1 = fr /\ forall x, x ∈ frame_at t hw.1 -> ready hw.2 (s_lmState x).

Lemma between_live fr t h w x : t <= T -> between fr t (h, w) -> x ∈ frame_at t h -> live w t x.
Proof.
  intros HtT (L & _ & _ & Hr) Hx. cbn [fst snd] in *. split; [auto|]. destruct (ln_last _ _ _ _ L) as [H0 _].
  destruct (Z.eq_dec t 0) as [->|Hne].
  - destruct (ln_root _ _ _ _ L x Hx) as [_ [Hm E]]. split; [by eexists|]. split; [|lia].
    injection E as -> _. done.
  - replace t with (t - 1 + 1) in Hx by lia.
    destruct (ln_step _ _ _ _ L (t - 1) x) as (v & j & y & _ & _ & _ & [[_ He]|[? _]]); [lia|done| |lia].
    destruct He as (h' & _ & Hm & _ & (ts & Hts & Hin) & Hv). split; [by eexists|]. split; [done|]. intros _.
    destruct (tokensAt_ok (t - 1)) as (ts' & Hts' & Hrange); [lia|]. rewrite Hts in Hts'. injection Hts' as <-. auto.
Qed.

Lemma lf_decodeFrame_good fr hw t :
  T + 1 < Z.of_nat (size fr) -> 0 <= t < T -> between fr t hw ->
  exists hw', decodeFrame lm_ exp log1p opt_ transitions_ sil_ blank_ 0 0 emissions N hw t = Ok hw' /\ between fr (t + 1) hw'.
Proof.
  intros Hsz Ht. destruct hw as [h w]. intros Hb. pose proof Hb as (L & Hi & Hf & Hr). cbn [fst snd] in *.
  unfold decodeFrame. rewrite Z.add_0_l.
  destruct (lf_propose_ok w t (addressed t h) Ht Hi) as ([c w1] & -> & Hl & Hc).
  { intros p y Hy. eapply between_live; [|exact Hb|by eapply addressed_frame]. lia. }
  cbn [fst snd mbind result_bind] in *.
  destruct (candidatesStore_ok exp log1p _ (beamThreshold opt_) (beamSize opt_) false c (oo_thr _ Hopt) (oo_beam _ Hopt) Hc)
    as (out & Ho & _ & Hx).
  rewrite (oo_max _ Hopt), Ho. unfold updateLMCache.
  destruct (lc_update _ _ _ _ _ _ _ Hlm w1 (lmState <$> out)) as (w2 & -> & Hi2 & Hm2 & Hr2); [apply Hl| |].
  { intros s (x & -> & Hin)%list_elem_of_fmap. destruct (Hx x Hin) as (_ & _ & _ & p & y & _ & _ & h' & _ & Hm & _). by eexists. }
  cbn [mbind result_bind]. eexists. split; [done|].
  destruct (proj2 (bo_dom _ (ln_buffer _ _ _ _ L) (t + 1))) as [v Hv]; [rewrite Hf; lia|].
  assert (Hmm : forall s h, means w s h -> means w2 s h) by (intros; apply Hm2; by apply Hl).
  split_and!; cbn [fst snd]; [|done|by rewrite (set_frame_frames _ _ _ v)|].
  - apply linked_push; [|rewrite Hf; lia|].
    + eapply linked_impl; [..|exact L].
      * intros f y x [[? (h' & H1 & H2 & H3)]|[? (h' & H1 & H2)]]; [left|right]; (split; [done|]); exists h'; auto.
      * intros x [? ?]. split; auto.
    + intros x Hin. destruct (Hx x Hin) as (_ & _ & _ & p & y & Hy & Hp & h' & H1 & H2 & H3).
      exists p, y. split_and!; [done|done|]. left. split; [lia|]. exists h'. split_and!; auto; apply H3.
  - rewrite (set_frame_same _ _ _ v Hv). intros x Hin. apply Hr2, list_elem_of_fmap. by exists x.
Qed.

Lemma lf_proposeEnd_good fr h w :
  between fr T (h, w) ->
  exists acc, foldM_result (proposeEnd lm_ opt_ sil_) (candidatesReset, w) (addressed T h) = Ok acc
    /\ collected closes w (addressed T h) acc.
Proof.
  intros Hb. pose proof Hb as (_ & Hi & _). cbn [fst snd] in Hi.
  apply (foldM_result_total _ (collected closes w (addressed T h))).
  2: { split; [by split_and!|]. apply candidatesReset_ok. }
  intros [c w1] [p y] Hq Hc. pose proof Hc as [(Hi1 & Hm1 & Hr1) _]. cbn [fst snd] in *. unfold proposeEnd.
  destruct (between_live _ _ _ _ y (Z.le_refl T) Hb) as (Hr & (h' & Hh) & Hv & _); [by eapply addressed_frame|].
  destruct (lc_finish _ _ _ _ _ _ _ Hlm w1 (s_lmState y) h') as (s' & w2 & -> & Hi2 & Hm2 & Hr2); [auto..|].
  cbn [mbind result_bind]. eexists. split; [done|]. assert (Hl : later w1 w2) by (by split_and!).
  pose proof (oo_lmw _ Hopt). apply (collected_add _ _ _ _ w1); [intros ? ?; by apply closes_later|done|auto with fl|done| |done].
  intros Vz. exists p, y. split; [done|]. split; [done|]. exists h'. auto.
Qed.

(** The hypotheses of a path are those of its tokens. *)
Lemma path_replay w f x l :
  inv w -> path (stepR w) (rootQ w) f x l -> f <= T ->
  exists toks h, token <$> l = sil_ :: toks /\ zlen toks = f
    /\ (forall i n, toks !! i = Some n -> exists ts, tokensAt opt_ emissions (Z.of_nat i) N = Ok ts /\ n ∈ ts)
    /\ means w (s_lmState x) h
    /\ rs_of x h = replay opt_ transitions_ sil_ blank_ scoreOf emissions N 0 (replayInit sil_) toks.
Proof.
  intros Hi. induction 1 as [x [Hm Hx]|f y x l Hp IH HR]; intros Hf.
  - exists [], []. split_and!; [|done|done|done|done]. cbn. pose proof (f_equal q_token Hx) as Et. cbn in Et. by rewrite Et.
  - destruct IH as (toks & h & E1 & E2 & E3 & Hm & E4); [lia|].
    destruct HR as [(Hlt & h' & Hy & Hx & Ex & Hin & _)|(Heq & _)]; [|lia].
    rewrite (lc_fun _ _ _ _ _ _ _ Hlm w _ _ _ Hi Hy Hm) in *.
    exists (toks ++ [s_token x]), (q_labels (step f (rs_of y h) (s_token x))). rewrite fmap_app, E1. split_and!; [done| | |done|].
    + unfold zlen in *. rewrite length_app. cbn. lia.
    + intros i n [[_ Hi']|[-> <-]]%lookup_snoc_Some; [by apply E3|]. unfold zlen in E2. by rewrite E2.
    + by rewrite replay_snoc, E2, <- E4, Z.add_0_l.
Qed.

Abbreviation explains := (explained opt_ transitions_ sil_ blank_ scoreOf finishOf emissions T N).

Lemma path_explained w x l :
  inv w -> path (stepR w) (rootQ w) (T + 1) x l ->
  explains (DResult (score x) (amScore x) (lmScore x) (getWord <$> l) (token <$> l)).
Proof.
  intros Hi Hl. inversion Hl as [|f y ? l' Hp HR]; subst; [lia|]. assert (f = T) as -> by lia.
  destruct HR as [(? & _)|(_ & h' & Hy & Ex & _)]; [lia|].
  destruct (path_replay w T y l' Hi Hp) as (toks & h & T1 & T2 & T3 & Hm & T4); [lia|].
  rewrite (lc_fun _ _ _ _ _ _ _ Hlm w _ _ _ Hi Hy Hm) in *. rewrite T4 in Ex.
  exists toks. cbn [tokens words r_score r_amScore r_lmScore]. rewrite !fmap_app, T1, <- Ex. split_and!; try done.
  - pose proof (f_equal q_token Ex) as Et. cbn in Et |- *. by rewrite Et.
  - symmetry. apply replicate_as_elem_of. destruct (path_length _ _ _ _ _ Hl) as [_ Hlen]. split.
    + rewrite <- fmap_app, length_fmap. unfold zlen in Hlen. lia.
    + intros z. rewrite <- fmap_app. by intros (q & -> & _)%list_elem_of_fmap.
Qed.

Lemma lf_decodeBegin_good d :
  inv (lmw d) ->
  exists d', decodeBegin lm_ sil_ d = Ok d' /\ nDecodedFrames_ d' = 0 /\ nPrunedFrames_ d' = 0
    /\ good (lmw d') 0 (hyp_ d') /\ inv (lmw d') /\ forall x, x ∈ frame_at 0 (hyp_ d') -> ready (lmw d') (s_lmState x).
Proof.
  intros Hi. unfold decodeBegin. destruct (lc_start _ _ _ _ _ _ _ Hlm (lmw d) Hi) as (s & w & -> & Hi' & Hm & Hr).
  cbn [mbind result_bind]. eexists. split; [done|]. cbn [nDecodedFrames_ nPrunedFrames_ hyp_ lmw]. split_and!; try done.
  - by apply linked_init.
  - intros x. cbn. by intros ->%list_elem_of_singleton.
Qed.

(** [decodeStep] after [decodeBegin]. *)
Lemma lf_decodeStep_good d :
  inv (lmw d) ->
  exists d1 d2, decodeBegin lm_ sil_ d = Ok d1 /\ decodeStep lm_ exp log1p opt_ transitions_ sil_ blank_ emissions T N d1 = Ok d2
    /\ nDecodedFrames_ d2 = T /\ nPrunedFrames_ d2 = 0 /\ exists fr, T + 1 < Z.of_nat (size fr) /\ between fr T (hyp_ d2, lmw d2).
Proof.
  intros Hi. destruct (lf_decodeBegin_good d Hi) as (d1 & E & E1 & E2 & L0 & Hi1 & Hr1). exists d1. rewrite E. unfold decodeStep.
  rewrite E1, E2, (proj2 (Z.ltb_ge N 0)) by lia. replace (0 - 0 + T + 2) with (T + 2) by lia. replace (0 - 0) with 0 by lia.
  pose proof (linked_extend _ _ _ (T + 2) _ L0) as L1.
  destruct (extend_spec (T + 2) (hyp_ d1) (ln_buffer _ _ _ _ L0)) as (_ & Hsz & Hfr).
  destruct (linked_frame _ _ _ _ 0 L0) as [v Hv]; [destruct (ln_last _ _ _ _ L0); lia|].
  destruct (foldM_zrange (between (frames (extend (T + 2) (hyp_ d1)))) 0 T
    (decodeFrame lm_ exp log1p opt_ transitions_ sil_ blank_ 0 0 emissions N) (extend (T + 2) (hyp_ d1), lmw d1))
    as ([h w] & -> & Hb).
  - done.
  - split_and!; cbn [fst snd]; [done|done|done|]. destruct (Hfr 0 v Hv) as [_ ->]. done.
  - intros t hw Ht. apply lf_decodeFrame_good; [lia|done].
  - eexists. split_and!; [done|done|done|done|]. cbn [hyp_ lmw]. eexists. split; [|exact Hb]. lia.
Qed.

Lemma lf_decode_aux d :
  inv (lmw d) ->
  exists rs, decode lm_ exp log1p opt_ transitions_ sil_ blank_ emissions T N d = Ok rs
    /\ zlen rs <= beamSize opt_ /\ sorted (fun a b => fgt (r_score a) (r_score b)) rs
    /\ forall r, r ∈ rs -> explains r.
Proof.
  intros Hi. destruct (lf_decodeStep_good d Hi) as (d1 & d2 & E1 & E2 & E3 & E4 & fr & Hsz & Hb).
  unfold decode. rewrite E1. cbn [mbind result_bind]. rewrite E2. cbn [mbind result_bind].
  unfold decodeEnd. rewrite E3, E4, Z.sub_0_r.
  destruct (lf_proposeEnd_good _ _ _ Hb) as ([c w1] & -> & Hl & Hc). cbn [fst snd mbind result_bind] in *.
  destruct Hb as (L2 & _ & F2 & _). cbn [fst snd] in *. rewrite <- F2 in Hsz. apply (good_later _ _ _ _ Hl) in L2.
  destruct (candidatesStore_ok exp log1p _ (beamThreshold opt_) (beamSize opt_) true c (oo_thr _ Hopt) (oo_beam _ Hopt) Hc)
    as (out & Ho & Hbeam & Hx).
  rewrite (oo_max _ Hopt), Ho. cbn [mbind result_bind]. unfold getAllFinalHypothesis. cbn [nDecodedFrames_ nPrunedFrames_ hyp_].
  rewrite Z.sub_0_r.
  assert (L3 : linked (stepR w1) (rootQ w1) (T + 1) (set_frame (T + 1) out (hyp_ d2))).
  { apply linked_push; [done|lia|]. intros x Hin.
    destruct (Hx x Hin) as (_ & _ & _ & p & y & Hy & Hp & He). exists p, y. split_and!; [done|done|]. right. done. }
  destruct (proj2 (bo_dom _ (ln_buffer _ _ _ _ L2) (T + 1))) as [v Hv]; [lia|].
  unfold vec. rewrite (set_frame_frames _ _ _ _ Hv), Hv, (set_frame_same _ _ _ _ Hv).
  destruct (getAllHypothesis_paths _ _ _ _ (T + 1) L3) as (rs & Hrs & HF); [lia|].
  rewrite (set_frame_same _ _ _ _ Hv) in Hrs, HF. exists rs. split_and!; [exact Hrs|..].
  - pose proof (beam_size _ _ _ _ Hbeam) as Hbs. unfold zlen in *. by rewrite <- (Forall2_length _ _ _ HF).
  - apply (sorted_results out); [|by apply (beam_sorted _ _ _ _ Hbeam)].
    eapply Forall2_impl; [exact HF|]. by intros x r (l & _ & ->).
  - intros r Hr. apply list_elem_of_lookup in Hr as [i Hi'].
    destruct (Forall2_lookup_r _ _ _ _ _ HF Hi') as (x & _ & l & Hl' & ->). eapply path_explained; [apply Hl|done].
Qed.

(** C23. Offline decoding is total and its results are explained by their
    tokens, for every language model that keeps the contract of [lm_contract]:
    with merging by maximum ([logAdd] false), a finite non-negative threshold
    and emissions and transitions of the stated sizes, [decode] returns at
    most [beamSize] results, best first; the tokens of each are the silence
    token, one token per frame out of those considered there, and the silence
    token, and its three scores are exactly those of replaying these tokens,
    the model scoring each new label after the labels before it. *)
Theorem decode_replay d :
  inv (lmw d) ->
  exists rs, decode lm_ exp log1p opt_ transitions_ sil_ blank_ emissions T N d = Ok rs
    /\ zlen rs <= beamSize opt_ /\ sorted (fun a b => fgt (r_score a) (r_score b)) rs
    /\ forall r, r ∈ rs -> explained opt_ transitions_ sil_ blank_ scoreOf finishOf emissions T N r.
Proof. apply lf_decode_aux. Qed.

(** Under CTC the language model score of every result of [decode] is that of
    the collapsed label sequence: repeated tokens merged, blanks removed. *)
Theorem decode_ctc_labels d :
  inv (lmw d) -> criterionType opt_ = CTC ->
  exists rs, decode lm_ exp log1p opt_ transitions_ sil_ blank_ emissions T N d = Ok rs
    /\ forall r, r ∈ rs -> exists toks, tokens r = sil_ :: toks ++ [sil_]
      /\ let labels := collapse blank_ sil_ toks in
         r_lmScore r = f64_add (lmRun scoreOf [] f_zero labels) (widen (finishOf labels)).
Proof.
  intros Hi Hc. destruct (lf_decode_aux d Hi) as (rs & E & _ & _ & Hr).
  exists rs. split; [done|]. intros r Hin. destruct (Hr r Hin) as (toks & _ & _ & Ht & _ & _ & _ & Hl).
  exists toks. split; [done|].
  destruct (replay_ctc opt_ transitions_ sil_ blank_ scoreOf emissions N 0 (replayInit sil_) toks Hc ltac:(done)) as [E1 E2].
  rewrite Hl. unfold replayEnd. cbn [q_lm]. by rewrite E1, E2.
Qed.
End Proofs.

(** * Online decoding *)

Section Online.
Context {W : Type} (lm_ : LM W) (exp log1p : f64 -> f64) {alg : StdAlgo} `{!StdAlgoLaws alg}.
Context (opt_ : LexiconFreeDecoderOptions) (transitions_ : list f32) (sil_ blank_ : Z).

Abbreviation frameStep := (decodeFrame lm_ exp log1p opt_ transitions_ sil_ blank_).

(** A frame can be decoded before the buffer is grown or after. *)
Lemma decodeFrame_extend nD s emissions N n (h : hyps St) w t :
  buffer_ok h -> is_Some (frames h !! (s + t)) -> is_Some (frames h !! (s + t + 1)) ->
  frameStep nD s emissions N (extend n h, w) t
  = match frameStep nD s emissions N (h, w) t with
    | Ok (h', w') => Ok (extend n h', w')
    | Throw e => Throw e
    end
  /\ (forall h' w', frameStep nD s emissions N (h, w) t = Ok (h', w') -> buffer_ok h' /\ frames h' = frames h).
Proof.
  intros B Hs Hs1. unfold decodeFrame. rewrite extend_addressed by done.
  destruct (propose lm_ opt_ transitions_ sil_ blank_ nD emissions t N (addressed (s + t) h) w) as [[c w1]|e]; [|done].
  cbn [mbind result_bind].
  destruct (candidatesStore exp log1p (candidates c) (beamSize opt_)
    (f64_sub (candidatesBestScore c) (beamThreshold opt_)) (logAdd opt_) false) as [out|e]; [|done].
  destruct (updateLMCache lm_ out w1) as [w2|e]; [|done]. cbn [mbind result_bind].
  rewrite extend_set_frame by done. split; [done|]. intros h' w' [= <- <-].
  split; [by apply set_frame_buffer|]. destruct Hs1 as [v Hv]. by apply (set_frame_frames _ _ _ v).
Qed.

Lemma decodeFrames_extend nD s emissions N n l (h : hyps St) w :
  buffer_ok h -> (forall t, t ∈ l -> is_Some (frames h !! (s + t)) /\ is_Some (frames h !! (s + t + 1))) ->
  foldM_result (frameStep nD s emissions N) (extend n h, w) l
  = match foldM_result (frameStep nD s emissions N) (h, w) l with
    | Ok (h', w') => Ok (extend n h', w')
    | Throw e => Throw e
    end
  /\ (forall h' w', foldM_result (frameStep nD s emissions N) (h, w) l = Ok (h', w') -> buffer_ok h' /\ frames h' = frames h).
Proof.
  revert h w. induction l as [|t l IH]; intros h w B Hl; cbn [foldM_result].
  - split; [done|]. by intros h' w' [= <- <-].
  - destruct (Hl t) as [H1 H2]; [by left|].
    destruct (decodeFrame_extend nD s emissions N n h w t B H1 H2) as [E1 E2]. rewrite E1.
    destruct (frameStep nD s emissions N (h, w) t) as [[h1 w1]|e]; [|done].
    destruct (E2 h1 w1 eq_refl) as [B1 F1].
    destruct (IH h1 w1 B1) as [E3 E4]; [intros t' Ht'; rewrite F1; apply Hl; by right|].
    split; [exact E3|]. intros h' w' E. destruct (E4 h' w' E) as [B2 F2]. split; [done|congruence].
Qed.

Section Shift.
Context (emissions : list f32) (T1 T2 N : Z).
Hypothesis HN : 0 <= N.
Hypothesis HT1 : 0 <= T1.
Hypothesis Hem : emissions_ok (beamSizeToken opt_) emissions (T1 + T2) N.

(** The emissions from frame [T1] on. *)
Abbreviation rest := (drop (Z.to_nat (T1 * N)) emissions).

Lemma vec_get_rest i : 0 <= i -> vec_get rest i = vec_get emissions (T1 * N + i).
Proof.
  intros Hi. unfold vec_get. rewrite !decide_True by nia. rewrite lookup_drop. by replace (Z.to_nat (T1 * N) + Z.to_nat i)%nat with (Z.to_nat (T1 * N + i)) by nia.
Qed.

Lemma array_at_rest t n : 0 <= t < T2 -> 0 <= n < N -> array_at emissions ((T1 + t) * N + n) = array_at rest (t * N + n).
Proof.
  intros Ht Hn. pose proof (eo_int _ _ _ _ Hem). unfold array_at. rewrite !int_value_fits by nia. cbn [mbind result_bind].
  rewrite vec_get_rest by nia. f_equal. lia.
Qed.

Lemma tokensAt_rest t : 0 <= t < T2 -> tokensAt opt_ emissions (T1 + t) N = tokensAt opt_ rest t N.
Proof.
  intros Ht. pose proof (eo_int _ _ _ _ Hem). unfold tokensAt, tokenOrder, frameOrder.
  destruct (beamSizeToken opt_ <? N); [|done]. destruct (beamSizeToken opt_ <? 0); [done|].
  rewrite !int_value_fits by nia. cbn [mbind result_bind].
  rewrite (mapM_result_ext_in _ (fun n => vec_get rest (t * N + n))); [done|].
  intros n Hn%elem_of_zrange. rewrite vec_get_rest by nia. f_equal. lia.
Qed.

(** Frame [T1 + t] of a long chunk is frame [t] of the second one. *)
Lemma decodeFrame_shift nD s hw t :
  0 <= t < T2 -> frameStep nD s emissions N hw (T1 + t) = frameStep (nD + T1) (s + T1) rest N hw t.
Proof.
  intros Ht. unfold decodeFrame. destruct hw as [h w]. rewrite Z.add_assoc.
  assert (propose lm_ opt_ transitions_ sil_ blank_ nD emissions (T1 + t) N (addressed (s + T1 + t) h) w
    = propose lm_ opt_ transitions_ sil_ blank_ (nD + T1) rest t N (addressed (s + T1 + t) h) w) as ->; [|done].
  unfold propose. rewrite <- tokensAt_rest by done. destruct (tokensAt opt_ emissions (T1 + t) N) as [ts|e] eqn:Ets; [|done].
  cbn [mbind result_bind]. apply foldM_result_ext. intros acc [p y]. unfold proposeHyp. apply foldM_result_ext_in.
  intros [c w'] n Hn. unfold proposeToken. rewrite array_at_rest; [by rewrite Z.add_assoc|done|].
  unfold tokensAt, tokenOrder in Ets. destruct (frameOrder_ok _ _ _ _ Hem HN (T1 + t)) as (idx & Hidx & Hr); [lia|].
  rewrite Hidx in Ets. injection Ets as <-. apply Hr. eapply subseteq_take, Hn.
Qed.

(** Online decoding: consuming [T1 + T2] frames in one call of
    [decodeStep], or in two calls with the emissions cut after [T1] frames,
    yields the same decoder (or the same failure). *)
Theorem decodeStep_chunks d :
  buffer_ok (hyp_ d) -> 0 <= nDecodedFrames_ d - nPrunedFrames_ d < Z.of_nat (size (frames (hyp_ d))) -> 0 <= T2 ->
  decodeStep lm_ exp log1p opt_ transitions_ sil_ blank_ emissions (T1 + T2) N d
  = match decodeStep lm_ exp log1p opt_ transitions_ sil_ blank_ emissions T1 N d with
    | Throw e => Throw e
    | Ok d1 => decodeStep lm_ exp log1p opt_ transitions_ sil_ blank_ rest T2 N d1
    end.
Proof.
  intros B Hs HT2. unfold decodeStep. rewrite (proj2 (Z.ltb_ge N 0)) by done.
  set (s := nDecodedFrames_ d - nPrunedFrames_ d) in *. set (nD := nDecodedFrames_ d).
  rewrite (zrange_app 0 T1 (T1 + T2)), foldM_result_app by lia.
  rewrite <- (extend_extend (s + T1 + 2) (s + (T1 + T2) + 2) (hyp_ d)) by (done || lia).
  destruct (extend_spec (s + T1 + 2) (hyp_ d) B) as (B1 & E1 & _).
  set (h1 := extend (s + T1 + 2) (hyp_ d)) in *.
  destruct (decodeFrames_extend nD s emissions N (s + (T1 + T2) + 2) (zrange 0 T1) h1 (lmw d) B1) as [E2 E3].
  { intros t Ht%elem_of_zrange. rewrite !(bo_dom _ B1), E1. lia. }
  rewrite E2. destruct (foldM_result (frameStep nD s emissions N) (h1, lmw d) (zrange 0 T1)) as [[h2 w2]|e]; [|done].
  destruct (E3 h2 w2 eq_refl) as [B2 F2]. cbn [hyp_ nDecodedFrames_ nPrunedFrames_ lmw].
  replace (nD + T1 - nPrunedFrames_ d) with (s + T1) by (unfold s, nD; lia).
  replace (s + T1 + T2 + 2) with (s + (T1 + T2) + 2) by lia.
  assert (Er : zrange T1 (T1 + T2) = (fun t => T1 + t) <$> zrange 0 T2).
  { unfold zrange. rewrite fmap_add_seqZ. f_equal; lia. }
  rewrite Er, foldM_result_fmap.
  rewrite (foldM_result_ext_in _ (frameStep (nD + T1) (s + T1) rest N))
    by (intros ? ? Ht%elem_of_zrange; by apply decodeFrame_shift).
  destruct (foldM_result _ _ (zrange 0 T2)) as [[h3 w3]|e]; [|done]. f_equal. f_equal. lia.
Qed.
End Shift.
End Online.

(** * A concrete decoder *)

(** [ZeroLM] over three tokens and three frames. *)
Definition demo_opt : LexiconFreeDecoderOptions := LFOptions 3 2 (f64_of_Z 10) f_zero f_zero false CTC.
Definition demo_emissions : list f32 := (fun i => f32_of_Z (- ((i * 7) mod 5))) <$> zrange 0 9.
Definition demo_start : lfd := LFD hyps_empty 0 0 (∅ : lmheap).

Lemma lf_demo_options : options_ok demo_opt.
Proof. split; (done || reflexivity). Qed.

Lemma lf_demo_emissions : emissions_ok (beamSizeToken demo_opt) demo_emissions 3 3.
Proof.
  split; [vm_compute; discriminate|done|]. intros _. split; [vm_compute; discriminate|].
  apply Forall_forall. vm_compute. repeat constructor.
Qed.

Lemma lf_demo_transitions : transitions_ok CTC [] 3.
Proof. done. Qed.

Lemma heap_ok_empty : heap_ok ∅.
Proof. split; intros *; by rewrite lookup_empty. Qed.

(** Three states, of which two are equal. *)
Definition demo_states : list St :=
  [LFState (f64_of_Z 1) 1 None 0 false f_zero f_zero; LFState (f64_of_Z 3) 1 None 0 false f_zero f_zero;
   LFState (f64_of_Z 2) 2 None 1 false f_zero f_zero].

Lemma candidatesStore_beam_witness :
  exists out, candidatesStore (fun x => x) (fun x => x) demo_states 2 (f64_of_Z 0) false true = Ok out
    /\ beam (filter (fun c => fge (score c) (f64_of_Z 0) = true) demo_states) 2 true out.
Proof.
  apply (candidatesStore_beam (fun x => x) (fun x => x) demo_states 2 (f64_of_Z 0) true).
  - intros x Hx. repeat (apply elem_of_cons in Hx as [->|Hx]; [reflexivity|]). by apply elem_of_nil in Hx.
  - lia.
  - intros _. vm_compute. discriminate.
Defined.

Lemma decode_replay_witness :
  exists rs, decode ZeroLM (fun x => x) (fun x => x) demo_opt [] 0 2 demo_emissions 3 3 demo_start = Ok rs
    /\ zlen rs <= 3.
Proof.
  destruct (decode_replay ZeroLM (fun x => x) (fun x => x) demo_opt [] 0 2 lf_demo_options
    _ _ _ _ _ _ ZeroLM_contract demo_emissions 3 3 ltac:(lia) ltac:(lia) lf_demo_emissions lf_demo_transitions (fun _ _ => Logic.I)
    demo_start heap_ok_empty) as (rs & E & Hz & _).
  exists rs. split; [exact E|exact Hz].
Defined.

Lemma decode_ctc_labels_witness :
  exists rs, decode ZeroLM (fun x => x) (fun x => x) demo_opt [] 0 2 demo_emissions 3 3 demo_start = Ok rs.
Proof.
  destruct (decode_ctc_labels ZeroLM (fun x => x) (fun x => x) demo_opt [] 0 2 lf_demo_options
    _ _ _ _ _ _ ZeroLM_contract demo_emissions 3 3 ltac:(lia) ltac:(lia) lf_demo_emissions lf_demo_transitions (fun _ _ => Logic.I)
    demo_start heap_ok_empty eq_refl) as (rs & E & _).
  exists rs. exact E.
Defined.

(** The demonstration decoder computes: three frames give results of five tokens. *)
Lemma decode_demo_runs :
  match decode ZeroLM (fun x => x) (fun x => x) demo_opt [] 0 2 demo_emissions 3 3 demo_start with
  | Ok (r :: _) => length (tokens r) = 5%nat
  | _ => False
  end.
Proof. vm_compute. reflexivity. Qed.

(** After [decodeBegin]. *)
Definition demo_begun : lfd := LFD (set_frame 0 [LFState f_zero 1 None 0 false f_zero f_zero] (emplace 0 hyps_empty)) 0 0 ({[1%positive := ∅]} : lmheap).

Lemma demo_begin_ok : decodeBegin ZeroLM 0 demo_start = Ok demo_begun.
Proof. vm_compute. reflexivity. Qed.

Lemma decodeStep_chunks_witness :
  decodeStep ZeroLM (fun x => x) (fun x => x) demo_opt [] 0 2 demo_emissions (1 + 2) 3 demo_begun
  = match decodeStep ZeroLM (fun x => x) (fun x => x) demo_opt [] 0 2 demo_emissions 1 3 demo_begun with
    | Throw e => Throw e
    | Ok d1 => decodeStep ZeroLM (fun x => x) (fun x => x) demo_opt [] 0 2
                 (drop (Z.to_nat (1 * 3)) demo_emissions) 2 3 d1
    end.
Proof.
  apply (decodeStep_chunks ZeroLM (fun x => x) (fun x => x) demo_opt [] 0 2 demo_emissions 1 2 3).
  - lia.
  - lia.
  - apply lf_demo_emissions.
  - apply (ln_buffer (fun _ _ _ => True) (fun _ => True) 0). by apply linked_init.
  - vm_compute. split; [discriminate|reflexivity].
  - lia.
Defined.

(** Under ASG the transition scores enter the acoustic score of a hypothesis but
    not the score the search compares: the total does not depend on them. *)
Lemma proposed_score_ignores_transitions {W} (lm : LM W) opt tr tr' sil blank nD emissions t N prev acc n a a' :
  proposeToken lm opt tr sil blank nD emissions t N prev acc n = Ok a ->
  proposeToken lm opt tr' sil blank nD emissions t N prev acc n = Ok a' ->
  score <$> candidates a.1 = score <$> candidates a'.1.
Proof.
  destruct prev as [p y], acc as [c w]. unfold proposeToken, candidatesAdd, mbind, result_bind.
  intros E E'. repeat case_match; simplify_eq; cbn; rewrite ?fmap_app; try done; congruence.
Qed.
