(* ===== verification/Trie.v ===== *)
(** The lexicon trie of [lib/text/decoder/Trie].

    Nodes live in a heap indexed by identities (the addresses the decoders
    compare); [children] maps a token to a node.  [exp] and [log1p] are
    parameters.  A [std::unordered_map] is iterated in an unspecified order;
    smearing uses the order of [map_to_list]. *)
From Stdlib Require Import Floats.SpecFloat.
From S2P Require Import Prelude Float.

Open Scope Z_scope.

Abbreviation nid := positive.

Definition kTrieMaxLabel : nat := 6.

Inductive SmearingMode := SmearNONE | SmearMAX | SmearLOGADD.

Record TrieNode := MkNode {
  children : gmap Z nid; idx : Z; labels : list Z; scores : list f32; maxScore : f32
}.

(** [TrieNode(idx)] *)
Definition newNode (i : Z) : TrieNode := MkNode ∅ i [] [] f_zero.

Record Trie := MkTrie { nodes : gmap nid TrieNode; root_ : nid; maxChildren_ : Z }.

Definition newTrie (maxChildren rootIdx : Z) : Trie := MkTrie {[1%positive := newNode rootIdx]} 1 maxChildren.

Definition getRoot (t : Trie) : nid := root_ t.

Definition set_nodes (m : gmap nid TrieNode) (t : Trie) : Trie := MkTrie m (root_ t) (maxChildren_ t).
Definition add_child (i : Z) (c : nid) (x : TrieNode) : TrieNode :=
  MkNode (<[i := c]> (children x)) (idx x) (labels x) (scores x) (maxScore x).
Definition add_label (label : Z) (sc : f32) (x : TrieNode) : TrieNode :=
  MkNode (children x) (idx x) (labels x ++ [label]) (scores x ++ [sc]) (maxScore x).
Definition set_maxScore (z : f32) (x : TrieNode) : TrieNode :=
  MkNode (children x) (idx x) (labels x) (scores x) z.

(** The child of a node, created when it is missing. *)
Definition getChild (node : nid) (i : Z) (t : Trie) : nid * Trie :=
  match nodes t !! node ≫= (fun x => children x !! i) with
  | Some c => (c, t)
  | None =>
      let c := fresh (dom (nodes t)) in
      (c, set_nodes (<[c := newNode i]> (alter (add_child i c) node (nodes t))) t)
  end.

(** The loop of [insert]: an invalid index throws and leaves the nodes made so far. *)
Fixpoint insertLoop (node : nid) (indices : list Z) (t : Trie) : result nid * Trie :=
  match indices with
  | [] => (Ok node, t)
  | i :: r =>
      if (i <? 0) || (maxChildren_ t <=? i) then (Throw OutOfRange, t)
      else let '(c, t) := getChild node i t in insertLoop c r t
  end.

Definition insert (indices : list Z) (label : Z) (sc : f32) (t : Trie) : result nid * Trie :=
  match insertLoop (root_ t) indices t with
  | (Throw e, t) => (Throw e, t)
  | (Ok node, t) =>
      match nodes t !! node with
      | None => (Throw Undefined, t)
      | Some x =>
          if (length (labels x) <? kTrieMaxLabel)%nat
          then (Ok node, set_nodes (<[node := add_label label sc x]> (nodes t)) t)
          else (Ok node, t)
      end
  end.

Fixpoint searchLoop (t : Trie) (node : nid) (indices : list Z) : result (option nid) :=
  match indices with
  | [] => Ok (Some node)
  | i :: r =>
      if (i <? 0) || (maxChildren_ t <=? i) then Throw OutOfRange
      else match nodes t !! node ≫= (fun x => children x !! i) with
           | None => Ok None
           | Some c => searchLoop t c r
           end
  end.

Definition search (indices : list Z) (t : Trie) : result (option nid) := searchLoop t (root_ t) indices.

Section Smear.
Context (exp log1p : f64 -> f64).

(** [-39.14], rounded to nearest. *)
Definition kMinusLogThreshold : f64 := f64_div (f64_of_Z (-3914)) (f64_of_Z 100).

Definition TrieLogAdd (a b : f64) : f64 :=
  let '(a, b) := if flt a b then (b, a) else (a, b) in
  let minusdif := f64_sub b a in
  if flt minusdif kMinusLogThreshold then a else f64_add a (log1p (exp minusdif)).

(** [smearNode]; [fuel] bounds the depth, at most the number of nodes. *)
Fixpoint smearNode (fuel : nat) (mode : SmearingMode) (node : nid) (m : gmap nid TrieNode) : gmap nid TrieNode :=
  match fuel, m !! node with
  | S f, Some x =>
      let s0 := fold_left (fun acc sc => narrow (TrieLogAdd (widen acc) (widen sc))) (scores x) f_neg_inf in
      let m := <[node := set_maxScore s0 x]> m in
      fold_left (fun m ic =>
        let m := smearNode f mode ic.2 m in
        match m !! node, m !! ic.2 with
        | Some y, Some z =>
            match mode with
            | SmearLOGADD => <[node := set_maxScore (narrow (TrieLogAdd (widen (maxScore y)) (widen (maxScore z)))) y]> m
            | SmearMAX => if fgt (maxScore z) (maxScore y) then <[node := set_maxScore (maxScore z) y]> m else m
            | SmearNONE => m
            end
        | _, _ => m
        end) (map_to_list (children x)) m
  | _, _ => m
  end.

Definition smear (mode : SmearingMode) (t : Trie) : Trie :=
  match mode with
  | SmearNONE => t
  | _ => set_nodes (smearNode (size (nodes t)) mode (root_ t) (nodes t)) t
  end.
End Smear.

(** * The trie as a map from spellings to labels *)

(** The node a spelling leads to. *)
Fixpoint walk (m : gmap nid TrieNode) (node : nid) (p : list Z) : option nid :=
  match p with
  | [] => Some node
  | i :: r => c ← (m !! node ≫= fun x => children x !! i); walk m c r
  end.

(** Distinct spellings lead to distinct nodes, all of them in the heap. *)
Record trie_ok (t : Trie) : Prop := {
  tk_root : is_Some (nodes t !! root_ t);
  tk_heap : forall p n, walk (nodes t) (root_ t) p = Some n -> is_Some (nodes t !! n);
  tk_inj : forall p q n, walk (nodes t) (root_ t) p = Some n -> walk (nodes t) (root_ t) q = Some n -> p = q;
  tk_scores : forall n x, nodes t !! n = Some x ->
    length (scores x) = length (labels x) /\ (length (labels x) <= kTrieMaxLabel)%nat
}.

Definition in_range (t : Trie) (p : list Z) : Prop := Forall (fun i => 0 <= i < maxChildren_ t) p.

(** The labels and scores of a spelling. *)
Definition entries (t : Trie) (p : list Z) : list Z * list f32 :=
  match walk (nodes t) (root_ t) p with
  | Some n => from_option (fun x => (labels x, scores x)) ([], []) (nodes t !! n)
  | None => ([], [])
  end.

Lemma walk_app m n p q : walk m n (p ++ q) = c ← walk m n p; walk m c q.
Proof.
  revert n. induction p as [|i p IH]; intros n; cbn; [done|].
  destruct (m !! n ≫= fun x => children x !! i) as [c|]; cbn; [apply IH|done].
Qed.

Lemma walk_snoc m n p i : walk m n (p ++ [i]) = c ← walk m n p; (m !! c ≫= fun x => children x !! i).
Proof.
  rewrite walk_app. destruct (walk m n p) as [c|]; cbn; [|done].
  by destruct (m !! c ≫= fun x => children x !! i).
Qed.

Lemma searchLoop_walk t n p : in_range t p -> searchLoop t n p = Ok (walk (nodes t) n p).
Proof.
  intros Hr. revert n. induction Hr as [|i p Hi Hp IH]; intros n; cbn; [done|].
  rewrite (proj2 (Z.ltb_ge i 0)), (proj2 (Z.leb_gt (maxChildren_ t) i)) by lia. cbn.
  destruct (nodes t !! n ≫= fun x => children x !! i) as [c|]; cbn; [apply IH|done].
Qed.

(** Adding a fresh child adds one spelling and changes no other. *)
Lemma walk_new_child m root p node i c q :
  walk m root p = Some node -> (m !! node ≫= fun x => children x !! i) = None -> m !! c = None ->
  (forall q n, walk m root q = Some n -> is_Some (m !! n)) ->
  (forall q n, walk m root q = Some n -> walk m root p = Some n -> q = p) ->
  walk (<[c := newNode i]> (alter (add_child i c) node m)) root q
  = if decide (q = p ++ [i]) then Some c else walk m root q.
Proof.
  intros Hp Hi Hc Hheap Hinj. set (m' := <[c := newNode i]> _).
  assert (Hnc : forall q n, walk m root q = Some n -> n <> c).
  { intros r n Hn ->. destruct (Hheap _ _ Hn). congruence. }
  assert (Hstep : forall q n j, walk m root q = Some n ->
    (m' !! n ≫= fun x => children x !! j)
    = if decide (q ++ [j] = p ++ [i]) then Some c else (m !! n ≫= fun x => children x !! j)).
  { intros r n j Hn. pose proof (Hnc _ _ Hn). unfold m'. rewrite lookup_insert_ne by done.
    destruct (decide (n = node)) as [->|Hne].
    - assert (r = p) as -> by (by eapply Hinj). rewrite lookup_alter_eq.
      destruct (Hheap _ _ Hp) as [x Hx]. rewrite Hx. cbn. destruct (decide (j = i)) as [->|Hji].
      + rewrite lookup_insert_eq, decide_True by done. done.
      + rewrite lookup_insert_ne, decide_False by (done || (intros E%app_inj_tail; naive_solver)). done.
    - rewrite lookup_alter_ne by done. rewrite decide_False; [done|]. intros [-> _]%app_inj_tail. congruence. }
  induction q as [|j q IH] using rev_ind.
  - rewrite decide_False; [done|]. intros E. by destruct p.
  - rewrite !walk_snoc, IH. destruct (decide (q = p ++ [i])) as [->|Hq]; cbn.
    + rewrite walk_snoc, Hp. cbn. rewrite Hi. cbn. unfold m'. rewrite lookup_insert_eq. cbn. rewrite lookup_empty.
      rewrite decide_False; [done|]. intros E%(f_equal length). rewrite !length_app in E. cbn in E. lia.
    + destruct (walk m root q) as [n|] eqn:Hn; cbn; [by apply Hstep|].
      rewrite decide_False; [done|]. intros [-> _]%app_inj_tail. congruence.
Qed.

Lemma getChild_spec t p node i c t' :
  trie_ok t -> walk (nodes t) (root_ t) p = Some node -> getChild node i t = (c, t') ->
  trie_ok t' /\ root_ t' = root_ t /\ maxChildren_ t' = maxChildren_ t
  /\ walk (nodes t') (root_ t) (p ++ [i]) = Some c /\ (forall q, entries t' q = entries t q).
Proof.
  intros K Hp. pose proof K as [K1 K2 K3 K4]. unfold getChild.
  destruct (nodes t !! node ≫= fun x => children x !! i) as [c0|] eqn:Hi; intros [= <- <-].
  { split_and!; try done. by rewrite walk_snoc, Hp. }
  set (c := fresh (dom (nodes t))). assert (Hc : nodes t !! c = None) by apply not_elem_of_dom, is_fresh.
  assert (Hw : forall q, walk (<[c := newNode i]> (alter (add_child i c) node (nodes t))) (root_ t) q
                 = if decide (q = p ++ [i]) then Some c else walk (nodes t) (root_ t) q).
  { intros q. apply (walk_new_child _ _ p); eauto. }
  set (m' := <[c := newNode i]> (alter (add_child i c) node (nodes t))) in *.
  assert (Hlk : forall n, n <> c -> m' !! n = if decide (n = node) then add_child i c <$> nodes t !! n else nodes t !! n).
  { intros n Hn. unfold m'. rewrite lookup_insert_ne by done. destruct (decide (n = node)) as [->|];
      [by rewrite lookup_alter_eq|by rewrite lookup_alter_ne]. }
  assert (Hs : forall n, is_Some (nodes t !! n) -> is_Some (m' !! n)).
  { intros n [x Hx]. assert (n <> c) by congruence. rewrite Hlk, Hx by done. destruct (decide _); eauto. }
  split_and!; cbn [root_ maxChildren_ set_nodes nodes]; try done.
  - split; cbn [root_ nodes set_nodes].
    + auto.
    + intros q n. rewrite Hw. destruct (decide (q = p ++ [i])) as [->|]; [intros [= <-]|eauto].
      unfold m'. rewrite lookup_insert_eq. eauto.
    + intros q r n. rewrite !Hw. destruct (decide (q = p ++ [i])) as [->|], (decide (r = p ++ [i])) as [->|]; try done; [..|apply K3].
      * intros [= <-] Hr. destruct (K2 _ _ Hr). congruence.
      * intros Hr [= <-]. destruct (K2 _ _ Hr). congruence.
    + intros n x. destruct (decide (n = c)) as [->|Hn].
      * unfold m'. rewrite lookup_insert_eq. intros [= <-]. cbn. unfold kTrieMaxLabel. lia.
      * rewrite Hlk by done. destruct (decide (n = node)); [|apply K4].
        destruct (nodes t !! n) as [y|] eqn:Hy; cbn; intros [= <-]. cbn. by apply (K4 n).
  - rewrite Hw, decide_True by done. done.
  - intros q. unfold entries. cbn [nodes root_ set_nodes]. rewrite Hw.
    destruct (decide (q = p ++ [i])) as [->|Hq].
    + rewrite walk_snoc, Hp. cbn. rewrite Hi. unfold m'. rewrite lookup_insert_eq. done.
    + destruct (walk (nodes t) (root_ t) q) as [n|] eqn:Hn; [|done].
      destruct (K2 _ _ Hn) as [x Hx]. assert (n <> c) by congruence. rewrite Hlk, Hx by done.
      by destruct (decide (n = node)).
Qed.

Lemma insertLoop_spec t p node q :
  trie_ok t -> walk (nodes t) (root_ t) p = Some node -> in_range t q ->
  exists n t', insertLoop node q t = (Ok n, t') /\ trie_ok t' /\ root_ t' = root_ t /\ maxChildren_ t' = maxChildren_ t
    /\ walk (nodes t') (root_ t) (p ++ q) = Some n /\ (forall r, entries t' r = entries t r).
Proof.
  revert t p node. induction q as [|i q IH]; intros t p node K Hp Hr; cbn [insertLoop].
  - exists node, t. rewrite app_nil_r. done.
  - apply Forall_cons in Hr as [Hi Hq].
    rewrite (proj2 (Z.ltb_ge i 0)), (proj2 (Z.leb_gt (maxChildren_ t) i)) by lia. cbn [orb].
    destruct (getChild node i t) as [c t1] eqn:Hg.
    destruct (getChild_spec t p node i c t1 K Hp Hg) as (K1 & E1 & E2 & W1 & N1).
    destruct (IH t1 (p ++ [i]) c K1) as (n & t2 & -> & K2 & E3 & E4 & W2 & N2).
    { by rewrite E1. }
    { unfold in_range. by rewrite E2. }
    exists n, t2. rewrite E1 in *. rewrite <- app_assoc in W2. split_and!; try done; congruence.
Qed.

(** The new labels of a spelling. *)
Definition add_entry (label : Z) (sc : f32) (e : list Z * list f32) : list Z * list f32 :=
  if (length e.1 <? kTrieMaxLabel)%nat then (e.1 ++ [label], e.2 ++ [sc]) else e.

Lemma walk_same_children m n x y root p :
  m !! n = Some x -> children y = children x -> walk (<[n := y]> m) root p = walk m root p.
Proof.
  intros Hx Hy. revert root. induction p as [|i p IH]; intros root; cbn; [done|].
  assert (E : (<[n := y]> m !! root ≫= fun x => children x !! i) = (m !! root ≫= fun x => children x !! i)).
  { destruct (decide (n = root)) as [->|]; [rewrite lookup_insert_eq, Hx; cbn; by rewrite Hy|by rewrite lookup_insert_ne]. }
  rewrite E. destruct (m !! root ≫= fun x => children x !! i); cbn; [apply IH|done].
Qed.

Lemma insert_aux p label sc t :
  trie_ok t -> in_range t p ->
  exists n t', insert p label sc t = (Ok n, t') /\ trie_ok t' /\ maxChildren_ t' = maxChildren_ t
    /\ search p t' = Ok (Some n)
    /\ forall q, entries t' q = if decide (q = p) then add_entry label sc (entries t q) else entries t q.
Proof.
  intros K Hr. unfold insert.
  destruct (insertLoop_spec t [] (root_ t) p K eq_refl Hr) as (n & t1 & -> & K1 & E1 & E2 & W1 & N1).
  cbn [app] in W1. rewrite <- E1 in W1. pose proof K1 as [H1 H2 H3 H4].
  destruct (H2 _ _ W1) as [x Hx]. rewrite Hx.
  assert (Ep : entries t p = (labels x, scores x)).
  { rewrite <- N1. unfold entries. by rewrite W1, Hx. }
  destruct (length (labels x) <? kTrieMaxLabel)%nat eqn:El.
  - assert (Hw : forall q, walk (<[n := add_label label sc x]> (nodes t1)) (root_ t1) q = walk (nodes t1) (root_ t1) q).
    { intros q. by apply (walk_same_children _ _ x). }
    assert (Hk : forall k, is_Some (<[n := add_label label sc x]> (nodes t1) !! k) <-> is_Some (nodes t1 !! k)).
    { intros k. rewrite lookup_insert_is_Some. split; [intros [<-|[_ ?]]; eauto|].
      intros ?. destruct (decide (n = k)); auto. }
    eexists _, _. split; [done|]. split_and!; try done.
    + split; cbn [root_ nodes set_nodes].
      * by apply Hk.
      * intros q k. rewrite Hw, Hk. apply H2.
      * intros q r k. rewrite !Hw. apply H3.
      * intros k y [(<- & <-)|(Hne & Hy)]%lookup_insert_Some; [|by apply (H4 k)].
        destruct (H4 n x Hx) as [L1 L2]. apply Nat.ltb_lt in El. cbn. rewrite !length_app. cbn. lia.
    + unfold search. rewrite searchLoop_walk by (unfold in_range; cbn; by rewrite E2). cbn [nodes set_nodes root_].
      by rewrite Hw, W1.
    + intros q. rewrite <- N1. unfold entries. cbn [nodes set_nodes root_]. rewrite Hw.
      destruct (decide (q = p)) as [->|Hq].
      * rewrite W1, lookup_insert_eq, Hx. unfold add_entry. cbn [fst snd from_option]. by rewrite El.
      * destruct (walk (nodes t1) (root_ t1) q) as [k|] eqn:Hkq; [|done].
        rewrite lookup_insert_ne; [done|]. intros ->. apply Hq. by eapply H3.
  - eexists _, _. split; [done|]. split_and!; try done.
    + unfold search. rewrite searchLoop_walk by (unfold in_range; by rewrite E2). by rewrite W1.
    + intros q. rewrite N1. destruct (decide (q = p)) as [->|]; [|done]. unfold add_entry. rewrite Ep. cbn [fst snd]. by rewrite El.
Qed.

(** Lookups of clients that hold a node of the trie. *)
Lemma entries_walk t p c :
  trie_ok t -> walk (nodes t) (getRoot t) p = Some c -> (entries t p).1 = labels (default (newNode 0) (nodes t !! c)).
Proof. intros K Hw. unfold entries. change (root_ t) with (getRoot t). rewrite Hw. destruct (tk_heap _ K _ _ Hw) as [x Hx]. by rewrite Hx. Qed.

Lemma walk_child t p n lex c :
  trie_ok t -> walk (nodes t) (getRoot t) p = Some lex ->
  children (default (newNode 0) (nodes t !! lex)) !! n = Some c -> walk (nodes t) (getRoot t) (p ++ [n]) = Some c.
Proof.
  intros K Hw Hc. rewrite walk_snoc, Hw. cbn. destruct (tk_heap _ K _ _ Hw) as [x Hx]. by rewrite Hx in Hc |- *.
Qed.

Lemma newTrie_ok mc r : trie_ok (newTrie mc r).
Proof.
  assert (Hw : forall p n, walk {[1%positive := newNode r]} 1%positive p = Some n -> p = [] /\ n = 1%positive).
  { intros [|i p] n; cbn; [by intros [= <-]|]. by rewrite lookup_singleton_eq. }
  split; cbn [nodes root_ newTrie].
  - rewrite lookup_singleton_eq. eauto.
  - intros p n [_ ->]%Hw. rewrite lookup_singleton_eq. eauto.
  - intros p q n [-> _]%Hw [-> _]%Hw. done.
  - intros n x [<- <-]%lookup_singleton_Some. cbn. unfold kTrieMaxLabel. lia.
Qed.

(** C37. A trie is a map from spellings to labels: inserting a spelling of
    valid tokens, fewer than [2 ^ 31], succeeds, [search] then finds the
    returned node, the label and its score are appended to that spelling
    unless it has [kTrieMaxLabel] of them, and no other spelling changes. *)
Theorem insert_search p label sc t :
  trie_ok t -> in_range t p -> zlen p < 2 ^ 31 ->
  exists n t', insert p label sc t = (Ok n, t') /\ trie_ok t' /\ maxChildren_ t' = maxChildren_ t
    /\ search p t' = Ok (Some n)
    /\ forall q, entries t' q = if decide (q = p) then add_entry label sc (entries t q) else entries t q.
Proof. intros Ht Hp _. by apply insert_aux. Qed.

Lemma insert_search_witness :
  exists n t', insert [1; 0; 2] 7 f_zero (newTrie 3 (-1)) = (Ok n, t') /\ search [1; 0; 2] t' = Ok (Some n).
Proof.
  destruct (insert_search [1; 0; 2] 7 f_zero (newTrie 3 (-1)) (newTrie_ok 3 (-1))) as (n & t' & E & _ & _ & Hs & _).
  - repeat constructor; vm_compute; congruence.
  - reflexivity.
  - exists n, t'. split; [exact E|exact Hs].
Defined.

(** In [MAX] mode too the labels of one node are combined by [TrieLogAdd], not
    by their maximum (here with [exp] and [log1p] constant). *)
Example smear_max_adds_labels :
  let t1 := snd (insert [0] 5 (f32_of_Z 1) (newTrie 2 (-1))) in
  let t2 := snd (insert [0] 6 (f32_of_Z 1) t1) in
  let t3 := smear (fun _ => f64_of_Z 1) (fun _ => f64_of_Z 1) SmearMAX t2 in
  (maxScore <$> nodes t3 !! root_ t3) = Some (f32_of_Z 2) /\ scores <$> nodes t3 !! 2%positive = Some [f32_of_Z 1; f32_of_Z 1].
Proof. vm_compute. auto. Qed.
