(* ===== verification/Lexicon.v ===== *)
(** [lib/text/decoder/LexiconDecoder]: beam search constrained by a lexicon trie.

    A hypothesis carries the trie node it has reached; comparing and reading nodes
    goes through their identities.  A [const float*] or a vector read without a
    bounds check is a list; [emissions[t * N + n]] is
    [array_at emissions (t * N + n)], undefined when the index leaves the array or
    overflows [int]. *)
From Stdlib Require Import Floats.SpecFloat.
From S2P Require Import Prelude Float FloatRound StdAlgorithm DecoderUtils DecoderBeam DecoderPaths Trie.

Open Scope Z_scope.

Record LexiconDecoderOptions := LXOptions {
  beamSize : Z; beamSizeToken : Z; beamThreshold : f64; lmWeight : f64; wordScore : f64;
  unkScore : f64; silScore : f64; logAdd : bool; criterionType : CriterionType
}.

Record LexiconDecoderState := LXState {
  s_score : f64; s_lmState : lmptr; s_lex : nid; s_parent : option ptr; s_token : Z; s_word : Z;
  s_prevBlank : bool; s_amScore : f64; s_lmScore : f64
}.

(** [compareNoScoreStates] *)
Definition lx_compare (a b : LexiconDecoderState) : Z :=
  let lmCmp := lm_compare (s_lmState a) (s_lmState b) in
  if negb (lmCmp =? 0) then (if 0 <? lmCmp then 1 else -1)
  else if negb (bool_decide (s_lex a = s_lex b)) then (if Z.pos (s_lex b) <? Z.pos (s_lex a) then 1 else -1)
  else if negb (s_token a =? s_token b) then (if s_token b <? s_token a then 1 else -1)
  else if negb (eqb (s_prevBlank a) (s_prevBlank b))
       then (if s_prevBlank a && negb (s_prevBlank b) then 1 else -1)
  else 0.

#[export] Instance Lexicon_DecoderState : DecoderState LexiconDecoderState := {
  score := s_score;
  set_score z x := LXState z (s_lmState x) (s_lex x) (s_parent x) (s_token x) (s_word x) (s_prevBlank x) (s_amScore x) (s_lmScore x);
  parent := s_parent;
  set_parent p x := LXState (s_score x) (s_lmState x) (s_lex x) p (s_token x) (s_word x) (s_prevBlank x) (s_amScore x) (s_lmScore x);
  lmState := s_lmState;
  token := s_token;
  amScore := s_amScore;
  lmScore := s_lmScore;
  getWord := s_word;
  compareNoScoreStates := lx_compare
}.

(** [isComplete]: no parent, or the parent ends a word. *)
Definition lx_isComplete (h : hyps LexiconDecoderState) (x : LexiconDecoderState) : bool :=
  match s_parent x with
  | None => true
  | Some p => match deref h p with Some y => 0 <=? s_word y | None => false end
  end.

Section LexiconDecoder.
Context {W : Type} (lm_ : LM W) (exp log1p : f64 -> f64) {alg : StdAlgo}.
Context (opt_ : LexiconDecoderOptions) (lexicon_ : Trie) (transitions_ : list f32).
Context (sil_ blank_ unk_ : Z) (isLmToken_ : bool).

Abbreviation St := LexiconDecoderState.

Record lxd := LXD { hyp_ : hyps St; nDecodedFrames_ : Z; nPrunedFrames_ : Z; lmw : W }.

Definition node_at (n : nid) : TrieNode := default (newNode 0) (nodes lexicon_ !! n).
Abbreviation root := (getRoot lexicon_).

Definition decodeBegin (d : lxd) : result lxd :=
  '(s, w) ← lm_start lm_ false (lmw d);
  Ok (LXD (set_frame 0 [LXState f_zero s root None sil_ (-1) false f_zero f_zero] (emplace 0 hyps_empty)) 0 0 w).

(** The tokens considered at a frame: the [beamSizeToken] best emissions. *)
Definition tokenOrder (emissions : list f32) (t N : Z) : result (list Z) := frameOrder (beamSizeToken opt_) emissions t N.

Definition tokensAt (emissions : list f32) (t N : Z) : result (list Z) :=
  idx ← tokenOrder emissions t N;
  Ok (take (Z.to_nat (Z.min (beamSizeToken opt_) N)) idx).

(** [lexMaxScore] *)
Definition lexMax (prevLex : nid) : f32 :=
  if bool_decide (prevLex = root) then f_zero else maxScore (node_at prevLex).

(** [emissions[t * N + n]], plus the transition under ASG. *)
Definition amOf (nDecoded : Z) (emissions : list f32) (t N n prevIdx : Z) : result f64 :=
  e ← array_at emissions (t * N + n);
  if (0 <? nDecoded + t) && bool_decide (criterionType opt_ = ASG)
  then tr ← array_at transitions_ (n * N + prevIdx); Ok (f64_add (widen e) (widen tr)) else Ok (widen e).

Definition withSil (n : Z) (sc : f64) : f64 := if n =? sil_ then f64_add sc (silScore opt_) else sc.

(** The state and score of a word: a token level model has scored its token, a
    word level one scores it now. *)
Definition wordScoreOf (prevHyp : St) (word : Z) (ls : lmptr) (lmSc : f64) (w : W) : result (lmptr * f64 * W) :=
  if isLmToken_ then Ok (ls, lmSc, w)
  else '(l, z, w) ← lm_score lm_ (s_lmState prevHyp) word w;
       Ok (l, widen (f32_sub z (lexMax (s_lex prevHyp))), w).

(** "If we got a true word": one candidate per label of the node. *)
Definition proposeLabel (prevPtr : ptr) (prevHyp : St) (n : Z) (amSc sc : f64)
    (acc : cands St * lmptr * f64 * W) (label : Z) : result (cands St * lmptr * f64 * W) :=
  let '(c, ls, lmSc, w) := acc in
  if bool_decide (s_lex prevHyp = root) && (s_token prevHyp =? n) then Ok acc
  else
    '(ls, lmSc, w) ← wordScoreOf prevHyp label ls lmSc w;
    Ok (candidatesAdd (beamThreshold opt_)
       (f64_add (f64_add sc (f64_mul (lmWeight opt_) lmSc)) (wordScore opt_))
       (fun z => LXState z ls root (Some prevPtr) n label false (f64_add (s_amScore prevHyp) amSc)
                   (f64_add (s_lmScore prevHyp) lmSc)) c, ls, lmSc, w).

(** (1) Try children: the body of the loop over tokens. *)
Definition proposeChild (nDecoded : Z) (emissions : list f32) (t N : Z) (prev : ptr * St)
    (acc : cands St * W) (n : Z) : result (cands St * W) :=
  let '(prevPtr, prevHyp) := prev in
  let '(c, w) := acc in
  match children (node_at (s_lex prevHyp)) !! n with
  | None => Ok acc
  | Some lexId =>
      let lex := node_at lexId in
      amSc ← amOf nDecoded emissions t N n (s_token prevHyp);
      let sc := withSil n (f64_add (s_score prevHyp) amSc) in
      (* a null state is never used: it is overwritten before each use *)
      '(ls, lmSc, w) ←
        (if isLmToken_ then '(l, z, w) ← lm_score lm_ (s_lmState prevHyp) n w; Ok (l, widen z, w)
         else Ok (s_lmState prevHyp, f_zero, w));
      let '(c, ls, lmSc) :=
        if (negb (bool_decide (criterionType opt_ = CTC)) || s_prevBlank prevHyp || negb (n =? s_token prevHyp))
           && negb (bool_decide (children lex = ∅)) then
          let '(ls, lmSc) :=
            if isLmToken_ then (ls, lmSc)
            else (s_lmState prevHyp, widen (f32_sub (maxScore lex) (lexMax (s_lex prevHyp)))) in
          (candidatesAdd (beamThreshold opt_) (f64_add sc (f64_mul (lmWeight opt_) lmSc))
             (fun z => LXState z ls lexId (Some prevPtr) n (-1) false (f64_add (s_amScore prevHyp) amSc)
                         (f64_add (s_lmScore prevHyp) lmSc)) c, ls, lmSc)
        else (c, ls, lmSc) in
      '(c, ls, lmSc, w) ← foldM_result (proposeLabel prevPtr prevHyp n amSc sc) (c, ls, lmSc, w) (labels lex);
      if bool_decide (labels lex = []) && fgt (unkScore opt_) kNegativeInfinity then
        '(ls, lmSc, w) ← wordScoreOf prevHyp unk_ ls lmSc w;
        Ok (candidatesAdd (beamThreshold opt_)
           (f64_add (f64_add sc (f64_mul (lmWeight opt_) lmSc)) (unkScore opt_))
           (fun z => LXState z ls root (Some prevPtr) n unk_ false (f64_add (s_amScore prevHyp) amSc)
                       (f64_add (s_lmScore prevHyp) lmSc)) c, w)
      else Ok (c, w)
  end.

(** (2) Try same lexicon node *)
Definition proposeSame (nDecoded : Z) (emissions : list f32) (t N : Z) (prev : ptr * St) (acc : cands St * W)
    : result (cands St * W) :=
  let '(prevPtr, prevHyp) := prev in
  let '(c, w) := acc in
  if negb (bool_decide (criterionType opt_ = CTC)) || negb (s_prevBlank prevHyp) || bool_decide (s_lex prevHyp = root)
  then
    let n := if bool_decide (s_lex prevHyp = root) then sil_ else s_token prevHyp in
    amSc ← amOf nDecoded emissions t N n (s_token prevHyp);
    Ok (candidatesAdd (beamThreshold opt_) (withSil n (f64_add (s_score prevHyp) amSc))
       (fun z => LXState z (s_lmState prevHyp) (s_lex prevHyp) (Some prevPtr) n (-1) false
                   (f64_add (s_amScore prevHyp) amSc) (s_lmScore prevHyp)) c, w)
  else Ok acc.

(** (3) CTC only, try blank *)
Definition proposeBlank (emissions : list f32) (t N : Z) (prev : ptr * St) (acc : cands St * W) : result (cands St * W) :=
  let '(prevPtr, prevHyp) := prev in
  let '(c, w) := acc in
  if bool_decide (criterionType opt_ = CTC) then
    e ← array_at emissions (t * N + blank_);
    let amSc := widen e in
    Ok (candidatesAdd (beamThreshold opt_) (f64_add (s_score prevHyp) amSc)
       (fun z => LXState z (s_lmState prevHyp) (s_lex prevHyp) (Some prevPtr) blank_ (-1) true
                   (f64_add (s_amScore prevHyp) amSc) (s_lmScore prevHyp)) c, w)
  else Ok acc.

Definition proposeHyp (nDecoded : Z) (emissions : list f32) (t N : Z) (toks : list Z) (acc : cands St * W) (prev : ptr * St)
    : result (cands St * W) :=
  acc ← foldM_result (proposeChild nDecoded emissions t N prev) acc toks;
  acc ← proposeSame nDecoded emissions t N prev acc;
  proposeBlank emissions t N prev acc.

Definition propose (nDecoded : Z) (emissions : list f32) (t N : Z) (prevs : list (ptr * St)) (w : W)
    : result (cands St * W) :=
  toks ← tokensAt emissions t N;
  foldM_result (proposeHyp nDecoded emissions t N toks) (candidatesReset, w) prevs.

(** One iteration of the loop over frames. *)
Definition decodeFrame (nDecoded startFrame : Z) (emissions : list f32) (N : Z) (hw : hyps St * W) (t : Z)
    : result (hyps St * W) :=
  let '(h, w) := hw in
  '(c, w) ← propose nDecoded emissions t N (addressed (startFrame + t) h) w;
  match candidatesStore exp log1p (candidates c) (beamSize opt_)
          (f64_sub (candidatesBestScore c) (beamThreshold opt_)) (logAdd opt_) false with
  | Throw e => Throw e
  | Ok out => w ← updateLMCache lm_ out w; Ok (set_frame (startFrame + t + 1) out h, w)
  end.

(** [std::vector<size_t> idx(N)] throws for a negative [N]. *)
Definition decodeStep (emissions : list f32) (T N : Z) (d : lxd) : result lxd :=
  let startFrame := nDecodedFrames_ d - nPrunedFrames_ d in
  let h := extend (startFrame + T + 2) (hyp_ d) in
  if N <? 0 then Throw LogicError
  else match foldM_result (decodeFrame (nDecodedFrames_ d) startFrame emissions N) (h, lmw d) (zrange 0 T) with
  | Throw e => Throw e
  | Ok (h, w) => Ok (LXD h (nDecodedFrames_ d + T) (nPrunedFrames_ d) w)
  end.

Definition hasNiceEnding (prevs : list (ptr * St)) : bool :=
  existsb (fun prev => bool_decide (s_lex prev.2 = root)) prevs.

Definition proposeEnd (nice : bool) (acc : cands St * W) (prev : ptr * St) : result (cands St * W) :=
  let '(prevPtr, prevHyp) := prev in
  let '(c, w) := acc in
  if negb nice || bool_decide (s_lex prevHyp = root) then
    '(ls, lmSc, w) ← lm_finish lm_ (s_lmState prevHyp) w;
    Ok (candidatesAdd (beamThreshold opt_) (f64_add (s_score prevHyp) (f64_mul (lmWeight opt_) (widen lmSc)))
       (fun z => LXState z ls (s_lex prevHyp) (Some prevPtr) sil_ (-1) false (s_amScore prevHyp)
                   (f64_add (s_lmScore prevHyp) (widen lmSc))) c, w)
  else Ok acc.

Definition decodeEnd (d : lxd) : result lxd :=
  let finalFrame := nDecodedFrames_ d - nPrunedFrames_ d in
  let prevs := addressed finalFrame (hyp_ d) in
  '(c, w) ← foldM_result (proposeEnd (hasNiceEnding prevs)) (candidatesReset, lmw d) prevs;
  match candidatesStore exp log1p (candidates c) (beamSize opt_)
          (f64_sub (candidatesBestScore c) (beamThreshold opt_)) (logAdd opt_) true with
  | Throw e => Throw e
  | Ok out => Ok (LXD (set_frame (finalFrame + 1) out (hyp_ d)) (nDecodedFrames_ d + 1) (nPrunedFrames_ d) w)
  end.

Definition getAllFinalHypothesis (d : lxd) : result (list DecodeResult) :=
  let finalFrame := nDecodedFrames_ d - nPrunedFrames_ d in
  if finalFrame <? 1 then Ok []
  else match vec finalFrame (hyp_ d) with
       | Throw e => Throw e
       | Ok _ => getAllHypothesis (hyp_ d) (frame_at finalFrame (hyp_ d)) finalFrame
       end.

Definition getBestHypothesis (lookBack : Z) (d : lxd) : result DecodeResult :=
  let finalFrame := nDecodedFrames_ d - nPrunedFrames_ d in
  if finalFrame - lookBack <? 1 then Ok (newResult 0)
  else match vec finalFrame (hyp_ d) with
       | Throw e => Throw e
       | Ok _ =>
           let '(node, lookBack) := findBestAncestor lx_isComplete (hyp_ d) (frame_at finalFrame (hyp_ d)) lookBack in
           getHypothesis (hyp_ d) node (nDecodedFrames_ d - nPrunedFrames_ d - lookBack)
       end.

Definition nHypothesis (d : lxd) : Z := zlen (frame_at (nDecodedFrames_ d - nPrunedFrames_ d) (hyp_ d)).
Definition nDecodedFramesInBuffer (d : lxd) : Z := nDecodedFrames_ d - nPrunedFrames_ d + 1.

Definition prune (lookBack : Z) (d : lxd) : result lxd :=
  if nDecodedFrames_ d - nPrunedFrames_ d - lookBack <? 1 then Ok d
  else
    let finalFrame := nDecodedFrames_ d - nPrunedFrames_ d in
    match vec finalFrame (hyp_ d) with
    | Throw e => Throw e
    | Ok _ =>
        let '(node, lookBack) := findBestAncestor lx_isComplete (hyp_ d) (frame_at finalFrame (hyp_ d)) lookBack in
        match node with
        | None => Ok d
        | Some _ =>
            let startFrame := nDecodedFrames_ d - nPrunedFrames_ d - lookBack in
            if startFrame <? 1 then Ok d
            else match pruneAndNormalize startFrame lookBack (hyp_ d) with
                 | Throw e => Throw e
                 | Ok h => Ok (LXD h (nDecodedFrames_ d) (nDecodedFrames_ d - lookBack) (lmw d))
                 end
        end
    end.

(** [Decoder::decode] *)
Definition decode (emissions : list f32) (T N : Z) (d : lxd) : result (list DecodeResult) :=
  d ← decodeBegin d;
  d ← decodeStep emissions T N d;
  d ← decodeEnd d;
  getAllFinalHypothesis d.
End LexiconDecoder.
