(* ===== verification/LexiconProofs.v ===== *)
(** The lexicon decoder: totality, and every word it emits is spelled by the
    tokens of its path. *)
From Stdlib Require Import Floats.SpecFloat.
From S2P Require Import Prelude Float FloatRound StdAlgorithm DecoderUtils DecoderBeam DecoderPaths Trie Lexicon.

Open Scope Z_scope.

Abbreviation St := LexiconDecoderState.

#[export] Instance Lexicon_laws : DecoderStateLaws LexiconDecoderState.
Proof.
  refine {| key x := [Z.pos (s_lmState x); Z.pos (s_lex x); s_token x; Z.b2z (s_prevBlank x)] |}; try done.
  - intros x y. change (lx_compare x y = lexcmp [Z.pos (s_lmState x); Z.pos (s_lex x); s_token x; Z.b2z (s_prevBlank x)]
                                           [Z.pos (s_lmState y); Z.pos (s_lex y); s_token y; Z.b2z (s_prevBlank y)]).
    destruct x as [? a la ? ta ? pa ? ?], y as [? b lb ? tb ? pb ? ?].
    unfold lx_compare, lm_compare. cbn [s_lmState s_lex s_token s_prevBlank lexcmp].
    assert (Ep : forall u v : positive, (Z.pos u =? Z.pos v) = bool_decide (u = v)).
    { intros u v. destruct (bool_decide_reflect (u = v)) as [->|Hne]; [apply Z.eqb_refl|].
      apply Z.eqb_neq. congruence. }
    rewrite !Ep. destruct (bool_decide_reflect (a = b)) as [->|Hne].
    + rewrite Z.eqb_refl. cbn [negb]. destruct (bool_decide_reflect (la = lb)); cbn [negb]; [|done].
      destruct (Z.eqb_spec ta tb); cbn [negb]; [by destruct pa, pb|done].
    + destruct (Z.ltb_spec (Z.pos a) (Z.pos b)), (Z.ltb_spec (Z.pos b) (Z.pos a)); try done; lia.
  - by intros [].
Defined.

Record options_ok (opt : LexiconDecoderOptions) : Prop := {
  oo_beam : 0 <= beamSize opt;
  oo_thr : nonneg_finite (beamThreshold opt) = true;
  oo_valid : valid64 (silScore opt) /\ valid64 (lmWeight opt) /\ valid64 (wordScore opt) /\ valid64 (unkScore opt);
  oo_max : logAdd opt = false
}.

Section Proofs.
Context {W : Type} (lm_ : LM W) (exp log1p : f64 -> f64) {alg : StdAlgo} `{!StdAlgoLaws alg}.
Context (opt_ : LexiconDecoderOptions) (lexicon_ : Trie) (transitions_ : list f32).
Context (sil_ blank_ unk_ : Z) (isLmToken_ : bool).
Hypothesis Hopt : options_ok opt_.
Hypothesis Htrie : trie_ok lexicon_.
Hypothesis Hlm : lm_total lm_.

Abbreviation root := (getRoot lexicon_).
Abbreviation nodeAt := (node_at lexicon_).

(** * Moves in the lexicon *)

(** How a hypothesis follows its parent in the trie. *)
Inductive move (y x : St) : Prop :=
| move_child c : children (nodeAt (s_lex y)) !! s_token x = Some c -> s_lex x = c -> s_word x = -1 -> move y x
| move_word c : children (nodeAt (s_lex y)) !! s_token x = Some c -> s_lex x = root ->
    s_word x ∈ labels (nodeAt c) -> move y x
| move_unk c : children (nodeAt (s_lex y)) !! s_token x = Some c -> s_lex x = root ->
    s_word x = unk_ -> labels (nodeAt c) = [] -> fgt (unkScore opt_) kNegativeInfinity = true -> move y x
| move_sil : s_lex y = root -> s_lex x = root -> s_word x = -1 -> s_token x = sil_ -> move y x
| move_repeat : s_lex x = s_lex y -> s_word x = -1 -> s_token x = s_token y -> move y x
| move_blank : criterionType opt_ = CTC -> s_lex x = s_lex y -> s_word x = -1 -> s_token x = blank_ -> move y x.

Definition from_prev (N : Z) (prevs : list (ptr * St)) (x : St) : Prop :=
  exists p y, (p, y) ∈ prevs /\ s_parent x = Some p /\ move y x /\ valid64 (s_score x) /\ 0 <= s_token x < N.

Lemma withSil_valid n sc : valid64 sc -> valid64 (withSil opt_ sil_ n sc).
Proof. intros H. unfold withSil. destruct (oo_valid _ Hopt) as (? & _). destruct (_ =? _); auto with fl. Qed.

Lemma wordScoreOf_ok y word ls lmSc w :
  valid64 lmSc -> exists ls' lmSc' w', wordScoreOf lm_ lexicon_ isLmToken_ y word ls lmSc w = Ok (ls', lmSc', w') /\ valid64 lmSc'.
Proof.
  intros Hv. unfold wordScoreOf. destruct isLmToken_; [by eexists _, _, _|].
  destruct (lt_score _ Hlm (s_lmState y) word w) as (l & z & w' & ->). cbn [mbind result_bind]. eexists _, _, _. split; [done|]. auto with fl.
Qed.

Section Propose.
Context (emissions : list f32) (T N t : Z) (prevs : list (ptr * St)).
Hypothesis HN : 0 <= N.
Hypothesis Hem : emissions_ok (beamSizeToken opt_) emissions T N.
Hypothesis Htr : transitions_ok (criterionType opt_) transitions_ N.
Hypothesis Hsil : 0 <= sil_ < N.
Hypothesis Hblank : criterionType opt_ = CTC -> 0 <= blank_ < N.
Hypothesis Ht : 0 <= t < T.

Abbreviation ok := (cands_ok (from_prev N prevs)).

Lemma amOf_ok n prevIdx :
  0 <= n < N -> 0 <= prevIdx < N -> exists z, amOf opt_ transitions_ 0 emissions t N n prevIdx = Ok z /\ valid64 z.
Proof.
  intros Hn Hp. unfold amOf. destruct (emission_ok _ _ _ _ Hem HN t n Ht Hn) as [e ->]. cbn [mbind result_bind].
  destruct (0 <? 0 + t); cbn [andb]; [|eexists; split; [done|]; auto with fl].
  destruct (bool_decide_reflect (criterionType opt_ = ASG)) as [Hc|_]; [|eexists; split; [done|]; auto with fl].
  destruct (transition_ok _ _ _ n prevIdx Htr Hc Hn Hp) as [z ->]. cbn [mbind result_bind]. eexists. split; [done|]. auto with fl.
Qed.

(** Adding a candidate that makes a move. *)
Lemma lx_add_move p y c sc mk :
  (p, y) ∈ prevs -> valid64 sc -> (forall z, score (mk z) = z) -> s_parent (mk sc) = Some p -> move y (mk sc) ->
  0 <= s_token (mk sc) < N -> ok c -> ok (candidatesAdd (beamThreshold opt_) sc mk c).
Proof.
  intros Hin Hv Hmk Hp Hm Hr Hc. apply candidatesAdd_ok; [apply Hopt|done|done| |done].
  intros _. exists p, y. split_and!; [done|done|done| |apply Hr..]. change (s_score (mk sc)) with (score (mk sc)). by rewrite Hmk.
Qed.

Section Hypothesis_.
Context (p : ptr) (y : St).
Hypothesis Hin : (p, y) ∈ prevs.
Hypothesis Hv : valid64 (s_score y).
Hypothesis Hy : 0 <= s_token y < N.

Lemma proposeLabels_ok n c0 amSc sc ls acc :
  0 <= n < N -> valid64 sc -> children (nodeAt (s_lex y)) !! n = Some c0 ->
  (forall l, l ∈ ls -> l ∈ labels (nodeAt c0)) ->
  ok acc.1.1.1 -> valid64 acc.1.2 ->
  exists r, foldM_result (proposeLabel lm_ opt_ lexicon_ isLmToken_ p y n amSc sc) acc ls = Ok r /\ ok r.1.1.1 /\ valid64 r.1.2.
Proof.
  intros Hn Vsc Hc Hls Hok Hlms.
  apply (foldM_result_total _ (fun acc => ok acc.1.1.1 /\ valid64 acc.1.2)); [|done].
  intros [[[c l] lmSc] w] label Hlabel [Hok' Hlm']. cbn [fst snd] in *. unfold proposeLabel.
  destruct (bool_decide (s_lex y = root) && (s_token y =? n)); [eexists; split; [done|]; done|].
  destruct (oo_valid _ Hopt) as (_ & Vw & Vword & _).
  destruct (wordScoreOf_ok y label l lmSc w Hlm') as (l' & z & w' & -> & Vz). cbn [mbind result_bind].
  eexists. split; [done|]. cbn [fst snd]. split; [|done]. apply (lx_add_move p y); auto with fl.
  apply (move_word _ _ c0); [done|done|]. by apply Hls.
Qed.

Lemma proposeChild_ok n acc :
  0 <= n < N -> ok acc.1 ->
  exists acc', proposeChild lm_ opt_ lexicon_ transitions_ sil_ unk_ isLmToken_ 0 emissions t N (p, y) acc n = Ok acc' /\ ok acc'.1.
Proof.
  destruct acc as [c w]. intros Hn Hc. cbn [fst snd] in *. unfold proposeChild.
  destruct (children (nodeAt (s_lex y)) !! n) as [c0|] eqn:Hch; [|eexists; split; [done|]; done].
  destruct (amOf_ok n (s_token y) Hn Hy) as (amSc & -> & Vam). cbn [mbind result_bind].
  set (sc := withSil opt_ sil_ n (f64_add (s_score y) amSc)).
  assert (Vsc : valid64 sc) by (apply withSil_valid, valid64_add; done).
  destruct (oo_valid _ Hopt) as (_ & Vw & _ & Vunk).
  match goal with |- context [mbind _ (if isLmToken_ then ?a else ?b)] =>
    assert (E0 : exists q, (if isLmToken_ then a else b) = Ok q /\ valid64 q.1.2) end.
  { destruct isLmToken_; [|by eexists]. destruct (lt_score _ Hlm (s_lmState y) n w) as (l & z & w' & ->).
    eexists. split; [done|]. cbn. auto with fl. }
  destruct E0 as ([[ls0 lm0] w0] & E0 & V0). rewrite E0. clear E0. cbn [fst snd mbind result_bind] in *.
  set (q1 := if (_ || _ || _) && _ then _ else _).
  assert (V1 : ok q1.1.1 /\ valid64 q1.2).
  { unfold q1. destruct ((_ || _ || _) && _); [|done].
    set (q := if isLmToken_ then (ls0, lm0) else _).
    assert (Vq : valid64 q.2) by (unfold q; destruct isLmToken_; cbn; auto with fl).
    destruct q as [ls2 lm2]. cbn [fst snd] in *. split; [|done].
    apply (lx_add_move p y); auto with fl. by apply (move_child _ _ c0). }
  destruct q1 as [[c1 ls1] lm1]. cbn [fst snd] in V1. destruct V1 as [Ok1 V1].
  destruct (proposeLabels_ok n c0 amSc sc (labels (nodeAt c0)) (c1, ls1, lm1, w0) Hn Vsc Hch ltac:(done) Ok1 V1)
    as ([[[c2 ls2] lm2] w2] & -> & Ok2 & V2). cbn [fst snd mbind result_bind] in *.
  destruct (bool_decide (labels (nodeAt c0) = []) && fgt (unkScore opt_) kNegativeInfinity) eqn:Eu; [|eexists; split; [done|]; done].
  apply andb_prop in Eu as [El Eu]. apply bool_decide_eq_true_1 in El.
  destruct (wordScoreOf_ok y unk_ ls2 lm2 w2 V2) as (ls3 & lm3 & w3 & -> & V3). cbn [mbind result_bind]. eexists. split; [done|].
  cbn [fst]. apply (lx_add_move p y); auto with fl. by apply (move_unk _ _ c0).
Qed.

Lemma proposeSame_ok (acc : cands St * W) :
  ok acc.1 ->
  exists acc', proposeSame opt_ lexicon_ transitions_ sil_ 0 emissions t N (p, y) acc = Ok acc' /\ ok acc'.1.
Proof.
  destruct acc as [c w]. intros Hc. cbn [fst snd] in *. unfold proposeSame.
  destruct (_ || _ || _); [|eexists; split; [done|]; done].
  set (n := if bool_decide (s_lex y = root) then sil_ else s_token y).
  assert (Hn : 0 <= n < N) by (unfold n; by case_bool_decide).
  destruct (amOf_ok n (s_token y) Hn Hy) as (amSc & -> & Vam). cbn [mbind result_bind]. eexists. split; [done|]. cbn [fst].
  apply (lx_add_move p y); auto using withSil_valid, valid64_add.
  unfold n. destruct (bool_decide_reflect (s_lex y = root)) as [Er|Er]; [by apply move_sil|by apply move_repeat].
Qed.

Lemma proposeBlank_ok (acc : cands St * W) :
  ok acc.1 -> exists acc', proposeBlank (W := W) opt_ blank_ emissions t N (p, y) acc = Ok acc' /\ ok acc'.1.
Proof.
  destruct acc as [c w]. intros Hc. cbn [fst snd] in *. unfold proposeBlank.
  destruct (bool_decide_reflect (criterionType opt_ = CTC)) as [Ec|]; [|eexists; split; [done|]; done].
  destruct (emission_ok _ _ _ _ Hem HN t blank_ Ht (Hblank Ec)) as [e ->]. cbn [mbind result_bind]. eexists. split; [done|]. cbn [fst].
  apply (lx_add_move p y); auto with fl. by apply move_blank.
Qed.
End Hypothesis_.

Lemma lx_tokensAt_ok : exists ts, tokensAt opt_ emissions t N = Ok ts /\ forall n, n ∈ ts -> 0 <= n < N.
Proof.
  unfold tokensAt, tokenOrder. destruct (frameOrder_ok _ _ _ _ Hem HN t Ht) as (idx & -> & Hidx).
  eexists. split; [done|]. intros n Hn. apply Hidx. eapply subseteq_take, Hn.
Qed.

Lemma lx_propose_ok w :
  (forall p y, (p, y) ∈ prevs -> valid64 (s_score y) /\ 0 <= s_token y < N) ->
  exists acc, propose lm_ opt_ lexicon_ transitions_ sil_ blank_ unk_ isLmToken_ 0 emissions t N prevs w = Ok acc /\ ok acc.1.
Proof.
  intros Hvs. unfold propose. destruct lx_tokensAt_ok as (ts & -> & Hts). cbn [mbind result_bind].
  apply (foldM_result_total _ (fun acc => ok acc.1)); [|apply candidatesReset_ok].
  intros acc [p y] Hq Hc. destruct (Hvs p y Hq) as [Hv Hy]. unfold proposeHyp.
  destruct (foldM_result_total (proposeChild lm_ opt_ lexicon_ transitions_ sil_ unk_ isLmToken_ 0 emissions t N (p, y))
    (fun acc => ok acc.1) ts) with (s := acc) as (a1 & -> & Hc1); [intros a n Hn Ha; by apply proposeChild_ok; auto|done|].
  cbn [mbind result_bind]. destruct (proposeSame_ok p y Hq Hv Hy a1 Hc1) as (a2 & -> & Hc2). cbn [mbind result_bind].
  by apply proposeBlank_ok.
Qed.
End Propose.

(** * Spelling *)

(** [spells tr p]: the (token, word) pairs [tr] of consecutive frames emit only
    words of the lexicon, each spelled by the tokens consumed since the previous
    word; [p] are the tokens consumed of a word not finished yet. *)
Inductive spells : list (Z * Z) -> list Z -> Prop :=
| sp_start : spells [] []
| sp_sil tr : spells tr [] -> spells (tr ++ [(sil_, -1)]) []
| sp_repeat tr p n : spells tr p -> n = default sil_ (last tr.*1) -> spells (tr ++ [(n, -1)]) p
| sp_blank tr p : spells tr p -> criterionType opt_ = CTC -> spells (tr ++ [(blank_, -1)]) p
| sp_token tr p n c : spells tr p -> walk (nodes lexicon_) root (p ++ [n]) = Some c ->
    spells (tr ++ [(n, -1)]) (p ++ [n])
| sp_word tr p n w : spells tr p -> w ∈ (entries lexicon_ (p ++ [n])).1 -> spells (tr ++ [(n, w)]) []
| sp_unk tr p n c : spells tr p -> walk (nodes lexicon_) root (p ++ [n]) = Some c ->
    (entries lexicon_ (p ++ [n])).1 = [] -> fgt (unkScore opt_) kNegativeInfinity = true ->
    spells (tr ++ [(n, unk_)]) [].

(** Frame [f + 1] makes a move from frame [f]; the last frame closes the hypotheses. *)
Definition stepR (T N f : Z) (y x : St) : Prop :=
  (f < T /\ move y x /\ valid64 (s_score x) /\ 0 <= s_token x < N)
  \/ (f = T /\ s_lex x = s_lex y /\ s_word x = -1 /\ s_token x = sil_ /\ valid64 (s_score x)).

Definition rootQ (x : St) : Prop := s_lex x = root /\ s_token x = sil_ /\ s_word x = -1 /\ s_score x = f_zero.

Lemma lx_path_spells T N f x l :
  path (stepR T N) rootQ f x l -> f <= T ->
  exists body p, (fun z => (token z, getWord z)) <$> l = (sil_, -1) :: body /\ zlen body = f
    /\ spells body p /\ walk (nodes lexicon_) root p = Some (s_lex x)
    /\ s_token x = default sil_ (last body.*1).
Proof.
  induction 1 as [x (Q1 & Q2 & Q3 & _)|f y x l Hp IH HR]; intros Hf.
  - exists [], []. cbn. rewrite Q1, Q2, Q3. split_and!; try done. constructor.
  - destruct IH as (body & p & E1 & E2 & Hs & Hw & Ht); [lia|].
    destruct HR as [(_ & Hm & _)|(? & _)]; [|lia].
    exists (body ++ [(s_token x, s_word x)]).
    assert (Hroot : forall q, walk (nodes lexicon_) root q = Some root -> q = []).
    { intros q Hq. by eapply (tk_inj _ Htrie). }
    assert (Hl : s_token x = default sil_ (last (body ++ [(s_token x, s_word x)]).*1)).
    { rewrite fmap_app. change (fst <$> [(s_token x, s_word x)]) with [s_token x]. by rewrite last_snoc. }
    assert (Hz : zlen (body ++ [(s_token x, s_word x)]) = f + 1).
    { unfold zlen in *. rewrite length_app. cbn. lia. }
    rewrite fmap_app, E1.
    destruct Hm as [c Hc Hx Hwd|c Hc Hx Hwd|c Hc Hx Hwd Hlb Hunk|Hy Hx Hwd Htk|Hx Hwd Htk|HC Hx Hwd Htk].
    + exists (p ++ [s_token x]). pose proof (walk_child _ _ _ _ _ Htrie Hw Hc). split_and!; try done; [|congruence].
      rewrite Hwd. by econstructor.
    + exists []. pose proof (walk_child _ _ _ _ _ Htrie Hw Hc) as Hw'. split_and!; try done; [|by rewrite Hx].
      eapply sp_word; [done|]. by rewrite (entries_walk _ _ _ Htrie Hw').
    + exists []. pose proof (walk_child _ _ _ _ _ Htrie Hw Hc) as Hw'. split_and!; try done; [|by rewrite Hx].
      rewrite Hwd. eapply sp_unk; [done|done| |done]. by rewrite (entries_walk _ _ _ Htrie Hw').
    + exists []. split_and!; try done; [|by rewrite Hx]. rewrite Hwd, Htk. apply sp_sil.
      rewrite Hy in Hw. apply Hroot in Hw as ->. done.
    + exists p. split_and!; try done; [|congruence]. rewrite Hwd. apply sp_repeat; [done|congruence].
    + exists p. split_and!; try done; [|congruence]. rewrite Hwd, Htk. by apply sp_blank.
Qed.

(** * Frames *)

Section Frames.
Context (emissions : list f32) (T N : Z).
Hypothesis HT : 0 <= T.
Hypothesis HN : 0 <= N.
Hypothesis Hem : emissions_ok (beamSizeToken opt_) emissions T N.
Hypothesis Htr : transitions_ok (criterionType opt_) transitions_ N.
Hypothesis Hsil : 0 <= sil_ < N.
Hypothesis Hblank : criterionType opt_ = CTC -> 0 <= blank_ < N.

Abbreviation good := (linked (stepR T N) rootQ).

Lemma lx_good_valid last h f x :
  good last h -> 0 <= f <= last -> x ∈ frame_at f h -> valid64 (s_score x) /\ 0 <= s_token x < N.
Proof.
  intros L Hf Hx. destruct (Z.eq_dec f 0) as [->|Hne].
  - destruct (ln_root _ _ _ _ L x Hx) as [_ (_ & -> & _ & ->)]. done.
  - replace f with (f - 1 + 1) in Hx by lia.
    destruct (ln_step _ _ _ _ L (f - 1) x) as (v & j & y & _ & _ & _ & [(_ & _ & ?)|(_ & _ & _ & -> & ?)]);
      [lia|done|done|done].
Qed.

Lemma lx_decodeFrame_good h w t :
  good t h -> t < T -> t + 1 < Z.of_nat (size (frames h)) ->
  exists h' w', decodeFrame lm_ exp log1p opt_ lexicon_ transitions_ sil_ blank_ unk_ isLmToken_ 0 0 emissions N (h, w) t
      = Ok (h', w') /\ good (t + 1) h' /\ frames h' = frames h.
Proof.
  intros L Ht Hsz. unfold decodeFrame. rewrite Z.add_0_l. pose proof (ln_last _ _ _ _ L) as Hlast.
  destruct (lx_propose_ok emissions T N t (addressed t h) HN Hem Htr Hsil Hblank ltac:(lia) w) as ([c w1] & -> & Hc).
  { intros p y Hy. apply (lx_good_valid t h t y L ltac:(lia) (addressed_frame _ _ _ _ Hy)). }
  cbn [fst mbind result_bind] in *.
  destruct (candidatesStore_ok exp log1p _ (beamThreshold opt_) (beamSize opt_) false c (oo_thr _ Hopt) (oo_beam _ Hopt) Hc)
    as (out & Ho & _ & Hx).
  rewrite (oo_max _ Hopt), Ho. unfold updateLMCache. destruct (lt_update _ Hlm (lmState <$> out) w1) as (w2 & ->).
  cbn [mbind result_bind]. eexists _, _. split; [done|].
  destruct (proj2 (bo_dom _ (ln_buffer _ _ _ _ L) (t + 1))) as [v Hv]; [lia|].
  split; [|by apply (set_frame_frames _ _ _ v)].
  apply linked_push; [done|lia|]. intros x Hin. destruct (Hx x Hin) as (_ & _ & _ & p & y & Hy & Hp & Hm & Hvx).
  exists p, y. split_and!; [done|done|]. left. done.
Qed.

(** [decodeEnd]: what a closed hypothesis is. *)
Definition closes (prevs : list (ptr * St)) (x : St) : Prop :=
  exists p y, (p, y) ∈ prevs /\ s_parent x = Some p /\ s_lex x = s_lex y /\ s_word x = -1 /\ s_token x = sil_
    /\ valid64 (s_score x) /\ (hasNiceEnding lexicon_ prevs = true -> s_lex x = root).

Lemma lx_proposeEnd_good h w :
  good T h ->
  exists acc, foldM_result (proposeEnd lm_ opt_ lexicon_ sil_ (hasNiceEnding lexicon_ (addressed T h))) (candidatesReset, w)
    (addressed T h) = Ok acc /\ cands_ok (closes (addressed T h)) acc.1.
Proof.
  intros L. apply (foldM_result_total _ (fun acc => cands_ok (closes (addressed T h)) acc.1)); [|apply candidatesReset_ok].
  intros [c w'] [p y] Hq Hc. unfold proposeEnd. cbn [fst] in *.
  destruct (negb (hasNiceEnding lexicon_ (addressed T h)) || bool_decide (s_lex y = root)) eqn:En; [|eexists; split; [done|]; done].
  destruct (lt_finish _ Hlm (s_lmState y) w') as (ls & ld & w2 & ->). cbn [mbind result_bind]. eexists. split; [done|]. cbn [fst].
  assert (Vy : valid64 (s_score y)).
  { eapply lx_good_valid; [exact L| |eapply addressed_frame, Hq]. destruct (ln_last _ _ _ _ L). lia. }
  destruct (oo_valid _ Hopt) as (_ & Vw & _).
  apply candidatesAdd_ok; [apply Hopt|auto with fl|done| |done].
  intros Vz. exists p, y. split_and!; try done. intros Hnice. rewrite Hnice in En. by apply bool_decide_eq_true_1 in En.
Qed.

Lemma lx_decodeBegin_good d :
  exists d', decodeBegin lm_ lexicon_ sil_ d = Ok d' /\ good 0 (hyp_ d') /\ nDecodedFrames_ d' = 0 /\ nPrunedFrames_ d' = 0.
Proof.
  unfold decodeBegin. destruct (lt_start _ Hlm false (lmw d)) as (s & w & ->). cbn [mbind result_bind]. eexists. split; [done|].
  split_and!; [|done|done]. by apply linked_init.
Qed.

(** What a returned result says: one (token, word) pair per frame between two
    silences, spelling words of the lexicon. *)
Definition spelled (r : DecodeResult) : Prop :=
  exists body p, zlen body = T /\ tokens r = sil_ :: body.*1 ++ [sil_] /\ words r = -1 :: body.*2 ++ [-1]
    /\ spells body p.

Lemma path_spelled x l :
  path (stepR T N) rootQ (T + 1) x l ->
  spelled (DResult (score x) (amScore x) (lmScore x) (getWord <$> l) (token <$> l)).
Proof.
  intros Hl. inversion Hl as [|f y ? l' Hp HR]; subst; [lia|]. assert (f = T) as -> by lia.
  destruct HR as [(? & _)|(_ & _ & Hw & Ht & _)]; [lia|].
  destruct (lx_path_spells T N T y l' Hp) as (body & p & E1 & E2 & Hs & _ & _); [lia|].
  exists body, p. cbn [tokens words].
  assert (Et : token <$> l' = sil_ :: body.*1).
  { change (sil_ :: body.*1) with ((sil_, -1) :: body).*1. rewrite <- E1, <- list_fmap_compose. done. }
  assert (Ew : getWord <$> l' = -1 :: body.*2).
  { change (-1 :: body.*2) with ((sil_, -1) :: body).*2. rewrite <- E1, <- list_fmap_compose. done. }
  rewrite !fmap_app, Et, Ew. split_and!; try done; cbn; by rewrite ?Ht, ?Hw.
Qed.

Lemma lx_decode_aux d :
  exists rs, decode lm_ exp log1p opt_ lexicon_ transitions_ sil_ blank_ unk_ isLmToken_ emissions T N d = Ok rs
    /\ zlen rs <= beamSize opt_ /\ sorted (fun a b => fgt (r_score a) (r_score b)) rs
    /\ forall r, r ∈ rs -> spelled r.
Proof.
  unfold decode, decodeStep. destruct (lx_decodeBegin_good d) as (d0 & -> & L0 & E1 & E2). cbn [mbind result_bind].
  rewrite E1, E2, (proj2 (Z.ltb_ge N 0)) by done.
  replace (0 - 0 + T + 2) with (T + 2) by lia. replace (0 - 0) with 0 by lia.
  pose proof (linked_extend _ _ _ (T + 2) _ L0) as L1.
  destruct (extend_spec (T + 2) (hyp_ d0) (ln_buffer _ _ _ _ L0)) as (_ & Hsz & _).
  destruct (frames_loop (stepR T N) rootQ T
    (decodeFrame lm_ exp log1p opt_ lexicon_ transitions_ sil_ blank_ unk_ isLmToken_ 0 0 emissions N) (Z.to_nat T) 0
    (extend (T + 2) (hyp_ d0)) (lmw d0) lx_decodeFrame_good) as (h & w & -> & L2 & F2); [lia|done|lia|].
  cbn [mbind result_bind]. unfold decodeEnd. cbn [nDecodedFrames_ nPrunedFrames_ hyp_ lmw]. rewrite Z.add_0_l, Z.sub_0_r.
  destruct (lx_proposeEnd_good h w L2) as ([c w1] & -> & Hc). cbn [fst mbind result_bind] in *.
  destruct (candidatesStore_ok exp log1p _ (beamThreshold opt_) (beamSize opt_) true c (oo_thr _ Hopt) (oo_beam _ Hopt) Hc)
    as (out & Ho & Hbeam & Hx).
  rewrite (oo_max _ Hopt), Ho. cbn [mbind result_bind]. unfold getAllFinalHypothesis. cbn [nDecodedFrames_ nPrunedFrames_ hyp_].
  replace (T + 1 - 0) with (T + 1) by lia. rewrite (proj2 (Z.ltb_ge (T + 1) 1)) by lia.
  assert (L3 : linked (stepR T N) rootQ (T + 1) (set_frame (T + 1) out h)).
  { apply linked_push; [done|rewrite F2; lia|]. intros x Hin.
    destruct (Hx x Hin) as (_ & _ & _ & p & y & Hy & Hp & H1 & H2 & H3 & H4 & _).
    exists p, y. split_and!; [done|done|]. right. done. }
  destruct (proj2 (bo_dom _ (ln_buffer _ _ _ _ L2) (T + 1))) as [v Hv]; [rewrite F2; lia|].
  unfold vec. rewrite (set_frame_frames _ _ _ _ Hv), Hv.
  destruct (getAllHypothesis_paths _ _ _ _ (T + 1) L3) as (rs & Hrs & HF); [lia|].
  rewrite (set_frame_same _ _ _ _ Hv) in Hrs, HF |- *. exists rs. split_and!; [exact Hrs|..].
  - pose proof (beam_size _ _ _ _ Hbeam) as Hb. unfold zlen in *. by rewrite <- (Forall2_length _ _ _ HF).
  - apply (sorted_results out); [|by apply (beam_sorted _ _ _ _ Hbeam)].
    eapply Forall2_impl; [exact HF|]. by intros x r (l & _ & ->).
  - intros r Hr. apply list_elem_of_lookup in Hr as [i Hi].
    destruct (Forall2_lookup_r _ _ _ _ _ HF Hi) as (x & _ & l & Hl & ->). by apply path_spelled.
Qed.

(** C9. Lexicon decoding is total and lexical: with a well-formed trie, a
    language model that does not throw, merging by maximum ([logAdd] false), a
    finite non-negative threshold, silence and (under CTC) blank among the [N]
    tokens, and emissions and transitions of the sizes the indices need, no
    read leaves its array and [decode] returns at most [beamSize] results,
    best first; in each of them every emitted word is a label of the trie
    under the tokens consumed since the previous word, or the unknown word at
    a node without labels when [unkScore] allows it; the remaining frames
    repeat the previous token, are silence between words, or are blanks under
    CTC. *)
Theorem decode_lexical d :
  exists rs, decode lm_ exp log1p opt_ lexicon_ transitions_ sil_ blank_ unk_ isLmToken_ emissions T N d = Ok rs
    /\ zlen rs <= beamSize opt_ /\ sorted (fun a b => fgt (r_score a) (r_score b)) rs
    /\ forall r, r ∈ rs -> spelled r.
Proof. apply lx_decode_aux. Qed.
End Frames.
End Proofs.

(** * A concrete decoder *)

(** [ZeroLM] over three tokens and three frames. *)
Definition demo_opt : LexiconDecoderOptions := LXOptions 3 3 (f64_of_Z 10) f_zero f_zero f_neg_inf f_zero false CTC.
Definition demo_emissions : list f32 := (fun i => f32_of_Z (- ((i * 7) mod 5))) <$> zrange 0 9.
Definition demo_trie : Trie := snd (insert [1; 0] 4 f_zero (newTrie 3 (-1))).

Lemma demo_trie_ok : trie_ok demo_trie.
Proof.
  destruct (insert_aux [1; 0] 4 f_zero (newTrie 3 (-1)) (newTrie_ok 3 (-1))) as (n & t' & E & K & _).
  - repeat constructor; vm_compute; congruence.
  - unfold demo_trie. by rewrite E.
Qed.

Lemma lx_demo_options : options_ok demo_opt.
Proof. split; (done || reflexivity). Qed.

Lemma lx_demo_emissions : emissions_ok (beamSizeToken demo_opt) demo_emissions 3 3.
Proof. split; [vm_compute; discriminate|done|]. intros Hlt. vm_compute in Hlt. discriminate. Qed.

Lemma decode_lexical_witness :
  exists rs, decode ZeroLM (fun x => x) (fun x => x) demo_opt demo_trie [] 0 2 9 false
      demo_emissions 3 3 (LXD hyps_empty 0 0 ∅) = Ok rs /\ zlen rs <= 3.
Proof.
  destruct (decode_lexical ZeroLM (fun x => x) (fun x => x) demo_opt demo_trie [] 0 2 9 false
    lx_demo_options demo_trie_ok ZeroLM_total demo_emissions 3 3 ltac:(lia) ltac:(lia) lx_demo_emissions
    ltac:(done) ltac:(lia) ltac:(lia) (LXD hyps_empty 0 0 ∅)) as (rs & E & Hz & _).
  exists rs. split; [exact E|exact Hz].
Defined.
