(* ===== verification/Seq2Seq.v ===== *)
(** The two sequence-to-sequence decoders of [lib/text/decoder]:
    [LexiconFreeSeq2SeqDecoder] and [LexiconSeq2SeqDecoder].

    Their [decodeStep] has one skeleton, [s2sDecode]; the candidates of a frame
    are proposed by each decoder.  The acoustic model ([AMUpdateFunc]) is a
    parameter: from the tokens and states of the unfinished hypotheses it computes
    their score vectors and new states ([None] is the null pointer), without
    changing the frame counter it is given.  Indexing a vector out of range is
    undefined.  [decodeStep] moves the last beam out of its frame, which leaves
    null model pointers there; nothing reads them before the next [decodeStep]
    rewrites the frame, and the model keeps the beam in place. *)
From Stdlib Require Import Floats.SpecFloat.
From S2P Require Import Prelude Float FloatRound StdAlgorithm DecoderUtils DecoderBeam DecoderPaths Trie.

Open Scope Z_scope.

Abbreviation amptr := (option positive).

Definition AMUpdateFunc : Type := list Z -> list amptr -> Z -> list (list f32) * list amptr.

(** * The common skeleton *)

Section Skeleton.
Context {S : Type} `{DecoderState S} {W : Type} (lm_ : LM W) (exp log1p : f64 -> f64) {alg : StdAlgo}.
Context (beamSize : Z) (beamThreshold : f64) (logAdd : bool) (maxOutputLength_ eos_ : Z).
Context (amState : S -> amptr) (amUpdateFunc_ : AMUpdateFunc).
(** The candidates that hypothesis [prev] proposes, given its score vector and
    new state when it is unfinished. *)
Context (proposeFinished : ptr * S -> cands S * W -> cands S * W).
Context (proposeUnfinished : ptr * S -> list f32 -> list Z -> positive -> cands S * W -> result (cands S * W)).
Context (beamSizeToken : Z).

(** [rawY_] and [rawPrevStates_] *)
Definition unfinished (prevs : list (ptr * S)) : list (ptr * S) :=
  filter (fun q => token q.2 <> eos_) prevs.

(** The tokens considered for one hypothesis; [idx] has [nidx] entries. *)
Definition bestTokens (nidx : nat) (row : list f32) : result (list Z) :=
  let at_ (i : Z) : f32 := default S754_nan (row !! Z.to_nat i) in
  let idx := zrange 0 (Z.of_nat nidx) in
  let bst := u64 beamSizeToken in
  let idx := if bst <? zlen row
             then std_partial_sort (fun l r => fgt (at_ l) (at_ r)) (Z.to_nat bst) idx else idx in
  let n := Z.min (zlen row) bst in
  if Z.of_nat nidx <? n then Throw Undefined else Ok (take (Z.to_nat n) idx).

(** The loop over the hypotheses of a frame; the counter is [validHypo]. *)
Fixpoint proposeAll (nidx : nat) (amScores : list (list f32)) (outStates : list amptr)
    (prevs : list (ptr * S)) (validHypo : nat) (acc : cands S * W) : result (cands S * W) :=
  match prevs with
  | [] => Ok acc
  | prev :: r =>
      if token prev.2 =? eos_ then proposeAll nidx amScores outStates r validHypo (proposeFinished prev acc)
      else
        match outStates !! validHypo with
        | None => Throw Undefined
        | Some None => proposeAll nidx amScores outStates r (validHypo + 1) acc
        | Some (Some outState) =>
            match amScores !! validHypo with
            | None => Throw Undefined
            | Some row =>
                match bestTokens nidx row with
                | Throw e => Throw e
                | Ok toks => acc ← proposeUnfinished prev row toks outState acc;
                             proposeAll nidx amScores outStates r (validHypo + 1) acc
                end
            end
        end
  end.

(** [for (; t < maxOutputLength_; t++)]; returns the frame it stopped at. *)
Fixpoint s2sLoop (fuel : nat) (t : Z) (h : hyps S) (w : W) : result (Z * hyps S * W) :=
  match fuel with
  | O => Ok (t, h, w)
  | Datatypes.S f =>
      let prevs := addressed t h in
      let raw := unfinished prevs in
      match raw with
      | [] => Ok (t, h, w)
      | _ =>
          let '(amScores, outStates) :=
            amUpdateFunc_ ((fun q => token q.2) <$> raw) ((fun q => amState q.2) <$> raw) t in
          match last amScores with
          | None => Throw Undefined
          | Some row =>
              match proposeAll (length row) amScores outStates prevs 0 (candidatesReset, w) with
              | Throw e => Throw e
              | Ok (c, w) =>
                  match candidatesStore exp log1p (candidates c) beamSize
                          (f64_sub (candidatesBestScore c) beamThreshold) logAdd true with
                  | Throw e => Throw e
                  | Ok out => w ← updateLMCache lm_ out w; s2sLoop f (t + 1) (set_frame (t + 1) out h) w
                  end
              end
          end
      end
  end.

(** [while (t > 0 && hyp_[t].empty()) --t] *)
Fixpoint lastFilled (fuel : nat) (t : Z) (h : hyps S) : Z :=
  match fuel with
  | O => t
  | Datatypes.S f => if (0 <? t) && bool_decide (frame_at t h = []) then lastFilled f (t - 1) h else t
  end.

(** [decodeStep]; [init] builds the first hypothesis from the start state. *)
Definition s2sDecode (init : lmptr -> S) (h : hyps S) (w : W) : result (hyps S * W) :=
  let h := extend (maxOutputLength_ + 2) h in
  '(s, w) ← lm_start lm_ false w;
  let h := set_frame 0 [init s] h in
  match s2sLoop (Z.to_nat maxOutputLength_) 0 h w with
  | Throw e => Throw e
  | Ok (t, h, w) =>
      let t := lastFilled (Z.to_nat t) t h in
      Ok (set_frame (maxOutputLength_ + 1) (frame_at t h) h, w)
  end.

(** [getAllFinalHypothesis]: the results have room for [hyp_.size() + 1] entries. *)
Definition s2sResults (h : hyps S) : result (list DecodeResult) :=
  match vec (maxOutputLength_ + 1) h with
  | Throw e => Throw e
  | Ok _ => getAllHypothesis h (frame_at (maxOutputLength_ + 1) h) (Z.of_nat (size (frames h)))
  end.
End Skeleton.

(** * LexiconFreeSeq2SeqDecoder *)

Module LexiconFreeS2S.
Record LexiconFreeSeq2SeqDecoderOptions := Options {
  beamSize : Z; beamSizeToken : Z; beamThreshold : f64; lmWeight : f64; eosScore : f64; logAdd : bool
}.

Record LexiconFreeSeq2SeqDecoderState := MkState {
  s_score : f64; s_lmState : lmptr; s_parent : option ptr; s_token : Z; s_amState : amptr;
  s_amScore : f64; s_lmScore : f64
}.

#[export] Instance decoderState : DecoderState LexiconFreeSeq2SeqDecoderState := {
  score := s_score;
  set_score z x := MkState z (s_lmState x) (s_parent x) (s_token x) (s_amState x) (s_amScore x) (s_lmScore x);
  parent := s_parent;
  set_parent p x := MkState (s_score x) (s_lmState x) p (s_token x) (s_amState x) (s_amScore x) (s_lmScore x);
  lmState := s_lmState;
  token := s_token;
  amScore := s_amScore;
  lmScore := s_lmScore;
  getWord _ := -1;
  compareNoScoreStates a b := lm_compare (s_lmState a) (s_lmState b)
}.

Section Decoder.
Context {W : Type} (lm_ : LM W) (exp log1p : f64 -> f64) {alg : StdAlgo}.
Context (opt_ : LexiconFreeSeq2SeqDecoderOptions) (eos_ maxOutputLength_ : Z) (amUpdateFunc_ : AMUpdateFunc).

Abbreviation St := LexiconFreeSeq2SeqDecoderState.

Definition proposeFinished (prev : ptr * St) (acc : cands St * W) : cands St * W :=
  let '(p, y) := prev in
  let '(c, w) := acc in
  (candidatesAdd (beamThreshold opt_) (s_score y)
     (fun z => MkState z (s_lmState y) (Some p) eos_ None (s_amScore y) (s_lmScore y)) c, w).

Definition proposeToken (prev : ptr * St) (row : list f32) (outState : positive) (acc : cands St * W) (n : Z)
    : result (cands St * W) :=
  let '(p, y) := prev in
  let '(c, w) := acc in
  let am := widen (default S754_nan (row !! Z.to_nat n)) in
  if n =? eos_ then
    '(ls, lmSc, w) ← lm_finish lm_ (s_lmState y) w;
    Ok (candidatesAdd (beamThreshold opt_)
       (f64_add (f64_add (f64_add (s_score y) am) (eosScore opt_)) (f64_mul (lmWeight opt_) (widen lmSc)))
       (fun z => MkState z ls (Some p) n None (f64_add (s_amScore y) am) (f64_add (s_lmScore y) (widen lmSc))) c, w)
  else
    '(ls, lmSc, w) ← lm_score lm_ (s_lmState y) n w;
    Ok (candidatesAdd (beamThreshold opt_)
       (f64_add (f64_add (s_score y) am) (f64_mul (lmWeight opt_) (widen lmSc)))
       (fun z => MkState z ls (Some p) n (Some outState) (f64_add (s_amScore y) am)
                   (f64_add (s_lmScore y) (widen lmSc))) c, w).

Definition proposeUnfinished (prev : ptr * St) (row : list f32) (toks : list Z) (outState : positive)
    (acc : cands St * W) : result (cands St * W) :=
  foldM_result (proposeToken prev row outState) acc toks.

Definition initial (s : lmptr) : St := MkState f_zero s None (-1) None f_zero f_zero.

Definition decodeStep (h : hyps St) (w : W) : result (hyps St * W) :=
  s2sDecode lm_ exp log1p (beamSize opt_) (beamThreshold opt_) (logAdd opt_) maxOutputLength_ eos_ s_amState
    amUpdateFunc_ proposeFinished proposeUnfinished (beamSizeToken opt_) initial h w.

Definition getAllFinalHypothesis (h : hyps St) : result (list DecodeResult) := s2sResults maxOutputLength_ h.

(** [getHypothesis(hyp_.find(maxOutputLength_ + 1)->second.data(), hyp_.size())]:
    the first hypothesis, a null pointer for an empty vector. *)
Definition getBestHypothesis (h : hyps St) : result DecodeResult :=
  match vec (maxOutputLength_ + 1) h with
  | Throw e => Throw e
  | Ok _ => getHypothesis h (head (frame_at (maxOutputLength_ + 1) h)) (Z.of_nat (size (frames h)))
  end.

Definition prune (h : hyps St) : hyps St := h.
Definition nDecodedFramesInBuffer (h : hyps St) : Z := -1.
End Decoder.
End LexiconFreeS2S.

(** * LexiconSeq2SeqDecoder *)

Module LexiconS2S.
Record LexiconSeq2SeqDecoderOptions := Options {
  beamSize : Z; beamSizeToken : Z; beamThreshold : f64; lmWeight : f64; wordScore : f64; eosScore : f64;
  logAdd : bool
}.

Record LexiconSeq2SeqDecoderState := MkState {
  s_score : f64; s_lmState : lmptr; s_lex : nid; s_parent : option ptr; s_token : Z; s_word : Z;
  s_amState : amptr; s_amScore : f64; s_lmScore : f64
}.

(** [compareNoScoreStates] *)
Definition compare (a b : LexiconSeq2SeqDecoderState) : Z :=
  let lmCmp := lm_compare (s_lmState a) (s_lmState b) in
  if negb (lmCmp =? 0) then (if 0 <? lmCmp then 1 else -1)
  else if negb (bool_decide (s_lex a = s_lex b)) then (if Z.pos (s_lex b) <? Z.pos (s_lex a) then 1 else -1)
  else if negb (s_token a =? s_token b) then (if s_token b <? s_token a then 1 else -1)
  else 0.

#[export] Instance decoderState : DecoderState LexiconSeq2SeqDecoderState := {
  score := s_score;
  set_score z x := MkState z (s_lmState x) (s_lex x) (s_parent x) (s_token x) (s_word x) (s_amState x) (s_amScore x) (s_lmScore x);
  parent := s_parent;
  set_parent p x := MkState (s_score x) (s_lmState x) (s_lex x) p (s_token x) (s_word x) (s_amState x) (s_amScore x) (s_lmScore x);
  lmState := s_lmState;
  token := s_token;
  amScore := s_amScore;
  lmScore := s_lmScore;
  getWord := s_word;
  compareNoScoreStates := compare
}.

Section Decoder.
Context {W : Type} (lm_ : LM W) (exp log1p : f64 -> f64) {alg : StdAlgo}.
Context (opt_ : LexiconSeq2SeqDecoderOptions) (lexicon_ : Trie) (eos_ maxOutputLength_ : Z) (isLmToken_ : bool).
Context (amUpdateFunc_ : AMUpdateFunc).

Abbreviation St := LexiconSeq2SeqDecoderState.
Abbreviation root := (getRoot lexicon_).

Definition node_at (n : nid) : TrieNode := default (newNode 0) (nodes lexicon_ !! n).

Definition lexMax (prevLex : nid) : f32 :=
  if bool_decide (prevLex = root) then f_zero else maxScore (node_at prevLex).

Definition proposeFinished (prev : ptr * St) (acc : cands St * W) : cands St * W :=
  let '(p, y) := prev in
  let '(c, w) := acc in
  (candidatesAdd (beamThreshold opt_) (s_score y)
     (fun z => MkState z (s_lmState y) (s_lex y) (Some p) eos_ (-1) None (s_amScore y) (s_lmScore y)) c, w).

(** (1) Try eos *)
Definition proposeEos (prev : ptr * St) (am : f64) (n : Z) (acc : cands St * W) : result (cands St * W) :=
  let '(p, y) := prev in
  let '(c, w) := acc in
  if (n =? eos_) && bool_decide (s_lex y = root) then
    '(ls, z, w) ← lm_finish lm_ (s_lmState y) w;
    let lmSc := if isLmToken_ then widen z else widen (f32_sub z (lexMax (s_lex y))) in
    Ok (candidatesAdd (beamThreshold opt_)
       (f64_add (f64_add (f64_add (s_score y) am) (eosScore opt_)) (f64_mul (lmWeight opt_) lmSc))
       (fun z => MkState z ls root (Some p) n (-1) None (f64_add (s_amScore y) am) (f64_add (s_lmScore y) lmSc)) c, w)
  else Ok acc.

(** "If we got a true word"; with a token level model only the first label. *)
Fixpoint proposeWords (prev : ptr * St) (am : f64) (n : Z) (outState : positive) (ls : lmptr) (lmSc : f64)
    (words : list Z) (acc : cands St * W) : result (cands St * W) :=
  match words with
  | [] => Ok acc
  | word :: r =>
      let '(p, y) := prev in
      let '(c, w) := acc in
      '(ls, lmSc, w) ←
        (if isLmToken_ then Ok (ls, lmSc, w)
         else '(l, z, w) ← lm_score lm_ (s_lmState y) word w; Ok (l, widen (f32_sub z (lexMax (s_lex y))), w));
      let c := candidatesAdd (beamThreshold opt_)
                 (f64_add (f64_add (f64_add (s_score y) am) (wordScore opt_)) (f64_mul (lmWeight opt_) lmSc))
                 (fun z => MkState z ls root (Some p) n word (Some outState) (f64_add (s_amScore y) am)
                             (f64_add (s_lmScore y) lmSc)) c in
      if isLmToken_ then Ok (c, w) else proposeWords prev am n outState ls lmSc r (c, w)
  end.

(** (2) Try normal token *)
Definition proposeNormal (prev : ptr * St) (am : f64) (n : Z) (outState : positive) (acc : cands St * W)
    : result (cands St * W) :=
  let '(p, y) := prev in
  let '(c, w) := acc in
  if n =? eos_ then Ok acc
  else match children (node_at (s_lex y)) !! n with
       | None => Ok acc
       | Some lexId =>
           let lex := node_at lexId in
           '(ls, lmSc, w) ←
             (if isLmToken_ then '(l, z, w) ← lm_score lm_ (s_lmState y) n w; Ok (l, widen z, w)
              else Ok (s_lmState y, widen (f32_sub (maxScore lex) (lexMax (s_lex y))), w));
           let c := candidatesAdd (beamThreshold opt_)
                      (f64_add (f64_add (s_score y) am) (f64_mul (lmWeight opt_) lmSc))
                      (fun z => MkState z ls lexId (Some p) n (-1) (Some outState) (f64_add (s_amScore y) am)
                                  (f64_add (s_lmScore y) lmSc)) c in
           proposeWords prev am n outState ls lmSc (labels lex) (c, w)
       end.

Definition proposeToken (prev : ptr * St) (row : list f32) (outState : positive) (acc : cands St * W) (n : Z)
    : result (cands St * W) :=
  let am := widen (default S754_nan (row !! Z.to_nat n)) in
  acc ← proposeEos prev am n acc;
  proposeNormal prev am n outState acc.

Definition proposeUnfinished (prev : ptr * St) (row : list f32) (toks : list Z) (outState : positive)
    (acc : cands St * W) : result (cands St * W) :=
  foldM_result (proposeToken prev row outState) acc toks.

Definition initial (s : lmptr) : St := MkState f_zero s root None (-1) (-1) None f_zero f_zero.

Definition decodeStep (h : hyps St) (w : W) : result (hyps St * W) :=
  s2sDecode lm_ exp log1p (beamSize opt_) (beamThreshold opt_) (logAdd opt_) maxOutputLength_ eos_ s_amState
    amUpdateFunc_ proposeFinished proposeUnfinished (beamSizeToken opt_) initial h w.

Definition getAllFinalHypothesis (h : hyps St) : result (list DecodeResult) := s2sResults maxOutputLength_ h.

Definition getBestHypothesis (h : hyps St) : result DecodeResult :=
  match vec (maxOutputLength_ + 1) h with
  | Throw e => Throw e
  | Ok _ => getHypothesis h (head (frame_at (maxOutputLength_ + 1) h)) (Z.of_nat (size (frames h)))
  end.

Definition prune (h : hyps St) : hyps St := h.
Definition nDecodedFramesInBuffer (h : hyps St) : Z := -1.
End Decoder.
End LexiconS2S.
