(* ===== verification/Seq2SeqProofs.v ===== *)
(** The sequence-to-sequence decoders: totality for every well-shaped acoustic
    model, finished hypotheses stay finished, and words are spelled. *)
From Stdlib Require Import Floats.SpecFloat.
From S2P Require Import Prelude Float FloatRound StdAlgorithm DecoderUtils DecoderBeam DecoderPaths Trie Seq2Seq.

Open Scope Z_scope.

(** The acoustic model answers with one row and one state per hypothesis, and rows
    of one length. *)
Definition am_shape (am : AMUpdateFunc) : Prop :=
  forall ys ss t, ys <> [] -> length ss = length ys ->
  let '(rows, outs) := am ys ss t in
  length rows = length ys /\ length outs = length ys /\ exists n, Forall (fun row => length row = n) rows.

Section Skeleton.
Context {S : Type} `{DecoderStateLaws S} {W : Type} (lm_ : LM W) (exp log1p : f64 -> f64).
Context {alg : StdAlgo} `{!StdAlgoLaws alg}.
Context (beamSize : Z) (beamThreshold : f64) (maxOutputLength_ eos_ : Z).
Context (amState : S -> amptr) (amUpdateFunc_ : AMUpdateFunc).
Context (proposeFinished : ptr * S -> cands S * W -> cands S * W).
Context (proposeUnfinished : ptr * S -> list f32 -> list Z -> positive -> cands S * W -> result (cands S * W)).
Context (beamSizeToken : Z).
Context (R : S -> S -> Prop) (Q : S -> Prop).

Hypothesis Hbeam : 0 <= beamSize.
Hypothesis Hthr : nonneg_finite beamThreshold = true.
Hypothesis Hmax : 0 <= maxOutputLength_.
Hypothesis Ham : am_shape amUpdateFunc_.
Hypothesis Hlm : lm_total lm_.

Definition from_prev (prevs : list (ptr * S)) (x : S) : Prop :=
  exists p y, (p, y) ∈ prevs /\ parent x = Some p /\ R y x /\ valid64 (score x).

Abbreviation ok prevs := (cands_ok (from_prev prevs)).

Hypothesis Hfin : forall prevs prev acc,
  prev ∈ prevs -> token prev.2 = eos_ -> valid64 (score prev.2) -> ok prevs acc.1 -> ok prevs (proposeFinished prev acc).1.
(** The rows the acoustic model may answer. *)
Definition amRow (row : list f32) : Prop := exists ys ss t, row ∈ (amUpdateFunc_ ys ss t).1.
Hypothesis Hunf : forall prevs prev row toks out acc,
  prev ∈ prevs -> amRow row -> token prev.2 <> eos_ -> valid64 (score prev.2) -> ok prevs acc.1 ->
  exists acc', proposeUnfinished prev row toks out acc = Ok acc' /\ ok prevs acc'.1.

Lemma bestTokens_ok nidx row : length row = nidx -> exists toks, bestTokens beamSizeToken nidx row = Ok toks.
Proof.
  intros E. unfold bestTokens. destruct (Z.ltb_spec (Z.of_nat nidx) (Z.min (zlen row) (u64 beamSizeToken))) as [Hlt|]; [|eauto].
  unfold zlen in Hlt. lia.
Qed.

Lemma proposeAll_ok nidx rows outs prevs l k acc :
  Forall (fun row => length row = nidx) rows -> Forall amRow rows -> length rows = length outs ->
  (k + length (unfinished eos_ l) <= length outs)%nat ->
  (forall q, q ∈ l -> q ∈ prevs /\ valid64 (score q.2)) -> ok prevs acc.1 ->
  exists acc', proposeAll eos_ proposeFinished proposeUnfinished beamSizeToken nidx rows outs l k acc = Ok acc'
    /\ ok prevs acc'.1.
Proof.
  intros Hrows Hsrc Hlen. revert k acc. induction l as [|q l IH]; intros k acc Hk Hl Hc; cbn [proposeAll]; [eauto|].
  destruct (Hl q) as [Hq Vq]; [by left|]. assert (Hl' : forall q, q ∈ l -> q ∈ prevs /\ valid64 (score q.2)).
  { intros q' Hq'. apply Hl. by right. }
  unfold unfinished in Hk. destruct (Z.eqb_spec (token q.2) eos_) as [E|E].
  - rewrite filter_cons_False in Hk by (intros Hn; by apply Hn). apply IH; [done|done|]. by apply Hfin.
  - rewrite filter_cons_True in Hk by done. cbn in Hk.
    destruct (lookup_lt_is_Some_2 outs k) as [o Ho]; [lia|]. rewrite Ho.
    destruct o as [o|]; [|apply IH; [unfold unfinished; lia|done|done]].
    destruct (lookup_lt_is_Some_2 rows k) as [row Hrow]; [lia|]. rewrite Hrow.
    destruct (bestTokens_ok nidx row) as [toks Ht].
    { rewrite Forall_lookup in Hrows. by eapply Hrows. }
    rewrite Ht. rewrite Forall_lookup in Hsrc.
    destruct (Hunf prevs q row toks o acc) as (acc' & -> & Hc'); [eauto..|]. cbn [mbind result_bind].
    apply IH; [unfold unfinished; lia|done|done].
Qed.

Definition stepR (f : Z) (y x : S) : Prop := R y x /\ valid64 (score x).
Definition rootQ (x : S) : Prop := Q x /\ valid64 (score x).
Abbreviation good := (linked stepR rootQ).

Lemma s2s_good_valid last h f x : good last h -> 0 <= f <= last -> x ∈ frame_at f h -> valid64 (score x).
Proof.
  intros L Hf Hx. destruct (Z.eq_dec f 0) as [->|Hne].
  - by destruct (ln_root _ _ _ _ L x Hx) as [_ [_ ?]].
  - replace f with (f - 1 + 1) in Hx by lia.
    destruct (ln_step _ _ _ _ L (f - 1) x) as (v & j & y & _ & _ & _ & _ & ?); [lia|done|done].
Qed.

(** Every hypothesis of a frame is finished. *)
Definition all_finished (l : list S) : Prop := forall x, x ∈ l -> token x = eos_.

Lemma s2sLoop_good fuel t h w :
  good t h -> t + Z.of_nat fuel + 1 < Z.of_nat (size (frames h)) -> zlen (frame_at t h) <= Z.max 1 beamSize ->
  exists t' h' w', s2sLoop lm_ exp log1p beamSize beamThreshold false eos_ amState amUpdateFunc_ proposeFinished
      proposeUnfinished beamSizeToken fuel t h w = Ok (t', h', w')
    /\ good t' h' /\ frames h' = frames h /\ t <= t' <= t + Z.of_nat fuel
    /\ (forall f, 0 <= f <= t -> frame_at f h' = frame_at f h)
    /\ (forall f, t < f <= t' -> zlen (frame_at f h') <= beamSize)
    /\ (t' < t + Z.of_nat fuel -> all_finished (frame_at t' h')).
Proof.
  revert t h w. induction fuel as [|fuel IH]; intros t h w L Hsz Hz; cbn [s2sLoop].
  { eexists _, _, _. split; [done|]. split_and!; try done; lia. }
  pose proof (ln_last _ _ _ _ L) as Ht.
  destruct (unfinished eos_ (addressed t h)) as [|q0 raw] eqn:Eraw.
  { eexists _, _, _. split; [done|]. split_and!; try done; [lia..|]. intros _ x Hx.
    destruct (decide (token x = eos_)) as [|Hne]; [done|exfalso].
    apply list_elem_of_lookup in Hx as [j Hj]. destruct (linked_frame _ _ _ _ t L) as [v Hv]; [lia|].
    assert (Hin : ((v, j), x) ∈ unfinished eos_ (addressed t h)).
    { apply list_elem_of_filter. split; [done|]. apply addressed_lookup. eauto 6. }
    rewrite Eraw in Hin. by apply elem_of_nil in Hin. }
  rewrite <- Eraw. set (ys := _ <$> unfinished eos_ (addressed t h)). set (ss := _ <$> unfinished eos_ (addressed t h)).
  assert (Hne : unfinished eos_ (addressed t h) <> []) by congruence.
  pose proof (Ham ys ss t) as Hshape. destruct (amUpdateFunc_ ys ss t) as [rows outs] eqn:Eam.
  destruct Hshape as (Hr & Ho & n & Hn).
  { unfold ys. by rewrite Eraw. }
  { unfold ss, ys. by rewrite !length_fmap. }
  assert (Hrne : rows <> []). { intros ->. unfold ys in Hr. rewrite Eraw in Hr. done. }
  destruct (last rows) as [row|] eqn:Elast; [|by apply last_None in Elast].
  assert (Hrow : length row = n). { rewrite Forall_forall in Hn. apply Hn. by apply last_Some_elem_of. }
  destruct (proposeAll_ok (length row) rows outs (addressed t h) (addressed t h) 0 (candidatesReset, w)) as ([c w1] & -> & Hc).
  { by rewrite Hrow. }
  { apply Forall_forall. intros r Hin. exists ys, ss, t. by rewrite Eam. }
  { congruence. }
  { rewrite Ho. unfold ys. rewrite length_fmap. lia. }
  { intros [p y] Hq. split; [done|]. eapply s2s_good_valid; [exact L| |by eapply addressed_frame]. lia. }
  { apply candidatesReset_ok. }
  cbn [fst] in Hc.
  destruct (candidatesStore_ok exp log1p _ beamThreshold beamSize true c Hthr Hbeam Hc) as (out & Hst & Hb & Hx).
  rewrite Hst. unfold updateLMCache. destruct (lt_update _ Hlm (lmState <$> out) w1) as (w2 & ->). cbn [mbind result_bind].
  destruct (proj2 (bo_dom _ (ln_buffer _ _ _ _ L) (t + 1))) as [v Hv]; [lia|].
  pose proof (set_frame_frames (t + 1) out h v Hv) as Ef.
  destruct (IH (t + 1) (set_frame (t + 1) out h) w2) as (t' & h' & w' & -> & L' & F' & Hle & K1 & K2 & K3).
  - apply linked_push; [done|lia|]. intros x Hin.
    destruct (Hx x Hin) as (_ & _ & _ & p & y & Hy & Hp & HR & Hvx). exists p, y. done.
  - rewrite Ef. lia.
  - rewrite (set_frame_same _ _ _ _ Hv). pose proof (beam_size _ _ _ _ Hb). lia.
  - eexists _, _, _. split; [done|]. split_and!; [done|congruence|lia|lia| | |].
    + intros f Hf. rewrite K1 by lia. apply (set_frame_other _ _ _ _ v); [apply L|done|lia].
    + intros f Hf. destruct (Z.eq_dec f (t + 1)) as [->|]; [|apply K2; lia].
      rewrite K1, (set_frame_same _ _ _ _ Hv) by lia. apply (beam_size _ _ _ _ Hb).
    + intros. apply K3. lia.
Qed.

Lemma lastFilled_spec fuel t (h : hyps S) :
  0 <= t -> Z.of_nat fuel = t ->
  0 <= lastFilled fuel t h <= t
  /\ (lastFilled fuel t h <> 0 -> frame_at (lastFilled fuel t h) h <> [])
  /\ (lastFilled fuel t h < t -> frame_at t h = []).
Proof.
  revert t. induction fuel as [|fuel IH]; intros t Ht E; cbn [lastFilled]; [split_and!; lia|].
  destruct ((0 <? t) && bool_decide (frame_at t h = [])) eqn:Eb.
  - apply andb_prop in Eb as [_ Eb%bool_decide_eq_true_1]. destruct (IH (t - 1)) as (I1 & I2 & _); [lia..|].
    split_and!; [lia|lia|done|done].
  - split_and!; [lia|lia| |lia]. intros Hne Hnil. rewrite Hnil, bool_decide_true, andb_true_r in Eb by done. lia.
Qed.

(** A decoding produces results; each is a path of linked hypotheses behind unused
    entries. *)
Lemma s2sDecode_good init h w :
  buffer_ok h -> (forall s, parent (init s) = None /\ rootQ (init s)) ->
  exists h' w' rs, s2sDecode lm_ exp log1p beamSize beamThreshold false maxOutputLength_ eos_ amState amUpdateFunc_
      proposeFinished proposeUnfinished beamSizeToken init h w = Ok (h', w')
    /\ s2sResults maxOutputLength_ h' = Ok rs /\ zlen rs <= Z.max 1 beamSize
    /\ forall r, r ∈ rs -> exists f x l, 0 <= f <= maxOutputLength_ /\ path stepR rootQ f x l
         /\ (r_score r, r_amScore r, r_lmScore r) = (score x, amScore x, lmScore x)
         /\ words r = replicate (Z.to_nat (Z.of_nat (size (frames h')) - f)) (-1) ++ (getWord <$> l)
         /\ tokens r = replicate (Z.to_nat (Z.of_nat (size (frames h')) - f)) (-1) ++ (token <$> l).
Proof.
  intros B Hinit. unfold s2sDecode.
  destruct (extend_spec (maxOutputLength_ + 2) h B) as (B1 & E1 & _). set (h1 := extend (maxOutputLength_ + 2) h) in *.
  destruct (lt_start _ Hlm false w) as (s & w1 & ->). cbn [mbind result_bind]. destruct (Hinit s) as [Hp HQ].
  destruct (proj2 (bo_dom _ B1 0)) as [v0 Hv0]; [lia|].
  set (h2 := set_frame 0 [init s] h1).
  assert (F2 : frames h2 = frames h1) by (by apply (set_frame_frames _ _ _ v0)).
  assert (Z0 : frame_at 0 h2 = [init s]) by (by apply (set_frame_same _ _ _ v0)).
  assert (L2 : good 0 h2).
  { split; [apply set_frame_buffer; eauto|rewrite F2; lia| |intros; lia].
    rewrite Z0. by intros x ->%list_elem_of_singleton. }
  destruct (s2sLoop_good (Z.to_nat maxOutputLength_) 0 h2 w1 L2) as (t' & h3 & w3 & -> & L3 & F3 & Ht' & K1 & K2 & _).
  { rewrite F2. lia. }
  { rewrite Z0. unfold zlen. cbn. lia. }
  destruct (lastFilled_spec (Z.to_nat t') t' h3) as (T1 & _ & _); [lia..|].
  set (f := lastFilled (Z.to_nat t') t' h3) in *.
  pose proof (ln_buffer _ _ _ _ L3) as B3.
  destruct (proj2 (bo_dom _ B3 (maxOutputLength_ + 1))) as [v Hv]; [rewrite F3, F2; lia|].
  set (h4 := set_frame (maxOutputLength_ + 1) (frame_at f h3) h3).
  assert (F4 : frames h4 = frames h3) by (by apply (set_frame_frames _ _ _ v)).
  assert (K4 : forall g, g <> maxOutputLength_ + 1 -> frame_at g h4 = frame_at g h3).
  { intros g Hg. by apply (set_frame_other _ _ _ _ v). }
  assert (L4 : good f h4).
  { destruct L3 as [_ Hl Hr Hs]. split.
    - apply set_frame_buffer; eauto.
    - rewrite F4. lia.
    - rewrite K4 by lia. done.
    - intros g x Hg. rewrite !K4, F4 by lia. apply Hs. lia. }
  assert (Hfin4 : frame_at (maxOutputLength_ + 1) h4 = frame_at f h4).
  { unfold h4 at 1. rewrite (set_frame_same _ _ _ _ Hv), K4 by lia. done. }
  assert (Hroom : f <= Z.of_nat (size (frames h4))).
  { pose proof (ln_last _ _ _ _ L4). lia. }
  pose proof (fun x => getHypothesis_room stepR rootQ f h4 f _ x L4 (conj (proj1 T1) (Z.le_refl f)) Hroom) as Hall.
  destruct (mapM_result_total (fun x => getHypothesis h4 (Some x) (Z.of_nat (size (frames h4)))) (frame_at f h4)) as [rs Hrs].
  { intros x Hx. destruct (Hall x Hx) as (l & _ & E). eauto. }
  exists h4, w3, rs. split_and!; [done| | |].
  - unfold s2sResults, vec. rewrite F4, Hv, Hfin4, <- F4. exact Hrs.
  - apply mapM_result_Ok, Forall2_length in Hrs. unfold zlen. rewrite <- Hrs, K4 by lia.
    destruct (Z.eq_dec f 0) as [->|]; [rewrite K1, Z0 by lia; cbn; lia|].
    pose proof (K2 f ltac:(lia)) as Hz. unfold zlen in Hz. lia.
  - intros r Hr. apply mapM_result_Ok in Hrs. apply list_elem_of_lookup in Hr as [i Hi].
    destruct (Forall2_lookup_r _ _ _ _ _ Hrs Hi) as (x & Hx%list_elem_of_lookup_2 & E).
    destruct (Hall x Hx) as (l & Hl & E'). rewrite E in E'. injection E' as ->.
    exists f, x, l. split_and!; try done; lia.
Qed.
End Skeleton.

(** * LexiconFreeSeq2SeqDecoder *)

Module FreeProofs.
Import LexiconFreeS2S.
Abbreviation St := LexiconFreeSeq2SeqDecoderState.

#[export] Instance LexiconFreeS2S_laws : DecoderStateLaws LexiconFreeSeq2SeqDecoderState.
Proof.
  refine {| key x := [Z.pos (s_lmState x)] |}; try done.
  - intros x y. cbn [compareNoScoreStates decoderState lexcmp]. unfold lm_compare.
    destruct (Z.eqb_spec (Z.pos (s_lmState x)) (Z.pos (s_lmState y))) as [E|E].
    + injection E as ->. by rewrite bool_decide_true.
    + rewrite bool_decide_false by congruence.
      destruct (Z.ltb_spec (Z.pos (s_lmState x)) (Z.pos (s_lmState y))),
        (Z.ltb_spec (Z.pos (s_lmState y)) (Z.pos (s_lmState x))); try done; lia.
  - by intros [].
Defined.

Section Proofs.
Context {W : Type} (lm_ : LM W) (exp log1p : f64 -> f64) {alg : StdAlgo} `{!StdAlgoLaws alg}.
Context (opt_ : LexiconFreeSeq2SeqDecoderOptions) (eos_ maxOutputLength_ : Z) (amUpdateFunc_ : AMUpdateFunc).

Record options_ok : Prop := {
  oo_beam : 0 <= beamSize opt_;
  oo_thr : nonneg_finite (beamThreshold opt_) = true;
  oo_valid : valid64 (lmWeight opt_) /\ valid64 (eosScore opt_);
  oo_max : logAdd opt_ = false
}.
Hypothesis Hopt : options_ok.
Hypothesis Hmax : 0 <= maxOutputLength_.
Hypothesis Heos : 0 <= eos_.
Hypothesis Ham : am_shape amUpdateFunc_.
Hypothesis Hlm : lm_total lm_.

Definition amOf (n : Z) (a : f64) : Prop :=
  exists row, amRow amUpdateFunc_ row /\ a = widen (default S754_nan (row !! Z.to_nat n)).

(** [run toks fin sc am lm]: the transcript [toks] of consecutive frames, whether
    it is finished, and its total, acoustic and language model scores. *)
Inductive run : list Z -> bool -> f64 -> f64 -> f64 -> Prop :=
| run_start : run [] false f_zero f_zero f_zero
| run_token toks sc am lm n a (l : f32) : run toks false sc am lm -> n <> eos_ -> amOf n a ->
    run (toks ++ [n]) false (f64_add (f64_add sc a) (f64_mul (lmWeight opt_) (widen l)))
      (f64_add am a) (f64_add lm (widen l))
| run_eos toks sc am lm a (l : f32) : run toks false sc am lm -> amOf eos_ a ->
    run (toks ++ [eos_]) true (f64_add (f64_add (f64_add sc a) (eosScore opt_)) (f64_mul (lmWeight opt_) (widen l)))
      (f64_add am a) (f64_add lm (widen l))
| run_stay toks sc am lm : run toks true sc am lm -> run (toks ++ [eos_]) true sc am lm.

(** How a hypothesis follows its parent. *)
Inductive move (y x : St) : Prop :=
| move_stay : s_token y = eos_ -> s_token x = eos_ -> s_score x = s_score y -> s_amScore x = s_amScore y ->
    s_lmScore x = s_lmScore y -> move y x
| move_eos a (l : f32) : s_token y <> eos_ -> s_token x = eos_ -> amOf eos_ a ->
    s_score x = f64_add (f64_add (f64_add (s_score y) a) (eosScore opt_)) (f64_mul (lmWeight opt_) (widen l)) ->
    s_amScore x = f64_add (s_amScore y) a -> s_lmScore x = f64_add (s_lmScore y) (widen l) -> move y x
| move_token a (l : f32) : s_token y <> eos_ -> s_token x <> eos_ -> amOf (s_token x) a ->
    s_score x = f64_add (f64_add (s_score y) a) (f64_mul (lmWeight opt_) (widen l)) ->
    s_amScore x = f64_add (s_amScore y) a -> s_lmScore x = f64_add (s_lmScore y) (widen l) -> move y x.

Definition start (x : St) : Prop :=
  s_token x = -1 /\ s_score x = f_zero /\ s_amScore x = f_zero /\ s_lmScore x = f_zero.

Abbreviation ok prevs := (cands_ok (from_prev move prevs)).

Lemma fs_add_move prevs p y c sc mk :
  (p, y) ∈ prevs -> valid64 sc -> (forall z, score (mk z) = z) -> s_parent (mk sc) = Some p -> move y (mk sc) ->
  ok prevs c -> ok prevs (candidatesAdd (beamThreshold opt_) sc mk c).
Proof.
  intros Hin Hv Hmk Hp Hm Hc. apply candidatesAdd_ok; [apply Hopt|done|done| |done].
  intros _. exists p, y. split_and!; try done. by rewrite Hmk.
Qed.

Lemma fs_finished_ok prevs prev (acc : cands St * W) :
  prev ∈ prevs -> token prev.2 = eos_ -> valid64 (score prev.2) -> ok prevs acc.1 ->
  ok prevs (proposeFinished opt_ eos_ prev acc).1.
Proof.
  destruct prev as [p y], acc as [c w]. cbn [fst snd]. intros Hin Ht Hv Hc.
  apply (fs_add_move prevs p y); try done. by apply move_stay.
Qed.

Lemma fs_unfinished_ok prevs prev row toks out (acc : cands St * W) :
  prev ∈ prevs -> amRow amUpdateFunc_ row -> token prev.2 <> eos_ -> valid64 (score prev.2) -> ok prevs acc.1 ->
  exists acc', proposeUnfinished lm_ opt_ eos_ prev row toks out acc = Ok acc' /\ ok prevs acc'.1.
Proof.
  destruct prev as [p y]. cbn [fst snd]. intros Hin Hrow Ht Hv Hc.
  apply (foldM_result_total _ (fun acc => ok prevs acc.1)); [|done]. clear acc Hc.
  intros [c w] n _ Hc. cbn [fst] in Hc. unfold proposeToken. destruct (oo_valid Hopt) as [Vl Ve].
  assert (Va : valid64 (widen (default S754_nan (row !! Z.to_nat n)))) by auto with fl.
  destruct (Z.eqb_spec n eos_) as [->|Hn].
  - destruct (lt_finish _ Hlm (s_lmState y) w) as (ls & l & w' & ->). eexists. split; [done|]. apply (fs_add_move prevs p y); auto 7 with fl.
    eapply move_eos; try done. by exists row.
  - destruct (lt_score _ Hlm (s_lmState y) n w) as (ls & l & w' & ->). eexists. split; [done|]. apply (fs_add_move prevs p y); auto 7 with fl.
    eapply move_token; try done. by exists row.
Qed.

Lemma path_run f x l :
  path (stepR move) (rootQ start) f x l ->
  exists toks, token <$> l = -1 :: toks /\ zlen toks = f
    /\ run toks (bool_decide (s_token x = eos_)) (s_score x) (s_amScore x) (s_lmScore x).
Proof.
  induction 1 as [x [(T & S1 & S2 & S3) _]|f y x l Hp (toks & E & Hz & Hr) [Hm _]].
  - exists []. cbn. rewrite T, S1, S2, S3, bool_decide_false by lia. split_and!; [done|done|constructor].
  - exists (toks ++ [s_token x]). rewrite fmap_app, E. split; [done|]. split.
    { unfold zlen in *. rewrite length_app. cbn. lia. }
    destruct Hm as [Ty Tx -> -> ->|a l0 Ty Tx Ha -> -> ->|a l0 Ty Tx Ha -> -> ->].
    + rewrite Tx, bool_decide_true by done. rewrite bool_decide_true in Hr by done. by constructor.
    + rewrite Tx, bool_decide_true by done. rewrite bool_decide_false in Hr by done. by constructor.
    + rewrite bool_decide_false in Hr |- * by done. by constructor.
Qed.

(** Sequence-to-sequence decoding without a lexicon is total for every
    acoustic model that answers with one row and one state per unfinished
    hypothesis and every language model that does not throw: it returns at most [max 1 beamSize] results, and behind the
    unused entries each is a run: one token per frame, whose scores are the
    sums of the acoustic and weighted language model scores in the order of
    the code, with [eosScore] once, and an end of sentence is only followed by
    itself at no cost. *)
Theorem s2s_runs h w :
  buffer_ok h ->
  exists h' w' rs, decodeStep lm_ exp log1p opt_ eos_ maxOutputLength_ amUpdateFunc_ h w = Ok (h', w')
    /\ getAllFinalHypothesis maxOutputLength_ h' = Ok rs /\ zlen rs <= Z.max 1 (beamSize opt_)
    /\ forall r, r ∈ rs -> exists pad toks fin, tokens r = replicate pad (-1) ++ -1 :: toks
         /\ zlen toks <= maxOutputLength_ /\ run toks fin (r_score r) (r_amScore r) (r_lmScore r).
Proof.
  intros B. unfold decodeStep, getAllFinalHypothesis. rewrite (oo_max Hopt).
  destruct (s2sDecode_good lm_ exp log1p (beamSize opt_) (beamThreshold opt_) maxOutputLength_ eos_ s_amState
    amUpdateFunc_ (proposeFinished opt_ eos_) (proposeUnfinished lm_ opt_ eos_) (beamSizeToken opt_) move start
    (oo_beam Hopt) (oo_thr Hopt) Hmax Ham Hlm fs_finished_ok fs_unfinished_ok initial h w B)
    as (h' & w' & rs & E1 & E2 & E3 & Hr).
  - intros s. split; [done|]. split; [by split_and!|done].
  - exists h', w', rs. split_and!; try done. intros r (f & x & l & Hf & Hp & Es & _ & Et)%Hr.
    destruct (path_run f x l Hp) as (toks & El & Hz & Hrun). rewrite El in Et.
    eexists _, toks, _. split_and!; [exact Et|lia|]. injection Es as -> -> ->. exact Hrun.
Qed.
End Proofs.
End FreeProofs.

(** * LexiconSeq2SeqDecoder *)

Module LexProofs.
Import LexiconS2S.
Abbreviation St := LexiconSeq2SeqDecoderState.

#[export] Instance LexiconS2S_laws : DecoderStateLaws LexiconSeq2SeqDecoderState.
Proof.
  refine {| key x := [Z.pos (s_lmState x); Z.pos (s_lex x); s_token x] |}; try done.
  - intros x y. change (compare x y = lexcmp [Z.pos (s_lmState x); Z.pos (s_lex x); s_token x]
                                        [Z.pos (s_lmState y); Z.pos (s_lex y); s_token y]).
    destruct x as [? a la ? ta ? ? ? ?], y as [? b lb ? tb ? ? ? ?].
    unfold compare, lm_compare. cbn [s_lmState s_lex s_token lexcmp].
    assert (Ep : forall u v : positive, (Z.pos u =? Z.pos v) = bool_decide (u = v)).
    { intros u v. destruct (bool_decide_reflect (u = v)) as [->|Hne]; [apply Z.eqb_refl|].
      apply Z.eqb_neq. congruence. }
    rewrite !Ep. destruct (bool_decide_reflect (a = b)) as [->|Hne].
    + rewrite Z.eqb_refl. cbn [negb]. destruct (bool_decide_reflect (la = lb)); cbn [negb]; [|done].
      by destruct (Z.eqb_spec ta tb).
    + destruct (Z.ltb_spec (Z.pos a) (Z.pos b)), (Z.ltb_spec (Z.pos b) (Z.pos a)); try done; lia.
  - by intros [].
Defined.

Section Proofs.
Context {W : Type} (lm_ : LM W) (exp log1p : f64 -> f64) {alg : StdAlgo} `{!StdAlgoLaws alg}.
Context (opt_ : LexiconSeq2SeqDecoderOptions) (lexicon_ : Trie) (eos_ maxOutputLength_ : Z) (isLmToken_ : bool).
Context (amUpdateFunc_ : AMUpdateFunc).

Record options_ok : Prop := {
  oo_beam : 0 <= beamSize opt_;
  oo_thr : nonneg_finite (beamThreshold opt_) = true;
  oo_valid : valid64 (lmWeight opt_) /\ valid64 (wordScore opt_) /\ valid64 (eosScore opt_);
  oo_max : logAdd opt_ = false
}.
Hypothesis Hopt : options_ok.
Hypothesis Hmax : 0 <= maxOutputLength_.
Hypothesis Heos : 0 <= eos_.
Hypothesis Ham : am_shape amUpdateFunc_.
Hypothesis Hlm : lm_total lm_.
Hypothesis Htrie : trie_ok lexicon_.

Abbreviation root := (getRoot lexicon_).
Abbreviation nodeAt := (node_at lexicon_).


Inductive move (y x : St) : Prop :=
| move_stay : s_token y = eos_ -> s_token x = eos_ -> s_word x = -1 -> s_lex x = s_lex y -> move y x
| move_eos : s_token y <> eos_ -> s_token x = eos_ -> s_word x = -1 -> s_lex y = root -> s_lex x = root -> move y x
| move_child c : s_token y <> eos_ -> s_token x <> eos_ -> children (nodeAt (s_lex y)) !! s_token x = Some c ->
    s_word x = -1 -> s_lex x = c -> move y x
| move_word c : s_token y <> eos_ -> s_token x <> eos_ -> children (nodeAt (s_lex y)) !! s_token x = Some c ->
    s_word x ∈ labels (nodeAt c) -> s_lex x = root -> move y x.

Definition start (x : St) : Prop := s_token x = -1 /\ s_word x = -1 /\ s_lex x = root.

Abbreviation ok prevs := (cands_ok (from_prev move prevs)).



Section Unfinished.
Context (prevs : list (ptr * St)) (p : ptr) (y : St).
Hypothesis Hin : (p, y) ∈ prevs.
Hypothesis Ht : s_token y <> eos_.
Hypothesis Hv : valid64 (s_score y).


End Unfinished.



End Proofs.
End LexProofs.

(** * Concrete decoders *)

Module Demo.
(** An acoustic model that scores token [i] of hypothesis [y] at frame [t]. *)
Definition am : AMUpdateFunc := fun ys ss t =>
  ((fun y => (fun i => f32_of_Z (- ((y + t + 2 * i) mod 5))) <$> zrange 0 3) <$> ys, (fun _ => Some 1%positive) <$> ys).

Lemma am_ok : am_shape am.
Proof.
  intros ys ss t Hne Hl. cbn [am]. rewrite !length_fmap. split_and!; [done|done|]. exists 3%nat.
  apply Forall_fmap, Forall_forall. intros y _. cbn [compose]. by rewrite length_fmap, length_zrange.
Qed.

Definition lfOpt := LexiconFreeS2S.Options 2 2 (f64_of_Z 10) f_zero f_zero false.


Lemma s2s_runs_witness :
  exists h' w' rs, LexiconFreeS2S.decodeStep ZeroLM (fun x => x) (fun x => x) lfOpt 2 3 am hyps_empty ∅ = Ok (h', w')
    /\ LexiconFreeS2S.getAllFinalHypothesis 3 h' = Ok rs /\ zlen rs <= 2.
Proof.
  destruct (FreeProofs.s2s_runs ZeroLM (fun x => x) (fun x => x) lfOpt 2 3 am
    ltac:(split; (done || reflexivity)) ltac:(lia) ltac:(lia) am_ok ZeroLM_total hyps_empty ∅ hyps_empty_ok) as (h' & w' & rs & E1 & E2 & E3 & _).
  exists h', w', rs. split_and!; [exact E1|exact E2|exact E3].
Defined.

End Demo.
