(* ===== verification/Autograd.v ===== *)
(** [fl/autograd/Variable.h] and [Variable.cpp]: variables that share their array
    and their gradient record, the computation graph, and the backward pass.

    ArrayFire arrays are a parameter ([Arrays]).  [sharedData_] and [sharedGrad_]
    are identifiers of cells in a heap, so that copies of a variable share both.  A
    gradient function reads the arrays and flags of its inputs and the array of the
    output's gradient, and throws or answers with the calls
    [inputs[i].addGrad(Variable(a, false))] it makes, in order.  A gradient hook is
    represented by its effect on the array of the gradient.  Indexing
    ([operator()]), which updates a gradient in place, is not modelled. *)
From S2P Require Import Prelude.

Open Scope Z_scope.

(** The element types of ArrayFire. *)
Inductive dtype := f32 | c32 | f64 | c64 | b8 | s32 | u32 | u8 | s64 | u64 | s16 | u16 | f16.
#[export] Instance dtype_eq_dec : EqDecision dtype.
Proof. solve_decision. Defined.

(** What the graph uses of an array: its type, casts, [af::array()],
    [af::constant(1, dims(), type())] and addition. *)
Class Arrays (A : Type) := {
  a_type : A -> dtype;
  a_as : dtype -> A -> A;
  a_empty : A;
  a_ones : A -> A;
  a_add : A -> A -> A
}.

Section Graph.
Context {A : Type} `{Arrays A}.

(** [sharedData_] and [sharedGrad_] *)
Record var := Var { data_ : nat; grad_ : nat }.

(** An input as a gradient function sees it: its array and [isCalcGrad()]. *)
Definition view : Type := A * bool.

Definition GradFunc : Type := list view -> A -> result (list (nat * A)).
Definition GradHook : Type := A -> A.

Record SharedGrad := MkSharedGrad {
  calcGrad : bool;
  inputs : list var;
  grad : option var;
  gradFunc : option GradFunc;
  onGradAvailable : option GradHook
}.

Record heap := MkHeap { datas : gmap nat A; grads : gmap nat SharedGrad; next : nat }.

Definition empty_heap : heap := MkHeap ∅ ∅ 0.
Definition newSharedGrad : SharedGrad := MkSharedGrad false [] None None None.

(** A dangling identifier reads as a default constructed record. *)
Definition sg (u : nat) (h : heap) : SharedGrad := default newSharedGrad (grads h !! u).
Definition array (v : var) (h : heap) : A := default a_empty (datas h !! data_ v).
Definition upd (u : nat) (f : SharedGrad -> SharedGrad) (h : heap) : heap :=
  MkHeap (datas h) (<[u := f (sg u h)]> (grads h)) (next h).
Definition type (v : var) (h : heap) : dtype := a_type (array v h).

Definition set_inputs (l : list var) (s : SharedGrad) : SharedGrad :=
  MkSharedGrad (calcGrad s) l (grad s) (gradFunc s) (onGradAvailable s).
Definition set_grad (g : option var) (s : SharedGrad) : SharedGrad :=
  MkSharedGrad (calcGrad s) (inputs s) g (gradFunc s) (onGradAvailable s).
Definition set_hook (k : option GradHook) (s : SharedGrad) : SharedGrad :=
  MkSharedGrad (calcGrad s) (inputs s) (grad s) (gradFunc s) k.

(** * Constructors *)

(** [Variable(data, calcGrad)] *)
Definition newVariable (data : A) (calc : bool) (h : heap) : var * heap :=
  (Var (next h) (next h),
   MkHeap (<[next h := data]> (datas h)) (<[next h := MkSharedGrad calc [] None None None]> (grads h)) (S (next h))).

Definition isCalcGrad (v : var) (h : heap) : bool := calcGrad (sg (grad_ v) h).

(** [Variable(data, inputs, gradFunc)] *)
Definition newOp (data : A) (ins : list var) (f : GradFunc) (h : heap) : var * heap :=
  let s := if existsb (fun v => isCalcGrad v h) ins then MkSharedGrad true ins None (Some f) None else newSharedGrad in
  (Var (next h) (next h),
   MkHeap (<[next h := data]> (datas h)) (<[next h := s]> (grads h)) (S (next h))).

Definition withoutData (v : var) (h : heap) : var * heap :=
  (Var (next h) (grad_ v), MkHeap (<[next h := a_as (type v h) a_empty]> (datas h)) (grads h) (S (next h))).

(** * Accessors *)

Definition getGrad (v : var) (h : heap) : result var :=
  if negb (calcGrad (sg (grad_ v) h)) then Throw LogicError
  else match grad (sg (grad_ v) h) with None => Throw LogicError | Some g => Ok g end.

Definition getInputs (v : var) (h : heap) : list var := inputs (sg (grad_ v) h).

Definition isGradAvailable (v : var) (h : heap) : bool :=
  if negb (calcGrad (sg (grad_ v) h)) then false else bool_decide (is_Some (grad (sg (grad_ v) h))).

Definition zeroGrad (v : var) (h : heap) : heap := upd (grad_ v) (set_grad None) h.

Definition setCalcGrad (b : bool) (v : var) (h : heap) : heap :=
  upd (grad_ v) (fun s => if b then MkSharedGrad b (inputs s) (grad s) (gradFunc s) (onGradAvailable s)
                          else MkSharedGrad b [] None None (onGradAvailable s)) h.

Definition registerGradHook (k : GradHook) (v : var) (h : heap) : heap := upd (grad_ v) (set_hook (Some k)) h.
Definition clearGradHook (v : var) (h : heap) : heap := upd (grad_ v) (set_hook None) h.

(** * Gradients *)

Definition addGrad (v childGrad : var) (h : heap) : result heap :=
  if negb (calcGrad (sg (grad_ v) h)) then Ok h
  else if negb (bool_decide (type childGrad h = type v h)) then Throw InvalidArgument
  else match grad (sg (grad_ v) h) with
       | Some g =>
           let '(s, h) := newVariable (a_add (array g h) (array childGrad h)) false h in
           Ok (upd (grad_ v) (set_grad (Some s)) h)
       | None => Ok (upd (grad_ v) (set_grad (Some childGrad)) h)
       end.

(** One call [inputs[i].addGrad(Variable(a, false))] of a gradient function. *)
Definition runCall (ins : list var) (h : heap) (c : nat * A) : result heap :=
  match ins !! c.1 with
  | None => Throw Undefined
  | Some v => let '(t, h) := newVariable c.2 false h in addGrad v t h
  end.

Definition views (ins : list var) (h : heap) : list view := (fun v => (array v h, isCalcGrad v h)) <$> ins.

Definition applyGradHook (v : var) (h : heap) : result heap :=
  match onGradAvailable (sg (grad_ v) h) with
  | None => Ok h
  | Some k =>
      match grad (sg (grad_ v) h) with
      | None => Throw Undefined
      | Some g => Ok (MkHeap (<[data_ g := k (array g h)]> (datas h)) (grads h) (next h))
      end
  end.

Definition calcGradInputs (retainGraph : bool) (v : var) (h : heap) : result heap :=
  let s := sg (grad_ v) h in
  match
    match gradFunc s with
    | None => Ok h
    | Some f =>
        match grad s with
        | None => Throw LogicError
        | Some g =>
            match f (views (inputs s) h) (array g h) with
            | Throw e => Throw e
            | Ok l => foldM_result (runCall (inputs s)) h l
            end
        end
    end
  with
  | Throw e => Throw e
  | Ok h => Ok (if retainGraph then h else upd (grad_ v) (set_inputs []) h)
  end.

(** * The backward pass *)

(** [recurse] of [build]: the state is the set of visited records and the list
    built so far. *)
Fixpoint recurse (fuel : nat) (h : heap) (v : var) (st : gset nat * list var) : gset nat * list var :=
  match fuel with
  | O => st
  | S f =>
      if bool_decide (grad_ v ∈ st.1) then st
      else let '(cache, dag) := fold_left (fun st i => recurse f h i st) (getInputs v h) st in
           (cache ∪ {[grad_ v]}, dag ++ [v])
  end.

Definition build (v : var) (h : heap) : list var := snd (recurse (S (grad_ v)) h v (∅, [])).

Definition backwardStep (retainGraph : bool) (h : heap) (v : var) : result heap :=
  match calcGradInputs retainGraph v h with
  | Throw e => Throw e
  | Ok h => applyGradHook v h
  end.

(** [backward(grad, retainGraph)] *)
Definition backward (v g : var) (retainGraph : bool) (h : heap) : result heap :=
  match addGrad v g h with
  | Throw e => Throw e
  | Ok h => foldM_result (backwardStep retainGraph) h (reverse (build v h))
  end.

(** [backward(retainGraph)] *)
Definition backwardOnes (v : var) (retainGraph : bool) (h : heap) : result heap :=
  let '(ones, h) := newVariable (a_ones (array v h)) false h in backward v ones retainGraph h.
End Graph.
