(* ===== verification/AutogradProofs.v ===== *)
(** The computation graph stays acyclic, [build] sorts it topologically, and
    [backward] accumulates every gradient by the chain rule. *)
From S2P Require Import Prelude Autograd.

Open Scope Z_scope.

Section Proofs.
Context {A : Type} `{Arrays A}.
Abbreviation heap := (Autograd.heap (A := A)).
Abbreviation SharedGrad := (Autograd.SharedGrad (A := A)).

(** * The invariant *)

(** Both cells of a variable exist. *)
Definition live (v : var) (h : heap) : Prop := (data_ v < next h /\ grad_ v < next h)%nat.

(** Inputs are older than the variable they are inputs of. *)
Record wf (h : heap) : Prop := {
  wf_fresh : forall u s, grads h !! u = Some s -> (u < next h)%nat;
  wf_inputs : forall u i, i ∈ inputs (sg u h) -> live i h /\ (grad_ i < u)%nat;
  wf_grad : forall u g, grad (sg u h) = Some g -> live g h;
  wf_const : forall u, calcGrad (sg u h) = false -> inputs (sg u h) = [] /\ gradFunc (sg u h) = None;
  wf_leaf : forall u, gradFunc (sg u h) = None -> inputs (sg u h) = []
}.

Lemma sg_upd u f w (h : heap) : sg w (upd u f h) = if decide (w = u) then f (sg u h) else sg w h.
Proof.
  unfold upd, sg at 1. cbn [grads]. destruct (decide (w = u)) as [->|Hne].
  - by rewrite lookup_insert_eq.
  - by rewrite lookup_insert_ne.
Qed.

Lemma array_upd u f v (h : heap) : array v (upd u f h) = array v h.
Proof. done. Qed.

Lemma live_upd u f v (h : heap) : live v (upd u f h) <-> live v h.
Proof. done. Qed.

(** Updating a record that exists with one that is as good. *)
Lemma wf_upd u f h :
  wf h -> (u < next h)%nat ->
  (forall i, i ∈ inputs (f (sg u h)) -> i ∈ inputs (sg u h)) ->
  (forall g, grad (f (sg u h)) = Some g -> live g h) ->
  (calcGrad (f (sg u h)) = false -> inputs (f (sg u h)) = [] /\ gradFunc (f (sg u h)) = None) ->
  (gradFunc (f (sg u h)) = None -> inputs (f (sg u h)) = []) -> wf (upd u f h).
Proof.
  intros [W1 W2 W3 W4 W5] Hu Hi Hg Hc Hf. split.
  - intros w s. unfold upd. cbn. rewrite lookup_insert_Some. intros [[<- _]|[_ ?]]; [done|eauto].
  - intros w i. rewrite sg_upd. case_decide; subst; intros Hin; apply W2; auto.
  - intros w g. rewrite sg_upd. case_decide; subst; intros Hin; [by apply Hg|by eapply W3].
  - intros w. rewrite sg_upd. case_decide; subst; [done|apply W4].
  - intros w. rewrite sg_upd. case_decide; subst; [done|apply W5].
Qed.

Lemma sg_fresh h : wf h -> sg (next h) h = newSharedGrad.
Proof.
  intros W. unfold sg. destruct (grads h !! next h) as [s|] eqn:E; [|done]. apply (wf_fresh _ W) in E. lia.
Qed.

(** Allocating a record at the next identifier. *)
Definition alloc (d : A) (s : SharedGrad) (h : heap) : heap :=
  MkHeap (<[next h := d]> (datas h)) (<[next h := s]> (grads h)) (S (next h)).

Lemma sg_alloc d s w h : sg w (alloc d s h) = if decide (w = next h) then s else sg w h.
Proof.
  unfold alloc, sg. cbn [grads]. destruct (decide (w = next h)) as [->|Hne].
  - by rewrite lookup_insert_eq.
  - by rewrite lookup_insert_ne.
Qed.

Lemma array_alloc d s v h : live v h -> array v (alloc d s h) = array v h.
Proof. intros [Hd _]. unfold array, alloc. cbn [datas]. rewrite lookup_insert_ne; [done|lia]. Qed.

Lemma array_alloc_new d s g h : array (Var (next h) g) (alloc d s h) = d.
Proof. unfold array, alloc. cbn [datas data_]. by rewrite lookup_insert_eq. Qed.

Lemma live_mono d s v h : live v h -> live v (alloc d s h).
Proof. intros [? ?]. split; cbn; lia. Qed.

Lemma live_new d s h : live (Var (next h) (next h)) (alloc d s h).
Proof. split; cbn; lia. Qed.

Lemma wf_alloc d s h :
  wf h -> (forall i, i ∈ inputs s -> live i h) -> grad s = None ->
  (calcGrad s = false -> inputs s = [] /\ gradFunc s = None) -> (gradFunc s = None -> inputs s = []) -> wf (alloc d s h).
Proof.
  intros [W1 W2 W3 W4 W5] Hi Hg Hc Hf. split.
  - intros w x. unfold alloc. cbn. rewrite lookup_insert_Some. intros [[<- _]|[_ E]]; [lia|]. apply W1 in E. lia.
  - intros w i. rewrite sg_alloc. case_decide as E.
    + intros Hin. destruct (Hi _ Hin) as [? ?]. split; [by apply live_mono|lia].
    + intros Hin. destruct (W2 _ _ Hin) as [? ?]. split; [by apply live_mono|done].
  - intros w g. rewrite sg_alloc. case_decide; [congruence|]. intros Hin. apply live_mono. by eapply W3.
  - intros w. rewrite sg_alloc. case_decide; [done|apply W4].
  - intros w. rewrite sg_alloc. case_decide; [done|apply W5].
Qed.

Lemma newVariable_alloc d c h : newVariable d c h = (Var (next h) (next h), alloc d (MkSharedGrad c [] None None None) h).
Proof. done. Qed.

Lemma wf_newVariable d c h : wf h -> wf (newVariable d c h).2.
Proof. intros W. apply wf_alloc; [done| |done|done|done]. by intros i ?%elem_of_nil. Qed.

Lemma wf_newOp d ins f h : wf h -> (forall i, i ∈ ins -> live i h) -> wf (newOp d ins f h).2.
Proof.
  intros W Hi. unfold newOp. cbn [snd]. apply wf_alloc; [done| | | |]; destruct (existsb _ ins); try done.
  by intros i ?%elem_of_nil.
Qed.

Lemma wf_withoutData v h : wf h -> live v h -> wf (withoutData v h).2 /\ live (withoutData v h).1 (withoutData v h).2.
Proof.
  intros [W1 W2 W3 W4 W5] [Hd Hg]. split; [|split; cbn; lia].
  assert (Hl : forall x, live x h -> live x (withoutData v h).2) by (intros x [? ?]; split; cbn; lia).
  split; cbn.
  - intros u s E. apply W1 in E. lia.
  - intros u i Hi. destruct (W2 u i Hi). eauto.
  - intros u g E. eauto using W3.
  - apply W4.
  - apply W5.
Qed.


(** * Adding to gradients *)

(** The array of the gradient of record [u]. *)
Definition gradval (u : nat) (h : heap) : option A := (fun g => array g h) <$> grad (sg u h).

Definition accum (o : option A) (a : A) : option A := Some (match o with Some x => a_add x a | None => a end).

(** [h'] only has more cells and other gradients than [h]. *)
Record grown (h h' : heap) : Prop := {
  gr_next : (next h <= next h')%nat;
  gr_array : forall v, live v h -> array v h' = array v h;
  gr_calc : forall u, (u < next h)%nat -> calcGrad (sg u h') = calcGrad (sg u h);
  gr_inputs : forall u, (u < next h)%nat -> inputs (sg u h') = inputs (sg u h);
  gr_func : forall u, (u < next h)%nat -> gradFunc (sg u h') = gradFunc (sg u h);
  gr_hook : forall u, (u < next h)%nat -> onGradAvailable (sg u h') = onGradAvailable (sg u h)
}.

Lemma grown_refl h : grown h h.
Proof. by split. Qed.

Lemma live_grown h h' v : grown h h' -> live v h -> live v h'.
Proof. intros G [? ?]. pose proof (gr_next _ _ G). split; lia. Qed.

Lemma grown_trans h1 h2 h3 : grown h1 h2 -> grown h2 h3 -> grown h1 h3.
Proof.
  intros G1 G2. pose proof (gr_next _ _ G1). pose proof (gr_next _ _ G2). split; [lia|..].
  - intros v Hv. rewrite (gr_array _ _ G2) by (by eapply live_grown). by apply G1.
  - intros u Hu. rewrite (gr_calc _ _ G2) by lia. by apply G1.
  - intros u Hu. rewrite (gr_inputs _ _ G2) by lia. by apply G1.
  - intros u Hu. rewrite (gr_func _ _ G2) by lia. by apply G1.
  - intros u Hu. rewrite (gr_hook _ _ G2) by lia. by apply G1.
Qed.

Lemma grown_alloc d s h : grown h (alloc d s h).
Proof.
  split; [cbn; lia|by intros; apply array_alloc|..]; intros u Hu; rewrite sg_alloc, decide_False; (done || lia).
Qed.

Lemma gradval_alloc d s u h : wf h -> (u < next h)%nat -> gradval u (alloc d s h) = gradval u h.
Proof.
  intros W Hu. unfold gradval. rewrite sg_alloc, decide_False by lia.
  destruct (grad (sg u h)) as [g|] eqn:E; [|done]. cbn. by rewrite array_alloc by (by eapply wf_grad).
Qed.

Lemma grown_set_grad u g h : grown h (upd u (set_grad g) h).
Proof. split; try done; intros w Hw; rewrite sg_upd; by case_decide; subst. Qed.

Lemma gradval_set_grad u g w h :
  gradval w (upd u (set_grad (Some g)) h) = if decide (w = u) then Some (array g h) else gradval w h.
Proof. unfold gradval. rewrite sg_upd. by case_decide; subst. Qed.

Lemma wf_set_grad u g h : wf h -> (u < next h)%nat -> live g h -> wf (upd u (set_grad (Some g)) h).
Proof.
  intros W Hu Hg. apply wf_upd; [done|done|done|by intros ? [= <-]|apply W|apply W].
Qed.

(** Records that do not exist yet have no gradient, and none is given to them. *)
Lemma addGrad_fresh v c h h' w :
  wf h -> live v h -> addGrad v c h = Ok h' -> (next h <= w)%nat -> gradval w h' = None.
Proof.
  intros W [_ Hv] E Hw. assert (E0 : sg w h = newSharedGrad).
  { unfold sg. destruct (grads h !! w) as [s|] eqn:Es; [|done]. apply (wf_fresh _ W) in Es. lia. }
  unfold addGrad in E. destruct (negb _); [|destruct (negb _); [done|]].
  { injection E as <-. unfold gradval. by rewrite E0. }
  destruct (grad (sg (grad_ v) h)); [rewrite newVariable_alloc in E|]; injection E as <-;
    rewrite gradval_set_grad, decide_False by lia; unfold gradval; rewrite ?sg_alloc, ?E0; [|done].
  by destruct (decide (w = next h)).
Qed.

Lemma addGrad_spec v c h :
  wf h -> live v h -> live c h -> (isCalcGrad v h = true -> type c h = type v h) ->
  exists h', addGrad v c h = Ok h' /\ wf h' /\ grown h h' /\
    forall u, (u < next h)%nat ->
      gradval u h' = if decide (u = grad_ v /\ isCalcGrad v h = true) then accum (gradval u h) (array c h) else gradval u h.
Proof.
  intros W [Hd Hg] Hc Ht. unfold addGrad. unfold isCalcGrad in *.
  destruct (calcGrad (sg (grad_ v) h)) eqn:Ec; cbn [negb].
  2: { exists h. split; [done|]. split; [done|]. split; [apply grown_refl|]. intros u _. rewrite decide_False; [done|]. by intros []. }
  rewrite bool_decide_true by auto. cbn [negb]. destruct (grad (sg (grad_ v) h)) as [g|] eqn:Eg.
  - rewrite newVariable_alloc. set (s0 := MkSharedGrad false [] None None None). set (d := a_add _ _).
    eexists. split; [done|]. assert (W1 : wf (alloc d s0 h)).
    { apply wf_alloc; [done| |done|done|done]. by intros i ?%elem_of_nil. }
    split_and!.
    + apply wf_set_grad; [done|cbn; lia|apply live_new].
    + eapply grown_trans; [apply grown_alloc|apply grown_set_grad].
    + intros u Hu. rewrite gradval_set_grad, gradval_alloc by done. rewrite array_alloc_new.
      destruct (decide (u = grad_ v)) as [->|]; [rewrite decide_True by done|rewrite decide_False by tauto; done].
      unfold gradval. by rewrite Eg.
  - eexists. split; [done|]. split_and!; [by apply wf_set_grad|apply grown_set_grad|].
    intros u Hu. rewrite gradval_set_grad.
    destruct (decide (u = grad_ v)) as [->|]; [rewrite decide_True by done|rewrite decide_False by tauto; done].
    unfold gradval. by rewrite Eg.
Qed.

(** The call [c] of a gradient function as a contribution to record [u]. *)
Definition contrib (ins : list var) (h : heap) (u : nat) (c : nat * A) : option A :=
  match ins !! c.1 with
  | Some v => if decide (u = grad_ v /\ isCalcGrad v h = true) then Some c.2 else None
  | None => None
  end.

(** A call is proper: the input exists, has the type of the array, and the array
    can be its gradient. *)
Definition proper (ins : list var) (h : heap) (ty : nat -> A -> Prop) (c : nat * A) : Prop :=
  exists v, ins !! c.1 = Some v /\ a_type c.2 = type v h /\ ty (grad_ v) c.2.

Lemma runCall_spec ins c ty h :
  wf h -> (forall i, i ∈ ins -> live i h) -> proper ins h ty c ->
  exists h', runCall ins h c = Ok h' /\ wf h' /\ grown h h' /\
    forall u, (u < next h)%nat ->
      gradval u h' = match contrib ins h u c with Some a => accum (gradval u h) a | None => gradval u h end.
Proof.
  intros W Hl (v & Hv & Ht & _). unfold runCall, contrib. rewrite Hv, newVariable_alloc.
  assert (Lv : live v h) by (by eapply Hl, list_elem_of_lookup_2).
  set (s0 := MkSharedGrad false [] None None None).
  pose proof (grown_alloc c.2 s0 h) as G1. pose proof (live_grown _ _ _ G1 Lv) as Lv'.
  assert (Ec : isCalcGrad v (alloc c.2 s0 h) = isCalcGrad v h).
  { unfold isCalcGrad. destruct Lv. by rewrite (gr_calc _ _ G1). }
  destruct (addGrad_spec v (Var (next h) (next h)) (alloc c.2 s0 h)) as (h' & E & W' & G' & Hgv).
  - apply wf_alloc; [done| |done|done|done]. by intros i ?%elem_of_nil.
  - done.
  - apply live_new.
  - intros _. unfold type. rewrite array_alloc_new, (gr_array _ _ G1) by done. exact Ht.
  - exists h'. split_and!; [done|done|by eapply grown_trans|]. intros u Hu.
    rewrite Hgv by (cbn; lia). rewrite Ec, array_alloc_new, gradval_alloc by done. by destruct (decide (u = grad_ v /\ isCalcGrad v h = true)).
Qed.

Lemma runCalls_spec ins calls ty h :
  wf h -> (forall i, i ∈ ins -> live i h) -> Forall (proper ins h ty) calls ->
  exists h', foldM_result (runCall ins) h calls = Ok h' /\ wf h' /\ grown h h' /\
    forall u, (u < next h)%nat -> gradval u h' = fold_left accum (omap (contrib ins h u) calls) (gradval u h).
Proof.
  revert h. induction calls as [|c calls IH]; intros h W Hl Hp; cbn [foldM_result].
  { exists h. split_and!; done. }
  apply Forall_cons in Hp as [Hc Hp]. destruct (runCall_spec ins c ty h W Hl Hc) as (h1 & -> & W1 & G1 & E1).
  assert (Hl1 : forall i, i ∈ ins -> live i h1) by eauto using live_grown.
  destruct (IH h1 W1 Hl1) as (h2 & -> & W2 & G2 & E2).
  - eapply Forall_impl; [exact Hp|]. intros c' (v & Hv & Ht & Hy). exists v. split_and!; [done| |done].
    rewrite Ht. unfold type. rewrite (gr_array _ _ G1); [done|]. by eapply Hl, list_elem_of_lookup_2.
  - exists h2. split_and!; [done|done|by eapply grown_trans|]. intros u Hu. pose proof (gr_next _ _ G1).
    rewrite E2, E1 by lia.
    assert (Eo : omap (contrib ins h1 u) calls = omap (contrib ins h u) calls).
    { apply list_omap_ext. apply Forall_Forall2_diag, Forall_forall. intros c' _. unfold contrib.
      destruct (ins !! c'.1) as [v|] eqn:Ev; [|done]. unfold isCalcGrad.
      destruct (Hl v) as [_ ?]; [by eapply list_elem_of_lookup_2|]. by rewrite (gr_calc _ _ G1). }
    rewrite Eo. cbn [omap list_omap]. by destruct (contrib ins h u c).
Qed.

(** * Topological order *)

Abbreviation gids l := (grad_ <$> l).

(** Every record once, after the records of its inputs. *)
Record sorted_dag (h : heap) (l : list var) : Prop := {
  sd_nodup : NoDup (gids l);
  sd_closed : forall k x, l !! k = Some x -> forall i, i ∈ getInputs x h -> grad_ i ∈ gids (take k l)
}.

(** Record [w] is an input of record [u], possibly through others. *)
Inductive reach (h : heap) : nat -> nat -> Prop :=
| reach_refl u : reach h u u
| reach_step u i w : i ∈ inputs (sg u h) -> reach h (grad_ i) w -> reach h u w.

Definition acyclic (h : heap) : Prop := forall u i, i ∈ inputs (sg u h) -> (grad_ i < u)%nat.

Lemma reach_le h : acyclic h -> forall u w, reach h u w -> (w <= u)%nat.
Proof. intros Ha. induction 1 as [|u i w Hi _ IH]; [done|]. specialize (Ha _ _ Hi). lia. Qed.

Lemma sorted_dag_snoc h l v :
  sorted_dag h l -> grad_ v ∉ gids l -> (forall i, i ∈ getInputs v h -> grad_ i ∈ gids l) -> sorted_dag h (l ++ [v]).
Proof.
  intros [D1 D2] Hn Hi. split.
  - rewrite fmap_app. apply NoDup_app. split_and!; [done| |by apply NoDup_singleton].
    intros u Hu ->%list_elem_of_singleton. done.
  - intros k x Hk i Hin. apply lookup_snoc_Some in Hk as [[Hlt Hk]|[-> <-]].
    + rewrite take_app_le by lia. by eapply D2.
    + rewrite take_app_length. auto.
Qed.

(** What one call of [recurse] adds to the list. *)
Definition grows (h : heap) (roots : list var) (st st' : gset nat * list var) : Prop :=
  exists ext, st'.2 = st.2 ++ ext /\ (forall u, u ∈ st'.1 <-> u ∈ gids st'.2) /\ sorted_dag h st'.2
    /\ (forall r, r ∈ roots -> grad_ r ∈ gids st'.2)
    /\ (forall x, x ∈ ext -> exists r, r ∈ roots /\ reach h (grad_ r) (grad_ x)).

Lemma recurse_fold fuel h (roots : list var) st :
  (forall r st, r ∈ roots -> (forall u, u ∈ st.1 <-> u ∈ gids st.2) -> sorted_dag h st.2 ->
     grows h [r] st (recurse fuel h r st)) ->
  (forall u, u ∈ st.1 <-> u ∈ gids st.2) -> sorted_dag h st.2 ->
  grows h roots st (fold_left (fun st i => recurse fuel h i st) roots st).
Proof.
  revert st. induction roots as [|r roots IH]; intros st Hr Hc Hs; cbn [fold_left].
  { exists []. rewrite app_nil_r. split_and!; try done; by intros x ?%elem_of_nil. }
  destruct (Hr r st ltac:(by left) Hc Hs) as (e1 & E1 & C1 & S1 & R1 & X1).
  destruct (IH (recurse fuel h r st)) as (e2 & E2 & C2 & S2 & R2 & X2); [|done|done|].
  { intros r' st' Hr'. apply Hr. by right. }
  exists (e1 ++ e2). split_and!; [by rewrite E2, E1, app_assoc|done|done| |].
  - intros x [->|Hx]%elem_of_cons; [|by apply R2]. rewrite E2, fmap_app, elem_of_app. left. apply R1. by left.
  - intros x [Hx|Hx]%elem_of_app.
    + destruct (X1 x Hx) as (r' & ->%list_elem_of_singleton & ?). exists r. split; [by left|done].
    + destruct (X2 x Hx) as (r' & Hr' & ?). exists r'. split; [by right|done].
Qed.

Lemma recurse_grows h fuel v st :
  acyclic h -> (grad_ v < fuel)%nat -> (forall u, u ∈ st.1 <-> u ∈ gids st.2) -> sorted_dag h st.2 ->
  grows h [v] st (recurse fuel h v st)
  /\ (grad_ v ∉ gids st.2 -> last (recurse fuel h v st).2 = Some v).
Proof.
  intros Ha'. pose proof Ha' as Ha. revert v st. induction fuel as [|fuel IH]; intros v st Hv Hc Hs; [lia|]. cbn [recurse].
  case_bool_decide as Hin.
  { apply Hc in Hin. split; [|done]. exists []. rewrite app_nil_r. split_and!; try done.
    - by intros r ->%list_elem_of_singleton.
    - by intros x ?%elem_of_nil. }
  destruct (recurse_fold fuel h (getInputs v h) st) as (ext & E & C & S & R & X); [|done|done|].
  { intros r st' Hr Hc' Hs'. apply IH; [|done|done]. specialize (Ha _ _ Hr). lia. }
  destruct (fold_left _ (getInputs v h) st) as [cache dag]. cbn [fst snd] in *. subst dag.
  assert (Hv' : grad_ v ∉ gids (st.2 ++ ext)).
  { rewrite fmap_app, elem_of_app. intros [Hx|(x & Ex & Hx)%list_elem_of_fmap]; [by apply Hin, Hc|].
    destruct (X x Hx) as (r & Hr & Hreach). pose proof (Ha' _ _ Hr).
    apply (reach_le h Ha') in Hreach. lia. }
  split.
  - exists (ext ++ [v]). cbn [fst snd]. split_and!.
    + by rewrite app_assoc.
    + intros u. rewrite elem_of_union, elem_of_singleton, C, (fmap_app _ _ [v]), elem_of_app. cbn.
      by rewrite list_elem_of_singleton.
    + by apply sorted_dag_snoc.
    + intros r ->%list_elem_of_singleton. rewrite fmap_app, elem_of_app. right. by left.
    + intros x [Hx|Hx]%elem_of_app.
      * destruct (X x Hx) as (r & Hr & ?). exists v. split; [by left|]. by eapply reach_step.
      * apply list_elem_of_singleton in Hx as ->. exists v. split; [by left|apply reach_refl].
  - intros _. by rewrite last_snoc.
Qed.

Lemma wf_acyclic h : wf h -> acyclic h.
Proof. intros W u i Hi. by apply (wf_inputs _ W). Qed.

Lemma build_aux v h :
  acyclic h ->
  sorted_dag h (build v h) /\ last (build v h) = Some v
  /\ forall u, u ∈ gids (build v h) <-> reach h (grad_ v) u.
Proof.
  intros Ha. unfold build.
  assert (Hs0 : sorted_dag h []) by (split; [apply NoDup_nil_2|by intros k x ?]).
  destruct (recurse_grows h (S (grad_ v)) v (∅, []) Ha) as [(ext & E & _ & S & R & X) Hl]; [lia| |done|].
  { intros u. cbn. split; [by intros ?%not_elem_of_empty|by intros ?%elem_of_nil]. }
  cbn [fst snd] in *. split_and!; [done|apply Hl; by intros ?%elem_of_nil|]. intros u. split.
  - rewrite E. cbn [app]. intros (x & -> & Hx)%list_elem_of_fmap.
    by destruct (X x Hx) as (r & ->%list_elem_of_singleton & ?).
  - assert (Hcl : forall a b, reach h a b -> a ∈ gids (recurse (Datatypes.S (grad_ v)) h v (∅, [])).2 ->
      b ∈ gids (recurse (Datatypes.S (grad_ v)) h v (∅, [])).2).
    { induction 1 as [|a i b Hi _ IHr]; [done|]. intros (x & -> & Hx)%list_elem_of_fmap. apply IHr.
      apply list_elem_of_lookup in Hx as [k Hk].
      pose proof (sd_closed _ _ S k x Hk i Hi) as Hin. revert Hin.
      rewrite !list_elem_of_fmap. intros (y & Ey & Hy). exists y. split; [done|].
      apply elem_of_take in Hy as (j & Hj & _). by eapply list_elem_of_lookup_2. }
    intros Hr. eapply Hcl; [exact Hr|]. apply R. by left.
Qed.

(** What holds of a variable and passes to inputs holds of the whole list. *)
Lemma build_forall (P : var -> Prop) v (h : heap) :
  (forall x i, P x -> i ∈ getInputs x h -> P i) -> P v -> Forall P (build v h).
Proof.
  intros Hi. unfold build. generalize (S (grad_ v)). intros fuel Hv.
  enough (HP : forall fuel v st, P v -> Forall P st.2 -> Forall P (recurse fuel h v st).2) by (apply HP; [done|constructor]).
  clear fuel v Hv. intros fuel. induction fuel as [|fuel IH]; intros v st Hv Hst; cbn [recurse]; [done|].
  case_bool_decide; [done|].
  assert (Hf : Forall P (fold_left (fun st i => recurse fuel h i st) (getInputs v h) st).2).
  { apply (fold_left_inv (fun st => Forall P st.2)); [done|]. intros st' i Hin Hst'. apply IH; [by eapply Hi|done]. }
  destruct (fold_left _ (getInputs v h) st) as [cache dag]. apply Forall_app. split; [done|by constructor].
Qed.

(** * The backward pass *)

(** The calls record [u] makes when its gradient is [g], and what record [w]
    receives from them. *)
Definition calls (h : heap) (u : nat) (g : A) : list (nat * A) :=
  match gradFunc (sg u h) with
  | Some f => match f (views (inputs (sg u h)) h) g with Ok l => l | Throw _ => [] end
  | None => []
  end.

Definition contribs (h : heap) (w u : nat) (g : A) : list A :=
  omap (contrib (inputs (sg u h)) h w) (calls h u g).

(** What [w] receives from the variables [us], when their gradients are [fin]. *)
Definition received (h : heap) (fin : nat -> option A) (us : list var) (w : nat) : list A :=
  concat ((fun x => match fin (grad_ x) with Some g => contribs h w (grad_ x) g | None => [] end) <$> us).

(** Nothing is left to contribute to [x]. *)
Lemma contribs_not_input h w u g : (forall i, i ∈ inputs (sg u h) -> grad_ i <> w) -> contribs h w u g = [].
Proof.
  intros Hn. unfold contribs. induction (calls h u g) as [|c l IH]; [done|]. cbn.
  unfold contrib at 1. destruct (inputs (sg u h) !! c.1) as [v|] eqn:E; [|done].
  rewrite decide_False; [done|]. intros [-> _]. apply list_elem_of_lookup_2 in E. by apply Hn in E.
Qed.

(** The heap while the pass over a list runs: [h1] is the heap it started from and
    [done] the variables it has visited. *)
Record during (retain : bool) (h1 : heap) (visited : list var) (h : heap) : Prop := {
  du_wf : wf h;
  du_next : (next h1 <= next h)%nat;
  du_array : forall v, live v h1 -> array v h = array v h1;
  du_calc : forall u, (u < next h1)%nat -> calcGrad (sg u h) = calcGrad (sg u h1);
  du_func : forall u, (u < next h1)%nat -> gradFunc (sg u h) = gradFunc (sg u h1);
  du_hook : forall u, (u < next h1)%nat -> onGradAvailable (sg u h) = onGradAvailable (sg u h1);
  du_inputs : forall u, (u < next h1)%nat ->
    inputs (sg u h) = if bool_decide (u ∈ gids visited) && negb retain then [] else inputs (sg u h1)
}.

Lemma during_start retain h : wf h -> during retain h [] h.
Proof. intros W. split; try done. Qed.

Lemma during_grown retain h1 l h h' : during retain h1 l h -> wf h' -> grown h h' -> during retain h1 l h'.
Proof.
  intros [W D1 D2 D3 D4 D5 D6] W' [G1 G2 G3 G4 G5 G6].
  assert (Hl : forall v, live v h1 -> live v h) by (intros v [? ?]; split; lia).
  split; [done|lia|..].
  - intros v Hv. rewrite G2 by auto. auto.
  - intros u Hu. rewrite G3 by lia. auto.
  - intros u Hu. rewrite G5 by lia. auto.
  - intros u Hu. rewrite G6 by lia. auto.
  - intros u Hu. rewrite G4 by lia. auto.
Qed.

Lemma during_visit retain h1 l h v :
  during retain h1 l h -> (grad_ v < next h1)%nat ->
  during retain h1 (l ++ [v]) (if retain then h else upd (grad_ v) (set_inputs []) h).
Proof.
  intros [W D1 D2 D3 D4 D5 D6] Hv. destruct retain.
  - split; try done. intros u Hu. rewrite D6 by done. by rewrite !andb_false_r.
  - split; try done.
    + apply wf_upd; [done|lia| |apply W| |done]; [by intros i ?%elem_of_nil|].
      intros E. cbn. split; [done|]. by apply W.
    + intros u Hu. rewrite sg_upd. case_decide; subst; cbn; auto.
    + intros u Hu. rewrite sg_upd. case_decide; subst; cbn; auto.
    + intros u Hu. rewrite sg_upd. case_decide; subst; cbn; auto.
    + intros u Hu. rewrite sg_upd. cbn [negb]. rewrite andb_true_r. case_decide as E.
      * subst. rewrite bool_decide_true; [done|]. rewrite fmap_app, elem_of_app. right. by left.
      * rewrite D6 by done. cbn [negb]. rewrite andb_true_r.
        erewrite bool_decide_ext; [done|]. rewrite fmap_app, elem_of_app. cbn.
        rewrite list_elem_of_singleton. tauto.
Qed.

Lemma gradval_visit (retain : bool) u w h :
  gradval w (if retain then h else upd u (set_inputs []) h) = gradval w h.
Proof. destruct retain; [done|]. unfold gradval. rewrite sg_upd. by case_decide; subst. Qed.

(** The hypotheses on a graph under which the pass cannot fail: [ty] says which
    arrays can be gradients of a record (those of its type, or of its type and
    shape), gradient functions do not throw on them, answer with gradients of their
    inputs and with one for every input that wants a gradient, and there are no hooks. *)
Record typed_graph (h : heap) (ty : nat -> A -> Prop) (us : list var) : Prop := {
  tg_live : forall x, x ∈ us -> live x h;
  tg_hook : forall x, x ∈ us -> onGradAvailable (sg (grad_ x) h) = None;
  tg_ok : forall x f g, x ∈ us -> gradFunc (sg (grad_ x) h) = Some f -> ty (grad_ x) g ->
    exists l, f (views (inputs (sg (grad_ x) h)) h) g = Ok l;
  tg_calls : forall x g, x ∈ us -> ty (grad_ x) g ->
    Forall (proper (inputs (sg (grad_ x) h)) h ty) (calls h (grad_ x) g);
  tg_cover : forall x i g, x ∈ us -> ty (grad_ x) g -> i ∈ inputs (sg (grad_ x) h) ->
    isCalcGrad i h = true -> contribs h (grad_ i) (grad_ x) g <> []
}.

Section Pass.
Context (retain : bool) (h1 : heap) (ty : nat -> A -> Prop) (us0 : list var).
Hypothesis Hwf : wf h1.
Hypothesis Htg : typed_graph h1 ty us0.
Hypothesis Hadd : forall u x y, ty u x -> ty u y -> ty u (a_add x y).

Definition gift (h : heap) (x : var) (w : nat) : list A :=
  match gradval (grad_ x) h with Some g => contribs h1 w (grad_ x) g | None => [] end.

Lemma backwardStep_spec visited h x :
  during retain h1 visited h -> x ∈ us0 -> grad_ x ∉ gids visited ->
  (gradFunc (sg (grad_ x) h1) <> None -> exists g, gradval (grad_ x) h = Some g /\ ty (grad_ x) g) ->
  exists h', backwardStep retain h x = Ok h' /\ during retain h1 (visited ++ [x]) h' /\
    forall w, (w < next h1)%nat -> gradval w h' = fold_left accum (gift h x w) (gradval w h).
Proof.
  intros D Hx Hn Hg. pose proof (tg_live _ _ _ Htg x Hx) as Lx. destruct Lx as [_ Lx].
  set (u := grad_ x) in *.
  assert (Ei : inputs (sg u h) = inputs (sg u h1)).
  { rewrite (du_inputs _ _ _ _ D) by done. by rewrite bool_decide_false. }
  assert (Hl1 : forall i, i ∈ inputs (sg u h1) -> live i h1) by (intros i Hi; by apply (wf_inputs _ Hwf) in Hi as [? _]).
  assert (Hl : forall i, i ∈ inputs (sg u h1) -> live i h).
  { intros i Hi. destruct (Hl1 i Hi). pose proof (du_next _ _ _ _ D). split; lia. }
  assert (Ev : views (inputs (sg u h1)) h = views (inputs (sg u h1)) h1).
  { unfold views. apply list_fmap_ext. intros k i Hk%list_elem_of_lookup_2. pose proof (Hl1 _ Hk) as [? ?].
    unfold isCalcGrad. by rewrite (du_array _ _ _ _ D), (du_calc _ _ _ _ D) by (try split; done). }
  (* the hook *)
  assert (Hhook : forall h', during retain h1 (visited ++ [x]) h' -> applyGradHook x h' = Ok h').
  { intros h' D'. unfold applyGradHook. by rewrite (du_hook _ _ _ _ D'), (tg_hook _ _ _ Htg). }
  unfold backwardStep, calcGradInputs. fold u. rewrite Ei, (du_func _ _ _ _ D) by done. unfold gift. fold u.
  destruct (gradFunc (sg u h1)) as [f|] eqn:Ef.
  - destruct Hg as (g & Eg & Tg); [done|]. rewrite Eg. unfold gradval in Eg.
    destruct (grad (sg u h)) as [gv|] eqn:Egv; [|done]. cbn in Eg. injection Eg as <-.
    assert (Ec : f (views (inputs (sg u h1)) h) (array gv h) = Ok (calls h1 u (array gv h))).
    { unfold calls. rewrite Ef, Ev. destruct (tg_ok _ _ _ Htg x f (array gv h) Hx Ef Tg) as [l El]. fold u in El. by rewrite El. }
    rewrite Ec. destruct (runCalls_spec (inputs (sg u h1)) (calls h1 u (array gv h)) ty h) as (h2 & -> & W2 & G2 & E2).
    + apply D.
    + done.
    + eapply Forall_impl; [by apply (tg_calls _ _ _ Htg)|]. intros c (v & Hv & Tv & Yv). exists v. split_and!; [done| |done].
      rewrite Tv. unfold type. rewrite (du_array _ _ _ _ D); [done|]. by eapply Hl1, list_elem_of_lookup_2.
    + assert (D2 := during_visit _ _ _ _ x (during_grown _ _ _ _ _ D W2 G2) Lx). fold u in D2.
      eexists. split; [by apply Hhook|]. split; [done|]. intros w Hw. pose proof (du_next _ _ _ _ D).
      rewrite gradval_visit, E2 by lia. f_equal. unfold contribs. apply list_omap_ext, Forall_Forall2_diag, Forall_forall.
      intros c _. unfold contrib. destruct (inputs (sg u h1) !! c.1) as [v|] eqn:Ev'; [|done].
      apply list_elem_of_lookup_2, Hl1 in Ev' as [_ ?]. unfold isCalcGrad. by rewrite (du_calc _ _ _ _ D).
  - assert (D2 := during_visit _ _ _ _ x D Lx). fold u in D2.
    eexists. split; [by apply Hhook|]. split; [done|]. intros w Hw. rewrite gradval_visit.
    unfold contribs, calls. rewrite Ef. by destruct (gradval u h).
Qed.

(** Types and presence of gradients are kept by the accumulation. *)
Lemma accum_type u l o a :
  (forall b, b ∈ l -> ty u b) -> (forall b, o = Some b -> ty u b) ->
  fold_left accum l o = Some a -> ty u a.
Proof.
  revert o. induction l as [|b l IH]; intros o Hl Ho; cbn; [apply Ho|].
  apply IH; [intros; apply Hl; by right|]. intros c [= <-]. assert (ty u b) by (apply Hl; by left).
  destruct o as [x|]; [|done]. apply Hadd; auto.
Qed.

Lemma accum_Some l o : is_Some o \/ l <> [] -> is_Some (fold_left accum l o).
Proof.
  revert o. induction l as [|b l IH]; intros o; cbn; [by intros [?|?]|]. intros _. apply IH. left. eauto.
Qed.

(** The types of the gradients. *)
Definition grads_typed (h : heap) : Prop :=
  forall w g, (w < next h1)%nat -> gradval w h = Some g -> ty w g.

Lemma gift_typed h x w :
  grads_typed h -> x ∈ us0 -> forall b, b ∈ gift h x w -> ty w b.
Proof.
  intros T Hx b. unfold gift. destruct (gradval (grad_ x) h) as [g|] eqn:Eg; [|by intros ?%elem_of_nil].
  destruct (tg_live _ _ _ Htg x Hx) as [_ ?].
  unfold contribs. intros (c & Hc & Eb)%list_elem_of_omap. unfold contrib in Eb.
  pose proof (tg_calls _ _ _ Htg x g Hx (T _ _ ltac:(done) Eg)) as Hp. rewrite Forall_forall in Hp.
  destruct (Hp c Hc) as (v & Hv & _ & Yv). rewrite Hv in Eb. case_decide as Hd; [|done]. destruct Hd as [-> _].
  by injection Eb as <-.
Qed.

Lemma received_cons fin x l w :
  received h1 fin (x :: l) w = match fin (grad_ x) with Some g => contribs h1 w (grad_ x) g | None => [] end ++ received h1 fin l w.
Proof. done. Qed.

(** A variable receives nothing from itself and from those after it. *)
Lemma received_none fin l w :
  (forall y, y ∈ l -> forall i, i ∈ inputs (sg (grad_ y) h1) -> grad_ i <> w) -> received h1 fin l w = [].
Proof.
  induction l as [|y l IH]; intros Hn; [done|]. rewrite received_cons, IH by (intros; eapply Hn; [by right|done]).
  rewrite app_nil_r. destruct (fin (grad_ y)); [|done]. apply contribs_not_input. intros i. apply Hn. by left.
Qed.

Definition inputs_after (l : list var) : Prop :=
  forall a y b, l = a ++ y :: b -> forall i, i ∈ inputs (sg (grad_ y) h1) -> grad_ i ∈ gids b.

Definition covered (h : heap) (l : list var) : Prop :=
  forall a y b, l = a ++ y :: b -> calcGrad (sg (grad_ y) h1) = true ->
  is_Some (gradval (grad_ y) h) \/ exists z i, z ∈ a /\ i ∈ inputs (sg (grad_ z) h1) /\ grad_ i = grad_ y.

Lemma inputs_after_tail x l : inputs_after (x :: l) -> inputs_after l.
Proof. intros Ha a y b ->. exact (Ha (x :: a) y b eq_refl). Qed.

(** No variable of the list is an input of one after it. *)
Lemma inputs_after_head x l :
  NoDup (gids (x :: l)) -> inputs_after (x :: l) ->
  forall y, y ∈ x :: l -> forall i, i ∈ inputs (sg (grad_ y) h1) -> grad_ i <> grad_ x.
Proof.
  intros Hnd Ha y (a & b & E)%list_elem_of_split i Hi Ex. pose proof (Ha a y b E i Hi) as Hb. rewrite Ex in Hb.
  destruct a as [|x' a]; injection E as -> ->.
  - apply NoDup_cons in Hnd as [Hn _]. by apply Hn.
  - cbn in Hnd. apply NoDup_cons in Hnd as [Hn _]. apply Hn. rewrite fmap_app, elem_of_app. right. by right.
Qed.

Lemma covered_step h h' x l :
  x ∈ us0 -> (forall y, y ∈ l -> live y h1) -> covered h (x :: l) -> grads_typed h ->
  (forall w, (w < next h1)%nat -> gradval w h' = fold_left accum (gift h x w) (gradval w h)) -> covered h' l.
Proof.
  intros Hx Hl Hc HT E a y b El Hy. assert (Ly : (grad_ y < next h1)%nat).
  { apply Hl. rewrite El. apply elem_of_app. right. by left. }
  rewrite E by done. destruct (Hc (x :: a) y b ltac:(by rewrite El) Hy) as [?|(z & i & [->|Hz]%elem_of_cons & Hi & Ei)].
  - left. apply accum_Some. by left.
  - left. apply accum_Some. right. destruct (Hc [] x l eq_refl) as [[g Eg]|(? & ? & ?%elem_of_nil & _)]; [|..|done].
    { destruct (calcGrad (sg (grad_ x) h1)) eqn:Ec; [done|]. apply (wf_const _ Hwf) in Ec as [E0 _].
      rewrite E0 in Hi. by apply elem_of_nil in Hi. }
    destruct (tg_live _ _ _ Htg x Hx) as [_ ?].
    unfold gift. rewrite Eg, <- Ei. apply (tg_cover _ _ _ Htg); [done|by eapply HT|done|].
    unfold isCalcGrad. by rewrite Ei.
  - right. eauto.
Qed.

Lemma backward_loop visited todo h :
  during retain h1 visited h -> us0 = visited ++ todo -> NoDup (gids us0) -> inputs_after todo ->
  grads_typed h -> covered h todo ->
  exists h', foldM_result (backwardStep retain) h todo = Ok h' /\ during retain h1 us0 h'
    /\ (forall w, (w < next h1)%nat ->
          gradval w h' = fold_left accum (received h1 (fun u => gradval u h') todo w) (gradval w h))
    /\ (forall y, y ∈ todo -> calcGrad (sg (grad_ y) h1) = true -> is_Some (gradval (grad_ y) h'))
    /\ grads_typed h'.
Proof.
  revert visited h. induction todo as [|x todo IH]; intros visited h D Eus Hnd Ha HT Hc; cbn [foldM_result].
  { exists h. rewrite Eus, app_nil_r. split_and!; try done. by intros y ?%elem_of_nil. }
  assert (Hx : x ∈ us0) by (rewrite Eus; apply elem_of_app; right; by left).
  destruct (tg_live _ _ _ Htg x Hx) as [_ Lx].
  pose proof Hnd as Hnd'. rewrite Eus, fmap_app in Hnd'. apply NoDup_app in Hnd' as (_ & Hdis & Hnd2).
  assert (Hnx : grad_ x ∉ gids visited) by (intros Hin; apply (Hdis _ Hin); by left).
  assert (Hcx : calcGrad (sg (grad_ x) h1) = true -> is_Some (gradval (grad_ x) h)).
  { intros Ec. by destruct (Hc [] x todo eq_refl Ec) as [?|(? & ? & ?%elem_of_nil & _)]. }
  destruct (backwardStep_spec visited h x D Hx Hnx) as (h2 & -> & D2 & E2).
  { intros Hf. destruct Hcx as [g Eg].
    - destruct (calcGrad (sg (grad_ x) h1)) eqn:Ec; [done|]. by apply (wf_const _ Hwf) in Ec as [_ ?].
    - exists g. split; [done|]. by eapply HT. }
  destruct (IH (visited ++ [x]) h2) as (h' & -> & D' & E' & S' & T').
  - done.
  - by rewrite <- app_assoc.
  - done.
  - by eapply inputs_after_tail.
  - intros w g Hw. rewrite E2 by done. apply accum_type; [by apply gift_typed|]. intros b. by apply HT.
  - eapply covered_step; [done| |done|done|done]. intros y Hy. apply (tg_live _ _ _ Htg). rewrite Eus.
    apply elem_of_app. right. by right.
  - assert (Hself : forall y, y ∈ x :: todo -> forall i, i ∈ inputs (sg (grad_ y) h1) -> grad_ i <> grad_ x)
      by (by apply inputs_after_head).
    assert (Ex : gradval (grad_ x) h' = gradval (grad_ x) h).
    { rewrite E', received_none, E2 by (first [done|intros; eapply Hself; [by right|done]]). cbn [fold_left].
      unfold gift. destruct (gradval (grad_ x) h) as [g|]; [|done]. rewrite contribs_not_input; [done|].
      intros i. apply Hself. by left. }
    exists h'. split_and!; [done|done| | |done].
    + intros w Hw. rewrite received_cons, fold_left_app, Ex, E', E2 by done. done.
    + intros y [->|Hy]%elem_of_cons Ey; [rewrite Ex; auto|auto].
Qed.
End Pass.

(** * From one heap to a grown one *)

Lemma recurse_ext (h h' : heap) fuel v st :
  acyclic h -> (forall u, (u <= grad_ v)%nat -> inputs (sg u h') = inputs (sg u h)) ->
  recurse fuel h' v st = recurse fuel h v st.
Proof.
  intros Ha. revert v st. induction fuel as [|fuel IH]; intros v st He; [done|]. cbn [recurse].
  unfold getInputs. rewrite He by done.
  rewrite (fold_left_ext_in (fun st i => recurse fuel h' i st) (fun st i => recurse fuel h i st)); [done|].
  intros st' i Hi. apply IH. intros u Hu. apply He. specialize (Ha _ _ Hi). lia.
Qed.

Lemma build_grown (h h' : heap) v : wf h -> grown h h' -> (grad_ v < next h)%nat -> build v h' = build v h.
Proof.
  intros W G Hv. unfold build. f_equal. apply recurse_ext; [by apply wf_acyclic|].
  intros u Hu. apply (gr_inputs _ _ G). lia.
Qed.

Lemma views_grown h h' u : wf h -> grown h h' -> views (inputs (sg u h)) h' = views (inputs (sg u h)) h.
Proof.
  intros W G. unfold views. apply list_fmap_ext. intros k i Hi%list_elem_of_lookup_2. apply (wf_inputs _ W) in Hi as [Li _].
  unfold isCalcGrad. rewrite (gr_array _ _ G), (gr_calc _ _ G); [done|apply Li|done].
Qed.

Lemma calls_grown h h' u g : wf h -> grown h h' -> (u < next h)%nat -> calls h' u g = calls h u g.
Proof.
  intros W G Hu. unfold calls. rewrite (gr_func _ _ G), (gr_inputs _ _ G) by done.
  destruct (gradFunc (sg u h)) as [f|]; [|done]. by rewrite (views_grown h h').
Qed.

Lemma contribs_grown h h' w u g : wf h -> grown h h' -> (u < next h)%nat -> contribs h' w u g = contribs h w u g.
Proof.
  intros W G Hu. unfold contribs. rewrite (calls_grown h h') by done.
  apply list_omap_ext, Forall_Forall2_diag, Forall_forall. intros c _. unfold contrib.
  rewrite (gr_inputs _ _ G) by done. destruct (inputs (sg u h) !! c.1) as [v|] eqn:E; [|done].
  apply list_elem_of_lookup_2, (wf_inputs _ W) in E as [[_ Lv] _]. unfold isCalcGrad. by rewrite (gr_calc _ _ G).
Qed.

Lemma typed_grown h h' ty us : wf h -> grown h h' -> typed_graph h ty us -> typed_graph h' ty us.
Proof.
  intros W G [T1 T2 T0 T4 T5].
  assert (Hl : forall x, x ∈ us -> (grad_ x < next h)%nat) by (intros x Hx; by apply T1).
  assert (Hi : forall x i, x ∈ us -> i ∈ inputs (sg (grad_ x) h) -> live i h)
    by (intros x i _ Hin; by apply (wf_inputs _ W) in Hin as [? _]).
  split.
  - intros x Hx. apply (live_grown h); auto.
  - intros x Hx. rewrite (gr_hook _ _ G); auto.
  - intros x f g Hx. rewrite (gr_inputs _ _ G), (gr_func _ _ G) by auto. intros Ef Hg.
    rewrite (views_grown h h') by done. by eapply T0.
  - intros x g Hx Hg. rewrite (gr_inputs _ _ G), (calls_grown h h') by auto. eapply Forall_impl; [by apply T4|].
    intros c (v & Hv & Tv & Yv). exists v. split_and!; [done| |done]. unfold type. rewrite (gr_array _ _ G); [done|].
    by eapply Hi, list_elem_of_lookup_2.
  - intros x i g Hx Hg. rewrite (gr_inputs _ _ G), (contribs_grown h h') by auto. intros Hin. unfold isCalcGrad.
    rewrite (gr_calc _ _ G); [by eapply T5|]. by apply (Hi x i).
Qed.

Lemma received_grown h h' fin us w :
  wf h -> grown h h' -> (forall x, x ∈ us -> live x h) -> received h' fin us w = received h fin us w.
Proof.
  intros W G Hl. unfold received. f_equal. apply list_fmap_ext. intros k x Hx%list_elem_of_lookup_2.
  destruct (fin (grad_ x)); [|done]. apply contribs_grown; [done|done|]. by apply Hl.
Qed.

(** * The order of the pass *)

Lemma reverse_after h l : sorted_dag h l -> inputs_after h (reverse l).
Proof.
  intros [_ Hc] a y b E i Hi. assert (El : l = reverse b ++ y :: reverse a).
  { rewrite <- (reverse_involutive l), E, reverse_app, reverse_cons, <- app_assoc. done. }
  assert (Hk : l !! length b = Some y).
  { rewrite El, lookup_app_r, length_reverse, Nat.sub_diag by (rewrite length_reverse; lia). done. }
  pose proof (Hc _ _ Hk i Hi) as Hin. rewrite El, take_app_le, take_ge, fmap_reverse in Hin by (rewrite length_reverse; lia).
  revert Hin. by rewrite elem_of_reverse.
Qed.

Lemma reach_parent h u w : reach h u w -> u = w \/ exists z i, reach h u z /\ i ∈ inputs (sg z h) /\ grad_ i = w.
Proof.
  induction 1 as [|u i w Hi Hr IH]; [by left|]. right. destruct IH as [<-|(z & j & Hz & Hj & <-)].
  - exists u, i. split_and!; [apply reach_refl|done|done].
  - exists z, j. split_and!; [by eapply reach_step|done|done].
Qed.

Lemma reverse_covered v h h1 :
  wf h1 -> is_Some (gradval (grad_ v) h) -> covered h1 h (reverse (build v h1)).
Proof.
  intros W Hv a y b E _. destruct (build_aux v h1 (wf_acyclic _ W)) as (S & _ & R).
  assert (Hy : y ∈ build v h1) by (apply elem_of_reverse; rewrite E; apply elem_of_app; right; by left).
  destruct (reach_parent h1 (grad_ v) (grad_ y)) as [<-|(z & i & Hz & Hi & Ei)].
  - apply R, list_elem_of_fmap. eauto.
  - by left.
  - right. apply R, list_elem_of_fmap in Hz as (x & -> & Hx). exists x, i. split_and!; [|done|done].
    assert (Hnd : NoDup (gids (reverse (build v h1)))) by (rewrite fmap_reverse, reverse_Permutation; apply S).
    pose proof (reverse_after _ _ S) as Hafter.
    apply elem_of_reverse in Hx. rewrite E in Hx, Hnd, Hafter. apply elem_of_app in Hx as [?|[->|Hx]%elem_of_cons]; [done|..].
    + exfalso. apply (wf_acyclic _ W) in Hi. lia.
    + exfalso. apply list_elem_of_split in Hx as (b1 & b2 & ->).
      assert (Hin := Hafter (a ++ y :: b1) x b2 ltac:(by rewrite <- app_assoc) i Hi).
      rewrite fmap_app, fmap_cons, fmap_app, fmap_cons in Hnd. apply NoDup_app in Hnd as (_ & _ & Hnd).
      apply NoDup_cons in Hnd as [Hn _]. apply Hn. rewrite <- Ei, elem_of_app. right. by right.
Qed.

Lemma backward_aux retain ty v g h :
  wf h -> live v h -> live g h -> isCalcGrad v h = true -> type g h = type v h -> ty (grad_ v) (array g h) ->
  typed_graph h ty (build v h) -> grads_typed h ty h ->
  (forall u x y, ty u x -> ty u y -> ty u (a_add x y)) ->
  exists h', backward v g retain h = Ok h' /\ wf h'
    /\ (forall w, (w < next h)%nat ->
          gradval w h' = fold_left accum (received h (fun u => gradval u h') (reverse (build v h)) w)
                           (if decide (w = grad_ v) then accum (gradval w h) (array g h) else gradval w h))
    /\ (forall y, y ∈ build v h -> isCalcGrad y h = true -> is_Some (gradval (grad_ y) h'))
    /\ (forall u, (u < next h)%nat ->
          inputs (sg u h') = if bool_decide (u ∈ grad_ <$> build v h) && negb retain then [] else inputs (sg u h))
    /\ grads_typed h ty h'.
Proof.
  intros W Lv Lg Hcalc Tg Tv HT Hty Hadd. unfold backward. pose proof Lv as [_ Lv2].
  destruct (addGrad_spec v g h W Lv Lg) as (h1 & Eadd & W1 & G1 & E1); [congruence|]. rewrite Eadd.
  assert (E1' : forall w, (w < next h)%nat ->
    gradval w h1 = if decide (w = grad_ v) then accum (gradval w h) (array g h) else gradval w h).
  { intros w Hw. rewrite E1 by done. destruct (decide (w = grad_ v)) as [->|].
    - by rewrite decide_True.
    - rewrite decide_False by tauto. done. }
  assert (Eb : build v h1 = build v h) by (by apply build_grown).
  destruct (build_aux v h1 (wf_acyclic _ W1)) as (Sd & _ & _).
  pose proof (typed_grown _ _ _ _ W G1 HT) as HT1. rewrite <- Eb in HT1.
  assert (HTr : typed_graph h1 ty (reverse (build v h1))).
  { assert (Hr : forall x : var, x ∈ reverse (build v h1) -> x ∈ build v h1) by (intros x; by rewrite elem_of_reverse).
    destruct HT1 as [T1 T2 T0 T4 T5]. split; eauto. }
  pose proof (gr_next _ _ G1) as Hnx.
  assert (Hg1 : grads_typed h1 ty h1).
  { intros w a Hw Ea. destruct (decide (w < next h)%nat) as [Hlt|Hge].
    - rewrite E1' in Ea by done. case_decide; [subst w|by eapply Hty]. injection Ea as <-.
      destruct (gradval (grad_ v) h) as [b|] eqn:Eb'; [|exact Tv]. apply Hadd; [by apply Hty|exact Tv].
    - rewrite (addGrad_fresh v g h h1) in Ea; [done|done|done|done|lia]. }
  destruct (backward_loop retain h1 ty (reverse (build v h1)) W1 HTr Hadd [] (reverse (build v h1)) h1)
    as (h' & -> & D & Eg & Es & Et).
  - by apply during_start.
  - done.
  - rewrite fmap_reverse, reverse_Permutation. apply Sd.
  - by apply reverse_after.
  - done.
  - apply reverse_covered; [done|]. rewrite E1', decide_True by done. by eexists.
  - exists h'. split; [done|]. split; [apply D|]. rewrite Eb in *. split_and!.
    + intros w Hw. rewrite Eg, E1' by lia. rewrite (received_grown h h1); [done|done|done|].
      intros x. rewrite elem_of_reverse. apply (tg_live _ _ _ HT).
    + intros y Hy Hc. apply Es; [by rewrite elem_of_reverse|]. rewrite (gr_calc _ _ G1); [done|]. by apply (tg_live _ _ _ HT).
    + intros u Hu. rewrite (du_inputs _ _ _ _ D), (gr_inputs _ _ G1) by lia. rewrite fmap_reverse.
      erewrite bool_decide_ext; [done|]. by rewrite elem_of_reverse.
    + intros w b Hw. apply Et. lia.
Qed.

(** * Every sequence of operations keeps the invariant *)

Lemma addGrad_wf v c h h' :
  wf h -> live v h -> live c h -> addGrad v c h = Ok h' -> wf h' /\ (next h <= next h')%nat.
Proof.
  intros W Lv Lc E. destruct (addGrad_spec v c h W Lv Lc) as (h2 & E2 & W2 & G2 & _).
  - intros Hc. unfold addGrad, isCalcGrad in *. rewrite Hc in E. cbn [negb] in E.
    by case_bool_decide.
  - rewrite E in E2. injection E2 as ->. split; [done|apply G2].
Qed.

Lemma calcGradInputs_wf retain v h h' :
  wf h -> (grad_ v < next h)%nat -> calcGradInputs retain v h = Ok h' -> wf h' /\ (next h <= next h')%nat.
Proof.
  intros W Hv. unfold calcGradInputs. destruct (match gradFunc _ with Some _ => _ | None => _ end) as [h2|] eqn:E2; [|done].
  intros [= <-]. assert (H2 : wf h2 /\ (next h <= next h2)%nat).
  { destruct (gradFunc (sg (grad_ v) h)) as [f|]; [|by injection E2 as <-].
    destruct (grad (sg (grad_ v) h)) as [g|]; [|done].
    destruct (f (views _ h) (array g h)) as [l|]; [|done]. revert E2. apply (foldM_result_inv _ (fun h' => wf h' /\ (next h <= next h')%nat)); [|done].
    intros h3 [i a] h4 _ [W3 N3]. unfold runCall. cbn [fst snd].
    destruct (inputs (sg (grad_ v) h) !! i) as [x|] eqn:Ex; [|done]. rewrite newVariable_alloc. intros E4.
    apply list_elem_of_lookup_2, (wf_inputs _ W) in Ex as [[L1 L2] _].
    apply addGrad_wf in E4 as [W4 N4]; [cbn in N4; split; [done|lia]|..].
    - apply wf_alloc; [done| |done|done|done]. by intros ? ?%elem_of_nil.
    - split; cbn; lia.
    - apply live_new. }
  destruct H2 as [W2 N2]. destruct retain; [done|]. split; [|done].
  apply wf_upd; [done|lia| |apply W2| |done]; [by intros i ?%elem_of_nil|]. intros E. cbn. split; [done|]. by apply W2.
Qed.

Lemma applyGradHook_wf v h h' : wf h -> applyGradHook v h = Ok h' -> wf h' /\ next h = next h'.
Proof.
  intros W. unfold applyGradHook. destruct (onGradAvailable _) as [k|]; [|by intros [= <-]].
  destruct (grad _) as [gv|]; [|done]. intros [= <-]. by split; [destruct W|].
Qed.

Lemma backward_wf v g retain h h' :
  wf h -> live v h -> live g h -> backward v g retain h = Ok h' -> wf h' /\ (next h <= next h')%nat.
Proof.
  intros W Lv Lg. unfold backward. destruct (addGrad v g h) as [h1|] eqn:E1; [|done].
  apply addGrad_wf in E1 as [W1 N1]; [|done|done|done].
  assert (Hb : forall x, x ∈ reverse (build v h1) -> (grad_ x < next h1)%nat).
  { intros x. rewrite elem_of_reverse. intros Hx. destruct (build_aux v h1 (wf_acyclic _ W1)) as (_ & _ & R).
    assert (Hr : reach h1 (grad_ v) (grad_ x)) by (apply R, list_elem_of_fmap; eauto).
    apply (reach_le _ (wf_acyclic _ W1)) in Hr. destruct Lv. lia. }
  intros E. cut (wf h' /\ (next h1 <= next h')%nat); [intros [? ?]; split; [done|lia]|].
  revert E. apply (foldM_result_inv _ (fun h' => wf h' /\ (next h1 <= next h')%nat)); [|done].
  intros h2 x h3 Hx%Hb [W2 N2]. unfold backwardStep. destruct (calcGradInputs retain x h2) as [h4|] eqn:E4; [|done].
  apply calcGradInputs_wf in E4 as [W4 N4]; [|done|lia]. intros E5. apply applyGradHook_wf in E5 as [W5 N5]; [|done].
  split; [done|lia].
Qed.

(** One operation of the interface, on variables that exist. *)
Inductive step (h : heap) : heap -> Prop :=
| st_new d c : step h (newVariable d c h).2
| st_op d ins f : (forall i, i ∈ ins -> live i h) -> step h (newOp d ins f h).2
| st_withoutData v : live v h -> step h (withoutData v h).2
| st_zeroGrad v : live v h -> step h (zeroGrad v h)
| st_setCalcGrad b v : live v h -> step h (setCalcGrad b v h)
| st_register k v : live v h -> step h (registerGradHook k v h)
| st_clear v : live v h -> step h (clearGradHook v h)
| st_addGrad v c h' : live v h -> live c h -> addGrad v c h = Ok h' -> step h h'
| st_backward v g b h' : live v h -> live g h -> backward v g b h = Ok h' -> step h h'.

Inductive reachable : heap -> Prop :=
| re_empty : reachable empty_heap
| re_step h h' : reachable h -> step h h' -> reachable h'.

Lemma step_wf h h' : wf h -> step h h' -> wf h'.
Proof.
  intros W [d c|d ins f Hi|v Lv|v [_ Lv]|b v [_ Lv]|k v [_ Lv]|v [_ Lv]|v c h2 Lv Lc E|v g b h2 Lv Lg E].
  - by apply wf_newVariable.
  - by apply wf_newOp.
  - by apply (wf_withoutData v h).
  - apply wf_upd; [done|done|done|done|apply W|apply W].
  - destruct b; apply wf_upd; try done; cbn; try apply W. by intros i ?%elem_of_nil.
  - apply wf_upd; [done|done|done|apply W|apply W|apply W].
  - apply wf_upd; [done|done|done|apply W|apply W|apply W].
  - exact (proj1 (addGrad_wf _ _ _ _ W Lv Lc E)).
  - exact (proj1 (backward_wf _ _ _ _ _ W Lv Lg E)).
Qed.

Lemma reachable_wf h : reachable h -> wf h.
Proof.
  induction 1 as [|h h' _ IH Hs]; [|by eapply step_wf]. split; unfold sg; cbn.
  - intros u s. by rewrite lookup_empty.
  - intros u i. rewrite lookup_empty. cbn. by intros ?%elem_of_nil.
  - intros u g. by rewrite lookup_empty.
  - intros u. by rewrite lookup_empty.
  - intros u. by rewrite lookup_empty.
Qed.

(** * Theorems *)

(** The computation graph stays acyclic, and the list [build] returns is
    a topological order of it: after any sequence of operations it holds every
    record that is an input of the variable, directly or through others,
    exactly once, after all of its own inputs, and ends with the variable. *)
Theorem build_topological v h :
  reachable h ->
  NoDup (grad_ <$> build v h) /\ last (build v h) = Some v
  /\ (forall u, u ∈ grad_ <$> build v h <-> reach h (grad_ v) u)
  /\ (forall k x, build v h !! k = Some x -> forall i, i ∈ getInputs x h -> grad_ i ∈ grad_ <$> take k (build v h)).
Proof. intros W%reachable_wf. destruct (build_aux v h (wf_acyclic _ W)) as ([S1 S2] & L & R). done. Qed.

(** C15. [backward] is total on a well-typed graph and obeys the chain rule:
    every gradient function below the variable runs once, on the final
    gradient of its variable, and the gradient of every record is its old
    gradient (with the given one added for the variable itself) plus, in the
    order of the pass, everything these functions give to it; every variable
    below that wants a gradient has one, and without [retainGraph] the graph
    is released. *)
Theorem backward_chain_rule retain ty v g h :
  reachable h -> live v h -> live g h -> isCalcGrad v h = true -> type g h = type v h -> ty (grad_ v) (array g h) ->
  typed_graph h ty (build v h) -> grads_typed h ty h ->
  (forall u x y, ty u x -> ty u y -> ty u (a_add x y)) ->
  exists h', backward v g retain h = Ok h'
    /\ (forall w, (w < next h)%nat ->
          gradval w h' = fold_left accum (received h (fun u => gradval u h') (reverse (build v h)) w)
                           (if decide (w = grad_ v) then accum (gradval w h) (array g h) else gradval w h))
    /\ (forall y, y ∈ build v h -> isCalcGrad y h = true -> is_Some (gradval (grad_ y) h'))
    /\ (forall u, (u < next h)%nat ->
          inputs (sg u h') = if bool_decide (u ∈ grad_ <$> build v h) && negb retain then [] else inputs (sg u h)).
Proof.
  intros W%reachable_wf Lv Lg Hc Tg Tv HT Hg Hadd.
  destruct (backward_aux retain ty v g h W Lv Lg Hc Tg Tv HT Hg Hadd) as (h' & E & _ & R1 & R2 & R3 & _). by exists h'.
Qed.
End Proofs.

(** * A concrete graph: the variable [Var 1 1] is twice [Var 0 0] *)

Module Demo.
Definition z_arrays : Arrays Z :=
  {| a_type _ := f32; a_as _ a := a; a_empty := 0; a_ones _ := 1; a_add := Z.add |}.
#[local] Existing Instance z_arrays.

Definition twice : GradFunc (A := Z) := fun _ g => Ok [(0%nat, 2 * g)].
Definition graph : heap (A := Z) :=
  (newVariable 1 false (newOp 10 [Var 0 0] twice (newVariable 5 true empty_heap).2).2).2.

Lemma graph_reachable : reachable graph.
Proof.
  eapply re_step; [eapply re_step; [eapply re_step; [apply re_empty|apply st_new]|apply st_op]|apply st_new].
  intros i ->%list_elem_of_singleton. split; cbn; lia.
Qed.

Lemma graph_build : build (Var 1 1) graph = [Var 0 0; Var 1 1].
Proof. reflexivity. Qed.

Lemma graph_typed : typed_graph graph (fun _ _ => True) (build (Var 1 1) graph).
Proof.
  rewrite graph_build.
  assert (Hx : forall x, x ∈ [Var 0 0; Var 1 1] -> x = Var 0 0 \/ x = Var 1 1).
  { intros x [-> | ->%list_elem_of_singleton]%elem_of_cons; tauto. }
  split.
  - intros x [->| ->]%Hx; split; cbn; lia.
  - by intros x [->| ->]%Hx.
  - intros x f g [->| ->]%Hx Ef _; [done|]. vm_compute in Ef. injection Ef as <-. by eexists.
  - intros x g [->| ->]%Hx _; [constructor|]. constructor; [|constructor]. exists (Var 0 0). done.
  - intros x i g [->| ->]%Hx _ Hi _; [by apply elem_of_nil in Hi|].
    apply list_elem_of_singleton in Hi as ->. done.
Qed.

Lemma backward_chain_rule_witness :
  exists h', backward (Var 1 1) (Var 2 2) false graph = Ok h' /\ gradval 0 h' = Some 2 /\ getInputs (Var 1 1) h' = [].
Proof.
  destruct (backward_chain_rule false (fun _ _ => True) (Var 1 1) (Var 2 2) graph graph_reachable
    ltac:(split; cbn; lia) ltac:(split; cbn; lia) eq_refl eq_refl I graph_typed
    ltac:(done) ltac:(done)) as (h' & E & Eg & _ & Ei).
  exists h'. split; [exact E|]. split; [|exact (Ei 1%nat ltac:(cbn; lia))].
  vm_compute in E. injection E as <-. reflexivity.
Defined.
End Demo.
