(* ===== verification/AutogradFunctions.v ===== *)
(** The element-wise functions of [fl/autograd/Functions.cpp] and the precision
    adjustment of [Functions.h].

    The element-wise operations of ArrayFire are a parameter ([ElementOps]); a
    [double] operand of an array operation is an array of its shape ([e_const]).
    The functions that are applied to gradients and to inputs inside a gradient
    function are their array part ([v...]): the variables built there are dropped
    once their array is read. *)
From S2P Require Import Prelude Autograd.

Open Scope Z_scope.

Class ElementOps (A K : Type) := {
  k_of : Z -> K;                       (* an integer literal *)
  k_ratio : Z -> Z -> K;               (* a decimal literal *)
  k_opp : K -> K;
  k_sub : K -> K -> K;
  e_const : K -> A -> A;
  e_sub : A -> A -> A; e_mul : A -> A -> A; e_div : A -> A -> A;
  e_max : A -> A -> A; e_min : A -> A -> A;
  e_gt : A -> A -> A; e_lt : A -> A -> A; e_ge : A -> A -> A; e_le : A -> A -> A; e_and : A -> A -> A;
  e_not : A -> A;
  e_exp : A -> A; e_log : A -> A; e_log1p : A -> A; e_sin : A -> A; e_cos : A -> A; e_tanh : A -> A;
  e_sqrt : A -> A; e_sigmoid : A -> A; e_abs : A -> A; e_sign : A -> A;
  e_pow : A -> K -> A;
  e_clamp : A -> K -> K -> A;
  e_replace : A -> A -> K -> A          (* keeps the elements where the mask holds *)
}.

(** * Precision *)

Inductive OptimLevel := DEFAULT | O1 | O2 | O3.

Definition kOptimLevelTypeExclusionMappings (l : OptimLevel) : list string :=
  match l with
  | O1 => ["batchnorm"; "reciprocal"; "erf"; "exp"; "log"; "log1p"; "pow"; "sum"; "mean"; "var"; "norm"; "normalize";
           "softmax"; "logSoftmax"; "categoricalCrossEntropy"; "gelu"]%string
  | O2 => ["batchnorm"]%string
  | DEFAULT | O3 => []
  end.

Section Functions.
Context {A K : Type} `{Arrays A, ElementOps A K} (optimLevel : OptimLevel).

Abbreviation heap := (Autograd.heap (A := A)).
Abbreviation GradFunc := (Autograd.GradFunc (A := A)).
Abbreviation GA := (result (list (nat * A))).
Abbreviation OP := (result (var * heap)).

(** [detail::adjustInputType] on an array *)
Definition adjustInputType (funcname : string) (a : A) : A :=
  match optimLevel with
  | DEFAULT => a
  | _ => if negb (bool_decide (funcname ∈ kOptimLevelTypeExclusionMappings optimLevel)) then a_as f16 a
         else if bool_decide (a_type a = f16) then a_as f32 a else a
  end.

(** * Arrays of the functions *)

(** [FL_VARIABLE_DTYPES_MATCH_CHECK] *)
Definition checked (f : A -> A -> A) (a b : A) : result A :=
  if bool_decide (a_type a = a_type b) then Ok (f a b) else Throw InvalidArgument.

(** An operation with a [double] operand keeps the type of the array. *)
Definition scalarR (f : A -> A -> A) (a : A) (k : K) : A := a_as (a_type a) (f a (e_const k a)).
Definition scalarL (f : A -> A -> A) (k : K) (a : A) : A := a_as (a_type a) (f (e_const k a) a).

Definition vnegate (a : A) : A := scalarL e_sub (k_of 0) a.
Definition vnot (a : A) : A := a_as (a_type a) (e_not a).
Definition vreciprocal (a : A) : A :=
  let a := adjustInputType "reciprocal" a in e_div (e_const (k_of 1) a) a.

(** * Building a variable *)

(** The input list of a new variable: an input that is not kept is stored
    without its data. *)
Fixpoint storeInputs (ins : list (var * bool)) (h : heap) : list var * heap :=
  match ins with
  | [] => ([], h)
  | (v, true) :: r => let '(l, h) := storeInputs r h in (v :: l, h)
  | (v, false) :: r => let '(x, h) := withoutData v h in let '(l, h) := storeInputs r h in (x :: l, h)
  end.

Definition makeOp (data : A) (ins : list (var * bool)) (f : GradFunc) (h : heap) : var * heap :=
  let '(l, h) := storeInputs ins h in newOp data l f h.

(** What a gradient function sees of input [i]. *)
Definition arr (ins : list (view (A := A))) (i : nat) : A := default a_empty (fst <$> ins !! i).
Definition calc (ins : list (view (A := A))) (i : nat) : bool := default false (snd <$> ins !! i).

(** The call [inputs[i].addGrad(a)], guarded or not by [isCalcGrad]. *)
Definition give (i : nat) (a : result A) : GA := match a with Ok a => Ok [(i, a)] | Throw e => Throw e end.
Definition giveIf (b : bool) (i : nat) (a : result A) : GA := if b then give i a else Ok [].
Definition andThen (x y : GA) : GA :=
  match x with Throw e => Throw e | Ok l => match y with Ok m => Ok (l ++ m) | Throw e => Throw e end end.

(** A function of two variables whose arrays must agree in type. *)
Definition binary (f : A -> A -> A) (lhs rhs : var) (keepL keepR : bool) (g : GradFunc) (h : heap) : OP :=
  match checked f (array lhs h) (array rhs h) with
  | Throw e => Throw e
  | Ok a => Ok (makeOp a [(lhs, keepL); (rhs, keepR)] g h)
  end.

(** A function of one variable. *)
Definition unary (f : A -> A) (input : var) (keep : bool) (g : GradFunc) (h : heap) : OP :=
  Ok (makeOp (f (array input h)) [(input, keep)] g h).

(** A result without gradient, [Variable(result, false)]. *)
Definition constant (a : result A) (h : heap) : OP :=
  match a with Throw e => Throw e | Ok a => Ok (newVariable a false h) end.

(** * Arithmetic *)

Definition grad_add : GradFunc := fun _ g => andThen (give 0 (Ok g)) (give 1 (Ok g)).
Definition add (lhs rhs : var) (h : heap) : OP := binary a_add lhs rhs false false grad_add h.

Definition grad_id : GradFunc := fun _ g => give 0 (Ok g).
Definition addK (lhs : var) (rhsVal : K) (h : heap) : OP :=
  unary (fun a => scalarR a_add a rhsVal) lhs false grad_id h.
Definition Kadd (lhsVal : K) (rhs : var) (h : heap) : OP := addK rhs lhsVal h.

Definition grad_sub : GradFunc := fun _ g => andThen (give 0 (Ok g)) (give 1 (Ok (vnegate g))).
Definition sub (lhs rhs : var) (h : heap) : OP := binary e_sub lhs rhs false false grad_sub h.
Definition subK (lhs : var) (rhsVal : K) (h : heap) : OP :=
  unary (fun a => scalarR e_sub a rhsVal) lhs false grad_id h.
Definition grad_neg : GradFunc := fun _ g => give 0 (Ok (vnegate g)).
Definition Ksub (lhsVal : K) (rhs : var) (h : heap) : OP :=
  unary (fun a => scalarL e_sub lhsVal a) rhs false grad_neg h.

Definition grad_mul : GradFunc := fun ins g =>
  andThen (giveIf (calc ins 0) 0 (checked e_mul g (arr ins 1))) (giveIf (calc ins 1) 1 (checked e_mul g (arr ins 0))).
Definition mul (lhs rhs : var) (h : heap) : OP :=
  binary e_mul lhs rhs (isCalcGrad rhs h) (isCalcGrad lhs h) grad_mul h.
Definition grad_mulK (rhsVal : K) : GradFunc := fun _ g => give 0 (Ok (scalarR e_mul g rhsVal)).
Definition mulK (lhs : var) (rhsVal : K) (h : heap) : OP :=
  unary (fun a => scalarR e_mul a rhsVal) lhs false (grad_mulK rhsVal) h.
Definition Kmul (lhsVal : K) (rhs : var) (h : heap) : OP := mulK rhs lhsVal h.

Definition grad_div : GradFunc := fun ins g =>
  let inputs1rec := vreciprocal (arr ins 1) in
  match checked e_mul g inputs1rec with
  | Throw e => Throw e
  | Ok gradInput0 =>
      andThen (giveIf (calc ins 0) 0 (Ok gradInput0))
        (giveIf (calc ins 1) 1
           (match checked e_mul gradInput0 (vnegate (arr ins 0)) with
            | Throw e => Throw e
            | Ok a => checked e_mul a inputs1rec
            end))
  end.
Definition div (lhs rhs : var) (h : heap) : OP := binary e_div lhs rhs (isCalcGrad rhs h) true grad_div h.
Definition grad_divK (rhsVal : K) : GradFunc := fun _ g => give 0 (Ok (scalarR e_div g rhsVal)).
Definition divK (lhs : var) (rhsVal : K) (h : heap) : OP :=
  unary (fun a => scalarR e_div a rhsVal) lhs false (grad_divK rhsVal) h.
Definition grad_Kdiv (lhsVal : K) : GradFunc := fun ins g =>
  give 0 (match checked e_mul (arr ins 0) (arr ins 0) with
          | Throw e => Throw e
          | Ok sq => checked e_div (scalarR e_mul g (k_opp lhsVal)) sq
          end).
Definition Kdiv (lhsVal : K) (rhs : var) (h : heap) : OP :=
  unary (fun a => scalarL e_div lhsVal a) rhs true (grad_Kdiv lhsVal) h.

(** * Comparisons *)

Definition compareVV (f : A -> A -> A) (lhs rhs : var) (h : heap) : OP :=
  constant (checked f (array lhs h) (array rhs h)) h.
Definition compareVK (f : A -> A -> A) (lhs : var) (rhsVal : K) (h : heap) : OP :=
  constant (Ok (scalarR f (array lhs h) rhsVal)) h.
Definition compareKV (f : A -> A -> A) (lhsVal : K) (rhs : var) (h : heap) : OP :=
  constant (Ok (scalarL f lhsVal (array rhs h))) h.

Definition gt := compareVV e_gt.
Definition gtK := compareVK e_gt.
Definition Kgt := compareKV e_gt.
Definition lt := compareVV e_lt.
Definition ltK := compareVK e_lt.
Definition Klt := compareKV e_lt.
Definition ge := compareVV e_ge.
Definition geK := compareVK e_ge.
Definition Kge := compareKV e_ge.
Definition le := compareVV e_le.
Definition leK := compareVK e_le.
Definition Kle := compareKV e_le.
Definition logicalAnd := compareVV e_and.
Definition logicalNot (input : var) (h : heap) : OP := constant (Ok (vnot (array input h))) h.

(** * Maximum and minimum *)

Definition grad_select (f : A -> A -> A) : GradFunc := fun ins g =>
  let mask := a_as (a_type g) (f (arr ins 0) (arr ins 1)) in
  andThen (give 0 (checked e_mul mask g)) (give 1 (checked e_mul (vnot mask) g)).
Definition grad_selectK (f : A -> A -> A) (k : K) : GradFunc := fun ins g =>
  let mask := a_as (a_type g) (f (arr ins 0) (e_const k (arr ins 0))) in
  give 0 (checked e_mul mask g).

Definition max (lhs rhs : var) (h : heap) : OP := binary e_max lhs rhs true true (grad_select e_gt) h.
Definition maxK (lhs : var) (rhsVal : K) (h : heap) : OP :=
  unary (fun a => scalarR e_max a rhsVal) lhs true (grad_selectK e_gt rhsVal) h.
Definition Kmax (lhsVal : K) (rhs : var) (h : heap) : OP := maxK rhs lhsVal h.
Definition min (lhs rhs : var) (h : heap) : OP := binary e_min lhs rhs true true (grad_select e_lt) h.
Definition minK (lhs : var) (rhsVal : K) (h : heap) : OP :=
  unary (fun a => scalarR e_min a rhsVal) lhs true (grad_selectK e_lt rhsVal) h.
Definition Kmin (lhsVal : K) (rhs : var) (h : heap) : OP := minK rhs lhsVal h.

(** * Functions of one variable *)

Definition negate (input : var) (h : heap) : OP := unary vnegate input false grad_neg h.

Definition grad_reciprocal : GradFunc := fun ins g =>
  let res := vreciprocal (arr ins 0) in
  give 0 (match checked e_mul (vnegate g) res with Throw e => Throw e | Ok a => checked e_mul a res end).
Definition reciprocal (input : var) (h : heap) : OP := unary vreciprocal input true grad_reciprocal h.

Definition grad_exp : GradFunc := fun ins g => give 0 (Ok (e_mul g (e_exp (arr ins 0)))).
Definition exp (input : var) (h : heap) : OP := unary (fun a => e_exp (adjustInputType "exp" a)) input true grad_exp h.

Definition grad_log : GradFunc := fun ins g => give 0 (checked e_div g (arr ins 0)).
Definition log (input : var) (h : heap) : OP := unary (fun a => e_log (adjustInputType "log" a)) input true grad_log h.

Definition grad_log1p : GradFunc := fun ins g => give 0 (checked e_div g (scalarR a_add (arr ins 0) (k_of 1))).
Definition log1p (input : var) (h : heap) : OP :=
  unary (fun a => e_log1p (adjustInputType "log1p" a)) input true grad_log1p h.

Definition grad_pow (p : K) : GradFunc := fun ins g =>
  let q := e_pow (arr ins 0) (k_sub p (k_of 1)) in give 0 (Ok (e_mul (e_mul (e_const p q) q) g)).
Definition pow (input : var) (p : K) (h : heap) : OP :=
  unary (fun a => e_pow (adjustInputType "pow" a) p) input true (grad_pow p) h.

Definition grad_sin : GradFunc := fun ins g => give 0 (checked e_mul g (e_cos (arr ins 0))).
Definition sin (input : var) (h : heap) : OP := unary e_sin input true grad_sin h.
Definition grad_cos : GradFunc := fun ins g => give 0 (checked e_mul g (vnegate (e_sin (arr ins 0)))).
Definition cos (input : var) (h : heap) : OP := unary e_cos input true grad_cos h.

(** The gradient functions of the next four capture the result. *)
Definition grad_tanh (result : A) : GradFunc := fun _ g =>
  let sq := e_mul result result in give 0 (Ok (e_mul (e_sub (e_const (k_of 1) sq) sq) g)).
Definition tanh (input : var) (h : heap) : OP :=
  unary e_tanh input false (grad_tanh (e_tanh (array input h))) h.

Definition grad_clamp (lo hi : K) (result : A) : GradFunc := fun _ g =>
  give 0 (Ok (e_replace g (e_and (e_gt result (e_const lo result)) (e_lt result (e_const hi result))) (k_of 0))).
Definition clamp (input : var) (lo hi : K) (h : heap) : OP :=
  unary (fun a => e_clamp a lo hi) input false (grad_clamp lo hi (e_clamp (array input h) lo hi)) h.

Definition grad_sqrt (result : A) : GradFunc := fun _ g =>
  give 0 (checked e_div g (scalarR e_mul result (k_of 2))).
Definition sqrt (input : var) (h : heap) : OP :=
  unary e_sqrt input false (grad_sqrt (e_sqrt (array input h))) h.

Definition grad_sigmoid (result : A) : GradFunc := fun _ g =>
  give 0 (Ok (e_mul (e_mul g result) (e_sub (e_const (k_of 1) result) result))).
Definition sigmoid (input : var) (h : heap) : OP :=
  unary e_sigmoid input false (grad_sigmoid (e_sigmoid (array input h))) h.

Definition grad_abs : GradFunc := fun ins g =>
  let s := e_sign (arr ins 0) in
  let sign := e_sub (e_const (k_of 1) s) (e_mul (e_const (k_of 2) s) s) in give 0 (checked e_mul sign g).
Definition abs (input : var) (h : heap) : OP := unary e_abs input true grad_abs h.

(** * Compositions *)

Definition bindV (m : OP) (k : var -> heap -> OP) : OP := match m with Throw e => Throw e | Ok (v, h) => k v h end.

Definition swish (input : var) (beta : K) (h : heap) : OP :=
  bindV (Kmul beta input h) (fun b h => bindV (sigmoid b h) (fun s h => mul input s h)).

Definition relu (input : var) (h : heap) : OP := maxK input (k_of 0) h.
End Functions.
