(* ===== verification/AutogradReal.v ===== *)
(** Element-wise functions over the real numbers: the gradient function of every
    function of [AutogradFunctions] multiplies the gradient by the derivative of
    the function.  One element of an array stands for the array. *)
From S2P Require Import Prelude Autograd AutogradFunctions.
From Stdlib Require Import Reals Lra.

Open Scope R_scope.

(** * Arrays of one real *)

#[export] Instance Rlt_decision x y : Decision (x < y) := Rlt_dec x y.
#[export] Instance Rle_decision x y : Decision (x <= y) := Rle_dec x y.
#[export] Instance R_eq_decision : EqDecision R := Req_EM_T.

Definition bool_R (b : bool) : R := if b then 1 else 0.
Definition Rltb (x y : R) : bool := bool_decide (x < y).
Definition Rleb (x y : R) : bool := bool_decide (x <= y).

#[export] Instance real_arrays : Arrays R := {
  a_type _ := f64; a_as _ x := x; a_empty := 0; a_ones _ := 1; a_add := Rplus
}.

(** Masks are 0 and 1; [af::sign] is the sign bit. *)
#[export] Instance real_ops : ElementOps R R := {
  k_of := IZR; k_ratio n d := IZR n / IZR d; k_opp := Ropp; k_sub := Rminus; e_const k _ := k;
  e_sub := Rminus; e_mul := Rmult; e_div := Rdiv; e_max := Rmax; e_min := Rmin;
  e_gt x y := bool_R (Rltb y x); e_lt x y := bool_R (Rltb x y); e_ge x y := bool_R (Rleb y x);
  e_le x y := bool_R (Rleb x y);
  e_and x y := bool_R (negb (bool_decide (x = 0)) && negb (bool_decide (y = 0)));
  e_not x := bool_R (bool_decide (x = 0));
  e_exp := exp; e_log := ln; e_log1p x := ln (1 + x); e_sin := sin; e_cos := cos; e_tanh := tanh;
  e_sqrt := sqrt; e_sigmoid x := / (1 + exp (- x)); e_abs := Rabs; e_sign x := bool_R (Rltb x 0);
  e_pow := Rpower; e_clamp x lo hi := Rmin (Rmax x lo) hi;
  e_replace x m k := if bool_decide (m = 0) then k else x
}.

(** * Operations of a straight-line program *)

Inductive binop := BAdd | BSub | BMul | BDiv | BMax | BMin.

Inductive unop :=
| UAddK (k : R) | USubK (k : R) | UKSub (k : R) | UMulK (k : R) | UDivK (k : R) | UKDiv (k : R)
| UMaxK (k : R) | UMinK (k : R) | UNegate | UReciprocal | UExp | ULog | ULog1p | UPow (p : R)
| USin | UCos | UTanh | UClamp (lo hi : R) | USqrt | USigmoid | UAbs.

(** The function of the library each operation calls, on any array type with real
    scalars. *)
Section Run.
Context {A : Type} `{Arrays A, ElementOps A R}.
Abbreviation heap := (Autograd.heap (A := A)).

Definition runBin (o : binop) : var -> var -> heap -> result (var * heap) :=
  match o with
  | BAdd => add | BSub => sub (K := R) | BMul => mul (K := R) | BDiv => div (K := R) DEFAULT
  | BMax => AutogradFunctions.max (K := R) | BMin => AutogradFunctions.min (K := R)
  end.

Definition runUn (o : unop) (v : var) (h : heap) : result (var * heap) :=
  match o with
  | UAddK k => addK v k h | USubK k => subK v k h | UKSub k => Ksub k v h | UMulK k => mulK v k h
  | UDivK k => divK v k h | UKDiv k => Kdiv k v h | UMaxK k => maxK v k h | UMinK k => minK v k h
  | UNegate => negate (K := R) v h | UReciprocal => reciprocal (K := R) DEFAULT v h
  | UExp => AutogradFunctions.exp (K := R) DEFAULT v h | ULog => log (K := R) DEFAULT v h
  | ULog1p => log1p (K := R) DEFAULT v h | UPow p => AutogradFunctions.pow DEFAULT v p h
  | USin => AutogradFunctions.sin (K := R) v h | UCos => AutogradFunctions.cos (K := R) v h
  | UTanh => AutogradFunctions.tanh (K := R) v h | UClamp lo hi => clamp v lo hi h
  | USqrt => AutogradFunctions.sqrt (K := R) v h | USigmoid => sigmoid (K := R) v h
  | UAbs => AutogradFunctions.abs (K := R) v h
  end.
End Run.

(** What an operation computes, where it is differentiable, and its derivatives. *)
Definition fwdB (o : binop) (x y : R) : R :=
  match o with BAdd => x + y | BSub => x - y | BMul => x * y | BDiv => x / y | BMax => Rmax x y | BMin => Rmin x y end.

Definition fwdU (o : unop) (x : R) : R :=
  match o with
  | UAddK k => x + k | USubK k => x - k | UKSub k => k - x | UMulK k => x * k | UDivK k => x / k | UKDiv k => k / x
  | UMaxK k => Rmax x k | UMinK k => Rmin x k | UNegate => - x | UReciprocal => / x | UExp => exp x | ULog => ln x
  | ULog1p => ln (1 + x) | UPow p => Rpower x p | USin => sin x | UCos => cos x | UTanh => tanh x
  | UClamp lo hi => Rmin (Rmax x lo) hi | USqrt => sqrt x | USigmoid => / (1 + exp (- x)) | UAbs => Rabs x
  end.

Definition domB (o : binop) (x y : R) : Prop :=
  match o with BDiv => y <> 0 | BMax | BMin => x <> y | _ => True end.

Definition domU (o : unop) (x : R) : Prop :=
  match o with
  | UKDiv _ | UReciprocal | UAbs => x <> 0
  | UMaxK k | UMinK k => x <> k
  | ULog | UPow _ | USqrt => 0 < x
  | ULog1p => 0 < 1 + x
  | UClamp lo hi => lo < hi /\ x <> lo /\ x <> hi
  | _ => True
  end.

Definition pdB0 (o : binop) (x y : R) : R :=
  match o with BAdd | BSub => 1 | BMul => y | BDiv => / y | BMax => bool_R (Rltb y x) | BMin => bool_R (Rltb x y) end.
Definition pdB1 (o : binop) (x y : R) : R :=
  match o with
  | BAdd => 1 | BSub => -1 | BMul => x | BDiv => - x / (y * y)
  | BMax => bool_R (negb (Rltb y x)) | BMin => bool_R (negb (Rltb x y))
  end.

Definition pdU (o : unop) (x : R) : R :=
  match o with
  | UAddK _ | USubK _ => 1 | UKSub _ | UNegate => -1 | UMulK k => k | UDivK k => / k | UKDiv k => - k / (x * x)
  | UMaxK k => bool_R (Rltb k x) | UMinK k => bool_R (Rltb x k) | UReciprocal => - (/ x * / x) | UExp => exp x
  | ULog => / x | ULog1p => / (1 + x) | UPow p => p * Rpower x (p - 1) | USin => cos x | UCos => - sin x
  | UTanh => 1 - tanh x * tanh x | UClamp lo hi => bool_R (Rltb lo x && Rltb x hi) | USqrt => / (2 * sqrt x)
  | USigmoid => / (1 + exp (- x)) * (1 - / (1 + exp (- x))) | UAbs => if Rltb x 0 then -1 else 1
  end.

(** * Derivatives *)

Lemma bool_R_true b : b = true -> bool_R b = 1.
Proof. by intros ->. Qed.
Lemma bool_R_false b : b = false -> bool_R b = 0.
Proof. by intros ->. Qed.
Lemma Rltb_true x y : x < y -> Rltb x y = true.
Proof. intros. by apply bool_decide_eq_true_2. Qed.
Lemma Rltb_false x y : y <= x -> Rltb x y = false.
Proof. intros. apply bool_decide_eq_false_2. lra. Qed.

(** A derivative depends on the values near the point only. *)
Lemma deriv_near (f g : R -> R) x l d :
  0 < d -> (forall z, x - d < z < x + d -> f z = g z) -> derivable_pt_lim f x l -> derivable_pt_lim g x l.
Proof. intros Hd He Hf. apply (derivable_pt_lim_locally_ext f g x (x - d) (x + d) l); [lra|done|done]. Qed.

Lemma deriv_id x : derivable_pt_lim (fun t => t) x 1.
Proof. apply derivable_pt_lim_id. Qed.
Lemma deriv_const c x : derivable_pt_lim (fun _ => c) x 0.
Proof. apply derivable_pt_lim_const. Qed.
Lemma deriv_eq f x l m : derivable_pt_lim f x l -> l = m -> derivable_pt_lim f x m.
Proof. by intros ? <-. Qed.
Lemma deriv_add f g x a b :
  derivable_pt_lim f x a -> derivable_pt_lim g x b -> derivable_pt_lim (fun t => f t + g t) x (a + b).
Proof. apply derivable_pt_lim_plus. Qed.
Lemma deriv_sub f g x a b :
  derivable_pt_lim f x a -> derivable_pt_lim g x b -> derivable_pt_lim (fun t => f t - g t) x (a - b).
Proof. apply derivable_pt_lim_minus. Qed.
Lemma deriv_mul f g x a b :
  derivable_pt_lim f x a -> derivable_pt_lim g x b -> derivable_pt_lim (fun t => f t * g t) x (a * g x + f x * b).
Proof. apply derivable_pt_lim_mult. Qed.
Lemma deriv_opp f x a : derivable_pt_lim f x a -> derivable_pt_lim (fun t => - f t) x (- a).
Proof. apply derivable_pt_lim_opp. Qed.
Lemma deriv_comp (f g : R -> R) x a b :
  derivable_pt_lim g x a -> derivable_pt_lim f (g x) b -> derivable_pt_lim (fun t => f (g t)) x (b * a).
Proof. apply derivable_pt_lim_comp. Qed.
Lemma deriv_inv f x a : derivable_pt_lim f x a -> f x <> 0 -> derivable_pt_lim (fun t => / f t) x (- a / (f x * f x)).
Proof.
  intros Hf Hx. eapply deriv_eq.
  - apply (derivable_pt_lim_ext (fun t => 1 / f t)); [intros; unfold Rdiv; ring|].
    apply (derivable_pt_lim_div (fun _ => 1) f x 0 a); [apply deriv_const|done|done].
  - unfold Rsqr. field. done.
Qed.
Lemma deriv_div f g x a b :
  derivable_pt_lim f x a -> derivable_pt_lim g x b -> g x <> 0 ->
  derivable_pt_lim (fun t => f t / g t) x (/ g x * a + (- f x / (g x * g x)) * b).
Proof.
  intros Hf Hg Hx. eapply deriv_eq; [apply (derivable_pt_lim_div f g x a b); done|]. unfold Rsqr. field. done.
Qed.

(** Where two differentiable functions differ, the larger one stays so nearby. *)
Lemma apart_near (f g : R -> R) x a b :
  derivable_pt_lim f x a -> derivable_pt_lim g x b -> f x < g x ->
  exists d, 0 < d /\ forall z, x - d < z < x + d -> f z < g z.
Proof.
  intros Hf Hg Hlt. assert (Hc : continuity_pt (fun t => g t - f t) x).
  { apply derivable_continuous_pt. exists (b - a). by apply deriv_sub. }
  destruct (Hc (g x - f x)) as (d & Hd & Hn); [lra|]. exists d. split; [done|]. intros z Hz.
  destruct (Req_EM_T z x) as [->|Hne]; [done|].
  assert (Hr : Rabs ((g z - f z) - (g x - f x)) < g x - f x).
  { apply (Hn z). split; [split; [exact I|congruence]|]. cbn. unfold Rdist. apply Rabs_def1; lra. }
  apply Rabs_def2 in Hr. lra.
Qed.

Lemma deriv_max f g x a b :
  derivable_pt_lim f x a -> derivable_pt_lim g x b -> f x <> g x ->
  derivable_pt_lim (fun t => Rmax (f t) (g t)) x (bool_R (Rltb (g x) (f x)) * a + bool_R (negb (Rltb (g x) (f x))) * b).
Proof.
  intros Hf Hg Hne. destruct (Rtotal_order (f x) (g x)) as [Hlt|[?|Hgt]]; [|done|].
  - destruct (apart_near f g x a b Hf Hg Hlt) as (d & Hd & Hn). rewrite Rltb_false by lra. cbn.
    apply (deriv_near g _ _ _ d Hd); [|by eapply deriv_eq; [exact Hg|ring]].
    intros z Hz%Hn. rewrite Rmax_right; lra.
  - destruct (apart_near g f x b a Hg Hf Hgt) as (d & Hd & Hn). rewrite Rltb_true by lra. cbn.
    apply (deriv_near f _ _ _ d Hd); [|by eapply deriv_eq; [exact Hf|ring]].
    intros z Hz%Hn. rewrite Rmax_left; lra.
Qed.

Lemma deriv_min f g x a b :
  derivable_pt_lim f x a -> derivable_pt_lim g x b -> f x <> g x ->
  derivable_pt_lim (fun t => Rmin (f t) (g t)) x (bool_R (Rltb (f x) (g x)) * a + bool_R (negb (Rltb (f x) (g x))) * b).
Proof.
  intros Hf Hg Hne. destruct (Rtotal_order (f x) (g x)) as [Hlt|[?|Hgt]]; [|done|].
  - destruct (apart_near f g x a b Hf Hg Hlt) as (d & Hd & Hn). rewrite Rltb_true by lra. cbn.
    apply (deriv_near f _ _ _ d Hd); [|by eapply deriv_eq; [exact Hf|ring]].
    intros z Hz%Hn. rewrite Rmin_left; lra.
  - destruct (apart_near g f x b a Hg Hf Hgt) as (d & Hd & Hn). rewrite Rltb_false by lra. cbn.
    apply (deriv_near g _ _ _ d Hd); [|by eapply deriv_eq; [exact Hg|ring]].
    intros z Hz%Hn. rewrite Rmin_right; lra.
Qed.

Lemma deriv_tanh x : derivable_pt_lim tanh x (1 - tanh x * tanh x).
Proof.
  assert (Hc : cosh x <> 0). { unfold cosh. pose proof (exp_pos x). pose proof (exp_pos (- x)). lra. }
  eapply deriv_eq; [apply (deriv_div sinh cosh x); [apply derivable_pt_lim_sinh|apply derivable_pt_lim_cosh|done]|].
  unfold tanh. field. done.
Qed.

Lemma deriv_sigmoid x :
  derivable_pt_lim (fun t => / (1 + exp (- t))) x (/ (1 + exp (- x)) * (1 - / (1 + exp (- x)))).
Proof.
  pose proof (exp_pos (- x)). eapply deriv_eq.
  - apply (deriv_inv (fun t => 1 + exp (- t))); [|lra].
    apply deriv_add; [apply deriv_const|]. apply (deriv_comp exp Ropp); [apply deriv_opp, deriv_id|apply derivable_pt_lim_exp].
  - field. lra.
Qed.

Lemma deriv_abs x : x <> 0 -> derivable_pt_lim Rabs x (if Rltb x 0 then -1 else 1).
Proof.
  intros Hx. destruct (Rlt_dec x 0) as [Hlt|Hge].
  - rewrite Rltb_true by done. by apply Rabs_derive_2.
  - rewrite Rltb_false by lra. apply Rabs_derive_1. lra.
Qed.

Lemma deriv_clamp lo hi x :
  lo < hi -> x <> lo -> x <> hi ->
  derivable_pt_lim (fun t => Rmin (Rmax t lo) hi) x (bool_R (Rltb lo x && Rltb x hi)).
Proof.
  intros Hlh Hlo Hhi.
  assert (Hm : Rmax x lo <> hi) by (unfold Rmax; destruct (Rle_dec x lo); lra).
  eapply deriv_eq.
  - apply (deriv_min (fun t => Rmax t lo) (fun _ => hi)); [|apply deriv_const|done].
    apply (deriv_max (fun t => t) (fun _ => lo)); [apply deriv_id|apply deriv_const|done].
  - destruct (Rlt_dec lo x) as [H1|H1].
    + rewrite (Rltb_true lo x), Rmax_left by lra. cbn. destruct (Rltb x hi); cbn; ring.
    + rewrite (Rltb_false lo x), Rmax_right by lra. rewrite (Rltb_true lo hi) by lra. cbn. ring.
Qed.

Lemma deriv_un o x : domU o x -> derivable_pt_lim (fwdU o) x (pdU o x).
Proof.
  destruct o; cbn [domU pdU]; intros Hd; unfold fwdU.
  - eapply deriv_eq; [apply deriv_add; [apply deriv_id|apply deriv_const]|ring].
  - eapply deriv_eq; [apply deriv_sub; [apply deriv_id|apply deriv_const]|ring].
  - eapply deriv_eq; [apply deriv_sub; [apply deriv_const|apply deriv_id]|ring].
  - eapply deriv_eq; [apply (deriv_mul (fun t => t) (fun _ => k)); [apply deriv_id|apply deriv_const]|ring].
  - eapply deriv_eq; [apply (deriv_mul (fun t => t) (fun _ => / k)); [apply deriv_id|apply deriv_const]|ring].
  - eapply deriv_eq; [apply (deriv_div (fun _ => k) (fun t => t)); [apply deriv_const|apply deriv_id|done]|ring].
  - eapply deriv_eq; [apply (deriv_max (fun t => t) (fun _ => k)); [apply deriv_id|apply deriv_const|done]|ring].
  - eapply deriv_eq; [apply (deriv_min (fun t => t) (fun _ => k)); [apply deriv_id|apply deriv_const|done]|ring].
  - apply deriv_opp, deriv_id.
  - eapply deriv_eq; [apply (deriv_inv (fun t => t)); [apply deriv_id|done]|field; done].
  - apply derivable_pt_lim_exp.
  - by apply derivable_pt_lim_ln.
  - eapply deriv_eq; [apply (deriv_comp ln (fun t => 1 + t)); [apply deriv_add; [apply deriv_const|apply deriv_id]|by apply derivable_pt_lim_ln]|ring].
  - by apply derivable_pt_lim_power.
  - apply derivable_pt_lim_sin.
  - apply derivable_pt_lim_cos.
  - apply deriv_tanh.
  - destruct Hd as (? & ? & ?). by apply deriv_clamp.
  - by apply derivable_pt_lim_sqrt.
  - apply deriv_sigmoid.
  - by apply deriv_abs.
Qed.

Lemma deriv_bin o f g x a b :
  derivable_pt_lim f x a -> derivable_pt_lim g x b -> domB o (f x) (g x) ->
  derivable_pt_lim (fun t => fwdB o (f t) (g t)) x (pdB0 o (f x) (g x) * a + pdB1 o (f x) (g x) * b).
Proof.
  intros Hf Hg. destruct o; cbn [domB pdB0 pdB1 fwdB]; intros Hd.
  - eapply deriv_eq; [by apply deriv_add|ring].
  - eapply deriv_eq; [by apply deriv_sub|ring].
  - eapply deriv_eq; [by apply deriv_mul|ring].
  - by apply deriv_div.
  - by apply deriv_max.
  - by apply deriv_min.
Qed.

(** The mask of the gradient of [clamp]. *)
Lemma clamp_mask lo hi x :
  lo < hi ->
  negb (bool_decide (bool_R (Rltb lo (Rmin (Rmax x lo) hi)) = 0)) && negb (bool_decide (bool_R (Rltb (Rmin (Rmax x lo) hi) hi) = 0))
  = Rltb lo x && Rltb x hi.
Proof.
  assert (Hb : forall b, negb (bool_decide (bool_R b = 0)) = b).
  { intros []; cbn; [rewrite bool_decide_false by lra|rewrite bool_decide_true by done]; done. }
  intros Hlh. rewrite !Hb. unfold Rltb, Rmin, Rmax. destruct (Rle_dec x lo); repeat case_match; repeat case_bool_decide; (done || lra).
Qed.
