(* ===== verification/Numeric.v ===== *)
(** Scalars and buffers of the sequence criteria (lib/sequence/criterion).

    The criteria are templates over the scalar type; the operations they use are
    the class [Num], so that one definition covers every scalar type.  Two
    instances are given: IEEE binary64 without the elementary functions is in
    ViterbiPath.v; [xreal] here is exact real arithmetic with the special values
    of IEEE 754, against which sums over alignments are stated.

    A buffer is a pointer into memory: a function from indices to values, of
    which the code writes some.  What a buffer holds before it is written is
    arbitrary, so a theorem that holds for every initial buffer shows that no
    uninitialised cell is used. *)
From Stdlib Require Import Reals Lra.
From S2P Require Import Prelude.

Open Scope Z_scope.

Class Num (F : Type) := {
  n_zero : F;
  n_one : F;
  n_ninf : F;
  n_add : F -> F -> F;
  n_sub : F -> F -> F;
  n_mul : F -> F -> F;
  n_div : F -> F -> F;
  n_lt : F -> F -> bool;
  n_isnan : F -> bool;
  n_of : Z -> F;
}.

Class Elementary (F : Type) := {
  n_exp : F -> F;
  n_log : F -> F;
  n_log1p : F -> F;
  n_sqrt : F -> F;
}.

Declare Scope num_scope.
Delimit Scope num_scope with num.
Infix "+" := n_add : num_scope.
Infix "-" := n_sub : num_scope.
Infix "*" := n_mul : num_scope.
Infix "/" := n_div : num_scope.
Notation "a <? b" := (n_lt a b) : num_scope.
Notation "a >? b" := (n_lt b a) : num_scope.

(** [fmax(a, b)]: the larger, and the other one when one is NaN. *)
Definition n_fmax {F} `{Num F} (a b : F) : F :=
  if n_isnan a then b else if n_isnan b then a else if n_lt a b then b else a.

(** * Buffers *)

Definition buf (A : Type) : Type := Z -> A.

(** [a[i] = x] *)
Definition bset {A} (i : Z) (x : A) (a : buf A) : buf A := fun j => if j =? i then x else a j.

(** [p = &a[o]] *)
Definition at_offset {A} (o : Z) (a : buf A) : buf A := fun i => a (o + i).

Lemma bset_eq {A} i (x : A) a : bset i x a i = x.
Proof. unfold bset. by rewrite Z.eqb_refl. Qed.

Lemma bset_ne {A} i j (x : A) a : j <> i -> bset i x a j = a j.
Proof. unfold bset. by intros ->%Z.eqb_neq. Qed.

(** [for (i = lo; i < hi; ++i) s = body(i, s)] and the same downwards from
    [hi - 1]. *)
Definition for_up {S} (lo hi : Z) (body : Z -> S -> S) (s : S) : S := fold_left (fun s i => body i s) (zrange lo hi) s.
Definition for_down {S} (lo hi : Z) (body : Z -> S -> S) (s : S) : S :=
  fold_left (fun s i => body i s) (reverse (zrange lo hi)) s.

(** Invariant rule of the counting loop. *)
Lemma for_up_ind {S} (I : Z -> S -> Prop) lo hi body s :
  lo <= hi -> I lo s -> (forall i s, lo <= i < hi -> I i s -> I (i + 1) (body i s)) -> I hi (for_up lo hi body s).
Proof.
  intros Hle H0 Hs. unfold for_up. remember (Z.to_nat (hi - lo)) as n eqn:En. revert lo s En Hle H0 Hs.
  induction n as [|n IH]; intros lo s En Hle H0 Hs.
  - assert (lo = hi) as -> by lia. by rewrite zrange_nil.
  - rewrite zrange_cons by lia. cbn. apply (IH (lo + 1)); [lia|lia|apply Hs; [lia|done]|]. intros i s' Hi. apply Hs. lia.
Qed.

Lemma for_up_snoc {S} lo hi (body : Z -> S -> S) s : lo <= hi -> for_up lo (hi + 1) body s = body hi (for_up lo hi body s).
Proof. intros Hle. unfold for_up. rewrite zrange_snoc, fold_left_app by done. done. Qed.

Lemma for_down_ind {S} (I : Z -> S -> Prop) lo hi body s :
  lo <= hi -> I hi s -> (forall i s, lo <= i < hi -> I (i + 1) s -> I i (body i s)) -> I lo (for_down lo hi body s).
Proof.
  intros Hle H0 Hs. unfold for_down. remember (Z.to_nat (hi - lo)) as n eqn:En. revert hi s En Hle H0 Hs.
  induction n as [|n IH]; intros hi s En Hle H0 Hs.
  - assert (lo = hi) as -> by lia. by rewrite zrange_nil.
  - replace hi with (hi - 1 + 1) in * by lia. rewrite zrange_snoc, reverse_app by lia. cbn.
    apply (IH (hi - 1)); [lia|lia|apply Hs; [lia|done]|]. intros i s' Hi. apply Hs. lia.
Qed.

(** Loops that store one cell per iteration. *)
Lemma for_up_fill {A} (f : Z -> A) (o lo hi : Z) (a : buf A) j :
  for_up lo hi (fun i => bset (o + i) (f i)) a j = if (o + lo <=? j) && (j <? o + hi) then f (j - o) else a j.
Proof.
  destruct (Z.le_ge_cases lo hi) as [Hle|Hge].
  - apply (for_up_ind (fun k a' => a' j = if (o + lo <=? j) && (j <? o + k) then f (j - o) else a j)); [done| |].
    + destruct (Z.leb_spec (o + lo) j), (Z.ltb_spec j (o + lo)); done || lia.
    + intros i s Hi IH. unfold bset. destruct (Z.eqb_spec j (o + i)) as [->|].
      * destruct (Z.leb_spec (o + lo) (o + i)), (Z.ltb_spec (o + i) (o + (i + 1))); try lia. cbn. f_equal. lia.
      * rewrite IH. destruct (Z.leb_spec (o + lo) j), (Z.ltb_spec j (o + i)), (Z.ltb_spec j (o + (i + 1))); done || lia.
  - unfold for_up. rewrite zrange_nil by lia. cbn.
    destruct (Z.leb_spec (o + lo) j), (Z.ltb_spec j (o + hi)); done || lia.
Qed.

(** * Exact reals with the special values of IEEE 754 *)

Open Scope R_scope.

Inductive xreal := Fin (r : R) | PInf | NInf | NaN.

Definition Rltb (x y : R) : bool := if Rlt_dec x y then true else false.
Definition Reqb (x y : R) : bool := if Req_EM_T x y then true else false.

Definition x_opp (x : xreal) : xreal :=
  match x with Fin a => Fin (- a) | PInf => NInf | NInf => PInf | NaN => NaN end.

Definition x_add (x y : xreal) : xreal :=
  match x, y with
  | Fin a, Fin b => Fin (a + b)
  | NaN, _ | _, NaN => NaN
  | PInf, NInf | NInf, PInf => NaN
  | PInf, _ | _, PInf => PInf
  | NInf, _ | _, NInf => NInf
  end.

(** An infinity with the sign of a non-zero real. *)
Definition x_inf (a : R) : xreal := if Rltb 0 a then PInf else if Rltb a 0 then NInf else NaN.

Definition x_mul (x y : xreal) : xreal :=
  match x, y with
  | Fin a, Fin b => Fin (a * b)
  | NaN, _ | _, NaN => NaN
  | Fin a, PInf | PInf, Fin a => x_inf a
  | Fin a, NInf | NInf, Fin a => x_inf (- a)
  | PInf, PInf | NInf, NInf => PInf
  | PInf, NInf | NInf, PInf => NInf
  end.

(** Division; a zero divisor counts as positive. *)
Definition x_div (x y : xreal) : xreal :=
  match x, y with
  | Fin a, Fin b => if Reqb b 0 then x_inf a else Fin (a / b)
  | NaN, _ | _, NaN => NaN
  | Fin _, _ => Fin 0
  | PInf, Fin b => if Rltb b 0 then NInf else PInf
  | NInf, Fin b => if Rltb b 0 then PInf else NInf
  | _, _ => NaN
  end.

Definition x_lt (x y : xreal) : bool :=
  match x, y with
  | Fin a, Fin b => Rltb a b
  | NaN, _ | _, NaN => false
  | NInf, NInf | PInf, _ => false
  | NInf, _ | _, PInf => true
  | _, NInf => false
  end.

Definition x_exp (x : xreal) : xreal := match x with Fin a => Fin (exp a) | NInf => Fin 0 | x => x end.
Definition x_log (x : xreal) : xreal :=
  match x with
  | Fin a => if Rltb 0 a then Fin (ln a) else if Reqb a 0 then NInf else NaN
  | NInf => NaN
  | x => x
  end.
Definition x_sqrt (x : xreal) : xreal := match x with Fin a => if Rltb a 0 then NaN else Fin (sqrt a) | NInf => NaN | x => x end.

#[export] Instance xreal_num : Num xreal := {
  n_zero := Fin 0; n_one := Fin 1; n_ninf := NInf;
  n_add := x_add; n_sub x y := x_add x (x_opp y); n_mul := x_mul; n_div := x_div;
  n_lt := x_lt; n_isnan x := match x with NaN => true | _ => false end; n_of z := Fin (IZR z);
}.
#[export] Instance xreal_elementary : Elementary xreal := {
  n_exp := x_exp; n_log := x_log; n_log1p x := x_log (x_add (Fin 1) x); n_sqrt := x_sqrt;
}.

Lemma Rlt_bool_true x y : Rltb x y = true <-> x < y.
Proof. unfold Rltb. destruct (Rlt_dec x y); split; done || lra. Qed.
Lemma Rlt_bool_false x y : Rltb x y = false <-> y <= x.
Proof. unfold Rltb. destruct (Rlt_dec x y); split; done || lra. Qed.

Lemma x_log_pos a : 0 < a -> x_log (Fin a) = Fin (ln a).
Proof. intros H. cbn. by rewrite (proj2 (Rlt_bool_true 0 a)). Qed.
