(* ===== verification/ViterbiPath.v ===== *)
(** The Viterbi decoder of fully connected transitions
    (lib/sequence/criterion/cpu/ViterbiPath.cpp).

    [compute] runs over every batch entry with the two-row buffer [alpha], the
    back pointers [beta] and the output [path], all indexed as in the source.
    The path it stores is valid, and no valid path scores higher, where scores are
    summed in the order of the code; this needs only that addition is monotone,
    so it holds for rounded arithmetic too. *)
From Stdlib Require Import Floats.SpecFloat.
From S2P Require Import Prelude Float FloatRound Numeric.

Open Scope Z_scope.

Section Compute.
Context {F : Type} `{Num F}.
Context (T N : Z) (input trans : buf F).

Record viterbi := MkViterbi { v_alpha : buf F; v_beta : buf Z; v_path : buf Z }.

(** The loop over [n]: the first index of the largest value. *)
Definition bestPrev (t m : Z) (alphaPrev : buf F) : Z * F :=
  for_up 0 N (fun n best =>
    let val := (alphaPrev n + (if t =? T then n_zero else trans (m * N + n)%Z))%num in
    if (val >? best.2)%num then (n, val) else best) (-1, n_ninf).

(** [path[T - 1] = maxIndex] and the walk along the back pointers. *)
Definition backtrace (b maxIndex : Z) (beta path : buf Z) : buf Z :=
  for_down 1 T (fun s path => bset (b * T + s - 1) (beta (b * T * N + s * N + path (b * T + s))) path)
    (bset (b * T + T - 1) maxIndex path).

(** The loop over [m], left by [break] in the last step. *)
Fixpoint labelLoop (b t : Z) (ms : list Z) (w : viterbi) : viterbi :=
  match ms with
  | [] => w
  | m :: ms =>
      let alphaPrev := at_offset (b * 2 * N + ((t - 1) mod 2) * N) (v_alpha w) in
      let '(maxIndex, maxValue) := bestPrev t m alphaPrev in
      if t =? T then MkViterbi (v_alpha w) (v_beta w) (backtrace b maxIndex (v_beta w) (v_path w))
      else
        labelLoop b t ms
          (MkViterbi (bset (b * 2 * N + (t mod 2) * N + m) (maxValue + input (b * T * N + t * N + m)%Z)%num (v_alpha w))
             (bset (b * T * N + t * N + m) maxIndex (v_beta w)) (v_path w))
  end.

Definition computeBatch (b : Z) (w : viterbi) : viterbi :=
  let alpha := for_up 0 N (fun n => bset (b * 2 * N + n) (input (b * T * N + n))) (v_alpha w) in
  for_up 1 (T + 1) (fun t => labelLoop b t (zrange 0 N)) (MkViterbi alpha (v_beta w) (v_path w)).

Definition compute (B : Z) (w : viterbi) : viterbi := for_up 0 B computeBatch w.
End Compute.
Arguments viterbi : clear implicits.

(** * Scores of paths *)

(** The order and the sums the search relies on: [n_lt] ranks the ordinary
    values, which are above minus infinity, and addition is monotone. *)
Class MaxPlus (F : Type) `{Num F} := {
  fin : F -> Prop;
  mp_irrefl x : fin x -> n_lt x x = false;
  mp_trans x y z : fin x -> fin y -> fin z -> n_lt y x = false -> n_lt z y = false -> n_lt z x = false;
  mp_asym x y : fin x -> fin y -> n_lt x y = true -> n_lt y x = false;
  mp_ninf x : fin x -> n_lt n_ninf x = true;
  mp_add x y z : fin x -> fin y -> fin z -> fin (n_add x z) -> fin (n_add y z) ->
    n_lt y x = false -> n_lt (n_add y z) (n_add x z) = false;
  mp_comm x y : fin x -> fin y -> n_add x y = n_add y x;
  mp_ninf_add x : fin x -> n_add n_ninf x = n_ninf;
  mp_ninf_min x : n_lt x n_ninf = false;
  mp_nan x : fin x -> n_isnan x = false;
  mp_zero x : fin x -> fin (n_add x n_zero);
  mp_zero_lt x y : fin x -> fin y -> n_lt (n_add x n_zero) (n_add y n_zero) = n_lt x y;
}.

Section Paths.
Context {F : Type} `{MaxPlus F}.
Context (T N : Z) (input trans : buf F) (b : Z).

(** The score of the first [t + 1] labels of a path, summed like [alpha]. *)
Fixpoint pathScore (q : buf Z) (t : nat) : F :=
  match t with
  | O => input (b * T * N + q 0)
  | S t' => let t := Z.of_nat t in
            (pathScore q t' + trans (q t * N + q (t - 1))%Z + input (b * T * N + t * N + q t)%Z)%num
  end.

Definition validPath (q : buf Z) : Prop := forall t, 0 <= t < T -> 0 <= q t < N.

(** The scores the search reads are ordinary values, *)
Definition finiteInputs : Prop :=
  (forall t m, 0 <= t < T -> 0 <= m < N -> fin (input (b * T * N + t * N + m)))
  /\ (forall m n, 0 <= m < N -> 0 <= n < N -> fin (trans (m * N + n))).

(** and so is every partial sum it forms. *)
Definition finiteScores : Prop := forall q (t : nat), validPath q -> Z.of_nat t < T ->
  fin (pathScore q t)
  /\ (Z.of_nat t + 1 < T -> forall m, 0 <= m < N -> fin (pathScore q t + trans (m * N + q (Z.of_nat t))%Z)%num).

(** * The loops *)

Hypothesis HN : 0 < N.
Hypothesis HT : 0 < T.

(** The maximum loop over ordinary values finds an index of a largest one. *)
Lemma argmax_spec (f : Z -> F) :
  (forall n, 0 <= n < N -> fin (f n)) ->
  exists i, for_up 0 N (fun n best => if (f n >? best.2)%num then (n, f n) else best) (-1, n_ninf) = (i, f i)
    /\ 0 <= i < N /\ forall n, 0 <= n < N -> n_lt (f i) (f n) = false.
Proof.
  intros Hf.
  cut (0 < N /\ exists i, for_up 0 N (fun n best => if (f n >? best.2)%num then (n, f n) else best) (-1, n_ninf) = (i, f i)
    /\ 0 <= i < N /\ forall n, 0 <= n < N -> n_lt (f i) (f n) = false); [tauto|].
  set (I := fun k (best : Z * F) => (k = 0 /\ best = (-1, n_ninf)) \/ (0 < k /\ exists i, best = (i, f i) /\ 0 <= i < k
    /\ forall n, 0 <= n < k -> n_lt (f i) (f n) = false)).
  destruct (for_up_ind I 0 N (fun n best => if (f n >? best.2)%num then (n, f n) else best) (-1, n_ninf)) as [[? _]|?];
    [lia|by left| |lia|done].
  intros k best Hk [[-> ->]|(_ & i & -> & Hi & IH)]; right; (split; [lia|]); cbn [snd].
  - rewrite mp_ninf by (apply Hf; lia). exists 0. split_and!; [done|lia|lia|]. intros n Hn.
    replace n with 0 by lia. apply mp_irrefl, Hf. lia.
  - destruct (n_lt (f i) (f k)) eqn:E.
    + exists k. split_and!; [done|lia|lia|]. intros n Hn.
      destruct (Z.eq_dec n k) as [->|]; [apply mp_irrefl, Hf; lia|].
      apply (mp_trans (f n) (f i) (f k)); [apply Hf; lia..|apply IH; lia|apply mp_asym; [apply Hf; lia..|done]].
    + exists i. split_and!; [done|lia|lia|]. intros n Hn. destruct (Z.eq_dec n k) as [->|]; [done|apply IH; lia].
Qed.

Lemma bestPrev_spec t m a :
  (forall n, 0 <= n < N -> fin (a n + (if t =? T then n_zero else trans (m * N + n)%Z))%num) ->
  let '(i, v) := bestPrev T N trans t m a in
  v = (a i + (if t =? T then n_zero else trans (m * N + i)%Z))%num /\ 0 <= i < N
  /\ forall n, 0 <= n < N -> n_lt v (a n + (if t =? T then n_zero else trans (m * N + n)%Z))%num = false.
Proof. intros Hf. destruct (argmax_spec _ Hf) as (i & E & Hi & Hm). unfold bestPrev. by rewrite E. Qed.

Lemma bestPrev_ext t m a a' :
  (forall n, 0 <= n < N -> a n = a' n) -> bestPrev T N trans t m a = bestPrev T N trans t m a'.
Proof. intros E. apply fold_left_ext_in. intros [i v] n Hn%elem_of_zrange. by rewrite E. Qed.

(** The loop over labels before the last step fills row [t] from row [t - 1]. *)
Lemma labelLoop_spec t w :
  1 <= t < T ->
  let w' := labelLoop T N input trans b t (zrange 0 N) w in
  let best m := bestPrev T N trans t m (at_offset (b * 2 * N + ((t - 1) mod 2) * N) (v_alpha w)) in
  (forall m, 0 <= m < N ->
     v_alpha w' (b * 2 * N + (t mod 2) * N + m) = ((best m).2 + input (b * T * N + t * N + m)%Z)%num
     /\ v_beta w' (b * T * N + t * N + m) = (best m).1)
  /\ (forall j, ~ (b * T * N + t * N <= j < b * T * N + t * N + N) -> v_beta w' j = v_beta w j)
  /\ v_path w' = v_path w.
Proof.
  intros Ht. cbv zeta.
  set (best m := bestPrev T N trans t m (at_offset (b * 2 * N + ((t - 1) mod 2) * N) (v_alpha w))).
  assert (Hr : t mod 2 = 0 /\ (t - 1) mod 2 = 1 \/ t mod 2 = 1 /\ (t - 1) mod 2 = 0) by (Z.to_euclidean_division_equations; lia).
  set (P k w' := (forall j, ~ (b * 2 * N + (t mod 2) * N <= j < b * 2 * N + (t mod 2) * N + k) -> v_alpha w' j = v_alpha w j)
    /\ (forall m, 0 <= m < k -> v_alpha w' (b * 2 * N + (t mod 2) * N + m) = ((best m).2 + input (b * T * N + t * N + m)%Z)%num
          /\ v_beta w' (b * T * N + t * N + m) = (best m).1)
    /\ (forall j, ~ (b * T * N + t * N <= j < b * T * N + t * N + k) -> v_beta w' j = v_beta w j)
    /\ v_path w' = v_path w).
  cut (forall k w', 0 <= k <= N -> P k w' -> P N (labelLoop T N input trans b t (zrange k N) w')).
  { intros Hc. destruct (Hc 0 w) as (_ & ? & ? & ?); [lia| |done]. split_and!; [done| |done|done]. lia. }
  intros k w' Hk. remember (Z.to_nat (N - k)) as n eqn:En. revert k w' Hk En.
  induction n as [|n IH]; intros k w' Hk En (P1 & P2 & P3 & P4).
  - assert (k = N) as -> by lia. by rewrite zrange_nil.
  - rewrite zrange_cons by lia. cbn [labelLoop].
    rewrite (bestPrev_ext t k _ (at_offset (b * 2 * N + ((t - 1) mod 2) * N) (v_alpha w))).
    2: { intros n' Hn'. unfold at_offset. apply P1. destruct Hr as [[-> ->]|[-> ->]]; lia. }
    fold (best k). destruct (best k) as [i v] eqn:Eb. rewrite (proj2 (Z.eqb_neq t T)) by lia.
    apply IH; [lia|lia|]. split_and!; cbn [v_alpha v_beta v_path]; [| | |done].
    + intros j Hj. rewrite bset_ne by lia. apply P1. lia.
    + intros m Hm. destruct (Z.eq_dec m k) as [->|]; [by rewrite !bset_eq, Eb|].
      rewrite !bset_ne by lia. apply P2. lia.
    + intros j Hj. rewrite bset_ne by lia. apply P3. lia.
Qed.
(** * Following the back pointers *)

(** The label [k] steps before label [m] at time [t]. *)
Fixpoint follow (beta : buf Z) (t m : Z) (k : nat) : Z :=
  match k with O => m | S k' => beta (b * T * N + (t - Z.of_nat k') * N + follow beta t m k') end.

(** The path that ends in [m] at time [t], continued by zeros. *)
Definition traced (beta : buf Z) (t m : Z) : buf Z := fun s => if s <=? t then follow beta t m (Z.to_nat (t - s)) else 0.

Lemma follow_S beta t m k :
  follow beta t m (S k) = follow beta (t - 1) (beta (b * T * N + t * N + m)) k.
Proof.
  induction k as [|k IH].
  - cbn. by rewrite Z.sub_0_r.
  - change (follow beta t m (S (S k))) with (beta (b * T * N + (t - Z.of_nat (S k)) * N + follow beta t m (S k))).
    rewrite IH. cbn [follow]. do 3 f_equal. lia.
Qed.

Lemma traced_end beta t m : traced beta t m t = m.
Proof. unfold traced. by rewrite Z.leb_refl, Z.sub_diag. Qed.

Lemma traced_step beta t m s : s < t ->
  traced beta t m s = traced beta (t - 1) (beta (b * T * N + t * N + m)) s.
Proof.
  intros Hs. unfold traced. rewrite (proj2 (Z.leb_le s t)), (proj2 (Z.leb_le s (t - 1))) by lia.
  replace (Z.to_nat (t - s)) with (S (Z.to_nat (t - 1 - s))) by lia. apply follow_S.
Qed.

Lemma pathScore_ext q q' (t : nat) :
  (forall s, 0 <= s <= Z.of_nat t -> q s = q' s) -> pathScore q t = pathScore q' t.
Proof.
  induction t as [|t IH]; intros E; cbn [pathScore]; [by rewrite E by lia|].
  rewrite IH by (intros; apply E; lia). by rewrite !E by lia.
Qed.

Lemma pathScore_step q t :
  1 <= t -> pathScore q (Z.to_nat t) =
  (pathScore q (Z.to_nat (t - 1)) + trans (q t * N + q (t - 1))%Z + input (b * T * N + t * N + q t)%Z)%num.
Proof.
  intros Ht. replace (Z.to_nat t) with (S (Z.to_nat (t - 1))) by lia. cbn [pathScore].
  by replace (Z.of_nat (S (Z.to_nat (t - 1)))) with t by lia.
Qed.

(** After step [t], row [t] holds for every label the best score of a path that
    ends there, and the back pointers lead along such a path. *)
Definition settled (t : Z) (w : viterbi F) : Prop := forall m, 0 <= m < N ->
  validPath (traced (v_beta w) t m)
  /\ v_alpha w (b * 2 * N + (t mod 2) * N + m) = pathScore (traced (v_beta w) t m) (Z.to_nat t)
  /\ forall q, validPath q -> q t = m ->
       n_lt (v_alpha w (b * 2 * N + (t mod 2) * N + m)) (pathScore q (Z.to_nat t)) = false.

Hypothesis Hin : finiteInputs.
Hypothesis Hfin : finiteScores.

Lemma settled_fin t w m : 0 <= t < T -> settled t w -> 0 <= m < N ->
  fin (v_alpha w (b * 2 * N + (t mod 2) * N + m))
  /\ (t + 1 < T -> forall m', 0 <= m' < N -> fin (v_alpha w (b * 2 * N + (t mod 2) * N + m)%Z + trans (m' * N + m)%Z)%num).
Proof.
  intros Ht Hs Hm. destruct (Hs m Hm) as (V & -> & _).
  destruct (Hfin _ (Z.to_nat t) V ltac:(lia)) as [F1 F2]. split; [done|]. intros Ht' m' Hm'.
  specialize (F2 ltac:(lia) m' Hm'). rewrite Z2Nat.id, traced_end in F2 by lia. done.
Qed.

Lemma settled_init w :
  settled 0 (MkViterbi (for_up 0 N (fun n => bset (b * 2 * N + n) (input (b * T * N + n))) (v_alpha w)) (v_beta w) (v_path w)).
Proof.
  intros m Hm. cbn [v_alpha v_beta].
  assert (V : validPath (traced (v_beta w) 0 m)).
  { intros t Ht. unfold traced. destruct (Z.leb_spec t 0); [|lia]. by replace t with 0 by lia. }
  assert (E : for_up 0 N (fun n => bset (b * 2 * N + n) (input (b * T * N + n))) (v_alpha w) (b * 2 * N + 0 mod 2 * N + m)
    = input (b * T * N + m)).
  { rewrite for_up_fill. change (0 mod 2) with 0. rewrite (proj2 (Z.leb_le _ _)), (proj2 (Z.ltb_lt _ _)) by lia. cbn.
    do 2 f_equal. lia. }
  rewrite E. change (Z.to_nat 0) with O. cbn [pathScore]. split_and!; [done|by rewrite traced_end|]. intros q Vq Eq.
  rewrite Eq. destruct (Hfin _ 0%nat V ltac:(lia)) as [F1 _]. cbn [pathScore] in F1. rewrite traced_end in F1. by apply mp_irrefl.
Qed.

Lemma traced_agree beta beta' t m :
  0 <= t < T -> validPath (traced beta t m) -> (forall j, j < b * T * N + (t + 1) * N -> beta' j = beta j) ->
  forall s, 0 <= s <= t -> traced beta' t m s = traced beta t m s.
Proof.
  intros Ht V E.
  cut (forall k, Z.of_nat k <= t -> follow beta' t m k = follow beta t m k).
  { intros Hc s Hs. unfold traced. rewrite (proj2 (Z.leb_le s t)) by lia. apply Hc. lia. }
  induction k as [|k IH]; intros Hk; [done|]. cbn [follow]. rewrite IH by lia. apply E.
  assert (Hv : 0 <= follow beta t m k < N).
  { specialize (V (t - Z.of_nat k) ltac:(lia)). unfold traced in V. rewrite (proj2 (Z.leb_le _ _)) in V by lia.
    by replace (Z.to_nat (t - (t - Z.of_nat k))) with k in V by lia. }
  nia.
Qed.

Lemma settled_step t w : 1 <= t < T -> settled (t - 1) w -> settled t (labelLoop T N input trans b t (zrange 0 N) w).
Proof.
  intros Ht Hs. destruct (labelLoop_spec t w Ht) as (Hrow & Hbeta & _).
  set (w' := labelLoop T N input trans b t (zrange 0 N) w) in *. intros m Hm.
  destruct (Hrow m Hm) as [Ea Eb]. clear Hrow.
  pose proof (bestPrev_spec t m (at_offset (b * 2 * N + (t - 1) mod 2 * N) (v_alpha w))) as Hbest.
  destruct (bestPrev _ _ _ _ _ _) as [i v]. cbn [fst snd] in *. rewrite (proj2 (Z.eqb_neq t T)) in Hbest by lia.
  unfold at_offset in Hbest. destruct Hbest as (-> & Hi & Hmax).
  { intros n Hn. apply (settled_fin (t - 1)); [lia|done|done|lia|done]. }
  destruct (Hs i Hi) as (Vi & Ei & _).
  assert (Htr : forall s, 0 <= s <= t - 1 -> traced (v_beta w') t m s = traced (v_beta w) (t - 1) i s).
  { intros s Hs'. rewrite traced_step, Eb by lia. apply (traced_agree (v_beta w)); [lia|done| |done].
    intros j Hj. apply Hbeta. lia. }
  assert (V : validPath (traced (v_beta w') t m)).
  { intros s Hs'. destruct (Z.le_gt_cases s (t - 1)); [rewrite Htr by lia; by apply Vi|].
    destruct (Z.eq_dec s t) as [->|]; [by rewrite traced_end|]. unfold traced. rewrite (proj2 (Z.leb_gt s t)) by lia. lia. }
  assert (Es : v_alpha w' (b * 2 * N + t mod 2 * N + m) = pathScore (traced (v_beta w') t m) (Z.to_nat t)).
  { rewrite Ea, Ei, (pathScore_step _ t), traced_end, Htr, traced_end by lia. do 2 f_equal. apply pathScore_ext.
    intros s Hs'. symmetry. apply Htr. lia. }
  split_and!; [done|done|]. intros q Vq Eq. specialize (Vq (t - 1) ltac:(lia)) as Hq.
  destruct (Hs (q (t - 1)) Hq) as (V' & E' & Hopt). specialize (Hopt q Vq eq_refl).
  destruct (Hfin q (Z.to_nat (t - 1)) Vq ltac:(lia)) as [F1 F2]. specialize (F2 ltac:(lia) m Hm). rewrite Z2Nat.id in F2 by lia.
  destruct (settled_fin (t - 1) w (q (t - 1)) ltac:(lia) Hs Hq) as [G1 G2]. specialize (G2 ltac:(lia) m Hm).
  destruct (settled_fin (t - 1) w i ltac:(lia) Hs Hi) as [K1 K2]. specialize (K2 ltac:(lia) m Hm).
  destruct (Hfin q (Z.to_nat t) Vq ltac:(lia)) as [L1 _]. rewrite pathScore_step, Eq in L1 by lia.
  destruct (Hfin _ (Z.to_nat t) V ltac:(lia)) as [M1 _]. rewrite <- Es, Ea in M1.
  rewrite Ea, pathScore_step, Eq by lia. destruct Hin as [Hin1 Hin2]. apply mp_add; try done; [by apply Hin1; lia|].
  eapply mp_trans; [exact F2|exact G2|exact K2| |by apply Hmax]. apply mp_add; try done. by apply Hin2.
Qed.
Lemma backtrace_spec i beta path :
  (forall s, 0 <= s < T -> backtrace T N b i beta path (b * T + s) = traced beta (T - 1) i s)
  /\ forall j, ~ (b * T <= j < b * T + T) -> backtrace T N b i beta path j = path j.
Proof.
  set (I k (p : buf Z) := (forall s, k - 1 <= s < T -> p (b * T + s) = traced beta (T - 1) i s)
    /\ forall j, ~ (b * T <= j < b * T + T) -> p j = path j).
  destruct (for_down_ind I 1 T (fun s path => bset (b * T + s - 1) (beta (b * T * N + s * N + path (b * T + s))) path)
    (bset (b * T + T - 1) i path)) as [I1 I2]; [lia| | |by split; [intros s Hs; apply I1; lia|]].
  - split.
    + intros s Hs. replace s with (T - 1) by lia. by rewrite traced_end, Z.add_sub_assoc, bset_eq.
    + intros j Hj. rewrite bset_ne by lia. done.
  - intros k p Hk [I1 I2]. split.
    + intros s Hs. destruct (Z.eq_dec s (k - 1)) as [->|]; [|rewrite bset_ne by lia; apply I1; lia].
      rewrite Z.add_sub_assoc, bset_eq, I1 by lia. unfold traced. rewrite !(proj2 (Z.leb_le _ _)) by lia.
      replace (Z.to_nat (T - 1 - (k - 1))) with (S (Z.to_nat (T - 1 - k))) by lia. cbn [follow].
      by replace (T - 1 - Z.of_nat (Z.to_nat (T - 1 - k))) with k by lia.
    + intros j Hj. rewrite bset_ne by lia. by apply I2.
Qed.

(** One batch entry, from any state of the buffers. *)
Lemma computeBatch_spec w :
  let p := v_path (computeBatch T N input trans b w) in
  validPath (at_offset (b * T) p)
  /\ (forall q, validPath q -> n_lt (pathScore (at_offset (b * T) p) (Z.to_nat (T - 1))) (pathScore q (Z.to_nat (T - 1))) = false)
  /\ (forall j, ~ (b * T <= j < b * T + T) -> p j = v_path w j).
Proof.
  cbv zeta. unfold computeBatch. rewrite for_up_snoc by lia. set (w0 := MkViterbi _ _ _).
  assert (Hs : settled (T - 1) (for_up 1 T (fun t => labelLoop T N input trans b t (zrange 0 N)) w0)
    /\ v_path (for_up 1 T (fun t => labelLoop T N input trans b t (zrange 0 N)) w0) = v_path w).
  { apply (for_up_ind (fun t w' => settled (t - 1) w' /\ v_path w' = v_path w) 1 T); [lia|split; [apply settled_init|done]|].
    intros t w' Ht [Hw Hp]. replace (t + 1 - 1) with t by lia. split; [by apply settled_step|].
    destruct (labelLoop_spec t w' Ht) as (_ & _ & Ep). cbv zeta in Ep. by rewrite Ep. }
  destruct Hs as [Hs Hp]. set (w1 := for_up 1 T _ w0) in *. rewrite zrange_cons by lia. cbn [labelLoop].
  pose proof (bestPrev_spec T 0 (at_offset (b * 2 * N + (T - 1) mod 2 * N) (v_alpha w1))) as Hb.
  destruct (bestPrev _ _ _ _ _ _) as [i v]. rewrite Z.eqb_refl in *. cbn [v_path]. unfold at_offset in Hb.
  destruct Hb as (-> & Hi & Hmax). { intros n Hn. apply mp_zero. apply (settled_fin (T - 1)); [lia|done|done]. }
  destruct (backtrace_spec i (v_beta w1) (v_path w1)) as [E1 E2].
  destruct (Hs i Hi) as (V & Es & _).
  assert (Vp : validPath (at_offset (b * T) (backtrace T N b i (v_beta w1) (v_path w1)))).
  { intros t Ht. unfold at_offset. rewrite E1 by done. by apply V. }
  split_and!; [done| |intros j Hj; by rewrite E2, Hp].
  intros q Vq. rewrite (pathScore_ext _ (traced (v_beta w1) (T - 1) i)), <- Es by (intros s Hs'; apply E1; lia).
  specialize (Vq (T - 1) ltac:(lia)) as Hq. destruct (Hs _ Hq) as (V' & _ & Hopt).
  destruct (settled_fin (T - 1) w1 _ ltac:(lia) Hs Hq) as [G1 _]. destruct (settled_fin (T - 1) w1 _ ltac:(lia) Hs Hi) as [G2 _].
  eapply mp_trans; [apply (Hfin q); [done|lia]|exact G1|exact G2|by apply Hopt|].
  rewrite <- (mp_zero_lt _ _ G2 G1). by apply Hmax.
Qed.
End Paths.

(** C14. The Viterbi path of every batch entry is a valid path, and no valid
    path has a larger score; scores are summed frame by frame in the order of
    the code. The buffers may hold anything when the computation starts. *)
Theorem compute_viterbi {F : Type} `{MaxPlus F} (B T N : Z) (input trans : buf F) (w : viterbi F) (b : Z) :
  0 < N -> 0 < T ->
  (forall b, 0 <= b < B -> finiteInputs T N input trans b /\ finiteScores T N input trans b) -> 0 <= b < B ->
  let path := at_offset (b * T) (v_path (compute T N input trans B w)) in
  validPath T N path
  /\ forall q, validPath T N q ->
       n_lt (pathScore T N input trans b path (Z.to_nat (T - 1))) (pathScore T N input trans b q (Z.to_nat (T - 1))) = false.
Proof.
  intros HN HT Hfin Hb. cbv zeta. unfold compute.
  apply (for_up_ind (fun k w => b < k -> validPath T N (at_offset (b * T) (v_path w))
    /\ forall q, validPath T N q -> n_lt (pathScore T N input trans b (at_offset (b * T) (v_path w)) (Z.to_nat (T - 1)))
         (pathScore T N input trans b q (Z.to_nat (T - 1))) = false) 0 B); [lia|lia| |lia].
  intros k w' Hk IH Hlt. destruct (computeBatch_spec T N input trans k HN HT (proj1 (Hfin k Hk)) (proj2 (Hfin k Hk)) w') as (V & Ho & Hfr).
  destruct (Z.eq_dec b k) as [->|Hne]; [done|]. destruct (IH ltac:(lia)) as [V' Ho'].
  assert (E : forall s, 0 <= s < T -> at_offset (b * T) (v_path (computeBatch T N input trans k w')) s = at_offset (b * T) (v_path w') s).
  { intros s Hs. apply Hfr. nia. }
  split.
  - intros t Ht. rewrite E by done. by apply V'.
  - intros q Vq. erewrite pathScore_ext; [by apply Ho'|]. intros s Hs. apply E. lia.
Qed.

(** * Doubles *)

#[export] Instance f64_num : Num f64 := {
  n_zero := f_zero; n_one := f64_of_Z 1; n_ninf := f_neg_inf;
  n_add := f64_add; n_sub := f64_sub; n_mul := f64_mul; n_div := f64_div;
  n_lt := flt; n_isnan := is_nan; n_of := f64_of_Z;
}.

Definition fin64 (x : f64) : Prop := finite x = true /\ valid64 x.

Lemma fin64_nan x : fin64 x -> is_nan x = false.
Proof. intros [Hx _]. by destruct x. Qed.

Lemma fin64_zero x : fin64 x -> fkey (f64_add x f_zero) = fkey x /\ fin64 (f64_add x f_zero).
Proof. intros [Hf Hv]. by destruct x as [[]| | |[] m e]. Qed.

(** IEEE doubles, with rounding, satisfy the laws. *)
#[export, refine] Instance f64_maxplus : MaxPlus f64 := {| fin := fin64 |}.
Proof.
  - intros x Hx. by apply flt_irrefl, fin64_nan.
  - intros x y z Hx%fin64_nan Hy%fin64_nan Hz%fin64_nan H1 H2. cbn in *.
    apply negb_true_iff. rewrite <- fle_flt by done. apply (fle_trans x y z); [done..| |]; rewrite fle_flt by done; [by rewrite H1|by rewrite H2].
  - intros x y Hx%fin64_nan Hy%fin64_nan H1. cbn in *. apply negb_true_iff. rewrite <- fle_flt by done. by apply flt_fle.
  - intros x [Hf _]. by destruct x as [| | |[] m e].
  - intros x y z Hx Hy Hz Hxz Hyz H1. cbn in *. apply negb_true_iff.
    rewrite <- fle_flt by (by apply fin64_nan). apply (add_mono _ _ prec64); try apply Hx; try apply Hy; try apply Hz.
    rewrite fle_flt by (by apply fin64_nan). by rewrite H1.
  - intros x y [Fx _] [Fy _]. cbn. unfold f64_add. destruct x as [sx| | |sx mx ex], y as [sy| | |sy my ey]; try done.
    + by destruct sx, sy.
    + cbn [SFadd]. by rewrite Z.min_comm, Z.add_comm.
  - intros x [Fx _]. by destruct x.
  - intros x. by destruct x as [|[]| |[] m e].
  - apply fin64_nan.
  - intros x Hx. by apply fin64_zero.
  - intros x y Hx Hy. destruct (fin64_zero x Hx) as [Kx Fx], (fin64_zero y Hy) as [Ky Fy]. cbn.
    apply Bool.eq_iff_eq_true. rewrite !flt_key by (by apply fin64_nan). by rewrite Kx, Ky.
Defined.

(** * A concrete run: two frames, two labels *)

Definition demo_scores (l : list Z) : buf f64 := fun i => f64_of_Z (nth (Z.to_nat i) l 0).
Definition demo_input : buf f64 := demo_scores [3; 1; 0; 2].
Definition demo_trans : buf f64 := demo_scores [1; 0; 0; 5].
Definition demo_garbage : viterbi f64 := MkViterbi (fun _ => f_inf) (fun _ => 77) (fun _ => 88).

Lemma demo_finite b : 0 <= b < 1 -> finiteInputs 2 2 demo_input demo_trans b /\ finiteScores 2 2 demo_input demo_trans b.
Proof.
  intros Hb. assert (b = 0) as -> by lia. split; [split|].
  - intros t m Ht Hm. assert (Et : t = 0 \/ t = 1) by lia. assert (Em : m = 0 \/ m = 1) by lia.
    destruct Et as [-> | ->], Em as [-> | ->]; split; vm_compute; reflexivity.
  - intros m n Hm Hn. assert (Et : n = 0 \/ n = 1) by lia. assert (Em : m = 0 \/ m = 1) by lia.
    destruct Et as [-> | ->], Em as [-> | ->]; split; vm_compute; reflexivity.
  - intros q t V Ht. assert (V0 := V 0 ltac:(lia)). assert (V1 := V 1 ltac:(lia)).
    assert (E0 : q 0 = 0 \/ q 0 = 1) by lia. assert (E1 : q 1 = 0 \/ q 1 = 1) by lia.
    assert (Et : t = 0%nat \/ t = 1%nat) by lia. destruct Et as [-> | ->]; split.
    + cbn [pathScore]. destruct E0 as [-> | ->]; split; vm_compute; reflexivity.
    + intros _ m Hm. assert (Em : m = 0 \/ m = 1) by lia. cbn [pathScore]. change (Z.of_nat 0) with 0.
      destruct E0 as [-> | ->], Em as [-> | ->]; split; vm_compute; reflexivity.
    + cbn [pathScore]. change (Z.of_nat 1) with 1. change (1 - 1) with 0.
      destruct E0 as [-> | ->], E1 as [-> | ->]; split; vm_compute; reflexivity.
    + lia.
Qed.

Lemma compute_viterbi_witness :
  let path := at_offset (0 * 2) (v_path (compute 2 2 demo_input demo_trans 1 demo_garbage)) in
  (path 0, path 1) = (1, 1) /\ validPath 2 2 path
  /\ n_lt (pathScore 2 2 demo_input demo_trans 0 path 1) (pathScore 2 2 demo_input demo_trans 0 (fun _ => 0) 1) = false.
Proof.
  destruct (compute_viterbi 1 2 2 demo_input demo_trans demo_garbage 0 ltac:(lia) ltac:(lia) demo_finite ltac:(lia)) as [V Ho].
  split; [vm_compute; reflexivity|]. split; [exact V|]. apply Ho. intros t Ht. cbn. lia.
Defined.
