(* ===== verification/Workspace.v ===== *)
(** The partition of a scratch buffer into aligned arrays
    (lib/sequence/criterion/Workspace.h) and the arrays the four CPU criteria
    request ([WorkspacePtrs] and [getWorkspaceSize] of each).

    A workspace is used twice: on a null pointer, to learn the size to allocate,
    and on the memory of that size.  The arrays of the second run are aligned,
    disjoint and inside the memory, whatever its address. *)
From S2P Require Import Prelude.

Open Scope Z_scope.

Definition Alignment : Z := 256.

Record workspace := MkWorkspace { workspacePtr_ : Z; offset_ : Z }.

Definition align (w : workspace) : workspace :=
  MkWorkspace (workspacePtr_ w)
    (u64 (offset_ w + (Alignment - 1 - u64 (workspacePtr_ w + offset_ w + Alignment - 1) mod Alignment))).

Definition newWorkspace (p : Z) : workspace := align (MkWorkspace p 0).

(** [request<T>(s0, s1, s2, s3)] for [bytes = sizeof(T) * s0 * s1 * s2 * s3]. *)
Definition request (bytes : Z) (w : workspace) : Z * workspace :=
  let w := align w in
  (u64 (workspacePtr_ w + offset_ w), MkWorkspace (workspacePtr_ w) (u64 (offset_ w + bytes))).

Definition requiredSize (w : workspace) : Z := u64 (offset_ w + Alignment - 1).

(** A sequence of requests, as in the constructors of [WorkspacePtrs]. *)
Fixpoint requests (sizes : list Z) (w : workspace) : list Z * workspace :=
  match sizes with
  | [] => ([], w)
  | s :: sizes => let '(p, w) := request s w in let '(ps, w) := requests sizes w in (p :: ps, w)
  end.

Definition bytes (sizeof s0 s1 s2 : Z) : Z := u64 (sizeof * s0 * s1 * s2).

(** The arrays of each criterion for scalars of [f] bytes. *)
Definition viterbiArrays (f B T N : Z) : list Z := [bytes f B 2 N; bytes 4 B T N].
Definition fullConnectionArrays (f B T N : Z) : list Z :=
  [bytes f B 1 1; bytes 8 B T N; bytes 8 B T N; bytes 8 B N N; bytes 8 B N N].
Definition forceAlignmentArrays (f B T N L : Z) : list Z :=
  [bytes f B 1 1; bytes 8 B T L; bytes 8 B T L; bytes f B N N; bytes f B L 1; bytes f B L 1; bytes f B L 1; bytes f B L 1].
Definition ctcArrays (f B T L : Z) : list Z :=
  let s := 2 * L + 1 in [bytes f B T s; bytes 4 B s 1; bytes 4 B s 1; bytes 4 B T s; bytes 4 B s 1].

(** [getWorkspaceSize]: the same requests on a null pointer. *)
Definition getWorkspaceSize (sizes : list Z) : Z := requiredSize (requests sizes (newWorkspace 0)).2.

(** * Proofs *)

(** Room for every array and its padding. *)
Definition room (sizes : list Z) : Z := foldr (fun s n => s + Alignment + n) 0 sizes.

Lemma room_nonneg sizes : Forall (fun s => 0 <= s) sizes -> 0 <= room sizes.
Proof. unfold room, Alignment. induction 1; cbn [foldr]; lia. Qed.

(** The workspace on a pointer runs in step with the one on null. *)
Record twin (p : Z) (w w0 : workspace) : Prop := {
  tw_ptr : workspacePtr_ w = p;
  tw_null : workspacePtr_ w0 = 0;
  tw_off : offset_ w = offset_ w0 + (- p) mod Alignment;
  tw_pos : 0 <= offset_ w0;
}.

Lemma pad_mod x : 0 <= x -> Alignment - 1 - (x + Alignment - 1) mod Alignment = (- x) mod Alignment.
Proof. intros. unfold Alignment. Z.to_euclidean_division_equations; lia. Qed.

Lemma align_offset p o : 0 <= p -> 0 <= o -> p + o + 2 * Alignment < 2 ^ 64 ->
  align (MkWorkspace p o) = MkWorkspace p (o + (- (p + o)) mod Alignment).
Proof.
  intros Hp Ho Hb. unfold align. cbn [workspacePtr_ offset_]. f_equal.
  assert (A : Alignment = 256) by done.
  unfold u64 at 2. rewrite (Z.mod_small (p + o + Alignment - 1)) by lia. rewrite pad_mod by lia.
  pose proof (Z.mod_pos_bound (- (p + o)) Alignment ltac:(lia)). apply Z.mod_small. lia.
Qed.

Lemma new_twin p : 0 <= p -> p + 2 * Alignment < 2 ^ 64 -> twin p (newWorkspace p) (newWorkspace 0).
Proof.
  intros Hp Hb. unfold newWorkspace. assert (A : Alignment = 256) by done.
  rewrite !align_offset by lia. split; cbn [workspacePtr_ offset_]; [done|done| |done].
  by rewrite Z.add_0_r.
Qed.

Lemma request_twin p w w0 s q q0 w' w0' :
  0 <= p -> 0 <= s -> twin p w w0 -> p + offset_ w + s + 2 * Alignment < 2 ^ 64 ->
  request s w = (q, w') -> request s w0 = (q0, w0') ->
  twin p w' w0' /\ q mod Alignment = 0 /\ p + offset_ w <= q /\ q + s = p + offset_ w'
  /\ offset_ w' <= offset_ w + s + Alignment.
Proof.
  intros Hp Hs [T1 T2 T3 T4] Hb E E0. destruct w as [p' o], w0 as [z o0]. cbn in *. subst p' z.
  assert (A : Alignment = 256) by done.
  pose proof (Z.mod_pos_bound (- p) Alignment ltac:(lia)) as Hpad.
  unfold request in E, E0. rewrite align_offset in E, E0 by lia. cbn [workspacePtr_ offset_] in *.
  pose proof (Z.mod_pos_bound (- (p + o)) Alignment ltac:(lia)) as Hm.
  pose proof (Z.mod_pos_bound (- (0 + o0)) Alignment ltac:(lia)) as Hm0.
  assert (Em : (- (p + o)) mod Alignment = (- (0 + o0)) mod Alignment).
  { rewrite T3, A. Z.to_euclidean_division_equations; lia. }
  unfold u64 in E, E0. rewrite (Z.mod_small (p + _)), (Z.mod_small (o + _ + s)) in E by lia.
  rewrite (Z.mod_small (0 + _)), (Z.mod_small (o0 + _ + s)) in E0 by lia.
  injection E as <- <-. injection E0 as <- <-. cbn [offset_].
  split_and!; [split; cbn [workspacePtr_ offset_]; lia| |lia|lia|lia].
  rewrite A in *. Z.to_euclidean_division_equations; lia.
Qed.

Lemma requests_twin sizes : forall p w w0 ps ps0 w' w0',
  0 <= p -> Forall (fun s => 0 <= s) sizes -> twin p w w0 -> p + offset_ w + room sizes + 2 * Alignment < 2 ^ 64 ->
  requests sizes w = (ps, w') -> requests sizes w0 = (ps0, w0') ->
  twin p w' w0' /\ offset_ w <= offset_ w' <= offset_ w + room sizes
  /\ Forall2 (fun q s => q mod Alignment = 0 /\ p + offset_ w <= q /\ q + s <= p + offset_ w') ps sizes
  /\ (forall i j q q' s, (i < j)%nat -> ps !! i = Some q -> sizes !! i = Some s -> ps !! j = Some q' -> q + s <= q').
Proof.
  induction sizes as [|s sizes IH]; intros p w w0 ps ps0 w' w0' Hp Hs Tw Hb E E0; cbn [requests] in E, E0.
  - injection E as <- <-. injection E0 as <- <-. split_and!; [done|cbn; lia|cbn; lia|constructor|]. by intros [] ?????.
  - change (room (s :: sizes)) with (s + Alignment + room sizes) in *. apply Forall_cons in Hs as [Hs Hss].
    pose proof (room_nonneg sizes Hss) as Hr.
    destruct (request s w) as [q w1] eqn:E1. destruct (requests sizes w1) as [qs w2] eqn:E2. injection E as <- <-.
    destruct (request s w0) as [q0 w01] eqn:E01. destruct (requests sizes w01) as [qs0 w02] eqn:E02. injection E0 as <- <-.
    assert (A : Alignment = 256) by done.
    destruct (request_twin p w w0 s q q0 w1 w01 Hp Hs Tw ltac:(lia) E1 E01) as (Tw1 & Q1 & Q2 & Q3 & Q4).
    destruct (IH p w1 w01 qs qs0 w2 w02 Hp Hss Tw1 ltac:(lia) E2 E02) as (Tw2 & B & F2 & D).
    split_and!; [done|lia|lia| |].
    + constructor; [split_and!; lia|]. eapply Forall2_impl; [done|]. intros q' s' (? & ? & ?). split_and!; lia.
    + intros [|i] [|j] x y z Hij Hx Hz Hy; try lia; cbn in *.
      * simplify_eq. apply (Forall2_lookup_l _ _ _ _ _ F2) in Hy as (z' & _ & _ & ? & _). lia.
      * eapply D; [|done..]. lia.
Qed.

(** The arrays a criterion carves out of a scratch buffer of the size
    that [getWorkspaceSize] announces are aligned to 256 bytes, lie inside the
    buffer and do not overlap, whatever the address of the buffer. *)
Theorem workspace_arrays (sizes : list Z) (p : Z) :
  0 <= p -> Forall (fun s => 0 <= s) sizes -> p + room sizes + 4 * Alignment < 2 ^ 64 ->
  let ps := (requests sizes (newWorkspace p)).1 in
  Forall2 (fun q s => q mod Alignment = 0 /\ p <= q /\ q + s <= p + getWorkspaceSize sizes) ps sizes
  /\ (forall i j q q' s, (i < j)%nat -> ps !! i = Some q -> sizes !! i = Some s -> ps !! j = Some q' -> q + s <= q').
Proof.
  intros Hp Hs Hb. cbv zeta. assert (A : Alignment = 256) by done.
  pose proof (room_nonneg sizes Hs) as Hr.
  pose proof (new_twin p Hp ltac:(lia)) as Tw. pose proof Tw as [_ _ T3 T4]. unfold getWorkspaceSize.
  pose proof (Z.mod_pos_bound (- p) Alignment ltac:(lia)) as Hpad.
  assert (H0 : offset_ (newWorkspace 0) = 0) by done.
  destruct (requests sizes (newWorkspace p)) as [ps w'] eqn:E. destruct (requests sizes (newWorkspace 0)) as [ps0 w0'] eqn:E0.
  destruct (requests_twin sizes p _ _ _ _ _ _ Hp Hs Tw ltac:(lia) E E0) as (Tw' & B & F2 & D). cbn [fst snd].
  split; [|done]. destruct Tw' as [_ _ T3' T4'].
  eapply Forall2_impl; [done|]. intros q s (Q1 & Q2 & Q3). split_and!; [done|lia|].
  unfold requiredSize, u64. rewrite Z.mod_small by lia. lia.
Qed.

Lemma workspace_arrays_witness :
  Forall2 (fun q s => q mod Alignment = 0 /\ 1000 <= q /\ q + s <= 1000 + getWorkspaceSize (viterbiArrays 4 2 10 5))
    [1024; 1280] (viterbiArrays 4 2 10 5)
  /\ getWorkspaceSize (viterbiArrays 4 2 10 5) = 911.
Proof.
  destruct (workspace_arrays (viterbiArrays 4 2 10 5) 1000 ltac:(lia)) as [F _].
  - repeat constructor; vm_compute; discriminate.
  - vm_compute. reflexivity.
  - split; [exact F|vm_compute; reflexivity].
Defined.
