(* ===== verification/RealSum.v ===== *)
(** Finite sums of reals and the loops that compute them, for the sequence
    criteria. *)
From Stdlib Require Import Reals Lra.
From S2P Require Import Prelude Numeric.

Open Scope Z_scope.

(** * Sums *)

Definition Rsum {A} (l : list A) (f : A -> R) : R := foldr (fun x s => f x + s)%R 0%R l.

Lemma Rsum_nil {A} (f : A -> R) : Rsum [] f = 0%R.
Proof. done. Qed.
Lemma Rsum_cons {A} x (l : list A) f : Rsum (x :: l) f = (f x + Rsum l f)%R.
Proof. done. Qed.

Lemma Rsum_singleton {A} (x : A) f : Rsum [x] f = f x.
Proof. rewrite Rsum_cons, Rsum_nil. ring. Qed.
Lemma Rsum_ext {A} (l : list A) f g : (forall x, x ∈ l -> f x = g x) -> Rsum l f = Rsum l g.
Proof.
  induction l as [|x l IH]; intros E; [done|]. rewrite !Rsum_cons. f_equal; [apply E; by left|].
  apply IH. intros y Hy. apply E. by right.
Qed.

Lemma Rsum_app {A} (l k : list A) f : Rsum (l ++ k) f = (Rsum l f + Rsum k f)%R.
Proof. induction l as [|x l IH]; cbn [app]; rewrite ?Rsum_nil, ?Rsum_cons, ?IH; lra. Qed.

Lemma Rsum_map {A B} (g : A -> B) l f : Rsum (map g l) f = Rsum l (fun x => f (g x)).
Proof. induction l as [|x l IH]; cbn [map]; [done|]. by rewrite !Rsum_cons, IH. Qed.

Lemma Rsum_flat_map {A B} (g : A -> list B) l f : Rsum (flat_map g l) f = Rsum l (fun x => Rsum (g x) f).
Proof. induction l as [|x l IH]; cbn [flat_map]; [done|]. by rewrite Rsum_app, !Rsum_cons, IH. Qed.

Lemma Rsum_scal {A} (l : list A) f c : Rsum l (fun x => f x * c)%R = (Rsum l f * c)%R.
Proof. induction l as [|x l IH]; rewrite ?Rsum_nil, ?Rsum_cons, ?IH; lra. Qed.

Lemma Rsum_plus {A} (l : list A) f g : Rsum l (fun x => f x + g x)%R = (Rsum l f + Rsum l g)%R.
Proof. induction l as [|x l IH]; rewrite ?Rsum_nil, ?Rsum_cons, ?IH; lra. Qed.

Lemma Rsum_zero {A} (l : list A) : Rsum l (fun _ => 0%R) = 0%R.
Proof. induction l as [|x l IH]; rewrite ?Rsum_nil, ?Rsum_cons, ?IH; lra. Qed.

Lemma Rsum_swap {A B} (l : list A) (k : list B) f :
  Rsum l (fun x => Rsum k (f x)) = Rsum k (fun y => Rsum l (fun x => f x y)).
Proof.
  induction l as [|x l IH]; rewrite ?Rsum_nil, ?Rsum_cons; [symmetry; apply Rsum_zero|].
  rewrite IH, <- Rsum_plus. done.
Qed.

Lemma Rsum_nonneg {A} (l : list A) f : (forall x, x ∈ l -> 0 <= f x)%R -> (0 <= Rsum l f)%R.
Proof.
  induction l as [|x l IH]; intros Hp; rewrite ?Rsum_nil, ?Rsum_cons; [lra|].
  apply Rplus_le_le_0_compat; [apply Hp; by left|]. apply IH. intros y Hy. apply Hp. by right.
Qed.

Lemma Rsum_pos {A} (l : list A) f : l <> [] -> (forall x, x ∈ l -> 0 < f x)%R -> (0 < Rsum l f)%R.
Proof.
  destruct l as [|x l]; [done|]. intros _ Hp. rewrite Rsum_cons. apply Rplus_lt_le_0_compat; [apply Hp; by left|].
  apply Rsum_nonneg. intros y Hy. apply Rlt_le, Hp. by right.
Qed.

Lemma zrange_nonempty N : 0 < N -> zrange 0 N <> [].
Proof. intros. by rewrite zrange_cons. Qed.

(** A loop that adds up finite values. *)
Lemma for_up_sum N (f : Z -> xreal) (g : Z -> R) :
  (forall n, 0 <= n < N -> f n = Fin (g n)) ->
  for_up 0 N (fun n s => (s + f n)%num) n_zero = Fin (Rsum (zrange 0 N) g).
Proof.
  intros E. unfold for_up. cbn [n_zero xreal_num].
  rewrite (fold_left_ext_in _ (fun s n => x_add s (Fin (g n)))).
  2: { intros s n Hn%elem_of_zrange. by rewrite E. }
  clear E f. rewrite <- (Rplus_0_l (Rsum (zrange 0 N) g)). generalize 0%R as a. generalize (zrange 0 N) as l.
  induction l as [|n l IH]; intros a; cbn [fold_left x_add]; [by rewrite Rsum_nil, Rplus_0_r|].
  rewrite IH, Rsum_cons. f_equal. lra.
Qed.


(** A sum with one non-zero term. *)
Lemma Rsum_single lo hi (f : Z -> R) x :
  lo <= x < hi -> (forall y, lo <= y < hi -> y <> x -> f y = 0%R) -> Rsum (zrange lo hi) f = f x.
Proof.
  intros Hx Hf. rewrite (zrange_app lo x hi), (zrange_cons x hi), Rsum_app, Rsum_cons by lia.
  rewrite (Rsum_ext (zrange lo x) f (fun _ => 0%R)) by (intros y Hy%elem_of_zrange; apply Hf; lia).
  rewrite (Rsum_ext (zrange (x + 1) hi) f (fun _ => 0%R)) by (intros y Hy%elem_of_zrange; apply Hf; lia).
  rewrite !Rsum_zero. lra.
Qed.

Lemma Rsum_all_zero {A} (l : list A) (f : A -> R) : (forall x, x ∈ l -> f x = 0%R) -> Rsum l f = 0%R.
Proof. intros Hf. rewrite (Rsum_ext _ _ (fun _ => 0%R)) by done. apply Rsum_zero. Qed.

Lemma Rsum_perm {A} (l k : list A) f : Permutation l k -> Rsum l f = Rsum k f.
Proof. induction 1; rewrite ?Rsum_cons; lra. Qed.
