(* ===== verification/FullConnection.v ===== *)
(** The full connection criterion and the scale of the sequence criteria
    (lib/sequence/criterion/cpu/FullConnectionCriterion.cpp, CriterionUtils.cpp).

    [forward] computes the logarithm of the sum over every label sequence of the
    exponential of its score; [backward] reads the workspace that [forward] left
    and computes the gradients.  Both are written over the scalars of Numeric.v,
    with the indices of the source; FullConnectionProofs.v relates them to the sum
    over label sequences and to its derivatives. *)
From S2P Require Import Prelude Numeric.

Open Scope Z_scope.

(** * CriterionUtils *)

Inductive CriterionScaleMode := NONE | INPUT_SZ | INPUT_SZ_SQRT | TARGET_SZ | TARGET_SZ_SQRT.

Section Utils.
Context {F : Type} `{Num F} `{Elementary F}.

(** The scan from the right for the last non-negative label; a row without one
    leaves its size as it was. *)
Fixpoint lastLabel (target : buf Z) (o : Z) (l : list Z) : option Z :=
  match l with
  | [] => None
  | i :: l => if 0 <=? target (o + i) then Some i else lastLabel target o l
  end.

Definition batchTargetSize (B L maxSize : Z) (target : buf Z) (targetSize : buf Z) : buf Z :=
  for_up 0 B (fun b targetSize =>
    match lastLabel target (b * L) (reverse (zrange 0 L)) with
    | Some i => bset b (Z.min maxSize (i + 1)) targetSize
    | None => targetSize
    end) targetSize.

Definition computeScale (B T : Z) (scaleMode : CriterionScaleMode) (targetSize : buf Z) (scale : buf F) : buf F :=
  for_up 0 B (fun b scale =>
    match scaleMode with
    | NONE => bset b n_one scale
    | INPUT_SZ => bset b (if 0 <? T then n_div n_one (n_of T) else n_one) scale
    | INPUT_SZ_SQRT => bset b (if 0 <? T then n_sqrt (n_one / n_of T)%num else n_one) scale
    | TARGET_SZ => bset b (if 0 <? targetSize b then n_div n_one (n_of (targetSize b)) else n_one) scale
    | TARGET_SZ_SQRT => bset b (if 0 <? targetSize b then n_sqrt (n_one / n_of (targetSize b))%num else n_one) scale
    end) scale.
End Utils.

(** * FullConnectionCriterion *)

Section FCC.
Context {F : Type} `{Num F} `{Elementary F}.

Record fccws := MkFcc {
  scale : buf F;
  alpha : buf F;
  alphaGrad : buf F;
  transBatchGrad : buf F;
  transBuf : buf F;
}.

Definition set_scale (x : buf F) (w : fccws) := MkFcc x (alpha w) (alphaGrad w) (transBatchGrad w) (transBuf w).
Definition set_alpha (x : buf F) (w : fccws) := MkFcc (scale w) x (alphaGrad w) (transBatchGrad w) (transBuf w).
Definition set_alphaGrad (x : buf F) (w : fccws) := MkFcc (scale w) (alpha w) x (transBatchGrad w) (transBuf w).
Definition set_transBatchGrad (x : buf F) (w : fccws) := MkFcc (scale w) (alpha w) (alphaGrad w) x (transBuf w).
Definition set_transBuf (x : buf F) (w : fccws) := MkFcc (scale w) (alpha w) (alphaGrad w) (transBatchGrad w) x.

Section Loops.
Context (T N : Z) (trans : buf F).

(** The first loop over [n]: the values go to [transBuf] and the largest to
    [maxValue]. *)
Definition maxLoop (b t m : Z) (alpha transBuf : buf F) : buf F * F :=
  for_up 0 N (fun n '(transBuf, maxValue) =>
    let val := (alpha (b * T * N + (t - 1) * N + n)%Z + (if t =? T then n_zero else trans (m * N + n)%Z))%num in
    (bset (b * N * N + m * N + n) val transBuf, if (val >? maxValue)%num then val else maxValue))
    (transBuf, n_ninf).

(** The second loop of [forward]. *)
Definition sumLoop (b m : Z) (transBuf : buf F) (maxValue : F) : F :=
  for_up 0 N (fun n sumValue => (sumValue + n_exp (transBuf (b * N * N + m * N + n)%Z - maxValue))%num) n_zero.

(** The loop over [m] of [forward], left by [break] in the last step. *)
Fixpoint forwardLabels (input : buf F) (b t : Z) (ms : list Z) (st : fccws * buf F) : fccws * buf F :=
  match ms with
  | [] => st
  | m :: ms =>
      let '(w, loss) := st in
      let '(tb, maxValue) := maxLoop b t m (alpha w) (transBuf w) in
      let w := set_transBuf tb w in
      let sumValue := sumLoop b m (transBuf w) maxValue in
      if t =? T then (w, bset b (scale w b * (n_log sumValue + maxValue))%num loss)
      else
        forwardLabels input b t ms
          (set_alpha (bset (b * T * N + t * N + m) (n_log sumValue + maxValue + input (b * T * N + t * N + m)%Z)%num (alpha w)) w,
           loss)
  end.

Definition forwardBatch (input : buf F) (b : Z) (st : fccws * buf F) : fccws * buf F :=
  let '(w, loss) := st in
  let w := set_alpha (for_up 0 N (fun n => bset (b * T * N + n) (input (b * T * N + n))) (alpha w)) w in
  for_up 1 (T + 1) (fun t => forwardLabels input b t (zrange 0 N)) (w, loss).

Definition forward (B : Z) (scaleMode : CriterionScaleMode) (input : buf F) (targetSize : buf Z) (loss : buf F) (w : fccws)
    : fccws * buf F :=
  let w := set_scale (computeScale B T scaleMode targetSize (scale w)) w in
  for_up 0 B (forwardBatch input) (w, loss).

(** ** backward *)

(** [setZero(p, n)] *)
Definition setZero (n : Z) (p : buf F) : buf F := for_up 0 n (fun i => bset i n_zero) p.

(** The second loop of [backward]: exponentials and their sum. *)
Definition expLoop (b m : Z) (maxValue : F) (transBuf : buf F) : buf F * F :=
  for_up 0 N (fun n '(transBuf, sumValue) =>
    let e := n_exp (transBuf (b * N * N + m * N + n)%Z - maxValue)%num in
    (bset (b * N * N + m * N + n) e transBuf, (sumValue + e)%num)) (transBuf, n_zero).

(** The last loop over [n]: the share of every previous label. *)
Definition scaleLoop (b t m : Z) (sumValue : F) (w : fccws) : fccws :=
  for_up 0 N (fun n w =>
    let v := (transBuf w (b * N * N + m * N + n)%Z / sumValue * alphaGrad w (b * T * N + t * N + m)%Z)%num in
    set_transBatchGrad (bset (b * N * N + m * N + n) (transBatchGrad w (b * N * N + m * N + n)%Z + v)%num (transBatchGrad w))
      (set_transBuf (bset (b * N * N + m * N + n) v (transBuf w)) w)) w.

(** The loop over [m] of [backward], left by [break] when [t = T]. *)
Fixpoint backwardLabels (b t : Z) (ms : list Z) (w : fccws) : fccws :=
  match ms with
  | [] => w
  | m :: ms =>
      let '(tb, maxValue) := maxLoop b t m (alpha w) (transBuf w) in
      let '(tb, sumValue) := expLoop b m maxValue tb in
      let w := set_transBuf tb w in
      if t =? T then
        set_alphaGrad (for_up 0 N (fun n => bset (b * T * N + (t - 1) * N + n) (transBuf w (b * N * N + m * N + n)%Z / sumValue)%num)
                         (alphaGrad w)) w
      else
        let w := scaleLoop b t m sumValue w in
        backwardLabels b t ms w
  end.

(** The sums over the columns of [transBuf], skipped by [continue] when [t = T]. *)
Definition columnSums (b t : Z) (transBuf alphaGrad : buf F) : buf F :=
  for_up 0 N (fun m => for_up 0 N (fun n alphaGrad =>
    bset (b * T * N + (t - 1) * N + m) (alphaGrad (b * T * N + (t - 1) * N + m)%Z + transBuf (b * N * N + n * N + m)%Z)%num alphaGrad))
    alphaGrad.

Definition backwardStep (b t : Z) (w : fccws) : fccws :=
  let w := backwardLabels b t (zrange 0 N) w in
  if t =? T then w else set_alphaGrad (columnSums b t (transBuf w) (alphaGrad w)) w.

Definition backwardBatch (grad : buf F) (b : Z) (st : fccws * buf F) : fccws * buf F :=
  let '(w, inputGrad) := st in
  let w := for_down 1 (T + 1) (backwardStep b) w in
  (w, for_up 0 (T * N) (fun i => bset (b * T * N + i) (scale w b * grad b * alphaGrad w (b * T * N + i)%Z)%num) inputGrad).

Definition backward (B : Z) (grad inputGrad transGrad : buf F) (w : fccws) : fccws * buf F * buf F :=
  let inputGrad := setZero (B * T * N) inputGrad in
  let transGrad := setZero (N * N) transGrad in
  let w := set_alphaGrad (setZero (B * T * N) (alphaGrad w)) w in
  let w := set_transBatchGrad (setZero (B * N * N) (transBatchGrad w)) w in
  let '(w, inputGrad) := for_up 0 B (backwardBatch grad) (w, inputGrad) in
  let transGrad := for_up 0 B (fun b => for_up 0 (N * N) (fun i transGrad =>
    bset i (transGrad i + scale w b * grad b * transBatchGrad w (b * N * N + i)%Z)%num transGrad)) transGrad in
  (w, inputGrad, transGrad).
End Loops.
End FCC.
Arguments fccws : clear implicits.
