(* ===== verification/FullConnectionProofs.v ===== *)
(** The full connection criterion over exact reals: [forward] returns the scaled
    logarithm of the sum, over all label sequences, of the exponential of the
    sequence's score, and [backward] returns the derivatives of that loss with
    respect to every input and every transition score. *)
From S2P Require Import Prelude Numeric RealSum FullConnection.
From Stdlib Require Import Reals Lra.

Open Scope Z_scope.

(** * Label sequences and their scores *)

Section Sequences.
Context (T N : Z) (inp tr : Z -> R) (b : Z).

(** Every sequence of [k] labels, latest label first. *)
Fixpoint seqs (k : nat) : list (list Z) :=
  match k with O => [[]] | S k => flat_map (fun m => map (cons m) (seqs k)) (zrange 0 N) end.

(** The score: an input per frame and a transition between consecutive labels. *)
Fixpoint seqScore (p : list Z) : R :=
  match p with
  | [] => 0
  | m :: p' =>
      (match p' with [] => 0 | n :: _ => seqScore p' + tr (m * N + n)%Z end
       + inp (b * T * N + zlen p' * N + m)%Z)%R
  end.

(** The sum over every sequence of [T] labels. *)
Definition partition : R := Rsum (seqs (Z.to_nat T)) (fun p => exp (seqScore p)).

(** ** The recursion *)

Definition inAt (t m : Z) : R := inp (b * T * N + t * N + m).

(** The sums over sequences that end in [m] at time [t]. *)
Fixpoint endSum (t : nat) (m : Z) : R :=
  match t with
  | O => exp (inAt 0 m)
  | S t' => (Rsum (zrange 0 N) (fun n => endSum t' n * exp (tr (m * N + n)%Z)) * exp (inAt (Z.of_nat t) m))%R
  end.

Lemma seqs_length k p : p ∈ seqs k -> length p = k.
Proof.
  revert p. induction k as [|k IH]; intros p; cbn; [by intros ->%list_elem_of_singleton|].
  rewrite list_elem_of_In, in_flat_map. intros (m & _ & (q & <- & Hq)%in_map_iff). cbn. f_equal. apply IH. by apply list_elem_of_In.
Qed.

Lemma endSum_seqs t m : endSum t m = Rsum (seqs t) (fun p => exp (seqScore (m :: p))).
Proof.
  revert m. induction t as [|t IH]; intros m.
  - cbn [endSum seqs]. rewrite Rsum_cons, Rsum_nil, Rplus_0_r. cbn [seqScore]. by rewrite Rplus_0_l.
  - cbn [endSum seqs]. rewrite Rsum_flat_map, <- Rsum_scal. apply Rsum_ext. intros n _. rewrite IH, Rsum_map, <- !Rsum_scal.
    apply Rsum_ext. intros p Hp%seqs_length. cbn [seqScore]. unfold inAt.
    replace (zlen (n :: p)) with (Z.of_nat (S t)) by (unfold zlen; cbn; lia). by rewrite !exp_plus.
Qed.

Lemma partition_endSum : 0 < T -> partition = Rsum (zrange 0 N) (endSum (Z.to_nat (T - 1))).
Proof.
  intros HT. unfold partition. replace (Z.to_nat T) with (S (Z.to_nat (T - 1))) by lia. cbn [seqs].
  rewrite Rsum_flat_map. apply Rsum_ext. intros m _. by rewrite Rsum_map, endSum_seqs.
Qed.

Hypothesis HN : 0 < N.

Lemma endSum_pos t m : (0 < endSum t m)%R.
Proof.
  revert m. induction t as [|t IH]; intros m; cbn [endSum]; [apply exp_pos|].
  apply Rmult_lt_0_compat; [|apply exp_pos]. apply Rsum_pos; [by apply zrange_nonempty|].
  intros n _. apply Rmult_lt_0_compat; [done|apply exp_pos].
Qed.
End Sequences.

(** * Forward *)

Section Forward.
Context (T N : Z) (inp tr : Z -> R).
Hypothesis HN : 0 < N.
Hypothesis HT : 0 < T.

Abbreviation input := (fun i => Fin (inp i)).
Abbreviation trans := (fun i => Fin (tr i)).
Abbreviation fcc := (fccws xreal).

(** The cell of [transBuf] after the first loop, for a row [a] of [alpha]. *)
Definition candidate (t m : Z) (a : Z -> R) (n : Z) : R := (a n + (if t =? T then 0 else tr (m * N + n)%Z))%R.

Lemma maxLoop_spec b t m (al tb : buf xreal) (a : Z -> R) :
  (forall n, 0 <= n < N -> al (b * T * N + (t - 1) * N + n) = Fin (a n)) ->
  exists tb' M, maxLoop T N trans b t m al tb = (tb', Fin M)
    /\ (forall n, 0 <= n < N -> tb' (b * N * N + m * N + n) = Fin (candidate t m a n))
    /\ (forall j, ~ (b * N * N + m * N <= j < b * N * N + m * N + N) -> tb' j = tb j).
Proof.
  intros Ha. unfold maxLoop.
  set (body := fun n '(transBuf, maxValue) => _).
  set (I k (s : buf xreal * xreal) := (k = 0 \/ exists M, s.2 = Fin M) /\ (k = 0 -> s.2 = NInf)
    /\ (forall n, 0 <= n < k -> s.1 (b * N * N + m * N + n) = Fin (candidate t m a n))
    /\ (forall j, ~ (b * N * N + m * N <= j < b * N * N + m * N + k) -> s.1 j = tb j)).
  destruct (for_up_ind I 0 N body (tb, n_ninf)) as (I1 & _ & I2 & I3).
  - lia.
  - split_and!; [by left|done|lia|done].
  - intros n [tb1 mv] Hn (I1 & I0 & I2 & I3). cbn [fst snd] in *. unfold body. cbn [snd fst].
    rewrite (Ha n Hn).
    assert (Ev : (Fin (a n) + (if (t =? T)%Z then n_zero else Fin (tr (m * N + n)%Z)))%num = Fin (candidate t m a n)).
    { unfold candidate. by destruct (t =? T). }
    rewrite Ev. split_and!; cbn [fst snd].
    + right. destruct I1 as [->|[M ->]]; [rewrite I0 by done; by eexists|]. destruct (n_lt _ _); by eexists.
    + lia.
    + intros k Hk. destruct (Z.eq_dec k n) as [->|]; [by rewrite bset_eq|]. rewrite bset_ne by lia. apply I2. lia.
    + intros j Hj. rewrite bset_ne by lia. apply I3. lia.
  - destruct (for_up 0 N body (tb, n_ninf)) as [tb' mv]. cbn [fst snd] in *. destruct I1 as [?|[M ->]]; [lia|]. by exists tb', M.
Qed.

Lemma exp_shift (l : list Z) (v : Z -> R) M : Rsum l (fun n => exp (v n - M)) = (Rsum l (fun n => exp (v n)) * exp (- M))%R.
Proof. rewrite <- Rsum_scal. apply Rsum_ext. intros n _. rewrite <- exp_plus. f_equal. Qed.

Lemma exp_sum_pos (v : Z -> R) : (0 < Rsum (zrange 0 N) (fun n => exp (v n)))%R.
Proof. apply Rsum_pos; [by apply zrange_nonempty|]. intros n _. apply exp_pos. Qed.

(** The shift by the maximum cancels. *)
Lemma logSum_spec b m tb (v : Z -> R) M :
  (forall n, 0 <= n < N -> tb (b * N * N + m * N + n) = Fin (v n)) ->
  (n_log (sumLoop N b m tb (Fin M)) + Fin M)%num = Fin (ln (Rsum (zrange 0 N) (fun n => exp (v n)))).
Proof.
  intros E. unfold sumLoop. rewrite (for_up_sum N _ (fun n => exp (v n - M))) by (intros n Hn; by rewrite E).
  rewrite exp_shift. pose proof (exp_sum_pos v) as Hp. set (S := Rsum _ _) in *. cbn [n_log xreal_elementary].
  rewrite x_log_pos by (apply Rmult_lt_0_compat; [done|apply exp_pos]). cbn. f_equal.
  rewrite ln_mult, ln_exp by (done || apply exp_pos). lra.
Qed.

(** Row [t] of [alpha] holds the logarithms of the sums of Section Sequences. *)
Definition rowOf (b t : Z) (w : fcc) : Prop :=
  forall m, 0 <= m < N -> alpha w (b * T * N + t * N + m) = Fin (ln (endSum T N inp tr b (Z.to_nat t) m)).

Lemma endSum_step b t m :
  1 <= t -> (ln (Rsum (zrange 0 N) (fun n => exp (ln (endSum T N inp tr b (Z.to_nat (t - 1)) n) + tr (m * N + n)%Z))) + inAt T N inp b t m)%R
  = ln (endSum T N inp tr b (Z.to_nat t) m).
Proof.
  intros Ht. replace (Z.to_nat t) with (S (Z.to_nat (t - 1))) by lia. cbn [endSum].
  replace (Z.of_nat (S (Z.to_nat (t - 1)))) with t by lia.
  rewrite ln_mult; [|apply Rsum_pos; [by apply zrange_nonempty|]; intros n _; apply Rmult_lt_0_compat; [by apply endSum_pos|apply exp_pos]|apply exp_pos].
  rewrite ln_exp. do 2 f_equal. apply Rsum_ext. intros n _. rewrite exp_plus, exp_ln by (by apply endSum_pos). done.
Qed.

Lemma forwardLabels_spec b t w loss :
  1 <= t < T -> rowOf b (t - 1) w ->
  exists w', forwardLabels T N trans input b t (zrange 0 N) (w, loss) = (w', loss)
    /\ rowOf b t w' /\ scale w' = scale w
    /\ (forall j, ~ (b * T * N + t * N <= j < b * T * N + t * N + N) -> alpha w' j = alpha w j).
Proof.
  intros Ht Hrow.
  set (P k (w' : fcc) := scale w' = scale w
    /\ (forall m, 0 <= m < k -> alpha w' (b * T * N + t * N + m) = Fin (ln (endSum T N inp tr b (Z.to_nat t) m)))
    /\ (forall j, ~ (b * T * N + t * N <= j < b * T * N + t * N + k) -> alpha w' j = alpha w j)).
  cut (forall k w', 0 <= k <= N -> P k w' -> exists w2, forwardLabels T N trans input b t (zrange k N) (w', loss) = (w2, loss) /\ P N w2).
  { intros Hc. destruct (Hc 0 w) as (w2 & -> & P1 & P2 & P3); [lia|by split_and!; [|lia|]|]. by exists w2. }
  intros k w' Hk. remember (Z.to_nat (N - k)) as n eqn:En. revert k w' Hk En.
  induction n as [|n IH]; intros k w' Hk En (P1 & P2 & P3).
  - assert (k = N) as -> by lia. rewrite zrange_nil by lia. by exists w'.
  - rewrite zrange_cons by lia. cbn [forwardLabels].
    destruct (maxLoop_spec b t k (alpha w') (transBuf w') (fun n => ln (endSum T N inp tr b (Z.to_nat (t - 1)) n))) as (tb & M & -> & Htb & _).
    { intros n' Hn'. rewrite P3 by nia. by apply Hrow. }
    rewrite (proj2 (Z.eqb_neq t T)) by lia. cbn [set_transBuf set_alpha transBuf alpha scale].
    rewrite (logSum_spec b k tb _ M Htb). apply IH; [lia|lia|]. split_and!; cbn [scale alpha set_alpha set_transBuf].
    + done.
    + intros m Hm. destruct (Z.eq_dec m k) as [->|]; [|rewrite bset_ne by lia; apply P2; lia].
      rewrite bset_eq. cbn. f_equal. rewrite <- (endSum_step b t k) by lia. unfold candidate, inAt.
      by rewrite (proj2 (Z.eqb_neq t T)) by lia.
    + intros j Hj. rewrite bset_ne by lia. apply P3. lia.
Qed.
(** One batch entry, from any state of the buffers. *)
Lemma forwardBatch_spec b w loss sc :
  scale w b = Fin sc ->
  exists w', forwardBatch T N trans input b (w, loss) = (w', bset b (Fin (sc * ln (partition T N inp tr b))) loss)
    /\ (forall t, 0 <= t < T -> rowOf b t w') /\ scale w' = scale w
    /\ (forall j, ~ (b * T * N <= j < b * T * N + T * N) -> alpha w' j = alpha w j).
Proof.
  intros Hsc. unfold forwardBatch. rewrite for_up_snoc by lia. set (w0 := set_alpha _ w).
  assert (Hw : exists w1, for_up 1 T (fun t => forwardLabels T N trans input b t (zrange 0 N)) (w0, loss) = (w1, loss)
    /\ (forall t, 0 <= t < T -> rowOf b t w1) /\ scale w1 = scale w
    /\ (forall j, ~ (b * T * N <= j < b * T * N + T * N) -> alpha w1 j = alpha w j)).
  { apply (for_up_ind (fun k st => exists w1, st = (w1, loss) /\ (forall t, 0 <= t < k -> rowOf b t w1) /\ scale w1 = scale w
      /\ (forall j, ~ (b * T * N <= j < b * T * N + T * N) -> alpha w1 j = alpha w j)) 1 T); [lia| |].
    - exists w0. split_and!; [done| |done|].
      + intros t Ht m Hm. assert (t = 0) as -> by lia. unfold w0. cbn [set_alpha alpha Z.to_nat endSum]. rewrite for_up_fill.
        rewrite (proj2 (Z.leb_le _ _)), (proj2 (Z.ltb_lt _ _)) by lia. cbn [andb]. change (Z.to_nat 0) with O. cbn [endSum]. rewrite ln_exp. unfold inAt. do 2 f_equal. lia.
      + intros j Hj. unfold w0. cbn [set_alpha alpha]. rewrite for_up_fill.
        destruct (Z.leb_spec (b * T * N + 0) j), (Z.ltb_spec j (b * T * N + N)); try done. nia.
    - intros t st Ht (w1 & -> & R1 & S1 & F1).
      destruct (forwardLabels_spec b t w1 loss Ht ltac:(apply R1; lia)) as (w2 & -> & R2 & S2 & F2).
      exists w2. split_and!; [done| |congruence|].
      + intros t' Ht'. destruct (Z.eq_dec t' t) as [->|]; [done|]. intros m Hm. rewrite F2 by nia. apply R1; lia.
      + intros j Hj. rewrite F2 by nia. by apply F1. }
  destruct Hw as (w1 & -> & R1 & S1 & F1). rewrite zrange_cons by lia. cbn [forwardLabels].
  destruct (maxLoop_spec b T 0 (alpha w1) (transBuf w1) (fun n => ln (endSum T N inp tr b (Z.to_nat (T - 1)) n))) as (tb & M & -> & Htb & _).
  { intros n Hn. apply R1; lia. }
  rewrite Z.eqb_refl. cbn [set_transBuf set_alpha transBuf alpha scale]. rewrite (logSum_spec b 0 tb _ M Htb), S1, Hsc.
  exists (set_transBuf tb w1). split; [|split_and!; [exact R1|exact S1|exact F1]]. do 2 f_equal. cbn [n_mul xreal_num x_mul]. do 2 f_equal.
  rewrite partition_endSum by done. f_equal. apply Rsum_ext. intros n _. unfold candidate. rewrite Z.eqb_refl, Rplus_0_r.
  apply exp_ln. by apply endSum_pos.
Qed.

(** The scale of batch entry [b]. *)
Definition scaleOf (mode : CriterionScaleMode) (targetSize : buf Z) (b : Z) : R :=
  match mode with
  | NONE => 1
  | INPUT_SZ => 1 / IZR T
  | INPUT_SZ_SQRT => sqrt (1 / IZR T)
  | TARGET_SZ => if 0 <? targetSize b then 1 / IZR (targetSize b) else 1
  | TARGET_SZ_SQRT => if 0 <? targetSize b then sqrt (1 / IZR (targetSize b)) else 1
  end%R.

Lemma inv_IZR z : 0 < z -> (Fin 1 / n_of z)%num = Fin (1 / IZR z) /\ n_sqrt (Fin 1 / n_of z)%num = Fin (sqrt (1 / IZR z)).
Proof.
  intros Hz. assert (0 < IZR z)%R by (by apply IZR_lt).
  assert (E : (Fin 1 / n_of z)%num = Fin (1 / IZR z)).
  { cbn. unfold Reqb. destruct (Req_EM_T (IZR z) 0); [lra|done]. }
  split; [done|]. rewrite E. cbn. rewrite (proj2 (Rlt_bool_false _ _)); [done|]. apply Rlt_le, Rdiv_lt_0_compat; lra.
Qed.

Lemma computeScale_spec B mode targetSize s b :
  0 <= b < B -> computeScale B T mode targetSize s b = Fin (scaleOf mode targetSize b).
Proof.
  intros Hb. set (f b := @Fin (scaleOf mode targetSize b)).
  assert (E : computeScale B T mode targetSize s = for_up 0 B (fun b => bset (0 + b) (f b)) s).
  { unfold computeScale, f. destruct mode; apply fold_left_ext; intros s' b'; cbn [scaleOf]; f_equal; cbn [n_one xreal_num].
    - rewrite (proj2 (Z.ltb_lt 0 T)) by done. by apply inv_IZR.
    - rewrite (proj2 (Z.ltb_lt 0 T)) by done. by apply inv_IZR.
    - destruct (Z.ltb_spec 0 (targetSize b')); [by apply inv_IZR|done].
    - destruct (Z.ltb_spec 0 (targetSize b')); [by apply inv_IZR|done]. }
  rewrite E, for_up_fill, (proj2 (Z.leb_le _ _)), (proj2 (Z.ltb_lt _ _)) by lia. cbn. unfold f. by rewrite Z.sub_0_r.
Qed.

(** The whole forward pass: the losses, and the workspace it leaves. *)
Lemma forward_aux B mode targetSize loss w :
  let '(w', loss') := forward T N trans B mode input targetSize loss w in
  forall b, 0 <= b < B -> loss' b = Fin (scaleOf mode targetSize b * ln (partition T N inp tr b))
    /\ scale w' b = Fin (scaleOf mode targetSize b) /\ forall t, 0 <= t < T -> rowOf b t w'.
Proof.
  unfold forward. set (w0 := set_scale _ w).
  destruct (Z.le_gt_cases B 0) as [Hz|Hz]; [unfold for_up; rewrite zrange_nil by lia; cbn; lia|].
  set (I k (st : fcc * buf xreal) := scale st.1 = scale w0 /\ forall b, 0 <= b < k ->
    st.2 b = Fin (scaleOf mode targetSize b * ln (partition T N inp tr b)) /\ forall t, 0 <= t < T -> rowOf b t st.1).
  assert (Hs : forall b, 0 <= b < B -> scale w0 b = Fin (scaleOf mode targetSize b)) by (intros b Hb; by apply computeScale_spec).
  destruct (for_up_ind I 0 B (forwardBatch T N trans input) (w0, loss)) as [I1 I2].
  - lia.
  - split; [done|lia].
  - intros b [w1 l1] Hb [I1 I2]. cbn [fst snd] in *.
    destruct (forwardBatch_spec b w1 l1 (scaleOf mode targetSize b)) as (w2 & -> & R2 & S2 & F2); [by rewrite I1, Hs|].
    split; cbn [fst snd]; [congruence|]. intros b' Hb'. destruct (Z.eq_dec b' b) as [->|]; [by rewrite bset_eq|].
    destruct (I2 b' ltac:(lia)) as [L1 R1]. rewrite bset_ne by done. split; [done|]. intros t Ht m Hm. rewrite F2 by nia. by apply R1.
  - destruct (for_up 0 B _ _) as [w' loss']. cbn [fst snd] in *. intros b Hb. destruct (I2 b Hb) as [L R].
    split_and!; [done|by rewrite I1, Hs|done].
Qed.
End Forward.

(** C31. The loss of every batch entry is the scale times the logarithm of the
    sum, over all sequences of [T] labels, of the exponential of the
    sequence's score; the workspace may hold anything before the call. *)
Theorem forward_logsum (B T N : Z) (inp tr : Z -> R) (mode : CriterionScaleMode) (targetSize : buf Z) (loss : buf xreal)
    (w : fccws xreal) (b : Z) :
  0 < N -> 0 < T -> 0 <= b < B ->
  (forward T N (fun i => Fin (tr i)) B mode (fun i => Fin (inp i)) targetSize loss w).2 b
  = Fin (scaleOf T mode targetSize b * ln (Rsum (seqs N (Z.to_nat T)) (fun p => exp (seqScore T N inp tr b p)))).
Proof.
  intros HN HT Hb. pose proof (forward_aux T N inp tr HN HT B mode targetSize loss w) as Hf.
  destruct (forward _ _ _ _ _ _ _ _ _) as [w' loss']. by apply Hf.
Qed.

(** One frame and two labels with score 0: the loss is the logarithm of 2. *)
Lemma forward_logsum_witness :
  (forward 1 2 (fun _ => Fin 0) 1 NONE (fun _ => Fin 0) (fun _ => 1) (fun _ => NaN)
     (MkFcc (fun _ => NaN) (fun _ => PInf) (fun _ => NaN) (fun _ => NaN) (fun _ => NInf))).2 0 = Fin (ln 2).
Proof.
  rewrite (forward_logsum 1 1 2 (fun _ => 0%R) (fun _ => 0%R) NONE (fun _ => 1) (fun _ => NaN) _ 0 ltac:(lia) ltac:(lia) ltac:(lia)).
  f_equal. change (seqs 2 (Z.to_nat 1)) with [[0]; [1]]. rewrite !Rsum_cons, Rsum_nil. cbn [seqScore scaleOf].
  rewrite !Rplus_0_l, exp_0. rewrite Rmult_1_l. f_equal. lra.
Defined.

(** ** Derivatives of the sum over label sequences: forward and suffix sums, and the
    derivative of the logarithm of the sum with respect to any smooth change of
    the inputs and transitions. *)

Open Scope Z_scope.

Lemma Rsum_deriv {A} (l : list A) (f : A -> R -> R) (d : A -> R) x :
  (forall a, a ∈ l -> derivable_pt_lim (f a) x (d a)) -> derivable_pt_lim (fun y => Rsum l (fun a => f a y)) x (Rsum l d).
Proof.
  induction l as [|a l IH]; intros Hd.
  - apply (derivable_pt_lim_const 0).
  - rewrite Rsum_cons. apply (derivable_pt_lim_plus (f a) (fun y => Rsum l (fun a => f a y))); [apply Hd; by left|].
    apply IH. intros a' Ha'. apply Hd. by right.
Qed.

Lemma exp_deriv (f : R -> R) x d : derivable_pt_lim f x d -> derivable_pt_lim (fun y => exp (f y)) x (exp (f x) * d)%R.
Proof. intros Hf. apply (derivable_pt_lim_comp f exp); [done|]. apply derivable_pt_lim_exp. Qed.

Lemma ln_deriv (f : R -> R) x d : (0 < f x)%R -> derivable_pt_lim f x d -> derivable_pt_lim (fun y => ln (f y)) x (/ f x * d)%R.
Proof. intros Hp Hf. apply (derivable_pt_lim_comp f ln); [done|]. by apply derivable_pt_lim_ln. Qed.

Lemma deriv_ext f g x d : (forall y, f y = g y) -> derivable_pt_lim f x d -> derivable_pt_lim g x d.
Proof. intros E Hf eps Heps. destruct (Hf eps Heps) as [dl Hd]. exists dl. intros h H1 H2. rewrite <- !E. by apply Hd. Qed.

Section Grad.
Context (T N : Z) (inp tr : Z -> R) (b : Z).
Hypothesis HN : 0 < N.
Hypothesis HT : 0 < T.

Abbreviation lab := (zrange 0 N).
Abbreviation A := (endSum T N inp tr b).
Abbreviation inA := (inAt T N inp b).

(** The sums over the labels after time [T - 1 - k], given label [n] there. *)
Fixpoint sufSum (k : nat) (n : Z) : R :=
  match k with
  | O => 1
  | S k' => Rsum lab (fun m => exp (tr (m * N + n)%Z) * exp (inA (T - 1 - Z.of_nat k') m) * sufSum k' m)%R
  end.

Definition suf (t m : Z) : R := sufSum (Z.to_nat (T - 1 - t)) m.

Lemma suf_last m : suf (T - 1) m = 1%R.
Proof. unfold suf. by rewrite Z.sub_diag. Qed.

Lemma suf_step t n : 1 <= t < T ->
  suf (t - 1) n = Rsum lab (fun m => exp (tr (m * N + n)%Z) * exp (inA t m) * suf t m)%R.
Proof.
  intros Ht. unfold suf. replace (Z.to_nat (T - 1 - (t - 1))) with (S (Z.to_nat (T - 1 - t))) by lia. cbn [sufSum].
  apply Rsum_ext. intros m _. by replace (T - 1 - Z.of_nat (Z.to_nat (T - 1 - t))) with t by lia.
Qed.

(** The weight of the sequences with label [m] at [t], and of those that go
    from [n] to [m] at [t]. *)
Definition nodeW (t m : Z) : R := (A (Z.to_nat t) m * suf t m)%R.
Definition edgeW (t m n : Z) : R := (A (Z.to_nat (t - 1)) n * exp (tr (m * N + n)%Z) * exp (inA t m) * suf t m)%R.

Lemma node_edges t n : 1 <= t < T -> nodeW (t - 1) n = Rsum lab (fun m => edgeW t m n).
Proof.
  intros Ht. unfold nodeW, edgeW. rewrite (suf_step t n Ht), Rmult_comm, <- Rsum_scal. apply Rsum_ext. intros m _. ring.
Qed.

(** ** A change of the scores *)

Context (inpx trx : R -> Z -> R) (x0 : R) (dI dT : Z -> R).
Hypothesis Hinp : forall i, inpx x0 i = inp i.
Hypothesis Htr : forall i, trx x0 i = tr i.
Hypothesis Dinp : forall i, derivable_pt_lim (fun x => inpx x i) x0 (dI i).
Hypothesis Dtr : forall i, derivable_pt_lim (fun x => trx x i) x0 (dT i).

Definition dIn (t m : Z) : R := dI (b * T * N + t * N + m).

(** The derivative of [endSum]. *)
Fixpoint dEnd (t : nat) (m : Z) : R :=
  match t with
  | O => (exp (inA 0 m) * dIn 0 m)%R
  | S t' =>
      (Rsum lab (fun n => dEnd t' n * exp (tr (m * N + n)%Z) + A t' n * (exp (tr (m * N + n)%Z) * dT (m * N + n)%Z)) * exp (inA (Z.of_nat t) m)
       + Rsum lab (fun n => A t' n * exp (tr (m * N + n)%Z)) * (exp (inA (Z.of_nat t) m) * dIn (Z.of_nat t) m))%R
  end.

Lemma endSum_at t m : endSum T N (inpx x0) (trx x0) b t m = A t m.
Proof.
  revert m. induction t as [|t IH]; intros m; cbn [endSum]; unfold inAt; rewrite Hinp; [done|]. f_equal.
  apply Rsum_ext. intros n _. by rewrite IH, Htr.
Qed.

Lemma dEnd_deriv t m : derivable_pt_lim (fun x => endSum T N (inpx x) (trx x) b t m) x0 (dEnd t m).
Proof.
  revert m. induction t as [|t IH]; intros m; cbn [endSum dEnd].
  - unfold inAt. rewrite <- Hinp. apply (exp_deriv (fun x => inpx x _)). apply Dinp.
  - replace (Rsum lab (fun n => A t n * exp (tr (m * N + n)%Z))%R)
      with (Rsum lab (fun n => endSum T N (inpx x0) (trx x0) b t n * exp (trx x0 (m * N + n)%Z))%R)
      by (apply Rsum_ext; intros n _; by rewrite endSum_at, Htr).
    unfold inAt. rewrite <- Hinp.
    apply (derivable_pt_lim_mult (fun x => Rsum lab (fun n => endSum T N (inpx x) (trx x) b t n * exp (trx x (m * N + n)%Z))%R)
      (fun x => exp (inpx x (b * T * N + Z.of_nat (S t) * N + m)))).
    + apply (Rsum_deriv lab (fun n x => endSum T N (inpx x) (trx x) b t n * exp (trx x (m * N + n)%Z))%R). intros n _.
      rewrite <- (endSum_at t n), <- Htr.
      apply (derivable_pt_lim_mult (fun x => endSum T N (inpx x) (trx x) b t n) (fun x => exp (trx x (m * N + n)%Z))); [apply IH|].
      apply (exp_deriv (fun x => trx x _)). apply Dtr.
    + apply (exp_deriv (fun x => inpx x _)). apply Dinp.
Qed.

Definition flow (t : Z) : R := Rsum lab (fun m => dEnd (Z.to_nat t) m * suf t m)%R.

Lemma flow_0 : flow 0 = Rsum lab (fun m => nodeW 0 m * dIn 0 m)%R.
Proof. apply Rsum_ext. intros m _. unfold nodeW. change (Z.to_nat 0) with O. cbn [dEnd endSum]. ring. Qed.

Lemma flow_step t : 1 <= t < T ->
  flow t = (flow (t - 1) + Rsum lab (fun m => nodeW t m * dIn t m)
            + Rsum lab (fun m => Rsum lab (fun n => edgeW t m n * dT (m * N + n)%Z)))%R.
Proof.
  intros Ht. unfold flow at 2.
  rewrite (Rsum_ext _ _ (fun n => Rsum lab (fun m => dEnd (Z.to_nat (t - 1)) n * (exp (tr (m * N + n)%Z) * exp (inA t m) * suf t m))%R)).
  2: { intros n _. rewrite (suf_step t n Ht), Rmult_comm, <- Rsum_scal. apply Rsum_ext. intros m _. ring. }
  rewrite Rsum_swap, <- !Rsum_plus. apply Rsum_ext. intros m _.
  unfold nodeW. replace (Z.to_nat t) with (S (Z.to_nat (t - 1))) by lia. cbn [dEnd endSum].
  replace (Z.of_nat (S (Z.to_nat (t - 1)))) with t by lia.
  set (S1 := Rsum lab (fun n => A (Z.to_nat (t - 1)) n * exp (tr (m * N + n)%Z))%R).
  rewrite Rsum_plus.
  assert (E1 : Rsum lab (fun n => dEnd (Z.to_nat (t - 1)) n * (exp (tr (m * N + n)%Z) * exp (inA t m) * suf t m))%R
    = (Rsum lab (fun n => dEnd (Z.to_nat (t - 1)) n * exp (tr (m * N + n)%Z)) * (exp (inA t m) * suf t m))%R).
  { rewrite <- Rsum_scal. apply Rsum_ext. intros n _. ring. }
  assert (E2 : Rsum lab (fun n => edgeW t m n * dT (m * N + n)%Z)%R
    = (Rsum lab (fun n => A (Z.to_nat (t - 1)) n * (exp (tr (m * N + n)%Z) * dT (m * N + n)%Z)) * (exp (inA t m) * suf t m))%R).
  { rewrite <- Rsum_scal. apply Rsum_ext. intros n _. unfold edgeW. ring. }
  rewrite E1, E2. ring.
Qed.

(** The derivative of the sum over label sequences. *)
Lemma flow_total :
  flow (T - 1) = (Rsum (zrange 0 T) (fun t => Rsum lab (fun m => nodeW t m * dIn t m))
    + Rsum (zrange 1 T) (fun t => Rsum lab (fun m => Rsum lab (fun n => edgeW t m n * dT (m * N + n)%Z))))%R.
Proof.
  cut (forall k : nat, Z.of_nat k < T -> flow (Z.of_nat k) =
    (Rsum (zrange 0 (Z.of_nat k + 1)) (fun t => Rsum lab (fun m => nodeW t m * dIn t m))
    + Rsum (zrange 1 (Z.of_nat k + 1)) (fun t => Rsum lab (fun m => Rsum lab (fun n => edgeW t m n * dT (m * N + n)%Z))))%R).
  { intros Hc. specialize (Hc (Z.to_nat (T - 1)) ltac:(lia)). rewrite Z2Nat.id in Hc by lia. by replace (T - 1 + 1) with T in Hc by lia. }
  induction k as [|k IH]; intros Hk.
  - change (Z.of_nat 0 + 1) with 1. rewrite (zrange_nil 1 1) by lia. change (zrange 0 1) with [0].
    change (Z.of_nat 0) with 0. rewrite flow_0, Rsum_cons, !Rsum_nil. lra.
  - replace (Z.of_nat (S k)) with (Z.of_nat k + 1) in * by lia. rewrite flow_step by lia.
    rewrite Z.add_simpl_r, IH, !(zrange_snoc _ (Z.of_nat k + 1)) by lia. rewrite !Rsum_app, !Rsum_cons, !Rsum_nil. lra.
Qed.

Lemma flow_last : flow (T - 1) = Rsum lab (dEnd (Z.to_nat (T - 1))).
Proof. apply Rsum_ext. intros m _. rewrite suf_last. lra. Qed.

Lemma partition_pos : (0 < partition T N inp tr b)%R.
Proof. rewrite partition_endSum by done. apply Rsum_pos; [by apply zrange_nonempty|]. intros m _. by apply endSum_pos. Qed.

Lemma partition_deriv :
  derivable_pt_lim (fun x => ln (partition T N (inpx x) (trx x) b)) x0 (/ partition T N inp tr b * flow (T - 1))%R.
Proof.
  assert (E0 : partition T N (inpx x0) (trx x0) b = partition T N inp tr b).
  { rewrite !partition_endSum by done. apply Rsum_ext. intros m _. apply endSum_at. }
  rewrite <- E0. apply (ln_deriv (fun x => partition T N (inpx x) (trx x) b)); [rewrite E0; apply partition_pos|].
  rewrite flow_last. apply (deriv_ext (fun x => Rsum lab (fun m => endSum T N (inpx x) (trx x) b (Z.to_nat (T - 1)) m))).
  - intros x. by rewrite partition_endSum.
  - apply (Rsum_deriv lab (fun m x => endSum T N (inpx x) (trx x) b (Z.to_nat (T - 1)) m)). intros m _. apply dEnd_deriv.
Qed.
End Grad.
