(* ===== verification/FullConnectionBackward.v ===== *)
(** The backward pass of the full connection criterion: the buffers it fills are
    the weights of the label sequences through a label or a transition, so the
    gradients it returns are the derivatives of the loss. *)
From Stdlib Require Import Reals Lra.
From S2P Require Import Prelude Numeric RealSum FullConnection FullConnectionProofs.

Open Scope Z_scope.

Section Batch.
Context (T N : Z) (inp tr : Z -> R) (b : Z).
Hypothesis HN : 0 < N.
Hypothesis HT : 0 < T.

Abbreviation trans := (fun i => Fin (tr i)).
Abbreviation fcc := (fccws xreal).
Abbreviation lab := (zrange 0 N).
Abbreviation A := (endSum T N inp tr b).
Abbreviation cell t m := (b * T * N + t * N + m).
Abbreviation tcell m n := (b * N * N + m * N + n).

(** The shares of the sequences through a label, and through a transition. *)
Definition nodeP (t m : Z) : R := (nodeW T N inp tr b t m / partition T N inp tr b)%R.
Definition edgeP (t m n : Z) : R := (edgeW T N inp tr b t m n / partition T N inp tr b)%R.

Lemma expLoop_spec m (tb : buf xreal) (v : Z -> R) M :
  (forall n, 0 <= n < N -> tb (tcell m n) = Fin (v n)) ->
  exists tb', expLoop N b m (Fin M) tb = (tb', Fin (Rsum lab (fun n => exp (v n)) * exp (- M)))
    /\ (forall n, 0 <= n < N -> tb' (tcell m n) = Fin (exp (v n) * exp (- M)))
    /\ (forall j, ~ (tcell m 0 <= j < tcell m N) -> tb' j = tb j).
Proof.
  intros Hv. unfold expLoop. set (body := fun n '(transBuf, sumValue) => _).
  set (I k (s : buf xreal * xreal) := s.2 = Fin (Rsum (zrange 0 k) (fun n => exp (v n)) * exp (- M))
    /\ (forall n, 0 <= n < k -> s.1 (tcell m n) = Fin (exp (v n) * exp (- M)))
    /\ (forall n, k <= n < N -> s.1 (tcell m n) = Fin (v n))
    /\ (forall j, ~ (tcell m 0 <= j < tcell m N) -> s.1 j = tb j)).
  match goal with |- context [for_up 0 N body ?s0] => set (r := for_up 0 N body s0); assert (HI : I N r) end.
  { apply for_up_ind; [lia| |].
  - split_and!; [|lia|intros; apply Hv; lia|done]. cbn [snd n_zero xreal_num]. rewrite zrange_nil, Rsum_nil by lia. f_equal. lra.
  - intros n [tb1 s1] Hn (I1 & I2 & I3 & I4). cbn [fst snd] in *. unfold body. rewrite (I3 n) by lia. rewrite I1.
    assert (E : n_exp (Fin (v n) - Fin M)%num = Fin (exp (v n) * exp (- M))).
    { cbn. f_equal. by rewrite <- exp_plus. }
    rewrite E. split_and!; cbn [fst snd].
    + rewrite zrange_snoc, Rsum_app, Rsum_cons, Rsum_nil by lia. cbn [n_add xreal_num x_add]. f_equal. lra.
    + intros k Hk. destruct (Z.eq_dec k n) as [->|]; [by rewrite bset_eq|]. rewrite bset_ne by lia. apply I2. lia.
    + intros k Hk. rewrite bset_ne by lia. apply I3. lia.
    + intros j Hj. rewrite bset_ne by lia. by apply I4. }
  clearbody r. destruct r as [tb' s'], HI as (I1 & I2 & _ & I4). cbn [fst snd] in *. subst s'. by exists tb'.
Qed.

(** The loop that scales row [m] and adds it to the gradient of the transitions. *)
Lemma scaleLoop_spec t m S (w : fcc) (e g0 : Z -> R) G :
  (0 < S)%R -> (forall n, 0 <= n < N -> transBuf w (tcell m n) = Fin (e n)) ->
  (forall n, 0 <= n < N -> transBatchGrad w (tcell m n) = Fin (g0 n)) -> alphaGrad w (cell t m) = Fin G ->
  exists w', scaleLoop T N b t m (Fin S) w = w'
    /\ scale w' = scale w /\ alpha w' = alpha w /\ alphaGrad w' = alphaGrad w
    /\ (forall n, 0 <= n < N -> transBuf w' (tcell m n) = Fin (e n / S * G) /\ transBatchGrad w' (tcell m n) = Fin (g0 n + e n / S * G))
    /\ (forall j, ~ (tcell m 0 <= j < tcell m N) -> transBuf w' j = transBuf w j /\ transBatchGrad w' j = transBatchGrad w j).
Proof.
  intros HS He Hg HG. eexists. split; [done|]. unfold scaleLoop. set (body := fun n w => _).
  set (I k (w' : fcc) := scale w' = scale w /\ alpha w' = alpha w /\ alphaGrad w' = alphaGrad w
    /\ (forall n, 0 <= n < k -> transBuf w' (tcell m n) = Fin (e n / S * G) /\ transBatchGrad w' (tcell m n) = Fin (g0 n + e n / S * G))
    /\ (forall j, ~ (tcell m 0 <= j < tcell m k) -> transBuf w' j = transBuf w j /\ transBatchGrad w' j = transBatchGrad w j)).
  apply (for_up_ind I 0 N body w); [lia|by split_and!; [..|lia|]|].
  intros n w1 Hn (S1 & A1 & G1 & C1 & F1). unfold body. destruct (F1 (tcell m n)) as [-> ->]; [lia|].
  rewrite He, Hg, G1, HG by lia.
  assert (E : (Fin (e n) / Fin S * Fin G)%num = Fin (e n / S * G)).
  { cbn. unfold Reqb. destruct (Req_EM_T S 0); [lra|done]. }
  rewrite E. split_and!; cbn [scale alpha alphaGrad transBuf transBatchGrad set_transBatchGrad set_transBuf]; try done.
  - intros k Hk. destruct (Z.eq_dec k n) as [->|]; [by rewrite !bset_eq|]. rewrite !bset_ne by lia. apply C1. lia.
  - intros j Hj. rewrite !bset_ne by lia. apply F1. lia.
Qed.

(** The rows [forward] left in [alpha]. *)
Definition rows (w : fcc) : Prop := forall t, 0 <= t < T -> rowOf T N inp tr b t w.

Lemma row_exp t m (w : fcc) n : 1 <= t < T -> 0 <= n < N ->
  exp (candidate T N tr t m (fun n => ln (A (Z.to_nat (t - 1)) n)) n) = (A (Z.to_nat (t - 1)) n * exp (tr (m * N + n)%Z))%R.
Proof.
  intros Ht Hn. unfold candidate. rewrite (proj2 (Z.eqb_neq t T)) by lia. rewrite exp_plus, exp_ln; [done|]. by apply endSum_pos.
Qed.

Lemma backwardLabels_spec t (w : fcc) (g0 : Z -> Z -> R) :
  1 <= t < T -> rows w -> (forall m, 0 <= m < N -> alphaGrad w (cell t m) = Fin (nodeP t m)) ->
  (forall m n, 0 <= m < N -> 0 <= n < N -> transBatchGrad w (tcell m n) = Fin (g0 m n)) ->
  exists w', backwardLabels T N trans b t lab w = w'
    /\ scale w' = scale w /\ alpha w' = alpha w /\ alphaGrad w' = alphaGrad w
    /\ (forall m n, 0 <= m < N -> 0 <= n < N ->
          transBuf w' (tcell m n) = Fin (edgeP t m n) /\ transBatchGrad w' (tcell m n) = Fin (g0 m n + edgeP t m n))
    /\ (forall j, ~ (b * N * N <= j < b * N * N + N * N) -> transBatchGrad w' j = transBatchGrad w j).
Proof.
  intros Ht Hrow Hag Htb. eexists. split; [done|].
  set (P k (w' : fcc) := scale w' = scale w /\ alpha w' = alpha w /\ alphaGrad w' = alphaGrad w
    /\ (forall m n, 0 <= m < k -> 0 <= n < N ->
          transBuf w' (tcell m n) = Fin (edgeP t m n) /\ transBatchGrad w' (tcell m n) = Fin (g0 m n + edgeP t m n))
    /\ (forall j, ~ (b * N * N <= j < b * N * N + k * N) -> transBatchGrad w' j = transBatchGrad w j)).
  cut (forall k w', 0 <= k <= N -> P k w' -> P N (backwardLabels T N trans b t (zrange k N) w')).
  { intros Hc. apply Hc; [lia|]. by split_and!; [..|lia|]. }
  intros k w' Hk. remember (Z.to_nat (N - k)) as n eqn:En. revert k w' Hk En.
  induction n as [|n IH]; intros k w' Hk En (P1 & P2 & P3 & P4 & P5).
  - assert (k = N) as -> by lia. by rewrite zrange_nil by lia.
  - rewrite zrange_cons by lia. cbn [backwardLabels].
    destruct (maxLoop_spec T N tr HN b t k (alpha w') (transBuf w') (fun n => ln (A (Z.to_nat (t - 1)) n))) as (tb & M & -> & Htb1 & Fr1).
    { intros n' Hn'. rewrite P2. apply Hrow; lia. }
    destruct (expLoop_spec k tb _ M Htb1) as (tb2 & -> & Htb2 & Fr2). rewrite (proj2 (Z.eqb_neq t T)) by lia.
    set (S := (Rsum lab _ * exp (- M))%R) in *.
    assert (HS : (0 < S)%R) by (apply Rmult_lt_0_compat; [by apply exp_sum_pos|apply exp_pos]).
    destruct (scaleLoop_spec t k S (set_transBuf tb2 w')
      (fun n => exp (candidate T N tr t k (fun n => ln (A (Z.to_nat (t - 1)) n)) n) * exp (- M))%R (g0 k) (nodeP t k))
      as (w2 & -> & S2 & A2 & G2 & C2 & F2); [done|exact Htb2| | |].
    { intros n' Hn'. cbn. rewrite P5 by nia. apply Htb; lia. }
    { cbn. rewrite P3. apply Hag. lia. }
    apply IH; [lia|lia|]. cbn [scale alpha alphaGrad transBuf transBatchGrad set_transBuf] in *.
    split_and!; [congruence|congruence|congruence| |].
    + intros m n' Hm Hn'. destruct (Z.eq_dec m k) as [->|].
      * destruct (C2 n' Hn') as [-> ->].
        assert (E : (exp (candidate T N tr t k (fun n => ln (A (Z.to_nat (t - 1)) n)) n') * exp (- M) / S * nodeP t k)%R = edgeP t k n').
        { unfold S. rewrite (Rsum_ext lab (fun n => exp (candidate T N tr t k (fun n => ln (A (Z.to_nat (t - 1)) n)) n))
            (fun n => A (Z.to_nat (t - 1)) n * exp (tr (k * N + n)%Z))%R) by (intros ? ?%elem_of_zrange; by apply row_exp).
          rewrite row_exp by done. unfold nodeP, edgeP, nodeW, edgeW.
          replace (Z.to_nat t) with (Datatypes.S (Z.to_nat (t - 1))) by lia. cbn [endSum].
          replace (Z.of_nat (Datatypes.S (Z.to_nat (t - 1)))) with t by lia.
          set (R0 := Rsum lab (fun n => A (Z.to_nat (t - 1)) n * exp (tr (k * N + n)%Z))%R).
          assert (0 < R0)%R by (apply Rsum_pos; [by apply zrange_nonempty|]; intros ? _;
            apply Rmult_lt_0_compat; [by apply endSum_pos|apply exp_pos]).
          pose proof (exp_pos (- M)). pose proof (partition_pos T N inp tr b HN HT). field. lra. }
        by rewrite E.
      * destruct (F2 (tcell m n')) as [-> ->]; [nia|]. rewrite Fr2, Fr1 by nia. apply P4; lia.
    + intros j Hj. destruct (F2 j) as [_ ->]; [nia|]. apply P5. nia.
Qed.
Lemma accumulate_spec c (tb ag : buf xreal) (i : Z -> Z) a0 (h : Z -> R) :
  ag c = Fin a0 -> (forall n, 0 <= n < N -> tb (i n) = Fin (h n)) ->
  let ag' := for_up 0 N (fun n ag => bset c (ag c + tb (i n))%num ag) ag in
  ag' c = Fin (a0 + Rsum lab h) /\ forall j, j <> c -> ag' j = ag j.
Proof.
  intros Ha Hh. cbv zeta.
  apply (for_up_ind (fun k ag' => ag' c = Fin (a0 + Rsum (zrange 0 k) h) /\ forall j, j <> c -> ag' j = ag j) 0 N); [lia| |].
  - split; [|done]. rewrite Ha, zrange_nil, Rsum_nil by lia. f_equal. lra.
  - intros n ag1 Hn [I1 I2]. split; [|intros j Hj; rewrite bset_ne by done; by apply I2].
    rewrite bset_eq, I1, Hh by done. rewrite zrange_snoc, Rsum_app, Rsum_cons, Rsum_nil by lia. cbn. f_equal. lra.
Qed.

Lemma columnSums_spec t tb ag (h : Z -> Z -> R) :
  (forall m n, 0 <= m < N -> 0 <= n < N -> tb (tcell m n) = Fin (h m n)) ->
  (forall m, 0 <= m < N -> ag (cell (t - 1) m) = Fin 0) ->
  (forall m, 0 <= m < N -> columnSums T N b t tb ag (cell (t - 1) m) = Fin (Rsum lab (fun n => h n m)))
  /\ (forall j, ~ (cell (t - 1) 0 <= j < cell (t - 1) N) -> columnSums T N b t tb ag j = ag j).
Proof.
  intros Hh Ha. unfold columnSums.
  set (I k (ag' : buf xreal) := (forall m, 0 <= m < k -> ag' (cell (t - 1) m) = Fin (Rsum lab (fun n => h n m)))
    /\ (forall j, ~ (cell (t - 1) 0 <= j < cell (t - 1) k) -> ag' j = ag j)).
  apply (for_up_ind I 0 N); [lia|split; [lia|done]|]. intros m ag1 Hm [I1 I2].
  destruct (accumulate_spec (cell (t - 1) m) tb ag1 (fun n => tcell n m) 0 (fun n => h n m)) as [E1 E2].
  { rewrite I2 by lia. by apply Ha. }
  { intros n Hn. by apply Hh. }
  split.
  - intros k Hk. destruct (Z.eq_dec k m) as [->|]; [|rewrite E2 by lia; apply I1; lia]. rewrite E1. f_equal. lra.
  - intros j Hj. rewrite E2 by lia. apply I2. lia.
Qed.

(** The invariant of the loop over frames: the rows from [k - 1] on are done. *)
Record done_from (k : Z) (w w' : fcc) : Prop := {
  df_scale : scale w' = scale w;
  df_alpha : alpha w' = alpha w;
  df_rows : forall t m, k - 1 <= t < T -> 0 <= m < N -> alphaGrad w' (cell t m) = Fin (nodeP t m);
  df_rest : forall t m, 0 <= t < k - 1 -> t < T -> 0 <= m < N -> alphaGrad w' (cell t m) = Fin 0;
  df_trans : forall m n, 0 <= m < N -> 0 <= n < N ->
    transBatchGrad w' (tcell m n) = Fin (Rsum (zrange k T) (fun t => edgeP t m n));
  df_frame : forall j, ~ (b * T * N <= j < b * T * N + T * N) -> alphaGrad w' j = alphaGrad w j;
  df_tframe : forall j, ~ (b * N * N <= j < b * N * N + N * N) -> transBatchGrad w' j = transBatchGrad w j;
}.

Lemma backwardStep_last (w w' : fcc) : rows w -> done_from (T + 1) w w' -> done_from T w (backwardStep T N trans b T w').
Proof.
  intros Hrow D. unfold backwardStep. rewrite Z.eqb_refl, zrange_cons by lia. cbn [backwardLabels].
  destruct (maxLoop_spec T N tr HN b T 0 (alpha w') (transBuf w') (fun n => ln (A (Z.to_nat (T - 1)) n))) as (tb & M & -> & Htb1 & Fr1).
  { intros n Hn. rewrite (df_alpha _ _ _ D). apply Hrow; lia. }
  destruct (expLoop_spec 0 tb _ M Htb1) as (tb2 & -> & Htb2 & Fr2). rewrite Z.eqb_refl.
  set (S := Rsum lab _).
  assert (ES : S = partition T N inp tr b).
  { unfold S. rewrite partition_endSum by done. apply Rsum_ext. intros n _. unfold candidate. rewrite Z.eqb_refl, Rplus_0_r.
    apply exp_ln. by apply endSum_pos. }
  assert (Hag : forall m, 0 <= m < N ->
    for_up 0 N (fun n => bset (cell (T - 1) n) (tb2 (tcell 0 n)%Z / Fin (S * exp (- M)))%num) (alphaGrad w') (cell (T - 1) m) = Fin (nodeP (T - 1) m)).
  { intros m Hm. rewrite (for_up_fill (fun n => (tb2 (tcell 0 n)%Z / Fin (S * exp (- M)))%num)).
    rewrite (proj2 (Z.leb_le _ _)), (proj2 (Z.ltb_lt _ _)) by lia. cbn [andb].
    replace (cell (T - 1) m - (b * T * N + (T - 1) * N)) with m by lia. rewrite Htb2 by done. rewrite ES.
    pose proof (exp_pos (- M)). pose proof (partition_pos T N inp tr b HN HT) as HP. cbn [n_div xreal_num x_div].
    unfold Reqb. destruct (Req_EM_T _ 0) as [E0|_]; [apply Rmult_integral in E0; lra|]. f_equal.
    unfold candidate. rewrite Z.eqb_refl, Rplus_0_r, exp_ln by (by apply endSum_pos).
    unfold nodeP, nodeW. rewrite suf_last. field. lra. }
  split; cbn [scale alpha alphaGrad transBuf transBatchGrad set_transBuf set_alphaGrad].
  - apply D.
  - apply D.
  - intros t m Ht Hm. replace t with (T - 1) by lia. by apply Hag.
  - intros t m Ht Ht' Hm. rewrite (for_up_fill (fun n => (tb2 (tcell 0 n)%Z / Fin (S * exp (- M)))%num)).
    destruct (Z.leb_spec (b * T * N + (T - 1) * N + 0) (cell t m)); cbn [andb]; [nia|]. apply (df_rest _ _ _ D); lia.
  - intros m n Hm Hn. rewrite (df_trans _ _ _ D m n Hm Hn). by rewrite !zrange_nil by lia.
  - intros j Hj. rewrite (for_up_fill (fun n => (tb2 (tcell 0 n)%Z / Fin (S * exp (- M)))%num)).
    destruct (Z.leb_spec (b * T * N + (T - 1) * N + 0) j), (Z.ltb_spec j (b * T * N + (T - 1) * N + N)); cbn [andb]; try nia;
      by apply (df_frame _ _ _ D).
  - apply D.
Qed.

Lemma fcc_backwardStep_spec t (w w' : fcc) :
  1 <= t < T -> rows w -> done_from (t + 1) w w' -> done_from t w (backwardStep T N trans b t w').
Proof.
  intros Ht Hrow D. unfold backwardStep. rewrite (proj2 (Z.eqb_neq t T)) by lia.
  assert (Hrow' : rows w') by (intros t' Ht' m Hm; rewrite (df_alpha _ _ _ D); by apply Hrow).
  destruct (backwardLabels_spec t w' (fun m n => Rsum (zrange (t + 1) T) (fun t => edgeP t m n)) Ht Hrow')
    as (w2 & -> & S2 & A2 & G2 & C2 & F2).
  { intros m Hm. apply (df_rows _ _ _ D); lia. }
  { apply (df_trans _ _ _ D). }
  destruct (columnSums_spec t (transBuf w2) (alphaGrad w2) (edgeP t)) as [K1 K2].
  { intros m n Hm Hn. by apply C2. }
  { intros m Hm. rewrite G2. apply (df_rest _ _ _ D); lia. }
  split; cbn [scale alpha alphaGrad transBuf transBatchGrad set_transBuf set_alphaGrad].
  - rewrite S2. apply D.
  - rewrite A2. apply D.
  - intros t' m Ht' Hm. destruct (Z.eq_dec t' (t - 1)) as [->|].
    + rewrite K1 by done. f_equal. unfold nodeP. rewrite node_edges by done. unfold Rdiv. by rewrite <- Rsum_scal.
    + rewrite K2, G2 by nia. apply (df_rows _ _ _ D); lia.
  - intros t' m Ht' Ht2 Hm. rewrite K2, G2 by nia. apply (df_rest _ _ _ D); lia.
  - intros m n Hm Hn. destruct (C2 m n Hm Hn) as [_ ->]. rewrite (zrange_cons t T), Rsum_cons by lia. f_equal. lra.
  - intros j Hj. rewrite K2, G2 by nia. by apply (df_frame _ _ _ D).
  - intros j Hj. rewrite F2 by done. by apply (df_tframe _ _ _ D).
Qed.

Lemma for_down_snoc {S} lo hi (body : Z -> S -> S) s : lo <= hi -> for_down lo (hi + 1) body s = for_down lo hi body (body hi s).
Proof. intros Hle. unfold for_down. rewrite zrange_snoc, reverse_app by done. done. Qed.

Lemma backwardLoop_spec (w : fcc) :
  rows w -> (forall t m, 0 <= t < T -> 0 <= m < N -> alphaGrad w (cell t m) = Fin 0) ->
  (forall m n, 0 <= m < N -> 0 <= n < N -> transBatchGrad w (tcell m n) = Fin 0) ->
  done_from 1 w (for_down 1 (T + 1) (backwardStep T N trans b) w).
Proof.
  intros Hrow Hag Htb. rewrite for_down_snoc by lia.
  apply (for_down_ind (fun k w' => done_from k w w') 1 T); [lia| |].
  - apply backwardStep_last; [done|]. split; try done; [lia| |].
    + intros t m Ht Ht' Hm. apply Hag; lia.
    + intros m n Hm Hn. by rewrite zrange_nil, Rsum_nil, Htb by lia.
  - intros t w' Ht D. by apply fcc_backwardStep_spec.
Qed.
End Batch.

(** * The whole pass *)

Section Backward.
Context (B T N : Z) (inp tr : Z -> R) (sc g : Z -> R).
Hypothesis HN : 0 < N.
Hypothesis HT : 0 < T.

Abbreviation trans := (fun i => Fin (tr i)).
Abbreviation grad := (fun i => Fin (g i)).
Abbreviation fcc := (fccws xreal).

Lemma setZero_spec n (p : buf xreal) j : 0 <= j < n -> setZero n p j = Fin 0.
Proof.
  intros Hj. unfold setZero. rewrite (for_up_fill (fun _ => n_zero) 0).
  by rewrite (proj2 (Z.leb_le _ _)), (proj2 (Z.ltb_lt _ _)) by lia.
Qed.

Lemma cell_bound b t m B' T' N' : 0 <= b < B' -> 0 <= t < T' -> 0 <= m < N' -> 0 <= b * T' * N' + t * N' + m < B' * T' * N'.
Proof. intros Hb Ht Hm. assert (0 <= b * T' + t) by nia. assert (b * T' + t + 1 <= B' * T') by nia. nia. Qed.

Record batches_done (k : Z) (w w' : fcc) (ig : buf xreal) : Prop := {
  bd_scale : scale w' = scale w;
  bd_alpha : alpha w' = alpha w;
  bd_input : forall b t m, 0 <= b < k -> 0 <= t < T -> 0 <= m < N ->
    ig (b * T * N + t * N + m) = Fin (sc b * g b * nodeP T N inp tr b t m);
  bd_trans : forall b m n, 0 <= b < k -> 0 <= m < N -> 0 <= n < N ->
    transBatchGrad w' (b * N * N + m * N + n) = Fin (Rsum (zrange 1 T) (fun t => edgeP T N inp tr b t m n));
  bd_rest : forall b t m, k <= b < B -> 0 <= t < T -> 0 <= m < N -> alphaGrad w' (b * T * N + t * N + m) = Fin 0;
  bd_trest : forall b m n, k <= b < B -> 0 <= m < N -> 0 <= n < N -> transBatchGrad w' (b * N * N + m * N + n) = Fin 0;
}.

Lemma backwardBatch_spec b (w w' : fcc) ig :
  0 <= b < B -> (forall b, 0 <= b < B -> rows T N inp tr b w) -> (forall b, 0 <= b < B -> scale w b = Fin (sc b)) ->
  batches_done b w w' ig ->
  let '(w2, ig2) := backwardBatch T N trans grad b (w', ig) in batches_done (b + 1) w w2 ig2.
Proof.
  intros Hb Hrow Hsc D. unfold backwardBatch.
  assert (L : done_from T N inp tr b 1 w' (for_down 1 (T + 1) (backwardStep T N trans b) w')).
  { apply backwardLoop_spec; [done|done|..].
    - intros t Ht m Hm. rewrite (bd_alpha _ _ _ _ D). by apply (Hrow b).
    - intros t m Ht Hm. apply (bd_rest _ _ _ _ D); lia.
    - intros m n Hm Hn. apply (bd_trest _ _ _ _ D); lia. }
  set (w2 := for_down _ _ _ _) in *. split.
  - rewrite (df_scale _ _ _ _ _ _ _ _ L). apply D.
  - rewrite (df_alpha _ _ _ _ _ _ _ _ L). apply D.
  - intros b' t m Hb' Ht Hm. rewrite (for_up_fill (fun i => (scale w2 b * Fin (g b) * alphaGrad w2 (b * T * N + i)%Z)%num)).
    rewrite Z.add_0_r. destruct (Z.eq_dec b' b) as [->|].
    + rewrite (proj2 (Z.leb_le _ _)), (proj2 (Z.ltb_lt _ _)) by nia. cbn [andb].
      replace (b * T * N + (b * T * N + t * N + m - b * T * N)) with (b * T * N + t * N + m) by lia.
      rewrite (df_rows _ _ _ _ _ _ _ _ L), (df_scale _ _ _ _ _ _ _ _ L), (bd_scale _ _ _ _ D), Hsc by lia. done.
    + destruct (Z.leb_spec (b * T * N) (b' * T * N + t * N + m)), (Z.ltb_spec (b' * T * N + t * N + m) (b * T * N + T * N)); cbn [andb];
        try (apply (bd_input _ _ _ _ D); lia). exfalso. nia.
  - intros b' m n Hb' Hm Hn. destruct (Z.eq_dec b' b) as [->|]; [by apply (df_trans _ _ _ _ _ _ _ _ L)|].
    rewrite (df_tframe _ _ _ _ _ _ _ _ L) by nia. apply (bd_trans _ _ _ _ D); lia.
  - intros b' t m Hb' Ht Hm. rewrite (df_frame _ _ _ _ _ _ _ _ L) by nia. apply (bd_rest _ _ _ _ D); lia.
  - intros b' m n Hb' Hm Hn. rewrite (df_tframe _ _ _ _ _ _ _ _ L) by nia. apply (bd_trest _ _ _ _ D); lia.
Qed.

(** The gradients as shares of the label sequences. *)
Lemma fcc_backward_aux (w : fcc) ig0 tg0 :
  0 <= B -> (forall b, 0 <= b < B -> rows T N inp tr b w) -> (forall b, 0 <= b < B -> scale w b = Fin (sc b)) ->
  let '(_, ig, tg) := backward T N trans B grad ig0 tg0 w in
  (forall b t m, 0 <= b < B -> 0 <= t < T -> 0 <= m < N ->
     ig (b * T * N + t * N + m) = Fin (sc b * g b * nodeP T N inp tr b t m))
  /\ (forall m n, 0 <= m < N -> 0 <= n < N ->
     tg (m * N + n) = Fin (Rsum (zrange 0 B) (fun b => sc b * g b * Rsum (zrange 1 T) (fun t => edgeP T N inp tr b t m n))%R)).
Proof.
  intros HB Hrow Hsc. unfold backward. set (w0 := set_transBatchGrad _ _).
  match goal with |- context [for_up 0 B (backwardBatch T N trans grad) ?s0] =>
    set (r := for_up 0 B (backwardBatch T N trans grad) s0); assert (HI : batches_done B w0 r.1 r.2) end.
  { apply (for_up_ind (fun k st => batches_done k w0 st.1 st.2) 0 B); [done| |].
    - split; cbn [fst snd]; try done; try lia.
      + intros b t m Hb Ht Hm. by apply setZero_spec, cell_bound.
      + intros b m n Hb Hm Hn. by apply setZero_spec, cell_bound.
    - intros b [w' ig'] Hb D. cbn [fst snd] in D. pose proof (backwardBatch_spec b w0 w' ig' Hb Hrow Hsc D) as Hs.
      by destruct (backwardBatch _ _ _ _ _ _). }
  clearbody r. destruct r as [w' ig]. cbn [fst snd] in HI. split; [apply HI|]. intros m n Hm Hn.
  set (tgf b := (sc b * g b * Rsum (zrange 1 T) (fun t => edgeP T N inp tr b t m n))%R).
  apply (for_up_ind (fun k tg => tg (m * N + n) = Fin (Rsum (zrange 0 k) tgf)) 0 B); [done| |].
  - rewrite zrange_nil, Rsum_nil by lia. apply setZero_spec. nia.
  - intros b tg Hb IH.
    set (I k (tg' : buf xreal) := (k <= m * N + n -> tg' (m * N + n) = tg (m * N + n))
      /\ (m * N + n < k -> tg' (m * N + n) = Fin (Rsum (zrange 0 (b + 1)) tgf))).
    assert (HI2 : I (N * N) (for_up 0 (N * N) (fun i transGrad =>
      bset i (transGrad i + scale w' b * Fin (g b) * transBatchGrad w' (b * N * N + i)%Z)%num transGrad) tg)).
    { apply for_up_ind; [nia|split; [done|nia]|]. intros i tg' Hi [I1 I2]. split.
      - intros Hk. rewrite bset_ne by lia. apply I1. lia.
      - intros Hk. destruct (Z.eq_dec i (m * N + n)) as [->|]; [|rewrite bset_ne by lia; apply I2; lia].
        rewrite bset_eq, I1, IH by lia.
        rewrite (bd_scale _ _ _ _ HI). change (scale w0 b) with (scale w b). rewrite Hsc by done.
        replace (b * N * N + (m * N + n)) with (b * N * N + m * N + n) by lia.
        rewrite (bd_trans _ _ _ _ HI) by lia. rewrite zrange_snoc, Rsum_app, Rsum_cons, Rsum_nil by lia.
        cbn [n_add n_mul xreal_num x_add x_mul]. f_equal. unfold tgf. lra. }
    apply HI2. nia.
Qed.
End Backward.

(** * Derivatives *)

(** [f] with cell [i] replaced. *)
Definition put (i : Z) (x : R) (f : Z -> R) : Z -> R := fun j => if j =? i then x else f j.

Definition unit_at (i : Z) : Z -> R := fun j => if j =? i then 1%R else 0%R.

Lemma put_deriv i f j : derivable_pt_lim (fun x => put i x f j) (f i) (unit_at i j).
Proof. unfold put, unit_at. destruct (j =? i); [apply derivable_pt_lim_id|apply derivable_pt_lim_const]. Qed.

Lemma put_same i f j : put i (f i) f j = f j.
Proof. unfold put. by destruct (Z.eqb_spec j i) as [->|]. Qed.

(** The loss weighted by the incoming gradients. *)
Definition objective (B T N : Z) (mode : CriterionScaleMode) (targetSize : buf Z) (g : Z -> R) (inp tr : Z -> R) : R :=
  Rsum (zrange 0 B) (fun b => scaleOf T mode targetSize b * g b * ln (partition T N inp tr b))%R.

Section Derivative.
Context (B T N : Z) (mode : CriterionScaleMode) (targetSize : buf Z) (g inp tr : Z -> R).
Hypothesis HN : 0 < N.
Hypothesis HT : 0 < T.

Lemma objective_deriv inpx trx x0 dI dT :
  (forall i, inpx x0 i = inp i) -> (forall i, trx x0 i = tr i) ->
  (forall i, derivable_pt_lim (fun x => inpx x i) x0 (dI i)) -> (forall i, derivable_pt_lim (fun x => trx x i) x0 (dT i)) ->
  derivable_pt_lim (fun x => objective B T N mode targetSize g (inpx x) (trx x)) x0
    (Rsum (zrange 0 B) (fun b => scaleOf T mode targetSize b * g b *
       (/ partition T N inp tr b * flow T N inp tr b dI dT (T - 1)))%R).
Proof.
  intros E1 E2 D1 D2.
  apply (Rsum_deriv (zrange 0 B) (fun b x => scaleOf T mode targetSize b * g b * ln (partition T N (inpx x) (trx x) b))%R).
  intros b _. apply (derivable_pt_lim_scal (fun x => ln (partition T N (inpx x) (trx x) b))). by apply partition_deriv.
Qed.

Lemma digits_unique x y m m' K : 0 <= m < K -> 0 <= m' < K -> x * K + m = y * K + m' -> x = y /\ m = m'.
Proof. intros Hm Hm' E. assert (x = y) by nia. subst. lia. Qed.

(** A change of one input flows through the sequences with that label. *)
Lemma flow_input b t m b' :
  0 <= t < T -> 0 <= m < N ->
  flow T N inp tr b' (unit_at (b * T * N + t * N + m)) (fun _ => 0%R) (T - 1) = if b' =? b then nodeW T N inp tr b t m else 0%R.
Proof.
  intros Ht Hm. rewrite flow_total by done.
  rewrite (Rsum_all_zero (zrange 1 T)), Rplus_0_r
    by (intros t' _; apply Rsum_all_zero; intros m' _; apply Rsum_all_zero; intros; lra).
  assert (Hz : forall t' m', 0 <= t' < T -> 0 <= m' < N -> b' <> b \/ t' <> t \/ m' <> m ->
    (nodeW T N inp tr b' t' m' * dIn T N b' (unit_at (b * T * N + t * N + m)) t' m' = 0)%R).
  { intros t' m' Ht' Hm' Hne. unfold dIn, unit_at. destruct (Z.eqb_spec (b' * T * N + t' * N + m') (b * T * N + t * N + m)) as [E|]; [|lra].
    exfalso.
    destruct (digits_unique (b' * T + t') (b * T + t) m' m N) as [E1 E2]; [lia..|].
    destruct (digits_unique b' b t' t T) as [E3 E4]; lia. }
  destruct (Z.eqb_spec b' b) as [->|Hne].
  - rewrite (Rsum_single 0 T _ t); [|done|].
    + rewrite (Rsum_single 0 N _ m); [|done|].
      * unfold dIn, unit_at. rewrite Z.eqb_refl. lra.
      * intros m' Hm' Hne. apply Hz; tauto.
    + intros t' Ht' Hne. apply Rsum_all_zero. intros m' Hm'%elem_of_zrange. apply Hz; tauto.
  - apply Rsum_all_zero. intros t' Ht'%elem_of_zrange. apply Rsum_all_zero. intros m' Hm'%elem_of_zrange. apply Hz; tauto.
Qed.

(** A change of one transition flows through the sequences that take it. *)
Lemma flow_trans m n b :
  0 <= m < N -> 0 <= n < N ->
  flow T N inp tr b (fun _ => 0%R) (unit_at (m * N + n)) (T - 1) = Rsum (zrange 1 T) (fun t => edgeW T N inp tr b t m n).
Proof.
  intros Hm Hn. rewrite flow_total by done.
  rewrite (Rsum_all_zero (zrange 0 T)), Rplus_0_l by (intros t' _; apply Rsum_all_zero; intros; unfold dIn; lra).
  apply Rsum_ext. intros t _.
  assert (Hz : forall m' n', 0 <= m' < N -> 0 <= n' < N -> m' <> m \/ n' <> n ->
    (edgeW T N inp tr b t m' n' * unit_at (m * N + n) (m' * N + n')%Z = 0)%R).
  { intros m' n' Hm' Hn' Hne. unfold unit_at. destruct (Z.eqb_spec (m' * N + n') (m * N + n)); [|lra].
    destruct (digits_unique m' m n' n N) as [E1 E2]; lia. }
  rewrite (Rsum_single 0 N _ m); [|done|].
  - rewrite (Rsum_single 0 N _ n); [|done|].
    + unfold unit_at. rewrite Z.eqb_refl. lra.
    + intros n' Hn' Hne. apply Hz; tauto.
  - intros m' Hm' Hne. apply Rsum_all_zero. intros n' Hn'%elem_of_zrange. apply Hz; tauto.
Qed.

Lemma input_deriv b t m :
  0 <= b < B -> 0 <= t < T -> 0 <= m < N ->
  derivable_pt_lim (fun x => objective B T N mode targetSize g (put (b * T * N + t * N + m) x inp) tr) (inp (b * T * N + t * N + m))
    (scaleOf T mode targetSize b * g b * nodeP T N inp tr b t m)%R.
Proof.
  intros Hb Ht Hm. set (i := b * T * N + t * N + m).
  replace (scaleOf T mode targetSize b * g b * nodeP T N inp tr b t m)%R
    with (Rsum (zrange 0 B) (fun b => scaleOf T mode targetSize b * g b *
       (/ partition T N inp tr b * flow T N inp tr b (unit_at i) (fun _ => 0) (T - 1)))%R).
  - apply (objective_deriv (fun x => put i x inp) (fun _ => tr)); intros j.
    + apply put_same.
    + done.
    + apply put_deriv.
    + apply derivable_pt_lim_const.
  - rewrite (Rsum_single 0 B _ b); [|done|].
    + unfold i. rewrite flow_input, Z.eqb_refl by done. unfold nodeP, Rdiv. ring.
    + intros b' Hb' Hne. unfold i. rewrite flow_input, (proj2 (Z.eqb_neq b' b)) by done. ring.
Qed.

Lemma trans_deriv m n :
  0 <= m < N -> 0 <= n < N ->
  derivable_pt_lim (fun x => objective B T N mode targetSize g inp (put (m * N + n) x tr)) (tr (m * N + n))
    (Rsum (zrange 0 B) (fun b => scaleOf T mode targetSize b * g b * Rsum (zrange 1 T) (fun t => edgeP T N inp tr b t m n))%R).
Proof.
  intros Hm Hn. set (i := m * N + n).
  replace (Rsum (zrange 0 B) (fun b => scaleOf T mode targetSize b * g b * Rsum (zrange 1 T) (fun t => edgeP T N inp tr b t m n))%R)
    with (Rsum (zrange 0 B) (fun b => scaleOf T mode targetSize b * g b *
       (/ partition T N inp tr b * flow T N inp tr b (fun _ => 0) (unit_at i) (T - 1)))%R).
  - apply (objective_deriv (fun _ => inp) (fun x => put i x tr)); intros j.
    + done.
    + apply put_same.
    + apply derivable_pt_lim_const.
    + apply put_deriv.
  - apply Rsum_ext. intros b _. unfold i. rewrite flow_trans by done. unfold edgeP, Rdiv. rewrite Rsum_scal. ring.
Qed.
End Derivative.

(** C10. [backward] after [forward] returns the gradient: every cell of
    [inputGrad] is the derivative with respect to that input, and every cell
    of [transGrad] the derivative with respect to that transition, of the sum
    over the batch of the losses weighted by the incoming gradients. *)
Theorem backward_gradient (B T N : Z) (inp tr g : Z -> R) (mode : CriterionScaleMode) (targetSize : buf Z)
    (loss inputGrad0 transGrad0 : buf xreal) (w : fccws xreal) :
  0 < N -> 0 < T -> 0 <= B ->
  let '(_, inputGrad, transGrad) :=
    backward T N (fun i => Fin (tr i)) B (fun b => Fin (g b)) inputGrad0 transGrad0
      (forward T N (fun i => Fin (tr i)) B mode (fun i => Fin (inp i)) targetSize loss w).1 in
  (forall b t m, 0 <= b < B -> 0 <= t < T -> 0 <= m < N -> let i := b * T * N + t * N + m in
     exists d, inputGrad i = Fin d
       /\ derivable_pt_lim (fun x => objective B T N mode targetSize g (put i x inp) tr) (inp i) d)
  /\ (forall m n, 0 <= m < N -> 0 <= n < N -> let i := m * N + n in
     exists d, transGrad i = Fin d
       /\ derivable_pt_lim (fun x => objective B T N mode targetSize g inp (put i x tr)) (tr i) d).
Proof.
  intros HN HT HB. pose proof (forward_aux T N inp tr HN HT B mode targetSize loss w) as Hf.
  destruct (forward _ _ _ _ _ _ _ _ _) as [w' loss']. cbn [fst].
  pose proof (fcc_backward_aux B T N inp tr (scaleOf T mode targetSize) g HN HT w' inputGrad0 transGrad0 HB) as Hb.
  specialize (Hb (fun b H => proj2 (proj2 (Hf b H))) (fun b H => proj1 (proj2 (Hf b H)))).
  destruct (backward _ _ _ _ _ _ _ _) as [[w2 ig] tg]. destruct Hb as [H1 H2]. split.
  - intros b t m Hb Ht Hm. eexists. split; [by apply H1|]. by apply input_deriv.
  - intros m n Hm Hn. eexists. split; [by apply H2|]. by apply trans_deriv.
Qed.

Definition garbage : fccws xreal := MkFcc (fun _ => NaN) (fun _ => PInf) (fun _ => NaN) (fun _ => NaN) (fun _ => NInf).

(** Two frames, two labels: the sum of the four sequences, and a gradient cell. *)
Lemma backward_gradient_witness :
  exists d, (backward 2 2 (fun _ => Fin 0) 1 (fun _ => Fin 1) (fun _ => NaN) (fun _ => NaN)
      (forward 2 2 (fun _ => Fin 0) 1 NONE (fun _ => Fin 0) (fun _ => 1) (fun _ => NaN) garbage).1).1.2 1 = Fin d
    /\ derivable_pt_lim (fun x => objective 1 2 2 NONE (fun _ => 1) (fun _ => 1%R) (put 1 x (fun _ => 0%R)) (fun _ => 0%R)) 0 d.
Proof.
  pose proof (backward_gradient 1 2 2 (fun _ => 0%R) (fun _ => 0%R) (fun _ => 1%R) NONE (fun _ => 1) (fun _ => NaN) (fun _ => NaN)
    (fun _ => NaN) garbage ltac:(lia) ltac:(lia) ltac:(lia)) as Hg.
  destruct (backward _ _ _ _ _ _ _ _) as [[w2 ig] tg]. destruct Hg as [Hg _].
  exact (Hg 0 0 1 ltac:(lia) ltac:(lia) ltac:(lia)).
Defined.
