(* ===== verification/ForceAlignment.v ===== *)
(** The force alignment criterion
    (lib/sequence/criterion/cpu/ForceAlignmentCriterion.cpp).

    A target of [L] labels is aligned to [T] frames by staying at a label or moving
    to the next one.  [forward] sums the exponentials of the scores of all
    alignments, [backward] computes the gradients from the workspace of [forward]
    and [viterbi] finds the best alignment.  Rows of [alpha] have [L = targetSize[b]]
    cells, of which only those on some alignment are written. *)
From S2P Require Import Prelude Numeric FullConnection.

Open Scope Z_scope.

Section FAC.
Context {F : Type} `{Num F} `{Elementary F}.

Record facws := MkFac {
  f_scale : buf F;
  f_alpha : buf F;
  f_alphaGrad : buf F;
  f_transBatchGrad : buf F;
  f_transBuf1 : buf F;
  f_transBuf2 : buf F;
  f_transBufGrad1 : buf F;
  f_transBufGrad2 : buf F;
}.

Definition fset_scale (x : buf F) (w : facws) :=
  MkFac x (f_alpha w) (f_alphaGrad w) (f_transBatchGrad w) (f_transBuf1 w) (f_transBuf2 w) (f_transBufGrad1 w) (f_transBufGrad2 w).
Definition fset_alpha (x : buf F) (w : facws) :=
  MkFac (f_scale w) x (f_alphaGrad w) (f_transBatchGrad w) (f_transBuf1 w) (f_transBuf2 w) (f_transBufGrad1 w) (f_transBufGrad2 w).
Definition fset_bufs (x1 x2 : buf F) (w : facws) :=
  MkFac (f_scale w) (f_alpha w) (f_alphaGrad w) (f_transBatchGrad w) x1 x2 (f_transBufGrad1 w) (f_transBufGrad2 w).

Definition fset_grads (ag tg1 tg2 : buf F) (w : facws) :=
  MkFac (f_scale w) (f_alpha w) ag (f_transBatchGrad w) (f_transBuf1 w) (f_transBuf2 w) tg1 tg2.
Definition fset_transBatchGrad (x : buf F) (w : facws) :=
  MkFac (f_scale w) (f_alpha w) (f_alphaGrad w) x (f_transBuf1 w) (f_transBuf2 w) (f_transBufGrad1 w) (f_transBufGrad2 w).

Section Loops.
Context (T N L_ : Z) (target : buf Z) (targetSize : buf Z) (input trans : buf F).

(** [target[i]] of batch entry [b]. *)
Definition tg (b i : Z) : Z := target (b * L_ + i).

(** [transBuf1] and [transBuf2]: the scores of staying at a label and of
    reaching it from the previous one. *)
Definition fillTrans (b : Z) (w : facws) : facws :=
  for_up 0 (targetSize b) (fun i w =>
    fset_bufs (bset (b * L_ + i) (trans (tg b i * N + tg b i)) (f_transBuf1 w))
      (bset (b * L_ + i) (if 0 <? i then trans (tg b i * N + tg b (i - 1)) else n_zero) (f_transBuf2 w)) w) w.

Definition high (t L : Z) : Z := if t <? L then t else L.
Definition low (t L : Z) : Z := if T - t <? L then L - (T - t) else 1.

(** [logSumExp(s1, s2)] *)
Definition logSumExp (s1 s2 : F) : F :=
  if n_lt s1 s2 then (s2 + n_log1p (n_exp (s1 - s2)))%num else (s1 + n_log1p (n_exp (s2 - s1)))%num.

(** The body of the loop over frames; [combine] is the cell computed from
    staying and moving. *)
Definition frame (combine : F -> F -> F -> F) (b t : Z) (tb1 tb2 : buf F) (alpha : buf F) : buf F :=
  let L := targetSize b in
  let prev := b * T * L_ + (t - 1) * L in
  let cur := b * T * L_ + t * L in
  let inputCur i := input (b * T * N + t * N + tg b i) in
  let alpha :=
    if L <=? T - t then bset cur (alpha prev + tb1 (b * L_)%Z + inputCur 0%Z)%num alpha else alpha in
  let alpha :=
    if t <? L then
      bset (cur + high t L) (alpha (prev + high t L - 1)%Z + tb2 (b * L_ + high t L)%Z + inputCur (high t L))%num alpha
    else alpha in
  for_up (low t L) (high t L) (fun i alpha =>
    let s1 := (alpha (prev + i)%Z + tb1 (b * L_ + i)%Z)%num in
    let s2 := (alpha (prev + i - 1)%Z + tb2 (b * L_ + i)%Z)%num in
    bset (cur + i) (combine s1 s2 (inputCur i)) alpha) alpha.

(** ** forward *)

Definition fwdCell (s1 s2 x : F) : F := (logSumExp s1 s2 + x)%num.

Definition forwardBatch (b : Z) (st : facws * buf F) : facws * buf F :=
  let '(w, loss) := st in
  let L := targetSize b in
  let w := fset_alpha (bset (b * T * L_) (input (b * T * N + tg b 0)) (f_alpha w)) w in
  let w := fillTrans b w in
  let w := for_up 1 T (fun t w => fset_alpha (frame fwdCell b t (f_transBuf1 w) (f_transBuf2 w) (f_alpha w)) w) w in
  (w, bset b (f_alpha w (b * T * L_ + T * L - 1)%Z * f_scale w b)%num loss).

Definition forward (B : Z) (scaleMode : CriterionScaleMode) (loss : buf F) (w : facws) : facws * buf F :=
  let w := fset_scale (computeScale B T scaleMode targetSize (f_scale w)) w in
  for_up 0 B forwardBatch (w, loss).

(** ** backward *)

(** [a[i] += x] *)
Definition addTo (i : Z) (x : F) (a : buf F) : buf F := bset i (a i + x)%num a.

(** [d1, d2 = dLogSumExp(s1, s2)] *)
Definition dLogSumExp (s1 s2 : F) : F * F :=
  if n_lt s1 s2 then let d2 := (n_one / (n_one + n_exp (s1 - s2)))%num in ((n_one - d2)%num, d2)
  else let d1 := (n_one / (n_one + n_exp (s2 - s1)))%num in (d1, (n_one - d1)%num).

Definition low1 (t L : Z) : Z := if T - t <? L then L - (T - t) else 0.
Definition high1 (t L : Z) : Z := if t <? L then t + 1 else L.

(** The body of the loop over frames, from the last: the gradients of the input
    row, of the previous row of [alpha] and of the transition scores. *)
Definition backFrame (b t : Z) (st : facws * buf F) : facws * buf F :=
  let '(w, inputGrad) := st in
  let L := targetSize b in
  let prev := b * T * L_ + (t - 1) * L in
  let cur := b * T * L_ + t * L in
  let tb := b * L_ in
  let inputGrad := for_up (low1 t L) (high1 t L) (fun i =>
    fun inputGrad => addTo (b * T * N + t * N + tg b i) (f_alphaGrad w (cur + i)%Z) inputGrad) inputGrad in
  let w :=
    if L <=? T - t then
      fset_grads (addTo prev (f_alphaGrad w cur) (f_alphaGrad w)) (addTo tb (f_alphaGrad w cur) (f_transBufGrad1 w)) (f_transBufGrad2 w) w
    else w in
  let w :=
    if t <? L then
      fset_grads (addTo (prev + high t L - 1) (f_alphaGrad w (cur + high t L)%Z) (f_alphaGrad w)) (f_transBufGrad1 w)
        (addTo (tb + high t L) (f_alphaGrad w (cur + high t L)%Z) (f_transBufGrad2 w)) w
    else w in
  let w := for_up (low t L) (high t L) (fun i w =>
    let s1 := (f_alpha w (prev + i)%Z + f_transBuf1 w (tb + i)%Z)%num in
    let s2 := (f_alpha w (prev + i - 1)%Z + f_transBuf2 w (tb + i)%Z)%num in
    let '(d1, d2) := dLogSumExp s1 s2 in
    let g := f_alphaGrad w (cur + i) in
    fset_grads (addTo (prev + i - 1) (d2 * g)%num (addTo (prev + i) (d1 * g)%num (f_alphaGrad w)))
      (addTo (tb + i) (d1 * g)%num (f_transBufGrad1 w)) (addTo (tb + i) (d2 * g)%num (f_transBufGrad2 w)) w) w in
  (w, inputGrad).

Definition backwardBatch (grad : buf F) (b : Z) (st : facws * buf F) : facws * buf F :=
  let '(w, inputGrad) := st in
  let L := targetSize b in
  let w := fset_grads (bset (b * T * L_ + T * L - 1) n_one (f_alphaGrad w)) (f_transBufGrad1 w) (f_transBufGrad2 w) w in
  let '(w, inputGrad) := for_down 1 T (backFrame b) (w, inputGrad) in
  let inputGrad := addTo (b * T * N + tg b 0) (f_alphaGrad w (b * T * L_)%Z) inputGrad in
  let gradScale := (grad b * f_scale w b)%num in
  let inputGrad := for_up 0 (T * N) (fun i inputGrad =>
    bset (b * T * N + i) (inputGrad (b * T * N + i)%Z * gradScale)%num inputGrad) inputGrad in
  let tbg := for_up 0 L (fun i tbg =>
    let tbg := addTo (b * N * N + (tg b i * N + tg b i)) (f_transBufGrad1 w (b * L_ + i)%Z) tbg in
    if 0 <? i then addTo (b * N * N + (tg b i * N + tg b (i - 1))) (f_transBufGrad2 w (b * L_ + i)%Z) tbg else tbg)
    (f_transBatchGrad w) in
  (fset_transBatchGrad tbg w, inputGrad).

Definition backward (B : Z) (grad inputGrad transGrad : buf F) (w : facws) : facws * buf F * buf F :=
  let inputGrad := setZero (B * T * N) inputGrad in
  let transGrad := setZero (N * N) transGrad in
  let w := fset_grads (setZero (B * T * L_) (f_alphaGrad w)) (setZero (B * L_) (f_transBufGrad1 w)) (setZero (B * L_) (f_transBufGrad2 w)) w in
  let w := fset_transBatchGrad (setZero (B * N * N) (f_transBatchGrad w)) w in
  let '(w, inputGrad) := for_up 0 B (backwardBatch grad) (w, inputGrad) in
  let transGrad := for_up 0 B (fun b => for_up 0 (N * N) (fun i transGrad =>
    addTo i (grad b * f_scale w b * f_transBatchGrad w (b * N * N + i)%Z)%num transGrad)) transGrad in
  (w, inputGrad, transGrad).

(** ** viterbi *)

Definition vitCell (s1 s2 x : F) : F := (x + n_fmax s1 s2)%num.

(** The walk back from the last label. *)
Definition walkBack (b : Z) (w : facws) (bestPaths : buf Z) : buf Z :=
  let L := targetSize b in
  let '(ltrIdx, bestPaths) := for_down 1 T (fun t '(ltrIdx, bestPaths) =>
    let bestPaths := bset (b * T + t) (tg b ltrIdx) bestPaths in
    let prev := b * T * L_ + (t - 1) * L in
    if 0 <? ltrIdx then
      let s1 := (f_alpha w (prev + ltrIdx)%Z + f_transBuf1 w (b * L_ + ltrIdx)%Z)%num in
      let s2 := (f_alpha w (prev + ltrIdx - 1)%Z + f_transBuf2 w (b * L_ + ltrIdx)%Z)%num in
      (if (s2 >? s1)%num then ltrIdx - 1 else ltrIdx, bestPaths)
    else (ltrIdx, bestPaths)) (L - 1, bestPaths) in
  bset (b * T) (tg b ltrIdx) bestPaths.

Definition viterbiBatch (b : Z) (st : facws * buf Z) : facws * buf Z :=
  let '(w, bestPaths) := st in
  let L := targetSize b in
  let w := fset_alpha (for_up 0 (L * T) (fun i => bset (b * T * L_ + i) n_ninf) (f_alpha w)) w in
  let w := fset_alpha (bset (b * T * L_) (input (b * T * N + tg b 0)) (f_alpha w)) w in
  let w := fillTrans b w in
  let w := for_up 1 T (fun t w => fset_alpha (frame vitCell b t (f_transBuf1 w) (f_transBuf2 w) (f_alpha w)) w) w in
  (w, walkBack b w bestPaths).

Definition viterbi (B : Z) (bestPaths : buf Z) (w : facws) : facws * buf Z := for_up 0 B viterbiBatch (w, bestPaths).
End Loops.
End FAC.
Arguments facws : clear implicits.
