(* ===== verification/ForceAlignmentProofs.v ===== *)
(** The force alignment criterion: which cells a frame writes, the sum over
    alignments that [forward] computes over exact reals, and the optimality of the
    alignment that [viterbi] returns. *)
From Stdlib Require Import Reals Lra.
From S2P Require Import Prelude Numeric RealSum FullConnection FullConnectionProofs ForceAlignment.

Open Scope Z_scope.

(** * One frame *)

Section Frame.
Context {F : Type} `{Num F}.
Context (T N L_ : Z) (target targetSize : buf Z) (input : buf F) (b : Z).
Abbreviation L := (targetSize b).
Abbreviation cell t i := (b * T * L_ + t * L + i).
Hypothesis HL : 1 <= L <= T.

(** The labels that an alignment can have reached at [t] and can still leave in
    time. *)
Definition band (t i : Z) : bool := (0 <=? i) && (i <? L) && (i <=? t) && (L - (T - t) <=? i).

Lemma band_spec t i : band t i = true <-> 0 <= i < L /\ i <= t /\ L - (T - t) <= i.
Proof. unfold band. rewrite !andb_true_iff, !Z.leb_le, Z.ltb_lt. lia. Qed.

(** The value of a cell of the band, from the row before. *)
Definition cellValue (combine : F -> F -> F -> F) (t : Z) (tb1 tb2 alpha : buf F) (i : Z) : F :=
  let x := input (b * T * N + t * N + tg L_ target b i) in
  if i =? 0 then (alpha (cell (t - 1) 0) + tb1 (b * L_ + 0)%Z + x)%num
  else if i =? t then (alpha (cell (t - 1) (i - 1)) + tb2 (b * L_ + i)%Z + x)%num
  else combine (alpha (cell (t - 1) i) + tb1 (b * L_ + i)%Z)%num (alpha (cell (t - 1) (i - 1)) + tb2 (b * L_ + i)%Z)%num x.

Lemma frame_cells combine t tb1 tb2 alpha :
  1 <= t < T ->
  let alpha' := frame T N L_ target targetSize input combine b t tb1 tb2 alpha in
  (forall i, 0 <= i < L -> alpha' (cell t i) = if band t i then cellValue combine t tb1 tb2 alpha i else alpha (cell t i))
  /\ (forall j, ~ (cell t 0 <= j < cell t L) -> alpha' j = alpha j).
Proof.
  intros Ht. cbv zeta. unfold frame.
  set (x i := input (b * T * N + t * N + tg L_ target b i)).
  set (prev := b * T * L_ + (t - 1) * L). set (cur := b * T * L_ + t * L).
  assert (Ec : cur = prev + L) by (unfold cur, prev; lia).
  set (a1 := if L <=? T - t then _ else alpha).
  assert (E1 : forall j, a1 j = if (L <=? T - t) && (j =? cur) then cellValue combine t tb1 tb2 alpha 0 else alpha j).
  { intros j. unfold a1. destruct (L <=? T - t); cbn [andb]; [|done]. unfold bset. destruct (j =? cur); [|done].
    unfold cellValue. cbn [Z.eqb]. fold prev. rewrite !Z.add_0_r. done. }
  set (a2 := if t <? L then _ else a1).
  assert (E2 : forall j, a2 j = if (t <? L) && (j =? cur + t) then cellValue combine t tb1 tb2 alpha t else a1 j).
  { intros j. unfold a2, high. destruct (Z.ltb_spec t L); cbn [andb]; [|done]. unfold bset. destruct (j =? cur + t); [|done].
    unfold cellValue. rewrite (proj2 (Z.eqb_neq t 0)), Z.eqb_refl by lia. fold prev.
    rewrite E1. destruct (Z.eqb_spec (prev + t - 1) cur); [lia|]. rewrite andb_false_r. by rewrite Z.add_sub_assoc. }
  assert (Hb : 1 <= low T t L /\ high t L <= L /\ high t L <= t) by (unfold low, high; repeat case_match; lia).
  set (I k (a : buf F) := forall j, a j = if (cur + low T t L <=? j) && (j <? cur + k) then cellValue combine t tb1 tb2 alpha (j - cur) else a2 j).
  assert (HI : forall a3, a3 = for_up (low T t L) (high t L) (fun i alpha =>
      bset (cur + i) (combine (alpha (prev + i)%Z + tb1 (b * L_ + i)%Z)%num (alpha (prev + i - 1)%Z + tb2 (b * L_ + i)%Z)%num (x i)) alpha) a2 ->
    I (Z.max (low T t L) (high t L)) a3).
  { intros a3 ->. destruct (Z.le_gt_cases (high t L) (low T t L)) as [Hle|Hgt].
    - unfold for_up. rewrite zrange_nil, Z.max_l by done. intros j. cbn [fold_left].
      destruct (Z.leb_spec (cur + low T t L) j), (Z.ltb_spec j (cur + low T t L)); done || lia.
    - rewrite Z.max_r by lia. apply for_up_ind; [lia| |].
      + intros j. destruct (Z.leb_spec (cur + low T t L) j), (Z.ltb_spec j (cur + low T t L)); done || lia.
      + intros i a Hi IH j. unfold bset. destruct (Z.eqb_spec j (cur + i)) as [->|Hne].
        * rewrite (proj2 (Z.leb_le _ _)), (proj2 (Z.ltb_lt _ _)) by lia. cbn [andb]. rewrite Z.add_simpl_l.
          assert (Hp : forall k, prev <= k < cur -> a k = alpha k).
          { intros k Hk. rewrite IH, E2, E1. destruct (Z.leb_spec (cur + low T t L) k); [lia|]. cbn [andb].
            destruct (Z.eqb_spec k (cur + t)); [lia|]. destruct (Z.eqb_spec k cur); [lia|]. by rewrite !andb_false_r. }
          rewrite !Hp by lia. unfold cellValue. rewrite (proj2 (Z.eqb_neq i 0)), (proj2 (Z.eqb_neq i t)) by lia.
          fold prev. by rewrite Z.add_sub_assoc.
        * rewrite IH. destruct (Z.leb_spec (cur + low T t L) j), (Z.ltb_spec j (cur + i)), (Z.ltb_spec j (cur + (i + 1))); done || lia. }
  specialize (HI _ eq_refl). unfold I in HI. split.
  - intros i Hi. fold cur. rewrite HI, E2, E1. unfold band.
    replace (cur + i - cur) with i by lia.
    unfold low, high in *.
    destruct (Z.ltb_spec (T - t) L), (Z.ltb_spec t L); 
      repeat match goal with
      | |- context [?a <=? ?b] => destruct (Z.leb_spec a b); try lia
      | |- context [?a <? ?b] => destruct (Z.ltb_spec a b); try lia
      | |- context [?a =? ?b] => destruct (Z.eqb_spec a b); try lia
      end; cbn [andb]; try done; try (f_equal; lia); try lia.
  - intros j Hj. fold cur in Hj. rewrite HI, E2, E1.
    destruct (Z.leb_spec (cur + low T t L) j), (Z.ltb_spec j (cur + Z.max (low T t L) (high t L))); cbn [andb]; try lia;
    destruct (Z.eqb_spec j (cur + t)), (Z.eqb_spec j cur), (Z.ltb_spec t L); rewrite ?andb_false_r; cbn [andb]; try done; lia.
Qed.
End Frame.

Section Trans.
Context {F : Type} `{Num F}.
Context (N L_ : Z) (target targetSize : buf Z) (trans : buf F) (b : Z).

Lemma fillTrans_spec (w : facws F) :
  0 <= targetSize b ->
  let w' := fillTrans N L_ target targetSize trans b w in
  f_alpha w' = f_alpha w /\ f_scale w' = f_scale w
  /\ forall i, 0 <= i < targetSize b ->
       f_transBuf1 w' (b * L_ + i) = trans (tg L_ target b i * N + tg L_ target b i)
       /\ (0 < i -> f_transBuf2 w' (b * L_ + i) = trans (tg L_ target b i * N + tg L_ target b (i - 1))).
Proof.
  intros HL. cbv zeta. unfold fillTrans.
  apply (for_up_ind (fun k w' => f_alpha w' = f_alpha w /\ f_scale w' = f_scale w
    /\ forall i, 0 <= i < k -> f_transBuf1 w' (b * L_ + i) = trans (tg L_ target b i * N + tg L_ target b i)
       /\ (0 < i -> f_transBuf2 w' (b * L_ + i) = trans (tg L_ target b i * N + tg L_ target b (i - 1)))) 0); [done|split_and!; [done|done|lia]|].
  intros i w' Hi (I1 & I2 & I3). split_and!; [done|done|]. intros k Hk. cbn [f_transBuf1 f_transBuf2 fset_bufs].
  destruct (Z.eq_dec k i) as [->|]; [|rewrite !bset_ne by lia; apply I3; lia]. rewrite !bset_eq. split; [done|].
  by intros ->%Z.ltb_lt.
Qed.
End Trans.

(** * Alignments *)

(** Positions in the target, latest first: from the first label, staying or
    moving on by one. *)
Fixpoint aligned (p : list Z) : bool :=
  match p with
  | [] => false
  | i :: p' => match p' with [] => i =? 0 | j :: _ => ((i =? j) || (i =? j + 1)) && aligned p' end
  end.

Section Sums.
Context (T N L_ : Z) (target : buf Z) (inp tr : Z -> R) (b L : Z).
Hypothesis HL : 1 <= L <= T.
Abbreviation tgt := (tg L_ target b).

(** The score of an alignment: that of the labels it assigns to the frames. *)
Definition alignScore (p : list Z) : R := seqScore T N inp tr b (tgt <$> p).

(** Every alignment of the whole target to [T] frames. *)
Definition isAlignment (p : list Z) : Prop := aligned p = true /\ head p = Some (L - 1).
#[global] Instance isAlignment_dec p : Decision (isAlignment p).
Proof. unfold isAlignment. apply _. Defined.
Definition alignments : list (list Z) := filter isAlignment (seqs L (Z.to_nat T)).

Definition weight (p : list Z) : R := if aligned p then exp (alignScore p) else 0%R.

(** The sum over the alignments of the first frames that are at [i] at time [t]. *)
Definition prefixSum (t : nat) (i : Z) : R := Rsum (seqs L t) (fun p => weight (i :: p)).

Lemma prefixSum_0 i : prefixSum 0 i = if i =? 0 then exp (inp (b * T * N + 0 * N + tgt i)%Z) else 0%R.
Proof.
  unfold prefixSum, weight. cbn [seqs]. rewrite Rsum_cons, Rsum_nil, Rplus_0_r. cbn [aligned].
  destruct (i =? 0); [|done]. unfold alignScore. cbn [fmap list_fmap seqScore]. rewrite Rplus_0_l. done.
Qed.

Lemma Rsum_two lo hi (f : Z -> R) i :
  lo <= i < hi -> (forall n, lo <= n < hi -> n <> i -> n <> i - 1 -> f n = 0%R) ->
  Rsum (zrange lo hi) f = (f i + (if lo <? i then f (i - 1)%Z else 0))%R.
Proof.
  intros Hi Hz. rewrite (zrange_app lo i hi), (zrange_cons i hi), Rsum_app, Rsum_cons by lia.
  rewrite (Rsum_all_zero (zrange (i + 1) hi)) by (intros n Hn%elem_of_zrange; apply Hz; lia).
  destruct (Z.ltb_spec lo i).
  - rewrite (Rsum_single lo i f (i - 1)) by (try lia; intros; apply Hz; lia). lra.
  - rewrite zrange_nil, Rsum_nil by lia. lra.
Qed.

Lemma prefixSum_S t i : 0 <= i < L ->
  prefixSum (S t) i =
  ((prefixSum t i * exp (tr (tgt i * N + tgt i)%Z)
    + (if 0 <? i then prefixSum t (i - 1) * exp (tr (tgt i * N + tgt (i - 1))%Z) else 0))
   * exp (inp (b * T * N + Z.of_nat (S t) * N + tgt i)%Z))%R.
Proof.
  intros Hi. unfold prefixSum at 1. cbn [seqs]. rewrite Rsum_flat_map.
  rewrite (Rsum_ext _ _ (fun n => if (i =? n) || (i =? n + 1)
    then (prefixSum t n * (exp (tr (tgt i * N + tgt n)%Z) * exp (inp (b * T * N + Z.of_nat (S t) * N + tgt i)%Z)))%R else 0%R)).
  - rewrite (Rsum_two 0 L _ i) by (try done; intros n Hn H1 H2; destruct (Z.eqb_spec i n), (Z.eqb_spec i (n + 1)); cbn; done || lia).
    rewrite Z.eqb_refl. replace (i - 1 + 1) with i by lia. rewrite Z.eqb_refl, orb_true_r. cbn [orb]. destruct (0 <? i); ring.
  - intros n _. rewrite Rsum_map. unfold weight. destruct ((i =? n) || (i =? n + 1)) eqn:E.
    + unfold prefixSum. rewrite <- Rsum_scal. apply Rsum_ext. intros p Hp%seqs_length. unfold weight.
      change (aligned (i :: n :: p)) with (((i =? n) || (i =? n + 1)) && aligned (n :: p)). rewrite E. cbn [andb].
      destruct (aligned (n :: p)); [|ring]. unfold alignScore. cbn [fmap list_fmap]. cbn [seqScore].
      replace (zlen (tgt n :: (tgt <$> p))) with (Z.of_nat (S t)) by (unfold zlen; cbn; rewrite length_fmap; lia).
      rewrite !exp_plus. ring.
    + apply Rsum_all_zero. intros p _. unfold weight.
      change (aligned (i :: n :: p)) with (((i =? n) || (i =? n + 1)) && aligned (n :: p)). by rewrite E.
Qed.

Lemma prefixSum_beyond t i : Z.of_nat t < i < L -> prefixSum t i = 0%R.
Proof.
  revert i. induction t as [|t IH]; intros i Hi.
  - rewrite prefixSum_0, (proj2 (Z.eqb_neq i 0)) by lia. done.
  - rewrite prefixSum_S by lia. rewrite IH by lia. rewrite (proj2 (Z.ltb_lt 0 i)), IH by lia. ring.
Qed.

Lemma prefixSum_pos t i : 0 <= i < L -> i <= Z.of_nat t -> (0 < prefixSum t i)%R.
Proof.
  revert i. induction t as [|t IH]; intros i Hi Ht.
  - replace i with 0 by lia. rewrite prefixSum_0. apply exp_pos.
  - rewrite prefixSum_S by done. apply Rmult_lt_0_compat; [|apply exp_pos].
    destruct (Z.le_gt_cases i (Z.of_nat t)) as [Hle|Hgt].
    + apply Rplus_lt_le_0_compat; [apply Rmult_lt_0_compat; [by apply IH|apply exp_pos]|].
      destruct (Z.ltb_spec 0 i); [|lra]. apply Rlt_le, Rmult_lt_0_compat; [apply IH; lia|apply exp_pos].
    + rewrite prefixSum_beyond, Rmult_0_l, Rplus_0_l, (proj2 (Z.ltb_lt 0 i)) by lia.
      apply Rmult_lt_0_compat; [apply IH; lia|apply exp_pos].
Qed.

(** The sum over all alignments is the last prefix sum. *)
Lemma alignments_sum : Rsum alignments (fun p => exp (alignScore p)) = prefixSum (Z.to_nat (T - 1)) (L - 1).
Proof.
  unfold alignments, prefixSum. replace (Z.to_nat T) with (S (Z.to_nat (T - 1))) by lia. cbn [seqs].
  assert (Ef : forall (l : list (list Z)) f, Rsum (filter isAlignment l) f = Rsum l (fun p => if decide (isAlignment p) then f p else 0%R)).
  { intros l f. induction l as [|p l IH]; [done|]. rewrite Rsum_cons, filter_cons. case_decide; rewrite ?Rsum_cons, IH; lra. }
  rewrite Ef, Rsum_flat_map, (Rsum_single 0 L _ (L - 1)); [|lia|].
  - rewrite Rsum_map. apply Rsum_ext. intros p _. unfold weight. case_decide as Hd.
    + destruct Hd as [-> _]. done.
    + destruct (aligned (L - 1 :: p)) eqn:Ea; [|done]. by destruct Hd.
  - intros i Hi Hne. rewrite Rsum_map. apply Rsum_all_zero. intros p _. case_decide as Hd; [|done].
    destruct Hd as [_ Hd]. cbn in Hd. injection Hd as ->. lia.
Qed.
End Sums.

(** * Forward *)

Lemma ln_sum_exp a c : (ln (exp a + exp c) = c + ln (1 + exp (a - c)))%R.
Proof.
  pose proof (exp_pos c). pose proof (exp_pos (a - c)).
  rewrite <- (ln_exp c) at 2. rewrite <- ln_mult by lra. f_equal.
  rewrite Rmult_plus_distr_l, <- exp_plus. replace (c + (a - c))%R with a by lra. lra.
Qed.

Lemma logSumExp_fin a c : logSumExp (Fin a) (Fin c) = Fin (ln (exp a + exp c)).
Proof.
  unfold logSumExp. cbn [n_lt xreal_num x_lt]. destruct (Rltb a c).
  - cbn. rewrite (proj2 (Rlt_bool_true _ _)) by (pose proof (exp_pos (a + - c)); lra). f_equal. by rewrite ln_sum_exp.
  - cbn. rewrite (proj2 (Rlt_bool_true _ _)) by (pose proof (exp_pos (c + - a)); lra). f_equal. by rewrite Rplus_comm with (r1 := exp a), ln_sum_exp.
Qed.

Section Forward.
Context (T N L_ : Z) (target targetSize : buf Z) (inp tr : Z -> R).
Hypothesis HT : 0 < T.
Abbreviation input := (fun i => Fin (inp i)).
Abbreviation trans := (fun i => Fin (tr i)).

Definition alignedRow (b t : Z) (w : facws xreal) : Prop := forall i, band T targetSize b t i = true ->
  f_alpha w (b * T * L_ + t * targetSize b + i) = Fin (ln (prefixSum T N L_ target inp tr b (targetSize b) (Z.to_nat t) i)).

(** The transition scores of the batch entry are in place. *)
Definition transFilled (b : Z) (w : facws xreal) : Prop := forall i, 0 <= i < targetSize b ->
  f_transBuf1 w (b * L_ + i) = trans (tg L_ target b i * N + tg L_ target b i)
  /\ (0 < i -> f_transBuf2 w (b * L_ + i) = trans (tg L_ target b i * N + tg L_ target b (i - 1))).

Lemma prefix_step b t i :
  1 <= t -> 0 <= i < targetSize b ->
  let S t := prefixSum T N L_ target inp tr b (targetSize b) (Z.to_nat t) in
  S t i = ((S (t - 1)%Z i * exp (tr (tg L_ target b i * N + tg L_ target b i)%Z)
    + (if 0 <? i then S (t - 1)%Z (i - 1)%Z * exp (tr (tg L_ target b i * N + tg L_ target b (i - 1))%Z) else 0))
   * exp (inp (b * T * N + t * N + tg L_ target b i)%Z))%R.
Proof.
  intros Ht Hi. cbv beta zeta. replace (Z.to_nat t) with (Datatypes.S (Z.to_nat (t - 1))) by lia. rewrite prefixSum_S by done.
  by replace (Z.of_nat (Datatypes.S (Z.to_nat (t - 1)))) with t by lia.
Qed.

Lemma ln_mul3 a c d : (0 < a)%R -> ln (a * exp c * exp d) = (ln a + c + d)%R.
Proof. intros. pose proof (exp_pos c). pose proof (exp_pos d). rewrite !ln_mult, !ln_exp by (try apply Rmult_lt_0_compat; done). lra. Qed.

Lemma forwardFrame_spec b t w :
  1 <= targetSize b <= T -> 1 <= t < T -> transFilled b w -> alignedRow b (t - 1) w ->
  alignedRow b t (fset_alpha (frame T N L_ target targetSize input fwdCell b t (f_transBuf1 w) (f_transBuf2 w) (f_alpha w)) w).
Proof.
  intros HL Ht Htr Hrow i Hi. pose proof (proj1 (band_spec _ _ _ _ _) Hi) as (Hi1 & Hi2 & Hi3).
  destruct (frame_cells T N L_ target targetSize input b HL fwdCell t (f_transBuf1 w) (f_transBuf2 w) (f_alpha w) Ht) as [Hc _].
  cbn [f_alpha fset_alpha]. rewrite Hc, Hi by done. unfold cellValue.
  set (P t := prefixSum T N L_ target inp tr b (targetSize b) (Z.to_nat t)).
  assert (Hb : forall k, 0 <= k < targetSize b -> k <= t - 1 -> i - 1 <= k -> f_alpha w (b * T * L_ + (t - 1) * targetSize b + k) = Fin (ln (P (t - 1) k))).
  { intros k Hk1 Hk2 Hk3. apply Hrow, band_spec. lia. }
  assert (Hp : forall k, 0 <= k < targetSize b -> k <= t - 1 -> (0 < P (t - 1)%Z k)%R).
  { intros k Hk1 Hk2. apply prefixSum_pos; lia. }
  destruct (Htr i Hi1) as [E1 E2]. fold (P t). unfold P at 1. rewrite (prefix_step b t i) by lia. fold (P (t - 1)).
  destruct (Z.eqb_spec i 0) as [->|Hi0]; [|rewrite (proj2 (Z.ltb_lt 0 i)) by lia; destruct (Z.eqb_spec i t) as [->|Hit]].
  - rewrite Hb, E1 by lia. cbn [n_add xreal_num x_add Z.ltb Z.compare]. rewrite Rplus_0_r, ln_mul3 by (apply Hp; lia). done.
  - rewrite Hb, E2 by lia. cbn [n_add xreal_num x_add]. unfold P at 2. rewrite prefixSum_beyond by lia.
    rewrite Rmult_0_l, Rplus_0_l, ln_mul3 by (apply Hp; lia). done.
  - rewrite !Hb, E1, E2 by lia. unfold fwdCell. cbn [n_add xreal_num x_add]. rewrite logSumExp_fin. cbn [n_add xreal_num x_add]. f_equal.
    rewrite !exp_plus, !exp_ln by (apply Hp; lia). rewrite ln_mult, ln_exp; [done| |apply exp_pos].
    apply Rplus_lt_0_compat; apply Rmult_lt_0_compat; try apply exp_pos; apply Hp; lia.
Qed.

Lemma forwardBatch_fac b w loss sc :
  1 <= targetSize b <= T -> f_scale w b = Fin sc ->
  exists w', forwardBatch T N L_ target targetSize input trans b (w, loss)
    = (w', bset b (Fin (ln (Rsum (alignments T (targetSize b)) (fun p => exp (alignScore T N L_ target inp tr b p))) * sc)) loss)
    /\ f_scale w' = f_scale w.
Proof.
  intros HL Hsc. unfold forwardBatch. set (w0 := fset_alpha _ w).
  destruct (fillTrans_spec N L_ target targetSize trans b w0 ltac:(lia)) as (A1 & S1 & T1).
  set (w1 := fillTrans _ _ _ _ _ _ w0) in *.
  set (body := fun t w => fset_alpha _ w).
  assert (HI : alignedRow b (T - 1) (for_up 1 T body w1) /\ transFilled b (for_up 1 T body w1) /\ f_scale (for_up 1 T body w1) = f_scale w).
  { apply (for_up_ind (fun k w' => alignedRow b (k - 1) w' /\ transFilled b w' /\ f_scale w' = f_scale w) 1 T); [lia| |].
    - split_and!; [|exact T1|by rewrite S1]. intros i Hi%band_spec. replace i with 0 by lia. rewrite A1. unfold w0.
      cbn [f_alpha fset_alpha Z.sub]. replace (b * T * L_ + (1 - 1) * targetSize b + 0) with (b * T * L_) by lia.
      rewrite bset_eq. change (Z.to_nat (1 - 1)) with O. rewrite prefixSum_0. cbn [Z.eqb]. rewrite ln_exp. do 2 f_equal. lia.
    - intros t w' Ht (R & Tf & Sw). replace (t + 1 - 1) with t by lia. split_and!; [by apply forwardFrame_spec|done|done]. }
  destruct HI as (R & _ & Sw). eexists. split; [|exact Sw].
  rewrite Sw, Hsc. replace (b * T * L_ + T * targetSize b - 1) with (b * T * L_ + (T - 1) * targetSize b + (targetSize b - 1)) by lia.
  rewrite R by (apply band_spec; lia). rewrite alignments_sum by done. done.
Qed.
End Forward.

(** C26. The force alignment loss of every batch entry is the scale times the
    logarithm of the sum, over all alignments of its target to the [T] frames,
    of the exponential of the alignment's score, provided the target is not
    empty and not longer than the input. *)
Theorem forward_alignments (B T N L_ : Z) (target targetSize : buf Z) (inp tr : Z -> R) (mode : CriterionScaleMode)
    (loss : buf xreal) (w : facws xreal) (b : Z) :
  0 < T -> (forall b, 0 <= b < B -> 1 <= targetSize b <= T) -> 0 <= b < B ->
  (forward T N L_ target targetSize (fun i => Fin (inp i)) (fun i => Fin (tr i)) B mode loss w).2 b
  = Fin (ln (Rsum (alignments T (targetSize b)) (fun p => exp (alignScore T N L_ target inp tr b p))) * scaleOf T mode targetSize b).
Proof.
  intros HT HL Hb. unfold forward. set (w0 := fset_scale _ w).
  set (I k (st : facws xreal * buf xreal) := f_scale st.1 = f_scale w0 /\ forall b, 0 <= b < k -> st.2 b
    = Fin (ln (Rsum (alignments T (targetSize b)) (fun p => exp (alignScore T N L_ target inp tr b p))) * scaleOf T mode targetSize b)).
  match goal with |- context [for_up 0 B ?bd ?s0] => set (r := for_up 0 B bd s0); assert (HI : I B r) end; [|by apply HI].
  apply for_up_ind; [lia|split; [done|lia]|]. intros k [w1 l1] Hk [I1 I2]. cbn [fst snd] in *.
  destruct (forwardBatch_fac T N L_ target targetSize inp tr HT k w1 l1 (scaleOf T mode targetSize k)) as (w2 & -> & S2).
  - by apply HL.
  - rewrite I1. by apply computeScale_spec.
  - split; cbn [fst snd]; [congruence|]. intros b' Hb'. destruct (Z.eq_dec b' k) as [->|]; [by rewrite bset_eq|].
    rewrite bset_ne by done. apply I2. lia.
Qed.

(** One frame and one label: the loss is the input of the label. *)
Lemma forward_alignments_witness :
  (forward 1 1 1 (fun _ => 0) (fun _ => 1) (fun _ => Fin 5) (fun _ => Fin 0) 1 NONE (fun _ => NaN)
     (let g := fun _ => NaN in MkFac g g g g g g g g)).2 0 = Fin 5.
Proof.
  rewrite (forward_alignments 1 1 1 1 (fun _ => 0) (fun _ => 1) (fun _ => 5%R) (fun _ => 0%R) NONE (fun _ => NaN) _ 0
    ltac:(lia) ltac:(intros; lia) ltac:(lia)).
  f_equal. change (alignments 1 1) with [[0]]. rewrite Rsum_cons, Rsum_nil, Rplus_0_r, ln_exp. unfold alignScore.
  cbn [fmap list_fmap seqScore scaleOf]. lra.
Defined.
