(* ===== verification/ForceAlignmentViterbi.v ===== *)
(** The best alignment: [viterbi] of the force alignment criterion assigns to the
    frames the labels of an alignment of the whole target, and no alignment has a
    larger score.  As for ViterbiPath.v, only monotonicity of addition is used, so
    the result holds for IEEE doubles. *)
From S2P Require Import Prelude Float FloatRound Numeric ViterbiPath FullConnection ForceAlignment.
From Stdlib Require Reals.
From S2P Require Import ForceAlignmentProofs.

Open Scope Z_scope.

Section Positions.
Context {F : Type} `{MaxPlus F}.
Context (T N L_ : Z) (target targetSize : buf Z) (input trans : buf F) (b : Z).
Abbreviation L := (targetSize b).
Abbreviation tgt := (tg L_ target b).
Abbreviation cell t i := (b * T * L_ + t * L + i).
Abbreviation inAt t i := (input (b * T * N + t * N + tgt i)).
Abbreviation trAt i j := (trans (tgt i * N + tgt j)).

(** Positions in the target over time: from the first, staying or moving on. *)
Definition positions (q : buf Z) : Prop :=
  q 0 = 0 /\ (forall t, 0 <= t < T -> 0 <= q t < L) /\ forall t, 1 <= t < T -> q t = q (t - 1) \/ q t = q (t - 1) + 1.

(** An alignment of the whole target ends at its last label. *)
Definition alignment (q : buf Z) : Prop := positions q /\ q (T - 1) = L - 1.

Fixpoint posScore (q : buf Z) (t : nat) : F :=
  match t with
  | O => input (b * T * N + tgt (q 0))
  | S t' => let t := Z.of_nat t in (posScore q t' + trAt (q t) (q (t - 1)%Z) + inAt t (q t))%num
  end.

(** The scores the search reads and forms are ordinary values. *)
Definition finitePositions : Prop :=
  (forall t i, 0 <= t < T -> 0 <= i < L -> fin (inAt t i))
  /\ (forall i j, 0 <= i < L -> 0 <= j < L -> fin (trAt i j))
  /\ forall q (t : nat), positions q -> Z.of_nat t < T ->
       fin (posScore q t) /\ forall i, 0 <= i < L -> fin (posScore q t + trAt i (q (Z.of_nat t)))%num.

Hypothesis HL : 1 <= L <= T.
Hypothesis Hfin : finitePositions.

Lemma posScore_ext q q' (t : nat) : (forall s, 0 <= s <= Z.of_nat t -> q s = q' s) -> posScore q t = posScore q' t.
Proof.
  induction t as [|t IH]; intros E; cbn [posScore]; [by rewrite E by lia|].
  rewrite IH by (intros; apply E; lia). by rewrite !E by lia.
Qed.

Lemma posScore_step q t :
  1 <= t -> posScore q (Z.to_nat t) = (posScore q (Z.to_nat (t - 1)) + trAt (q t) (q (t - 1)%Z) + inAt t (q t))%num.
Proof.
  intros Ht. replace (Z.to_nat t) with (S (Z.to_nat (t - 1))) by lia. cbn [posScore].
  by replace (Z.of_nat (S (Z.to_nat (t - 1)))) with t by lia.
Qed.

Lemma positions_le q t : positions q -> 0 <= t < T -> q t <= t.
Proof.
  intros (Q0 & _ & Q2) Ht. cut (forall k : nat, Z.of_nat k < T -> q (Z.of_nat k) <= Z.of_nat k).
  { intros Hc. specialize (Hc (Z.to_nat t)). rewrite Z2Nat.id in Hc by lia. apply Hc. lia. }
  induction k as [|k IH]; intros Hk; [change (Z.of_nat 0) with 0; lia|].
  specialize (Q2 (Z.of_nat (S k)) ltac:(lia)). replace (Z.of_nat (S k) - 1) with (Z.of_nat k) in Q2 by lia.
  specialize (IH ltac:(lia)). lia.
Qed.

Lemma alignment_ge q t : alignment q -> 0 <= t < T -> L - (T - t) <= q t.
Proof.
  intros [(_ & _ & Q2) Qe] Ht. cut (forall k : nat, Z.of_nat k < T -> L - 1 - Z.of_nat k <= q (T - 1 - Z.of_nat k)).
  { intros Hc. specialize (Hc (Z.to_nat (T - 1 - t)) ltac:(lia)).
    replace (T - 1 - Z.of_nat (Z.to_nat (T - 1 - t))) with t in Hc by lia. lia. }
  induction k as [|k IH]; intros Hk; [change (Z.of_nat 0) with 0; rewrite !Z.sub_0_r, Qe; lia|].
  specialize (Q2 (T - 1 - Z.of_nat k) ltac:(lia)). replace (T - 1 - Z.of_nat k - 1) with (T - 1 - Z.of_nat (S k)) in Q2 by lia.
  specialize (IH ltac:(lia)). lia.
Qed.

(** Continue a path from time [t] on at [i]. *)
Definition extend (q : buf Z) (t i : Z) : buf Z := fun s => if s <? t then q s else i.

Lemma extend_positions q t i :
  1 <= t < T -> positions q -> 0 <= i < L -> i = q (t - 1) \/ i = q (t - 1) + 1 -> positions (extend q t i).
Proof.
  intros Ht (Q0 & Q1 & Q2) Hi Hs. unfold extend. split_and!.
  - by rewrite (proj2 (Z.ltb_lt 0 t)) by lia.
  - intros s Hs'. destruct (s <? t); [by apply Q1|done].
  - intros s Hs'. destruct (Z.ltb_spec s t), (Z.ltb_spec (s - 1) t); try lia; [by apply Q2|].
    replace (s - 1) with (t - 1) by lia. done.
Qed.

(** Row [t] holds the best score of a path to every cell of the band, and minus
    infinity elsewhere. *)
Definition bestRow (t : Z) (alpha : buf F) : Prop := forall i, 0 <= i < L ->
  if band T targetSize b t i then
    (exists q, positions q /\ q t = i /\ alpha (cell t i) = posScore q (Z.to_nat t))
    /\ forall q, alignment q -> q t = i -> n_lt (alpha (cell t i)) (posScore q (Z.to_nat t)) = false
  else alpha (cell t i) = n_ninf.

Definition bufsFilled (tb1 tb2 : buf F) : Prop := forall i, 0 <= i < L ->
  tb1 (b * L_ + i) = trAt i i /\ (0 < i -> tb2 (b * L_ + i) = trAt i (i - 1)).

(** The predecessor that the walk chooses. *)
Definition chosen (t i : Z) (tb1 tb2 alpha : buf F) : Z :=
  if 0 <? i then
    if n_lt (alpha (cell (t - 1) i) + tb1 (b * L_ + i)%Z)%num (alpha (cell (t - 1) (i - 1)) + tb2 (b * L_ + i)%Z)%num then i - 1 else i
  else i.

Lemma bestRow_fin t alpha i : 0 <= t < T -> bestRow t alpha -> band T targetSize b t i = true ->
  fin (alpha (cell t i)) /\ forall k, 0 <= k < L -> fin (alpha (cell t i) + trAt k i)%num.
Proof.
  intros Ht Hr Hb. pose proof (proj1 (band_spec _ _ _ _ _) Hb) as (Hi & _). specialize (Hr i Hi). rewrite Hb in Hr.
  destruct Hr as [(q & Pq & Eq & ->) _]. destruct Hfin as (_ & _ & H3). destruct (H3 q (Z.to_nat t) Pq ltac:(lia)) as [G1 G2].
  split; [done|]. intros k Hk. specialize (G2 k Hk). by rewrite Z2Nat.id, Eq in G2 by lia.
Qed.
Lemma chosen_spec t i tb1 tb2 alpha :
  1 <= t < T -> bufsFilled tb1 tb2 -> bestRow (t - 1) alpha -> band T targetSize b t i = true ->
  let j := chosen t i tb1 tb2 alpha in
  (j = i \/ j = i - 1) /\ band T targetSize b (t - 1) j = true
  /\ cellValue T N L_ target targetSize input b vitCell t tb1 tb2 alpha i = (alpha (cell (t - 1) j) + trAt i j + inAt t i)%num
  /\ forall k, k = i \/ k = i - 1 -> band T targetSize b (t - 1) k = true ->
       n_lt (alpha (cell (t - 1) j) + trAt i j)%num (alpha (cell (t - 1) k) + trAt i k)%num = false.
Proof.
  intros Ht Hbuf Hrow Hb. pose proof (proj1 (band_spec _ _ _ _ _) Hb) as (Hi & Hit & Hlo). cbv zeta.
  destruct (Hbuf i Hi) as [E1 E2]. unfold cellValue, chosen.
  assert (Hf : forall k, band T targetSize b (t - 1) k = true -> fin (alpha (cell (t - 1) k) + trAt i k)%num).
  { intros k Hk. apply (bestRow_fin (t - 1)); [lia|done|done|done]. }
  assert (Hirr : forall k, band T targetSize b (t - 1) k = true ->
    n_lt (alpha (cell (t - 1) k) + trAt i k)%num (alpha (cell (t - 1) k) + trAt i k)%num = false).
  { intros k Hk. apply mp_irrefl. by apply Hf. }
  destruct (Z.eqb_spec i 0) as [->|Hi0]; [|rewrite (proj2 (Z.ltb_lt 0 i)), E2 by lia; destruct (Z.eqb_spec i t) as [Eit|Hne]].
  - cbn [Z.ltb Z.compare]. assert (Hb0 : band T targetSize b (t - 1) 0 = true) by (apply band_spec; lia).
    split_and!; [by left|done|by rewrite E1|]. intros k [-> | ->] Hk; [by apply Hirr|]. apply band_spec in Hk. lia.
  - assert (Hn : alpha (cell (t - 1) i) = n_ninf).
    { specialize (Hrow i Hi). destruct (band T targetSize b (t - 1) i) eqn:Eb; [apply band_spec in Eb; lia|done]. }
    assert (Hb1 : band T targetSize b (t - 1) (i - 1) = true) by (apply band_spec; lia).
    destruct Hfin as (_ & Hft & _). rewrite Hn, E1, mp_ninf_add by (by apply Hft). rewrite mp_ninf by (by apply Hf).
    split_and!; [by right|done|done|]. intros k [-> | ->] Hk; [apply band_spec in Hk; lia|by apply Hirr].
  - assert (Hb1 : band T targetSize b (t - 1) (i - 1) = true) by (apply band_spec; lia).
    assert (Hb2 : band T targetSize b (t - 1) i = true) by (apply band_spec; lia).
    rewrite E1. set (s1 := (alpha (cell (t - 1) i) + trAt i i)%num). set (s2 := (alpha (cell (t - 1) (i - 1)) + trAt i (i - 1)%Z)%num).
    assert (F1 : fin s1) by (by apply Hf). assert (F2 : fin s2) by (by apply Hf).
    assert (Fx : fin (inAt t i)) by (apply Hfin; lia).
    unfold vitCell, n_fmax. rewrite !mp_nan by done.
    destruct (n_lt s1 s2) eqn:El; (split_and!; [by auto|done|by apply mp_comm|]); intros k [-> | ->] Hk; try by apply Hirr.
    + by apply mp_asym.
    + done.
Qed.

Lemma frame_best t tb1 tb2 alpha :
  1 <= t < T -> bufsFilled tb1 tb2 -> bestRow (t - 1) alpha -> (forall i, 0 <= i < L -> alpha (cell t i) = n_ninf) ->
  bestRow t (frame T N L_ target targetSize input vitCell b t tb1 tb2 alpha).
Proof.
  intros Ht Hbuf Hrow Hinf i Hi.
  destruct (frame_cells T N L_ target targetSize input b HL vitCell t tb1 tb2 alpha Ht) as [Hc _]. rewrite Hc by done.
  destruct (band T targetSize b t i) eqn:Hb; [|by apply Hinf].
  destruct (chosen_spec t i tb1 tb2 alpha Ht Hbuf Hrow Hb) as (Hj & Hbj & -> & Hmax). set (j := chosen t i tb1 tb2 alpha) in *.
  pose proof (proj1 (band_spec _ _ _ _ _) Hbj) as (Hj1 & _).
  pose proof (Hrow j Hj1) as Hrj. rewrite Hbj in Hrj. destruct Hrj as [(q & Pq & Eq & Ea) _].
  assert (Pe : positions (extend q t i)) by (apply extend_positions; [done|done|done|lia]).
  assert (Ee : (alpha (cell (t - 1) j) + trAt i j + inAt t i)%num = posScore (extend q t i) (Z.to_nat t)).
  { rewrite (posScore_step _ t) by lia. unfold extend at 2 3 4. rewrite Z.ltb_irrefl, (proj2 (Z.ltb_lt (t - 1) t)) by lia.
    rewrite Eq, Ea. do 2 f_equal. apply posScore_ext. intros s Hs. unfold extend. by rewrite (proj2 (Z.ltb_lt s t)) by lia. }
  split.
  - exists (extend q t i). split_and!; [done|unfold extend; by rewrite Z.ltb_irrefl|done].
  - intros q' Aq' Eq'. destruct (Aq') as [Pq' _]. pose proof Pq' as (_ & Q1 & Q2). specialize (Q2 t Ht). rewrite Eq' in Q2.
    assert (Hbk : band T targetSize b (t - 1) (q' (t - 1)) = true).
    { apply band_spec. pose proof (positions_le q' (t - 1) Pq' ltac:(lia)). pose proof (alignment_ge q' (t - 1) Aq' ltac:(lia)).
      specialize (Q1 (t - 1) ltac:(lia)). lia. }
    pose proof (Q1 (t - 1) ltac:(lia)) as Hk. pose proof (Hrow _ Hk) as Hrk. rewrite Hbk in Hrk. destruct Hrk as [_ Hopt].
    specialize (Hopt q' Aq' eq_refl). destruct Hfin as (G1 & G2 & G3).
    destruct (G3 q' (Z.to_nat (t - 1)) Pq' ltac:(lia)) as [K1 K2]. specialize (K2 i Hi). rewrite Z2Nat.id in K2 by lia.
    destruct (bestRow_fin (t - 1) alpha (q' (t - 1)) ltac:(lia) Hrow Hbk) as [M1 M2]. specialize (M2 i Hi).
    destruct (bestRow_fin (t - 1) alpha j ltac:(lia) Hrow Hbj) as [_ M3]. specialize (M3 i Hi).
    destruct (G3 q' (Z.to_nat t) Pq' ltac:(lia)) as [K3 _]. destruct (G3 _ (Z.to_nat t) Pe ltac:(lia)) as [K4 _]. rewrite <- Ee in K4.
    rewrite (posScore_step q' t), Eq' in K3 |- * by lia.
    apply mp_add; try done; [by apply G1; lia|].
    eapply mp_trans; [exact K2|exact M2|exact M3| |apply Hmax; [lia|done]]. apply mp_add; try done. by apply G2.
Qed.
(** * The table *)

(** The rows before [k] are final and the others still empty. *)
Record table (k : Z) (tb1 tb2 alpha : buf F) : Prop := {
  ta_best : forall t, 0 <= t < k -> bestRow t alpha;
  ta_empty : forall t i, k <= t < T -> 0 <= i < L -> alpha (cell t i) = n_ninf;
  ta_cell : forall t i, 1 <= t < k -> band T targetSize b t i = true ->
    alpha (cell t i) = cellValue T N L_ target targetSize input b vitCell t tb1 tb2 alpha i;
}.

Lemma bestRow_same t (alpha alpha' : buf F) :
  (forall i, 0 <= i < L -> alpha' (cell t i) = alpha (cell t i)) -> bestRow t alpha -> bestRow t alpha'.
Proof. intros E Hr i Hi. specialize (Hr i Hi). by rewrite E. Qed.

Lemma table_step t tb1 tb2 alpha :
  1 <= t < T -> bufsFilled tb1 tb2 -> table t tb1 tb2 alpha ->
  table (t + 1) tb1 tb2 (frame T N L_ target targetSize input vitCell b t tb1 tb2 alpha).
Proof.
  intros Ht Hbuf [A1 A2 A3].
  destruct (frame_cells T N L_ target targetSize input b HL vitCell t tb1 tb2 alpha Ht) as [Hc Ho].
  set (alpha' := frame _ _ _ _ _ _ _ _ _ _ _ _) in *.
  assert (Hsame : forall t' i, 0 <= t' < T -> t' <> t -> 0 <= i < L -> alpha' (cell t' i) = alpha (cell t' i)).
  { intros t' i Ht' Hne Hi. apply Ho. nia. }
  assert (Hval : forall t' i, 1 <= t' <= t -> band T targetSize b t' i = true ->
    cellValue T N L_ target targetSize input b vitCell t' tb1 tb2 alpha' i = cellValue T N L_ target targetSize input b vitCell t' tb1 tb2 alpha i).
  { intros t' i Ht' Hb%band_spec. unfold cellValue.
    destruct (Z.eqb_spec i 0); [by rewrite Hsame by lia|]. destruct (Z.eqb_spec i t'); by rewrite !Hsame by lia. }
  split.
  - intros t' Ht'. destruct (Z.eq_dec t' t) as [->|]; [apply frame_best; [done|done|apply A1; lia|intros; apply A2; lia]|].
    eapply bestRow_same; [|apply (A1 t'); lia]. intros i Hi. apply Hsame; lia.
  - intros t' i Ht' Hi. rewrite Hsame by lia. apply A2; lia.
  - intros t' i Ht' Hb. rewrite Hval by (done || lia). pose proof (proj1 (band_spec _ _ _ _ _) Hb) as (Hi & _).
    destruct (Z.eq_dec t' t) as [->|]; [by rewrite Hc, Hb|]. rewrite Hsame by lia. apply A3; [lia|done].
Qed.

(** * The walk back *)

Section Walk.
Context (tb1 tb2 alpha : buf F).
Hypothesis Hbuf : bufsFilled tb1 tb2.
Hypothesis Htab : table T tb1 tb2 alpha.

Fixpoint walkFrom (k : nat) : Z :=
  match k with O => L - 1 | S k' => chosen (T - 1 - Z.of_nat k') (walkFrom k') tb1 tb2 alpha end.
Definition walk : buf Z := fun t => walkFrom (Z.to_nat (T - 1 - t)).

Lemma walk_last : walk (T - 1) = L - 1.
Proof. unfold walk. by rewrite Z.sub_diag. Qed.

Lemma walk_prev t : 1 <= t < T -> walk (t - 1) = chosen t (walk t) tb1 tb2 alpha.
Proof.
  intros Ht. unfold walk. replace (Z.to_nat (T - 1 - (t - 1))) with (S (Z.to_nat (T - 1 - t))) by lia. cbn [walkFrom].
  by replace (T - 1 - Z.of_nat (Z.to_nat (T - 1 - t))) with t by lia.
Qed.

Lemma walk_band t : 0 <= t < T -> band T targetSize b t (walk t) = true.
Proof.
  intros Ht. cut (forall k : nat, Z.of_nat k < T -> band T targetSize b (T - 1 - Z.of_nat k) (walk (T - 1 - Z.of_nat k)) = true).
  { intros Hc. specialize (Hc (Z.to_nat (T - 1 - t)) ltac:(lia)). by replace (T - 1 - Z.of_nat (Z.to_nat (T - 1 - t))) with t in Hc by lia. }
  induction k as [|k IH]; intros Hk.
  - change (Z.of_nat 0) with 0. rewrite Z.sub_0_r, walk_last. apply band_spec. lia.
  - replace (T - 1 - Z.of_nat (S k)) with (T - 1 - Z.of_nat k - 1) by lia. rewrite walk_prev by lia.
    destruct (chosen_spec (T - 1 - Z.of_nat k) (walk (T - 1 - Z.of_nat k)) tb1 tb2 alpha ltac:(lia) Hbuf) as (_ & Hb & _);
      [apply (ta_best _ _ _ _ Htab); lia|apply IH; lia|done].
Qed.

Lemma walk_alignment : alignment walk.
Proof.
  split; [|apply walk_last]. split_and!.
  - pose proof (walk_band 0 ltac:(lia)) as Hb%band_spec. lia.
  - intros t Ht. pose proof (walk_band t Ht) as Hb%band_spec. lia.
  - intros t Ht. destruct (chosen_spec t (walk t) tb1 tb2 alpha Ht Hbuf) as (Hj & _);
      [apply (ta_best _ _ _ _ Htab); lia|apply walk_band; lia|]. rewrite <- walk_prev in Hj by done. lia.
Qed.

Lemma walk_score t : 0 <= t < T -> posScore walk (Z.to_nat t) = alpha (cell t (walk t)).
Proof.
  intros Ht. cut (forall k : nat, Z.of_nat k < T -> posScore walk k = alpha (cell (Z.of_nat k) (walk (Z.of_nat k)))).
  { intros Hc. specialize (Hc (Z.to_nat t) ltac:(lia)). by rewrite Z2Nat.id in Hc by lia. }
  destruct walk_alignment as [(W0 & W1 & W2) _]. induction k as [|k IH]; intros Hk.
  - change (Z.of_nat 0) with 0. cbn [posScore]. rewrite W0. pose proof (ta_best _ _ _ _ Htab 0 ltac:(lia) 0 ltac:(lia)) as Hr.
    rewrite (proj2 (band_spec _ _ _ _ _)) in Hr by lia. destruct Hr as [(q & (Q0 & _) & _ & ->) _].
    change (Z.to_nat 0) with O. cbn [posScore]. by rewrite Q0.
  - set (t' := Z.of_nat (S k)). assert (Hb : band T targetSize b t' (walk t') = true) by (apply walk_band; lia).
    rewrite (ta_cell _ _ _ _ Htab t') by (done || lia).
    destruct (chosen_spec t' (walk t') tb1 tb2 alpha ltac:(lia) Hbuf) as (_ & _ & -> & _); [apply (ta_best _ _ _ _ Htab); lia|done|].
    rewrite <- walk_prev by lia. cbn [posScore]. fold t'. rewrite IH by lia.
    by replace (Z.of_nat k) with (t' - 1) by lia.
Qed.

(** No alignment scores higher. *)
Lemma walk_best q : alignment q -> n_lt (posScore walk (Z.to_nat (T - 1))) (posScore q (Z.to_nat (T - 1))) = false.
Proof.
  intros Aq. rewrite walk_score, walk_last by lia.
  pose proof (ta_best _ _ _ _ Htab (T - 1) ltac:(lia) (L - 1) ltac:(lia)) as Hr.
  rewrite (proj2 (band_spec _ _ _ _ _)) in Hr by lia. apply Hr; [done|apply Aq].
Qed.
End Walk.

Lemma walkBack_spec (w : facws F) paths :
  let q := walk (f_transBuf1 w) (f_transBuf2 w) (f_alpha w) in
  let paths' := walkBack T L_ target targetSize b w paths in
  (forall t, 0 <= t < T -> paths' (b * T + t) = tgt (q t)) /\ forall j, ~ (b * T <= j < b * T + T) -> paths' j = paths j.
Proof.
  cbv zeta. set (q := walk _ _ _). unfold walkBack.
  set (I k (st : Z * buf Z) := st.1 = q (k - 1) /\ (forall t, k <= t < T -> st.2 (b * T + t) = tgt (q t))
    /\ forall j, ~ (b * T <= j < b * T + T) -> st.2 j = paths j).
  match goal with |- context [for_down 1 T ?bd ?s0] => set (r := for_down 1 T bd s0); assert (HI : I 1 r) end.
  { apply for_down_ind; [lia| |].
    - split_and!; [symmetry; apply walk_last|lia|done].
    - intros t [i p] Ht (I1 & I2 & I3). cbn [fst snd] in *. rewrite Z.add_simpl_r in I1. subst i.
      assert (E : forall A (x : A) (c : bool) y, (if 0 <? q t then (if c then q t - 1 else y, x) else (y, x)) = (if 0 <? q t then (if c then q t - 1 else y) else y, x))
        by (intros; by destruct (0 <? q t)).
      rewrite E. split_and!; cbn [fst snd].
      + transitivity (chosen t (q t) (f_transBuf1 w) (f_transBuf2 w) (f_alpha w)); [|symmetry; by apply walk_prev].
        unfold chosen. by rewrite !Z.add_sub_assoc.
      + intros t' Ht'. destruct (Z.eq_dec t' t) as [->|]; [by rewrite bset_eq|]. rewrite bset_ne by lia. apply I2. lia.
      + intros j Hj. rewrite bset_ne by lia. by apply I3. }
  clearbody r. destruct r as [i p], HI as (I1 & I2 & I3). cbn [fst snd] in *. split.
  - intros t Ht. destruct (Z.eq_dec t 0) as [->|]; [by rewrite Z.add_0_r, bset_eq, I1|]. rewrite bset_ne by lia. apply I2. lia.
  - intros j Hj. rewrite bset_ne by lia. by apply I3.
Qed.
End Positions.

Section Batch.
Context {F : Type} `{MaxPlus F}.
Context (T N L_ : Z) (target targetSize : buf Z) (input trans : buf F).

Lemma viterbiBatch_spec b (w : facws F) paths :
  1 <= targetSize b <= T -> finitePositions T N L_ target targetSize input trans b ->
  exists w' q, viterbiBatch T N L_ target targetSize input trans b (w, paths) = (w', walkBack T L_ target targetSize b w' paths)
    /\ alignment T targetSize b q
    /\ (forall t, 0 <= t < T -> walkBack T L_ target targetSize b w' paths (b * T + t) = tg L_ target b (q t))
    /\ (forall j, ~ (b * T <= j < b * T + T) -> walkBack T L_ target targetSize b w' paths j = paths j)
    /\ forall q', alignment T targetSize b q' ->
         n_lt (posScore T N L_ target input trans b q (Z.to_nat (T - 1))) (posScore T N L_ target input trans b q' (Z.to_nat (T - 1))) = false.
Proof.
  intros HL Hfin. unfold viterbiBatch. set (w0 := fset_alpha (for_up _ _ _ _) w). set (w1 := fset_alpha (bset _ _ (f_alpha w0)) w0).
  destruct (fillTrans_spec N L_ target targetSize trans b w1 ltac:(lia)) as (A1 & _ & T1).
  set (w2 := fillTrans _ _ _ _ _ _ w1) in *. set (body := fun t w => fset_alpha _ w).
  set (I k (w' : facws F) := f_transBuf1 w' = f_transBuf1 w2 /\ f_transBuf2 w' = f_transBuf2 w2
    /\ table T N L_ target targetSize input trans b k (f_transBuf1 w2) (f_transBuf2 w2) (f_alpha w')).
  assert (HI : I T (for_up 1 T body w2)).
  { apply for_up_ind; [lia| |].
    - split_and!; [done|done|]. rewrite A1. unfold w1, w0. cbn [f_alpha fset_alpha].
      assert (Hinf : forall t i, 0 <= t < T -> 0 <= i < targetSize b -> (t, i) <> (0, 0) ->
        bset (b * T * L_) (input (b * T * N + tg L_ target b 0))
          (for_up 0 (targetSize b * T) (fun i => bset (b * T * L_ + i) n_ninf) (f_alpha w)) (b * T * L_ + t * targetSize b + i) = n_ninf).
      { intros t i Ht Hi Hne. rewrite bset_ne by (intros E; apply Hne; f_equal; nia).
        rewrite (for_up_fill (fun _ => n_ninf)), (proj2 (Z.leb_le _ _)), (proj2 (Z.ltb_lt _ _)) by nia. done. }
      split.
      + intros t Ht i Hi. assert (t = 0) as -> by lia. destruct (band T targetSize b 0 i) eqn:Hb; [apply band_spec in Hb|].
        * replace i with 0 by lia. replace (b * T * L_ + 0 * targetSize b + 0) with (b * T * L_) by lia. rewrite bset_eq.
          change (Z.to_nat 0) with O. split.
          -- exists (fun _ => 0). split_and!; [split_and!; [done|lia|by left]|done|done].
          -- intros q Aq Eq. cbn [posScore]. rewrite Eq. apply mp_irrefl.
             destruct Hfin as (G1 & _ & _). specialize (G1 0 0 ltac:(lia) ltac:(lia)). by rewrite Z.mul_0_l, Z.add_0_r in G1.
        * apply Hinf; [lia|done|]. intros [= ->]. rewrite (proj2 (band_spec _ _ _ _ _)) in Hb by lia. done.
      + intros t i Ht Hi. apply Hinf; [lia|done|]. intros [= -> _]. lia.
      + lia.
    - intros t w' Ht (E1 & E2 & Tb). split_and!; [done|done|]. cbn [body f_alpha fset_alpha]. rewrite E1, E2.
      apply table_step; [done|done|done|exact T1|done]. }
  destruct HI as (E1 & E2 & Tb). set (w3 := for_up 1 T body w2) in *.
  assert (Hbuf : bufsFilled N L_ target targetSize trans b (f_transBuf1 w3) (f_transBuf2 w3)) by (rewrite E1, E2; exact T1).
  rewrite <- E1, <- E2 in Tb.
  destruct (walkBack_spec T L_ target targetSize b HL w3 paths) as [P1 P2].
  exists w3, (walk T L_ targetSize b (f_transBuf1 w3) (f_transBuf2 w3) (f_alpha w3)).
  split_and!; [done|by eapply walk_alignment|done|done|]. intros q' Aq'. by apply walk_best.
Qed.
End Batch.

(** C30. For every batch entry, [viterbi] stores the labels of an alignment of
    the whole target to the [T] frames, and no alignment has a larger score,
    provided the target is not empty and not longer than the input. *)
Theorem viterbi_alignment {F : Type} `{MaxPlus F} (B T N L_ : Z) (target targetSize : buf Z) (input trans : buf F)
    (paths : buf Z) (w : facws F) (b : Z) :
  (forall b, 0 <= b < B -> 1 <= targetSize b <= T /\ finitePositions T N L_ target targetSize input trans b) -> 0 <= b < B ->
  exists q, alignment T targetSize b q
    /\ (forall t, 0 <= t < T -> (viterbi T N L_ target targetSize input trans B paths w).2 (b * T + t) = tg L_ target b (q t))
    /\ forall q', alignment T targetSize b q' ->
         n_lt (posScore T N L_ target input trans b q (Z.to_nat (T - 1))) (posScore T N L_ target input trans b q' (Z.to_nat (T - 1))) = false.
Proof.
  intros HB Hb. unfold viterbi.
  set (I k (st : facws F * buf Z) := b < k -> exists q, alignment T targetSize b q
    /\ (forall t, 0 <= t < T -> st.2 (b * T + t) = tg L_ target b (q t))
    /\ forall q', alignment T targetSize b q' ->
         n_lt (posScore T N L_ target input trans b q (Z.to_nat (T - 1))) (posScore T N L_ target input trans b q' (Z.to_nat (T - 1))) = false).
  match goal with |- context [for_up 0 B ?bd ?s0] => set (r := for_up 0 B bd s0); assert (HI : I B r) end; [|apply HI; lia].
  apply for_up_ind; [lia|intros ?; lia|]. intros k [w1 p1] Hk IH Hlt. cbn [snd] in *. destruct (HB k Hk) as [HL Hf].
  destruct (viterbiBatch_spec T N L_ target targetSize input trans k w1 p1 HL Hf) as (w' & q & -> & Aq & Pq & Fr & Oq). cbn [snd].
  destruct (Z.eq_dec b k) as [->|Hne]; [by exists q|].
  destruct (IH ltac:(lia)) as (q0 & A0 & P0 & O0). exists q0. split_and!; [done| |done].
  intros t Ht. rewrite Fr by nia. by apply P0.
Qed.

(** * A concrete run: three frames for the two labels 1, 0 *)

Definition fac_input : buf f64 := demo_scores [3; 1; 0; 2; 4; 1].
Definition fac_target : buf Z := fun i => if i =? 0 then 1 else 0.
Definition fac_garbage : facws f64 :=
  let g := fun _ => f_inf in MkFac g g g g g g g g.

Lemma fac_finite b : 0 <= b < 1 ->
  1 <= 2 <= 3 /\ finitePositions 3 2 2 fac_target (fun _ => 2) fac_input demo_trans b.
Proof.
  intros Hb. assert (b = 0) as -> by lia. split; [lia|]. split_and!.
  - intros t i Ht Hi. assert (Et : t = 0 \/ t = 1 \/ t = 2) by lia. assert (Ei : i = 0 \/ i = 1) by lia.
    destruct Et as [-> | [-> | ->]], Ei as [-> | ->]; split; vm_compute; reflexivity.
  - intros i j Hi Hj. assert (Ej : j = 0 \/ j = 1) by lia. assert (Ei : i = 0 \/ i = 1) by lia.
    destruct Ej as [-> | ->], Ei as [-> | ->]; split; vm_compute; reflexivity.
  - intros q t (Q0 & Q1 & _) Ht. assert (V1 := Q1 1 ltac:(lia)). assert (V2 := Q1 2 ltac:(lia)).
    assert (E1 : q 1 = 0 \/ q 1 = 1) by lia. assert (E2 : q 2 = 0 \/ q 2 = 1) by lia.
    assert (Et : t = 0%nat \/ t = 1%nat \/ t = 2%nat) by lia.
    destruct Et as [-> | [-> | ->]]; cbn [posScore];
      change (Z.of_nat 0) with 0; change (Z.of_nat 1) with 1; change (Z.of_nat 2) with 2; change (1 - 1) with 0; change (2 - 1) with 1;
      rewrite Q0; destruct E1 as [E1|E1], E2 as [E2|E2]; rewrite ?E1, ?E2;
      (split; [split; vm_compute; reflexivity|]; intros i Hi; assert (Ei : i = 0 \/ i = 1) by lia; destruct Ei as [-> | ->];
       split; vm_compute; reflexivity).
Qed.

Lemma viterbi_alignment_witness :
  let paths := (viterbi 3 2 2 fac_target (fun _ => 2) fac_input demo_trans 1 (fun _ => 99) fac_garbage).2 in
  (paths 0, paths 1, paths 2) = (1, 1, 0)
  /\ exists q, alignment 3 (fun _ => 2) 0 q /\ (forall t, 0 <= t < 3 -> paths (0 * 3 + t) = tg 2 fac_target 0 (q t)).
Proof.
  destruct (viterbi_alignment 1 3 2 2 fac_target (fun _ => 2) fac_input demo_trans (fun _ => 99) fac_garbage 0 fac_finite ltac:(lia))
    as (q & Aq & Pq & _).
  split; [vm_compute; reflexivity|]. exists q. split; [exact Aq|exact Pq].
Defined.
