(* ===== verification/CTC.v ===== *)
(** The Viterbi alignment of the CTC criterion
    (lib/sequence/criterion/cpu/ConnectionistTemporalClassificationCriterion.cpp):
    [setup_labels], [compute_alphas] and [viterbi], with the offsets of the batch
    entry written out and buffers indexed as in the source. *)
From S2P Require Import Prelude Float FloatRound Numeric ViterbiPath.

Open Scope Z_scope.

(** * setup_labels *)

Record increments := MkIncs { s_inc : buf Z; e_inc : buf Z; s_counter : Z; e_counter : Z; repeats : Z }.

(** [s_inc[s_counter++] = x] and [e_inc[e_counter++] = x], from offset [o]. *)
Definition push_s (o x : Z) (c : increments) : increments :=
  MkIncs (bset (o + s_counter c) x (s_inc c)) (e_inc c) (s_counter c + 1) (e_counter c) (repeats c).
Definition push_e (o x : Z) (c : increments) : increments :=
  MkIncs (s_inc c) (bset (o + e_counter c) x (e_inc c)) (s_counter c) (e_counter c + 1) (repeats c).
Definition incRepeats (c : increments) : increments :=
  MkIncs (s_inc c) (e_inc c) (s_counter c) (e_counter c) (repeats c + 1).

(** The loop over pairs of labels. *)
Definition pairStep (labels : buf Z) (o i : Z) (c : increments) : increments :=
  if labels (i - 1) =? labels i then
    incRepeats (push_e o 1 (push_e o 1 (push_s o 1 (push_s o 1 c))))
  else push_e o 2 (push_s o 2 c).

Definition setup_incs (labels : buf Z) (o L : Z) (s_inc e_inc : buf Z) : increments :=
  push_e o 1 (for_up 1 L (pairStep labels o) (push_s o 1 (MkIncs s_inc e_inc 0 0 0))).

Definition setup_blanks (labels : buf Z) (o blank_label L S : Z) (labels_w_blanks : buf Z) : buf Z :=
  bset (o + S - 1) blank_label
    (for_up 0 L (fun i lwb => bset (o + 2 * i + 1) (labels i) (bset (o + 2 * i) blank_label lwb)) labels_w_blanks).

Section CTC.
Context {F : Type} `{Num F}.

(** * compute_alphas *)

Record lattice := MkLat { start : Z; stop : Z; alphas : buf F; backptr : buf Z }.

(** The body of the loop over labels at frame [t]. *)
Definition alphaCell (input : buf F) (labels : buf Z) (io lo ao S N t i : Z) (a : buf F * buf Z) : buf F * buf Z :=
  let '(alphas, backptr) := a in
  let idx1 := ao + t * S in
  let idx2 := ao + (t - 1) * S in
  let x0 := alphas (i + idx2) in
  let x1 := alphas (i - 1 + idx2) in
  let x2 := if negb (labels (lo + i) =? N - 1) && negb (i =? 1) && negb (labels (lo + i) =? labels (lo + i - 2))
            then alphas (i - 2 + idx2) else n_ninf in
  let '(result, p) :=
    if n_lt x1 x2 && n_lt x0 x2 then (x2, 2)
    else if n_lt x0 x1 && n_lt x2 x1 then (x1, 1)
    else (x0, 0) in
  (bset (i + idx1) (result + input (io + labels (lo + i)%Z + t * N)%Z)%num alphas, bset (i + idx1) p backptr).

(** The body of the loop over frames. *)
Definition alphaFrame (input : buf F) (labels s_inc e_inc : buf Z) (repeats io lo ao S T N t : Z) (l : lattice) : lattice :=
  let remain := S / 2 + repeats - (T - t) in
  let start := if 0 <=? remain then start l + s_inc (lo + remain) else start l in
  let stop := if t <=? S / 2 + repeats then stop l + e_inc (lo + t - 1) else stop l in
  let idx1 := ao + t * S in
  let idx2 := ao + (t - 1) * S in
  let '(a, startloop) :=
    if start =? 0 then
      ((bset idx1 (alphas l idx2 + input (io + (N - 1) + t * N)%Z)%num (alphas l), bset idx1 0 (backptr l)), start + 1)
    else ((alphas l, backptr l), start) in
  let '(alphas, backptr) := for_up startloop stop (alphaCell input labels io lo ao S N t) a in
  MkLat start stop alphas backptr.

(** The walk back; the back pointer of frame 0 is read but not used. *)
Definition walkBack (labels backptr : buf Z) (alphas : buf F) (lo ao po S T : Z) (paths : buf Z) : buf Z :=
  let ltrIdx := if n_lt (alphas (ao + T * S - 2)) (alphas (ao + T * S - 1)) then S - 1 else S - 2 in
  (for_down 0 T (fun t '(ltrIdx, paths) => (ltrIdx - backptr (ao + t * S + ltrIdx), bset (po + t) (labels (lo + ltrIdx)) paths))
    (ltrIdx, paths)).2.

Definition compute_alphas (input : buf F) (repeats S T N : Z) (e_inc s_inc labels : buf Z) (io lo ao po : Z)
    (alphas0 : buf F) (backptr0 paths : buf Z) : buf F * buf Z * buf Z :=
  let start0 := if S / 2 + repeats - T <? 0 then 0 else 1 in
  let stop0 := if 1 <? S then 2 else 1 in
  let a := for_up 0 (S * T) (fun i => bset (ao + i) n_ninf) alphas0 in
  let a := for_up start0 stop0 (fun i => bset (ao + i) (input (io + labels (lo + i)))) a in
  let l := for_up 1 T (alphaFrame input labels s_inc e_inc repeats io lo ao S T N) (MkLat start0 stop0 a backptr0) in
  (alphas l, backptr l, walkBack labels (backptr l) (alphas l) lo ao po S T paths).

(** * viterbi *)

Record ctcws := MkCtc { c_alpha : buf F; c_s_inc : buf Z; c_e_inc : buf Z; c_backptr : buf Z; c_labels : buf Z }.

Definition viterbiBatch (T N L_ : Z) (input : buf F) (target targetSize : buf Z) (b : Z) (st : ctcws * buf Z) : ctcws * buf Z :=
  let '(w, bestPaths) := st in
  let S_ := 2 * L_ + 1 in
  let blank_label := N - 1 in
  let L := targetSize b in
  let S := 2 * L + 1 in
  let labels := at_offset (b * L_) target in
  let incs := setup_incs labels (b * S_) L (c_s_inc w) (c_e_inc w) in
  let lwb := setup_blanks labels (b * S_) blank_label L S (c_labels w) in
  let '(alpha, backptr, bestPaths) :=
    compute_alphas input (repeats incs) S T N (e_inc incs) (s_inc incs) lwb
      (b * N * T) (b * S_) (b * S_ * T) (b * T) (c_alpha w) (c_backptr w) bestPaths in
  (MkCtc alpha (s_inc incs) (e_inc incs) backptr lwb, bestPaths).

Definition viterbi (B T N L_ : Z) (input : buf F) (target targetSize bestPaths : buf Z) (w : ctcws) : ctcws * buf Z :=
  for_up 0 B (viterbiBatch T N L_ input target targetSize) (w, bestPaths).
End CTC.
Arguments lattice : clear implicits.
Arguments ctcws : clear implicits.

(** ** The CTC alignment: the labels assigned to the frames collapse to the target
    whenever the input is long enough, and the alignment is the best one when no
    two predecessors tie; on a tie it may not be. *)

Open Scope Z_scope.

(** * The increments of [setup_labels] *)

(** The fastest position after [k] steps, from the first label. *)
Fixpoint fastest (e : buf Z) (o : Z) (k : nat) : Z :=
  match k with O => 1 | S k => fastest e o k + e (o + Z.of_nat k) end.

Lemma fastest_ext e e' o k : (forall j, 0 <= j < Z.of_nat k -> e (o + j) = e' (o + j)) -> fastest e o k = fastest e' o k.
Proof. induction k as [|k IH]; intros E; cbn; [done|]. rewrite IH, E by (lia || (intros; apply E; lia)). done. Qed.

(** What the increment at step [k] says about the labels. *)
Definition goodStep (labels : buf Z) (L : Z) (e : buf Z) (o : Z) (k : nat) : Prop :=
  (e (o + Z.of_nat k) = 2 /\ exists i, fastest e o k = 2 * i + 1 /\ 0 <= i /\ i + 1 < L /\ labels i <> labels (i + 1))
  \/ (e (o + Z.of_nat k) = 1 /\ exists i, 0 <= i < L /\
        (fastest e o k = 2 * i + 1 \/ (fastest e o k = 2 * i + 2 /\ i + 1 < L /\ labels i = labels (i + 1)))).

Record incsOk (labels : buf Z) (o L i : Z) (c : increments) : Prop := {
  io_repeats : 0 <= repeats c;
  io_e : e_counter c = i - 1 + repeats c;
  io_s : s_counter c = e_counter c + 1;
  io_pos : fastest (e_inc c) o (Z.to_nat (e_counter c)) = 2 * (i - 1) + 1;
  io_good : forall k : nat, Z.of_nat k < e_counter c -> goodStep labels L (e_inc c) o k;
  io_first : s_inc c o = 1;
  io_next : forall r, 1 <= r <= e_counter c -> s_inc c (o + r) = e_inc c (o + r - 1);
}.

Lemma goodStep_ext labels L e e' o k :
  (forall j, 0 <= j <= Z.of_nat k -> e (o + j) = e' (o + j)) -> goodStep labels L e o k -> goodStep labels L e' o k.
Proof.
  intros E. unfold goodStep. rewrite (fastest_ext e e') by (intros; apply E; lia). by rewrite (E (Z.of_nat k)) by lia.
Qed.

(** One increment appended to both buffers. *)
Lemma push_both labels L o x c :
  s_counter c = e_counter c + 1 -> 0 <= e_counter c -> s_inc c o = 1 ->
  (forall r, 1 <= r <= e_counter c -> s_inc c (o + r) = e_inc c (o + r - 1)) ->
  (forall k : nat, Z.of_nat k < e_counter c -> goodStep labels L (e_inc c) o k) ->
  let c' := push_e o x (push_s o x c) in
  s_counter c' = e_counter c' + 1 /\ e_counter c' = e_counter c + 1 /\ s_inc c' o = 1 /\ repeats c' = repeats c
  /\ (forall r, 1 <= r <= e_counter c' -> s_inc c' (o + r) = e_inc c' (o + r - 1))
  /\ fastest (e_inc c') o (Z.to_nat (e_counter c')) = fastest (e_inc c) o (Z.to_nat (e_counter c)) + x
  /\ fastest (e_inc c') o (Z.to_nat (e_counter c)) = fastest (e_inc c) o (Z.to_nat (e_counter c))
  /\ e_inc c' (o + e_counter c) = x
  /\ (forall k : nat, Z.of_nat k < e_counter c -> goodStep labels L (e_inc c') o k).
Proof.
  intros Hs He H1 Hn Hg. cbv zeta. cbn [push_e push_s s_inc e_inc s_counter e_counter repeats].
  assert (Hf : fastest (bset (o + e_counter c) x (e_inc c)) o (Z.to_nat (e_counter c)) = fastest (e_inc c) o (Z.to_nat (e_counter c))).
  { apply fastest_ext. intros j Hj. by rewrite bset_ne by lia. }
  split_and!; try lia.
  - by rewrite bset_ne by lia.
  - intros r Hr. destruct (Z.eq_dec r (e_counter c + 1)) as [->|].
    + replace (o + (e_counter c + 1)) with (o + s_counter c) by lia. rewrite bset_eq.
      replace (o + s_counter c - 1) with (o + e_counter c) by lia. by rewrite bset_eq.
    + rewrite !bset_ne by lia. apply Hn. lia.
  - replace (Z.to_nat (e_counter c + 1)) with (S (Z.to_nat (e_counter c))) by lia. cbn [fastest]. rewrite Hf.
    rewrite Z2Nat.id by lia. by rewrite bset_eq.
  - by rewrite bset_eq.
  - intros k Hk. eapply goodStep_ext; [|by apply Hg]. intros j Hj. by rewrite bset_ne by lia.
Qed.

Lemma pairStep_ok labels o L i c : 1 <= i < L -> incsOk labels o L i c -> incsOk labels o L (i + 1) (pairStep labels o i c).
Proof.
  intros Hi [R E S P G F X]. unfold pairStep. destruct (Z.eqb_spec (labels (i - 1)) (labels i)) as [Eq|Ne].
  - set (c1 := push_e o 1 (push_s o 1 c)).
    destruct (push_both labels L o 1 c) as (A1 & A2 & A3 & A4 & A5 & A6 & A7 & A8 & A9); [done|lia|done|done|done|]. fold c1 in A1, A2, A3, A4, A5, A6, A7, A8, A9.
    assert (G1 : forall k : nat, Z.of_nat k < e_counter c1 -> goodStep labels L (e_inc c1) o k).
    { intros k Hk. destruct (Z.eq_dec (Z.of_nat k) (e_counter c)) as [Ek|]; [|apply A9; lia].
      right. replace k with (Z.to_nat (e_counter c)) by lia. rewrite Z2Nat.id, A7 by lia. split; [done|]. exists (i - 1). lia. }
    set (c2 := push_e o 1 (push_s o 1 c1)).
    destruct (push_both labels L o 1 c1) as (B1 & B2 & B3 & B4 & B5 & B6 & B7 & B8 & B9); [done|lia|done|done|done|]. fold c2 in B1, B2, B3, B4, B5, B6, B7, B8, B9.
    assert (Ec : incRepeats (push_e o 1 (push_e o 1 (push_s o 1 (push_s o 1 c)))) = incRepeats c2).
    { unfold c2, c1, push_e, push_s. cbn. done. }
    rewrite Ec. split; cbn [incRepeats repeats e_counter s_counter e_inc s_inc]; try lia; try done.
    intros k Hk. destruct (Z.eq_dec (Z.of_nat k) (e_counter c1)) as [Ek|]; [|apply B9; lia].
    right. replace k with (Z.to_nat (e_counter c1)) by lia. rewrite Z2Nat.id, B7 by lia. split; [done|]. exists (i - 1).
    replace (i - 1 + 1) with i by lia. lia.
  - destruct (push_both labels L o 2 c) as (A1 & A2 & A3 & A4 & A5 & A6 & A7 & A8 & A9); [done|lia|done|done|done|].
    set (c1 := push_e o 2 (push_s o 2 c)) in *. split; try lia; try done.
    intros k Hk. destruct (Z.eq_dec (Z.of_nat k) (e_counter c)) as [Ek|]; [|apply A9; lia].
    left. replace k with (Z.to_nat (e_counter c)) by lia. rewrite Z2Nat.id, A7 by lia. split; [done|]. exists (i - 1).
    replace (i - 1 + 1) with i by lia. lia.
Qed.

(** The last position is the final blank, one after the last label. *)
Record incsDone (labels : buf Z) (o L : Z) (c : increments) : Prop := {
  id_repeats : 0 <= repeats c;
  id_good : forall k : nat, Z.of_nat k < L + repeats c -> goodStep labels L (e_inc c) o k;
  id_last : fastest (e_inc c) o (Z.to_nat (L + repeats c - 1)) = 2 * L - 1;
  id_end : fastest (e_inc c) o (Z.to_nat (L + repeats c)) = 2 * L;
  id_first : s_inc c o = 1;
  id_next : forall r, 1 <= r < L + repeats c -> s_inc c (o + r) = e_inc c (o + r - 1);
}.

Lemma setup_incs_spec labels o L s e : 1 <= L -> incsDone labels o L (setup_incs labels o L s e).
Proof.
  intros HL. unfold setup_incs. set (c0 := push_s o 1 (MkIncs s e 0 0 0)).
  assert (H0 : incsOk labels o L L (for_up 1 L (pairStep labels o) c0)).
  { apply (for_up_ind (incsOk labels o L)); [done| |intros i c Hi Hc; by apply pairStep_ok].
    unfold c0. split; cbn [push_s repeats e_counter s_counter e_inc s_inc]; try lia; [done|]. rewrite Z.add_0_r. apply bset_eq. }
  set (c := for_up 1 L _ c0) in *. destruct H0 as [R E Sc P G F X].
  assert (Hf : fastest (bset (o + e_counter c) 1 (e_inc c)) o (Z.to_nat (e_counter c)) = fastest (e_inc c) o (Z.to_nat (e_counter c))).
  { apply fastest_ext. intros j Hj. by rewrite bset_ne by lia. }
  assert (EL : L + repeats c = e_counter c + 1) by lia.
  split; cbn [push_e repeats e_inc s_inc]; try done.
  - intros k Hk. destruct (Z.eq_dec (Z.of_nat k) (e_counter c)) as [Ek|].
    + right. replace k with (Z.to_nat (e_counter c)) by lia. rewrite Hf, Z2Nat.id, bset_eq by lia. split; [done|]. exists (L - 1). lia.
    + eapply goodStep_ext; [|apply G; lia]. intros j Hj. by rewrite bset_ne by lia.
  - replace (L + repeats c - 1) with (e_counter c) by lia. rewrite Hf, P. lia.
  - replace (Z.to_nat (L + repeats c)) with (S (Z.to_nat (e_counter c))) by lia. cbn [fastest].
    rewrite Hf, P, Z2Nat.id, bset_eq by lia. lia.
  - intros r Hr. rewrite X by lia. by rewrite bset_ne by lia.
Qed.

(** * Labels with blanks *)

Lemma setup_blanks_spec labels o blank L lwb :
  0 <= L -> (forall i, 0 <= i < L -> setup_blanks labels o blank L (2 * L + 1) lwb (o + (2 * i + 1)) = labels i)
  /\ (forall i, 0 <= i <= L -> setup_blanks labels o blank L (2 * L + 1) lwb (o + 2 * i) = blank).
Proof.
  intros HL. unfold setup_blanks.
  assert (HI : (forall i, 0 <= i < L -> for_up 0 L (fun i lwb => bset (o + 2 * i + 1) (labels i) (bset (o + 2 * i) blank lwb)) lwb (o + (2 * i + 1)) = labels i)
    /\ (forall i, 0 <= i < L -> for_up 0 L (fun i lwb => bset (o + 2 * i + 1) (labels i) (bset (o + 2 * i) blank lwb)) lwb (o + 2 * i) = blank)).
  { apply (for_up_ind (fun k lwb => (forall i, 0 <= i < k -> lwb (o + (2 * i + 1)) = labels i) /\ (forall i, 0 <= i < k -> lwb (o + 2 * i) = blank)));
      [done|split; lia|].
    intros i l Hi [I1 I2]. split; intros j Hj; destruct (Z.eq_dec j i) as [->|].
    - replace (o + (2 * i + 1)) with (o + 2 * i + 1) by lia. by rewrite bset_eq.
    - rewrite !bset_ne by lia. apply I1. lia.
    - rewrite bset_ne by lia. by rewrite bset_eq.
    - rewrite !bset_ne by lia. apply I2. lia. }
  destruct HI as [I1 I2]. split.
  - intros i Hi. rewrite bset_ne by lia. by apply I1.
  - intros i Hi. destruct (Z.eq_dec i L) as [->|]; [|rewrite bset_ne by lia; apply I2; lia].
    replace (o + (2 * L + 1) - 1) with (o + 2 * L) by lia. by rewrite bset_eq.
Qed.

(** * The lattice *)

Section Lattice.
Context {F : Type} `{MaxPlus F}.
Context (input : buf F) (target lwb : buf Z) (incs : increments) (io lo ao L T N : Z).
Abbreviation S := (2 * L + 1).
Abbreviation M := (L + repeats incs).
Abbreviation lab i := (lwb (lo + i)).
Abbreviation acell t i := (ao + t * S + i).
Abbreviation inAt t i := (input (io + lab i + t * N)).
Abbreviation fast k := (fastest (e_inc incs) lo (Z.to_nat k)).

Hypothesis HL : 1 <= L.
Hypothesis HM : M <= T.
Hypothesis Hincs : incsDone target lo L incs.
Hypothesis Hlabel : forall i, 0 <= i < L -> lab (2 * i + 1) = target i.
Hypothesis Hblank : forall i, 0 <= i <= L -> lab (2 * i) = N - 1.
Hypothesis Hreal : forall i, 0 <= i < L -> target i <> N - 1.

(** The steps an alignment may take: stay, go on, or skip a blank between
    different labels. *)
Definition skips (i : Z) : bool := negb (lab i =? N - 1) && negb (i =? 1) && negb (lab i =? lwb (lo + i - 2)).
Definition ctcStep (j i : Z) : Prop := j = i \/ j = i - 1 \/ (j = i - 2 /\ skips i = true).

(** Positions among the labels with blanks over time. *)
Definition ctcPath (q : buf Z) : Prop :=
  0 <= q 0 <= 1 /\ (forall t, 0 <= t < T -> 0 <= q t < S) /\ forall t, 1 <= t < T -> ctcStep (q (t - 1)) (q t).

Fixpoint ctcScore (q : buf Z) (t : nat) : F :=
  match t with
  | O => input (io + lab (q 0))
  | Datatypes.S t' => (ctcScore q t' + inAt (Z.of_nat t) (q (Z.of_nat t)))%num
  end.

(** The scores of the alignments are ordinary values. *)
Definition finiteCtc : Prop := forall q (t : nat), ctcPath q -> Z.of_nat t < T -> fin (ctcScore q t).
Hypothesis Hfin : finiteCtc.

(** ** The band *)

Lemma fast_step k : 0 <= k < M -> fast (k + 1) = fast k + e_inc incs (lo + k) /\ 1 <= e_inc incs (lo + k) <= 2.
Proof.
  intros Hk. replace (Z.to_nat (k + 1)) with (Datatypes.S (Z.to_nat k)) by lia. cbn [fastest]. rewrite Z2Nat.id by lia. split; [done|].
  pose proof (id_good _ _ _ _ Hincs (Z.to_nat k) ltac:(lia)) as Hg. unfold goodStep in Hg. rewrite Z2Nat.id in Hg by lia.
  destruct Hg as [[-> _]|[-> _]]; lia.
Qed.

Lemma fast_mono j k : 0 <= j <= k -> k <= M -> fast j <= fast k.
Proof.
  intros Hj Hk. replace k with (j + Z.of_nat (Z.to_nat (k - j))) in * by lia. remember (Z.to_nat (k - j)) as n. clear Heqn.
  induction n as [|n IH]; [by rewrite Z.add_0_r|]. specialize (IH ltac:(lia) ltac:(lia)).
  destruct (fast_step (j + Z.of_nat n) ltac:(lia)) as [E ?]. replace (j + Z.of_nat (Datatypes.S n)) with (j + Z.of_nat n + 1) by lia. lia.
Qed.

Lemma fast_0 : fast 0 = 1.
Proof. done. Qed.

Lemma fast_pos k : 0 <= k <= M -> 1 <= fast k <= 2 * L.
Proof.
  intros Hk. pose proof (fast_mono 0 k ltac:(lia) ltac:(lia)). pose proof (fast_mono k M ltac:(lia) ltac:(lia)).
  rewrite fast_0 in *. rewrite (id_end _ _ _ _ Hincs) in *. lia.
Qed.

Definition remain (t : Z) : Z := M - (T - t).
Definition first (t : Z) : Z := if remain t <? 0 then 0 else fast (remain t).
Definition last_ (t : Z) : Z := fast (Z.min t M) + 1.
Definition inBand (t i : Z) : Prop := first t <= i < last_ t.

Lemma first_step t : 1 <= t < T -> first t = if 0 <=? remain t then first (t - 1) + s_inc incs (lo + remain t) else first (t - 1).
Proof.
  intros Ht. unfold first. replace (remain (t - 1)) with (remain t - 1) by (unfold remain; lia).
  destruct (Z.ltb_spec (remain t) 0), (Z.leb_spec 0 (remain t)), (Z.ltb_spec (remain t - 1) 0); try lia; try done.
  - replace (remain t) with 0 by lia. rewrite Z.add_0_r, (id_first _ _ _ _ Hincs), fast_0. lia.
  - assert (remain t < M) by (unfold remain; lia). rewrite (id_next _ _ _ _ Hincs) by lia.
    destruct (fast_step (remain t - 1) ltac:(lia)) as [E _]. rewrite Z.sub_add in E. by rewrite Z.add_sub_assoc in E.
Qed.

Lemma last_step t : 1 <= t < T -> last_ t = if t <=? M then last_ (t - 1) + e_inc incs (lo + t - 1) else last_ (t - 1).
Proof.
  intros Ht. unfold last_. destruct (Z.leb_spec t M).
  - rewrite !Z.min_l by lia. destruct (fast_step (t - 1) ltac:(lia)) as [E _]. rewrite Z.sub_add in E. rewrite E.
    replace (lo + (t - 1)) with (lo + t - 1) by lia. lia.
  - by rewrite !Z.min_r by lia.
Qed.

Lemma band_bounds t : 0 <= t < T -> 0 <= first t < last_ t /\ last_ t <= S.
Proof.
  intros Ht. pose proof (id_repeats _ _ _ _ Hincs). unfold first, last_.
  pose proof (fast_pos (Z.min t M) ltac:(lia)).
  destruct (Z.ltb_spec (remain t) 0); [lia|].
  pose proof (fast_pos (remain t) ltac:(unfold remain in *; lia)).
  pose proof (fast_mono (remain t) (Z.min t M) ltac:(unfold remain in *; lia) ltac:(lia)). lia.
Qed.
(** ** One frame *)

(** The predecessor picked for label [i], from the row before. *)
Definition pick (a : buf F) (t i : Z) : F * Z :=
  let x0 := a (acell (t - 1) i) in
  let x1 := a (acell (t - 1) (i - 1)) in
  let x2 := if skips i then a (acell (t - 1) (i - 2)) else n_ninf in
  if i =? 0 then (x0, 0)
  else if n_lt x1 x2 && n_lt x0 x2 then (x2, 2)
  else if n_lt x0 x1 && n_lt x2 x1 then (x1, 1)
  else (x0, 0).

Lemma alphaCell_pick t i (a : buf F) (bp : buf Z) (a0 : buf F) :
  1 <= i < S -> (forall j, j < acell t 0 -> a j = a0 j) ->
  alphaCell input lwb io lo ao S N t i (a, bp)
  = (bset (acell t i) ((pick a0 t i).1 + inAt t i)%num a, bset (acell t i) (pick a0 t i).2 bp).
Proof.
  intros Hi Ha. unfold alphaCell, pick. rewrite (proj2 (Z.eqb_neq i 0)) by lia. fold (skips i).
  replace (i + (ao + (t - 1) * S)) with (acell (t - 1) i) by lia.
  replace (i - 1 + (ao + (t - 1) * S)) with (acell (t - 1) (i - 1)) by lia.
  replace (i - 2 + (ao + (t - 1) * S)) with (acell (t - 1) (i - 2)) by lia.
  replace (i + (ao + t * S)) with (acell t i) by lia.
  rewrite !Ha by lia. by repeat match goal with |- context [if ?c && ?d then _ else _] => destruct (c && d) end.
Qed.

Lemma alphaFrame_spec t (l : lattice F) :
  1 <= t < T -> start l = first (t - 1) -> stop l = last_ (t - 1) ->
  let l' := alphaFrame input lwb (s_inc incs) (e_inc incs) (repeats incs) io lo ao S T N t l in
  start l' = first t /\ stop l' = last_ t
  /\ (forall i, inBand t i -> alphas l' (acell t i) = ((pick (alphas l) t i).1 + inAt t i)%num
                            /\ backptr l' (acell t i) = (pick (alphas l) t i).2)
  /\ (forall j, ~ (acell t (first t) <= j < acell t (last_ t)) -> alphas l' j = alphas l j /\ backptr l' j = backptr l j).
Proof.
  intros Ht Es Ee. cbv zeta. unfold alphaFrame. replace (S / 2) with L by (Z.to_euclidean_division_equations; lia).
  fold (remain t). rewrite Es, Ee, <- first_step, <- last_step by done.
  destruct (band_bounds t ltac:(lia)) as [B1 B2].
  set (a0 := if first t =? 0 then _ else _).
  set (I k (a : buf F * buf Z) := (forall i, first t <= i < k -> a.1 (acell t i) = ((pick (alphas l) t i).1 + inAt t i)%num
                            /\ a.2 (acell t i) = (pick (alphas l) t i).2)
    /\ forall j, ~ (acell t (first t) <= j < acell t k) -> a.1 j = alphas l j /\ a.2 j = backptr l j).
  assert (Hst : first t <= a0.2 <= last_ t /\ 1 <= a0.2 /\ I a0.2 a0.1).
  { unfold a0. destruct (Z.eqb_spec (first t) 0) as [E0|E0]; cbn [fst snd]; (split; [lia|]); (split; [lia|]).
    - split; cbn [fst snd].
      + intros i Hi. replace i with 0 by lia. replace (acell t 0) with (ao + t * S) by lia. rewrite !bset_eq.
        unfold pick. cbn [Z.eqb fst snd]. rewrite <- (Hblank 0) by lia. change (2 * 0) with 0.
        replace (acell (t - 1) 0) with (ao + (t - 1) * S) by lia. done.
      + intros j Hj. rewrite !bset_ne by lia. done.
    - split; cbn [fst snd]; [lia|done]. }
  destruct a0 as [a1 k0]. cbn [fst snd] in Hst. destruct Hst as (K1 & K2 & HI).
  assert (HI2 : I (last_ t) (for_up k0 (last_ t) (alphaCell input lwb io lo ao S N t) a1)).
  { apply for_up_ind; [lia|done|]. intros i [a bp] Hi [I1 I2]. cbn [fst snd] in *.
    rewrite (alphaCell_pick t i a bp (alphas l)) by (try lia; intros j Hj; apply I2; lia). split; cbn [fst snd].
    - intros k Hk. destruct (Z.eq_dec k i) as [->|]; [by rewrite !bset_eq|]. rewrite !bset_ne by lia. apply I1. lia.
    - intros j Hj. rewrite !bset_ne by lia. apply I2. lia. }
  destruct (for_up _ _ _ _) as [a bp]. destruct HI2 as [I1 I2]. cbn [fst snd start stop alphas backptr] in *.
  split_and!; [done|done|exact I1|exact I2].
Qed.

(** ** Rows *)

(** A row: the cells of the band hold the score of an alignment to there, and the
    others are minus infinity. *)
Definition rowOk (t : Z) (a : buf F) : Prop := forall i, 0 <= i < S ->
  (inBand t i -> exists q, ctcPath q /\ q t = i /\ a (acell t i) = ctcScore q (Z.to_nat t))
  /\ (~ inBand t i -> a (acell t i) = n_ninf).

Lemma rowOk_fin t a i : 0 <= t < T -> rowOk t a -> 0 <= i < S -> inBand t i -> fin (a (acell t i)).
Proof. intros Ht Hr Hi Hb. destruct (proj1 (Hr i Hi) Hb) as (q & Pq & _ & ->). apply Hfin; [done|lia]. Qed.

Lemma skips_blank i : 0 <= i <= L -> skips (2 * i) = false.
Proof. intros Hi. unfold skips. by rewrite Hblank, Z.eqb_refl by done. Qed.

Lemma skips_label i : 0 <= i -> i + 1 < L -> skips (2 * i + 3) = negb (target (i + 1) =? target i).
Proof.
  intros Hi Hl. unfold skips. replace (2 * i + 3) with (2 * (i + 1) + 1) by lia.
  replace (lo + (2 * (i + 1) + 1) - 2) with (lo + (2 * i + 1)) by lia.
  rewrite !Hlabel by lia. rewrite (proj2 (Z.eqb_neq (target (i + 1)) (N - 1))) by (apply Hreal; lia).
  rewrite (proj2 (Z.eqb_neq (2 * (i + 1) + 1) 1)) by lia. done.
Qed.

(** The picked predecessor is in the band of the frame before. *)
Lemma pick_spec t a i :
  1 <= t < T -> rowOk (t - 1) a -> inBand t i ->
  let '(r, p) := pick a t i in inBand (t - 1) (i - p) /\ ctcStep (i - p) i /\ r = a (acell (t - 1) (i - p)).
Proof.
  intros Ht Hr Hb. destruct (band_bounds t ltac:(lia)) as [B1 B2]. destruct (band_bounds (t - 1) ltac:(lia)) as [C1 C2].
  assert (Hi : 0 <= i < S) by (unfold inBand in *; lia).
  assert (Hmono : first (t - 1) <= first t).
  { rewrite (first_step t) by done. destruct (Z.leb_spec 0 (remain t)); [|lia].
    destruct (Z.eq_dec (remain t) 0) as [->|]; [rewrite Z.add_0_r, (id_first _ _ _ _ Hincs); lia|].
    rewrite (id_next _ _ _ _ Hincs) by (unfold remain in *; lia).
    destruct (fast_step (remain t - 1) ltac:(unfold remain in *; lia)) as [_ E]. rewrite Z.add_sub_assoc in E. lia. }
  assert (Hval : forall j, 0 <= j < S -> ~ inBand (t - 1) j -> a (acell (t - 1) j) = n_ninf) by (intros j Hj; by apply Hr).
  assert (Hf : forall j, 0 <= j < S -> inBand (t - 1) j -> n_lt n_ninf (a (acell (t - 1) j)) = true).
  { intros j Hj Hbj. apply mp_ninf. by apply rowOk_fin; [lia|..]. }
  unfold pick. destruct (Z.eqb_spec i 0) as [->|Hi0].
  { split_and!; [|by left|done]. unfold inBand in *. lia. }
  destruct (decide (inBand (t - 1) i)) as [Hin|Hout].
  - (* the label was reachable before: a larger predecessor is finite *)
    destruct (n_lt (a (acell (t - 1) (i - 1))) _ && n_lt (a (acell (t - 1) i)) _) eqn:E2;
      [|destruct (n_lt (a (acell (t - 1) i)) _ && n_lt _ _) eqn:E1].
    + apply andb_true_iff in E2 as [E2 E2']. destruct (skips i) eqn:Es; [|by rewrite mp_ninf_min in E2].
      assert (2 <= i). { unfold skips in Es. rewrite !andb_true_iff, !negb_true_iff, !Z.eqb_neq in Es. lia. }
      destruct (decide (inBand (t - 1) (i - 2))) as [|Hn]; [split_and!; [done|right; right; done|done]|].
      rewrite (Hval (i - 2)), mp_ninf_min in E2' by (done || lia). done.
    + apply andb_true_iff in E1 as [E1 E1'].
      destruct (decide (inBand (t - 1) (i - 1))) as [|Hn]; [split_and!; [done|by right; left|done]|].
      rewrite (Hval (i - 1)), mp_ninf_min in E1 by (done || lia). done.
    + rewrite Z.sub_0_r. split_and!; [done|by left|done].
  - (* a new label: only one predecessor is reachable *)
    assert (Hge : last_ (t - 1) <= i) by (unfold inBand in *; lia).
    assert (HtM : t <= M). { destruct (Z.le_gt_cases t M); [done|]. pose proof (last_step t Ht) as El.
      destruct (Z.leb_spec t M); [lia|]. unfold inBand in *. lia. }
    pose proof (last_step t Ht) as El. rewrite (proj2 (Z.leb_le t M)) in El by lia.
    assert (Eg : last_ (t - 1) = fast (t - 1) + 1) by (unfold last_; by rewrite Z.min_l by lia).
    assert (Hg : inBand (t - 1) (fast (t - 1))) by (unfold inBand in *; lia).
    pose proof (fast_pos (t - 1) ltac:(lia)) as Fp.
    pose proof (id_good _ _ _ _ Hincs (Z.to_nat (t - 1)) ltac:(lia)) as Hgood. unfold goodStep in Hgood.
    rewrite Z2Nat.id in Hgood by lia. replace (lo + (t - 1)) with (lo + t - 1) in Hgood by lia.
    assert (Hone : i - 1 = fast (t - 1) -> skips i = false ->
      let '(r, p) := if n_lt (a (acell (t - 1) (i - 1))) (if skips i then a (acell (t - 1) (i - 2)) else n_ninf)
                        && n_lt (a (acell (t - 1) i)) (if skips i then a (acell (t - 1) (i - 2)) else n_ninf)
                     then (if skips i then a (acell (t - 1) (i - 2)) else n_ninf, 2)
                     else if n_lt (a (acell (t - 1) i)) (a (acell (t - 1) (i - 1)))
                        && n_lt (if skips i then a (acell (t - 1) (i - 2)) else n_ninf) (a (acell (t - 1) (i - 1)))
                     then (a (acell (t - 1) (i - 1)), 1) else (a (acell (t - 1) i), 0) in
      inBand (t - 1) (i - p) /\ ctcStep (i - p) i /\ r = a (acell (t - 1) (i - p))).
    { intros Ei Es. rewrite Es, (Hval i), mp_ninf_min by done. cbn [andb]. rewrite Hf by (rewrite ?Ei; done || lia). cbn [andb].
      split_and!; [by rewrite Ei|by right; left|done]. }
    destruct Hgood as [(E2 & j & Ej & Hj1 & Hj2 & Hj3)|(E1 & j & Hj & Hcase)].
    + rewrite E2 in El. assert (Hi2 : i = 2 * (j + 1) \/ i = 2 * j + 3) by (unfold inBand in *; lia).
      destruct Hi2 as [-> | ->]; [apply Hone; [lia|apply skips_blank; lia]|].
      rewrite skips_label by lia. rewrite (proj2 (Z.eqb_neq (target (j + 1)) (target j))) by done. cbn [negb].
      rewrite (Hval (2 * j + 3)), (Hval (2 * j + 3 - 1)) by (try lia; unfold inBand in *; lia).
      rewrite !Hf by (try lia; replace (2 * j + 3 - 2) with (fast (t - 1)) by lia; done). cbn [andb].
      split_and!; [replace (2 * j + 3 - 2) with (fast (t - 1)) by lia; done| |done].
      right; right. split; [lia|]. rewrite skips_label by lia. by rewrite (proj2 (Z.eqb_neq (target (j + 1)) (target j))) by done.
    + rewrite E1 in El. assert (Ei : i - 1 = fast (t - 1)) by (unfold inBand in *; lia).
      destruct Hcase as [Ej|(Ej & Hj2 & Hj3)].
      * apply Hone; [done|]. replace i with (2 * (j + 1)) by lia. apply skips_blank. lia.
      * apply Hone; [done|]. replace i with (2 * j + 3) by lia. rewrite skips_label by lia. by rewrite Hj3, Z.eqb_refl.
Qed.
Lemma pick_ext t i (a a' : buf F) : i < S -> (forall j, j < acell t 0 -> a j = a' j) -> pick a t i = pick a' t i.
Proof. intros Hi E. unfold pick. by rewrite !E by lia. Qed.

(** The rows before [k] are final, the others empty. *)
Record latticeOk (k : Z) (l : lattice F) : Prop := {
  lo_start : start l = first (k - 1);
  lo_stop : stop l = last_ (k - 1);
  lo_rows : forall t, 0 <= t < k -> rowOk t (alphas l);
  lo_empty : forall t i, k <= t < T -> 0 <= i < S -> alphas l (acell t i) = n_ninf;
  lo_back : forall t i, 1 <= t < k -> inBand t i -> backptr l (acell t i) = (pick (alphas l) t i).2;
  lo_cell : forall t i, 1 <= t < k -> inBand t i -> alphas l (acell t i) = ((pick (alphas l) t i).1 + inAt t i)%num;
}.

Lemma ctcScore_ext q q' (t : nat) : (forall s, 0 <= s <= Z.of_nat t -> q s = q' s) -> ctcScore q t = ctcScore q' t.
Proof.
  induction t as [|t IH]; intros E; cbn [ctcScore]; [by rewrite E by lia|].
  rewrite IH by (intros; apply E; lia). by rewrite !E by lia.
Qed.

Lemma lattice_step t l : 1 <= t < T -> latticeOk t l ->
  latticeOk (t + 1) (alphaFrame input lwb (s_inc incs) (e_inc incs) (repeats incs) io lo ao S T N t l).
Proof.
  intros Ht [L1 L2 L3 L4 L5 L6]. destruct (alphaFrame_spec t l Ht L1 L2) as (A1 & A2 & A3 & A4).
  set (l' := alphaFrame _ _ _ _ _ _ _ _ _ _ _ _ l) in *. destruct (band_bounds t ltac:(lia)) as [B1 B2].
  assert (Hold : forall j, j < acell t 0 -> alphas l' j = alphas l j /\ backptr l' j = backptr l j) by (intros j Hj; apply A4; lia).
  assert (Hrow : forall t' i, 0 <= t' < t -> 0 <= i < S -> alphas l' (acell t' i) = alphas l (acell t' i) /\ backptr l' (acell t' i) = backptr l (acell t' i)).
  { intros t' i Ht' Hi. apply Hold. nia. }
  assert (Hpick : forall t' i, 1 <= t' <= t -> i < S -> pick (alphas l') t' i = pick (alphas l) t' i).
  { intros t' i Ht' Hi. apply pick_ext; [done|]. intros j Hj. apply Hold. nia. }
  assert (Hlt : forall t' i, 1 <= t' < T -> inBand t' i -> 0 <= i < S).
  { intros t' i Ht' Hb. destruct (band_bounds t' ltac:(lia)). unfold inBand in Hb. lia. }
  split; rewrite ?Z.add_simpl_r; try done.
  - intros t' Ht'. destruct (Z.eq_dec t' t) as [->|]; [|intros i Hi; destruct (Hrow t' i) as [-> _]; [lia|done|]; apply L3; [lia|done]].
    intros i Hi. split.
    + intros Hb. destruct (A3 i Hb) as [-> _]. pose proof (pick_spec t (alphas l) i Ht (L3 (t - 1) ltac:(lia)) Hb) as Hp.
      destruct (pick (alphas l) t i) as [r p]. destruct Hp as (P1 & P2 & ->). cbn [fst].
      destruct (band_bounds (t - 1) ltac:(lia)) as [C1 C2].
      destruct (proj1 (L3 (t - 1) ltac:(lia) (i - p) ltac:(unfold inBand in P1; lia)) P1) as (q & (Q0 & Q1 & Q2) & Eq & ->).
      exists (fun s => if s <? t then q s else i). rewrite Z.ltb_irrefl. split_and!; [split_and!|done|].
      * rewrite (proj2 (Z.ltb_lt 0 t)) by lia. lia.
      * rewrite (proj2 (Z.ltb_lt 0 t)) by lia. lia.
      * intros s Hs. destruct (s <? t); [by apply Q1|done].
      * intros s Hs. destruct (Z.ltb_spec s t), (Z.ltb_spec (s - 1) t); try lia; [by apply Q2| |by left].
        replace (s - 1) with (t - 1) by lia. by rewrite Eq.
      * replace (Z.to_nat t) with (Datatypes.S (Z.to_nat (t - 1))) by lia. cbn [ctcScore].
        replace (Z.of_nat (Datatypes.S (Z.to_nat (t - 1)))) with t by lia. rewrite Z.ltb_irrefl. f_equal.
        apply ctcScore_ext. intros s Hs. by rewrite (proj2 (Z.ltb_lt s t)) by lia.
    + intros Hb. destruct (A4 (acell t i)) as [-> _]; [unfold inBand in Hb; lia|]. apply L4; lia.
  - intros t' i Ht' Hi. destruct (A4 (acell t' i)) as [-> _]; [nia|]. apply L4; lia.
  - intros t' i Ht' Hb. pose proof (Hlt t' i ltac:(lia) Hb). rewrite Hpick by lia.
    destruct (Z.eq_dec t' t) as [->|]; [by apply A3|]. destruct (Hrow t' i) as [_ ->]; [lia|done|]. apply L5; [lia|done].
  - intros t' i Ht' Hb. pose proof (Hlt t' i ltac:(lia) Hb). rewrite Hpick by lia.
    destruct (Z.eq_dec t' t) as [->|]; [by apply A3|]. destruct (Hrow t' i) as [-> _]; [lia|done|]. apply L6; [lia|done].
Qed.

(** The initial lattice of [compute_alphas]. *)
Lemma lattice_init a0 bp :
  0 < T ->
  latticeOk 1 (MkLat (if S / 2 + repeats incs - T <? 0 then 0 else 1) (if 1 <? S then 2 else 1)
    (for_up (if S / 2 + repeats incs - T <? 0 then 0 else 1) (if 1 <? S then 2 else 1) (fun i => bset (ao + i) (input (io + lab i)))
       (for_up 0 (S * T) (fun i => bset (ao + i) n_ninf) a0)) bp).
Proof.
  intros HT. replace (S / 2) with L by (Z.to_euclidean_division_equations; lia). rewrite (proj2 (Z.ltb_lt 1 S)) by lia.
  assert (E1 : first 0 = if M - T <? 0 then 0 else 1).
  { unfold first, remain. rewrite Z.sub_0_r. destruct (Z.ltb_spec (M - T) 0); [done|]. by replace (M - T) with 0 by lia. }
  pose proof (id_repeats _ _ _ _ Hincs) as Hr0.
  assert (E2 : last_ 0 = 2) by (unfold last_; rewrite Z.min_l by lia; done).
  rewrite <- E1. destruct (band_bounds 0 ltac:(lia)) as [B1 B2].
  assert (Hinf : forall j, ao <= j < ao + S * T -> for_up 0 (S * T) (fun i => bset (ao + i) n_ninf) a0 j = n_ninf).
  { intros j Hj. rewrite (for_up_fill (fun _ => n_ninf)), (proj2 (Z.leb_le _ _)), (proj2 (Z.ltb_lt _ _)) by lia. done. }
  split; cbn [start stop alphas backptr]; try done; try lia.
  - intros t Ht i Hi. assert (t = 0) as -> by lia. rewrite (for_up_fill (fun i => input (io + lab i))).
    replace (acell 0 i) with (ao + i) by lia. unfold inBand. split.
    + intros Hb. rewrite (proj2 (Z.leb_le _ _)), (proj2 (Z.ltb_lt _ _)) by lia. cbn [andb]. rewrite Z.add_simpl_l.
      exists (fun _ => i). split_and!; [split_and!; [lia|lia|done|by left]|done|done].
    + intros Hb. destruct (Z.leb_spec (ao + first 0) (ao + i)), (Z.ltb_spec (ao + i) (ao + 2)); cbn [andb]; try lia; apply Hinf; nia.
  - intros t i Ht Hi. rewrite (for_up_fill (fun i => input (io + lab i))).
    destruct (Z.leb_spec (ao + first 0) (acell t i)), (Z.ltb_spec (acell t i) (ao + 2)); cbn [andb]; try (exfalso; nia); apply Hinf; nia.
Qed.
(** ** The walk back *)

Section Walk.
Context (l : lattice F).
Hypothesis Hl : latticeOk T l.
Hypothesis HT : 0 < T.

Definition endIdx : Z := if n_lt (alphas l (ao + T * S - 2)) (alphas l (ao + T * S - 1)) then S - 1 else S - 2.

Lemma endIdx_band : inBand (T - 1) endIdx /\ S - 2 <= endIdx < S.
Proof.
  unfold endIdx, inBand, first, last_. pose proof (id_repeats _ _ _ _ Hincs).
  replace (remain (T - 1)) with (M - 1) by (unfold remain; lia). rewrite (proj2 (Z.ltb_ge (M - 1) 0)) by lia.
  rewrite (id_last _ _ _ _ Hincs).
  assert (Hm : fast (M - 1) <= fast (Z.min (T - 1) M)) by (apply fast_mono; lia). rewrite (id_last _ _ _ _ Hincs) in Hm.
  destruct (n_lt _ _) eqn:El; [|lia]. split; [|lia]. split; [lia|].
  destruct (Z.le_gt_cases M (T - 1)) as [Hle|Hgt]; [rewrite Z.min_r, (id_end _ _ _ _ Hincs) by lia; lia|].
  exfalso. replace (ao + T * S - 1) with (acell (T - 1) (S - 1)) in El by lia.
  rewrite (proj2 (lo_rows _ _ Hl (T - 1) ltac:(lia) (S - 1) ltac:(lia))) in El; [by rewrite mp_ninf_min in El|].
  unfold inBand, last_. rewrite Z.min_l by lia. replace (T - 1) with (M - 1) by lia. rewrite (id_last _ _ _ _ Hincs). lia.
Qed.

Fixpoint backFrom (k : nat) : Z :=
  match k with O => endIdx | Datatypes.S k' => backFrom k' - backptr l (acell (T - 1 - Z.of_nat k') (backFrom k')) end.
Definition back : buf Z := fun t => backFrom (Z.to_nat (T - 1 - t)).

Lemma back_last : back (T - 1) = endIdx.
Proof. unfold back. by rewrite Z.sub_diag. Qed.

Lemma back_prev t : 1 <= t < T -> back (t - 1) = back t - backptr l (acell t (back t)).
Proof.
  intros Ht. unfold back. replace (Z.to_nat (T - 1 - (t - 1))) with (Datatypes.S (Z.to_nat (T - 1 - t))) by lia. cbn [backFrom].
  by replace (T - 1 - Z.of_nat (Z.to_nat (T - 1 - t))) with t by lia.
Qed.

Lemma back_band t : 0 <= t < T -> inBand t (back t).
Proof.
  intros Ht. cut (forall k : nat, Z.of_nat k < T -> inBand (T - 1 - Z.of_nat k) (back (T - 1 - Z.of_nat k))).
  { intros Hc. specialize (Hc (Z.to_nat (T - 1 - t)) ltac:(lia)). by replace (T - 1 - Z.of_nat (Z.to_nat (T - 1 - t))) with t in Hc by lia. }
  induction k as [|k IH]; intros Hk.
  - change (Z.of_nat 0) with 0. rewrite Z.sub_0_r, back_last. apply endIdx_band.
  - set (u := T - 1 - Z.of_nat k) in *. replace (T - 1 - Z.of_nat (Datatypes.S k)) with (u - 1) by lia. rewrite back_prev by lia.
    specialize (IH ltac:(lia)). rewrite (lo_back _ _ Hl) by (done || lia).
    pose proof (pick_spec u (alphas l) (back u) ltac:(lia) (lo_rows _ _ Hl (u - 1) ltac:(lia)) IH) as Hp.
    destruct (pick _ _ _) as [r p]. apply Hp.
Qed.

Lemma back_path : ctcPath back.
Proof.
  split_and!.
  - pose proof (back_band 0 ltac:(lia)) as Hb. destruct (band_bounds 0 ltac:(lia)). unfold inBand in Hb. lia.
  - pose proof (back_band 0 ltac:(lia)) as Hb. pose proof (id_repeats _ _ _ _ Hincs). unfold inBand, last_ in Hb.
    rewrite Z.min_l in Hb by lia. rewrite fast_0 in Hb. lia.
  - intros t Ht. pose proof (back_band t Ht) as Hb. destruct (band_bounds t Ht). unfold inBand in Hb. lia.
  - intros t Ht. pose proof (back_band t ltac:(lia)) as Hb. rewrite back_prev by done. rewrite (lo_back _ _ Hl) by (done || lia).
    pose proof (pick_spec t (alphas l) (back t) Ht (lo_rows _ _ Hl (t - 1) ltac:(lia)) Hb) as Hp.
    destruct (pick _ _ _) as [r p]. apply Hp.
Qed.

Lemma ctc_walkBack_spec po paths :
  (forall t, 0 <= t < T -> walkBack lwb (backptr l) (alphas l) lo ao po S T paths (po + t) = lab (back t))
  /\ (forall j, ~ (po <= j < po + T) -> walkBack lwb (backptr l) (alphas l) lo ao po S T paths j = paths j).
Proof.
  unfold walkBack. fold endIdx.
  set (I k (st : Z * buf Z) := (0 < k -> st.1 = back (k - 1)) /\ (forall t, k <= t < T -> st.2 (po + t) = lab (back t))
    /\ forall j, ~ (po <= j < po + T) -> st.2 j = paths j).
  match goal with |- context [for_down 0 T ?bd ?s0] => set (r := for_down 0 T bd s0); assert (HI : I 0 r) end.
  { apply for_down_ind; [lia| |].
    - split_and!; [intros _; symmetry; apply back_last|lia|done].
    - intros t [i p] Ht (I1 & I2 & I3). cbn [fst snd] in *. rewrite Z.add_simpl_r in I1. rewrite I1 by lia. split_and!; cbn [fst snd].
      + intros Hk. by rewrite back_prev by lia.
      + intros t' Ht'. destruct (Z.eq_dec t' t) as [->|]; [by rewrite bset_eq|]. rewrite bset_ne by lia. apply I2. lia.
      + intros j Hj. rewrite bset_ne by lia. by apply I3. }
  destruct HI as (_ & I2 & I3). split; [exact I2|exact I3].
Qed.
End Walk.

(** ** Collapsing *)

(** Drop repeated labels, then blanks. *)
Definition collapseStep (blank : Z) (st : option Z * list Z) (c : Z) : option Z * list Z :=
  (Some c, if bool_decide (st.1 = Some c) || (c =? blank) then st.2 else st.2 ++ [c]).
Definition collapse (blank : Z) (p : list Z) : list Z := (fold_left (collapseStep blank) p (None, [])).2.

Lemma collapse_path q : 0 < T -> ctcPath q -> S - 2 <= q (T - 1) ->
  collapse (N - 1) ((fun t => lab (q t)) <$> zrange 0 T) = target <$> zrange 0 L.
Proof.
  intros HT (Q0 & Q1 & Q2) Qe.
  assert (Hlab : forall i, 0 <= i < S -> (i mod 2 = 0 /\ lab i = N - 1) \/ (i mod 2 = 1 /\ lab i = target ((i - 1) / 2) /\ lab i <> N - 1)).
  { intros i Hi. destruct (Z.eq_dec (i mod 2) 0) as [E|E].
    - left. split; [done|]. replace i with (2 * (i / 2)) by (Z.to_euclidean_division_equations; lia). apply Hblank.
      Z.to_euclidean_division_equations; lia.
    - right. assert (E1 : i mod 2 = 1) by (Z.to_euclidean_division_equations; lia).
      assert (Hj : 0 <= (i - 1) / 2 < L) by (Z.to_euclidean_division_equations; lia).
      replace i with (2 * ((i - 1) / 2) + 1) at 2 4 by (Z.to_euclidean_division_equations; lia). rewrite Hlabel by done. by auto. }
  assert (HI : forall k, 1 <= k <= T -> fold_left (collapseStep (N - 1)) ((fun t => lab (q t)) <$> zrange 0 k) (None, [])
    = (Some (lab (q (k - 1))), target <$> zrange 0 ((q (k - 1) + 1) / 2))).
  { intros k Hk. replace k with (1 + Z.of_nat (Z.to_nat (k - 1))) in * by lia. remember (Z.to_nat (k - 1)) as n. clear Heqn.
    induction n as [|n IH].
    - change (1 + Z.of_nat 0) with 1. change (zrange 0 1) with [0]. cbn [fmap list_fmap fold_left]. change (1 - 1) with 0.
      unfold collapseStep. cbn [fst snd app]. rewrite bool_decide_false by done. cbn [orb].
      destruct (Hlab (q 0)) as [(Em & ->)|(Em & El & Hn)]; [apply Q1; lia| |].
      + rewrite Z.eqb_refl. replace (q 0) with 0 by (Z.to_euclidean_division_equations; lia). done.
      + rewrite (proj2 (Z.eqb_neq _ _)) by done. rewrite El. replace (q 0) with 1 by (Z.to_euclidean_division_equations; lia). done.
    - replace (1 + Z.of_nat (Datatypes.S n)) with (1 + Z.of_nat n + 1) in * by lia. specialize (IH ltac:(lia)).
      set (t := 1 + Z.of_nat n) in *. rewrite zrange_snoc, fmap_app, fold_left_app, IH by lia. rewrite Z.add_simpl_r.
      cbn [fmap list_fmap fold_left]. unfold collapseStep. cbn [fst snd]. f_equal.
      assert (Hq : 0 <= q t < S) by (apply Q1; lia). assert (Hq' : 0 <= q (t - 1) < S) by (apply Q1; lia).
      destruct (Q2 t ltac:(lia)) as [E|[E|[E Hsk]]].
      + rewrite E. by rewrite bool_decide_true.
      + rewrite E. destruct (Hlab (q t) Hq) as [(Em & El)|(Em & El & Hn)].
        * rewrite El, Z.eqb_refl, orb_true_r. f_equal. f_equal. Z.to_euclidean_division_equations; lia.
        * destruct (Hlab (q t - 1) ltac:(lia)) as [(Em' & El')|(Em' & _)]; [|Z.to_euclidean_division_equations; lia].
          rewrite El', bool_decide_false by congruence. rewrite (proj2 (Z.eqb_neq _ _)) by done. cbn [orb].
          replace ((q t - 1 + 1) / 2) with ((q t - 1) / 2) by (Z.to_euclidean_division_equations; lia).
          replace ((q t + 1) / 2) with ((q t - 1) / 2 + 1) by (Z.to_euclidean_division_equations; lia).
          rewrite zrange_snoc, fmap_app by (Z.to_euclidean_division_equations; lia). by rewrite El.
      + rewrite E. unfold skips in Hsk. rewrite !andb_true_iff, !negb_true_iff, !Z.eqb_neq in Hsk. destruct Hsk as [[Hs1 Hs2] Hs3].
        replace (lo + q t - 2) with (lo + (q t - 2)) in Hs3 by lia.
        destruct (Hlab (q t) Hq) as [(_ & El)|(Em & El & Hn)]; [done|].
        rewrite bool_decide_false by (intros [= Hx]; by apply Hs3). rewrite (proj2 (Z.eqb_neq _ _)) by done. cbn [orb].
        replace ((q t - 2 + 1) / 2) with ((q t - 1) / 2) by (Z.to_euclidean_division_equations; lia).
        replace ((q t + 1) / 2) with ((q t - 1) / 2 + 1) by (Z.to_euclidean_division_equations; lia).
        rewrite zrange_snoc, fmap_app by (Z.to_euclidean_division_equations; lia). by rewrite El. }
  unfold collapse. rewrite (HI T) by lia. cbn [snd]. do 2 f_equal. specialize (Q1 (T - 1) ltac:(lia)).
  Z.to_euclidean_division_equations; lia.
Qed.
End Lattice.

(** * The whole pass *)

(** The labels of the target with a blank before, between and after. *)
Definition extended (blank : Z) (labels : buf Z) : buf Z := fun i => if Z.even i then blank else labels (i / 2).

(** Equal neighbours, which need a blank between them. *)
Definition repeatsOf (labels : buf Z) (L : Z) : Z := zlen (filter (fun i => labels (i - 1) = labels i) (zrange 1 L)).

Lemma setup_repeats labels o L s e : 1 <= L -> repeats (setup_incs labels o L s e) = repeatsOf labels L.
Proof.
  intros HL. unfold setup_incs, repeatsOf. cbn [push_e repeats].
  apply (for_up_ind (fun k c => repeats c = zlen (filter (fun i => labels (i - 1) = labels i) (zrange 1 k))) 1 L); [done|done|].
  intros i c Hi IH. rewrite zrange_snoc, filter_app, zlen_app, <- IH by lia. unfold pairStep.
  rewrite filter_cons, filter_nil. destruct (Z.eqb_spec (labels (i - 1)) (labels i)); case_decide; try done; unfold zlen; cbn; lia.
Qed.

Section Agree.
Context {F : Type} `{MaxPlus F}.
Context (input : buf F) (lwb lwb' : buf Z) (io lo lo' L T N : Z).
Hypothesis E : forall i, 0 <= i < 2 * L + 1 -> lwb (lo + i) = lwb' (lo' + i).
Hypothesis E0 : lwb (lo + 0) = N - 1.
Hypothesis HL : 0 <= L.

Lemma skips_agree i : 0 <= i < 2 * L + 1 -> skips lwb lo N i = skips lwb' lo' N i.
Proof.
  intros Hi. unfold skips. rewrite <- (E i Hi). destruct (Z.eq_dec i 0) as [->|]; [by rewrite E0, Z.eqb_refl|].
  destruct (Z.eq_dec i 1) as [->|]; [by rewrite !andb_false_r|].
  replace (lo + i - 2) with (lo + (i - 2)) by lia. replace (lo' + i - 2) with (lo' + (i - 2)) by lia. by rewrite (E (i - 2)) by lia.
Qed.

Lemma ctcPath_agree q : ctcPath lwb lo L T N q -> ctcPath lwb' lo' L T N q.
Proof.
  intros (Q0 & Q1 & Q2). split_and!; [apply Q0|apply Q0|done|]. intros t Ht. destruct (Q2 t Ht) as [?|[?|[? Hs]]]; [by left|by right; left|].
  right; right. split; [done|]. rewrite <- skips_agree; [done|]. apply Q1. lia.
Qed.

Lemma ctcScore_agree q (t : nat) : ctcPath lwb lo L T N q -> Z.of_nat t < T ->
  ctcScore input lwb io lo N q t = ctcScore input lwb' io lo' N q t.
Proof.
  intros (Q0 & Q1 & Q2). induction t as [|t IH]; intros Ht; cbn [ctcScore].
  - by rewrite E by (apply Q1; lia).
  - rewrite IH, E by (try apply Q1; lia). done.
Qed.

Lemma finiteCtc_agree : finiteCtc input lwb' io lo' L T N -> finiteCtc input lwb io lo L T N.
Proof. intros Hf q t Hq Ht. rewrite ctcScore_agree by done. apply Hf; [by apply ctcPath_agree|done]. Qed.
End Agree.

Section Batch.
Context {F : Type} `{MaxPlus F}.
Context (T N L_ : Z) (input : buf F) (target targetSize : buf Z).
Hypothesis HT : 0 < T.

(** A target that fits: not empty, without blanks, with a frame for every label and
    every blank that separates equal labels, and finite scores. *)
Record fits (b : Z) : Prop := {
  fi_size : 1 <= targetSize b;
  fi_long : targetSize b + repeatsOf (at_offset (b * L_) target) (targetSize b) <= T;
  fi_labels : forall i, 0 <= i < targetSize b -> target (b * L_ + i) <> N - 1;
  fi_fin : finiteCtc input (extended (N - 1) (at_offset (b * L_) target)) (b * N * T) 0 (targetSize b) T N;
}.

Lemma viterbiBatch_ctc b w paths :
  fits b ->
  let paths' := (viterbiBatch T N L_ input target targetSize b (w, paths)).2 in
  (exists q, ctcPath (extended (N - 1) (at_offset (b * L_) target)) 0 (targetSize b) T N q
     /\ (forall t, 0 <= t < T -> paths' (b * T + t) = extended (N - 1) (at_offset (b * L_) target) (q t))
     /\ collapse (N - 1) ((fun t => paths' (b * T + t)) <$> zrange 0 T) = (fun i => target (b * L_ + i)) <$> zrange 0 (targetSize b))
  /\ forall j, ~ (b * T <= j < b * T + T) -> paths' j = paths j.
Proof.
  intros [HL HM Hlab Hf]. cbv zeta. unfold viterbiBatch.
  set (labels := at_offset (b * L_) target) in *. set (S_ := 2 * L_ + 1). set (L := targetSize b) in *.
  set (incs := setup_incs labels (b * S_) L (c_s_inc w) (c_e_inc w)).
  set (lwb := setup_blanks labels (b * S_) (N - 1) L (2 * L + 1) (c_labels w)).
  assert (Hi : incsDone labels (b * S_) L incs) by (by apply setup_incs_spec).
  destruct (setup_blanks_spec labels (b * S_) (N - 1) L (c_labels w) ltac:(lia)) as [W1 W2]. fold lwb in W1, W2.
  assert (HM' : L + repeats incs <= T) by (unfold incs; by rewrite setup_repeats).
  assert (Hag : forall i, 0 <= i < 2 * L + 1 -> lwb (b * S_ + i) = extended (N - 1) labels (0 + i)).
  { intros i Hi'. unfold extended. rewrite Z.add_0_l. destruct (Z.even i) eqn:Ev.
    - apply Zeven_bool_iff, Zeven_div2 in Ev. rewrite Ev. apply W2. lia.
    - assert (Zodd i) by (apply Zodd_bool_iff; by rewrite <- Z.negb_even, Ev). pose proof (Zodd_div2 i H1) as E2.
      rewrite E2 at 1. rewrite W1 by lia. by rewrite Z.div2_div. }
  assert (W0 : lwb (b * S_ + 0) = N - 1) by (rewrite <- (W2 0) by lia; f_equal; lia).
  assert (Hf' : finiteCtc input lwb (b * N * T) (b * S_) L T N).
  { eapply (finiteCtc_agree _ _ (extended (N - 1) labels) _ _ 0); (eassumption || lia). }
  assert (Hreal : forall i, 0 <= i < L -> labels i <> N - 1) by (intros i Hi'; by apply Hlab).
  unfold compute_alphas. cbn [snd].
  set (l0 := MkLat _ _ _ _). set (l := for_up 1 T _ l0).
  assert (Hl : latticeOk input lwb incs (b * N * T) (b * S_) (b * S_ * T) L T N T l).
  { apply (for_up_ind (fun k l => latticeOk input lwb incs (b * N * T) (b * S_) (b * S_ * T) L T N k l)); [lia| |].
    - eapply lattice_init; (eassumption || lia).
    - intros t l1 Ht Hl1. eapply lattice_step; (eassumption || lia). }
  destruct (ctc_walkBack_spec lwb (b * S_) (b * S_ * T) L T l HT (b * T) paths) as [P1 P2].
  set (q := back (b * S_ * T) L T l) in *.
  assert (Hq : ctcPath lwb (b * S_) L T N q).
  { eapply back_path; (eassumption || lia). }
  split; [|exact P2]. exists q. split_and!.
  - eapply ctcPath_agree; (eassumption || lia).
  - intros t Ht. rewrite P1 by done. rewrite Hag; [done|]. apply Hq. lia.
  - rewrite (list_fmap_ext _ (fun t => lwb (b * S_ + q t)) (zrange 0 T)).
    + erewrite (collapse_path labels lwb (b * S_) L T N); [done|..]; try done.
      unfold q. rewrite back_last. eapply endIdx_band; (eassumption || lia).
    + intros k t Ht. apply list_elem_of_lookup_2, elem_of_zrange in Ht. by apply P1.
Qed.
End Batch.

(** C27. For every batch entry whose target fits the input, the labels the CTC
    alignment assigns to the frames collapse to the target: dropping repeated
    labels and then blanks gives back the target. *)
Theorem viterbi_collapses {F : Type} `{MaxPlus F} (B T N L_ : Z) (input : buf F) (target targetSize paths : buf Z)
    (w : ctcws F) (b : Z) :
  0 < T -> (forall b, 0 <= b < B -> fits T N L_ input target targetSize b) -> 0 <= b < B ->
  let paths' := (viterbi B T N L_ input target targetSize paths w).2 in
  collapse (N - 1) ((fun t => paths' (b * T + t)) <$> zrange 0 T) = (fun i => target (b * L_ + i)) <$> zrange 0 (targetSize b).
Proof.
  intros HT HB Hb. cbv zeta. unfold viterbi.
  set (I k (st : ctcws F * buf Z) := b < k -> collapse (N - 1) ((fun t => st.2 (b * T + t)) <$> zrange 0 T)
    = (fun i => target (b * L_ + i)) <$> zrange 0 (targetSize b)).
  match goal with |- context [for_up 0 B ?bd ?s0] => set (r := for_up 0 B bd s0); assert (HI : I B r) end; [|apply HI; lia].
  apply for_up_ind; [lia|intros ?; lia|]. intros k [w1 p1] Hk IH Hlt.
  destruct (viterbiBatch_ctc T N L_ input target targetSize HT k w1 p1 (HB k Hk)) as [(q & _ & _ & Hc) Hfr].
  destruct (Z.eq_dec b k) as [->|Hne]; [done|]. rewrite <- (IH ltac:(lia)). f_equal.
  apply list_fmap_ext. intros i t Ht%list_elem_of_lookup_2%elem_of_zrange. cbn [snd]. apply Hfr. nia.
Qed.

(** * Ties

    Two labels (0 and 1, blank 2) over three frames; all scores are 0 except that
    of label 1 in the second frame.  At the last frame the first label and the
    blank after it tie as predecessors of the second label, and the worse third
    predecessor is kept. *)
Definition tie_input : buf f64 := demo_scores [0; 0; 0; 0; -5; 0; 0; 0; 0].
Definition tie_target : buf Z := fun i => i.
Definition ctc_garbage : ctcws f64 := MkCtc (fun _ => f_inf) (fun _ => 7) (fun _ => 7) (fun _ => 77) (fun _ => 9).
Definition tie_paths : buf Z := (viterbi 1 3 3 2 tie_input tie_target (fun _ => 2) (fun _ => 55) ctc_garbage).2.

(** The alignment is not always the best one: on the input above the
    returned labels 0, 1, 1 score -5, and the alignment 0, 0, 1 scores 0. *)
Theorem viterbi_tie_suboptimal :
  let lwb := extended 2 tie_target in
  let q := fun t => if t =? 0 then 1 else 3 in
  let q' := fun t => if t =? 2 then 3 else 1 in
  (forall t, 0 <= t < 3 -> tie_paths t = lwb (q t))
  /\ ctcPath lwb 0 2 3 3 q /\ ctcPath lwb 0 2 3 3 q' /\ q 2 = 3 /\ q' 2 = 3
  /\ n_lt (ctcScore tie_input lwb 0 0 3 q 2) (ctcScore tie_input lwb 0 0 3 q' 2) = true.
Proof.
  cbv zeta. unfold ctcPath. split_and!; cbn [Z.eqb Pos.eqb]; try done; try lia.
  - intros t Ht. assert (Et : t = 0 \/ t = 1 \/ t = 2) by lia. destruct Et as [-> | [-> | ->]]; vm_compute; reflexivity.
  - intros t Ht. destruct (t =? 0); lia.
  - intros t Ht. assert (Et : t = 1 \/ t = 2) by lia. unfold ctcStep. destruct Et as [-> | ->]; [right; right; split; vm_compute; reflexivity|by left].
  - intros t Ht. destruct (t =? 2); lia.
  - intros t Ht. assert (Et : t = 1 \/ t = 2) by lia. unfold ctcStep. destruct Et as [-> | ->]; [by left|right; right; split; vm_compute; reflexivity].
Qed.

Lemma tie_fits b : 0 <= b < 1 -> fits 3 3 2 tie_input tie_target (fun _ => 2) b.
Proof.
  intros Hb. assert (b = 0) as -> by lia. split; [lia|vm_compute; discriminate|intros i Hi; unfold tie_target; lia|].
  intros q t (_ & Q1 & _) Ht.
  assert (Hl : forall s, 0 <= s < 3 -> extended 2 tie_target (0 + q s) = 0 \/ extended 2 tie_target (0 + q s) = 1 \/ extended 2 tie_target (0 + q s) = 2).
  { intros s Hs. specialize (Q1 s Hs). rewrite Z.add_0_l.
    assert (Ei : q s = 0 \/ q s = 1 \/ q s = 2 \/ q s = 3 \/ q s = 4) by lia.
    destruct Ei as [-> | [-> | [-> | [-> | ->]]]]; vm_compute; tauto. }
  change (3 - 1) with 2. change (at_offset (0 * 2) tie_target) with (fun i => tie_target (0 + i)).
  pose proof (Hl 0 ltac:(lia)) as H0'. pose proof (Hl 1 ltac:(lia)) as H1'. pose proof (Hl 2 ltac:(lia)) as H2'.
  change (extended 2 (fun i => tie_target (0 + i))) with (extended 2 tie_target) in *.
  assert (Et : t = 0%nat \/ t = 1%nat \/ t = 2%nat) by lia.
  destruct Et as [-> | [-> | ->]]; cbn [ctcScore]; change (Z.of_nat 1) with 1; change (Z.of_nat 2) with 2.
  - destruct H0' as [-> | [-> | ->]]; split; vm_compute; reflexivity.
  - destruct H0' as [-> | [-> | ->]], H1' as [-> | [-> | ->]]; split; vm_compute; reflexivity.
  - destruct H0' as [-> | [-> | ->]], H1' as [-> | [-> | ->]], H2' as [-> | [-> | ->]]; split; vm_compute; reflexivity.
Qed.

Lemma viterbi_collapses_witness :
  collapse 2 [tie_paths 0; tie_paths 1; tie_paths 2] = [0; 1] /\ (tie_paths 0, tie_paths 1, tie_paths 2) = (0, 1, 1).
Proof.
  split; [|vm_compute; reflexivity].
  exact (viterbi_collapses 1 3 3 2 tie_input tie_target (fun _ => 2) (fun _ => 55) ctc_garbage 0 ltac:(lia) tie_fits ltac:(lia)).
Defined.
