(* ===== verification/ForceAlignmentGrad.v ===== *)
(** Derivatives of the sum over alignments: suffix sums, the shares of the
    alignments through a cell, and the derivative of the logarithm of the sum with
    respect to any smooth change of the inputs and transitions. *)
From Stdlib Require Import Reals Lra.
From S2P Require Import Prelude Numeric RealSum FullConnection FullConnectionProofs ForceAlignment ForceAlignmentProofs.

Open Scope Z_scope.

(** Sums of shifted terms. *)
Lemma Rsum_shift L (f : Z -> R) : 0 <= L ->
  Rsum (zrange 0 L) (fun i => if i + 1 <? L then f (i + 1) else 0%R) = Rsum (zrange 0 L) (fun i => if 0 <? i then f i else 0%R).
Proof.
  intros HL. destruct (Z.eq_dec L 0) as [->|]; [done|].
  assert (EL : zrange 0 L = zrange 0 (L - 1) ++ [L - 1]) by (rewrite <- zrange_snoc by lia; f_equal; lia).
  assert (ER : zrange 0 L = 0 :: zrange (0 + 1) L) by (by apply zrange_cons; lia).
  rewrite EL at 1. rewrite ER, Rsum_app, !Rsum_cons, Rsum_nil. change (0 <? 0) with false. cbv iota.
  rewrite (proj2 (Z.ltb_ge (L - 1 + 1) L)) by lia. rewrite !Rplus_0_l, !Rplus_0_r.
  replace (Rsum (zrange (0 + 1) L) (fun i => if 0 <? i then f i else 0%R)) with (Rsum (zrange (0 + 1) L) f)
    by (apply Rsum_ext; intros i Hi%elem_of_zrange; by rewrite (proj2 (Z.ltb_lt 0 i)) by lia).
  transitivity (Rsum ((fun i => i + 1) <$> zrange 0 (L - 1)) f).
  - rewrite (Rsum_ext _ _ (fun i => f (i + 1))) by (intros i Hi%elem_of_zrange; by rewrite (proj2 (Z.ltb_lt (i + 1) L)) by lia).
    symmetry. apply (Rsum_map (fun i => i + 1)).
  - f_equal. apply list_eq. intros k. rewrite list_lookup_fmap. destruct (decide (k < Z.to_nat (L - 1))%nat).
    + rewrite !zrange_lookup by lia. cbn. f_equal. lia.
    + rewrite !lookup_ge_None_2; [done|rewrite length_zrange; lia|rewrite length_zrange; lia].
Qed.

Section Grad.
Context (T N L_ : Z) (target : buf Z) (inp tr : Z -> R) (b L : Z).
Hypothesis HL : 1 <= L <= T.
Abbreviation tgt := (tg L_ target b).
Abbreviation pos := (zrange 0 L).

Definition P (t i : Z) : R := prefixSum T N L_ target inp tr b L (Z.to_nat t) i.
Definition e1 (i : Z) : R := exp (tr (tgt i * N + tgt i)).
Definition e2 (i : Z) : R := exp (tr (tgt i * N + tgt (i - 1))).
Definition x (t i : Z) : R := exp (inp (b * T * N + t * N + tgt i)).

Lemma P_0 i : P 0 i = if i =? 0 then x 0 i else 0%R.
Proof. apply prefixSum_0. Qed.

Lemma P_step t i : 1 <= t -> 0 <= i < L -> P t i = ((P (t - 1) i * e1 i + (if (0 <? i)%Z then P (t - 1) (i - 1) * e2 i else 0)) * x t i)%R.
Proof.
  intros Ht Hi. unfold P, e1, e2, x. replace (Z.to_nat t) with (S (Z.to_nat (t - 1))) by lia. rewrite prefixSum_S by done.
  by replace (Z.of_nat (S (Z.to_nat (t - 1)))) with t by lia.
Qed.

(** The sums over the completions of an alignment. *)
Fixpoint complete (k : nat) (i : Z) : R :=
  match k with
  | O => if i =? L - 1 then 1%R else 0%R
  | S k' => let t := T - 1 - Z.of_nat k' in
      (e1 i * x t i * complete k' i + (if i + 1 <? L then e2 (i + 1) * x t (i + 1) * complete k' (i + 1) else 0))%R
  end.
Definition U (t i : Z) : R := complete (Z.to_nat (T - 1 - t)) i.

Lemma U_last i : U (T - 1) i = if i =? L - 1 then 1%R else 0%R.
Proof. unfold U. by rewrite Z.sub_diag. Qed.

Lemma U_step t i : 1 <= t < T ->
  U (t - 1) i = (e1 i * x t i * U t i + (if (i + 1 <? L)%Z then e2 (i + 1)%Z * x t (i + 1)%Z * U t (i + 1)%Z else 0))%R.
Proof.
  intros Ht. unfold U. replace (Z.to_nat (T - 1 - (t - 1))) with (S (Z.to_nat (T - 1 - t))) by lia. cbn [complete].
  by replace (T - 1 - Z.of_nat (Z.to_nat (T - 1 - t))) with t by lia.
Qed.

Lemma U_below t i : 0 <= t < T -> i < L - (T - t) -> U t i = 0%R.
Proof.
  intros Ht. cut (forall k : nat, Z.of_nat k < T -> forall i, i < L - 1 - Z.of_nat k -> complete k i = 0%R).
  { intros Hc Hi. apply Hc; lia. }
  induction k as [|k IH]; intros Hk j Hj; cbn [complete].
  - rewrite (proj2 (Z.eqb_neq _ _)) by lia. done.
  - rewrite !IH by lia. destruct (j + 1 <? L); lra.
Qed.

(** The sum over all alignments. *)
Definition total : R := P (T - 1) (L - 1).

Lemma total_pos : (0 < total)%R.
Proof. apply prefixSum_pos; lia. Qed.

(** The weights of the alignments that are at [i] at time [t], that stay there
    and that move there. *)
Definition node (t i : Z) : R := (P t i * U t i)%R.
Definition stay (t i : Z) : R := (P (t - 1) i * e1 i * x t i * U t i)%R.
Definition move (t i : Z) : R := (P (t - 1) (i - 1) * e2 i * x t i * U t i)%R.

Lemma node_in t i : 1 <= t -> 0 <= i < L -> node t i = (stay t i + (if (0 <? i)%Z then move t i else 0))%R.
Proof. intros Ht Hi. unfold node, stay, move. rewrite (P_step t i) by done. destruct (0 <? i); ring. Qed.

Lemma node_out t i : 1 <= t < T -> node (t - 1) i = (stay t i + (if (i + 1 <? L)%Z then move t (i + 1)%Z else 0))%R.
Proof.
  intros Ht. unfold node, stay, move. rewrite (U_step t i) by done. rewrite Z.add_simpl_r. destruct (i + 1 <? L); ring.
Qed.

(** Nothing passes outside the band. *)
Lemma node_zero t i : 0 <= t < T -> 0 <= i < L -> t < i \/ i < L - (T - t) -> node t i = 0%R.
Proof.
  intros Ht Hi [Hgt|Hlt]; unfold node.
  - unfold P. rewrite prefixSum_beyond by lia. ring.
  - rewrite U_below by lia. ring.
Qed.

Lemma stay_zero t i : 1 <= t < T -> 0 <= i < L -> t <= i \/ i < L - (T - t) -> stay t i = 0%R.
Proof.
  intros Ht Hi [Hgt|Hlt]; unfold stay.
  - unfold P. rewrite prefixSum_beyond by lia. ring.
  - rewrite U_below by lia. ring.
Qed.

Lemma move_zero t i : 1 <= t < T -> 1 <= i < L -> t < i \/ i < L - (T - t) -> move t i = 0%R.
Proof.
  intros Ht Hi [Hgt|Hlt]; unfold move.
  - unfold P. rewrite prefixSum_beyond by lia. ring.
  - rewrite U_below by lia. ring.
Qed.

(** ** A change of the scores *)

Context (inpx trx : R -> Z -> R) (x0 : R) (dI dT : Z -> R).
Hypothesis Hinp : forall i, inpx x0 i = inp i.
Hypothesis Htr : forall i, trx x0 i = tr i.
Hypothesis Dinp : forall i, derivable_pt_lim (fun x => inpx x i) x0 (dI i).
Hypothesis Dtr : forall i, derivable_pt_lim (fun x => trx x i) x0 (dT i).

Definition dx (t i : Z) : R := dI (b * T * N + t * N + tgt i).
Definition d1 (i : Z) : R := dT (tgt i * N + tgt i).
Definition d2 (i : Z) : R := dT (tgt i * N + tgt (i - 1)).

(** The derivative of [prefixSum]. *)
Fixpoint dP (t : nat) (i : Z) : R :=
  match t with
  | O => if i =? 0 then (x 0 i * dx 0 i)%R else 0%R
  | S t' => let t := Z.of_nat t in
      ((dP t' i * e1 i + P (t - 1) i * (e1 i * d1 i)
        + (if 0 <? i then dP t' (i - 1) * e2 i + P (t - 1) (i - 1) * (e2 i * d2 i) else 0)) * x t i
       + (P (t - 1) i * e1 i + (if 0 <? i then P (t - 1) (i - 1) * e2 i else 0)) * (x t i * dx t i))%R
  end.

Abbreviation Px y := (prefixSum T N L_ target (inpx y) (trx y) b L).

Lemma Px_at t i : 0 <= i < L -> Px x0 t i = P (Z.of_nat t) i.
Proof.
  revert i. induction t as [|t IH]; intros i Hi.
  - change (Z.of_nat 0) with 0. rewrite P_0, prefixSum_0, Hinp. unfold x. by rewrite Z.mul_0_l.
  - rewrite prefixSum_S by done. rewrite (P_step (Z.of_nat (S t))) by lia. replace (Z.of_nat (S t) - 1) with (Z.of_nat t) by lia.
    rewrite Hinp, !Htr, IH by done. unfold e1, e2, x. f_equal. f_equal. destruct (Z.ltb_spec 0 i); [|done]. by rewrite IH by lia.
Qed.

Lemma dP_deriv t i : 0 <= i < L -> derivable_pt_lim (fun y => Px y t i) x0 (dP t i).
Proof.
  revert i. induction t as [|t IH]; intros i Hi; cbn [dP].
  - apply (deriv_ext (fun y => if i =? 0 then exp (inpx y (b * T * N + 0 * N + tgt i)) else 0%R)); [intros y; by rewrite prefixSum_0|].
    destruct (i =? 0); [|apply derivable_pt_lim_const]. unfold x, dx. rewrite <- Hinp. apply (exp_deriv (fun y => inpx y _)). apply Dinp.
  - apply (deriv_ext (fun y => ((Px y t i * exp (trx y (tgt i * N + tgt i)%Z)
      + (if (0 <? i)%Z then Px y t (i - 1)%Z * exp (trx y (tgt i * N + tgt (i - 1))%Z) else 0)) * exp (inpx y (b * T * N + Z.of_nat (S t) * N + tgt i)%Z))%R)).
    { intros y. by rewrite prefixSum_S. }
    replace (Z.of_nat (S t) - 1) with (Z.of_nat t) by lia. set (tt := Z.of_nat (S t)).
    assert (Hx : x tt i = exp (inpx x0 (b * T * N + tt * N + tgt i))) by (by rewrite Hinp).
    assert (He1 : e1 i = exp (trx x0 (tgt i * N + tgt i))) by (by rewrite Htr).
    assert (He2 : e2 i = exp (trx x0 (tgt i * N + tgt (i - 1)))) by (by rewrite Htr).
    assert (HM : (if 0 <? i then P (Z.of_nat t) (i - 1) * e2 i else 0)%R =
      (fun y => if (0 <? i)%Z then Px y t (i - 1)%Z * exp (trx y (tgt i * N + tgt (i - 1))%Z) else 0)%R x0)
      by (destruct (Z.ltb_spec 0 i); [by rewrite He2, <- Px_at by lia|done]).
    rewrite HM, Hx, He1, He2, <- Px_at by done. clear HM.
    apply (derivable_pt_lim_mult (fun y => (Px y t i * exp (trx y (tgt i * N + tgt i)%Z)
      + (if (0 <? i)%Z then Px y t (i - 1)%Z * exp (trx y (tgt i * N + tgt (i - 1))%Z) else 0))%R)
      (fun y => exp (inpx y (b * T * N + tt * N + tgt i)%Z))); [|apply (exp_deriv (fun y => inpx y _)), Dinp].
    apply (derivable_pt_lim_plus (fun y => Px y t i * exp (trx y (tgt i * N + tgt i)%Z))%R
      (fun y => if (0 <? i)%Z then (Px y t (i - 1)%Z * exp (trx y (tgt i * N + tgt (i - 1))%Z))%R else 0%R)).
    + apply (derivable_pt_lim_mult (fun y => Px y t i) (fun y => exp (trx y (tgt i * N + tgt i)%Z))); [by apply IH|].
      apply (exp_deriv (fun y => trx y _)), Dtr.
    + destruct (Z.ltb_spec 0 i); [|apply derivable_pt_lim_const]. rewrite <- Px_at by lia.
      apply (derivable_pt_lim_mult (fun y => Px y t (i - 1)) (fun y => exp (trx y (tgt i * N + tgt (i - 1))%Z))); [apply IH; lia|].
      apply (exp_deriv (fun y => trx y _)), Dtr.
Qed.

Definition aflow (t : Z) : R := Rsum pos (fun i => dP (Z.to_nat t) i * U t i)%R.

Definition sources (t : Z) : R :=
  (Rsum pos (fun i => node t i * dx t i) + Rsum pos (fun i => stay t i * d1 i) + Rsum pos (fun i => if (0 <? i)%Z then move t i * d2 i else 0))%R.

Lemma aflow_0 : aflow 0 = Rsum pos (fun i => node 0 i * dx 0 i)%R.
Proof. apply Rsum_ext. intros i _. unfold node. rewrite P_0. change (Z.to_nat 0) with O. cbn [dP]. destruct (i =? 0); ring. Qed.

Lemma aflow_step t : 1 <= t < T -> aflow t = (aflow (t - 1) + sources t)%R.
Proof.
  intros Ht. unfold aflow at 2, sources.
  rewrite (Rsum_ext _ (fun i => dP (Z.to_nat (t - 1)) i * U (t - 1) i)%R
    (fun i => dP (Z.to_nat (t - 1)) i * (e1 i * x t i * U t i)
      + (if (i + 1 <? L)%Z then dP (Z.to_nat (t - 1)) (i + 1 - 1)%Z * (e2 (i + 1)%Z * x t (i + 1)%Z * U t (i + 1)%Z) else 0))%R).
  2: { intros i _. rewrite (U_step t i Ht), Z.add_simpl_r. destruct (i + 1 <? L); ring. }
  rewrite Rsum_plus, (Rsum_shift L (fun i => dP (Z.to_nat (t - 1)) (i - 1)%Z * (e2 i * x t i * U t i))%R) by lia.
  rewrite <- !Rsum_plus. apply Rsum_ext. intros i Hi%elem_of_zrange. unfold node, stay, move.
  rewrite (P_step t i) by lia. replace (Z.to_nat t) with (S (Z.to_nat (t - 1))) by lia. cbn [dP].
  replace (Z.of_nat (S (Z.to_nat (t - 1)))) with t by lia. destruct (0 <? i); ring.
Qed.

(** The derivative of the sum over alignments. *)
Lemma aflow_total :
  dP (Z.to_nat (T - 1)) (L - 1) = (Rsum pos (fun i => node 0 i * dx 0 i) + Rsum (zrange 1 T) sources)%R.
Proof.
  transitivity (aflow (T - 1)).
  { unfold aflow. rewrite (Rsum_single 0 L _ (L - 1)); [|lia|].
    - rewrite U_last, Z.eqb_refl. lra.
    - intros i Hi Hne. rewrite U_last, (proj2 (Z.eqb_neq _ _)) by lia. lra. }
  cut (forall k : nat, Z.of_nat k < T -> aflow (Z.of_nat k) =
    (Rsum pos (fun i => node 0 i * dx 0 i) + Rsum (zrange 1 (Z.of_nat k + 1)) sources)%R).
  { intros Hc. specialize (Hc (Z.to_nat (T - 1)) ltac:(lia)). rewrite Z2Nat.id in Hc by lia. by replace (T - 1 + 1) with T in Hc by lia. }
  induction k as [|k IH]; intros Hk.
  - change (Z.of_nat 0 + 1) with 1. rewrite (zrange_nil 1 1), Rsum_nil by lia. change (Z.of_nat 0) with 0. rewrite aflow_0. lra.
  - replace (Z.of_nat (S k)) with (Z.of_nat k + 1) in * by lia. rewrite aflow_step by lia.
    rewrite Z.add_simpl_r, IH, (zrange_snoc _ (Z.of_nat k + 1)) by lia. rewrite Rsum_app, Rsum_cons, Rsum_nil. lra.
Qed.

Lemma total_deriv :
  derivable_pt_lim (fun y => ln (Px y (Z.to_nat (T - 1)) (L - 1))) x0 (/ total * dP (Z.to_nat (T - 1)) (L - 1))%R.
Proof.
  assert (E0 : Px x0 (Z.to_nat (T - 1)) (L - 1) = total) by (rewrite Px_at by lia; unfold total; by rewrite Z2Nat.id by lia).
  rewrite <- E0. apply (ln_deriv (fun y => Px y (Z.to_nat (T - 1)) (L - 1))); [rewrite E0; apply total_pos|]. apply dP_deriv. lia.
Qed.
End Grad.
