(* ===== verification/ForceAlignmentBackward.v ===== *)
(** The backward pass of the force alignment criterion: the buffers it fills hold
    the shares of the alignments through a cell, so the gradients it returns are
    the derivatives of the loss. *)
From Stdlib Require Import Reals Lra.
From S2P Require Import Prelude Numeric RealSum FullConnection FullConnectionProofs FullConnectionBackward ForceAlignment ForceAlignmentProofs ForceAlignmentGrad.

Open Scope Z_scope.

(** * Adding to cells *)

Lemma addTo_eq (i : Z) (x y : R) (a : buf xreal) : a i = Fin y -> addTo i (Fin x) a i = Fin (y + x).
Proof. intros E. unfold addTo. rewrite bset_eq, E. done. Qed.

Lemma addTo_ne (i j : Z) (x : xreal) (a : buf xreal) : j <> i -> addTo i x a j = a j.
Proof. intros. unfold addTo. by apply bset_ne. Qed.

(** A loop that adds [x i] to the cell [c i]. *)
Lemma scatter_spec lo hi (c : Z -> Z) (v : Z -> xreal) (x : Z -> R) (a : buf xreal) (f : Z -> R) (D : Z -> Prop) :
  lo <= hi -> (forall i, lo <= i < hi -> D (c i)) -> (forall i, lo <= i < hi -> v i = Fin (x i)) -> (forall j, D j -> a j = Fin (f j)) ->
  let a' := for_up lo hi (fun i a => addTo (c i) (v i) a) a in
  (forall j, D j -> a' j = Fin (f j + Rsum (zrange lo hi) (fun i => if c i =? j then x i else 0%R)))
  /\ (forall j, ~ D j -> a' j = a j).
Proof.
  intros Hle Hc Hx Ha. cbv zeta.
  apply (for_up_ind (fun k a' => (forall j, D j -> a' j = Fin (f j + Rsum (zrange lo k) (fun i => if c i =? j then x i else 0%R)))
    /\ (forall j, ~ D j -> a' j = a j)) lo hi); [done| |].
  - split; [|done]. intros j Hj. rewrite zrange_nil, Rsum_nil, Rplus_0_r by lia. by apply Ha.
  - intros i a1 Hi [I1 I2]. rewrite Hx by done. split.
    + intros j Hj. rewrite zrange_snoc, Rsum_app, Rsum_cons, Rsum_nil by lia. destruct (Z.eqb_spec (c i) j) as [<-|Hne].
      * erewrite addTo_eq by (by apply I1). f_equal. lra.
      * rewrite addTo_ne, I1 by done. f_equal. lra.
    + intros j Hj. rewrite addTo_ne; [by apply I2|]. intros ->. by apply Hj, Hc.
Qed.

(** A loop that updates each cell of a range in place. *)
Lemma for_up_update (h : xreal -> xreal) o n (a : buf xreal) j : 0 <= n ->
  for_up 0 n (fun i a => bset (o + i) (h (a (o + i))) a) a j = if (o <=? j) && (j <? o + n) then h (a j) else a j.
Proof.
  intros Hn. apply (for_up_ind (fun k a' => a' j = if (o <=? j) && (j <? o + k) then h (a j) else a j)); [done| |].
  - destruct (Z.leb_spec o j), (Z.ltb_spec j (o + 0)); done || lia.
  - intros i a' Hi IH. unfold bset. destruct (Z.eqb_spec j (o + i)) as [->|].
    + rewrite IH. destruct (Z.leb_spec o (o + i)), (Z.ltb_spec (o + i) (o + i)), (Z.ltb_spec (o + i) (o + (i + 1))); done || lia.
    + rewrite IH. destruct (Z.leb_spec o j), (Z.ltb_spec j (o + i)), (Z.ltb_spec j (o + (i + 1))); done || lia.
Qed.

Lemma dLogSumExp_fin a c : dLogSumExp (Fin a) (Fin c) = (Fin (exp a / (exp a + exp c)), Fin (exp c / (exp a + exp c))).
Proof.
  pose proof (exp_pos a). pose proof (exp_pos c).
  assert (Hac : (exp (a + - c) = exp a / exp c)%R) by (by rewrite exp_plus, exp_Ropp).
  assert (Hca : (exp (c + - a) = exp c / exp a)%R) by (by rewrite exp_plus, exp_Ropp).
  assert (Hq : forall p q, (0 < p -> 0 < q -> 0 < 1 + p / q)%R).
  { intros p q Hp Hq. pose proof (Rdiv_lt_0_compat p q Hp Hq). lra. }
  unfold dLogSumExp. cbn [n_lt xreal_num x_lt]. destruct (Rltb a c); cbn [n_sub n_add n_div n_one n_exp xreal_num xreal_elementary x_add x_opp x_exp x_div].
  - rewrite Hac. unfold Reqb. destruct (Req_EM_T _ _) as [E|_]; [specialize (Hq (exp a) (exp c)); lra|]. cbn [x_opp x_add].
    f_equal; f_equal; field; lra.
  - rewrite Hca. unfold Reqb. destruct (Req_EM_T _ _) as [E|_]; [specialize (Hq (exp c) (exp a)); lra|]. cbn [x_opp x_add].
    f_equal; f_equal; field; lra.
Qed.

(** * One batch entry *)

Section Batch.
Context (T N L_ : Z) (target targetSize : buf Z) (inp tr : Z -> R) (b : Z).
Abbreviation L := (targetSize b).
Hypothesis HL : 1 <= L <= T.
Abbreviation fac := (facws xreal).
Abbreviation tgt := (tg L_ target b).
Hypothesis Htg : forall i, 0 <= i < L -> 0 <= tgt i < N.
Abbreviation cell t i := (b * T * L_ + t * L + i).
Abbreviation icell t m := (b * T * N + t * N + m).

(** The shares of the alignments at a position, staying there and moving there. *)
Abbreviation tot := (total T N L_ target inp tr b L).
Definition nodeQ (t i : Z) : R := (node T N L_ target inp tr b L t i / tot)%R.
Definition stayQ (t i : Z) : R := (stay T N L_ target inp tr b L t i / tot)%R.
Definition moveQ (t i : Z) : R := (move T N L_ target inp tr b L t i / tot)%R.

Lemma tot_pos : (0 < tot)%R.
Proof. apply total_pos. lia. Qed.

Lemma nodeQ_in t i : 1 <= t -> 0 <= i < L -> nodeQ t i = (stayQ t i + (if (0 <? i)%Z then moveQ t i else 0))%R.
Proof. intros. pose proof tot_pos. unfold nodeQ, stayQ, moveQ. rewrite node_in by (done || lia). destruct (0 <? i); field; lra. Qed.

Lemma nodeQ_out t i : 1 <= t < T -> nodeQ (t - 1) i = (stayQ t i + (if (i + 1 <? L)%Z then moveQ t (i + 1)%Z else 0))%R.
Proof. intros. pose proof tot_pos. unfold nodeQ, stayQ, moveQ. rewrite node_out by done. destruct (i + 1 <? L); field; lra. Qed.

Lemma nodeQ_zero t i : 0 <= t < T -> 0 <= i < L -> band T targetSize b t i = false -> nodeQ t i = 0%R.
Proof.
  intros Ht Hi Hb. unfold nodeQ. rewrite node_zero; [unfold Rdiv; ring|lia|done|done|].
  unfold band in Hb. rewrite !andb_false_iff, !Z.leb_gt, Z.ltb_ge in Hb. lia.
Qed.

Lemma nodeQ_last i : 0 <= i < L -> nodeQ (T - 1) i = if i =? L - 1 then 1%R else 0%R.
Proof.
  intros Hi. pose proof tot_pos as Hp. unfold nodeQ, node. rewrite U_last. destruct (Z.eqb_spec i (L - 1)) as [->|].
  - fold tot. field. lra.
  - unfold Rdiv. ring.
Qed.

(** What [forward] left for the batch entry. *)
Record prepared (w : fac) : Prop := {
  prep_rows : forall t, 0 <= t < T -> alignedRow T N L_ target targetSize inp tr b t w;
  prep_trans : transFilled N L_ target targetSize tr b w;
}.

(** Buffers that [backward] only reads. *)
Definition kept (w w' : fac) : Prop :=
  f_scale w' = f_scale w /\ f_alpha w' = f_alpha w /\ f_transBatchGrad w' = f_transBatchGrad w
  /\ f_transBuf1 w' = f_transBuf1 w /\ f_transBuf2 w' = f_transBuf2 w.

(** The shares of an inner cell of a frame. *)
Lemma inner_shares t i (w : fac) :
  prepared w -> 1 <= t < T -> 1 <= i < L -> i < t -> L - (T - t) <= i ->
  let s1 := (f_alpha w (cell (t - 1) i) + f_transBuf1 w (b * L_ + i)%Z)%num in
  let s2 := (f_alpha w (cell (t - 1) (i - 1)) + f_transBuf2 w (b * L_ + i)%Z)%num in
  exists d1 d2, dLogSumExp s1 s2 = (Fin d1, Fin d2) /\ (d1 * nodeQ t i = stayQ t i)%R /\ (d2 * nodeQ t i = moveQ t i)%R.
Proof.
  intros [Hr Htr] Ht Hi Hit Hlo. cbv zeta. destruct (Htr i ltac:(lia)) as [-> E2]. rewrite E2 by lia.
  rewrite !(Hr (t - 1)) by (try lia; apply band_spec; lia).
  cbn [n_add xreal_num x_add]. rewrite dLogSumExp_fin. eexists _, _. split; [done|].
  pose proof (prefixSum_pos T N L_ target inp tr b L (Z.to_nat (t - 1)) i ltac:(lia) ltac:(lia)) as P1.
  pose proof (prefixSum_pos T N L_ target inp tr b L (Z.to_nat (t - 1)) (i - 1) ltac:(lia) ltac:(lia)) as P2.
  rewrite !exp_plus, !exp_ln by done. pose proof tot_pos. unfold nodeQ, stayQ, moveQ, node.
  rewrite (P_step T N L_ target inp tr b L t i), (proj2 (Z.ltb_lt 0 i)) by lia. unfold stay, move, P, e1, e2.
  set (p1 := prefixSum _ _ _ _ _ _ _ _ _ i) in *. set (p2 := prefixSum _ _ _ _ _ _ _ _ _ (i - 1)) in *.
  set (q1 := exp (tr (tgt i * N + tgt i)%Z)). set (q2 := exp (tr (tgt i * N + tgt (i - 1))%Z)).
  assert (0 < p1 * q1)%R by (apply Rmult_lt_0_compat; [done|apply exp_pos]).
  assert (0 < p2 * q2)%R by (apply Rmult_lt_0_compat; [done|apply exp_pos]).
  split; field; lra.
Qed.

(** ** A frame *)

Section Frame.
Context (t : Z) (g1 g2 : Z -> R) (w0 : fac).
Hypothesis Ht : 1 <= t < T.
Hypothesis Hw0 : prepared w0.
Hypothesis Hcur : forall i, 0 <= i < L -> f_alphaGrad w0 (cell t i) = Fin (nodeQ t i).

Definition on (p : Z -> bool) (x : Z -> R) (i : Z) : R := if p i then x i else 0%R.

(** The state when the positions [p] of the frame have been processed. *)
Record processed (p : Z -> bool) (w : fac) : Prop := {
  pr_kept : kept w0 w;
  pr_prev : forall i, 0 <= i < L -> f_alphaGrad w (cell (t - 1) i) =
    Fin (on p (stayQ t) i + (if (i + 1 <? L)%Z then on p (moveQ t) (i + 1)%Z else 0));
  pr_tb1 : forall i, 0 <= i < L -> f_transBufGrad1 w (b * L_ + i) = Fin (g1 i + on p (stayQ t) i);
  pr_tb2 : forall i, 0 < i < L -> f_transBufGrad2 w (b * L_ + i) = Fin (g2 i + on p (moveQ t) i);
  pr_ag : forall j, ~ (cell (t - 1) 0 <= j < cell (t - 1) L) -> f_alphaGrad w j = f_alphaGrad w0 j;
  pr_tb : forall j, ~ (b * L_ <= j < b * L_ + L) -> f_transBufGrad1 w j = f_transBufGrad1 w0 j /\ f_transBufGrad2 w j = f_transBufGrad2 w0 j;
}.

Definition also (q : Z) (p : Z -> bool) : Z -> bool := fun i => (i =? q) || p i.

Lemma on_also q p x i : on (also q p) x i = if i =? q then x i else on p x i.
Proof. unfold on, also. by destruct (i =? q). Qed.

Lemma cur_kept p w i : processed p w -> 0 <= i < L -> f_alphaGrad w (cell t i) = Fin (nodeQ t i).
Proof. intros Hp Hi. rewrite (pr_ag _ _ Hp) by lia. by apply Hcur. Qed.

Lemma processed_ext p p' w : (forall i, 0 <= i < L -> p i = p' i) -> processed p w -> processed p' w.
Proof.
  intros E [K P1 T1 T2 A1 B1]. assert (Eo : forall x i, 0 <= i < L -> on p x i = on p' x i) by (intros x i Hi; unfold on; by rewrite E).
  split; try done.
  - intros i Hi. rewrite P1, Eo by done. do 2 f_equal. destruct (Z.ltb_spec (i + 1) L); [|done]. apply Eo. lia.
  - intros i Hi. by rewrite T1, Eo.
  - intros i Hi. rewrite T2, Eo by lia. done.
Qed.

(** A position that is only stayed at. *)
Lemma step_stay p w q (c : R) :
  processed p w -> 0 <= q < L -> p q = false -> c = stayQ t q -> (0 < q -> moveQ t q = 0%R) ->
  processed (also q p) (fset_grads (addTo (cell (t - 1) q) (Fin c) (f_alphaGrad w)) (addTo (b * L_ + q) (Fin c) (f_transBufGrad1 w)) (f_transBufGrad2 w) w).
Proof.
  intros [K P1 T1 T2 A1 B1] Hq Hpq -> Hm. assert (Eq : forall x, on p x q = 0%R) by (intros x; unfold on; by rewrite Hpq).
  split; cbn [f_alphaGrad f_transBufGrad1 f_transBufGrad2 fset_grads]; [exact K| | | | |].
  - intros i Hi. rewrite !on_also. assert (Em : forall r, (if (i + 1 <? L)%Z then if i + 1 =? q then moveQ t (i + 1) else r else 0)%R
      = (if (i + 1 <? L)%Z then if i + 1 =? q then 0%R else r else 0)%R).
    { intros r. destruct (i + 1 <? L); [|done]. destruct (Z.eqb_spec (i + 1) q) as [Hiq|]; [|done]. rewrite Hiq. apply Hm. lia. }
    rewrite Em. clear Em. assert (Er : (if i + 1 =? q then 0%R else on p (moveQ t) (i + 1)) = on p (moveQ t) (i + 1)).
    { destruct (Z.eqb_spec (i + 1) q) as [Hiq|]; [by rewrite Hiq, Eq|done]. }
    rewrite Er. clear Er. destruct (Z.eqb_spec i q) as [->|Hne].
    + erewrite addTo_eq by (by apply P1). rewrite Eq. f_equal. lra.
    + rewrite addTo_ne by lia. by apply P1.
  - intros i Hi. rewrite on_also. destruct (Z.eqb_spec i q) as [->|Hne].
    + erewrite addTo_eq by (by apply T1). rewrite Eq. f_equal. lra.
    + rewrite addTo_ne by lia. by apply T1.
  - intros i Hi. rewrite on_also, T2 by done. destruct (Z.eqb_spec i q) as [->|]; [|done]. rewrite Eq, Hm by lia. done.
  - intros j Hj. rewrite addTo_ne by lia. by apply A1.
  - intros j Hj. rewrite addTo_ne by lia. by apply B1.
Qed.

(** A position that is moved to, after what stays there has been added. *)
Lemma step_move p w q (c d : R) :
  processed p w -> 1 <= q < L -> p q = false -> d = stayQ t q -> c = moveQ t q ->
  processed (also q p) (fset_grads (addTo (cell (t - 1) (q - 1)) (Fin c) (addTo (cell (t - 1) q) (Fin d) (f_alphaGrad w)))
    (addTo (b * L_ + q) (Fin d) (f_transBufGrad1 w)) (addTo (b * L_ + q) (Fin c) (f_transBufGrad2 w)) w).
Proof.
  intros [K P1 T1 T2 A1 B1] Hq Hpq -> ->. assert (Eq : forall x, on p x q = 0%R) by (intros x; unfold on; by rewrite Hpq).
  split; cbn [f_alphaGrad f_transBufGrad1 f_transBufGrad2 fset_grads]; [exact K| | | | |].
  - intros i Hi. rewrite !on_also. destruct (Z.eq_dec i q) as [->|Hne]; [|destruct (Z.eq_dec i (q - 1)) as [->|Hne2]].
    + rewrite addTo_ne by lia. erewrite addTo_eq by (by apply P1). rewrite Z.eqb_refl, (proj2 (Z.eqb_neq (q + 1) q)), Eq by lia. f_equal. lra.
    + erewrite addTo_eq by (rewrite addTo_ne by lia; by apply P1). rewrite (proj2 (Z.eqb_neq (q - 1) q)) by lia.
      replace (q - 1 + 1) with q by lia. rewrite Z.eqb_refl, (proj2 (Z.ltb_lt q L)), Eq by lia. f_equal. lra.
    + rewrite !addTo_ne by lia. rewrite (proj2 (Z.eqb_neq i q)), (proj2 (Z.eqb_neq (i + 1) q)) by lia. by apply P1.
  - intros i Hi. rewrite on_also. destruct (Z.eqb_spec i q) as [->|Hne].
    + erewrite addTo_eq by (by apply T1). rewrite Eq. f_equal. lra.
    + rewrite addTo_ne by lia. by apply T1.
  - intros i Hi. rewrite on_also. destruct (Z.eqb_spec i q) as [->|Hne].
    + erewrite addTo_eq by (by apply T2). rewrite Eq. f_equal. lra.
    + rewrite addTo_ne by lia. by apply T2.
  - intros j Hj. rewrite !addTo_ne by lia. by apply A1.
  - intros j Hj. rewrite !addTo_ne by lia. by apply B1.
Qed.

(** A position that is only moved to. *)
Lemma step_top p w q (c : R) :
  processed p w -> 1 <= q < L -> p q = false -> c = moveQ t q -> stayQ t q = 0%R ->
  processed (also q p) (fset_grads (addTo (cell (t - 1) (q - 1)) (Fin c) (f_alphaGrad w)) (f_transBufGrad1 w)
    (addTo (b * L_ + q) (Fin c) (f_transBufGrad2 w)) w).
Proof.
  intros [K P1 T1 T2 A1 B1] Hq Hpq -> Hs. assert (Eq : forall x, on p x q = 0%R) by (intros x; unfold on; by rewrite Hpq).
  assert (Es : forall i, (if i =? q then stayQ t i else on p (stayQ t) i) = on p (stayQ t) i).
  { intros i. destruct (Z.eqb_spec i q) as [->|]; [|done]. by rewrite Hs, Eq. }
  split; cbn [f_alphaGrad f_transBufGrad1 f_transBufGrad2 fset_grads]; [exact K| | | | |].
  - intros i Hi. rewrite !on_also, Es. destruct (Z.eq_dec i (q - 1)) as [->|Hne].
    + erewrite addTo_eq by (by apply P1). replace (q - 1 + 1) with q by lia. rewrite Z.eqb_refl, (proj2 (Z.ltb_lt q L)), Eq by lia. f_equal. lra.
    + rewrite addTo_ne by lia. rewrite (proj2 (Z.eqb_neq (i + 1) q)) by lia. by apply P1.
  - intros i Hi. rewrite on_also, Es. by apply T1.
  - intros i Hi. rewrite on_also. destruct (Z.eqb_spec i q) as [->|Hne].
    + erewrite addTo_eq by (by apply T2). rewrite Eq. f_equal. lra.
    + rewrite addTo_ne by lia. by apply T2.
  - intros j Hj. rewrite addTo_ne by lia. by apply A1.
  - intros j Hj. rewrite addTo_ne by lia. by apply B1.
Qed.

(** Every position of the band processed: the row before holds its shares. *)
Lemma processed_band w : processed (band T targetSize b t) w ->
  kept w0 w
  /\ (forall i, 0 <= i < L -> f_alphaGrad w (cell (t - 1) i) = Fin (nodeQ (t - 1) i))
  /\ (forall i, 0 <= i < L -> f_transBufGrad1 w (b * L_ + i) = Fin (g1 i + stayQ t i))
  /\ (forall i, 0 < i < L -> f_transBufGrad2 w (b * L_ + i) = Fin (g2 i + moveQ t i)).
Proof.
  intros [K P1 T1 T2 _ _].
  assert (Hb : forall i, 0 <= i < L -> band T targetSize b t i = false -> t < i \/ i < L - (T - t)).
  { intros i Hi Hb. unfold band in Hb. rewrite !andb_false_iff, !Z.leb_gt, Z.ltb_ge in Hb. lia. }
  assert (Es : forall i, 0 <= i < L -> on (band T targetSize b t) (stayQ t) i = stayQ t i).
  { intros i Hi. unfold on. destruct (band _ _ _ _ _) eqn:E; [done|]. destruct (Hb i Hi E); unfold stayQ; rewrite stay_zero by lia; unfold Rdiv; ring. }
  assert (Em : forall i, 1 <= i < L -> on (band T targetSize b t) (moveQ t) i = moveQ t i).
  { intros i Hi. unfold on. destruct (band _ _ _ _ _) eqn:E; [done|]. destruct (Hb i ltac:(lia) E); unfold moveQ; rewrite move_zero by lia; unfold Rdiv; ring. }
  split_and!; [done| | |].
  - intros i Hi. rewrite P1, Es, nodeQ_out by done. do 2 f_equal. destruct (Z.ltb_spec (i + 1) L); [|done]. apply Em. lia.
  - intros i Hi. by rewrite T1, Es.
  - intros i Hi. rewrite T2, Em by lia. done.
Qed.

(** The loops of [backFrame] that update the workspace. *)
Definition frameGrads (w : fac) : fac :=
  let w := if L <=? T - t then
      fset_grads (addTo (cell (t - 1) 0) (f_alphaGrad w (cell t 0)) (f_alphaGrad w)) (addTo (b * L_ + 0) (f_alphaGrad w (cell t 0)) (f_transBufGrad1 w)) (f_transBufGrad2 w) w
    else w in
  let w := if t <? L then
      fset_grads (addTo (cell (t - 1) (t - 1)) (f_alphaGrad w (cell t t)) (f_alphaGrad w)) (f_transBufGrad1 w)
        (addTo (b * L_ + t) (f_alphaGrad w (cell t t)) (f_transBufGrad2 w)) w
    else w in
  for_up (low T t L) (high t L) (fun i w =>
    let '(d1, d2) := dLogSumExp (f_alpha w (cell (t - 1) i) + f_transBuf1 w (b * L_ + i)%Z)%num
      (f_alpha w (cell (t - 1) (i - 1)) + f_transBuf2 w (b * L_ + i)%Z)%num in
    let g := f_alphaGrad w (cell t i) in
    fset_grads (addTo (cell (t - 1) (i - 1)) (d2 * g)%num (addTo (cell (t - 1) i) (d1 * g)%num (f_alphaGrad w)))
      (addTo (b * L_ + i) (d1 * g)%num (f_transBufGrad1 w)) (addTo (b * L_ + i) (d2 * g)%num (f_transBufGrad2 w)) w) w.

Lemma frameGrads_spec : processed (fun _ => false) w0 -> processed (band T targetSize b t) (frameGrads w0).
Proof.
  intros H0. unfold frameGrads.
  set (w1 := if L <=? T - t then _ else w0).
  assert (H1 : processed (fun i => (L <=? T - t) && (i =? 0)) w1).
  { unfold w1. destruct (Z.leb_spec L (T - t)); cbn [andb]; [|done]. rewrite (cur_kept _ _ 0 H0) by lia.
    eapply processed_ext; [|apply (step_stay _ _ 0 (nodeQ t 0) H0); [lia|done| |lia]].
    - intros i Hi. unfold also. by rewrite orb_false_r.
    - rewrite nodeQ_in by lia. cbn [Z.ltb Z.compare]. lra. }
  clearbody w1. set (w2 := if t <? L then _ else w1).
  assert (H2 : processed (fun i => (L <=? T - t) && (i =? 0) || (t <? L) && (i =? t)) w2).
  { unfold w2. destruct (Z.ltb_spec t L); cbn [andb].
    - rewrite (cur_kept _ _ t H1) by lia. assert (Hs : stayQ t t = 0%R) by (unfold stayQ; rewrite stay_zero by lia; unfold Rdiv; ring).
      eapply processed_ext; [|apply (step_top _ _ t (nodeQ t t) H1); [lia| | |done]].
      + intros i Hi. unfold also. apply orb_comm.
      + rewrite (proj2 (Z.eqb_neq t 0)) by lia. apply andb_false_r.
      + rewrite nodeQ_in, Hs, (proj2 (Z.ltb_lt 0 t)) by lia. lra.
    - eapply processed_ext; [|exact H1]. intros i Hi. by rewrite orb_false_r. }
  clearbody w2. clear H0 H1 w1.
  set (q k i := (L <=? T - t) && (i =? 0) || (t <? L) && (i =? t) || (low T t L <=? i) && (i <? k)).
  assert (Hb : 1 <= low T t L /\ high t L <= L /\ high t L <= t /\ L - (T - t) <= low T t L) by (unfold low, high; repeat case_match; lia).
  match goal with |- processed _ (for_up _ _ ?bd w2) => set (body := bd) end.
  assert (H3 : processed (q (Z.max (low T t L) (high t L))) (for_up (low T t L) (high t L) body w2)).
  { assert (Hq0 : processed (q (low T t L)) w2).
    { eapply processed_ext; [|exact H2]. intros i Hi. unfold q. destruct (Z.leb_spec (low T t L) i), (Z.ltb_spec i (low T t L)); try lia; by rewrite orb_false_r. }
    destruct (Z.le_gt_cases (high t L) (low T t L)) as [Hle|Hgt].
    - unfold for_up. by rewrite zrange_nil, Z.max_l by done.
    - rewrite Z.max_r by lia. apply (for_up_ind (fun k => processed (q k))); [lia|done|].
      intros i w Hi Hp. unfold body. destruct (pr_kept _ _ Hp) as (_ & Ea & _ & Eb1 & Eb2). rewrite Ea, Eb1, Eb2.
      destruct (inner_shares t i w0 Hw0 Ht ltac:(lia) ltac:(lia) ltac:(lia)) as (d1 & d2 & -> & S1 & S2).
      rewrite (cur_kept _ _ i Hp) by lia. cbn [n_mul xreal_num x_mul].
      eapply processed_ext; [|apply (step_move _ _ i _ _ Hp); [lia| |done|done]].
      + intros k Hk. unfold also, q. destruct (Z.eqb_spec k i), (Z.leb_spec (low T t L) k), (Z.ltb_spec k i), (Z.ltb_spec k (i + 1)); try lia; cbn [andb orb];
          rewrite ?orb_true_r, ?orb_false_r; done.
      + unfold q. rewrite (proj2 (Z.eqb_neq i 0)), (proj2 (Z.eqb_neq i t)), Z.ltb_irrefl, !andb_false_r by lia. done. }
  eapply processed_ext; [|exact H3]. intros i Hi. unfold q, band, low, high.
  destruct (Z.ltb_spec (T - t) L), (Z.ltb_spec t L);
    repeat match goal with
    | |- context [?a <=? ?b] => destruct (Z.leb_spec a b); try lia
    | |- context [?a <? ?b] => destruct (Z.ltb_spec a b); try lia
    | |- context [?a =? ?b] => destruct (Z.eqb_spec a b); try lia
    end; done.
Qed.
End Frame.

Lemma backFrame_split t (w : fac) (ig : buf xreal) :
  backFrame T N L_ target targetSize b t (w, ig) =
  (frameGrads t w, for_up (low1 T t L) (high1 t L) (fun i ig => addTo (icell t (tgt i)) (f_alphaGrad w (cell t i)) ig) ig).
Proof.
  unfold backFrame, frameGrads. f_equal. rewrite !Z.add_0_r. unfold high at 2 3 4 5.
  assert (Ee : forall i, b * T * L_ + (t - 1) * L + i - 1 = cell (t - 1) (i - 1)) by (intros; lia).
  assert (Eb : forall i w', (let s1 := (f_alpha w' (b * T * L_ + (t - 1) * L + i)%Z + f_transBuf1 w' (b * L_ + i)%Z)%num in
      let s2 := (f_alpha w' (b * T * L_ + (t - 1) * L + i - 1)%Z + f_transBuf2 w' (b * L_ + i)%Z)%num in
      let '(d1, d2) := dLogSumExp s1 s2 in let g := f_alphaGrad w' (b * T * L_ + t * L + i) in
      fset_grads (addTo (b * T * L_ + (t - 1) * L + i - 1) (d2 * g)%num (addTo (b * T * L_ + (t - 1) * L + i) (d1 * g)%num (f_alphaGrad w')))
        (addTo (b * L_ + i) (d1 * g)%num (f_transBufGrad1 w')) (addTo (b * L_ + i) (d2 * g)%num (f_transBufGrad2 w')) w')
    = (let '(d1, d2) := dLogSumExp (f_alpha w' (cell (t - 1) i) + f_transBuf1 w' (b * L_ + i)%Z)%num
      (f_alpha w' (cell (t - 1) (i - 1)) + f_transBuf2 w' (b * L_ + i)%Z)%num in
    let g := f_alphaGrad w' (cell t i) in
    fset_grads (addTo (cell (t - 1) (i - 1)) (d2 * g)%num (addTo (cell (t - 1) i) (d1 * g)%num (f_alphaGrad w')))
      (addTo (b * L_ + i) (d1 * g)%num (f_transBufGrad1 w')) (addTo (b * L_ + i) (d2 * g)%num (f_transBufGrad2 w')) w')).
  { intros i w'. by rewrite Ee. }
  destruct (t <? L); rewrite ?Ee; unfold for_up; apply fold_left_ext; intros; apply Eb.
Qed.

(** Row [t] of the input gradient: the shares of the labels. *)
Definition inputQ (t m : Z) : R := Rsum (zrange 0 L) (fun i => if tgt i =? m then nodeQ t i else 0%R).

Lemma inputLoop_spec t (w : fac) (ig : buf xreal) :
  1 <= t < T -> 0 < N ->
  (forall i, 0 <= i < L -> f_alphaGrad w (cell t i) = Fin (nodeQ t i)) ->
  (forall m, 0 <= m < N -> ig (icell t m) = Fin 0) ->
  let ig' := for_up (low1 T t L) (high1 t L) (fun i ig => addTo (icell t (tgt i)) (f_alphaGrad w (cell t i)) ig) ig in
  (forall m, 0 <= m < N -> ig' (icell t m) = Fin (inputQ t m))
  /\ (forall j, ~ (icell t 0 <= j < icell t N) -> ig' j = ig j).
Proof.
  intros Ht HN Hag Hig. cbv zeta.
  assert (Hb : 0 <= low1 T t L <= high1 t L /\ high1 t L <= L) by (unfold low1, high1; repeat case_match; lia).
  destruct (scatter_spec (low1 T t L) (high1 t L) (fun i => icell t (tgt i)) (fun i => f_alphaGrad w (cell t i)) (nodeQ t) ig
    (fun _ => 0%R) (fun j => icell t 0 <= j < icell t N)) as [S1 S2].
  - lia.
  - intros i Hi. specialize (Htg i). lia.
  - intros i Hi. apply Hag. lia.
  - intros j Hj. replace j with (icell t (j - icell t 0)) by lia. apply Hig. lia.
  - split; [|exact S2]. intros m Hm. rewrite S1 by lia. rewrite Rplus_0_l. f_equal. unfold inputQ.
    rewrite (zrange_app 0 (low1 T t L) L), (zrange_app (low1 T t L) (high1 t L) L), !Rsum_app by lia.
    assert (Hz : forall i, 0 <= i < L -> ~ (low1 T t L <= i < high1 t L) -> nodeQ t i = 0%R).
    { intros i Hi Hn. apply nodeQ_zero; [lia|done|]. destruct (band T targetSize b t i) eqn:E; [|done]. apply band_spec in E.
      exfalso. apply Hn. unfold low1, high1. repeat case_match; lia. }
    rewrite (Rsum_all_zero (zrange 0 _)), (Rsum_all_zero (zrange (high1 t L) L)), Rplus_0_l, Rplus_0_r.
    + apply Rsum_ext. intros i Hi. destruct (Z.eqb_spec (icell t (tgt i)) (icell t m)), (Z.eqb_spec (tgt i) m); done || lia.
    + intros i Hi%elem_of_zrange. case_match; [|done]. apply Hz; lia.
    + intros i Hi%elem_of_zrange. case_match; [|done]. apply Hz; lia.
Qed.

(** ** The loop over frames *)

(** The gradient buffers of the batch entry are zero. *)
Record cleared (w : fac) (ig : buf xreal) : Prop := {
  cl_ag : forall t i, 0 <= t < T -> 0 <= i < L -> f_alphaGrad w (cell t i) = Fin 0;
  cl_tb1 : forall i, 0 <= i < L -> f_transBufGrad1 w (b * L_ + i) = Fin 0;
  cl_tb2 : forall i, 0 <= i < L -> f_transBufGrad2 w (b * L_ + i) = Fin 0;
  cl_tbg : forall m n, 0 <= m < N -> 0 <= n < N -> f_transBatchGrad w (b * N * N + (m * N + n)) = Fin 0;
  cl_ig : forall t m, 0 <= t < T -> 0 <= m < N -> ig (icell t m) = Fin 0;
}.

Definition staySum (t i : Z) : R := Rsum (zrange t T) (fun s => stayQ s i).
Definition moveSum (t i : Z) : R := Rsum (zrange t T) (fun s => moveQ s i).

Lemma staySum_step t i : t < T -> staySum t i = (staySum (t + 1) i + stayQ t i)%R.
Proof. intros. unfold staySum. rewrite (zrange_cons t T), Rsum_cons by lia. lra. Qed.
Lemma moveSum_step t i : t < T -> moveSum t i = (moveSum (t + 1) i + moveQ t i)%R.
Proof. intros. unfold moveSum. rewrite (zrange_cons t T), Rsum_cons by lia. lra. Qed.

(** The state when the frames from [t] on have been processed. *)
Record doneFrom (w0 : fac) (ig0 : buf xreal) (t : Z) (st : fac * buf xreal) : Prop := {
  df_kept : kept w0 st.1;
  df_row : forall i, 0 <= i < L -> f_alphaGrad st.1 (cell (t - 1) i) = Fin (nodeQ (t - 1) i);
  df_zero : forall r i, 0 <= r < t - 1 -> 0 <= i < L -> f_alphaGrad st.1 (cell r i) = Fin 0;
  df_tb1 : forall i, 0 <= i < L -> f_transBufGrad1 st.1 (b * L_ + i) = Fin (staySum t i);
  df_tb2 : forall i, 0 < i < L -> f_transBufGrad2 st.1 (b * L_ + i) = Fin (moveSum t i);
  df_ig : forall r m, 0 <= r < T -> 0 <= m < N -> st.2 (icell r m) = Fin (if t <=? r then inputQ r m else 0%R);
  df_ag_other : forall j, ~ (cell 0 0 <= j < cell T 0) -> f_alphaGrad st.1 j = f_alphaGrad w0 j;
  df_tb_other : forall j, ~ (b * L_ <= j < b * L_ + L) -> f_transBufGrad1 st.1 j = f_transBufGrad1 w0 j /\ f_transBufGrad2 st.1 j = f_transBufGrad2 w0 j;
  df_ig_other : forall j, ~ (icell 0 0 <= j < icell T 0) -> st.2 j = ig0 j;
}.

Lemma row_disjoint r t i j : 0 <= i < L -> 0 <= j < L -> r <> t -> cell r i <> cell t j.
Proof. intros Hi Hj Hne. nia. Qed.

Lemma doneFrom_last w0 ig0 : cleared w0 ig0 ->
  doneFrom w0 ig0 T (fset_grads (bset (b * T * L_ + T * L - 1) n_one (f_alphaGrad w0)) (f_transBufGrad1 w0) (f_transBufGrad2 w0) w0, ig0).
Proof.
  intros [C1 C2 C3 C4 C5]. assert (El : b * T * L_ + T * L - 1 = cell (T - 1) (L - 1)) by lia. rewrite El.
  split; cbn [fst snd f_alphaGrad f_transBufGrad1 f_transBufGrad2 fset_grads]; try done.
  - intros i Hi. rewrite nodeQ_last by done. destruct (Z.eqb_spec i (L - 1)) as [->|]; [by rewrite bset_eq|].
    rewrite bset_ne by lia. apply C1; lia.
  - intros r i Hr Hi. rewrite bset_ne by (apply row_disjoint; lia). apply C1; lia.
  - intros i Hi. unfold staySum. rewrite zrange_nil, Rsum_nil by lia. by apply C2.
  - intros i Hi. unfold moveSum. rewrite zrange_nil, Rsum_nil by lia. apply C3. lia.
  - intros r m Hr Hm. rewrite (proj2 (Z.leb_gt T r)) by lia. by apply C5.
  - intros j Hj. apply bset_ne. nia.
Qed.

Lemma fac_kept_trans w1 w2 w3 : kept w1 w2 -> kept w2 w3 -> kept w1 w3.
Proof. intros (A1 & A2 & A3 & A4 & A5) (B1 & B2 & B3 & B4 & B5). repeat split; congruence. Qed.

Lemma kept_prepared w w' : kept w w' -> prepared w -> prepared w'.
Proof.
  intros (_ & K2 & _ & K4 & K5) [P1 P2]. split.
  - intros t Ht i Hi. rewrite K2. by apply P1.
  - intros i Hi. rewrite K4, K5. by apply P2.
Qed.

Lemma doneFrom_step w0 ig0 t st : 0 < N -> prepared w0 -> 1 <= t < T ->
  doneFrom w0 ig0 (t + 1) st -> doneFrom w0 ig0 t (backFrame T N L_ target targetSize b t st).
Proof.
  intros HN Hw0 Ht [K R Z0 B1 B2 I OA OB OI]. destruct st as [w ig]. cbn [fst snd] in *. rewrite backFrame_split.
  rewrite Z.add_simpl_r in R, Z0.
  assert (Hp : processed t (staySum (t + 1)) (moveSum (t + 1)) w (band T targetSize b t) (frameGrads t w)).
  { apply frameGrads_spec; [done|by apply (kept_prepared w0)|done|]. split; try done.
    - intros i Hi. rewrite Z0 by lia. unfold on. f_equal. destruct (i + 1 <? L); lra.
    - intros i Hi. rewrite B1 by done. unfold on. f_equal. lra.
    - intros i Hi. rewrite B2 by done. unfold on. f_equal. lra. }
  destruct (processed_band _ _ _ _ Ht _ Hp) as (K' & R' & B1' & B2').
  destruct (inputLoop_spec t w ig Ht HN R) as [I1 I2].
  { intros m Hm. rewrite I by lia. by rewrite (proj2 (Z.leb_gt _ _)) by lia. }
  split; cbn [fst snd]; [by apply (fac_kept_trans _ w)|done| | | | | | |].
  - intros r i Hr Hi. rewrite (pr_ag _ _ _ _ _ _ Hp) by nia. apply Z0; lia.
  - intros i Hi. rewrite B1', (staySum_step t i) by lia. done.
  - intros i Hi. rewrite B2', (moveSum_step t i) by lia. done.
  - intros r m Hr Hm. destruct (Z.eq_dec r t) as [->|Hne].
    + rewrite I1, Z.leb_refl by done. done.
    + rewrite I2, I by nia. destruct (Z.leb_spec t r), (Z.leb_spec (t + 1) r); done || lia.
  - intros j Hj. rewrite (pr_ag _ _ _ _ _ _ Hp) by nia. by apply OA.
  - intros j Hj. destruct (pr_tb _ _ _ _ _ _ Hp j Hj) as [-> ->]. by apply OB.
  - intros j Hj. rewrite I2 by nia. by apply OI.
Qed.

(** ** The batch entry *)

Lemma inputQ_first m : inputQ 0 m = if tgt 0 =? m then nodeQ 0 0 else 0%R.
Proof.
  unfold inputQ. apply (Rsum_single 0 L (fun i => if tgt i =? m then nodeQ 0 i else 0%R)); [lia|].
  intros i Hi Hne. case_match; [|done]. apply nodeQ_zero; [lia|done|]. destruct (band T targetSize b 0 i) eqn:E; [|done].
  apply band_spec in E. lia.
Qed.

(** The gradient of a transition: the shares of the alignments that take it. *)
Definition transQ (m n : Z) : R := Rsum (zrange 0 L) (fun i =>
  (if (tgt i =? m) && (tgt i =? n) then staySum 1 i else 0)
  + (if (0 <? i)%Z && (tgt i =? m) && (tgt (i - 1) =? n) then moveSum 1 i else 0))%R.

Lemma transLoop_spec (w : fac) (tbg : buf xreal) :
  0 < N -> (forall m n, 0 <= m < N -> 0 <= n < N -> tbg (b * N * N + (m * N + n)) = Fin 0) ->
  (forall i, 0 <= i < L -> f_transBufGrad1 w (b * L_ + i) = Fin (staySum 1 i)) ->
  (forall i, 0 < i < L -> f_transBufGrad2 w (b * L_ + i) = Fin (moveSum 1 i)) ->
  let tbg' := for_up 0 L (fun i tbg =>
    let tbg := addTo (b * N * N + (tgt i * N + tgt i)) (f_transBufGrad1 w (b * L_ + i)%Z) tbg in
    if 0 <? i then addTo (b * N * N + (tgt i * N + tgt (i - 1))) (f_transBufGrad2 w (b * L_ + i)%Z) tbg else tbg) tbg in
  (forall m n, 0 <= m < N -> 0 <= n < N -> tbg' (b * N * N + (m * N + n)) = Fin (transQ m n))
  /\ (forall j, ~ (b * N * N <= j < b * N * N + N * N) -> tbg' j = tbg j).
Proof.
  intros HN Hz H1 H2. cbv zeta.
  set (part k m n := Rsum (zrange 0 k) (fun i => (if (tgt i =? m) && (tgt i =? n) then staySum 1 i else 0)
    + (if (0 <? i)%Z && (tgt i =? m) && (tgt (i - 1) =? n) then moveSum 1 i else 0))%R).
  apply (for_up_ind (fun k a => (forall m n, 0 <= m < N -> 0 <= n < N -> a (b * N * N + (m * N + n)) = Fin (part k m n))
    /\ (forall j, ~ (b * N * N <= j < b * N * N + N * N) -> a j = tbg j)) 0 L); [lia| |].
  - split; [|done]. intros m n Hm Hn. unfold part. rewrite zrange_nil, Rsum_nil by lia. by apply Hz.
  - intros i a Hi [I1 I2]. rewrite H1 by done. pose proof (Htg i Hi) as Hti.
    assert (Hadd : forall r c x (a : buf xreal) (f : Z -> Z -> R), 0 <= r < N -> 0 <= c < N ->
      (forall m n, 0 <= m < N -> 0 <= n < N -> a (b * N * N + (m * N + n)) = Fin (f m n)) ->
      (forall m n, 0 <= m < N -> 0 <= n < N -> addTo (b * N * N + (r * N + c)) (Fin x) a (b * N * N + (m * N + n)) =
        Fin (f m n + (if (r =? m) && (c =? n) then x else 0)))
      /\ (forall j, ~ (b * N * N <= j < b * N * N + N * N) -> addTo (b * N * N + (r * N + c)) (Fin x) a j = a j)).
    { intros r c x a' f Hr Hc Hf. split; [|intros; apply addTo_ne; nia]. intros m n Hm Hn.
      destruct (Z.eqb_spec r m) as [->|]; [destruct (Z.eqb_spec c n) as [->|]|]; cbn [andb].
      - erewrite addTo_eq by (by apply Hf). done.
      - rewrite addTo_ne, Hf by lia. f_equal. lra.
      - rewrite addTo_ne, Hf by (try done; intros ?; assert (m * N + n = r * N + c) as [-> _]%digits_unique by lia; lia). f_equal. lra. }
    destruct (Hadd (tgt i) (tgt i) (staySum 1 i) a _ Hti Hti I1) as [A1 A2].
    assert (Ep : forall m n, part (i + 1) m n = (part i m n + ((if (tgt i =? m) && (tgt i =? n) then staySum 1 i else 0)
      + (if (0 <? i)%Z && (tgt i =? m) && (tgt (i - 1) =? n) then moveSum 1 i else 0)))%R).
    { intros m n. unfold part. rewrite zrange_snoc, Rsum_app, Rsum_cons, Rsum_nil by lia. lra. }
    destruct (Z.ltb_spec 0 i).
    + rewrite H2 by lia. destruct (Hadd (tgt i) (tgt (i - 1)) (moveSum 1 i) _ _ Hti (Htg (i - 1) ltac:(lia)) A1) as [A3 A4]. split.
      * intros m n Hm Hn. rewrite A3, Ep by done. f_equal. cbn [andb]. lra.
      * intros j Hj. rewrite A4, A2 by done. by apply I2.
    + split; [|intros j Hj; rewrite A2 by done; by apply I2]. intros m n Hm Hn. rewrite A1, Ep by done. f_equal. cbn [andb]. lra.
Qed.

(** What [backwardBatch] leaves, with the cells of other batch entries untouched. *)
Record entryDone (w0 : fac) (ig0 : buf xreal) (gs : R) (st : fac * buf xreal) : Prop := {
  ed_scale : f_scale st.1 = f_scale w0;
  ed_alpha : f_alpha st.1 = f_alpha w0;
  ed_bufs : f_transBuf1 st.1 = f_transBuf1 w0 /\ f_transBuf2 st.1 = f_transBuf2 w0;
  ed_ig : forall t m, 0 <= t < T -> 0 <= m < N -> st.2 (icell t m) = Fin (inputQ t m * gs);
  ed_tbg : forall m n, 0 <= m < N -> 0 <= n < N -> f_transBatchGrad st.1 (b * N * N + (m * N + n)) = Fin (transQ m n);
  ed_ig_other : forall j, ~ (b * T * N <= j < b * T * N + T * N) -> st.2 j = ig0 j;
  ed_tbg_other : forall j, ~ (b * N * N <= j < b * N * N + N * N) -> f_transBatchGrad st.1 j = f_transBatchGrad w0 j;
  ed_ag_other : forall j, ~ (b * T * L_ <= j < b * T * L_ + T * L) -> f_alphaGrad st.1 j = f_alphaGrad w0 j;
  ed_tb_other : forall j, ~ (b * L_ <= j < b * L_ + L) -> f_transBufGrad1 st.1 j = f_transBufGrad1 w0 j /\ f_transBufGrad2 st.1 j = f_transBufGrad2 w0 j;
}.

Lemma backwardBatch_fac (grad : buf xreal) (w : fac) (ig : buf xreal) g sc :
  0 < N -> prepared w -> cleared w ig -> grad b = Fin g -> f_scale w b = Fin sc ->
  entryDone w ig (g * sc) (backwardBatch T N L_ target targetSize grad b (w, ig)).
Proof.
  intros HN Hp Hc Hg Hs. unfold backwardBatch.
  match goal with |- context [for_down 1 T ?bd ?s0] =>
    assert (HD : doneFrom w ig 1 (for_down 1 T bd s0)); [|destruct (for_down 1 T bd s0) as [w1 ig1]] end.
  { apply for_down_ind; [lia|by apply doneFrom_last|]. intros t st Ht. by apply doneFrom_step. }
  destruct HD as [(K1 & K2 & K3 & K4 & K5) R _ B1 B2 I OA OB OI]. cbn [fst snd] in *. change (1 - 1) with 0 in R.
  rewrite K1, Hg, Hs. set (ig2 := addTo _ _ ig1).
  assert (H2 : forall t m, 0 <= t < T -> 0 <= m < N -> ig2 (icell t m) = Fin (inputQ t m)).
  { intros t m Ht Hm. pose proof (Htg 0 ltac:(lia)) as Ht0. unfold ig2. specialize (R 0 ltac:(lia)). rewrite Z.mul_0_l, !Z.add_0_r in R. rewrite R.
    assert (E0 : b * T * N + tgt 0 = icell 0 (tgt 0)) by lia. rewrite E0.
    destruct (Z.eq_dec t 0) as [->|Hne]; [|rewrite addTo_ne, I, (proj2 (Z.leb_le 1 t)) by (lia || nia); done].
    rewrite inputQ_first. destruct (Z.eqb_spec (tgt 0) m) as [<-|].
    - erewrite addTo_eq by (by apply I). cbn [Z.leb Z.compare]. f_equal. lra.
    - rewrite addTo_ne, I by lia. done. }
  assert (H2o : forall j, ~ (b * T * N <= j < b * T * N + T * N) -> ig2 j = ig j).
  { intros j Hj. pose proof (Htg 0 ltac:(lia)). unfold ig2. rewrite addTo_ne by nia. apply OI. lia. }
  clearbody ig2. destruct (transLoop_spec w1 (f_transBatchGrad w1) HN) as [G1 G2]; [|done|done|].
  { intros m n Hm Hn. rewrite K3. by apply (cl_tbg _ _ Hc). }
  set (tbg' := for_up 0 L _ (f_transBatchGrad w1)) in *. clearbody tbg'.
  split; cbn [fst snd f_scale f_alpha f_transBuf1 f_transBuf2 f_transBatchGrad f_alphaGrad f_transBufGrad1 f_transBufGrad2 fset_transBatchGrad]; try done.
  - intros t m Ht Hm. rewrite (for_up_update (fun x => (x * (Fin g * Fin sc))%num)) by nia.
    rewrite H2 by done. rewrite (proj2 (Z.leb_le _ _)), (proj2 (Z.ltb_lt _ _)) by nia. done.
  - intros j Hj. rewrite (for_up_update (fun x => (x * (Fin g * Fin sc))%num)) by nia.
    rewrite H2o by done. destruct (Z.leb_spec (b * T * N) j), (Z.ltb_spec j (b * T * N + T * N)); done || lia.
  - intros j Hj. rewrite G2 by done. by rewrite K3.
  - intros j Hj. apply OA. lia.
Qed.
End Batch.

(** * All batch entries *)

Section Forward.
Context (B T N L_ : Z) (target targetSize : buf Z) (inp tr : Z -> R) (mode : CriterionScaleMode).
Hypothesis HL : forall b, 0 <= b < B -> 1 <= targetSize b <= T /\ targetSize b <= L_.
Abbreviation prep := (prepared T N L_ target targetSize inp tr).

Lemma forwardBatch_prepared b w loss : 1 <= targetSize b <= T -> targetSize b <= L_ ->
  let w' := (forwardBatch T N L_ target targetSize (fun i => Fin (inp i)) (fun i => Fin (tr i)) b (w, loss)).1 in
  prep b w' /\ f_scale w' = f_scale w
  /\ (forall j, ~ (b * T * L_ <= j < b * T * L_ + T * L_) -> f_alpha w' j = f_alpha w j)
  /\ (forall j, ~ (b * L_ <= j < b * L_ + L_) -> f_transBuf1 w' j = f_transBuf1 w j /\ f_transBuf2 w' j = f_transBuf2 w j).
Proof.
  intros Hb Hb_. cbv zeta. unfold forwardBatch. set (w0 := fset_alpha _ w).
  destruct (fillTrans_spec N L_ target targetSize (fun i => Fin (tr i)) b w0 ltac:(lia)) as (A1 & S1 & T1).
  assert (F1 : forall j, ~ (b * L_ <= j < b * L_ + L_) ->
    f_transBuf1 (fillTrans N L_ target targetSize (fun i => Fin (tr i)) b w0) j = f_transBuf1 w j
    /\ f_transBuf2 (fillTrans N L_ target targetSize (fun i => Fin (tr i)) b w0) j = f_transBuf2 w j).
  { intros j Hj. unfold fillTrans. apply (for_up_ind (fun k w' => f_transBuf1 w' j = f_transBuf1 w j /\ f_transBuf2 w' j = f_transBuf2 w j)); [lia|done|].
    intros i w1 Hi I. cbn [f_transBuf1 f_transBuf2 fset_bufs]. by rewrite !bset_ne by lia. }
  set (w1 := fillTrans _ _ _ _ _ _ w0) in *.
  set (body := fun t w => fset_alpha _ w). cbn [fst].
  set (I k (w' : facws xreal) := (forall t, 0 <= t < k -> alignedRow T N L_ target targetSize inp tr b t w')
    /\ transFilled N L_ target targetSize tr b w' /\ f_scale w' = f_scale w
    /\ (forall j, ~ (b * T * L_ <= j < b * T * L_ + T * L_) -> f_alpha w' j = f_alpha w j)
    /\ (forall j, ~ (b * L_ <= j < b * L_ + L_) -> f_transBuf1 w' j = f_transBuf1 w j /\ f_transBuf2 w' j = f_transBuf2 w j)).
  assert (HI : I T (for_up 1 T body w1)).
  { apply (for_up_ind I); [lia| |].
    - split_and!; [|exact T1|by rewrite S1| |exact F1].
      + intros t Ht i Hi. replace t with 0 in * by lia. apply band_spec in Hi. replace i with 0 by lia. rewrite A1. unfold w0.
        cbn [f_alpha fset_alpha]. replace (b * T * L_ + 0 * targetSize b + 0) with (b * T * L_) by lia.
        rewrite bset_eq. change (Z.to_nat 0) with O. rewrite prefixSum_0. cbn [Z.eqb]. rewrite ln_exp. do 2 f_equal. lia.
      + intros j Hj. rewrite A1. unfold w0. cbn [f_alpha fset_alpha]. apply bset_ne. nia.
    - intros t w' Ht (R & Tf & Sw & O1 & O2).
      destruct (frame_cells T N L_ target targetSize (fun i => Fin (inp i)) b Hb fwdCell t (f_transBuf1 w') (f_transBuf2 w') (f_alpha w') Ht) as [_ Fo].
      split_and!; [|done|done| |done].
      + intros r Hr. destruct (Z.eq_dec r t) as [->|]; [apply forwardFrame_spec; try done; apply R; lia|].
        intros i Hi. pose proof (proj1 (band_spec _ _ _ _ _) Hi). unfold body. cbn [f_alpha fset_alpha]. rewrite Fo by nia. apply R; [lia|done].
      + intros j Hj. unfold body. cbn [f_alpha fset_alpha]. rewrite Fo by nia. by apply O1. }
  destruct HI as (R & Tf & Sw & O1 & O2). by split_and!.
Qed.

Lemma prepared_ext b (w w' : facws xreal) :
  1 <= targetSize b <= T -> targetSize b <= L_ ->
  (forall j, b * T * L_ <= j < b * T * L_ + T * L_ -> f_alpha w' j = f_alpha w j) ->
  (forall j, b * L_ <= j < b * L_ + L_ -> f_transBuf1 w' j = f_transBuf1 w j /\ f_transBuf2 w' j = f_transBuf2 w j) ->
  prep b w -> prep b w'.
Proof.
  intros Hb Hb_ E1 E2 [P1 P2]. split.
  - intros t Ht i Hi. pose proof (proj1 (band_spec _ _ _ _ _) Hi). rewrite E1 by nia. by apply P1.
  - intros i Hi. destruct (E2 (b * L_ + i) ltac:(lia)) as [-> ->]. by apply P2.
Qed.

Lemma forward_prepared (loss : buf xreal) (w : facws xreal) : 0 <= B ->
  let w' := (forward T N L_ target targetSize (fun i => Fin (inp i)) (fun i => Fin (tr i)) B mode loss w).1 in
  forall b, 0 <= b < B -> prep b w' /\ f_scale w' b = Fin (scaleOf T mode targetSize b).
Proof.
  intros HB. cbv zeta. unfold forward. set (w0 := fset_scale _ w).
  set (I k (st : facws xreal * buf xreal) := f_scale st.1 = f_scale w0 /\ forall b, 0 <= b < k -> prep b st.1).
  match goal with |- context [for_up 0 B ?bd ?s0] => set (r := for_up 0 B bd s0); assert (HI : I B r) end.
  - apply for_up_ind; [lia|split; [done|lia]|]. intros k [w1 l1] Hk [I1 I2]. cbn [fst snd] in *.
    destruct (HL k Hk) as [HLk HLk_]. destruct (forwardBatch_prepared k w1 l1 HLk HLk_) as (Q1 & Q2 & Q3 & Q4). split; [by rewrite Q2|].
    intros b Hb. destruct (Z.eq_dec b k) as [->|]; [done|]. destruct (HL b ltac:(lia)) as [HLb HLb_].
    apply (prepared_ext b w1); [done|done| | |apply I2; lia]; intros j Hj; [apply Q3|apply Q4]; nia.
  - intros b Hb. destruct HI as [I1 I2]. split; [by apply I2|]. rewrite I1. destruct (HL b Hb). apply computeScale_spec; lia.
Qed.
End Forward.

Section Backward.
Context (B T N L_ : Z) (target targetSize : buf Z) (inp tr sc g : Z -> R).
Hypothesis HN : 0 < N.
Hypothesis HL : forall b, 0 <= b < B -> 1 <= targetSize b <= T /\ targetSize b <= L_.
Hypothesis Htg : forall b i, 0 <= b < B -> 0 <= i < targetSize b -> 0 <= tg L_ target b i < N.
Abbreviation fac := (facws xreal).
Abbreviation prep := (prepared T N L_ target targetSize inp tr).
Abbreviation iQ b := (inputQ T N L_ target targetSize inp tr b).
Abbreviation tQ b := (transQ T N L_ target targetSize inp tr b).

Record entriesDone (w0 : fac) (k : Z) (st : fac * buf xreal) : Prop := {
  es_scale : f_scale st.1 = f_scale w0;
  es_alpha : f_alpha st.1 = f_alpha w0;
  es_bufs : f_transBuf1 st.1 = f_transBuf1 w0 /\ f_transBuf2 st.1 = f_transBuf2 w0;
  es_ig : forall b t m, 0 <= b < k -> 0 <= t < T -> 0 <= m < N -> st.2 (b * T * N + t * N + m) = Fin (iQ b t m * (g b * sc b));
  es_tbg : forall b m n, 0 <= b < k -> 0 <= m < N -> 0 <= n < N -> f_transBatchGrad st.1 (b * N * N + (m * N + n)) = Fin (tQ b m n);
  es_rest : forall b, k <= b < B -> cleared T N L_ targetSize b st.1 st.2;
}.

Lemma entry_step (w0 : fac) b st :
  0 <= b < B -> (forall b, 0 <= b < B -> prep b w0) -> (forall b, 0 <= b < B -> f_scale w0 b = Fin (sc b)) ->
  entriesDone w0 b st -> entriesDone w0 (b + 1) (backwardBatch T N L_ target targetSize (fun b => Fin (g b)) b st).
Proof.
  intros Hb Hp Hs [S1 S2 S3 S4 S5 S6]. destruct st as [w ig]. cbn [fst snd] in *. destruct (HL b Hb) as [HLb HLb_].
  destruct (backwardBatch_fac T N L_ target targetSize inp tr b HLb (fun i => Htg b i Hb) (fun b => Fin (g b)) w ig (g b) (sc b))
    as [D1 D2 D3 D4 D5 D6 D7 D8 D9]; [done| |apply S6; lia|done|rewrite S1; by apply Hs|].
  { destruct S3 as [S3 S3']. apply (prepared_ext T N L_ target targetSize inp tr b w0); [done|done|by rewrite S2|by rewrite S3, S3'|by apply Hp]. }
  destruct (backwardBatch _ _ _ _ _ _ _ _) as [w' ig']. cbn [fst snd] in *.
  destruct S3 as [S3 S3'], D3 as [D3 D3']. split; cbn [fst snd]; [congruence|congruence|split; congruence| | |].
  - intros b' t m Hb' Ht Hm. destruct (Z.eq_dec b' b) as [->|]; [by apply D4|]. rewrite D6 by nia. apply S4; lia.
  - intros b' m n Hb' Hm Hn. destruct (Z.eq_dec b' b) as [->|]; [by apply D5|]. rewrite D7 by nia. apply S5; lia.
  - intros b' Hb'. destruct (S6 b' ltac:(lia)) as [C1 C2 C3 C4 C5]. destruct (HL b' ltac:(lia)) as [HL' HL'_]. split.
    + intros t i Ht Hi. assert ((b + 1) * (T * L_) <= b' * (T * L_)) by (apply Z.mul_le_mono_nonneg_r; nia). assert (T * targetSize b <= T * L_) by nia. rewrite D8 by nia. by apply C1.
    + intros i Hi. destruct (D9 (b' * L_ + i)) as [-> _]; [nia|]. by apply C2.
    + intros i Hi. destruct (D9 (b' * L_ + i)) as [_ ->]; [nia|]. by apply C3.
    + intros m n Hm Hn. rewrite D7 by nia. by apply C4.
    + intros t m Ht Hm. rewrite D6 by nia. by apply C5.
Qed.

Lemma fac_backward_aux (w : fac) ig0 tg0 :
  0 <= B -> (forall b, 0 <= b < B -> prep b w) -> (forall b, 0 <= b < B -> f_scale w b = Fin (sc b)) ->
  let '(_, ig, tg) := backward T N L_ target targetSize B (fun b => Fin (g b)) ig0 tg0 w in
  (forall b t m, 0 <= b < B -> 0 <= t < T -> 0 <= m < N -> ig (b * T * N + t * N + m) = Fin (iQ b t m * (g b * sc b)))
  /\ (forall m n, 0 <= m < N -> 0 <= n < N -> tg (m * N + n) = Fin (Rsum (zrange 0 B) (fun b => g b * sc b * tQ b m n)%R)).
Proof.
  intros HB Hp Hs. unfold backward. set (w0 := fset_transBatchGrad _ _).
  assert (Hp0 : forall b, 0 <= b < B -> prep b w0).
  { intros b Hb. destruct (HL b Hb). by apply (prepared_ext T N L_ target targetSize inp tr b w), Hp. }
  match goal with |- context [for_up 0 B (backwardBatch T N L_ target targetSize ?gr) ?s0] =>
    set (r := for_up 0 B (backwardBatch T N L_ target targetSize gr) s0); assert (HI : entriesDone w0 B r) end.
  { apply (for_up_ind (entriesDone w0) 0 B); [done| |intros b st Hb; by apply entry_step].
    split; cbn [fst snd]; try done; try lia. intros b Hb. destruct (HL b Hb) as [HLb HLb_].
    split; cbn [f_alphaGrad f_transBufGrad1 f_transBufGrad2 f_transBatchGrad w0 fset_transBatchGrad fset_grads].
    - intros t i Ht Hi. apply setZero_spec. pose proof (cell_bound b t i B T L_ ltac:(lia) ltac:(lia) ltac:(lia)).
      assert (0 <= b * T * L_) by nia. assert (t * targetSize b <= t * L_) by nia. nia.
    - intros i Hi. apply setZero_spec. nia.
    - intros i Hi. apply setZero_spec. nia.
    - intros m n Hm Hn. apply setZero_spec. rewrite Z.add_assoc. by apply cell_bound.
    - intros t m Ht Hm. by apply setZero_spec, cell_bound. }
  clearbody r. destruct r as [w' ig]. destruct HI as [S1 _ _ S4 S5 _]. cbn [fst snd] in *. split; [exact S4|]. intros m n Hm Hn.
  apply (for_up_ind (fun k tg => tg (m * N + n) = Fin (Rsum (zrange 0 k) (fun b => g b * sc b * tQ b m n)%R)) 0 B); [done| |].
  - rewrite zrange_nil, Rsum_nil by lia. apply setZero_spec. nia.
  - intros b tg Hb IH.
    assert (Ea : forall (v : Z -> xreal) (a : buf xreal) j, for_up 0 (N * N) (fun i a => addTo i (v i) a) a j =
      if (0 <=? j) && (j <? N * N) then (a j + v j)%num else a j).
    { intros v a j. apply (for_up_ind (fun k a' => a' j = if (0 <=? j) && (j <? k) then (a j + v j)%num else a j)); [nia| |].
      - destruct (Z.leb_spec 0 j), (Z.ltb_spec j 0); done || lia.
      - intros i a' Hi IHa. unfold addTo, bset. destruct (Z.eqb_spec j i) as [->|].
        + rewrite IHa. destruct (Z.leb_spec 0 i), (Z.ltb_spec i i), (Z.ltb_spec i (i + 1)); done || lia.
        + rewrite IHa. destruct (Z.leb_spec 0 j), (Z.ltb_spec j i), (Z.ltb_spec j (i + 1)); done || lia. }
    rewrite Ea, IH, (proj2 (Z.leb_le _ _)), (proj2 (Z.ltb_lt _ _)) by nia. cbn [andb].
    rewrite S1, S5 by lia. change (f_scale w0 b) with (f_scale w b). rewrite Hs by done.
    rewrite zrange_snoc, Rsum_app, Rsum_cons, Rsum_nil by lia. cbn [n_add n_mul xreal_num x_add x_mul]. f_equal. lra.
Qed.
End Backward.
