(* ===== verification/ForceAlignmentDerivative.v ===== *)
(** The gradients of the force alignment criterion are the derivatives of its
    loss. *)
From Stdlib Require Import Reals Lra.
From S2P Require Import Prelude Numeric RealSum FullConnection FullConnectionProofs FullConnectionBackward ForceAlignment ForceAlignmentProofs ForceAlignmentGrad ForceAlignmentBackward.

Open Scope Z_scope.

(** The loss weighted by the incoming gradients. *)
Definition alignObjective (B T N L_ : Z) (target targetSize : buf Z) (mode : CriterionScaleMode) (g inp tr : Z -> R) : R :=
  Rsum (zrange 0 B) (fun b => g b * scaleOf T mode targetSize b *
    ln (Rsum (alignments T (targetSize b)) (fun p => exp (alignScore T N L_ target inp tr b p))))%R.

Lemma derivable_pt_lim_eq_val f x d d' : d = d' -> derivable_pt_lim f x d -> derivable_pt_lim f x d'.
Proof. by intros ->. Qed.

Section Derivative.
Context (B T N L_ : Z) (target targetSize : buf Z) (mode : CriterionScaleMode) (g inp tr : Z -> R).
Hypothesis HN : 0 < N.
Hypothesis HL : forall b, 0 <= b < B -> 1 <= targetSize b <= T /\ targetSize b <= L_.
Hypothesis Htg : forall b i, 0 <= b < B -> 0 <= i < targetSize b -> 0 <= tg L_ target b i < N.
Abbreviation pos b := (zrange 0 (targetSize b)).
Abbreviation tot b := (total T N L_ target inp tr b (targetSize b)).
Abbreviation lastD b dI dT := (dP T N L_ target inp tr b (targetSize b) dI dT (Z.to_nat (T - 1)) (targetSize b - 1)).
Abbreviation nQ := (nodeQ T N L_ target targetSize inp tr).
Abbreviation sQ := (stayQ T N L_ target targetSize inp tr).
Abbreviation mQ := (moveQ T N L_ target targetSize inp tr).

Lemma alignObjective_deriv inpx trx x0 dI dT :
  (forall i, inpx x0 i = inp i) -> (forall i, trx x0 i = tr i) ->
  (forall i, derivable_pt_lim (fun x => inpx x i) x0 (dI i)) -> (forall i, derivable_pt_lim (fun x => trx x i) x0 (dT i)) ->
  derivable_pt_lim (fun x => alignObjective B T N L_ target targetSize mode g (inpx x) (trx x)) x0
    (Rsum (zrange 0 B) (fun b => g b * scaleOf T mode targetSize b * (/ tot b * lastD b dI dT))%R).
Proof.
  intros E1 E2 D1 D2.
  apply (Rsum_deriv (zrange 0 B) (fun b x => g b * scaleOf T mode targetSize b *
    ln (Rsum (alignments T (targetSize b)) (fun p => exp (alignScore T N L_ target (inpx x) (trx x) b p))))%R).
  intros b Hb%elem_of_zrange. destruct (HL b Hb) as [HLb _].
  apply (derivable_pt_lim_scal (fun x => ln (Rsum (alignments T (targetSize b)) (fun p => exp (alignScore T N L_ target (inpx x) (trx x) b p))))).
  eapply deriv_ext; [|by apply (total_deriv T N L_ target inp tr b (targetSize b) HLb inpx trx x0 dI dT)].
  intros y. by rewrite alignments_sum.
Qed.

(** A change of one input flows through the alignments with that label. *)
Lemma input_share b t m b' : 0 <= b' < B -> 0 <= t < T -> 0 <= m < N ->
  (/ tot b' * lastD b' (unit_at (b * T * N + t * N + m)) (fun _ => 0) = if b' =? b then inputQ T N L_ target targetSize inp tr b t m else 0)%R.
Proof.
  intros Hb Ht Hm. destruct (HL b' Hb) as [HLb _]. pose proof (tot_pos T N L_ target targetSize inp tr b' HLb) as Hp. rewrite aflow_total by done.
  set (u := unit_at (b * T * N + t * N + m)).
  set (row t' := Rsum (pos b') (fun i => node T N L_ target inp tr b' (targetSize b') t' i * dx T N L_ target b' u t' i)%R).
  assert (Es : Rsum (zrange 1 T) (sources T N L_ target inp tr b' (targetSize b') u (fun _ => 0%R)) = Rsum (zrange 1 T) row).
  { apply Rsum_ext. intros t' _. unfold sources. fold (row t'). rewrite (Rsum_all_zero _ (fun i => (stay _ _ _ _ _ _ _ _ _ i * _)%R)).
    - rewrite Rsum_all_zero; [lra|]. intros i _. unfold d2. destruct (0 <? i); lra.
    - intros i _. unfold d1. lra. }
  rewrite Es. fold (row 0).
  assert (Ec : (row 0%Z + Rsum (zrange 1 T) row)%R = Rsum (zrange 0 T) row) by (by rewrite (zrange_cons 0 T), Rsum_cons by lia).
  rewrite Ec. clear Es Ec.
  assert (Er : forall t', 0 <= t' < T -> row t' = if (b' =? b) && (t' =? t) then (tot b' * inputQ T N L_ target targetSize inp tr b' t m)%R else 0%R).
  { intros t' Ht'. unfold row, dx, u, unit_at. destruct (Z.eqb_spec b' b) as [->|Hnb]; [destruct (Z.eqb_spec t' t) as [->|Hnt]|]; cbn [andb].
    - unfold inputQ. rewrite Rmult_comm, <- Rsum_scal. apply Rsum_ext. intros i Hi%elem_of_zrange. unfold nodeQ.
      destruct (Z.eqb_spec (b * T * N + t * N + tg L_ target b i) (b * T * N + t * N + m)), (Z.eqb_spec (tg L_ target b i) m); try lia; [field|]; lra.
    - apply Rsum_all_zero. intros i Hi%elem_of_zrange. specialize (Htg b i Hb Hi).
      destruct (Z.eqb_spec (b * T * N + t' * N + tg L_ target b i) (b * T * N + t * N + m)); [|lra].
      exfalso. destruct (digits_unique (b * T + t') (b * T + t) (tg L_ target b i) m N); lia.
    - apply Rsum_all_zero. intros i Hi%elem_of_zrange. specialize (Htg b' i Hb Hi).
      destruct (Z.eqb_spec (b' * T * N + t' * N + tg L_ target b' i) (b * T * N + t * N + m)); [|lra].
      exfalso. destruct (digits_unique (b' * T + t') (b * T + t) (tg L_ target b' i) m N) as [E _]; [lia..|].
      destruct (digits_unique b' b t' t T); lia. }
  rewrite (Rsum_single 0 T _ t); [|done|].
  - rewrite Er, Z.eqb_refl, andb_true_r by done. destruct (Z.eqb_spec b' b) as [->|]; [field|]; lra.
  - intros t' Ht' Hne. by rewrite Er, (proj2 (Z.eqb_neq t' t)), andb_false_r.
Qed.

(** A change of one transition flows through the alignments that take it. *)
Lemma trans_share m n b : 0 <= b < B -> 0 <= m < N -> 0 <= n < N ->
  (/ tot b * lastD b (fun _ => 0) (unit_at (m * N + n)) = transQ T N L_ target targetSize inp tr b m n)%R.
Proof.
  intros Hb Hm Hn. destruct (HL b Hb) as [HLb _]. pose proof (tot_pos T N L_ target targetSize inp tr b HLb) as Hp. rewrite aflow_total by done.
  rewrite (Rsum_all_zero (pos b)), Rplus_0_l by (intros; unfold dx; lra).
  assert (Eu : forall i k, 0 <= i < targetSize b -> 0 <= k < targetSize b ->
    unit_at (m * N + n) (tg L_ target b i * N + tg L_ target b k) = if (tg L_ target b i =? m) && (tg L_ target b k =? n) then 1%R else 0%R).
  { intros i k Hi Hk. pose proof (Htg b i Hb Hi). pose proof (Htg b k Hb Hk). unfold unit_at.
    destruct (Z.eqb_spec (tg L_ target b i * N + tg L_ target b k) (m * N + n)) as [[-> ->]%digits_unique|Hne]; [by rewrite !Z.eqb_refl|lia|lia|].
    destruct (Z.eqb_spec (tg L_ target b i) m), (Z.eqb_spec (tg L_ target b k) n); try done. subst. lia. }
  rewrite Rmult_comm, <- Rsum_scal. unfold transQ, staySum, moveSum.
  rewrite (Rsum_ext (zrange 1 T) _ (fun t => Rsum (pos b) (fun i =>
    (if (tg L_ target b i =? m) && (tg L_ target b i =? n) then sQ b t i else 0)
    + (if (0 <? i)%Z && (tg L_ target b i =? m) && (tg L_ target b (i - 1) =? n) then mQ b t i else 0))%R)).
  - rewrite Rsum_swap. apply Rsum_ext. intros i _. rewrite Rsum_plus. f_equal; case_match; done || apply Rsum_zero.
  - intros t _. unfold sources. rewrite (Rsum_all_zero _ (fun i => (node _ _ _ _ _ _ _ _ _ i * _)%R)) by (intros; unfold dx; lra).
    rewrite Rplus_0_l, <- Rsum_plus, <- Rsum_scal. apply Rsum_ext. intros i Hi%elem_of_zrange. unfold d1, d2, stayQ, moveQ.
    rewrite Eu by done. destruct (Z.ltb_spec 0 i); cbn [andb].
    + rewrite Eu by lia. repeat case_match; field; lra.
    + repeat case_match; field; lra.
Qed.
End Derivative.

(** C2. After [forward], [backward] of the force alignment criterion writes
    the gradient of the loss: every input cell and every transition cell holds
    the derivative, with respect to that cell, of the losses weighted by the
    incoming gradients, for targets that are not empty, not longer than the
    input and made of valid labels, whatever the workspace held before. *)
Theorem fac_backward_gradient (B T N L_ : Z) (target targetSize : buf Z) (mode : CriterionScaleMode) (g inp tr : Z -> R)
    (loss inputGrad0 transGrad0 : buf xreal) (w : facws xreal) :
  0 <= B -> 0 < N -> (forall b, 0 <= b < B -> 1 <= targetSize b <= T /\ targetSize b <= L_) ->
  (forall b i, 0 <= b < B -> 0 <= i < targetSize b -> 0 <= target (b * L_ + i) < N) ->
  let '(_, inputGrad, transGrad) :=
    backward T N L_ target targetSize B (fun b => Fin (g b)) inputGrad0 transGrad0
      (forward T N L_ target targetSize (fun i => Fin (inp i)) (fun i => Fin (tr i)) B mode loss w).1 in
  (forall b t m, 0 <= b < B -> 0 <= t < T -> 0 <= m < N -> let i := b * T * N + t * N + m in
     exists d, inputGrad i = Fin d
       /\ derivable_pt_lim (fun x => alignObjective B T N L_ target targetSize mode g (put i x inp) tr) (inp i) d)
  /\ (forall m n, 0 <= m < N -> 0 <= n < N -> let i := m * N + n in
     exists d, transGrad i = Fin d
       /\ derivable_pt_lim (fun x => alignObjective B T N L_ target targetSize mode g inp (put i x tr)) (tr i) d).
Proof.
  intros HB HN HL Htg. pose proof (forward_prepared B T N L_ target targetSize inp tr mode HL loss w HB) as Hf. cbv zeta in Hf.
  pose proof (fac_backward_aux B T N L_ target targetSize inp tr (scaleOf T mode targetSize) g HN HL Htg _ inputGrad0 transGrad0 HB
    (fun b H => proj1 (Hf b H)) (fun b H => proj2 (Hf b H))) as Hb.
  destruct (backward _ _ _ _ _ _ _ _ _ _) as [[w2 ig] tg']. destruct Hb as [H1 H2]. split.
  - intros b t m Hb Ht Hm. cbv zeta. eexists. split; [by apply H1|].
    eapply derivable_pt_lim_eq_val; [|apply (alignObjective_deriv B T N L_ target targetSize mode g inp tr HL
      (fun x => put (b * T * N + t * N + m) x inp) (fun _ => tr) _ (unit_at (b * T * N + t * N + m)) (fun _ => 0%R))].
    + rewrite (Rsum_single 0 B _ b); [|done|]; [|intros b' Hb' Hne]; rewrite (input_share B) by done.
      * rewrite Z.eqb_refl. ring.
      * rewrite (proj2 (Z.eqb_neq b' b)) by done. ring.
    + intros i. apply put_same.
    + done.
    + intros i. apply put_deriv.
    + intros i. apply derivable_pt_lim_const.
  - intros m n Hm Hn. cbv zeta. eexists. split; [by apply H2|].
    eapply derivable_pt_lim_eq_val; [|apply (alignObjective_deriv B T N L_ target targetSize mode g inp tr HL
      (fun _ => inp) (fun x => put (m * N + n) x tr) _ (fun _ => 0%R) (unit_at (m * N + n)))].
    + apply Rsum_ext. intros b Hb%elem_of_zrange. by rewrite (trans_share B).
    + done.
    + intros i. apply put_same.
    + intros i. apply derivable_pt_lim_const.
    + intros i. apply put_deriv.
Qed.

(** Three frames and the target [0; 1]: the gradient of the middle frame. *)
Lemma fac_backward_gradient_witness :
  exists d, (backward 3 2 2 (fun i => i) (fun _ => 2) 1 (fun _ => Fin 1) (fun _ => NaN) (fun _ => NaN)
      (forward 3 2 2 (fun i => i) (fun _ => 2) (fun _ => Fin 0) (fun _ => Fin 0) 1 NONE (fun _ => NaN)
        (let g := fun _ => NaN in MkFac g g g g g g g g)).1).1.2 2 = Fin d
    /\ derivable_pt_lim (fun x => alignObjective 1 3 2 2 (fun i => i) (fun _ => 2) NONE (fun _ => 1%R) (put 2 x (fun _ => 0%R)) (fun _ => 0%R)) 0 d.
Proof.
  pose proof (fac_backward_gradient 1 3 2 2 (fun i => i) (fun _ => 2) NONE (fun _ => 1%R) (fun _ => 0%R) (fun _ => 0%R) (fun _ => NaN) (fun _ => NaN)
    (fun _ => NaN) (let g := fun _ => NaN in MkFac g g g g g g g g) ltac:(lia) ltac:(lia) ltac:(intros; lia) ltac:(intros; lia)) as Hg.
  destruct (backward _ _ _ _ _ _ _ _ _ _) as [[w2 ig] tg']. destruct Hg as [Hg _].
  exact (Hg 0 1 0 ltac:(lia) ltac:(lia) ltac:(lia)).
Defined.
