(* ===== verification/System.v ===== *)
(** Files and paths (lib/common/System.cpp) and the input streams they open.

    The file system is a parameter [fs], the contents of the files that can be
    opened.  An [std::ifstream] is the contents of its file, the position of the
    next character and its state bits; [seekg], [tellg] and [getline] follow the
    C++ standard: each constructs a sentry, which fails and sets [failbit] on a
    stream that is not good, [seekg] clears [eofbit] first, and [tellg] of a
    failed stream is [-1]. *)
From S2P Require Import Prelude Strings.

Open Scope Z_scope.

Definition newline : ascii := Ascii.ascii_of_nat 10.

(** * std::ifstream *)

Record ifstream := Stream { is_open : bool; content : str; pos : Z; eofbit : bool; failbit : bool }.

Definition closed_stream : ifstream := Stream false [] 0 false false.
Definition open_stream (c : str) : ifstream := Stream true c 0 false false.

Definition good (s : ifstream) : bool := negb (eofbit s) && negb (failbit s).
Definition set_fail (s : ifstream) : ifstream := Stream (is_open s) (content s) (pos s) (eofbit s) true.

(** The sentry of an unformatted input function. *)
Definition sentry (s : ifstream) : ifstream := if good s then s else set_fail s.

Definition seekg (p : Z) (s : ifstream) : ifstream :=
  let s := sentry (Stream (is_open s) (content s) (pos s) false (failbit s)) in
  if failbit s then s
  else if is_open s then Stream true (content s) p (eofbit s) false
  else set_fail s.

(** [seekg(0, end)] *)
Definition seek_end (s : ifstream) : ifstream := seekg (zlen (content s)) s.

Definition tellg (s : ifstream) : Z * ifstream :=
  let s := sentry s in (if failbit s || negb (is_open s) then -1 else pos s, s).

Definition isNewline (c : ascii) : bool := bool_decide (c = newline).

(** [std::getline]: the characters up to the next newline, which is consumed.
    Reaching the end sets [eofbit], and [failbit] when nothing was read. *)
Definition getline (s : ifstream) : str * ifstream :=
  let s := sentry s in
  if failbit s then ([], s)
  else
    let rest := drop (Z.to_nat (pos s)) (content s) in
    match find_if_from isNewline rest 0 with
    | Some n => (take n rest, Stream (is_open s) (content s) (pos s + Z.of_nat n + 1) false false)
    | None => (rest, Stream (is_open s) (content s) (Z.max (pos s) (zlen (content s))) true (bool_decide (rest = [])))
    end.

(** * System.cpp *)

Section Files.
Context (fs : str -> option str).

Definition createInputStream (filename : str) : result ifstream :=
  match fs filename with Some c => Ok (open_stream c) | None => Throw RuntimeError end.

(** [while (std::getline(in, str)) data.emplace_back(str);] *)
Fixpoint readLoop (fuel : nat) (in_ : ifstream) : option (list str) :=
  match fuel with
  | O => None
  | S fuel' =>
      let '(s, in_) := getline in_ in
      if failbit in_ then Some []
      else match readLoop fuel' in_ with Some data => Some (s :: data) | None => None end
  end.

Definition getFileContent (file : str) : result (list str) :=
  in_ ← createInputStream file;
  match readLoop (S (S (length (content in_)))) in_ with Some data => Ok data | None => Throw Undefined end.
End Files.

Definition pathSeperator : str := lit "/".

Definition pathsConcat (p1 p2 : str) : str :=
  match last p1 with
  | Some c => if bool_decide ([c] = pathSeperator) then trim p1 ++ trim p2 else trim p1 ++ pathSeperator ++ trim p2
  | None => trim p1 ++ trim p2
  end.

Definition getDirsOnPath (path : str) : list str :=
  let trimPath := trim path in
  if bool_decide (trimPath = []) || bool_decide (trimPath = pathSeperator) || bool_decide (trimPath = lit ".")
     || bool_decide (trimPath = lit "..")
  then [trimPath]
  else filter (fun dir => dir <> []) (trim <$> splitImpl false pathSeperator (length pathSeperator) trimPath false).

Definition dirname (path : str) : str :=
  let dirsOnPath := getDirsOnPath path in
  if decide (length dirsOnPath < 2)%nat then lit "."
  else
    let root := if bool_decide (head (trim path) = head pathSeperator) then pathSeperator else [] in
    root ++ join pathSeperator (removelast dirsOnPath).

Definition basename (path : str) : str := default [] (last (getDirsOnPath path)).

(** * Lines *)

(** The lines of a text: what newlines terminate, and what is left after the
    last one unless it is empty. *)
Fixpoint lines_from (cur : str) (c : str) : list str :=
  match c with
  | [] => match cur with [] => [] | _ => [rev cur] end
  | a :: c' => if isNewline a then rev cur :: lines_from [] c' else lines_from (a :: cur) c'
  end.
Definition lines_of (c : str) : list str := lines_from [] c.

(** A text in which every line is terminated. *)
Definition terminated (c : str) : Prop := c = [] \/ last c = Some newline.

Lemma lines_from_step a cur r : Forall (fun d => isNewline d = false) a -> lines_from cur (a ++ newline :: r) = (rev cur ++ a) :: lines_of r.
Proof.
  revert cur. induction a as [|x a IH]; intros cur Ha; cbn [lines_from app].
  - unfold isNewline. by rewrite bool_decide_true, app_nil_r.
  - apply Forall_cons in Ha as [-> Ha]. rewrite IH by done. cbn [rev]. by rewrite <- app_assoc.
Qed.

Lemma lines_of_step a r : Forall (fun d => isNewline d = false) a -> lines_of (a ++ newline :: r) = a :: lines_of r.
Proof. apply (lines_from_step a []). Qed.

Lemma terminated_suffix a r : terminated (a ++ newline :: r) -> terminated r.
Proof.
  intros [H|H]; [by destruct a|]. rewrite last_app, last_cons in H. destruct (last r) eqn:E; [by right; rewrite E|left; by apply last_None].
Qed.

Lemma terminated_line c : terminated c -> c <> [] -> exists a r, c = a ++ newline :: r /\ Forall (fun d => isNewline d = false) a /\ terminated r.
Proof.
  intros Ht Hc. destruct (find_if_from isNewline c 0) as [k|] eqn:Ef.
  - apply find_if_from_Some in Ef as (k' & x & -> & Hx & Hn & Hf). apply bool_decide_eq_true in Hn. subst x.
    exists (take k' c), (drop (S k') c). rewrite (take_drop_middle c k' newline Hx). split_and!; [done|done|].
    apply (terminated_suffix (take k' c)). by rewrite take_drop_middle.
  - apply find_if_from_None in Ef. destruct Ht as [->|Ht]; [done|]. exfalso. apply last_Some in Ht as [l ->].
    rewrite Forall_app, Forall_singleton in Ef. destruct Ef as [_ Ef]. unfold isNewline in Ef. by rewrite bool_decide_true in Ef.
Qed.

(** Cutting a text after a newline cuts its lines. *)
Lemma lines_of_app a c : terminated a -> lines_of (a ++ c) = lines_of a ++ lines_of c.
Proof.
  remember (length a) as n eqn:En. revert a En. induction (lt_wf n) as [n _ IH]. intros a -> Ht.
  destruct (decide (a = [])) as [->|Hne]; [done|]. destruct (terminated_line a Ht Hne) as (x & r & -> & Hx & Hr).
  rewrite <- app_assoc. cbn [app]. rewrite !lines_of_step by done. cbn [app]. f_equal.
  apply (IH (length r)); [rewrite length_app; cbn; lia|done|done].
Qed.

(** * Reading lines *)

Definition at_pos (c : str) (p : Z) : ifstream := Stream true c p false false.

(** Reading a terminated line. *)
Lemma getline_line c p a r : 0 <= p -> drop (Z.to_nat p) c = a ++ newline :: r -> Forall (fun d => isNewline d = false) a ->
  getline (at_pos c p) = (a, at_pos c (p + zlen a + 1)).
Proof.
  intros Hp Hd Ha. unfold getline, sentry. cbn [good at_pos eofbit failbit negb andb content pos is_open]. rewrite Hd.
  assert (E : find_if_from isNewline (a ++ newline :: r) 0 = Some (length a)).
  { clear Hd. change (Some (length a)) with (Some (0 + length a)%nat). generalize 0%nat as o. induction a as [|x a IH]; intros o; cbn [app find_if_from length].
    - unfold isNewline. rewrite bool_decide_true by done. f_equal. lia.
    - apply Forall_cons in Ha as [-> Ha]. rewrite IH by done. f_equal. lia. }
  rewrite E. by rewrite take_app_length.
Qed.

Lemma getline_end c p : zlen c <= p -> failbit (getline (at_pos c p)).2 = true.
Proof.
  intros Hp. unfold getline, sentry. cbn [good at_pos eofbit failbit negb andb content pos is_open].
  rewrite drop_ge by (unfold zlen in Hp; lia). done.
Qed.

Lemma readLoop_lines fuel c p : 0 <= p <= zlen c -> (Z.to_nat (zlen c - p) < fuel)%nat -> terminated (drop (Z.to_nat p) c) ->
  readLoop fuel (at_pos c p) = Some (lines_of (drop (Z.to_nat p) c)).
Proof.
  revert p. induction fuel as [|fuel IH]; intros p Hp Hf Ht; [lia|]. cbn [readLoop].
  destruct (decide (drop (Z.to_nat p) c = [])) as [E|E].
  - assert (Hl : zlen c <= p) by (apply (f_equal length) in E; rewrite length_drop in E; cbn in E; unfold zlen; lia).
    pose proof (getline_end c p Hl) as Hg. destruct (getline _) as [s in_]. cbn in Hg. rewrite Hg, E. done.
  - destruct (terminated_line _ Ht E) as (a & r & Hd & Ha & Hr). rewrite (getline_line c p a r) by (done || lia). cbn [failbit at_pos].
    assert (Hl : zlen c - p = zlen a + 1 + zlen r).
    { apply (f_equal length) in Hd. rewrite length_drop, length_app in Hd. cbn in Hd. unfold zlen in *. lia. }
    pose proof (zlen_nonneg a). pose proof (zlen_nonneg r).
    assert (Hdr : drop (Z.to_nat (p + zlen a + 1)) c = r).
    { replace (Z.to_nat (p + zlen a + 1)) with (Z.to_nat p + S (length a))%nat by (unfold zlen; lia).
      rewrite <- drop_drop, Hd. rewrite <- Nat.add_1_r, <- drop_drop, drop_app_length. done. }
    change (Stream true c) with (fun p => Stream true c p). rewrite IH by (rewrite ?Hdr; done || lia).
    by rewrite Hdr, Hd, lines_of_step.
Qed.

(** Reading a whole file of terminated lines. *)
Lemma getFileContent_lines fs file c : fs file = Some c -> terminated c -> getFileContent fs file = Ok (lines_of c).
Proof.
  intros Hf Ht. unfold getFileContent, createInputStream. rewrite Hf. cbn [mbind result_bind content open_stream].
  pose proof (zlen_nonneg c). change (open_stream c) with (at_pos c 0). rewrite readLoop_lines; rewrite ?drop_0; try done; unfold zlen in *; lia.
Qed.
