(* ===== verification/PartialFileReader.v ===== *)
(** Reading a part of a text file (lib/text/tokenizer/PartialFileReader.cpp).

    Reader [rank] of [totalReaders] reads the lines that start in its share of the
    file.  The readers of all ranks together read every line once, provided the
    last line is terminated; [reader_loses_lines] shows what happens otherwise. *)
From S2P Require Import Prelude Strings System.

Open Scope Z_scope.

Record reader := Reader { rank_ : Z; totalReaders_ : Z; stream_ : ifstream; end_ : Z }.

(** The constructor; [garbage] is what the uninitialised [end_] holds. *)
Definition newReader (rank totalReaders garbage : Z) : result reader :=
  if (rank <? 0) || (totalReaders <? rank) then Throw InvalidArgument
  else Ok (Reader rank totalReaders closed_stream garbage).

Section Reader.
Context (fs : str -> option str).

Definition loadFile (filename : str) (r : reader) : result reader :=
  s ← createInputStream fs filename;
  let s := seek_end s in
  let '(t, s) := tellg s in
  let fileSize := u64 t in
  if totalReaders_ r =? 0 then Throw Undefined
  else
    let chunkSize := fileSize / u64 (totalReaders_ r) in
    let '(e, s) :=
      if rank_ r <? totalReaders_ r - 1 then
        let s := seekg (u64 (chunkSize * (rank_ r + 1))) s in
        let '(_, s) := getline s in
        let '(t, s) := tellg s in (u64 t, s)
      else (fileSize, s) in
    let s := seekg (u64 (chunkSize * rank_ r)) s in
    let s := if 0 <? rank_ r then snd (getline s) else s in
    Ok (Reader (rank_ r) (totalReaders_ r) s e).

Definition with_stream (s : ifstream) (r : reader) : reader := Reader (rank_ r) (totalReaders_ r) s (end_ r).

Definition getPosition (r : reader) : Z * reader :=
  let '(t, s) := tellg (stream_ r) in (u64 t, with_stream s r).

Definition hasNextLine (r : reader) : bool * reader :=
  let '(p, r) := getPosition r in (p <? end_ r, r).

Definition getLine (r : reader) : str * reader :=
  let '(line, s) := getline (stream_ r) in (trim line, with_stream s r).

(** [while (hasNextLine()) lines.emplace_back(getLine());] *)
Fixpoint linesLoop (fuel : nat) (r : reader) : option (list str * reader) :=
  match fuel with
  | O => None
  | S fuel' =>
      let '(more, r) := hasNextLine r in
      if more then
        let '(l, r) := getLine r in
        match linesLoop fuel' r with Some (ls, r) => Some (l :: ls, r) | None => None end
      else Some ([], r)
  end.

Definition getLines (r : reader) : option (list str * reader) := linesLoop (S (S (length (content (stream_ r))))) r.
Definition getRank (r : reader) : Z := rank_ r.
Definition getTotalReaders (r : reader) : Z := totalReaders_ r.

(** What the reader of a rank reads from a file. *)
Definition readPart (filename : str) (totalReaders rank : Z) : result (list str) :=
  r ← newReader rank totalReaders 0;
  r ← loadFile filename r;
  match getLines r with Some (ls, _) => Ok ls | None => Throw Undefined end.
End Reader.

(** * Line starts *)

(** The position after the newline at or after [p]. *)
Definition nextStart (c : str) (p : Z) : Z :=
  match find_if_from isNewline (drop (Z.to_nat p) c) 0 with Some n => p + Z.of_nat n + 1 | None => zlen c end.

Lemma terminated_drop c p : terminated c -> terminated (drop p c).
Proof.
  intros [->|H]; [left; apply drop_nil|]. apply last_Some in H as [l ->]. destruct (decide (p <= length l)%nat).
  - right. by rewrite drop_app_le, last_snoc.
  - left. apply drop_ge. rewrite length_app. cbn. lia.
Qed.

Lemma find_newline a r : Forall (fun d => isNewline d = false) a -> find_if_from isNewline (a ++ newline :: r) 0 = Some (length a).
Proof.
  intros Ha. change (Some (length a)) with (Some (0 + length a)%nat). generalize 0%nat as o.
  induction a as [|x a IH]; intros o; cbn [app find_if_from length].
  - unfold isNewline. rewrite bool_decide_true by done. f_equal. lia.
  - apply Forall_cons in Ha as [-> Ha]. rewrite IH by done. f_equal. lia.
Qed.

Lemma nextStart_line c p a r : 0 <= p -> drop (Z.to_nat p) c = a ++ newline :: r -> Forall (fun d => isNewline d = false) a ->
  nextStart c p = p + zlen a + 1 /\ p + zlen a + 1 + zlen r = zlen c /\ drop (Z.to_nat (p + zlen a + 1)) c = r
  /\ take (Z.to_nat (p + zlen a + 1)) c = take (Z.to_nat p) c ++ a ++ [newline].
Proof.
  intros Hp Hd Ha. unfold nextStart. rewrite Hd, find_newline by done.
  assert (Hl : p <= zlen c).
  { destruct (Z.le_gt_cases p (zlen c)); [done|]. rewrite drop_ge in Hd by (unfold zlen in *; lia). by destruct a. }
  assert (Hc : c = take (Z.to_nat p) c ++ a ++ newline :: r) by (by rewrite <- Hd, take_drop).
  assert (Hlen : zlen c = p + zlen a + 1 + zlen r).
  { rewrite Hc at 1. rewrite !zlen_app, zlen_cons. unfold zlen at 1. rewrite length_take. unfold zlen in *. lia. }
  assert (Ez : Z.to_nat (p + zlen a + 1) = (Z.to_nat p + (length a + 1))%nat) by (unfold zlen; lia).
  split_and!; [done|lia| |].
  - rewrite Ez, <- drop_drop, Hd, <- drop_drop, drop_app_length. done.
  - rewrite Ez, <- take_take_drop, Hd. f_equal.
    change (a ++ newline :: r) with (a ++ [newline] ++ r). rewrite app_assoc. apply take_app_length'. rewrite length_app. done.
Qed.

(** Positions at which lines start. *)
Definition lineStart (c : str) (p : Z) : Prop := 0 <= p <= zlen c /\ terminated (take (Z.to_nat p) c).

Section Cuts.
Context (c : str).
Hypothesis Hc : terminated c.

Lemma lineStart_0 : lineStart c 0.
Proof. split; [pose proof (zlen_nonneg c); lia|by left]. Qed.

Lemma lineStart_end : lineStart c (zlen c).
Proof. split; [pose proof (zlen_nonneg c); lia|]. rewrite take_ge by (unfold zlen; lia). done. Qed.

Lemma line_at p : 0 <= p < zlen c -> exists a r, drop (Z.to_nat p) c = a ++ newline :: r /\ Forall (fun d => isNewline d = false) a.
Proof.
  intros Hp. destruct (terminated_line (drop (Z.to_nat p) c)) as (a & r & Hd & Ha & _); [by apply terminated_drop| |by exists a, r].
  intros E%(f_equal length). rewrite length_drop in E. cbn in E. unfold zlen in Hp. lia.
Qed.

Lemma nextStart_start p : 0 <= p < zlen c -> lineStart c (nextStart c p) /\ p < nextStart c p.
Proof.
  intros Hp. destruct (line_at p Hp) as (a & r & Hd & Ha). destruct (nextStart_line c p a r ltac:(lia) Hd Ha) as (-> & Hl & _ & Ht).
  pose proof (zlen_nonneg a). pose proof (zlen_nonneg r). split; [split; [lia|]|lia]. right. by rewrite Ht, app_assoc, last_snoc.
Qed.

Lemma nextStart_mono p q : 0 <= p <= q -> q < zlen c -> nextStart c p <= nextStart c q.
Proof.
  intros Hp Hq. destruct (line_at p ltac:(lia)) as (a & r & Hd & Ha). destruct (nextStart_line c p a r ltac:(lia) Hd Ha) as (-> & Hl & _ & _).
  destruct (Z.le_gt_cases (p + zlen a + 1) q) as [Hle|Hgt]; [pose proof (nextStart_start q ltac:(lia)); lia|].
  assert (Hd2 : drop (Z.to_nat q) c = drop (Z.to_nat (q - p)) a ++ newline :: r).
  { replace (Z.to_nat q) with (Z.to_nat p + Z.to_nat (q - p))%nat by lia. rewrite <- drop_drop, Hd, drop_app_le; [done|]. unfold zlen in Hgt. lia. }
  destruct (nextStart_line c q _ r ltac:(lia) Hd2) as (-> & _); [by apply Forall_drop|]. unfold zlen. rewrite length_drop. unfold zlen in Hgt. lia.
Qed.

Lemma getline_next p : 0 <= p < zlen c -> (getline (at_pos c p)).2 = at_pos c (nextStart c p).
Proof.
  intros Hp. destruct (line_at p Hp) as (a & r & Hd & Ha). rewrite (getline_line c p a r) by (done || lia).
  by destruct (nextStart_line c p a r ltac:(lia) Hd Ha) as (-> & _).
Qed.

(** The lines between two line starts. *)
Definition segment (p e : Z) : str := drop (Z.to_nat p) (take (Z.to_nat e) c).

Lemma segment_terminated p e : lineStart c p -> lineStart c e -> p <= e -> terminated (segment p e).
Proof. intros _ [_ He] _. by apply terminated_drop. Qed.

Lemma take_segment p e : 0 <= p <= e -> take (Z.to_nat e) c = take (Z.to_nat p) c ++ segment p e.
Proof.
  intros Hp. unfold segment. rewrite <- (take_drop (Z.to_nat p) (take (Z.to_nat e) c)) at 1. rewrite take_take. do 2 f_equal. lia.
Qed.

Hypothesis Hsize : zlen c < 2 ^ 63.

Lemma u64_pos p : 0 <= p <= zlen c -> u64 p = p.
Proof. intros Hp. unfold u64. apply Z.mod_small. lia. Qed.

(** One iteration of a reading loop: no line is left, or one is read. *)
Lemma hasNextLine_at p e rank total : 0 <= p <= zlen c ->
  hasNextLine (Reader rank total (at_pos c p) e) = (p <? e, Reader rank total (at_pos c p) e).
Proof.
  intros Hp. unfold hasNextLine, getPosition, tellg, sentry.
  cbn [good at_pos eofbit failbit negb andb orb is_open pos stream_ with_stream rank_ totalReaders_ end_]. by rewrite u64_pos.
Qed.

Lemma reader_step p e rank total : lineStart c p -> lineStart c e -> p < e ->
  exists a, let p' := p + zlen a + 1 in
    getLine (Reader rank total (at_pos c p) e) = (trim a, Reader rank total (at_pos c p') e)
    /\ lineStart c p' /\ p' <= e /\ lines_of (segment p e) = a :: lines_of (segment p' e).
Proof.
  intros Hp He Hlt. pose proof Hp as [Hp0 _]. pose proof He as [He0 _].
  destruct (terminated_line (segment p e)) as (a & r & Hs & Ha & Hr); [apply segment_terminated; done || lia| |].
  { intros E%(f_equal length). unfold segment in E. rewrite length_drop, length_take in E. cbn in E. unfold zlen in *. lia. }
  assert (Hd : drop (Z.to_nat p) c = a ++ newline :: (r ++ drop (Z.to_nat e) c)).
  { rewrite <- (take_drop (Z.to_nat e) c) at 1. rewrite drop_app_le by (rewrite length_take; unfold zlen in *; lia).
    fold (segment p e). by rewrite Hs, <- app_assoc. }
  assert (Hlen : zlen a + 1 + zlen r = e - p).
  { apply (f_equal length) in Hs. unfold segment in Hs. rewrite length_drop, length_take, length_app in Hs. cbn in Hs. unfold zlen in *. lia. }
  pose proof (zlen_nonneg a). pose proof (zlen_nonneg r).
  destruct (nextStart_line c p a _ ltac:(lia) Hd Ha) as (_ & _ & Hd' & Ht').
  assert (Hseg : segment (p + zlen a + 1) e = r).
  { unfold segment. replace (Z.to_nat (p + zlen a + 1)) with (Z.to_nat p + (length a + 1))%nat by (unfold zlen; lia).
    rewrite <- drop_drop. fold (segment p e). rewrite Hs, <- drop_drop, drop_app_length. done. }
  exists a. cbv zeta. split_and!; [|split; [lia|]; rewrite Ht'; right; by rewrite app_assoc, last_snoc|lia|by rewrite Hs, Hseg, lines_of_step].
  unfold getLine. cbn [stream_]. by rewrite (getline_line c p a _ ltac:(lia) Hd Ha).
Qed.

Lemma segment_nil e : segment e e = [].
Proof. unfold segment. apply drop_ge. rewrite length_take. lia. Qed.

Lemma linesLoop_segment fuel p e rank total :
  lineStart c p -> lineStart c e -> p <= e -> (Z.to_nat (e - p) < fuel)%nat ->
  linesLoop fuel (Reader rank total (at_pos c p) e) = Some (trim <$> lines_of (segment p e), Reader rank total (at_pos c e) e).
Proof.
  revert p. induction fuel as [|fuel IH]; intros p Hp He Hpe Hf; [lia|]. cbn [linesLoop].
  rewrite hasNextLine_at by apply Hp. destruct (Z.ltb_spec p e) as [Hlt|Hge].
  - destruct (reader_step p e rank total Hp He Hlt) as (a & -> & Hp' & Hle & ->). pose proof (zlen_nonneg a). by rewrite IH by (done || lia).
  - assert (p = e) as -> by lia. by rewrite segment_nil.
Qed.
End Cuts.

(** * All readers together *)

Section Partition.
Context (fs : str -> option str) (file c : str) (total : Z).
Hypothesis Hfile : fs file = Some c.
Hypothesis Hc : terminated c.
Hypothesis Hsize : zlen c < 2 ^ 63.
Hypothesis Htotal : 0 < total < 2 ^ 31.

Definition chunk : Z := zlen c / total.

(** Where the part of a rank starts. *)
Definition cut (r : Z) : Z := if r =? 0 then 0 else if r =? total then zlen c else nextStart c (chunk * r).

Lemma chunk_bound r : 0 <= r <= total -> 0 <= chunk * r <= zlen c.
Proof.
  intros Hr. pose proof (zlen_nonneg c). unfold chunk. pose proof (Z.mul_div_le (zlen c) total ltac:(lia)).
  pose proof (Z.div_pos (zlen c) total ltac:(lia) ltac:(lia)). nia.
Qed.

Lemma chunk_inner r : c <> [] -> 0 <= r < total -> 0 <= chunk * r < zlen c.
Proof.
  intros Hne Hr. assert (0 < zlen c) by (destruct c; [done|]; rewrite zlen_cons; pose proof (zlen_nonneg l); lia).
  unfold chunk. pose proof (Z.mul_div_le (zlen c) total ltac:(lia)). pose proof (Z.div_pos (zlen c) total ltac:(lia) ltac:(lia)).
  destruct (Z.eq_dec (zlen c / total) 0) as [->|]; [lia|]. nia.
Qed.

Lemma cut_start r : c <> [] -> 0 <= r <= total -> lineStart c (cut r).
Proof.
  intros Hne Hr. unfold cut. destruct (Z.eqb_spec r 0); [by apply lineStart_0|]. destruct (Z.eqb_spec r total); [by apply lineStart_end|].
  apply nextStart_start; [done|]. apply chunk_inner; [done|lia].
Qed.

Lemma cut_mono r : c <> [] -> 0 <= r < total -> cut r <= cut (r + 1).
Proof.
  intros Hne Hr. pose proof (cut_start (r + 1) Hne ltac:(lia)) as [H1 _]. pose proof (cut_start r Hne ltac:(lia)) as [H0 _].
  unfold cut in *. destruct (Z.eqb_spec r 0) as [->|]; [lia|]. rewrite (proj2 (Z.eqb_neq r total)) in * by lia.
  rewrite (proj2 (Z.eqb_neq (r + 1) 0)) in * by lia. destruct (Z.eqb_spec (r + 1) total); [lia|].
  apply nextStart_mono; [done| |apply chunk_inner; [done|lia]]. pose proof (chunk_inner r Hne ltac:(lia)). pose proof (chunk_inner 1 Hne). unfold chunk in *.
  pose proof (zlen_nonneg c). pose proof (Z.div_pos (zlen c) total ltac:(lia) ltac:(lia)). lia.
Qed.

Lemma seekg_open p q : seekg p (at_pos c q) = at_pos c p.
Proof. done. Qed.

Lemma loadFile_part r g : c <> [] -> 0 <= r < total ->
  loadFile fs file (Reader r total closed_stream g) = Ok (Reader r total (at_pos c (cut r)) (cut (r + 1))).
Proof.
  intros Hne Hr. unfold loadFile, createInputStream. rewrite Hfile. cbn [mbind result_bind rank_ totalReaders_].
  unfold seek_end. change (open_stream c) with (at_pos c 0). rewrite seekg_open. cbn [content at_pos].
  assert (Et : forall p, tellg (at_pos c p) = (p, at_pos c p)) by done.
  change (Stream true c (zlen c) false false) with (at_pos c (zlen c)). rewrite Et.
  pose proof (zlen_nonneg c). rewrite (u64_pos c Hsize (zlen c)) by lia. rewrite (proj2 (Z.eqb_neq total 0)) by lia.
  assert (Eu : u64 total = total) by (unfold u64; apply Z.mod_small; lia). rewrite Eu. fold chunk.
  rewrite (u64_pos c Hsize (chunk * r)) by (apply chunk_bound; lia).
  assert (Hs : forall q, (if 0 <? r then (getline (seekg (chunk * r) (at_pos c q))).2 else seekg (chunk * r) (at_pos c q)) = at_pos c (cut r)).
  { intros q. rewrite seekg_open. unfold cut. destruct (Z.eqb_spec r 0) as [->|].
    - by rewrite Z.mul_0_r.
    - rewrite (proj2 (Z.ltb_lt 0 r)), (proj2 (Z.eqb_neq r total)) by lia. apply getline_next; [done|]. apply chunk_inner; [done|lia]. }
  destruct (Z.ltb_spec r (total - 1)).
  - rewrite (u64_pos c Hsize (chunk * (r + 1))) by (apply chunk_bound; lia). rewrite seekg_open.
    pose proof (getline_next c Hc (chunk * (r + 1)) ltac:(apply chunk_inner; [done|lia])) as Hg. destruct (getline _) as [l s]. cbn [snd] in Hg. subst s.
    rewrite Et, Hs. do 2 f_equal. unfold cut. rewrite (proj2 (Z.eqb_neq (r + 1) 0)), (proj2 (Z.eqb_neq (r + 1) total)) by lia.
    apply (u64_pos c); [done|]. apply nextStart_start; [done|]. apply chunk_inner; [done|lia].
  - rewrite Hs. do 2 f_equal. unfold cut. by rewrite (proj2 (Z.eqb_neq (r + 1) 0)), (proj2 (Z.eqb_eq (r + 1) total)) by lia.
Qed.

Lemma readPart_segment r : c <> [] -> 0 <= r < total -> readPart fs file total r = Ok (trim <$> lines_of (segment c (cut r) (cut (r + 1)))).
Proof.
  intros Hne Hr. unfold readPart, newReader. rewrite (proj2 (Z.ltb_ge r 0)), (proj2 (Z.ltb_ge total r)) by lia. cbn [orb mbind result_bind].
  rewrite loadFile_part by done. cbn [mbind result_bind]. unfold getLines. cbn [content stream_ at_pos].
  pose proof (cut_start r Hne ltac:(lia)) as [? _]. pose proof (cut_start (r + 1) Hne ltac:(lia)) as [? _].
  change (Stream true c (cut r) false false) with (at_pos c (cut r)).
  rewrite linesLoop_segment; [done|done|apply cut_start; [done|lia]|apply cut_start; [done|lia]|by apply cut_mono|unfold zlen in *; lia].
Qed.

(** An empty file has no lines for any rank. *)
Lemma readPart_empty r : c = [] -> 0 <= r < total -> readPart fs file total r = Ok [].
Proof.
  intros -> Hr. unfold readPart, newReader. rewrite (proj2 (Z.ltb_ge r 0)), (proj2 (Z.ltb_ge total r)) by lia. cbn [orb mbind result_bind].
  unfold loadFile, createInputStream. rewrite Hfile. cbn [mbind result_bind rank_ totalReaders_ seek_end open_stream content].
  rewrite (proj2 (Z.eqb_neq total 0)) by lia. change (u64 (zlen [])) with 0.
  unfold seekg at 1, sentry. cbn [is_open content pos failbit eofbit good negb andb open_stream zlen length].
  unfold tellg at 1, sentry. cbn [is_open content pos failbit eofbit good negb andb orb].
  change (u64 (Z.of_nat 0)) with 0. rewrite Zdiv_0_l, !Z.mul_0_l. change (u64 0) with 0.
  destruct (r <? total - 1), (0 <? r); vm_compute; reflexivity.
Qed.

Lemma parts_prefix k : c <> [] -> 0 <= k <= total ->
  mapM_result (readPart fs file total) (zrange 0 k) = Ok ((fun r => trim <$> lines_of (segment c (cut r) (cut (r + 1)))) <$> zrange 0 k)
  /\ lines_of (take (Z.to_nat (cut k)) c) = concat ((fun r => lines_of (segment c (cut r) (cut (r + 1)))) <$> zrange 0 k).
Proof.
  intros Hne Hk. split.
  - assert (Hall : forall r, r ∈ zrange 0 k -> 0 <= r < total) by (intros r Hr%elem_of_zrange; lia). revert Hall. generalize (zrange 0 k) as l.
    induction l as [|r l IH]; intros Hall; [done|]. cbn [mapM_result fmap list_fmap]. rewrite readPart_segment by (done || apply Hall; by left).
    rewrite IH; [done|]. intros q Hq. apply Hall. by right.
  - cut (forall n : nat, Z.of_nat n <= total -> lines_of (take (Z.to_nat (cut (Z.of_nat n))) c) =
      concat ((fun r => lines_of (segment c (cut r) (cut (r + 1)))) <$> zrange 0 (Z.of_nat n))).
    { intros Hcut. specialize (Hcut (Z.to_nat k) ltac:(lia)). by rewrite Z2Nat.id in Hcut by lia. }
    induction n as [|n IH]; intros Hn; [done|]. replace (Z.of_nat (S n)) with (Z.of_nat n + 1) by lia.
    pose proof (cut_start (Z.of_nat n) Hne ltac:(lia)) as [Hb Ht].
    rewrite zrange_snoc, fmap_app, concat_app by lia. cbn [fmap list_fmap concat]. rewrite app_nil_r, <- IH by lia.
    rewrite <- lines_of_app by done. f_equal. apply take_segment. split; [lia|]. apply cut_mono; [done|lia].
Qed.

Lemma parts_all : exists parts, mapM_result (readPart fs file total) (zrange 0 total) = Ok parts /\ concat parts = trim <$> lines_of c.
Proof.
  destruct (decide (c = [])) as [E|Hne].
  - exists ((fun _ => []) <$> zrange 0 total). assert (Hall : forall r, r ∈ zrange 0 total -> 0 <= r < total) by (intros r Hr%elem_of_zrange; lia).
    rewrite E. revert Hall. generalize (zrange 0 total) as l. induction l as [|r l IH]; intros Hall; [done|]. cbn [mapM_result fmap list_fmap concat].
    rewrite readPart_empty by (done || apply Hall; by left). destruct IH as [-> IH]; [intros q Hq; apply Hall; by right|]. done.
  - destruct (parts_prefix total Hne ltac:(lia)) as [-> Hl]. eexists. split; [done|].
    assert (Et : take (Z.to_nat (cut total)) c = c).
    { unfold cut. rewrite (proj2 (Z.eqb_neq total 0)), Z.eqb_refl by lia. apply take_ge. unfold zlen. lia. }
    rewrite Et in Hl. rewrite Hl. clear. induction (zrange 0 total) as [|r l IH]; [done|]. cbn [fmap list_fmap concat]. by rewrite fmap_app, IH.
Qed.
End Partition.

(** C28. The readers of all ranks together read every line of a file exactly
    once and in order, whatever their number: the parts, concatenated, are the
    trimmed lines that [getFileContent] reads, when every line is terminated. *)
Theorem readers_partition (fs : str -> option str) (file c : str) (total : Z) :
  fs file = Some c -> terminated c -> zlen c < 2 ^ 63 -> 0 < total < 2 ^ 31 ->
  exists parts ls, mapM_result (readPart fs file total) (zrange 0 total) = Ok parts
    /\ getFileContent fs file = Ok ls /\ concat parts = trim <$> ls.
Proof.
  intros Hf Ht Hs Htot. destruct (parts_all fs file c total Hf Ht Hs Htot) as (parts & H1 & H2).
  exists parts, (lines_of c). split_and!; [done|by apply getFileContent_lines|done].
Qed.

Definition nl_text (ls : list string) : str := concat ((fun l => lit l ++ [newline]) <$> ls).
Definition demo_text : str := nl_text ["the first"%string; " second "%string; "x"%string; "a longer last line"%string].
Definition demo_fs (f : str) : option str := if bool_decide (f = lit "corpus") then Some demo_text else None.

Lemma readers_partition_witness :
  exists parts ls, mapM_result (readPart demo_fs (lit "corpus") 3) (zrange 0 3) = Ok parts
    /\ getFileContent demo_fs (lit "corpus") = Ok ls /\ concat parts = trim <$> ls.
Proof.
  apply (readers_partition demo_fs (lit "corpus") demo_text 3); [by vm_compute|right; by vm_compute|by vm_compute|lia].
Defined.

(** * An unterminated last line

    Seeking the end or the start of a part that lies in the last line runs into the
    end of the file when no newline follows: [getline] sets [eofbit], the next
    [tellg] sets [failbit], and the reader, whose stream has failed, reads nothing. *)

Section Unterminated.
Context (fs : str -> option str) (file c : str) (total k : Z).
Hypothesis Hfile : fs file = Some c.
Hypothesis Hne : c <> [].
Hypothesis Hsize : zlen c < 2 ^ 63.
Hypothesis Hk : 0 < k < total.
Hypothesis Htotal : total < 2 ^ 31.
Hypothesis Htail : Forall (fun d => isNewline d = false) (drop (Z.to_nat (chunk c total * k)) c).

Lemma find_none l o : Forall (fun d => isNewline d = false) l -> find_if_from isNewline l o = None.
Proof. intros Hl. revert o. induction Hl as [|x l Hx _ IH]; intros o; [done|]. cbn. by rewrite Hx. Qed.

(** A position behind which no newline follows. *)
Lemma getline_tail j : k <= j < total ->
  (getline (at_pos c (chunk c total * j))).2 = Stream true c (zlen c) true false.
Proof.
  intros Hj. assert (0 < zlen c) as Hpos by (destruct c; [done|]; rewrite zlen_cons; pose proof (zlen_nonneg l); lia).
  assert (0 <= chunk c total * k <= chunk c total * j /\ chunk c total * j < zlen c) as [Hle Hlt].
  { unfold chunk. pose proof (Z.mul_div_le (zlen c) total ltac:(lia)). pose proof (Z.div_pos (zlen c) total ltac:(lia) ltac:(lia)).
    destruct (Z.eq_dec (zlen c / total) 0) as [->|]; [lia|]. nia. }
  assert (Hd : drop (Z.to_nat (chunk c total * j)) c
    = drop (Z.to_nat (chunk c total * j) - Z.to_nat (chunk c total * k)) (drop (Z.to_nat (chunk c total * k)) c)).
  { rewrite drop_drop. f_equal. lia. }
  unfold getline, sentry. cbn [good at_pos eofbit failbit negb andb content pos is_open].
  rewrite find_none by (rewrite Hd; by apply Forall_drop). cbn [snd]. rewrite Z.max_r by lia.
  rewrite bool_decide_eq_false_2; [done|]. intros E%(f_equal length). rewrite length_drop in E. cbn in E. unfold zlen in *. lia.
Qed.

(** A reader whose stream stands at the end of the file, or has failed, has no line. *)
Lemma no_lines r e s : u64 (-1) <? e = false -> good s = false -> content s = c ->
  exists s', getLines (Reader r total s e) = Some ([], s').
Proof.
  intros He Hs Hc. unfold getLines. cbn [linesLoop]. unfold hasNextLine, getPosition, tellg, sentry. cbn [stream_].
  rewrite Hs. cbn [set_fail failbit orb]. cbn [end_ with_stream]. rewrite He. by eexists.
Qed.

Lemma readPart_tail r : k - 1 <= r < total -> readPart fs file total r = Ok [].
Proof.
  intros Hr. unfold readPart, newReader. rewrite (proj2 (Z.ltb_ge r 0)), (proj2 (Z.ltb_ge total r)) by lia. cbn [orb mbind result_bind].
  unfold loadFile, createInputStream. rewrite Hfile. cbn [mbind result_bind rank_ totalReaders_].
  unfold seek_end. change (open_stream c) with (at_pos c 0). rewrite seekg_open. cbn [content at_pos].
  change (Stream true c (zlen c) false false) with (at_pos c (zlen c)).
  change (tellg (at_pos c (zlen c))) with (zlen c, at_pos c (zlen c)). cbv iota beta.
  pose proof (zlen_nonneg c). assert (Hu : forall p, 0 <= p <= zlen c -> u64 p = p) by (intros p Hp; apply u64_id; lia).
  rewrite (Hu (zlen c)) by lia. rewrite (proj2 (Z.eqb_neq total 0)) by lia. rewrite (u64_id total) by lia. fold (chunk c total).
  assert (Hb : forall j, 0 <= j <= total -> u64 (chunk c total * j) = chunk c total * j).
  { intros j Hj. apply Hu. unfold chunk. pose proof (Z.mul_div_le (zlen c) total ltac:(lia)).
    pose proof (Z.div_pos (zlen c) total ltac:(lia) ltac:(lia)). nia. }
  rewrite (Hb r) by lia. destruct (Z.ltb_spec r (total - 1)).
  - rewrite (Hb (r + 1)), seekg_open by lia. pose proof (getline_tail (r + 1) ltac:(lia)) as Hg. destruct (getline _) as [l s]. cbn [snd] in Hg. subst s.
    unfold tellg, sentry at 1. cbn [good eofbit failbit negb andb set_fail orb is_open content pos].
    assert (Es : forall q, seekg q (Stream true c (zlen c) true true) = Stream true c (zlen c) false true) by done. rewrite Es.
    match goal with |- context [if 0 <? r then ?a else ?b] =>
      replace (if 0 <? r then a else b) with (Stream true c (zlen c) false true) by (by destruct (0 <? r)) end.
    cbn [mbind result_bind].
    match goal with |- context [getLines ?x] => change x with (Reader r total (Stream true c (zlen c) false true) (u64 (-1))) end.
    destruct (no_lines r (u64 (-1)) (Stream true c (zlen c) false true)) as [s' ->]; [by apply Z.ltb_irrefl|done|done|done].
  - rewrite (proj2 (Z.ltb_lt 0 r)) by lia. rewrite seekg_open, getline_tail by lia. cbn [mbind result_bind].
    destruct (no_lines r (zlen c) (Stream true c (zlen c) true false)) as [s' ->]; [|done|done|done].
    apply Z.ltb_ge. change (u64 (-1)) with (2 ^ 64 - 1). lia.
Qed.
End Unterminated.

(** C34. When no newline follows the start of part [k] of [total] (the last
    line is not terminated and reaches from before that position to the end of
    the file), every reader from rank [k - 1] on reads no line at all: not the
    last line, and not the lines before it that start in those parts. *)
Theorem reader_loses_lines (fs : str -> option str) (file c : str) (total k r : Z) :
  fs file = Some c -> c <> [] -> zlen c < 2 ^ 63 -> 0 < k < total -> total < 2 ^ 31 ->
  Forall (fun d => isNewline d = false) (drop (Z.to_nat (chunk c total * k)) c) -> k - 1 <= r < total ->
  readPart fs file total r = Ok [].
Proof. intros. by eapply readPart_tail. Qed.

Definition open_text : str := lit "ab" ++ [newline] ++ lit "a long unterminated line".
Definition open_fs (f : str) : option str := if bool_decide (f = lit "corpus") then Some open_text else None.

(** A short and a long line: two readers read nothing, one reads both lines. *)
Lemma reader_loses_lines_witness :
  readPart open_fs (lit "corpus") 2 0 = Ok [] /\ readPart open_fs (lit "corpus") 2 1 = Ok []
  /\ readPart open_fs (lit "corpus") 1 0 = Ok [lit "ab"; lit "a long unterminated line"].
Proof.
  assert (Forall (fun d => isNewline d = false) (drop (Z.to_nat (chunk open_text 2 * 1)) open_text)) by (vm_compute; repeat constructor).
  split; [|split; [|by vm_compute]]; apply (reader_loses_lines open_fs (lit "corpus") open_text 2 1); (done || lia || by vm_compute).
Defined.
