(* ===== verification/Tokenizer.v ===== *)
(** Counting the tokens of text files (lib/text/tokenizer/Tokenizer.cpp).

    Every worker counts the tokens of its part of the file in a map of its own;
    the maps are merged and the counted tokens sorted.  The theorem
    [countTokens_spec] shows that the outcome does not depend on the number of
    workers.  [order] is the order in which an [unordered_map] is iterated, which
    the standard leaves open.  [int nSentences] may overflow, and the two totals are
    [size_t]; the count of one token, at most the size of the file, is an unbounded
    integer. *)
From S2P Require Import Prelude Strings StdAlgorithm System PartialFileReader.
From stdpp Require Import sorting.

Open Scope Z_scope.

Abbreviation TokenCountMap := (gmap str Z).
Abbreviation TextFileMetaData := (list (Z * Z)).
Abbreviation TokenCountPair := (str * Z)%type.

Record tokenizer := Tokenizer {
  totalTokens_ : Z;
  totalSentences_ : Z;
  fileMetaData_ : TextFileMetaData;
  tokenCountPairs_ : list TokenCountPair;
}.

Definition newTokenizer : tokenizer := Tokenizer 0 0 [] [].

(** [std::string::operator<]: bytes compare as unsigned. *)
Fixpoint str_ltb (a b : str) : bool :=
  match a, b with
  | _, [] => false
  | [], _ :: _ => true
  | x :: a', y :: b' =>
      let n := Ascii.nat_of_ascii x in let m := Ascii.nat_of_ascii y in
      if (n <? m)%nat then true else if (m <? n)%nat then false else str_ltb a' b'
  end.

(** The order of the dictionary: by occurrences, then lexical. *)
Definition pair_lt (wcp1 wcp2 : TokenCountPair) : bool :=
  if negb (snd wcp1 =? snd wcp2) then snd wcp2 <? snd wcp1 else str_ltb (fst wcp1) (fst wcp2).

Section Tokenizer.
Context `{alg : StdAlgo} (order : TokenCountMap -> list TokenCountPair) (fs : str -> option str).

Definition tokenize (sentence : str) : list str := splitOnWhitespace sentence true.

(** [map[token] += n], from zero when absent. *)
Definition count (m : TokenCountMap) (token : str) (n : Z) : TokenCountMap :=
  <[token := default 0 (m !! token) + n]> m.

(** The loop of [countPartialFile]. *)
Fixpoint countLoop (gen : bool) (fuel : nat) (r : reader) (m : TokenCountMap) (meta : TextFileMetaData) (nSentences : Z)
    : result (TokenCountMap * TextFileMetaData * Z) :=
  match fuel with
  | O => Throw Undefined
  | S fuel' =>
      let '(more, r) := hasNextLine r in
      if more then
        let '(line, r) := getLine r in
        let tokens := tokenize line in
        let m := fold_left (fun m token => count m token 1) tokens m in
        let '(meta, r) := if gen then let '(p, r) := getPosition r in (meta ++ [(p, zlen tokens)], r) else (meta, r) in
        nSentences ← int_value (nSentences + 1);
        countLoop gen fuel' r m meta nSentences
      else Ok (m, meta, nSentences)
  end.

Definition countPartialFile (filename : str) (numWorkers : Z) (gen : bool) (rank : Z) : result (TokenCountMap * TextFileMetaData * Z) :=
  r ← newReader rank numWorkers 0;
  r ← loadFile fs filename r;
  countLoop gen (S (S (length (content (stream_ r))))) r ∅ [] 0.

(** Merging the result of one worker. *)
Definition gather (gen : bool) (st : tokenizer * TokenCountMap) (res : TokenCountMap * TextFileMetaData * Z) : tokenizer * TokenCountMap :=
  let '(t, m) := st in
  let '(sub, meta, n) := res in
  let items := order sub in
  let m := fold_left (fun m item => count m (fst item) (snd item)) items m in
  let total := fold_left (fun a item => u64 (a + snd item)) items (totalTokens_ t) in
  (Tokenizer total (u64 (totalSentences_ t + n)) (if gen then fileMetaData_ t ++ meta else fileMetaData_ t) (tokenCountPairs_ t), m).

(** Gathering stops at the first worker that has thrown. *)
Fixpoint gatherAll (gen : bool) (l : list (result (TokenCountMap * TextFileMetaData * Z))) (st : tokenizer * TokenCountMap)
    : (tokenizer * TokenCountMap) * option exn :=
  match l with
  | [] => (st, None)
  | Throw e :: _ => (st, Some e)
  | Ok res :: l' => gatherAll gen l' (gather gen st res)
  end.

(** The tokenizer after the call, and what it throws. *)
Definition countTokens (filename : str) (numWorkers : Z) (generateMetaData : bool) (t : tokenizer) : tokenizer * option exn :=
  if numWorkers <? 0 then (t, Some LogicError)
  else
    let results := countPartialFile filename numWorkers generateMetaData <$> zrange 0 numWorkers in
    let t := Tokenizer (totalTokens_ t) (totalSentences_ t) [] (tokenCountPairs_ t) in
    let '((t, m), e) := gatherAll generateMetaData results (t, ∅) in
    match e with
    | Some _ => (t, e)
    | None => (Tokenizer (totalTokens_ t) (totalSentences_ t) (fileMetaData_ t) (std_sort pair_lt (order m)), None)
    end.

(** [int] arguments are compared with [size_t] values. *)
Definition pruneTokens (maxTokens minAppearence : Z) (t : tokenizer) : tokenizer :=
  let size := zlen (tokenCountPairs_ t) in
  let maxTokens := if (-1 <? maxTokens) && (u64 maxTokens <? size) then maxTokens else size in
  let pairs := take (Z.to_nat maxTokens) (tokenCountPairs_ t) in
  let end_ := list_find (fun p => ~ u64 minAppearence <= snd p) pairs in
  Tokenizer (totalTokens_ t) (totalSentences_ t) (fileMetaData_ t)
    (match end_ with Some (n, _) => take n pairs | None => pairs end).

Definition getDictionary (t : tokenizer) : list TokenCountPair := tokenCountPairs_ t.
Definition getTextFileMetaData (t : tokenizer) : TextFileMetaData := fileMetaData_ t.
Definition totalTokens (t : tokenizer) : Z := totalTokens_ t.
Definition totalSentences (t : tokenizer) : Z := totalSentences_ t.
End Tokenizer.

(** ** The tokens that [countTokens] counts, whatever the number of workers, and the
    tokens [pruneTokens] keeps. *)

Open Scope Z_scope.

(** * The order of the dictionary *)

Lemma str_ltb_irrefl a : str_ltb a a = false.
Proof. induction a as [|x a IH]; [done|]. cbn [str_ltb]. by rewrite Nat.ltb_irrefl. Qed.

Lemma str_ltb_trans a b c : str_ltb a b = true -> str_ltb b c = true -> str_ltb a c = true.
Proof.
  revert b c. induction a as [|x a IH]; intros [|y b] [|z c]; cbn [str_ltb]; try done.
  destruct (Nat.ltb_spec (Ascii.nat_of_ascii x) (Ascii.nat_of_ascii y)), (Nat.ltb_spec (Ascii.nat_of_ascii y) (Ascii.nat_of_ascii x)),
    (Nat.ltb_spec (Ascii.nat_of_ascii y) (Ascii.nat_of_ascii z)), (Nat.ltb_spec (Ascii.nat_of_ascii z) (Ascii.nat_of_ascii y)),
    (Nat.ltb_spec (Ascii.nat_of_ascii x) (Ascii.nat_of_ascii z)), (Nat.ltb_spec (Ascii.nat_of_ascii z) (Ascii.nat_of_ascii x));
    try done; try lia. apply IH.
Qed.

Lemma nat_of_ascii_inj x y : Ascii.nat_of_ascii x = Ascii.nat_of_ascii y -> x = y.
Proof. intros E. rewrite <- (Ascii.ascii_nat_embedding x), <- (Ascii.ascii_nat_embedding y). by rewrite E. Qed.

Lemma str_ltb_total a b : str_ltb a b = false -> str_ltb b a = false -> a = b.
Proof.
  revert b. induction a as [|x a IH]; intros [|y b]; cbn [str_ltb]; try done.
  destruct (Nat.ltb_spec (Ascii.nat_of_ascii x) (Ascii.nat_of_ascii y)), (Nat.ltb_spec (Ascii.nat_of_ascii y) (Ascii.nat_of_ascii x)); try done; try lia.
  intros H1 H2. f_equal; [apply nat_of_ascii_inj; lia|by apply IH].
Qed.

Lemma pair_lt_irrefl a : pair_lt a a = false.
Proof. unfold pair_lt. rewrite Z.eqb_refl. apply str_ltb_irrefl. Qed.

Lemma pair_lt_trans a b c : pair_lt a b = true -> pair_lt b c = true -> pair_lt a c = true.
Proof.
  unfold pair_lt. destruct (Z.eqb_spec a.2 b.2), (Z.eqb_spec b.2 c.2), (Z.eqb_spec a.2 c.2); cbn [negb]; rewrite ?Z.ltb_lt; try lia.
  apply str_ltb_trans.
Qed.

Lemma pair_lt_total a b : pair_lt a b = false -> pair_lt b a = false -> a = b.
Proof.
  unfold pair_lt. rewrite (Z.eqb_sym b.2 a.2). destruct (Z.eqb_spec a.2 b.2) as [E|]; cbn [negb]; rewrite ?Z.ltb_ge; [|lia].
  intros H1 H2. destruct a, b. cbn in *. subst. f_equal. by apply str_ltb_total.
Qed.

Lemma pair_lt_asym a b : pair_lt a b = true -> pair_lt b a = false.
Proof. intros H. destruct (pair_lt b a) eqn:E; [|done]. pose proof (pair_lt_trans _ _ _ H E). by rewrite pair_lt_irrefl in *. Qed.

Lemma pair_lt_weak l : strict_weak pair_lt l.
Proof.
  split; intros *.
  - intros _. apply pair_lt_irrefl.
  - intros _ _ _. apply pair_lt_trans.
  - intros _ _ _ H1 H2. destruct (pair_lt a c) eqn:E; [|done]. destruct (pair_lt b a) eqn:E1.
    + by rewrite (pair_lt_trans _ _ _ E1 E) in H2.
    + by rewrite (pair_lt_total _ _ H1 E1), H2 in E.
Qed.

(** There is one way to sort a list of pairs. *)
Lemma sorted_pairs_unique l l' : sorted pair_lt l -> sorted pair_lt l' -> l ≡ₚ l' -> l = l'.
Proof.
  intros H1 H2 Hp. assert (A : AntiSymm (=) (fun a b : TokenCountPair => pair_lt b a = false)).
  { intros a b Ha Hb. by apply pair_lt_total. }
  by apply (StronglySorted_unique (fun a b : TokenCountPair => pair_lt b a = false)).
Qed.

(** * Counts *)

Definition occ (w : str) (toks : list str) : Z := zlen (filter (fun x => x = w) toks).

Lemma occ_app w l k : occ w (l ++ k) = occ w l + occ w k.
Proof. unfold occ. by rewrite filter_app, zlen_app. Qed.

Lemma occ_nonneg w l : 0 <= occ w l.
Proof. apply zlen_nonneg. Qed.

Lemma occ_one w x : occ w [x] = if decide (x = w) then 1 else 0.
Proof. unfold occ. rewrite filter_cons. by case_decide. Qed.

Lemma occ_in w l : 0 < occ w l <-> w ∈ l.
Proof.
  unfold occ, zlen. split.
  - intros H. destruct (filter (fun x => x = w) l) as [|y k] eqn:E; [cbn in H; lia|].
    assert (Hy : y ∈ filter (fun x => x = w) l) by (rewrite E; by left). apply list_elem_of_filter in Hy as [-> Hy]. done.
  - intros H. assert (Hw : w ∈ filter (fun x => x = w) l) by (by apply list_elem_of_filter). destruct (filter _ _); [by apply elem_of_nil in Hw|cbn; lia].
Qed.

(** The map that holds the number of occurrences of every token. *)
Definition counts (toks : list str) (m : TokenCountMap) : Prop :=
  forall w, m !! w = if 0 <? occ w toks then Some (occ w toks) else None.

Lemma counts_unique toks m m' : counts toks m -> counts toks m' -> m = m'.
Proof. intros H H'. apply map_eq. intros w. by rewrite H, H'. Qed.

Lemma counts_default toks m w : counts toks m -> default 0 (m !! w) = occ w toks.
Proof. intros H. rewrite H. pose proof (occ_nonneg w toks). destruct (Z.ltb_spec 0 (occ w toks)); cbn; lia. Qed.

Lemma counts_step toks m w : counts toks m -> counts (toks ++ [w]) (count m w 1).
Proof.
  intros H v. unfold count. rewrite (counts_default toks m w H), occ_app, occ_one. pose proof (occ_nonneg w toks). case_decide as E.
  - subst v. rewrite lookup_insert_eq, (proj2 (Z.ltb_lt _ _)) by lia. done.
  - rewrite lookup_insert_ne, Z.add_0_r by done. apply H.
Qed.

Lemma counts_tokens toks k m : counts toks m -> counts (toks ++ k) (fold_left (fun m token => count m token 1) k m).
Proof.
  revert toks m. induction k as [|w k IH]; intros toks m H; cbn [fold_left]; [by rewrite app_nil_r|].
  replace (toks ++ w :: k) with ((toks ++ [w]) ++ k) by (by rewrite <- app_assoc). by apply IH, counts_step.
Qed.

Definition census (toks : list str) : TokenCountMap := fold_left (fun m token => count m token 1) toks ∅.

Lemma census_counts toks : counts toks (census toks).
Proof. apply (counts_tokens [] toks ∅). done. Qed.

Lemma census_pairs toks w n : (w, n) ∈ map_to_list (census toks) <-> n = occ w toks /\ w ∈ toks.
Proof.
  rewrite elem_of_map_to_list, census_counts, <- occ_in. destruct (Z.ltb_spec 0 (occ w toks)).
  - split; [by intros [= <-]|by intros [-> _]].
  - split; [done|lia].
Qed.

(** ** Merging *)

Definition itemSum (items : list TokenCountPair) : Z := foldr (fun x s => snd x + s) 0 items.

Lemma merge_lookup items m w : NoDup items.*1 ->
  fold_left (fun m item => count m (fst item) (snd item)) items m !! w =
  match list_find (fun x => fst x = w) items with Some (_, x) => Some (default 0 (m !! w) + snd x) | None => m !! w end.
Proof.
  revert m. induction items as [|[v n] items IH]; intros m Hnd; [done|]. cbn [fold_left list_find fst snd].
  apply NoDup_cons in Hnd as [Hv Hnd]. rewrite IH by done. unfold count. case_decide as E.
  - subst v. destruct (list_find (fun x => fst x = w) items) as [[i x]|] eqn:Ef; cbn [fmap option_fmap option_map prod_map].
    + apply list_find_Some in Ef as (Hi & Hx & _). exfalso. apply Hv, list_elem_of_fmap. exists x. split; [by rewrite <- Hx|by eapply list_elem_of_lookup_2].
    + by rewrite lookup_insert_eq.
  - cbn [fst] in E. destruct (list_find (fun x => fst x = w) items) as [[i x]|]; cbn [fmap option_fmap option_map prod_map]; by rewrite lookup_insert_ne.
Qed.

Lemma counts_merge toks k m items : counts toks m -> items ≡ₚ map_to_list (census k) ->
  counts (toks ++ k) (fold_left (fun m item => count m (fst item) (snd item)) items m).
Proof.
  intros H Hp w. assert (Hnd : NoDup items.*1) by (rewrite Hp; apply NoDup_fst_map_to_list).
  rewrite merge_lookup, occ_app by done. pose proof (occ_nonneg w toks). pose proof (occ_nonneg w k).
  destruct (list_find (fun x => fst x = w) items) as [[i [v n]]|] eqn:Ef.
  - apply list_find_Some in Ef as (Hi & Hx & _). cbn in Hx. subst v. apply list_elem_of_lookup_2 in Hi. rewrite Hp in Hi.
    apply census_pairs in Hi as [-> Hin%occ_in]. rewrite (counts_default toks m w H), (proj2 (Z.ltb_lt _ _)) by lia. done.
  - assert (Hk : occ w k = 0).
    { destruct (Z.eq_dec (occ w k) 0); [done|]. exfalso. assert (Hin : (w, occ w k) ∈ items).
      { rewrite Hp. apply census_pairs. split; [done|]. apply occ_in. lia. }
      apply list_find_None in Ef. rewrite Forall_forall in Ef. by apply (Ef _ Hin). }
    rewrite Hk, Z.add_0_r. apply H.
Qed.

Lemma itemSum_nonneg items : Forall (fun x => 0 <= snd x) items -> 0 <= itemSum items.
Proof. induction 1 as [|x items Hx _ IH]; unfold itemSum in *; cbn [foldr]; lia. Qed.

Lemma fold_sum items a :
  Forall (fun x => 0 <= snd x) items -> 0 <= a -> a + itemSum items < 2 ^ 64 ->
  fold_left (fun a item => u64 (a + snd item)) items a = a + itemSum items :> Z.
Proof.
  intros Hi. revert a. induction Hi as [|x items Hx Hi IH]; intros a Ha Hb; cbn [fold_left]; [unfold itemSum; cbn; by rewrite Z.add_0_r|].
  pose proof (itemSum_nonneg items Hi) as Hn. unfold itemSum in *. cbn [foldr] in *. rewrite u64_id by lia. rewrite IH by lia. lia.
Qed.

Lemma census_nonneg toks : Forall (fun x => 0 <= snd x) (map_to_list (census toks)).
Proof. apply Forall_forall. intros [w n] [-> _]%census_pairs. apply occ_nonneg. Qed.

Lemma itemSum_perm l l' : l ≡ₚ l' -> itemSum l = itemSum l'.
Proof. induction 1 as [|x l l' _ IH|x y l|l l' l'' _ IH1 _ IH2]; unfold itemSum in *; cbn [foldr]; [done|by rewrite IH|lia|congruence]. Qed.

Lemma itemSum_census toks : itemSum (map_to_list (census toks)) = zlen toks.
Proof.
  cut (forall m, itemSum (map_to_list (fold_left (fun m token => count m token 1) toks m)) = itemSum (map_to_list m) + zlen toks).
  { intros Hc. unfold census. rewrite Hc, map_to_list_empty. cbn. lia. }
  induction toks as [|w toks IH]; intros m; cbn [fold_left]; [unfold zlen; cbn [length]; by rewrite Z.add_0_r|]. rewrite IH, zlen_cons.
  assert (E : itemSum (map_to_list (count m w 1)) = itemSum (map_to_list m) + 1); [|lia].
  unfold count. destruct (m !! w) as [n|] eqn:Hw; cbn [default from_option].
  - rewrite <- insert_delete_eq. rewrite (itemSum_perm _ _ (map_to_list_insert (delete w m) w _ (lookup_delete_eq m w))).
    rewrite <- (itemSum_perm _ _ (map_to_list_delete m w n Hw)). unfold itemSum. cbn [foldr snd id]. lia.
  - rewrite (itemSum_perm _ _ (map_to_list_insert m w _ Hw)). unfold itemSum. cbn [foldr snd id]. lia.
Qed.

(** * The workers *)

(** The tokens of some lines, and the entries of their meta data: the position
    after each line and its number of tokens. *)
Definition lineTokens (ls : list str) : list str := concat ((fun l => tokenize (trim l)) <$> ls).
Fixpoint metaFrom (p : Z) (ls : list str) : TextFileMetaData :=
  match ls with
  | [] => []
  | l :: ls' => (p + zlen l + 1, zlen (tokenize (trim l))) :: metaFrom (p + zlen l + 1) ls'
  end.
Definition textLen (ls : list str) : Z := foldr (fun l n => zlen l + 1 + n) 0 ls.

Lemma lineTokens_app l k : lineTokens (l ++ k) = lineTokens l ++ lineTokens k.
Proof. unfold lineTokens. by rewrite fmap_app, concat_app. Qed.

Lemma metaFrom_app p l k : metaFrom p (l ++ k) = metaFrom p l ++ metaFrom (p + textLen l) k.
Proof.
  revert p. induction l as [|x l IH]; intros p; cbn [app metaFrom textLen foldr]; [by rewrite Z.add_0_r|].
  rewrite IH. cbn [app]. do 3 f_equal. unfold textLen. cbn [foldr]. lia.
Qed.

Lemma textLen_lines c : terminated c -> textLen (lines_of c) = zlen c.
Proof.
  remember (length c) as n eqn:En. revert c En. induction (lt_wf n) as [n _ IH]. intros c -> Ht.
  destruct (decide (c = [])) as [->|Hne]; [done|]. destruct (terminated_line c Ht Hne) as (a & r & -> & Ha & Hr).
  rewrite lines_of_step by done. unfold textLen. cbn [foldr]. fold (textLen (lines_of r)).
  rewrite (IH (length r)) by (done || rewrite length_app; cbn; lia). rewrite zlen_app, zlen_cons. lia.
Qed.

Section Workers.
Context `{alg : StdAlgo} `{!StdAlgoLaws alg} (order : TokenCountMap -> list TokenCountPair) (fs : str -> option str) (file c : str) (total : Z).
Hypothesis Horder : forall m, order m ≡ₚ map_to_list m.
Hypothesis Hfile : fs file = Some c.
Hypothesis Hc : terminated c.
Hypothesis Hsize : zlen c < 2 ^ 63.
Hypothesis Htotal : 0 < total < 2 ^ 31.
Hypothesis Hlines : zlen (lines_of c) < 2 ^ 31.

Lemma countLoop_segment gen fuel p e rank m meta n :
  lineStart c p -> lineStart c e -> p <= e -> (Z.to_nat (e - p) < fuel)%nat ->
  0 <= n -> n + zlen (lines_of (segment c p e)) < 2 ^ 31 ->
  countLoop gen fuel (Reader rank total (at_pos c p) e) m meta n =
  let ls := lines_of (segment c p e) in
  Ok (fold_left (fun m token => count m token 1) (lineTokens ls) m, if gen then meta ++ metaFrom p ls else meta, n + zlen ls).
Proof.
  revert p m meta n. induction fuel as [|fuel IH]; intros p m meta n Hp He Hpe Hf Hn Hb; [lia|]. cbn [countLoop].
  rewrite hasNextLine_at by (done || apply Hp). destruct (Z.ltb_spec p e) as [Hlt|Hge].
  - destruct (reader_step c p e rank total Hp He Hlt) as (a & -> & Hp' & Hle & El). pose proof (zlen_nonneg a). cbv zeta. rewrite El in Hb |- *.
    rewrite zlen_cons in Hb. pose proof (zlen_nonneg (lines_of (segment c (p + zlen a + 1) e))).
    assert (Eg : getPosition (Reader rank total (at_pos c (p + zlen a + 1)) e) = (p + zlen a + 1, Reader rank total (at_pos c (p + zlen a + 1)) e)).
    { unfold getPosition, tellg, sentry. cbn [good at_pos eofbit failbit negb andb orb is_open pos stream_ with_stream rank_ totalReaders_ end_].
      rewrite (u64_pos c Hsize) by (apply Hp'). done. }
    unfold lineTokens. cbn [fmap list_fmap concat]. rewrite fold_left_app. fold (lineTokens (lines_of (segment c (p + zlen a + 1) e))).
    destruct gen; [rewrite Eg|]; rewrite (int_value_fits (n + 1)) by lia; cbn [mbind result_bind]; rewrite IH by (done || lia); cbn [metaFrom]; rewrite zlen_cons, <- ?app_assoc, Z.add_assoc; done.
  - assert (p = e) as -> by lia. rewrite segment_nil. unfold lines_of, lineTokens. cbn. destruct gen; rewrite ?app_nil_r, Z.add_0_r; done.
Qed.

(** What the worker of a rank returns. *)
Definition partLines (r : Z) : list str := lines_of (segment c (cut c total r) (cut c total (r + 1))).

(** The lines before a part, of the part, and after it. *)
Lemma lines_parts k : c <> [] -> 0 <= k < total ->
  exists rest, lines_of c = lines_of (take (Z.to_nat (cut c total k)) c) ++ partLines k ++ rest.
Proof.
  intros Hne Hk. exists (lines_of (drop (Z.to_nat (cut c total (k + 1))) c)).
  pose proof (cut_start fs file c total Hfile Hc Hsize Htotal k Hne ltac:(lia)) as [Hb Ht].
  pose proof (cut_start fs file c total Hfile Hc Hsize Htotal (k + 1) Hne ltac:(lia)) as [Hb1 Ht1].
  pose proof (cut_mono fs file c total Hfile Hc Hsize Htotal k Hne Hk) as Hm.
  rewrite <- (take_drop (Z.to_nat (cut c total (k + 1))) c) at 1. rewrite lines_of_app by done.
  rewrite (take_segment c (cut c total k) (cut c total (k + 1))), lines_of_app by (done || lia). by rewrite <- app_assoc.
Qed.

Lemma countPartialFile_part gen r : c <> [] -> 0 <= r < total ->
  countPartialFile fs file total gen r =
  Ok (census (lineTokens (partLines r)), if gen then metaFrom (cut c total r) (partLines r) else [], zlen (partLines r)).
Proof.
  intros Hne Hr. unfold countPartialFile, newReader. rewrite (proj2 (Z.ltb_ge r 0)), (proj2 (Z.ltb_ge total r)) by lia. cbn [orb mbind result_bind].
  rewrite (loadFile_part fs file c) by done. cbn [mbind result_bind]. cbn [content stream_ at_pos].
  pose proof (cut_start fs file c total Hfile Hc Hsize Htotal r Hne ltac:(lia)) as Hs. pose proof (cut_start fs file c total Hfile Hc Hsize Htotal (r + 1) Hne ltac:(lia)) as He.
  pose proof (cut_mono fs file c total Hfile Hc Hsize Htotal r Hne Hr). pose proof Hs as [? _]. pose proof He as [? _].
  change (Stream true c (cut c total r) false false) with (at_pos c (cut c total r)).
  destruct (lines_parts r Hne Hr) as [rest El]. pose proof Hlines as Hb. rewrite El, !zlen_app in Hb. unfold partLines in Hb.
  pose proof (zlen_nonneg rest). pose proof (zlen_nonneg (lines_of (take (Z.to_nat (cut c total r)) c))).
  rewrite countLoop_segment by (done || unfold zlen in *; lia). cbv zeta. by destruct gen.
Qed.

Lemma countPartialFile_empty gen r : c = [] -> 0 <= r < total -> countPartialFile fs file total gen r = Ok (∅, [], 0).
Proof.
  intros -> Hr. unfold countPartialFile, newReader. rewrite (proj2 (Z.ltb_ge r 0)), (proj2 (Z.ltb_ge total r)) by lia. cbn [orb mbind result_bind].
  unfold loadFile, createInputStream. rewrite Hfile. cbn [mbind result_bind rank_ totalReaders_ seek_end open_stream content].
  rewrite (proj2 (Z.eqb_neq total 0)) by lia.
  unfold seekg at 1, sentry. cbn [is_open content pos failbit eofbit good negb andb open_stream zlen length].
  unfold tellg at 1, sentry. cbn [is_open content pos failbit eofbit good negb andb orb].
  change (u64 (Z.of_nat 0)) with 0. rewrite Zdiv_0_l, !Z.mul_0_l. change (u64 0) with 0.
  destruct (r <? total - 1), (0 <? r), gen; vm_compute; reflexivity.
Qed.

(** The state after gathering the workers below [k]. *)
Definition gathered (gen : bool) (t : tokenizer) (ls : list str) (st : tokenizer * TokenCountMap) : Prop :=
  st.1 = Tokenizer (totalTokens_ t + zlen (lineTokens ls)) (totalSentences_ t + zlen ls)
    (if gen then fileMetaData_ t ++ metaFrom 0 ls else fileMetaData_ t) (tokenCountPairs_ t)
  /\ counts (lineTokens ls) st.2.

(** The totals do not wrap. *)
Definition totals_fit (t : tokenizer) (ls : list str) : Prop :=
  0 <= totalTokens_ t /\ totalTokens_ t + zlen (lineTokens ls) < 2 ^ 64
  /\ 0 <= totalSentences_ t /\ totalSentences_ t + zlen ls < 2 ^ 64.

Lemma totals_fit_prefix t ls k : totals_fit t (ls ++ k) -> totals_fit t ls.
Proof.
  unfold totals_fit. rewrite lineTokens_app, !zlen_app. pose proof (zlen_nonneg (lineTokens k)). pose proof (zlen_nonneg k). lia.
Qed.

Lemma gather_step gen t ls k st :
  totals_fit t (ls ++ partLines k) ->
  gathered gen t ls st -> textLen ls = cut c total k ->
  gathered gen t (ls ++ partLines k)
    (gather order gen st (census (lineTokens (partLines k)), if gen then metaFrom (cut c total k) (partLines k) else [], zlen (partLines k))).
Proof.
  intros (F1 & F2 & F3 & F4) [E1 E2] Hl. rewrite lineTokens_app, !zlen_app in *.
  pose proof (zlen_nonneg (lineTokens ls)). pose proof (zlen_nonneg ls). pose proof (zlen_nonneg (partLines k)). destruct st as [t1 m1]. cbn [fst snd] in *. subst t1. unfold gather. split; cbn [fst snd totalTokens_ totalSentences_ fileMetaData_ tokenCountPairs_].
  - rewrite (u64_id (_ + _ + _)) by lia. rewrite fold_sum.
    2: rewrite Horder; apply census_nonneg.
    2: lia.
    2: rewrite (itemSum_perm _ _ (Horder _)), itemSum_census; lia.
    rewrite (itemSum_perm _ _ (Horder _)), itemSum_census, lineTokens_app, !zlen_app, !Z.add_assoc.
    destruct gen; [|done]. by rewrite metaFrom_app, Hl, app_assoc.
  - rewrite lineTokens_app. by apply counts_merge.
Qed.

Lemma gatherAll_gathered gen t : totals_fit t (lines_of c) -> exists st,
  gatherAll order gen (countPartialFile fs file total gen <$> zrange 0 total) (t, ∅) = (st, None) /\ gathered gen t (lines_of c) st.
Proof.
  intros Hfit. assert (H0 : gathered gen t [] (t, ∅)).
  { split; [|done]. cbn [fst]. destruct t. unfold zlen. cbn. rewrite !Z.add_0_r. destruct gen; [by rewrite app_nil_r|done]. }
  destruct (decide (c = [])) as [E|Hne].
  - exists (t, ∅). split; [|by rewrite E]. assert (Hall : forall r, r ∈ zrange 0 total -> 0 <= r < total) by (intros r Hr%elem_of_zrange; lia).
    revert Hall. generalize (zrange 0 total) as l. induction l as [|r l IH]; intros Hall; [done|]. cbn [fmap list_fmap gatherAll].
    rewrite countPartialFile_empty by (done || apply Hall; by left).
    replace (gather order gen (t, ∅) (∅, [], 0)) with (t, (∅ : TokenCountMap)); [apply IH; intros q Hq; apply Hall; by right|].
    unfold gather. assert (Eo : order ∅ = []) by (apply Permutation_nil_r; rewrite Horder, map_to_list_empty; done). rewrite Eo. cbn [fold_left].
    rewrite Z.add_0_r, u64_id by (destruct Hfit as (? & ? & ? & ?); pose proof (zlen_nonneg (lines_of c)); lia).
    destruct t. cbn. destruct gen; [by rewrite app_nil_r|done].
  - assert (Hg : forall l1 l2 st, exists st', gatherAll order gen l1 st = (st', None) -> gatherAll order gen (l1 ++ l2) st = gatherAll order gen l2 st').
    { induction l1 as [|x l1 IH]; intros l2 st; [by exists st|]. destruct x as [x|e]; cbn [gatherAll app]; [apply IH|]. by exists st. }
    cut (forall n : nat, Z.of_nat n <= total -> exists st,
      gatherAll order gen (countPartialFile fs file total gen <$> zrange 0 (Z.of_nat n)) (t, ∅) = (st, None)
      /\ gathered gen t (lines_of (take (Z.to_nat (cut c total (Z.of_nat n))) c)) st).
    { intros Hn. destruct (Hn (Z.to_nat total) ltac:(lia)) as (st & E & G). rewrite Z2Nat.id in E, G by lia. exists st. split; [done|].
      unfold cut in G. rewrite (proj2 (Z.eqb_neq total 0)), Z.eqb_refl, take_ge in G by (unfold zlen; lia). done. }
    clear Hg. assert (Hga : forall l1 x st st', gatherAll order gen l1 st = (st', None) -> gatherAll order gen (l1 ++ [Ok x]) st = (gather order gen st' x, None)).
    { induction l1 as [|y l1 IH]; intros x st st' E; cbn [gatherAll app] in *; [by injection E as ->|]. destruct y; [by apply IH|done]. }
    induction n as [|n IH]; intros Hn; [by exists (t, ∅)|]. destruct IH as (st & E & G); [lia|].
    replace (Z.of_nat (S n)) with (Z.of_nat n + 1) by lia. set (k := Z.of_nat n) in *.
    pose proof (cut_start fs file c total Hfile Hc Hsize Htotal k Hne ltac:(lia)) as [Hb Ht]. pose proof (cut_mono fs file c total Hfile Hc Hsize Htotal k Hne ltac:(lia)) as Hm.
    rewrite zrange_snoc, fmap_app by lia. cbn [fmap list_fmap]. rewrite countPartialFile_part by (done || lia). eexists. split; [by apply Hga|].
    rewrite (take_segment c (cut c total k) (cut c total (k + 1))), lines_of_app by (done || lia). fold (partLines k).
    destruct (lines_parts k Hne ltac:(lia)) as [rest El]. rewrite El, app_assoc in Hfit. apply totals_fit_prefix in Hfit.
    apply gather_step; [done|done|]. rewrite textLen_lines by done. unfold zlen. rewrite length_take. unfold zlen in Hb. lia.
Qed.

(** The dictionary of some tokens: each with its number of occurrences, sorted. *)
Definition dictionary (toks : list str) : list TokenCountPair := insertion_sort pair_lt (map_to_list (census toks)).

Lemma dictionary_sort toks m : counts toks m -> std_sort pair_lt (order m) = dictionary toks.
Proof.
  intros Hm. assert (m = census toks) as -> by (eapply counts_unique; [exact Hm|apply census_counts]). apply sorted_pairs_unique.
  - apply std_sort_sorted, pair_lt_weak.
  - apply insertion_sort_sorted, pair_lt_weak.
  - rewrite (std_sort_perm pair_lt _ (pair_lt_weak _)). unfold dictionary. by rewrite insertion_sort_perm.
Qed.

Lemma countTokens_aux gen t :
  totals_fit t (lines_of c) ->
  countTokens order fs file total gen t =
  (Tokenizer (totalTokens_ t + zlen (lineTokens (lines_of c))) (totalSentences_ t + zlen (lines_of c))
     (if gen then metaFrom 0 (lines_of c) else []) (dictionary (lineTokens (lines_of c))), None).
Proof.
  intros Hfit. unfold countTokens. rewrite (proj2 (Z.ltb_ge total 0)) by lia.
  destruct (gatherAll_gathered gen (Tokenizer (totalTokens_ t) (totalSentences_ t) [] (tokenCountPairs_ t)) Hfit) as ([t' m] & -> & [E1 E2]). cbn [fst snd] in *.
  subst t'. cbn [totalTokens_ totalSentences_ fileMetaData_ tokenCountPairs_ app]. by rewrite (dictionary_sort _ m E2).
Qed.
End Workers.

(** C24. Counting the tokens of a file whose lines are all terminated, of
    fewer than [2 ^ 31] lines (a worker counts its lines in an [int]), gives
    the same result for every number of workers, provided that the totals fit
    [size_t]: they grow by the numbers of tokens and lines, the meta data has
    one entry per line, and the dictionary lists every token that occurs,
    once, with its number of occurrences, sorted by occurrences and then by
    spelling. *)
Theorem countTokens_spec `{alg : StdAlgo} `{!StdAlgoLaws alg} (order : TokenCountMap -> list TokenCountPair)
    (fs : str -> option str) (file c : str) (numWorkers : Z) (gen : bool) (t : tokenizer) :
  (forall m, order m ≡ₚ map_to_list m) -> fs file = Some c -> terminated c -> zlen c < 2 ^ 63 -> 0 < numWorkers < 2 ^ 31 ->
  zlen (lines_of c) < 2 ^ 31 -> totals_fit t (lines_of c) ->
  let toks := lineTokens (lines_of c) in
  countTokens order fs file numWorkers gen t =
    (Tokenizer (totalTokens_ t + zlen toks) (totalSentences_ t + zlen (lines_of c)) (if gen then metaFrom 0 (lines_of c) else []) (dictionary toks), None)
  /\ (forall w n, (w, n) ∈ dictionary toks <-> n = occ w toks /\ w ∈ toks)
  /\ NoDup (dictionary toks) /\ sorted pair_lt (dictionary toks).
Proof.
  intros Ho Hf Ht Hs Hn Hl Hfit. cbv zeta. split_and!.
  - by apply countTokens_aux.
  - intros w n. unfold dictionary. rewrite insertion_sort_perm. apply census_pairs.
  - unfold dictionary. rewrite insertion_sort_perm. apply NoDup_map_to_list.
  - apply insertion_sort_sorted, pair_lt_weak.
Qed.

Definition poem : str := nl_text ["the rose is a rose"%string; "is the"%string; "rose"%string].
Definition poem_fs (f : str) : option str := if bool_decide (f = lit "poem") then Some poem else None.

Lemma countTokens_spec_witness :
  countTokens map_to_list poem_fs (lit "poem") 2 true newTokenizer =
    (Tokenizer 8 3 [(19, 5); (26, 2); (31, 1)] [(lit "rose", 3); (lit "is", 2); (lit "the", 2); (lit "a", 1)], None).
Proof.
  destruct (countTokens_spec map_to_list poem_fs (lit "poem") poem 2 true newTokenizer) as [-> _];
    [done|by vm_compute|right; by vm_compute|by vm_compute|lia|by vm_compute|by vm_compute|by vm_compute].
Defined.

Lemma list_filter_none {A} (P : A -> Prop) `{!forall x, Decision (P x)} (l : list A) : Forall (fun x => ~ P x) l -> filter P l = [].
Proof. induction 1 as [|x l Hx _ IH]; [done|]. rewrite filter_cons. by case_decide. Qed.

(** Pruning a dictionary that is sorted by occurrences keeps, among its first
    [maxTokens] entries (all of them when [maxTokens] is negative or too large),
    those with at least [minAppearence] occurrences. *)
Theorem pruneTokens_spec (t : tokenizer) (maxTokens minAppearence : Z) :
  sorted pair_lt (tokenCountPairs_ t) -> zlen (tokenCountPairs_ t) < 2 ^ 31 -> maxTokens < 2 ^ 31 -> 0 <= minAppearence < 2 ^ 31 ->
  getDictionary (pruneTokens maxTokens minAppearence t) =
  filter (fun p => minAppearence <= snd p) (if maxTokens <? 0 then tokenCountPairs_ t else take (Z.to_nat maxTokens) (tokenCountPairs_ t)).
Proof.
  intros Hs Hl Hm Hmin. unfold getDictionary, pruneTokens. cbn [tokenCountPairs_]. set (l := tokenCountPairs_ t) in *.
  assert (E : take (Z.to_nat (if (-1 <? maxTokens) && (u64 maxTokens <? zlen l) then maxTokens else zlen l)) l =
    if maxTokens <? 0 then l else take (Z.to_nat maxTokens) l).
  { destruct (Z.ltb_spec (-1) maxTokens), (Z.ltb_spec maxTokens 0); cbn [andb]; try lia.
    - assert (Eu : u64 maxTokens = maxTokens) by (unfold u64; apply Z.mod_small; lia). rewrite Eu.
      destruct (Z.ltb_spec maxTokens (zlen l)); [done|]. rewrite !take_ge; [done|unfold zlen in *; lia..].
    - rewrite take_ge; [done|unfold zlen; lia]. }
  rewrite E. clear E. set (k := if maxTokens <? 0 then l else _).
  assert (Hk : sorted pair_lt k) by (unfold k; case_match; [done|by apply sorted_take]). clearbody k.
  assert (Eu : u64 minAppearence = minAppearence) by (unfold u64; apply Z.mod_small; lia). rewrite Eu. clear -Hk.
  induction k as [|x k IH]; [done|]. apply StronglySorted_inv in Hk as [Hk Hx]. cbn [list_find]. rewrite filter_cons. case_decide as D; case_decide as D2; try tauto.
  - cbn [take]. symmetry. apply list_filter_none. eapply Forall_impl; [exact Hx|]. intros y Hy. cbv beta in Hy. unfold pair_lt in Hy.
    destruct (Z.eqb_spec y.2 x.2); cbn [negb] in Hy; [lia|]. apply Z.ltb_ge in Hy. lia.
  - rewrite <- IH by done. by destruct (list_find _ k) as [[n y]|].
Qed.

Lemma pruneTokens_spec_witness :
  getDictionary (pruneTokens 3 2 (Tokenizer 8 3 [] [(lit "rose", 3); (lit "is", 2); (lit "the", 2); (lit "a", 1)])) =
  [(lit "rose", 3); (lit "is", 2); (lit "the", 2)].
Proof.
  rewrite pruneTokens_spec; [by vm_compute| |by vm_compute|lia|lia].
  cbn [tokenCountPairs_]. repeat (constructor; [|repeat (constructor; [by vm_compute|]); constructor]). constructor.
Defined.
