(* ===== verification/TextDataset.v ===== *)
(** Text for language model training (app/lm/data/TextDataset.cpp).

    The constructor reads the sentences of a reader's parts of some files into one
    vector of token indices, separated by [<eos>], and forms batches of ranges of
    that vector; [get] returns a batch as a padded matrix and [shuffle] permutes
    the batches.  The random numbers of [std::mt19937_64] are a parameter.  Sizes
    and positions are unbounded integers. *)
From S2P Require Import Prelude Strings Dictionary Dataset StdAlgorithm System PartialFileReader Tokenizer.

Open Scope Z_scope.

Definition kEosToken : str := lit "</s>".
Definition kPadToken : str := lit "<pad>".
Definition kMaxTokenInBuffer : Z := 10000000000.

Record SamplePosition := Sample { first : Z; last : Z }.
Record textDataset := TextDataset { pad_ : Z; data_ : list Z; batches_ : list (list SamplePosition) }.

Section TextDataset.
Context `{alg : StdAlgo} (fs : str -> option str).

(** [sentenceRanges.back().second = x;] *)
Definition closeRange (x : Z) (ranges : list (Z * Z)) : list (Z * Z) :=
  match rev ranges with
  | [] => []
  | (a, _) :: rest => rev rest ++ [(a, x)]
  end.

(** The loop over the lines of a file. *)
Fixpoint readSentences (dictionary : dict) (eos : Z) (fuel : nat) (r : reader) (data : list Z) (ranges : list (Z * Z))
    : result (reader * list Z * list (Z * Z)) :=
  match fuel with
  | O => Throw Undefined
  | S fuel' =>
      let '(more, r) := hasNextLine r in
      if more then
        let currentEosPosition := zlen data - 1 in
        let ranges := closeRange currentEosPosition ranges in
        let '(line, r) := getLine r in
        indices ← mapEntriesToIndices dictionary (tokenize line);
        if kMaxTokenInBuffer <? zlen data + zlen indices then Ok (r, data, ranges)
        else readSentences dictionary eos fuel' r (data ++ indices ++ [eos]) (ranges ++ [(currentEosPosition, -1)])
      else Ok (r, data, ranges)
  end.

Definition readFile (dataDirectory : str) (dictionary : dict) (eos : Z) (st : reader * list Z * list (Z * Z)) (file : str)
    : result (reader * list Z * list (Z * Z)) :=
  let '(r, data, ranges) := st in
  r ← loadFile fs (pathsConcat dataDirectory file) r;
  '(r, data, ranges) ← readSentences dictionary eos (S (S (length (content (stream_ r))))) r data ranges;
  Ok (r, data, closeRange (zlen data - 1) ranges).

(** Samples of equal size. *)
Definition batchesNone (nTokens tokensPerSample batchSize : Z) : result (list (list SamplePosition)) :=
  if tokensPerSample =? 0 then Throw Undefined
  else
    let nSamples := Z.quot (nTokens + tokensPerSample - 1) tokensPerSample in
    let nBatches := Z.quot (nSamples + batchSize - 1) batchSize in
    Ok ((fun b => (fun s => Sample (s * tokensPerSample) (Z.min ((s + 1) * tokensPerSample) nTokens - 1))
      <$> zrange (b * batchSize) (Z.min ((b + 1) * batchSize) nSamples)) <$> zrange 0 nBatches).

Definition range_lt (p1 p2 : Z * Z) : bool := snd p1 - fst p1 <? snd p2 - fst p2.

(** The loop over the sentences; [st] is the batches and the open batch. *)
Definition addSentence (tokensPerSample batchSize : Z) (dynamic : bool) (st : list (list SamplePosition) * list SamplePosition) (range : Z * Z)
    : list (list SamplePosition) * list SamplePosition :=
  let '(batches, batch) := st in
  let '(startPoint, endPoint) := range in
  let sampleSize := endPoint - startPoint + 1 in
  let batch := batch ++ [Sample startPoint endPoint] in
  let isFull := if dynamic then batchSize * tokensPerSample <? sampleSize * (zlen batch + 1) else zlen batch =? batchSize in
  if isFull then (batches ++ [batch], []) else (batches, batch).

Definition batchesEos (ranges : list (Z * Z)) (tokensPerSample batchSize : Z) (dynamic : bool) : list (list SamplePosition) :=
  let ranges := if dynamic then std_sort range_lt ranges else ranges in
  let '(batches, batch) := fold_left (addSentence tokensPerSample batchSize dynamic) ranges ([], []) in
  match batch with [] => batches | _ => batches ++ [batch] end.

Definition newTextDataset (dataDirectory filenames : str) (r : reader) (dictionary : dict) (tokensPerSample batchSize : Z)
    (sampleBreakMode : str) (useDynamicBatching : bool) : result (textDataset * reader) :=
  pad ← getIndex dictionary kPadToken;
  eos ← getIndex dictionary kEosToken;
  '(r, data, ranges) ← foldM_result (readFile dataDirectory dictionary eos) (r, [eos], []) (split_char (Ascii.ascii_of_nat 44) filenames false);
  if batchSize <=? 0 then Throw InvalidArgument
  else if bool_decide (sampleBreakMode = lit "none") then
    batches ← batchesNone (zlen data) tokensPerSample batchSize;
    Ok (TextDataset pad data batches, r)
  else if bool_decide (sampleBreakMode = lit "eos") then
    Ok (TextDataset pad data (batchesEos ranges tokensPerSample batchSize useDynamicBatching), r)
  else Throw InvalidArgument.

Definition size (d : textDataset) : Z := zlen (batches_ d).

Definition sampleLength (p : SamplePosition) : Z := last p - first p + 1.

(** The tokens of a sample. *)
Definition tokensOf (d : textDataset) (p : SamplePosition) : list Z :=
  take (Z.to_nat (sampleLength p)) (drop (Z.to_nat (first p)) (data_ d)).

(** The [memcpy] of a row into the buffer. *)
Definition copyAt {A} (i : Z) (row buffer : list A) : list A :=
  take (Z.to_nat i) buffer ++ row ++ drop (Z.to_nat i + length row) buffer.

(** The dimensions and the contents of the array. *)
Definition get (d : textDataset) (idx : Z) : result (Z * Z * list Z) :=
  if size d =? 0 then Throw Undefined
  else
    batch ← vec_get (batches_ d) (Z.rem idx (size d));
    let maxLength := foldl (fun m p => Z.max m (sampleLength p)) 0 batch in
    let buffer := replicate (Z.to_nat (zlen batch * maxLength)) (pad_ d) in
    let buffer := fold_left (fun buffer '(i, p) => copyAt (Z.of_nat i * maxLength) (tokensOf d p) buffer) (imap pair batch) buffer in
    Ok (maxLength, zlen batch, buffer).

(** [for (uint64_t i = size() - 1; i >= 1; --i)]; [rng k] is the [k]-th number
    of the generator.  [i] is unsigned, so an empty dataset starts at the largest
    index. *)
Fixpoint shuffleBatches {A} (rng : nat -> Z) (k : nat) (i : nat) (v : list A) : result (list A) :=
  match i with
  | O => Ok v
  | S i' => v ← vec_swap v i (Z.to_nat (rng k mod Z.of_nat (S i))); shuffleBatches rng (S k) i' v
  end.

Definition shuffle (rng : nat -> Z) (d : textDataset) : result textDataset :=
  if size d =? 0 then Throw Undefined
  else v ← shuffleBatches rng 0 (Z.to_nat (size d - 1)) (batches_ d); Ok (TextDataset (pad_ d) (data_ d) v).
End TextDataset.

(** ** The samples of a [TextDataset]: every token once when samples have equal
    size, every sentence once when samples end in [<eos>]; rows of [get]; [shuffle]. *)

Open Scope Z_scope.

(** * Reading *)

(** The vector of some sentences and the ranges of the sentences in it, from
    position [p] of an [<eos>]. *)
Definition layout (eos : Z) (sents : list (list Z)) : list Z := concat ((fun s => s ++ [eos]) <$> sents).
Fixpoint rangesFrom (p : Z) (sents : list (list Z)) : list (Z * Z) :=
  match sents with [] => [] | s :: l => (p, p + zlen s + 1) :: rangesFrom (p + zlen s + 1) l end.

Lemma layout_app eos l k : layout eos (l ++ k) = layout eos l ++ layout eos k.
Proof. unfold layout. by rewrite fmap_app, concat_app. Qed.

Lemma rangesFrom_app eos p l k : rangesFrom p (l ++ k) = rangesFrom p l ++ rangesFrom (p + zlen (layout eos l)) k.
Proof.
  revert p. induction l as [|s l IH]; intros p; cbn [app rangesFrom]; [by rewrite Z.add_0_r|].
  rewrite IH. unfold layout at 2. cbn [fmap list_fmap concat]. fold (layout eos l). rewrite !zlen_app. do 3 f_equal. unfold zlen. cbn [length]. lia.
Qed.

Lemma closeRange_snoc x l a y : closeRange x (l ++ [(a, y)]) = l ++ [(a, x)].
Proof. unfold closeRange. rewrite rev_app_distr. cbn. by rewrite rev_involutive. Qed.

Lemma closeRange_cases x l : closeRange x l = [] /\ l = [] \/ exists k a y, l = k ++ [(a, y)] /\ closeRange x l = k ++ [(a, x)].
Proof.
  destruct l as [|[a y] l] using rev_ind; [by left|]. right. exists l, a, y. by rewrite closeRange_snoc.
Qed.

Lemma closeRange_twice x y l : closeRange x (closeRange y l) = closeRange x l.
Proof. destruct (closeRange_cases y l) as [[-> ->]|(k & a & z & -> & ->)]; [done|]. by rewrite !closeRange_snoc. Qed.

Section Read.
Context `{alg : StdAlgo} (fs : str -> option str) (d : dict) (eos : Z).

Definition sentencesOf (ls : list str) : result (list (list Z)) := mapM_result (fun l => mapEntriesToIndices d (tokenize l)) ls.

(** The loop reads what [getLines] would read. *)
Lemma readSentences_lines fuel r ls r' sents data ranges :
  linesLoop fuel r = Some (ls, r') -> sentencesOf ls = Ok sents -> zlen (data ++ layout eos sents) <= kMaxTokenInBuffer ->
  exists ranges', readSentences d eos fuel r data ranges = Ok (r', data ++ layout eos sents, ranges')
    /\ closeRange (zlen (data ++ layout eos sents) - 1) ranges' = closeRange (zlen data - 1) ranges ++ rangesFrom (zlen data - 1) sents.
Proof.
  revert r ls sents data ranges. induction fuel as [|fuel IH]; intros r ls sents data ranges Hl Hs Hm; [done|]. cbn [linesLoop readSentences] in *.
  destruct (hasNextLine r) as [[] r1].
  - destruct (getLine r1) as [l r2]. destruct (linesLoop fuel r2) as [[ls' r3]|] eqn:E; [|done]. injection Hl as <- <-.
    unfold sentencesOf in Hs. cbn [mapM_result] in Hs. destruct (mapEntriesToIndices d (tokenize l)) as [s|] eqn:Es; [|done].
    destruct (mapM_result _ ls') as [sents'|] eqn:Es'; [|done]. injection Hs as <-. cbn [mbind result_bind].
    unfold layout in Hm |- *. cbn [fmap list_fmap concat] in *. fold (layout eos sents') in *.
    pose proof (zlen_nonneg (layout eos sents')). rewrite (proj2 (Z.ltb_ge _ _)) by (rewrite !zlen_app in Hm; unfold zlen in *; cbn [length] in *; lia).
    destruct (IH r2 ls' sents' (data ++ s ++ [eos]) (closeRange (zlen data - 1) ranges ++ [(zlen data - 1, -1)]) E Es') as (rg & E1 & E2).
    { by rewrite <- !app_assoc in *. }
    assert (EA : data ++ (s ++ [eos]) ++ layout eos sents' = (data ++ s ++ [eos]) ++ layout eos sents') by (by rewrite <- !app_assoc).
    rewrite EA. exists rg. split; [done|]. rewrite E2, closeRange_snoc, <- app_assoc. cbn [rangesFrom app].
    assert (El : zlen (data ++ s ++ [eos]) - 1 = zlen data - 1 + zlen s + 1) by (rewrite !zlen_app; unfold zlen; cbn [length]; lia). by rewrite !El.
  - injection Hl as <- <-. injection Hs as <-. exists ranges. unfold layout. cbn. by rewrite !app_nil_r.
Qed.

Lemma sentencesOf_app l k s : sentencesOf (l ++ k) = Ok s -> exists a b, s = a ++ b /\ sentencesOf l = Ok a /\ sentencesOf k = Ok b.
Proof.
  revert s. induction l as [|x l IH]; intros s H; [by exists [], s|]. unfold sentencesOf in *. cbn [app mapM_result] in *.
  destruct (mapEntriesToIndices d (tokenize x)) as [y|]; [|done]. destruct (mapM_result _ (l ++ k)) as [ys|] eqn:E; [|done]. injection H as <-.
  destruct (IH ys eq_refl) as (a & b & -> & -> & Hb). by exists (y :: a), b.
Qed.

(** One file: the lines of the reader's part. *)
Lemma readFile_part dir file r ls sents data ranges :
  0 <= rank_ r <= totalReaders_ r -> readPart fs (pathsConcat dir file) (totalReaders_ r) (rank_ r) = Ok ls -> sentencesOf ls = Ok sents ->
  zlen (data ++ layout eos sents) <= kMaxTokenInBuffer -> closeRange (zlen data - 1) ranges = ranges ->
  exists r', readFile fs dir d eos (r, data, ranges) file = Ok (r', data ++ layout eos sents, ranges ++ rangesFrom (zlen data - 1) sents)
    /\ rank_ r' = rank_ r /\ totalReaders_ r' = totalReaders_ r.
Proof.
  intros Hr Hp Hs Hm Hc. unfold readPart, newReader in Hp. rewrite (proj2 (Z.ltb_ge _ _)), (proj2 (Z.ltb_ge _ _)) in Hp by lia. cbn [orb mbind result_bind] in Hp.
  assert (El : loadFile fs (pathsConcat dir file) r = loadFile fs (pathsConcat dir file) (Reader (rank_ r) (totalReaders_ r) closed_stream 0)) by done.
  unfold readFile. rewrite El. destruct (loadFile _ _ _) as [r1|] eqn:E1; [|done]. cbn [mbind result_bind] in *.
  unfold getLines in Hp. destruct (linesLoop _ r1) as [[ls' r2]|] eqn:E2; [|done]. injection Hp as ->.
  destruct (readSentences_lines _ r1 ls r2 sents data ranges E2 Hs Hm) as (rg & -> & Erg). cbn [mbind result_bind]. rewrite Erg, Hc.
  exists r2. split; [done|].
  assert (H1 : rank_ r1 = rank_ r /\ totalReaders_ r1 = totalReaders_ r).
  { unfold loadFile in E1. destruct (createInputStream fs _); cbn [mbind result_bind] in E1; [|done].
    repeat case_match; try done; injection E1 as <-; done. }
  assert (H2 : rank_ r2 = rank_ r1 /\ totalReaders_ r2 = totalReaders_ r1).
  { clear -E2. revert E2. generalize (S (S (length (content (stream_ r1))))) as fuel. intros fuel. revert r1 ls. induction fuel as [|fuel IH]; intros r1 ls E; [done|].
    cbn [linesLoop] in E. unfold hasNextLine, getPosition in E. destruct (tellg (stream_ r1)) as [t s]. cbn [end_ with_stream] in E.
    destruct (u64 t <? end_ r1); [|by injection E as _ <-]. unfold getLine in E. destruct (getline _) as [l s']. destruct (linesLoop _ _) as [[ls' r3]|] eqn:E3; [|done].
    injection E as _ <-. by apply IH in E3. }
  destruct H1, H2. split; congruence.
Qed.

(** All files. *)
Lemma readFiles_parts dir files r parts sents data ranges :
  0 <= rank_ r <= totalReaders_ r ->
  mapM_result (fun f => readPart fs (pathsConcat dir f) (totalReaders_ r) (rank_ r)) files = Ok parts -> sentencesOf (concat parts) = Ok sents ->
  zlen (data ++ layout eos sents) <= kMaxTokenInBuffer -> closeRange (zlen data - 1) ranges = ranges ->
  exists r', foldM_result (readFile fs dir d eos) (r, data, ranges) files =
    Ok (r', data ++ layout eos sents, ranges ++ rangesFrom (zlen data - 1) sents).
Proof.
  revert r parts sents data ranges. induction files as [|f files IH]; intros r parts sents data ranges Hr Hp Hs Hm Hc; cbn [mapM_result foldM_result] in *.
  - injection Hp as <-. injection Hs as <-. exists r. unfold layout. cbn. by rewrite !app_nil_r.
  - destruct (readPart _ _ _ _) as [ls|] eqn:E1; [|done]. destruct (mapM_result _ files) as [parts'|] eqn:E2; [|done]. injection Hp as <-.
    cbn [concat] in Hs. destruct (sentencesOf_app _ _ _ Hs) as (s1 & s2 & -> & H1 & H2). rewrite layout_app, app_assoc in Hm |- *.
    pose proof (zlen_nonneg (layout eos s2)).
    destruct (readFile_part dir f r ls s1 data ranges Hr E1 H1) as (r1 & E & Er & Et); [rewrite zlen_app in Hm; lia|done|]. rewrite E.
    rewrite (rangesFrom_app eos), app_assoc. replace (zlen data - 1 + zlen (layout eos s1)) with (zlen (data ++ layout eos s1) - 1) by (rewrite zlen_app; lia).
    apply (IH r1 parts'); [lia|by rewrite Er, Et|done|done|].
    destruct s1 as [|s0 s1] using rev_ind.
    + unfold layout. cbn. rewrite !app_nil_r. done.
    + rewrite (rangesFrom_app eos). cbn [rangesFrom]. rewrite app_assoc, closeRange_snoc.
      assert (Ez : zlen (data ++ layout eos (s1 ++ [s0])) - 1 = zlen data - 1 + zlen (layout eos s1) + zlen s0 + 1).
      { rewrite layout_app, !zlen_app. unfold layout at 2. cbn. rewrite app_nil_r, zlen_app. unfold zlen. cbn [length]. lia. }
      by rewrite Ez.
Qed.
End Read.

(** * Batches of equal samples *)

(** Consecutive blocks of [K] numbers. *)
Lemma blocks_concat K M n : 0 < K -> 0 <= M -> 0 <= n ->
  concat ((fun b => zrange (b * K) (Z.min ((b + 1) * K) M)) <$> zrange 0 n) = zrange 0 (Z.min (n * K) M).
Proof.
  intros HK HM Hn. cut (forall k : nat, concat ((fun b => zrange (b * K) (Z.min ((b + 1) * K) M)) <$> zrange 0 (Z.of_nat k)) = zrange 0 (Z.min (Z.of_nat k * K) M)).
  { intros H. specialize (H (Z.to_nat n)). by rewrite Z2Nat.id in H. }
  induction k as [|k IH].
  - change (Z.of_nat 0) with 0. rewrite (zrange_nil 0 0), (zrange_nil 0 (Z.min _ _)) by lia. done.
  - replace (Z.of_nat (S k)) with (Z.of_nat k + 1) by lia. rewrite zrange_snoc, fmap_app, concat_app, IH by lia. cbn [fmap list_fmap concat]. rewrite app_nil_r.
    destruct (Z.le_gt_cases M (Z.of_nat k * K)).
    + rewrite (zrange_nil (Z.of_nat k * K)) by lia. rewrite app_nil_r. f_equal. lia.
    + rewrite (Z.min_l (Z.of_nat k * K)) by lia. symmetry. apply zrange_app. lia.
Qed.

(** Consecutive slices of a list. *)
Lemma slices_concat {A} (l : list A) K n : 0 < K -> 0 <= n ->
  concat ((fun s => take (Z.to_nat (Z.min ((s + 1) * K) (zlen l) - s * K)) (drop (Z.to_nat (s * K)) l)) <$> zrange 0 n) = take (Z.to_nat (n * K)) l.
Proof.
  intros HK Hn. cut (forall k : nat, concat ((fun s => take (Z.to_nat (Z.min ((s + 1) * K) (zlen l) - s * K)) (drop (Z.to_nat (s * K)) l)) <$> zrange 0 (Z.of_nat k))
    = take (Z.to_nat (Z.of_nat k * K)) l).
  { intros H. specialize (H (Z.to_nat n)). by rewrite Z2Nat.id in H. }
  induction k as [|k IH]; [done|]. replace (Z.of_nat (S k)) with (Z.of_nat k + 1) by lia.
  rewrite zrange_snoc, fmap_app, concat_app, IH by lia. cbn [fmap list_fmap concat]. rewrite app_nil_r.
  assert (Hk : 0 <= Z.of_nat k * K) by lia. set (a := Z.of_nat k * K) in *.
  replace (Z.to_nat ((Z.of_nat k + 1) * K)) with (Z.to_nat a + Z.to_nat K)%nat by lia. rewrite <- take_take_drop. f_equal.
  destruct (Z.le_gt_cases (a + K) (zlen l)).
  - f_equal. lia.
  - rewrite !take_ge; [done|rewrite length_drop; unfold zlen in *; lia..].
Qed.

Lemma quot_up n k : 0 <= n -> 0 < k -> Z.quot (n + k - 1) k = (n + k - 1) / k /\ 0 <= (n + k - 1) / k /\ n <= (n + k - 1) / k * k.
Proof.
  intros Hn Hk. rewrite Z.quot_div_nonneg by lia. pose proof (Z.div_pos (n + k - 1) k ltac:(lia) Hk).
  pose proof (Z.mod_pos_bound (n + k - 1) k Hk). pose proof (Z.div_mod (n + k - 1) k ltac:(lia)). split_and!; [done|done|nia].
Qed.

Lemma batchesNone_samples n K B : 0 <= n -> 0 < K -> 0 < B -> exists batches, batchesNone n K B = Ok batches
  /\ concat batches = (fun s => Sample (s * K) (Z.min ((s + 1) * K) n - 1)) <$> zrange 0 (Z.quot (n + K - 1) K)
  /\ Forall (fun batch => zlen batch <= B) batches.
Proof.
  intros Hn HK HB. unfold batchesNone. rewrite (proj2 (Z.eqb_neq K 0)) by lia. eexists. split; [done|].
  destruct (quot_up n K Hn HK) as (E1 & P1 & _). rewrite E1. set (m := (n + K - 1) / K) in *.
  destruct (quot_up m B P1 HB) as (E2 & P2 & U2). rewrite E2. set (q := (m + B - 1) / B) in *. split.
  - transitivity ((fun s => Sample (s * K) (Z.min ((s + 1) * K) n - 1)) <$> concat ((fun b => zrange (b * B) (Z.min ((b + 1) * B) m)) <$> zrange 0 q)).
    + induction (zrange 0 q) as [|x l IH]; [done|]. cbn [fmap list_fmap concat]. by rewrite fmap_app, <- IH.
    + rewrite blocks_concat by lia. by rewrite Z.min_r by lia.
  - apply Forall_fmap. apply Forall_forall. intros b _. cbn [compose]. unfold zlen. rewrite length_fmap, length_zrange. lia.
Qed.

(** * Batches of sentences *)

Section Eos.
Context `{alg : StdAlgo} `{!StdAlgoLaws alg} (K B : Z).

Definition sampleOf (range : Z * Z) : SamplePosition := Sample (fst range) (snd range).

Lemma addSentences_concat dyn ranges batches batch :
  let '(batches', batch') := fold_left (addSentence K B dyn) ranges (batches, batch) in
  concat batches' ++ batch' = concat batches ++ batch ++ (sampleOf <$> ranges).
Proof.
  revert batches batch. induction ranges as [|[a e] ranges IH]; intros batches batch; cbn [fold_left fmap list_fmap]; [by rewrite app_nil_r|].
  cbn [addSentence]. destruct (if dyn then _ else _).
  - specialize (IH (batches ++ [batch ++ [Sample a e]]) []). destruct (fold_left _ ranges _) as [b1 b2]. rewrite IH, concat_app. cbn [concat app].
    rewrite app_nil_r, <- !app_assoc. done.
  - specialize (IH batches (batch ++ [Sample a e])). destruct (fold_left _ ranges _) as [b1 b2]. rewrite IH, <- app_assoc. done.
Qed.

Lemma batchesEos_concat dyn ranges : concat (batchesEos ranges K B dyn) = sampleOf <$> (if dyn then std_sort range_lt ranges else ranges).
Proof.
  unfold batchesEos. cbv zeta. pose proof (addSentences_concat dyn (if dyn then std_sort range_lt ranges else ranges) [] []) as H.
  destruct (fold_left _ _ _) as [b1 b2]. cbn [concat app] in H. rewrite <- H. clear H. destruct b2; [by rewrite app_nil_r|]. rewrite concat_app. cbn [concat]. by rewrite app_nil_r.
Qed.

Lemma range_lt_weak l : strict_weak range_lt l.
Proof. split; unfold range_lt; intros *; rewrite ?Z.ltb_lt, ?Z.ltb_ge; lia. Qed.

(** With a fixed batch size no batch has more samples. *)
Lemma batchesEos_bound ranges : 0 < B -> Forall (fun batch => zlen batch <= B) (batchesEos ranges K B false).
Proof.
  intros HB. unfold batchesEos.
  cut (forall st, Forall (fun batch => zlen batch <= B) st.1 /\ zlen st.2 < B ->
    let st' := fold_left (addSentence K B false) ranges st in Forall (fun batch => zlen batch <= B) st'.1 /\ zlen st'.2 < B).
  { intros H. specialize (H ([], []) (conj (Forall_nil_2 _) HB)). cbv zeta in H. destruct (fold_left _ _ _) as [b1 b2]. cbn in H. destruct H as [H1 H2].
    destruct b2; [done|]. apply Forall_app. split; [done|]. constructor; [lia|done]. }
  induction ranges as [|[a e] ranges IH]; intros [b1 b2] [H1 H2]; [done|]. cbn [fold_left]. apply IH. cbn [addSentence fst snd] in *.
  assert (El : zlen (b2 ++ [Sample a e]) = zlen b2 + 1) by (rewrite zlen_app; done). rewrite El. destruct (Z.eqb_spec (zlen b2 + 1) B); cbn [fst snd].
  - split; [|done]. apply Forall_app. split; [done|]. constructor; [lia|done].
  - split; [done|lia].
Qed.
End Eos.

(** The tokens of the range of a sentence: the sentence between two [<eos>]. *)
Lemma ranges_tokens eos sents data pre : data = pre ++ eos :: layout eos sents ->
  (fun p => take (Z.to_nat (last p - first p + 1)) (drop (Z.to_nat (first p)) data)) <$> (sampleOf <$> rangesFrom (zlen pre) sents)
  = (fun s => eos :: s ++ [eos]) <$> sents.
Proof.
  revert pre. induction sents as [|s sents IH]; intros pre Hd; [done|]. cbn [rangesFrom fmap list_fmap sampleOf fst snd first last].
  assert (EL : layout eos (s :: sents) = s ++ eos :: layout eos sents) by (unfold layout; cbn [fmap list_fmap concat]; by rewrite <- app_assoc).
  rewrite EL in Hd. f_equal.
  - rewrite Hd. replace (Z.to_nat (zlen pre)) with (length pre) by (unfold zlen; lia). rewrite drop_app_length.
    replace (Z.to_nat (zlen pre + zlen s + 1 - zlen pre + 1)) with (length (eos :: s ++ [eos])) by (cbn; rewrite length_app; cbn; unfold zlen; lia).
    replace (eos :: s ++ eos :: layout eos sents) with ((eos :: s ++ [eos]) ++ layout eos sents) by (cbn; by rewrite <- app_assoc). apply take_app_length.
  - specialize (IH (pre ++ eos :: s)). replace (zlen (pre ++ eos :: s)) with (zlen pre + zlen s + 1) in IH by (rewrite zlen_app, zlen_cons; lia).
    apply IH. rewrite Hd, <- app_assoc. done.
Qed.

(** * The dataset *)

Section Dataset.
Context `{alg : StdAlgo} `{!StdAlgoLaws alg} (fs : str -> option str) (dict : dict) (dir filenames : str) (r : reader) (pad eos K B : Z).
Context (parts : list (list str)) (sents : list (list Z)).
Abbreviation files := (split_char (Ascii.ascii_of_nat 44) filenames false).

(** The reader reads [parts] of the files, and their lines map to [sents]. *)
Record readable : Prop := {
  rd_rank : 0 <= rank_ r <= totalReaders_ r;
  rd_pad : getIndex dict kPadToken = Ok pad;
  rd_eos : getIndex dict kEosToken = Ok eos;
  rd_parts : mapM_result (fun f => readPart fs (pathsConcat dir f) (totalReaders_ r) (rank_ r)) files = Ok parts;
  rd_sents : mapM_result (fun l => mapEntriesToIndices dict (tokenize l)) (concat parts) = Ok sents;
  rd_size : zlen (eos :: layout eos sents) <= kMaxTokenInBuffer;
}.

Lemma newTextDataset_read mode dyn : readable -> 0 < B -> exists r',
  newTextDataset fs dir filenames r dict K B mode dyn =
  if bool_decide (mode = lit "none") then
    batches ← batchesNone (zlen (eos :: layout eos sents)) K B; Ok (TextDataset pad (eos :: layout eos sents) batches, r')
  else if bool_decide (mode = lit "eos") then Ok (TextDataset pad (eos :: layout eos sents) (batchesEos (rangesFrom 0 sents) K B dyn), r')
  else Throw InvalidArgument.
Proof.
  intros [R P E Hp Hs Hz] HB. destruct (readFiles_parts fs dict eos dir files r parts sents [eos] [] R Hp Hs Hz eq_refl) as (r' & Er).
  exists r'. unfold newTextDataset. rewrite P, E. cbn [mbind result_bind]. rewrite Er. cbn [mbind result_bind app].
  rewrite (proj2 (Z.leb_gt B 0)) by lia. change (zlen [eos] - 1) with 0. done.
Qed.

Lemma text_none_aux dyn : readable -> 0 < K -> 0 < B -> exists d r',
  newTextDataset fs dir filenames r dict K B (lit "none") dyn = Ok (d, r')
  /\ data_ d = eos :: layout eos sents /\ pad_ d = pad
  /\ concat (tokensOf d <$> concat (batches_ d)) = data_ d
  /\ Forall (fun batch => zlen batch <= B) (batches_ d)
  /\ Forall (fun p => 1 <= sampleLength p <= K) (concat (batches_ d)).
Proof.
  intros Hr HK HB. destruct (newTextDataset_read (lit "none") dyn Hr HB) as (r' & ->). rewrite bool_decide_true by done.
  set (l := eos :: layout eos sents). assert (Hl : 0 < zlen l) by (unfold l; rewrite zlen_cons; pose proof (zlen_nonneg (layout eos sents)); lia).
  destruct (batchesNone_samples (zlen l) K B) as (batches & -> & Ec & Fb); [lia|done|done|]. cbn [mbind result_bind]. eexists _, _. split; [done|].
  cbn [data_ pad_ batches_]. destruct (quot_up (zlen l) K ltac:(lia) HK) as (Eq & Pq & Uq). rewrite Ec, Eq. split_and!; [done|done| |done|].
  - rewrite <- list_fmap_compose. unfold compose, tokensOf, sampleLength. cbn [first last data_].
    rewrite (list_fmap_ext _ (fun s => take (Z.to_nat (Z.min ((s + 1) * K) (zlen l) - s * K)) (drop (Z.to_nat (s * K)) l))).
    + rewrite slices_concat by lia. apply take_ge. unfold zlen in *. lia.
    + intros i s _. do 2 f_equal. lia.
  - apply Forall_fmap, Forall_forall. intros s Hs%elem_of_zrange. unfold compose, sampleLength. cbn [first last].
    assert (s * K < zlen l); [|lia]. pose proof (Z.mul_div_le (zlen l + K - 1) K HK). nia.
Qed.

Lemma text_eos_aux dyn : readable -> 0 < B -> exists d r',
  newTextDataset fs dir filenames r dict K B (lit "eos") dyn = Ok (d, r')
  /\ data_ d = eos :: layout eos sents /\ pad_ d = pad
  /\ tokensOf d <$> concat (batches_ d) ≡ₚ (fun s => eos :: s ++ [eos]) <$> sents
  /\ (dyn = false -> tokensOf d <$> concat (batches_ d) = (fun s => eos :: s ++ [eos]) <$> sents
        /\ Forall (fun batch => zlen batch <= B) (batches_ d)).
Proof.
  intros Hr HB. destruct (newTextDataset_read (lit "eos") dyn Hr HB) as (r' & ->). rewrite bool_decide_false, bool_decide_true by done.
  eexists _, _. split; [done|]. cbn [data_ pad_ batches_]. split_and!; [done|done| |].
  - rewrite batchesEos_concat. unfold tokensOf, sampleLength. cbn [data_]. rewrite <- (ranges_tokens eos sents (eos :: layout eos sents) [] eq_refl).
    destruct dyn; [|done]. rewrite (std_sort_perm range_lt _ (range_lt_weak _)). done.
  - intros ->. split; [|by apply batchesEos_bound]. rewrite batchesEos_concat. unfold tokensOf, sampleLength. cbn [data_].
    apply (ranges_tokens eos sents (eos :: layout eos sents) [] eq_refl).
Qed.
End Dataset.

(** With break mode "none" the samples, in order, are a partition of the
    tokens: concatenated they are the whole text with its [<eos>] separators;
    no sample is empty or longer than [tokensPerSample], no batch larger than
    [batchSize]. *)
Theorem text_none_partition `{alg : StdAlgo} `{!StdAlgoLaws alg} (fs : str -> option str) (dict : dict) (dir filenames : str) (r : reader)
    (pad eos K B : Z) (parts : list (list str)) (sents : list (list Z)) (dyn : bool) :
  readable fs dict dir filenames r pad eos parts sents -> 0 < K -> 0 < B -> exists d r',
  newTextDataset fs dir filenames r dict K B (lit "none") dyn = Ok (d, r')
  /\ data_ d = eos :: layout eos sents /\ pad_ d = pad
  /\ concat (tokensOf d <$> concat (batches_ d)) = data_ d
  /\ Forall (fun batch => zlen batch <= B) (batches_ d)
  /\ Forall (fun p => 1 <= sampleLength p <= K) (concat (batches_ d)).
Proof. apply text_none_aux. Qed.

(** With break mode "eos" every sentence the reader reads is exactly one
    sample, between two [<eos>]; without dynamic batching the samples are in
    the order of the text and no batch has more than [batchSize] of them. *)
Theorem text_eos_sentences `{alg : StdAlgo} `{!StdAlgoLaws alg} (fs : str -> option str) (dict : dict) (dir filenames : str) (r : reader)
    (pad eos K B : Z) (parts : list (list str)) (sents : list (list Z)) (dyn : bool) :
  readable fs dict dir filenames r pad eos parts sents -> 0 < B -> exists d r',
  newTextDataset fs dir filenames r dict K B (lit "eos") dyn = Ok (d, r')
  /\ data_ d = eos :: layout eos sents /\ pad_ d = pad
  /\ tokensOf d <$> concat (batches_ d) ≡ₚ (fun s => eos :: s ++ [eos]) <$> sents
  /\ (dyn = false -> tokensOf d <$> concat (batches_ d) = (fun s => eos :: s ++ [eos]) <$> sents
        /\ Forall (fun batch => zlen batch <= B) (batches_ d)).
Proof. apply text_eos_aux. Qed.

(** ** Rows *)

Definition padded (d : textDataset) (M : Z) (p : SamplePosition) : list Z :=
  tokensOf d p ++ replicate (Z.to_nat (M - sampleLength p)) (pad_ d).

Lemma copyRows d M l k pre :
  0 <= M -> Forall (fun p => zlen (tokensOf d p) = sampleLength p /\ sampleLength p <= M) l -> zlen pre = Z.of_nat k * M ->
  fold_left (fun buffer '(i, p) => copyAt (Z.of_nat i * M) (tokensOf d p) buffer) (imap (fun i p => (k + i, p)%nat) l)
    (pre ++ replicate (length l * Z.to_nat M) (pad_ d)) = pre ++ concat (padded d M <$> l).
Proof.
  intros HM. revert k pre. induction l as [|p l IH]; intros k pre Hl Hp; [done|]. apply Forall_cons in Hl as [[Hz Hle] Hl].
  cbn [imap fold_left fmap list_fmap concat]. rewrite Nat.add_0_r.
  assert (E : copyAt (Z.of_nat k * M) (tokensOf d p) (pre ++ replicate (length (p :: l) * Z.to_nat M) (pad_ d)) =
    (pre ++ padded d M p) ++ replicate (length l * Z.to_nat M) (pad_ d)).
  { unfold copyAt, padded. rewrite <- Hp. replace (Z.to_nat (zlen pre)) with (length pre) by (unfold zlen; lia).
    rewrite take_app_length, <- !app_assoc. do 2 f_equal. rewrite drop_app, drop_ge by lia. cbn [app].
    replace (length pre + length (tokensOf d p) - length pre)%nat with (length (tokensOf d p)) by lia. rewrite drop_replicate, <- replicate_add. f_equal.
    unfold zlen in Hz. cbn [length]. nia. }
  rewrite E. specialize (IH (S k) (pre ++ padded d M p) Hl).
  rewrite (imap_ext _ (fun i p => (S k + i, p)%nat)) by (intros; cbn; f_equal; lia). rewrite IH; [by rewrite <- app_assoc|].
  rewrite zlen_app, Hp. unfold padded. rewrite zlen_app, Hz. unfold zlen. rewrite length_replicate. lia.
Qed.

(** [get] returns, for an index modulo the number of batches, a matrix with a
    column per sample: the tokens of the sample followed by padding up to the
    longest sample of the batch. *)
Theorem get_padded (d : textDataset) (idx : Z) (batch : list SamplePosition) :
  0 <= idx -> batches_ d !! Z.to_nat (idx mod size d) = Some batch ->
  Forall (fun p => 0 <= sampleLength p /\ zlen (tokensOf d p) = sampleLength p) batch ->
  exists M, get d idx = Ok (M, zlen batch, concat (padded d M <$> batch))
    /\ Forall (fun p => sampleLength p <= M /\ zlen (padded d M p) = M) batch
    /\ (M = 0 \/ exists p, p ∈ batch /\ M = sampleLength p).
Proof.
  intros Hi Hb Hl. assert (Hs : size d <> 0).
  { intros E. unfold size, zlen in E. destruct (batches_ d); [by rewrite lookup_nil in Hb|cbn in E; lia]. }
  assert (Hp : 0 < size d) by (pose proof (zlen_nonneg (batches_ d)); unfold size in *; lia).
  set (M := foldl (fun m p => Z.max m (sampleLength p)) 0 batch).
  assert (HM : forall l m, 0 <= m -> m <= foldl (fun m p => Z.max m (sampleLength p)) m l
    /\ Forall (fun p => sampleLength p <= foldl (fun m p => Z.max m (sampleLength p)) m l) l
    /\ (foldl (fun m p => Z.max m (sampleLength p)) m l = m \/ exists p, p ∈ l /\ foldl (fun m p => Z.max m (sampleLength p)) m l = sampleLength p)).
  { induction l as [|p l IH]; intros m Hm; cbn [foldl]; [split_and!; [lia|done|by left]|].
    destruct (IH (Z.max m (sampleLength p))) as (I1 & I2 & I3); [lia|]. split_and!; [lia|constructor; [lia|done]|].
    destruct I3 as [->|(q & Hq & E)]; [|right; exists q; split; [by right|done]].
    destruct (Z.max_spec m (sampleLength p)) as [[_ ->]|[_ ->]]; [right; exists p; split; [by left|done]|by left]. }
  destruct (HM batch 0 ltac:(lia)) as (H0 & H1 & H2). fold M in H0, H1, H2. exists M. split_and!; [|
    apply Forall_forall; intros p Hin; rewrite Forall_forall in H1, Hl; specialize (H1 p Hin); destruct (Hl p Hin) as [? E]; split; [done|];
    unfold padded; rewrite zlen_app, E; unfold zlen; rewrite length_replicate; lia|exact H2].
  unfold get. rewrite (proj2 (Z.eqb_neq _ _)) by done. rewrite Z.rem_mod_nonneg by lia. unfold vec_get.
  pose proof (Z.mod_pos_bound idx (size d) Hp). rewrite decide_True by lia. rewrite Hb. cbn [mbind result_bind]. fold M. do 2 f_equal.
  pose proof (copyRows d M batch 0 [] H0) as Hc. cbn [app] in Hc.
  replace (Z.to_nat (zlen batch * M)) with (length batch * Z.to_nat M)%nat by (unfold zlen; nia). apply Hc; [|done].
  apply Forall_forall. intros p Hin. rewrite Forall_forall in H1, Hl. split; [by apply Hl|by apply H1].
Qed.

(** ** Shuffling *)

Lemma shuffleBatches_perm {A} (rng : nat -> Z) k i (v : list A) : (i < length v)%nat \/ i = 0%nat -> exists v', shuffleBatches rng k i v = Ok v' /\ v' ≡ₚ v.
Proof.
  revert k v. induction i as [|i IH]; intros k v Hi; [by exists v|]. cbn [shuffleBatches].
  assert (Hj : (Z.to_nat (rng k mod Z.of_nat (S (S i))) < length v)%nat).
  { pose proof (Z.mod_pos_bound (rng k) (Z.of_nat (S (S i))) ltac:(lia)). lia. }
  destruct (lookup_lt_is_Some_2 v (S i)) as [x Hx]; [lia|]. destruct (lookup_lt_is_Some_2 v _ Hj) as [y Hy].
  unfold vec_swap. rewrite Hx, Hy. cbn [mbind result_bind].
  destruct (IH (S k) (<[Z.to_nat (rng k mod Z.of_nat (S (S i))) := x]> (<[S i := y]> v))) as (v' & -> & Hp); [rewrite !length_insert; lia|].
  exists v'. split; [done|]. rewrite Hp. by apply Permutation_insert_swap.
Qed.

(** [shuffle] permutes the batches of a dataset that has any, for every
    sequence of random numbers, and keeps its text. *)
Theorem text_shuffle_permutation (rng : nat -> Z) (d : textDataset) : 0 < size d ->
  exists d', shuffle rng d = Ok d' /\ batches_ d' ≡ₚ batches_ d /\ data_ d' = data_ d /\ pad_ d' = pad_ d.
Proof.
  intros Hs. unfold shuffle. rewrite (proj2 (Z.eqb_neq _ _)) by lia.
  destruct (shuffleBatches_perm rng 0 (Z.to_nat (size d - 1)) (batches_ d)) as (v & -> & Hv); [left; unfold size, zlen in *; lia|].
  by exists (TextDataset (pad_ d) (data_ d) v).
Qed.

(** ** A small text *)

Definition tiny_dict : dict :=
  match addEntry empty_dict kPadToken ≫= fun d => addEntry d kEosToken ≫= fun d => addEntry d (lit "a") ≫= fun d => addEntry d (lit "b") with
  | Ok d => d | Throw _ => empty_dict end.
Definition tiny_fs (f : str) : option str := if bool_decide (f = lit "dir/text") then Some (nl_text ["a b"%string; "b"%string; "a a b"%string]) else None.
Definition tiny_reader : reader := Reader 0 1 closed_stream 0.

Lemma tiny_readable : readable tiny_fs tiny_dict (lit "dir") (lit "text") tiny_reader 0 1 [[lit "a b"; lit "b"; lit "a a b"]] [[2; 3]; [3]; [2; 2; 3]].
Proof. split; [split; discriminate|vm_compute; reflexivity..|discriminate]. Qed.

Lemma text_none_partition_witness : exists d r',
  newTextDataset (alg := insertion_algo) tiny_fs (lit "dir") (lit "text") tiny_reader tiny_dict 4 2 (lit "none") false = Ok (d, r')
  /\ concat (tokensOf d <$> concat (batches_ d)) = [1; 2; 3; 1; 3; 1; 2; 2; 3; 1].
Proof.
  destruct (text_none_partition (alg := insertion_algo) tiny_fs tiny_dict (lit "dir") (lit "text") tiny_reader 0 1 4 2 _ _ false tiny_readable)
    as (d & r' & E & Hd & _ & Hc & _); [lia|lia|]. exists d, r'. split; [exact E|]. rewrite Hc, Hd. reflexivity.
Defined.

Lemma text_eos_sentences_witness : exists d r',
  newTextDataset (alg := insertion_algo) tiny_fs (lit "dir") (lit "text") tiny_reader tiny_dict 4 2 (lit "eos") true = Ok (d, r')
  /\ tokensOf d <$> concat (batches_ d) ≡ₚ [[1; 2; 3; 1]; [1; 3; 1]; [1; 2; 2; 3; 1]].
Proof.
  destruct (text_eos_sentences (alg := insertion_algo) tiny_fs tiny_dict (lit "dir") (lit "text") tiny_reader 0 1 4 2 _ _ true tiny_readable)
    as (d & r' & E & _ & _ & Hp & _); [lia|]. exists d, r'. split; [exact E|exact Hp].
Defined.

Definition tiny_batch : textDataset := TextDataset 9 [1; 2; 3; 1; 3; 1] [[Sample 0 3; Sample 3 5]].

Lemma get_padded_witness : exists M, get tiny_batch 5 = Ok (M, 2, concat (padded tiny_batch M <$> [Sample 0 3; Sample 3 5])).
Proof.
  destruct (get_padded tiny_batch 5 [Sample 0 3; Sample 3 5]) as (M & E & _); [lia|reflexivity|repeat constructor; by vm_compute|].
  exists M. exact E.
Defined.
