(* ===== verification/Transcription.v ===== *)
(** From transcripts to training targets and back
    (app/asr/data/Utils.cpp, app/asr/data/FeatureTransforms.cpp and
    app/asr/decoder/TranscriptionUtils).

    [targetFeatures] spells the words of a transcript, maps the tokens to indices,
    surrounds, packs and terminates them; [tknTarget2Ltr] and [tkn2Wrd] recover the
    words.  The numbers of [std::rand] are a state that [rand] advances;
    [samples x] is the comparison of [targetSamplePct] with [x / RAND_MAX]. *)
From S2P Require Import Prelude Strings Dictionary DictUtils.

Open Scope Z_scope.

Definition kCtcCriterion : str := lit "ctc".
Definition kAsgCriterion : str := lit "asg".
Definition kAsrEosToken : str := lit "$".
Definition kBlankToken : str := lit "#".
Definition kSilToken : str := lit "|".
Definition kPadToken : str := lit "<pad>".
Definition kTargetPadValue : Z := -1.
Definition kFeaturesMFSC : str := lit "mfsc".
Definition kFeaturesMFCC : str := lit "mfcc".
Definition kFeaturesPow : str := lit "pow".
Definition kFeaturesRaw : str := lit "raw".

(** * Spelling words *)

Section Spelling.
Context {R : Type} (rand : R -> Z * R) (samples : Z -> bool).

Definition lookupSpelling (spellings : list (list str)) (g : R) : result (list str * R) :=
  let first g := match spellings with s :: _ => Ok (s, g) | [] => Throw Undefined end in
  if (1 <? length spellings)%nat then
    let '(x, g) := rand g in
    if samples x then
      let '(y, g) := rand g in
      s ← vec_get spellings (y mod zlen spellings); Ok (s, g)
    else first g
  else first g.

(** The letters of a word that the lexicon lacks. *)
Fixpoint knownLetters (d : dict) (skipUnk : bool) (tokens : list str) : result (list str) :=
  match tokens with
  | [] => Ok []
  | tkn :: tokens' =>
      if contains d tkn then match knownLetters d skipUnk tokens' with Ok l => Ok (tkn :: l) | Throw e => Throw e end
      else if skipUnk then knownLetters d skipUnk tokens'
      else Throw InvalidArgument
  end.

Definition wrd2Target (lexicon : lexicon_map) (d : dict) (wordSeparator : str) (left right skipUnk : bool) (word : str) (g : R)
    : result (list str * R) :=
  match lexicon !! word with
  | Some spellings => lookupSpelling spellings g
  | None =>
      if left || right then
        tokens ← splitWrd word;
        letters ← knownLetters d skipUnk tokens;
        let sep := match wordSeparator with [] => [] | _ => [wordSeparator] end in
        Ok ((if left then sep else []) ++ letters ++ (if right then sep else []), g)
      else if skipUnk then Ok ([], g)
      else Throw InvalidArgument
  end.

(** The overload for several words. *)
Fixpoint wrds2Target (lexicon : lexicon_map) (d : dict) (wordSeparator : str) (left right skipUnk : bool) (words : list str) (g : R)
    : result (list str * R) :=
  match words with
  | [] => Ok ([], g)
  | w :: words' =>
      match wrd2Target lexicon d wordSeparator left right skipUnk w g with
      | Throw e => Throw e
      | Ok (ts, g) =>
          match wrds2Target lexicon d wordSeparator left right skipUnk words' g with
          | Throw e => Throw e
          | Ok (res, g) => Ok (ts ++ res, g)
          end
      end
  end.

Record TargetGenerationConfig := Config {
  wordSeparator_ : str;
  criterion_ : str;
  surround_ : str;
  eosToken_ : bool;
  replabel_ : Z;
  skipUnk_ : bool;
  fallbackToLetterWordSepLeft_ : bool;
  fallbackToLetterWordSepRight_ : bool;
}.

(** [std::rotate] of the last element to the front. *)
Definition surroundTarget (idx : Z) (tgtVec : list Z) : list Z :=
  let tgtVec := match last tgtVec with
                | None => tgtVec ++ [idx]
                | Some x => if x =? idx then tgtVec else tgtVec ++ [idx]
                end in
  match tgtVec with
  | x :: _ :: _ => if x =? idx then tgtVec else idx :: tgtVec
  | _ => tgtVec
  end.

Definition targetFeatures (tokenDict : dict) (lexicon : lexicon_map) (config : TargetGenerationConfig) (transcript : str) (g : R)
    : result (list Z * R) :=
  let words := splitOnWhitespace transcript true in
  '(target, g) ← wrds2Target lexicon tokenDict (wordSeparator_ config) (fallbackToLetterWordSepLeft_ config)
    (fallbackToLetterWordSepRight_ config) (skipUnk_ config) words g;
  tgtVec ← mapEntriesToIndices tokenDict target;
  tgtVec ← match surround_ config with
           | [] => Ok tgtVec
           | _ => idx ← getIndex tokenDict (surround_ config); Ok (surroundTarget idx tgtVec)
           end;
  tgtVec ← if 0 <? replabel_ config then packReplabels tgtVec tokenDict (replabel_ config) else Ok tgtVec;
  let tgtVec := if bool_decide (criterion_ config = kAsgCriterion) then dedup tgtVec else tgtVec in
  tgtVec ← if eosToken_ config then e ← getIndex tokenDict kAsrEosToken; Ok (tgtVec ++ [e]) else Ok tgtVec;
  Ok (tgtVec, g).

Definition wordFeatures (wrdDict : dict) (transcript : str) : result (list Z) :=
  mapEntriesToIndices wrdDict (splitOnWhitespace transcript true).
End Spelling.

Inductive FeatureType := POW_SPECTRUM | MFSC | MFCC | NONE.

(** The sizes [featParams] gives are arguments. *)
Definition getFeatureType (featuresType : str) (channels powSpecFeatSz mfscFeatSz mfccFeatSz : Z) : result (Z * FeatureType) :=
  if bool_decide (featuresType = kFeaturesPow) then Ok (powSpecFeatSz, POW_SPECTRUM)
  else if bool_decide (featuresType = kFeaturesMFSC) then Ok (mfscFeatSz, MFSC)
  else if bool_decide (featuresType = kFeaturesMFSC) then Ok (mfccFeatSz, MFCC)
  else if bool_decide (featuresType = kFeaturesRaw) then Ok (channels, NONE)
  else Throw RuntimeError.

(** * Recovering words *)

(** Strips one separator at either end. *)
Definition stripEnds (wordSep : str) (l : list str) : list str :=
  match wordSep, l with
  | [], _ | _, [] => l
  | _, x :: l' =>
      let l := if decide (x = wordSep) then l' else l in
      match last l with Some y => if decide (y = wordSep) then removelast l else l | None => l end
  end.

Definition tknIdx2Ltr (labels : list Z) (d : dict) (useWordPiece : bool) (wordSep : str) : result (list str) :=
  parts ← mapM_result (fun id => token ← getEntry d id; if useWordPiece then splitWrd token else Ok [token]) labels;
  Ok (stripEnds wordSep (concat parts)).

(** The loop of [tkn2Wrd] from the word read so far. *)
Fixpoint tkn2WrdLoop (wordSep currentWord : str) (input : list str) : list str :=
  match input with
  | [] => match currentWord with [] => [] | _ => [currentWord] end
  | tkn :: input' =>
      if decide (tkn = wordSep) then
        match currentWord with
        | [] => tkn2WrdLoop wordSep [] input'
        | _ => currentWord :: tkn2WrdLoop wordSep [] input'
        end
      else tkn2WrdLoop wordSep (currentWord ++ tkn) input'
  end.
Definition tkn2Wrd (input : list str) (wordSep : str) : list str := tkn2WrdLoop wordSep [] input.

Definition wrdIdx2Wrd (input : list Z) (wordDict : dict) : result (list str) := mapM_result (getEntry wordDict) input.

(** [while (!labels.empty() && p(labels.back())) labels.pop_back();] *)
Definition popWhile (p : Z -> bool) (labels : list Z) : list Z :=
  rev (let fix go l := match l with x :: l' => if p x then go l' else l | [] => [] end in go (rev labels)).

Definition trimLabels (idx : Z) (labels : list Z) : list Z :=
  let labels := match last labels with Some x => if x =? idx then removelast labels else labels | None => labels end in
  match labels with x :: l => if x =? idx then l else labels | [] => [] end.

Definition remapLabels (labels : list Z) (d : dict) (surround : str) (isSeq2seqCrit : bool) (replabel : Z) : result (list Z) :=
  labels ← if isSeq2seqCrit then
             eosidx ← getIndex d kAsrEosToken;
             padidx ← getIndex d kPadToken;
             Ok (popWhile (fun x => (x =? eosidx) || (x =? padidx)) labels)
           else Ok (popWhile (fun x => x =? kTargetPadValue) labels);
  labels ← if 0 <? replabel then unpackReplabels labels d replabel else Ok labels;
  labels ← if contains d kSilToken then idx ← getIndex d kSilToken; Ok (trimLabels idx labels) else Ok labels;
  match surround with [] => Ok labels | _ => idx ← getIndex d surround; Ok (trimLabels idx labels) end.

Definition tknTarget2Ltr (tokens : list Z) (tokenDict : dict) (surround : str) (isSeq2seqCrit : bool) (replabel : Z)
    (useWordPiece : bool) (wordSep : str) : result (list str) :=
  match last tokens with
  | None => Ok []
  | Some x =>
      tokens ← if isSeq2seqCrit then e ← getIndex tokenDict kAsrEosToken; Ok (if x =? e then removelast tokens else tokens) else Ok tokens;
      tokens ← remapLabels tokens tokenDict surround isSeq2seqCrit replabel;
      tknIdx2Ltr tokens tokenDict useWordPiece wordSep
  end.

(** The in-place compaction of [validateIdx] keeps what passes the test. *)
Definition validateIdx (input : list Z) (unkIdx : Z) : list Z :=
  base.filter (fun x => 0 <= x /\ x <> unkIdx) input.

Definition tknPrediction2Ltr (tokens : list Z) (tokenDict : dict) (criterion surround : str) (isSeq2seqCrit : bool) (replabel : Z)
    (useWordPiece : bool) (wordSep : str) : result (list str) :=
  match tokens with
  | [] => Ok []
  | _ =>
      let tokens := if bool_decide (criterion = kCtcCriterion) || bool_decide (criterion = kAsgCriterion) then dedup tokens else tokens in
      tokens ← if bool_decide (criterion = kCtcCriterion) then
                 blankIdx ← getIndex tokenDict kBlankToken; Ok (base.filter (fun x => x <> blankIdx) tokens)
               else Ok tokens;
      let tokens := validateIdx tokens (-1) in
      tokens ← remapLabels tokens tokenDict surround isSeq2seqCrit replabel;
      tknIdx2Ltr tokens tokenDict useWordPiece wordSep
  end.

Definition tkn2Idx (spelling : list str) (tokenDict : dict) (maxReps : Z) : result (list Z) :=
  ret ← mapM_result (getIndex tokenDict) spelling; packReplabels ret tokenDict maxReps.

(** ** Targets decode to the words they were made from. *)

Open Scope Z_scope.

(** * Words of a token sequence *)

Lemma tkn2WrdLoop_snoc sep cur l : tkn2WrdLoop sep cur (l ++ [sep]) = tkn2WrdLoop sep cur l.
Proof.
  revert cur. induction l as [|t l IH]; intros cur; cbn [app tkn2WrdLoop].
  - rewrite decide_True by done. by destruct cur.
  - rewrite !IH. done.
Qed.

Lemma tkn2Wrd_snoc sep l : tkn2Wrd (l ++ [sep]) sep = tkn2Wrd l sep.
Proof. apply tkn2WrdLoop_snoc. Qed.

Lemma tkn2Wrd_cons sep l : tkn2Wrd (sep :: l) sep = tkn2Wrd l sep.
Proof. unfold tkn2Wrd. cbn [tkn2WrdLoop]. by rewrite decide_True. Qed.

(** Letters followed by a separator are a word. *)
Lemma tkn2WrdLoop_letters sep cur letters l : Forall (fun t => t <> sep) letters -> cur ++ concat letters <> [] ->
  tkn2WrdLoop sep cur (letters ++ sep :: l) = (cur ++ concat letters) :: tkn2WrdLoop sep [] l.
Proof.
  revert cur. induction letters as [|t letters IH]; intros cur Hl Hne; cbn [app tkn2WrdLoop concat] in *.
  - rewrite app_nil_r in *. rewrite decide_True by done. by destruct cur.
  - apply Forall_cons in Hl as [Ht Hl]. rewrite decide_False by done. rewrite IH by (done || by rewrite <- app_assoc). by rewrite <- app_assoc.
Qed.

Lemma removelast_snoc {A} (l : list A) x : removelast (l ++ [x]) = l.
Proof. rewrite removelast_app by done. apply app_nil_r. Qed.

Lemma stripEnds_words sep l : tkn2Wrd (stripEnds sep l) sep = tkn2Wrd l sep.
Proof.
  unfold stripEnds. destruct sep as [|c0 sep0] eqn:E; [done|]. rewrite <- E. clear E. destruct l as [|x l]; [done|].
  set (l1 := if decide (x = sep) then l else x :: l).
  assert (E1 : tkn2Wrd l1 sep = tkn2Wrd (x :: l) sep) by (unfold l1; case_decide; [subst x; by rewrite tkn2Wrd_cons|done]).
  rewrite <- E1. clearbody l1. destruct (last l1) as [y|] eqn:El; [|done]. case_decide; [subst y|done].
  apply last_Some in El as [k ->]. by rewrite removelast_snoc, tkn2Wrd_snoc.
Qed.

(** * Indices of tokens *)

Section Indices.
Context (d : dict) (sep : str).

(** [v] are the indices of the tokens [w]. *)
Definition indexed (P : Z -> Prop) (t : str) (i : Z) : Prop := getIndex d t = Ok i /\ getEntry d i = Ok t /\ P i.
Context (P : Z -> Prop) (k : Z).
Hypothesis Hsep : indexed P sep k.
Abbreviation same w v w' v' := (Forall2 (indexed P) w' v' /\ tkn2Wrd w' sep = tkn2Wrd w sep).

Lemma indexed_sep t : indexed P t k -> t = sep.
Proof. intros (_ & E & _). destruct Hsep as (_ & E' & _). congruence. Qed.

Lemma surroundTarget_words w v : Forall2 (indexed P) w v -> exists w', same w v w' (surroundTarget k v).
Proof.
  intros Hw. unfold surroundTarget.
  assert (H1 : exists w', same w v w' (match last v with None => v ++ [k] | Some x => if x =? k then v else v ++ [k] end)).
  { assert (Ha : exists w', same w v w' (v ++ [k])).
    { exists (w ++ [sep]). split; [apply Forall2_app; [done|by constructor]|apply tkn2Wrd_snoc]. }
    destruct (last v) as [x|]; [|done]. destruct (x =? k); [by exists w|done]. }
  destruct H1 as (w1 & H1 & E1). set (v1 := match last v with None => _ | Some _ => _ end) in *. clearbody v1.
  destruct v1 as [|x [|y v1]]; [by exists w1..|]. destruct (x =? k); [by exists w1|].
  exists (sep :: w1). split; [by constructor|]. by rewrite tkn2Wrd_cons.
Qed.

Lemma trimLabels_words w v : Forall2 (indexed P) w v -> exists w', same w v w' (trimLabels k v).
Proof.
  intros Hw. unfold trimLabels.
  assert (H1 : exists w', same w v w' (match last v with Some x => if x =? k then removelast v else v | None => v end)).
  { destruct (last v) as [x|] eqn:El; [|by exists w]. destruct (Z.eqb_spec x k) as [->|]; [|by exists w]. apply last_Some in El as [v0 ->].
    rewrite removelast_snoc. apply Forall2_app_inv_r in Hw as (w0 & wl & H0 & Hl & ->). apply Forall2_cons_inv_r in Hl as (t & ts & Ht & Hts & ->).
    apply Forall2_nil_inv_r in Hts as ->. apply indexed_sep in Ht as ->. exists w0. split; [done|]. by rewrite tkn2Wrd_snoc. }
  destruct H1 as (w1 & H1 & E1). set (v1 := match last v with Some _ => _ | None => _ end) in *. clearbody v1.
  destruct v1 as [|x v1]; [by exists w1|]. destruct (Z.eqb_spec x k) as [->|]; [|by exists w1].
  apply Forall2_cons_inv_r in H1 as (t & ts & Ht & Hts & ->). apply indexed_sep in Ht as ->. exists ts. split; [done|]. by rewrite <- E1, tkn2Wrd_cons.
Qed.
End Indices.

Lemma popWhile_none p l : Forall (fun x => p x = false) l -> popWhile p l = l.
Proof.
  intros H. unfold popWhile. rewrite <- (rev_involutive l) at 2. f_equal. apply Forall_rev in H. by destruct H as [|x l' ->].
Qed.

Lemma entries_letters d P w v sep : Forall2 (indexed d P) w v -> tknIdx2Ltr v d false sep = Ok (stripEnds sep w).
Proof.
  intros H. unfold tknIdx2Ltr. assert (E : mapM_result (fun id => token ← getEntry d id; Ok [token]) v = Ok ((fun t => [t]) <$> w)).
  { induction H as [|t i w v (_ & Ht & _) _ IH]; [done|]. cbn [mapM_result fmap list_fmap]. by rewrite Ht, IH. }
  rewrite E. cbn [mbind result_bind]. do 2 f_equal. clear. induction w as [|t w IH]; [done|]. cbn. by rewrite IH.
Qed.

(** ** Packed labels have no adjacent repetition *)

Lemma dedup_pack repIdx maxReps prev n tokens : 0 < maxReps -> 0 <= n <= maxReps ->
  (forall m, 1 <= m <= maxReps -> prev <> nth (Z.to_nat m) repIdx 0) ->
  Forall (fun t => forall m, 1 <= m <= maxReps -> t <> nth (Z.to_nat m) repIdx 0) tokens ->
  dedup (prev :: packLoop repIdx maxReps prev n tokens) = prev :: packLoop repIdx maxReps prev n tokens.
Proof.
  intros Hm. revert prev n. induction tokens as [|t tokens IH]; intros prev n Hn Hp Ht; cbn [packLoop].
  - destruct (Z.ltb_spec 0 n); [|done]. cbn [dedup]. rewrite decide_False; [done|]. apply Hp. lia.
  - apply Forall_cons in Ht as [Ht Hts]. destruct (Z.eqb_spec t prev) as [->|Hne], (Z.ltb_spec n maxReps); cbn [andb].
    + apply IH; [lia|done|done].
    + destruct (Z.ltb_spec 0 n); [|lia]. cbn [app]. cbn [dedup]. rewrite decide_False by (apply Hp; lia). f_equal.
      rewrite decide_False by (apply not_eq_sym, Ht; lia). f_equal. apply IH; [lia|done|done].
    + destruct (Z.ltb_spec 0 n); cbn [app].
      * cbn [dedup]. rewrite decide_False by (apply Hp; lia). f_equal. rewrite decide_False by (apply not_eq_sym, Ht; lia). f_equal. apply IH; [lia|done|done].
      * cbn [dedup]. rewrite decide_False by (by apply not_eq_sym). f_equal. apply IH; [lia|done|done].
    + destruct (Z.ltb_spec 0 n); [|lia]. cbn [app dedup]. rewrite decide_False by (apply Hp; lia). f_equal.
      rewrite decide_False by (apply not_eq_sym, Ht; lia). f_equal. apply IH; [lia|done|done].
Qed.

Lemma dedup_packReplabels d maxReps r tokens packed : 0 < maxReps -> replabels_ok d maxReps r ->
  Forall (fun t => t <> -1 /\ forall i, 1 <= i <= maxReps -> t <> r i) tokens ->
  packReplabels tokens d maxReps = Ok packed -> dedup packed = packed.
Proof.
  intros Hm [Hr _] Ht Hp. unfold packReplabels in Hp. destruct tokens as [|t tokens]; [by injection Hp as <-|].
  rewrite (proj2 (Z.leb_gt maxReps 0)) in Hp by lia. rewrite (pack_table d maxReps r 1) in Hp by (intros; apply Hr; lia). injection Hp as <-.
  apply Forall_cons in Ht as [[Ht1 Ht2] Ht]. cbn [packLoop]. rewrite (proj2 (Z.eqb_neq t (-1))) by done. cbn [andb Z.ltb Z.compare app].
  assert (En : forall m, 1 <= m <= maxReps -> nth (Z.to_nat m) (0 :: map r (zrange 1 (maxReps + 1))) 0 = r m).
  { intros m Hm'. destruct (Z.to_nat m) as [|n] eqn:Ek; [lia|]. cbn [nth]. rewrite (nth_indep _ 0 (r 0)) by (rewrite length_map, length_zrange; lia).
    rewrite map_nth. f_equal. apply nth_lookup_Some. rewrite zrange_lookup by lia. f_equal. lia. }
  apply dedup_pack; [done|lia| |].
  - intros m Hm'. rewrite En by done. by apply Ht2.
  - eapply Forall_impl; [exact Ht|]. intros x [_ Hx] m Hm'. rewrite En by done. by apply Hx.
Qed.

(** * Targets *)

Section Target.
Context {R : Type} (rand : R -> Z * R) (samples : Z -> bool) (d : dict) (lexicon : lexicon_map) (cfg : TargetGenerationConfig) (r : Z -> Z) (e pad : Z).
Abbreviation sep := (wordSeparator_ cfg).

(** Indices that a token of a target may have: not padding, not a replabel and,
    with an end token, not that token. *)
Definition plain (i : Z) : Prop :=
  0 <= i /\ (forall m, 1 <= m <= replabel_ cfg -> i <> r m) /\ (eosToken_ cfg = true -> i <> e /\ i <> pad).

(** The configuration and the dictionary fit together. *)
Record consistent (k : Z) : Prop := {
  cs_sep : sep <> [] /\ indexed d plain sep k;
  cs_surround : surround_ cfg = [] \/ surround_ cfg = sep;
  cs_sil : contains d kSilToken = true -> sep = kSilToken;
  cs_rep : 0 < replabel_ cfg -> replabels_ok d (replabel_ cfg) r;
  cs_rep_plain : forall m, 1 <= m <= replabel_ cfg -> 0 <= r m /\ (eosToken_ cfg = true -> r m <> e /\ r m <> pad);
  cs_asg : criterion_ cfg = kAsgCriterion -> 0 < replabel_ cfg;
  cs_eos : eosToken_ cfg = true -> getIndex d kAsrEosToken = Ok e /\ getIndex d kPadToken = Ok pad;
}.

(** A spelling of a word: letters of the dictionary and the separator. *)
Definition spelled (w : str) (s : list str) : Prop :=
  w <> [] /\ exists letters, s = letters ++ [sep] /\ concat letters = w /\ Forall (fun t => t <> sep) letters
    /\ Forall (fun t => exists i, indexed d plain t i) letters.

Context (k : Z).
Hypothesis Hc : consistent k.

Lemma plain_tokens v w : Forall2 (indexed d plain) w v -> Forall (fun t => t <> -1 /\ forall i, 1 <= i <= replabel_ cfg -> t <> r i) v.
Proof.
  intros H. induction H as [|t i w v (_ & _ & P1 & P2 & _) _ IH]; constructor; [|done].
  split; [lia|done].
Qed.

(** What packing produces: tokens and replabels. *)
Lemma packLoop_elements (Q : Z -> Prop) repIdx maxReps prev n tokens : 0 <= n <= maxReps ->
  (forall m, 1 <= m <= maxReps -> Q (nth (Z.to_nat m) repIdx 0)) -> Forall Q tokens -> Forall Q (packLoop repIdx maxReps prev n tokens).
Proof.
  intros Hn Hr Ht. revert prev n Hn. induction Ht as [|t tokens Ht Hts IH]; intros prev n Hn; cbn [packLoop].
  - destruct (Z.ltb_spec 0 n); [constructor; [apply Hr; lia|done]|done].
  - destruct (Z.ltb_spec n maxReps), (Z.ltb_spec 0 n), (t =? prev); cbn [andb app]; try (apply IH; lia);
      repeat (constructor; [try done; apply Hr; lia|]); try (apply IH; lia); constructor; try done; apply IH; lia.
Qed.

(** Labels that are neither padding nor end tokens. *)
Definition unpadded (i : Z) : Prop := 0 <= i /\ (eosToken_ cfg = true -> i <> e /\ i <> pad).

Lemma plain_unpadded v w : Forall2 (indexed d plain) w v -> Forall unpadded v.
Proof. induction 1 as [|t i w v (_ & _ & P1 & _ & P3) _ IH]; constructor; [by split|done]. Qed.

Lemma pack_unpadded v w packed : Forall2 (indexed d plain) w v -> 0 < replabel_ cfg ->
  packReplabels v d (replabel_ cfg) = Ok packed -> Forall unpadded packed.
Proof.
  intros H Hm Hp. pose proof (cs_rep _ Hc Hm) as [Hr _].
  pose proof (plain_unpadded _ _ H) as Hv.
  unfold packReplabels in Hp. destruct v as [|t v]; [by injection Hp as <-|].
  rewrite (proj2 (Z.leb_gt _ _)) in Hp by lia. rewrite (pack_table d _ r 1) in Hp by (intros; apply Hr; lia).
  match type of Hp with Ok ?x = _ => assert (packed = x) as -> by congruence end.
  apply packLoop_elements; [lia| |done]. intros m Hm'. destruct (Z.to_nat m) as [|n] eqn:Ek; [lia|]. cbn [nth].
  rewrite (nth_indep _ 0 (r 0)) by (rewrite length_map, length_zrange; lia). rewrite map_nth.
  replace (nth n (zrange 1 (replabel_ cfg + 1)) 0) with m; [apply (cs_rep_plain _ Hc); lia|].
  symmetry. apply nth_lookup_Some. rewrite zrange_lookup by lia. f_equal. lia.
Qed.

(** The labels of a target: packed, and unpacked by the inverse. *)
Lemma pack_step v w : Forall2 (indexed d plain) w v -> exists q,
  (q ← (if 0 <? replabel_ cfg then packReplabels v d (replabel_ cfg) else Ok v);
   Ok (if bool_decide (criterion_ cfg = kAsgCriterion) then dedup q else q)) = Ok q
  /\ Forall unpadded q /\ (if 0 <? replabel_ cfg then unpackReplabels q d (replabel_ cfg) else Ok q) = Ok v.
Proof.
  intros H. destruct (Z.ltb_spec 0 (replabel_ cfg)) as [Hm|Hm].
  - destruct (unpack_packed d (replabel_ cfg) r v (cs_rep _ Hc Hm) (plain_tokens v w H)) as (q & Hq & Hu). exists q. rewrite Hq. cbn [mbind result_bind].
    split_and!; [|by eapply pack_unpadded|done]. case_bool_decide; [|done]. f_equal.
    by apply (dedup_packReplabels d (replabel_ cfg) r v); [|apply (cs_rep _ Hc)|eapply plain_tokens|].
  - exists v. cbn [mbind result_bind]. split_and!; [|by eapply plain_unpadded|done].
    case_bool_decide as Ha; [|done]. pose proof (cs_asg _ Hc Ha). lia.
Qed.

(** Decoding the labels of a target. *)
Lemma decode_step v w q : Forall2 (indexed d plain) w v -> Forall unpadded q ->
  (if 0 <? replabel_ cfg then unpackReplabels q d (replabel_ cfg) else Ok q) = Ok v ->
  exists w', (labels ← remapLabels q d (surround_ cfg) (eosToken_ cfg) (replabel_ cfg); tknIdx2Ltr labels d false sep) = Ok (stripEnds sep w')
    /\ tkn2Wrd w' sep = tkn2Wrd w sep.
Proof.
  intros Hw Hq Hu. destruct (cs_sep _ Hc) as [Hne Hs]. unfold remapLabels.
  assert (Ep : (if eosToken_ cfg then eosidx ← getIndex d kAsrEosToken; padidx ← getIndex d kPadToken; Ok (popWhile (fun x => (x =? eosidx) || (x =? padidx)) q)
    else Ok (popWhile (fun x => x =? kTargetPadValue) q)) = Ok q).
  { destruct (eosToken_ cfg) eqn:Ee.
    - destruct (cs_eos _ Hc Ee) as [-> ->]. cbn [mbind result_bind]. f_equal. apply popWhile_none. eapply Forall_impl; [exact Hq|]. intros i [_ Hi].
      destruct (Hi Ee). cbv beta. by rewrite !(proj2 (Z.eqb_neq _ _)).
    - f_equal. apply popWhile_none. eapply Forall_impl; [exact Hq|]. intros i [Hi _]. apply Z.eqb_neq. unfold kTargetPadValue. lia. }
  rewrite Ep. cbn [mbind result_bind]. rewrite Hu. cbn [mbind result_bind].
  assert (H1 : exists v1 w1, (if contains d kSilToken then idx ← getIndex d kSilToken; Ok (trimLabels idx v) else Ok v) = Ok v1
    /\ Forall2 (indexed d plain) w1 v1 /\ tkn2Wrd w1 sep = tkn2Wrd w sep).
  { destruct (contains d kSilToken) eqn:Es; [|by exists v, w]. pose proof (cs_sil _ Hc Es) as El. rewrite <- El. destruct Hs as [Hi Hs'].
    rewrite Hi. cbn [mbind result_bind]. destruct (trimLabels_words d sep plain k (conj Hi Hs') w v Hw) as (w1 & H1 & H2). by exists (trimLabels k v), w1. }
  destruct H1 as (v1 & w1 & -> & H1 & E1). cbn [mbind result_bind].
  assert (H2 : exists v2 w2, match surround_ cfg with [] => Ok v1 | _ => idx ← getIndex d (surround_ cfg); Ok (trimLabels idx v1) end = Ok v2
    /\ Forall2 (indexed d plain) w2 v2 /\ tkn2Wrd w2 sep = tkn2Wrd w sep).
  { destruct (cs_surround _ Hc) as [->| ->]; [by exists v1, w1|]. destruct Hs as [Hi Hs'].
    destruct (trimLabels_words d sep plain k (conj Hi Hs') w1 v1 H1) as (w2 & H2 & E2). exists (trimLabels k v1), w2. rewrite E2.
    destruct sep; [done|]. by rewrite Hi. }
  destruct H2 as (v2 & w2 & -> & H2 & E2). cbn [mbind result_bind]. exists w2. split; [|done]. by apply entries_letters with plain.
Qed.

Definition inLexicon (w : str) : Prop := exists ss, lexicon !! w = Some ss /\ ss <> [] /\ Forall (spelled w) ss.

Lemma lookupSpelling_in ss g : ss <> [] -> exists s g', lookupSpelling rand samples ss g = Ok (s, g') /\ s ∈ ss.
Proof.
  intros Hne. unfold lookupSpelling. assert (Hf : forall g : R, exists (s : list str) (g' : R), match ss with s :: _ => Ok (s, g) | [] => Throw Undefined end = Ok (s, g') /\ s ∈ ss).
  { intros g'. destruct ss as [|s ss]; [done|]. exists s, g'. split; [done|by left]. }
  destruct (1 <? length ss)%nat; [|apply Hf]. destruct (rand g) as [x g1]. destruct (samples x); [|apply Hf]. destruct (rand g1) as [y g2].
  assert (Hz : 0 < zlen ss) by (destruct ss; [done|rewrite zlen_cons; pose proof (zlen_nonneg ss); lia]).
  destruct (vec_get_is_Ok ss (y mod zlen ss) (Z.mod_pos_bound y _ Hz)) as [s Hs]. rewrite Hs. cbn [mbind result_bind]. exists s, g2. split; [done|].
  apply vec_get_Ok in Hs as [_ Hs]. by eapply list_elem_of_lookup_2.
Qed.

Lemma wrds_spelled left right skip words g : Forall inLexicon words -> exists ts g',
  wrds2Target rand samples lexicon d sep left right skip words g = Ok (ts, g')
  /\ tkn2Wrd ts sep = words /\ Forall (fun t => exists i, indexed d (plain) t i) ts.
Proof.
  intros Hw. revert g. induction Hw as [|w words (ss & Hl & Hne & Hss) _ IH]; intros g; [by exists [], g|]. cbn [wrds2Target]. unfold wrd2Target. rewrite Hl.
  destruct (lookupSpelling_in ss g Hne) as (s & g1 & -> & Hs). rewrite Forall_forall in Hss. destruct (Hss s Hs) as (Hw0 & letters & -> & Hcat & Hsep & Hidx).
  destruct (IH g1) as (ts & g2 & -> & Hts & Hi). exists ((letters ++ [sep]) ++ ts), g2. split_and!; [done| |].
  - rewrite <- app_assoc. cbn [app]. unfold tkn2Wrd. rewrite tkn2WrdLoop_letters by (done || by rewrite Hcat). cbn [app]. rewrite Hcat. f_equal. exact Hts.
  - apply Forall_app. split; [|done]. apply Forall_app. split; [done|]. constructor; [|done]. exists k. apply (cs_sep _ Hc).
Qed.

Lemma indexed_list ts : Forall (fun t => exists i, indexed d plain t i) ts -> exists v, Forall2 (indexed d plain) ts v /\ mapEntriesToIndices d ts = Ok v.
Proof.
  induction 1 as [|t ts (i & Hi) _ (v & Hv & E)]; [by exists []|]. exists (i :: v). split; [by constructor|]. unfold mapEntriesToIndices in *. cbn [mapM_result].
  destruct Hi as [-> _]. by rewrite E.
Qed.

Lemma targetFeatures_words transcript g : Forall inLexicon (splitOnWhitespace transcript true) -> exists tgt ltrs g',
  targetFeatures rand samples d lexicon cfg transcript g = Ok (tgt, g')
  /\ tknTarget2Ltr tgt d (surround_ cfg) (eosToken_ cfg) (replabel_ cfg) false sep = Ok ltrs
  /\ tkn2Wrd ltrs sep = splitOnWhitespace transcript true.
Proof.
  intros Hw. destruct (wrds_spelled (fallbackToLetterWordSepLeft_ cfg) (fallbackToLetterWordSepRight_ cfg) (skipUnk_ cfg) _ g Hw) as (ts & g' & E & Ew & Hi).
  destruct (indexed_list ts Hi) as (v & Hv & Em). unfold targetFeatures. cbv zeta. rewrite E. cbn [mbind result_bind]. rewrite Em. cbn [mbind result_bind].
  assert (H1 : exists v1 w1, match surround_ cfg with [] => Ok v | _ => idx ← getIndex d (surround_ cfg); Ok (surroundTarget idx v) end = Ok v1
    /\ Forall2 (indexed d plain) w1 v1 /\ tkn2Wrd w1 sep = tkn2Wrd ts sep).
  { destruct (cs_sep _ Hc) as [Hne [Hi0 Hs]]. destruct (cs_surround _ Hc) as [->| ->]; [by exists v, ts|].
    destruct (surroundTarget_words d sep plain k (conj Hi0 Hs) ts v Hv) as (w1 & H1 & E1). exists (surroundTarget k v), w1. rewrite E1. destruct sep; [done|]. by rewrite Hi0. }
  destruct H1 as (v1 & w1 & -> & H1 & E1). cbn [mbind result_bind]. destruct (pack_step v1 w1 H1) as (q & Eq & Hq & Hu).
  destruct (decode_step v1 w1 q H1 Hq Hu) as (w2 & Ed & E2).
  destruct (if 0 <? replabel_ cfg then packReplabels v1 d (replabel_ cfg) else Ok v1) as [q0|]; [|done]. cbn [mbind result_bind] in Eq |- *.
  injection Eq as ->.
  assert (Efin : forall l, tkn2Wrd (stripEnds sep l) sep = tkn2Wrd l sep) by (intros; apply stripEnds_words).
  destruct (eosToken_ cfg) eqn:Ee.
  - destruct (cs_eos _ Hc Ee) as [Eo _]. rewrite Eo. cbn [mbind result_bind]. eexists _, (stripEnds sep w2), _. split_and!; [done| |by rewrite Efin, E2, E1, Ew].
    unfold tknTarget2Ltr. rewrite last_snoc, Eo. cbn [mbind result_bind]. rewrite Z.eqb_refl, removelast_snoc. exact Ed.
  - cbn [mbind result_bind]. destruct (last q) as [x|] eqn:El.
    + eexists _, (stripEnds sep w2), _. split_and!; [done| |by rewrite Efin, E2, E1, Ew]. unfold tknTarget2Ltr. rewrite El. cbn [mbind result_bind]. exact Ed.
    + apply last_None in El as ->. eexists _, [], _. split_and!; [done|done|]. rewrite <- Ew, <- E1.
      assert (v1 = []) as -> by (destruct (0 <? replabel_ cfg); [by injection Hu|by injection Hu]). by apply Forall2_nil_inv_r in H1 as ->.
Qed.
End Target.

(** C22. The training target of a transcript decodes to the words of the
    transcript, when its words are spelled by the lexicon: for every spelling
    the random numbers pick, [tkn2Wrd] of [tknTarget2Ltr] of [targetFeatures]
    is the list of words, with surrounding, replabels and the end token
    undone. *)
Theorem target_roundtrip {R : Type} (rand : R -> Z * R) (samples : Z -> bool) (d : dict) (lexicon : lexicon_map) (cfg : TargetGenerationConfig)
    (r : Z -> Z) (e pad k : Z) (transcript : str) (g : R) :
  consistent d cfg r e pad k -> Forall (inLexicon d lexicon cfg r e pad) (splitOnWhitespace transcript true) ->
  exists tgt ltrs g', targetFeatures rand samples d lexicon cfg transcript g = Ok (tgt, g')
    /\ tknTarget2Ltr tgt d (surround_ cfg) (eosToken_ cfg) (replabel_ cfg) false (wordSeparator_ cfg) = Ok ltrs
    /\ tkn2Wrd ltrs (wordSeparator_ cfg) = splitOnWhitespace transcript true.
Proof. intros Hc. by apply (targetFeatures_words rand samples d lexicon cfg r e pad k Hc). Qed.

Definition asr_dict : dict :=
  match createFromStream true [lit "|"; lit "a"; lit "b"; lit "e"; lit "<1>"; lit "$"; lit "<pad>"] with Ok d => d | Throw _ => empty_dict end.
Definition asr_lexicon : lexicon_map := {[ lit "bee" := [[lit "b"; lit "e"; lit "e"; lit "|"]]; lit "ab" := [[lit "a"; lit "b"; lit "|"]] ]}.
Definition asr_config : TargetGenerationConfig := Config (lit "|") (lit "asg") (lit "|") true 1 false false false.

Lemma asr_consistent : consistent asr_dict asr_config (fun m => 3 + m) 5 6 0.
Proof.
  split; cbn [wordSeparator_ surround_ replabel_ criterion_ eosToken_ asr_config].
  - split; [done|]. split_and!; [by vm_compute|by vm_compute|]. split_and!; [lia|intros; cbn in *; lia|lia].
  - by right.
  - done.
  - intros _. split; [|lia]. intros i Hi. assert (i = 1) as -> by lia. by vm_compute.
  - intros m Hm. lia.
  - lia.
  - intros _. by vm_compute.
Qed.

Lemma target_roundtrip_witness : exists tgt ltrs g',
  targetFeatures (fun g : unit => (0, g)) (fun _ => false) asr_dict asr_lexicon asr_config (lit "ab bee") tt = Ok (tgt, g')
  /\ tknTarget2Ltr tgt asr_dict (lit "|") true 1 false (lit "|") = Ok ltrs
  /\ tkn2Wrd ltrs (lit "|") = splitOnWhitespace (lit "ab bee") true.
Proof.
  apply (target_roundtrip (fun g : unit => (0, g)) (fun _ => false) asr_dict asr_lexicon asr_config (fun m => 3 + m) 5 6 0 (lit "ab bee") tt asr_consistent).
  assert (Hl : forall c i, i ∈ [1; 2; 3] -> getIndex asr_dict (lit c) = Ok i -> getEntry asr_dict i = Ok (lit c) ->
    exists j, indexed asr_dict (plain asr_config (fun m => 3 + m) 5 6) (lit c) j).
  { intros c i Hi H1 H2. exists i. split_and!; [done|done|]. rewrite !elem_of_cons, elem_of_nil in Hi.
    unfold plain. cbn [replabel_ eosToken_ asr_config]. split_and!; intros; lia. }
  change (splitOnWhitespace (lit "ab bee") true) with [lit "ab"; lit "bee"]. constructor; [|constructor; [|constructor]].
  - exists [[lit "a"; lit "b"; lit "|"]]. split_and!; [by vm_compute|done|]. constructor; [|done]. split; [done|].
    exists [lit "a"; lit "b"]. split_and!; [done|done|repeat constructor; done|].
    constructor; [apply (Hl "a"%string 1); [set_solver|by vm_compute|by vm_compute]|constructor; [apply (Hl "b"%string 2); [set_solver|by vm_compute|by vm_compute]|constructor]].
  - exists [[lit "b"; lit "e"; lit "e"; lit "|"]]. split_and!; [by vm_compute|done|]. constructor; [|done]. split; [done|].
    exists [lit "b"; lit "e"; lit "e"]. split_and!; [done|done|repeat constructor; done|].
    repeat (constructor; [first [apply (Hl "b"%string 2); [set_solver|by vm_compute|by vm_compute]|apply (Hl "e"%string 3); [set_solver|by vm_compute|by vm_compute]]|]). constructor.
Defined.

(** The feature type "mfcc" is rejected: its branch tests for "mfsc" again. *)
Theorem getFeatureType_mfcc channels pow mfsc mfcc : getFeatureType kFeaturesMFCC channels pow mfsc mfcc = Throw RuntimeError.
Proof. done. Qed.
