(* ===== verification/ProducerConsumer.v ===== *)
(** * The bounded producer/consumer queue

    [lib/common/ProducerConsumerQueue.h].  Every method of the class holds the
    mutex for its whole body, except inside [condition_variable::wait], so a
    call is one atomic critical section or, when the predicate of its wait is
    false, an atomic decision to sleep.  [add], [get], [finishAdding] and
    [clear] are those sections: functions of the queue that say which threads
    the section notifies.

    [step] is the system the header of the class documents: producer threads
    that add their objects, consumer threads in the loop
    [while (queue.get(obj))], and one call of [finishAdding] once the producers
    have joined.  [notify_one] wakes any one of the threads that wait, and a
    wait may also return spuriously. *)
From S2P Require Import Prelude.

(** What a critical section does to a condition variable. *)
Inductive notify : Type := NoOne | One | All.

Section Queue.
Context {T : Type}.

Record pcq : Type := Pcq {
  queue_ : list T;
  maxSize_ : Z;
  isAddingFinished_ : bool;
}.

Definition ProducerConsumerQueue (maxSize : Z) : pcq := Pcq [] maxSize false.

(** [queue_.size() >= maxSize_]: the [int] is converted to [size_t]. *)
Definition isFull (q : pcq) : bool := u64 (maxSize_ q) <=? Z.of_nat (length (queue_ q)).

Definition isEmpty (q : pcq) : bool := Nat.eqb (length (queue_ q)) 0.

(** The result of a critical section: the thread sleeps on its condition
    variable, or the method returns and notifies producers and consumers. *)
Inductive outcome (A : Type) : Type :=
| Blocked
| Returned (a : A) (q : pcq) (producers consumers : notify).
Arguments Blocked {A}.
Arguments Returned {A}.

Definition add (unit : T) (q : pcq) : outcome () :=
  if negb (negb (isFull q) || isAddingFinished_ q) then Blocked
  else if isAddingFinished_ q then Returned tt q NoOne NoOne
  else
    let q' := Pcq (queue_ q ++ [unit]) (maxSize_ q) (isAddingFinished_ q) in
    Returned tt q' (if negb (isFull q') then One else NoOne) One.

(** [get] returns the object it has moved out, nothing when it returns false. *)
Definition get (q : pcq) : outcome (option T) :=
  if negb (negb (isEmpty q) || isAddingFinished_ q) then Blocked
  else match queue_ q with
       | [] => Returned None q NoOne NoOne
       | unit :: rest =>
           let q' := Pcq rest (maxSize_ q) (isAddingFinished_ q) in
           Returned (Some unit) q' One (if negb (isEmpty q') then One else NoOne)
       end.

Definition finishAdding (q : pcq) : outcome () :=
  Returned tt (Pcq (queue_ q) (maxSize_ q) true) NoOne All.

Fixpoint popAll (l : list T) : list T :=
  match l with [] => [] | _ :: l' => popAll l' end.

Definition clear (q : pcq) : outcome () :=
  Returned tt (Pcq (popAll (queue_ q)) (maxSize_ q) false) All All.

(** ** The threads

    [Ready] threads are about to call the queue, [Waiting] ones sleep on their
    condition variable, [Woken] ones have been notified and compete for the
    mutex; [Exited] consumers have left their loop. *)
Inductive tstate : Type := Ready | Waiting | Woken | Exited.

#[global] Instance tstate_eq_dec : EqDecision tstate.
Proof. solve_decision. Defined.

Definition wake (t : tstate) : tstate := match t with Waiting => Woken | _ => t end.

Definition active (t : tstate) : Prop := t = Ready \/ t = Woken.

Inductive notified : notify -> list tstate -> list tstate -> Prop :=
| notified_no l : notified NoOne l l
| notified_one l i : l !! i = Some Waiting -> notified One l (<[i := Woken]> l)
| notified_lost l : Waiting ∉ l -> notified One l l
| notified_all l : notified All l (wake <$> l).

Record sys : Type := Sys {
  queue : pcq;
  work : list (list T);      (** what each producer has still to add *)
  producers : list tstate;
  consumers : list tstate;
  added : list T;            (** the objects pushed, oldest first *)
  consumed : list T;         (** the objects popped, oldest first *)
}.

(** The steps of the threads.  The index says whether the step is a spurious
    return from a wait.  [protocol] is the condition under which the owner of
    the threads calls [finishAdding]. *)
Inductive step (protocol : sys -> Prop) : bool -> sys -> sys -> Prop :=
| step_add q w ps cs ad co i x xs t q' np nc ps' cs' :
    w !! i = Some (x :: xs) -> ps !! i = Some t -> active t ->
    add x q = Returned tt q' np nc ->
    notified np (<[i := Ready]> ps) ps' -> notified nc cs cs' ->
    step protocol false (Sys q w ps cs ad co)
      (Sys q' (<[i := xs]> w) ps' cs' (if isAddingFinished_ q then ad else ad ++ [x]) co)
| step_add_wait q w ps cs ad co i x xs t :
    w !! i = Some (x :: xs) -> ps !! i = Some t -> active t -> add x q = Blocked ->
    step protocol false (Sys q w ps cs ad co) (Sys q w (<[i := Waiting]> ps) cs ad co)
| step_get q w ps cs ad co j t x q' np nc ps' cs' :
    cs !! j = Some t -> active t -> get q = Returned (Some x) q' np nc ->
    notified np ps ps' -> notified nc (<[j := Ready]> cs) cs' ->
    step protocol false (Sys q w ps cs ad co) (Sys q' w ps' cs' ad (co ++ [x]))
| step_get_end q w ps cs ad co j t q' np nc ps' cs' :
    cs !! j = Some t -> active t -> get q = Returned None q' np nc ->
    notified np ps ps' -> notified nc (<[j := Exited]> cs) cs' ->
    step protocol false (Sys q w ps cs ad co) (Sys q' w ps' cs' ad co)
| step_get_wait q w ps cs ad co j t :
    cs !! j = Some t -> active t -> get q = Blocked ->
    step protocol false (Sys q w ps cs ad co) (Sys q w ps (<[j := Waiting]> cs) ad co)
| step_finish q w ps cs ad co q' np nc ps' cs' :
    protocol (Sys q w ps cs ad co) -> isAddingFinished_ q = false ->
    finishAdding q = Returned tt q' np nc ->
    notified np ps ps' -> notified nc cs cs' ->
    step protocol false (Sys q w ps cs ad co) (Sys q' w ps' cs' ad co)
| step_spurious_producer q w ps cs ad co i :
    ps !! i = Some Waiting ->
    step protocol true (Sys q w ps cs ad co) (Sys q w (<[i := Woken]> ps) cs ad co)
| step_spurious_consumer q w ps cs ad co j :
    cs !! j = Some Waiting ->
    step protocol true (Sys q w ps cs ad co) (Sys q w ps (<[j := Woken]> cs) ad co).

(** A run: the number of its steps and of its spurious wakeups. *)
Inductive run (protocol : sys -> Prop) : nat -> nat -> sys -> sys -> Prop :=
| run_nil s : run protocol 0 0 s s
| run_step n k b s s' s'' :
    run protocol n k s s' -> step protocol b s' s'' ->
    run protocol (S n) (if b then S k else k) s s''.

(** [finishAdding] is called when the producers have joined. *)
Definition joined (s : sys) : Prop := Forall (fun w => w = []) (work s).

Definition start (maxSize : Z) (w : list (list T)) (n : nat) : sys :=
  Sys (ProducerConsumerQueue maxSize) w (replicate (length w) Ready) (replicate n Ready) [] [].

(** Everything has been added and consumed and every thread has come back. *)
Definition complete (w0 : list (list T)) (s : sys) : Prop :=
  joined s /\ Forall (fun t => t = Ready) (producers s) /\ Forall (fun t => t = Exited) (consumers s)
  /\ queue_ (queue s) = [] /\ consumed s = added s /\ Permutation (consumed s) (concat w0).

(** ** Notification *)

Lemma notified_total n l : exists l', notified n l l'.
Proof.
  destruct n; [eauto using notified| |eauto using notified].
  destruct (decide (Waiting ∈ l)) as [[i Hi]%list_elem_of_lookup|]; eauto using notified.
Qed.

(** The threads a notification leaves waiting were waiting before, and when one
    is left by a [notify_one] another one has been woken. *)
Lemma notified_spec n l l' :
  notified n l l' ->
  length l' = length l
  /\ (Waiting ∈ l' -> Waiting ∈ l /\ n <> All /\ (n = One -> Woken ∈ l'))
  /\ (Woken ∈ l -> Woken ∈ l')
  /\ (forall i, l' !! i = l !! i \/ l !! i = Some Waiting /\ l' !! i = Some Woken).
Proof.
  intros [k|k i Hi|k Hk|k].
  - split_and!; [done|naive_solver|done|by left].
  - split_and!.
    + by rewrite length_insert.
    + intros Hw. split_and!; [|done|].
      * apply list_elem_of_lookup_2 with i. done.
      * intros _. apply list_elem_of_lookup. exists i. apply list_lookup_insert_eq. by apply lookup_lt_Some in Hi.
    + intros _. apply list_elem_of_lookup. exists i. apply list_lookup_insert_eq. by apply lookup_lt_Some in Hi.
    + intros j. destruct (decide (i = j)) as [->|Hne].
      * right. rewrite list_lookup_insert_eq; [done|by apply lookup_lt_Some in Hi].
      * left. by rewrite list_lookup_insert_ne.
  - split_and!; [done|naive_solver|done|by left].
  - split_and!.
    + by rewrite length_fmap.
    + intros ([] & Heq & _)%list_elem_of_fmap; discriminate.
    + intros Hw. apply list_elem_of_fmap. by exists Woken.
    + intros i. rewrite list_lookup_fmap. destruct (k !! i) as [[]|]; cbn; auto.
Qed.
End Queue.
Arguments pcq T : clear implicits.
Arguments sys T : clear implicits.
Arguments outcome T A : clear implicits.
Arguments Blocked {T A}.
Arguments Returned {T A}.
