(* ===== verification/ProducerConsumerProofs.v ===== *)
(** * The producer/consumer queue: order, bounds, no lost wakeup, termination *)
From S2P Require Import Prelude ProducerConsumer.

Section Threads.
Implicit Types (l : list tstate).

(** The steps a thread can still take before it sleeps or exits. *)
Definition weight (t : tstate) : nat := match t with Ready | Woken => 2 | Waiting | Exited => 0 end.

Fixpoint weights (l : list tstate) : nat := match l with [] => 0 | t :: l' => weight t + weights l' end.

Lemma weights_insert l i t t' :
  l !! i = Some t -> (weights (<[i := t']> l) + weight t = weights l + weight t')%nat.
Proof.
  revert i. induction l as [|u l IH]; intros [|i] H; try done; simpl in *.
  - injection H as ->. lia.
  - specialize (IH i H). lia.
Qed.

Lemma weights_notified n l l' :
  notified n l l' ->
  (weights l' <= weights l
     + match n with NoOne => 0 | One => 2 | All => 2 * length l end)%nat.
Proof.
  intros [k|k i Hi|k Hk|k]; try lia.
  - pose proof (weights_insert k i Waiting Woken Hi). cbn in *. lia.
  - induction k as [|u k IH]; [done|]. rewrite fmap_cons. cbn [weights length].
    assert (weight (wake u) <= weight u + 2)%nat by (destruct u; cbn; lia). lia.
Qed.

Lemma weights_ready n : weights (replicate n Ready) = (2 * n)%nat.
Proof. induction n as [|n IH]; [done|]. cbn [replicate weights weight]. lia. Qed.

(** A thread that stops waiting without leaving the queue's care. *)
Lemma insert_waiting l i t : Waiting ∈ <[i := t]> l -> t <> Waiting -> Waiting ∈ l.
Proof.
  intros [j Hj]%list_elem_of_lookup Ht. apply list_lookup_insert_Some in Hj.
  destruct Hj as [(-> & -> & _)|[_ Hj]]; [done|]. by eapply list_elem_of_lookup_2.
Qed.

Lemma not_waiting_wake l : Waiting ∉ wake <$> l.
Proof. intros ([] & Heq & _)%list_elem_of_fmap; discriminate. Qed.

Lemma woken_insert l i : (i < length l)%nat -> Woken ∈ <[i := Woken]> l.
Proof. intros Hi. apply list_elem_of_lookup. exists i. by apply list_lookup_insert_eq. Qed.
End Threads.

Section Proofs.
Context {T : Type}.
Implicit Types (q : pcq T) (s : sys T) (w : list (list T)).

Lemma isFull_grow q x : 
  isFull q = false -> Z.of_nat (length (queue_ q ++ [x])) <= u64 (maxSize_ q).
Proof. unfold isFull. rewrite length_app. cbn. lia. Qed.

(** ** The invariant *)

(** Each producer sleeps or has been woken inside a call of [add]. *)
Definition calling w (ps : list tstate) : Prop :=
  length ps = length w /\ forall i t, ps !! i = Some t -> t = Ready \/ ((t = Waiting \/ t = Woken) /\ w !! i <> Some []).

Record pc_inv (m : Z) (w0 : list (list T)) s : Prop := PcInv {
  inv_max : maxSize_ (queue s) = m;
  inv_bound : Z.of_nat (length (queue_ (queue s))) <= u64 m;
  inv_fifo : added s = consumed s ++ queue_ (queue s);
  inv_items : Permutation (added s ++ concat (work s)) (concat w0);
  inv_calling : calling (work s) (producers s);
  inv_finished : isAddingFinished_ (queue s) = true -> joined s /\ Waiting ∉ consumers s;
  inv_producer : Waiting ∈ producers s -> isFull (queue s) = true \/ Woken ∈ producers s;
  inv_consumer : Waiting ∈ consumers s -> queue_ (queue s) = [] \/ Woken ∈ consumers s;
  inv_exited : Exited ∈ consumers s -> isAddingFinished_ (queue s) = true /\ queue_ (queue s) = [];
}.

Lemma pc_inv_start m w0 n : 0 <= u64 m -> pc_inv m w0 (start m w0 n).
Proof.
  intros Hm. split; cbn; try done.
  - split; [by rewrite length_replicate|]. intros i t [-> _]%lookup_replicate. by left.
  - intros H%elem_of_replicate_inv. done.
  - intros H%elem_of_replicate_inv. done.
  - intros H%elem_of_replicate_inv. done.
Qed.

Lemma joined_no_work s i x xs : joined s -> work s !! i = Some (x :: xs) -> False.
Proof. intros Hj Hi. by pose proof (Forall_lookup_1 _ _ _ _ Hj Hi). Qed.

Lemma calling_notified n w ps ps' : calling w ps -> notified n ps ps' -> calling w ps'.
Proof.
  intros [Hl Hc] (Hl' & _ & _ & Hs)%notified_spec. split; [by rewrite Hl'|].
  intros i t Ht. destruct (Hs i) as [E|[E E']].
  - apply Hc. congruence.
  - destruct (Hc i _ E) as [|[_ Hw]]; [done|]. assert (t = Woken) as -> by congruence. eauto.
Qed.

Lemma calling_insert w ps i t xs v :
  calling w ps -> w !! i = Some xs -> (t = Ready \/ ((t = Waiting \/ t = Woken) /\ v <> [])) ->
  calling (<[i := v]> w) (<[i := t]> ps).
Proof.
  intros [Hl Hc] Hi Ht. split; [by rewrite !length_insert|].
  intros j u Hj. apply list_lookup_insert_Some in Hj. destruct Hj as [(-> & -> & Hlt)|[Hne Hj]].
  - rewrite list_lookup_insert_eq by lia. naive_solver.
  - rewrite list_lookup_insert_ne by done. auto.
Qed.

Lemma concat_insert w i x xs :
  w !! i = Some (x :: xs) -> Permutation (concat w) (x :: concat (<[i := xs]> w)).
Proof.
  revert i. induction w as [|v w IH]; intros [|i] H; try done; cbn in *.
  - by simplify_eq.
  - rewrite (IH i H). by rewrite Permutation_middle.
Qed.

(** A notified list without waiting threads, or with a woken one. *)
Lemma notified_one_wakes l l' : notified One l l' -> Waiting ∈ l' -> Woken ∈ l'.
Proof. intros (_ & H & _)%notified_spec Hw. by apply H. Qed.

Lemma notified_waiting n l l' : notified n l l' -> Waiting ∈ l' -> Waiting ∈ l.
Proof. intros (_ & H & _)%notified_spec Hw. by apply H. Qed.

Lemma notified_exited n l l' : notified n l l' -> Exited ∈ l' -> Exited ∈ l.
Proof.
  intros (_ & _ & _ & H)%notified_spec [i Hi]%list_elem_of_lookup. 
  destruct (H i) as [E|[_ E]]; [|congruence]. apply list_elem_of_lookup_2 with i. congruence.
Qed.

(** ** What the critical sections do *)

Lemma add_returned x q q' np nc :
  add x q = Returned tt q' np nc ->
  isAddingFinished_ q = true /\ q' = q /\ np = NoOne /\ nc = NoOne
  \/ isAddingFinished_ q = false /\ isFull q = false /\ q' = Pcq (queue_ q ++ [x]) (maxSize_ q) false
     /\ np = (if isFull q' then NoOne else One) /\ nc = One.
Proof.
  unfold add. destruct (isAddingFinished_ q) eqn:Ef; rewrite ?orb_true_r, ?orb_false_r; cbn.
  - naive_solver.
  - destruct (isFull q); cbn; [done|]. intros [= <- <- <-]. right. split_and!; try done.
    by destruct (isFull _).
Qed.

Lemma add_blocked x q : add x q = Blocked <-> isFull q = true /\ isAddingFinished_ q = false.
Proof. unfold add. destruct (isFull q), (isAddingFinished_ q); cbn; naive_solver. Qed.

Lemma get_some q x q' np nc :
  get q = Returned (Some x) q' np nc ->
  queue_ q = x :: queue_ q' /\ maxSize_ q' = maxSize_ q /\ isAddingFinished_ q' = isAddingFinished_ q
  /\ np = One /\ nc = match queue_ q' with [] => NoOne | _ => One end.
Proof.
  unfold get, isEmpty. destruct (queue_ q) as [|y l] eqn:E; cbn.
  - by destruct (isAddingFinished_ q).
  - intros [= <- <- <- <-]. cbn. split_and!; try done. by destruct l.
Qed.

Lemma get_none q q' np nc :
  get q = Returned None q' np nc ->
  queue_ q = [] /\ isAddingFinished_ q = true /\ q' = q /\ np = NoOne /\ nc = NoOne.
Proof.
  unfold get, isEmpty. destruct (queue_ q) as [|y l] eqn:E; cbn; [|done].
  destruct (isAddingFinished_ q); cbn; [naive_solver|done].
Qed.

Lemma get_blocked q : get q = Blocked <-> queue_ q = [] /\ isAddingFinished_ q = false.
Proof. unfold get, isEmpty. destruct (queue_ q), (isAddingFinished_ q); cbn; naive_solver. Qed.

(** ** Preservation, one lemma per kind of step *)

Lemma inv_step_add m w0 q w ps cs ad co i x xs t q' np nc ps' cs' :
  pc_inv m w0 (Sys q w ps cs ad co) -> w !! i = Some (x :: xs) -> ps !! i = Some t ->
  add x q = Returned tt q' np nc -> notified np (<[i := Ready]> ps) ps' -> notified nc cs cs' ->
  pc_inv m w0 (Sys q' (<[i := xs]> w) ps' cs' (if isAddingFinished_ q then ad else ad ++ [x]) co).
Proof.
  intros [Hm Hb Hff Hit Hc Hfin Hp Hcn Hex] Hw Hps Ha Hnp Hnc; cbn in *.
  destruct (add_returned _ _ _ _ _ Ha) as [(Ef & _)|(Ef & Hnf & -> & Enp & ->)].
  { exfalso. destruct (Hfin Ef) as [Hj _]. eapply joined_no_work; [apply Hj|done]. }
  rewrite Ef. split; cbn in *; try done.
  - pose proof (isFull_grow q x Hnf). congruence.
  - by rewrite Hff, (assoc_L (++)).
  - rewrite <- Hit, (concat_insert w i x xs Hw), <- (assoc_L (++)). done.
  - eapply calling_notified; [|done]. eapply calling_insert; eauto.
  - intros Hwt. destruct (isFull (Pcq _ _ _)) eqn:Efull; [by left|]. right. subst np. eapply notified_one_wakes; [exact Hnp|done].
  - intros Hwt. right. by eapply notified_one_wakes.
  - intros Hx. destruct (Hex (notified_exited _ _ _ Hnc Hx)). congruence.
Qed.

Lemma inv_step_get m w0 q w ps cs ad co j t x q' np nc ps' cs' :
  pc_inv m w0 (Sys q w ps cs ad co) -> cs !! j = Some t ->
  get q = Returned (Some x) q' np nc -> notified np ps ps' -> notified nc (<[j := Ready]> cs) cs' ->
  pc_inv m w0 (Sys q' w ps' cs' ad (co ++ [x])).
Proof.
  intros [Hm Hb Hff Hit Hc Hfin Hp Hcn Hex] Hj Hg Hnp Hnc; cbn in *.
  destruct (get_some _ _ _ _ _ Hg) as (Eq & Em & Ef & -> & ->).
  rewrite Eq in Hb, Hff. cbn in Hb. split; cbn; try done.
  - congruence.
  - lia.
  - rewrite Hff. by rewrite <- (assoc_L (++)).
  - by eapply calling_notified.
  - rewrite Ef. intros Hf. destruct (Hfin Hf) as [Hjn Hnw]. split; [done|].
    intros Hw. apply Hnw. eapply insert_waiting; [by eapply notified_waiting|done].
  - intros Hw. right. by eapply notified_one_wakes.
  - intros Hw. destruct (queue_ q'); [by left|]. right. by eapply notified_one_wakes.
  - intros Hx%(notified_exited _ _ _ Hnc). exfalso.
    apply list_elem_of_lookup in Hx as [k Hk]. apply list_lookup_insert_Some in Hk as [(_ & ? & _)|[_ Hk]]; [done|].
    destruct (Hex (list_elem_of_lookup_2 _ _ _ Hk)). congruence.
Qed.

Lemma inv_step_wait m w0 q w ps cs ad co ps' cs' :
  pc_inv m w0 (Sys q w ps cs ad co) -> calling w ps' ->
  (Waiting ∈ ps' -> isFull q = true \/ Woken ∈ ps') ->
  (Waiting ∈ cs' -> isAddingFinished_ q = false /\ (queue_ q = [] \/ Woken ∈ cs')) ->
  (Exited ∈ cs' -> isAddingFinished_ q = true /\ queue_ q = []) ->
  pc_inv m w0 (Sys q w ps' cs' ad co).
Proof.
  intros [Hm Hb Hff Hit Hc Hfin Hp Hcn Hex] Hc' Hp' Hcs' Hex'. split; cbn in *; try done.
  - intros Hf. split; [by apply Hfin|]. intros [Hf' _]%Hcs'. congruence.
  - intros [_ ?]%Hcs'. done.
Qed.

Lemma inv_step_finish m w0 q w ps cs ad co :
  pc_inv m w0 (Sys q w ps cs ad co) -> joined (Sys q w ps cs ad co) -> isAddingFinished_ q = false ->
  pc_inv m w0 (Sys (Pcq (queue_ q) (maxSize_ q) true) w ps (wake <$> cs) ad co).
Proof.
  intros [Hm Hb Hff Hit Hc Hfin Hp Hcn Hex] Hj Hf. split; cbn in *; try done.
  - intros _. split; [done|]. apply not_waiting_wake.
  - by intros []%not_waiting_wake.
  - intros ([] & Ht & Hx)%list_elem_of_fmap; try discriminate. destruct (Hex Hx). congruence.
Qed.

Lemma waiting_insert (l : list tstate) i t :
  (Waiting ∈ l -> Woken ∈ l) -> l !! i = Some t -> t <> Woken -> Waiting ∈ <[i := t]> l -> Woken ∈ <[i := t]> l.
Proof. intros H Hi Ht. rewrite list_insert_id; auto. Qed.

Lemma exited_insert (l : list tstate) i t : Exited ∈ <[i := t]> l -> t <> Exited -> Exited ∈ l.
Proof.
  intros [j Hj]%list_elem_of_lookup Ht. apply list_lookup_insert_Some in Hj.
  destruct Hj as [(-> & -> & _)|[_ Hj]]; [done|]. by eapply list_elem_of_lookup_2.
Qed.

Lemma calling_same w ps i xs t :
  calling w ps -> w !! i = Some xs -> (t = Ready \/ ((t = Waiting \/ t = Woken) /\ xs <> [])) ->
  calling w (<[i := t]> ps).
Proof. intros Hc Hi Ht. rewrite <- (list_insert_id w i xs Hi). eapply calling_insert; eauto. Qed.

Lemma calling_waiting w ps i :
  calling w ps -> ps !! i = Some Waiting -> exists x xs, w !! i = Some (x :: xs).
Proof.
  intros [Hl Hc] Hi. destruct (Hc i _ Hi) as [|[_ Hw]]; [done|].
  destruct (w !! i) as [[|x xs]|] eqn:E; [done|by eauto|].
  apply lookup_ge_None in E. apply lookup_lt_Some in Hi. lia.
Qed.

Lemma pc_inv_step m w0 b s s' : pc_inv m w0 s -> step joined b s s' -> pc_inv m w0 s'.
Proof.
  intros Hinv Hs. destruct Hs as
    [q w ps cs ad co i x xs t q' np nc ps' cs' Hw Hps Ht Ha Hnp Hnc
    |q w ps cs ad co i x xs t Hw Hps Ht [Hfull Hf]%add_blocked
    |q w ps cs ad co j t x q' np nc ps' cs' Hj Ht Hg Hnp Hnc
    |q w ps cs ad co j t q' np nc ps' cs' Hj Ht (Hq & Hf & -> & -> & ->)%get_none Hnp Hnc
    |q w ps cs ad co j t Hj Ht [Hq Hf]%get_blocked
    |q w ps cs ad co q' np nc ps' cs' Hjn Hf [= <- <- <-] Hnp Hnc
    |q w ps cs ad co i Hi|q w ps cs ad co j Hj].
  - by eapply inv_step_add.
  - pose proof Hinv as []. eapply inv_step_wait; [done|..]; cbn in *.
    + eapply calling_same; [done..|]. eauto.
    + by left.
    + intros Hw'. eauto.
    + done.
  - by eapply inv_step_get.
  - inv Hnp. inv Hnc. pose proof Hinv as []. eapply inv_step_wait; [done|..]; cbn in *; [done|done| |done].
    intros Hw'%insert_waiting; [|done]. destruct inv_finished0; done.
  - pose proof Hinv as []. eapply inv_step_wait; [done|..]; cbn in *; [done|done|by auto|].
    intros ?%exited_insert; [|done]. auto.
  - inv Hnp. inv Hnc. by apply inv_step_finish.
  - pose proof Hinv as []. eapply inv_step_wait; [done|..]; cbn in *; [| |intros Hw; split; [destruct (isAddingFinished_ q); [by destruct inv_finished0|done]|by auto]|done].
    + destruct (calling_waiting _ _ _ inv_calling0 Hi) as (x & xs & Hx). eapply calling_same; [done..|]. eauto.
    + right. apply woken_insert. by apply lookup_lt_Some in Hi.
  - pose proof Hinv as []. eapply inv_step_wait; [done|..]; cbn in *; [done|done| |].
    + intros Hw'%insert_waiting; [|done]. split; [|right; apply woken_insert; by apply lookup_lt_Some in Hj].
      destruct (isAddingFinished_ q); [|done]. by destruct inv_finished0.
    + intros ?%exited_insert; [|done]. auto.
Qed.

(** ** Termination *)

(** The measure of a state: an object still to be added costs an add and a get,
    an object in the queue a get, a thread that holds its processor one
    decision to sleep or exit, and [finishAdding] one wakeup per consumer. *)
Definition measure s : nat :=
  5 * (2 * length (concat (work s)) + length (queue_ (queue s))) + weights (producers s) + weights (consumers s)
  + (if isAddingFinished_ (queue s) then 0 else 2 * length (consumers s) + 1).

Lemma notified_length n l l' : notified n l l' -> length l' = length l.
Proof. by intros []%notified_spec. Qed.

Lemma active_weight t : active t -> weight t = 2%nat.
Proof. by intros [->| ->]. Qed.

Lemma step_measure protocol b s s' :
  step protocol b s s' -> (measure s' < (if b then measure s + 3 else measure s))%nat.
Proof.
  intros Hs. destruct Hs as
    [q w ps cs ad co i x xs t q' np nc ps' cs' Hw Hps Ht Ha Hnp Hnc
    |q w ps cs ad co i x xs t Hw Hps Ht _
    |q w ps cs ad co j t x q' np nc ps' cs' Hj Ht (Eq & _ & Ef & -> & ->)%get_some Hnp Hnc
    |q w ps cs ad co j t q' np nc ps' cs' Hj Ht (Hq & Hf & -> & -> & ->)%get_none Hnp Hnc
    |q w ps cs ad co j t Hj Ht _
    |q w ps cs ad co q' np nc ps' cs' Hjn Hf [= <- <- <-] Hnp Hnc
    |q w ps cs ad co i Hi|q w ps cs ad co j Hj]; unfold measure; cbn [work queue producers consumers].
  - pose proof (Permutation_length (concat_insert w i x xs Hw)) as Hl. cbn [length] in Hl.
    pose proof (weights_notified _ _ _ Hnp). pose proof (weights_notified _ _ _ Hnc).
    pose proof (weights_insert ps i t Ready Hps). rewrite (active_weight t Ht) in *. cbn [weight] in *.
    rewrite (notified_length _ _ _ Hnc).
    destruct (add_returned _ _ _ _ _ Ha) as [(Ef & -> & -> & ->)|(Ef & _ & -> & Enp & ->)].
    + lia.
    + cbn [isAddingFinished_ queue_ maxSize_] in *. rewrite Ef, length_app. cbn [length].
      destruct (isFull _); subst np; lia.
  - pose proof (weights_insert ps i t Waiting Hps). rewrite (active_weight t Ht) in *. cbn [weight] in *. lia.
  - pose proof (weights_notified _ _ _ Hnp). pose proof (weights_notified _ _ _ Hnc).
    pose proof (weights_insert cs j t Ready Hj). rewrite (active_weight t Ht) in *. cbn [weight] in *.
    rewrite (notified_length _ _ _ Hnc), length_insert, Ef, Eq. cbn [length]. destruct (queue_ q'); lia.
  - inv Hnp. inv Hnc. rewrite length_insert.
    pose proof (weights_insert cs j t Exited Hj). rewrite (active_weight t Ht) in *. cbn [weight] in *. lia.
  - rewrite length_insert.
    pose proof (weights_insert cs j t Waiting Hj). rewrite (active_weight t Ht) in *. cbn [weight] in *. lia.
  - inv Hnp. pose proof (weights_notified _ _ _ Hnc) as H. cbv iota in H. cbn [isAddingFinished_ queue_]. rewrite Hf. lia.
  - pose proof (weights_insert ps i _ Woken Hi). cbn [weight] in *. lia.
  - rewrite length_insert. pose proof (weights_insert cs j _ Woken Hj). cbn [weight] in *. lia.
Qed.

Lemma run_measure protocol n k s s' :
  run protocol n k s s' -> (n + measure s' <= measure s + 3 * k)%nat.
Proof.
  induction 1 as [|n k b s s' s'' _ IH Hs%step_measure]; [lia|]. destruct b; lia.
Qed.

(** ** Progress *)

Lemma step_add_total protocol s i x xs t :
  work s !! i = Some (x :: xs) -> producers s !! i = Some t -> active t -> exists s', step protocol false s s'.
Proof.
  destruct s as [q w ps cs ad co]. cbn. intros Hw Hp Ht.
  destruct (add x q) as [|[] q' np nc] eqn:E; [eauto using @step|].
  destruct (notified_total np (<[i := Ready]> ps)) as [ps' Hps']. destruct (notified_total nc cs) as [cs' Hcs'].
  eauto using @step.
Qed.

Lemma step_get_total protocol s j t :
  consumers s !! j = Some t -> active t -> exists s', step protocol false s s'.
Proof.
  destruct s as [q w ps cs ad co]. cbn. intros Hj Ht.
  destruct (get q) as [|[x|] q' np nc] eqn:E; [eauto using @step| |];
    destruct (notified_total np ps) as [ps' Hps'].
  - destruct (notified_total nc (<[j := Ready]> cs)) as [cs' Hcs']. eauto using @step.
  - destruct (notified_total nc (<[j := Exited]> cs)) as [cs' Hcs']. eauto using @step.
Qed.

(** A state without an active thread. *)
Lemma calling_active w ps :
  calling w ps -> ~ Forall (fun v => v = []) w ->
  exists i x xs t, w !! i = Some (x :: xs) /\ ps !! i = Some t /\ (active t \/ t = Waiting).
Proof.
  intros [Hl Hc] Hn. apply not_Forall_Exists in Hn; [|intros []; [by left|by right]].
  apply Exists_exists in Hn as (v & [i Hi]%list_elem_of_lookup & Hv).
  destruct v as [|x xs]; [by destruct Hv|]. destruct (lookup_lt_is_Some_2 ps i) as [t Ht].
  { rewrite Hl. by apply lookup_lt_Some in Hi. }
  exists i, x, xs, t. split_and!; [done|done|]. unfold active. destruct (Hc i t Ht) as [->|[[->| ->] _]]; auto.
Qed.

Lemma consumers_active (cs : list tstate) :
  (exists j t, cs !! j = Some t /\ active t) \/ Forall (fun t => t = Waiting \/ t = Exited) cs.
Proof.
  induction cs as [|t cs [(j & u & Hj & Hu)|IH]]; [by right|left; by exists (S j), u|].
  destruct t; [left; exists 0%nat; eexists; split; [done|by left]|right|left; exists 0%nat; eexists; split; [done|by right]|right];
    constructor; auto.
Qed.

Lemma pc_progress m w0 s :
  0 < u64 m -> pc_inv m w0 s -> consumers s <> [] ->
  complete w0 s \/ exists s', step joined false s s'.
Proof.
  intros Hm Hinv Hne. pose proof Hinv as [Hmax Hb Hff Hit Hc Hfin Hp Hcn Hex].
  destruct (consumers_active (consumers s)) as [(j & t & Hj & Ht)|Hcs]; [right; by eapply step_get_total|].
  destruct (decide (Forall (fun v => v = []) (work s))) as [Hj|Hnj]; [|right].
  - destruct (isAddingFinished_ (queue s)) eqn:Ef.
    + left. destruct (Hfin eq_refl) as [_ Hnw].
      assert (Forall (fun t => t = Exited) (consumers s)) as Hall.
      { rewrite Forall_forall in Hcs |- *. intros t Ht. destruct (Hcs t Ht) as [->|]; [done|done]. }
      destruct (consumers s) as [|t cs] eqn:Ecs; [done|]. inv Hall.
      destruct Hex as [_ Hq]; [left|].
      assert (concat (work s) = []) as Hcc by (clear -Hj; induction Hj as [|? ? -> _ IH]; done).
      rewrite Hcc, app_nil_r in Hit. rewrite Hq, app_nil_r in Hff.
      split_and!; [done| |rewrite Ecs; by constructor|done|done|by rewrite <- Hff].
      destruct Hc as [Hl Hc]. apply Forall_lookup. intros i u Hu. destruct (Hc i u Hu) as [|[_ Hwi]]; [done|].
      destruct Hwi. destruct (lookup_lt_is_Some_2 (work s) i) as [v Hv]; [rewrite <- Hl; by apply lookup_lt_Some in Hu|].
      by rewrite Hv, (Forall_lookup_1 _ _ _ _ Hj Hv).
    + right. destruct s as [q w ps cs ad co]. cbn in *.
      eexists. eapply step_finish; [exact Hj|done|reflexivity|constructor|constructor].
  - destruct (calling_active _ _ Hc Hnj) as (i & x & xs & t & Hw & Hpi & [Ht| ->]); [by eapply step_add_total|].
    destruct (decide (Woken ∈ producers s)) as [[k Hk]%list_elem_of_lookup|Hnw].
    { destruct Hc as [Hl Hc]. destruct (Hc k _ Hk) as [|[_ Hwk]]; [done|].
      destruct (lookup_lt_is_Some_2 (work s) k) as [[|y ys] Hv];
        [rewrite <- Hl; by apply lookup_lt_Some in Hk|congruence|].
      eapply step_add_total; [done|done|by right]. }
    exfalso. destruct Hp as [Hfull|]; [by eapply list_elem_of_lookup_2| |done].
    assert (queue_ (queue s) <> []) as Hq.
    { intros Hq. unfold isFull in Hfull. rewrite Hq, Hmax in Hfull. apply Z.leb_le in Hfull. change (Z.of_nat (length [])) with 0 in Hfull. lia. }
    destruct (consumers s) as [|t cs] eqn:Ecs; [done|]. inv Hcs. destruct H1 as [->| ->].
    + destruct Hcn as [|Hwk]; [left|done|]. rewrite Forall_forall in H2.
      apply elem_of_cons in Hwk as [|Hwk]; [done|]. destruct (H2 _ Hwk); done.
    + destruct Hex as [_ ?]; [left|done].
Qed.

Lemma run_inv m w0 n n' k s :
  run joined n' k (start m w0 n) s -> 0 <= u64 m ->
  pc_inv m w0 s /\ length (consumers s) = n.
Proof.
  intros Hr Hm. remember (start m w0 n) as s0 eqn:E. induction Hr as [|n' k b s s' s'' _ IH Hs]; subst.
  - split; [by apply pc_inv_start|apply length_replicate].
  - destruct (IH eq_refl) as [Hi Hl]. split; [by eapply pc_inv_step|].
    destruct Hs; cbn in *; rewrite <- ?length_insert; repeat match goal with H : notified _ _ _ |- _ => apply notified_length in H end;
      rewrite ?length_insert in *; try congruence.
Qed.
End Proofs.

(** * Theorems *)

Ltac not_waiting := cbn; let H := fresh in intros H; repeat apply elem_of_cons in H as [H|H];
  first [discriminate|by apply elem_of_nil in H].

(** C4. The documented protocol terminates and loses nothing. With a queue of
    at least one place and at least one consumer, and [finishAdding] called
    once the producers have joined: every run takes a number of steps that is
    bounded by its start and by the number of spurious wakeups in it, and a
    state it can reach either is the end, in which every producer has
    returned, every consumer has left its loop, the queue is empty and every
    object has been consumed once, in the order in which it was added, or some
    thread can take a step that is not a spurious wakeup. *)
Theorem queue_completes {T} (m : Z) (w0 : list (list T)) (c n k : nat) (s : sys T) :
  1 <= m < 2 ^ 31 -> (1 <= c)%nat -> run joined n k (start m w0 c) s ->
  (n <= 10 * length (concat w0) + 2 * length w0 + 4 * c + 1 + 3 * k)%nat
  /\ (complete w0 s \/ exists s', step joined false s s').
Proof.
  intros Hm Hc Hr. assert (u64 m = m) as Hu by (apply Z.mod_small; lia). split.
  - pose proof (run_measure _ _ _ _ _ Hr) as H. unfold measure in H at 2. cbn [start work queue producers consumers] in H.
    rewrite !weights_ready, !length_replicate in H. cbn in H. lia.
  - destruct (run_inv _ _ _ _ _ _ Hr) as [Hi Hl]; [lia|]. eapply pc_progress; [|done|]; [lia|].
    intros Hn. rewrite Hn in Hl. cbn in Hl. lia.
Qed.

(** Two producers and one consumer on a queue of one place: the end of a run. *)
Definition one_place : sys Z := Sys (Pcq [1] 1 false) [[]; [2]] [Ready; Waiting] [Ready] [1] [].

Lemma one_place_run : run joined 2 0 (start 1 [[1]; [2]] 1) one_place.
Proof.
  eapply (run_step joined 1 0 false).
  - eapply (run_step joined 0 0 false); [apply run_nil|].
    eapply (step_add joined _ _ _ _ _ _ 0%nat 1 []); [reflexivity|reflexivity|by left|reflexivity| |].
    + apply notified_no.
    + apply notified_lost. not_waiting.
  - eapply (step_add_wait joined _ _ [Ready; Ready] _ _ _ 1%nat 2 []); [reflexivity|reflexivity|by left|reflexivity].
Qed.

Lemma queue_completes_witness :
  run joined 2 0 (start 1 [[1]; [2]] 1) one_place
  /\ (complete [[1]; [2]] one_place \/ exists s', step joined false one_place s').
Proof.
  split; [exact one_place_run|].
  eapply (queue_completes 1 [[1]; [2]] 1 2 0 one_place); [lia|lia|exact one_place_run].
Defined.

(** C39. At every moment of a run of the protocol the queue holds at most
    [maxSize] objects; the objects consumed followed by those in the queue are
    the objects added, in that order; and no wakeup is lost: while a producer
    sleeps the queue is full or another producer has been woken, and while a
    consumer sleeps the queue is empty or another consumer has been woken. *)
Theorem queue_invariant {T} (m : Z) (w0 : list (list T)) (c n k : nat) (s : sys T) :
  0 <= m < 2 ^ 31 -> run joined n k (start m w0 c) s ->
  Z.of_nat (length (queue_ (queue s))) <= m
  /\ added s = consumed s ++ queue_ (queue s)
  /\ Permutation (added s ++ concat (work s)) (concat w0)
  /\ (Waiting ∈ producers s -> isFull (queue s) = true \/ Woken ∈ producers s)
  /\ (Waiting ∈ consumers s -> queue_ (queue s) = [] \/ Woken ∈ consumers s).
Proof.
  intros Hm Hr. assert (u64 m = m) as Hu by (apply Z.mod_small; lia).
  destruct (run_inv _ _ _ _ _ _ Hr) as [[] _]; [lia|]. rewrite Hu in *. split_and!; auto.
Qed.

Lemma queue_invariant_witness :
  run joined 2 0 (start 1 [[1]; [2]] 1) one_place
  /\ (Waiting ∈ producers one_place -> isFull (queue one_place) = true \/ Woken ∈ producers one_place).
Proof.
  split; [exact one_place_run|].
  apply (queue_invariant 1 [[1]; [2]] 1 2 0 one_place); [lia|exact one_place_run].
Defined.

(** [finishAdding] while three producers are still at work. *)
Definition anytime {T} (s : sys T) : Prop := True.

Definition stuck : sys Z := Sys (Pcq [] 1 true) [[]; []; [3]] [Ready; Ready; Waiting] [Exited] [1] [1].

(** C40. When [finishAdding] is called while producers sleep in [add] it does
    not wake them: the queue can reach a state in which adding is finished,
    the consumer has left, and a producer whose wait condition is true sleeps
    for ever, since no thread can take a step. *)
Theorem finishAdding_strands_producer :
  (exists n, run anytime n 0 (start 1 [[1]; [2]; [3]] 1) stuck)
  /\ Waiting ∈ producers stuck /\ isAddingFinished_ (queue stuck) = true
  /\ forall s', ~ step anytime false stuck s'.
Proof.
  split_and!.
  - eexists.
    eapply (run_step anytime _ 0 false);
      [|eapply (step_get_end anytime (Pcq [] 1 true) [[]; []; [3]] [Ready; Ready; Waiting] [Ready] [1] [1] 0%nat Ready);
        [reflexivity|by left|reflexivity|apply notified_no|apply notified_no]].
    eapply (run_step anytime _ 0 false);
      [|eapply (step_add anytime (Pcq [] 1 true) [[]; [2]; [3]] [Ready; Woken; Waiting] [Ready] [1] [1] 1%nat 2 []);
        [reflexivity|reflexivity|by right|reflexivity|apply notified_no|apply notified_no]].
    eapply (run_step anytime _ 0 false);
      [|eapply (step_get anytime (Pcq [1] 1 true) [[]; [2]; [3]] [Ready; Waiting; Waiting] [Ready] [1] [] 0%nat Ready);
        [reflexivity|by left|reflexivity|eapply (notified_one [Ready; Waiting; Waiting] 1%nat); reflexivity|apply notified_no]].
    eapply (run_step anytime _ 0 false);
      [|eapply (step_finish anytime (Pcq [1] 1 false) [[]; [2]; [3]] [Ready; Waiting; Waiting] [Ready] [1] []); [done|reflexivity|reflexivity|apply notified_no|apply (notified_all [Ready])]].
    eapply (run_step anytime _ 0 false);
      [|eapply (step_add_wait anytime (Pcq [1] 1 false) [[]; [2]; [3]] [Ready; Waiting; Ready] [Ready] [1] [] 2%nat 3 []); [reflexivity|reflexivity|by left|reflexivity]].
    eapply (run_step anytime _ 0 false);
      [|eapply (step_add_wait anytime (Pcq [1] 1 false) [[]; [2]; [3]] [Ready; Ready; Ready] [Ready] [1] [] 1%nat 2 []); [reflexivity|reflexivity|by left|reflexivity]].
    eapply (run_step anytime 0 0 false); [apply run_nil|].
    eapply (step_add anytime (Pcq [] 1 false) [[1]; [2]; [3]] [Ready; Ready; Ready] [Ready] [] [] 0%nat 1 []); [reflexivity|reflexivity|by left|reflexivity|apply notified_no|].
    apply notified_lost. not_waiting.
  - cbn. right. right. left.
  - done.
  - intros s' Hs. inversion Hs; subst; try discriminate;
      match goal with
      | H : [Ready; Ready; Waiting] !! ?i = Some _, H' : _ !! ?i = Some (_ :: _) |- _ =>
          destruct i as [|[|[|i]]]; cbn in H, H'; simplify_eq
      | H : [Exited] !! ?j = Some _ |- _ => destruct j; cbn in H; simplify_eq
      end; match goal with H : active _ |- _ => by destruct H end.
Qed.
