(* ===== verification/Hungarian.v ===== *)
(** Linear sum assignment ([lib/set/Hungarian.cpp]).

    The cost matrix has a row per task and a column per worker and is stored by
    columns: [costs[c * nrows + r]].  The arithmetic on costs is the class
    [Cost]; binary32 is an instance and exact reals another.  The functions keep
    the names, the arguments and the numbering of the steps of the source;
    [hungarian] is the loop around [switchStep]; it is undefined where an [int]
    product overflows.  The two inner [while] loops and
    the outer one run on fuel; HungarianProofs.v shows how much is enough.
    Entries of [marks] are the values of the enumeration [Mark]. *)
From S2P Require Import Prelude Float Numeric.
From Stdlib Require Import Floats.SpecFloat Reals.
From Stdlib Require Import Reals Lra.

Open Scope Z_scope.

Class Cost (F : Type) := {
  c_zero : F;
  c_max : F;                 (** [std::numeric_limits<float>::max()] *)
  c_add : F -> F -> F;
  c_sub : F -> F -> F;
  c_ltb : F -> F -> bool;
  c_eqb : F -> F -> bool;
}.

#[export] Instance cost_f32 : Cost f32 := {
  c_zero := f_zero;
  c_max := S754_finite false 16777215 104;
  c_add := f32_add; c_sub := f32_sub; c_ltb := flt; c_eqb := SFeqb;
}.

(** [FLT_MAX] as a real number. *)
Definition flt_max : R := IZR (16777215 * 2 ^ 104).

#[export] Instance cost_R : Cost R := {
  c_zero := 0%R; c_max := flt_max; c_add := Rplus; c_sub := Rminus; c_ltb := Rltb; c_eqb := Reqb;
}.

Definition Mark_None : Z := 0.
Definition Mark_Star : Z := 1.
Definition Mark_Prime : Z := 2.

Section Hungarian.
Context {F : Type} `{Cost F}.
Implicit Types (costs : buf F) (marks colCover rowCover path : buf Z) (nrows ncols : Z).

(** The first element of [lo .. hi - 1] with a property, [-1] without one. *)
Definition firstIndex (p : Z -> bool) (lo hi : Z) : Z :=
  match List.find p (zrange lo hi) with Some i => i | None => -1 end.

(** The row and the column of the first uncovered zero, by columns. *)
Fixpoint uncoveredZeroFrom (costs : buf F) (colCover rowCover : buf Z) (nrows : Z) (cs : list Z) : Z * Z :=
  match cs with
  | [] => (-1, -1)
  | c :: cs' =>
      match List.find (fun r => c_eqb (costs (c * nrows + r)) c_zero && (colCover c =? 0) && (rowCover r =? 0))
              (zrange 0 nrows) with
      | Some r => (r, c)
      | None => uncoveredZeroFrom costs colCover rowCover nrows cs'
      end
  end.

Definition findUncoveredZero costs colCover rowCover nrows ncols : Z * Z :=
  uncoveredZeroFrom costs colCover rowCover nrows (zrange 0 ncols).

Definition isStarInRow marks row nrows ncols : bool :=
  existsb (fun c => marks (c * nrows + row) =? Mark_Star) (zrange 0 ncols).

Definition findStarInRow marks row nrows ncols : Z :=
  firstIndex (fun c => marks (c * nrows + row) =? Mark_Star) 0 ncols.

Definition findStarInCol masks col nrows : Z :=
  firstIndex (fun r => masks (col * nrows + r) =? 1) 0 nrows.

Definition findPrimeInRow masks row nrows ncols : Z :=
  firstIndex (fun c => masks (c * nrows + row) =? 2) 0 ncols.

Definition rowMin costs nrows ncols r : F :=
  for_up 0 ncols (fun c min_val => let val := costs (c * nrows + r) in if c_ltb val min_val then val else min_val) c_max.

Definition subtractRow costs nrows ncols r min_val : buf F :=
  for_up 0 ncols (fun c (costs : buf F) => bset (c * nrows + r) (c_sub (costs (c * nrows + r)) min_val) costs) costs.

Definition stepOne costs nrows ncols : buf F * Z :=
  (for_up 0 nrows (fun r (costs : buf F) => subtractRow costs nrows ncols r (rowMin costs nrows ncols r)) costs, 2).

Definition clearCover (cover : buf Z) (n : Z) : buf Z := for_up 0 n (fun i => bset i 0) cover.

(** Marks, row cover and column cover. *)
Definition starCell costs nrows r c (s : buf Z * buf Z * buf Z) : buf Z * buf Z * buf Z :=
  let '(marks, rowCover, colCover) := s in
  if c_eqb (costs (c * nrows + r)) c_zero && (rowCover r =? 0) && (colCover c =? 0)
  then (bset (c * nrows + r) Mark_Star marks, bset r 1 rowCover, bset c 1 colCover)
  else s.

Definition stepTwo costs marks colCover rowCover nrows ncols : buf Z * buf Z * buf Z * Z :=
  let '(marks, rowCover, colCover) :=
    for_up 0 nrows (fun r => for_up 0 ncols (starCell costs nrows r)) (marks, rowCover, colCover) in
  (marks, clearCover rowCover nrows, clearCover colCover ncols, 3).

Definition coverStars marks colCover nrows ncols : buf Z :=
  for_up 0 nrows (fun r => for_up 0 ncols (fun c (colCover : buf Z) =>
    if marks (c * nrows + r) =? 1 then bset c 1 colCover else colCover)) colCover.

Definition stepThree marks colCover nrows ncols : buf Z * Z :=
  let colCover := coverStars marks colCover nrows ncols in
  let coveredCols := for_up 0 ncols (fun c n => n + colCover c) 0 in
  (colCover, if (coveredCols =? ncols) || (nrows <=? coveredCols) then 7 else 4).

(** Marks, column cover, row cover, the first path entry and the next step. *)
Fixpoint stepFour (fuel : nat) costs marks colCover rowCover nrows ncols (first : Z * Z) :
    option (buf Z * buf Z * buf Z * (Z * Z) * Z) :=
  match fuel with
  | O => None
  | S fuel =>
      let '(row, col) := findUncoveredZero costs colCover rowCover nrows ncols in
      if (row <? 0) && (col <? 0) then Some (marks, colCover, rowCover, first, 6)
      else
        let marks := bset (col * nrows + row) Mark_Prime marks in
        if isStarInRow marks row nrows ncols then
          let c := findStarInRow marks row nrows ncols in
          stepFour fuel costs marks (bset c 0 colCover) (bset row 1 rowCover) nrows ncols first
        else Some (marks, colCover, rowCover, (row, col), 5)
  end.

(** The [while] loop of step five: extends the path from its last entry. *)
Fixpoint buildPath (fuel : nat) marks nrows ncols path (pathCount : Z) : option (buf Z * Z) :=
  match fuel with
  | O => None
  | S fuel =>
      let r := findStarInCol marks (path ((pathCount - 1) * 2 + 1)) nrows in
      if -1 <? r then
        let pathCount := pathCount + 1 in
        let path := bset ((pathCount - 1) * 2) r path in
        let path := bset ((pathCount - 1) * 2 + 1) (path ((pathCount - 2) * 2 + 1)) path in
        let c := findPrimeInRow marks (path ((pathCount - 1) * 2)) nrows ncols in
        let pathCount := pathCount + 1 in
        let path := bset ((pathCount - 1) * 2) (path ((pathCount - 2) * 2)) path in
        let path := bset ((pathCount - 1) * 2 + 1) c path in
        buildPath fuel marks nrows ncols path pathCount
      else Some (path, pathCount)
  end.

Definition augmentPaths (paths : buf Z) (pathCount : Z) marks nrows : buf Z :=
  for_up 0 pathCount (fun p (marks : buf Z) =>
    let row := paths (p * 2) in
    let col := paths (p * 2 + 1) in
    if marks (col * nrows + row) =? Mark_Star
    then bset (col * nrows + row) Mark_None marks
    else bset (col * nrows + row) Mark_Star marks) marks.

Definition erasePrimes marks nrows ncols : buf Z :=
  for_up 0 ncols (fun c => for_up 0 nrows (fun r (marks : buf Z) =>
    if marks (c * nrows + r) =? Mark_Prime then bset (c * nrows + r) Mark_None marks else marks)) marks.

(** Marks, column cover, row cover, path and the next step. *)
Definition stepFive (fuel : nat) marks colCover rowCover path (first : Z * Z) nrows ncols :
    option (buf Z * buf Z * buf Z * buf Z * Z) :=
  let pathCount := 1 in
  let path := bset ((pathCount - 1) * 2) (fst first) path in
  let path := bset ((pathCount - 1) * 2 + 1) (snd first) path in
  match buildPath fuel marks nrows ncols path pathCount with
  | None => None
  | Some (path, pathCount) =>
      let marks := augmentPaths path pathCount marks nrows in
      let colCover := clearCover colCover ncols in
      let rowCover := clearCover rowCover nrows in
      Some (erasePrimes marks nrows ncols, colCover, rowCover, path, 3)
  end.

Definition findSmallestNotCovered costs colCover rowCover nrows ncols : F :=
  for_up 0 ncols (fun c => for_up 0 nrows (fun r (minValue : F) =>
    if (colCover c =? 0) && (rowCover r =? 0) then
      let cost := costs (c * nrows + r) in
      if c_ltb cost minValue then cost else minValue
    else minValue)) c_max.

Definition adjustCell (minVal : F) colCover rowCover nrows c r costs : buf F :=
  let costs := if rowCover r =? 1 then bset (c * nrows + r) (c_add (costs (c * nrows + r)) minVal) costs else costs in
  if colCover c =? 0 then bset (c * nrows + r) (c_sub (costs (c * nrows + r)) minVal) costs else costs.

Definition stepSix costs colCover rowCover nrows ncols : buf F * Z :=
  let minVal := findSmallestNotCovered costs colCover rowCover nrows ncols in
  (for_up 0 ncols (fun c => for_up 0 nrows (adjustCell minVal colCover rowCover nrows c)) costs, 4).

Record hungarianState : Type := HungarianState {
  hs_costs : buf F;
  hs_marks : buf Z;
  hs_colCover : buf Z;
  hs_rowCover : buf Z;
  hs_paths : buf Z;
  hs_first : Z * Z;
}.

(** The body of the [switch]: steps one to six. *)
Definition switchStep (M N step : Z) (s : hungarianState) : option (Z * hungarianState) :=
  let '(HungarianState costs marks colCover rowCover paths first) := s in
  if step =? 1 then
    let '(costs, step) := stepOne costs M N in
    Some (step, HungarianState costs marks colCover rowCover paths first)
  else if step =? 2 then
    let '(marks, rowCover, colCover, step) := stepTwo costs marks colCover rowCover M N in
    Some (step, HungarianState costs marks colCover rowCover paths first)
  else if step =? 3 then
    let '(colCover, step) := stepThree marks colCover M N in
    Some (step, HungarianState costs marks colCover rowCover paths first)
  else if step =? 4 then
    match stepFour (Z.to_nat (M + 1)) costs marks colCover rowCover M N first with
    | None => None
    | Some (marks, colCover, rowCover, first, step) =>
        Some (step, HungarianState costs marks colCover rowCover paths first)
    end
  else if step =? 5 then
    match stepFive (Z.to_nat (M + 1)) marks colCover rowCover paths first M N with
    | None => None
    | Some (marks, colCover, rowCover, paths, step) =>
        Some (step, HungarianState costs marks colCover rowCover paths first)
    end
  else if step =? 6 then
    let '(costs, step) := stepSix costs colCover rowCover M N in
    Some (step, HungarianState costs marks colCover rowCover paths first)
  else Some (step, s).

Fixpoint hungarianLoop (fuel : nat) (M N step : Z) (s : hungarianState) : option hungarianState :=
  match fuel with
  | O => None
  | S fuel =>
      if step =? 7 then Some s
      else match switchStep M N step s with
           | None => None
           | Some (step, s) => hungarianLoop fuel M N step s
           end
  end.

(** Enough passes of the [switch] for [M] rows. *)
Definition hungarianFuel (M : Z) : nat := Z.to_nat (M * (2 * M + 6) + 4).

(** The products of [int]s that overflow: [N * N * 2], the size of [paths], or
    the greatest cell index [c * nrows + r], which step one reads. *)
Definition intsOverflow (M N : Z) : bool := (2 ^ 31 <=? N * N * 2) || (2 ^ 31 <=? M * N - 1).

(** The vectors start at zero; [firstPathRow] and [firstPathCol] are not
    initialised.  A vector of negative length throws [length_error], an overflow
    of [int] is undefined; the assertion [N >= M] is taken as compiled out.  The
    outer [option] is the fuel. *)
Definition hungarian costs (assignments : buf Z) (first : Z * Z) (M N : Z) : option (result hungarianState) :=
  if (M <? 0) || (N <? 0) then Some (Throw LogicError)
  else if intsOverflow M N then Some (Throw Undefined)
  else option_map Ok (hungarianLoop (hungarianFuel M) M N 1
    (HungarianState costs assignments (fun _ => 0) (fun _ => 0) (fun _ => 0) first)).

Definition stepSeven marks (rowIdxs colIdxs : buf Z) (M N : Z) : buf Z * buf Z * Z :=
  for_up 0 M (fun r => for_up 0 N (fun c s =>
    let '(rowIdxs, colIdxs, i) := s in
    if marks (c * M + r) =? Mark_Star then (bset i r rowIdxs, bset i c colIdxs, i + 1) else s)) (rowIdxs, colIdxs, 0).

(** The second overload, which returns row and column indices. *)
Definition hungarianIdxs costs (rowIdxs colIdxs : buf Z) (first : Z * Z) (M N : Z) : option (result (buf Z * buf Z)) :=
  if (M * N <? - 2 ^ 31) || (2 ^ 31 <=? M * N) then Some (Throw Undefined)
  else if M * N <? 0 then Some (Throw LogicError)
  else match hungarian costs (fun _ => 0) first M N with
  | None => None
  | Some (Throw e) => Some (Throw e)
  | Some (Ok s) => let '(rowIdxs, colIdxs, _) := stepSeven (hs_marks s) rowIdxs colIdxs M N in Some (Ok (rowIdxs, colIdxs))
  end.
End Hungarian.
Arguments hungarianState F : clear implicits.

(** A binary32 run: three tasks, four workers. *)
Example hungarian_runs :
  let costs : buf f32 := fun i => f32_of_Z (nth (Z.to_nat i) [4; 2; 3; 1; 0; 2; 3; 5; 2; 2; 2; 1] 0) in
  option_map (fun r => '(rows, cols) ← r; Ok (map (fun i => (rows i, cols i)) [0; 1; 2]))
    (hungarianIdxs costs (fun _ => 9) (fun _ => 9) (9, 9) 3 4) = Some (Ok [(0, 1); (1, 0); (2, 3)]).
Proof. vm_compute. reflexivity. Qed.

(** 32768 workers: [paths] would have [2 ^ 31] cells. *)
Example hungarian_overflows : hungarian (fun _ => f_zero) (fun _ => 0) (0, 0) 1 32768 = Some (Throw Undefined).
Proof. reflexivity. Qed.

(** ** The loops of the assignment algorithm: what each step of
    [lib/set/Hungarian.cpp] reads and writes, cell by cell. *)

Open Scope Z_scope.

(** * Searching *)

Lemma find_zrange_Some p lo hi i :
  List.find p (zrange lo hi) = Some i -> lo <= i < hi /\ p i = true.
Proof. intros [Hi Hp]%find_some. split; [|done]. by apply elem_of_zrange, list_elem_of_In. Qed.

Lemma find_zrange_None p lo hi i : List.find p (zrange lo hi) = None -> lo <= i < hi -> p i = false.
Proof. intros Hf Hi. eapply find_none; [done|]. by apply list_elem_of_In, elem_of_zrange. Qed.

Lemma firstIndex_spec p hi :
  (0 <= firstIndex p 0 hi < hi /\ p (firstIndex p 0 hi) = true)
  \/ (firstIndex p 0 hi = -1 /\ forall i, 0 <= i < hi -> p i = false).
Proof.
  unfold firstIndex. destruct (List.find p (zrange 0 hi)) as [i|] eqn:E.
  - left. by apply find_zrange_Some.
  - right. split; [done|]. intros i. by apply find_zrange_None.
Qed.

Lemma firstIndex_found p hi i : 0 <= i < hi -> p i = true -> 0 <= firstIndex p 0 hi < hi /\ p (firstIndex p 0 hi) = true.
Proof. intros Hi Hp. destruct (firstIndex_spec p hi) as [|[_ Hn]]; [done|]. by rewrite Hn in Hp. Qed.

(** * Matrices stored by columns *)

Section Cells.
Context (M N : Z) (HM : 0 <= M).

Lemma cell_inj r c r' c' : 0 <= r < M -> 0 <= r' < M -> c * M + r = c' * M + r' -> r = r' /\ c = c'.
Proof. intros Hr Hr' E. assert (c = c') by nia. subst. lia. Qed.

Lemma bset_cell {A} (a : buf A) r c r' c' x :
  0 <= r < M -> 0 <= r' < M ->
  bset (c * M + r) x a (c' * M + r') = if decide (r' = r /\ c' = c) then x else a (c' * M + r').
Proof.
  intros Hr Hr'. destruct (decide _) as [[-> ->]|Hne]; [by rewrite bset_eq|].
  apply bset_ne. intros [-> ->]%cell_inj; [|done..]. tauto.
Qed.

(** A loop over the rows of one column, or over the columns of one row, whose
    body rewrites the cell it visits as a function of its contents. *)
Lemma for_rows_cell {A} (f : Z -> A -> A) (body : Z -> buf A -> buf A) c a :
  (forall r b r' c', 0 <= r < M -> 0 <= r' < M ->
     body r b (c' * M + r') = if decide (r' = r /\ c' = c) then f r (b (c * M + r)) else b (c' * M + r')) ->
  forall r' c', 0 <= r' < M ->
  for_up 0 M body a (c' * M + r') = if decide (c' = c) then f r' (a (c * M + r')) else a (c' * M + r').
Proof.
  intros Hb.
  cut (forall r' c', 0 <= r' < M ->
    for_up 0 M body a (c' * M + r') = if decide (c' = c /\ r' < M) then f r' (a (c * M + r')) else a (c' * M + r')).
  { intros Hc r' c' Hr'. rewrite Hc by done. destruct (decide (c' = c)) as [->|].
    - rewrite decide_True; [done|lia]. - rewrite decide_False; [done|lia]. }
  refine (for_up_ind (fun k b => forall r' c', 0 <= r' < M ->
    b (c' * M + r') = if decide (c' = c /\ r' < k) then f r' (a (c * M + r')) else a (c' * M + r')) 0 M body a _ _ _); [done| |].
  - intros r' c' Hr'. rewrite decide_False; [done|lia].
  - intros i b Hi IH r' c' Hr'. rewrite Hb by done. destruct (decide (r' = i /\ c' = c)) as [[-> ->]|Hne].
    + rewrite decide_True by lia. rewrite IH by done. by rewrite decide_False by lia.
    + rewrite IH by done. destruct (decide (c' = c /\ r' < i)); [rewrite decide_True by lia|rewrite decide_False by lia]; done.
Qed.

Lemma for_cols_cell {A} (f : Z -> A -> A) (body : Z -> buf A -> buf A) r a :
  0 <= N -> 0 <= r < M ->
  (forall c b r' c', 0 <= c < N -> 0 <= r' < M ->
     body c b (c' * M + r') = if decide (r' = r /\ c' = c) then f c (b (c * M + r)) else b (c' * M + r')) ->
  forall r' c', 0 <= r' < M -> 0 <= c' < N ->
  for_up 0 N body a (c' * M + r') = if decide (r' = r) then f c' (a (c' * M + r)) else a (c' * M + r').
Proof.
  intros HN Hr Hb.
  cut (forall r' c', 0 <= r' < M ->
    for_up 0 N body a (c' * M + r') = if decide (r' = r /\ 0 <= c' < N) then f c' (a (c' * M + r)) else a (c' * M + r')).
  { intros Hc r' c' Hr' Hc'. rewrite Hc by done. destruct (decide (r' = r)) as [->|].
    - rewrite decide_True; [done|lia]. - rewrite decide_False; [done|lia]. }
  refine (for_up_ind (fun k b => forall r' c', 0 <= r' < M ->
    b (c' * M + r') = if decide (r' = r /\ 0 <= c' < k) then f c' (a (c' * M + r)) else a (c' * M + r')) 0 N body a _ _ _); [done| |].
  - intros r' c' Hr'. rewrite decide_False; [done|lia].
  - intros i b Hi IH r' c' Hr'. rewrite Hb by done. destruct (decide (r' = r /\ c' = i)) as [[-> ->]|Hne].
    + rewrite decide_True by lia. rewrite IH by done. by rewrite decide_False by lia.
    + rewrite IH by done.
      destruct (decide (r' = r /\ 0 <= c' < i)); [rewrite decide_True by lia|rewrite decide_False by lia]; done.
Qed.

(** A whole matrix rewritten cell by cell, by columns. *)
Lemma for_matrix_cell {A} (f : Z -> Z -> A -> A) (body : Z -> Z -> buf A -> buf A) a :
  0 <= N ->
  (forall c r b r' c', 0 <= c < N -> 0 <= r < M -> 0 <= r' < M ->
     body c r b (c' * M + r') = if decide (r' = r /\ c' = c) then f c r (b (c * M + r)) else b (c' * M + r')) ->
  forall r' c', 0 <= r' < M -> 0 <= c' < N ->
  for_up 0 N (fun c => for_up 0 M (body c)) a (c' * M + r') = f c' r' (a (c' * M + r')).
Proof.
  intros HN Hb.
  cut (forall r' c', 0 <= r' < M ->
    for_up 0 N (fun c => for_up 0 M (body c)) a (c' * M + r')
      = if decide (0 <= c' < N) then f c' r' (a (c' * M + r')) else a (c' * M + r')).
  { intros Hc r' c' Hr' Hc'. rewrite Hc by done. by rewrite decide_True. }
  refine (for_up_ind (fun k b => forall r' c', 0 <= r' < M ->
    b (c' * M + r') = if decide (0 <= c' < k) then f c' r' (a (c' * M + r')) else a (c' * M + r')) 0 N (fun c => for_up 0 M (body c)) a _ _ _); [done| |].
  - intros r' c' Hr'. rewrite decide_False; [done|lia].
  - intros i b Hi IH r' c' Hr'.
    rewrite (for_rows_cell (f i) (body i) i b); [|intros; by apply Hb|done].
    destruct (decide (c' = i)) as [->|Hne].
    + rewrite decide_True by lia. rewrite IH by done. by rewrite decide_False by lia.
    + rewrite IH by done. destruct (decide (0 <= c' < i)); [rewrite decide_True by lia|rewrite decide_False by lia]; done.
Qed.
End Cells.

(** * Minima *)

Open Scope R_scope.

Lemma for_up_min lo hi (p : Z -> bool) (v : Z -> R) m0 :
  (lo <= hi)%Z ->
  let m := for_up lo hi (fun i m => if p i then if Rltb (v i) m then v i else m else m) m0 in
  m <= m0 /\ (forall i, (lo <= i < hi)%Z -> p i = true -> m <= v i)
  /\ (m = m0 \/ exists i, (lo <= i < hi)%Z /\ p i = true /\ m = v i).
Proof.
  intros Hle m. subst m.
  apply (for_up_ind (fun k m => m <= m0 /\ (forall i, (lo <= i < k)%Z -> p i = true -> m <= v i)
    /\ (m = m0 \/ exists i, (lo <= i < k)%Z /\ p i = true /\ m = v i))); [done| |].
  - split_and!; [lra|intros; lia|by left].
  - intros i m Hi (H0 & Hall & Hex).
    assert (forall j, (lo <= j < i + 1)%Z -> (lo <= j < i)%Z \/ j = i) as Hj by lia.
    destruct (p i) eqn:Ep.
    + destruct (Rltb (v i) m) eqn:E; [apply Rlt_bool_true in E|apply Rlt_bool_false in E].
      * split_and!; [lra| |right; exists i; split_and!; [lia|lia|done|done]].
        intros j [Hj'| ->]%Hj Hp; [specialize (Hall j Hj' Hp); lra|lra].
      * split_and!; [lra| |].
        -- intros j [Hj'| ->]%Hj Hp; [auto|lra].
        -- destruct Hex as [|(j & ? & ?)]; [by left|right; exists j; split; [lia|done]].
    + split_and!; [done| |].
      * intros j [Hj'| ->]%Hj Hp; [auto|congruence].
      * destruct Hex as [|(j & ? & ?)]; [by left|right; exists j; split; [lia|done]].
Qed.

Lemma rowMin_spec (costs : buf R) M N r :
  (0 <= N)%Z ->
  let m := rowMin costs M N r in
  m <= flt_max /\ (forall c, (0 <= c < N)%Z -> m <= costs (c * M + r)%Z)
  /\ (m = flt_max \/ exists c, (0 <= c < N)%Z /\ m = costs (c * M + r)%Z).
Proof.
  intros HN. destruct (for_up_min 0 N (fun _ => true) (fun c => costs (c * M + r)%Z) flt_max HN) as (H0 & H1 & H2).
  cbn. split_and!; [done|by auto|]. destruct H2 as [|(c & ? & _ & ?)]; [by left|right; eauto].
Qed.

Lemma smallest_spec (costs : buf R) (cc rc : buf Z) M N :
  (0 <= N)%Z -> (0 <= M)%Z ->
  let m := findSmallestNotCovered costs cc rc M N in
  m <= flt_max
  /\ (forall r c, (0 <= r < M)%Z -> (0 <= c < N)%Z -> cc c = 0%Z -> rc r = 0%Z -> m <= costs (c * M + r)%Z)
  /\ (m = flt_max \/ exists r c, (0 <= r < M)%Z /\ (0 <= c < N)%Z /\ cc c = 0%Z /\ rc r = 0%Z /\ m = costs (c * M + r)%Z).
Proof.
  intros HN HM m. subst m. unfold findSmallestNotCovered.
  apply (for_up_ind (fun k m => m <= flt_max
    /\ (forall r c, (0 <= r < M)%Z -> (0 <= c < k)%Z -> cc c = 0%Z -> rc r = 0%Z -> m <= costs (c * M + r)%Z)
    /\ (m = flt_max \/ exists r c, (0 <= r < M)%Z /\ (0 <= c < k)%Z /\ cc c = 0%Z /\ rc r = 0%Z /\ m = costs (c * M + r)%Z)));
    [done| |].
  - split_and!; [apply Rle_refl|intros; lia|by left].
  - intros c m Hc (H0 & Hall & Hex).
    destruct (for_up_min 0 M (fun r => (cc c =? 0)%Z && (rc r =? 0)%Z) (fun r => costs (c * M + r)%Z) m HM) as (G0 & G1 & G2).
    split_and!.
    + eapply Rle_trans; [exact G0|exact H0].
    + intros r c' Hr Hc' Hcc Hrc. destruct (decide (c' = c)) as [->|].
      * apply G1; [done|]. by rewrite Hcc, Hrc.
      * eapply Rle_trans; [exact G0|]. apply Hall; [done|lia|done|done].
    + destruct G2 as [E|(r & Hr & Hp & E)].
      * destruct Hex as [Hm|(r & c' & ? & ? & ? & ? & ?)]; [left; exact (eq_trans E Hm)|].
        right; exists r, c'. split; [done|split; [lia|]]. split_and!; try done. by transitivity m.
      * right. apply andb_prop in Hp as [?%Z.eqb_eq ?%Z.eqb_eq]. exists r, c. split; [done|split; [lia|]]. split_and!; done.
Qed.

(** * The steps, cell by cell *)

Open Scope Z_scope.

Lemma for_up_ext {S} (body body' : Z -> S -> S) lo hi s :
  (forall i s, lo <= i < hi -> body i s = body' i s) -> for_up lo hi body s = for_up lo hi body' s.
Proof.
  intros He. unfold for_up. assert (forall i, i ∈ zrange lo hi -> lo <= i < hi) as Hin by (intros i; apply elem_of_zrange).
  revert s Hin. induction (zrange lo hi) as [|i l IH]; intros s Hin; [done|]. cbn.
  rewrite He by (apply Hin; left). apply IH. intros j Hj. apply Hin. by right.
Qed.

Lemma for_up_inv {S} (P : S -> Prop) lo hi body s :
  P s -> (forall i s, lo <= i < hi -> P s -> P (body i s)) -> P (for_up lo hi body s).
Proof.
  intros H0 Hs. destruct (Z.le_ge_cases lo hi) as [Hle|Hge].
  - by apply (for_up_ind (fun _ => P)).
  - unfold for_up. by rewrite zrange_nil by lia.
Qed.

Section Steps.
Context (M N : Z) (HM : 0 <= M) (HN : 0 <= N).

Lemma rowMin_ext (k k' : buf R) r :
  (forall c, 0 <= c < N -> k (c * M + r) = k' (c * M + r)) -> rowMin k M N r = rowMin k' M N r.
Proof. intros He. apply for_up_ext. intros c m Hc. cbn. by rewrite He. Qed.

Lemma subtractRow_cell (k : buf R) r m r' c' :
  0 <= r < M -> 0 <= r' < M -> 0 <= c' < N ->
  subtractRow k M N r m (c' * M + r') = if decide (r' = r) then (k (c' * M + r)%Z - m)%R else k (c' * M + r').
Proof.
  intros Hr Hr' Hc'. unfold subtractRow.
  rewrite (for_cols_cell M N (fun _ x => (x - m)%R) _ r); try done.
  intros c b r'' c'' Hc Hr''. by rewrite bset_cell.
Qed.

Lemma stepOne_cell (k : buf R) r c :
  0 <= r < M -> 0 <= c < N -> fst (stepOne k M N) (c * M + r) = (k (c * M + r)%Z - rowMin k M N r)%R.
Proof.
  intros Hr Hc. cbn.
  cut (forall r c, 0 <= r < M -> 0 <= c < N ->
    for_up 0 M (fun r (k : buf R) => subtractRow k M N r (rowMin k M N r)) k (c * M + r)
      = if decide (r < M) then (k (c * M + r)%Z - rowMin k M N r)%R else k (c * M + r)).
  { intros Hcut. rewrite Hcut by done. by rewrite decide_True by lia. }
  refine (for_up_ind (fun j (b : buf R) => forall r c, 0 <= r < M -> 0 <= c < N ->
    b (c * M + r) = if decide (r < j) then (k (c * M + r)%Z - rowMin k M N r)%R else k (c * M + r))
    0 M _ k _ _ _); [done| |].
  - intros r' c' Hr' Hc'. by rewrite decide_False by lia.
  - intros i b Hi IH r' c' Hr' Hc'. rewrite subtractRow_cell by done. destruct (decide (r' = i)) as [->|].
    + rewrite decide_True by lia. rewrite IH by done. rewrite decide_False by lia. f_equal.
      apply rowMin_ext. intros c'' Hc''. rewrite IH by done. by rewrite decide_False by lia.
    + rewrite IH by done. destruct (decide (r' < i)); [rewrite decide_True by lia|rewrite decide_False by lia]; done.
Qed.

Lemma clearCover_zero (a : buf Z) n i : 0 <= i < n -> clearCover a n i = 0.
Proof.
  intros Hi. unfold clearCover. rewrite (for_up_ext _ (fun i => bset (0 + i) 0)) by done.
  rewrite (for_up_fill (fun _ => 0)). destruct (Z.leb_spec (0 + 0) i), (Z.ltb_spec i (0 + n)); done || lia.
Qed.

Lemma erasePrimes_cell (m : buf Z) r c :
  0 <= r < M -> 0 <= c < N ->
  erasePrimes m M N (c * M + r) = if m (c * M + r) =? Mark_Prime then Mark_None else m (c * M + r).
Proof.
  intros Hr Hc. unfold erasePrimes.
  rewrite (for_matrix_cell M N HM (fun _ _ x => if x =? Mark_Prime then Mark_None else x)); try done.
  intros c' r' b r'' c'' _ Hr' Hr''. destruct (b (c' * M + r') =? Mark_Prime) eqn:E.
  - by rewrite bset_cell.
  - by destruct (decide _) as [[-> ->]|].
Qed.

Lemma stepSix_cell (k : buf R) (cc rc : buf Z) r c :
  0 <= r < M -> 0 <= c < N ->
  fst (stepSix k cc rc M N) (c * M + r)
    = (k (c * M + r)%Z + (if (rc r =? 1)%Z then findSmallestNotCovered k cc rc M N else 0)
       - (if (cc c =? 0)%Z then findSmallestNotCovered k cc rc M N else 0))%R.
Proof.
  intros Hr Hc. cbn. set (v := findSmallestNotCovered k cc rc M N).
  rewrite (for_matrix_cell M N HM (fun c r x => (x + (if (rc r =? 1)%Z then v else 0) - (if (cc c =? 0)%Z then v else 0))%R));
    try done.
  intros c' r' b r'' c'' _ Hr' Hr''. unfold adjustCell.
  destruct (rc r' =? 1), (cc c' =? 0); rewrite ?bset_eq, ?bset_cell by done; destruct (decide _) as [[-> ->]|]; cbn; try done; try ring.
Qed.

(** The columns with a star. *)
Definition starCol (m : buf Z) (c : Z) : bool := existsb (fun r => m (c * M + r) =? Mark_Star) (zrange 0 M).

Lemma starCol_spec m c : starCol m c = true <-> exists r, 0 <= r < M /\ m (c * M + r) = Mark_Star.
Proof.
  unfold starCol. rewrite existsb_exists. split; intros (r & H1 & H2); exists r.
  - split; [by apply elem_of_zrange, list_elem_of_In|lia].
  - split; [by apply list_elem_of_In, elem_of_zrange|lia].
Qed.

Definition starCount (m : buf Z) : Z := Z.of_nat (length (List.filter (starCol m) (zrange 0 N))).

Lemma coverStars_col (m cc : buf Z) c :
  (forall c, 0 <= c < N -> cc c = 0) -> 0 <= c < N ->
  coverStars m cc M N c = if starCol m c then 1 else 0.
Proof.
  intros H0 Hc. unfold coverStars.
  assert (forall r b c, 0 <= c < N -> for_up 0 N (fun c (cc : buf Z) => if m (c * M + r) =? 1 then bset c 1 cc else cc) b c
     = if m (c * M + r) =? 1 then 1 else b c) as Hin.
  { intros r b c' Hc'.
    cut (for_up 0 N (fun c (cc : buf Z) => if m (c * M + r) =? 1 then bset c 1 cc else cc) b c'
     = if (c' <? N) && (m (c' * M + r) =? 1) then 1 else b c').
    { intros ->. by destruct (Z.ltb_spec c' N); [|lia]. }
    refine (for_up_ind (fun j (b' : buf Z) => b' c' = if (c' <? j) && (m (c' * M + r) =? 1) then 1 else b c') 0 N _ b _ _ _); [done| |].
    - by destruct (Z.ltb_spec c' 0); [lia|].
    - intros i s Hi IH. destruct (m (i * M + r) =? 1) eqn:E.
      + unfold bset. destruct (Z.eqb_spec c' i) as [->|].
        * destruct (Z.ltb_spec i (i + 1)); [|lia]. by rewrite E.
        * rewrite IH. destruct (Z.ltb_spec c' i), (Z.ltb_spec c' (i + 1)); done || lia.
      + rewrite IH. destruct (Z.ltb_spec c' i), (Z.ltb_spec c' (i + 1)); try done; try lia.
        assert (c' = i) as -> by lia. by rewrite E. }
  unfold starCol.
  cut (for_up 0 M (fun r => for_up 0 N (fun c (cc : buf Z) => if m (c * M + r) =? 1 then bset c 1 cc else cc)) cc c
    = if existsb (fun r => m (c * M + r) =? Mark_Star) (zrange 0 M) then 1 else 0); [done|].
  refine (for_up_ind (fun j (b : buf Z) => b c = if existsb (fun r => m (c * M + r) =? Mark_Star) (zrange 0 j) then 1 else 0)
    0 M _ cc _ _ _); [done| |].
  - rewrite zrange_nil by lia. by apply H0.
  - intros i b Hi IH. rewrite zrange_snoc by lia. rewrite existsb_app, Hin, IH by done. cbn.
    unfold Mark_Star. rewrite orb_false_r. by destruct (m (c * M + i) =? 1), (existsb _ _).
Qed.

Lemma stepThree_spec (m cc : buf Z) :
  (forall c, 0 <= c < N -> cc c = 0) ->
  snd (stepThree m cc M N) = if (starCount m =? N) || (M <=? starCount m) then 7 else 4.
Proof.
  intros H0. unfold stepThree. cbn. set (cc' := coverStars m cc M N).
  assert (for_up 0 N (fun c n => n + cc' c) 0 = starCount m) as ->; [|done]. unfold starCount.
  refine (for_up_ind (fun j n => n = Z.of_nat (length (List.filter (starCol m) (zrange 0 j)))) 0 N _ 0 _ _ _); [done| |].
  - by rewrite zrange_nil by lia.
  - intros i n Hi IH. rewrite zrange_snoc, List.filter_app, length_app, IH by lia. unfold cc'.
    rewrite coverStars_col by (done || lia). cbn. destruct (starCol m i); cbn; lia.
Qed.
End Steps.
