(* ===== verification/HungarianProofs.v ===== *)
(** The assignment algorithm of [lib/set/Hungarian.cpp] over exact reals: it
    stops within a number of passes of its [switch] that depends on the number of
    rows only, and the assignment it returns has the least possible cost.

    [tree] is the record of step four: the primed zeros of the covered rows, the
    latest first.  Each column of a primed zero holds no star, or holds the star
    of a row covered before, so the alternating path of step five ([alt]) runs
    down the list and ends.  The dual variables of the linear program ([dual])
    certify that a complete assignment of zeros is optimal. *)
From Stdlib Require Import Reals Lra.
From S2P Require Import Prelude Numeric RealSum Hungarian.

Open Scope Z_scope.

Section Matching.
Context (M N : Z) (HM : 0 <= M).

Definition star (m : buf Z) (r c : Z) : Prop := m (c * M + r) = Mark_Star.

Record matching (m : buf Z) : Prop := {
  m_row : forall r c c', 0 <= r < M -> 0 <= c < N -> 0 <= c' < N -> star m r c -> star m r c' -> c = c';
  m_col : forall r r' c, 0 <= r < M -> 0 <= r' < M -> 0 <= c < N -> star m r c -> star m r' c -> r = r';
}.

(** Stars and primes stand on zeros. *)
Definition starZeros (k : buf R) (m : buf Z) : Prop :=
  forall r c, 0 <= r < M -> 0 <= c < N -> star m r c -> k (c * M + r) = 0%R.

Definition noPrimes (m : buf Z) : Prop := forall r c, 0 <= r < M -> 0 <= c < N -> m (c * M + r) <> Mark_Prime.

(** ** Step two *)

Definition starred (k : buf R) (s : buf Z * buf Z * buf Z) : Prop :=
  let '(m, rc, cc) := s in
  matching m /\ starZeros k m /\ noPrimes m
  /\ forall r c, 0 <= r < M -> 0 <= c < N -> star m r c -> rc r <> 0 /\ cc c <> 0.

Lemma star_bset m r c r' c' :
  0 <= r < M -> 0 <= r' < M -> star (bset (c * M + r) Mark_Star m) r' c' <-> (r' = r /\ c' = c) \/ star m r' c'.
Proof.
  intros Hr Hr'. unfold star. rewrite bset_cell by done. destruct (decide _) as [|Hn]; [tauto|].
  split; [by right|]. intros [|]; [done|done].
Qed.

Lemma starred_cell k r c s :
  0 <= r < M -> 0 <= c < N -> starred k s -> starred k (starCell k M r c s).
Proof.
  destruct s as [[m rc] cc]. intros Hr Hc (Hm & Hz & Hp & Hcov). unfold starCell.
  destruct (_ && _) eqn:E; [|done].
  apply andb_prop in E as [[E1 E2%Z.eqb_eq]%andb_prop E3%Z.eqb_eq].
  assert (k (c * M + r) = 0%R) as E1' by (cbn in E1; unfold Reqb in E1; by destruct (Req_EM_T _ _)). clear E1.
  assert (forall c', 0 <= c' < N -> ~ star m r c') as Hnr by (intros c' Hc' []%Hcov; done).
  assert (forall r', 0 <= r' < M -> ~ star m r' c) as Hnc by (intros r' Hr' []%Hcov; done).
  split_and!.
  - split.
    + intros r0 c0 c1 H1 H2 H3. rewrite !star_bset by done.
      intros [[-> ->]|Hs] [[E ->]|Hs']; [done|by destruct (Hnr c1 H3 Hs')|subst; by destruct (Hnr c0 H2 Hs)|].
      by apply (m_row m Hm r0).
    + intros r0 r1 c0 H1 H2 H3. rewrite !star_bset by done.
      intros [[-> ->]|Hs] [[-> E]|Hs']; [done|by destruct (Hnc r1 H2 Hs')|subst; by destruct (Hnc r0 H1 Hs)|].
      by apply (m_col m Hm r0 r1 c0).
  - intros r' c' Hr' Hc'. rewrite star_bset by done. intros [[-> ->]|]; [done|by apply Hz].
  - intros r' c' Hr' Hc'. rewrite bset_cell by done. destruct (decide _); [done|by apply Hp].
  - intros r' c' Hr' Hc'. rewrite star_bset by done. unfold bset.
    intros [[-> ->]|Hs]; [by rewrite !Z.eqb_refl|].
    destruct (Hcov r' c' Hr' Hc' Hs). by destruct (r' =? r), (c' =? c).
Qed.

Lemma stepTwo_spec k m cc rc m' rc' cc' n :
  (forall r c, 0 <= r < M -> 0 <= c < N -> m (c * M + r) = 0) ->
  stepTwo k m cc rc M N = (m', rc', cc', n) ->
  matching m' /\ starZeros k m' /\ noPrimes m' /\ n = 3
  /\ (forall r, 0 <= r < M -> rc' r = 0) /\ (forall c, 0 <= c < N -> cc' c = 0).
Proof.
  intros H0. unfold stepTwo.
  assert (starred k (for_up 0 M (fun r => for_up 0 N (starCell k M r)) (m, rc, cc))) as Hs.
  { apply for_up_inv.
    - assert (forall r c, 0 <= r < M -> 0 <= c < N -> ~ star m r c) as Hn.
      { intros r c Hr Hc. unfold star. by rewrite H0. }
      split_and!.
      + split; intros; exfalso; by eapply Hn.
      + intros r c Hr Hc Hs. exfalso. by eapply Hn.
      + intros r c Hr Hc. by rewrite H0.
      + intros r c Hr Hc Hs. exfalso. by eapply Hn.
    - intros r s Hr Hs. apply for_up_inv; [done|]. intros c s' Hc Hs'. by apply starred_cell. }
  destruct (for_up 0 M _ _) as [[m1 rc1] cc1]. intros [= <- <- <- <-]. destruct Hs as (? & ? & ? & _).
  split_and!; try done; intros; by apply clearCover_zero.
Qed.

(** ** Step four *)

Inductive tree (k : buf R) (m : buf Z) : list (Z * Z) -> Prop :=
| tree_nil : tree k m []
| tree_cons r c L :
    tree k m L -> 0 <= r < M -> 0 <= c < N -> r ∉ L.*1 -> k (c * M + r) = 0%R ->
    (exists c', 0 <= c' < N /\ star m r c') ->
    (forall r', 0 <= r' < M -> star m r' c -> r' ∈ L.*1) ->
    tree k m ((r, c) :: L).

Record covered (k : buf R) (m cc rc : buf Z) (L : list (Z * Z)) : Prop := {
  cv_tree : tree k m L;
  cv_match : matching m;
  cv_zero : starZeros k m;
  cv_prime : forall r c, 0 <= r < M -> 0 <= c < N -> m (c * M + r) = Mark_Prime <-> (r, c) ∈ L;
  cv_row : forall r, 0 <= r < M -> rc r = if decide (r ∈ L.*1) then 1 else 0;
  cv_col : forall c, 0 <= c < N ->
    (cc c = 1 /\ exists r, 0 <= r < M /\ star m r c /\ r ∉ L.*1)
    \/ (cc c = 0 /\ forall r, 0 <= r < M -> star m r c -> r ∈ L.*1);
}.

(** The outcome 5 of step four: an uncovered zero in a row without a star. *)
Record ready (k : buf R) (m : buf Z) (r0 c0 : Z) (L : list (Z * Z)) : Prop := {
  rd_tree : tree k m L;
  rd_match : matching m;
  rd_zero : starZeros k m;
  rd_row : 0 <= r0 < M;
  rd_col : 0 <= c0 < N;
  rd_new : r0 ∉ L.*1;
  rd_free : forall c, 0 <= c < N -> ~ star m r0 c;
  rd_cost : k (c0 * M + r0) = 0%R;
  rd_star : forall r', 0 <= r' < M -> star m r' c0 -> r' ∈ L.*1;
  rd_prime : forall r c, 0 <= r < M -> 0 <= c < N -> m (c * M + r) = Mark_Prime -> (r, c) ∈ (r0, c0) :: L;
  rd_marked : forall r c, (r, c) ∈ L -> m (c * M + r) = Mark_Prime;
}.

Definition sameStars (m m' : buf Z) : Prop := forall r c, 0 <= r < M -> 0 <= c < N -> star m' r c <-> star m r c.

Definition uncoveredZero (k : buf R) (cc rc : buf Z) : Prop :=
  exists r c, 0 <= r < M /\ 0 <= c < N /\ k (c * M + r) = 0%R /\ cc c = 0 /\ rc r = 0.

Lemma tree_range k m L r c : tree k m L -> (r, c) ∈ L -> 0 <= r < M /\ 0 <= c < N /\ k (c * M + r) = 0%R.
Proof.
  induction 1 as [|r1 c1 L H IH]; intros Hin; [by apply elem_of_nil in Hin|].
  apply elem_of_cons in Hin as [[= -> ->]|Hin]; [done|auto].
Qed.

Lemma tree_nodup k m L : tree k m L -> NoDup L.*1.
Proof. induction 1; cbn; constructor; auto. Qed.

Lemma tree_rows k m L r : tree k m L -> r ∈ L.*1 -> 0 <= r < M /\ exists c, 0 <= c < N /\ star m r c.
Proof.
  induction 1 as [|r1 c1 L H IH]; cbn; intros Hin; [by apply elem_of_nil in Hin|].
  apply elem_of_cons in Hin as [->|Hin]; [done|auto].
Qed.

Lemma nodup_rows_bound (l : list Z) hi : 0 <= hi -> NoDup l -> (forall r, r ∈ l -> 0 <= r < hi) -> Z.of_nat (length l) <= hi.
Proof.
  intros Hhi Hnd Hr. assert (l ⊆+ zrange 0 hi) as Hs%submseteq_length.
  { apply NoDup_submseteq; [done|]. intros r Hin. by apply elem_of_zrange, Hr. }
  rewrite length_zrange in Hs. lia.
Qed.

Lemma tree_length k m L : tree k m L -> Z.of_nat (length L) <= M.
Proof.
  intros Ht. rewrite <- (length_fmap fst L). apply nodup_rows_bound; [done|by eapply tree_nodup|].
  intros r Hr. by eapply tree_rows.
Qed.

Lemma tree_ext k k' m m' L :
  sameStars m m' -> (forall r c, (r, c) ∈ L -> k' (c * M + r) = 0%R) -> tree k m L -> tree k' m' L.
Proof.
  intros Hs Hk. induction 1 as [|r c L Ht IH Hr Hc Hn Hz (c' & Hc' & Hst) Hcol]; constructor; auto.
  - apply IH. intros. apply Hk. by right.
  - apply Hk. left.
  - exists c'. split; [done|]. by apply Hs.
  - intros r' Hr' Hst'. apply Hcol; [done|]. by apply Hs.
Qed.

Lemma starCol_ext m m' c : sameStars m m' -> 0 <= c < N -> starCol M m' c = starCol M m c.
Proof.
  intros Hs Hc. apply eq_true_iff_eq. rewrite !starCol_spec.
  split; intros (r & Hr & Hst); exists r; (split; [done|by apply Hs]).
Qed.

Lemma matching_ext m m' : sameStars m m' -> matching m -> matching m'.
Proof.
  intros Hs [Hr Hc]. split.
  - intros r c c' ? ? ? ?%Hs ?%Hs; by eauto || done.
  - intros r r' c ? ? ? ?%Hs ?%Hs; by eauto || done.
Qed.

Lemma starZeros_ext k m m' : sameStars m m' -> starZeros k m -> starZeros k m'.
Proof. intros Hs Hz r c Hr Hc Hst. apply Hz; [done|done|]. by apply Hs. Qed.

Lemma findUncoveredZero_spec (k : buf R) cc rc :
  let '(r, c) := findUncoveredZero k cc rc M N in
  (r = -1 /\ c = -1 /\ ~ uncoveredZero k cc rc)
  \/ (0 <= r < M /\ 0 <= c < N /\ k (c * M + r) = 0%R /\ cc c = 0 /\ rc r = 0).
Proof.
  unfold findUncoveredZero.
  cut (let '(r, c) := uncoveredZeroFrom k cc rc M (zrange 0 N) in
    (r = -1 /\ c = -1 /\ forall r c, c ∈ zrange 0 N -> 0 <= r < M -> k (c * M + r) = 0%R -> cc c = 0 -> rc r <> 0)
    \/ (0 <= r < M /\ c ∈ zrange 0 N /\ k (c * M + r) = 0%R /\ cc c = 0 /\ rc r = 0)).
  { destruct (uncoveredZeroFrom _ _ _ _ _) as [r c]. intros [(-> & -> & Hn)|(Hr & Hc & Hrest)]; [left|right].
    - split_and!; [done|done|]. intros (r & c & Hr & Hc & Hk & Hcc & Hrc). eapply Hn; try done. by apply elem_of_zrange.
    - apply elem_of_zrange in Hc. done. }
  induction (zrange 0 N) as [|c l IH]; cbn.
  - left. split_and!; [done|done|]. intros r c Hc. by apply elem_of_nil in Hc.
  - destruct (List.find _ _) as [r|] eqn:E.
    + apply find_zrange_Some in E as [Hr E]. apply andb_prop in E as [[E1 E2%Z.eqb_eq]%andb_prop E3%Z.eqb_eq].
      right. split_and!; try done; [lia|lia|left|]. unfold Reqb in E1. by destruct (Req_EM_T _ _).
    + destruct (uncoveredZeroFrom _ _ _ _ _) as [r c']. destruct IH as [(-> & -> & Hn)|(Hr & Hc & Hrest)].
      * left. split_and!; [done|done|]. intros r c'' [->|Hin]%elem_of_cons Hr Hk Hcc Hrc; [|by eapply Hn].
        pose proof (find_zrange_None _ _ _ r E Hr) as Hf. cbn in Hf. rewrite Hk, Hcc, Hrc in Hf. cbn in Hf.
        unfold Reqb in Hf. by destruct (Req_EM_T 0 0).
      * right. split_and!; try done; [lia|lia|by right|tauto..].
Qed.

Lemma sameStars_refl m : sameStars m m.
Proof. done. Qed.

Lemma sameStars_trans m1 m2 m3 : sameStars m1 m2 -> sameStars m2 m3 -> sameStars m1 m3.
Proof. intros H1 H2 r c Hr Hc. specialize (H1 r c Hr Hc). specialize (H2 r c Hr Hc). tauto. Qed.

Lemma prime_stars m r c : 0 <= r < M -> ~ star m r c -> sameStars m (bset (c * M + r) Mark_Prime m).
Proof.
  intros Hr Hn r' c' Hr' Hc'. unfold star. rewrite bset_cell by done. destruct (decide _) as [[-> ->]|]; [|done].
  split; [done|]. by intros ?%Hn.
Qed.

Lemma isStarInRow_spec m r : isStarInRow m r M N = true <-> exists c, 0 <= c < N /\ star m r c.
Proof.
  unfold isStarInRow, star. rewrite existsb_exists. split; intros (c & H1 & H2); exists c.
  - split; [by apply elem_of_zrange, list_elem_of_In|lia].
  - split; [by apply list_elem_of_In, elem_of_zrange|lia].
Qed.

Lemma findStarInRow_spec m r c :
  0 <= c < N -> star m r c -> 0 <= findStarInRow m r M N < N /\ star m r (findStarInRow m r M N).
Proof.
  intros Hc Hs. destruct (firstIndex_found (fun c => m (c * M + r) =? Mark_Star) N c Hc) as [H1 H2]; [by apply Z.eqb_eq|].
  split; [done|]. by apply Z.eqb_eq.
Qed.

(** Covering the row of a primed zero. *)
Lemma covered_prime k m cc rc L r c c' :
  covered k m cc rc L -> 0 <= r < M -> 0 <= c < N -> k (c * M + r) = 0%R -> cc c = 0 -> rc r = 0 ->
  0 <= c' < N -> star m r c' ->
  covered k (bset (c * M + r) Mark_Prime m) (bset c' 0 cc) (bset r 1 rc) ((r, c) :: L).
Proof.
  intros [Ht Hm Hz Hp Hrow Hcol] Hr Hc Hk Hcc Hrc Hc' Hst.
  assert (r ∉ L.*1) as Hnew. { intros Hin. rewrite Hrow in Hrc by done. by rewrite decide_True in Hrc. }
  destruct (Hcol c Hc) as [[? _]|[_ Hcs]]; [congruence|].
  assert (~ star m r c) as Hns by (intros Hs; by apply Hnew, Hcs).
  pose proof (prime_stars m r c Hr Hns) as Hsame. set (m1 := bset _ _ m) in *.
  assert (tree k m1 L) as Ht1 by (eapply tree_ext; [done|intros ? ? ?%(tree_range _ _ _ _ _ Ht); tauto|done]).
  split.
  - constructor; try done.
    + exists c'. split; [done|]. by apply Hsame.
    + intros r' Hr' Hs. apply Hcs; [done|]. by apply Hsame.
  - by eapply matching_ext.
  - by eapply starZeros_ext.
  - intros r1 c1 Hr1 Hc1. unfold m1. rewrite bset_cell by done. rewrite elem_of_cons.
    destruct (decide _) as [[-> ->]|Hne]; [by split; [left|]|].
    rewrite Hp by done. split; [by right|]. intros [[= -> ->]|]; [|done]. by destruct Hne.
  - intros r1 Hr1. unfold bset. cbn. destruct (Z.eqb_spec r1 r) as [->|Hne].
    + rewrite decide_True; [done|left].
    + rewrite Hrow by done. destruct (decide (r1 ∈ L.*1)).
      * rewrite decide_True; [done|by right].
      * rewrite decide_False; [done|]. rewrite elem_of_cons. tauto.
  - intros c1 Hc1. unfold bset. cbn. destruct (Z.eqb_spec c1 c') as [->|Hne].
    + right. split; [done|]. intros r1 Hr1 Hs1%Hsame; [|done..].
      assert (r1 = r) as -> by (by eapply (m_col m Hm r1 r c')). left.
    + destruct (Hcol c1 Hc1) as [(E & r1 & Hr1 & Hs1 & Hn1)|[E Hall]].
      * left. split; [done|]. exists r1. split_and!; [lia|lia|by apply Hsame|].
        rewrite elem_of_cons. intros [->|]; [|done]. by destruct Hne; eapply (m_row m Hm r).
      * right. split; [done|]. intros r1 Hr1 Hs1%Hsame; [|done..]. right. auto.
Qed.

(** A primed zero in a row without a star starts the path. *)
Lemma covered_ready k m cc rc L r c :
  covered k m cc rc L -> 0 <= r < M -> 0 <= c < N -> k (c * M + r) = 0%R -> cc c = 0 -> rc r = 0 ->
  (forall c', 0 <= c' < N -> ~ star m r c') ->
  ready k (bset (c * M + r) Mark_Prime m) r c L.
Proof.
  intros [Ht Hm Hz Hp Hrow Hcol] Hr Hc Hk Hcc Hrc Hfree.
  assert (r ∉ L.*1) as Hnew. { intros Hin. rewrite Hrow in Hrc by done. by rewrite decide_True in Hrc. }
  destruct (Hcol c Hc) as [[? _]|[_ Hcs]]; [congruence|].
  pose proof (prime_stars m r c Hr (Hfree c Hc)) as Hsame. set (m1 := bset _ _ m) in *.
  split; try done.
  - eapply tree_ext; [done|intros ? ? ?%(tree_range _ _ _ _ _ Ht); tauto|done].
  - by eapply matching_ext.
  - by eapply starZeros_ext.
  - intros c' Hc' Hs%Hsame; [|done..]. by eapply Hfree.
  - intros r' Hr' Hs%Hsame; [|done..]. auto.
  - intros r1 c1 Hr1 Hc1. unfold m1. rewrite bset_cell by done. destruct (decide _) as [[-> ->]|Hne]; [left|].
    intros Hpr%Hp; [|done..]. by right.
  - intros r1 c1 Hin. destruct (tree_range _ _ _ _ _ Ht Hin) as (Hr1 & Hc1 & _).
    unfold m1. rewrite bset_cell by done. destruct (decide _) as [|Hne]; [done|]. by apply Hp.
Qed.

Lemma stepFour_spec k fuel m cc rc first L :
  covered k m cc rc L -> (M - Z.of_nat (length L) < Z.of_nat fuel) ->
  exists m' cc' rc' first' n L', stepFour fuel k m cc rc M N first = Some (m', cc', rc', first', n)
  /\ sameStars m m'
  /\ ((n = 6 /\ covered k m' cc' rc' L' /\ ~ uncoveredZero k cc' rc' /\ (length L <= length L')%nat
       /\ (uncoveredZero k cc rc -> (length L < length L')%nat))
      \/ (n = 5 /\ ready k m' (fst first') (snd first') L' /\ uncoveredZero k cc rc)).
Proof.
  revert m cc rc L. induction fuel as [|fuel IH]; intros m cc rc L Hcv Hfuel.
  { pose proof (tree_length _ _ _ (cv_tree _ _ _ _ _ Hcv)). lia. }
  cbn. pose proof (findUncoveredZero_spec k cc rc) as Hf. destruct (findUncoveredZero _ _ _ _ _) as [r c].
  destruct Hf as [(-> & -> & Hno)|(Hr & Hc & Hk & Hcc & Hrc)].
  - cbn. do 6 eexists. split; [reflexivity|]. split; [done|]. left. split_and!; try done.
  - destruct (Z.ltb_spec r 0); [lia|]. cbn.
    assert (uncoveredZero k cc rc) as Huz by (by exists r, c).
    assert (~ star m r c) as Hns.
    { destruct (cv_col _ _ _ _ _ Hcv c Hc) as [[? _]|[_ Hcs]]; [congruence|]. intros Hs%Hcs; [|done].
      rewrite (cv_row _ _ _ _ _ Hcv) in Hrc by done. by rewrite decide_True in Hrc. }
    pose proof (prime_stars m r c Hr Hns) as Hsame.
    destruct (isStarInRow _ r M N) eqn:Es.
    + apply isStarInRow_spec in Es as (c1 & Hc1 & Hs1). destruct (findStarInRow_spec _ _ _ Hc1 Hs1) as [Hc2 Hs2].
      set (c2 := findStarInRow _ _ _ _) in *. apply Hsame in Hs2; [|done..].
      destruct (IH _ _ _ _ (covered_prime k m cc rc L r c c2 Hcv Hr Hc Hk Hcc Hrc Hc2 Hs2))
        as (m' & cc' & rc' & first' & n & L' & -> & Hsame' & Hout); [cbn [length]; lia|].
      exists m', cc', rc', first', n, L'. split; [done|]. split; [by eapply sameStars_trans|].
      destruct Hout as [(-> & ? & ? & Hl & _)|(-> & ? & _)]; [left|right]; split_and!; try done; cbn [length] in Hl; lia.
    + do 6 eexists. split; [reflexivity|]. split; [done|]. right. split_and!; [done| |done]. cbn.
      apply (covered_ready k m cc rc L); try done. intros c' Hc' Hs.
      assert (isStarInRow (bset (c * M + r) Mark_Prime m) r M N = true); [|congruence].
      apply isStarInRow_spec. exists c'. split; [done|]. by apply Hsame.
Qed.

(** ** Step five: the alternating path *)

(** [alt m L r c l]: from the primed zero [(r, c)], [l] alternates between primed
    zeros and stars in the same column; its further primed zeros are in [L], and
    it ends in a column without a star. *)
Inductive alt (m : buf Z) : list (Z * Z) -> Z -> Z -> list (Z * Z) -> Prop :=
| alt_end L r c : (forall r', 0 <= r' < M -> ~ star m r' c) -> alt m L r c [(r, c)]
| alt_step L1 L2 r c r' c' l :
    0 <= r' < M -> star m r' c -> alt m L2 r' c' l ->
    alt m (L1 ++ (r', c') :: L2) r c ((r, c) :: (r', c) :: l).

(** The path buffer holds [l] from entry [i] on. *)
Definition holds (path : buf Z) (i : Z) (l : list (Z * Z)) : Prop :=
  forall j rc, l !! j = Some rc -> path ((i + Z.of_nat j) * 2) = fst rc /\ path ((i + Z.of_nat j) * 2 + 1) = snd rc.

Lemma tree_app k m L1 L2 : tree k m (L1 ++ L2) -> tree k m L2.
Proof. induction L1 as [|rc L1 IH]; [done|]. cbn. intros Ht. inversion Ht. auto. Qed.

Lemma findStarInCol_spec m c :
  (0 <= findStarInCol m c M < M /\ star m (findStarInCol m c M) c)
  \/ (findStarInCol m c M = -1 /\ forall r, 0 <= r < M -> ~ star m r c).
Proof.
  unfold findStarInCol, star. destruct (firstIndex_spec (fun r => m (c * M + r) =? 1) M) as [[H1 H2]|[H1 H2]]; [left|right].
  - split; [done|]. by apply Z.eqb_eq.
  - split; [done|]. intros r Hr Hs. specialize (H2 r Hr). rewrite Hs in H2. done.
Qed.

(** The prime of a covered row. *)
Lemma findPrimeInRow_tree k m L r :
  tree k m L -> (forall r c, (r, c) ∈ L -> m (c * M + r) = Mark_Prime) ->
  (forall c, 0 <= c < N -> m (c * M + r) = Mark_Prime -> (r, c) ∈ L) -> r ∈ L.*1 ->
  (r, findPrimeInRow m r M N) ∈ L.
Proof.
  intros Ht Hmk Hp ([r' c] & -> & Hin)%list_elem_of_fmap. cbn in *.
  destruct (tree_range _ _ _ _ _ Ht Hin) as (Hr & Hc & _).
  destruct (firstIndex_found (fun c => m (c * M + r') =? 2) N c Hc) as [H1 H2]; [by rewrite (Hmk _ _ Hin)|].
  apply Hp; [done|]. by apply Z.eqb_eq.
Qed.

Lemma holds_bset path i l j x : holds path i l -> j < i * 2 -> holds (bset j x path) i l.
Proof. intros Hh Hj n rc Hn. destruct (Hh n rc Hn). rewrite !bset_ne by lia. done. Qed.

(** One turn of the loop of step five appends two entries. *)
Definition extend (path : buf Z) (n r c : Z) : buf Z :=
  bset ((n + 1 + 1 - 1) * 2 + 1) c (bset ((n + 1 + 1 - 1) * 2) r
    (bset ((n + 1 - 1) * 2 + 1) (path ((n - 1) * 2 + 1)) (bset ((n + 1 - 1) * 2) r path))).

Lemma extend_cells path n r c :
  (forall j, j < n * 2 \/ (n + 2) * 2 <= j -> extend path n r c j = path j)
  /\ extend path n r c (n * 2) = r /\ extend path n r c (n * 2 + 1) = path ((n - 1) * 2 + 1)
  /\ extend path n r c ((n + 1) * 2) = r /\ extend path n r c ((n + 1) * 2 + 1) = c.
Proof.
  unfold extend, bset. split_and!; [intros j Hj|..];
    repeat match goal with |- context [(?a =? ?b)%Z] => destruct (Z.eqb_spec a b); try lia end; done.
Qed.

Lemma buildPath_turn m fuel path n :
  let r := findStarInCol m (path ((n - 1) * 2 + 1)) M in
  buildPath (S fuel) m M N path n =
  if -1 <? r then buildPath fuel m M N (extend path n r (findPrimeInRow m r M N)) (n + 1 + 1) else Some (path, n).
Proof.
  cbn [buildPath]. cbv zeta. set (r := findStarInCol _ _ _). destruct (-1 <? r); [|done].
  set (p1 := bset ((n + 1 - 1) * 2) r path).
  assert (p1 ((n + 1 - 2) * 2 + 1) = path ((n - 1) * 2 + 1)) as -> by (unfold p1; rewrite bset_ne by lia; f_equal; lia).
  set (p2 := bset ((n + 1 - 1) * 2 + 1) _ p1).
  assert (p2 ((n + 1 - 1) * 2) = r) as E2 by (unfold p2, p1; rewrite bset_ne, bset_eq by lia; done).
  replace (n + 1 + 1 - 2) with (n + 1 - 1) by lia. by rewrite E2.
Qed.

Lemma holds_cons2 path i a b l :
  path (i * 2) = fst a -> path (i * 2 + 1) = snd a -> path ((i + 1) * 2) = fst b -> path ((i + 1) * 2 + 1) = snd b ->
  holds path (i + 2) l -> holds path i (a :: b :: l).
Proof.
  intros H1 H2 H3 H4 Hh [|[|j]] rc Hj; cbn in Hj.
  - injection Hj as <-. rewrite Z.add_0_r. done.
  - injection Hj as <-. done.
  - replace (i + Z.of_nat (S (S j))) with (i + 2 + Z.of_nat j) by lia. by apply Hh.
Qed.

(** Primes of the rows of a part of the tree are in that part. *)
Lemma primes_suffix k m L1 r c L2 :
  tree k m (L1 ++ (r, c) :: L2) ->
  (forall r' c', r' ∈ (L1 ++ (r, c) :: L2).*1 -> 0 <= c' < N -> m (c' * M + r') = Mark_Prime -> (r', c') ∈ L1 ++ (r, c) :: L2) ->
  forall r' c', r' ∈ L2.*1 -> 0 <= c' < N -> m (c' * M + r') = Mark_Prime -> (r', c') ∈ L2.
Proof.
  intros Ht Hp r1 c1 Hr1 Hc1 Hm1. pose proof (tree_nodup _ _ _ Ht) as Hnd. rewrite fmap_app, fmap_cons in Hnd, Hp. cbn in Hnd.
  apply NoDup_app in Hnd as (_ & Hd & [Hn _]%NoDup_cons).
  assert ((r1, c1) ∈ L1 ++ (r, c) :: L2) as Hall by (apply Hp; [apply elem_of_app; right; by right|done|done]).
  apply elem_of_app in Hall as [HL1|[[= -> ->]|?]%elem_of_cons]; [|done|done]. exfalso. apply (Hd r1).
  - apply list_elem_of_fmap. by exists (r1, c1).
  - by right.
Qed.

Lemma buildPath_spec k m fuel :
  forall L path n r c,
  tree k m L -> (forall r c, (r, c) ∈ L -> m (c * M + r) = Mark_Prime) ->
  (forall r' c', r' ∈ L.*1 -> 0 <= c' < N -> m (c' * M + r') = Mark_Prime -> (r', c') ∈ L) ->
  (forall r', 0 <= r' < M -> star m r' c -> r' ∈ L.*1) ->
  path ((n - 1) * 2) = r -> path ((n - 1) * 2 + 1) = c -> (length L < fuel)%nat ->
  exists path' l, buildPath fuel m M N path n = Some (path', n - 1 + Z.of_nat (length l))
    /\ alt m L r c l /\ holds path' (n - 1) l /\ (forall j, j < (n - 1) * 2 \/ (n - 1 + Z.of_nat (length l)) * 2 <= j -> path' j = path j)
    /\ (length l <= 2 * length L + 1)%nat.
Proof.
  induction fuel as [|fuel IH]; [lia|]. intros L path n r c Ht Hmk Hp Hcol Er Ec Hfuel. rewrite buildPath_turn, Ec.
  destruct (findStarInCol_spec m c) as [[Hr' Hs]|[-> Hno]]; cbv zeta.
  - set (r' := findStarInCol m c M) in *. destruct (Z.ltb_spec (-1) r'); [|lia].
    pose proof (findPrimeInRow_tree k m L r' Ht Hmk (fun c1 H1 => Hp r' c1 (Hcol r' Hr' Hs) H1) (Hcol r' Hr' Hs)) as Hin'.
    set (c' := findPrimeInRow m r' M N) in *. destruct (extend_cells path n r' c') as (Hlow & H1 & H2 & H3 & H4).
    apply list_elem_of_split in Hin' as (L1 & L2 & ->).
    pose proof (tree_app _ _ _ _ Ht) as Ht'. inversion Ht' as [|? ? ? HtL2 _ _ Hnew _ _ Hcol']; subst.
    destruct (IH L2 (extend path n r' c') (n + 1 + 1) r' c') as (path' & l & Hb & Halt & Hh & Hlow' & Hlen).
    + done.
    + intros r1 c1 Hin. apply Hmk, elem_of_app. right. by right.
    + by eapply primes_suffix.
    + done.
    + by replace (n + 1 + 1 - 1) with (n + 1) by lia.
    + by replace (n + 1 + 1 - 1) with (n + 1) by lia.
    + rewrite length_app in Hfuel. cbn in Hfuel. lia.
    + eexists path', (_ :: _ :: l). split_and!.
      * rewrite Hb. f_equal. f_equal. cbn [length]. lia.
      * by apply alt_step.
      * apply holds_cons2; cbn [fst snd].
        1,2: rewrite Hlow' by lia; by rewrite Hlow by lia.
        1,2: rewrite Hlow' by lia; by replace (n - 1 + 1) with n by lia.
        by replace (n - 1 + 2) with (n + 1 + 1 - 1) by lia.
      * intros j Hj. cbn [length] in Hj. rewrite Hlow' by lia. apply Hlow. assert (0 < length l)%nat by (destruct Halt; cbn; lia). lia.
      * cbn [length]. rewrite length_app. cbn [length]. lia.
  - cbn. exists path, [(r, c)]. split_and!; [f_equal; f_equal; cbn; lia|by apply alt_end| |done|cbn; lia].
    intros [|j] rc' Hj; [|done]. injection Hj as <-. rewrite Z.add_0_r. done.
Qed.

(** ** Step five: augmenting *)

Definition toggle (m : buf Z) (rc : Z * Z) : buf Z :=
  if m (snd rc * M + fst rc) =? Mark_Star then bset (snd rc * M + fst rc) Mark_None m
  else bset (snd rc * M + fst rc) Mark_Star m.

Lemma holds_snoc path i l rc :
  holds path i (l ++ [rc]) ->
  holds path i l /\ path ((i + Z.of_nat (length l)) * 2) = fst rc /\ path ((i + Z.of_nat (length l)) * 2 + 1) = snd rc.
Proof.
  intros Hh. split; [intros j x Hj; apply Hh; by apply lookup_app_l_Some|]. apply Hh. by apply list_lookup_middle.
Qed.

Lemma augmentPaths_fold path l m :
  holds path 0 l -> augmentPaths path (Z.of_nat (length l)) m M = fold_left toggle l m.
Proof.
  induction l as [|rc l IH] using rev_ind; [done|]. intros (Hh & H1 & H2)%holds_snoc.
  rewrite Z.add_0_l in H1, H2. rewrite fold_left_app, length_app. cbn [length fold_left].
  replace (Z.of_nat (length l + 1)) with (Z.of_nat (length l) + 1) by lia.
  unfold augmentPaths in *. rewrite for_up_snoc by lia. rewrite IH by done. rewrite H1, H2. done.
Qed.

Lemma star_toggle_on m r c r' c' :
  0 <= r < M -> 0 <= r' < M -> ~ star m r c ->
  star (toggle m (r, c)) r' c' <-> (r' = r /\ c' = c) \/ star m r' c'.
Proof.
  intros Hr Hr' Hn. unfold toggle. cbn. destruct (Z.eqb_spec (m (c * M + r)) Mark_Star) as [E|]; [by destruct Hn|].
  by apply star_bset.
Qed.

Lemma star_toggle_off m r c r' c' :
  0 <= r < M -> 0 <= r' < M -> star m r c ->
  star (toggle m (r, c)) r' c' <-> star m r' c' /\ ~ (r' = r /\ c' = c).
Proof.
  intros Hr Hr' Hs. unfold toggle, star. cbn. rewrite (proj2 (Z.eqb_eq _ _) Hs), bset_cell by done.
  destruct (decide _) as [|]; [|tauto]. split; [done|tauto].
Qed.

Lemma alt_stable m m' L r c l :
  alt m L r c l ->
  (forall r' c', r' ∈ L.*1 -> star m r' c' -> star m' r' c') ->
  (forall c', (forall r', 0 <= r' < M -> ~ star m r' c') -> forall r', 0 <= r' < M -> ~ star m' r' c') ->
  alt m' L r c l.
Proof.
  induction 1 as [L r c Hno|L1 L2 r c r' c' l Hr' Hs _ IH]; intros H1 H2.
  - apply alt_end. by apply H2.
  - apply alt_step; [done| |].
    + apply H1; [|done]. rewrite fmap_app. apply elem_of_app. right. left.
    + apply IH; [|done]. intros r1 c1 Hr1. apply H1. rewrite fmap_app. apply elem_of_app. right. by right.
Qed.

Lemma filter_length_add (p q : Z -> bool) x l :
  NoDup l -> x ∈ l -> p x = false -> (forall y, y ∈ l -> q y = p y || (y =? x)) ->
  length (List.filter q l) = S (length (List.filter p l)).
Proof.
  induction 1 as [|y l Hy Hnd IH]; intros Hx Hp Hq; [by apply elem_of_nil in Hx|]. cbn.
  rewrite (Hq y) by left. destruct (Z.eqb_spec y x) as [->|Hne].
  - rewrite Hp. cbn. f_equal. f_equal. clear IH Hx. 
    assert (forall z, z ∈ l -> q z = p z) as He.
    { intros z Hz. rewrite Hq by (by right). destruct (Z.eqb_spec z x) as [->|]; [done|by rewrite orb_false_r]. }
    clear Hnd Hq Hy. induction l as [|z l IH]; [done|]. cbn. rewrite (He z) by left. rewrite IH; [done|]. intros. apply He. by right.
  - rewrite orb_false_r. apply elem_of_cons in Hx as [|Hx]; [done|].
    assert (length (List.filter q l) = S (length (List.filter p l))) as E by (apply IH; [done|done|intros; apply Hq; by right]).
    destruct (p y); cbn; by rewrite E.
Qed.

Lemma filter_ext_range (p q : Z -> bool) hi :
  (forall c, 0 <= c < hi -> q c = p c) -> List.filter q (zrange 0 hi) = List.filter p (zrange 0 hi).
Proof. intros He. apply filter_ext_in. intros c Hc. apply He. by apply elem_of_zrange, list_elem_of_In. Qed.

(** What augmenting keeps and gains. *)
Definition augmented (k : buf R) (m m' : buf Z) : Prop :=
  matching m' /\ starZeros k m' /\ (forall c, 0 <= c < N -> starCol M m c = true -> starCol M m' c = true)
  /\ starCount M N m' = starCount M N m + 1.

(** The end of the path: a zero in a free row and a free column. *)
Lemma augment_end k m r c :
  matching m -> starZeros k m -> 0 <= r < M -> 0 <= c < N -> k (c * M + r) = 0%R ->
  (forall c', 0 <= c' < N -> ~ star m r c') -> (forall r', 0 <= r' < M -> ~ star m r' c) ->
  augmented k m (toggle m (r, c)).
Proof.
  intros Hm Hz Hr Hc Hk Hrow Hcol.
  assert (forall r' c', 0 <= r' < M -> star (toggle m (r, c)) r' c' <-> (r' = r /\ c' = c) \/ star m r' c') as Hst.
  { intros r' c' Hr'. by apply star_toggle_on; [| |apply Hrow]. }
  assert (forall c', 0 <= c' < N -> starCol M (toggle m (r, c)) c' = starCol M m c' || (c' =? c)) as Hsc.
  { intros c' Hc'. apply eq_true_iff_eq. rewrite orb_true_iff, !starCol_spec, Z.eqb_eq. split.
    - intros (r' & Hr' & [[_ ->]|Hs]%Hst); [by right|left; eauto|done].
    - intros [(r' & Hr' & Hs)| ->]; [exists r'|exists r]; (split; [done|]; apply Hst; [done|]); auto. }
  split_and!.
  - split.
    + intros r0 c0 c1 H1 H2 H3 Hs0%Hst Hs1%Hst; [|done..].
      destruct Hs0 as [[-> ->]|Hs0], Hs1 as [[E ->]|Hs1]; [done|by destruct (Hrow c1)|subst; by destruct (Hrow c0)|].
      by apply (m_row m Hm r0).
    + intros r0 r1 c0 H1 H2 H3 Hs0%Hst Hs1%Hst; [|done..].
      destruct Hs0 as [[-> ->]|Hs0], Hs1 as [[-> E]|Hs1]; [done|by destruct (Hcol r1)|subst; by destruct (Hcol r0)|].
      by apply (m_col m Hm r0 r1 c0).
  - intros r' c' Hr' Hc' [[-> ->]|Hs]%Hst; [done|by apply Hz|done].
  - intros c' Hc' Hs. by rewrite Hsc, Hs.
  - unfold starCount. rewrite (filter_length_add (starCol M m) (starCol M (toggle m (r, c))) c); [lia|..].
    + unfold zrange. apply NoDup_seqZ.
    + by apply elem_of_zrange.
    + apply not_true_iff_false. rewrite starCol_spec. intros (r' & Hr' & Hs). by eapply Hcol.
    + intros y Hy%elem_of_zrange. by apply Hsc.
Qed.

(** Two entries of the path move the star of column [c] from row [r'] to the
    free row [r]. *)
Lemma augment_move k m r c r' :
  matching m -> starZeros k m -> 0 <= r < M -> 0 <= c < N -> k (c * M + r) = 0%R ->
  (forall c', 0 <= c' < N -> ~ star m r c') -> 0 <= r' < M -> star m r' c ->
  let m2 := toggle (toggle m (r, c)) (r', c) in
  matching m2 /\ starZeros k m2 /\ (forall c', 0 <= c' < N -> ~ star m2 r' c')
  /\ (forall c', 0 <= c' < N -> starCol M m2 c' = starCol M m c')
  /\ (forall a b, 0 <= a < M -> star m2 a b <-> (a = r /\ b = c) \/ (star m a b /\ ~ (a = r' /\ b = c))).
Proof.
  intros Hm Hz Hr Hc Hk Hrow Hr' Hs m2.
  assert (r' <> r) as Hne by (intros ->; by apply (Hrow c)).
  assert (forall a b, 0 <= a < M -> star m2 a b <-> (a = r /\ b = c) \/ (star m a b /\ ~ (a = r' /\ b = c))) as Hst.
  { intros a b Ha. unfold m2.
    assert (star (toggle m (r, c)) r' c) as S1 by (apply star_toggle_on; [done|done|by apply Hrow|by right]).
    rewrite (star_toggle_off _ r' c a b Hr' Ha S1), (star_toggle_on m r c a b Hr Ha (Hrow c Hc)).
    split; [intros [[?|?] ?]; tauto|]. intros [[-> ->]|[? ?]]; [|tauto]. split; [by left|]. intros [? _]; congruence. }
  split_and!; [| | | |done].
  - split.
    + intros a b b' Ha Hb Hb' [[-> ->]|[S1 N1]]%Hst [[E1 ->]|[S2 N2]]%Hst; try done.
      * by destruct (Hrow b').
      * subst. by destruct (Hrow b).
      * by apply (m_row m Hm a).
    + intros a a' b Ha Ha' Hb [[-> ->]|[S1 N1]]%Hst [[-> E]|[S2 N2]]%Hst; try done.
      * destruct N2. split; [|done]. by apply (m_col m Hm a' r' c).
      * subst. destruct N1. split; [|done]. by apply (m_col m Hm a r' c).
      * by apply (m_col m Hm a a' b).
  - intros a b Ha Hb [[-> ->]|[S1 _]]%Hst; [done|by apply Hz|done].
  - intros b Hb [[E _]|[S1 N1]]%Hst; [done| |done]. apply N1. split; [done|]. by apply (m_row m Hm r').
  - intros b Hb. apply eq_true_iff_eq. rewrite !starCol_spec. split.
    + intros (a & Ha & [[-> ->]|[S1 _]]%Hst); [by exists r'|by exists a|done].
    + intros (a & Ha & S1). destruct (decide (a = r' /\ b = c)) as [[-> ->]|Hn].
      * exists r. split; [done|]. apply Hst; [done|]. by left.
      * exists a. split; [done|]. apply Hst; [done|]. by right.
Qed.

Lemma starCount_ext m m' : (forall c, 0 <= c < N -> starCol M m' c = starCol M m c) -> starCount M N m' = starCount M N m.
Proof. intros He. unfold starCount. by rewrite (filter_ext_range (starCol M m)). Qed.

Lemma augment_spec k m L r c l :
  alt m L r c l -> matching m -> starZeros k m -> 0 <= r < M -> 0 <= c < N -> k (c * M + r) = 0%R ->
  (forall c', 0 <= c' < N -> ~ star m r c') -> r ∉ L.*1 -> NoDup L.*1 ->
  (forall r c, (r, c) ∈ L -> 0 <= r < M /\ 0 <= c < N /\ k (c * M + r) = 0%R) ->
  augmented k m (fold_left toggle l m).
Proof.
  revert m L r c. induction l as [l IH] using (well_founded_induction (well_founded_ltof _ (@length (Z * Z)))).
  intros m L r c Ha Hm Hz Hr Hc Hk Hrow Hn Hnd HL. inversion Ha as [? ? ? Hno|L1 L2 ? ? r' c' l' Hr' Hs Ha']; subst.
  - by apply augment_end.
  - cbn [fold_left]. destruct (augment_move k m r c r') as (Hm2 & Hz2 & Hrow2 & Hsc & Hst); try done.
    set (m2 := toggle (toggle m (r, c)) (r', c)) in *.
    rewrite fmap_app, fmap_cons in Hnd, Hn. cbn in Hnd, Hn.
    apply NoDup_app in Hnd as (_ & _ & [Hn' Hnd']%NoDup_cons).
    assert (r ∉ L2.*1) as Hn2 by (intros Hin; apply Hn, elem_of_app; right; by right).
    assert (forall x, x ∈ (r', c') :: L2 -> x ∈ L1 ++ (r', c') :: L2) as HinL by (intros; apply elem_of_app; by right).
    destruct (HL r' c') as (_ & Hc' & Hk'); [apply HinL; left|].
    destruct (IH l') with (m := m2) (L := L2) (r := r') (c := c') as (Ga & Gb & Gc & Gd); try done.
    + unfold ltof. cbn. lia.
    + eapply alt_stable; [exact Ha'| |].
      * intros a b Hin S1. apply list_elem_of_fmap in Hin as ([a' b'] & -> & Hin). cbn in *.
        destruct (HL a' b') as (Ha1 & _); [apply HinL; by right|]. apply Hst; [done|]. right. split; [done|].
        intros [-> _]. apply Hn'. apply list_elem_of_fmap. by exists (r', b').
      * intros b Hno a Ha1 [[-> ->]|[S1 _]]%Hst; [by apply (Hno r')|by apply (Hno a)|done].
    + intros a b Hin. apply HL, HinL. by right.
    + split_and!; try done.
      * intros b Hb Sb. apply Gc; [done|]. by rewrite Hsc.
      * rewrite Gd. by rewrite (starCount_ext m).
Qed.

Lemma erasePrimes_stars m : 0 <= N -> sameStars m (erasePrimes m M N) /\ noPrimes (erasePrimes m M N).
Proof.
  intros HN. split; intros r c Hr Hc; unfold star; rewrite erasePrimes_cell by done;
    destruct (Z.eqb_spec (m (c * M + r)) Mark_Prime) as [E|]; rewrite ?E; done.
Qed.

Lemma stepFive_spec k m cc rc path first L :
  M <= N -> ready k m (fst first) (snd first) L ->
  exists m' cc' rc' path', stepFive (Z.to_nat (M + 1)) m cc rc path first M N = Some (m', cc', rc', path', 3)
  /\ augmented k m m' /\ noPrimes m'
  /\ (forall r, 0 <= r < M -> rc' r = 0) /\ (forall c, 0 <= c < N -> cc' c = 0)
  /\ (forall j, j < 0 \/ N * N * 2 <= j -> path' j = path j).
Proof.
  intros HMN [Ht Hm Hz Hr Hc Hn Hfree Hk Hst Hp Hmk]. destruct first as [r0 c0]. cbn [fst snd] in *.
  assert (Z.of_nat (length L) + 1 <= M) as Hlen.
  { pose proof (nodup_rows_bound (r0 :: L.*1) M HM) as H. cbn [length] in H. rewrite length_fmap in H.
    enough (Z.of_nat (S (length L)) <= M) by lia. apply H.
    - constructor; [done|by eapply tree_nodup].
    - intros r [->|Hin]%elem_of_cons; [done|]. by eapply tree_rows. }
  unfold stepFive. cbv zeta. cbn [fst snd]. set (path1 := bset _ c0 _).
  destruct (buildPath_spec k m (Z.to_nat (M + 1)) L path1 1 r0 c0) as (path' & l & -> & Ha & Hh & Hlow & Hl); try done.
  - intros r c Hin Hc' Hpr. destruct (tree_rows _ _ _ _ Ht Hin) as [Hr' _].
    pose proof (Hp r c Hr' Hc' Hpr) as [[= -> ->]|]%elem_of_cons; done.
  - lia.
  - replace (1 - 1 + Z.of_nat (length l)) with (Z.of_nat (length l)) by lia. rewrite augmentPaths_fold by done.
    destruct (erasePrimes_stars (fold_left toggle l m) (ltac:(lia))) as [Hsame Hnp].
    destruct (augment_spec k m L r0 c0 l) as (Ga & Gb & Gc & Gd); try done.
    { by eapply tree_nodup. }
    { intros r c Hin. by eapply tree_range. }
    do 4 eexists. split; [reflexivity|]. split_and!; try done.
    + split_and!; [by eapply matching_ext|by eapply starZeros_ext| |].
      * intros c Hc' Hs. rewrite (starCol_ext _ _ _ Hsame) by done. auto.
      * rewrite <- Gd. apply starCount_ext. intros c Hc'. by apply starCol_ext.
    + intros r Hr'. by apply clearCover_zero.
    + intros c Hc'. by apply clearCover_zero.
    + intros j Hj. rewrite Hlow.
      * unfold path1. rewrite !bset_ne; [done|nia|nia].
      * destruct Hj as [|Hj]; [lia|right]. nia.
Qed.
End Matching.
