(* ===== verification/HungarianOptimal.v ===== *)
(** The assignment algorithm: the dual certificate, the bound on the passes of
    the [switch], and optimality. *)
From Stdlib Require Import Reals Lra.
From S2P Require Import Prelude Numeric RealSum Hungarian HungarianProofs.

Open Scope Z_scope.

(** * Counting stars *)

Section Count.
Context (M N : Z) (HM : 0 <= M).

Lemma NoDup_fmap_in (f : Z -> Z) (l : list Z) :
  NoDup l -> (forall x y, x ∈ l -> y ∈ l -> f x = f y -> x = y) -> NoDup (f <$> l).
Proof.
  induction 1 as [|x l Hx Hnd IH]; intros Hinj; [constructor|]. rewrite fmap_cons. constructor.
  - intros (y & E & Hy)%list_elem_of_fmap. apply Hx. assert (x = y) as -> by (apply Hinj; [left|by right|done]). done.
  - apply IH. intros y z Hy Hz. apply Hinj; by right.
Qed.

Lemma inj_length (f : Z -> Z) (l k : list Z) :
  NoDup l -> (forall x, x ∈ l -> f x ∈ k) -> (forall x y, x ∈ l -> y ∈ l -> f x = f y -> x = y) ->
  (length l <= length k)%nat /\ (length l = length k -> forall z, z ∈ k -> exists x, x ∈ l /\ f x = z).
Proof.
  intros Hnd Hin Hinj.
  pose proof (NoDup_fmap_in f l Hnd Hinj) as Hnd'.
  assert (f <$> l ⊆+ k) as Hs.
  { apply NoDup_submseteq; [done|]. intros z (x & -> & Hx)%list_elem_of_fmap. auto. }
  pose proof (submseteq_length _ _ Hs) as Hl. rewrite length_fmap in Hl. split; [done|].
  intros E z Hz. assert (f <$> l ≡ₚ k) as Hp.
  { apply submseteq_length_Permutation; [done|]. rewrite length_fmap. lia. }
  rewrite <- Hp in Hz. apply list_elem_of_fmap in Hz as (x & -> & Hx). eauto.
Qed.

Lemma elem_of_filter_star m c : c ∈ List.filter (starCol M m) (zrange 0 N) <-> 0 <= c < N /\ starCol M m c = true.
Proof. rewrite list_elem_of_In, filter_In, <- list_elem_of_In, elem_of_zrange. done. Qed.

Lemma NoDup_filter_star m : NoDup (List.filter (starCol M m) (zrange 0 N)).
Proof. apply NoDup_ListNoDup, List.NoDup_filter, NoDup_ListNoDup. unfold zrange. apply NoDup_seqZ. Qed.

Lemma starCol_row m c : starCol M m c = true -> 0 <= findStarInCol m c M < M /\ star M m (findStarInCol m c M) c.
Proof.
  intros (r & Hr & Hs)%starCol_spec. destruct (findStarInCol_spec M m c) as [|[_ Hn]]; [done|]. by destruct (Hn r).
Qed.

(** Columns with stars are at most as many as rows, and as many only when every
    row has one. *)
Lemma starCount_rows m :
  matching M N m ->
  starCount M N m <= M
  /\ (starCount M N m = M -> forall r, 0 <= r < M -> exists c, 0 <= c < N /\ star M m r c).
Proof.
  intros Hm. unfold starCount. set (l := List.filter _ _).
  destruct (inj_length (fun c => findStarInCol m c M) l (zrange 0 M) (NoDup_filter_star m)) as [Hle Hsur].
  - intros c [Hc Hs]%elem_of_filter_star. apply elem_of_zrange. by apply starCol_row.
  - intros c c' [Hc [Hr Hs]%starCol_row]%elem_of_filter_star [Hc' [Hr' Hs']%starCol_row]%elem_of_filter_star E.
    cbn in E. rewrite <- E in Hs'. exact (m_row M N m Hm _ c c' Hr Hc Hc' Hs Hs').
  - rewrite length_zrange in Hle, Hsur. split; [lia|]. intros E r Hr.
    destruct (Hsur ltac:(lia) r) as (c & [Hc [_ Hs]%starCol_row]%elem_of_filter_star & Er); [by apply elem_of_zrange|].
    exists c. cbn in Er. by rewrite Er in Hs.
Qed.

(** Rows with stars are at most as many as columns with stars. *)
Lemma rows_starCount m (l : list Z) :
  matching M N m -> NoDup l -> (forall r, r ∈ l -> 0 <= r < M /\ exists c, 0 <= c < N /\ star M m r c) ->
  Z.of_nat (length l) <= starCount M N m.
Proof.
  intros Hm Hnd Hl. unfold starCount.
  assert (forall r, r ∈ l -> 0 <= r < M /\ 0 <= findStarInRow m r M N < N /\ star M m r (findStarInRow m r M N)) as Hf.
  { intros r Hr. destruct (Hl r Hr) as [Hr' (c & Hc & Hs)]. split; [done|]. by eapply findStarInRow_spec. }
  destruct (inj_length (fun r => findStarInRow m r M N) l (List.filter (starCol M m) (zrange 0 N)) Hnd) as [Hle _].
  - intros r (Hr & Hc & Hs)%Hf. apply elem_of_filter_star. split; [done|]. apply starCol_spec. by exists r.
  - intros r r' (Hr & Hc & Hs)%Hf (Hr' & Hc' & Hs')%Hf E. cbn in E. rewrite <- E in Hs'. exact (m_col M N m Hm r r' _ Hr Hr' Hc Hs Hs').
  - lia.
Qed.

Lemma free_column m : starCount M N m < N -> exists c, 0 <= c < N /\ starCol M m c = false.
Proof.
  intros Hlt. destruct (List.find (fun c => negb (starCol M m c)) (zrange 0 N)) as [c|] eqn:E.
  - apply find_zrange_Some in E as [Hc Hs]. exists c. split; [done|]. by apply negb_true_iff.
  - exfalso. unfold starCount in Hlt. rewrite (filter_ext_range (fun _ => true)) in Hlt.
    + rewrite forallb_filter_id in Hlt by (by apply forallb_forall).
      rewrite length_zrange in Hlt. lia.
    + intros c Hc. pose proof (find_zrange_None _ _ _ c E Hc) as Hn. cbn in Hn. by destruct (starCol M m c).
Qed.

Lemma free_row (l : list Z) : Z.of_nat (length l) < M -> exists r, 0 <= r < M /\ r ∉ l.
Proof.
  intros Hlt. destruct (List.find (fun r => negb (bool_decide (r ∈ l))) (zrange 0 M)) as [r|] eqn:E.
  - apply find_zrange_Some in E as [Hr Hs]. exists r. split; [done|]. by apply negb_true_iff, bool_decide_eq_false in Hs.
  - exfalso. assert (zrange 0 M ⊆+ l) as Hs%submseteq_length.
    { apply NoDup_submseteq; [unfold zrange; apply NoDup_seqZ|]. intros r Hr%elem_of_zrange.
      pose proof (find_zrange_None _ _ _ r E Hr) as Hn. cbn in Hn. apply negb_false_iff in Hn.
      by apply bool_decide_eq_true in Hn. }
    rewrite length_zrange in Hs. lia.
Qed.
End Count.

(** * The dual certificate *)

Section Dual.
Context (M N : Z) (HM : 0 <= M) (HMN : M <= N) (k0 : buf R).
Hypothesis Hmax : forall r c, 0 <= r < M -> 0 <= c < N -> (k0 (c * M + r)%Z < flt_max)%R.
Hypothesis Hdiff : forall r c c', 0 <= r < M -> 0 <= c < N -> 0 <= c' < N ->
  (k0 (c * M + r)%Z - k0 (c' * M + r)%Z < flt_max)%R.

(** The costs are the given ones reduced by [p] on each row and raised by [w] on
    each column; [w] is zero on the columns that have no star. *)
Definition dual (k : buf R) (m : buf Z) : Prop :=
  exists p w : Z -> R,
    (forall r c, 0 <= r < M -> 0 <= c < N -> k (c * M + r)%Z = (k0 (c * M + r)%Z - p r + w c)%R)
    /\ (forall c, 0 <= c < N -> (0 <= w c)%R)
    /\ (forall c, 0 <= c < N -> starCol M m c = false -> w c = 0%R)
    /\ (forall r, 0 <= r < M -> (rowMin k0 M N r <= p r)%R)
    /\ (forall r c, 0 <= r < M -> 0 <= c < N -> (0 <= k (c * M + r)%Z)%R).

Lemma dual_weaken k m m' :
  dual k m -> (forall c, 0 <= c < N -> starCol M m c = true -> starCol M m' c = true) -> dual k m'.
Proof.
  intros (p & w & H1 & H2 & H3 & H4 & H5) Hs. exists p, w. split_and!; try done.
  intros c Hc Hf. apply H3; [done|]. destruct (starCol M m c) eqn:E; [|done]. by rewrite (Hs c Hc E) in Hf.
Qed.

Lemma rowMin_attained r : 0 <= r < M -> exists c, 0 <= c < N /\ rowMin k0 M N r = k0 (c * M + r).
Proof.
  intros Hr. destruct (rowMin_spec k0 M N r) as (_ & Hle & [E|(c & Hc & E)]); [lia| |eauto].
  specialize (Hle 0 ltac:(lia)). pose proof (Hmax r 0 Hr ltac:(lia)). lra.
Qed.

Lemma dual_stepOne m : dual (fst (stepOne k0 M N)) m.
Proof.
  exists (rowMin k0 M N), (fun _ => 0%R). split_and!.
  - intros r c Hr Hc. rewrite stepOne_cell by lia. lra.
  - intros. lra.
  - done.
  - intros. lra.
  - intros r c Hr Hc. rewrite stepOne_cell by lia.
    destruct (rowMin_spec k0 M N r) as (_ & Hle & _); [lia|]. specialize (Hle c Hc). lra.
Qed.

(** An entry of a column without a star stays below the largest float. *)
Lemma dual_bound k m r c : dual k m -> 0 <= r < M -> 0 <= c < N -> starCol M m c = false -> (k (c * M + r)%Z < flt_max)%R.
Proof.
  intros (p & w & H1 & H2 & H3 & H4 & H5) Hr Hc Hf. rewrite H1, H3 by done. specialize (H4 r Hr).
  destruct (rowMin_attained r Hr) as (c' & Hc' & E). rewrite E in H4. specialize (Hdiff r c c' Hr Hc Hc'). lra.
Qed.

Section StepSix.
Context (k : buf R) (m cc rc : buf Z) (L : list (Z * Z)).
Hypothesis Hcov : covered M N k m cc rc L.
Hypothesis Hdual : dual k m.
Hypothesis Hcount : starCount M N m < M.

Lemma row_cases r : 0 <= r < M -> (r ∈ L.*1 /\ rc r = 1) \/ (r ∉ L.*1 /\ rc r = 0).
Proof. intros Hr. rewrite (cv_row _ _ _ _ _ _ _ Hcov) by done. destruct (decide _); [by left|by right]. Qed.

Lemma col_cases c : 0 <= c < N -> (cc c = 1 /\ starCol M m c = true) \/ cc c = 0.
Proof.
  intros Hc. destruct (cv_col _ _ _ _ _ _ _ Hcov c Hc) as [[? (r & ? & ? & _)]|[? _]]; [left|by right].
  split; [done|]. apply starCol_spec. eauto.
Qed.

(** The smallest uncovered entry is attained. *)
Lemma smallest_attained :
  exists r c, 0 <= r < M /\ 0 <= c < N /\ cc c = 0 /\ rc r = 0
    /\ findSmallestNotCovered k cc rc M N = k (c * M + r) /\ (0 <= findSmallestNotCovered k cc rc M N)%R.
Proof.
  destruct (smallest_spec k cc rc M N) as (_ & Hle & [E|(r & c & Hr & Hc & Hcc & Hrc & E)]); [lia|lia| |].
  - exfalso. destruct (free_column M N m) as (c & Hc & Hf); [lia|].
    destruct (free_row M (L.*1)) as (r & Hr & Hn).
    { eapply Z.le_lt_trans; [|exact Hcount]. apply rows_starCount; [apply (cv_match _ _ _ _ _ _ _ Hcov)| |].
      - eapply tree_nodup, (cv_tree _ _ _ _ _ _ _ Hcov).
      - intros r Hr. eapply tree_rows; [apply (cv_tree _ _ _ _ _ _ _ Hcov)|done]. }
    assert (rc r = 0) as Hrc by (destruct (row_cases r Hr) as [[]|[]]; done).
    assert (cc c = 0) as Hcc by (destruct (col_cases c Hc) as [[]|]; [congruence|done]).
    specialize (Hle r c Hr Hc Hcc Hrc). pose proof (dual_bound k m r c Hdual Hr Hc Hf). lra.
  - exists r, c. split_and!; try done; [lia..|]. rewrite E. destruct Hdual as (p & w & _ & _ & _ & _ & H5). by apply H5.
Qed.

Lemma dual_stepSix : dual (fst (stepSix k cc rc M N)) m.
Proof.
  destruct Hdual as (p & w & H1 & H2 & H3 & H4 & H5). destruct smallest_attained as (_ & _ & _ & _ & _ & _ & _ & Hv).
  destruct (smallest_spec k cc rc M N) as (_ & Hle & _); [lia|lia|].
  set (v := findSmallestNotCovered k cc rc M N) in *.
  exists (fun r => if (rc r =? 0)%Z then (p r + v)%R else p r), (fun c => if (cc c =? 0)%Z then w c else (w c + v)%R).
  assert (forall r c, 0 <= r < M -> 0 <= c < N ->
    fst (stepSix k cc rc M N) (c * M + r)%Z = (k0 (c * M + r)%Z - (if (rc r =? 0)%Z then p r + v else p r)
      + (if (cc c =? 0)%Z then w c else w c + v))%R /\ (0 <= fst (stepSix k cc rc M N) (c * M + r)%Z)%R) as Hcell.
  { intros r c Hr Hc. rewrite stepSix_cell by lia. fold v. specialize (H1 r c Hr Hc). specialize (H5 r c Hr Hc).
    specialize (Hle r c Hr Hc).
    destruct (row_cases r Hr) as [[_ Er]|[_ Er]], (col_cases c Hc) as [[Ec _]|Ec]; rewrite Er, Ec in *; cbn; try (split; lra).
    specialize (Hle eq_refl eq_refl). split; lra. }
  split_and!.
  - intros r c Hr Hc. by apply Hcell.
  - intros c Hc. specialize (H2 c Hc). destruct (cc c =? 0); lra.
  - intros c Hc Hf. destruct (col_cases c Hc) as [[_ ?]|E]; [congruence|]. rewrite E. cbn. auto.
  - intros r Hr. specialize (H4 r Hr). destruct (rc r =? 0); lra.
  - intros r c Hr Hc. by apply Hcell.
Qed.

Lemma uncovered_stepSix : uncoveredZero M N (fst (stepSix k cc rc M N)) cc rc.
Proof.
  destruct smallest_attained as (r & c & Hr & Hc & Hcc & Hrc & E & _). exists r, c. split_and!; try done; [lia..|].
  rewrite stepSix_cell by lia. rewrite Hrc, Hcc, E. cbn. lra.
Qed.

(** A zero in a covered row and an uncovered column, or the reverse, stays. *)
Lemma zero_stepSix r c :
  0 <= r < M -> 0 <= c < N -> k (c * M + r) = 0%R -> (rc r = 1 /\ cc c = 0 \/ rc r = 0 /\ cc c = 1) ->
  fst (stepSix k cc rc M N) (c * M + r) = 0%R.
Proof. intros Hr Hc Hk Hx. rewrite stepSix_cell by lia. destruct Hx as [[-> ->]|[-> ->]]; cbn; rewrite Hk; lra. Qed.

Lemma tree_column r c : (r, c) ∈ L -> forall r', 0 <= r' < M -> star M m r' c -> r' ∈ L.*1.
Proof.
  generalize (cv_tree _ _ _ _ _ _ _ Hcov). clear. induction 1 as [|r1 c1 L Ht IH Hr Hc Hn Hz Hst Hcol]; intros Hin r' Hr' Hs.
  - by apply elem_of_nil in Hin.
  - right. apply elem_of_cons in Hin as [[= -> ->]|Hin]; [auto|]. by apply IH.
Qed.

Lemma covered_stepSix : covered M N (fst (stepSix k cc rc M N)) m cc rc L.
Proof.
  pose proof Hcov as [Ht Hm Hz Hp Hrow Hcol]. split; try done.
  - eapply tree_ext; [apply sameStars_refl| |exact Ht]. intros r c Hin.
    destruct (tree_range M N _ _ _ _ _ Ht Hin) as (Hr & Hc & Hk). apply zero_stepSix; [done..|]. left. split.
    + destruct (row_cases r Hr) as [[]|[Hn _]]; [done|]. destruct Hn. apply list_elem_of_fmap. by exists (r, c).
    + destruct (Hcol c Hc) as [(_ & r' & Hr' & Hs & Hn)|[]]; [|done]. destruct Hn. by eapply tree_column.
  - intros r c Hr Hc Hs. apply zero_stepSix; [done..|by apply Hz|]. destruct (row_cases r Hr) as [[Hin ->]|[Hn ->]].
    + left. split; [done|]. destruct (Hcol c Hc) as [(_ & r' & Hr' & Hs' & Hn)|[]]; [|done].
      destruct Hn. assert (r' = r) as -> by (by apply (m_col M N m Hm r' r c)). done.
    + right. split; [done|]. destruct (Hcol c Hc) as [[]|[_ Hall]]; [done|]. destruct Hn. by apply Hall.
Qed.
End StepSix.

(** * The passes of the [switch] *)

Definition noMarks (m : buf Z) : Prop := forall r c, 0 <= r < M -> 0 <= c < N -> m (c * M + r) = 0.
Definition noCovers (cc rc : buf Z) : Prop := (forall r, 0 <= r < M -> rc r = 0) /\ (forall c, 0 <= c < N -> cc c = 0).

(** The passes left when [K] columns have a star, a row is still free, and [j]
    rows are covered. *)
Definition passes (K j : Z) : Z := (M - K - 1) * (2 * M + 6) + 2 * (M - j).

(** [phase step s n]: what holds before [step], with [n] passes left. *)
Inductive phase : Z -> hungarianState R -> Z -> Prop :=
| phase_one m cc rc path first : noMarks m ->
    phase 1 (HungarianState k0 m cc rc path first) (M * (2 * M + 6) + 3)
| phase_two k m cc rc path first : noMarks m -> dual k m ->
    phase 2 (HungarianState k m cc rc path first) (M * (2 * M + 6) + 2)
| phase_three k m cc rc path first :
    matching M N m -> starZeros M N k m -> noPrimes M N m -> dual k m -> noCovers cc rc ->
    phase 3 (HungarianState k m cc rc path first) ((M - starCount M N m) * (2 * M + 6) + 1)
| phase_four k m cc rc path first L :
    covered M N k m cc rc L -> dual k m -> starCount M N m < M ->
    phase 4 (HungarianState k m cc rc path first) (passes (starCount M N m) (Z.of_nat (length L)) + 5)
| phase_four_zero k m cc rc path first L :
    covered M N k m cc rc L -> dual k m -> starCount M N m < M -> uncoveredZero M N k cc rc ->
    phase 4 (HungarianState k m cc rc path first) (passes (starCount M N m) (Z.of_nat (length L)) + 3)
| phase_five k m cc rc path first L :
    ready M N k m (fst first) (snd first) L -> dual k m -> starCount M N m < M ->
    phase 5 (HungarianState k m cc rc path first) (passes (starCount M N m) M + 2)
| phase_six k m cc rc path first L :
    covered M N k m cc rc L -> dual k m -> starCount M N m < M ->
    phase 6 (HungarianState k m cc rc path first) (passes (starCount M N m) (Z.of_nat (length L)) + 4)
| phase_seven k m cc rc path first :
    matching M N m -> starZeros M N k m -> noPrimes M N m -> dual k m -> starCount M N m = M ->
    phase 7 (HungarianState k m cc rc path first) 0.

(** The path vector is written within its [N * N * 2] cells. *)
Definition pathsKept (s s' : hungarianState R) : Prop :=
  forall j, j < 0 \/ N * N * 2 <= j -> hs_paths s' j = hs_paths s j.

Definition advances (step : Z) (s : hungarianState R) (n : Z) : Prop :=
  exists step' s' n', switchStep M N step s = Some (step', s') /\ phase step' s' n' /\ n' < n /\ pathsKept s s'.

Lemma starCount_empty m : noMarks m -> forall c, 0 <= c < N -> starCol M m c = false.
Proof.
  intros H0 c Hc. apply not_true_iff_false. rewrite starCol_spec. intros (r & Hr & Hs). by rewrite H0 in Hs.
Qed.

Lemma advance_two k m cc rc path first :
  noMarks m -> dual k m -> advances 2 (HungarianState k m cc rc path first) (M * (2 * M + 6) + 2).
Proof.
  intros H0 Hd. unfold advances. cbn. destruct (stepTwo k m cc rc M N) as [[[m' rc'] cc'] n] eqn:E.
  destruct (stepTwo_spec M N HM k m cc rc m' rc' cc' n H0 E) as (Hm & Hz & Hp & -> & Hr & Hc).
  do 3 eexists. split; [reflexivity|]. split; [apply phase_three; try done|].
  - eapply dual_weaken; [exact Hd|]. intros c Hc' Hs. by rewrite (starCount_empty m) in Hs.
  - split; [|by intros j]. pose proof (proj1 (starCount_rows M N HM m' Hm)). assert (0 <= starCount M N m') by (unfold starCount; lia). nia.
Qed.

Lemma advance_three k m cc rc path first :
  matching M N m -> starZeros M N k m -> noPrimes M N m -> dual k m -> noCovers cc rc ->
  advances 3 (HungarianState k m cc rc path first) ((M - starCount M N m) * (2 * M + 6) + 1).
Proof.
  intros Hm Hz Hp Hd [Hr Hc]. unfold advances. cbn [switchStep Z.eqb Pos.eqb].
  pose proof (stepThree_spec M N HM ltac:(lia) m cc Hc) as Hn.
  assert (fst (stepThree m cc M N) = coverStars m cc M N) as Hcov by done.
  destruct (stepThree m cc M N) as [cc' n]. cbn in Hn, Hcov. subst.
  pose proof (starCount_rows M N HM m Hm) as [Hle _].
  destruct (Z.eqb_spec (starCount M N m) N), (Z.leb_spec M (starCount M N m)); cbn;
    do 3 eexists; (split; [reflexivity|]);
    try (split; [apply phase_seven; try done; lia|split; [nia|by intros j]]).
  split; [|split; [|by intros j]].
  - apply (phase_four _ _ _ _ _ _ []); [|done|lia]. split; try done.
    + constructor.
    + intros r c Hr' Hc'. split; [by intros ?%Hp|]. intros Hin. by apply elem_of_nil in Hin.
    + intros c Hc'. rewrite coverStars_col by (done || lia). destruct (starCol M m c) eqn:E; [left|right]; (split; [done|]).
      * apply starCol_spec in E as (r & Hr' & Hs). exists r. split_and!; [lia|lia|done|]. cbn. intros Hin. by apply elem_of_nil in Hin.
      * intros r Hr' Hs. apply not_true_iff_false in E. destruct E. apply starCol_spec. eauto.
  - unfold passes. cbn [length]. nia.
Qed.

Lemma starCount_same m m' : sameStars M N m m' -> starCount M N m' = starCount M N m.
Proof. intros Hs. apply starCount_ext. intros c Hc. by eapply starCol_ext. Qed.

Lemma dual_same k m m' : sameStars M N m m' -> dual k m -> dual k m'.
Proof. intros Hs Hd. eapply dual_weaken; [done|]. intros c Hc. by rewrite (starCol_ext M N m m' c Hs Hc). Qed.

Lemma advance_four k m cc rc path first L d :
  covered M N k m cc rc L -> dual k m -> starCount M N m < M ->
  (d = 5 \/ (d = 3 /\ uncoveredZero M N k cc rc)) ->
  advances 4 (HungarianState k m cc rc path first) (passes (starCount M N m) (Z.of_nat (length L)) + d).
Proof.
  intros Hcv Hd Hk Hcase. unfold advances. cbn [switchStep Z.eqb Pos.eqb].
  pose proof (tree_length _ _ HM _ _ _ (cv_tree _ _ _ _ _ _ _ Hcv)) as HL.
  destruct (stepFour_spec M N HM k (Z.to_nat (M + 1)) m cc rc first L Hcv ltac:(lia))
    as (m' & cc' & rc' & first' & n & L' & -> & Hsame & Hout).
  pose proof (starCount_same _ _ Hsame) as Ec.
  destruct Hout as [(-> & Hcv' & Hno & Hl & Hlt)|(-> & Hrd & Huz)]; do 3 eexists; (split; [reflexivity|]).
  - split; [eapply phase_six; [done|by eapply dual_same|lia]|]. split; [|by intros j]. rewrite Ec. unfold passes.
    destruct Hcase as [->|[-> Huz]]; [|specialize (Hlt Huz)]; lia.
  - split; [eapply phase_five; [done|by eapply dual_same|lia]|]. split; [|by intros j]. rewrite Ec. unfold passes. lia.
Qed.

Lemma advance_five k m cc rc path first L :
  ready M N k m (fst first) (snd first) L -> dual k m -> starCount M N m < M ->
  advances 5 (HungarianState k m cc rc path first) (passes (starCount M N m) M + 2).
Proof.
  intros Hrd Hd Hk. unfold advances. cbn [switchStep Z.eqb Pos.eqb].
  destruct (stepFive_spec M N HM k m cc rc path first L HMN Hrd)
    as (m' & cc' & rc' & path' & -> & (Hm & Hz & Hs & Ec) & Hp & Hr & Hc & Hpath).
  do 3 eexists. split; [reflexivity|]. split; [apply phase_three; try done|].
  - by eapply dual_weaken.
  - split; [|done]. rewrite Ec. unfold passes. lia.
Qed.

Lemma phase_advances step s n : phase step s n -> step <> 7 -> advances step s n.
Proof.
  intros Hp H7. destruct Hp.
  - do 3 eexists. split; [reflexivity|]. split; [apply phase_two; [done|apply dual_stepOne]|]. split; [lia|by intros j].
  - by apply advance_two.
  - by apply advance_three.
  - apply advance_four; try done. by left.
  - apply advance_four; try done. by right.
  - by eapply advance_five.
  - do 3 eexists. split; [reflexivity|].
    split; [eapply (phase_four_zero _ _ _ _ _ _ L)|split; [|by intros j]]; [|by eapply dual_stepSix|done| |lia].
    + by apply covered_stepSix.
    + by eapply uncovered_stepSix.
  - done.
Qed.

Lemma phase_nonneg step s n : phase step s n -> 0 <= n.
Proof.
  intros Hp. destruct Hp; try lia; try nia.
  - pose proof (proj1 (starCount_rows M N HM m ltac:(assumption))). nia.
  - pose proof (tree_length _ _ HM _ _ _ (cv_tree _ _ _ _ _ _ _ H)). unfold passes. nia.
  - pose proof (tree_length _ _ HM _ _ _ (cv_tree _ _ _ _ _ _ _ H)). unfold passes. nia.
  - unfold passes. nia.
  - pose proof (tree_length _ _ HM _ _ _ (cv_tree _ _ _ _ _ _ _ H)). unfold passes. nia.
Qed.

Lemma hungarianLoop_ends fuel step s n :
  phase step s n -> n < Z.of_nat fuel ->
  exists s', hungarianLoop fuel M N step s = Some s' /\ phase 7 s' 0 /\ pathsKept s s'.
Proof.
  revert step s n. induction fuel as [|fuel IH]; intros step s n Hp Hn.
  { apply phase_nonneg in Hp. lia. }
  cbn. destruct (Z.eqb_spec step 7) as [->|H7].
  - exists s. split; [done|]. split; [|by intros j]. inversion Hp; subst. done.
  - destruct (phase_advances step s n Hp H7) as (step' & s' & n' & -> & Hp' & Hlt & Hk).
    destruct (IH step' s' n' Hp') as (s'' & -> & H'' & Hk'); [lia|].
    exists s''. split_and!; [done|done|]. intros j Hj. rewrite Hk', Hk; done.
Qed.

(** * Optimality *)

(** The cost of assigning column [f r] to each row [r]. *)
Definition total (f : Z -> Z) : R := Rsum (zrange 0 M) (fun r => k0 (f r * M + r)).

Definition assignment (f : Z -> Z) : Prop :=
  (forall r, 0 <= r < M -> 0 <= f r < N)
  /\ (forall r r', 0 <= r < M -> 0 <= r' < M -> f r = f r' -> r = r').

Lemma Rsum_le {A} (l : list A) f g : (forall x, x ∈ l -> (f x <= g x)%R) -> (Rsum l f <= Rsum l g)%R.
Proof.
  induction l as [|x l IH]; intros H; [rewrite !Rsum_nil; lra|]. rewrite !Rsum_cons.
  specialize (H x) as Hx. assert (Rsum l f <= Rsum l g)%R by (apply IH; intros; apply H; by right).
  specialize (Hx ltac:(left)). lra.
Qed.

Lemma assignment_sub f : assignment f -> exists l, Permutation (zrange 0 N) (map f (zrange 0 M) ++ l).
Proof.
  intros [Hr Hinj]. assert (map f (zrange 0 M) ⊆+ zrange 0 N) as Hs; [|by apply submseteq_Permutation in Hs].
  apply NoDup_submseteq.
  - apply NoDup_fmap_in; [unfold zrange; apply NoDup_seqZ|]. intros x y Hx%elem_of_zrange Hy%elem_of_zrange. auto.
  - intros z (x & -> & Hx%elem_of_zrange)%list_elem_of_fmap. apply elem_of_zrange. auto.
Qed.

Lemma total_dual (p w : Z -> R) k f :
  (forall r c, 0 <= r < M -> 0 <= c < N -> k (c * M + r)%Z = (k0 (c * M + r)%Z - p r + w c)%R) ->
  assignment f ->
  total f = (Rsum (zrange 0 M) p - Rsum (map f (zrange 0 M)) w + Rsum (zrange 0 M) (fun r => k (f r * M + r)%Z))%R.
Proof.
  intros Hk [Hr _]. unfold total. rewrite Rsum_map.
  rewrite (Rsum_ext _ (fun r => k0 (f r * M + r)%Z) (fun r => (p r + ((-1) * w (f r) + k (f r * M + r)%Z))%R)).
  - rewrite !Rsum_plus. rewrite (Rsum_ext _ (fun r => (-1 * w (f r))%R) (fun r => (w (f r) * (-1))%R)) by (intros; ring).
    rewrite Rsum_scal. ring.
  - intros r Hin%elem_of_zrange. rewrite Hk; [ring|done|by apply Hr].
Qed.

(** The column of each row at the end. *)
Lemma phase_seven_optimal s :
  phase 7 s 0 ->
  let f := fun r => findStarInRow (hs_marks s) r M N in
  (forall r c, 0 <= r < M -> 0 <= c < N -> hs_marks s (c * M + r) = Mark_Star <-> c = f r)
  /\ assignment f /\ forall g, assignment g -> (total f <= total g)%R.
Proof.
  intros Hp f. inversion Hp as [| | | | | | |k m cc rc path first Hm Hz _ Hd Hk]; subst. cbn [hs_marks] in *.
  destruct (starCount_rows M N HM m Hm) as [_ Hall]. specialize (Hall Hk).
  assert (forall r, 0 <= r < M -> 0 <= f r < N /\ star M m r (f r)) as Hf.
  { intros r Hr. destruct (Hall r Hr) as (c & Hc & Hs). by eapply findStarInRow_spec. }
  assert (assignment f) as Ha.
  { split; [intros r Hr; by apply Hf|]. intros r r' Hr Hr' E. destruct (Hf r Hr) as [Hc Hs], (Hf r' Hr') as [_ Hs'].
    rewrite <- E in Hs'. exact (m_col M N m Hm r r' _ Hr Hr' Hc Hs Hs'). }
  split_and!; [|done|].
  - intros r c Hr Hc. destruct (Hf r Hr) as [Hc' Hs]. split; [|by intros ->]. intros Hs'. exact (m_row M N m Hm r c _ Hr Hc Hc' Hs' Hs).
  - intros g Hg. destruct Hd as (p & w & H1 & H2 & H3 & _ & H5).
    rewrite (total_dual p w k f H1 Ha), (total_dual p w k g H1 Hg).
    destruct (assignment_sub f Ha) as [lf Hlf], (assignment_sub g Hg) as [lg Hlg].
    pose proof (Rsum_perm _ _ w Hlf) as Ef. pose proof (Rsum_perm _ _ w Hlg) as Eg. rewrite Rsum_app in Ef, Eg.
    assert (Rsum lf w = 0)%R as Elf.
    { apply Rsum_all_zero. intros c Hin.
      assert (c ∈ zrange 0 N) as Hc by (rewrite Hlf; apply elem_of_app; by right).
      apply H3; [by apply elem_of_zrange|]. apply not_true_iff_false. rewrite starCol_spec. intros (r & Hr & Hs).
      assert (NoDup (zrange 0 N)) as Hnd by (unfold zrange; apply NoDup_seqZ).
      rewrite Hlf in Hnd. apply NoDup_app in Hnd as (_ & Hd' & _). apply (Hd' c); [|done].
      apply list_elem_of_fmap. exists r. split; [|by apply elem_of_zrange].
      destruct (Hf r Hr) as [Hc' Hs']. apply elem_of_zrange in Hc. exact (m_row M N m Hm r c _ Hr Hc Hc' Hs Hs'). }
    assert (0 <= Rsum lg w)%R as Elg.
    { apply Rsum_nonneg. intros c Hin. apply H2, elem_of_zrange. rewrite Hlg. apply elem_of_app. by right. }
    assert (Rsum (zrange 0 M) (fun r => k (f r * M + r)%Z) = 0)%R as ->.
    { apply Rsum_all_zero. intros r Hr%elem_of_zrange. destruct (Hf r Hr) as [Hc Hs]. by apply Hz. }
    assert (0 <= Rsum (zrange 0 M) (fun r => k (g r * M + r)%Z))%R.
    { apply Rsum_nonneg. intros r Hr%elem_of_zrange. apply H5; [done|]. by apply Hg. }
    lra.
Qed.

(** * Row and column indices *)

Lemma stepSeven_spec m (f : Z -> Z) (ri ci : buf Z) :
  (forall r c, 0 <= r < M -> 0 <= c < N -> m (c * M + r) = Mark_Star <-> c = f r) -> assignment f ->
  exists ri' ci', stepSeven m ri ci M N = (ri', ci', M)
  /\ (forall i, 0 <= i < M -> ri' i = i /\ ci' i = f i)
  /\ (forall i, ~ 0 <= i < M -> ri' i = ri i /\ ci' i = ci i).
Proof.
  intros Hm [Hf _]. unfold stepSeven.
  match goal with |- context [for_up 0 M ?bd ?s0] =>
    cut (let '(ri', ci', n) := for_up 0 M bd s0 in n = M
      /\ (forall i, 0 <= i < M -> ri' i = i /\ ci' i = f i) /\ (forall i, ~ 0 <= i < M -> ri' i = ri i /\ ci' i = ci i)) end.
  { destruct (for_up 0 M _ _) as [[ri' ci'] n]. intros (-> & H1 & H2). eauto. }
  refine (for_up_ind (fun j s => let '(ri', ci', n) := s in n = j
    /\ (forall i, 0 <= i < j -> ri' i = i /\ ci' i = f i) /\ (forall i, ~ 0 <= i < j -> ri' i = ri i /\ ci' i = ci i))
    0 M _ _ _ _ _); [done| |].
  - split_and!; [done|intros; lia|done].
  - intros r [[ri1 ci1] n] Hr (-> & H1 & H2). specialize (Hf r Hr).
    match goal with |- context [for_up 0 N ?bd ?s0] =>
      assert (for_up 0 N bd s0 = if decide (f r < N) then (bset r r ri1, bset r (f r) ci1, r + 1) else (ri1, ci1, r)) as ->;
      [refine (for_up_ind (fun j s => s = if decide (f r < j) then (bset r r ri1, bset r (f r) ci1, r + 1) else (ri1, ci1, r))
        0 N bd s0 _ _ _); [lia| |]|] end.
    + by rewrite decide_False by lia.
    + intros c s Hc ->. pose proof (Hm r c Hr Hc) as Hst.
      destruct (decide (f r < c)); [rewrite decide_True by lia|].
      * destruct (Z.eqb_spec (m (c * M + r)) Mark_Star) as [E|]; [apply Hst in E; lia|done].
      * destruct (Z.eqb_spec (m (c * M + r)) Mark_Star) as [E|E].
        -- apply Hst in E as ->. by rewrite decide_True by lia.
        -- rewrite decide_False; [done|]. intros Hlt. apply E, Hst. lia.
    + rewrite decide_True by lia. split_and!; [done| |].
      * intros i Hi. unfold bset. destruct (Z.eqb_spec i r) as [->|]; [done|]. apply H1. lia.
      * intros i Hi. unfold bset. destruct (Z.eqb_spec i r) as [->|]; [lia|]. apply H2. lia.
Qed.
End Dual.

(** Below the bound the guards of [hungarian] pass. *)
Lemma hungarian_ints (k0 : buf R) (a : buf Z) (first : Z * Z) (M N : Z) :
  0 <= M <= N -> N * N * 2 < 2 ^ 31 ->
  hungarian k0 a first M N
    = option_map Ok (hungarianLoop (hungarianFuel M) M N 1 (HungarianState k0 a (fun _ => 0) (fun _ => 0) (fun _ => 0) first)).
Proof.
  intros HMN Hint. unfold hungarian, intsOverflow. rewrite !(proj2 (Z.ltb_ge _ _)) by lia.
  by rewrite !(proj2 (Z.leb_gt _ _)) by nia.
Qed.

(** C3. Linear sum assignment is solved. For a cost matrix of [M] rows and [N]
    columns with [M <= N] and [2 * N * N] below [2 ^ 31] (where no [int]
    product overflows), over exact reals, whose entries and whose differences
    within a row are below the largest float, [hungarian] on zeroed marks
    stops within its fuel, and the stars it leaves assign each row one column,
    different rows different columns, at the least total cost of all such
    assignments. The overload that returns indices lists the rows in order
    with their columns and writes only the first [M] cells; the path vector is
    written within its bounds. *)
Theorem hungarian_optimal (M N : Z) (k0 : buf R) (rowIdxs colIdxs : buf Z) (first : Z * Z) :
  0 <= M <= N -> N * N * 2 < 2 ^ 31 ->
  (forall r c, 0 <= r < M -> 0 <= c < N -> (k0 (c * M + r)%Z < flt_max)%R) ->
  (forall r c c', 0 <= r < M -> 0 <= c < N -> 0 <= c' < N -> (k0 (c * M + r)%Z - k0 (c' * M + r)%Z < flt_max)%R) ->
  exists s f rowIdxs' colIdxs',
    hungarian k0 (fun _ => 0) first M N = Some (Ok s)
    /\ (forall r c, 0 <= r < M -> 0 <= c < N -> hs_marks s (c * M + r) = Mark_Star <-> c = f r)
    /\ assignment M N f
    /\ (forall g, assignment M N g -> (total M k0 f <= total M k0 g)%R)
    /\ hungarianIdxs k0 rowIdxs colIdxs first M N = Some (Ok (rowIdxs', colIdxs'))
    /\ (forall i, 0 <= i < M -> rowIdxs' i = i /\ colIdxs' i = f i)
    /\ (forall i, ~ 0 <= i < M -> rowIdxs' i = rowIdxs i /\ colIdxs' i = colIdxs i)
    /\ (forall j, j < 0 \/ N * N * 2 <= j -> hs_paths s j = 0).
Proof.
  intros [HM HMN] Hint Hmax Hdiff.
  destruct (hungarianLoop_ends M N HM HMN k0 Hmax Hdiff (hungarianFuel M) 1
    (HungarianState k0 (fun _ => 0) (fun _ => 0) (fun _ => 0) (fun _ => 0) first) (M * (2 * M + 6) + 3)) as (s & Hs & Hp & Hk).
  - by apply phase_one.
  - unfold hungarianFuel. nia.
  - destruct (phase_seven_optimal M N HM k0 s Hp) as (Hst & Ha & Hopt).
    destruct (stepSeven_spec M N HM (hs_marks s) _ rowIdxs colIdxs Hst Ha) as (ri & ci & E & H1 & H2).
    exists s, (fun r => findStarInRow (hs_marks s) r M N), ri, ci. unfold hungarianIdxs.
    rewrite (hungarian_ints _ _ _ M N), Hs by lia. cbn [option_map]. rewrite E.
    assert (0 <= M * N < 2 ^ 31) as [H3 H4] by nia. rewrite !(proj2 (Z.ltb_ge _ _)) by lia.
    rewrite (proj2 (Z.leb_gt _ _) H4). cbn [orb]. split_and!; done.
Qed.

(** Two tasks and three workers. *)
Lemma hungarian_optimal_witness :
  let k0 : buf R := fun i => IZR (nth (Z.to_nat i) [4; 2; 1; 3; 2; 2] 0) in
  exists s f rowIdxs' colIdxs',
    hungarian k0 (fun _ => 0) (7, 7) 2 3 = Some (Ok s)
    /\ (forall r c, 0 <= r < 2 -> 0 <= c < 3 -> hs_marks s (c * 2 + r) = Mark_Star <-> c = f r)
    /\ assignment 2 3 f
    /\ (forall g, assignment 2 3 g -> (total 2 k0 f <= total 2 k0 g)%R)
    /\ hungarianIdxs k0 (fun _ => 5) (fun _ => 5) (7, 7) 2 3 = Some (Ok (rowIdxs', colIdxs'))
    /\ (forall i, 0 <= i < 2 -> rowIdxs' i = i /\ colIdxs' i = f i)
    /\ (forall i, ~ 0 <= i < 2 -> rowIdxs' i = 5 /\ colIdxs' i = 5)
    /\ (forall j, j < 0 \/ 3 * 3 * 2 <= j -> hs_paths s j = 0).
Proof.
  assert (forall i, (0 <= nth (Z.to_nat i) [4; 2; 1; 3; 2; 2] 0 <= 4)%Z) as Hn.
  { intros i. destruct (Z.to_nat i) as [|[|[|[|[|[|[|]]]]]]]; cbn; lia. }
  intros k0. apply (hungarian_optimal 2 3 k0 (fun _ => 5) (fun _ => 5) (7, 7)).
  - lia.
  - lia.
  - intros r c _ _. unfold k0, flt_max. apply IZR_lt. specialize (Hn (c * 2 + r)). lia.
  - intros r c c' _ _ _. unfold k0, flt_max. rewrite <- minus_IZR. apply IZR_lt.
    pose proof (Hn (c * 2 + r)). pose proof (Hn (c' * 2 + r)). lia.
Defined.
