(* ===== verification/Vectors.v ===== *)
(** Vectors indexed and copied in place, and counted loops over a body that may
    fail: the operations several components share, and the lemmas that run them. *)
From S2P Require Import Prelude.

Open Scope Z_scope.

(** [v[i] = x] *)
Definition vec_set {A} (l : list A) (i : Z) (x : A) : result (list A) :=
  if decide (0 <= i < zlen l) then Ok (<[Z.to_nat i := x]> l) else Throw Undefined.

(** [for (i = lo; i < hi; ++i)] and [for (i = hi; i > lo; --i)] over a body that
    may fail. *)
Definition loop_up {S} (lo hi : Z) (body : S -> Z -> result S) (s : S) : result S :=
  foldM_result body s (zrange lo hi).
Definition loop_down {S} (hi lo : Z) (body : S -> Z -> result S) (s : S) : result S :=
  foldM_result body s (reverse (zrange (lo + 1) (hi + 1))).

(** [data() + a .. data() + b] of a vector, as [std::copy] reads it. *)
Definition vec_range {A} (l : list A) (a b : Z) : result (list A) :=
  if decide (0 <= a <= b /\ b <= zlen l) then Ok (take (Z.to_nat (b - a)) (drop (Z.to_nat a) l)) else Throw Undefined.

(** [std::copy] of [src] to [data() + a]. *)
Definition vec_copy {A} (src dst : list A) (a : Z) : result (list A) :=
  if decide (0 <= a /\ a + zlen src <= zlen dst)
  then Ok (take (Z.to_nat a) dst ++ src ++ drop (Z.to_nat a + length src) dst) else Throw Undefined.

(** * Lemmas *)

Lemma zlen_replicate {A} n (x : A) : 0 <= n -> zlen (replicate (Z.to_nat n) x) = n.
Proof. intros. unfold zlen. rewrite length_replicate. lia. Qed.

Lemma loop_up_ok {S} (P : Z -> S -> Prop) lo hi body s :
  lo <= hi -> P lo s ->
  (forall i s, lo <= i < hi -> P i s -> exists s', body s i = Ok s' /\ P (i + 1) s') ->
  exists s', loop_up lo hi body s = Ok s' /\ P hi s'.
Proof. apply foldM_zrange. Qed.

Lemma loop_down_ok {S} (P : Z -> S -> Prop) lo hi body s :
  lo <= hi -> P hi s ->
  (forall i s, lo < i <= hi -> P i s -> exists s', body s i = Ok s' /\ P (i - 1) s') ->
  exists s', loop_down hi lo body s = Ok s' /\ P lo s'.
Proof.
  intros Hle H0 Hs. unfold loop_down. remember (Z.to_nat (hi - lo)) as n eqn:En. revert hi s En Hle H0 Hs.
  induction n as [|n IH]; intros hi s En Hle H0 Hs.
  - assert (lo = hi) as -> by lia. rewrite zrange_nil by lia. by exists s.
  - rewrite zrange_snoc, reverse_app by lia. cbn. destruct (Hs hi s) as (s1 & -> & H1); [lia|done|].
    specialize (IH (hi - 1) s1). replace (hi - 1 + 1) with hi in IH by lia.
    apply IH; [lia|lia|done|]. intros i s' Hi. apply Hs. lia.
Qed.

Lemma vec_get_nat {A} (l : list A) i :
  0 <= i -> vec_get l i = match l !! Z.to_nat i with Some x => Ok x | None => Throw Undefined end.
Proof. intros Hi. unfold vec_get. by rewrite decide_True. Qed.

Lemma vec_set_ok {A} (l : list A) i x :
  0 <= i < zlen l -> exists l', vec_set l i x = Ok l' /\ zlen l' = zlen l
    /\ forall j, 0 <= j -> vec_get l' j = if decide (j = i) then Ok x else vec_get l j.
Proof.
  intros Hi. unfold vec_set. rewrite decide_True by done. eexists. split; [done|]. split; [unfold zlen; by rewrite length_insert|].
  intros j Hj. rewrite !vec_get_nat by done. destruct (decide (j = i)) as [->|Hne].
  - rewrite list_lookup_insert_eq; [done|unfold zlen in *; lia].
  - rewrite list_lookup_insert_ne by lia. done.
Qed.

Lemma vec_range_ok {A} (l : list A) a b :
  0 <= a <= b -> b <= zlen l -> exists l', vec_range l a b = Ok l' /\ zlen l' = b - a
    /\ forall j, 0 <= j < b - a -> vec_get l' j = vec_get l (a + j).
Proof.
  intros Ha Hb. unfold vec_range. rewrite decide_True by done. eexists. split; [done|]. split.
  - unfold zlen in *. rewrite length_take, length_drop. lia.
  - intros j Hj. rewrite !vec_get_nat by lia. rewrite lookup_take_lt by lia. rewrite lookup_drop.
    by replace (Z.to_nat a + Z.to_nat j)%nat with (Z.to_nat (a + j)) by lia.
Qed.

Lemma vec_copy_ok {A} (src dst : list A) a :
  0 <= a -> a + zlen src <= zlen dst -> exists l', vec_copy src dst a = Ok l' /\ zlen l' = zlen dst
    /\ forall j, 0 <= j -> vec_get l' j = if decide (a <= j < a + zlen src) then vec_get src (j - a) else vec_get dst j.
Proof.
  intros Ha Hb. unfold vec_copy. rewrite decide_True by done. eexists. split; [done|]. unfold zlen in *. split.
  - rewrite !length_app, length_take, length_drop. lia.
  - intros j Hj. rewrite vec_get_nat by done. destruct (decide (a <= j < _)) as [Hin|Hout]; rewrite vec_get_nat by lia.
    + rewrite lookup_app_r by (rewrite length_take; lia). rewrite length_take, lookup_app_l by lia.
      by replace (Z.to_nat j - Z.to_nat a `min` length dst)%nat with (Z.to_nat (j - a)) by lia.
    + destruct (decide (j < a)) as [H1|H1].
      * rewrite lookup_app_l by (rewrite length_take; lia). by rewrite lookup_take_lt by lia.
      * rewrite lookup_app_r by (rewrite length_take; lia). rewrite length_take, lookup_app_r by lia. rewrite lookup_drop.
        by replace (Z.to_nat a + length src + (Z.to_nat j - Z.to_nat a `min` length dst - length src))%nat with (Z.to_nat j) by lia.
Qed.

Lemma mapM_result_size {A B} (f : A -> result B) l :
  (forall x, x ∈ l -> exists y, f x = Ok y) -> exists ys, mapM_result f l = Ok ys /\ length ys = length l
    /\ forall i x, l !! i = Some x -> exists y, ys !! i = Some y /\ f x = Ok y.
Proof.
  intros [ys Hys]%mapM_result_total. exists ys. split; [done|]. apply mapM_result_Ok in Hys. split.
  - symmetry. by eapply Forall2_length.
  - intros i x Hx. destruct (Forall2_lookup_l _ _ _ _ _ Hys Hx) as (y & ? & ?). eauto.
Qed.

