(* ===== verification/Audio.v ===== *)
(** Speech features ([lib/audio/feature]): framing, dithering, pre-emphasis,
    windowing, power spectrum, mel filter bank, cosine transform, liftering,
    regression derivatives, and the three front ends [PowerSpectrum], [Mfsc] and
    [Mfcc] composed of them.

    Samples and features are scalars of the class [Num] with the elementary
    functions of [Elementary] and [Trig]; [float] and [double] are one scalar type.
    A [std::vector] is a list and an access outside it is [Throw Undefined].  The
    linear algebra library ([sgemm]), the Fourier transform ([fft_r2c]), what
    planning it leaves in its input buffer ([plan_in]) and the random numbers of
    [Dither] ([uniform]) are parameters.  Sizes derived from milliseconds are
    computed in binary64 as in the source.  Parameters are 64-bit; where the source
    keeps or passes them as [int] the conversion is written ([i32]), [int]
    products and shifts that overflow are [Throw Undefined] ([int_value]), and a
    vector of negative size throws [length_error]. *)
From Stdlib Require Import Floats.SpecFloat.
From S2P Require Import Prelude Vectors Float Numeric.

Open Scope Z_scope.

Class Trig (F : Type) := {
  n_pi : F;
  n_cos : F -> F;
  n_sin : F -> F;
  n_log10 : F -> F;
  n_pow10 : F -> F;       (** [pow(10, x)] *)
  n_neg : F -> F;
  n_lowest : F;           (** [std::numeric_limits<float>::lowest()] *)
}.

Inductive WindowType := HAMMING | HANNING.
Inductive FrequencyScale := MEL | LINEAR | LOG10.

(** * Sizes *)

(** [1e-3] in binary64, and [round]: to the nearest integer, halves away from
    zero. *)
Definition f64_milli : f64 := S754_finite false 4611686018427388 (-62).
Definition f64_round (x : f64) : Z :=
  match x with
  | S754_finite s m e =>
      let a := if 0 <=? e then Zpos m * 2 ^ e else (2 * Zpos m + 2 ^ (- e)) / 2 ^ (1 - e) in
      if s then - a else a
  | _ => 0
  end.

Section Audio.
Context {F : Type} `{Num F} `{Elementary F} `{Trig F}.

Record FeatureParams := {
  samplingFreq : Z;
  frameSizeMs : Z;
  frameStrideMs : Z;
  numFilterbankChans : Z;
  lowFreqFilterbank : Z;
  highFreqFilterbank : Z;
  numCepstralCoeffs : Z;
  lifterParam : Z;
  deltaWindow : Z;
  accWindow : Z;
  windowType : WindowType;
  preemCoef : F;
  melFloor : F;
  ditherVal : F;
  usePower : bool;
  useEnergy : bool;
  rawEnergy : bool;
  zeroMeanFrame : bool;
}.
Implicit Types (p : FeatureParams).

(** The rounded numbers of samples.  A [double] that does not fit has no
    conversion to [int]: the constructor of [PowerSpectrum] checks that these
    do before it uses the sizes. *)
Definition frameSizeRounded p : Z :=
  f64_round (f64_mul (f64_mul f64_milli (f64_of_Z (frameSizeMs p))) (f64_of_Z (samplingFreq p))).

Definition frameStrideRounded p : Z :=
  f64_round (f64_mul (f64_mul f64_milli (f64_of_Z (frameStrideMs p))) (f64_of_Z (samplingFreq p))).

Definition numFrameSizeSamples p : Z := i32 (frameSizeRounded p).

Definition numFrameStrideSamples p : Z := i32 (frameStrideRounded p).

(** [ceil(log2(n))] is exact on the integers; [1 << 31] is the least [int]. *)
Definition nFft p : Z :=
  let nsamples := numFrameSizeSamples p in if 0 <? nsamples then i32 (Z.shiftl 1 (Z.log2_up nsamples)) else 0.

Definition filterFreqResponseLen p : Z := Z.shiftr (nFft p) 1 + 1.
Definition powSpecFeatSz p : Z := filterFreqResponseLen p.

Definition devMultiplier p : Z := 1 + (if 0 <? deltaWindow p then 1 else 0) + (if 0 <? accWindow p then 1 else 0).
Definition mfscFeatSz p : Z := (numFilterbankChans p + (if useEnergy p then 1 else 0)) * devMultiplier p.
Definition mfccFeatSz p : Z := numCepstralCoeffs p * devMultiplier p.

(** The quotient of integers below 2^53, computed in binary64 and floored, is
    the integer quotient. *)
Definition numFrames p (inSize : Z) : Z :=
  let frameSize := numFrameSizeSamples p in
  let frameStride := numFrameStrideSamples p in
  if (frameStride <=? 0) || (inSize <? frameSize) then 0 else 1 + (inSize - frameSize) / frameStride.

(** * Framing and matrix products ([SpeechUtils.cpp]) *)

(** The cells of [frames] are written in order. *)
Definition frameSignal (input : list F) p : result (list F) :=
  let frameSize := numFrameSizeSamples p in
  let frameStride := numFrameStrideSamples p in
  let numframes := i32 (numFrames p (zlen input)) in
  let scale := n_of 32768 in
  if numframes * frameSize <? 0 then Throw LogicError
  else mapM_result (fun '(f, i) => x ← vec_get input (f * frameStride + i); Ok (n_mul scale x))
    (flat_map (fun f => map (fun i => (f, i)) (zrange 0 frameSize)) (zrange 0 numframes)).

Context (sgemm : Z -> Z -> Z -> list F -> list F -> list F).

Definition cblasGemm (matA matB : list F) (n k : Z) : result (list F) :=
  if (n <=? 0) || (k <=? 0) || bool_decide (matA = []) || negb (zlen matA mod k =? 0) then Throw InvalidArgument
  else
    nk ← int_value (n * k);
    if negb (zlen matB =? nk) then Throw InvalidArgument
    else
      let m := i32 (zlen matA / k) in
      mn ← int_value (m * n);
      if mn <? 0 then Throw LogicError else Ok (sgemm m n k matA matB).

(** * Dithering *)

Context {G : Type} (uniform : G -> F * G).

Fixpoint dither_applyInPlace (ditherVal_ : F) (g : G) (input : list F) : list F * G :=
  match input with
  | [] => ([], g)
  | i :: rest =>
      let '(u, g) := uniform g in
      let '(rest, g) := dither_applyInPlace ditherVal_ g rest in
      (n_add i (n_mul ditherVal_ u) :: rest, g)
  end.

(** * Pre-emphasis *)

(** [a >= b] *)
Definition n_ge (a b : F) : bool := negb (n_lt a b) && negb (n_isnan a) && negb (n_isnan b).

Record PreEmphasis := { pe_preemCoef_ : F; pe_windowLength_ : Z }.

Definition mkPreEmphasis (alpha : F) (N : Z) : result PreEmphasis :=
  if N <=? 1 then Throw InvalidArgument
  else if n_lt alpha n_zero || n_ge alpha n_one then Throw InvalidArgument
  else Ok {| pe_preemCoef_ := alpha; pe_windowLength_ := N |}.

Definition pe_frame (pe : PreEmphasis) (input : list F) (n : Z) : result (list F) :=
  let e := n * pe_windowLength_ pe - 1 in
  let s := (n - 1) * pe_windowLength_ pe in
  input ← loop_down e s (fun input i =>
    x ← vec_get input i; y ← vec_get input (i - 1);
    vec_set input i (n_sub x (n_mul (pe_preemCoef_ pe) y))) input;
  x ← vec_get input s;
  vec_set input s (n_mul x (n_sub n_one (pe_preemCoef_ pe))).

Definition pe_applyInPlace (pe : PreEmphasis) (input : list F) : result (list F) :=
  if negb (zlen input mod pe_windowLength_ pe =? 0) then Throw InvalidArgument
  else
    let nframes := zlen input / pe_windowLength_ pe in
    loop_down nframes 0 (pe_frame pe) input.

(** * Windowing and liftering *)

(** [for (auto& in : input) { in *= coefs_[n++]; if (n == len) n = 0; }] *)
Fixpoint scaleCyclic (coefs : list F) (len n : Z) (input : list F) : result (list F) :=
  match input with
  | [] => Ok []
  | x :: rest =>
      c ← vec_get coefs n;
      let n := n + 1 in
      rest ← scaleCyclic coefs len (if n =? len then 0 else n) rest;
      Ok (n_mul x c :: rest)
  end.

Record Windowing := { wd_windowLength_ : Z; wd_coefs_ : list F }.

(** A literal [a / b]. *)
Definition lit (a b : Z) : F := n_div (n_of a) (n_of b).

Definition windowCoef (windowtype : WindowType) (N i : Z) : F :=
  let angle := n_div (n_mul (n_mul (n_of 2) n_pi) (n_of i)) (n_of (N - 1)) in
  match windowtype with
  | HAMMING => n_sub (lit 54 100) (n_mul (lit 46 100) (n_cos angle))
  | HANNING => n_mul (lit 5 10) (n_sub n_one (n_cos angle))
  end.

Definition mkWindowing (N : Z) (windowtype : WindowType) : result Windowing :=
  if N <? 0 then Throw LogicError
  else if N <=? 1 then Throw InvalidArgument
  else Ok {| wd_windowLength_ := N; wd_coefs_ := map (windowCoef windowtype N) (zrange 0 N) |}.

Definition wd_applyInPlace (wd : Windowing) (input : list F) : result (list F) :=
  if negb (zlen input mod wd_windowLength_ wd =? 0) then Throw InvalidArgument
  else scaleCyclic (wd_coefs_ wd) (wd_windowLength_ wd) 0 input.

Record Ceplifter := { cl_numFilters_ : Z; cl_lifterParam_ : Z; cl_coefs_ : list F }.

Definition mkCeplifter (numfilters lifterparam : Z) : result Ceplifter :=
  if numfilters <? 0 then Throw LogicError
  else Ok {| cl_numFilters_ := numfilters; cl_lifterParam_ := lifterparam;
     cl_coefs_ := map (fun c => n_add n_one (n_mul (n_mul (lit 5 10) (n_of lifterparam))
       (n_sin (n_div (n_mul n_pi (n_of c)) (n_of lifterparam))))) (zrange 0 numfilters) |}.

Definition cl_applyInPlace (cl : Ceplifter) (input : list F) : result (list F) :=
  if cl_numFilters_ cl =? 0 then Throw Undefined
  else if negb (zlen input mod cl_numFilters_ cl =? 0) then Throw InvalidArgument
  else scaleCyclic (cl_coefs_ cl) (cl_numFilters_ cl) 0 input.

(** * Cosine transform and filter bank *)

Record Dct := { dct_numFilters_ : Z; dct_numCeps_ : Z; dctMat_ : list F }.

Definition mkDct (numfilters numceps : Z) : result Dct :=
  n ← int_value (numfilters * numceps);
  if n <? 0 then Throw LogicError
  else Ok {| dct_numFilters_ := numfilters; dct_numCeps_ := numceps;
     dctMat_ := flat_map (fun f => map (fun c =>
       n_mul (n_sqrt (n_div (n_of 2) (n_of numfilters)))
         (n_cos (n_div (n_mul (n_mul n_pi (n_of c)) (n_add (n_of f) (lit 5 10))) (n_of numfilters))))
       (zrange 0 numceps)) (zrange 0 numfilters) |}.

Definition dct_apply (d : Dct) (input : list F) : result (list F) :=
  cblasGemm input (dctMat_ d) (dct_numCeps_ d) (dct_numFilters_ d).

Definition hertzToWarpedScale (hz : F) (freqscale : FrequencyScale) : F :=
  match freqscale with
  | MEL => n_mul (n_of 2595) (n_log10 (n_add n_one (n_div hz (n_of 700))))
  | LOG10 => n_log10 hz
  | LINEAR => hz
  end.

Definition warpedToHertzScale (wrp : F) (freqscale : FrequencyScale) : F :=
  match freqscale with
  | MEL => n_mul (n_of 700) (n_sub (n_pow10 (n_div wrp (n_of 2595))) n_one)
  | LOG10 => n_pow10 wrp
  | LINEAR => wrp
  end.

(** [std::max(a, b)] and [std::min(a, b)]. *)
Definition std_max (a b : F) : F := if n_lt a b then b else a.
Definition std_min (a b : F) : F := if n_lt b a then b else a.

Record TriFilterbank := { tf_numFilters_ : Z; tf_filterLen_ : Z; tf_H_ : list F }.

(** The centre frequencies, in bins. *)
Definition centre (numfilters filterlen samplingfreq : Z) (minwarpfreq dwarp : F) (freqscale : FrequencyScale) (i : Z) : F :=
  n_div (n_mul (n_mul (warpedToHertzScale (n_add (n_mul (n_of i) dwarp) minwarpfreq) freqscale) (n_of (filterlen - 1))) (n_of 2))
    (n_of samplingfreq).

Definition triangle (f : Z -> F) (i j : Z) : F :=
  let hislope := n_div (n_sub (n_of i) (f j)) (n_sub (f (j + 1)) (f j)) in
  let loslope := n_div (n_sub (f (j + 2)) (n_of i)) (n_sub (f (j + 2)) (f (j + 1))) in
  std_max (std_min hislope loslope) n_zero.

(** The vectors [H_] and [f] are sized in [int]. *)
Definition mkTriFilterbank (numfilters filterlen samplingfreq lowfreq highfreq : Z) (freqscale : FrequencyScale) : result TriFilterbank :=
  n ← int_value (filterlen * numfilters);
  _ ← throw_if (n <? 0) LogicError;
  nf ← int_value (numfilters + 2);
  _ ← throw_if (nf <? 0) LogicError;
  let highFreq_ := if 0 <? highfreq then highfreq else Z.shiftr samplingfreq 1 in
  let minwarpfreq := hertzToWarpedScale (n_of lowfreq) freqscale in
  let maxwarpfreq := hertzToWarpedScale (n_of highFreq_) freqscale in
  let dwarp := n_div (n_sub maxwarpfreq minwarpfreq) (n_of (numfilters + 1)) in
  let f := centre numfilters filterlen samplingfreq minwarpfreq dwarp freqscale in
  Ok {| tf_numFilters_ := numfilters; tf_filterLen_ := filterlen;
     tf_H_ := flat_map (fun i => map (triangle f i) (zrange 0 numfilters)) (zrange 0 filterlen) |}.

Definition tf_apply (tf : TriFilterbank) (input : list F) (melfloor : F) : result (list F) :=
  output ← cblasGemm input (tf_H_ tf) (tf_numFilters_ tf) (tf_filterLen_ tf);
  Ok (map (fun n => std_max n melfloor) output).

(** * Derivatives *)

Definition derivativeCell (input : list F) (denominator : F) (windowlen numfeat numframes i j : Z) : result F :=
  let curIdx := i * numfeat + j in
  acc ← loop_up 1 (windowlen + 1) (fun acc d =>
    x ← vec_get input (curIdx + Z.min (numframes - i - 1) d * numfeat);
    y ← vec_get input (curIdx - Z.min i d * numfeat);
    Ok (n_add acc (n_mul (n_of d) (n_sub x y)))) n_zero;
  Ok (n_div acc denominator).

(** The cells of [output] are computed in order.  The window is positive, so that
    the whole product overflows when one of its factors does; the [int]s a loop
    compares with its [size_t] counter are converted to [size_t]. *)
Definition computeDerivative (input : list F) (windowlen numfeat : Z) : result (list F) :=
  let numfeat := u64 numfeat in
  let numframes := u64 (i32 (zlen input / numfeat)) in
  product ← int_value (windowlen * (windowlen + 1) * (2 * windowlen + 1));
  let denominator := n_div (n_of product) (n_of 3) in
  mapM_result (fun '(i, j) => derivativeCell input denominator windowlen numfeat numframes i j)
    (flat_map (fun i => map (fun j => (i, j)) (zrange 0 numfeat)) (zrange 0 numframes)).

(** [deltaWindow_], [accWindow_] and [numfeat] are [int]s. *)
Definition derivatives_apply (deltaWindow_ accWindow_ : Z) (input : list F) (numfeat : Z) : result (list F) :=
  let numfeat := u64 numfeat in
  if numfeat =? 0 then Throw Undefined
  else if negb (zlen input mod numfeat =? 0) then Throw InvalidArgument
  else if deltaWindow_ <=? 0 then Ok input
  else
    deltas ← computeDerivative input deltaWindow_ numfeat;
    doubledeltas ← (if 0 <? accWindow_ then computeDerivative deltas accWindow_ numfeat else Ok []);
    let szMul := if 0 <? accWindow_ then 3 else 2 in
    let numframes := u64 (i32 (zlen input / numfeat)) in
    loop_up 0 numframes (fun output i =>
      let curInIdx := i * numfeat in
      let curOutIdx := curInIdx * szMul in
      a ← vec_range input curInIdx (curInIdx + numfeat);
      output ← vec_copy a output curOutIdx;
      b ← vec_range deltas curInIdx (curInIdx + numfeat);
      output ← vec_copy b output (curOutIdx + numfeat);
      if 0 <? accWindow_ then
        c ← vec_range doubledeltas curInIdx (curInIdx + numfeat);
        vec_copy c output (curOutIdx + 2 * numfeat)
      else Ok output) (replicate (Z.to_nat (zlen input * szMul)) n_zero).

(** * Power spectrum *)

(** [fft_r2c]: the real and imaginary parts of the first half of the spectrum,
    interleaved; [plan_in]: the input buffer after planning. *)
Context (fft_r2c : list F -> list F) (plan_in : list F -> list F).

Record PowerSpectrum := {
  featParams_ : FeatureParams;
  dither_ : G;
  preEmphasis_ : PreEmphasis;
  windowing_ : Windowing;
  inFftBuf_ : list F;
}.

Definition validatePowSpecParams p : result unit :=
  if samplingFreq p <=? 0 then Throw InvalidArgument
  else if frameSizeMs p <=? 0 then Throw InvalidArgument
  else if frameStrideMs p <=? 0 then Throw InvalidArgument
  else if numFrameSizeSamples p <=? 0 then Throw InvalidArgument
  else
    _ ← int_value (frameStrideRounded p);
    if numFrameStrideSamples p <=? 0 then Throw InvalidArgument else Ok tt.

Definition mkPowerSpectrum p (g : G) : result PowerSpectrum :=
  _ ← int_value (frameSizeRounded p);
  pe ← mkPreEmphasis (preemCoef p) (numFrameSizeSamples p);
  wd ← mkWindowing (numFrameSizeSamples p) (windowType p);
  _ ← validatePowSpecParams p;
  _ ← throw_if (nFft p <? 0) LogicError;
  Ok {| featParams_ := p; dither_ := g; preEmphasis_ := pe; windowing_ := wd;
        inFftBuf_ := plan_in (replicate (Z.to_nat (nFft p)) n_zero) |}.

(** [x != y] *)
Definition n_differ (x y : F) : bool := n_lt x y || n_lt y x || n_isnan x || n_isnan y.

Definition zeroMean (nSamples : Z) (frames : list F) (f : Z) : result (list F) :=
  frame ← vec_range frames (f * nSamples) (f * nSamples + nSamples);
  let mean := n_div (fold_left n_add frame n_zero) (n_of nSamples) in
  vec_copy (map (fun x => n_sub x mean) frame) frames (f * nSamples).

(** The copy into the redundant part of the spectrum. *)
Definition mirror (nFft K : Z) (out : list F) : result (list F) :=
  loop_up K nFft (fun out i =>
    x ← vec_get out (2 * nFft - 2 * i);
    out ← vec_set out (2 * i) x;
    y ← vec_get out (2 * nFft - 2 * i + 1);
    vec_set out (2 * i + 1) (n_neg y)) out.

(** The spectrum of one frame and the new input buffer. *)
Definition spectrumFrame (nSamples nFft K : Z) (frames : list F) (buf : list F) (f : Z) : result (list F * list F) :=
  frame ← vec_range frames (f * nSamples) (f * nSamples + nSamples);
  buf ← vec_copy frame buf 0;
  out ← vec_copy (fft_r2c buf) (replicate (Z.to_nat (2 * nFft)) n_zero) 0;
  out ← mirror nFft K out;
  dft ← mapM_result (fun i =>
    re ← vec_get out (2 * i); im ← vec_get out (2 * i + 1);
    Ok (n_sqrt (n_add (n_mul re re) (n_mul im im)))) (zrange 0 K);
  Ok (dft, buf).

(** [frames] is updated in place; the results are the spectrum, the frames and
    the object. *)
Definition powSpectrumImpl (ps : PowerSpectrum) (frames : list F) : result (list F * list F * PowerSpectrum) :=
  let p := featParams_ ps in
  let nSamples := numFrameSizeSamples p in
  let nFrames := i32 (zlen frames / nSamples) in
  let K := i32 (filterFreqResponseLen p) in
  let '(frames, g) := if n_differ (ditherVal p) n_zero
    then dither_applyInPlace (ditherVal p) (dither_ ps) frames else (frames, dither_ ps) in
  frames ← (if zeroMeanFrame p then loop_up 0 (u64 nFrames) (zeroMean nSamples) frames else Ok frames);
  frames ← (if n_differ (preemCoef p) n_zero then pe_applyInPlace (preEmphasis_ ps) frames else Ok frames);
  frames ← wd_applyInPlace (windowing_ ps) frames;
  dftSize ← int_value (K * nFrames);
  _ ← throw_if (dftSize <? 0) LogicError;
  '(dft, buf) ← loop_up 0 (u64 nFrames) (fun '(dft, buf) f =>
    '(d, buf) ← spectrumFrame nSamples (nFft p) K frames buf f;
    Ok (dft ++ d, buf)) ([], inFftBuf_ ps);
  Ok (dft, frames, {| featParams_ := p; dither_ := g; preEmphasis_ := preEmphasis_ ps;
                      windowing_ := windowing_ ps; inFftBuf_ := buf |}).

Definition powspec_apply (ps : PowerSpectrum) (input : list F) : result (list F * PowerSpectrum) :=
  frames ← frameSignal input (featParams_ ps);
  if bool_decide (frames = []) then Ok ([], ps)
  else '(dft, _, ps) ← powSpectrumImpl ps frames; Ok (dft, ps).

Definition powspec_outputSize (ps : PowerSpectrum) (inputSz : Z) : Z :=
  i32 (powSpecFeatSz (featParams_ ps) * numFrames (featParams_ ps) inputSz).

(** [batchApply] of a front end with its [apply], its [outputSize] and its
    parameters.  The entries of the batch are computed by a team of threads:
    [order] is the order in which they are.  They share the transform and its
    buffers, under a lock, and without one the random engine of [dither_], which
    [apply] advances when it dithers: two entries that do so race, which is
    undefined.  The exception in the loop is the one of a build without OpenMP;
    with it, it leaves the parallel region and ends the program. *)
Definition batchEntry {Obj} (apply : Obj -> list F -> result (list F * Obj)) (N outputSz : Z) (input : list F)
    (s : list F * Obj) (b : Z) : result (list F * Obj) :=
  let '(feat, o) := s in
  start ← int_value (b * N);
  inputBuf ← vec_range input start (start + N);
  '(curFeat, o) ← apply o inputBuf;
  if negb (u64 outputSz =? zlen curFeat) then Throw LogicError
  else feat ← vec_copy curFeat feat (b * zlen curFeat); Ok (feat, o).

Definition ditherRace (p : FeatureParams) (N batchSz : Z) : bool :=
  (1 <? batchSz) && (0 <? numFrames p N) && n_differ (ditherVal p) n_zero.

Definition batchApply {Obj} (apply : Obj -> list F -> result (list F * Obj)) (outputSize : Obj -> Z -> Z)
    (params : Obj -> FeatureParams) (order : list Z) (o : Obj) (input : list F) (batchSz : Z) : result (list F * Obj) :=
  if batchSz <=? 0 then Throw InvalidArgument
  else if negb (zlen input mod batchSz =? 0) then Throw InvalidArgument
  else
    let N := i32 (zlen input / batchSz) in
    let outputSz := outputSize o N in
    n ← int_value (outputSz * batchSz);
    _ ← throw_if (n <? 0) LogicError;
    _ ← throw_if (ditherRace (params o) N batchSz) Undefined;
    foldM_result (batchEntry apply N outputSz input) (replicate (Z.to_nat n) n_zero, o) order.

(** * Mel-frequency spectral coefficients *)

Record Mfsc := { mfsc_ps : PowerSpectrum; triFltBank_ : TriFilterbank }.

Definition validateMfscParams p : result unit :=
  _ ← validatePowSpecParams p;
  if numFilterbankChans p <=? 0 then Throw InvalidArgument
  else if n_ge n_zero (melFloor p) then Throw InvalidArgument
  else Ok tt.

Definition mkMfsc p (g : G) : result Mfsc :=
  ps ← mkPowerSpectrum p g;
  tf ← mkTriFilterbank (i32 (numFilterbankChans p)) (i32 (filterFreqResponseLen p)) (i32 (samplingFreq p))
    (i32 (lowFreqFilterbank p)) (i32 (highFreqFilterbank p)) MEL;
  _ ← validateMfscParams p;
  Ok {| mfsc_ps := ps; triFltBank_ := tf |}.

Definition mfscImpl (m : Mfsc) (frames : list F) : result (list F * list F * Mfsc) :=
  '(powspectrum, frames, ps) ← powSpectrumImpl (mfsc_ps m) frames;
  let p := featParams_ (mfsc_ps m) in
  let powspectrum := if usePower p then map (fun x => n_mul x x) powspectrum else powspectrum in
  triflt ← tf_apply (triFltBank_ m) powspectrum (melFloor p);
  Ok (map n_log triflt, frames, {| mfsc_ps := ps; triFltBank_ := triFltBank_ m |}).

Definition innerProduct (l : list F) : F := fold_left (fun s x => n_add s (n_mul x x)) l n_zero.

(** The log energy of every frame, clamped from below when [clamp]. *)
Definition energies (clamp : bool) (nSamples nFrames : Z) (frames : list F) : result (list F) :=
  mapM_result (fun f =>
    frame ← vec_range frames (f * nSamples) (f * nSamples + nSamples);
    let e := innerProduct frame in
    Ok (n_log (if clamp then std_max e n_lowest else e))) (zrange 0 nFrames).

(** The features with the energy put in front of every frame. *)
Definition prependEnergy (nFrames numFeat : Z) (energy mfscFeat : list F) : result (list F) :=
  loop_up 0 nFrames (fun new f =>
    let start := f * numFeat in
    e ← vec_get energy f;
    new ← vec_set new (start + f) e;
    feat ← vec_range mfscFeat start (start + numFeat);
    vec_copy feat new (start + f + 1)) (replicate (Z.to_nat (zlen mfscFeat + nFrames)) n_zero).

Definition mfsc_apply (m : Mfsc) (input : list F) : result (list F * Mfsc) :=
  let p := featParams_ (mfsc_ps m) in
  frames ← frameSignal input p;
  if bool_decide (frames = []) then Ok ([], m)
  else
    let nSamples := numFrameSizeSamples p in
    let nFrames := i32 (zlen frames / nSamples) in
    energy ← (if useEnergy p && rawEnergy p then energies true nSamples nFrames frames
              else Ok (replicate (Z.to_nat nFrames) n_zero));
    '(mfscFeat, frames, m) ← mfscImpl m frames;
    let numFeat := numFilterbankChans p in
    if useEnergy p then
      energy ← (if rawEnergy p then Ok energy else energies true nSamples nFrames frames);
      mfscFeat ← prependEnergy nFrames numFeat energy mfscFeat;
      out ← derivatives_apply (i32 (deltaWindow p)) (i32 (accWindow p)) mfscFeat (i32 (numFeat + 1));
      Ok (out, m)
    else
      out ← derivatives_apply (i32 (deltaWindow p)) (i32 (accWindow p)) mfscFeat (i32 numFeat);
      Ok (out, m).

Definition mfsc_outputSize (m : Mfsc) (inputSz : Z) : Z :=
  let p := featParams_ (mfsc_ps m) in i32 (mfscFeatSz p * numFrames p inputSz).

(** * Mel-frequency cepstral coefficients *)

Record Mfcc := { mfcc_mfsc : Mfsc; dct_ : Dct; ceplifter_ : Ceplifter }.

Definition validateMfccParams p : result unit :=
  _ ← validatePowSpecParams p;
  _ ← validateMfscParams p;
  if lifterParam p <? 0 then Throw InvalidArgument else Ok tt.

Definition mkMfcc p (g : G) : result Mfcc :=
  m ← mkMfsc p g;
  d ← mkDct (i32 (numFilterbankChans p)) (i32 (numCepstralCoeffs p));
  cl ← mkCeplifter (i32 (numCepstralCoeffs p)) (i32 (lifterParam p));
  _ ← validateMfccParams p;
  Ok {| mfcc_mfsc := m; dct_ := d; ceplifter_ := cl |}.

Definition mfcc_apply (c : Mfcc) (input : list F) : result (list F * Mfcc) :=
  let p := featParams_ (mfsc_ps (mfcc_mfsc c)) in
  frames ← frameSignal input p;
  if bool_decide (frames = []) then Ok ([], c)
  else
    let nSamples := numFrameSizeSamples p in
    let nFrames := i32 (zlen frames / nSamples) in
    energy ← (if useEnergy p && rawEnergy p then energies false nSamples nFrames frames
              else Ok (replicate (Z.to_nat nFrames) n_zero));
    '(mfscfeat, frames, m) ← mfscImpl (mfcc_mfsc c) frames;
    cep ← dct_apply (dct_ c) mfscfeat;
    cep ← cl_applyInPlace (ceplifter_ c) cep;
    let nFeat := numCepstralCoeffs p in
    let c := {| mfcc_mfsc := m; dct_ := dct_ c; ceplifter_ := ceplifter_ c |} in
    if useEnergy p then
      energy ← (if rawEnergy p then Ok energy else energies false nSamples nFrames frames);
      cep ← loop_up 0 nFrames (fun cep f => e ← vec_get energy f; vec_set cep (f * nFeat) e) cep;
      out ← derivatives_apply (i32 (deltaWindow p)) (i32 (accWindow p)) cep (i32 nFeat);
      Ok (out, c)
    else
      out ← derivatives_apply (i32 (deltaWindow p)) (i32 (accWindow p)) cep (i32 nFeat);
      Ok (out, c).

Definition mfcc_outputSize (c : Mfcc) (inputSz : Z) : Z :=
  let p := featParams_ (mfsc_ps (mfcc_mfsc c)) in i32 (mfccFeatSz p * numFrames p inputSz).
End Audio.
Arguments FeatureParams F : clear implicits.
Arguments PreEmphasis F : clear implicits.
Arguments Windowing F : clear implicits.
Arguments PowerSpectrum F G : clear implicits.
Arguments Mfsc F G : clear implicits.
Arguments Mfcc F G : clear implicits.
