(* ===== verification/AudioProofs.v ===== *)
(** Speech features: every stage is total on the sizes the stage before
    produces, and the front ends return as many features as they announce. *)
From S2P Require Import Prelude Vectors Numeric Audio.

Open Scope Z_scope.

(** The index pairs of two nested loops. *)
Definition grid (m n : Z) : list (Z * Z) := flat_map (fun i => map (fun j => (i, j)) (zrange 0 n)) (zrange 0 m).

Lemma elem_of_grid m n i j : (i, j) ∈ grid m n <-> 0 <= i < m /\ 0 <= j < n.
Proof.
  unfold grid. rewrite list_elem_of_In, in_flat_map. split.
  - intros (a & Ha & (b & E & Hb)%in_map_iff). injection E as -> ->.
    apply list_elem_of_In, elem_of_zrange in Ha. apply list_elem_of_In, elem_of_zrange in Hb. done.
  - intros [Hi Hj]. exists i. split; [by apply list_elem_of_In, elem_of_zrange|].
    apply in_map_iff. exists j. split; [done|]. by apply list_elem_of_In, elem_of_zrange.
Qed.

Lemma length_flat_map_const {A B} (f : A -> list B) l n :
  (forall x, x ∈ l -> length (f x) = n) -> length (flat_map f l) = (length l * n)%nat.
Proof.
  induction l as [|x l IH]; intros Hf; cbn; [done|]. rewrite length_app, (Hf x) by left. rewrite IH; [lia|].
  intros y Hy. apply Hf. by right.
Qed.

Lemma length_grid m n : 0 <= m -> 0 <= n -> length (grid m n) = Z.to_nat (m * n).
Proof.
  intros Hm Hn. unfold grid. rewrite (length_flat_map_const _ _ (Z.to_nat n)).
  - rewrite length_zrange. rewrite Z.sub_0_r, Z2Nat.inj_mul by lia. done.
  - intros x _. rewrite length_map, length_zrange. f_equal. lia.
Qed.

Lemma grid_snoc m n : 0 <= m -> grid (m + 1) n = grid m n ++ map (fun j => (m, j)) (zrange 0 n).
Proof. intros Hm. unfold grid. rewrite zrange_snoc by lia. rewrite flat_map_app. cbn. by rewrite app_nil_r. Qed.

Lemma grid_lookup m n i j :
  0 <= i < m -> 0 <= j < n -> grid m n !! Z.to_nat (i * n + j) = Some (i, j).
Proof.
  intros Hi Hj. remember (Z.to_nat m) as k eqn:Ek. revert m Ek Hi. induction k as [|k IH]; intros m Ek Hi; [lia|].
  replace m with (m - 1 + 1) by lia. rewrite grid_snoc by lia. destruct (decide (i < m - 1)) as [Hlt|Hge].
  - apply lookup_app_l_Some. apply IH; lia.
  - assert (i = m - 1) as -> by lia. rewrite lookup_app_r; rewrite length_grid by lia; [|nia].
    rewrite list_lookup_fmap. replace (Z.to_nat ((m - 1) * n + j) - Z.to_nat ((m - 1) * n))%nat with (Z.to_nat j) by nia.
    rewrite zrange_lookup by lia. cbn. f_equal. f_equal. lia.
Qed.

Lemma mapM_grid {B} (f : Z * Z -> result B) m n :
  0 <= m -> 0 <= n -> (forall i j, 0 <= i < m -> 0 <= j < n -> exists y, f (i, j) = Ok y) ->
  exists ys, mapM_result f (grid m n) = Ok ys /\ zlen ys = m * n
    /\ forall i j, 0 <= i < m -> 0 <= j < n -> vec_get ys (i * n + j) = f (i, j).
Proof.
  intros Hm Hn Hf. destruct (mapM_result_size f (grid m n)) as (ys & Hys & Hl & Hlook).
  { intros [i j] [Hi Hj]%elem_of_grid. auto. }
  exists ys. split; [done|]. rewrite length_grid in Hl by done. split; [unfold zlen; lia|].
  intros i j Hi Hj. destruct (Hlook _ _ (grid_lookup m n i j Hi Hj)) as (y & Hy & ->). apply vec_get_Ok. split; [nia|done].
Qed.

(** * Stages *)

Section Stages.
Context {F : Type} `{Num F} `{Elementary F} `{Trig F}.

Lemma numFrames_nonneg (p : FeatureParams F) n : 0 <= numFrames p n.
Proof.
  unfold numFrames. destruct (Z.leb_spec (numFrameStrideSamples p) 0); [done|].
  destruct (Z.ltb_spec n (numFrameSizeSamples p)); [done|]. cbn.
  pose proof (Z.div_pos (n - numFrameSizeSamples p) (numFrameStrideSamples p)). lia.
Qed.

(** Every frame lies inside the signal, and one more would not. *)
Lemma numFrames_fit (p : FeatureParams F) n f :
  0 <= f < numFrames p n -> f * numFrameStrideSamples p + numFrameSizeSamples p <= n.
Proof.
  unfold numFrames. destruct (Z.leb_spec (numFrameStrideSamples p) 0); [cbn; lia|].
  destruct (Z.ltb_spec n (numFrameSizeSamples p)); [cbn; lia|]. cbn. intros Hf.
  pose proof (Z.mul_div_le (n - numFrameSizeSamples p) (numFrameStrideSamples p)). nia.
Qed.

Lemma frameSignal_ok (p : FeatureParams F) input :
  0 < numFrameSizeSamples p -> 0 < numFrameStrideSamples p -> numFrames p (zlen input) < 2 ^ 31 ->
  exists frames, frameSignal input p = Ok frames /\ zlen frames = numFrames p (zlen input) * numFrameSizeSamples p
  /\ forall f i, 0 <= f < numFrames p (zlen input) -> 0 <= i < numFrameSizeSamples p ->
     vec_get frames (f * numFrameSizeSamples p + i)
       = (x ← vec_get input (f * numFrameStrideSamples p + i); Ok (n_mul (n_of 32768) x)).
Proof.
  intros Hs Hst Hfit. pose proof (numFrames_nonneg p (zlen input)). unfold frameSignal. rewrite i32_id by lia.
  rewrite (proj2 (Z.ltb_ge _ _)) by nia.
  destruct (mapM_grid (fun '(f, i) => x ← vec_get input (f * numFrameStrideSamples p + i); Ok (n_mul (n_of 32768) x))
    (numFrames p (zlen input)) (numFrameSizeSamples p)) as (ys & Hys & Hl & Hg).
  - apply numFrames_nonneg.
  - lia.
  - intros f i Hf Hi. pose proof (numFrames_fit p (zlen input) f Hf).
    destruct (vec_get_is_Ok input (f * numFrameStrideSamples p + i)) as [x Hx]; [nia|]. rewrite Hx. cbn. eauto.
  - exists ys. done.
Qed.

Lemma dither_size {G} (uniform : G -> F * G) v g input : length (fst (dither_applyInPlace uniform v g input)) = length input.
Proof.
  revert g. induction input as [|x l IH]; intros g; cbn; [done|]. destruct (uniform g) as [u g1].
  specialize (IH g1). destruct (dither_applyInPlace _ _ _ _). cbn in *. by rewrite IH.
Qed.

(** ** Pre-emphasis *)

Section PreEmphasis.
Context (pe : PreEmphasis F) (input : list F).
Let W := pe_windowLength_ pe.
Hypothesis HW : 1 < W.

(** The value of a cell after pre-emphasis. *)
Definition emphasized (i : Z) : result F :=
  x ← vec_get input i;
  if i mod W =? 0 then Ok (n_mul x (n_sub n_one (pe_preemCoef_ pe)))
  else y ← vec_get input (i - 1); Ok (n_sub x (n_mul (pe_preemCoef_ pe) y)).

(** Cells from [k] on are done, the others untouched. *)
Definition emphasizedFrom (k : Z) (l : list F) : Prop :=
  zlen l = zlen input /\ forall j, 0 <= j -> vec_get l j = if decide (k <= j < zlen input) then emphasized j else vec_get input j.

Lemma pe_frame_ok n l :
  1 <= n -> n * W <= zlen input -> emphasizedFrom (n * W) l ->
  exists l', pe_frame pe l n = Ok l' /\ emphasizedFrom ((n - 1) * W) l'.
Proof.
  intros Hn Hle Hstart. unfold pe_frame. fold W.
  assert (0 <= (n - 1) * W) by nia. assert ((n - 1) * W + W = n * W) by ring.
  assert (forall i, (n - 1) * W < i <= n * W - 1 -> i mod W <> 0) as Hmod.
  { intros i Hi Hm. apply Z.mod_divide in Hm as [q ->]; [|lia].
    destruct (Z.le_gt_cases q (n - 1)) as [Hq|Hq].
    - pose proof (Z.mul_le_mono_nonneg_r q (n - 1) W). lia.
    - pose proof (Z.mul_le_mono_nonneg_r n q W). lia. }
  match goal with |- context [loop_down ?hi ?lo ?bd ?s0] =>
    destruct (loop_down_ok (fun i l => emphasizedFrom (i + 1) l) lo hi bd s0) as (l1 & E1 & Hl1 & G1); [nia| | |] end.
  - replace (n * W - 1 + 1) with (n * W) by lia. exact Hstart.
  - intros i s Hi [Hl Hg]. cbn beta.
    destruct (vec_get_is_Ok input i) as [x Hx]; [nia|]. destruct (vec_get_is_Ok input (i - 1)) as [y Hy]; [nia|].
    rewrite (Hg i), (Hg (i - 1)) by lia. rewrite !decide_False by lia. rewrite Hx, Hy. cbn.
    destruct (vec_set_ok s i (n_sub x (n_mul (pe_preemCoef_ pe) y))) as (s' & -> & Hl' & Hg'); [nia|].
    exists s'. split; [done|]. split; [lia|]. intros j Hj. rewrite Hg' by done. replace (i - 1 + 1) with i by lia.
    destruct (decide (j = i)) as [->|Hne].
    + rewrite decide_True by nia. unfold emphasized. rewrite Hx. cbn. destruct (Z.eqb_spec (i mod W) 0) as [Hz|]; [by destruct (Hmod i Hi)|].
      by rewrite Hy.
    + rewrite Hg by done. destruct (decide (i + 1 <= j < _)); [rewrite decide_True by lia|rewrite decide_False by lia]; done.
  - rewrite E1. unfold mbind, result_bind. destruct (vec_get_is_Ok input ((n - 1) * W)) as [x Hx]; [nia|].
    rewrite G1 by nia. rewrite decide_False by lia. rewrite Hx.
    destruct (vec_set_ok l1 ((n - 1) * W) (n_mul x (n_sub n_one (pe_preemCoef_ pe)))) as (l' & -> & Hl' & Hg'); [nia|].
    exists l'. split; [done|]. split; [lia|]. intros j Hj. rewrite Hg' by done. destruct (decide (j = (n - 1) * W)) as [->|Hne].
    + rewrite decide_True by nia. unfold emphasized. rewrite Hx. cbn. by rewrite Z_mod_mult.
    + rewrite G1 by done. destruct (decide ((n - 1) * W + 1 <= j < _)); [rewrite decide_True by lia|rewrite decide_False by lia]; done.
Qed.

Lemma pe_applyInPlace_ok :
  zlen input mod W = 0 ->
  exists out, pe_applyInPlace pe input = Ok out /\ zlen out = zlen input
    /\ forall i, 0 <= i < zlen input -> vec_get out i = emphasized i.
Proof.
  intros Hd. unfold pe_applyInPlace. fold W. rewrite Hd. cbn. pose proof (Z.div_mod (zlen input) W ltac:(lia)) as Hdm.
  pose proof (zlen_nonneg input). assert (0 <= zlen input / W) by (apply Z.div_pos; lia).
  destruct (loop_down_ok (fun n l => emphasizedFrom (n * W) l) 0 (zlen input / W) (pe_frame pe) input)
    as (out & E & Hl & Hg); [done| | |].
  - split; [done|]. intros j Hj. rewrite decide_False by nia. done.
  - intros n l Hn Hl. apply pe_frame_ok; [lia|nia|done].
  - exists out. split; [done|]. split; [done|]. intros i Hi. rewrite Hg by lia. by rewrite decide_True by lia.
Qed.
End PreEmphasis.

(** ** Windowing and liftering *)

Lemma scaleCyclic_ok (coefs : list F) len input :
  0 < len -> zlen coefs = len -> forall n, 0 <= n < len ->
  exists out, scaleCyclic coefs len n input = Ok out /\ zlen out = zlen input
    /\ forall i, 0 <= i < zlen input ->
       vec_get out i = (x ← vec_get input i; c ← vec_get coefs ((n + i) mod len); Ok (n_mul x c)).
Proof.
  intros Hlen Hc. induction input as [|x input IH]; intros n Hn.
  - exists []. split_and!; [done|done|]. intros i Hi. unfold zlen in Hi; cbn in Hi. lia.
  - cbn [scaleCyclic]. destruct (vec_get_is_Ok coefs n) as [c Ec]; [lia|]. rewrite Ec. cbn [mbind result_bind].
    destruct (IH (if n + 1 =? len then 0 else n + 1)) as (out & -> & Hl & Hg); [destruct (Z.eqb_spec (n + 1) len); lia|].
    cbn [mbind result_bind]. eexists. split; [done|]. rewrite !zlen_cons. split; [lia|]. intros i Hi.
    destruct (decide (i = 0)) as [->|Hi0].
    + rewrite Z.add_0_r, Z.mod_small by lia. cbn. by rewrite Ec.
    + assert (forall (l : list F) y, vec_get (y :: l) i = vec_get l (i - 1)) as Hcons.
      { intros l y. rewrite !vec_get_nat by lia. replace (Z.to_nat i) with (S (Z.to_nat (i - 1))) by lia. done. }
      rewrite !Hcons, Hg by lia. destruct (vec_get input (i - 1)) as [y|]; cbn; [|done].
      replace (((if n + 1 =? len then 0 else n + 1) + (i - 1)) mod len) with ((n + i) mod len); [done|].
      destruct (Z.eqb_spec (n + 1) len); [|f_equal; lia].
      replace (n + i) with (0 + (i - 1) + 1 * len) by lia. apply Z_mod_plus_full.
Qed.
End Stages.

(** * Derivatives *)

Section Derivatives.
Context {F : Type} `{Num F}.

(** The regression of a cell over the frames around it, frames outside the
    signal replaced by its first or last one. *)
Definition regression (x : Z -> F) (windowlen numframes i : Z) : F :=
  n_div (fold_left (fun acc d => n_add acc (n_mul (n_of d) (n_sub (x (Z.min (numframes - 1) (i + d))) (x (Z.max 0 (i - d))))))
           (zrange 1 (windowlen + 1)) n_zero)
    (n_div (n_of (windowlen * (windowlen + 1) * (2 * windowlen + 1))) (n_of 3)).

Lemma foldM_result_pure {A S} (f : S -> A -> result S) (g : S -> A -> S) l s :
  (forall s x, x ∈ l -> f s x = Ok (g s x)) -> foldM_result f s l = Ok (fold_left g l s).
Proof.
  revert s. induction l as [|x l IH]; intros s Hf; [done|]. cbn. rewrite Hf by left. apply IH. intros. apply Hf. by right.
Qed.

Lemma derivativeCell_ok (input : list F) (x : Z -> Z -> F) windowlen numfeat numframes i j :
  0 < numfeat -> zlen input = numframes * numfeat -> 0 <= i < numframes -> 0 <= j < numfeat ->
  (forall i j, 0 <= i < numframes -> 0 <= j < numfeat -> vec_get input (i * numfeat + j) = Ok (x i j)) ->
  derivativeCell input (n_div (n_of (windowlen * (windowlen + 1) * (2 * windowlen + 1))) (n_of 3)) windowlen numfeat numframes i j
    = Ok (regression (fun i => x i j) windowlen numframes i).
Proof.
  intros Hnf Hl Hi Hj Hx. unfold derivativeCell, loop_up.
  erewrite (foldM_result_pure _ (fun acc d => n_add acc (n_mul (n_of d)
    (n_sub (x (Z.min (numframes - 1) (i + d)) j) (x (Z.max 0 (i - d)) j))))); [done|].
  intros acc d Hd%elem_of_zrange.
  replace (i * numfeat + j + Z.min (numframes - i - 1) d * numfeat) with (Z.min (numframes - 1) (i + d) * numfeat + j)
    by (replace (Z.min (numframes - 1) (i + d)) with (i + Z.min (numframes - i - 1) d) by lia; ring).
  replace (i * numfeat + j - Z.min i d * numfeat) with (Z.max 0 (i - d) * numfeat + j)
    by (replace (Z.max 0 (i - d)) with (i - Z.min i d) by lia; ring).
  rewrite !Hx by lia. done.
Qed.

Definition cellOf (input : list F) (numfeat i j : Z) : F :=
  match vec_get input (i * numfeat + j) with Ok x => x | Throw _ => n_zero end.

Lemma cellOf_ok (input : list F) numfeat numframes i j :
  zlen input = numframes * numfeat -> 0 <= i < numframes -> 0 <= j < numfeat ->
  vec_get input (i * numfeat + j) = Ok (cellOf input numfeat i j).
Proof.
  intros Hl Hi Hj. unfold cellOf. destruct (vec_get_is_Ok input (i * numfeat + j)) as [x ->]; [nia|done].
Qed.

(** The greatest window whose sum of squares is computed in [int]. *)
Definition maxWindow : Z := 1023.

Lemma window_product w : 0 < w <= maxWindow -> int_value (w * (w + 1) * (2 * w + 1)) = Ok (w * (w + 1) * (2 * w + 1)).
Proof.
  unfold maxWindow. intros Hw. apply int_value_fits. assert (w * (w + 1) <= 1023 * 1024) by nia. nia.
Qed.

Lemma computeDerivative_ok (input : list F) windowlen numfeat numframes :
  0 < windowlen <= maxWindow -> 0 < numfeat < 2 ^ 31 -> 0 <= numframes < 2 ^ 31 -> zlen input = numframes * numfeat ->
  exists out, computeDerivative input windowlen numfeat = Ok out /\ zlen out = zlen input
  /\ forall i j, 0 <= i < numframes -> 0 <= j < numfeat ->
     vec_get out (i * numfeat + j) = Ok (regression (fun i => cellOf input numfeat i j) windowlen numframes i).
Proof.
  intros Hw Hnf Hfr Hl. unfold computeDerivative. rewrite (u64_id numfeat) by lia. cbv zeta. rewrite Hl, Z.div_mul by lia.
  rewrite i32_id, u64_id, window_product by lia. cbn [mbind result_bind]. set (den := n_div _ _).
  assert (forall i j, 0 <= i < numframes -> 0 <= j < numfeat ->
    derivativeCell input den windowlen numfeat numframes i j = Ok (regression (fun i => cellOf input numfeat i j) windowlen numframes i)) as Hc.
  { intros i j Hi Hj. apply (derivativeCell_ok input (cellOf input numfeat)); try done; [lia|].
    intros a b Ha Hb. by eapply cellOf_ok. }
  destruct (mapM_grid (fun '(i, j) => derivativeCell input den windowlen numfeat numframes i j) numframes numfeat)
    as (ys & Hys & Hlen & Hg); [lia|lia| |].
  - intros i j Hi Hj. rewrite Hc by done. eauto.
  - exists ys. split; [done|]. split; [lia|]. intros i j Hi Hj. by rewrite Hg, Hc by done.
Qed.

(** The features of every frame are followed by their first and, when asked
    for, second derivatives. *)
Lemma derivatives_apply_ok (input : list F) dw aw numfeat numframes :
  dw <= maxWindow -> aw <= maxWindow -> 0 < numfeat < 2 ^ 31 -> 0 <= numframes < 2 ^ 31 -> zlen input = numframes * numfeat ->
  exists out, derivatives_apply dw aw input numfeat = Ok out
  /\ zlen out = zlen input * (if dw <=? 0 then 1 else if 0 <? aw then 3 else 2).
Proof.
  intros Hdw Haw Hnf Hfr Hl. unfold derivatives_apply. rewrite (u64_id numfeat) by lia. cbv zeta. destruct (Z.eqb_spec numfeat 0); [lia|].
  rewrite Hl, Z_mod_mult, Z.div_mul, i32_id, u64_id by lia. cbn [Z.eqb negb].
  destruct (Z.leb_spec dw 0); [exists input; split; [done|lia]|].
  destruct (computeDerivative_ok input dw numfeat numframes ltac:(lia) Hnf Hfr Hl) as (deltas & -> & Hl1 & _). cbn [mbind result_bind].
  assert (exists dd, (if 0 <? aw then computeDerivative deltas aw numfeat else Ok []) = Ok dd
    /\ (0 < aw -> zlen dd = zlen input)) as (dd & -> & Hl2).
  { destruct (Z.ltb_spec 0 aw); [|by exists []; split; [done|lia]].
    destruct (computeDerivative_ok deltas aw numfeat numframes ltac:(lia) Hnf Hfr) as (dd & -> & Hl2 & _); [lia|].
    exists dd. split; [done|lia]. }
  cbn [mbind result_bind]. set (k := if 0 <? aw then 3 else 2).
  assert (2 <= k /\ (0 < aw -> k = 3)) as [Hk Hk3] by (unfold k; destruct (Z.ltb_spec 0 aw); lia).
  apply (loop_up_ok (fun _ (out : list F) => zlen out = numframes * numfeat * k)); [lia| |].
  - unfold zlen. rewrite length_replicate. nia.
  - intros i out Hi Ho.
    assert (0 <= i * numfeat /\ i * numfeat + numfeat <= numframes * numfeat) as [Ha Hb] by nia.
    assert (i * numfeat * k + k * numfeat <= numframes * numfeat * k) as Hc by nia.
    destruct (vec_range_ok input (i * numfeat) (i * numfeat + numfeat)) as (a & -> & La & _); [lia|lia|]. cbn [mbind result_bind].
    destruct (vec_copy_ok a out (i * numfeat * k)) as (o1 & -> & L1 & _); [nia|nia|]. cbn [mbind result_bind].
    destruct (vec_range_ok deltas (i * numfeat) (i * numfeat + numfeat)) as (b & -> & Lb & _); [lia|lia|]. cbn [mbind result_bind].
    destruct (vec_copy_ok b o1 (i * numfeat * k + numfeat)) as (o2 & -> & L2 & _); [nia|nia|]. cbn [mbind result_bind].
    destruct (Z.ltb_spec 0 aw); [|exists o2; split; [done|lia]].
    destruct (vec_range_ok dd (i * numfeat) (i * numfeat + numfeat)) as (c & -> & Lc & _); [lia|lia|]. cbn [mbind result_bind].
    destruct (vec_copy_ok c o2 (i * numfeat * k + 2 * numfeat)) as (o3 & -> & L3 & _); [nia|nia|]. exists o3. split; [done|lia].
Qed.
End Derivatives.

(** * Front ends *)

Section FrontEnds.
Context {F : Type} `{Num F} `{Elementary F} `{Trig F} {G : Type}.
Context (sgemm : Z -> Z -> Z -> list F -> list F -> list F) (uniform : G -> F * G).
Context (fft_r2c : list F -> list F) (plan_in : list F -> list F).

(** [cblas_sgemm] computes an [m] by [n] matrix; a real transform of [n] samples
    has [n / 2 + 1] complex values; planning keeps the size of the buffer. *)
Hypothesis sgemm_size : forall m n k A B,
  0 <= m -> 0 <= n -> zlen A = m * k -> zlen B = n * k -> zlen (sgemm m n k A B) = m * n.
Hypothesis fft_size : forall l, 0 < zlen l -> zlen (fft_r2c l) = 2 * (zlen l / 2 + 1).
Hypothesis plan_size : forall l, zlen (plan_in l) = zlen l.

Lemma cblasGemm_ok (A B : list F) m n k :
  0 < m -> 0 < n -> 0 < k -> n * k < 2 ^ 31 -> m * n < 2 ^ 31 -> zlen A = m * k -> zlen B = n * k ->
  exists C, cblasGemm sgemm A B n k = Ok C /\ zlen C = m * n.
Proof.
  intros Hm Hn Hk Hnk Hmn HA HB. assert (0 < n * k /\ 0 < m * n /\ m < 2 ^ 31) as (H3 & H4 & H5) by nia. unfold cblasGemm. destruct (Z.leb_spec n 0); [lia|]. destruct (Z.leb_spec k 0); [lia|].
  rewrite bool_decide_false by (intros ->; unfold zlen in HA; cbn in HA; nia).
  rewrite HA, HB, Z_mod_mult, Z.div_mul, !Z.eqb_refl by lia. cbn [orb negb].
  rewrite (int_value_fits (n * k)) by lia. cbn [mbind result_bind]. rewrite Z.eqb_refl, i32_id by lia. cbn [negb].
  rewrite int_value_fits by lia. cbn [mbind result_bind]. rewrite (proj2 (Z.ltb_ge _ _)) by lia. eexists. split; [done|]. apply sgemm_size; lia.
Qed.

(** ** Power spectrum *)

Lemma pow2_half n : 1 <= n -> Z.shiftl 1 n = 2 * 2 ^ (n - 1).
Proof. intros Hn. rewrite Z.shiftl_1_l. replace n with (Z.succ (n - 1)) at 1 by lia. apply Z.pow_succ_r. lia. Qed.

(** The transform is at least as long as a frame, and even; it is negative when
    the shift overflows. *)
Lemma nFft_spec (p : FeatureParams F) :
  1 < numFrameSizeSamples p -> 0 <= nFft p ->
  numFrameSizeSamples p <= nFft p /\ exists h, 1 <= h < 2 ^ 30 /\ nFft p = 2 * h /\ filterFreqResponseLen p = h + 1.
Proof.
  intros Hn. unfold filterFreqResponseLen, nFft. pose proof (i32_range (frameSizeRounded p)) as Hr.
  fold (numFrameSizeSamples p) in Hr. set (n := numFrameSizeSamples p) in *. destruct (Z.ltb_spec 0 n); [|lia].
  pose proof (Z.log2_up_pos n Hn) as Hlog. pose proof (Z.log2_up_spec n Hn) as [_ Hs].
  assert (Z.log2_up n <= 31) as Hl31 by (apply Z.log2_up_le_pow2; lia).
  destruct (decide (Z.log2_up n = 31)) as [E31|Hne]; [rewrite E31; change (i32 (Z.shiftl 1 31)) with (- 2 ^ 31); lia|]. intros _.
  assert (2 ^ Z.log2_up n <= 2 ^ 30) as H30 by (apply Z.pow_le_mono_r; lia).
  rewrite i32_id by (rewrite Z.shiftl_1_l; lia). split.
  - by rewrite Z.shiftl_1_l.
  - exists (2 ^ (Z.log2_up n - 1)). rewrite pow2_half by lia. split; [|split; [done|]].
    + pose proof (Z.pow_pos_nonneg 2 (Z.log2_up n - 1)). split; [lia|]. apply Z.pow_lt_mono_r; lia.
    + rewrite Z.shiftr_div_pow2 by lia. change (2 ^ 1) with 2. rewrite Z.mul_comm, Z.div_mul; lia.
Qed.

Record ps_ok (ps : PowerSpectrum F G) : Prop := {
  ok_size : 1 < numFrameSizeSamples (featParams_ ps);
  ok_stride : 0 < numFrameStrideSamples (featParams_ ps);
  ok_pe : pe_windowLength_ (preEmphasis_ ps) = numFrameSizeSamples (featParams_ ps);
  ok_wd : wd_windowLength_ (windowing_ ps) = numFrameSizeSamples (featParams_ ps);
  ok_coefs : zlen (wd_coefs_ (windowing_ ps)) = numFrameSizeSamples (featParams_ ps);
  ok_fft : 0 <= nFft (featParams_ ps);
  ok_buf : zlen (inFftBuf_ ps) = nFft (featParams_ ps);
}.

Lemma zlen_zrange_map (f : Z -> F) n : 0 <= n -> zlen (map f (zrange 0 n)) = n.
Proof. intros Hn. unfold zlen. rewrite length_map, length_zrange. lia. Qed.

Lemma mkPowerSpectrum_ok p g ps : mkPowerSpectrum plan_in p g = Ok ps -> ps_ok ps /\ featParams_ ps = p.
Proof.
  unfold mkPowerSpectrum, mkPreEmphasis, mkWindowing, validatePowSpecParams, throw_if. intros Hps.
  destruct (int_value (frameSizeRounded p)); [|done]. cbn [mbind result_bind] in Hps.
  destruct (Z.leb_spec (numFrameSizeSamples p) 1); [done|].
  destruct (n_lt _ _ || n_ge _ _); [done|]. cbn [mbind result_bind] in Hps. destruct (Z.ltb_spec (numFrameSizeSamples p) 0); [lia|].
  cbn [mbind result_bind] in Hps.
  destruct (samplingFreq p <=? 0), (frameSizeMs p <=? 0), (frameStrideMs p <=? 0); try done.
  destruct (Z.leb_spec (numFrameSizeSamples p) 0); [done|]. cbn [mbind result_bind] in Hps.
  destruct (int_value (frameStrideRounded p)); [|done]. destruct (Z.leb_spec (numFrameStrideSamples p) 0); [done|].
  destruct (Z.ltb_spec (nFft p) 0); [done|].
  injection Hps as <-. split; [|done]. split; cbn; try done; try lia.
  - rewrite zlen_zrange_map; lia.
  - by rewrite plan_size, zlen_replicate.
Qed.

Lemma zeroMean_ok nSamples (frames : list F) nFrames :
  0 < nSamples -> 0 <= nFrames -> zlen frames = nFrames * nSamples ->
  exists out, loop_up 0 nFrames (zeroMean nSamples) frames = Ok out /\ zlen out = zlen frames.
Proof.
  intros Hs Hn Hl. apply (loop_up_ok (fun _ l => zlen l = zlen frames)); [done|done|].
  intros i l Hi El. unfold zeroMean.
  destruct (vec_range_ok l (i * nSamples) (i * nSamples + nSamples)) as (fr & -> & Lf & _); [nia|nia|]. cbn [mbind result_bind].
  set (mean := n_div _ _).
  destruct (vec_copy_ok (map (fun x => n_sub x mean) fr) l (i * nSamples)) as (l' & -> & Ll & _); [nia|unfold zlen in *; rewrite length_map; nia|].
  exists l'. split; [done|lia].
Qed.

Lemma mirror_ok n h (out : list F) :
  1 <= h -> n = 2 * h -> zlen out = 2 * n -> exists out', mirror n (h + 1) out = Ok out' /\ zlen out' = zlen out.
Proof.
  intros Hh -> Hl. apply (loop_up_ok (fun _ l => zlen l = zlen out)); [lia|done|].
  intros i l Hi El.
  destruct (vec_get_is_Ok l (2 * (2 * h) - 2 * i)) as [x ->]; [lia|]. cbn [mbind result_bind].
  destruct (vec_set_ok l (2 * i) x) as (l1 & -> & L1 & _); [lia|]. cbn [mbind result_bind].
  destruct (vec_get_is_Ok l1 (2 * (2 * h) - 2 * i + 1)) as [y ->]; [lia|]. cbn [mbind result_bind].
  destruct (vec_set_ok l1 (2 * i + 1) (n_neg y)) as (l2 & -> & L2 & _); [lia|]. exists l2. split; [done|lia].
Qed.

Lemma spectrumFrame_ok nSamples n h (frames buf : list F) f :
  0 < nSamples <= n -> 1 <= h -> n = 2 * h -> 0 <= f -> f * nSamples + nSamples <= zlen frames -> zlen buf = n ->
  exists d buf', spectrumFrame fft_r2c nSamples n (h + 1) frames buf f = Ok (d, buf') /\ zlen d = h + 1 /\ zlen buf' = n.
Proof.
  intros Hs Hh -> Hf Hl Hb. unfold spectrumFrame.
  destruct (vec_range_ok frames (f * nSamples) (f * nSamples + nSamples)) as (fr & -> & Lf & _); [nia|lia|]. cbn [mbind result_bind].
  destruct (vec_copy_ok fr buf 0) as (buf' & -> & Lb & _); [lia|lia|]. cbn [mbind result_bind].
  assert (zlen (fft_r2c buf') = 2 * (h + 1)) as Lfft.
  { rewrite fft_size by lia. rewrite Lb, Hb. replace (2 * h) with (h * 2) by lia. rewrite Z.div_mul by lia. lia. }
  destruct (vec_copy_ok (fft_r2c buf') (replicate (Z.to_nat (2 * (2 * h))) n_zero) 0) as (out & -> & Lo & _); [lia|rewrite zlen_replicate; lia|].
  cbn [mbind result_bind]. rewrite zlen_replicate in Lo by lia.
  destruct (mirror_ok (2 * h) h out) as (out' & -> & Lo'); [lia|done|lia|]. cbn [mbind result_bind].
  edestruct (mapM_result_size (fun i => re ← vec_get out' (2 * i); im ← vec_get out' (2 * i + 1);
    Ok (n_sqrt (n_add (n_mul re re) (n_mul im im)))) (zrange 0 (h + 1))) as (d & -> & Ld & _).
  { intros i Hi%elem_of_zrange. destruct (vec_get_is_Ok out' (2 * i)) as [x ->]; [lia|].
    destruct (vec_get_is_Ok out' (2 * i + 1)) as [y ->]; [lia|]. cbn. eauto. }
  cbn. exists d, buf'. split; [done|]. split; [|lia]. unfold zlen. rewrite Ld, length_zrange. lia.
Qed.

Lemma powSpectrumImpl_ok (ps : PowerSpectrum F G) frames nFrames :
  ps_ok ps -> 0 <= nFrames -> nFrames * filterFreqResponseLen (featParams_ ps) < 2 ^ 31 ->
  zlen frames = nFrames * numFrameSizeSamples (featParams_ ps) ->
  exists dft frames' ps', powSpectrumImpl uniform fft_r2c ps frames = Ok (dft, frames', ps')
  /\ zlen dft = nFrames * filterFreqResponseLen (featParams_ ps) /\ zlen frames' = zlen frames
  /\ ps_ok ps' /\ featParams_ ps' = featParams_ ps.
Proof.
  intros [Hs Hst Hpe Hwd Hco Hfft Hbuf] Hn Hfit Hl. set (p := featParams_ ps) in *. set (W := numFrameSizeSamples p) in *.
  destruct (nFft_spec p Hs Hfft) as [HW (h & Hh & EN & EK)]. rewrite EK in Hfit. unfold powSpectrumImpl. fold p. fold W. cbv zeta.
  rewrite Hl, Z.div_mul, EK by lia. rewrite (i32_id nFrames), (i32_id (h + 1)), (u64_id nFrames) by nia.
  destruct (if n_differ (ditherVal p) n_zero then _ else _) as [f1 g1] eqn:E1.
  assert (zlen f1 = nFrames * W) as L1.
  { unfold zlen in *. destruct (n_differ (ditherVal p) n_zero); [|by simplify_eq].
    rewrite <- Hl. f_equal. rewrite <- (dither_size uniform (ditherVal p) (dither_ ps) frames). by rewrite E1. }
  assert (exists f2, (if zeroMeanFrame p then loop_up 0 nFrames (zeroMean W) f1 else Ok f1) = Ok f2 /\ zlen f2 = nFrames * W)
    as (f2 & -> & L2).
  { destruct (zeroMeanFrame p); [|eauto]. destruct (zeroMean_ok W f1 nFrames) as (f2 & -> & L2); [lia|done|done|]. exists f2. split; [done|lia]. }
  cbn [mbind result_bind].
  assert (exists f3, (if n_differ (preemCoef p) n_zero then pe_applyInPlace (preEmphasis_ ps) f2 else Ok f2) = Ok f3 /\ zlen f3 = nFrames * W)
    as (f3 & -> & L3).
  { destruct (n_differ (preemCoef p) n_zero); [|eauto].
    destruct (pe_applyInPlace_ok (preEmphasis_ ps) f2) as (f3 & -> & L3 & _); [lia|rewrite Hpe, L2; apply Z_mod_mult|].
    exists f3. split; [done|lia]. }
  cbn [mbind result_bind].
  assert (exists f4, wd_applyInPlace (windowing_ ps) f3 = Ok f4 /\ zlen f4 = nFrames * W) as (f4 & -> & L4).
  { unfold wd_applyInPlace. rewrite Hwd, L3, Z_mod_mult. cbn.
    destruct (scaleCyclic_ok (wd_coefs_ (windowing_ ps)) W f3 ltac:(lia) Hco 0 ltac:(lia)) as (f4 & -> & L4 & _). exists f4. split; [done|lia]. }
  cbn [mbind result_bind]. rewrite int_value_fits by nia. cbn [mbind result_bind]. unfold throw_if.
  rewrite (proj2 (Z.ltb_ge _ _)) by nia. cbn [mbind result_bind].
  match goal with |- context [loop_up 0 nFrames ?bd ?s0] =>
    destruct (loop_up_ok (fun k '(dft, buf) => zlen dft = k * (h + 1) /\ zlen buf = nFft p) 0 nFrames bd s0)
      as ([dft buf] & -> & Ld & Lb); [lia|done| |] end.
  - intros i [dft buf] Hi [Ld Lb].
    destruct (spectrumFrame_ok W (nFft p) h f4 buf i) as (d & buf' & -> & Ld' & Lb'); [lia|lia|done|lia|nia|done|].
    cbn. eexists. split; [done|]. cbv beta iota. rewrite zlen_app. split; [lia|done].
  - cbn. do 3 eexists. split; [done|]. split; [done|]. split; [done|]. split; [|done]. split; done.
Qed.

Lemma frames_empty {A} (l : list A) a b : zlen l = a * b -> 0 < b -> 0 <= a -> bool_decide (l = []) = (a =? 0).
Proof.
  intros Hl Hb Ha. destruct (Z.eqb_spec a 0) as [->|Hne].
  - apply bool_decide_eq_true. destruct l; [done|]. unfold zlen in Hl. cbn in Hl. lia.
  - apply bool_decide_eq_false. intros ->. unfold zlen in Hl. cbn in Hl. nia.
Qed.

Lemma powspec_apply_ok (ps : PowerSpectrum F G) input :
  ps_ok ps -> numFrames (featParams_ ps) (zlen input) * powSpecFeatSz (featParams_ ps) < 2 ^ 31 ->
  exists out ps', powspec_apply uniform fft_r2c ps input = Ok (out, ps')
  /\ zlen out = powspec_outputSize ps (zlen input) /\ ps_ok ps' /\ featParams_ ps' = featParams_ ps.
Proof.
  intros Hok Hfit. pose proof Hok as [Hs Hst _ _ _ Hfft _]. unfold powspec_apply, powspec_outputSize, powSpecFeatSz in *.
  set (p := featParams_ ps) in *. destruct (nFft_spec p Hs Hfft) as (_ & h & Hh & _ & EK).
  pose proof (numFrames_nonneg p (zlen input)) as Hn. rewrite i32_id by nia.
  destruct (frameSignal_ok p input) as (frames & -> & Lf & _); [lia|lia|nia|]. cbn [mbind result_bind]. rewrite (frames_empty _ _ _ Lf) by lia.
  destruct (Z.eqb_spec (numFrames p (zlen input)) 0) as [->|Hne].
  - exists [], ps. split_and!; try done. unfold zlen. cbn. lia.
  - destruct (powSpectrumImpl_ok ps frames (numFrames p (zlen input)) Hok Hn Hfit Lf) as (dft & fr & ps' & -> & Ld & _ & Hok' & Ep).
    cbn. exists dft, ps'. split; [done|]. split; [|done]. rewrite Ld. fold p. lia.
Qed.

(** ** Mel-frequency coefficients *)

Record mfsc_ok (m : Mfsc F G) : Prop := {
  ok_ps : ps_ok (mfsc_ps m);
  ok_chans : 0 < numFilterbankChans (featParams_ (mfsc_ps m)) < 2 ^ 31 - 2;
  ok_prod : numFilterbankChans (featParams_ (mfsc_ps m)) * filterFreqResponseLen (featParams_ (mfsc_ps m)) < 2 ^ 31;
  ok_filters : tf_numFilters_ (triFltBank_ m) = numFilterbankChans (featParams_ (mfsc_ps m));
  ok_len : tf_filterLen_ (triFltBank_ m) = filterFreqResponseLen (featParams_ (mfsc_ps m));
  ok_H : zlen (tf_H_ (triFltBank_ m))
         = numFilterbankChans (featParams_ (mfsc_ps m)) * filterFreqResponseLen (featParams_ (mfsc_ps m));
}.

Lemma zlen_flat_map (f : Z -> Z -> F) m n :
  0 <= m -> 0 <= n -> zlen (flat_map (fun i => map (f i) (zrange 0 n)) (zrange 0 m)) = m * n.
Proof.
  intros Hm Hn. unfold zlen. rewrite (length_flat_map_const _ _ (Z.to_nat n)).
  - rewrite length_zrange. lia.
  - intros x _. rewrite length_map, length_zrange. f_equal. lia.
Qed.

(** What a constructed filter bank holds. *)
Lemma mkTriFilterbank_ok n len sf lo hi s tf :
  0 < n -> 0 < len -> mkTriFilterbank n len sf lo hi s = Ok tf ->
  n < 2 ^ 31 - 2 /\ n * len < 2 ^ 31 /\ tf_numFilters_ tf = n /\ tf_filterLen_ tf = len /\ zlen (tf_H_ tf) = n * len.
Proof.
  intros Hn Hlen. unfold mkTriFilterbank, throw_if. destruct (int_value (len * n)) as [x|] eqn:E1; [|done].
  apply int_value_Ok in E1 as [-> B1]. cbn [mbind result_bind]. rewrite (proj2 (Z.ltb_ge (len * n) 0)) by nia. cbn [mbind result_bind].
  destruct (int_value (n + 2)) as [x|] eqn:E2; [|done]. apply int_value_Ok in E2 as [-> B2]. cbn [mbind result_bind].
  destruct (Z.ltb_spec (n + 2) 0); [done|]. cbn [mbind result_bind]. intros [= <-]. cbn [tf_numFilters_ tf_filterLen_ tf_H_].
  split_and!; [lia|lia|done|done|]. rewrite zlen_flat_map; lia.
Qed.

Lemma mkMfsc_ok p g m :
  mkMfsc plan_in p g = Ok m -> numFilterbankChans p < 2 ^ 31 -> mfsc_ok m /\ featParams_ (mfsc_ps m) = p.
Proof.
  unfold mkMfsc, validateMfscParams. intros Hm Hfit. destruct (mkPowerSpectrum plan_in p g) as [ps|] eqn:E; [|done].
  apply mkPowerSpectrum_ok in E as [Hok Ep]. cbn [mbind result_bind] in Hm.
  destruct (mkTriFilterbank _ _ _ _ _ _) as [tf|] eqn:Etf; [|done]. cbn [mbind result_bind] in Hm.
  destruct (validatePowSpecParams p); [|done]. cbn [mbind result_bind] in Hm.
  destruct (Z.leb_spec (numFilterbankChans p) 0); [done|]. destruct (n_ge _ _); [done|]. injection Hm as <-.
  destruct (nFft_spec (featParams_ ps) (ok_size _ Hok) (ok_fft _ Hok)) as [_ (h & ? & _ & EK)]. rewrite Ep in EK.
  rewrite (i32_id (numFilterbankChans p)), (i32_id (filterFreqResponseLen p)) in Etf by lia.
  apply mkTriFilterbank_ok in Etf as (B1 & B2 & B3 & B4 & B5); [|lia|lia].
  split; [|done]. split; cbn; rewrite ?Ep; done || lia.
Qed.

Lemma mfscImpl_ok (m : Mfsc F G) frames nFrames :
  mfsc_ok m -> 0 < nFrames ->
  nFrames * Z.max (filterFreqResponseLen (featParams_ (mfsc_ps m))) (numFilterbankChans (featParams_ (mfsc_ps m))) < 2 ^ 31 ->
  zlen frames = nFrames * numFrameSizeSamples (featParams_ (mfsc_ps m)) ->
  exists feat frames' m', mfscImpl sgemm uniform fft_r2c m frames = Ok (feat, frames', m')
  /\ zlen feat = nFrames * numFilterbankChans (featParams_ (mfsc_ps m)) /\ zlen frames' = zlen frames
  /\ mfsc_ok m' /\ featParams_ (mfsc_ps m') = featParams_ (mfsc_ps m).
Proof.
  intros [Hps Hch Hpr Hfl Hlen HH] Hn Hfit Hl. unfold mfscImpl.
  destruct (powSpectrumImpl_ok (mfsc_ps m) frames nFrames Hps ltac:(lia) ltac:(nia) Hl) as (dft & fr & ps' & -> & Ld & Lf & Hok' & Ep).
  cbn [mbind result_bind]. set (p := featParams_ (mfsc_ps m)) in *.
  set (pw := if usePower p then _ else dft). assert (zlen pw = nFrames * filterFreqResponseLen p) as Lp.
  { unfold pw. destruct (usePower p); [|done]. unfold zlen in *. by rewrite length_map. }
  unfold tf_apply. rewrite Hfl, Hlen.
  destruct (nFft_spec p (ok_size _ Hps) (ok_fft _ Hps)) as [_ (h & Hh & _ & EK)].
  destruct (cblasGemm_ok pw (tf_H_ (triFltBank_ m)) nFrames (numFilterbankChans p) (filterFreqResponseLen p)) as (C & -> & LC);
    [lia|lia|lia|done|nia|done|done|].
  cbn. do 3 eexists. split; [done|]. split_and!; try done.
  - unfold zlen in *. by rewrite !length_map.
  - split; cbn; rewrite ?Ep; done.
Qed.

Lemma energies_ok clamp nSamples nFrames (frames : list F) :
  0 < nSamples -> 0 <= nFrames -> zlen frames = nFrames * nSamples ->
  exists e, energies clamp nSamples nFrames frames = Ok e /\ zlen e = nFrames.
Proof.
  intros Hs Hn Hl. unfold energies.
  edestruct (mapM_result_size (fun f => frame ← vec_range frames (f * nSamples) (f * nSamples + nSamples);
    Ok (n_log (if clamp then std_max (innerProduct frame) n_lowest else innerProduct frame))) (zrange 0 nFrames)) as (e & He & Le & _).
  - intros f Hf%elem_of_zrange. destruct (vec_range_ok frames (f * nSamples) (f * nSamples + nSamples)) as (fr & -> & _); [nia|nia|].
    cbn. eauto.
  - exists e. split; [done|]. unfold zlen. rewrite Le, length_zrange. lia.
Qed.

Lemma prependEnergy_ok nFrames numFeat (energy feat : list F) :
  0 < numFeat -> 0 <= nFrames -> zlen energy = nFrames -> zlen feat = nFrames * numFeat ->
  exists out, prependEnergy nFrames numFeat energy feat = Ok out /\ zlen out = nFrames * (numFeat + 1).
Proof.
  intros Hf Hn He Hl. unfold prependEnergy. apply (loop_up_ok (fun _ l => zlen l = nFrames * (numFeat + 1))); [done| |].
  - rewrite zlen_replicate; lia.
  - intros f l Hi El. destruct (vec_get_is_Ok energy f) as [e ->]; [lia|]. cbn [mbind result_bind].
    assert (0 <= f * numFeat + f /\ f * numFeat + f + 1 + numFeat <= nFrames * (numFeat + 1)) as [Ha Hb] by nia.
    destruct (vec_set_ok l (f * numFeat + f) e) as (l1 & -> & L1 & _); [lia|]. cbn [mbind result_bind].
    destruct (vec_range_ok feat (f * numFeat) (f * numFeat + numFeat)) as (x & -> & Lx & _); [nia|nia|]. cbn [mbind result_bind].
    destruct (vec_copy_ok x l1 (f * numFeat + f + 1)) as (l2 & -> & L2 & _); [nia|lia|]. exists l2. split; [done|lia].
Qed.

(** The factor by which [Derivatives::apply] lengthens its input. *)
Definition derivativeFactor (p : FeatureParams F) : Z := if deltaWindow p <=? 0 then 1 else if 0 <? accWindow p then 3 else 2.

(** The derivative windows are [int]s whose sums of squares are. *)
Definition windows_fit (p : FeatureParams F) : Prop :=
  - 2 ^ 31 <= deltaWindow p <= maxWindow /\ - 2 ^ 31 <= accWindow p <= maxWindow.

Lemma windows_id p : windows_fit p -> i32 (deltaWindow p) = deltaWindow p /\ i32 (accWindow p) = accWindow p.
Proof. unfold windows_fit, maxWindow. intros [B1 B2]. by rewrite !i32_id by lia. Qed.

Lemma mfsc_apply_ok (m : Mfsc F G) input :
  mfsc_ok m ->
  let p := featParams_ (mfsc_ps m) in
  windows_fit p -> numFrames p (zlen input) * Z.max (filterFreqResponseLen p) (numFilterbankChans p) < 2 ^ 31 ->
  exists out m', mfsc_apply sgemm uniform fft_r2c m input = Ok (out, m')
  /\ zlen out = numFrames p (zlen input) * (numFilterbankChans p + (if useEnergy p then 1 else 0)) * derivativeFactor p
  /\ mfsc_ok m' /\ featParams_ (mfsc_ps m') = p.
Proof.
  intros Hok p Hwin Hfit. pose proof Hok as [Hps Hch _ _ _ _]. pose proof Hps as [Hs Hst _ _ _ _ _]. fold p in Hs, Hst, Hch.
  unfold mfsc_apply. fold p. destruct (windows_id p Hwin) as [-> ->]. destruct Hwin as [Hw1 Hw2].
  pose proof (numFrames_nonneg p (zlen input)) as Hn. assert (numFrames p (zlen input) < 2 ^ 31) as Hn31 by nia.
  destruct (frameSignal_ok p input) as (frames & -> & Lf & _); [lia|lia|lia|]. cbn [mbind result_bind]. rewrite (frames_empty _ _ _ Lf) by lia.
  destruct (Z.eqb_spec (numFrames p (zlen input)) 0) as [->|Hne]; [by exists [], m|].
  cbv zeta. rewrite Lf, Z.div_mul, (i32_id (numFrames p (zlen input))) by lia. set (n := numFrames p (zlen input)) in *.
  assert (exists e, (if useEnergy p && rawEnergy p then energies true (numFrameSizeSamples p) n frames
    else Ok (replicate (Z.to_nat n) n_zero)) = Ok e /\ zlen e = n) as (e & -> & Le).
  { destruct (useEnergy p && rawEnergy p); [apply energies_ok; lia|]. eexists. split; [done|]. apply zlen_replicate. lia. }
  cbn [mbind result_bind].
  destruct (mfscImpl_ok m frames n Hok ltac:(lia) Hfit Lf) as (feat & fr & m' & -> & Lft & Lfr & Hok' & Ep). fold p in Lft, Ep.
  cbn [mbind result_bind]. unfold derivativeFactor. destruct (useEnergy p).
  - assert (exists e', (if rawEnergy p then Ok e else energies true (numFrameSizeSamples p) n fr) = Ok e' /\ zlen e' = n) as (e' & -> & Le').
    { destruct (rawEnergy p); [eauto|apply energies_ok; lia]. }
    cbn [mbind result_bind]. destruct (prependEnergy_ok n (numFilterbankChans p) e' feat) as (ft & -> & Lft'); [lia|lia|done|done|].
    cbn [mbind result_bind]. rewrite (i32_id (numFilterbankChans p + 1)) by lia.
    destruct (derivatives_apply_ok ft (deltaWindow p) (accWindow p) (numFilterbankChans p + 1) n) as (out & -> & Lo); [lia..|].
    cbn. exists out, m'. split; [done|]. rewrite Lo, Lft'. done.
  - rewrite (i32_id (numFilterbankChans p)) by lia.
    destruct (derivatives_apply_ok feat (deltaWindow p) (accWindow p) (numFilterbankChans p) n) as (out & -> & Lo); [lia..|].
    cbn. exists out, m'. split; [done|]. rewrite Lo, Lft. split; [by rewrite Z.add_0_r|done].
Qed.

(** ** Cepstral coefficients *)

Record mfcc_ok (c : Mfcc F G) : Prop := {
  ok_mfsc : mfsc_ok (mfcc_mfsc c);
  ok_ceps : 0 < numCepstralCoeffs (featParams_ (mfsc_ps (mfcc_mfsc c))) < 2 ^ 31;
  ok_cprod : numFilterbankChans (featParams_ (mfsc_ps (mfcc_mfsc c))) * numCepstralCoeffs (featParams_ (mfsc_ps (mfcc_mfsc c))) < 2 ^ 31;
  ok_dctf : dct_numFilters_ (dct_ c) = numFilterbankChans (featParams_ (mfsc_ps (mfcc_mfsc c)));
  ok_dctc : dct_numCeps_ (dct_ c) = numCepstralCoeffs (featParams_ (mfsc_ps (mfcc_mfsc c)));
  ok_dctm : zlen (dctMat_ (dct_ c)) = numCepstralCoeffs (featParams_ (mfsc_ps (mfcc_mfsc c))) * numFilterbankChans (featParams_ (mfsc_ps (mfcc_mfsc c)));
  ok_lift : cl_numFilters_ (ceplifter_ c) = numCepstralCoeffs (featParams_ (mfsc_ps (mfcc_mfsc c)));
  ok_lcoefs : zlen (cl_coefs_ (ceplifter_ c)) = numCepstralCoeffs (featParams_ (mfsc_ps (mfcc_mfsc c)));
}.

Lemma mkMfcc_ok p g c :
  mkMfcc plan_in p g = Ok c -> numFilterbankChans p < 2 ^ 31 -> 0 < numCepstralCoeffs p < 2 ^ 31 ->
  mfcc_ok c /\ featParams_ (mfsc_ps (mfcc_mfsc c)) = p.
Proof.
  unfold mkMfcc, mkDct, mkCeplifter. intros Hc Hch Hn. destruct (mkMfsc plan_in p g) as [m|] eqn:E; [|done].
  apply mkMfsc_ok in E as [Hok Ep]; [|done]. cbn [mbind result_bind] in Hc. pose proof (ok_chans _ Hok) as Hch'. rewrite Ep in Hch'.
  rewrite (i32_id (numFilterbankChans p)), (i32_id (numCepstralCoeffs p)) in Hc by lia.
  destruct (int_value _) as [x|] eqn:Ex; [|done]. apply int_value_Ok in Ex as [-> Hprod]. cbn [mbind result_bind] in Hc.
  rewrite !(proj2 (Z.ltb_ge _ _)) in Hc by nia. cbn [mbind result_bind] in Hc.
  destruct (validateMfccParams p); [|done]. injection Hc as <-. split; [|done].
  split; cbn -[Z.mul]; rewrite ?Ep; try done; try lia; [rewrite zlen_flat_map; lia|rewrite zlen_zrange_map; lia].
Qed.

Lemma replaceC0_ok n nFeat (energy cep : list F) :
  0 <= n -> 0 < nFeat -> zlen energy = n -> zlen cep = n * nFeat ->
  exists out, loop_up 0 n (fun cep f => e ← vec_get energy f; vec_set cep (f * nFeat) e) cep = Ok out /\ zlen out = zlen cep.
Proof.
  intros Hn Hf He Hc. apply (loop_up_ok (fun _ l => zlen l = zlen cep)); [done|done|].
  intros f l Hi El. destruct (vec_get_is_Ok energy f) as [x ->]; [lia|]. cbn [mbind result_bind].
  destruct (vec_set_ok l (f * nFeat) x) as (l' & -> & L' & _); [nia|]. exists l'. split; [done|lia].
Qed.

Lemma mfcc_apply_ok (c : Mfcc F G) input :
  mfcc_ok c ->
  let p := featParams_ (mfsc_ps (mfcc_mfsc c)) in
  windows_fit p ->
  numFrames p (zlen input) * Z.max (Z.max (filterFreqResponseLen p) (numFilterbankChans p)) (numCepstralCoeffs p) < 2 ^ 31 ->
  exists out c', mfcc_apply sgemm uniform fft_r2c c input = Ok (out, c')
  /\ zlen out = numFrames p (zlen input) * numCepstralCoeffs p * derivativeFactor p
  /\ mfcc_ok c' /\ featParams_ (mfsc_ps (mfcc_mfsc c')) = p.
Proof.
  intros [Hm Hce Hcp Hdf Hdc Hdm Hcl Hco] p Hwin Hfit. pose proof Hm as [Hps Hch _ _ _ _]. pose proof Hps as [Hs Hst _ _ _ _ _].
  fold p in Hs, Hst, Hch, Hce, Hcp, Hdf, Hdc, Hdm, Hcl, Hco.
  unfold mfcc_apply. fold p. destruct (windows_id p Hwin) as [-> ->]. destruct Hwin as [Hw1 Hw2].
  pose proof (numFrames_nonneg p (zlen input)) as Hn.
  assert (numFrames p (zlen input) < 2 ^ 31 /\ numFrames p (zlen input) * numCepstralCoeffs p < 2 ^ 31
    /\ numFrames p (zlen input) * Z.max (filterFreqResponseLen p) (numFilterbankChans p) < 2 ^ 31) as (Hn31 & Hf1 & Hf2) by nia.
  destruct (frameSignal_ok p input) as (frames & -> & Lf & _); [lia|lia|lia|]. cbn [mbind result_bind]. rewrite (frames_empty _ _ _ Lf) by lia.
  destruct (Z.eqb_spec (numFrames p (zlen input)) 0) as [->|Hne]; [exists [], c; by split_and!|].
  cbv zeta. rewrite Lf, Z.div_mul, (i32_id (numFrames p (zlen input))) by lia. rewrite (i32_id (numCepstralCoeffs p)) by lia. set (n := numFrames p (zlen input)) in *.
  assert (exists e, (if useEnergy p && rawEnergy p then energies false (numFrameSizeSamples p) n frames
    else Ok (replicate (Z.to_nat n) n_zero)) = Ok e /\ zlen e = n) as (e & -> & Le).
  { destruct (useEnergy p && rawEnergy p); [apply energies_ok; lia|]. eexists. split; [done|]. apply zlen_replicate. lia. }
  cbn [mbind result_bind].
  destruct (mfscImpl_ok (mfcc_mfsc c) frames n Hm ltac:(lia) Hf2 Lf) as (feat & fr & m' & -> & Lft & Lfr & Hok' & Ep). fold p in Lft, Ep.
  cbn [mbind result_bind]. unfold dct_apply. rewrite Hdc, Hdf.
  destruct (cblasGemm_ok feat (dctMat_ (dct_ c)) n (numCepstralCoeffs p) (numFilterbankChans p))
    as (cep & -> & Lc); [lia|lia|lia|lia|done|done|done|].
  cbn [mbind result_bind]. unfold cl_applyInPlace. rewrite Hcl, Lc, Z_mod_mult. destruct (Z.eqb_spec (numCepstralCoeffs p) 0); [lia|].
  cbn [Z.eqb negb].
  destruct (scaleCyclic_ok (cl_coefs_ (ceplifter_ c)) (numCepstralCoeffs p) cep ltac:(lia) Hco 0 ltac:(lia)) as (cep' & -> & Lc' & _).
  cbn [mbind result_bind]. set (c' := {| mfcc_mfsc := m'; dct_ := _; ceplifter_ := _ |}).
  assert (mfcc_ok c') as Hc' by (split; cbn; rewrite ?Ep; done). unfold derivativeFactor.
  assert (exists cep2, zlen cep2 = n * numCepstralCoeffs p /\
    (if useEnergy p then
      energy ← (if rawEnergy p then Ok e else energies false (numFrameSizeSamples p) n fr);
      cep ← loop_up 0 n (fun cep f => e ← vec_get energy f; vec_set cep (f * numCepstralCoeffs p) e) cep';
      out ← derivatives_apply (deltaWindow p) (accWindow p) cep (numCepstralCoeffs p); Ok (out, c')
    else out ← derivatives_apply (deltaWindow p) (accWindow p) cep' (numCepstralCoeffs p); Ok (out, c'))
    = (out ← derivatives_apply (deltaWindow p) (accWindow p) cep2 (numCepstralCoeffs p); Ok (out, c'))) as (cep2 & L2 & ->).
  { destruct (useEnergy p); [|exists cep'; split; [lia|done]].
    assert (exists e', (if rawEnergy p then Ok e else energies false (numFrameSizeSamples p) n fr) = Ok e' /\ zlen e' = n) as (e' & -> & Le').
    { destruct (rawEnergy p); [eauto|apply energies_ok; lia]. }
    cbn [mbind result_bind].
    destruct (replaceC0_ok n (numCepstralCoeffs p) e' cep') as (cep2 & -> & L2); [lia..|]. exists cep2. split; [lia|done]. }
  destruct (derivatives_apply_ok cep2 (deltaWindow p) (accWindow p) (numCepstralCoeffs p) n) as (out & -> & Lo); [lia..|].
  cbn. exists out, c'. split; [done|]. rewrite Lo, L2. done.
Qed.

(** ** Batches *)

Lemma batchApply_ok {Obj} (Inv : Obj -> Prop) (size : Z) apply outputSize params order (o : Obj) (input : list F) b :
  (forall o, Inv o -> outputSize o (zlen input / b) = size) -> 0 <= size -> size * b < 2 ^ 31 ->
  (forall o inp, Inv o -> zlen inp = zlen input / b -> exists out o', apply o inp = Ok (out, o') /\ zlen out = size /\ Inv o') ->
  Inv o -> 0 < b -> zlen input mod b = 0 -> zlen input < 2 ^ 31 -> Permutation order (zrange 0 b) ->
  ditherRace (params o) (zlen input / b) b = false ->
  exists out o', batchApply apply outputSize params order o input b = Ok (out, o') /\ zlen out = size * b /\ Inv o'.
Proof.
  intros Hsz Hpos Hsb Ha Ho Hb Hd Hin Hord Hrace. unfold batchApply. destruct (Z.leb_spec b 0); [lia|]. rewrite Hd. cbn [Z.eqb negb].
  pose proof (Z.div_mod (zlen input) b ltac:(lia)) as Hdm. pose proof (zlen_nonneg input).
  assert (0 <= zlen input / b) by (apply Z.div_pos; lia). set (n := zlen input / b) in *. cbv zeta. unfold throw_if.
  rewrite (i32_id n) by nia. rewrite (Hsz o Ho), int_value_fits by nia. cbn [mbind result_bind].
  rewrite (proj2 (Z.ltb_ge _ _)), Hrace by nia. cbn [mbind result_bind].
  destruct (foldM_result_total (batchEntry apply n size input) (fun '(feat, o) => zlen feat = size * b /\ Inv o) order)
    with (s := (replicate (Z.to_nat (size * b)) n_zero, o)) as ([out o'] & -> & Lo & Ho'); [| |by exists out, o'].
  - intros [feat o1] i Hi [Lf Ho1]. rewrite Hord in Hi. apply elem_of_zrange in Hi. unfold batchEntry.
    rewrite int_value_fits by nia. cbn [mbind result_bind].
    destruct (vec_range_ok input (i * n) (i * n + n)) as (inp & -> & Li & _); [nia|nia|]. cbn [mbind result_bind].
    destruct (Ha o1 inp Ho1 ltac:(lia)) as (out & o2 & -> & Lo & Ho2). cbn [mbind result_bind].
    rewrite Lo, u64_id, Z.eqb_refl by nia. cbn [negb].
    destruct (vec_copy_ok out feat (i * size)) as (feat' & -> & Lf' & _); [nia|nia|]. cbn.
    eexists. split; [done|]. cbv beta iota. split; [lia|done].
  - split; [|done]. apply zlen_replicate. nia.
Qed.

(** A wrong size is reported. *)
Lemma batchApply_wrong_size {Obj} apply outputSize params order (o : Obj) (input : list F) b :
  0 < b -> zlen input mod b = 0 -> zlen input < 2 ^ 31 -> Permutation order (zrange 0 b) ->
  ditherRace (params o) (zlen input / b) b = false ->
  0 <= outputSize o (zlen input / b) -> outputSize o (zlen input / b) * b < 2 ^ 31 ->
  (forall inp, zlen inp = zlen input / b -> exists out o', apply o inp = Ok (out, o') /\ zlen out <> outputSize o (zlen inp)) ->
  batchApply apply outputSize params order o input b = Throw LogicError.
Proof.
  intros Hb Hd Hin Hord Hrace Hpos Hsb Ha. unfold batchApply. destruct (Z.leb_spec b 0); [lia|]. rewrite Hd. cbn [Z.eqb negb].
  pose proof (Z.div_mod (zlen input) b ltac:(lia)) as Hdm. pose proof (zlen_nonneg input).
  assert (0 <= zlen input / b) by (apply Z.div_pos; lia). set (n := zlen input / b) in *. cbv zeta. unfold throw_if.
  rewrite (i32_id n) by nia. set (size := outputSize o n) in *. rewrite int_value_fits by nia. cbn [mbind result_bind].
  rewrite (proj2 (Z.ltb_ge (size * b) 0)), Hrace by nia. cbn [mbind result_bind].
  destruct order as [|i order]; [apply Permutation_nil in Hord; rewrite zrange_cons in Hord by lia; done|].
  assert (0 <= i < b) as Hi by (apply elem_of_zrange; rewrite <- Hord; left).
  cbn [foldM_result]. unfold batchEntry. rewrite int_value_fits by nia. cbn [mbind result_bind].
  destruct (vec_range_ok input (i * n) (i * n + n)) as (inp & -> & Li & _); [nia|nia|]. cbn [mbind result_bind].
  assert (zlen inp = n) as Li' by lia. destruct (Ha inp Li') as (out & o2 & -> & Lo). cbn [mbind result_bind].
  rewrite Li' in Lo. fold size in Lo. rewrite u64_id by nia. destruct (Z.eqb_spec size (zlen out)); [congruence|]. done.
Qed.
End FrontEnds.
