(* ===== verification/AudioReal.v ===== *)
(** Speech features: the sizes the front ends announce, pre-emphasis and
    windowing in place, and, over exact reals, derivatives, frequency scales and
    filter weights. *)
From Stdlib Require Import Reals Lra.
From S2P Require Import Prelude Vectors Numeric Hungarian RealSum Audio AudioProofs.

Open Scope Z_scope.

(** * Exact reals *)

Definition x_real (f : R -> R) (x : xreal) : xreal := match x with Fin a => Fin (f a) | _ => NaN end.

#[export] Instance xreal_trig : Trig xreal := {
  n_pi := Fin PI; n_cos := x_real cos; n_sin := x_real sin;
  n_log10 x := x_div (x_log x) (Fin (ln 10));
  n_pow10 x := x_exp (x_mul x (Fin (ln 10)));
  n_neg := x_opp; n_lowest := Fin (- flt_max);
}.

(** The matrix product and the transform by their definitions. *)
Definition sgemm_ref {F} `{Num F} (m n k : Z) (A B : list F) : list F :=
  map (fun '(i, j) => fold_left (fun acc l => n_add acc (n_mul (cellOf A k i l) (cellOf B n l j))) (zrange 0 k) n_zero) (grid m n).

Definition dft_ref {F} `{Num F} `{Trig F} (l : list F) : list F :=
  let n := zlen l in
  flat_map (fun k => map (fun part => fold_left (fun acc t =>
    let angle := n_div (n_mul (n_mul (n_of 2) n_pi) (n_of (k * t))) (n_of n) in
    n_add acc (n_mul (cellOf l 1 t 0) (if part =? 0 then n_cos angle else n_neg (n_sin angle)))) (zrange 0 n) n_zero)
    (zrange 0 2)) (zrange 0 (n / 2 + 1)).

Lemma sgemm_ref_size {F} `{Num F} m n k (A B : list F) : 0 <= m -> 0 <= n -> zlen (sgemm_ref m n k A B) = m * n.
Proof. intros Hm Hn. unfold sgemm_ref, zlen. rewrite length_map, length_grid by done. lia. Qed.

Lemma dft_ref_size {F} `{Num F} `{Trig F} (l : list F) : 0 < zlen l -> zlen (dft_ref l) = 2 * (zlen l / 2 + 1).
Proof.
  intros Hl. unfold dft_ref. rewrite zlen_flat_map; [lia| |lia]. pose proof (Z.div_pos (zlen l) 2). lia.
Qed.

(** * Sizes *)

Lemma announced_factor {F} (p : FeatureParams F) : 0 < deltaWindow p \/ accWindow p <= 0 -> derivativeFactor p = devMultiplier p.
Proof.
  unfold derivativeFactor, devMultiplier. intros Ha.
  destruct (Z.leb_spec (deltaWindow p) 0), (Z.ltb_spec 0 (deltaWindow p)), (Z.ltb_spec 0 (accWindow p)); lia.
Qed.

Section Sizes.
Context {F : Type} `{Num F} `{Elementary F} `{Trig F} {G : Type}.
Context (sgemm : Z -> Z -> Z -> list F -> list F -> list F) (uniform : G -> F * G).
Context (fft_r2c : list F -> list F) (plan_in : list F -> list F).
Hypothesis sgemm_size : forall m n k A B,
  0 <= m -> 0 <= n -> zlen A = m * k -> zlen B = n * k -> zlen (sgemm m n k A B) = m * n.
Hypothesis fft_size : forall l, 0 < zlen l -> zlen (fft_r2c l) = 2 * (zlen l / 2 + 1).
Hypothesis plan_size : forall l, zlen (plan_in l) = zlen l.

(** What the [int]s of a batch can hold: the signal, and [width] cells for every
    frame of every entry. *)
Definition batch_fits (p : FeatureParams F) (width : Z) (input : list F) (b : Z) : Prop :=
  zlen input < 2 ^ 31 /\ numFrames p (zlen input / b) * width * b < 2 ^ 31.

Lemma batch_fits_entry p width input b x :
  batch_fits p width input b -> 0 < b -> 0 <= x <= width -> 
  numFrames p (zlen input / b) * x < 2 ^ 31 /\ 0 <= x * numFrames p (zlen input / b) /\ x * numFrames p (zlen input / b) * b < 2 ^ 31.
Proof.
  intros [_ Hf] Hb Hx. pose proof (numFrames_nonneg p (zlen input / b)) as Hn. set (n := numFrames p _) in *.
  assert (n * x <= n * width) by nia. assert (0 <= n * width <= n * width * b) by nia. split_and!; nia.
Qed.

Lemma powspec_batch p g ps order input b :
  mkPowerSpectrum plan_in p g = Ok ps -> 0 < b -> zlen input mod b = 0 -> Permutation order (zrange 0 b) ->
  ditherRace p (zlen input / b) b = false -> batch_fits p (powSpecFeatSz p) input b ->
  exists out ps', batchApply (powspec_apply uniform fft_r2c) powspec_outputSize featParams_ order ps input b = Ok (out, ps')
    /\ zlen out = powspec_outputSize ps (zlen input / b) * b.
Proof.
  intros [Hok Ep]%(mkPowerSpectrum_ok plan_in plan_size) Hb Hd Hord Hrace Hfit.
  destruct (nFft_spec (featParams_ ps) (ok_size _ Hok) (ok_fft _ Hok)) as [_ (h & Hh & _ & EK)]. rewrite Ep in EK.
  destruct (batch_fits_entry p _ input b (powSpecFeatSz p) Hfit Hb) as (F1 & F2 & F3); [unfold powSpecFeatSz; lia|].
  assert (powspec_outputSize ps (zlen input / b) = powSpecFeatSz p * numFrames p (zlen input / b)) as Es.
  { unfold powspec_outputSize. rewrite Ep. apply i32_id. nia. }
  destruct (batchApply_ok (fun o => ps_ok o /\ featParams_ o = p) (powSpecFeatSz p * numFrames p (zlen input / b))
    (powspec_apply uniform fft_r2c) powspec_outputSize featParams_ order ps input b) as (out & ps' & E & L & _);
    try done; [| |apply Hfit|by rewrite Ep|exists out, ps'; split; [done|by rewrite L, Es]].
  - intros o [_ Eo]. rewrite <- Es. unfold powspec_outputSize. by rewrite Eo, Ep.
  - intros o inp [Ho Eo] Hl. destruct (powspec_apply_ok uniform fft_r2c fft_size o inp Ho) as (out & o' & E & L & Ho' & Ep').
    { by rewrite Eo, Hl. }
    exists out, o'. rewrite E, L, Ep'. split; [done|]. split; [|done]. rewrite Hl, <- Es. unfold powspec_outputSize. by rewrite Eo, Ep.
Qed.

Lemma mfsc_width (p : FeatureParams F) : 0 < numFilterbankChans p -> 1 <= devMultiplier p /\ numFilterbankChans p <= mfscFeatSz p.
Proof.
  intros Hch. unfold mfscFeatSz, devMultiplier. destruct (useEnergy p), (0 <? deltaWindow p), (0 <? accWindow p); lia.
Qed.

Lemma mfsc_batch p g m order input b :
  mkMfsc plan_in p g = Ok m -> 0 < b -> zlen input mod b = 0 -> Permutation order (zrange 0 b) ->
  ditherRace p (zlen input / b) b = false -> 0 < deltaWindow p \/ accWindow p <= 0 ->
  windows_fit p -> numFilterbankChans p < 2 ^ 31 -> batch_fits p (Z.max (powSpecFeatSz p) (mfscFeatSz p)) input b ->
  exists out m', batchApply (mfsc_apply sgemm uniform fft_r2c) mfsc_outputSize (fun m => featParams_ (mfsc_ps m)) order m input b = Ok (out, m')
    /\ zlen out = mfsc_outputSize m (zlen input / b) * b.
Proof.
  intros Hm Hb Hd Hord Hrace Ha Hw Hc Hfit. destruct (mkMfsc_ok plan_in plan_size p g m Hm Hc) as [Hok Ep].
  pose proof (ok_chans _ Hok) as Hch. rewrite Ep in Hch. destruct (mfsc_width p) as [Hdm Hmw]; [lia|].
  destruct (batch_fits_entry p _ input b (mfscFeatSz p) Hfit Hb) as (F1 & F2 & F3); [lia|].
  assert (mfsc_outputSize m (zlen input / b) = mfscFeatSz p * numFrames p (zlen input / b)) as Es.
  { unfold mfsc_outputSize. rewrite Ep. apply i32_id. nia. }
  destruct (batchApply_ok (fun o => mfsc_ok o /\ featParams_ (mfsc_ps o) = p) (mfscFeatSz p * numFrames p (zlen input / b))
    (mfsc_apply sgemm uniform fft_r2c) mfsc_outputSize (fun m => featParams_ (mfsc_ps m)) order m input b) as (out & m' & E & L & _);
    try done; [| |apply Hfit|by rewrite Ep|exists out, m'; split; [done|by rewrite L, Es]].
  - intros o [_ Eo]. rewrite <- Es. unfold mfsc_outputSize. by rewrite Eo, Ep.
  - intros o inp [Ho Eo] Hl.
    destruct (mfsc_apply_ok sgemm uniform fft_r2c sgemm_size fft_size o inp Ho) as (out & o' & E & L & Ho' & Ep').
    { by rewrite Eo. }
    { rewrite Eo, Hl. destruct (batch_fits_entry p _ input b (Z.max (filterFreqResponseLen p) (numFilterbankChans p)) Hfit Hb) as (F4 & _);
        [unfold powSpecFeatSz; lia|done]. }
    exists out, o'. rewrite E, L, Ep', Eo, Hl. split; [done|]. split; [|done]. rewrite announced_factor by done. unfold mfscFeatSz. ring.
Qed.

Lemma mfcc_batch p g c order input b :
  mkMfcc plan_in p g = Ok c -> 0 < numCepstralCoeffs p < 2 ^ 31 -> 0 < b -> zlen input mod b = 0 -> Permutation order (zrange 0 b) ->
  ditherRace p (zlen input / b) b = false -> 0 < deltaWindow p \/ accWindow p <= 0 ->
  windows_fit p -> numFilterbankChans p < 2 ^ 31 ->
  batch_fits p (Z.max (Z.max (powSpecFeatSz p) (numFilterbankChans p)) (mfccFeatSz p)) input b ->
  exists out c', batchApply (mfcc_apply sgemm uniform fft_r2c) mfcc_outputSize (fun c => featParams_ (mfsc_ps (mfcc_mfsc c))) order c input b
      = Ok (out, c')
    /\ zlen out = mfcc_outputSize c (zlen input / b) * b.
Proof.
  intros Hc Hn Hb Hd Hord Hrace Ha Hw Hch Hfit. destruct (mkMfcc_ok plan_in plan_size p g c Hc Hch Hn) as [Hok Ep].
  assert (numCepstralCoeffs p <= mfccFeatSz p) as Hmw.
  { unfold mfccFeatSz, devMultiplier. destruct (0 <? deltaWindow p), (0 <? accWindow p); nia. }
  destruct (batch_fits_entry p _ input b (mfccFeatSz p) Hfit Hb) as (F1 & F2 & F3); [lia|].
  assert (mfcc_outputSize c (zlen input / b) = mfccFeatSz p * numFrames p (zlen input / b)) as Es.
  { unfold mfcc_outputSize. rewrite Ep. apply i32_id. nia. }
  destruct (batchApply_ok (fun o => mfcc_ok o /\ featParams_ (mfsc_ps (mfcc_mfsc o)) = p) (mfccFeatSz p * numFrames p (zlen input / b))
    (mfcc_apply sgemm uniform fft_r2c) mfcc_outputSize (fun c => featParams_ (mfsc_ps (mfcc_mfsc c))) order c input b)
    as (out & m' & E & L & _);
    try done; [| |apply Hfit|by rewrite Ep|exists out, m'; split; [done|by rewrite L, Es]].
  - intros o [_ Eo]. rewrite <- Es. unfold mfcc_outputSize. by rewrite Eo, Ep.
  - intros o inp [Ho Eo] Hl.
    destruct (mfcc_apply_ok sgemm uniform fft_r2c sgemm_size fft_size o inp Ho) as (out & o' & E & L & Ho' & Ep').
    { by rewrite Eo. }
    { rewrite Eo, Hl. pose proof (ok_chans _ (ok_mfsc _ Ho)) as Hpc. rewrite Eo in Hpc.
      destruct (batch_fits_entry p _ input b (Z.max (Z.max (filterFreqResponseLen p) (numFilterbankChans p)) (numCepstralCoeffs p)) Hfit Hb)
        as (F4 & _); [unfold powSpecFeatSz; lia|done]. }
    exists out, o'. rewrite E, L, Ep', Eo, Hl. split; [done|]. split; [|done]. rewrite announced_factor by done. unfold mfccFeatSz. ring.
Qed.

(** C5. The three feature front ends are total and return as many features as
    they announce: once construction has accepted the parameters, [batchApply]
    of a batch whose size divides the signal never throws, overflows an [int]
    or reads or writes outside a vector, in whatever order the threads compute
    the entries, and its result has [outputSize] features per entry, for a
    power spectrum, for [Mfsc] and for [Mfcc] with at least one cepstral
    coefficient. The derivative windows have to be consistent (no acceleration
    window without a delta window), at most 1023 and [int]s, as the numbers of
    channels and of coefficients; the signal and the widest matrix of the
    batch have fewer than [2 ^ 31] cells; and at most one entry dithers, since
    the entries share the random engine without a lock. *)
Theorem front_end_sizes (p : FeatureParams F) (g : G) (order : list Z) (input : list F) (b : Z) :
  0 < b -> zlen input mod b = 0 -> Permutation order (zrange 0 b) -> ditherRace p (zlen input / b) b = false ->
  0 < deltaWindow p \/ accWindow p <= 0 -> windows_fit p -> numFilterbankChans p < 2 ^ 31 ->
  (forall ps, mkPowerSpectrum plan_in p g = Ok ps -> batch_fits p (powSpecFeatSz p) input b ->
     exists out ps', batchApply (powspec_apply uniform fft_r2c) powspec_outputSize featParams_ order ps input b = Ok (out, ps')
       /\ zlen out = powspec_outputSize ps (zlen input / b) * b)
  /\ (forall m, mkMfsc plan_in p g = Ok m -> batch_fits p (Z.max (powSpecFeatSz p) (mfscFeatSz p)) input b ->
     exists out m', batchApply (mfsc_apply sgemm uniform fft_r2c) mfsc_outputSize (fun m => featParams_ (mfsc_ps m)) order m input b = Ok (out, m')
       /\ zlen out = mfsc_outputSize m (zlen input / b) * b)
  /\ (forall c, mkMfcc plan_in p g = Ok c -> 0 < numCepstralCoeffs p < 2 ^ 31 ->
     batch_fits p (Z.max (Z.max (powSpecFeatSz p) (numFilterbankChans p)) (mfccFeatSz p)) input b ->
     exists out c', batchApply (mfcc_apply sgemm uniform fft_r2c) mfcc_outputSize (fun c => featParams_ (mfsc_ps (mfcc_mfsc c))) order c input b
         = Ok (out, c')
       /\ zlen out = mfcc_outputSize c (zlen input / b) * b).
Proof.
  intros Hb Hd Hord Hrace Ha Hw Hch. split_and!.
  - intros ps Hps Hf. by eapply powspec_batch.
  - intros m Hm Hf. by eapply mfsc_batch.
  - intros c Hc Hn Hf. by eapply mfcc_batch.
Qed.

(** With an acceleration window but no delta window the announced size is
    wrong: [mfscFeatSz] counts the second derivatives, [Derivatives::apply]
    returns its input unchanged, and [batchApply] throws for every signal of
    at least one frame, although construction accepts the parameters. *)
Theorem acceleration_without_delta (p : FeatureParams F) (g : G) (m : Mfsc F G) (order : list Z) (input : list F) (b : Z) :
  mkMfsc plan_in p g = Ok m -> 0 < b -> zlen input mod b = 0 -> Permutation order (zrange 0 b) ->
  ditherRace p (zlen input / b) b = false -> windows_fit p -> numFilterbankChans p < 2 ^ 31 ->
  batch_fits p (Z.max (powSpecFeatSz p) (mfscFeatSz p)) input b ->
  deltaWindow p <= 0 -> 0 < accWindow p -> 0 < numFrames p (zlen input / b) ->
  batchApply (mfsc_apply sgemm uniform fft_r2c) mfsc_outputSize (fun m => featParams_ (mfsc_ps m)) order m input b = Throw LogicError.
Proof.
  intros Hm Hb Hd Hord Hrace Hw Hc Hfit Hdw Haw Hfr. destruct (mkMfsc_ok plan_in plan_size p g m Hm Hc) as [Hok Ep].
  pose proof (ok_chans _ Hok) as Hch. rewrite Ep in Hch. destruct (mfsc_width p) as [Hdm Hmw]; [lia|].
  destruct (batch_fits_entry p _ input b (mfscFeatSz p) Hfit Hb) as (F1 & F2 & F3); [lia|].
  assert (mfsc_outputSize m (zlen input / b) = mfscFeatSz p * numFrames p (zlen input / b)) as Es.
  { unfold mfsc_outputSize. rewrite Ep. apply i32_id. nia. }
  apply batchApply_wrong_size; rewrite ?Es, ?Ep; try done; [apply Hfit|].
  intros inp Hl. destruct (mfsc_apply_ok sgemm uniform fft_r2c sgemm_size fft_size m inp Hok) as (out & m' & E & L & _); rewrite ?Ep in *; [done| |].
  { rewrite Hl. destruct (batch_fits_entry p _ input b (Z.max (filterFreqResponseLen p) (numFilterbankChans p)) Hfit Hb) as (F4 & _);
      [unfold powSpecFeatSz; lia|done]. }
  exists out, m'. split; [done|]. rewrite L, Hl, Es. unfold mfscFeatSz, devMultiplier, derivativeFactor.
  destruct (Z.leb_spec (deltaWindow p) 0), (Z.ltb_spec 0 (deltaWindow p)), (Z.ltb_spec 0 (accWindow p)); try lia.
  destruct (useEnergy p); nia.
Qed.

(** Two entries that dither race on the random engine. *)
Theorem dither_races {Obj} apply outputSize (params : Obj -> FeatureParams F) order (o : Obj) (input : list F) (b : Z) :
  zlen input mod b = 0 -> zlen input < 2 ^ 31 -> 0 <= outputSize o (zlen input / b) -> outputSize o (zlen input / b) * b < 2 ^ 31 ->
  1 < b -> n_differ (ditherVal (params o)) n_zero = true -> 0 < numFrames (params o) (zlen input / b) ->
  batchApply apply outputSize params order o input b = Throw Undefined.
Proof.
  intros Hd Hin Hpos Hsb Hb Hdi Hfr. unfold batchApply. destruct (Z.leb_spec b 0); [lia|]. rewrite Hd. cbn [Z.eqb negb].
  pose proof (Z.div_mod (zlen input) b ltac:(lia)) as Hdm. pose proof (zlen_nonneg input).
  assert (0 <= zlen input / b) by (apply Z.div_pos; lia). cbv zeta. unfold throw_if.
  rewrite (i32_id (zlen input / b)), int_value_fits by nia. cbn [mbind result_bind].
  rewrite (proj2 (Z.ltb_ge (_ * b) 0)) by nia. cbn [mbind result_bind]. unfold ditherRace. rewrite Hdi.
  by rewrite !(proj2 (Z.ltb_lt _ _)) by done.
Qed.
End Sizes.

(** Frames of one millisecond at 8 kHz. *)
Definition demo (delta acc : Z) : FeatureParams xreal := {|
  samplingFreq := 8000; frameSizeMs := 1; frameStrideMs := 1; numFilterbankChans := 2; lowFreqFilterbank := 0;
  highFreqFilterbank := -1; numCepstralCoeffs := 2; lifterParam := 22; deltaWindow := delta; accWindow := acc;
  windowType := HAMMING; preemCoef := Fin 0; melFloor := Fin 1; ditherVal := Fin 0; usePower := true; useEnergy := true;
  rawEnergy := true; zeroMeanFrame := true |}.

Lemma demo_ints delta acc :
  numFrameSizeSamples (demo delta acc) = 8 /\ frameSizeRounded (demo delta acc) = 8 /\ frameStrideRounded (demo delta acc) = 8
  /\ numFrameStrideSamples (demo delta acc) = 8 /\ nFft (demo delta acc) = 8 /\ filterFreqResponseLen (demo delta acc) = 5.
Proof. vm_compute. split_and!; reflexivity. Qed.

Lemma demo_mfcc delta acc : exists c, mkMfcc (fun l => l) (demo delta acc) tt = Ok c.
Proof.
  destruct (demo_ints delta acc) as (E1 & E2 & E3 & E4 & E5 & E6).
  assert (Rltb 0 0 = false) as E7 by (apply Rlt_bool_false; lra). assert (Rltb 0 1 = true) as E8 by (apply Rlt_bool_true; lra).
  unfold mkMfcc, mkMfsc, mkPowerSpectrum, mkPreEmphasis, mkWindowing, validateMfccParams, validateMfscParams, validatePowSpecParams, n_ge,
    mkTriFilterbank, mkDct, mkCeplifter.
  rewrite E1, E2, E3, E4, E5, E6. cbn. rewrite E7, E8. cbn. eauto.
Qed.

Lemma demo_mfsc delta acc : exists m, mkMfsc (fun l => l) (demo delta acc) tt = Ok m.
Proof. destruct (demo_mfcc delta acc) as [c Hc]. unfold mkMfcc in Hc. destruct (mkMfsc _ _ _) as [m|]; [eauto|done]. Qed.

(** Nothing is dithered when [ditherVal] is zero. *)
Lemma demo_no_race delta acc n b : ditherRace (demo delta acc) n b = false.
Proof.
  unfold ditherRace, n_differ. cbn. assert (Rltb 0 0 = false) as -> by (apply Rlt_bool_false; lra). apply andb_false_r.
Qed.

Lemma front_end_sizes_witness :
  exists c, mkMfcc (fun l => l) (demo 1 1) tt = Ok c
  /\ exists out c', batchApply (mfcc_apply sgemm_ref (fun g => (Fin 0, g)) dft_ref) mfcc_outputSize
       (fun c => featParams_ (mfsc_ps (mfcc_mfsc c))) [1; 0] c (replicate 40 (Fin 1)) 2 = Ok (out, c')
     /\ zlen out = mfcc_outputSize c (zlen (replicate 40 (Fin 1)) / 2) * 2.
Proof.
  destruct (demo_mfcc 1 1) as [c Hc]. exists c. split; [exact Hc|].
  apply (front_end_sizes sgemm_ref (fun g : unit => (Fin 0, g)) dft_ref (fun l => l)
    (fun m n k A B Hm Hn _ _ => sgemm_ref_size m n k A B Hm Hn) dft_ref_size (fun l => eq_refl) (demo 1 1) tt); auto.
  - lia.
  - apply perm_swap.
  - apply demo_no_race.
  - left. cbn. lia.
  - unfold windows_fit, maxWindow. cbn. lia.
  - cbn. lia.
  - cbn. lia.
  - split; [reflexivity|]. vm_compute. reflexivity.
Defined.

Lemma acceleration_without_delta_witness :
  exists m, mkMfsc (fun l => l) (demo 0 1) tt = Ok m
  /\ batchApply (mfsc_apply sgemm_ref (fun g => (Fin 0, g)) dft_ref) mfsc_outputSize (fun m => featParams_ (mfsc_ps m)) [0] m (replicate 20 (Fin 1)) 1
     = Throw LogicError.
Proof.
  destruct (demo_mfsc 0 1) as [m Hm]. exists m. split; [exact Hm|].
  apply (acceleration_without_delta sgemm_ref (fun g : unit => (Fin 0, g)) dft_ref (fun l => l)
    (fun m n k A B Hm Hn _ _ => sgemm_ref_size m n k A B Hm Hn) dft_ref_size (fun l => eq_refl) (demo 0 1) tt m); auto.
  - lia.
  - unfold windows_fit, maxWindow. cbn. lia.
  - cbn. lia.
  - split; [reflexivity|]. vm_compute. reflexivity.
  - cbn. lia.
  - cbn. lia.
  - vm_compute. reflexivity.
Defined.

(** * In-place filters *)

(** Pre-emphasis in place computes the filter of the original signal: the
    loops run backwards over every frame, so each sample is reduced by the
    original sample before it, and the first of each frame is scaled; the
    signal is rejected unless its size is a multiple of the window. *)
Theorem preemphasis_in_place {F} `{Num F} (pe : PreEmphasis F) (input : list F) :
  1 < pe_windowLength_ pe ->
  (zlen input mod pe_windowLength_ pe = 0 ->
   exists out, pe_applyInPlace pe input = Ok out /\ zlen out = zlen input
     /\ forall i x, vec_get input i = Ok x ->
        vec_get out i = if i mod pe_windowLength_ pe =? 0 then Ok (n_mul x (n_sub n_one (pe_preemCoef_ pe)))
                        else y ← vec_get input (i - 1); Ok (n_sub x (n_mul (pe_preemCoef_ pe) y)))
  /\ (zlen input mod pe_windowLength_ pe <> 0 -> pe_applyInPlace pe input = Throw InvalidArgument).
Proof.
  intros HW. split.
  - intros Hd. destruct (pe_applyInPlace_ok pe input HW Hd) as (out & E & L & Hg). exists out. split; [done|]. split; [done|].
    intros i x Hx. rewrite Hg by (by eapply vec_get_lt). unfold emphasized. by rewrite Hx.
  - intros Hd. unfold pe_applyInPlace. by destruct (Z.eqb_spec (zlen input mod pe_windowLength_ pe) 0).
Qed.

Lemma preemphasis_in_place_witness :
  let pe := {| pe_preemCoef_ := Fin (1 / 2); pe_windowLength_ := 2 |} in
  let input := [Fin 1; Fin 2; Fin 3; Fin 4] in
  exists out, pe_applyInPlace pe input = Ok out /\ zlen out = 4.
Proof.
  intros pe input. destruct (proj1 (preemphasis_in_place pe input ltac:(cbn; lia)) eq_refl) as (out & E & L & _).
  exists out. split; [exact E|exact L].
Defined.

(** * Derivatives *)

Open Scope R_scope.

Lemma x_fold_sum (l : list Z) (f : Z -> R) a :
  fold_left (fun acc d => x_add acc (Fin (f d))) l (Fin a) = Fin (a + Rsum l f).
Proof.
  revert a. induction l as [|d l IH]; intros a; cbn [fold_left x_add].
  - rewrite Rsum_nil. f_equal. ring.
  - rewrite IH, Rsum_cons. f_equal. ring.
Qed.

Lemma sum_squares w : (0 <= w)%Z -> Rsum (zrange 1 (w + 1)) (fun d => IZR d * IZR d) = IZR (w * (w + 1) * (2 * w + 1)) / 6.
Proof.
  intros Hw. pattern w. apply natlike_ind; [| |exact Hw].
  - rewrite zrange_nil by lia. rewrite Rsum_nil. change (0 * (0 + 1) * (2 * 0 + 1))%Z with 0%Z. lra.
  - intros x Hx IH. replace (Z.succ x + 1)%Z with (x + 1 + 1)%Z by lia. rewrite zrange_snoc, Rsum_app, IH by lia.
    rewrite Rsum_cons, Rsum_nil. replace (Z.succ x) with (x + 1)%Z by lia. rewrite !mult_IZR, !plus_IZR, !mult_IZR, ?plus_IZR. field.
Qed.

(** [computeDerivative] is linear regression over the window: away from the
    ends of the signal, a feature that grows by [b] per frame has derivative [b]
    (in particular a constant has derivative 0). *)
Theorem derivative_slope (a b : R) (windowlen numfeat numframes : Z) (input : list xreal) :
  (0 < windowlen <= maxWindow)%Z -> (0 < numfeat < 2 ^ 31)%Z -> (0 <= numframes < 2 ^ 31)%Z -> zlen input = (numframes * numfeat)%Z ->
  forall j, (0 <= j < numfeat)%Z ->
  (forall i, (0 <= i < numframes)%Z -> vec_get input (i * numfeat + j) = Ok (Fin (a + b * IZR i))) ->
  exists out, computeDerivative input windowlen numfeat = Ok out /\ zlen out = zlen input
  /\ forall i, (windowlen <= i < numframes - windowlen)%Z -> vec_get out (i * numfeat + j) = Ok (Fin b).
Proof.
  intros Hw Hnf Hfr Hl j Hj Hx. destruct (computeDerivative_ok input windowlen numfeat numframes Hw Hnf Hfr Hl) as (out & E & L & Hg).
  exists out. split; [done|]. split; [done|]. intros i Hi. rewrite Hg by lia. f_equal. unfold regression.
  assert (forall i, (0 <= i < numframes)%Z -> cellOf input numfeat i j = Fin (a + b * IZR i)) as Hc.
  { intros k Hk. unfold cellOf. by rewrite Hx. }
  rewrite (fold_left_ext_in _ (fun acc d => x_add acc (Fin (2 * b * (IZR d * IZR d))))).
  - cbn [n_zero xreal_num]. rewrite x_fold_sum. 
    rewrite (Rsum_ext _ _ (fun d => (IZR d * IZR d) * (2 * b))) by (intros; ring). rewrite Rsum_scal, sum_squares by lia.
    cbn. unfold Reqb. destruct (Req_EM_T 3 0); [lra|]. set (W := IZR (windowlen * (windowlen + 1) * (2 * windowlen + 1))).
    assert (W > 0) by (apply IZR_lt; nia). destruct (Req_EM_T (W / 3) 0); [lra|]. f_equal. field. lra.
  - intros acc d Hd%elem_of_zrange. rewrite !Hc by lia. cbn. f_equal. f_equal.
    rewrite Z.min_r, Z.max_r, plus_IZR, minus_IZR by lia. ring.
Qed.

Lemma derivative_slope_witness :
  let input := map (fun i => Fin (1 + 2 * IZR i)) (zrange 0 5) in
  exists out, computeDerivative input 2 1 = Ok out /\ zlen out = 5%Z
  /\ forall i, (2 <= i < 3)%Z -> vec_get out (i * 1 + 0) = Ok (Fin 2).
Proof.
  intros input. apply (derivative_slope 1 2 2 1 5 input); [unfold maxWindow; lia|lia|lia|reflexivity|lia|].
  intros i Hi. assert (i = 0 \/ i = 1 \/ i = 2 \/ i = 3 \/ i = 4)%Z as [->|[->|[->|[->| ->]]]] by lia; reflexivity.
Defined.

(** * Frequency scales *)

Lemma x_div_fin a b : b <> 0 -> x_div (Fin a) (Fin b) = Fin (a / b).
Proof. intros Hb. cbn. unfold Reqb. by destruct (Req_EM_T b 0). Qed.

Lemma ln10_pos : 0 < ln 10.
Proof. rewrite <- ln_1. apply ln_increasing; lra. Qed.

(** The scale on reals. *)
Definition warp (s : FrequencyScale) (hz : R) : R :=
  match s with MEL => 2595 * (ln (1 + hz / 700) / ln 10) | LOG10 => ln hz / ln 10 | LINEAR => hz end.
Definition unwarp (s : FrequencyScale) (w : R) : R :=
  match s with MEL => 700 * (exp (w / 2595 * ln 10) - 1) | LOG10 => exp (w * ln 10) | LINEAR => w end.

(** The frequencies a scale is defined on. *)
Definition audible (s : FrequencyScale) (hz : R) : Prop := match s with MEL => -700 < hz | LOG10 => 0 < hz | LINEAR => True end.

Lemma hertzToWarped_fin s hz : audible s hz -> hertzToWarpedScale (Fin hz) s = Fin (warp s hz).
Proof.
  pose proof ln10_pos. destruct s; cbn [audible hertzToWarpedScale warp n_div n_add n_mul n_one n_of n_log10 xreal_num xreal_trig]; intros Hz.
  - rewrite x_div_fin by lra. cbn [x_add]. rewrite x_log_pos by lra. rewrite x_div_fin by lra. done.
  - done.
  - rewrite x_log_pos by done. by rewrite x_div_fin by lra.
Qed.

Lemma warpedToHertz_fin s w : warpedToHertzScale (Fin w) s = Fin (unwarp s w).
Proof.
  destruct s; cbn [warpedToHertzScale unwarp n_div n_sub n_mul n_one n_of n_pow10 xreal_num xreal_trig]; try done.
  rewrite x_div_fin by lra. done.
Qed.

Lemma unwarp_warp s hz : audible s hz -> unwarp s (warp s hz) = hz.
Proof.
  pose proof ln10_pos. destruct s; cbn; intros Hz.
  - replace (2595 * (ln (1 + hz / 700) / ln 10) / 2595 * ln 10) with (ln (1 + hz / 700)) by (field; lra).
    rewrite exp_ln by lra. field.
  - done.
  - replace (ln hz / ln 10 * ln 10) with (ln hz) by (field; lra). by apply exp_ln.
Qed.

(** Warping a frequency and back is the identity on every scale, wherever
    the scale is defined. *)
Theorem frequency_roundtrip (s : FrequencyScale) (hz : R) :
  audible s hz -> warpedToHertzScale (hertzToWarpedScale (Fin hz) s) s = Fin hz.
Proof. intros Hz. by rewrite hertzToWarped_fin, warpedToHertz_fin, unwarp_warp. Qed.

Lemma frequency_roundtrip_witness : audible MEL 440 /\ warpedToHertzScale (hertzToWarpedScale (Fin 440) MEL) MEL = Fin 440.
Proof. split; [cbn; lra|]. apply (frequency_roundtrip MEL 440). cbn. lra. Defined.

(** * Filter weights *)

Lemma triangle_weight (f : Z -> R) i j :
  f j < f (j + 1)%Z < f (j + 2)%Z ->
  exists w, triangle (fun j => Fin (f j)) i j = Fin w /\ 0 <= w <= 1
  /\ (IZR i <= f j \/ f (j + 2)%Z <= IZR i -> w = 0) /\ (IZR i = f (j + 1)%Z -> w = 1).
Proof.
  intros [H1 H2]. unfold triangle, std_max, std_min. cbn [n_div n_sub n_of n_lt n_zero xreal_num x_opp x_add].
  rewrite !x_div_fin by lra. cbn [x_lt]. set (hi := (_ + _) / (f (j + 1)%Z + _)). set (lo := (_ + _) / (f (j + 2)%Z + _)).
  assert (hi * (f (j + 1)%Z - f j) = IZR i - f j) as Eh by (unfold hi; field; lra).
  assert (lo * (f (j + 2)%Z - f (j + 1)%Z) = f (j + 2)%Z - IZR i) as El by (unfold lo; field; lra).
  clearbody hi lo. exists (Rmax (Rmin hi lo) 0).
  assert (forall a b, (if Rltb a b then Fin b else Fin a) = Fin (Rmax a b)) as Emax.
  { intros a b. destruct (Rltb a b) eqn:E; [apply Rlt_bool_true in E|apply Rlt_bool_false in E];
      [rewrite Rmax_right by lra|rewrite Rmax_left by lra]; done. }
  assert ((if Rltb lo hi then Fin lo else Fin hi) = Fin (Rmin hi lo)) as Emin.
  { destruct (Rltb lo hi) eqn:E; [apply Rlt_bool_true in E|apply Rlt_bool_false in E];
      [rewrite Rmin_right by lra|rewrite Rmin_left by lra]; done. }
  rewrite Emin. cbn [x_lt]. rewrite Emax. split; [done|].
  assert (Rmin hi lo <= 1) as Hle.
  { destruct (Rle_dec (IZR i) (f (j + 1)%Z)).
    - eapply Rle_trans; [apply Rmin_l|]. apply Rnot_lt_le. intros Hlt. nra.
    - eapply Rle_trans; [apply Rmin_r|]. apply Rnot_lt_le. intros Hlt. nra. }
  split_and!.
  - apply Rmax_r.
  - apply Rmax_lub; [done|lra].
  - intros Hout. apply Rmax_right. destruct Hout as [Ho|Ho].
    + eapply Rle_trans; [apply Rmin_l|]. apply Rnot_lt_le. intros Hlt. nra.
    + eapply Rle_trans; [apply Rmin_r|]. apply Rnot_lt_le. intros Hlt. nra.
  - intros Ei. rewrite Ei in *. assert (hi = 1) as -> by nra. assert (lo = 1) as -> by nra.
    rewrite Rmin_left by lra. rewrite Rmax_left by lra. done.
Qed.

Lemma unwarp_mel_increasing x y : x < y -> unwarp MEL x < unwarp MEL y.
Proof.
  intros Hxy. cbn. pose proof ln10_pos. assert (exp (x / 2595 * ln 10) < exp (y / 2595 * ln 10)); [|lra].
  apply exp_increasing. apply Rmult_lt_compat_r; lra.
Qed.

Lemma flat_map_grid {A} (f : Z -> Z -> A) m n :
  flat_map (fun i => map (f i) (zrange 0 n)) (zrange 0 m) = (fun '(i, j) => f i j) <$> grid m n.
Proof.
  unfold grid. induction (zrange 0 m) as [|i l IH]; [done|]. cbn [flat_map]. rewrite IH, fmap_app. f_equal.
  clear IH. induction (zrange 0 n) as [|j k IHk]; [done|]. cbn [map]. by rewrite IHk.
Qed.

(** The mel filter bank: for a band [0 <= lowfreq < highfreq] every
    weight of [H_] is a number between 0 and 1, and a filter vanishes outside
    the span from the centre before its own to the one after it. *)
Theorem filterbank_weights (numfilters filterlen samplingfreq lowfreq highfreq i j : Z) :
  (0 < numfilters)%Z -> (1 < filterlen)%Z -> (0 < samplingfreq)%Z -> (0 <= lowfreq < highfreq)%Z ->
  (0 <= i < filterlen)%Z -> (0 <= j < numfilters)%Z -> (filterlen * numfilters < 2 ^ 31)%Z ->
  let step := (warp MEL (IZR highfreq) - warp MEL (IZR lowfreq)) / IZR (numfilters + 1) in
  let bin := fun k => unwarp MEL (IZR k * step + warp MEL (IZR lowfreq)) * IZR (filterlen - 1) * 2 / IZR samplingfreq in
  exists tf w, mkTriFilterbank (F := xreal) numfilters filterlen samplingfreq lowfreq highfreq MEL = Ok tf
  /\ vec_get (tf_H_ tf) (i * numfilters + j) = Ok (Fin w) /\ 0 <= w <= 1
  /\ (IZR i <= bin j \/ bin (j + 2)%Z <= IZR i -> w = 0).
Proof.
  intros Hn Hl Hs Hf Hi Hj Hfit step bin.
  assert (0 <= IZR lowfreq) as Hlo by (apply IZR_le; lia). assert (IZR lowfreq < IZR highfreq) as Hhi by (apply IZR_lt; lia).
  assert (IZR (numfilters + 1) > 0) as Hn1 by (apply IZR_lt; lia). assert (IZR (filterlen - 1) > 0) as Hl1 by (apply IZR_lt; lia).
  assert (IZR samplingfreq > 0) as Hs1 by (apply IZR_lt; lia).
  assert (0 < step) as Hstep.
  { unfold step. apply Rdiv_lt_0_compat; [|done]. apply Rlt_Rminus. cbn. apply Rmult_lt_compat_l; [lra|].
    apply Rmult_lt_compat_r; [apply Rinv_0_lt_compat, ln10_pos|]. apply ln_increasing; lra. }
  assert (forall a b, (a < b)%Z -> bin a < bin b) as Hbin.
  { intros a b Hab. unfold bin. apply Rmult_lt_compat_r; [by apply Rinv_0_lt_compat|].
    apply Rmult_lt_compat_r; [lra|]. apply Rmult_lt_compat_r; [done|]. apply unwarp_mel_increasing.
    apply Rplus_lt_compat_r, Rmult_lt_compat_r; [done|]. by apply IZR_lt. }
  destruct (triangle_weight bin i j) as (w & Ew & Hw & H0 & _); [split; apply Hbin; lia|].
  unfold mkTriFilterbank, throw_if. rewrite (int_value_fits (filterlen * numfilters)), (int_value_fits (numfilters + 2)) by nia.
  cbn [mbind result_bind]. rewrite (proj2 (Z.ltb_ge (filterlen * numfilters) 0)), (proj2 (Z.ltb_ge (numfilters + 2) 0)) by nia.
  cbn [mbind result_bind]. eexists _, w. split; [reflexivity|]. split; [|done]. cbn [tf_H_]. destruct (Z.ltb_spec 0 highfreq); [|lia].
  change (@n_of xreal _ lowfreq) with (Fin (IZR lowfreq)). change (@n_of xreal _ highfreq) with (Fin (IZR highfreq)).
  rewrite !hertzToWarped_fin by (cbn; lra).
  assert (n_div (n_sub (Fin (warp MEL (IZR highfreq))) (Fin (warp MEL (IZR lowfreq)))) (n_of (numfilters + 1)) = Fin step) as ->.
  { cbn [n_div n_sub n_of xreal_num x_opp x_add]. rewrite x_div_fin by lra. done. }
  apply vec_get_Ok. split; [nia|].
  rewrite (flat_map_grid (triangle (centre numfilters filterlen samplingfreq (Fin (warp MEL (IZR lowfreq))) (Fin step) MEL))).
  rewrite list_lookup_fmap, grid_lookup by done. cbn [fmap option_fmap option_map]. f_equal. rewrite <- Ew.
  assert (forall k, centre numfilters filterlen samplingfreq (Fin (warp MEL (IZR lowfreq))) (Fin step) MEL k = Fin (bin k)) as Hc.
  { intros k. unfold centre. cbn [n_add n_mul n_of xreal_num x_mul x_add]. rewrite warpedToHertz_fin. cbn [n_div xreal_num x_mul].
    rewrite x_div_fin by lra. done. }
  unfold triangle. by rewrite !Hc.
Qed.

Lemma filterbank_weights_witness :
  exists tf w, mkTriFilterbank (F := xreal) 20 257 16000 0 8000 MEL = Ok tf
  /\ vec_get (tf_H_ tf) (3 * 20 + 5) = Ok (Fin w) /\ 0 <= w <= 1.
Proof.
  destruct (filterbank_weights 20 257 16000 0 8000 3 5) as (tf & w & Etf & E & Hw & _); [lia|lia|lia|lia|lia|lia|lia|].
  exists tf, w. split; [exact Etf|]. split; [exact E|exact Hw].
Defined.

(** A lifter parameter of 0, which [validateMfccParams] accepts, makes every
    coefficient a division by zero. *)
Lemma lifter_zero n :
  (0 <= n)%Z -> exists cl, mkCeplifter (F := xreal) n 0 = Ok cl /\ Forall (fun c => c = NaN) (cl_coefs_ cl).
Proof.
  intros Hn. unfold mkCeplifter. rewrite (proj2 (Z.ltb_ge n 0)) by done. eexists. split; [reflexivity|]. cbn [cl_coefs_]. apply Forall_forall. intros x (c & -> & _)%list_elem_of_fmap.
  cbn. unfold Reqb, x_inf. destruct (Req_EM_T 0 0); [|lra]. destruct (Req_EM_T 10 0); [lra|].
  destruct (Rltb 0 (PI * IZR c)), (Rltb (PI * IZR c) 0); done.
Qed.
