(* ===== verification/Blob.v ===== *)
(** Datasets stored in a blob ([fl/dataset/BlobDataset], [MemoryBlobDataset] and
    [FileBlobDataset]).

    A blob is a sequence of bytes: a magic number, the position of the index, the
    bytes of the arrays, and the index.  The virtual functions that access the
    blob are the class [BlobData]; the memory blob and the file blob are its
    instances.  An array is its type, its four dimensions and its bytes;
    [getSizeOf] is ArrayFire's size of an element type.  [int64_t] values are
    stored in little-endian order.  The index is kept in the members [sizes_],
    [offsets_] and [entries_]; [entries_] is a vector of six integers per array. *)
From S2P Require Import Prelude.

Open Scope Z_scope.

Abbreviation bytes := (list Z).

(** * Integers in memory *)

Fixpoint le_bytes (n : nat) (z : Z) : bytes :=
  match n with O => [] | S n => z mod 256 :: le_bytes n (z / 256) end.

Fixpoint le_value (l : bytes) : Z :=
  match l with [] => 0 | b :: l => b + 256 * le_value l end.

(** The eight bytes of an [int64_t], and back. *)
Definition i64_bytes (z : Z) : bytes := le_bytes 8 z.
Definition i64_value (l : bytes) : Z :=
  let u := le_value l in if u <? 2 ^ 63 then u else u - 2 ^ 64.

Definition i64s_bytes (l : list Z) : bytes := flat_map i64_bytes l.
Fixpoint i64s_value (n : nat) (l : bytes) : list Z :=
  match n with O => [] | S n => i64_value (take 8 l) :: i64s_value n (drop 8 l) end.

(** * The blob *)

(** [writeData] returns the number of bytes written; [readData] fills a buffer
    and returns the number of bytes read. *)
Class BlobData (S : Type) := {
  writeData : S -> Z -> bytes -> result (Z * S);
  readData : S -> Z -> bytes -> result (Z * bytes);
  isEmptyData : S -> bool;
}.

(** [memcpy(data + offset, src, n)] into a vector that holds the range. *)
Definition overwrite (dst : bytes) (offset : Z) (src : bytes) : bytes :=
  take (Z.to_nat offset) dst ++ src ++ drop (Z.to_nat offset + length src) dst.

Definition vec_resize (l : bytes) (n : Z) : bytes := take (Z.to_nat n) l ++ replicate (Z.to_nat n - length l) 0.

Definition mem_writeData (data_ : bytes) (offset : Z) (data : bytes) : result (Z * bytes) :=
  let size := zlen data in
  if offset <? 0 then Throw Undefined
  else
    let data_ := if zlen data_ <? offset + size then vec_resize data_ (offset + size) else data_ in
    Ok (size, overwrite data_ offset data).

Definition mem_readData (data_ : bytes) (offset : Z) (buffer : bytes) : result (Z * bytes) :=
  let maxSize := Z.max 0 (zlen data_ - offset) in
  let maxSize := Z.min maxSize (zlen buffer) in
  if offset <? 0 then Throw Undefined
  else Ok (maxSize, take (Z.to_nat maxSize) (drop (Z.to_nat offset) data_) ++ drop (Z.to_nat maxSize) buffer).

#[export] Instance memory_blob : BlobData bytes := {
  writeData := mem_writeData; readData := mem_readData; isEmptyData d := zlen d =? 0;
}.

(** A file opened for reading and writing, its stream throwing on every error:
    writing past the end leaves zeros between, reading past the end throws, and a
    transfer of no bytes does nothing. *)
Record file := File { contents : bytes }.

Definition file_writeData (f : file) (offset : Z) (data : bytes) : result (Z * file) :=
  if offset <? 0 then Throw RuntimeError
  else if bool_decide (data = []) then Ok (0, f)
  else
    let c := if zlen (contents f) <? offset + zlen data then vec_resize (contents f) (offset + zlen data) else contents f in
    Ok (zlen data, File (overwrite c offset data)).

Definition file_readData (f : file) (offset : Z) (buffer : bytes) : result (Z * bytes) :=
  if offset <? 0 then Throw RuntimeError
  else if bool_decide (buffer = []) then Ok (0, [])
  else if zlen (contents f) <? offset + zlen buffer then Throw RuntimeError
  else Ok (zlen buffer, take (length buffer) (drop (Z.to_nat offset) (contents f))).

#[export] Instance file_blob : BlobData file := {
  writeData := file_writeData; readData := file_readData; isEmptyData f := zlen (contents f) =? 0;
}.

(** * Entries *)

Record array := Array { a_type : Z; a_dims : list Z; a_data : bytes }.

(** [af::array()] *)
Definition emptyArray : array := Array 0 [0; 0; 0; 0] [].

Record BlobDatasetEntry := Entry { e_type : Z; e_dims : list Z; e_offset : Z }.

Definition elements (dims : list Z) : Z := fold_right Z.mul 1 dims.

Definition nFieldPerEntry_ : Z := 6.

Definition entries_size (data_ : list Z) : Z := zlen data_ / nFieldPerEntry_.

Definition entries_get (data_ : list Z) (idx : Z) : result BlobDatasetEntry :=
  type ← vec_get data_ (idx * nFieldPerEntry_);
  dims ← mapM_result (fun i => vec_get data_ (idx * nFieldPerEntry_ + i + 1)) (zrange 0 4);
  offset ← vec_get data_ (idx * nFieldPerEntry_ + 5);
  Ok (Entry type dims offset).

Definition entries_add (data_ : list Z) (e : BlobDatasetEntry) : list Z :=
  data_ ++ [e_type e] ++ e_dims e ++ [e_offset e].

(** * The dataset *)

(** [v.at(i)] *)
Definition vec_at {A} (l : list A) (i : Z) : result A :=
  if decide (0 <= i < zlen l) then vec_get l i else Throw OutOfRange.

Section BlobDataset.
Context {S : Type} `{BlobData S} (getSizeOf : Z -> Z).

Record BlobDataset := Blob {
  entries_ : list Z;
  sizes_ : list Z;
  offsets_ : list Z;
  indexOffset_ : Z;
  hostTransforms_ : gmap Z (bytes -> list Z -> Z -> array);
  blob : S;
}.
Implicit Types (d : BlobDataset).

Definition magicNumber : Z := 0x31626f6c423a6c66.

Definition size d : Z := zlen (offsets_ d).

Definition readRawArray d (e : BlobDatasetEntry) : result bytes :=
  if 0 <? elements (e_dims e) then
    '(_, buffer) ← readData (blob d) (e_offset e) (replicate (Z.to_nat (getSizeOf (e_type e) * elements (e_dims e))) 0);
    Ok buffer
  else Ok [].

Definition readArray d (e : BlobDatasetEntry) (i : Z) : result array :=
  if 0 <? elements (e_dims e) then
    buffer ← readRawArray d e;
    match hostTransforms_ d !! i with
    | None => Ok (Array (e_type e) (e_dims e) buffer)
    | Some f => Ok (f buffer (e_dims e) (e_type e))
    end
  else Ok emptyArray.

Definition get d (idx : Z) : result (list array) :=
  n ← vec_at (sizes_ d) idx;
  mapM_result (fun i => o ← vec_at (offsets_ d) idx; entry ← entries_get (entries_ d) (o + i); readArray d entry i) (zrange 0 n).

Definition rawGet d (idx : Z) : result (list bytes) :=
  n ← vec_at (sizes_ d) idx;
  mapM_result (fun i => o ← vec_at (offsets_ d) idx; entry ← entries_get (entries_ d) (o + i); readRawArray d entry) (zrange 0 n).

Definition getEntries d (idx : Z) : result (list BlobDatasetEntry) :=
  n ← vec_at (sizes_ d) idx;
  mapM_result (fun i => o ← vec_at (offsets_ d) idx; entries_get (entries_ d) (o + i)) (zrange 0 n).

(** [array.bytes()]; [array.host] copies the bytes out. *)
Definition array_bytes (a : array) : Z := getSizeOf (a_type a) * elements (a_dims a).

Definition writeArray d (e : BlobDatasetEntry) (a : array) : result BlobDataset :=
  '(_, b) ← writeData (blob d) (e_offset e) (a_data a);
  Ok (Blob (entries_ d) (sizes_ d) (offsets_ d) (indexOffset_ d) (hostTransforms_ d) b).

(** The part of [add] under the lock: the entries of a sample. *)
Definition addEntries d (sample : list array) : BlobDataset :=
  let '(entries, offset) := fold_left (fun '(entries, offset) a =>
    (entries_add entries (Entry (a_type a) (a_dims a) offset), offset + array_bytes a)) sample (entries_ d, indexOffset_ d) in
  Blob entries (sizes_ d ++ [zlen sample]) (offsets_ d ++ [entries_size (entries_ d)]) offset (hostTransforms_ d) (blob d).

Definition add d (sample : list array) : result BlobDataset :=
  let entryOffset := entries_size (entries_ d) in
  let d := addEntries d sample in
  foldM_result (fun d '(i, a) => e ← entries_get (entries_ d) (entryOffset + i); writeArray d e a) d
    (combine (zrange 0 (zlen sample)) sample).

Definition copyChunk (src : S) (n : Z) (s : Z * BlobDataset) : result (Z * BlobDataset) :=
  let '(blobOffset, d) := s in
  '(_, buffer) ← readData src blobOffset (replicate (Z.to_nat n) 0);
  '(_, b) ← writeData (blob d) (indexOffset_ d) buffer;
  Ok (blobOffset + n, Blob (entries_ d) (sizes_ d) (offsets_ d) (indexOffset_ d + n) (hostTransforms_ d) b).

Definition addBlob d (other : BlobDataset) (chunkSize : Z) : result BlobDataset :=
  if chunkSize <=? 0 then Throw RuntimeError
  else
    let offsets := map (fun o => o + entries_size (entries_ d)) (offsets_ other) in
    entries ← foldM_result (fun entries i =>
      e ← entries_get (entries_ other) i;
      Ok (entries_add entries (Entry (e_type e) (e_dims e) (e_offset e + (indexOffset_ d - 2 * 8)))))
      (entries_ d) (zrange 0 (entries_size (entries_ other)));
    let d := Blob entries (sizes_ d ++ sizes_ other) (offsets_ d ++ offsets) (indexOffset_ d) (hostTransforms_ d) (blob d) in
    let copySize := indexOffset_ other - 2 * 8 in
    let nChunk := Z.quot copySize chunkSize in
    let remainCopySize := copySize - nChunk * chunkSize in
    '(o, d) ← foldM_result (fun s _ => copyChunk (blob other) chunkSize s) (2 * 8, d) (zrange 0 nChunk);
    '(_, d) ← (if 0 <? remainCopySize then copyChunk (blob other) remainCopySize (o, d) else Ok (o, d));
    Ok d.

Definition writeIndex d : result BlobDataset :=
  '(n, b) ← writeData (blob d) 0 (i64_bytes magicNumber);
  '(_, b) ← writeData b n (i64_bytes (indexOffset_ d));
  let offset := indexOffset_ d in
  let entriesSize := entries_size (entries_ d) in
  '(n, b) ← writeData b offset (i64_bytes (size d));
  let offset := offset + n in
  '(n, b) ← writeData b offset (i64_bytes entriesSize);
  let offset := offset + n in
  '(n, b) ← writeData b offset (i64s_bytes (sizes_ d));
  let offset := offset + n in
  '(n, b) ← writeData b offset (i64s_bytes (offsets_ d));
  let offset := offset + n in
  '(_, b) ← writeData b offset (i64s_bytes (entries_ d));
  Ok (Blob (entries_ d) (sizes_ d) (offsets_ d) (indexOffset_ d) (hostTransforms_ d) b).

Definition i64s_resize (l : list Z) (n : Z) : list Z := take (Z.to_nat n) l ++ replicate (Z.to_nat n - length l) 0.

Definition readIndex d : result BlobDataset :=
  if isEmptyData (blob d) then
    Ok (Blob [] (sizes_ d) (offsets_ d) (2 * 8) (hostTransforms_ d) (blob d))
  else
    '(offset, m) ← readData (blob d) 0 (i64_bytes 0);
    if negb (magicNumber =? i64_value m) then Throw RuntimeError
    else
      '(_, io) ← readData (blob d) offset (i64_bytes (indexOffset_ d));
      let indexOffset := i64_value io in
      let offset := indexOffset in
      '(n, b) ← readData (blob d) offset (i64_bytes 0);
      let size := i64_value b in
      let offset := offset + n in
      '(n, b) ← readData (blob d) offset (i64_bytes 0);
      let entriesSize := i64_value b in
      let offset := offset + n in
      if (size <? 0) || (entriesSize <? 0) then Throw LogicError
      else
      '(n, sz) ← readData (blob d) offset (i64s_bytes (i64s_resize (sizes_ d) size));
      let offset := offset + n in
      '(n, off) ← readData (blob d) offset (i64s_bytes (i64s_resize (offsets_ d) size));
      let offset := offset + n in
      '(_, en) ← readData (blob d) offset (i64s_bytes (replicate (Z.to_nat (entriesSize * nFieldPerEntry_)) 0));
      Ok (Blob (i64s_value (Z.to_nat (entriesSize * nFieldPerEntry_)) en) (i64s_value (Z.to_nat size) sz)
            (i64s_value (Z.to_nat size) off) indexOffset (hostTransforms_ d) (blob d)).

(** A dataset opened on a blob; [indexOffset_] is not initialised before the
    index is read. *)
Definition open (uninit : Z) (b : S) : result BlobDataset := readIndex (Blob [] [] [] uninit ∅ b).
End BlobDataset.
Arguments BlobDataset S : clear implicits.
