(* ===== verification/BlobProofs.v ===== *)
(** Correctness of the datasets stored in a blob.

    [BlobLaws] states what the code relies on in the functions that access a blob,
    as a predicate [holds] for the bytes found at a position: what is written is
    held, what is written elsewhere stays held, and what is held is read.  The
    memory blob and the file blob satisfy these laws.  Over any such blob, [repr]
    relates a dataset to the list of its samples; adding a sample appends it,
    adding a blob appends its samples whatever the size of the chunks, getting a
    sample returns its arrays, and a dataset reopened from its blob after
    [writeIndex] is the same dataset. *)
From S2P Require Import Prelude Blob.

Open Scope Z_scope.

(** * Integers *)

Lemma length_le_bytes n z : length (le_bytes n z) = n.
Proof. revert z; induction n as [|n IH]; intros z; cbn; [done|by rewrite IH]. Qed.

Lemma le_value_bytes n z : le_value (le_bytes n z) = z mod 256 ^ Z.of_nat n.
Proof.
  revert z; induction n as [|n IH]; intros z; cbn [le_bytes le_value].
  { by rewrite Z.mod_1_r. }
  rewrite IH, Nat2Z.inj_succ, Z.pow_succ_r, Z.rem_mul_r by lia. done.
Qed.

Definition is_i64 (z : Z) : Prop := - 2 ^ 63 <= z < 2 ^ 63.

Lemma i64_roundtrip z : is_i64 z -> i64_value (i64_bytes z) = z.
Proof.
  unfold is_i64, i64_value, i64_bytes. intros Hz. rewrite le_value_bytes.
  change (256 ^ Z.of_nat 8) with (2 ^ 64).
  destruct (decide (0 <= z)).
  - rewrite Z.mod_small by lia. case_match eqn:E; lia.
  - rewrite <- (Z.mod_unique z (2 ^ 64) (-1) (z + 2 ^ 64)) by lia.
    case_match eqn:E; lia.
Qed.

Lemma length_i64 z : length (i64_bytes z) = 8%nat.
Proof. apply length_le_bytes. Qed.

Lemma length_i64s l : length (i64s_bytes l) = (8 * length l)%nat.
Proof. induction l as [|z l IH]; [done|]. cbn [i64s_bytes flat_map]. rewrite length_app, length_i64. fold (i64s_bytes l). cbn [length]. lia. Qed.

Lemma zlen_i64s l : zlen (i64s_bytes l) = 8 * zlen l.
Proof. unfold zlen. rewrite length_i64s. lia. Qed.

Lemma i64s_roundtrip l n : Forall is_i64 l -> n = length l -> i64s_value n (i64s_bytes l) = l.
Proof.
  intros Hl ->. induction Hl as [|z l Hz Hl IH]; [done|].
  cbn [length i64s_value i64s_bytes flat_map]. fold (i64s_bytes l).
  rewrite (take_app_length' (i64_bytes z)), (drop_app_length' (i64_bytes z)) by (by rewrite length_i64).
  by rewrite i64_roundtrip, IH.
Qed.

(** * What a blob promises *)

Class BlobLaws (B : Type) `{BlobData B} := {
  holds : B -> Z -> bytes -> Prop;
  holds_nil s o : 0 <= o -> holds s o [];
  holds_app s o b1 b2 : holds s o (b1 ++ b2) <-> holds s o b1 /\ holds s (o + zlen b1) b2;
  writeData_holds s o src : 0 <= o -> exists s',
    writeData s o src = Ok (zlen src, s') /\ holds s' o src /\
    forall o' b, holds s o' b -> o' + zlen b <= o \/ o + zlen src <= o' -> holds s' o' b;
  readData_holds s o b buffer : holds s o b -> zlen buffer = zlen b -> readData s o buffer = Ok (zlen b, b);
  holds_nonempty s o b : holds s o b -> b <> [] -> isEmptyData s = false;
}.

(** Both blobs are a vector of bytes. *)
Definition at_offset (c : bytes) (o : Z) (b : bytes) : Prop :=
  0 <= o /\ forall i x, b !! i = Some x -> c !! (Z.to_nat o + i)%nat = Some x.

Lemma at_offset_app c o b1 b2 : at_offset c o (b1 ++ b2) <-> at_offset c o b1 /\ at_offset c (o + zlen b1) b2.
Proof.
  unfold at_offset, zlen. split.
  - intros [? Hb]. split; split; try lia; intros i x Hi.
    + apply (Hb i). rewrite lookup_app_l; [done|by apply lookup_lt_Some in Hi].
    + replace (Z.to_nat (o + Z.of_nat (length b1)) + i)%nat with (Z.to_nat o + (length b1 + i))%nat by lia.
      apply (Hb (length b1 + i)%nat). rewrite lookup_app_r by lia. by replace (length b1 + i - length b1)%nat with i by lia.
  - intros [[? H1] [_ H2]]. split; [done|]. intros i x [Hi|[? Hi]]%lookup_app_Some.
    + by apply H1.
    + apply H2 in Hi. rewrite <- Hi. f_equal. lia.
Qed.

Lemma at_offset_take c o b : at_offset c o b -> take (length b) (drop (Z.to_nat o) c) = b.
Proof.
  intros [? Hb]. apply list_eq. intros i. destruct (decide (i < length b)%nat).
  - rewrite lookup_take_lt, lookup_drop by lia.
    destruct (lookup_lt_is_Some_2 b i) as [x Hx]; [lia|]. by rewrite Hx, (Hb _ _ Hx).
  - rewrite lookup_take_ge, (lookup_ge_None_2 b) by lia. done.
Qed.

Lemma at_offset_bound c o b : at_offset c o b -> b <> [] -> o + zlen b <= zlen c.
Proof.
  intros [? Hb] Hne. destruct (lookup_lt_is_Some_2 b (length b - 1)) as [x Hx].
  { destruct b; cbn; [done|lia]. }
  apply Hb, lookup_lt_Some in Hx. unfold zlen. destruct b; cbn in *; [done|lia].
Qed.

(** Enlarging the vector when it is too short, then copying. *)
Definition put (c : bytes) (o : Z) (src : bytes) : bytes :=
  overwrite (if zlen c <? o + zlen src then vec_resize c (o + zlen src) else c) o src.

Lemma vec_resize_lookup c n i x : zlen c <= n -> c !! i = Some x -> vec_resize c n !! i = Some x.
Proof.
  intros Hn Hi. unfold vec_resize, zlen in *. pose proof (lookup_lt_Some _ _ _ Hi).
  rewrite take_ge by lia. by rewrite lookup_app_l by lia.
Qed.

Lemma put_holds c o src : 0 <= o ->
  at_offset (put c o src) o src /\
  forall o' b, at_offset c o' b -> o' + zlen b <= o \/ o + zlen src <= o' -> at_offset (put c o src) o' b.
Proof.
  intros Ho. unfold put. set (c' := if zlen c <? _ then _ else c).
  assert (Hlen : o + zlen src <= zlen c').
  { unfold c'. case_match eqn:E; [|lia]. unfold vec_resize, zlen in *. rewrite length_app, length_take, length_replicate. lia. }
  assert (Hold : forall i x, c !! i = Some x -> c' !! i = Some x).
  { intros i x Hi. unfold c'. case_match eqn:E; [|done]. apply vec_resize_lookup; [lia|done]. }
  clearbody c'. unfold zlen in *. unfold overwrite. split; [split; [lia|]|].
  - intros i x Hi. pose proof (lookup_lt_Some _ _ _ Hi).
    rewrite lookup_app_r; rewrite length_take, Nat.min_l by lia; [|lia].
    rewrite lookup_app_l by lia. rewrite <- Hi. f_equal. lia.
  - intros o' b [Ho' Hb] Hd. split; [done|]. intros i x Hi. pose proof (lookup_lt_Some _ _ _ Hi).
    specialize (Hold _ _ (Hb _ _ Hi)). destruct Hd.
    + rewrite lookup_app_l by (rewrite length_take; apply lookup_lt_Some in Hold; lia). by rewrite lookup_take_lt by lia.
    + rewrite lookup_app_r; rewrite length_take, Nat.min_l by lia; [|lia].
      rewrite lookup_app_r by lia. rewrite lookup_drop. rewrite <- Hold. f_equal. lia.
Qed.

#[export] Program Instance memory_laws : BlobLaws bytes := {| holds := at_offset |}.
Next Obligation. intros s o Ho. split; [done|]. intros i x Hi. by rewrite lookup_nil in Hi. Qed.
Next Obligation. apply at_offset_app. Qed.
Next Obligation.
  intros s o src Ho. cbn. unfold mem_writeData. rewrite (proj2 (Z.ltb_ge o 0)) by done.
  eexists; split; [done|]. by apply put_holds.
Qed.
Next Obligation.
  intros s o b buffer Hb Hlen. cbn. unfold mem_readData. rewrite (proj2 (Z.ltb_ge o 0)) by apply Hb.
  assert (Z.min (Z.max 0 (zlen s - o)) (zlen buffer) = zlen b) as ->.
  { pose proof (zlen_nonneg b). destruct (decide (b = [])) as [->|Hne]; [rewrite Hlen; change (zlen []) with 0; lia|].
    pose proof (at_offset_bound _ _ _ Hb Hne). lia. }
  unfold zlen in *. rewrite Nat2Z.id, at_offset_take by done. rewrite drop_ge by lia. by rewrite app_nil_r.
Qed.
Next Obligation.
  intros s o b Hb Hne. cbn. pose proof (at_offset_bound _ _ _ Hb Hne). destruct Hb. unfold zlen in *.
  destruct b; cbn in *; [done|]. lia.
Qed.

#[export] Program Instance file_laws : BlobLaws file := {| holds s := at_offset (contents s) |}.
Next Obligation. intros s o Ho. split; [done|]. intros i x Hi. by rewrite lookup_nil in Hi. Qed.
Next Obligation. intros. apply at_offset_app. Qed.
Next Obligation.
  intros s o src Ho. cbn. unfold file_writeData. rewrite (proj2 (Z.ltb_ge o 0)) by done.
  case_bool_decide as E.
  - subst. eexists; split; [done|]. split; [split; [done|]|by intros]. intros i x Hi. by rewrite lookup_nil in Hi.
  - eexists; split; [done|]. by apply put_holds.
Qed.
Next Obligation.
  intros s o b buffer Hb Hlen. cbn. unfold file_readData. rewrite (proj2 (Z.ltb_ge o 0)) by apply Hb.
  case_bool_decide as E.
  { subst. destruct b; [done|]. unfold zlen in Hlen; cbn in Hlen; lia. }
  assert (b <> []) as Hne by (intros ->; destruct buffer; [done|unfold zlen in Hlen; cbn in Hlen; lia]).
  pose proof (at_offset_bound _ _ _ Hb Hne). rewrite (proj2 (Z.ltb_ge _ _)) by lia.
  rewrite Hlen. replace (length buffer) with (length b) by (unfold zlen in *; lia). by rewrite at_offset_take.
Qed.
Next Obligation.
  intros s o b Hb Hne. cbn. pose proof (at_offset_bound _ _ _ Hb Hne). destruct Hb. unfold zlen in *.
  destruct b; cbn in *; [done|]. lia.
Qed.

(** * Entries *)

Definition fields (e : BlobDatasetEntry) : list Z := e_type e :: e_dims e ++ [e_offset e].
Definition flat (es : list BlobDatasetEntry) : list Z := flat_map fields es.
Definition dim4 (e : BlobDatasetEntry) : Prop := length (e_dims e) = 4%nat.

Lemma flat_app es es' : flat (es ++ es') = flat es ++ flat es'.
Proof. apply flat_map_app. Qed.

Lemma entries_add_flat es e : entries_add (flat es) e = flat (es ++ [e]).
Proof. rewrite flat_app. unfold entries_add, flat. cbn. by rewrite app_nil_r. Qed.

Lemma length_fields e : dim4 e -> length (fields e) = 6%nat.
Proof. unfold dim4, fields. intros He. cbn. rewrite length_app, He. done. Qed.

Lemma length_flat es : Forall dim4 es -> length (flat es) = (6 * length es)%nat.
Proof.
  induction 1 as [|e es He Hes IH]; [done|]. cbn [flat flat_map]. fold (flat es).
  rewrite length_app, length_fields, IH by done. cbn [length]. lia.
Qed.

Lemma entries_size_flat es : Forall dim4 es -> entries_size (flat es) = zlen es.
Proof.
  intros Hes. unfold entries_size, zlen, nFieldPerEntry_. rewrite length_flat by done.
  replace (Z.of_nat (6 * length es)) with (Z.of_nat (length es) * 6) by lia. apply Z.div_mul. lia.
Qed.

Lemma flat_lookup es i e k :
  Forall dim4 es -> es !! i = Some e -> (k < 6)%nat -> flat es !! (i * 6 + k)%nat = fields e !! k.
Proof.
  intros Hes. revert i. induction Hes as [|e' es He' Hes IH]; intros i Hi Hk; [by rewrite lookup_nil in Hi|].
  cbn [flat flat_map]. fold (flat es). pose proof (length_fields _ He'). destruct i as [|i].
  - injection Hi as ->. change (0 * 6 + k)%nat with k. by rewrite lookup_app_l by lia.
  - rewrite lookup_app_r by lia. rewrite <- (IH i) by done. f_equal. lia.
Qed.

Lemma entries_get_flat es i e :
  Forall dim4 es -> 0 <= i -> es !! Z.to_nat i = Some e -> entries_get (flat es) i = Ok e.
Proof.
  intros Hes H0 Hi. assert (dim4 e) as He by (by eapply Forall_lookup_1).
  assert (Hk : forall k x, 0 <= k < 6 -> fields e !! Z.to_nat k = Some x -> vec_get (flat es) (i * 6 + k) = Ok x).
  { intros k x Hk Hx. apply vec_get_Ok. split; [lia|]. rewrite <- Hx, <- (flat_lookup es (Z.to_nat i)) by (done || lia).
    f_equal. lia. }
  destruct e as [ty dims o]. unfold dim4 in He; cbn in He.
  destruct dims as [|d1 [|d2 [|d3 [|d4 [|]]]]]; try done.
  unfold entries_get, nFieldPerEntry_. pose proof (Hk 0 ty) as H1. rewrite Z.add_0_r in H1. rewrite H1 by done.
  change (zrange 0 4) with [0; 1; 2; 3]. cbn [mapM_result]. rewrite <- !Z.add_assoc.
  rewrite (Hk (0 + 1) d1), (Hk (1 + 1) d2), (Hk (2 + 1) d3), (Hk (3 + 1) d4), (Hk 5 o) by done.
  done.
Qed.

(** * The dataset and its samples *)

Section Repr.
Context {B : Type} `{BlobLaws B} (getSizeOf : Z -> Z).
Abbreviation array_bytes := (array_bytes getSizeOf).
Implicit Types (d : BlobDataset B) (l : list array) (samples : list (list array)).

Definition wf_array (a : array) : Prop :=
  length (a_dims a) = 4%nat /\ zlen (a_data a) = array_bytes a.

Definition entry_at (o : Z) (a : array) : BlobDatasetEntry := Entry (a_type a) (a_dims a) o.

Fixpoint entriesFrom (o : Z) l : list BlobDatasetEntry :=
  match l with [] => [] | a :: l => entry_at o a :: entriesFrom (o + array_bytes a) l end.

Fixpoint starts (o : Z) samples : list Z :=
  match samples with [] => [] | s :: r => o :: starts (o + zlen s) r end.

Definition payload l : bytes := flat_map a_data l.

(** [repr d samples]: the dataset [d] holds [samples]. *)
Record repr d samples : Prop := {
  repr_wf : Forall wf_array (concat samples);
  repr_sizes : sizes_ d = map zlen samples;
  repr_offsets : offsets_ d = starts 0 samples;
  repr_entries : entries_ d = flat (entriesFrom 16 (concat samples));
  repr_index : indexOffset_ d = 16 + zlen (payload (concat samples));
  repr_data : holds (blob d) 16 (payload (concat samples));
}.

Lemma payload_app l l' : payload (l ++ l') = payload l ++ payload l'.
Proof. apply flat_map_app. Qed.

Lemma length_entriesFrom o l : length (entriesFrom o l) = length l.
Proof. revert o; induction l as [|a l IH]; intros o; cbn; [done|by rewrite IH]. Qed.

Lemma entriesFrom_dim4 o l : Forall wf_array l -> Forall dim4 (entriesFrom o l).
Proof. intros Hl. revert o. induction Hl as [|a l Ha Hl IH]; intros o; cbn; constructor; [apply Ha|done]. Qed.

Lemma entriesFrom_app o l l' :
  Forall wf_array l -> entriesFrom o (l ++ l') = entriesFrom o l ++ entriesFrom (o + zlen (payload l)) l'.
Proof.
  intros Hl. revert o. induction Hl as [|a l Ha Hl IH]; intros o; cbn [entriesFrom app].
  - f_equal. unfold zlen; cbn; lia.
  - rewrite IH. do 2 f_equal. cbn [payload flat_map]. fold (payload l). rewrite zlen_app, (proj2 Ha).
    f_equal. lia.
Qed.

Lemma entriesFrom_lookup o l l' a :
  Forall wf_array l -> entriesFrom o (l ++ a :: l') !! length l = Some (entry_at (o + zlen (payload l)) a).
Proof.
  intros Hl. rewrite entriesFrom_app by done. rewrite lookup_app_r by (by rewrite length_entriesFrom).
  by rewrite length_entriesFrom, Nat.sub_diag.
Qed.

Lemma starts_app o s1 s2 : starts o (s1 ++ s2) = starts o s1 ++ starts (o + zlen (concat s1)) s2.
Proof.
  revert o. induction s1 as [|s s1 IH]; intros o; cbn [starts app].
  - f_equal. unfold zlen; cbn; lia.
  - rewrite IH. cbn [concat]. rewrite zlen_app. do 3 f_equal. lia.
Qed.

Lemma starts_shift o k s : map (fun x => x + k) (starts o s) = starts (o + k) s.
Proof. revert o. induction s as [|x s IH]; intros o; cbn; [done|]. rewrite IH. do 2 f_equal. lia. Qed.

Lemma length_starts o s : length (starts o s) = length s.
Proof. revert o. induction s as [|x s IH]; intros o; cbn; [done|]. by rewrite IH. Qed.

(** ** Getting a sample *)

(** An array as [readArray] returns it: an array without elements comes back as
    the empty array, and a host transform of the field is applied. *)
Definition loaded (tr : gmap Z (bytes -> list Z -> Z -> array)) (i : Z) (a : array) : array :=
  if 0 <? elements (a_dims a) then
    match tr !! i with None => a | Some f => f (a_data a) (a_dims a) (a_type a) end
  else emptyArray.

(** The [i]-th array of a sample in the lists of all arrays. *)
Lemma repr_entry d s1 s s2 i a :
  repr d (s1 ++ s :: s2) -> s !! i = Some a ->
  wf_array a /\ exists o, entries_get (entries_ d) (zlen (concat s1) + Z.of_nat i) = Ok (entry_at o a) /\ holds (blob d) o (a_data a).
Proof.
  intros R Ha. destruct (list_elem_of_split_length _ _ _ Ha) as (p & q & -> & ->).
  assert (E : concat (s1 ++ (p ++ a :: q) :: s2) = (concat s1 ++ p) ++ a :: (q ++ concat s2)).
  { rewrite concat_app. cbn [concat]. by rewrite <- !app_assoc. }
  pose proof (repr_wf _ _ R) as W. rewrite E in W. pose proof W as W'. apply Forall_app in W' as [W1 W2%Forall_cons].
  split; [apply W2|]. exists (16 + zlen (payload (concat s1 ++ p))). split.
  - rewrite (repr_entries _ _ R), E. apply entries_get_flat; [by apply entriesFrom_dim4|unfold zlen; lia|].
    rewrite <- entriesFrom_lookup with (l' := q ++ concat s2) by done. f_equal. rewrite length_app. unfold zlen. lia.
  - pose proof (repr_data _ _ R) as D. rewrite E, payload_app in D. cbn [payload flat_map] in D.
    apply holds_app in D as [_ [D _]%holds_app]. done.
Qed.

Lemma readRawArray_ok d o a :
  wf_array a -> holds (blob d) o (a_data a) ->
  readRawArray getSizeOf d (entry_at o a) = Ok (if 0 <? elements (a_dims a) then a_data a else []).
Proof.
  intros [_ Hlen] Hh. unfold readRawArray, entry_at; cbn [e_type e_dims e_offset]. case_match; [|done].
  rewrite (readData_holds _ _ (a_data a)); [done..|]. unfold zlen at 1. rewrite length_replicate.
  fold (array_bytes a). pose proof (zlen_nonneg (a_data a)). lia.
Qed.

Lemma readArray_ok d o i a :
  wf_array a -> holds (blob d) o (a_data a) -> readArray getSizeOf d (entry_at o a) i = Ok (loaded (hostTransforms_ d) i a).
Proof.
  intros Ha Hh. unfold readArray. rewrite readRawArray_ok by done. unfold entry_at, loaded; cbn [e_type e_dims e_offset].
  case_match; [|done]. cbn. destruct a. by case_match.
Qed.

(** [sizes_.at] and [offsets_.at] at a sample. *)
Lemma repr_at d s1 s s2 :
  repr d (s1 ++ s :: s2) ->
  vec_at (sizes_ d) (zlen s1) = Ok (zlen s) /\ vec_at (offsets_ d) (zlen s1) = Ok (zlen (concat s1)).
Proof.
  intros R. unfold vec_at. rewrite (repr_sizes _ _ R), (repr_offsets _ _ R), starts_app. pose proof (zlen_nonneg s1).
  rewrite !decide_True.
  2:{ rewrite zlen_app. unfold zlen. rewrite !length_starts. cbn [length]. lia. }
  2:{ unfold zlen. rewrite length_map, length_app. cbn [length]. lia. }
  split; apply vec_get_Ok; (split; [done|]); unfold zlen; rewrite Nat2Z.id.
  - rewrite map_app. rewrite lookup_app_r; rewrite length_map; [|lia]. by rewrite Nat.sub_diag.
  - rewrite lookup_app_r; rewrite length_starts; [|lia]. by rewrite Nat.sub_diag.
Qed.

(** The loops over the entries of a sample. *)
Lemma sample_loop {A} d s1 s s2 (read : BlobDatasetEntry -> Z -> result A) (g : Z -> array -> A) :
  repr d (s1 ++ s :: s2) ->
  (forall o i a, wf_array a -> holds (blob d) o (a_data a) -> read (entry_at o a) i = Ok (g i a)) ->
  mapM_result (fun i => o ← vec_at (offsets_ d) (zlen s1); entry ← entries_get (entries_ d) (o + i); read entry i) (zrange 0 (zlen s)) =
  Ok (imap (fun i => g (Z.of_nat i)) s).
Proof.
  intros R Hread. apply mapM_result_Ok, Forall2_same_length_lookup_2.
  { rewrite length_zrange, length_imap. unfold zlen. lia. }
  intros i z x Hz Hx. rewrite list_lookup_imap in Hx. destruct (s !! i) as [a|] eqn:Ha; [|done].
  injection Hx as <-. pose proof (lookup_lt_Some _ _ _ Ha).
  rewrite zrange_lookup in Hz by (unfold zlen; lia). injection Hz as <-.
  rewrite (proj2 (repr_at _ _ _ _ R)). cbn [mbind result_bind]. rewrite !Z.add_0_l. destruct (repr_entry _ _ _ _ _ _ R Ha) as (W & o & -> & Hh).
  by apply Hread.
Qed.

Lemma get_ok d s1 s s2 :
  repr d (s1 ++ s :: s2) -> get getSizeOf d (zlen s1) = Ok (imap (fun i => loaded (hostTransforms_ d) (Z.of_nat i)) s).
Proof.
  intros R. unfold get. rewrite (proj1 (repr_at _ _ _ _ R)).
  apply (sample_loop d s1 s s2 (readArray getSizeOf d)); [done|]. intros. by apply readArray_ok.
Qed.

Lemma rawGet_ok d s1 s s2 :
  repr d (s1 ++ s :: s2) ->
  rawGet getSizeOf d (zlen s1) = Ok (imap (fun _ a => if 0 <? elements (a_dims a) then a_data a else []) s).
Proof.
  intros R. unfold rawGet. rewrite (proj1 (repr_at _ _ _ _ R)).
  apply (sample_loop d s1 s s2 (fun e _ => readRawArray getSizeOf d e) (fun _ a => if 0 <? elements (a_dims a) then a_data a else [])); [done|].
  intros. by apply readRawArray_ok.
Qed.

Lemma get_out_of_range d samples i :
  repr d samples -> ~ (0 <= i < zlen samples) -> get getSizeOf d i = Throw OutOfRange.
Proof.
  intros R Hi. unfold get, vec_at. rewrite (repr_sizes _ _ R), (decide_False (P := 0 <= i < zlen (map zlen samples))); [done|].
  unfold zlen in *. by rewrite length_map.
Qed.

(** ** Adding a sample *)

Definition with_blob d (b : B) : BlobDataset B :=
  Blob (entries_ d) (sizes_ d) (offsets_ d) (indexOffset_ d) (hostTransforms_ d) b.

Lemma addEntries_fold l es o :
  fold_left (fun '(entries, offset) a => (entries_add entries (Entry (a_type a) (a_dims a) offset), offset + array_bytes a)) l (flat es, o)
  = (flat (es ++ entriesFrom o l), fold_left (fun o a => o + array_bytes a) l o).
Proof.
  revert es o. induction l as [|a l IH]; intros es o; cbn [fold_left entriesFrom]; [by rewrite app_nil_r|].
  rewrite entries_add_flat, IH. by rewrite <- app_assoc.
Qed.

Lemma total_payload l o : Forall wf_array l -> fold_left (fun o a => o + array_bytes a) l o = o + zlen (payload l).
Proof.
  intros Hl. revert o. induction Hl as [|a l Ha Hl IH]; intros o; cbn [fold_left payload flat_map].
  - unfold zlen; cbn; lia.
  - fold (payload l). rewrite IH, zlen_app, (proj2 Ha). lia.
Qed.

Lemma write_append s o b src :
  holds s o b -> 0 <= o -> exists s', writeData s (o + zlen b) src = Ok (zlen src, s') /\ holds s' o (b ++ src).
Proof.
  intros Hb Ho. pose proof (zlen_nonneg b). destruct (writeData_holds s (o + zlen b) src) as (s' & Hw & Hnew & Hold); [lia|].
  exists s'. split; [done|]. apply holds_app. split; [|done]. apply Hold; [done|lia].
Qed.

(** The loop of [add] that writes the arrays, from the array number [length pre]. *)
Lemma writeLoop_ok es b0 pre post d :
  entries_ d = flat (es ++ entriesFrom (16 + zlen b0) (pre ++ post)) -> Forall dim4 es -> Forall wf_array (pre ++ post) ->
  holds (blob d) 16 (b0 ++ payload pre) ->
  exists b, foldM_result (fun d '(i, a) => e ← entries_get (entries_ d) (zlen es + i); writeArray d e a) d
    (combine (zrange (zlen pre) (zlen (pre ++ post))) post) = Ok (with_blob d b) /\ holds b 16 (b0 ++ payload (pre ++ post)).
Proof.
  revert pre d. induction post as [|a post IH]; intros pre d He Hes Hwf Hh.
  { exists (blob d). rewrite app_nil_r in *. split; [|done]. destruct d. by rewrite zrange_nil by lia. }
  rewrite zrange_cons by (rewrite zlen_app, zlen_cons; pose proof (zlen_nonneg post); lia).
  cbn [combine foldM_result]. pose proof (proj1 (proj1 (Forall_app _ _ _) Hwf)) as Hpre.
  rewrite He, (entries_get_flat _ _ (entry_at (16 + zlen b0 + zlen (payload pre)) a)).
  2:{ apply Forall_app; split; [done|]. by apply entriesFrom_dim4. }
  2:{ unfold zlen; lia. }
  2:{ rewrite lookup_app_r by (unfold zlen; lia). rewrite <- entriesFrom_lookup with (l' := post) by done. f_equal. unfold zlen; lia. }
  cbn [mbind result_bind]. unfold writeArray. cbn [e_offset entry_at].
  destruct (write_append (blob d) 16 (b0 ++ payload pre) (a_data a)) as (b & Hw & Hb); [done..|].
  rewrite zlen_app, Z.add_assoc in Hw. rewrite Hw.
  replace (zlen pre + 1) with (zlen (pre ++ [a])) by (rewrite zlen_app; done).
  replace (pre ++ a :: post) with ((pre ++ [a]) ++ post) in * by (by rewrite <- app_assoc).
  destruct (IH (pre ++ [a]) (with_blob d b)) as (b' & Hf & Hb'); [done..| |].
  { rewrite payload_app, app_assoc. cbn [payload flat_map]. by rewrite app_nil_r. }
  exists b'. split; [|done]. exact Hf.
Qed.

Lemma add_ok d samples s :
  repr d samples -> Forall wf_array s -> exists d', add getSizeOf d s = Ok d' /\ repr d' (samples ++ [s]) /\ hostTransforms_ d' = hostTransforms_ d.
Proof.
  intros R Hs. pose proof (repr_wf _ _ R) as W. unfold add, addEntries.
  rewrite (repr_entries _ _ R), addEntries_fold, total_payload by done.
  assert (He4 : Forall dim4 (entriesFrom 16 (concat samples))) by by apply entriesFrom_dim4.
  rewrite entries_size_flat by done.
  destruct (writeLoop_ok (entriesFrom 16 (concat samples)) (payload (concat samples)) [] s
    (Blob (flat (entriesFrom 16 (concat samples) ++ entriesFrom (indexOffset_ d) s)) (sizes_ d ++ [zlen s])
       (offsets_ d ++ [zlen (entriesFrom 16 (concat samples))]) (indexOffset_ d + zlen (payload s)) (hostTransforms_ d) (blob d)))
    as (b & Hf & Hb); [by rewrite (repr_index _ _ R)|done|done| |].
  { cbn [payload flat_map blob]. rewrite app_nil_r. apply (repr_data _ _ R). }
  eexists. split; [exact Hf|]. split; [|done].
  split; cbn [with_blob entries_ sizes_ offsets_ indexOffset_ blob]; rewrite ?concat_app; cbn [concat]; rewrite ?app_nil_r.
  - by apply Forall_app.
  - rewrite (repr_sizes _ _ R), map_app. done.
  - rewrite (repr_offsets _ _ R), starts_app. cbn. unfold zlen. by rewrite length_entriesFrom.
  - rewrite entriesFrom_app, (repr_index _ _ R) by done. done.
  - rewrite (repr_index _ _ R), payload_app, zlen_app. lia.
  - rewrite payload_app. apply Hb.
Qed.

(** ** Adding a blob *)

Lemma entriesFrom_shift o k l : entriesFrom (o + k) l = map (fun e => Entry (e_type e) (e_dims e) (e_offset e + k)) (entriesFrom o l).
Proof. revert o. induction l as [|a l IH]; intros o; cbn; [done|]. rewrite <- IH. unfold entry_at. do 2 f_equal. lia. Qed.

Lemma addEntries_loop es0 es k pre post :
  Forall dim4 es -> es = pre ++ post ->
  foldM_result (fun entries i => e ← entries_get (flat es) i; Ok (entries_add entries (Entry (e_type e) (e_dims e) (e_offset e + k))))
    (flat es0) (zrange (zlen pre) (zlen es)) = Ok (flat (es0 ++ map (fun e => Entry (e_type e) (e_dims e) (e_offset e + k)) post)).
Proof.
  intros Hes. revert es0 pre. induction post as [|e post IH]; intros es0 pre E.
  { subst. rewrite !app_nil_r, zrange_nil by lia. done. }
  rewrite zrange_cons by (subst; rewrite zlen_app, zlen_cons; pose proof (zlen_nonneg post); lia).
  cbn [foldM_result]. rewrite (entries_get_flat _ _ e); [|done|apply zlen_nonneg|].
  2:{ subst. unfold zlen. rewrite Nat2Z.id, lookup_app_r, Nat.sub_diag by lia. done. }
  cbn [mbind result_bind]. rewrite entries_add_flat. replace (zlen pre + 1) with (zlen (pre ++ [e])) by (rewrite zlen_app; done).
  rewrite IH by (by rewrite <- app_assoc). by rewrite <- app_assoc.
Qed.

Lemma copyChunk_ok src d b0 x c y n :
  holds src 16 (x ++ c ++ y) -> zlen c = n -> indexOffset_ d = 16 + zlen (b0 ++ x) -> holds (blob d) 16 (b0 ++ x) ->
  exists b, copyChunk src n (16 + zlen x, d) =
    Ok (16 + zlen (x ++ c), Blob (entries_ d) (sizes_ d) (offsets_ d) (16 + zlen (b0 ++ x ++ c)) (hostTransforms_ d) b) /\
    holds b 16 (b0 ++ x ++ c).
Proof.
  intros Hs Hc Hi Hh. apply holds_app in Hs as [_ [Hs _]%holds_app]. unfold copyChunk.
  rewrite (readData_holds _ _ c); [|done|unfold zlen in *; rewrite length_replicate; lia].
  destruct (write_append (blob d) 16 (b0 ++ x) c) as (b & Hw & Hb); [done..|]. cbn [mbind result_bind]. rewrite Hi, Hw.
  exists b. rewrite <- app_assoc in Hb. split; [|done]. rewrite !zlen_app, Hc. cbn [mbind result_bind]. do 2 f_equal; [lia|f_equal; lia].
Qed.

(** The whole copy: chunks of [n] bytes, then the rest. *)
Lemma copyChunks_ok src n : 0 < n -> forall k x y d b0,
  holds src 16 (x ++ y) -> Z.of_nat k * n <= zlen y -> indexOffset_ d = 16 + zlen (b0 ++ x) -> holds (blob d) 16 (b0 ++ x) ->
  exists c y' b, y = c ++ y' /\ zlen c = Z.of_nat k * n /\
    foldM_result (fun s _ => copyChunk src n s) (16 + zlen x, d) (replicate k tt) =
      Ok (16 + zlen (x ++ c), Blob (entries_ d) (sizes_ d) (offsets_ d) (16 + zlen (b0 ++ x ++ c)) (hostTransforms_ d) b) /\
    holds b 16 (b0 ++ x ++ c).
Proof.
  intros Hn. induction k as [|k IH]; intros x y d b0 Hs Hk Hi Hh; cbn [replicate foldM_result].
  { exists [], y, (blob d). rewrite !app_nil_r. repeat split; [|done]. rewrite <- Hi. by destruct d. }
  set (c := take (Z.to_nat n) y). assert (Hc : zlen c = n) by (unfold c, zlen in *; rewrite length_take; nia).
  assert (Ey : y = c ++ drop (Z.to_nat n) y) by (unfold c; by rewrite take_drop). rewrite Ey in Hs.
  destruct (copyChunk_ok src d b0 x c _ n Hs Hc Hi Hh) as (b1 & -> & Hb1).
  match goal with |- context [foldM_result _ (_, ?d1) _] =>
    destruct (IH (x ++ c) (drop (Z.to_nat n) y) d1 b0) as (c2 & y' & b2 & E2 & Hc2 & Hf & Hb2) end.
  - by rewrite <- app_assoc.
  - unfold zlen in *. rewrite length_drop. nia.
  - done.
  - done.
  - exists (c ++ c2), y', b2. split; [by rewrite <- app_assoc, <- E2|]. split; [rewrite zlen_app; lia|].
    rewrite <- app_assoc in Hf, Hb2. split; [exact Hf|exact Hb2].
Qed.

Lemma foldM_unit {A S'} (g : S' -> result S') (s : S') (l : list A) :
  foldM_result (fun s _ => g s) s l = foldM_result (fun s _ => g s) s (replicate (length l) tt).
Proof. revert s. induction l as [|x l IH]; intros s; cbn; [done|]. by destruct (g s). Qed.

Lemma repr_concat d d2 s1 s2 b :
  repr d s1 -> repr d2 s2 -> holds b 16 (payload (concat s1) ++ payload (concat s2)) ->
  repr (Blob (flat (entriesFrom 16 (concat s1) ++ entriesFrom (16 + zlen (payload (concat s1))) (concat s2)))
    (sizes_ d ++ sizes_ d2) (offsets_ d ++ map (fun o => o + zlen (entriesFrom 16 (concat s1))) (offsets_ d2))
    (16 + zlen (payload (concat s1) ++ payload (concat s2))) (hostTransforms_ d) b) (s1 ++ s2).
Proof.
  intros R1 R2 Hb. split; cbn [entries_ sizes_ offsets_ indexOffset_ blob]; rewrite ?concat_app, ?payload_app; try done.
  - apply Forall_app; split; [apply R1|apply R2].
  - by rewrite (repr_sizes _ _ R1), (repr_sizes _ _ R2), map_app.
  - rewrite (repr_offsets _ _ R1), (repr_offsets _ _ R2), starts_app, starts_shift. unfold zlen. by rewrite length_entriesFrom.
  - rewrite entriesFrom_app by apply R1. done.
Qed.

Lemma addBlob_ok d d2 s1 s2 n :
  repr d s1 -> repr d2 s2 -> 0 < n ->
  exists d', addBlob d d2 n = Ok d' /\ repr d' (s1 ++ s2) /\ hostTransforms_ d' = hostTransforms_ d.
Proof.
  intros R1 R2 Hn. unfold addBlob. rewrite (proj2 (Z.leb_gt n 0)) by done.
  pose proof (entriesFrom_dim4 16 _ (repr_wf _ _ R1)) as D1. pose proof (entriesFrom_dim4 16 _ (repr_wf _ _ R2)) as D2.
  rewrite (repr_entries _ _ R1), (repr_entries _ _ R2), !entries_size_flat by done.
  pose proof (fun es0 k => addEntries_loop es0 (entriesFrom 16 (concat s2)) k [] _ D2 eq_refl) as Hloop.
  change (zlen []) with 0 in Hloop. rewrite Hloop.
  rewrite <- entriesFrom_shift. cbn [mbind result_bind indexOffset_].
  set (p1 := payload (concat s1)). set (p2 := payload (concat s2)).
  rewrite (repr_index _ _ R2), (repr_index _ _ R1). fold p1 p2.
  replace (16 + zlen p2 - 2 * 8) with (zlen p2) by lia. replace (16 + (16 + zlen p1 - 2 * 8)) with (16 + zlen p1) by lia.
  pose proof (zlen_nonneg p2) as Hp2. rewrite Z.quot_div_nonneg by lia. set (k := zlen p2 / n).
  assert (Hk : 0 <= k) by (apply Z.div_pos; lia). assert (Hkn : k * n <= zlen p2) by (unfold k; pose proof (Z.mul_div_le (zlen p2) n); lia).
  assert (Hkr : zlen p2 - k * n < n) by (unfold k; pose proof (Z.mod_pos_bound (zlen p2) n); pose proof (Z.mod_eq (zlen p2) n); lia).
  match goal with |- context [foldM_result _ (_, ?d0) _] => set (d0' := d0) end.
  rewrite (foldM_unit (copyChunk (blob d2) n)), length_zrange, Z.sub_0_r.
  destruct (copyChunks_ok (blob d2) n Hn (Z.to_nat k) [] p2 d0' p1) as (c & y & b & Ey & Hc & Hf & Hb);
    [apply (repr_data _ _ R2)|lia|by rewrite app_nil_r|rewrite app_nil_r; apply (repr_data _ _ R1)|].
  change (2 * 8) with (16 + zlen (@nil Z)). rewrite Hf. cbn [mbind result_bind app] in *. clear Hf.
  assert (Hy : zlen p2 = zlen c + zlen y) by (by rewrite Ey, zlen_app).
  destruct (Z.ltb_spec 0 (zlen p2 - k * n)) as [Hr|Hr].
  - match goal with |- context [copyChunk _ _ (_, ?d1)] =>
      destruct (copyChunk_ok (blob d2) d1 p1 c y [] (zlen p2 - k * n)) as (b2 & Hcp & Hb2) end;
      [rewrite app_nil_r, <- Ey; apply (repr_data _ _ R2)|lia|done|done|].
    rewrite Hcp. cbn [mbind result_bind]. eexists. split; [reflexivity|]. split; [|done]. rewrite <- Ey in *. by apply (repr_concat d d2).
  - eexists. split; [reflexivity|]. split; [|done]. assert (y = []) as ->.
    { destruct y; [done|]. rewrite zlen_cons in Hy. pose proof (zlen_nonneg y). lia. }
    rewrite app_nil_r in Ey. subst c. by apply (repr_concat d d2).
Qed.

(** ** The index *)

(** The values of the index are [int64_t]. *)
Definition fits samples : Prop :=
  zlen samples < 2 ^ 63 /\ zlen (concat samples) < 2 ^ 63 /\ 16 + zlen (payload (concat samples)) < 2 ^ 63 /\
  Forall (fun a => is_i64 (a_type a) /\ Forall is_i64 (a_dims a)) (concat samples).

Definition index_bytes samples : bytes :=
  i64_bytes (zlen samples) ++ i64_bytes (zlen (concat samples)) ++ i64s_bytes (map zlen samples) ++
  i64s_bytes (starts 0 samples) ++ i64s_bytes (flat (entriesFrom 16 (concat samples))).

(** The contents of a blob whose index is written. *)
Definition blob_bytes samples : bytes :=
  i64_bytes magicNumber ++ i64_bytes (16 + zlen (payload (concat samples))) ++ payload (concat samples) ++ index_bytes samples.

Lemma zlen_i64 z : zlen (i64_bytes z) = 8.
Proof. unfold zlen. by rewrite length_i64. Qed.

Lemma write_append0 s b src o :
  holds s 0 b -> o = zlen b -> exists s', writeData s o src = Ok (zlen src, s') /\ holds s' 0 (b ++ src).
Proof. intros Hb ->. destruct (write_append s 0 b src) as (s' & Hw & Hs); [done..|]. rewrite Z.add_0_l in Hw. eauto. Qed.

(** The next write at the end of the bytes held from the start of the blob. *)
Ltac write_next K :=
  match goal with |- context [writeData ?s ?o ?src] =>
    let s' := fresh "b" in let K' := fresh "K" in
    destruct (write_append0 s _ src o K) as (s' & -> & K');
    [rewrite ?zlen_app, ?zlen_i64; lia|]; cbn [mbind result_bind]; clear K; rename K' into K
  end.

Lemma writeIndex_ok d samples :
  repr d samples -> exists b, writeIndex d = Ok (with_blob d b) /\ repr (with_blob d b) samples /\ holds b 0 (blob_bytes samples).
Proof.
  intros R. set (p := payload (concat samples)).
  pose proof (zlen_nonneg p). unfold writeIndex, size. rewrite (repr_index _ _ R), (repr_entries _ _ R), (repr_sizes _ _ R), (repr_offsets _ _ R). fold p.
  rewrite entries_size_flat by apply entriesFrom_dim4, R.
  replace (zlen (starts 0 samples)) with (zlen samples) by (unfold zlen; by rewrite length_starts).
  replace (zlen (entriesFrom 16 (concat samples))) with (zlen (concat samples)) by (unfold zlen; by rewrite length_entriesFrom).
  destruct (writeData_holds (blob d) 0 (i64_bytes magicNumber)) as (b1 & -> & K1 & F1); [done|]. cbn [mbind result_bind].
  rewrite zlen_i64 in *. destruct (write_append0 b1 _ (i64_bytes (16 + zlen p)) 8 K1) as (b2 & Hw2 & K2); [done|].
  destruct (writeData_holds b1 8 (i64_bytes (16 + zlen p))) as (b2' & Hw2' & _ & F2); [done|].
  rewrite Hw2 in Hw2'. injection Hw2' as <-. rewrite Hw2. cbn [mbind result_bind].
  assert (K3 : holds b2 0 ((i64_bytes magicNumber ++ i64_bytes (16 + zlen p)) ++ p)).
  { apply holds_app. split; [done|]. rewrite zlen_app, !zlen_i64 in *. apply F2; [|lia]. apply F1; [apply R|lia]. }
  clear F1 F2 K1 K2 Hw2 b1.
  do 5 write_next K3.
  eexists. rewrite <- !app_assoc in K3. split.
  { unfold with_blob. by rewrite (repr_index _ _ R), (repr_entries _ _ R), (repr_sizes _ _ R), (repr_offsets _ _ R). }
  split; [|exact K3]. destruct R. split; try done. cbn [blob with_blob]. fold p.
  apply holds_app in K3 as [_ [_ [K3 _]%holds_app]%holds_app]. by rewrite !zlen_i64 in K3.
Qed.

Lemma read_part s b1 b2 b3 o buffer :
  holds s 0 (b1 ++ b2 ++ b3) -> o = zlen b1 -> zlen buffer = zlen b2 -> readData s o buffer = Ok (zlen b2, b2).
Proof. intros [_ [Hb _]%holds_app]%holds_app -> Hlen. by apply readData_holds. Qed.

Lemma fits_sizes samples : fits samples -> Forall is_i64 (map zlen samples).
Proof.
  intros (_ & Hn & _). apply Forall_forall. intros z (s & <- & Hs%list_elem_of_In)%list_elem_of_In%in_map_iff.
  apply list_elem_of_split in Hs as (s1 & s2 & ->). rewrite concat_app in Hn. cbn [concat] in Hn.
  rewrite !zlen_app in Hn. unfold is_i64. pose proof (zlen_nonneg s). pose proof (zlen_nonneg (concat s1)). pose proof (zlen_nonneg (concat s2)). lia.
Qed.

Lemma starts_bound o k s : o + zlen (concat s) <= k -> Forall (fun x => o <= x <= k) (starts o s).
Proof.
  revert o. induction s as [|x s IH]; intros o Hk; cbn [starts]; constructor; cbn [concat] in Hk; rewrite zlen_app in Hk.
  - pose proof (zlen_nonneg x). pose proof (zlen_nonneg (concat s)). lia.
  - eapply Forall_impl; [apply IH; lia|]. cbn. pose proof (zlen_nonneg x). lia.
Qed.

Lemma fits_offsets samples : fits samples -> Forall is_i64 (starts 0 samples).
Proof. intros (_ & Hn & _). eapply Forall_impl; [apply (starts_bound 0 (zlen (concat samples))); lia|]. unfold is_i64. cbn. lia. Qed.

Lemma entries_i64 o l :
  0 <= o -> o + zlen (payload l) < 2 ^ 63 -> Forall wf_array l -> Forall (fun a => is_i64 (a_type a) /\ Forall is_i64 (a_dims a)) l ->
  Forall is_i64 (flat (entriesFrom o l)).
Proof.
  intros Ho Hk Hw Hl. revert o Ho Hk. induction Hl as [|a l [Ht Hd] Hl IH]; intros o Ho Hk; [constructor|].
  apply Forall_cons in Hw as [[_ Ha] Hw]. cbn [payload flat_map] in Hk. fold (payload l) in Hk. rewrite zlen_app in Hk.
  pose proof (zlen_nonneg (a_data a)). pose proof (zlen_nonneg (payload l)).
  cbn [entriesFrom flat flat_map]. apply Forall_app. split; [|apply IH; [done|lia..]].
  unfold fields, entry_at; cbn. constructor; [done|]. apply Forall_app. split; [done|]. constructor; [|constructor]. unfold is_i64. lia.
Qed.

Lemma zlen_resize n : 0 <= n -> zlen (i64s_resize [] n) = n.
Proof. intros Hn. unfold i64s_resize, zlen. rewrite take_nil. cbn [app length]. rewrite length_replicate. lia. Qed.

Lemma readIndex_ok u samples b :
  Forall wf_array (concat samples) -> fits samples -> holds b 0 (blob_bytes samples) ->
  exists d, open u b = Ok d /\ repr d samples /\ blob d = b /\ hostTransforms_ d = ∅.
Proof.
  intros W F Hb. set (p := payload (concat samples)). pose proof (zlen_nonneg p).
  unfold blob_bytes in Hb. fold p in Hb. set (io := 16 + zlen p) in *.
  assert (Hp : holds b 16 p).
  { apply holds_app in Hb as [_ [_ [Hp _]%holds_app]%holds_app]. by rewrite !zlen_i64 in Hp. }
  unfold open, readIndex. cbn [blob entries_ sizes_ offsets_ indexOffset_ hostTransforms_].
  rewrite (holds_nonempty _ _ _ Hb) by done.
  rewrite (read_part _ [] _ _ _ _ Hb) by done. cbn [mbind result_bind].
  rewrite i64_roundtrip by (unfold is_i64, magicNumber; lia). rewrite Z.eqb_refl; cbn [negb].
  rewrite zlen_i64. rewrite (read_part _ _ _ _ 8 _ Hb) by done. cbn [mbind result_bind].
  pose proof F as (Fn & Fc & Fp & Fa).
  rewrite (i64_roundtrip io) by (unfold is_i64; subst io p; lia).
  unfold index_bytes in Hb. set (en := flat (entriesFrom 16 (concat samples))) in *.
  rewrite !(app_assoc _ _ (i64_bytes (zlen samples) ++ _)) in Hb.
  pose proof (zlen_nonneg samples). pose proof (zlen_nonneg (concat samples)).
  rewrite (read_part _ _ _ _ io _ Hb) by (rewrite ?zlen_app, ?zlen_i64; done || (unfold io; lia)). cbn [mbind result_bind].
  rewrite i64_roundtrip by (unfold is_i64; lia). rewrite app_assoc in Hb.
  rewrite (read_part _ _ _ _ _ _ Hb) by (rewrite ?zlen_app, ?zlen_i64; done || (unfold io; lia)). cbn [mbind result_bind].
  rewrite i64_roundtrip by (unfold is_i64; lia). rewrite app_assoc in Hb.
  rewrite (proj2 (Z.ltb_ge _ 0)), (proj2 (Z.ltb_ge _ 0)) by done. cbn [orb].
  assert (Ln : zlen (starts 0 samples) = zlen samples) by (unfold zlen; by rewrite length_starts).
  assert (Lm : zlen (map zlen samples) = zlen samples) by (unfold zlen; by rewrite length_map).
  assert (Le : zlen en = zlen (concat samples) * 6).
  { unfold en, zlen. rewrite length_flat, length_entriesFrom by by apply entriesFrom_dim4. lia. }
  rewrite (read_part _ _ _ _ _ _ Hb) by (rewrite ?zlen_app, ?zlen_i64s, ?zlen_i64, ?zlen_resize; lia). cbn [mbind result_bind].
  rewrite app_assoc in Hb.
  rewrite (read_part _ _ _ _ _ _ Hb) by (rewrite ?zlen_app, ?zlen_i64s, ?zlen_i64, ?zlen_resize; lia). cbn [mbind result_bind].
  rewrite app_assoc, <- (app_nil_r (i64s_bytes en)) in Hb. unfold nFieldPerEntry_.
  rewrite (read_part _ _ _ _ _ _ Hb) by
    (rewrite ?zlen_app, ?zlen_i64s, ?zlen_i64; try (unfold zlen at 1; rewrite length_replicate); lia). cbn [mbind result_bind].
  rewrite !i64s_roundtrip; [|by apply fits_offsets|unfold zlen in *; lia|by apply fits_sizes|unfold zlen in *; lia
    |by apply entries_i64|unfold zlen in *; lia].
  eexists. split; [done|]. by split.
Qed.

(** ** Sessions *)

Lemma open_empty u b : isEmptyData b = true -> exists d, open u b = Ok d /\ repr d [] /\ hostTransforms_ d = ∅.
Proof.
  intros Hb. unfold open, readIndex. cbn [blob]. rewrite Hb. eexists. split; [done|]. split; [|done].
  split; cbn; try done. by apply holds_nil.
Qed.

Lemma adds_ok d samples ss :
  repr d samples -> Forall (Forall wf_array) ss ->
  exists d', foldM_result (add getSizeOf) d ss = Ok d' /\ repr d' (samples ++ ss) /\ hostTransforms_ d' = hostTransforms_ d.
Proof.
  intros R Hss. revert d samples R. induction Hss as [|s ss Hs Hss IH]; intros d samples R; cbn [foldM_result].
  { exists d. by rewrite app_nil_r. }
  destruct (add_ok d samples s R Hs) as (d1 & -> & R1 & T1).
  destruct (IH d1 _ R1) as (d2 & Hd2 & R2 & T2). exists d2. rewrite <- app_assoc in R2. by rewrite T2.
Qed.

Lemma repr_get d samples i s :
  repr d samples -> samples !! i = Some s ->
  get getSizeOf d (Z.of_nat i) = Ok (imap (fun k => loaded (hostTransforms_ d) (Z.of_nat k)) s).
Proof. intros R Hs. destruct (list_elem_of_split_length _ _ _ Hs) as (s1 & s2 & -> & ->). by apply (get_ok _ _ _ s2). Qed.

Lemma repr_size d samples : repr d samples -> size d = zlen samples.
Proof. intros R. unfold size. rewrite (repr_offsets _ _ R). unfold zlen. by rewrite length_starts. Qed.

(** C6. Storing samples in a blob loses nothing: starting from an empty blob
    (of any kind whose accesses satisfy [BlobLaws]), adding samples, writing
    the index and opening the blob again succeed, and the reopened dataset has
    the samples in order: their number, the arrays of each (type, dimensions
    and bytes; an array without elements comes back as the empty array), an
    exception at any other index. *)
Theorem blob_reopen u u' b ss :
  isEmptyData b = true -> Forall (Forall wf_array) ss -> fits ss ->
  exists d0 d1 d2 d3,
    open u b = Ok d0 /\ foldM_result (add getSizeOf) d0 ss = Ok d1 /\ writeIndex d1 = Ok d2 /\ open u' (blob d2) = Ok d3 /\
    size d3 = zlen ss /\
    (forall i s, ss !! i = Some s -> get getSizeOf d3 (Z.of_nat i) = Ok (imap (fun k => loaded ∅ (Z.of_nat k)) s)) /\
    (forall i, ~ (0 <= i < zlen ss) -> get getSizeOf d3 i = Throw OutOfRange).
Proof.
  intros Hb Hss F. destruct (open_empty u b Hb) as (d0 & E0 & R0 & _).
  destruct (adds_ok d0 [] ss R0 Hss) as (d1 & E1 & R1 & _). destruct (writeIndex_ok _ _ R1) as (b2 & E2 & R2 & H2).
  destruct (readIndex_ok u' ss b2) as (d3 & E3 & R3 & _ & T3); [apply R1|done|done|].
  exists d0, d1, (with_blob d1 b2), d3. do 4 (split; [done|]). split; [by apply repr_size|]. rewrite <- T3. split.
  - intros i s Hs. by apply repr_get with ss.
  - intros i Hi. by apply get_out_of_range with ss.
Qed.

(** C7. [add(blob, chunkSize)] concatenates: for every positive chunk size it
    succeeds, the samples of the result are those of the dataset followed by
    those of the added blob, each read back as from its own dataset, and the
    result still represents the list of samples, so more can be added. *)
Theorem addBlob_concat d d2 s1 s2 n :
  repr d s1 -> repr d2 s2 -> hostTransforms_ d = hostTransforms_ d2 -> 0 < n ->
  exists d', addBlob d d2 n = Ok d' /\ repr d' (s1 ++ s2) /\ size d' = size d + size d2 /\
    (forall i, 0 <= i < size d -> get getSizeOf d' i = get getSizeOf d i) /\
    (forall i, 0 <= i < size d2 -> get getSizeOf d' (size d + i) = get getSizeOf d2 i).
Proof.
  intros R1 R2 T Hn. destruct (addBlob_ok _ _ _ _ n R1 R2 Hn) as (d' & E & R & T'). exists d'.
  rewrite (repr_size _ _ R), (repr_size _ _ R1), (repr_size _ _ R2), zlen_app.
  do 3 (split; [done|]). split; intros i Hi; unfold zlen in *.
  - destruct (lookup_lt_is_Some_2 s1 (Z.to_nat i)) as [s Hs]; [lia|]. rewrite <- (Z2Nat.id i) by lia.
    rewrite (repr_get _ _ _ _ R1 Hs), <- T'. apply repr_get with (s1 ++ s2); [done|].
    rewrite lookup_app_l by (by apply lookup_lt_Some in Hs). done.
  - destruct (lookup_lt_is_Some_2 s2 (Z.to_nat i)) as [s Hs]; [lia|].
    replace (Z.of_nat (length s1) + i) with (Z.of_nat (length s1 + Z.to_nat i)) by lia.
    rewrite <- (Z2Nat.id i), (repr_get _ _ _ _ R2 Hs), <- T, <- T' by lia. apply repr_get with (s1 ++ s2); [done|].
    rewrite Z2Nat.id, lookup_app_r by lia. rewrite <- Hs. f_equal. lia.
Qed.
End Repr.

(** * Examples *)

Definition ex_size (ty : Z) : Z := if ty =? 0 then 4 else 1.
Definition ex_samples : list (list array) :=
  [[Array 0 [2; 1; 1; 1] [1; 2; 3; 4; 5; 6; 7; 8]; Array 7 [3; 1; 1; 1] [9; 8; 7]]; []; [Array 0 [0; 1; 1; 1] []; Array 7 [1; 2; 1; 1] [5; 6]]].

Lemma ex_fits : Forall (Forall (wf_array ex_size)) ex_samples /\ fits ex_samples.
Proof. split; [repeat constructor|]. unfold fits. repeat split; repeat constructor; unfold is_i64; cbn; lia. Qed.

(** Files: the three samples are stored and read again. *)
Lemma blob_reopen_witness :
  exists d, (d0 ← open 77 (File []); d1 ← foldM_result (add ex_size) d0 ex_samples; d2 ← writeIndex d1; open 5 (blob d2)) = Ok d /\
    get ex_size d 2 = Ok [emptyArray; Array 7 [1; 2; 1; 1] [5; 6]] /\ get ex_size d 3 = Throw OutOfRange.
Proof.
  pose proof (blob_reopen ex_size 77 5 (File []) ex_samples) as Hr.
  destruct (Hr eq_refl (proj1 ex_fits) (proj2 ex_fits)) as (d0 & d1 & d2 & d3 & E0 & E1 & E2 & E3 & _ & G & X).
  exists d3. rewrite E0. cbn [mbind result_bind]. rewrite E1. cbn [mbind result_bind]. rewrite E2. cbn [mbind result_bind].
  split; [exact E3|]. split; [apply (G 2%nat _ eq_refl)|apply X; change (zlen ex_samples) with 3; lia].
Defined.

(** Memory: a dataset of three samples added to one of two, by chunks of four bytes. *)
Lemma addBlob_concat_witness :
  exists d d2 d', open 0 ([] : list Z) = Ok d /\ foldM_result (add ex_size) d ex_samples = Ok d2 /\ addBlob d2 d2 4 = Ok d' /\
    size d' = 6 /\ get ex_size d' 3 = get ex_size d2 0.
Proof.
  pose proof (open_empty ex_size 0 ([] : list Z)) as Ho. destruct (Ho eq_refl) as (d & E & R & _).
  destruct (adds_ok ex_size d [] ex_samples R (proj1 ex_fits)) as (d2 & E2 & R2 & _).
  destruct (addBlob_concat ex_size d2 d2 ex_samples ex_samples 4 R2 R2 eq_refl eq_refl) as (d' & E' & _ & Hs & _ & G).
  rewrite (repr_size _ _ _ R2) in Hs, G. exists d, d2, d'. split; [done|]. split; [done|]. split; [done|].
  split; [exact Hs|]. apply (G 0). split; [done|reflexivity].
Defined.
