(* ===== verification/DefaultMM.v ===== *)
(** The other allocator, [fl/memory/managers/DefaultMemoryManager.cpp].

    The state of the manager has one [MemoryInfo] per device; the active device
    is an argument of the operations, as are the answers of the device interface:
    [nativeAlloc] answers an address or throws ([None]).  The calls of the device
    interface are logged.  [size_t] arithmetic wraps modulo 2^64.  An operation
    returns the state it leaves and its result or exception, since the code keeps
    the updates it made before an exception. *)
From S2P Require Import Prelude.

Open Scope Z_scope.

(** * State *)

Record LockedInfo := Locked { managerLock : bool; userLock_ : bool; bytes : Z }.

Definition ONE_GB : Z := Z.shiftl 1 30.

Record MemoryInfo := Info {
  lockedMap : gmap Z LockedInfo;
  freeMap : gmap Z (list Z);
  lockBytes : Z;
  lockBuffers : Z;
  totalBytes : Z;
  totalBuffers : Z;
  maxBytes : Z;
}.

Definition MemoryInfo_new : MemoryInfo := Info ∅ ∅ 0 0 0 0 ONE_GB.

(** The calls of the device interface. *)
Inductive call := NativeAlloc (p : Z) | NativeFree (p : Z).

Record mgr := Mgr {
  memStepSize : Z;
  maxBuffers : Z;
  debugMode : bool;
  memory : list MemoryInfo;
  calls : list call;
}.

Definition set_memory (m : list MemoryInfo) (s : mgr) : mgr := Mgr (memStepSize s) (maxBuffers s) (debugMode s) m (calls s).
Definition log_calls (l : list call) (s : mgr) : mgr := Mgr (memStepSize s) (maxBuffers s) (debugMode s) (memory s) (calls s ++ l).
Definition update (dev : Z) (m : MemoryInfo) (s : mgr) : mgr := set_memory (<[Z.to_nat dev := m]> (memory s)) s.

(** The constructor; the environment variables [AF_MEM_DEBUG] and
    [AF_MAX_BUFFERS] (the latter as read by [std::stoi]) override its arguments. *)
Definition DefaultMemoryManager (numDevices maxBuffers : Z) (debug : bool) (memDebug : option string) (envBuffers : option (result Z)) : result mgr :=
  let debugMode := match memDebug with Some c => negb (bool_decide (c = "0"%string)) | None => debug end in
  let memStepSize := if debugMode then 1 else 1024 in
  maxBuffers ← match envBuffers with Some r => n ← r; Ok (Z.max 1 n) | None => Ok maxBuffers end;
  Ok (Mgr memStepSize maxBuffers debugMode (replicate (Z.to_nat numDevices) MemoryInfo_new) []).

(** [memory[device]] *)
Definition getMemoryInfo (s : mgr) (dev : Z) : result MemoryInfo := vec_get (memory s) dev.

(** * Cleaning up *)

Definition cleanDeviceMemoryManager (s : mgr) (dev : Z) : mgr * result unit :=
  if debugMode s then (s, Ok tt)
  else
    match getMemoryInfo s dev with
    | Throw e => (s, Throw e)
    | Ok current =>
        if totalBuffers current =? lockBuffers current then (s, Ok tt)
        else
          let '(freePtrs, bytes, buffers) :=
            fold_left (fun '(ptrs, bytes, buffers) kv =>
              (ptrs ++ kv.2, u64 (bytes - zlen kv.2 * kv.1), u64 (buffers - zlen kv.2)))
              (map_to_list (freeMap current)) ([], totalBytes current, totalBuffers current) in
          let s := update dev (Info (lockedMap current) ∅ (lockBytes current) (lockBuffers current) bytes buffers (maxBytes current)) s in
          (log_calls (map NativeFree freePtrs) s, Ok tt)
    end.

Definition signalMemoryCleanup (s : mgr) (dev : Z) : mgr * result unit := cleanDeviceMemoryManager s dev.

Definition shutdown (s : mgr) (dev : Z) : mgr * result unit := signalMemoryCleanup s dev.

(** [memory.resize(memory.size() + device + 1)]; a [device] is an [int], and a
    negative length is a [std::length_error]. *)
Definition addMemoryManagement (s : mgr) (device : Z) : result mgr :=
  if u64 device <? zlen (memory s) then Ok s
  else
    let n := zlen (memory s) + device + 1 in
    if n <? 0 then Throw LogicError
    else Ok (set_memory (take (Z.to_nat n) (memory s) ++ replicate (Z.to_nat n - length (memory s)) MemoryInfo_new) s).

Definition removeMemoryManagement (s : mgr) (device : Z) : mgr * result unit :=
  if zlen (memory s) <=? u64 device then (s, Throw RuntimeError)
  else cleanDeviceMemoryManager s device.

(** * The memory limit *)

(** The nearest [double] to [q / 4], in quarters: 53 significant bits, ties to
    even.  The values below are natural numbers of quarters. *)
Definition round53 (q : Z) : Z :=
  if q <? 2 ^ 53 then q
  else
    let e := Z.log2 q - 52 in
    let m := q / 2 ^ e in
    let r := q mod 2 ^ e in
    let up := (2 ^ e <? 2 * r) || ((2 ^ e =? 2 * r) && Z.odd m) in
    (if up then m + 1 else m) * 2 ^ e.

(** [std::max(memsize * 0.75, (double)(memsize - ONE_GB))] as a [size_t]; the
    conversion is undefined from 2^64. *)
Definition maxMemory (memsize : Z) : result Z :=
  if memsize =? 0 then Ok ONE_GB
  else
    let a := round53 (round53 (4 * memsize) * 3 / 4) in
    let b := round53 (4 * u64 (memsize - ONE_GB)) in
    let m := Z.max a b / 4 in
    if m <? 2 ^ 64 then Ok m else Throw Undefined.

Definition setMaxMemorySize (getMaxMemorySize : Z -> Z) (s : mgr) : result mgr :=
  m ← mapM_result (fun '(n, info) =>
        m ← maxMemory (getMaxMemorySize n);
        Ok (Info (lockedMap info) (freeMap info) (lockBytes info) (lockBuffers info) (totalBytes info) (totalBuffers info) m))
      (combine (zrange 0 (zlen (memory s))) (memory s));
  Ok (set_memory m s).

Definition initialize (getMaxMemorySize : Z -> Z) (s : mgr) : result mgr := setMaxMemorySize getMaxMemorySize s.

(** * Allocation *)

(** [bytes = elementSize; for (...) bytes *= dims[i];] *)
Definition requestBytes (elementSize : Z) (dims : list Z) : Z := fold_left (fun b d => u64 (b * u64 d)) dims elementSize.

Definition divup (a b : Z) : Z := u64 (a + b - 1) / b.

(** [lockedMap[ptr] = info], and the counters of the locked buffers. *)
Definition lockBuffer (ptr : Z) (info : LockedInfo) (m : MemoryInfo) : MemoryInfo :=
  Info (<[ptr := info]> (lockedMap m)) (freeMap m) (u64 (lockBytes m + bytes info)) (u64 (lockBuffers m + 1))
    (totalBytes m) (totalBuffers m) (maxBytes m).

Definition checkMemoryLimit (s : mgr) (m : MemoryInfo) : bool :=
  (maxBytes m <=? lockBytes m) || (maxBuffers s <=? totalBuffers m).

(** A buffer of the free map; [nullptr] (0) when there is none. *)
Definition allocCached (s : mgr) (dev : Z) (info : LockedInfo) : mgr * result Z :=
  match getMemoryInfo s dev with
  | Throw e => (s, Throw e)
  | Ok current =>
      let s := if checkMemoryLimit s current then fst (signalMemoryCleanup s dev) else s in
      match getMemoryInfo s dev with
      | Throw e => (s, Throw e)
      | Ok current =>
          match freeMap current !! bytes info with
          | Some l =>
              match last l with
              | Some ptr =>
                  let m := Info (lockedMap current) (<[bytes info := removelast l]> (freeMap current)) (lockBytes current)
                             (lockBuffers current) (totalBytes current) (totalBuffers current) (maxBytes current) in
                  (update dev (lockBuffer ptr info m) s, Ok ptr)
              | None => (s, Ok 0)
              end
          | None => (s, Ok 0)
          end
      end
  end.

(** A new buffer; [answers] are what [nativeAlloc] answers, the second one after
    a clean-up. *)
Definition allocNative (s : mgr) (dev : Z) (info : LockedInfo) (answers : option Z * option Z) : mgr * result Z :=
  let '(s, ptr) := match fst answers with
                   | Some p => (s, Some p)
                   | None => (fst (signalMemoryCleanup s dev), snd answers)
                   end in
  match ptr with
  | None => (s, Throw RuntimeError)
  | Some ptr =>
      match getMemoryInfo s dev with
      | Throw e => (s, Throw e)
      | Ok m =>
          let m := Info (lockedMap m) (freeMap m) (lockBytes m) (lockBuffers m)
                     (u64 (totalBytes m + bytes info)) (u64 (totalBuffers m + 1)) (maxBytes m) in
          (log_calls [NativeAlloc ptr] (update dev (lockBuffer ptr info m) s), Ok ptr)
      end
  end.

Definition alloc (s : mgr) (dev : Z) (userLock : bool) (dims : list Z) (elementSize : Z) (answers : option Z * option Z) : mgr * result Z :=
  let size := requestBytes elementSize dims in
  if negb (debugMode s) && (memStepSize s =? 0) then (s, Throw Undefined)
  else
    let allocBytes := if debugMode s then size else u64 (divup size (memStepSize s) * memStepSize s) in
    if 0 <? size then
      let info := Locked (negb userLock) userLock allocBytes in
      match getMemoryInfo s dev with Throw e => (s, Throw e) | Ok _ =>
      match (if debugMode s then (s, Ok 0) else allocCached s dev info) with
      | (s, Throw e) => (s, Throw e)
      | (s, Ok ptr) => if ptr =? 0 then allocNative s dev info answers else (s, Ok ptr)
      end end
    else (s, Ok 0).

Definition allocated (s : mgr) (dev ptr : Z) : result Z :=
  if ptr =? 0 then Ok 0
  else
    current ← getMemoryInfo s dev;
    Ok (match lockedMap current !! ptr with Some info => bytes info | None => 0 end).

(** * Locks *)

Definition unlock (s : mgr) (dev ptr : Z) (userUnlock : bool) : mgr * result unit :=
  if ptr =? 0 then (s, Ok tt)
  else
    match getMemoryInfo s dev with
    | Throw e => (s, Throw e)
    | Ok current =>
        match lockedMap current !! ptr with
        | None => (log_calls [NativeFree ptr] s, Ok tt)
        | Some info =>
            let info := if userUnlock then Locked (managerLock info) false (bytes info) else Locked false (userLock_ info) (bytes info) in
            let current := Info (<[ptr := info]> (lockedMap current)) (freeMap current) (lockBytes current) (lockBuffers current)
                             (totalBytes current) (totalBuffers current) (maxBytes current) in
            if userLock_ info || managerLock info then (update dev current s, Ok tt)
            else
              let current := Info (lockedMap current) (freeMap current) (u64 (lockBytes current - bytes info)) (u64 (lockBuffers current - 1))
                               (totalBytes current) (totalBuffers current) (maxBytes current) in
              if debugMode s then
                if 0 <? bytes info then
                  (log_calls [NativeFree ptr]
                    (update dev (Info (delete ptr (lockedMap current)) (freeMap current) (lockBytes current) (lockBuffers current)
                      (u64 (totalBytes current - bytes info)) (u64 (totalBuffers current - 1)) (maxBytes current)) s), Ok tt)
                else
                  (update dev (Info (delete ptr (lockedMap current)) (freeMap current) (lockBytes current) (lockBuffers current)
                      (totalBytes current) (totalBuffers current) (maxBytes current)) s, Ok tt)
              else
                match freeMap current !! bytes info with
                | None => (update dev current s, Throw OutOfRange)
                | Some l =>
                    (update dev (Info (delete ptr (lockedMap current)) (<[bytes info := l ++ [ptr]]> (freeMap current)) (lockBytes current)
                      (lockBuffers current) (totalBytes current) (totalBuffers current) (maxBytes current)) s, Ok tt)
                end
        end
    end.

Definition userLock (s : mgr) (dev ptr : Z) : mgr * result unit :=
  match getMemoryInfo s dev with
  | Throw e => (s, Throw e)
  | Ok m =>
      let info := match lockedMap m !! ptr with
                  | Some info => Locked (managerLock info) true (bytes info)
                  | None => Locked false true 100
                  end in
      (update dev (Info (<[ptr := info]> (lockedMap m)) (freeMap m) (lockBytes m) (lockBuffers m)
         (totalBytes m) (totalBuffers m) (maxBytes m)) s, Ok tt)
  end.

Definition userUnlock (s : mgr) (dev ptr : Z) : mgr * result unit := unlock s dev ptr true.

Definition isUserLocked (s : mgr) (dev ptr : Z) : result bool :=
  m ← getMemoryInfo s dev;
  Ok (match lockedMap m !! ptr with Some info => userLock_ info | None => false end).

(** * Queries *)

(** [getMemoryPressure]: 1.0 or 0.0 *)
Definition getMemoryPressure (s : mgr) (dev : Z) : result Z :=
  m ← getMemoryInfo s dev;
  Ok (if (maxBytes m <? lockBytes m) || (maxBuffers s <? lockBuffers m) then 1 else 0).

Definition jitTreeExceedsMemoryPressure (s : mgr) (dev bytes : Z) : result bool :=
  m ← getMemoryInfo s dev;
  Ok (lockBytes m <? u64 (2 * bytes)).

Definition setMemStepSize (s : mgr) (size : Z) : mgr := Mgr size (maxBuffers s) (debugMode s) (memory s) (calls s).

Definition getMaxBytes (s : mgr) (dev : Z) : result Z := m ← getMemoryInfo s dev; Ok (maxBytes m).

(** ** Theorems on [DefaultMemoryManager].

    Outside debug mode the manager never has a buffer to reuse: [unlock] reads the
    free map with [at], which throws for a size that is not there, and nothing
    else adds a size.  In debug mode the counters are those of the locked buffers
    and every native allocation is freed once. *)

Open Scope Z_scope.

(** * Clients *)

(** What a client can do; [exec] goes on after an exception. *)
Inductive op :=
| OAlloc (dev : Z) (lock : bool) (dims : list Z) (elementSize : Z) (answers : option Z * option Z)
| OUnlock (dev ptr : Z) (user : bool)
| OUserLock (dev ptr : Z)
| OCleanup (dev : Z)
| OAdd (dev : Z)
| ORemove (dev : Z)
| OMaxSize (getMaxMemorySize : Z -> Z)
| OStepSize (size : Z).

Definition or_same (s : mgr) (r : result mgr) : mgr := match r with Ok s' => s' | Throw _ => s end.

Definition exec (s : mgr) (o : op) : mgr :=
  match o with
  | OAlloc dev lock dims size answers => fst (alloc s dev lock dims size answers)
  | OUnlock dev ptr user => fst (unlock s dev ptr user)
  | OUserLock dev ptr => fst (userLock s dev ptr)
  | OCleanup dev => fst (signalMemoryCleanup s dev)
  | OAdd dev => or_same s (addMemoryManagement s dev)
  | ORemove dev => fst (removeMemoryManagement s dev)
  | OMaxSize f => or_same s (setMaxMemorySize f s)
  | OStepSize n => setMemStepSize s n
  end.

Definition run (s : mgr) (l : list op) : mgr := fold_left exec l s.

(** * Nothing is reused *)

Definition noFree (s : mgr) : Prop := Forall (fun m => freeMap m = ∅) (memory s).

Lemma noFree_update dev m s : noFree s -> freeMap m = ∅ -> noFree (update dev m s).
Proof. intros Hs Hm. by apply Forall_insert. Qed.

Lemma noFree_get s dev m : noFree s -> getMemoryInfo s dev = Ok m -> freeMap m = ∅.
Proof. intros Hs [_ Hm]%vec_get_Ok. by apply (Forall_lookup_1 _ _ _ _ Hs Hm). Qed.

Lemma noFree_clean s dev : noFree s -> noFree (fst (cleanDeviceMemoryManager s dev)).
Proof.
  intros Hs. unfold cleanDeviceMemoryManager. case_match; [done|]. destruct (getMemoryInfo s dev) as [m|] eqn:E; [|done].
  rewrite (noFree_get _ _ _ Hs E), map_to_list_empty. cbn [fold_left]. case_match; [done|]. by apply noFree_update.
Qed.

Lemma noFree_allocCached s dev info : noFree s -> noFree (fst (allocCached s dev info)).
Proof.
  intros Hs. unfold allocCached. destruct (getMemoryInfo s dev) as [m|] eqn:E; [|done].
  set (s' := if checkMemoryLimit s m then _ else s). assert (noFree s') as Hs' by (unfold s'; case_match; [by apply noFree_clean|done]).
  destruct (getMemoryInfo s' dev) as [m'|] eqn:E'; [|done]. by rewrite (noFree_get _ _ _ Hs' E'), lookup_empty.
Qed.

Lemma noFree_allocNative s dev info answers : noFree s -> noFree (fst (allocNative s dev info answers)).
Proof.
  intros Hs. unfold allocNative. set (r := match fst answers with Some p => _ | None => _ end).
  assert (noFree (fst r)) as Hr by (unfold r; case_match; [done|by apply noFree_clean]). destruct r as [s' ptr]; cbn in Hr.
  destruct ptr; [|done]. destruct (getMemoryInfo s' dev) eqn:E; [|done]. apply noFree_update; [done|]. by apply (noFree_get _ _ _ Hr E).
Qed.

Lemma noFree_alloc s dev lock dims size answers : noFree s -> noFree (fst (alloc s dev lock dims size answers)).
Proof.
  intros Hs. unfold alloc. case_match; [done|]. case_match; [|done]. case_match; [|done].
  set (info := Locked _ _ _). set (r := if debugMode s then _ else _).
  assert (noFree (fst r)) as Hr by (unfold r; case_match; [done|by apply noFree_allocCached]).
  destruct r as [s' [ptr|]]; [|done]. case_match; [by apply noFree_allocNative|done].
Qed.

Lemma noFree_unlock s dev ptr user : noFree s -> noFree (fst (unlock s dev ptr user)).
Proof.
  intros Hs. unfold unlock. case_match; [done|]. destruct (getMemoryInfo s dev) as [m|] eqn:E; [|done].
  pose proof (noFree_get _ _ _ Hs E) as Hm. destruct (lockedMap m !! ptr); [|done]. cbv zeta. cbn [freeMap].
  rewrite Hm, lookup_empty. repeat case_match; by apply noFree_update.
Qed.

Lemma noFree_exec s o : noFree s -> noFree (exec s o).
Proof.
  intros Hs. destruct o; cbn [exec].
  - by apply noFree_alloc.
  - by apply noFree_unlock.
  - unfold userLock. destruct (getMemoryInfo s dev) as [m|] eqn:E; [|done]. apply noFree_update; [done|]. by apply (noFree_get _ _ _ Hs E).
  - by apply noFree_clean.
  - unfold addMemoryManagement. repeat (case_match; [done|]). cbn. apply Forall_app. split; [by apply Forall_take|]. by apply Forall_replicate.
  - unfold removeMemoryManagement. case_match; [done|]. by apply noFree_clean.
  - unfold setMaxMemorySize. destruct (mapM_result _ _) as [l|] eqn:E; [|done]. apply mapM_result_Ok in E. cbn.
    apply Forall_forall. intros m (i & Hi)%list_elem_of_lookup.
    destruct (Forall2_lookup_r _ _ _ _ _ E Hi) as ([n m0] & Hm0 & Hm). apply list_elem_of_lookup_2, list_elem_of_In, in_combine_r, list_elem_of_In in Hm0.
    destruct (maxMemory _); [|done]. injection Hm as <-. by apply (proj1 (Forall_forall _ _) Hs _ Hm0).
  - done.
Qed.

Lemma run_noFree ops s : noFree s -> noFree (run s ops).
Proof. revert s. induction ops as [|o ops IH]; intros s Hs; [done|]. by apply IH, noFree_exec. Qed.


Lemma debugMode_clean s dev : debugMode (fst (cleanDeviceMemoryManager s dev)) = debugMode s.
Proof. unfold cleanDeviceMemoryManager. repeat case_match; done. Qed.

Lemma debugMode_allocCached s dev info : debugMode (fst (allocCached s dev info)) = debugMode s.
Proof.
  unfold allocCached. destruct (getMemoryInfo s dev) as [m|]; [|done].
  set (s' := if checkMemoryLimit s m then _ else s).
  assert (debugMode s' = debugMode s) as <- by (unfold s'; case_match; [apply debugMode_clean|done]).
  clearbody s'. repeat case_match; done.
Qed.

Lemma debugMode_allocNative s dev info answers : debugMode (fst (allocNative s dev info answers)) = debugMode s.
Proof.
  unfold allocNative. set (r := match fst answers with Some p => _ | None => _ end).
  assert (debugMode (fst r) = debugMode s) as <- by (unfold r; case_match; [done|apply debugMode_clean]).
  clearbody r. destruct r as [s' [ptr|]]; [|done]. by destruct (getMemoryInfo s' dev).
Qed.

Lemma debugMode_alloc s dev lock dims size answers : debugMode (fst (alloc s dev lock dims size answers)) = debugMode s.
Proof.
  unfold alloc. case_match; [done|]. case_match; [|done]. case_match; [|done].
  set (info := Locked _ _ _). set (r := if debugMode s then _ else _).
  assert (debugMode (fst r) = debugMode s) as <- by (unfold r; case_match; [done|]; rewrite debugMode_allocCached; congruence).
  clearbody r. destruct r as [s' [ptr|]]; [|done]. case_match; [apply debugMode_allocNative|done].
Qed.

Lemma debugMode_exec s o : debugMode (exec s o) = debugMode s.
Proof.
  destruct o; cbn [exec].
  - apply debugMode_alloc.
  - unfold unlock. cbv zeta. repeat case_match; done.
  - unfold userLock. case_match; done.
  - apply debugMode_clean.
  - unfold addMemoryManagement. repeat case_match; done.
  - unfold removeMemoryManagement. case_match; [done|]. apply debugMode_clean.
  - unfold setMaxMemorySize. by destruct (mapM_result _ _).
  - done.
Qed.

Lemma debugMode_run ops s : debugMode (run s ops) = debugMode s.
Proof. revert s. induction ops as [|o ops IH]; intros s; [done|]. unfold run; cbn [fold_left]. etransitivity; [apply IH|apply debugMode_exec]. Qed.

(** The entry of [ptr] once one of its locks is cleared. *)
Definition unlocked (user : bool) (info : LockedInfo) : LockedInfo :=
  if user then Locked (managerLock info) false (bytes info) else Locked false (userLock_ info) (bytes info).

Lemma getMemoryInfo_update s dev m m' : getMemoryInfo s dev = Ok m -> getMemoryInfo (update dev m' s) dev = Ok m'.
Proof. unfold getMemoryInfo. rewrite !vec_get_Ok. intros [? Hm]. split; [done|]. cbn. apply list_lookup_insert_eq. by apply lookup_lt_Some in Hm. Qed.

(** Outside debug mode, whatever a client did since the manager was made,
    releasing the last lock of a buffer does not work: [unlock] throws
    [std::out_of_range] after it has decremented the counters of the locked
    buffers, and the buffer stays in the table of locked buffers; a clean-up
    never gives anything back to the device. ([unlock] stores the buffer with
    [freeMap.at(bytes)], and no other code adds [bytes] to the map.) *)
Theorem unlock_never_releases n b memDebug env s ops dev m ptr user info :
  DefaultMemoryManager n b false memDebug env = Ok s -> debugMode s = false ->
  getMemoryInfo (run s ops) dev = Ok m -> lockedMap m !! ptr = Some info -> ptr <> 0 ->
  managerLock (unlocked user info) = false -> userLock_ (unlocked user info) = false ->
  exists s' m',
    unlock (run s ops) dev ptr user = (s', Throw OutOfRange) /\ getMemoryInfo s' dev = Ok m' /\
    lockedMap m' = <[ptr := unlocked user info]> (lockedMap m) /\
    lockBytes m' = u64 (lockBytes m - bytes info) /\ totalBytes m' = totalBytes m /\
    calls (fst (signalMemoryCleanup (run s ops) dev)) = calls (run s ops).
Proof.
  intros Hn Hd Hm Hi Hp Hl Hu. assert (noFree s) as Hs.
  { unfold DefaultMemoryManager in Hn. match type of Hn with (mbind _ ?r) = _ => destruct r end; [|done]. injection Hn as <-.
    by apply Forall_replicate. }
  pose proof (run_noFree ops s Hs) as Hf. pose proof (debugMode_run ops s) as Hd'. rewrite Hd in Hd'.
  set (r := run s ops) in *. clearbody r. pose proof (noFree_get _ _ _ Hf Hm) as Hm0.
  unfold unlock. rewrite (proj2 (Z.eqb_neq ptr 0)) by done. rewrite Hm, Hi, Hd'. cbv zeta. fold (unlocked user info).
  rewrite Hl, Hu. cbn [orb freeMap]. rewrite Hm0, lookup_empty.
  do 2 eexists. split; [done|]. split; [by apply (getMemoryInfo_update _ _ m)|]. cbn [lockedMap lockBytes totalBytes].
  split; [done|]. split; [by destruct user|]. split; [done|].
  unfold signalMemoryCleanup, cleanDeviceMemoryManager. rewrite Hd', Hm, Hm0, map_to_list_empty. cbn [fold_left].
  case_match; [done|]. cbn. by rewrite app_nil_r.
Qed.

(** The first buffer of 100 floats cannot be released. *)
Lemma unlock_never_releases_witness :
  exists s s', DefaultMemoryManager 1 1000 false None None = Ok s /\
    unlock (run s [OAlloc 0 false [100] 4 (Some 4096, None)]) 0 4096 false = (s', Throw OutOfRange).
Proof.
  exists (Mgr 1024 1000 false [MemoryInfo_new] []).
  destruct (unlock_never_releases 1 1000 None None (Mgr 1024 1000 false [MemoryInfo_new] [])
    [OAlloc 0 false [100] 4 (Some 4096, None)] 0
    (Info {[4096 := Locked true false 1024]} ∅ 1024 1 1024 1 ONE_GB) 4096 false (Locked true false 1024)) as (s' & m' & E & _);
    [reflexivity|reflexivity|reflexivity|reflexivity|done|reflexivity|reflexivity|].
  exists s'. split; [reflexivity|exact E].
Defined.

(** * Debug mode *)

Definition sumBytes (l : gmap Z LockedInfo) : Z := map_fold (fun _ i acc => bytes i + acc) 0 l.
Definition keys (l : gmap Z LockedInfo) : list Z := map fst (map_to_list l).
Definition nativeAllocs (l : list call) : list Z := omap (fun c => match c with NativeAlloc p => Some p | NativeFree _ => None end) l.
Definition nativeFrees (l : list call) : list Z := omap (fun c => match c with NativeFree p => Some p | NativeAlloc _ => None end) l.

Lemma sumBytes_insert p i (l : gmap Z LockedInfo) : l !! p = None -> sumBytes (<[p := i]> l) = bytes i + sumBytes l.
Proof. intros Hp. unfold sumBytes. rewrite map_fold_insert_L; [done| |done]. intros; lia. Qed.

Lemma sumBytes_delete p i (l : gmap Z LockedInfo) : l !! p = Some i -> sumBytes l = bytes i + sumBytes (delete p l).
Proof. intros Hp. rewrite <- (insert_delete_id l p i Hp) at 1. apply sumBytes_insert, lookup_delete_eq. Qed.

Lemma keys_insert p i l : l !! p = None -> keys (<[p := i]> l) ≡ₚ p :: keys l.
Proof. intros Hp. unfold keys. by rewrite (map_to_list_insert l p i Hp). Qed.

Lemma keys_delete p i l : l !! p = Some i -> keys l ≡ₚ p :: keys (delete p l).
Proof. intros Hp. rewrite <- (insert_delete_id l p i Hp) at 1. apply keys_insert, lookup_delete_eq. Qed.

(** Changing the locks of a buffer. *)
Lemma relock_same p i i' l :
  l !! p = Some i -> bytes i' = bytes i -> sumBytes (<[p := i']> l) = sumBytes l /\ size (<[p := i']> l) = size l /\ keys (<[p := i']> l) ≡ₚ keys l.
Proof.
  intros Hp Hb. rewrite <- (insert_delete_eq l p i'). pose proof (lookup_delete_eq l p) as Hn. repeat split.
  - rewrite sumBytes_insert, (sumBytes_delete _ _ _ Hp), Hb by done. done.
  - rewrite map_size_insert_None by done. rewrite <- (insert_delete_id l p i Hp) at 2. by rewrite map_size_insert_None.
  - rewrite keys_insert by done. by rewrite (keys_delete _ _ _ Hp).
Qed.

(** The counters of a device that only has locked buffers. *)
Record counted (m : MemoryInfo) (log : list call) : Prop := {
  c_lockBytes : lockBytes m = u64 (sumBytes (lockedMap m));
  c_lockBuffers : lockBuffers m = u64 (Z.of_nat (size (lockedMap m)));
  c_totalBytes : totalBytes m = u64 (sumBytes (lockedMap m));
  c_totalBuffers : totalBuffers m = u64 (Z.of_nat (size (lockedMap m)));
  c_locked : forall p i, lockedMap m !! p = Some i -> p <> 0 /\ 0 < bytes i /\ managerLock i || userLock_ i = true;
  c_log : nativeAllocs log ≡ₚ nativeFrees log ++ keys (lockedMap m);
}.

Definition accounted (s : mgr) : Prop := debugMode s = true /\ exists m, memory s = [m] /\ counted m (calls s).

(** What a client of one device respects: the pointers it unlocks or locks are
    locked buffers (or null), and the device allocates at a free address. *)
Definition fresh (m : MemoryInfo) (a : option Z) : Prop := match a with Some p => p <> 0 /\ lockedMap m !! p = None | None => True end.

Definition respects (s : mgr) (o : op) : Prop :=
  match memory s, o with
  | [m], OAlloc dev _ _ _ (a1, a2) => dev = 0 /\ fresh m a1 /\ fresh m a2
  | [m], OUnlock dev p _ => dev = 0 /\ (p = 0 \/ is_Some (lockedMap m !! p))
  | [m], OUserLock dev p => dev = 0 /\ is_Some (lockedMap m !! p)
  | [m], OCleanup _ => True
  | _, _ => False
  end.

Fixpoint respectsAll (s : mgr) (ops : list op) : Prop :=
  match ops with [] => True | o :: ops => respects s o /\ respectsAll (exec s o) ops end.

Lemma u64_plus_l a b : u64 (u64 a + b) = u64 (a + b).
Proof. unfold u64. by rewrite Zplus_mod_idemp_l. Qed.
Lemma u64_minus_l a b : u64 (u64 a - b) = u64 (a - b).
Proof. unfold u64. by rewrite Zminus_mod_idemp_l. Qed.

Lemma one_device s m : memory s = [m] -> getMemoryInfo s 0 = Ok m.
Proof. unfold getMemoryInfo. by intros ->. Qed.

Lemma accounted_alloc s lock dims size a1 a2 :
  accounted s -> respects s (OAlloc 0 lock dims size (a1, a2)) -> accounted (exec s (OAlloc 0 lock dims size (a1, a2))).
Proof.
  intros [Hd (m & Hm & C)]. unfold respects, exec. rewrite Hm. intros (_ & F1 & F2). unfold alloc. rewrite Hd. cbn [negb andb].
  assert (accounted s) as A by (split; [done|by exists m]).
  destruct (Z.ltb_spec 0 (requestBytes size dims)) as [Hpos|]; [|done].
  pose proof (one_device _ _ Hm) as Hg. rewrite Hg, Z.eqb_refl.
  unfold allocNative, signalMemoryCleanup, cleanDeviceMemoryManager. rewrite Hd. cbn [fst snd].
  assert (exists a, fresh m a /\ match a1 with Some p => (s, Some p) | None => (s, a2) end = (s, a)) as (a & Fa & ->).
  { destruct a1; eexists; (split; [|reflexivity]); done. }
  destruct a as [p|]; [|done]. destruct Fa as [Hp Fa]. rewrite Hg.
  split; [done|]. cbn [fst log_calls update set_memory memory calls]. rewrite Hm. eexists. split; [reflexivity|]. destruct C.
  split; cbn [lockBuffer lockBytes lockBuffers totalBytes totalBuffers lockedMap bytes].
  - rewrite c_lockBytes0, u64_plus_l, sumBytes_insert by done. cbn. f_equal. lia.
  - rewrite c_lockBuffers0, u64_plus_l, map_size_insert_None by done. f_equal. lia.
  - rewrite c_totalBytes0, u64_plus_l, sumBytes_insert by done. cbn. f_equal. lia.
  - rewrite c_totalBuffers0, u64_plus_l, map_size_insert_None by done. f_equal. lia.
  - intros q i [[<- <-]|[? ?]]%lookup_insert_Some; [|by eapply c_locked0]. cbn. split; [done|]. split; [done|]. by destruct lock.
  - unfold nativeAllocs, nativeFrees in *. rewrite !omap_app. cbn. rewrite app_nil_r, keys_insert by done.
    rewrite c_log0. solve_Permutation.
Qed.

Lemma accounted_relock s m p i i' :
  debugMode s = true -> memory s = [m] -> counted m (calls s) -> lockedMap m !! p = Some i -> bytes i' = bytes i ->
  managerLock i' || userLock_ i' = true ->
  accounted (update 0 (Info (<[p := i']> (lockedMap m)) (freeMap m) (lockBytes m) (lockBuffers m) (totalBytes m) (totalBuffers m) (maxBytes m)) s).
Proof.
  intros Hd Hm C Hp Hb Hl. split; [done|]. cbn [update set_memory memory calls]. rewrite Hm. eexists. split; [reflexivity|].
  destruct (relock_same _ _ _ _ Hp Hb) as (E1 & E2 & E3). destruct C.
  split; cbn [lockBytes lockBuffers totalBytes totalBuffers lockedMap]; rewrite ?E1, ?E2, ?E3; try done.
  intros q j [[<- <-]|[? ?]]%lookup_insert_Some; [|by eapply c_locked0]. destruct (c_locked0 _ _ Hp) as (? & ? & _). by rewrite Hb.
Qed.

Lemma accounted_unlock s p user :
  accounted s -> respects s (OUnlock 0 p user) -> accounted (exec s (OUnlock 0 p user)).
Proof.
  intros A. pose proof A as [Hd (m & Hm & C)]. unfold respects, exec. rewrite Hm. intros (_ & Hp). unfold unlock.
  destruct (Z.eqb_spec p 0) as [|Hp0]; [done|]. rewrite (one_device _ _ Hm).
  destruct Hp as [?|[i Hi]]; [done|]. rewrite Hi, Hd. cbv zeta. fold (unlocked user i). cbn [lockedMap freeMap lockBytes lockBuffers totalBytes totalBuffers maxBytes].
  assert (bytes (unlocked user i) = bytes i) as Hb by by destruct user.
  destruct (userLock_ (unlocked user i) || managerLock (unlocked user i)) eqn:El.
  { apply accounted_relock with i; try done. by rewrite orb_comm. }
  rewrite Hb. destruct (c_locked _ _ C _ _ Hi) as (_ & Hpos & _). rewrite (proj2 (Z.ltb_lt 0 _)) by done.
  split; [done|]. cbn [fst log_calls update set_memory memory calls]. rewrite Hm. eexists. split; [reflexivity|].
  rewrite delete_insert_eq. destruct C. pose proof (sumBytes_delete _ _ _ Hi) as Es. pose proof (keys_delete _ _ _ Hi) as Ek.
  pose proof (map_size_delete_Some p (lockedMap m) (mk_is_Some _ _ Hi)) as Ez.
  pose proof (map_size_ne_0_lookup_2 (lockedMap m) p (mk_is_Some _ _ Hi)) as Hz.
  split; cbn [lockBytes lockBuffers totalBytes totalBuffers lockedMap].
  - rewrite c_lockBytes0, u64_minus_l, Es. f_equal. lia.
  - rewrite c_lockBuffers0, u64_minus_l, Ez. f_equal. lia.
  - rewrite c_totalBytes0, u64_minus_l, Es. f_equal. lia.
  - rewrite c_totalBuffers0, u64_minus_l, Ez. f_equal. lia.
  - intros q j [_ Hq]%lookup_delete_Some. by eapply c_locked0.
  - unfold nativeAllocs, nativeFrees in *. rewrite !omap_app. cbn. rewrite app_nil_r, c_log0, Ek. solve_Permutation.
Qed.

Lemma accounted_exec s o : accounted s -> respects s o -> accounted (exec s o).
Proof.
  intros A. pose proof A as [Hd (m & Hm & C)]. destruct o as [dev lock dims size [a1 a2]|dev p user|dev p|dev| | | |]; intros R.
  - assert (dev = 0) as -> by (revert R; unfold respects; rewrite Hm; by intros [-> _]). by apply accounted_alloc.
  - assert (dev = 0) as -> by (revert R; unfold respects; rewrite Hm; by intros [-> _]). by apply accounted_unlock.
  - revert R. unfold respects, exec, userLock. rewrite Hm. intros (-> & i & Hi). rewrite (one_device _ _ Hm), Hi.
    apply accounted_relock with i; try done. cbn. apply orb_true_r.
  - unfold exec, signalMemoryCleanup, cleanDeviceMemoryManager. by rewrite Hd.
  - by revert R; unfold respects; rewrite Hm.
  - by revert R; unfold respects; rewrite Hm.
  - by revert R; unfold respects; rewrite Hm.
  - by revert R; unfold respects; rewrite Hm.
Qed.

(** In debug mode, on one device and for a client that unlocks what it
    locked, the counters are exact modulo 2^64 after any sequence of
    operations: the locked and the total bytes are the sum over the locked
    buffers, the locked and the total buffers their number; every locked
    buffer still has a lock; and the native allocations are those freed, once
    each, and those still locked. *)
Theorem debug_accounting s n ops :
  DefaultMemoryManager 1 n true None None = Ok s -> respectsAll s ops -> accounted (run s ops).
Proof.
  intros Hn. injection Hn as <-. set (s := Mgr _ _ _ _ _). assert (accounted s) as A.
  { split; [done|]. eexists. split; [reflexivity|]. by split. }
  clearbody s. revert s A. induction ops as [|o ops IH]; intros s A; [done|]. intros [R Rs]. apply IH; [by apply accounted_exec|done].
Qed.

Definition ex_ops : list op :=
  [OAlloc 0 false [10] 4 (Some 64, None); OAlloc 0 true [3; 5] 8 (None, Some 512); OUserLock 0 64; OUnlock 0 64 false; OUnlock 0 512 true; OUnlock 0 64 true].

Lemma debug_accounting_witness :
  exists s, DefaultMemoryManager 1 10 true None None = Ok s /\ accounted (run s (take 5 ex_ops)) /\
    calls (run s ex_ops) = [NativeAlloc 64; NativeAlloc 512; NativeFree 512; NativeFree 64].
Proof.
  exists (Mgr 1 10 true [MemoryInfo_new] []). split; [reflexivity|]. split; [|vm_compute; reflexivity].
  apply (debug_accounting _ 10); [reflexivity|]. vm_compute. repeat split; try done; try (right; by eexists); by eexists.
Defined.

(** * The limit of the memory *)

Lemma round53_small q : q < 2 ^ 53 -> round53 q = q.
Proof. intros Hq. unfold round53. by rewrite (proj2 (Z.ltb_lt _ _)). Qed.

Lemma round53_lower q : 2 ^ 53 <= q -> q - 2 ^ (Z.log2 q - 52) < round53 q.
Proof.
  intros Hq. unfold round53. rewrite (proj2 (Z.ltb_ge _ _)) by done. cbv zeta. set (e := Z.log2 q - 52).
  assert (0 < 2 ^ e) as He by (apply Z.pow_pos_nonneg; [lia|]; unfold e; pose proof (Z.log2_le_mono _ _ Hq) as Hl; rewrite Z.log2_pow2 in Hl; lia).
  pose proof (Z.div_mod q (2 ^ e)). pose proof (Z.mod_pos_bound q (2 ^ e)). case_match; nia.
Qed.

(** The limit of a device follows the rule written beside it (three
    quarters of the memory below 4 GB, all but 1 GB above) when the device has
    at least 1 GB; below 1 GB, where [memsize - ONE_GB] wraps around, it is
    above 2^63 bytes, so no amount of memory triggers a clean-up. *)
Theorem maxMemory_limit memsize :
  (ONE_GB <= memsize < 2 ^ 51 ->
    maxMemory memsize = Ok (if memsize <? 4 * ONE_GB then memsize * 3 / 4 else memsize - ONE_GB)) /\
  (0 < memsize < ONE_GB -> forall r, maxMemory memsize = Ok r -> 2 ^ 63 < r).
Proof.
  unfold maxMemory. change ONE_GB with (2 ^ 30). split.
  - intros Hm. rewrite (proj2 (Z.eqb_neq _ _)) by lia.
    assert (u64 (memsize - 2 ^ 30) = memsize - 2 ^ 30) as -> by (apply Z.mod_small; lia).
    rewrite (round53_small (4 * memsize)) by lia. replace (4 * memsize * 3 / 4) with (3 * memsize) by (rewrite <- (Z.div_mul (3 * memsize) 4) by lia; f_equal; lia).
    rewrite !round53_small by lia. rewrite (proj2 (Z.ltb_lt _ _)) by (apply Z.div_lt_upper_bound; lia).
    f_equal. destruct (Z.ltb_spec memsize (4 * 2 ^ 30)).
    + rewrite Z.max_l by lia. f_equal. lia.
    + rewrite Z.max_r by lia. rewrite Z.mul_comm. apply Z.div_mul. lia.
  - intros Hm r. rewrite (proj2 (Z.eqb_neq _ _)) by lia. case_match; [|done]. intros [= <-].
    assert (u64 (memsize - 2 ^ 30) = memsize - 2 ^ 30 + 2 ^ 64) as -> by (symmetry; apply (Z.mod_unique _ _ (-1)); lia).
    set (q := 4 * (memsize - 2 ^ 30 + 2 ^ 64)). assert (Z.log2 q = 65) as Hl by (apply Z.log2_unique; unfold q; lia).
    pose proof (round53_lower q ltac:(unfold q; lia)) as Hr. rewrite Hl in Hr.
    apply Z.lt_le_trans with (2 ^ 63 + 1); [lia|]. apply Z.div_le_lower_bound; [lia|]. change (65 - 52) with 13 in Hr.
    apply Z.le_trans with (q - 2 ^ 13); [unfold q; lia|lia].
Qed.

Lemma maxMemory_limit_witness : maxMemory (8 * ONE_GB) = Ok (7 * ONE_GB) /\ maxMemory (2 ^ 29) = Ok (2 ^ 64 - 2 ^ 29).
Proof. split; [|vm_compute; reflexivity]. apply (maxMemory_limit (8 * ONE_GB)). change ONE_GB with 1073741824. lia. Defined.
