(* ===== verification/ConvLM.v ===== *)
(** The convolutional language model of the decoders
    ([lib/text/decoder/lm/ConvLM.h], [ConvLM.cpp]) and its scoring function
    ([app/asr/decoder/ConvLmModule.cpp]).

    A state of the model is a history of tokens; [cacheIndices_] maps the address
    of a state to the row of [cache_] that holds its scores, so the operations
    take the heap of states.  They are written in a monad of the model's members
    and exceptions: an exception keeps the updates made before it.  The network
    is a parameter, and so is the vocabulary read from its file. *)
From Stdlib Require Import Floats.SpecFloat Ascii.
From S2P Require Import Prelude Vectors Float Strings Dictionary DictUtils.

Open Scope Z_scope.

Abbreviation lmptr := positive.

Record ConvLMState := MkState { tokens : list Z; length_ : Z }.

(** [ConvLMState(size)] *)
Definition ConvLMState_new (size : Z) : ConvLMState := MkState (replicate (Z.to_nat size) 0) size.

Abbreviation lmheap := (gmap lmptr ConvLMState).

Record ConvLM := MkConvLM {
  lmMemory_ : Z;
  beamSize_ : Z;
  maxHistorySize_ : Z;
  vocab_ : dict;
  vocabSize_ : Z;
  usrToLmIdxMap_ : list Z;
  cacheIndices_ : gmap lmptr Z;
  cache_ : list (list f32);
  batchedTokens_ : list Z;
}.

Definition set_indices (x : gmap lmptr Z) (s : ConvLM) : ConvLM :=
  MkConvLM (lmMemory_ s) (beamSize_ s) (maxHistorySize_ s) (vocab_ s) (vocabSize_ s) (usrToLmIdxMap_ s) x (cache_ s) (batchedTokens_ s).
Definition set_cache (x : list (list f32)) (s : ConvLM) : ConvLM :=
  MkConvLM (lmMemory_ s) (beamSize_ s) (maxHistorySize_ s) (vocab_ s) (vocabSize_ s) (usrToLmIdxMap_ s) (cacheIndices_ s) x (batchedTokens_ s).
Definition set_batched (x : list Z) (s : ConvLM) : ConvLM :=
  MkConvLM (lmMemory_ s) (beamSize_ s) (maxHistorySize_ s) (vocab_ s) (vocabSize_ s) (usrToLmIdxMap_ s) (cacheIndices_ s) (cache_ s) x.

(** * The monad *)

Definition St (A : Type) : Type := ConvLM -> ConvLM * result A.

#[export] Instance St_ret : MRet St := fun A a s => (s, Ok a).
#[export] Instance St_bind : MBind St :=
  fun A B k m s => match m s with (s, Ok a) => k a s | (s, Throw e) => (s, Throw e) end.

Definition get : St ConvLM := fun s => (s, Ok s).
Definition modify (f : ConvLM -> ConvLM) : St unit := fun s => (f s, Ok tt).
Definition lift {A} (r : result A) : St A := fun s => (s, r).
Definition throw {A} (e : exn) : St A := fun s => (s, Throw e).

Definition deref (h : lmheap) (p : lmptr) : St ConvLMState :=
  lift (match h !! p with Some st => Ok st | None => Throw Undefined end).

(** * Construction *)

Definition kEosToken : str := lit "</s>".
Definition kPadToken : str := lit "<pad>".

(** [token.c_str()] up to its terminator. *)
Fixpoint c_str (t : str) : str :=
  match t with [] => [] | c :: t => if bool_decide (c = zero) then [] else c :: c_str t end.

(** [vocabFile] is [Dictionary(tokenVocabPath)]. *)
Definition ConvLM_new (vocabFile : result dict) (usrTknDict : dict) (lmMemory beamSize historySize : Z) : result ConvLM :=
  if historySize <? 1 then Throw InvalidArgument
  else
    vocab ← vocabFile;
    unk ← getIndex vocab kUnkToken;
    let vocab := setDefaultIndex vocab unk in
    let vocabSize := Z.of_nat (indexSize vocab) in
    usrToLm ← mapM_result (fun i => token ← getEntry usrTknDict i; getIndex vocab (c_str token)) (zrange 0 (Z.of_nat (indexSize usrTknDict)));
    if beamSize <? 0 then Throw LogicError
    else Ok (MkConvLM lmMemory beamSize historySize vocab vocabSize usrToLm ∅
               (replicate (Z.to_nat beamSize) (replicate (Z.to_nat vocabSize) f_zero))
               (replicate (Z.to_nat (beamSize * historySize)) 0)).

(** * Scoring *)

Definition f_finite (x : f32) : bool := match x with S754_zero _ | S754_finite _ _ _ => true | _ => false end.

Section ConvLM.
Variable getConvLmScoreFunc_ : list Z -> list Z -> Z -> Z -> result (list f32).

Definition start (startWithNothing : bool) : St ConvLMState :=
  modify (set_indices ∅);;
  if startWithNothing then throw InvalidArgument
  else
    s ← get;
    eos ← lift (getIndex (vocab_ s) kEosToken);
    t ← lift (vec_set (tokens (ConvLMState_new 1)) 0 eos);
    mret (MkState t 1).

(** The history after [tokenIdx]. *)
Definition nextState (maxHistorySize_ : Z) (st : ConvLMState) (tokenIdx : Z) : result ConvLMState :=
  if length_ st =? maxHistorySize_ then
    let out := ConvLMState_new maxHistorySize_ in
    t ← vec_copy (drop 1 (tokens st)) (tokens out) 0;
    t ← vec_set t (maxHistorySize_ - 1) tokenIdx;
    Ok (MkState t (length_ out))
  else
    let out := ConvLMState_new (length_ st + 1) in
    t ← vec_copy (tokens st) (tokens out) 0;
    t ← vec_set t (length_ st) tokenIdx;
    Ok (MkState t (length_ out)).

Definition scoreMiss (p : lmptr) (st : ConvLMState) (tokenIdx : Z) : St f32 :=
  modify (fun s => if Z.of_nat (size (cacheIndices_ s)) =? beamSize_ s then set_indices ∅ s else s);;
  s ← get;
  let newIdx := Z.of_nat (size (cacheIndices_ s)) in
  modify (set_indices (<[p := newIdx]> (cacheIndices_ s)));;
  row ← lift (getConvLmScoreFunc_ (tokens st) [length_ st - 1] (-1) 1);
  cache ← lift (vec_set (cache_ s) newIdx row);
  modify (set_cache cache);;
  lift (vec_get row tokenIdx).

Definition scoreWithLmIdx (h : lmheap) (p : lmptr) (tokenIdx : Z) : St (ConvLMState * f32) :=
  st ← deref h p;
  s ← get;
  out ← lift (nextState (maxHistorySize_ s) st tokenIdx);
  if (tokenIdx <? 0) || (vocabSize_ s <=? tokenIdx) then throw OutOfRange
  else
    score ← match cacheIndices_ s !! p with
            | Some cacheInd =>
                if (cacheInd <? 0) || (beamSize_ s <=? cacheInd) then throw LogicError
                else row ← lift (vec_get (cache_ s) cacheInd); lift (vec_get row tokenIdx)
            | None => scoreMiss p st tokenIdx
            end;
    if f_finite score then mret (out, score) else throw RuntimeError.

Definition score (h : lmheap) (p : lmptr) (usrTokenIdx : Z) : St (ConvLMState * f32) :=
  s ← get;
  if (usrTokenIdx <? 0) || (zlen (usrToLmIdxMap_ s) <=? usrTokenIdx) then throw OutOfRange
  else t ← lift (vec_get (usrToLmIdxMap_ s) usrTokenIdx); scoreWithLmIdx h p t.

Definition finish (h : lmheap) (p : lmptr) : St (ConvLMState * f32) :=
  s ← get;
  eos ← lift (getIndex (vocab_ s) kEosToken);
  scoreWithLmIdx h p eos.

(** * Refreshing the cache *)

(** The states whose scores are kept, by row, and the longest history of the
    others. *)
Fixpoint fillSlots (h : lmheap) (states : list lmptr) (slot_ : list (option lmptr)) (longestHistory : Z) : St (list (option lmptr) * Z) :=
  match states with
  | [] => mret (slot_, longestHistory)
  | p :: states =>
      s ← get;
      match cacheIndices_ s !! p with
      | Some i => slot_ ← lift (vec_set slot_ i (Some p)); fillSlots h states slot_ longestHistory
      | None =>
          st ← deref h p;
          fillSlots h states slot_ (if longestHistory <? length_ st then length_ st else longestHistory)
      end
  end.

(** The kept rows move to the front of the cache. *)
Fixpoint moveRows (slot_ : list (option lmptr)) (i cacheSize : Z) : St Z :=
  match slot_ with
  | [] => mret cacheSize
  | None :: slot_ => moveRows slot_ (i + 1) cacheSize
  | Some p :: slot_ =>
      s ← get;
      row ← lift (vec_get (cache_ s) i);
      cache ← lift (vec_set (cache_ s) cacheSize row);
      modify (set_cache cache);;
      modify (set_indices (<[p := cacheSize]> (cacheIndices_ s)));;
      moveRows slot_ (i + 1) (cacheSize + 1)
  end.

(** The tokens of a state and the padding, in the batch. *)
Definition writeTokens (longestHistory pad start : Z) (st : ConvLMState) (batched : list Z) : result (list Z) :=
  batched ← loop_up 0 (length_ st) (fun b j => x ← vec_get (tokens st) j; vec_set b (start + j) x) batched;
  loop_up 0 (longestHistory - length_ st) (fun b j => vec_set b (start + length_ st + j) pad) batched.

(** The states of a batch, from the states that remain; returns the positions of
    their last tokens and the states left. *)
Fixpoint selectBatch (h : lmheap) (maxBatchSize longestHistory cacheSize : Z) (positions : list Z) (nBatchStates : Z) (states : list lmptr) : St (list Z * Z * list lmptr) :=
  match states with
  | [] => mret (positions, nBatchStates, [])
  | p :: rest =>
      if nBatchStates <? maxBatchSize then
        s ← get;
        match cacheIndices_ s !! p with
        | Some _ => selectBatch h maxBatchSize longestHistory cacheSize positions nBatchStates rest
        | None =>
            st ← deref h p;
            modify (set_indices (<[p := cacheSize + nBatchStates]> (cacheIndices_ s)));;
            pad ← lift (if length_ st <? longestHistory then getIndex (vocab_ s) kPadToken else Ok 0);
            b ← lift (writeTokens longestHistory pad (nBatchStates * longestHistory) st (batchedTokens_ s));
            modify (set_batched b);;
            selectBatch h maxBatchSize longestHistory cacheSize (positions ++ [length_ st - 1]) (nBatchStates + 1) rest
        end
      else mret (positions, nBatchStates, states)
  end.

(** [memcpy] of [vocabSize_] scores into a row. *)
Definition placeRow (prob : list f32) (cacheSize i : Z) : St unit :=
  s ← get;
  row ← lift (vec_get (cache_ s) cacheSize);
  probs ← lift (vec_range prob (vocabSize_ s * i) (vocabSize_ s * i + vocabSize_ s));
  row ← lift (vec_copy probs row 0);
  cache ← lift (vec_set (cache_ s) cacheSize row);
  modify (set_cache cache).

Fixpoint placeRows (prob : list f32) (cacheSize : Z) (rows : list Z) : St Z :=
  match rows with
  | [] => mret cacheSize
  | i :: rows => placeRow prob cacheSize i;; placeRows prob (cacheSize + 1) rows
  end.

(** The batches; a round takes at least one of the remaining states, so the fuel
    is their number. *)
Fixpoint batches (fuel : nat) (h : lmheap) (maxBatchSize longestHistory cacheSize : Z) (states : list lmptr) : St unit :=
  match fuel, states with
  | _, [] => mret tt
  | O, _ => throw Undefined
  | S fuel, _ =>
      '(positions, n, rest) ← selectBatch h maxBatchSize longestHistory cacheSize [] 0 states;
      if (n =? 0) && bool_decide (rest = []) then mret tt
      else if (n <? 1) || (longestHistory <? 1) then throw LogicError
      else
        s ← get;
        prob ← lift (getConvLmScoreFunc_ (batchedTokens_ s) positions longestHistory n);
        if negb (zlen prob =? vocabSize_ s * n) then throw LogicError
        else
          cacheSize ← placeRows prob cacheSize (zrange 0 n);
          batches fuel h maxBatchSize longestHistory cacheSize rest
  end.

Definition updateCache (h : lmheap) (states : list lmptr) : St unit :=
  s ← get;
  let nStates := zlen states in
  if beamSize_ s <? nStates then throw InvalidArgument
  else
    '(slot_, longestHistory) ← fillSlots h states (replicate (Z.to_nat (beamSize_ s)) None) (-1);
    modify (set_indices ∅);;
    cacheSize ← moveRows slot_ 0 0;
    if longestHistory <=? 0 then mret tt
    else
      let maxBatchSize := Z.min (Z.quot (lmMemory_ s) longestHistory) nStates in
      batches (length states) h maxBatchSize longestHistory cacheSize states.
End ConvLM.

(** * The scoring function *)

Section ConvLmModule.
(** [network->forward] on a batch of [sampleSize] by [batchSize] tokens: the
    dimensions of its output and its values, the first dimension fastest. *)
Variable forward : Z -> Z -> list Z -> result (Z * Z * Z * list f32).

Definition globalIndices (C T : Z) (lastTokenPositions : list Z) : list Z :=
  flat_map (fun '(b, pos) => map (fun c => c + b * T * C + pos * C) (zrange 0 C))
    (combine (zrange 0 (zlen lastTokenPositions)) lastTokenPositions).

Definition buildGetConvLmScoreFunction (inputs lastTokenPositions : list Z) (sampleSize batchSize : Z) : result (list f32) :=
  let sampleSize := if 0 <? sampleSize then sampleSize else zlen inputs in
  if zlen inputs <? sampleSize * batchSize then Throw InvalidArgument
  else
    inputData ← vec_range inputs 0 (sampleSize * batchSize);
    '(C, T, B, output) ← forward sampleSize batchSize inputData;
    if negb (Z.of_nat (length (filter (fun x => is_nan x = true) output)) =? 0) then Throw RuntimeError
    else if negb (B =? batchSize) then Throw LogicError
    else if negb (batchSize =? zlen lastTokenPositions) then Throw LogicError
    else mapM_result (vec_get output) (globalIndices C T lastTokenPositions).
End ConvLmModule.
