(* ===== verification/ConvLMProofs.v ===== *)
(** The cache of the convolutional language model is transparent.

    Under the hypotheses that the scoring function treats the rows of a batch
    independently and that a network without the cache gives the scores [g] of a
    history, a client that does not reuse the address of a cached state sees the
    model without a cache: every query returns the history with the token
    appended (its last [maxHistorySize_] tokens) and the score [g] gives.  The
    hypotheses are proved for [buildGetConvLmScoreFunction] over a causal
    network. *)
From S2P Require Import Prelude Vectors Float Strings Dictionary DictUtils ConvLM.

Open Scope Z_scope.

(** Runs the monad on a state. *)
Ltac run_st := unfold mbind, St_bind, mret, St_ret, modify, ConvLM.get, lift, throw; cbv beta iota zeta.

(** * Histories *)

Definition wfState (maxH : Z) (st : ConvLMState) : Prop :=
  length_ st = zlen (tokens st) /\ tokens st <> [] /\ zlen (tokens st) <= maxH.

Definition nextTokens (maxH : Z) (t : list Z) (tok : Z) : list Z :=
  (if zlen t =? maxH then drop 1 t else t) ++ [tok].

(** Copying a prefix, then the last element. *)
Lemma copy_set (src : list Z) n tok :
  n = zlen src -> (t ← vec_copy src (replicate (Z.to_nat (n + 1)) 0) 0; vec_set t n tok) = Ok (src ++ [tok]).
Proof.
  intros ->. pose proof (zlen_nonneg src). unfold vec_copy. rewrite decide_True by (rewrite zlen_replicate; lia). cbn [mbind result_bind].
  unfold vec_set. change (Z.to_nat 0) with 0%nat. rewrite take_0. cbn [app Nat.add]. rewrite drop_replicate.
  replace (Z.to_nat (zlen src + 1) - length src)%nat with 1%nat by (unfold zlen; lia). cbn [replicate].
  rewrite decide_True by (rewrite zlen_app; change (zlen [0]) with 1; lia). f_equal.
  replace (Z.to_nat (zlen src)) with (length src + 0)%nat by (unfold zlen; lia). by rewrite insert_app_r.
Qed.

Lemma nextState_ok maxH st tok :
  wfState maxH st ->
  nextState maxH st tok = Ok (MkState (nextTokens maxH (tokens st) tok) (zlen (nextTokens maxH (tokens st) tok))) /\
  wfState maxH (MkState (nextTokens maxH (tokens st) tok) (zlen (nextTokens maxH (tokens st) tok))).
Proof.
  intros (Hl & Hne & Hm). unfold nextState, nextTokens. rewrite Hl. destruct (tokens st) as [|x t] eqn:Et; [done|].
  change (drop 1 (x :: t)) with t. rewrite zlen_cons in *. pose proof (zlen_nonneg t). destruct (Z.eqb_spec (1 + zlen t) maxH) as [E|E].
  - cbn [tokens ConvLMState_new length_]. pose proof (copy_set t (maxH - 1) tok) as C. replace (maxH - 1 + 1) with maxH in C by lia.
    destruct (vec_copy _ _ _) as [t'|] eqn:Ec; cbn [mbind result_bind] in C |- *; [|specialize (C ltac:(lia)); done].
    rewrite C by lia. cbn [mbind result_bind]. rewrite zlen_app. change (zlen [tok]) with 1. replace (zlen t + 1) with maxH by lia.
    split; [do 2 f_equal; lia|]. split; [cbn; rewrite zlen_app; change (zlen [tok]) with 1; lia|]. split; [by destruct t|].
    cbn [tokens]. rewrite zlen_app. change (zlen [tok]) with 1. lia.
  - cbn [tokens ConvLMState_new length_]. pose proof (copy_set (x :: t) (1 + zlen t) tok) as C.
    destruct (vec_copy _ _ _) as [t'|] eqn:Ec; cbn [mbind result_bind] in C |- *; [|specialize (C ltac:(by rewrite zlen_cons)); done].
    rewrite C by (by rewrite zlen_cons). cbn [mbind result_bind]. rewrite zlen_app, zlen_cons. change (zlen [tok]) with 1.
    split; [do 2 f_equal; lia|]. split; [cbn [tokens length_]; rewrite zlen_app, zlen_cons; done|]. split; [done|].
    cbn [tokens]. rewrite zlen_app, zlen_cons. change (zlen [tok]) with 1. lia.
Qed.

(** * The cache *)

Section Cache.
Context (f : list Z -> list Z -> Z -> Z -> result (list f32)) (g : list Z -> list f32) (V : Z).
Context (g_size : forall t, zlen (g t) = V).
Context (f_single : forall t, t <> [] -> f t [zlen t - 1] (-1) 1 = Ok (g t)).
Context (f_batch : forall buf rows L,
  rows <> [] -> 0 < L -> zlen rows * L <= zlen buf ->
  (forall i r, rows !! i = Some r -> r <> [] /\ zlen r <= L) ->
  (forall i r j, rows !! i = Some r -> 0 <= j < zlen r -> vec_get buf (Z.of_nat i * L + j) = vec_get r j) ->
  f buf (map (fun r => zlen r - 1) rows) L (zlen rows) = Ok (concat (map g rows))).

(** The members that no operation changes. *)
Record params (s : ConvLM) : Prop := {
  p_vocab : vocabSize_ s = V;
  p_history : 1 <= maxHistorySize_ s;
  p_beam : 1 <= beamSize_ s;
  p_memory : maxHistorySize_ s <= lmMemory_ s;
  p_pad : exists pad, getIndex (vocab_ s) kPadToken = Ok pad;
}.

(** The rows of the cache: every indexed state still in the heap has its scores
    in its row, and the rows used are the first ones, each by one state. *)
Record cached (h : lmheap) (s : ConvLM) : Prop := {
  c_cache : zlen (cache_ s) = beamSize_ s;
  c_rows : forall i row, vec_get (cache_ s) i = Ok row -> zlen row = V;
  c_batch : zlen (batchedTokens_ s) = beamSize_ s * maxHistorySize_ s;
  c_size : Z.of_nat (size (cacheIndices_ s)) <= beamSize_ s;
  c_range : forall p i, cacheIndices_ s !! p = Some i -> 0 <= i < Z.of_nat (size (cacheIndices_ s));
  c_inj : forall p q i, cacheIndices_ s !! p = Some i -> cacheIndices_ s !! q = Some i -> p = q;
  c_scores : forall p i st, cacheIndices_ s !! p = Some i -> h !! p = Some st -> vec_get (cache_ s) i = Ok (g (tokens st));
}.

Definition same_params (s s' : ConvLM) : Prop :=
  lmMemory_ s' = lmMemory_ s /\ beamSize_ s' = beamSize_ s /\ maxHistorySize_ s' = maxHistorySize_ s /\
  vocab_ s' = vocab_ s /\ vocabSize_ s' = vocabSize_ s /\ usrToLmIdxMap_ s' = usrToLmIdxMap_ s.

Lemma cached_empty h s : 0 <= beamSize_ s -> cached h s -> cached h (set_indices ∅ s).
Proof. intros Hb C. destruct C. split; cbn; try done; intros *; rewrite lookup_empty; done. Qed.

(** A new row at the end. *)
Lemma cached_insert h s p st cache :
  cached h s -> cacheIndices_ s !! p = None -> h !! p = Some st -> Z.of_nat (size (cacheIndices_ s)) < beamSize_ s ->
  vec_set (cache_ s) (Z.of_nat (size (cacheIndices_ s))) (g (tokens st)) = Ok cache ->
  cached h (set_cache cache (set_indices (<[p := Z.of_nat (size (cacheIndices_ s))]> (cacheIndices_ s)) s)).
Proof.
  intros C Hp Hst Hb Hset. destruct C. set (n := Z.of_nat (size (cacheIndices_ s))) in *.
  destruct (vec_set_ok (cache_ s) n (g (tokens st))) as (l & Hl & Hz & Hget); [unfold n in *; lia|].
  rewrite Hl in Hset. injection Hset as <-. split; cbn; rewrite ?map_size_insert_None by done; try done.
  - lia.
  - intros i row Hrow. pose proof (vec_get_lt _ _ _ Hrow). rewrite Hget in Hrow by lia. case_decide; [injection Hrow as <-; done|]. by eapply c_rows0.
  - lia.
  - intros q i [[<- <-]|[_ Hq]]%lookup_insert_Some; [lia|]. pose proof (c_range0 _ _ Hq). lia.
  - intros q q' i [[<- <-]|[_ Hq]]%lookup_insert_Some [[<- Hi]|[_ Hq']]%lookup_insert_Some; try done.
    + pose proof (c_range0 _ _ Hq'). lia.
    + pose proof (c_range0 _ _ Hq). lia.
    + by eapply c_inj0.
  - intros q i st' Hq Hst'. apply lookup_insert_Some in Hq as [[<- <-]|[Hne Hq]].
    + rewrite Hget by lia. rewrite decide_True by done. congruence.
    + pose proof (c_range0 _ _ Hq). rewrite Hget by lia. rewrite decide_False by lia. by eapply c_scores0.
Qed.

Lemma scoreMiss_ok h s p st tok :
  params s -> cached h s -> cacheIndices_ s !! p = None -> h !! p = Some st -> wfState (maxHistorySize_ s) st -> 0 <= tok < V ->
  exists s' x, scoreMiss f p st tok s = (s', Ok x) /\ vec_get (g (tokens st)) tok = Ok x /\ cached h s' /\ same_params s s'.
Proof.
  intros P C Hp Hst (Hl & Hne & Hm) Ht. pose proof (p_beam _ P) as Hb.
  destruct (vec_get_is_Ok (g (tokens st)) tok) as [x Hx]; [by rewrite g_size|].
  set (s0 := if Z.of_nat (size (cacheIndices_ s)) =? beamSize_ s then set_indices ∅ s else s).
  assert (cached h s0 /\ cacheIndices_ s0 !! p = None /\ Z.of_nat (size (cacheIndices_ s0)) < beamSize_ s0 /\ same_params s s0) as (C0 & Hp0 & Hb0 & E0).
  { unfold s0. destruct (Z.eqb_spec (Z.of_nat (size (cacheIndices_ s))) (beamSize_ s)).
    - split; [apply cached_empty; [lia|done]|]. split; [apply lookup_empty|]. split; [cbn [cacheIndices_ set_indices beamSize_]; rewrite map_size_empty; lia|]. by repeat split.
    - split; [done|]. split; [done|]. split; [|by repeat split]. pose proof (c_size _ _ C). lia. }
  destruct (vec_set_ok (cache_ s0) (Z.of_nat (size (cacheIndices_ s0))) (g (tokens st))) as (cache & Hset & _); [rewrite (c_cache _ _ C0); lia|].
  eexists _, x. split; [|split; [done|]; split; [by apply (cached_insert h s0 p st cache)|]].
  - unfold scoreMiss. run_st. fold s0. cbn [cache_ set_indices cacheIndices_]. rewrite Hl, f_single by done. rewrite Hset. by rewrite Hx.
  - destruct E0 as (?&?&?&?&?&?). by repeat split.
Qed.

Lemma St_bind_ok {A B} (m : St A) (k : A -> St B) s s' a : m s = (s', Ok a) -> (m ≫= k) s = k a s'.
Proof. unfold mbind, St_bind. by intros ->. Qed.

Lemma same_params_trans s1 s2 s3 : same_params s1 s2 -> same_params s2 s3 -> same_params s1 s3.
Proof. intros (?&?&?&?&?&?) (?&?&?&?&?&?). repeat split; congruence. Qed.

Lemma same_params_params s s' : same_params s s' -> params s -> params s'.
Proof. intros (E1&E2&E3&E4&E5&E6) []. split; rewrite ?E1, ?E2, ?E3, ?E4, ?E5; done. Qed.

(** A query, from any state of the cache. *)
Lemma scoreWithLmIdx_ok h s p st tok :
  params s -> cached h s -> h !! p = Some st -> wfState (maxHistorySize_ s) st -> 0 <= tok < V ->
  (forall x, vec_get (g (tokens st)) tok = Ok x -> f_finite x = true) ->
  exists s' x, scoreWithLmIdx f h p tok s =
      (s', Ok (MkState (nextTokens (maxHistorySize_ s) (tokens st) tok) (zlen (nextTokens (maxHistorySize_ s) (tokens st) tok)), x)) /\
    vec_get (g (tokens st)) tok = Ok x /\ cached h s' /\ same_params s s'.
Proof.
  intros P C Hst W Ht Hfin.
  assert (exists s' x, match cacheIndices_ s !! p with
            | Some cacheInd =>
                if (cacheInd <? 0) || (beamSize_ s <=? cacheInd) then throw LogicError
                else row ← lift (vec_get (cache_ s) cacheInd); lift (vec_get row tok)
            | None => scoreMiss f p st tok
            end s = (s', Ok x) /\ vec_get (g (tokens st)) tok = Ok x /\ cached h s' /\ same_params s s') as (s' & x & Hs & Hx & C' & E').
  { destruct (cacheIndices_ s !! p) as [i|] eqn:Hp; [|by apply (scoreMiss_ok h)].
    destruct (vec_get_is_Ok (g (tokens st)) tok) as [x Hx]; [by rewrite g_size|]. exists s, x.
    pose proof (c_range _ _ C _ _ Hp). pose proof (c_size _ _ C).
    rewrite (proj2 (Z.ltb_ge i 0)), (proj2 (Z.leb_gt _ i)) by lia. cbn [orb]. run_st.
    rewrite (c_scores _ _ C _ _ _ Hp Hst), Hx. split; [done|]. split; [done|]. split; [done|]. by repeat split. }
  exists s', x. split; [|done]. unfold scoreWithLmIdx, deref. rewrite Hst. unfold lift at 1.
  rewrite (St_bind_ok _ _ s s st) by done. rewrite (St_bind_ok ConvLM.get _ s s s) by done.
  rewrite (proj1 (nextState_ok _ _ tok W)). erewrite St_bind_ok by (unfold lift; reflexivity). rewrite (p_vocab _ P).
  rewrite (proj2 (Z.ltb_ge tok 0)), (proj2 (Z.leb_gt V tok)) by lia. cbn [orb].
  erewrite St_bind_ok by exact Hs. by rewrite Hfin.
Qed.

(** ** The states kept *)

Definition slotsOk (s : ConvLM) (slot : list (option lmptr)) : Prop :=
  zlen slot = beamSize_ s /\ forall k p, slot !! k = Some (Some p) -> cacheIndices_ s !! p = Some (Z.of_nat k).

Definition inHeap (maxH : Z) (h : lmheap) (states : list lmptr) : Prop :=
  Forall (fun p => exists st, h !! p = Some st /\ wfState maxH st) states.

Lemma fillSlots_ok h s states slot longest :
  cached h s -> inHeap (maxHistorySize_ s) h states -> slotsOk s slot ->
  exists slot' longest', fillSlots h states slot longest s = (s, Ok (slot', longest')) /\ slotsOk s slot' /\
    (forall p, p ∈ states -> is_Some (cacheIndices_ s !! p) -> Some p ∈ slot') /\
    (forall p, Some p ∈ slot -> Some p ∈ slot') /\ (forall p, Some p ∈ slot' -> Some p ∈ slot \/ p ∈ states) /\
    longest <= longest' <= Z.max longest (maxHistorySize_ s) /\
    (forall p st, p ∈ states -> cacheIndices_ s !! p = None -> h !! p = Some st -> length_ st <= longest').
Proof.
  intros C. revert slot longest. induction states as [|p states IH]; intros slot longest Hh Hs.
  { exists slot, longest. split; [done|]. split; [done|]. split; [by intros ? ?%list_elem_of_In|]. split; [done|]. split; [by left|].
    split; [lia|]. by intros ? ? ?%list_elem_of_In. }
  apply Forall_cons in Hh as [(st & Hst & W) Hh]. cbn [fillSlots]. rewrite (St_bind_ok ConvLM.get _ s s s) by done.
  destruct (cacheIndices_ s !! p) as [i|] eqn:Hp.
  - pose proof (c_range _ _ C _ _ Hp). pose proof (c_size _ _ C). destruct Hs as [Hl Hs].
    unfold vec_set. rewrite decide_True by lia. erewrite St_bind_ok by (unfold lift; reflexivity).
    assert (Hi : (Z.to_nat i < length slot)%nat) by (unfold zlen in Hl; lia).
    destruct (IH (<[Z.to_nat i := Some p]> slot) longest Hh) as (slot' & longest' & E & Hs' & K1 & K2 & K3 & K4 & K5).
    { split; [unfold zlen in *; by rewrite length_insert|]. intros k q Hk.
      apply list_lookup_insert_Some in Hk as [(<- & Hq & _)|[_ Hk]]; [|by apply Hs]. injection Hq as <-. rewrite Hp. f_equal. lia. }
    assert (Hin : Some p ∈ slot').
    { apply K2. apply list_elem_of_lookup. exists (Z.to_nat i). by apply list_lookup_insert_eq. }
    exists slot', longest'. split; [done|]. split; [done|]. split; [|split; [|split; [|split; [done|]]]].
    + intros q [->|Hq]%elem_of_cons Hsome; [done|by apply K1].
    + intros q (k & Hk)%list_elem_of_lookup. destruct (decide (k = Z.to_nat i)) as [->|Hne].
      * apply Hs in Hk as Hq. assert (q = p) as ->; [|done]. apply (c_inj _ _ C _ _ _ Hq). rewrite Hp. f_equal. lia.
      * apply K2. apply list_elem_of_lookup. exists k. by rewrite list_lookup_insert_ne.
    + intros q Hq. destruct (K3 q Hq) as [(k & Hk)%list_elem_of_lookup|Hq']; [|right; by right].
      apply list_lookup_insert_Some in Hk as [(_ & [= <-] & _)|[_ Hk]]; [right; left|left; apply list_elem_of_lookup; by exists k].
    + intros q st' [->|Hq]%elem_of_cons Hn Hst'; [congruence|by eapply K5].
  - unfold deref. rewrite Hst. erewrite St_bind_ok by (unfold lift; reflexivity). destruct W as (Wl & Wn & Wm).
    set (l1 := if longest <? length_ st then length_ st else longest).
    assert (l1 = Z.max longest (length_ st)) as El by (unfold l1; destruct (Z.ltb_spec longest (length_ st)); lia).
    destruct (IH slot l1 Hh Hs) as (slot' & longest' & E & Hs' & K1 & K2 & K3 & K4 & K5).
    exists slot', longest'. split; [done|]. split; [done|]. split; [|split; [done|split; [|split; [lia|]]]].
    + intros q [->|Hq]%elem_of_cons Hsome; [by rewrite Hp in Hsome; destruct Hsome|by apply K1].
    + intros q Hq. destruct (K3 q Hq) as [?|?]; [by left|right; by right].
    + intros q st' [->|Hq]%elem_of_cons Hn Hst'; [|by eapply K5]. rewrite Hst in Hst'. injection Hst' as <-. lia.
Qed.

Lemma moveRows_ok h slot : forall i n s,
  cached h s -> n = Z.of_nat (size (cacheIndices_ s)) -> n <= i -> i + zlen slot = beamSize_ s ->
  (forall k p, slot !! k = Some (Some p) -> cacheIndices_ s !! p = None /\
     exists st, h !! p = Some st /\ vec_get (cache_ s) (i + Z.of_nat k) = Ok (g (tokens st))) ->
  (forall k1 k2 p, slot !! k1 = Some (Some p) -> slot !! k2 = Some (Some p) -> k1 = k2) ->
  exists s', moveRows slot i n s = (s', Ok (Z.of_nat (size (cacheIndices_ s')))) /\ cached h s' /\ same_params s s' /\
    forall p, is_Some (cacheIndices_ s' !! p) <-> is_Some (cacheIndices_ s !! p) \/ Some p ∈ slot.
Proof.
  induction slot as [|o slot IH]; intros i n s C -> Hi Hlen Hs Hd.
  { exists s. split; [done|]. split; [done|]. split; [by repeat split|]. intros p. rewrite elem_of_nil. naive_solver. }
  rewrite zlen_cons in Hlen. pose proof (zlen_nonneg slot). destruct o as [p|]; cbn [moveRows].
  - destruct (Hs 0%nat p eq_refl) as (Hp & st & Hst & Hrow). rewrite Z.add_0_r in Hrow.
    rewrite (St_bind_ok ConvLM.get _ s s s) by done. rewrite Hrow. erewrite St_bind_ok by (unfold lift; reflexivity).
    set (n := Z.of_nat (size (cacheIndices_ s))) in *.
    destruct (vec_set_ok (cache_ s) n (g (tokens st))) as (cache & Hset & Hz & Hget); [rewrite (c_cache _ _ C); lia|].
    rewrite Hset. erewrite St_bind_ok by (unfold lift; reflexivity). do 2 (erewrite St_bind_ok by (unfold modify; reflexivity)).
    pose proof (cached_insert h s p st cache C Hp Hst ltac:(lia) Hset) as C1.
    match type of C1 with cached _ ?x => change (set_indices _ (set_cache cache s)) with x; set (s1 := x) in * end.
    destruct (IH (i + 1) (n + 1) s1) as (s' & E & C' & Ep & Hdom).
    + done.
    + cbn. rewrite map_size_insert_None by done. lia.
    + lia.
    + cbn. lia.
    + intros k q Hk. destruct (Hs (S k) q Hk) as (Hq & st' & Hst' & Hrow'). cbn. split.
      * apply lookup_insert_None. split; [done|]. intros ->. by specialize (Hd 0%nat (S k) q eq_refl Hk).
      * exists st'. split; [done|]. rewrite Hget by lia. rewrite decide_False by lia. rewrite <- Hrow'. f_equal. lia.
    + intros k1 k2 q H1 H2. specialize (Hd (S k1) (S k2) q H1 H2). lia.
    + exists s'. split; [exact E|]. split; [done|]. split.
      * destruct Ep as (?&?&?&?&?&?). by repeat split.
      * intros q. rewrite Hdom. cbn. rewrite elem_of_cons, lookup_insert_is_Some'. naive_solver.
  - destruct (IH (i + 1) _ s C eq_refl) as (s' & E & C' & Ep & Hdom); [lia|lia| | |].
    + intros k q Hk. destruct (Hs (S k) q Hk) as (Hq & st' & Hst' & Hrow'). split; [done|]. exists st'. split; [done|]. rewrite <- Hrow'. f_equal. lia.
    + intros k1 k2 q H1 H2. specialize (Hd (S k1) (S k2) q H1 H2). lia.
    + exists s'. split; [exact E|]. split; [done|]. split; [done|]. intros q. rewrite Hdom, elem_of_cons. naive_solver.
Qed.

(** ** A batch *)

(** Consecutive rows given to states. *)
Fixpoint assign (m : gmap lmptr Z) (k : Z) (sel : list lmptr) : gmap lmptr Z :=
  match sel with [] => m | p :: sel => assign (<[p := k]> m) (k + 1) sel end.

Lemma assign_lookup m k sel p i :
  NoDup sel -> (forall q, q ∈ sel -> m !! q = None) ->
  assign m k sel !! p = Some i <-> m !! p = Some i \/ exists j, sel !! j = Some p /\ i = k + Z.of_nat j.
Proof.
  intros Hd. revert m k. induction Hd as [|q sel Hq Hd IH]; intros m k Hm; cbn [assign].
  { split; [by left|]. intros [?|(j & Hj & _)]; [done|]. by rewrite lookup_nil in Hj. }
  rewrite IH.
  2:{ intros q' Hq'. apply lookup_insert_None. split; [apply Hm; by right|]. intros ->. done. }
  rewrite lookup_insert_Some. split.
  - intros [[[<- <-]|[? ?]]|(j & Hj & ->)]; [right; exists 0%nat; split; [done|lia]|by left|].
    right. exists (S j). split; [done|lia].
  - intros [Hp|([|j] & Hj & ->)].
    + left. right. split; [|done]. intros ->. rewrite Hm in Hp; [done|left].
    + left. left. injection Hj as ->. split; [done|lia].
    + right. exists j. split; [done|lia].
Qed.

Lemma assign_size m k sel :
  NoDup sel -> (forall q, q ∈ sel -> m !! q = None) -> size (assign m k sel) = (size m + length sel)%nat.
Proof.
  intros Hd. revert m k. induction Hd as [|q sel Hq Hd IH]; intros m k Hm; cbn [assign length]; [lia|].
  rewrite IH, map_size_insert_None; [lia|apply Hm; left|].
  intros q' Hq'. apply lookup_insert_None. split; [apply Hm; by right|]. intros ->. done.
Qed.

Lemma assign_app m k sel p : assign m k (sel ++ [p]) = <[p := k + zlen sel]> (assign m k sel).
Proof.
  revert m k. induction sel as [|q sel IH]; intros m k; cbn [assign app].
  - by rewrite Z.add_0_r.
  - rewrite IH, zlen_cons. by rewrite Z.add_assoc.
Qed.

Lemma writeTokens_ok L pad start st b :
  length_ st = zlen (tokens st) -> zlen (tokens st) <= L -> 0 <= start -> start + L <= zlen b ->
  exists b', writeTokens L pad start st b = Ok b' /\ zlen b' = zlen b /\
    (forall j, 0 <= j < zlen (tokens st) -> vec_get b' (start + j) = vec_get (tokens st) j) /\
    (forall j, 0 <= j < start -> vec_get b' j = vec_get b j).
Proof.
  intros Hl HL Hs Hb. pose proof (zlen_nonneg (tokens st)). unfold writeTokens. rewrite Hl.
  destruct (loop_up_ok (fun n b1 => zlen b1 = zlen b /\ (forall j, 0 <= j < n -> vec_get b1 (start + j) = vec_get (tokens st) j) /\
    (forall j, 0 <= j < start -> vec_get b1 j = vec_get b j)) 0 (zlen (tokens st))
    (fun b j => x ← vec_get (tokens st) j; vec_set b (start + j) x) b) as (b1 & -> & Z1 & T1 & O1); [lia|split; [done|split; [lia|done]]| |].
  { intros i b1 Hi (Z1 & T1 & O1). destruct (vec_get_is_Ok (tokens st) i Hi) as [x Hx]. rewrite Hx. cbn [mbind result_bind].
    destruct (vec_set_ok b1 (start + i) x) as (b2 & -> & Z2 & G2); [lia|]. exists b2. split; [done|]. split; [lia|]. split; intros j Hj; rewrite G2 by lia.
    - destruct (decide (start + j = start + i)); [replace j with i by lia; done|]. apply T1. lia.
    - rewrite decide_False by lia. by apply O1. }
  cbn [mbind result_bind].
  destruct (loop_up_ok (fun n b2 => zlen b2 = zlen b /\ (forall j, 0 <= j < start + zlen (tokens st) -> vec_get b2 j = vec_get b1 j)) 0 (L - zlen (tokens st))
    (fun b j => vec_set b (start + zlen (tokens st) + j) pad) b1) as (b2 & -> & Z2 & O2); [lia|done| |].
  { intros i b2 Hi (Z2 & O2). destruct (vec_set_ok b2 (start + zlen (tokens st) + i) pad) as (b3 & -> & Z3 & G3); [lia|].
    exists b3. split; [done|]. split; [lia|]. intros j Hj. rewrite G3 by lia. rewrite decide_False by lia. by apply O2. }
  exists b2. split; [done|]. split; [done|]. split; intros j Hj; rewrite O2 by lia; [by apply T1|by apply O1].
Qed.

(** The states selected so far, and their histories in the batch. *)
Record selected (h : lmheap) (m : gmap lmptr Z) (base L : Z) (s0 s : ConvLM) (sel : list lmptr) (rows : list (list Z)) : Prop := {
  s_nodup : NoDup sel;
  s_fresh : forall q, q ∈ sel -> m !! q = None;
  s_indices : cacheIndices_ s = assign m base sel;
  s_rows : Forall2 (fun p r => exists st, h !! p = Some st /\ r = tokens st) sel rows;
  s_lengths : Forall (fun r => r <> [] /\ zlen r <= L) rows;
  s_batch : forall k r j, rows !! k = Some r -> 0 <= j < zlen r -> vec_get (batchedTokens_ s) (Z.of_nat k * L + j) = vec_get r j;
  s_size : zlen (batchedTokens_ s) = zlen (batchedTokens_ s0);
  s_cache : cache_ s = cache_ s0;
  s_params : same_params s0 s;
}.

Lemma selected_lookup h m base L s0 s sel rows p :
  selected h m base L s0 s sel rows -> is_Some (cacheIndices_ s !! p) <-> is_Some (m !! p) \/ p ∈ sel.
Proof.
  intros I. rewrite (s_indices _ _ _ _ _ _ _ _ I). split.
  - intros [i [Hi|(j & Hj & _)]%(assign_lookup _ _ _ _ _ (s_nodup _ _ _ _ _ _ _ _ I) (s_fresh _ _ _ _ _ _ _ _ I))]; [left; by exists i|].
    right. apply list_elem_of_lookup. by exists j.
  - intros [[i Hi]|(j & Hj)%list_elem_of_lookup]; eexists;
      apply (assign_lookup _ _ _ _ _ (s_nodup _ _ _ _ _ _ _ _ I) (s_fresh _ _ _ _ _ _ _ _ I)); [by left|].
    right. by exists j.
Qed.

(** One more state. *)
Lemma selected_add h m base L s0 s sel rows p st b :
  selected h m base L s0 s sel rows -> cacheIndices_ s !! p = None -> h !! p = Some st -> tokens st <> [] -> zlen (tokens st) <= L ->
  zlen b = zlen (batchedTokens_ s) ->
  (forall j, 0 <= j < zlen (tokens st) -> vec_get b (zlen sel * L + j) = vec_get (tokens st) j) ->
  (forall j, 0 <= j < zlen sel * L -> vec_get b j = vec_get (batchedTokens_ s) j) ->
  selected h m base L s0 (set_batched b (set_indices (<[p := base + zlen sel]> (cacheIndices_ s)) s)) (sel ++ [p]) (rows ++ [tokens st]).
Proof.
  intros I Hp Hst Hne HL Hb Hnew Hold. pose proof (selected_lookup _ _ _ _ _ _ _ _ p I) as Hl.
  assert (p ∉ sel) as Hps by (intros ?; destruct (proj2 Hl ltac:(by right)); congruence).
  assert (m !! p = None) as Hm by (destruct (m !! p) eqn:E; [|done]; destruct (proj2 Hl ltac:(left; by eexists)); congruence).
  pose proof (Forall2_length _ _ _ (s_rows _ _ _ _ _ _ _ _ I)) as Hlen. destruct I.
  split; cbn [cacheIndices_ batchedTokens_ cache_ set_batched set_indices].
  - apply NoDup_app. split; [done|]. split; [|apply NoDup_singleton]. intros q Hq ->%list_elem_of_singleton. done.
  - intros q [Hq| ->%list_elem_of_singleton]%elem_of_app; [by apply s_fresh0|done].
  - by rewrite assign_app, s_indices0.
  - apply Forall2_app; [done|]. constructor; [by exists st|constructor].
  - apply Forall_app. split; [done|]. by constructor.
  - intros k r j [Hk|[Hge Hk]]%lookup_app_Some Hj.
    + rewrite Hold; [by apply s_batch0|]. pose proof (lookup_lt_Some _ _ _ Hk).
      destruct (Forall_lookup_1 _ _ _ _ s_lengths0 Hk) as [_ Hr]. unfold zlen in *. nia.
    + apply list_lookup_singleton_Some in Hk as [Hk <-]. replace (Z.of_nat k * L) with (zlen sel * L) by (unfold zlen; nia). by apply Hnew.
  - congruence.
  - done.
  - destruct s_params0 as (?&?&?&?&?&?). by repeat split.
Qed.

Lemma selectBatch_ok h m base L maxB s0 states : forall s sel rows,
  params s0 -> selected h m base L s0 s sel rows -> inHeap (maxHistorySize_ s0) h states ->
  (forall p st, p ∈ states -> m !! p = None -> h !! p = Some st -> length_ st <= L) ->
  0 < L -> maxB * L <= zlen (batchedTokens_ s0) -> zlen sel <= maxB ->
  exists s' sel' rows' pre rest,
    selectBatch h maxB L base (map (fun r => zlen r - 1) rows) (zlen sel) states s = (s', Ok (map (fun r => zlen r - 1) rows', zlen sel', rest)) /\
    selected h m base L s0 s' sel' rows' /\ states = pre ++ rest /\ zlen sel' <= maxB /\
    (forall p, p ∈ sel' -> p ∈ sel \/ p ∈ states) /\ (forall p, p ∈ sel -> p ∈ sel') /\
    (forall p, p ∈ pre -> is_Some (cacheIndices_ s' !! p)) /\ (rest = [] \/ (zlen sel' = maxB /\ (zlen sel < maxB -> pre <> []))).
Proof.
  induction states as [|p states IH]; intros s sel rows P I Hh Hlen HL Hsize Hn.
  { exists s, sel, rows, [], []. split; [done|]. split; [done|]. split; [done|]. split; [done|]. split; [by left|].
    split; [done|]. split; [by intros ? ?%elem_of_nil|by left]. }
  apply Forall_cons in Hh as [(st & Hst & Wl & Wn & Wm) Hh]. cbn [selectBatch].
  destruct (Z.ltb_spec (zlen sel) maxB) as [Hlt|Hge].
  2:{ exists s, sel, rows, [], (p :: states). split; [done|]. split; [done|]. split; [done|]. split; [done|]. split; [by left|].
      split; [done|]. split; [by intros ? ?%elem_of_nil|]. right. split; [lia|lia]. }
  rewrite (St_bind_ok ConvLM.get _ s s s) by done.
  pose proof (selected_lookup _ _ _ _ _ _ _ _ p I) as Hl.
  destruct (cacheIndices_ s !! p) as [i|] eqn:Hp.
  - destruct (IH s sel rows P I Hh) as (s' & sel' & rows' & pre & rest & E & I' & -> & Hn' & K1 & K2 & K3 & K4); try done.
    { intros q st' Hq. apply Hlen. by right. }
    exists s', sel', rows', (p :: pre), rest. split; [exact E|]. split; [done|]. split; [done|]. split; [done|]. split; [|split; [done|split]].
    + intros q Hq. destruct (K1 q Hq); [by left|right; by right].
    + intros q [->|Hq]%elem_of_cons; [|by apply K3]. apply (selected_lookup _ _ _ _ _ _ _ _ _ I').
      destruct (proj1 Hl ltac:(by eexists)); [by left|right; by apply K2].
    + destruct K4 as [->|[? _]]; [by left|right; done].
  - assert (m !! p = None) as Hm by (destruct (m !! p) eqn:E; [|done]; destruct (proj2 Hl ltac:(left; by eexists)); congruence).
    assert (zlen (tokens st) <= L) as HstL by (rewrite <- Wl; apply (Hlen p); [left|done|done]).
    unfold deref. rewrite Hst. erewrite St_bind_ok by (unfold lift; reflexivity). erewrite St_bind_ok by (unfold modify; reflexivity).
    assert (exists pad, (if length_ st <? L then getIndex (vocab_ s) kPadToken else Ok 0) = Ok pad) as [pad ->].
    { destruct (s_params _ _ _ _ _ _ _ _ I) as (_ & _ & _ & -> & _). case_match; [apply (p_pad _ P)|by exists 0]. }
    erewrite St_bind_ok by (unfold lift; reflexivity). pose proof (zlen_nonneg sel).
    destruct (writeTokens_ok L pad (zlen sel * L) st (batchedTokens_ s)) as (b & -> & Zb & Bn & Bo); [done|done|nia|rewrite (s_size _ _ _ _ _ _ _ _ I); nia|].
    erewrite St_bind_ok by (unfold lift; reflexivity). erewrite St_bind_ok by (unfold modify; reflexivity).
    pose proof (selected_add _ _ _ _ _ _ _ _ p st b I Hp Hst Wn HstL Zb Bn Bo) as I1.
    match type of I1 with selected _ _ _ _ _ ?x _ _ => set (s1 := x) in * end.
    assert (zlen (sel ++ [p]) = zlen sel + 1) as Ez by (rewrite zlen_app; done).
    destruct (IH s1 (sel ++ [p]) (rows ++ [tokens st]) P I1 Hh) as (s' & sel' & rows' & pre & rest & E & I' & -> & Hn' & K1 & K2 & K3 & K4); try done.
    { intros q st' Hq. apply Hlen. by right. }
    { lia. }
    exists s', sel', rows', (p :: pre), rest. rewrite map_app in E. cbn [map] in E. rewrite Ez, <- Wl in E.
    split; [exact E|]. split; [done|]. split; [done|]. split; [done|]. split; [|split; [|split]].
    + intros q Hq. destruct (K1 q Hq) as [[?| ->%list_elem_of_singleton]%elem_of_app|?]; [by left|right; left|right; by right].
    + intros q Hq. apply K2, elem_of_app. by left.
    + intros q [->|Hq]%elem_of_cons; [|by apply K3]. apply (selected_lookup _ _ _ _ _ _ _ _ _ I'). right. apply K2, elem_of_app. right. left.
    + destruct K4 as [->|[? _]]; [by left|right; done].
Qed.

(** ** Their scores *)

Lemma zlen_concat_g rows : zlen (concat (map g rows)) = V * zlen rows.
Proof.
  induction rows as [|r rows IH]; cbn [map concat]; [by rewrite Z.mul_0_r|]. rewrite zlen_app, g_size, IH, zlen_cons. lia.
Qed.

Lemma concat_range l1 r l2 : vec_range (concat (map g (l1 ++ r :: l2))) (V * zlen l1) (V * zlen l1 + V) = Ok (g r).
Proof.
  pose proof (zlen_concat_g l1) as Z1. pose proof (g_size r) as Zr. pose proof (zlen_nonneg (g r)). pose proof (zlen_nonneg (concat (map g l1))).
  rewrite map_app, concat_app. cbn [map concat]. pose proof (zlen_nonneg (concat (map g l2))).
  unfold vec_range. rewrite decide_True by (rewrite !zlen_app; lia). f_equal.
  replace (Z.to_nat (V * zlen l1)) with (length (concat (map g l1))) by (unfold zlen in *; lia). rewrite drop_app_length.
  replace (Z.to_nat (V * zlen l1 + V - V * zlen l1)) with (length (g r)) by (unfold zlen in *; lia). by rewrite take_app_length.
Qed.

Lemma placeRow_ok s base rows r rest :
  params s -> (forall i row, vec_get (cache_ s) i = Ok row -> zlen row = V) -> 0 <= base < zlen (cache_ s) ->
  exists c, placeRow (concat (map g (rows ++ r :: rest))) base (zlen rows) s = (set_cache c s, Ok tt) /\ zlen c = zlen (cache_ s) /\
    (forall j, 0 <= j -> vec_get c j = if decide (j = base) then Ok (g r) else vec_get (cache_ s) j).
Proof.
  intros P Hrows Hb. destruct (vec_get_is_Ok (cache_ s) base Hb) as [row Hrow]. pose proof (Hrows _ _ Hrow) as Zrow.
  destruct (vec_set_ok (cache_ s) base (g r) Hb) as (c & Hset & Hz & Hget). exists c. split; [|done].
  unfold placeRow. rewrite (St_bind_ok ConvLM.get _ s s s) by done. rewrite Hrow. erewrite St_bind_ok by (unfold lift; reflexivity).
  rewrite (p_vocab _ P), concat_range. erewrite St_bind_ok by (unfold lift; reflexivity).
  assert (vec_copy (g r) row 0 = Ok (g r)) as ->.
  { unfold vec_copy. rewrite decide_True by (rewrite g_size; lia). change (Z.to_nat 0) with 0%nat. rewrite take_0. cbn [app Nat.add].
    rewrite drop_ge by (pose proof (g_size r); unfold zlen in *; lia). by rewrite app_nil_r. }
  erewrite St_bind_ok by (unfold lift; reflexivity). rewrite Hset. by erewrite St_bind_ok by (unfold lift; reflexivity).
Qed.

Lemma placeRows_ok base all todo : forall s rows,
  all = rows ++ todo -> params s -> (forall i row, vec_get (cache_ s) i = Ok row -> zlen row = V) -> 0 <= base -> base + zlen todo <= zlen (cache_ s) ->
  exists c, placeRows (concat (map g all)) base (zrange (zlen rows) (zlen all)) s = (set_cache c s, Ok (base + zlen todo)) /\
    zlen c = zlen (cache_ s) /\ (forall k r, todo !! k = Some r -> vec_get c (base + Z.of_nat k) = Ok (g r)) /\
    (forall j, 0 <= j < base -> vec_get c j = vec_get (cache_ s) j) /\ (forall i row, vec_get c i = Ok row -> zlen row = V).
Proof.
  revert base. induction todo as [|r todo IH]; intros base s rows -> P Hrows Hb Hlen.
  { exists (cache_ s). rewrite app_nil_r, zrange_nil by lia. cbn [placeRows]. rewrite Z.add_0_r.
    split; [destruct s; reflexivity|]. split; [done|]. split; [by intros k r Hk; rewrite lookup_nil in Hk|]. split; [done|done]. }
  rewrite zlen_cons in Hlen. pose proof (zlen_nonneg todo).
  rewrite zrange_cons by (rewrite zlen_app, zlen_cons; lia). cbn [placeRows].
  destruct (placeRow_ok s base rows r todo P Hrows) as (c & Hp & Zc & Gc); [lia|]. erewrite St_bind_ok by exact Hp.
  destruct (IH (base + 1) (set_cache c s) (rows ++ [r])) as (c' & E & Zc' & K1 & K2 & K3).
  { by rewrite <- app_assoc. }
  { apply (same_params_params s); [by repeat split|done]. }
  { intros i row Hi. cbn in Hi. pose proof (vec_get_lt _ _ _ Hi). rewrite Gc in Hi by lia. case_decide; [injection Hi as <-; done|by eapply Hrows]. }
  { lia. }
  { cbn. lia. }
  exists c'. rewrite zlen_app in E. change (zlen [r]) with 1 in E. split; [|split; [|split; [|split; [|done]]]].
  - rewrite zlen_cons, Z.add_assoc. exact E.
  - cbn in Zc'. lia.
  - intros [|k] r' Hk; [injection Hk as <-|].
    + rewrite Z.add_0_r, K2 by lia. cbn. rewrite Gc by lia. by rewrite decide_True.
    + rewrite <- (K1 k r' Hk). f_equal. lia.
  - intros j Hj. rewrite K2 by lia. cbn. rewrite Gc by lia. by rewrite decide_False by lia.
Qed.

Lemma size_le (m : gmap lmptr Z) all : (forall p, is_Some (m !! p) -> p ∈ all) -> (size m <= length all)%nat.
Proof.
  intros Hall. rewrite <- length_map_to_list, <- (length_fmap fst). apply submseteq_length, NoDup_submseteq; [apply NoDup_fst_map_to_list|].
  intros p ([q i] & -> & Hq%elem_of_map_to_list)%list_elem_of_fmap. apply Hall. by exists i.
Qed.

(** The rows of a batch complete the cache. *)
Lemma selected_cached h L s s' sel rows c all :
  cached h s -> selected h (cacheIndices_ s) (Z.of_nat (size (cacheIndices_ s))) L s s' sel rows ->
  (forall p, is_Some (cacheIndices_ s !! p) \/ p ∈ sel -> p ∈ all) -> zlen all <= beamSize_ s ->
  zlen c = zlen (cache_ s) -> (forall i row, vec_get c i = Ok row -> zlen row = V) ->
  (forall k r, rows !! k = Some r -> vec_get c (Z.of_nat (size (cacheIndices_ s)) + Z.of_nat k) = Ok (g r)) ->
  (forall j, 0 <= j < Z.of_nat (size (cacheIndices_ s)) -> vec_get c j = vec_get (cache_ s) j) ->
  cached h (set_cache c s') /\ size (cacheIndices_ s') = (size (cacheIndices_ s) + length sel)%nat.
Proof.
  intros C I Hall Hb Zc Kr Kn Ko. pose proof (fun p => selected_lookup _ _ _ _ _ _ _ _ p I) as Hdom. destruct C.
  assert (Hsz : size (cacheIndices_ s') = (size (cacheIndices_ s) + length sel)%nat) by (rewrite (s_indices _ _ _ _ _ _ _ _ I); apply assign_size; apply I).
  set (n := Z.of_nat (size (cacheIndices_ s))) in *.
  assert (Hm : forall p i, cacheIndices_ s' !! p = Some i <-> cacheIndices_ s !! p = Some i \/ exists j, sel !! j = Some p /\ i = n + Z.of_nat j).
  { intros p i. rewrite (s_indices _ _ _ _ _ _ _ _ I). apply assign_lookup; apply I. }
  pose proof (size_le (cacheIndices_ s') all) as Hle. specialize (Hle ltac:(intros p Hp; apply Hall; by apply Hdom)).
  destruct (s_params _ _ _ _ _ _ _ _ I) as (E1 & E2 & E3 & E4 & E5 & E6).
  split; [|done]. split; cbn [cache_ set_cache cacheIndices_ beamSize_ batchedTokens_ maxHistorySize_].
  - rewrite E2. lia.
  - done.
  - rewrite E2, E3, (s_size _ _ _ _ _ _ _ _ I). done.
  - rewrite E2. unfold zlen in *. lia.
  - intros p i [Hi|(j & Hj & ->)]%Hm; [pose proof (c_range0 _ _ Hi); lia|]. apply lookup_lt_Some in Hj. lia.
  - intros p q i [Hi|(j & Hj & ->)]%Hm [Hq|(j' & Hj' & Heq)]%Hm.
    + by eapply c_inj0.
    + pose proof (c_range0 _ _ Hi). lia.
    + pose proof (c_range0 _ _ Hq). lia.
    + assert (j' = j) as -> by lia. congruence.
  - intros p i st [Hi|(j & Hj & ->)]%Hm Hst.
    + pose proof (c_range0 _ _ Hi). rewrite Ko by lia. by eapply c_scores0.
    + destruct (Forall2_lookup_l _ _ _ _ _ (s_rows _ _ _ _ _ _ _ _ I) Hj) as (r & Hr & st' & Hst' & ->). rewrite Hst in Hst'. injection Hst' as <-. by apply Kn.
Qed.

Lemma batches_ok h L maxB all fuel : forall s states,
  (length states <= fuel)%nat -> params s -> cached h s -> inHeap (maxHistorySize_ s) h states ->
  (forall p st, p ∈ states -> cacheIndices_ s !! p = None -> h !! p = Some st -> length_ st <= L) ->
  0 < L -> 1 <= maxB -> maxB * L <= beamSize_ s * maxHistorySize_ s ->
  (forall p, is_Some (cacheIndices_ s !! p) \/ p ∈ states -> p ∈ all) -> zlen all <= beamSize_ s ->
  exists s', batches f fuel h maxB L (Z.of_nat (size (cacheIndices_ s))) states s = (s', Ok tt) /\ cached h s' /\ same_params s s' /\
    forall p, is_Some (cacheIndices_ s' !! p) <-> is_Some (cacheIndices_ s !! p) \/ p ∈ states.
Proof.
  induction fuel as [|fuel IH]; intros s states Hf P C Hh Hlen HL HmB HmBL Hall Hb.
  { destruct states; [|cbn in Hf; lia]. exists s. split; [done|]. split; [done|]. split; [by repeat split|]. intros p. rewrite elem_of_nil. naive_solver. }
  destruct states as [|p0 states0]; [exists s; split; [done|]; split; [done|]; split; [by repeat split|]; intros p; rewrite elem_of_nil; naive_solver|].
  set (states := p0 :: states0) in *. cbn [batches]. set (base := Z.of_nat (size (cacheIndices_ s))).
  destruct (selectBatch_ok h (cacheIndices_ s) base L maxB s states s [] []) as (s1 & sel & rows & pre & rest & E & I & Es & Hn & K1 & _ & K3 & K4); try done.
  { split; [apply NoDup_nil_2|by intros ? ?%elem_of_nil|done|constructor|constructor| |done|done|by repeat split].
    intros k r j Hk. by rewrite lookup_nil in Hk. }
  { rewrite (c_batch _ _ C). lia. }
  { change (zlen (@nil lmptr)) with 0. lia. }
  change (zlen (@nil lmptr)) with 0 in E. cbn [map] in E. unfold states at 1. fold states. erewrite St_bind_ok by exact E.
  pose proof (selected_lookup _ _ _ _ _ _ _ _ p0 I) as _. pose proof (fun p => selected_lookup _ _ _ _ _ _ _ _ p I) as Hdom.
  pose proof (Forall2_length _ _ _ (s_rows _ _ _ _ _ _ _ _ I)) as Hrl. pose proof (zlen_nonneg sel) as Hsel0.
  destruct (Z.eqb_spec (zlen sel) 0) as [E0|Ne0].
  - assert (rest = []) as -> by (destruct K4 as [?|[? _]]; [done|lia]). rewrite bool_decide_eq_true_2 by done. cbn [andb].
    assert (sel = []) as -> by (destruct sel; [done|rewrite zlen_cons in E0; pose proof (zlen_nonneg sel); lia]).
    assert (rows = []) as -> by (by destruct rows). exists s1. split; [done|].
    destruct (selected_cached h L s s1 [] [] (cache_ s1) all C I) as [C1 _]; try done.
    { intros p [?|?%elem_of_nil]; [apply Hall; by left|done]. }
    { by rewrite (s_cache _ _ _ _ _ _ _ _ I). }
    { rewrite (s_cache _ _ _ _ _ _ _ _ I). apply C. }
    { intros j _. by rewrite (s_cache _ _ _ _ _ _ _ _ I). }
    split; [by destruct s1|]. split; [apply I|]. intros p. rewrite app_nil_r in Es. rewrite Hdom. split; [intros [?|?%elem_of_nil]; [by left|done]|].
    intros [?|Hp]; [by left|]. apply Hdom, K3. by rewrite <- Es.
  - rewrite (proj2 (Z.eqb_neq _ _) Ne0). cbn [andb]. rewrite (proj2 (Z.ltb_ge (zlen sel) 1)), (proj2 (Z.ltb_ge L 1)) by lia. cbn [orb].
    erewrite (St_bind_ok ConvLM.get _ s1 s1 s1) by done.
    assert (zlen sel = zlen rows) as Ezr by (unfold zlen; lia). rewrite Ezr.
    rewrite f_batch.
    2:{ intros ->. change (zlen (@nil (list Z))) with 0 in Ezr. lia. }
    2:{ done. }
    2:{ rewrite (s_size _ _ _ _ _ _ _ _ I), (c_batch _ _ C), <- Ezr. nia. }
    2:{ intros i r Hr. exact (Forall_lookup_1 _ _ _ _ (s_lengths _ _ _ _ _ _ _ _ I) Hr). }
    2:{ intros i r j Hr Hj. by apply (s_batch _ _ _ _ _ _ _ _ I). }
    erewrite St_bind_ok by (unfold lift; reflexivity).
    pose proof (same_params_params _ _ (s_params _ _ _ _ _ _ _ _ I) P) as P1.
    rewrite zlen_concat_g, (p_vocab _ P1), Z.eqb_refl. cbn [negb].
    assert (Hcap : base + zlen rows <= zlen (cache_ s)).
    { rewrite (c_cache _ _ C). pose proof (size_le (cacheIndices_ s1) all) as Hle.
      specialize (Hle ltac:(intros p Hp; apply Hdom in Hp as [?|Hp]; [apply Hall; by left|]; destruct (K1 _ Hp) as [?%elem_of_nil|?]; [done|apply Hall; by right])).
      assert (size (cacheIndices_ s1) = (size (cacheIndices_ s) + length sel)%nat) as Hsz by (rewrite (s_indices _ _ _ _ _ _ _ _ I); apply assign_size; apply I).
      unfold zlen, base in *. lia. }
    destruct (placeRows_ok base rows rows s1 []) as (c & Ep & Zc & Q1 & Q2 & Q3); [done|done| | | |].
    { rewrite (s_cache _ _ _ _ _ _ _ _ I). apply C. }
    { unfold base. lia. }
    { rewrite (s_cache _ _ _ _ _ _ _ _ I). exact Hcap. }
    change (zlen (@nil (list Z))) with 0 in Ep. erewrite St_bind_ok by exact Ep.
    rewrite (s_cache _ _ _ _ _ _ _ _ I) in Zc, Q2.
    destruct (selected_cached h L s s1 sel rows c all C I) as [C1 Hsz]; try done.
    { intros p [?|Hp]; [apply Hall; by left|]. destruct (K1 _ Hp) as [?%elem_of_nil|?]; [done|apply Hall; by right]. }
    replace (base + zlen rows) with (Z.of_nat (size (cacheIndices_ (set_cache c s1)))) by (cbn; rewrite Hsz; unfold base, zlen in *; lia).
    destruct (s_params _ _ _ _ _ _ _ _ I) as (E1 & E2 & E3 & E4 & E5 & E6).
    destruct (IH (set_cache c s1) rest) as (s' & Ef & C' & Ep' & Hd').
    { assert (length states = length pre + length rest)%nat as Hll by (by rewrite Es, length_app).
      destruct K4 as [->|[? Hpre]]; [cbn; lia|]. specialize (Hpre ltac:(change (zlen (@nil lmptr)) with 0; lia)). destruct pre; [done|]. cbn in *. lia. }
    { by apply (same_params_params s1). }
    { done. }
    { cbn. rewrite E3. unfold inHeap in *. rewrite Es in Hh. by apply Forall_app in Hh as [_ ?]. }
    { intros p st Hp Hnone. apply Hlen; [rewrite Es; apply elem_of_app; by right|]. cbn in Hnone.
      destruct (cacheIndices_ s !! p) eqn:Ec; [|done]. destruct (proj2 (Hdom p) ltac:(left; by eexists)). congruence. }
    { done. }
    { done. }
    { cbn. rewrite E2, E3. done. }
    { intros p [Hp|Hp]; [cbn in Hp; apply Hdom in Hp as [?|Hp]; [apply Hall; by left|]; destruct (K1 _ Hp) as [?%elem_of_nil|?]; [done|apply Hall; by right]|].
      apply Hall. right. rewrite Es. apply elem_of_app. by right. }
    { cbn. by rewrite E2. }
    exists s'. split; [exact Ef|]. split; [done|]. split; [apply (same_params_trans _ s1); [by repeat split|exact Ep']|].
    intros p. rewrite Hd'. cbn. rewrite Hdom. split.
    + intros [[?|Hp]|Hp]; [by left|right; destruct (K1 _ Hp) as [?%elem_of_nil|?]; done|right; rewrite Es; apply elem_of_app; by right].
    + intros [?|Hp]; [left; by left|]. rewrite Es in Hp. apply elem_of_app in Hp as [Hp|Hp]; [left; by apply Hdom, K3|by right].
Qed.

(** ** The whole refresh *)

Lemma elem_replicate_None n (p : lmptr) : Some p ∈ replicate n (None : option lmptr) -> False.
Proof. intros [_ [=]]%elem_of_replicate || (intros Hp%elem_of_replicate; naive_solver). Qed.

Lemma updateCache_ok h s states :
  params s -> cached h s -> inHeap (maxHistorySize_ s) h states -> zlen states <= beamSize_ s ->
  exists s', updateCache f h states s = (s', Ok tt) /\ cached h s' /\ same_params s s' /\
    forall p, is_Some (cacheIndices_ s' !! p) <-> p ∈ states.
Proof.
  intros P C Hh Hn. pose proof (p_beam _ P) as Hb. pose proof (p_history _ P) as HH. unfold updateCache. rewrite (St_bind_ok ConvLM.get _ s s s) by done.
  cbv zeta. rewrite (proj2 (Z.ltb_ge _ _)) by done.
  destruct (fillSlots_ok h s states (replicate (Z.to_nat (beamSize_ s)) None) (-1) C Hh) as (slot & L & E & [Hl Hs] & K1 & _ & K3 & K4 & K5).
  { split; [apply zlen_replicate; lia|]. intros k p [[=] _]%lookup_replicate. }
  erewrite St_bind_ok by exact E. cbv beta iota. erewrite St_bind_ok by (unfold modify; reflexivity).
  assert (Hin : forall p, Some p ∈ slot -> p ∈ states) by (intros p Hp; by destruct (K3 p Hp) as [?%elem_replicate_None|?]).
  pose proof (cached_empty h s ltac:(lia) C) as C0.
  destruct (moveRows_ok h slot 0 0 (set_indices ∅ s)) as (s1 & Em & C1 & E1 & Hd1); [done|by cbn; rewrite map_size_empty|done|done| | |].
  { intros k p Hk. cbn. split; [apply lookup_empty|]. assert (p ∈ states) as Hp by (apply Hin, list_elem_of_lookup; by exists k).
    destruct (proj1 (Forall_forall _ _) Hh p Hp) as (st & Hst & _). exists st. split; [done|].
    apply (c_scores _ _ C p); [by apply Hs|done]. }
  { intros k1 k2 p H1%Hs H2%Hs. rewrite H1 in H2. injection H2. lia. }
  erewrite St_bind_ok by exact Em. clear Em.
  assert (same_params s s1) as Es1 by (destruct E1 as (?&?&?&?&?&?); by repeat split).
  assert (Hdom : forall p, is_Some (cacheIndices_ s1 !! p) <-> Some p ∈ slot).
  { intros p. rewrite Hd1. cbn. rewrite lookup_empty. split; [intros [[]|?]; done|by right]. }
  destruct (Z.leb_spec L 0) as [HL|HL].
  - exists s1. split; [done|]. split; [done|]. split; [done|]. intros p. rewrite Hdom. split; [apply Hin|]. intros Hp. apply K1; [done|].
    destruct (cacheIndices_ s !! p) eqn:Ep; [by eexists|exfalso].
    destruct (proj1 (Forall_forall _ _) Hh p Hp) as (st & Hst & Wl & Wn & _). pose proof (K5 p st Hp Ep Hst). rewrite Wl in *.
    destruct (tokens st); [done|]. rewrite zlen_cons in *. pose proof (zlen_nonneg l). lia.
  - set (maxB := Z.min (Z.quot (lmMemory_ s) L) (zlen states)). pose proof (p_memory _ P) as HM.
    assert (1 <= maxB).
    { unfold maxB. apply Z.min_glb; [rewrite Z.quot_div_nonneg by lia; apply Z.div_le_lower_bound; lia|].
      destruct states; [|rewrite zlen_cons; pose proof (zlen_nonneg states); lia]. cbn in E. injection E as <- <-. lia. }
    destruct (batches_ok h L maxB states (length states) s1 states) as (s' & Ef & C' & E' & Hd'); try done.
    + by apply (same_params_params s).
    + destruct Es1 as (_ & _ & -> & _). done.
    + intros p st Hp Hnone Hst. destruct (cacheIndices_ s !! p) eqn:Ep; [|by apply (K5 p)].
      assert (is_Some (cacheIndices_ s1 !! p)) as [? ?]; [|congruence]. apply Hdom, K1; [done|by eexists].
    + destruct Es1 as (_ & -> & -> & _). assert (maxB <= zlen states) by (unfold maxB; lia). nia.
    + intros p [Hp|Hp]; [by apply Hin, Hdom|done].
    + destruct Es1 as (_ & -> & _). done.
    + exists s'. split; [exact Ef|]. split; [done|]. split; [by apply (same_params_trans _ s1)|]. intros p. rewrite Hd', Hdom. split; [intros [?%Hin|?]; done|by right].
Qed.

(** ** Clients *)

(** The calls of a client, with the addresses at which the new states are made;
    [EFree] is the end of a state. *)
Inductive event :=
| EStart (addr : lmptr)
| EScore (p : lmptr) (usrTokenIdx : Z) (addr : lmptr)
| EFinish (p addr : lmptr)
| EUpdate (states : list lmptr)
| EFree (p : lmptr).

(** What a call returns: nothing, a score or an exception. *)
Abbreviation answer := (option (result f32)).

Definition newState (h : lmheap) (addr : lmptr) (r : ConvLM * result (ConvLMState * f32)) : ConvLM * lmheap * answer :=
  match r with (s, Ok (st, x)) => (s, <[addr := st]> h, Some (Ok x)) | (s, Throw e) => (s, h, Some (Throw e)) end.

Definition step (c : ConvLM * lmheap) (e : event) : ConvLM * lmheap * answer :=
  let '(s, h) := c in
  match e with
  | EStart addr =>
      match start false s with (s, Ok st) => (s, <[addr := st]> h, None) | (s, Throw e) => (s, h, Some (Throw e)) end
  | EScore p u addr => newState h addr (score f h p u s)
  | EFinish p addr => newState h addr (finish f h p s)
  | EUpdate states => match updateCache f h states s with (s, Ok _) => (s, h, None) | (s, Throw e) => (s, h, Some (Throw e)) end
  | EFree p => (s, delete p h, None)
  end.

Fixpoint run (c : ConvLM * lmheap) (l : list event) : list answer :=
  match l with [] => [] | e :: l => let '(c, a) := step c e in a :: run c l end.

(** The model without a cache: a heap of histories. *)
Record reference := Reference { r_maxHistory : Z; r_usrToLm : list Z; r_eos : Z }.

Definition referenceQuery (R : reference) (h : gmap lmptr (list Z)) (p : lmptr) (tok : Z) (addr : lmptr) : gmap lmptr (list Z) * answer :=
  match h !! p with
  | Some t => (<[addr := nextTokens (r_maxHistory R) t tok]> h, Some (vec_get (g t) tok))
  | None => (h, Some (Throw Undefined))
  end.

Definition referenceStep (R : reference) (h : gmap lmptr (list Z)) (e : event) : gmap lmptr (list Z) * answer :=
  match e with
  | EStart addr => (<[addr := [r_eos R]]> h, None)
  | EScore p u addr =>
      match vec_get (r_usrToLm R) u with Ok tok => referenceQuery R h p tok addr | Throw _ => (h, Some (Throw OutOfRange)) end
  | EFinish p addr => referenceQuery R h p (r_eos R) addr
  | EUpdate _ => (h, None)
  | EFree p => (delete p h, None)
  end.

Fixpoint referenceRun (R : reference) (h : gmap lmptr (list Z)) (l : list event) : list answer :=
  match l with [] => [] | e :: l => let '(h, a) := referenceStep R h e in a :: referenceRun R h l end.

(** A client queries live states, refreshes the cache with at most [beamSize_]
    live states, and makes no state at an address the cache still has. *)
Definition respects (c : ConvLM * lmheap) (e : event) : Prop :=
  let '(s, h) := c in
  match e with
  | EStart addr => True
  | EScore p _ addr | EFinish p addr => is_Some (h !! p) /\ cacheIndices_ (fst (fst (step c e))) !! addr = None
  | EUpdate states => Forall (fun p => is_Some (h !! p)) states /\ zlen states <= beamSize_ s
  | EFree _ => True
  end.

Fixpoint respectsAll (c : ConvLM * lmheap) (l : list event) : Prop :=
  match l with [] => True | e :: l => respects c e /\ respectsAll (fst (step c e)) l end.

Definition stateOf (t : list Z) : ConvLMState := MkState t (zlen t).

Record simulates (R : reference) (c : ConvLM * lmheap) (h : gmap lmptr (list Z)) : Prop := {
  m_params : params (fst c);
  m_cached : cached (snd c) (fst c);
  m_history : maxHistorySize_ (fst c) = r_maxHistory R;
  m_usr : usrToLmIdxMap_ (fst c) = r_usrToLm R;
  m_eos : getIndex (vocab_ (fst c)) kEosToken = Ok (r_eos R);
  m_heap : snd c = stateOf <$> h;
  m_states : forall p t, h !! p = Some t -> t <> [] /\ zlen t <= r_maxHistory R;
}.

Context (g_finite : forall t x, x ∈ g t -> f_finite x = true).

Lemma simulates_wf R c h p t : simulates R c h -> h !! p = Some t -> snd c !! p = Some (stateOf t) /\ wfState (maxHistorySize_ (fst c)) (stateOf t).
Proof.
  intros M Ht. destruct (m_states _ _ _ M _ _ Ht). rewrite (m_heap _ _ _ M), lookup_fmap, Ht. split; [done|].
  unfold wfState; cbn. by rewrite (m_history _ _ _ M).
Qed.

Lemma cached_heap h h' s :
  cached h s -> (forall p st, h' !! p = Some st -> is_Some (cacheIndices_ s !! p) -> h !! p = Some st) -> cached h' s.
Proof. intros C Hh. destruct C. split; try done. intros p i st Hp Hst. apply (c_scores0 p i st Hp). apply Hh; [done|by eexists]. Qed.

Lemma simulates_query R s h hs p tok addr t :
  simulates R (s, h) hs -> hs !! p = Some t -> 0 <= tok < V ->
  let r := newState h addr (scoreWithLmIdx f h p tok s) in
  (cacheIndices_ (fst (fst r)) !! addr = None -> simulates R (fst r) (fst (referenceQuery R hs p tok addr))) /\
  snd r = snd (referenceQuery R hs p tok addr).
Proof.
  intros M Ht Htok r. pose proof (simulates_wf _ _ _ _ _ M Ht) as [Hst W]. cbn [fst snd] in *.
  destruct (scoreWithLmIdx_ok h s p (stateOf t) tok (m_params _ _ _ M) (m_cached _ _ _ M) Hst W Htok) as (s' & x & E & Hx & C' & Ep).
  { intros x Hx. apply (g_finite t). apply vec_get_Ok in Hx as [_ Hx]. by eapply list_elem_of_lookup_2. }
  cbn [stateOf tokens] in *. subst r. rewrite E. unfold referenceQuery. rewrite Ht. cbn [newState fst snd]. split; [|by rewrite Hx].
  intros Ha. pose proof Ep as (E1&E2&E3&E4&E5&E6). destruct M. cbn [fst snd] in *. split; cbn [fst snd].
  - by apply (same_params_params s).
  - apply (cached_heap h); [done|]. intros q st Hq Hs. apply lookup_insert_Some in Hq as [[<- _]|[_ Hq]]; [|done]. rewrite Ha in Hs. by destruct Hs.
  - congruence.
  - congruence.
  - congruence.
  - rewrite fmap_insert, <- m_heap0. unfold stateOf. by rewrite m_history0.
  - intros q t' [[<- <-]|[_ Hq]]%lookup_insert_Some; [|by eapply m_states0].
    destruct (nextState_ok _ _ tok W) as [_ (_ & Hne & Hm)]. cbn [tokens stateOf] in *. by rewrite m_history0 in *.
Qed.

Lemma simulates_step R c h e :
  Forall (fun tok => 0 <= tok < V) (r_usrToLm R) -> 0 <= r_eos R < V -> simulates R c h -> respects c e ->
  simulates R (fst (step c e)) (fst (referenceStep R h e)) /\ snd (step c e) = snd (referenceStep R h e).
Proof.
  intros HU HE M Hr. destruct c as [s hp]. pose proof (p_history _ (m_params _ _ _ M)) as HH. pose proof (p_beam _ (m_params _ _ _ M)) as HB. cbn [fst] in HH, HB.
  destruct e as [addr|p u addr|p addr|states|p]; cbn [step referenceStep respects] in *.
  - assert (start false s = (set_indices ∅ s, Ok (stateOf [r_eos R]))) as ->.
    { unfold start. run_st. cbn [vocab_ set_indices]. by rewrite (m_eos _ _ _ M : getIndex (vocab_ s) kEosToken = _). }
    split; [|done]. destruct M. cbn [fst snd] in *. split; cbn [fst snd]; try done.
    + apply (same_params_params s); [by repeat split|done].
    + apply (cached_heap hp); [by apply cached_empty; [lia|]|]. intros q st _ [? Hq]. cbn in Hq. by rewrite lookup_empty in Hq.
    + by rewrite fmap_insert, m_heap0.
    + intros q t [[<- <-]|[_ Hq]]%lookup_insert_Some; [|by eapply m_states0]. split; [done|]. change (zlen [r_eos R]) with 1. lia.
  - destruct Hr as [[st Hp] Ha]. rewrite (m_heap _ _ _ M : hp = _), lookup_fmap in Hp. destruct (h !! p) as [t|] eqn:Ht; [|done].
    destruct (decide (0 <= u < zlen (r_usrToLm R))) as [Hu|Hu].
    + destruct (vec_get_is_Ok _ _ Hu) as [tok Htok]. rewrite Htok.
      assert (0 <= tok < V) as HV by (apply vec_get_Ok in Htok as [_ Htok]; by apply (Forall_lookup_1 _ _ _ _ HU Htok)).
      assert (score f hp p u s = scoreWithLmIdx f hp p tok s) as Es.
      { unfold score. rewrite (St_bind_ok ConvLM.get _ s s s) by done. rewrite (m_usr _ _ _ M : usrToLmIdxMap_ s = _).
        rewrite (proj2 (Z.ltb_ge u 0)), (proj2 (Z.leb_gt _ u)) by lia. cbn [orb]. rewrite Htok. by erewrite St_bind_ok by (unfold lift; reflexivity). }
      rewrite Es in *. destruct (simulates_query R s hp h p tok addr t M Ht HV) as [M' Ea]. split; [by apply M'|done].
    + assert (vec_get (r_usrToLm R) u = Throw Undefined) as ->.
      { destruct (vec_get (r_usrToLm R) u) eqn:E; [apply vec_get_lt in E; lia|]. unfold vec_get in E. repeat case_match; congruence. }
      assert (score f hp p u s = (s, Throw OutOfRange)) as ->.
      { unfold score. rewrite (St_bind_ok ConvLM.get _ s s s) by done. rewrite (m_usr _ _ _ M : usrToLmIdxMap_ s = _).
        destruct (Z.ltb_spec u 0); [done|]. rewrite (proj2 (Z.leb_le _ _)) by lia. done. }
      done.
  - destruct Hr as [[st Hp] Ha]. rewrite (m_heap _ _ _ M : hp = _), lookup_fmap in Hp. destruct (h !! p) as [t|] eqn:Ht; [|done].
    assert (finish f hp p s = scoreWithLmIdx f hp p (r_eos R) s) as Es.
    { unfold finish. rewrite (St_bind_ok ConvLM.get _ s s s) by done. rewrite (m_eos _ _ _ M : getIndex (vocab_ s) kEosToken = _). by erewrite St_bind_ok by (unfold lift; reflexivity). }
    rewrite Es in *. destruct (simulates_query R s hp h p (r_eos R) addr t M Ht HE) as [M' Ea]. split; [by apply M'|done].
  - destruct Hr as [Hs Hn]. destruct (updateCache_ok hp s states (m_params _ _ _ M) (m_cached _ _ _ M)) as (s' & -> & C' & Ep & _); [|done|].
    { eapply Forall_impl; [exact Hs|]. cbn. intros q [st Hq]. rewrite (m_heap _ _ _ M : hp = _), lookup_fmap in Hq. destruct (h !! q) as [t|] eqn:Ht; [|done].
      exists (stateOf t). by apply (simulates_wf R (s, hp) h). }
    split; [|done]. pose proof Ep as (E1&E2&E3&E4&E5&E6). destruct M. cbn [fst snd] in *. split; cbn [fst snd]; try congruence; [by apply (same_params_params s)|done].
  - split; [|done]. destruct M. cbn [fst snd] in *. split; cbn [fst snd]; try done.
    + apply (cached_heap hp); [done|]. by intros q st [_ ?]%lookup_delete_Some.
    + by rewrite fmap_delete, m_heap0.
    + intros q t [_ Hq]%lookup_delete_Some. by eapply m_states0.
Qed.

Lemma simulates_run R l : forall c h,
  Forall (fun tok => 0 <= tok < V) (r_usrToLm R) -> 0 <= r_eos R < V -> simulates R c h -> respectsAll c l ->
  run c l = referenceRun R h l.
Proof.
  induction l as [|e l IH]; intros c h HU HE M Hr; [done|]. destruct Hr as [He Hl]. destruct (simulates_step R c h e HU HE M He) as [M' Ea].
  cbn [run referenceRun]. destruct (step c e) as [c' a]. destruct (referenceStep R h e) as [h' a']. cbn [fst snd] in *. subst a'.
  f_equal. by apply IH.
Qed.

Lemma new_simulates vocabFile usr lmMemory beamSize historySize s eos :
  ConvLM_new vocabFile usr lmMemory beamSize historySize = Ok s -> 1 <= beamSize -> historySize <= lmMemory -> vocabSize_ s = V ->
  (exists pad, getIndex (vocab_ s) kPadToken = Ok pad) -> getIndex (vocab_ s) kEosToken = Ok eos ->
  simulates (Reference historySize (usrToLmIdxMap_ s) eos) (s, ∅) ∅.
Proof.
  unfold ConvLM_new. destruct (Z.ltb_spec historySize 1) as [|Hh]; [done|]. destruct vocabFile as [vocab|]; [|done]. cbn [mbind result_bind].
  destruct (getIndex vocab kUnkToken) as [unk|]; [|done]. cbn [mbind result_bind]. destruct (mapM_result _ _) as [m|]; [|done]. cbn [mbind result_bind].
  destruct (Z.ltb_spec beamSize 0); [done|]. intros [= <-] Hb Hm HV Hpad Heos. cbn [vocabSize_ vocab_] in *.
  assert (0 <= V) as HV0 by (rewrite <- (g_size []); apply zlen_nonneg).
  split; cbn [fst snd usrToLmIdxMap_ maxHistorySize_]; try done.
  split; cbn; rewrite ?map_size_empty; try done.
  - by rewrite zlen_replicate.
  - intros i row [_ [-> _]%lookup_replicate]%vec_get_Ok. rewrite <- HV. apply zlen_replicate. lia.
  - rewrite zlen_replicate; [done|]. nia.
Qed.
End Cache.

(** * The scoring function over a causal network *)

Section Network.
Context (forward : Z -> Z -> list Z -> result (Z * Z * Z * list f32)) (g : list Z -> list f32) (V : Z).

(** A network that treats the samples of a batch independently, that does not
    look ahead and that returns no NaN: at every position of every sample, the
    output is the [V] scores [g] of the tokens up to there. *)
Definition causal : Prop :=
  (forall t, zlen (g t) = V) /\ (forall t x, x ∈ g t -> f_finite x = true) /\
  forall L B toks, 0 < L -> 0 < B -> zlen toks = L * B ->
  exists output, forward L B toks = Ok (V, L, B, output) /\ Forall (fun x => is_nan x = false) output /\
    forall b t c, 0 <= b < B -> 0 <= t < L -> 0 <= c < V ->
      vec_get output (c + b * L * V + t * V) = vec_get (g (take (Z.to_nat (t + 1)) (drop (Z.to_nat (b * L)) toks))) c.

Context (net : causal).
Abbreviation f := (buildGetConvLmScoreFunction forward).

Lemma gather_ok T output rows positions : forall k,
  length positions = length rows ->
  (forall i pos r c, positions !! i = Some pos -> rows !! i = Some r -> 0 <= c < V ->
     vec_get output (c + (k + Z.of_nat i) * T * V + pos * V) = vec_get (g r) c) ->
  mapM_result (vec_get output) (flat_map (fun '(b, pos) => map (fun c => c + b * T * V + pos * V) (zrange 0 V))
    (combine (zrange k (k + zlen positions)) positions)) = Ok (concat (map g rows)).
Proof.
  destruct net as (Hg & _). revert rows. induction positions as [|pos positions IH]; intros rows k Hlen Hget.
  { destruct rows; [|done]. by destruct (zrange k _). }
  destruct rows as [|r rows]; [done|]. pose proof (zlen_nonneg positions). rewrite zlen_cons, (zrange_cons k) by lia. cbn [combine flat_map map concat].
  apply mapM_result_Ok, Forall2_app.
  - apply Forall2_same_length_lookup_2; [rewrite length_map, length_zrange; specialize (Hg r); unfold zlen in Hg; lia|].
    intros i z x Hz Hx. pose proof (lookup_lt_Some _ _ _ Hx) as Hi. specialize (Hg r). unfold zlen in Hg.
    rewrite list_lookup_fmap, zrange_lookup in Hz by lia. injection Hz as <-.
    rewrite <- (Z.add_0_r k) at 1. change 0 with (Z.of_nat 0) at 2. rewrite (Hget 0%nat pos r) by (done || lia). apply vec_get_Ok. split; [lia|].
    by rewrite Z.add_0_l, Nat2Z.id.
  - apply mapM_result_Ok. replace (k + (1 + zlen positions)) with (k + 1 + zlen positions) by lia. apply IH; [cbn in Hlen; lia|].
    intros i pos' r' c Hp Hr Hc. rewrite <- (Hget (S i) pos' r' c Hp Hr Hc). f_equal. lia.
Qed.

Lemma build_ok inputs positions L B rows :
  0 < L -> 0 < B -> L * B <= zlen inputs -> zlen positions = B -> length positions = length rows ->
  (forall i pos r, positions !! i = Some pos -> rows !! i = Some r ->
     0 <= pos < L /\ take (Z.to_nat (pos + 1)) (drop (Z.to_nat (Z.of_nat i * L)) inputs) = r) ->
  f inputs positions L B = Ok (concat (map g rows)).
Proof.
  intros HL HB Hin Hp Hlen Hrows. destruct net as (Hg & _ & Hnet). unfold buildGetConvLmScoreFunction.
  rewrite (proj2 (Z.ltb_lt 0 L)), (proj2 (Z.ltb_ge _ _)) by lia. unfold vec_range. rewrite decide_True by nia. cbn [mbind result_bind].
  rewrite Z.sub_0_r. change (Z.to_nat 0) with 0%nat. rewrite drop_0. set (toks := take (Z.to_nat (L * B)) inputs).
  assert (zlen toks = L * B) as Ht by (unfold toks, zlen in *; rewrite length_take; nia).
  destruct (Hnet L B toks HL HB Ht) as (output & -> & Hnan & Hget). cbn [mbind result_bind].
  assert (filter (fun x => is_nan x = true) output = []) as ->.
  { apply list_filter_nil || idtac. clear -Hnan. induction Hnan as [|x l Hx Hl IH]; [done|]. rewrite filter_cons_False by congruence. done. }
  cbn [length Z.of_nat]. rewrite Hp, !Z.eqb_refl. cbn [negb]. unfold globalIndices.
  pose proof (gather_ok L output rows positions 0) as G. rewrite Z.add_0_l, Hp in G. rewrite Hp. apply G; [done|].
  intros i pos r c Hpos Hr Hc. destruct (Hrows i pos r Hpos Hr) as [Hpl <-].
  pose proof (lookup_lt_Some _ _ _ Hpos). rewrite Z.add_0_l, Hget by (unfold zlen in *; lia). do 2 f_equal.
  unfold toks. rewrite !take_drop_commute, take_take. do 2 f_equal. unfold zlen in *. nia.
Qed.

(** The two uses of the scoring function by the language model. *)
Lemma build_single t : t <> [] -> f t [zlen t - 1] (-1) 1 = Ok (g t).
Proof.
  intros Ht. assert (1 <= zlen t) by (destruct t; [done|rewrite zlen_cons; pose proof (zlen_nonneg t); lia]).
  assert (f t [zlen t - 1] (-1) 1 = f t [zlen t - 1] (zlen t) 1) as ->.
  { unfold buildGetConvLmScoreFunction. by rewrite (proj2 (Z.ltb_lt 0 (zlen t))) by lia. }
  rewrite (build_ok t [zlen t - 1] (zlen t) 1 [t]); [cbn; by rewrite app_nil_r|lia|lia|lia|done|done|].
  intros [|[|i]] pos r [=<-] [=<-]. split; [lia|]. rewrite Z.mul_0_l. change (Z.to_nat 0) with 0%nat. rewrite drop_0.
  apply take_ge. unfold zlen. lia.
Qed.

Lemma build_batch buf rows L :
  rows <> [] -> 0 < L -> zlen rows * L <= zlen buf ->
  (forall i r, rows !! i = Some r -> r <> [] /\ zlen r <= L) ->
  (forall i r j, rows !! i = Some r -> 0 <= j < zlen r -> vec_get buf (Z.of_nat i * L + j) = vec_get r j) ->
  f buf (map (fun r => zlen r - 1) rows) L (zlen rows) = Ok (concat (map g rows)).
Proof.
  intros Hne HL Hb Hr Hget. pose proof (zlen_nonneg rows).
  apply build_ok; [done|destruct rows; [done|rewrite zlen_cons in *; pose proof (zlen_nonneg rows); lia]|lia|unfold zlen; by rewrite length_map|apply length_map|].
  intros i pos r Hpos Hir. rewrite list_lookup_fmap, Hir in Hpos. injection Hpos as <-. destruct (Hr i r Hir) as [Hrne HrL].
  assert (1 <= zlen r) by (destruct r; [done|rewrite zlen_cons; pose proof (zlen_nonneg r); lia]). split; [lia|].
  pose proof (lookup_lt_Some _ _ _ Hir). apply list_eq. intros j. destruct (decide (j < length r)%nat) as [Hj|Hj].
  - rewrite lookup_take_lt, lookup_drop by (unfold zlen in *; lia).
    specialize (Hget i r (Z.of_nat j) Hir ltac:(unfold zlen; lia)). destruct (lookup_lt_is_Some_2 r j Hj) as [x Hx]. rewrite Hx.
    assert (vec_get r (Z.of_nat j) = Ok x) as Er by (apply vec_get_Ok; split; [lia|by rewrite Nat2Z.id]). rewrite Er in Hget.
    apply vec_get_Ok in Hget as [_ <-]. f_equal. nia.
  - rewrite (lookup_ge_None_2 r) by lia. apply lookup_ge_None_2. rewrite length_take. unfold zlen in *. lia.
Qed.

(** C13. The cache of the convolutional language model does not change what it
    computes. Over a causal network, a model made by the constructor and used
    by any sequence of calls (start, score, finish, refreshes of the cache,
    and ends of states) answers every call as the model without a cache does:
    the state returned is the history with the token appended, cut to its last
    [maxHistorySize_] tokens, the score is the network's for the history, and
    a user token out of range is an exception. The client makes no state at an
    address that is still in the cache, and refreshes at most [beamSize_]
    states; the sizes of the batches are such that no call fails. *)
Theorem convlm_transparent vocabFile usr lmMemory beamSize historySize s eos l :
  ConvLM_new vocabFile usr lmMemory beamSize historySize = Ok s -> vocabSize_ s = V ->
  1 <= beamSize -> historySize <= lmMemory ->
  (exists pad, getIndex (vocab_ s) kPadToken = Ok pad) -> getIndex (vocab_ s) kEosToken = Ok eos -> 0 <= eos < V ->
  Forall (fun tok => 0 <= tok < V) (usrToLmIdxMap_ s) ->
  respectsAll f (s, ∅) l ->
  run f (s, ∅) l = referenceRun g (Reference historySize (usrToLmIdxMap_ s) eos) ∅ l.
Proof.
  intros Hs HV Hb Hm Hp He Heos HU Hr. destruct net as (Hg & Hfin & _).
  eapply simulates_run; [exact Hg|exact build_single|exact build_batch|exact Hfin|done|done| |done].
  eapply new_simulates; done.
Qed.
End Network.

(** * An example *)

(** Blocks of constant length. *)
Lemma block_get {A} (h : Z -> list A) n m i j :
  (forall k, zlen (h k) = n) -> 0 <= i < m -> 0 <= j < n ->
  vec_get (flat_map h (zrange 0 m)) (j + i * n) = vec_get (h i) j.
Proof.
  intros Hh Hi Hj. rewrite (zrange_app 0 i m), (zrange_cons i m) by lia. rewrite flat_map_app. cbn [flat_map].
  assert (length (flat_map h (zrange 0 i)) = Z.to_nat (i * n)) as Hl.
  { assert (forall l, length (flat_map h l) = (length l * Z.to_nat n)%nat) as ->.
    { induction l as [|x l IH]; [done|]. cbn [flat_map length]. rewrite length_app, IH. specialize (Hh x). unfold zlen in Hh. lia. }
    rewrite length_zrange. lia. }
  pose proof (Hh i) as Hn. assert (0 <= i * n) by nia. unfold vec_get. rewrite !decide_True by lia. unfold zlen in Hn.
  rewrite lookup_app_r by lia. rewrite lookup_app_l by lia.
  by replace (Z.to_nat (j + i * n) - length (flat_map h (zrange 0 i)))%nat with (Z.to_nat j) by lia.
Qed.

(** Five tokens; the score of a token is one or zero, by the parity of the sum of
    the history and the token. *)
Definition ex_scores (t : list Z) : list f32 :=
  map (fun c => if Z.even (foldr Z.add 0 t + c) then f32_of_Z 1 else f_zero) (zrange 0 5).

Definition ex_net (L B : Z) (toks : list Z) : result (Z * Z * Z * list f32) :=
  Ok (5, L, B, flat_map (fun b => flat_map (fun t => ex_scores (take (Z.to_nat (t + 1)) (drop (Z.to_nat (b * L)) toks))) (zrange 0 L)) (zrange 0 B)).

Lemma ex_size t : zlen (ex_scores t) = 5.
Proof. done. Qed.

Lemma ex_values t x : x ∈ ex_scores t -> f_finite x = true /\ is_nan x = false.
Proof. intros (c & -> & _)%list_elem_of_fmap. by case_match. Qed.

Lemma zlen_blocks {A} (h : Z -> list A) n l : (forall k, zlen (h k) = n) -> zlen (flat_map h l) = zlen l * n.
Proof. intros Hh. induction l as [|x l IH]; [done|]. cbn [flat_map]. rewrite zlen_app, zlen_cons, IH, Hh. lia. Qed.

Lemma ex_causal : causal ex_net ex_scores 5.
Proof.
  split; [exact ex_size|]. split; [intros t x Hx; by apply (ex_values t)|]. intros L B toks HL HB _. eexists. split; [reflexivity|]. split.
  - apply Forall_forall. intros x (b & _ & (t & _ & Hx%list_elem_of_In)%in_flat_map)%list_elem_of_In%in_flat_map. by apply (ex_values _ _ Hx).
  - intros b t c Hb Ht Hc. replace (c + b * L * 5 + t * 5) with ((c + t * 5) + b * (L * 5)) by lia.
    assert (Z0 : zlen (zrange 0 L) = L) by (unfold zlen; rewrite length_zrange; lia).
    assert (Zb : forall k, zlen (flat_map (fun t => ex_scores (take (Z.to_nat (t + 1)) (drop (Z.to_nat (k * L)) toks))) (zrange 0 L)) = L * 5).
    { intros k. rewrite (zlen_blocks _ 5) by (intros; apply ex_size). lia. }
    rewrite (block_get (fun b => flat_map (fun t => ex_scores (take (Z.to_nat (t + 1)) (drop (Z.to_nat (b * L)) toks))) (zrange 0 L)) (L * 5) B b _ Zb Hb) by lia.
    apply (block_get (fun t => ex_scores (take (Z.to_nat (t + 1)) (drop (Z.to_nat (b * L)) toks))) 5 L t c); [intros; apply ex_size|lia|lia].
Qed.

Definition ex_dict (l : list string) : dict :=
  let idx := combine (map lit l) (zrange 0 (zlen l)) in
  Dict (list_to_map idx) (list_to_map (map (fun '(e, i) => (i, e)) idx)) (-1).

Definition ex_vocab : dict := ex_dict ["<fairseq_style>"; "<pad>"; "</s>"; "<unk>"; "a"]%string.
Definition ex_model : result ConvLM := ConvLM_new (Ok ex_vocab) (ex_dict ["a"; "b"]%string) 4 3 2.

Definition ex_calls : list event :=
  [EStart 1; EScore 1 0 2; EScore 1 1 3; EUpdate [2; 3]; EFree 1; EScore 2 0 4; EScore 3 7 5; EUpdate [4; 2; 3]; EFinish 4 5]%positive.

Definition ex_s : ConvLM :=
  Eval vm_compute in match ex_model with Ok s => s | Throw _ => MkConvLM 0 0 0 empty_dict 0 [] ∅ [] [] end.

Lemma ex_respects : respectsAll (buildGetConvLmScoreFunction ex_net) (ex_s, ∅) ex_calls.
Proof.
  vm_compute. repeat match goal with
  | |- _ /\ _ => split
  | |- exists _, _ => eexists; reflexivity
  | |- Forall _ _ => constructor
  | |- _ -> False => discriminate
  | |- _ => done
  end.
Qed.

Lemma convlm_transparent_witness :
  ex_model = Ok ex_s /\
  run (buildGetConvLmScoreFunction ex_net) (ex_s, ∅) ex_calls = referenceRun ex_scores (Reference 2 [4; 3] 2) ∅ ex_calls /\
  run (buildGetConvLmScoreFunction ex_net) (ex_s, ∅) (take 3 ex_calls) = [None; Some (Ok (f32_of_Z 1)); Some (Ok f_zero)].
Proof.
  assert (ex_model = Ok ex_s) as Hs by (vm_compute; reflexivity). split; [exact Hs|]. split; [|vm_compute; reflexivity].
  apply (convlm_transparent ex_net ex_scores 5 ex_causal (Ok ex_vocab) (ex_dict ["a"; "b"]%string) 4 3 2 ex_s 2 ex_calls Hs eq_refl);
    [lia|lia|exists 1; vm_compute; reflexivity|vm_compute; reflexivity|lia|change (usrToLmIdxMap_ ex_s) with [4; 3]; repeat (constructor; [lia|]); constructor|exact ex_respects].
Defined.

(** * Failures *)

(** A failure of the scoring function is remembered as a success. The
    index of the state is stored before the function is called: when the call
    throws (the network returned NaNs, say), the state keeps an index whose
    row was never written, and the next query of the same state returns what
    the row held before, without calling the function. *)
Theorem score_failure_poisons f f' h p st tok s e row x :
  h !! p = Some st -> cacheIndices_ s !! p = None -> wfState (maxHistorySize_ s) st -> 0 <= tok < vocabSize_ s ->
  Z.of_nat (size (cacheIndices_ s)) < beamSize_ s ->
  f (tokens st) [length_ st - 1] (-1) 1 = Throw e ->
  vec_get (cache_ s) (Z.of_nat (size (cacheIndices_ s))) = Ok row -> vec_get row tok = Ok x -> f_finite x = true ->
  exists s' out, scoreWithLmIdx f h p tok s = (s', Throw e) /\ scoreWithLmIdx f' h p tok s' = (s', Ok (out, x)).
Proof.
  intros Hst Hp W Ht Hb Hf Hrow Hx Hfin. set (n := Z.of_nat (size (cacheIndices_ s))) in *.
  pose proof (proj1 (nextState_ok _ _ tok W)) as Hout.
  assert (n <> beamSize_ s) as Hn by lia. assert (0 <= n) as Hn0 by (unfold n; lia).
  eexists (set_indices (<[p := n]> (cacheIndices_ s)) s), _. unfold scoreWithLmIdx, deref. rewrite Hst. run_st.
  cbn [maxHistorySize_ vocabSize_ cacheIndices_ beamSize_ cache_ set_indices].
  rewrite Hout, Hp, (proj2 (Z.ltb_ge tok 0)), (proj2 (Z.leb_gt _ tok)) by lia. cbn [orb].
  rewrite lookup_insert_eq, (proj2 (Z.ltb_ge n 0)), (proj2 (Z.leb_gt _ n)), Hrow, Hx by lia. cbn [orb]. cbv beta iota. rewrite Hfin.
  split; [|reflexivity]. unfold scoreMiss. run_st. fold n. rewrite (proj2 (Z.eqb_neq _ _) Hn). fold n. by rewrite Hf.
Qed.

(** With a new model, the score after a failure is 0. *)
Lemma score_failure_poisons_witness :
  exists s' out, scoreWithLmIdx (fun _ _ _ _ => Throw RuntimeError) {[1%positive := stateOf [2]]} 1 4 ex_s = (s', Throw RuntimeError) /\
    scoreWithLmIdx (buildGetConvLmScoreFunction ex_net) {[1%positive := stateOf [2]]} 1 4 s' = (s', Ok (out, f_zero)).
Proof.
  apply (score_failure_poisons _ _ _ _ (stateOf [2]) 4 ex_s RuntimeError (replicate 5 f_zero)); try (vm_compute; reflexivity).
  - repeat split. 1: done. vm_compute. discriminate.
  - split; vm_compute; [discriminate|reflexivity].
Defined.
