(* ===== verification/AutogradPrograms.v ===== *)
(** Reverse-mode differentiation of programs, over any space of arrays and any
    set of operations that meets an interface.

    [Space] says what is used of arrays: when two have the same shape, the pairing
    of a gradient with a direction, and when a curve of arrays has a derivative.
    [Ops] is a set of operations: the function of the library each one calls, what
    it computes, and its derivative along directions.  [OpLaws] is what an operation
    promises: it builds one variable whose gradient function is the adjoint of the
    derivative.  The main lemma is proved against these interfaces: [backward]
    computes gradients of every straight-line program.  The instances are scalars
    ([AutogradAdjoint]) and tensors ([TensorDerivative]). *)
From S2P Require Import Prelude RealSum Autograd AutogradProofs AutogradFunctions.
From Stdlib Require Import Reals Lra.

#[local] Open Scope R_scope.

(** * Building variables *)

Section Make.
Context {A : Type} `{Arrays A}.
Abbreviation heap := (Autograd.heap (A := A)).

Lemma grown_withoutData v (h : heap) : wf h -> grown h (withoutData v h).2.
Proof.
  intros W. split; try done; cbn; [lia|]. intros x [Hd _]. unfold array. cbn. rewrite lookup_insert_ne; [done|lia].
Qed.

(** How an input is stored. *)
Definition stored (h h' : heap) (q : var * bool) (i : var) : Prop :=
  grad_ i = grad_ q.1 /\ live i h' /\ (q.2 = true -> live q.1 h -> array i h' = array q.1 h).

Lemma storeInputs_spec ins (h : heap) :
  wf h -> (forall q, q ∈ ins -> live q.1 h) ->
  let '(l, h') := storeInputs ins h in
  wf h' /\ grown h h' /\ (forall u, sg u h' = sg u h) /\ Forall2 (stored h h') ins l.
Proof.
  revert h. induction ins as [|[v b] ins IH]; intros h W Hl; [by split_and!; try apply grown_refl|].
  cbn [storeInputs]. assert (Lv : live v h) by (apply (Hl (v, b)); by left).
  assert (Hl' : forall q, q ∈ ins -> live q.1 h) by (intros q Hq; apply Hl; by right).
  destruct b.
  - specialize (IH h W Hl'). destruct (storeInputs ins h) as [l h']. destruct IH as (W' & G' & S' & F').
    split_and!; [done|done|done|]. constructor; [|done]. split_and!; [done|by eapply live_grown|]. intros _ _. by apply G'.
  - destruct (wf_withoutData v h W Lv) as [W1 L1]. pose proof (grown_withoutData v h W) as G1.
    destruct (withoutData v h) as [x h1] eqn:Ew. cbn [fst snd] in *.
    specialize (IH h1 W1 ltac:(intros q Hq; eapply live_grown; [exact G1|by apply Hl'])).
    destruct (storeInputs ins h1) as [l h']. destruct IH as (W' & G' & S' & F').
    split_and!; [done|by eapply grown_trans| |].
    + intros u. rewrite S'. by injection Ew as _ <-.
    + constructor.
      * split_and!; [by injection Ew as <- _|by eapply live_grown|done].
      * eapply Forall2_impl; [exact F'|]. intros q i (E1 & E2 & E3). split_and!; [done|done|].
        intros Hb Lq. rewrite E3; [by apply G1|done|by eapply live_grown].
Qed.

Lemma makeOp_spec d ins f (h : heap) :
  wf h -> (forall q, q ∈ ins -> live q.1 h) ->
  exists v' h' l, makeOp d ins f h = (v', h') /\ wf h' /\ grown h h' /\ live v' h'
    /\ (next h <= grad_ v')%nat /\ array v' h' = d /\ Forall2 (stored h h') ins l
    /\ (forall u, (u < next h)%nat -> sg u h' = sg u h)
    /\ (forall u, (next h <= u)%nat -> u <> grad_ v' -> sg u h' = newSharedGrad)
    /\ sg (grad_ v') h' = if existsb (fun q => isCalcGrad q.1 h) ins
                          then MkSharedGrad true l None (Some f) None else newSharedGrad.
Proof.
  intros W Hl. unfold makeOp. pose proof (storeInputs_spec ins h W Hl) as Hs.
  destruct (storeInputs ins h) as [l h1]. destruct Hs as (W1 & G1 & S1 & F1).
  assert (Hli : forall i, i ∈ l -> live i h1).
  { intros i Hi. apply list_elem_of_lookup in Hi as [k Hk].
    destruct (Forall2_lookup_r _ _ _ _ _ F1 Hk) as (q & _ & _ & ? & _). done. }
  pose proof (wf_newOp d l f h1 W1 Hli) as W2.
  assert (Ex : existsb (fun v => isCalcGrad v h1) l = existsb (fun q => isCalcGrad q.1 h) ins).
  { clear -F1 S1. induction F1 as [|q i ins l (E & _) _ IH]; [done|]. cbn. rewrite IH. f_equal.
    unfold isCalcGrad. by rewrite E, S1. }
  unfold newOp in *. rewrite Ex in *. set (s := if existsb _ ins then _ else _) in *.
  change (MkHeap (<[next h1:=d]> (datas h1)) (<[next h1:=s]> (grads h1)) (S (next h1))) with (alloc d s h1) in *.
  pose proof (gr_next _ _ G1). pose proof (grown_alloc d s h1) as G2.
  exists (Var (next h1) (next h1)), (alloc d s h1), l.
  split_and!; [done|done|by eapply grown_trans|apply live_new|done|apply array_alloc_new| | | |].
  - eapply Forall2_impl; [exact F1|]. intros q i (E1 & E2 & E3). split_and!; [done|by apply live_mono|].
    intros Hb Lq. rewrite (gr_array _ _ G2) by done. auto.
  - intros u Hu. by rewrite sg_alloc, decide_False by lia.
  - intros u Hu Hne. cbn in Hne. rewrite sg_alloc, decide_False by done. rewrite S1. unfold sg.
    destruct (grads h !! u) eqn:E; [|done]. apply (wf_fresh _ W) in E. lia.
  - cbn [grad_]. by rewrite sg_alloc, decide_True.
Qed.
End Make.

(** * Sums *)

(** A sum with one term. *)
Lemma Rsum_one {B} `{EqDecision B} (l : list B) (u : B) (x : R) :
  NoDup l -> u ∈ l -> Rsum l (fun w => if decide (w = u) then x else 0) = x.
Proof.
  induction 1 as [|w l Hw Hnd IH]; intros Hu; [by apply elem_of_nil in Hu|]. rewrite Rsum_cons.
  destruct (decide (w = u)) as [->|Hne].
  - rewrite Rsum_all_zero; [ring|]. intros y Hy. rewrite decide_False; [done|]. by intros ->.
  - apply elem_of_cons in Hu as [->|Hu]; [done|]. rewrite IH by done. ring.
Qed.

Lemma Rsum_fmap {B C} (g : B -> C) l f : Rsum (g <$> l) f = Rsum l (fun x => f (g x)).
Proof. apply Rsum_map. Qed.

Lemma Rsum_concat {B} (l : list (list B)) f : Rsum (concat l) f = Rsum l (fun x => Rsum x f).
Proof. induction l as [|x l IH]; [done|]. cbn [concat]. by rewrite Rsum_app, Rsum_cons, IH. Qed.

(** * The interfaces *)

(** Arrays [A] with directions [V]. *)
Class Space (A V : Type) := {
  like : A -> A -> Prop;
  ip : A -> V -> R;
  value : A -> V;
  vzero : V;
  deriv : (R -> A) -> R -> V -> Prop
}.

Class SpaceLaws (A V : Type) `{Arrays A, Space A V} : Prop := {
  like_equiv : Equivalence like;
  one_type : forall a b : A, a_type a = a_type b;
  like_add : forall a b c, like a c -> like b c -> like (a_add a b) c;
  ip_add : forall a b v, like a b -> ip (a_add a b) v = ip a v + ip b v;
  ip_zero : forall a, ip a vzero = 0;
  deriv_const_curve : forall x t, deriv (fun _ => x) t vzero;
  deriv_ext_curve : forall c c' t d, (forall u, c u = c' u) -> deriv c t d -> deriv c' t d;
  deriv_ip : forall c t d s, deriv c t d -> like s (c t) ->
    derivable_pt_lim (fun u => ip s (value (c u))) t (ip s d)
}.

(** Operations on arrays.  An operand in a [frozen] position gets no gradient. *)
Class Ops (O A V : Type) := {
  run : O -> list var -> Autograd.heap (A := A) -> result (var * Autograd.heap (A := A));
  fwd : O -> list A -> A;
  jvp : O -> list A -> list V -> V;
  dom : O -> list A -> Prop;
  frozen : O -> nat -> Prop
}.

Section Programs.
Context {O A V : Type} `{SL : SpaceLaws A V} `{OP : !Ops O A V}.
Abbreviation heap := (Autograd.heap (A := A)).
#[local] Existing Instance like_equiv.

Definition at_ (vs : list A) (i : nat) : A := default a_empty (vs !! i).
Definition dir (ts : list V) (i : nat) : V := default vzero (ts !! i).

(** What the gradient function of an operation with operands [xs], of which [cs]
    want their gradients, must answer for the gradient [g]: calls to operands with
    arrays of their shapes, one at least to each that wants it, which make the
    adjoint of the derivative. *)
Definition shares (o : O) (cs : list bool) (xs : list A) (g : A) (l : list (nat * A)) : Prop :=
  Forall (fun c => exists x, xs !! c.1 = Some x /\ like c.2 x) l
  /\ (forall k, cs !! k = Some true -> exists a, (k, a) ∈ l)
  /\ forall T, length T = length xs -> (forall k, cs !! k = Some false -> T !! k = Some vzero) ->
     Rsum l (fun c => ip c.2 (dir T c.1)) = ip g (jvp o xs T).

(** What a gradient function sees of an operand. *)
Definition seen (h : heap) (q : var * bool) (vw : A * bool) : Prop :=
  vw.2 = isCalcGrad q.1 h /\ (q.2 = true -> vw.1 = array q.1 h).

Definition flags (h : heap) (vs : list var) : list bool := (fun v => isCalcGrad v h) <$> vs.
Definition arrays (h : heap) (vs : list var) : list A := (fun v => array v h) <$> vs.

(** An operation builds one variable with the array it computes, whose gradient
    function answers as [shares] says. *)
Definition runs_well (o : O) : Prop := forall vs (h : heap),
  dom o (arrays h vs) ->
  (forall k v, vs !! k = Some v -> frozen o k -> isCalcGrad v h = false) ->
  exists keeps f, length keeps = length vs
    /\ run o vs h = Ok (makeOp (fwd o (arrays h vs)) (zip vs keeps) f h)
    /\ forall vws g, like g (fwd o (arrays h vs)) -> Forall2 (seen h) (zip vs keeps) vws ->
       exists l, f vws g = Ok l /\ shares o (flags h vs) (arrays h vs) g l.

(** [jvp] is the derivative of [fwd]. *)
Definition differentiates (o : O) : Prop := forall (cs : list (R -> A)) (ds : list V) t,
  dom o ((fun c => c t) <$> cs) -> Forall2 (fun c d => deriv c t d) cs ds ->
  (forall k c, cs !! k = Some c -> frozen o k -> forall u, c u = c t) ->
  deriv (fun u => fwd o ((fun c => c u) <$> cs)) t (jvp o ((fun c => c t) <$> cs) ds).
End Programs.

Class OpLaws (O A V : Type) `{Arrays A, Space A V, Ops O A V} : Prop := {
  op_run : forall o : O, runs_well o;
  op_deriv : forall o : O, differentiates o
}.

(** * Straight-line programs *)

(** A leaf holds an array and may want its gradient; an operation refers to earlier
    instructions by position. *)
Inductive instr {O A : Type} := ILeaf (x : A) (c : bool) | IOp (o : O) (args : list nat).
Arguments instr : clear implicits.

Section Semantics.
Context {O A V : Type} `{Arrays A} `{!Space A V} `{!Ops O A V}.
Abbreviation heap := (Autograd.heap (A := A)).
Abbreviation program := (list (instr O A)).

(** Running a program builds one variable per instruction. *)
Definition exec1 (st : list var * heap) (i : instr O A) : result (list var * heap) :=
  let '(env, h) := st in
  match i with
  | ILeaf x c => let '(v, h) := newVariable x c h in Ok (env ++ [v], h)
  | IOp o js =>
      match mapM (fun j => env !! j) js with
      | None => Throw Undefined
      | Some vs => match run o vs h with Throw e => Throw e | Ok (r, h) => Ok (env ++ [r], h) end
      end
  end.

Definition exec (p : program) : result (list var * heap) := foldM_result exec1 ([], empty_heap) p.

(** The values of the instructions as a mathematical function. *)
Definition evalInstr (vs : list A) (i : instr O A) : A :=
  match i with ILeaf x _ => x | IOp o js => fwd o (at_ vs <$> js) end.
Definition eval (p : program) : list A := fold_left (fun vs i => vs ++ [evalInstr vs i]) p [].

(** The program whose leaf [k] has value [x]. *)
Definition with_leaf (k : nat) (x : A) (p : program) : program :=
  alter (fun i => match i with ILeaf _ c => ILeaf x c | _ => i end) k p.

(** Whether an instruction depends on a leaf that wants its gradient. *)
Definition wants (cs : list bool) (i : instr O A) : bool :=
  match i with ILeaf _ c => c | IOp _ js => existsb (fun j => default false (cs !! j)) js end.
Definition wanted (p : program) : list bool := fold_left (fun cs i => cs ++ [wants cs i]) p [].

(** References go backwards, operands are in the domain of the operation, and
    frozen operands do not depend on a leaf that wants its gradient. *)
Definition ok_at (vs : list A) (cs : list bool) (i : instr O A) : Prop :=
  match i with
  | ILeaf _ _ => True
  | IOp o js => Forall (fun j => (j < length vs)%nat) js /\ dom o (at_ vs <$> js)
                /\ forall k j, js !! k = Some j -> frozen o k -> cs !! j = Some false
  end.
Inductive good : program -> Prop :=
| good_nil : good []
| good_snoc p i : good p -> ok_at (eval p) (wanted p) i -> good (p ++ [i]).

(** The derivatives of all instructions when leaf [k] moves in direction [dx]. *)
Definition tangent (k : nat) (dx : V) (vs : list A) (cs : list bool) (ts : list V) (i : instr O A) : V :=
  match i with
  | ILeaf _ _ => if decide (length ts = k) then dx else vzero
  | IOp o js => if wants cs i then jvp o (at_ vs <$> js) (dir ts <$> js) else vzero
  end.
Fixpoint tangents_from (k : nat) (dx : V) (p : program) (vs : list A) (cs : list bool) (ts : list V) : list V :=
  match p with
  | [] => ts
  | i :: p => tangents_from k dx p (vs ++ [evalInstr vs i]) (cs ++ [wants cs i]) (ts ++ [tangent k dx vs cs ts i])
  end.
Definition tangents (k : nat) (dx : V) (p : program) : list V := tangents_from k dx p [] [] [].

Lemma eval_snoc p i : eval (p ++ [i]) = eval p ++ [evalInstr (eval p) i].
Proof. unfold eval. by rewrite fold_left_app. Qed.
Lemma wanted_snoc p i : wanted (p ++ [i]) = wanted p ++ [wants (wanted p) i].
Proof. unfold wanted. by rewrite fold_left_app. Qed.
Lemma tangents_from_snoc k dx p i vs cs ts :
  tangents_from k dx (p ++ [i]) vs cs ts
  = tangents_from k dx p vs cs ts
    ++ [tangent k dx (fold_left (fun vs i => vs ++ [evalInstr vs i]) p vs) (fold_left (fun cs i => cs ++ [wants cs i]) p cs)
          (tangents_from k dx p vs cs ts) i].
Proof.
  revert vs cs ts. induction p as [|j p IH]; intros vs cs ts; [done|]. cbn [tangents_from app fold_left]. apply IH.
Qed.
Lemma tangents_snoc k dx p i :
  tangents k dx (p ++ [i]) = tangents k dx p ++ [tangent k dx (eval p) (wanted p) (tangents k dx p) i].
Proof. apply tangents_from_snoc. Qed.

Lemma length_eval p : length (eval p) = length p.
Proof. induction p as [|i p IH] using rev_ind; [done|]. rewrite eval_snoc, !length_app, IH. done. Qed.
Lemma length_wanted p : length (wanted p) = length p.
Proof. induction p as [|i p IH] using rev_ind; [done|]. rewrite wanted_snoc, !length_app, IH. done. Qed.
Lemma length_tangents k dx p : length (tangents k dx p) = length p.
Proof. induction p as [|i p IH] using rev_ind; [done|]. rewrite tangents_snoc, !length_app, IH. done. Qed.

Lemma at_app_l vs ws i : (i < length vs)%nat -> at_ (vs ++ ws) i = at_ vs i.
Proof. intros Hi. unfold at_. by rewrite lookup_app_l. Qed.
Lemma at_snoc_eq vs x n : n = length vs -> at_ (vs ++ [x]) n = x.
Proof. intros ->. unfold at_. rewrite lookup_app_r by lia. by rewrite Nat.sub_diag. Qed.
Lemma dir_app_l (ts us : list V) i : (i < length ts)%nat -> dir (ts ++ us) i = dir ts i.
Proof. intros Hi. unfold dir. by rewrite lookup_app_l. Qed.
Lemma dir_snoc_eq (ts : list V) d n : n = length ts -> dir (ts ++ [d]) n = d.
Proof. intros ->. unfold dir. rewrite lookup_app_r by lia. by rewrite Nat.sub_diag. Qed.

Lemma at_all_app vs ws js : Forall (fun j => (j < length vs)%nat) js -> at_ (vs ++ ws) <$> js = at_ vs <$> js.
Proof. induction 1 as [|j js Hj _ IH]; [done|]. rewrite !fmap_cons, IH. f_equal. by apply at_app_l. Qed.
Lemma dir_all_app (ts us : list V) js : Forall (fun j => (j < length ts)%nat) js -> dir (ts ++ us) <$> js = dir ts <$> js.
Proof. induction 1 as [|j js Hj _ IH]; [done|]. rewrite !fmap_cons, IH. f_equal. by apply dir_app_l. Qed.

Lemma with_leaf_snoc k x p i :
  with_leaf k x (p ++ [i])
  = if decide (k < length p)%nat then with_leaf k x p ++ [i]
    else if decide (k = length p) then p ++ [match i with ILeaf _ c => ILeaf x c | _ => i end] else p ++ [i].
Proof.
  unfold with_leaf. case_decide as E1; [by rewrite alter_app_l|]. rewrite alter_app_r_alt by lia.
  case_decide as E2; [by rewrite E2, Nat.sub_diag|]. by destruct (k - length p)%nat eqn:E; [lia|].
Qed.

Lemma length_with_leaf k x p : length (with_leaf k x p) = length p.
Proof. apply length_alter. Qed.

Lemma with_leaf_ge k x p : (length p <= k)%nat -> with_leaf k x p = p.
Proof. intros Hk. apply list_eq. intros j. unfold with_leaf. rewrite list_lookup_alter.
  case_decide as E; [|done]. subst j. by rewrite lookup_ge_None_2. Qed.

Lemma with_leaf_snoc_other k x p i : k <> length p -> with_leaf k x (p ++ [i]) = with_leaf k x p ++ [i].
Proof.
  intros Hk. rewrite with_leaf_snoc. case_decide; [done|]. rewrite decide_False by done.
  by rewrite with_leaf_ge by lia.
Qed.

(** Leaf [k], if it is there already, is [x] and wants its gradient. *)
Definition leaf_at (p : program) (k : nat) (x : A) : Prop := p !! k = Some (ILeaf x true) \/ (length p <= k)%nat.

Lemma leaf_at_prefix p i k x : leaf_at (p ++ [i]) k x -> leaf_at p k x.
Proof.
  intros [Hk|Hk]; [|rewrite length_app in Hk; right; lia].
  apply lookup_snoc_Some in Hk as [[_ ?]|[-> _]]; [by left|right; lia].
Qed.

Lemma with_leaf_same k x p : leaf_at p k x -> with_leaf k x p = p.
Proof.
  intros [Hk|Hk]; [|by apply with_leaf_ge]. unfold with_leaf. apply list_eq. intros i.
  destruct (decide (i = k)) as [->|]; [|by rewrite list_lookup_alter_ne]. by rewrite list_lookup_alter_eq, Hk.
Qed.

Lemma good_at p m i : good p -> p !! m = Some i ->
  exists q r, p = q ++ i :: r /\ length q = m /\ ok_at (eval q) (wanted q) i.
Proof.
  induction 1 as [|p j Hg IH Hok]; intros Hm; [done|].
  apply lookup_snoc_Some in Hm as [[Hlt Hm]|[-> <-]].
  - destruct (IH Hm) as (q & r & -> & Hq & Hi). exists q, (r ++ [j]). by rewrite <- app_assoc.
  - by exists p, [].
Qed.

Lemma eval_app p q : exists ws, eval (p ++ q) = eval p ++ ws.
Proof.
  induction q as [|i q IH] using rev_ind; [exists []; by rewrite !app_nil_r|].
  destruct IH as [ws E]. rewrite app_assoc, eval_snoc, E. eexists. by rewrite <- app_assoc.
Qed.
Lemma wanted_app p q : exists ws, wanted (p ++ q) = wanted p ++ ws.
Proof.
  induction q as [|i q IH] using rev_ind; [exists []; by rewrite !app_nil_r|].
  destruct IH as [ws E]. rewrite app_assoc, wanted_snoc, E. eexists. by rewrite <- app_assoc.
Qed.
Lemma tangents_app k dx p q : exists ws, tangents k dx (p ++ q) = tangents k dx p ++ ws.
Proof.
  induction q as [|i q IH] using rev_ind; [exists []; by rewrite !app_nil_r|].
  destruct IH as [ws E]. rewrite app_assoc, tangents_snoc, E. eexists. by rewrite <- app_assoc.
Qed.

Lemma wants_app cs ds o js :
  Forall (fun j => (j < length cs)%nat) js -> wants (cs ++ ds) (IOp o js) = wants cs (IOp o js).
Proof. induction 1 as [|j js Hj _ IH]; [done|]. cbn in *. rewrite IH. by rewrite lookup_app_l. Qed.

(** The facts of an instruction of a good program. *)
Lemma op_at p m o js :
  good p -> p !! m = Some (IOp o js) ->
  Forall (fun j => (j < m)%nat) js /\ dom o (at_ (eval p) <$> js) /\ at_ (eval p) m = fwd o (at_ (eval p) <$> js)
  /\ wanted p !! m = Some (wants (wanted p) (IOp o js))
  /\ (forall k j, js !! k = Some j -> frozen o k -> wanted p !! j = Some false)
  /\ forall k dx, dir (tangents k dx p) m
       = if wants (wanted p) (IOp o js) then jvp o (at_ (eval p) <$> js) (dir (tangents k dx p) <$> js) else vzero.
Proof.
  intros Hg Hm. destruct (good_at p m (IOp o js) Hg Hm) as (q & r & E & Hq & (Hj & Hd & Hf)). subst m.
  rewrite length_eval in Hj.
  destruct (eval_app (q ++ [IOp o js]) r) as [vs Ev]. destruct (wanted_app (q ++ [IOp o js]) r) as [cs Ec].
  rewrite <- app_assoc in Ev, Ec. cbn [app] in Ev, Ec. rewrite <- E, eval_snoc, <- app_assoc in Ev.
  rewrite <- E, wanted_snoc, <- app_assoc in Ec. cbn [app] in Ev, Ec.
  assert (Ea : at_ (eval p) <$> js = at_ (eval q) <$> js) by (rewrite Ev; apply at_all_app; by rewrite length_eval).
  assert (Ew : wants (wanted p) (IOp o js) = wants (wanted q) (IOp o js))
    by (rewrite Ec; apply wants_app; by rewrite length_wanted).
  rewrite Ea, Ew. split_and!; [done|done| | | |].
  - rewrite Ev. change (evalInstr _ _ :: vs) with ([evalInstr (eval q) (IOp o js)] ++ vs). rewrite app_assoc, at_app_l.
    + apply at_snoc_eq. by rewrite length_eval.
    + rewrite length_app, length_eval. cbn. lia.
  - rewrite Ec, lookup_app_r, length_wanted, Nat.sub_diag by (rewrite length_wanted; lia). done.
  - intros k j Hk Hz. rewrite Ec, lookup_app_l; [by eapply Hf|]. rewrite length_wanted. rewrite Forall_forall in Hj.
    apply Hj. by eapply list_elem_of_lookup_2.
  - intros k dx. destruct (tangents_app k dx (q ++ [IOp o js]) r) as [ts Et]. rewrite <- app_assoc in Et. cbn [app] in Et.
    rewrite <- E, tangents_snoc, <- app_assoc in Et. cbn [app] in Et.
    assert (Ed : dir (tangents k dx p) <$> js = dir (tangents k dx q) <$> js)
      by (rewrite Et; apply dir_all_app; by rewrite length_tangents).
    rewrite Ed. unfold dir at 1. rewrite Et, lookup_app_r, length_tangents, Nat.sub_diag by (rewrite length_tangents; lia). done.
Qed.

Lemma leaf_value p m x c :
  p !! m = Some (ILeaf x c) -> at_ (eval p) m = x /\ wanted p !! m = Some c
  /\ forall k dx, dir (tangents k dx p) m = if decide (m = k) then dx else vzero.
Proof.
  intros Hm. apply list_elem_of_split_length in Hm as (q & r & E & ->).
  change (ILeaf x c :: r) with ([ILeaf x c] ++ r) in E. rewrite app_assoc in E.
  destruct (eval_app (q ++ [ILeaf x c]) r) as [vs Ev]. destruct (wanted_app (q ++ [ILeaf x c]) r) as [cs Ec].
  rewrite E, Ev, Ec. rewrite eval_snoc, wanted_snoc, <- !app_assoc. split_and!.
  - unfold at_. rewrite lookup_app_r, length_eval, Nat.sub_diag by (rewrite length_eval; lia). done.
  - rewrite lookup_app_r, length_wanted, Nat.sub_diag by (rewrite length_wanted; lia). done.
  - intros k dx. destruct (tangents_app k dx (q ++ [ILeaf x c]) r) as [ts Et].
    rewrite <- app_assoc in Et. rewrite Et, tangents_snoc, <- app_assoc.
    unfold dir. rewrite lookup_app_r, length_tangents, Nat.sub_diag by (rewrite length_tangents; lia). cbn.
    by rewrite length_tangents.
Qed.
End Semantics.

(** * Tangents are derivatives *)

Section Tangents.
Context {O A V : Type} `{SL : SpaceLaws A V} `{!Ops O A V} `{OL : !OpLaws O A V}.
Abbreviation program := (list (instr O A)).

Lemma unwanted_zero (p : program) m k (x : A) dx :
  good p -> p !! k = Some (ILeaf x true) -> wanted p !! m = Some false -> dir (tangents k dx p) m = vzero.
Proof.
  intros Hg Hk Hm. destruct (lookup_lt_is_Some_2 p m) as [i Hi].
  { rewrite <- length_wanted. by eapply lookup_lt_Some. }
  destruct i as [y c|o js].
  - destruct (leaf_value p m y c Hi) as (_ & Hc & ->). case_decide as E; [|done]. subst m. congruence.
  - destruct (op_at p m o js Hg Hi) as (_ & _ & _ & Hw & _ & ->). by replace (wants (wanted p) (IOp o js)) with false by congruence.
Qed.

Lemma wants_false cs (o : O) js :
  Forall (fun j => (j < length cs)%nat) js -> wants (A := A) cs (IOp o js) = false ->
  Forall (fun j => cs !! j = Some false) js.
Proof.
  induction 1 as [|j js Hj _ IH]; intros Hf; [done|]. cbn in Hf. apply orb_false_elim in Hf as [H1 H2].
  constructor; [|by apply IH]. apply lookup_lt_is_Some_2 in Hj as [c Hc]. rewrite Hc in H1 |- *. cbn in H1. by subst c.
Qed.

(** The values of a program with a changed leaf. *)
Lemma moved_prefix (p : program) i k y m :
  (m < length p)%nat -> at_ (eval (with_leaf k y (p ++ [i]))) m = at_ (eval (with_leaf k y p)) m.
Proof.
  intros Hm. rewrite with_leaf_snoc. repeat case_decide; rewrite eval_snoc, at_app_l; try done;
    rewrite ?length_eval, ?length_with_leaf; try lia; by rewrite with_leaf_ge by lia.
Qed.
Lemma moved_last (p : program) i k y :
  k <> length p -> at_ (eval (with_leaf k y (p ++ [i]))) (length p) = evalInstr (eval (with_leaf k y p)) i.
Proof.
  intros Hk. rewrite with_leaf_snoc_other, eval_snoc by done. apply at_snoc_eq. by rewrite length_eval, length_with_leaf.
Qed.
Lemma moved_leaf (p : program) x c y : at_ (eval (with_leaf (length p) y (p ++ [ILeaf x c]))) (length p) = y.
Proof.
  rewrite with_leaf_snoc, decide_False, decide_True, eval_snoc by (done || lia). apply at_snoc_eq. by rewrite length_eval.
Qed.

Lemma last_leaf (p : program) i x : leaf_at (p ++ [i]) (length p) x -> i = ILeaf x true.
Proof.
  intros [Hk|Hk]; [|rewrite length_app in Hk; cbn in Hk; lia].
  by apply lookup_snoc_Some in Hk as [[? _]|[_ ->]]; [lia|].
Qed.

(** What does not depend on a wanted leaf stays the same. *)
Lemma moved_unwanted (p : program) k x y :
  good p -> leaf_at p k x -> forall m, wanted p !! m = Some false ->
  at_ (eval (with_leaf k y p)) m = at_ (eval p) m.
Proof.
  induction 1 as [|p i Hg IH Hok]; intros Hk m Hm; [done|].
  specialize (IH (leaf_at_prefix _ _ _ _ Hk)). rewrite wanted_snoc in Hm.
  apply lookup_snoc_Some in Hm as [[Hlt Hm]|[-> Hm]]; rewrite length_wanted in *.
  - rewrite moved_prefix, IH, eval_snoc, at_app_l by (rewrite ?length_eval; done). done.
  - destruct (decide (k = length p)) as [->|Hne].
    { apply last_leaf in Hk as ->. done. }
    rewrite moved_last, eval_snoc, at_snoc_eq by (rewrite ?length_eval; done).
    destruct i as [z c|o js]; [done|]. cbn [evalInstr]. destruct Hok as (Hj & _ & _).
    rewrite length_eval, <- length_wanted in Hj. pose proof (wants_false _ _ _ Hj Hm) as Hf. f_equal.
    apply list_fmap_ext. intros n j Hn%list_elem_of_lookup_2. apply IH. by apply (proj1 (Forall_forall _ _) Hf).
Qed.

Lemma tangents_deriv (p : program) k (c : R -> A) t dx :
  good p -> leaf_at p k (c t) -> deriv c t dx -> forall m, (m < length p)%nat ->
  deriv (fun u => at_ (eval (with_leaf k (c u) p)) m) t (dir (tangents k dx p) m).
Proof.
  intros Hg Hk Hc. induction Hg as [|p i Hg IH Hok]; intros m Hm; [cbn in Hm; lia|].
  pose proof (leaf_at_prefix _ _ _ _ Hk) as Hk'. specialize (IH Hk'). rewrite length_app in Hm. cbn in Hm.
  rewrite tangents_snoc. destruct (decide (m = length p)) as [->|Hne].
  2: { rewrite dir_app_l by (rewrite length_tangents; lia).
       eapply deriv_ext_curve; [|apply IH; lia]. intros u. by rewrite moved_prefix by lia. }
  rewrite dir_snoc_eq by (by rewrite length_tangents).
  destruct (decide (k = length p)) as [->|Hkp].
  - pose proof (last_leaf _ _ _ Hk) as ->. cbn [tangent]. rewrite length_tangents, decide_True by done.
    eapply deriv_ext_curve; [|exact Hc]. intros u. by rewrite moved_leaf.
  - eapply deriv_ext_curve; [intros u; symmetry; by apply moved_last|].
    destruct i as [y b|o js]; cbn [tangent evalInstr ok_at] in *.
    { rewrite length_tangents, decide_False by done. apply deriv_const_curve. }
    destruct Hok as (Hj & Hd & Hf). rewrite length_eval in Hj. pose proof (proj1 (Forall_forall _ _) Hj) as Hj'. cbn in Hj'.
    destruct (wants (wanted p) (IOp o js)) eqn:Ew.
    + set (cs := (fun j u => at_ (eval (with_leaf k (c u) p)) j) <$> js).
      assert (Ecs : forall u, (fun c => c u) <$> cs = at_ (eval (with_leaf k (c u) p)) <$> js).
      { intros u. unfold cs. by rewrite <- list_fmap_compose. }
      assert (Et : (fun c => c t) <$> cs = at_ (eval p) <$> js) by (by rewrite Ecs, with_leaf_same).
      rewrite <- Et. eapply deriv_ext_curve; [intros u; by rewrite <- Ecs|]. apply op_deriv.
      * by rewrite Et.
      * unfold cs. rewrite Forall2_fmap_l, Forall2_fmap_r. apply Forall_Forall2_diag, Forall_forall. intros j Hin. apply IH. auto.
      * unfold cs. intros n c' Hn Hz u. rewrite list_lookup_fmap in Hn. destruct (js !! n) as [j|] eqn:Ej; [|done].
        injection Hn as <-. rewrite (moved_unwanted p k (c t)), (moved_unwanted p k (c t)); eauto.
    + rewrite <- length_wanted in Hj. pose proof (wants_false _ _ _ Hj Ew) as Hw.
      eapply deriv_ext_curve; [|apply (deriv_const_curve (fwd o (at_ (eval p) <$> js)))]. intros u. cbn beta. f_equal.
      apply list_fmap_ext. intros n j Hn%list_elem_of_lookup_2. symmetry. apply (moved_unwanted p k (c t)); [done|done|].
      by apply (proj1 (Forall_forall _ _) Hw).
Qed.
End Tangents.
