(* ===== verification/AutogradAdjoint.v ===== *)
(** The graph a straight-line program builds and the adjoint identity: the
    gradients that [backward] leaves at the leaves of a program pair with every
    direction to the derivative of the result along it, over any space of arrays and
    any operations that meet the interface of [AutogradPrograms]. *)
From S2P Require Import Prelude Autograd AutogradProofs AutogradFunctions AutogradReal RealSum AutogradPrograms.
From Stdlib Require Import Reals Lra.

#[local] Open Scope R_scope.

(** * The graph a program builds *)

Section Graph.
Context {O A V : Type} `{SL : SpaceLaws A V} `{!Ops O A V} `{OL : !OpLaws O A V}.
Abbreviation program := (list (instr O A)).
Abbreviation heap := (Autograd.heap (A := A)).
#[local] Existing Instance like_equiv.

(** The record of variable [v] of an instruction whose operands are the variables
    [env] has at [js], of values [xs]: an operation below which something wants a gradient keeps
    its operands and a gradient function that answers as [shares] says. *)
Definition record (h : heap) (env : list var) (cs : list bool) (xs : list A) (i : instr O A) (c : bool) (v : var) : Prop :=
  match i with
  | IOp o js =>
      if c then exists f, gradFunc (sg (grad_ v) h) = Some f
        /\ Forall2 (fun y j => exists w, env !! j = Some w /\ grad_ y = grad_ w /\ live y h) (inputs (sg (grad_ v) h)) js
        /\ forall g, like g (fwd o xs) ->
           exists l, f (views (inputs (sg (grad_ v) h)) h) g = Ok l /\ shares o ((fun j => default false (cs !! j)) <$> js) xs g l
      else gradFunc (sg (grad_ v) h) = None
  | ILeaf _ _ => gradFunc (sg (grad_ v) h) = None
  end.

Record node (h : heap) (env : list var) (cs : list bool) (vs : list A) (i : instr O A) (x : A) (c : bool) (v : var) : Prop := {
  nd_live : live v h;
  nd_array : array v h = x;
  nd_calc : isCalcGrad v h = c;
  nd_hook : onGradAvailable (sg (grad_ v) h) = None;
  nd_record : record h env cs (match i with IOp _ js => at_ vs <$> js | _ => [] end) i c v
}.

Record built (p : program) (env : list var) (h : heap) : Prop := {
  bu_wf : wf h;
  bu_length : length env = length p;
  bu_nodup : NoDup (grad_ <$> env);
  bu_clean : forall u, grad (sg u h) = None;
  bu_node : forall m i, p !! m = Some i -> exists v c,
    env !! m = Some v /\ wanted p !! m = Some c /\ node h env (wanted p) (eval p) i (at_ (eval p) m) c v
}.

(** Growing the heap and the environment keeps the nodes. *)
Lemma node_mono (h h' : heap) env env' cs cs' vs vs' n i x c v :
  wf h -> grown h h' -> (forall u, (u < next h)%nat -> sg u h' = sg u h) ->
  (forall j, (j < n)%nat -> env' !! j = env !! j /\ cs' !! j = cs !! j /\ at_ vs' j = at_ vs j) ->
  match i with IOp _ js => Forall (fun j => (j < n)%nat) js | _ => True end ->
  node h env cs vs i x c v -> node h' env' cs' vs' i x c v.
Proof.
  intros W G Hsg He Hi [N1 N2 N3 N4 N5]. pose proof N1 as [_ Hv]. split.
  - by eapply live_grown.
  - by rewrite (gr_array _ _ G).
  - unfold isCalcGrad. by rewrite Hsg.
  - by rewrite Hsg.
  - destruct i as [y b|o js]; cbn [record] in *; rewrite Hsg by done; [done|]. destruct c; [|done].
    destruct N5 as (f & Ef & Hin & Hf). exists f. split; [done|].
    pose proof (proj1 (Forall_forall _ _) Hi) as Hi'. cbn in Hi'. split.
    + apply Forall2_lookup. intros k. rewrite Forall2_lookup in Hin. specialize (Hin k).
      destruct (inputs _ !! k) as [y|], (js !! k) as [j|] eqn:Ek; inv Hin; constructor.
      match goal with Hx : exists w, _ |- _ => destruct Hx as (w & Hw & Ew & Lw) end. exists w. destruct (He j) as [-> _]; [by eapply Hi', list_elem_of_lookup_2|].
      split_and!; [done|done|by eapply live_grown].
    + assert (Ex : at_ vs' <$> js = at_ vs <$> js).
      { apply list_fmap_ext. intros k j Hk%list_elem_of_lookup_2. apply He. auto. }
      assert (Ec : (fun j => default false (cs' !! j)) <$> js = (fun j => default false (cs !! j)) <$> js).
      { apply list_fmap_ext. intros k j Hk%list_elem_of_lookup_2. destruct (He j) as (_ & -> & _); auto. }
      rewrite Ex, Ec, (views_grown h h') by done. exact Hf.
Qed.

Lemma built_snoc p i env (h : heap) v' h' :
  good p -> ok_at (eval p) (wanted p) i -> built p env h ->
  wf h' -> grown h h' -> (forall u, (u < next h)%nat -> sg u h' = sg u h) -> (next h <= grad_ v')%nat ->
  (forall u, grad (sg u h') = None) ->
  node h' env (wanted p) (eval p) i (evalInstr (eval p) i) (wants (wanted p) i) v' ->
  built (p ++ [i]) (env ++ [v']) h'.
Proof.
  intros Hg Hok [W BL BN BC BD] W' G Hsg Hv' Hc Hn.
  assert (Hold : forall n, (n < length p)%nat -> (env ++ [v']) !! n = env !! n
    /\ wanted (p ++ [i]) !! n = wanted p !! n /\ at_ (eval (p ++ [i])) n = at_ (eval p) n).
  { intros n Hlt. rewrite wanted_snoc, eval_snoc, !lookup_app_l, at_app_l; rewrite ?length_wanted, ?length_eval, ?BL; done. }
  split; [done| | |done|].
  - rewrite !length_app, BL. done.
  - rewrite fmap_app. apply NoDup_app. split_and!; [done| |apply NoDup_singleton].
    intros u (v & -> & Hv)%list_elem_of_fmap Hu. apply list_elem_of_singleton in Hu.
    apply list_elem_of_lookup in Hv as [m Hm]. destruct (lookup_lt_is_Some_2 p m) as [j Hj].
    { rewrite <- BL. by eapply lookup_lt_Some. }
    destruct (BD m j Hj) as (w & c & Hw & _ & [[_ Hl] _ _ _ _]). assert (w = v) as -> by congruence. lia.
  - intros m j Hm. apply lookup_snoc_Some in Hm as [[Hlt Hm]|[-> <-]].
    + destruct (BD m j Hm) as (v & c & Hv & Hcm & Hnode). exists v, c.
      destruct (Hold m Hlt) as (-> & -> & ->). split_and!; [done|done|].
      eapply (node_mono h h' env _ (wanted p) _ (eval p) _ (length p)); [done|done|done|exact Hold| |exact Hnode].
      destruct j as [y b|o js]; [done|]. destruct (op_at p m o js Hg Hm) as (Hj & _). eapply Forall_impl; [exact Hj|]. cbn. lia.
    + exists v', (wants (wanted p) i). rewrite wanted_snoc, !lookup_app_r, length_wanted, BL, Nat.sub_diag
        by (rewrite ?length_wanted; lia). split_and!; [done|done|].
      rewrite eval_snoc, at_snoc_eq, <- eval_snoc, <- wanted_snoc by (by rewrite length_eval).
      eapply (node_mono h' h' env _ (wanted p) _ (eval p) _ (length p)); [done|apply grown_refl|done|exact Hold| |exact Hn].
      destruct i as [y b|o js]; [done|]. destruct Hok as (Hj & _). by rewrite length_eval in Hj.
Qed.

Lemma built_lookup p env (h : heap) m :
  built p env h -> (m < length p)%nat ->
  exists v c, env !! m = Some v /\ wanted p !! m = Some c /\ live v h /\ array v h = at_ (eval p) m /\ isCalcGrad v h = c.
Proof.
  intros B Hm. destruct (lookup_lt_is_Some_2 p m Hm) as [i Hi].
  destruct (bu_node _ _ _ B m i Hi) as (v & c & Hv & Hc & [N1 N2 N3 _ _]). by exists v, c.
Qed.

(** The variables of the operands. *)
Lemma built_operands p env (h : heap) js :
  built p env h -> Forall (fun j => (j < length p)%nat) js ->
  exists vs, mapM (fun j => env !! j) js = Some vs /\ Forall2 (fun v j => env !! j = Some v) vs js
    /\ (forall v, v ∈ vs -> live v h) /\ arrays h vs = at_ (eval p) <$> js
    /\ flags h vs = (fun j => default false (wanted p !! j)) <$> js.
Proof.
  intros B. induction 1 as [|j js Hj _ IH].
  { exists []. split_and!; try done. by intros v ?%elem_of_nil. }
  destruct (built_lookup p env h j B Hj) as (v & c & Hv & Hc & Lv & Av & Cv). destruct IH as (vs & E & F & L & Ea & Ef).
  exists (v :: vs). cbn [mapM]. rewrite Hv. cbn [mbind option_bind]. rewrite E. split_and!.
  - done.
  - by constructor.
  - intros w [->|Hw]%elem_of_cons; auto.
  - unfold arrays in *. by rewrite !fmap_cons, Av, Ea.
  - unfold flags in *. by rewrite !fmap_cons, Hc, Cv, Ef.
Qed.

Lemma existsb_flags (h : heap) vs keeps : length keeps = length vs ->
  existsb (fun q : var * bool => isCalcGrad q.1 h) (zip vs keeps) = existsb (fun b : bool => b) (flags h vs).
Proof.
  revert keeps. induction vs as [|v vs IH]; intros [|b keeps] E; try done. cbn in *. by rewrite IH by lia.
Qed.

Lemma wants_flags (cs : list bool) (o : O) js :
  wants (A := A) cs (IOp o js) = existsb (fun b : bool => b) ((fun j => default false (cs !! j)) <$> js).
Proof. induction js as [|j js IH]; [done|]. cbn in *. by rewrite IH. Qed.

(** The new node of an operation: its operands are stored with its gradient function. *)
Lemma node_makeOp (h : heap) env cs avs vs js keeps o f :
  wf h -> (forall v, v ∈ vs -> live v h) -> length keeps = length vs ->
  Forall2 (fun v j => env !! j = Some v) vs js ->
  arrays h vs = at_ avs <$> js -> flags h vs = (fun j => default false (cs !! j)) <$> js ->
  (forall vws g, like g (fwd o (arrays h vs)) -> Forall2 (seen h) (zip vs keeps) vws ->
     exists l, f vws g = Ok l /\ shares o (flags h vs) (arrays h vs) g l) ->
  (forall u, grad (sg u h) = None) ->
  exists v' h', makeOp (fwd o (arrays h vs)) (zip vs keeps) f h = (v', h') /\ wf h' /\ grown h h'
    /\ (forall u, (u < next h)%nat -> sg u h' = sg u h)
    /\ (next h <= grad_ v')%nat /\ (forall u, grad (sg u h') = None)
    /\ node h' env cs avs (IOp o js) (fwd o (at_ avs <$> js)) (wants (A := A) cs (IOp o js)) v'.
Proof.
  intros W Hl Hk Hes Ea Ec Hf Hclean.
  assert (Hl' : forall q, q ∈ zip vs keeps -> live q.1 h).
  { intros [v b] Hq. apply elem_of_zip_l in Hq. by apply Hl. }
  destruct (makeOp_spec (fwd o (arrays h vs)) (zip vs keeps) f h W Hl')
    as (v' & h' & l & E & W' & G & Lv & Hnx & Ha & Hst & Hold & Hfresh & Hs).
  rewrite existsb_flags, Ec, <- (wants_flags cs o js) in Hs by done.
  exists v', h'. split_and!; [done|done|done|done|done| |].
  { intros u. destruct (decide (u < next h)%nat) as [Hu|Hu]; [by rewrite Hold|].
    destruct (decide (u = grad_ v')) as [->|Hne]; [rewrite Hs; by destruct (wants (A := A) _ _)|].
    rewrite Hfresh by (done || lia). done. }
  split; [done|by rewrite Ha, Ea| | |].
  - unfold isCalcGrad at 1. rewrite Hs. by destruct (wants (A := A) _ _).
  - rewrite Hs. by destruct (wants (A := A) _ _).
  - unfold record. rewrite Hs. destruct (wants (A := A) cs (IOp o js)) eqn:Ex; cbn [gradFunc inputs newSharedGrad]; [|done].
    exists f. split; [done|]. split.
    + apply Forall2_lookup. intros k. rewrite Forall2_lookup in Hst. rewrite Forall2_lookup in Hes. specialize (Hst k). specialize (Hes k).
      destruct (vs !! k) as [v|] eqn:Ev.
      * inv Hes. destruct (lookup_lt_is_Some_2 keeps k) as [b Hb]; [rewrite Hk; by eapply lookup_lt_Some|].
        replace (zip vs keeps !! k) with (Some (v, b)) in Hst by (symmetry; by apply lookup_zip_Some).
        inv Hst. constructor. match goal with Hx : stored _ _ _ _ |- _ => destruct Hx as (E1 & E2 & _) end. eauto.
      * inv Hes. replace (zip vs keeps !! k) with (@None (var * bool)) in Hst; [inv Hst; constructor|].
        symmetry. apply lookup_ge_None. rewrite length_zip_with. apply lookup_ge_None in Ev. lia.
    + intros g Hg. rewrite <- Ea in *. rewrite <- Ec. apply Hf; [done|].
      unfold views. apply Forall2_fmap_r. apply Forall2_lookup. intros k.
      rewrite Forall2_lookup in Hst. specialize (Hst k). destruct (zip vs keeps !! k) as [q|] eqn:Eq; inv Hst; constructor.
      match goal with Hx : stored _ _ _ _ |- _ => destruct Hx as (E1 & E2 & E3) end. cbn. apply list_elem_of_lookup_2, Hl' in Eq as Lq.
      split; [|by intros; apply E3]. unfold isCalcGrad. destruct Lq. by rewrite E1, Hold.
Qed.

Lemma exec_built p : good p -> exists env h, exec p = Ok (env, h) /\ built p env h.
Proof.
  induction 1 as [|p i Hg IH Hok].
  { exists [], empty_heap. split; [done|]. split; [|done|apply NoDup_nil_2|done|done].
    apply reachable_wf. constructor. }
  destruct IH as (env & h & E & B). unfold exec in *. rewrite foldM_result_app, E. cbn [foldM_result].
  pose proof (bu_wf _ _ _ B) as W. pose proof (bu_clean _ _ _ B) as Hclean.
  destruct i as [x c|o js]; cbn [exec1].
  - rewrite newVariable_alloc. eexists _, _. split; [done|].
    set (s := MkSharedGrad c [] None None None). pose proof (grown_alloc x s h) as G.
    eapply built_snoc; [done|done|done| |exact G| |cbn; lia| |].
    + apply wf_alloc; [done| |done|done|done]. by intros ? ?%elem_of_nil.
    + intros u Hu. by rewrite sg_alloc, decide_False by lia.
    + intros u. rewrite sg_alloc. by case_decide.
    + assert (Es : sg (grad_ (Var (next h) (next h))) (alloc x s h) = s) by (by rewrite sg_alloc, decide_True).
      split; [apply live_new|apply array_alloc_new|..]; unfold record; rewrite ?Es; [unfold isCalcGrad; by rewrite Es|done..].
  - pose proof Hok as (Hj & Hd & Hf). rewrite length_eval in Hj.
    destruct (built_operands p env h js B Hj) as (vs & -> & F & L & Ea & Ec). rewrite <- Ea in Hd.
    destruct (op_run o vs h Hd) as (keeps & f & Hk & -> & Hgf).
    { intros k v Hv Hz. destruct (Forall2_lookup_l _ _ _ _ _ F Hv) as (j & Hjk & Ej).
      assert (Hfl : flags h vs !! k = Some (isCalcGrad v h)) by (unfold flags; by rewrite list_lookup_fmap, Hv).
      rewrite Ec, list_lookup_fmap, Hjk in Hfl. cbn in Hfl. injection Hfl as <-. by rewrite (Hf k j). }
    destruct (node_makeOp h env (wanted p) (eval p) vs js keeps o f W L Hk F Ea Ec Hgf Hclean)
      as (v' & h' & -> & W' & G & Hold & Hnx & Hcl & Hn).
    eexists _, _. split; [done|]. by eapply built_snoc.
Qed.
End Graph.

(** * The adjoint identity *)

Section Adjoint.
Context {O A V : Type} `{SL : SpaceLaws A V} `{!Ops O A V} `{OL : !OpLaws O A V}.
Abbreviation heap := (Autograd.heap (A := A)).
#[local] Existing Instance like_equiv.
Context (p : list (instr O A)) (env : list var) (h : heap).
Hypothesis Hgood : good p.
Hypothesis Hb : built p env h.

(** The variables of the graph are those of the program. *)
Definition of_program (x : var) : Prop := live x h /\ exists m i w, p !! m = Some i /\ env !! m = Some w /\ grad_ w = grad_ x.

(** The arrays that can be gradients of a record. *)
Definition gradient_like (u : nat) (g : A) : Prop :=
  forall m w, env !! m = Some w -> grad_ w = u -> like g (at_ (eval p) m).

Lemma env_inj m n v w : env !! m = Some v -> env !! n = Some w -> grad_ v = grad_ w -> m = n.
Proof.
  intros Hm Hn E. eapply (NoDup_lookup (grad_ <$> env)); [apply Hb| |].
  - rewrite list_lookup_fmap, Hm. cbn. by rewrite E.
  - by rewrite list_lookup_fmap, Hn.
Qed.

Lemma gradient_like_at m w g : env !! m = Some w -> like g (at_ (eval p) m) -> gradient_like (grad_ w) g.
Proof. intros Hw Hg n w' Hw' E. by rewrite (env_inj n m w' w). Qed.

Lemma gradient_like_add u x y : gradient_like u x -> gradient_like u y -> gradient_like u (a_add x y).
Proof. intros Hx Hy m w Hw E. apply like_add; eauto. Qed.

Lemma program_node x :
  of_program x -> exists m i w c, p !! m = Some i /\ env !! m = Some w /\ grad_ w = grad_ x
    /\ wanted p !! m = Some c /\ node h env (wanted p) (eval p) i (at_ (eval p) m) c w.
Proof.
  intros [_ (m & i & w & Hm & Hw & E)]. destruct (bu_node _ _ _ Hb m i Hm) as (w' & c & Hw' & Hc & Hn).
  assert (w' = w) as -> by congruence. by exists m, i, w, c.
Qed.

(** Flags of an input, by the position of its operand. *)
Lemma input_flag i m w c :
  env !! m = Some w -> grad_ i = grad_ w -> wanted p !! m = Some c -> isCalcGrad i h = c.
Proof.
  intros Hw E Hc. unfold isCalcGrad. rewrite E. apply lookup_lt_Some in Hc as Hlt. rewrite length_wanted in Hlt.
  destruct (built_lookup p env h m Hb Hlt) as (w' & c' & Hw' & Hc' & _ & _ & Hcalc).
  assert (w' = w) as -> by congruence. assert (c' = c) as -> by congruence. exact Hcalc.
Qed.

(** A record with a gradient function is that of an operation; what the function
    answers. *)
Lemma program_calls x f :
  of_program x -> gradFunc (sg (grad_ x) h) = Some f ->
  exists m o js w, p !! m = Some (IOp o js) /\ env !! m = Some w /\ grad_ w = grad_ x
    /\ wants (A := A) (wanted p) (IOp o js) = true /\ Forall (fun j => (j < m)%nat) js
    /\ Forall2 (fun y j => exists w, env !! j = Some w /\ grad_ y = grad_ w /\ live y h) (inputs (sg (grad_ x) h)) js
    /\ forall g, gradient_like (grad_ x) g ->
       f (views (inputs (sg (grad_ x) h)) h) g = Ok (calls h (grad_ x) g)
       /\ shares o ((fun j => default false (wanted p !! j)) <$> js) (at_ (eval p) <$> js) g (calls h (grad_ x) g).
Proof.
  intros Hx Ef. destruct (program_node x Hx) as (m & i & w & c & Hm & Hw & E & Hc & Hn).
  pose proof (nd_record _ _ _ _ _ _ _ _ Hn) as Hr. unfold record in Hr. rewrite E in Hr.
  destruct i as [y b|o js]; [congruence|]. destruct c; [|congruence].
  destruct Hr as (f' & Ef' & HI & Hf). assert (f' = f) as -> by congruence.
  destruct (op_at p m o js Hgood Hm) as (Hj & _ & Ev & Hw' & _). exists m, o, js, w. split_and!; try done; [congruence|].
  intros g Hg. destruct (Hf g) as (l & El & Sl). { rewrite <- Ev. by eapply Hg. }
  unfold calls. by rewrite Ef, El.
Qed.

Lemma program_inputs x i : of_program x -> i ∈ getInputs x h -> of_program i.
Proof.
  intros Hx Hi. unfold getInputs in Hi. destruct (gradFunc (sg (grad_ x) h)) as [f|] eqn:Ef.
  2: { rewrite (wf_leaf _ (bu_wf _ _ _ Hb) _ Ef) in Hi. by apply elem_of_nil in Hi. }
  destruct (program_calls x f Hx Ef) as (m & o & js & w & Hm & Hw & E & _ & Hj & HF & _).
  apply list_elem_of_lookup in Hi as [k Hk]. destruct (Forall2_lookup_l _ _ _ _ _ HF Hk) as (j & Hjk & w' & Hw' & Eg & Hl).
  split; [done|]. apply lookup_lt_Some in Hm. pose proof (proj1 (Forall_forall _ _) Hj j) as Hlt.
  apply list_elem_of_lookup_2 in Hjk. destruct (lookup_lt_is_Some_2 p j) as [i' Hi']; [specialize (Hlt Hjk); cbn in Hlt; lia|].
  by exists j, i', w'.
Qed.

Lemma calls_proper x g :
  of_program x -> gradient_like (grad_ x) g ->
  Forall (proper (inputs (sg (grad_ x) h)) h gradient_like) (calls h (grad_ x) g).
Proof.
  intros Hx Hg. destruct (gradFunc (sg (grad_ x) h)) as [f|] eqn:Ef; [|unfold calls; by rewrite Ef].
  destruct (program_calls x f Hx Ef) as (m & o & js & w & _ & _ & _ & _ & _ & HF & Hf).
  destruct (Hf g Hg) as (_ & S1 & _). eapply Forall_impl; [exact S1|]. intros c (xx & Hxx & Hlike).
  rewrite list_lookup_fmap in Hxx. destruct (js !! c.1) as [j|] eqn:Ej; [|done]. injection Hxx as <-.
  destruct (Forall2_lookup_r _ _ _ _ _ HF Ej) as (y & Hy & w' & Hw' & Eg & _).
  exists y. split_and!; [done|apply one_type|]. rewrite Eg. by apply (gradient_like_at j).
Qed.

Lemma program_typed v : of_program v -> typed_graph h gradient_like (build v h).
Proof.
  intros Hv. pose proof (build_forall of_program v h program_inputs Hv) as HF. rewrite Forall_forall in HF. split.
  - intros x Hx. by apply HF.
  - intros x Hx. destruct (program_node x (HF x Hx)) as (m & i & w & c & _ & _ & <- & _ & Hn). apply Hn.
  - intros x f g Hx Ef Hg. destruct (program_calls x f (HF x Hx) Ef) as (m & o & js & w & _ & _ & _ & _ & _ & _ & Hf).
    exists (calls h (grad_ x) g). by apply Hf.
  - intros x g Hx Hg. by apply calls_proper; auto.
  - intros x y g Hx Hg Hy Cy. destruct (gradFunc (sg (grad_ x) h)) as [f|] eqn:Ef.
    2: { rewrite (wf_leaf _ (bu_wf _ _ _ Hb) _ Ef) in Hy. by apply elem_of_nil in Hy. }
    destruct (program_calls x f (HF x Hx) Ef) as (m & o & js & w & _ & _ & _ & _ & _ & HI & Hf).
    destruct (Hf g Hg) as (_ & _ & S2 & _).
    apply list_elem_of_lookup in Hy as [k Hk]. destruct (Forall2_lookup_l _ _ _ _ _ HI Hk) as (j & Hj & w' & Hw' & Ey & _).
    destruct (lookup_lt_is_Some_2 (wanted p) j) as [ce Hce].
    { rewrite length_wanted, <- (bu_length _ _ _ Hb). by eapply lookup_lt_Some. }
    pose proof (input_flag y j w' ce Hw' Ey Hce) as Ec. rewrite Cy in Ec. subst ce.
    destruct (S2 k) as [a Ha]; [by rewrite list_lookup_fmap, Hj; cbn; rewrite Hce|]. intros Hnil.
    assert (Hin : a ∈ contribs h (grad_ y) (grad_ x) g).
    { unfold contribs. apply list_elem_of_omap. exists (k, a). split; [done|]. unfold contrib. cbn [fst snd]. rewrite Hk.
      by rewrite decide_True. }
    rewrite Hnil in Hin. by apply elem_of_nil in Hin.
Qed.

(** ** Directions of the records *)

Context (k : nat) (x0 : A) (dx : V).
Hypothesis Hleaf : p !! k = Some (ILeaf x0 true).

Definition D (u : nat) : V := default vzero ((list_to_map (zip (grad_ <$> env) (tangents k dx p)) : gmap nat V) !! u).

Lemma D_at m w : env !! m = Some w -> D (grad_ w) = dir (tangents k dx p) m.
Proof.
  intros Hw. apply lookup_lt_Some in Hw as Hlt. rewrite (bu_length _ _ _ Hb) in Hlt.
  destruct (lookup_lt_is_Some_2 (tangents k dx p) m) as [t Ht]; [by rewrite length_tangents|].
  unfold D, dir. rewrite Ht. rewrite (elem_of_list_to_map_1 _ (grad_ w) t); [done| |].
  - rewrite fst_zip; [apply Hb|]. rewrite length_fmap, length_tangents, (bu_length _ _ _ Hb). done.
  - apply list_elem_of_lookup. exists m. apply lookup_zip_Some. by rewrite list_lookup_fmap, Hw.
Qed.

Definition callsTo (x : var) (c : nat * A) : R :=
  match inputs (sg (grad_ x) h) !! c.1 with
  | Some i => if isCalcGrad i h then ip c.2 (D (grad_ i)) else 0
  | None => 0
  end.

(** What the calls of a variable are worth. *)
Lemma node_adjoint x g :
  of_program x -> gradient_like (grad_ x) g ->
  Rsum (calls h (grad_ x) g) (callsTo x)
  = match gradFunc (sg (grad_ x) h) with Some _ => ip g (D (grad_ x)) | None => 0 end.
Proof.
  intros Hx Hg. destruct (gradFunc (sg (grad_ x) h)) as [f|] eqn:Ef; [|unfold calls; by rewrite Ef].
  destruct (program_calls x f Hx Ef) as (m & o & js & w & Hm & Hw & E & Hwant & Hj & HI & Hf).
  destruct (Hf g Hg) as (_ & S1 & _ & S3). set (T := dir (tangents k dx p) <$> js).
  assert (HT : forall n j, js !! n = Some j -> dir T n = dir (tangents k dx p) j).
  { intros n j Hn. unfold T, dir at 1. by rewrite list_lookup_fmap, Hn. }
  replace (D (grad_ x)) with (D (grad_ w)) by (by rewrite E).
  rewrite (D_at m w Hw). destruct (op_at p m o js Hgood Hm) as (_ & _ & _ & _ & _ & Ht).
  rewrite Ht, Hwant. fold T. rewrite <- S3.
  - apply Rsum_ext. intros c Hc. rewrite Forall_forall in S1. destruct (S1 c Hc) as (xx & Hxx & _).
    rewrite list_lookup_fmap in Hxx. destruct (js !! c.1) as [j|] eqn:Ej; [|done]. unfold callsTo.
    destruct (Forall2_lookup_r _ _ _ _ _ HI Ej) as (y & Hy & w' & Hw' & Ey & _). rewrite Hy, (HT _ _ Ej).
    destruct (lookup_lt_is_Some_2 (wanted p) j) as [ce Hce].
    { rewrite length_wanted, <- (bu_length _ _ _ Hb). by eapply lookup_lt_Some. }
    rewrite (input_flag y j w' ce Hw' Ey Hce), Ey, (D_at j w' Hw'). destruct ce; [done|].
    by rewrite (unwanted_zero p j k x0 dx Hgood Hleaf Hce), ip_zero.
  - unfold T. by rewrite !length_fmap.
  - intros n Hn. rewrite list_lookup_fmap in Hn. destruct (js !! n) as [j|] eqn:Ej; [|done]. cbn in Hn.
    unfold T. rewrite list_lookup_fmap, Ej. cbn. f_equal.
    destruct (wanted p !! j) as [[|]|] eqn:Ew; [done| |].
    + by apply (unwanted_zero p j k x0 dx).
    + apply lookup_ge_None in Ew. rewrite length_wanted in Ew. apply list_elem_of_lookup_2 in Ej.
      pose proof (proj1 (Forall_forall _ _) Hj j Ej) as Hlt. cbn in Hlt. apply lookup_lt_Some in Hm. lia.
Qed.

Lemma contribs_sum ws x g :
  NoDup ws -> (forall i, i ∈ inputs (sg (grad_ x) h) -> grad_ i ∈ ws) ->
  Rsum ws (fun w => Rsum (contribs h w (grad_ x) g) (fun r => ip r (D w))) = Rsum (calls h (grad_ x) g) (callsTo x).
Proof.
  intros Hnd Hin. unfold contribs. induction (calls h (grad_ x) g) as [|c l IH]; [apply Rsum_zero|].
  rewrite Rsum_cons, <- IH.
  set (one := fun w => match contrib (inputs (sg (grad_ x) h)) h w c with Some a => ip a (D w) | None => 0 end).
  rewrite (Rsum_ext _ _ (fun w => one w + Rsum (omap (contrib (inputs (sg (grad_ x) h)) h w) l) (fun r => ip r (D w)))).
  2: { intros w _. unfold one. cbn [omap list_omap]. destruct (contrib _ h w c); rewrite ?Rsum_cons; [done|ring]. }
  rewrite Rsum_plus. f_equal. unfold one, contrib, callsTo. destruct (inputs (sg (grad_ x) h) !! c.1) as [i|] eqn:Ei.
  - apply list_elem_of_lookup_2 in Ei. destruct (isCalcGrad i h).
    + rewrite <- (Rsum_one ws (grad_ i) (ip c.2 (D (grad_ i)))) by auto. apply Rsum_ext. intros w _.
      destruct (decide (w = grad_ i)) as [->|]; [by rewrite decide_True|by rewrite decide_False by tauto].
    + apply Rsum_all_zero. intros w _. rewrite decide_False; [done|]. by intros [].
  - by apply Rsum_all_zero.
Qed.

(** A record without gradient function carries weight only at leaf [k]. *)
Lemma leaf_weight x vk :
  of_program x -> env !! k = Some vk ->
  match gradFunc (sg (grad_ x) h) with
  | Some _ => grad_ x <> grad_ vk
  | None => D (grad_ x) = if decide (grad_ x = grad_ vk) then dx else vzero
  end.
Proof.
  intros Hx Hvk. destruct (program_node x Hx) as (m & i & w & c & Hm & Hw & E & Hc & Hn). rewrite <- E.
  assert (Hinj : grad_ w = grad_ vk -> m = k) by (intros; by eapply env_inj).
  pose proof (nd_record _ _ _ _ _ _ _ _ Hn) as Hr. unfold record in Hr.
  destruct i as [y b|o js].
  - rewrite Hr, (D_at m w Hw). destruct (leaf_value p m y b Hm) as (_ & _ & ->).
    repeat case_decide; try done; [|exfalso; by auto]. subst m. exfalso. congruence.
  - destruct c.
    + destruct Hr as (f & -> & _). intros Eg. rewrite (Hinj Eg) in Hm. congruence.
    + rewrite Hr, (D_at m w Hw), (unwanted_zero p m k x0 dx) by done. rewrite decide_False; [done|].
      intros Eg. rewrite (Hinj Eg) in Hm. congruence.
Qed.

(** The pairing of an optional gradient, and of an accumulated one. *)
Definition ipo (o : option A) (d : V) : R := match o with Some a => ip a d | None => 0 end.

Lemma accum_ip l o x d :
  (forall a, a ∈ l -> like a x) -> (forall a, o = Some a -> like a x) ->
  ipo (fold_left accum l o) d = ipo o d + Rsum l (fun a => ip a d).
Proof.
  revert o. induction l as [|a l IH]; intros o Hl Ho; cbn [fold_left]; rewrite ?Rsum_cons, ?Rsum_nil; [ring|].
  assert (Ha : like a x) by (apply Hl; by left). rewrite IH.
  - destruct o as [b|]; cbn [accum ipo]; [|ring]. rewrite ip_add; [ring|]. transitivity x; [auto|by symmetry].
  - intros b Hb'. apply Hl. by right.
  - intros b [= <-]. destruct o as [c|]; [apply like_add; auto|done].
Qed.

Lemma received_like v fin w a :
  of_program v -> (forall u g, (u < next h)%nat -> fin u = Some g -> gradient_like u g) ->
  a ∈ received h fin (reverse (build v h)) w -> gradient_like w a.
Proof.
  intros Hv Hty Ha. pose proof (build_forall of_program v h program_inputs Hv) as HF. rewrite Forall_forall in HF.
  unfold received in Ha. apply list_elem_of_In, in_concat in Ha as (l & Hl%list_elem_of_In & Ha%list_elem_of_In).
  apply list_elem_of_fmap in Hl as (x & -> & Hx). rewrite elem_of_reverse in Hx. specialize (HF x Hx).
  destruct (fin (grad_ x)) as [g|] eqn:Eg; [|by apply elem_of_nil in Ha].
  apply list_elem_of_omap in Ha as (c & Hc & Eb). pose proof HF as [[_ Hlt] _].
  pose proof (calls_proper x g HF (Hty _ _ Hlt Eg)) as Hp. rewrite Forall_forall in Hp.
  destruct (Hp c Hc) as (y & Hy & _ & Yy). unfold contrib in Eb. rewrite Hy in Eb. case_decide as Hd; [|done].
  destruct Hd as [-> _]. by injection Eb as <-.
Qed.

Lemma adjoint_identity v vk s (fin : nat -> option A) :
  of_program v -> env !! k = Some vk -> gradient_like (grad_ v) s ->
  (forall u g, (u < next h)%nat -> fin u = Some g -> gradient_like u g) ->
  (forall w, (w < next h)%nat ->
     fin w = fold_left accum (received h fin (reverse (build v h)) w) (if decide (w = grad_ v) then Some s else None)) ->
  ipo (fin (grad_ vk)) dx = ip s (D (grad_ v)).
Proof.
  intros Hv Hvk Hs Hty Hfin. set (dag := build v h). set (ws := grad_ <$> dag).
  destruct (build_aux v h (wf_acyclic _ (bu_wf _ _ _ Hb))) as ([Hnd _] & _ & Hreach). fold dag ws in Hnd, Hreach.
  pose proof (build_forall of_program v h program_inputs Hv) as HF. fold dag in HF. rewrite Forall_forall in HF.
  assert (Hclosed : forall x, x ∈ dag -> forall i, i ∈ inputs (sg (grad_ x) h) -> grad_ i ∈ ws).
  { intros x Hx i Hi. apply Hreach. assert (Hr : reach h (grad_ v) (grad_ x)) by (apply Hreach, list_elem_of_fmap; eauto).
    clear -Hr Hi. induction Hr as [u|u j w Hj _ IH]; [eapply reach_step; [exact Hi|apply reach_refl]|].
    eapply reach_step; [exact Hj|auto]. }
  assert (Hroot : grad_ v ∈ ws) by (apply Hreach, reach_refl).
  set (share := fun x w => match fin (grad_ x) with Some g => Rsum (contribs h w (grad_ x) g) (fun r => ip r (D w)) | None => 0 end).
  set (gain := fun x => match gradFunc (sg (grad_ x) h) with Some _ => ipo (fin (grad_ x)) (D (grad_ x)) | None => 0 end).
  assert (Hshare : forall x, x ∈ dag -> Rsum ws (share x) = gain x).
  { intros x Hx. unfold share, gain. destruct (fin (grad_ x)) as [g|] eqn:Eg.
    - rewrite contribs_sum by (done || by apply Hclosed). rewrite node_adjoint; [done|by auto|].
      apply Hty; [|done]. by destruct (HF x Hx) as [[_ ?] _].
    - rewrite Rsum_zero. by destruct (gradFunc _). }
  assert (Hsum : Rsum ws (fun w => ipo (fin w) (D w)) = ip s (D (grad_ v)) + Rsum dag gain).
  { rewrite (Rsum_ext _ _ (fun w => (if decide (w = grad_ v) then ip s (D (grad_ v)) else 0) + Rsum (reverse dag) (fun x => share x w))).
    - rewrite Rsum_plus, Rsum_one by done. f_equal. rewrite Rsum_swap.
      rewrite (Rsum_perm (reverse dag) dag) by (by rewrite reverse_Permutation). by apply Rsum_ext.
    - intros w (x & -> & Hx)%list_elem_of_fmap. destruct (HF x Hx) as [[_ Hlt] (m & i & w & _ & Hw & Ew)].
      rewrite Hfin by done. rewrite (accum_ip _ _ (at_ (eval p) m)).
      + f_equal; [case_decide as Ex; cbn; [by rewrite Ex|done]|]. unfold received. rewrite Rsum_concat, Rsum_fmap.
        apply Rsum_ext. intros y _. unfold share. by destruct (fin (grad_ y)).
      + intros a Ha. by eapply (received_like v fin).
      + intros a. case_decide as Ex; [|done]. intros [= <-]. eapply Hs; [done|congruence]. }
  assert (Hleaves : Rsum ws (fun w => if decide (w = grad_ vk) then ipo (fin (grad_ vk)) dx else 0) = ip s (D (grad_ v))).
  { cut (Rsum ws (fun w => ipo (fin w) (D w))
         = Rsum ws (fun w => if decide (w = grad_ vk) then ipo (fin (grad_ vk)) dx else 0) + Rsum dag gain); [lra|].
    unfold ws. rewrite !Rsum_fmap, <- Rsum_plus. apply Rsum_ext. intros x Hx. unfold gain.
    pose proof (leaf_weight x vk (HF x Hx) Hvk) as Hw.
    destruct (gradFunc (sg (grad_ x) h)); [rewrite decide_False by done; ring|]. rewrite Hw.
    case_decide as Ex; [rewrite Ex; ring|]. destruct (fin _); cbn; [rewrite ip_zero|]; ring. }
  destruct (decide (grad_ vk ∈ ws)) as [Hin|Hout]; [by rewrite Rsum_one in Hleaves|].
  rewrite <- Hleaves, Rsum_all_zero by (intros w Hw; rewrite decide_False; [done|by intros ->]).
  assert (Hk : (grad_ vk < next h)%nat).
  { apply lookup_lt_Some in Hleaf as Hkl. destruct (built_lookup p env h k Hb Hkl) as (w & c & Hw & _ & [_ ?] & _).
    by simplify_eq. }
  rewrite Hfin by done. rewrite decide_False by congruence. rewrite received_none; [done|].
  intros x Hx i Hi Ei. apply Hout. rewrite <- Ei. eapply Hclosed; [|exact Hi]. revert Hx. by rewrite elem_of_reverse.
Qed.
End Adjoint.

(** * Programs are differentiated correctly *)

Section Main.
Context {O A V : Type} `{SL : SpaceLaws A V} `{!Ops O A V} `{OL : !OpLaws O A V}.
Abbreviation heap := (Autograd.heap (A := A)).

(** The graph of a program after one more variable was made. *)
Lemma built_grown (p : list (instr O A)) env (h : heap) d :
  good p -> built p env h -> built p env (alloc d newSharedGrad h).
Proof.
  intros Hg [W BL BN BC BD]. split; [|done|done| |].
  - apply wf_alloc; [done| |done|done|done]. by intros ? ?%elem_of_nil.
  - intros u. rewrite sg_alloc. by case_decide.
  - intros m i Hm. destruct (BD m i Hm) as (v & c & H1 & H2 & Hn). exists v, c. split_and!; try done.
    eapply (node_mono h _ env env (wanted p) (wanted p) (eval p) (eval p) (length p)); [done|apply grown_alloc| |done| |exact Hn].
    + intros u Hu. by rewrite sg_alloc, decide_False by lia.
    + destruct i as [y b|o js]; [done|]. destruct (op_at p m o js Hg Hm) as (Hj & _). apply lookup_lt_Some in Hm.
      eapply Forall_impl; [exact Hj|]. cbn. lia.
Qed.

(** The gradient a leaf has after [backward] pairs with every direction to the
    derivative of the result along it. *)
Definition gradientOf (p : list (instr O A)) (k r : nat) (x s : A) (g : option A) : Prop :=
  forall c t dx, c t = x -> deriv c t dx ->
    derivable_pt_lim (fun u => ip s (value (at_ (eval (with_leaf k (c u) p)) r))) t (ipo g dx).

Lemma backward_program (p : list (instr O A)) k x r s retain :
  good p -> p !! k = Some (ILeaf x true) -> wanted p !! r = Some true -> like s (at_ (eval p) r) ->
  exists env h v vk h', exec p = Ok (env, h) /\ env !! r = Some v /\ env !! k = Some vk
    /\ (let '(g, h) := newVariable s false h in backward v g retain h) = Ok h'
    /\ gradientOf p k r x s (gradval (grad_ vk) h').
Proof.
  intros Hg Hk Hr Hs. destruct (exec_built p Hg) as (env & h & E & B0).
  assert (Hrl : (r < length p)%nat) by (rewrite <- length_wanted; by eapply lookup_lt_Some).
  assert (Hkl : (k < length p)%nat) by (by eapply lookup_lt_Some).
  pose proof (built_grown p env h s Hg B0) as B. set (h1 := alloc s newSharedGrad h) in *.
  destruct (built_lookup p env h1 r B Hrl) as (v & c & Hv & Hc & Lv & _ & Cv).
  destruct (built_lookup p env h1 k B Hkl) as (vk & ck & Hvk & _ & Lk & _ & _).
  assert (c = true) as -> by congruence.
  assert (Hpv : of_program p env h1 v).
  { split; [done|]. destruct (lookup_lt_is_Some_2 p r Hrl) as [i Hi]. by exists r, i, v. }
  assert (Hsv : gradient_like p env (grad_ v) s) by (by apply (gradient_like_at p env h1 B r)).
  assert (Hclean : forall w, gradval w h1 = None) by (intros w; unfold gradval; by rewrite (bu_clean _ _ _ B)).
  assert (Es : array (Var (next h) (next h)) h1 = s) by apply array_alloc_new.
  destruct (backward_aux retain (gradient_like p env) v (Var (next h) (next h)) h1) as (h' & Eb & _ & Eg & _ & _ & Et).
  - apply B.
  - done.
  - apply live_new.
  - done.
  - apply one_type.
  - by rewrite Es.
  - by apply program_typed.
  - intros w g _. by rewrite Hclean.
  - intros u a b. apply gradient_like_add.
  - exists env, h, v, vk, h'. split_and!; [done|done|done|done|]. intros cv t dx <- Hd.
    assert (Hpair : ipo (gradval (grad_ vk) h') dx = ip s (dir (tangents k dx p) r)).
    { rewrite <- (D_at p env h1 B k dx r v Hv).
      apply (adjoint_identity p env h1 Hg B k (cv t) dx Hk v vk s (fun u => gradval u h')); try done.
      intros w Hw. rewrite Eg by done. f_equal. rewrite Hclean. case_decide; [|done]. cbn. by rewrite Es. }
    rewrite Hpair. apply deriv_ip; [apply (tangents_deriv p k cv t dx); [done|by left|done|done]|].
    by rewrite with_leaf_same by (by left).
Qed.
End Main.

(** ** Scalars as an instance of the interfaces of [AutogradPrograms]: reals with the
    element-wise functions of [AutogradFunctions].  [backward] computes the
    derivatives of every straight-line program of them. *)

#[local] Open Scope R_scope.

(** * Gradient functions multiply by the derivative *)

Lemma un_spec o v (h : heap) :
  domU o (array v h) ->
  exists keep f d, runUn o v h = Ok (makeOp d [(v, keep)] f h) /\ d = fwdU o (array v h)
    /\ forall a c g, (keep = true -> a = array v h) -> f [(a, c)] g = Ok [(0%nat, g * pdU o (array v h))].
Proof.
  set (x := array v h).
  assert (Hg : forall a b : R, a = b -> Ok [(0%nat, a)] = Ok [(0%nat, b)]) by congruence.
  destruct o; cbn [domU]; intros Hd; unfold runUn; eexists _, _, _; (split; [reflexivity|]); fold x;
    (split; [cbn|intros a c g Ha; first [specialize (Ha eq_refl); subst a|clear Ha]; cbn; apply Hg]); try done; try ring.
  all: try (unfold Rdiv; ring).
  all: unfold vreciprocal, vnegate, scalarR, scalarL, arr, adjustInputType; cbn; unfold Rdiv; try ring.
  - by rewrite Rplus_comm.
  - destruct Hd as [Hlh _]. rewrite clamp_mask by done. destruct (Rltb lo x && Rltb x hi); cbn.
    + rewrite bool_decide_false by lra. ring.
    + rewrite bool_decide_true by done. ring.
  - by rewrite (Rmult_comm (sqrt x)).
  - destruct (Rltb x 0); cbn; ring.
Qed.

(** The calls of a function of two variables: an input that wants its gradient
    gets it, the other may. *)
Definition two_calls (b0 b1 : bool) (x y : R) : list (nat * R) :=
  (if b0 then [(0%nat, x)] else []) ++ (if b1 then [(1%nat, y)] else []).

Lemma checked_real f (a b : R) : checked f a b = Ok (f a b).
Proof. done. Qed.

Ltac same_calls :=
  repeat match goal with
  | |- Ok _ = Ok _ => f_equal
  | |- _ :: _ = _ :: _ => f_equal
  | |- (_, _) = (_, _) => f_equal
  end.

Lemma bin_spec o v w (h : heap) :
  exists k0 k1 f d, runBin o v w h = Ok (makeOp d [(v, k0); (w, k1)] f h) /\ d = fwdB o (array v h) (array w h)
    /\ forall a0 a1 g, (k0 = true -> a0 = array v h) -> (k1 = true -> a1 = array w h) ->
       exists b0 b1, (isCalcGrad v h = true -> b0 = true) /\ (isCalcGrad w h = true -> b1 = true)
         /\ f [(a0, isCalcGrad v h); (a1, isCalcGrad w h)] g
            = Ok (two_calls b0 b1 (g * pdB0 o (array v h) (array w h)) (g * pdB1 o (array v h) (array w h))).
Proof.
  set (x := array v h). set (y := array w h).
  assert (Hg : forall b0 b1 (a b a' b' : R), a = a' -> b = b' -> Ok (two_calls b0 b1 a b) = Ok (two_calls b0 b1 a' b'))
    by congruence.
  destruct o; unfold runBin; eexists _, _, _, _; (split; [reflexivity|]); fold x y; (split; [reflexivity|]);
    intros a0 a1 g H0 H1.
  - exists true, true. split_and!; [done|done|]. apply (Hg true true g g); cbn; ring.
  - exists true, true. split_and!; [done|done|]. apply (Hg true true g (0 - g)); cbn; ring.
  - exists (isCalcGrad v h), (isCalcGrad w h). split_and!; [done|done|].
    destruct (isCalcGrad v h) eqn:E0, (isCalcGrad w h) eqn:E1; try rewrite (H0 eq_refl); try rewrite (H1 eq_refl); try done;
      cbn; same_calls; ring.
  - exists (isCalcGrad v h), (isCalcGrad w h). split_and!; [done|done|].
    rewrite (H1 eq_refl). destruct (isCalcGrad v h) eqn:E0, (isCalcGrad w h) eqn:E1; try rewrite (H0 eq_refl);
      unfold grad_div, vreciprocal, vnegate, scalarL, arr, adjustInputType, calc; rewrite !checked_real; cbn;
      unfold Rdiv; rewrite ?Rinv_mult;
      same_calls; ring.
  - exists true, true. split_and!; [done|done|]. rewrite (H0 eq_refl), (H1 eq_refl).
    unfold grad_select, arr, vnot. rewrite !checked_real. cbn.
    destruct (Rltb y x); cbn; repeat case_bool_decide; same_calls; cbn; first [ring|exfalso; congruence|exfalso; lra].
  - exists true, true. split_and!; [done|done|]. rewrite (H0 eq_refl), (H1 eq_refl).
    unfold grad_select, arr, vnot. rewrite !checked_real. cbn.
    destruct (Rltb x y); cbn; repeat case_bool_decide; same_calls; cbn; first [ring|exfalso; congruence|exfalso; lra].
Qed.

(** * The instance *)

Inductive sop := SUn (o : unop) | SBin (o : binop).

#[export] Instance real_space : Space R R := {
  like _ _ := True; ip := Rmult; value x := x; vzero := 0; deriv := derivable_pt_lim
}.

#[export] Instance real_space_laws : SpaceLaws R R.
Proof.
  split; cbn; try done.
  - intros. ring.
  - intros. ring.
  - intros. apply deriv_const.
  - intros c c' t d E. by apply derivable_pt_lim_ext.
  - intros c t d s Hd _. eapply deriv_eq; [apply (deriv_mul (fun _ => s) c); [apply deriv_const|exact Hd]|ring].
Qed.

(** A call with the wrong number of operands is not a program. *)
#[export] Instance scalar_ops : Ops sop R R := {
  run o vs h := match o, vs with SUn o, [v] => runUn o v h | SBin o, [v; w] => runBin o v w h | _, _ => Throw Undefined end;
  fwd o xs := match o, xs with SUn o, [x] => fwdU o x | SBin o, [x; y] => fwdB o x y | _, _ => 0 end;
  jvp o xs ds := match o, xs, ds with
                 | SUn o, [x], [d] => pdU o x * d
                 | SBin o, [x; y], [d; e] => pdB0 o x y * d + pdB1 o x y * e
                 | _, _, _ => 0
                 end;
  dom o xs := match o, xs with SUn o, [x] => domU o x | SBin o, [x; y] => domB o x y | _, _ => False end;
  frozen _ _ := False
}.

Lemma shares_one o c x g : shares (O := sop) (SUn o) [c] [x] g [(0%nat, g * pdU o x)].
Proof.
  split_and!.
  - repeat constructor. by exists x.
  - intros [|k]; [|done]. intros _. eexists. by left.
  - intros [|d [|]]; try done. intros _ _. unfold ip. cbn. ring.
Qed.

Lemma shares_two o c c' x y g b0 b1 :
  (c = true -> b0 = true) -> (c' = true -> b1 = true) ->
  shares (O := sop) (SBin o) [c; c'] [x; y] g (two_calls b0 b1 (g * pdB0 o x y) (g * pdB1 o x y)).
Proof.
  intros H0 H1. split_and!.
  - destruct b0, b1; repeat constructor; by eexists.
  - intros [|[|k]]; [| |done]; intros [= ->]; [rewrite H0 by done|rewrite H1 by done]; eexists; [by left|].
    apply elem_of_app. right. by left.
  - intros [|d [|e [|]]]; try done. intros _ HT.
    assert (T0 : b0 = false -> d = 0).
    { intros ->. destruct c; [discriminate (H0 eq_refl)|]. by specialize (HT 0%nat eq_refl) as [= ->]. }
    assert (T1 : b1 = false -> e = 0).
    { intros ->. destruct c'; [discriminate (H1 eq_refl)|]. by specialize (HT 1%nat eq_refl) as [= ->]. }
    destruct b0, b1; rewrite ?T0, ?T1 by done; unfold ip, dir; cbn; ring.
Qed.

#[export] Instance scalar_laws : OpLaws sop R R.
Proof.
  split.
  - intros [o|o] vs h Hd _; cbn [dom scalar_ops] in Hd.
    + destruct vs as [|v [|]]; try done. destruct (un_spec o v h Hd) as (keep & f & d & E & -> & Hf).
      exists [keep], f. split; [done|]. split; [exact E|]. intros vws g _ Hvw.
      apply Forall2_cons_inv_l in Hvw as ([a b] & t & [Hb Ha] & Hvw & ->). apply Forall2_nil_inv_l in Hvw as ->.
      cbn [fst snd] in *. eexists. split; [by apply Hf|]. apply shares_one.
    + destruct vs as [|v [|w [|]]]; try done. destruct (bin_spec o v w h) as (k0 & k1 & f & d & E & -> & Hf).
      exists [k0; k1], f. split; [done|]. split; [exact E|]. intros vws g _ Hvw.
      apply Forall2_cons_inv_l in Hvw as ([a0 b0] & t & [Hb0 Ha0] & Hvw & ->).
      apply Forall2_cons_inv_l in Hvw as ([a1 b1] & t' & [Hb1 Ha1] & Hvw & ->). apply Forall2_nil_inv_l in Hvw as ->.
      cbn [fst snd] in *. subst b0 b1. destruct (Hf a0 a1 g Ha0 Ha1) as (b0 & b1 & HB0 & HB1 & E').
      eexists. split; [exact E'|]. by apply shares_two.
  - intros [o|o] cs ds t Hd Hds _; cbn [dom scalar_ops] in Hd.
    + destruct cs as [|c [|]]; try done. apply Forall2_cons_inv_l in Hds as (d & ? & Hc & Hds & ->).
      apply Forall2_nil_inv_l in Hds as ->. cbn. apply (deriv_comp (fwdU o) c); [done|]. by apply deriv_un.
    + destruct cs as [|c [|c' [|]]]; try done. apply Forall2_cons_inv_l in Hds as (d & ? & Hc & Hds & ->).
      apply Forall2_cons_inv_l in Hds as (d' & ? & Hc' & Hds & ->). apply Forall2_nil_inv_l in Hds as ->. cbn.
      by apply deriv_bin.
Qed.

(** [backward] differentiates: run a straight-line program of element-wise
    functions over reals whose operands are in the domain of
    differentiability, take any of its variables that depends on a leaf that
    wants its gradient as the result, and call [backward] on it with gradient
    [s]; the call succeeds, and the gradient of every such leaf (0 when it has
    none) is [s] times the derivative of the result as a function of the leaf. *)
Theorem backward_derivative (p : list (instr sop R)) k x r s retain :
  good p -> p !! k = Some (ILeaf x true) -> wanted p !! r = Some true ->
  exists env h v vk h', exec p = Ok (env, h) /\ env !! r = Some v /\ env !! k = Some vk
    /\ (let '(g, h) := newVariable s false h in backward v g retain h) = Ok h'
    /\ derivable_pt_lim (fun t => s * at_ (eval (with_leaf k t p)) r) x (default 0 (gradval (grad_ vk) h')).
Proof.
  intros Hg Hk Hr. assert (Hl : like (V := R) s (at_ (eval (V := R) p) r)) by exact I.
  destruct (backward_program p k x r s retain Hg Hk Hr Hl) as (env & h & v & vk & h' & E & Hv & Hvk & Eb & Hd).
  exists env, h, v, vk, h'. split_and!; [done|done|done|done|].
  specialize (Hd (fun t => t) x 1 eq_refl (deriv_id x)). eapply deriv_eq; [exact Hd|].
  destruct (gradval (grad_ vk) h'); cbn; ring.
Qed.

(** * A concrete program: x * exp x *)

Definition demo_program : list (instr sop R) := [ILeaf 2 true; IOp (SUn UExp) [0%nat]; IOp (SBin BMul) [0%nat; 1%nat]].

Lemma demo_good : good demo_program.
Proof.
  change demo_program with ((([] ++ [ILeaf 2 true]) ++ [IOp (SUn UExp) [0%nat]]) ++ [IOp (SBin BMul) [0%nat; 1%nat]]).
  repeat constructor; cbn; try lia; by intros.
Qed.

Lemma backward_derivative_witness :
  exists env h v vk h', exec demo_program = Ok (env, h) /\ env !! 2%nat = Some v /\ env !! 0%nat = Some vk
    /\ (let '(g, h) := newVariable 1 false h in backward v g false h) = Ok h'
    /\ derivable_pt_lim (fun t => 1 * at_ (eval (with_leaf 0 t demo_program)) 2) 2 (default 0 (gradval (grad_ vk) h')).
Proof. exact (backward_derivative demo_program 0 2 2 1 false demo_good eq_refl eq_refl). Defined.

(** The graph of the same program, by the operations of the interface. *)
Definition demo_heap : heap :=
  (newOp 1 [Var 0 0; Var 1 1] (grad_mul (K := R)) (newOp 1 [Var 0 0] (grad_exp (K := R)) (newVariable 2 true empty_heap).2).2).2.

Lemma demo_reachable_graph : reachable demo_heap.
Proof.
  eapply re_step; [eapply re_step; [eapply re_step; [apply re_empty|apply st_new]|apply st_op]|apply st_op].
  - intros i ->%list_elem_of_singleton. split; cbn; lia.
  - intros i [-> | ->%list_elem_of_singleton]%elem_of_cons; split; cbn; lia.
Qed.

Lemma build_topological_witness :
  reachable demo_heap /\ grad_ <$> build (Var 2 2) demo_heap = [0; 1; 2]%nat /\ NoDup (grad_ <$> build (Var 2 2) demo_heap).
Proof.
  split; [exact demo_reachable_graph|]. split; [reflexivity|].
  exact (proj1 (build_topological (Var 2 2) demo_heap demo_reachable_graph)).
Defined.
