(* ===== verification/TensorFunctions.v ===== *)
(** The shaped functions of [fl/autograd/Functions.cpp] and the parts of
    [Variable.cpp] that index: tiling, reductions, reshaping, products, softmax,
    losses, layers.

    The functions of ArrayFire on arrays with dimensions are a parameter
    ([TensorOps]); like in [AutogradFunctions], a function applied to a gradient or
    inside a gradient function is its array part ([v...]).  Dimensions are four
    64-bit numbers; a position outside 0..3 is an error of ArrayFire and is not
    modelled.  Split and the general indexing operator, whose gradient is updated
    in place, are not modelled. *)
From S2P Require Import Prelude Autograd AutogradFunctions.

Open Scope Z_scope.

(** * Dimensions and indices of ArrayFire *)

Record dim4 := D4 { dim0 : Z; dim1 : Z; dim2 : Z; dim3 : Z }.

Definition dget (d : dim4) (i : Z) : Z :=
  if i =? 0 then dim0 d else if i =? 1 then dim1 d else if i =? 2 then dim2 d else dim3 d.
Definition dset (d : dim4) (i v : Z) : dim4 :=
  if i =? 0 then D4 v (dim1 d) (dim2 d) (dim3 d)
  else if i =? 1 then D4 (dim0 d) v (dim2 d) (dim3 d)
  else if i =? 2 then D4 (dim0 d) (dim1 d) v (dim3 d)
  else D4 (dim0 d) (dim1 d) (dim2 d) v.
Definition elements (d : dim4) : Z := dim0 d * dim1 d * dim2 d * dim3 d.
#[export] Instance dim4_eq_dec : EqDecision dim4.
Proof. solve_decision. Defined.

(** [af::span] and [af::seq(first, last)], both ends included. *)
Inductive index := span | seq (first last : Z).

(** Four indices, as arrays of them are indexed by a dimension. *)
Definition indices : Type := Z -> index.
Definition spans : indices := fun _ => span.
Definition iset (s : indices) (d : Z) (i : index) : indices := fun e => if e =? d then i else s e.

Class TensorOps (A K : Type) := {
  t_dims : A -> dim4;
  t_numdims : A -> Z;
  t_tile : A -> dim4 -> A;
  t_sum : A -> Z -> A;
  t_mean : A -> Z -> A;
  t_maxd : A -> Z -> A;
  t_moddims : A -> dim4 -> A;
  t_flat : A -> A;
  t_reorder : A -> Z -> Z -> Z -> Z -> A;
  t_transpose : A -> A;
  t_matmul : A -> A -> A;
  t_matmulTN : A -> A -> A;
  t_matmulNT : A -> A -> A;
  t_index : A -> indices -> A;               (* [a(i0, i1, i2, i3)] *)
  t_assign : A -> indices -> A -> A;         (* [a(i0, i1, i2, i3) = b] *)
  t_mask : A -> A -> K -> A;                 (* [a(mask) = k] *)
  t_columns : A -> A -> A;                   (* [a(af::span, idxs)] *)
  t_join0 : A -> A -> A;
  t_const : K -> dim4 -> dtype -> A;
  t_new : dim4 -> dtype -> A;                (* uninitialised *)
  t_range : dim4 -> A;                       (* counts along dimension 0 *)
  t_eq : A -> A -> A;
  t_neq : A -> A -> A;
  t_or : A -> A -> A;
  t_neg : A -> A;                            (* unary minus *)
  t_batch_mul : A -> A -> A;                 (* [af::batchFunc] with multiplication *)
  t_anyTrue : A -> bool;
  t_onehotT : A -> Z -> Z -> dtype -> A -> A; (* [matmulTN(sp, b)], [sp] sparse with a 1 per row *)
  t_erf : A -> A;
  k_mul : K -> K -> K;
  k_div : K -> K -> K;
  k_le : K -> K -> bool;
  k_sqrt_pi : K;
  k_sqrt : K -> K
}.

Inductive ReduceMode := NONE | MEAN | SUM.

Definition four : list Z := [0; 1; 2; 3].

Section Functions.
Context {A K : Type} `{Arrays A, ElementOps A K, TensorOps A K} (optimLevel : OptimLevel).

Abbreviation heap := (Autograd.heap (A := A)).
Abbreviation GradFunc := (Autograd.GradFunc (A := A)).
Abbreviation OP := (result (var * heap)).
Abbreviation adjust := (adjustInputType optimLevel).

Definition dims (v : var) (h : heap) : dim4 := t_dims (array v h).
Definition ones4 : dim4 := D4 1 1 1 1.

(** A function of one variable that may throw. *)
Definition shaped (r : result A) (input : var) (keep : bool) (g : GradFunc) (h : heap) : OP :=
  match r with Throw e => Throw e | Ok a => Ok (makeOp a [(input, keep)] g h) end.

(** * Casts *)

Definition grad_as : GradFunc := fun ins g => give 0 (Ok (a_as (a_type (arr ins 0)) g)).
Definition as_ (v : var) (newType : dtype) (h : heap) : var * heap :=
  makeOp (a_as newType (array v h)) [(v, false)] grad_as h.

(** [detail::adjustInputType] on a variable *)
Definition adjustVariable (funcname : string) (v : var) (h : heap) : var * heap :=
  match optimLevel with
  | DEFAULT => (v, h)
  | _ => if negb (bool_decide (funcname ∈ kOptimLevelTypeExclusionMappings optimLevel)) then as_ v f16 h
         else if bool_decide (type v h = f16) then as_ v f32 h else (v, h)
  end.

(** * Tiling and summing to a shape *)

Definition tileAs_dims (idims rdims : dim4) : result dim4 :=
  foldM_result (fun ds i =>
    if dget idims i =? 0 then Throw Undefined
    else if negb (Z.rem (dget rdims i) (dget idims i) =? 0) then Throw InvalidArgument
    else Ok (dset ds i (Z.quot (dget rdims i) (dget idims i)))) ones4 four.
Definition vtileAs (input : A) (rdims : dim4) : result A :=
  ds ← tileAs_dims (t_dims input) rdims; Ok (t_tile input ds).

Definition sumAs_array (input : A) (rdims : dim4) : result A :=
  let idims := t_dims input in
  r ← foldM_result (fun r i =>
        if dget idims i =? dget rdims i then Ok r
        else if negb (dget rdims i =? 1) then Throw InvalidArgument else Ok (t_sum r i)) input four;
  Ok (a_as (a_type input) r).
Definition vsumAs (input : A) (rdims : dim4) : result A := sumAs_array (adjust "sumAs" input) rdims.

Definition grad_tileAs (inDims : dim4) : GradFunc := fun ins g =>
  give 0 (r ← vsumAs g inDims; Ok (a_as (a_type (arr ins 0)) r)).
Definition tileAs (input : var) (rdims : dim4) (h : heap) : OP :=
  shaped (vtileAs (array input h) rdims) input false (grad_tileAs (dims input h)) h.
Definition tileAsV (input reference : var) (h : heap) : OP := tileAs input (dims reference h) h.

Definition grad_sumAs (idims : dim4) : GradFunc := fun _ g => give 0 (vtileAs g idims).
Definition sumAs (input : var) (rdims : dim4) (h : heap) : OP :=
  shaped (vsumAs (array input h) rdims) input false (grad_sumAs (dims input h)) h.
Definition sumAsV (input reference : var) (h : heap) : OP := sumAs input (dims reference h) h.

Definition tile (input : var) (ds : dim4) (h : heap) : OP :=
  shaped (Ok (t_tile (array input h) ds)) input false (grad_tileAs (dims input h)) h.

(** * Reductions *)

Definition vsum (input : A) (axes : list Z) : A :=
  a_as (a_type input) (fold_left t_sum axes (adjust "sum" input)).
Definition sum (input : var) (axes : list Z) (h : heap) : OP :=
  shaped (Ok (vsum (array input h) axes)) input false (grad_sumAs (dims input h)) h.

Definition vmean (input : A) (axes : list Z) : A := fold_left t_mean axes (adjust "mean" input).
Definition grad_mean (idims : dim4) : GradFunc := fun _ g =>
  let odims := t_dims g in
  if existsb (fun i => dget odims i =? 0) four then Throw Undefined else
  let count := fold_left (fun c i => c * Z.quot (dget idims i) (dget odims i)) four 1 in
  give 0 (a ← vtileAs g idims; Ok (scalarR e_div a (k_of count))).
Definition mean (input : var) (axes : list Z) (h : heap) : OP :=
  shaped (Ok (vmean (array input h) axes)) input false (grad_mean (dims input h)) h.

(** The dimensions [axes] of [d], 1 elsewhere. *)
Definition axesDims (d : dim4) (axes : list Z) : dim4 := fold_left (fun t ax => dset t ax (dget d ax)) axes ones4.

Definition grad_var (val : K) (axes : list Z) : GradFunc := fun ins g =>
  let x := arr ins 0 in
  let tiledims := axesDims (t_dims x) axes in
  give 0 (c ← checked e_sub x (t_tile (vmean x axes) tiledims);
          checked e_mul (scalarR e_mul (t_tile g tiledims) (k_mul (k_of 2) val)) c).

(** The count of samples and the array of [var], of the adjusted input. *)
Definition var_count (d : dim4) (axes : list Z) : Z := fold_left (fun n ax => i32 (n * dget d ax)) axes 1.
Definition var_val (n : Z) (isbiased : bool) : K := k_div (k_of 1) (k_of (if isbiased then n else i32 (n - 1))).
Definition vvar (x : A) (axes : list Z) (isbiased : bool) : result A :=
  sq ← checked e_mul x x;
  let result := vsum sq axes in
  let avg := vmean x axes in
  let n := var_count (t_dims x) axes in
  _ ← throw_if (negb isbiased && (n =? 1)) InvalidArgument;
  m ← checked e_mul (scalarR e_mul avg (k_of n)) avg;
  r ← checked e_sub result m;
  Ok (scalarR e_mul r (var_val n isbiased)).
Definition variance (input : var) (axes : list Z) (isbiased : bool) (h : heap) : OP :=
  let '(input, h) := adjustVariable "var" input h in
  shaped (vvar (array input h) axes isbiased) input true
    (grad_var (var_val (var_count (dims input h) axes) isbiased) axes) h.

Definition grad_norm (sumap : A) (p : K) : GradFunc := fun ins g =>
  let x := arr ins 0 in
  let gvar := e_pow sumap (k_sub (k_of 1) (k_div (k_of 1) p)) in
  give 0 (a ← checked e_mul x (e_pow (adjust "pow" (e_abs x)) (k_sub p (k_of 2)));
          q ← checked e_div g gvar;
          t ← vtileAs q (t_dims x);
          checked e_mul a t).
Definition norm_sum (x : A) (axes : list Z) (p : K) : A := fold_left t_sum axes (e_pow (e_abs (adjust "norm" x)) p).
Definition norm (input : var) (axes : list Z) (p : K) (h : heap) : OP :=
  if k_le p (k_of 0) then Throw OutOfRange
  else
    let sumap := norm_sum (array input h) axes p in
    shaped (Ok (e_pow sumap (k_div (k_of 1) p))) input true (grad_norm sumap p) h.

Definition normalize (input : var) (axes : list Z) (p eps : K) (h : heap) : OP :=
  let '(input, h) := adjustVariable "normalize" input h in
  bindV (norm input axes p h) (fun norm h =>
  bindV (maxK norm eps h) (fun invscale h =>
  bindV (tileAsV invscale input h) (fun t h => div optimLevel input t h))).

(** * Products *)

Definition vmatmul : A -> A -> result A := checked t_matmul.
Definition vmatmulTN : A -> A -> result A := checked t_matmulTN.
Definition vmatmulNT : A -> A -> result A := checked t_matmulNT.

Definition grad_matmul : GradFunc := fun ins g =>
  andThen (giveIf (calc ins 0) 0 (vmatmulNT g (arr ins 1))) (giveIf (calc ins 1) 1 (vmatmulTN (arr ins 0) g)).
Definition matmul (lhs rhs : var) (h : heap) : OP := binary t_matmul lhs rhs true true grad_matmul h.

Definition grad_matmulTN : GradFunc := fun ins g =>
  andThen (giveIf (calc ins 0) 0 (vmatmulNT (arr ins 1) g)) (giveIf (calc ins 1) 1 (vmatmul (arr ins 0) g)).
Definition matmulTN (lhs rhs : var) (h : heap) : OP := binary t_matmulTN lhs rhs true true grad_matmulTN h.

Definition grad_matmulNT : GradFunc := fun ins g =>
  andThen (giveIf (calc ins 0) 0 (vmatmul g (arr ins 1))) (giveIf (calc ins 1) 1 (vmatmulTN g (arr ins 0))).
Definition matmulNT (lhs rhs : var) (h : heap) : OP := binary t_matmulNT lhs rhs true true grad_matmulNT h.

Definition grad_transpose : GradFunc := fun _ g => give 0 (Ok (t_transpose g)).
Definition transpose (input : var) (h : heap) : OP := shaped (Ok (t_transpose (array input h))) input false grad_transpose h.

(** * Reshaping *)

(** The dimensions [moddims] works with: 0 keeps the one of the input, one -1 takes what
    remains. *)
Definition infer0 (d idims : dim4) : dim4 :=
  fold_left (fun d i => if dget d i =? 0 then dset d i (dget idims i) else d) four d.
Definition inferRest (d : dim4) (n : Z) : result (dim4 * Z) :=
  foldM_result (fun '(d, nInfer) i =>
    if dget d i =? -1 then
      if elements d =? 0 then Throw Undefined else Ok (dset d i (- Z.quot n (elements d)), nInfer + 1)
    else Ok (d, nInfer)) (d, 0) four.
Definition inferDims (idims d : dim4) : result dim4 :=
  '(d, nInfer) ← inferRest (infer0 d idims) (elements idims);
  _ ← throw_if (1 <? nInfer) InvalidArgument;
  _ ← throw_if (negb (elements d =? elements idims)) InvalidArgument;
  Ok d.
Definition vmoddims (input : A) (d : dim4) : result A :=
  d ← inferDims (t_dims input) d; Ok (t_moddims input d).

Definition grad_moddims (inDims : dim4) : GradFunc := fun _ g => give 0 (vmoddims g inDims).
Definition moddims (input : var) (d : dim4) (h : heap) : OP :=
  shaped (vmoddims (array input h) d) input false (grad_moddims (dims input h)) h.

Definition flat (input : var) (h : heap) : OP :=
  shaped (Ok (t_flat (array input h))) input false (grad_moddims (dims input h)) h.

(** The pairs [{dim0, 0}, ...] in increasing order. *)
Definition pair_le (a b : Z * Z) : bool := (a.1 <? b.1) || ((a.1 =? b.1) && (a.2 <=? b.2)).
Fixpoint insert_pair (a : Z * Z) (l : list (Z * Z)) : list (Z * Z) :=
  match l with [] => [a] | b :: r => if pair_le a b then a :: l else b :: insert_pair a r end.
Definition sort_pairs (l : list (Z * Z)) : list (Z * Z) := foldr insert_pair [] l.

Definition dimgrad (i0 i1 i2 i3 : Z) : dim4 :=
  match map snd (sort_pairs [(i0, 0); (i1, 1); (i2, 2); (i3, 3)]) with
  | [a; b; c; d] => D4 a b c d
  | _ => D4 0 0 0 0
  end.
Definition grad_reorder (r : dim4) : GradFunc := fun _ g =>
  give 0 (Ok (t_reorder g (dim0 r) (dim1 r) (dim2 r) (dim3 r))).
Definition reorder (input : var) (i0 i1 i2 i3 : Z) (h : heap) : OP :=
  shaped (Ok (t_reorder (array input h) i0 i1 i2 i3)) input false (grad_reorder (dimgrad i0 i1 i2 i3)) h.

(** * Concatenation *)

(** The size along [dim], when all other dimensions agree with those of the first. *)
Definition concatSize (ds : dim4) (dim : Z) (rest : list dim4) : result Z :=
  foldM_result (fun size d =>
    _ ← throw_if (existsb (fun e => negb (e =? dim) && negb (dget d e =? dget ds e)) four) InvalidArgument;
    Ok (i32 (size + dget d dim))) (i32 (dget ds dim)) rest.

(** The pieces [start .. start + size - 1] along [dim]. *)
Definition concatFill (dim : Z) (result : A) (inputs : list A) : A :=
  fst (fold_left (fun '(r, start) a =>
    (t_assign r (iset spans dim (seq start (start + dget (t_dims a) dim - 1))) a, i32 (start + dget (t_dims a) dim)))
    inputs (result, 0)).

Fixpoint concatGive (dim : Z) (g : A) (i : nat) (s : Z) (inDims : list dim4) : list (nat * A) :=
  match inDims with
  | [] => []
  | d :: r => (i, t_index g (iset spans dim (seq s (s + dget d dim - 1)))) :: concatGive dim g (S i) (i32 (s + dget d dim)) r
  end.
Definition grad_concatenate (dim : Z) (inDims : list dim4) : GradFunc := fun _ g => Ok (concatGive dim g 0 0 inDims).

Definition concat_array (dim : Z) (first : A) (rest : list A) : result A :=
  size ← concatSize (t_dims first) dim (t_dims <$> rest);
  Ok (concatFill dim (t_new (dset (t_dims first) dim size) (a_type first)) (first :: rest)).

Definition concatenate (concatInputs : list var) (dim : Z) (h : heap) : OP :=
  match concatInputs with
  | [] => Throw InvalidArgument
  | first :: rest =>
      if (dim <? 0) || (3 <? dim) then Throw InvalidArgument
      else if (match rest with [] => true | _ => false end) then Ok (first, h)
      else if existsb (fun v => negb (bool_decide (type v h = type first h))) concatInputs then Throw InvalidArgument
      else match concat_array dim (array first h) ((fun v => array v h) <$> rest) with
           | Throw e => Throw e
           | Ok r => Ok (makeOp r ((fun v => (v, false)) <$> concatInputs)
                           (grad_concatenate dim ((fun v => dims v h) <$> concatInputs)) h)
           end
  end.

(** * Columns, rows and slices *)

(** Gradient of taking the part [s] of an array: zeros with the gradient in its place. *)
Definition grad_part (s : indices) (inDims : dim4) (inType : dtype) : GradFunc := fun _ g =>
  give 0 (Ok (t_assign (t_const (k_of 0) inDims inType) s g)).
Definition part (s : indices) (v : var) (h : heap) : OP :=
  shaped (Ok (t_index (array v h) s)) v false (grad_part s (dims v h) (type v h)) h.

Definition col (v : var) (i : Z) (h : heap) : OP := part (iset spans 1 (seq i i)) v h.
Definition cols (v : var) (first last : Z) (h : heap) : OP := part (iset spans 1 (seq first last)) v h.
Definition row (v : var) (i : Z) (h : heap) : OP := part (iset spans 0 (seq i i)) v h.
Definition rows (v : var) (first last : Z) (h : heap) : OP := part (iset spans 0 (seq first last)) v h.
Definition slice (v : var) (i : Z) (h : heap) : OP := part (iset spans 2 (seq i i)) v h.
Definition slices (v : var) (first last : Z) (h : heap) : OP := part (iset spans 2 (seq first last)) v h.

(** * Softmax *)

Definition alongDims (d : dim4) (dim : Z) : dim4 := dset ones4 dim (dget d dim).

Definition softmax_array (input : A) (dim : Z) : A :=
  let inputArr := adjust "softmax" input in
  let tiledims := alongDims (t_dims input) dim in
  let expInput := e_exp (e_sub inputArr (t_tile (t_maxd inputArr dim) tiledims)) in
  e_div expInput (t_tile (t_sum expInput dim) tiledims).
Definition grad_softmax (dim : Z) (tiledims : dim4) (result : A) : GradFunc := fun ins g =>
  let rbyg := e_mul g result in
  let gradSm := e_sub rbyg (e_mul result (t_tile (t_sum rbyg dim) tiledims)) in
  give 0 (Ok (a_as (a_type (arr ins 0)) gradSm)).
Definition softmax (input : var) (dim : Z) (h : heap) : OP :=
  let result := softmax_array (array input h) dim in
  shaped (Ok result) input false (grad_softmax dim (alongDims (dims input h) dim) result) h.

Definition logSoftmax_array (input : A) (dim : Z) : A :=
  let inputArr := adjust "logSoftmax" input in
  let maxvals := t_maxd inputArr dim in
  let tiledims := alongDims (t_dims input) dim in
  e_sub inputArr
    (t_tile (a_add (e_log (t_sum (e_exp (e_sub inputArr (t_tile maxvals tiledims))) dim)) maxvals) tiledims).
Definition grad_logSoftmax (dim : Z) (tiledims : dim4) (result : A) : GradFunc := fun ins g =>
  let gradLsm := e_sub g (e_mul (e_exp result) (t_tile (t_sum g dim) tiledims)) in
  give 0 (Ok (a_as (a_type (arr ins 0)) gradLsm)).
Definition logSoftmax (input : var) (dim : Z) (h : heap) : OP :=
  let result := logSoftmax_array (array input h) dim in
  shaped (Ok result) input false (grad_logSoftmax dim (alongDims (dims input h) dim) result) h.

(** * Losses *)

Definition binaryCrossEntropy (inputs targets : var) (h : heap) : OP :=
  let '(targetsTyped, h) := as_ targets (type inputs h) h in
  bindV (log optimLevel inputs h) (fun l h =>
  bindV (mul targetsTyped l h) (fun a h =>
  bindV (Ksub (k_of 1) targetsTyped h) (fun u h =>
  bindV (Ksub (k_of 1) inputs h) (fun w h =>
  bindV (log optimLevel w h) (fun lw h =>
  bindV (mul u lw h) (fun b h =>
  bindV (add a b h) (fun s h => negate s h))))))).

(** The checks on the shapes of input and targets. *)
Definition targets_match (d t : dim4) : bool :=
  forallb (fun i => dget d i =? dget t (i - 1)) [1; 2; 3] && (dim3 t =? 1).

(** A number as an array of the shape of [a], as in [a == k]. *)
Definition vs_int (k : Z) (a : A) : A := e_const (k_of k) a.

(** [-(A == B)]: -1 at the target class of every column. *)
Definition class_mask (C X : Z) (y : A) : A :=
  t_neg (t_eq (t_range (D4 C X 1 1)) (t_tile y (D4 C 1 1 1))).

Definition cce_invalid (C ignoreIndex : Z) (t : A) : bool :=
  t_anyTrue (e_and (t_or (e_lt t (vs_int 0 t)) (e_ge t (vs_int C t))) (t_neq t (vs_int ignoreIndex t))).

(** Mask, ignored positions, and the denominator of MEAN. *)
Definition cce_parts (C X ignoreIndex : Z) (targets : A) : A * A * A :=
  let y := t_moddims targets (D4 1 X 1 1) in
  let ignoreMask := t_flat (t_eq y (vs_int ignoreIndex y)) in
  (class_mask C X y, ignoreMask, t_sum (a_as s32 (e_not ignoreMask)) 0).

Definition cce_array (input targets : A) (reduction : ReduceMode) (ignoreIndex : Z) : result A :=
  let C := i32 (dim0 (t_dims input)) in
  let X := i32 (elements (t_dims targets)) in
  _ ← throw_if (negb (targets_match (t_dims input) (t_dims targets))) InvalidArgument;
  _ ← throw_if (cce_invalid C ignoreIndex targets) InvalidArgument;
  let x := t_moddims input (D4 C X 1 1) in
  let '(mask, ignoreMask, denominator) := cce_parts C X ignoreIndex targets in
  let result := t_mask (t_flat (t_sum (e_mul mask x) 0)) ignoreMask (k_of 0) in
  Ok (match reduction with
      | NONE => t_moddims result (t_dims targets)
      | MEAN => e_div (t_sum result 0) denominator
      | SUM => t_sum result 0
      end).

Definition grad_cce (C X : Z) (mask ignoreMask denominator : A) (reduction : ReduceMode) (inputDims : dim4) : GradFunc :=
  fun _ g =>
  let grad := match reduction with
              | NONE => t_moddims g (D4 X 1 1 1)
              | MEAN => t_tile (e_div g denominator) (D4 X 1 1 1)
              | SUM => t_tile g (D4 X 1 1 1)
              end in
  let grad := t_moddims (t_mask grad ignoreMask (k_of 0)) (D4 1 X 1 1) in
  give 0 (Ok (t_moddims (e_mul (t_tile grad (D4 C 1 1 1)) mask) inputDims)).

Definition categoricalCrossEntropy (input targets : var) (reduction : ReduceMode) (ignoreIndex : Z) (h : heap) : OP :=
  let '(input, h) := adjustVariable "categoricalCrossEntropy" input h in
  let C := i32 (dim0 (dims input h)) in
  let X := i32 (elements (dims targets h)) in
  let '(mask, ignoreMask, denominator) := cce_parts C X ignoreIndex (array targets h) in
  match cce_array (array input h) (array targets h) reduction ignoreIndex with
  | Throw e => Throw e
  | Ok r => Ok (makeOp r [(input, false); (targets, true)]
                  (grad_cce C X mask ignoreMask denominator reduction (dims input h)) h)
  end.

(** Mask, weight of the targets, and positions that count. *)
Definition wcce_parts (C X ignoreIndex : Z) (targets weight : A) : A * A * A :=
  let y := t_moddims targets (D4 1 X 1 1) in
  let mask := class_mask C X y in
  let weightSum := e_mul (t_neg mask) (t_tile weight (D4 1 X 1 1)) in
  (mask, t_sum (t_sum weightSum 0) 1, a_as s32 (t_neq y (vs_int ignoreIndex y))).

Definition wcce_array (input targets weight : A) (ignoreIndex : Z) : result A :=
  let C := i32 (dim0 (t_dims input)) in
  let X := i32 (elements (t_dims targets)) in
  _ ← throw_if (negb (targets_match (t_dims input) (t_dims targets))) InvalidArgument;
  _ ← throw_if (negb (dim0 (t_dims weight) =? dim0 (t_dims input))) InvalidArgument;
  _ ← throw_if (t_anyTrue (t_or (e_lt targets (vs_int 0 targets)) (e_ge targets (vs_int C targets)))) InvalidArgument;
  let x := t_moddims input (D4 C X 1 1) in
  let '(mask, denominator, ignoreMask) := wcce_parts C X ignoreIndex targets weight in
  let result := t_batch_mul (e_mul mask x) weight in
  let result := e_mul ignoreMask (t_sum result 0) in
  Ok (e_div (t_sum result 1) denominator).

Definition grad_wcce (C X : Z) (mask ignoreMask denominator : A) (inputDims : dim4) : GradFunc := fun ins g =>
  let grad := t_tile (e_div g denominator) (D4 1 X 1 1) in
  let weightArray := arr ins 2 in
  let grad := e_mul grad ignoreMask in
  let grad := t_moddims (e_mul (t_tile grad (D4 C 1 1 1)) mask) inputDims in
  give 0 (Ok (t_moddims (t_batch_mul grad weightArray) inputDims)).

Definition weightedCategoricalCrossEntropy (input targets weight : var) (ignoreIndex : Z) (h : heap) : OP :=
  let C := i32 (dim0 (dims input h)) in
  let X := i32 (elements (dims targets h)) in
  let '(mask, denominator, ignoreMask) := wcce_parts C X ignoreIndex (array targets h) (array weight h) in
  match wcce_array (array input h) (array targets h) (array weight h) ignoreIndex with
  | Throw e => Throw e
  | Ok r => Ok (makeOp r [(input, false); (targets, true); (weight, true)]
                  (grad_wcce C X mask ignoreMask denominator (dims input h)) h)
  end.

(** * Layers *)

Definition to2d (d : dim4) : result dim4 :=
  if dim0 d =? 0 then Throw Undefined else Ok (D4 (dim0 d) (Z.quot (elements d) (dim0 d)) 1 1).

Definition hasElements (a : A) : bool := 0 <? elements (t_dims a).

Definition linear_array (input weight bias : A) : result A :=
  d ← to2d (t_dims input);
  let output := t_moddims (t_matmul weight (t_moddims input d)) (dset (t_dims input) 0 (dim0 (t_dims weight))) in
  Ok (if hasElements bias then a_add output (t_tile bias (dset (t_dims output) 0 1)) else output).

Definition grad_linear (hasBias : bool) : GradFunc := fun ins g =>
  let inp := arr ins 0 in
  let wt := arr ins 1 in
  if dim0 (t_dims inp) =? 0 then Throw Undefined else
  let nframes := Z.quot (elements (t_dims inp)) (dim0 (t_dims inp)) in
  let to2dout := D4 (dim0 (t_dims wt)) nframes 1 1 in
  let to2din := D4 (dim1 (t_dims wt)) nframes 1 1 in
  andThen (giveIf (hasBias && calc ins 2) 2 (vsumAs g (t_dims (arr ins 2))))
  (andThen (giveIf (calc ins 0) 0 (g2 ← vmoddims g to2dout; r ← vmatmulTN wt g2; vmoddims r (t_dims inp)))
     (giveIf (calc ins 1) 1 (g2 ← vmoddims g to2dout; x2 ← vmoddims inp to2din; vmatmulNT g2 x2))).

Definition linear3 (inp wt bs : var) (h : heap) : OP :=
  if negb (bool_decide (type inp h = type wt h) && bool_decide (type inp h = type bs h) && bool_decide (type wt h = type bs h))
  then Throw InvalidArgument
  else
    let '(input, h) := adjustVariable "linear" inp h in
    let '(weight, h) := adjustVariable "linear" wt h in
    let '(bias, h) := adjustVariable "linear" bs h in
    match linear_array (array input h) (array weight h) (array bias h) with
    | Throw e => Throw e
    | Ok r =>
        let hasBias := hasElements (array bias h) in
        Ok (makeOp r ([(input, true); (weight, true)] ++ (if hasBias then [(bias, true)] else [])) (grad_linear hasBias) h)
    end.

Definition linear (input weight : var) (h : heap) : OP :=
  let '(dummyBias, h) := newVariable (a_as (type input h) a_empty) false h in linear3 input weight dummyBias h.

Definition glu_halves (input : A) (dim : Z) : A * A :=
  let inSize := dget (t_dims input) dim in
  (t_index input (iset spans dim (seq 0 (Z.quot inSize 2 - 1))),
   e_sigmoid (t_index input (iset spans dim (seq (Z.quot inSize 2) (inSize - 1))))).
Definition grad_glu (dim inSize : Z) (fhalfout shalfout : A) (inDims : dim4) (inType : dtype) : GradFunc := fun _ g =>
  let grad := t_new inDims inType in
  let grad := t_assign grad (iset spans dim (seq 0 (Z.quot inSize 2 - 1))) (e_mul shalfout g) in
  let grad := t_assign grad (iset spans dim (seq (Z.quot inSize 2) (inSize - 1)))
                (e_mul (e_mul (e_mul shalfout (e_sub (e_const (k_of 1) shalfout) shalfout)) fhalfout) g) in
  give 0 (Ok grad).
Definition gatedlinearunit (input : var) (dim : Z) (h : heap) : OP :=
  let inSize := dget (dims input h) dim in
  if Z.rem inSize 2 =? 1 then Throw InvalidArgument
  else
    let '(f, s) := glu_halves (array input h) dim in
    shaped (Ok (e_mul f s)) input false (grad_glu dim inSize f s (dims input h) (type input h)) h.

Definition embedding_array (input embeddings : A) : result A :=
  let inDims := t_dims input in
  _ ← throw_if (4 <=? t_numdims input) InvalidArgument;
  Ok (t_moddims (t_columns embeddings (t_flat input)) (D4 (dim0 (t_dims embeddings)) (dim0 inDims) (dim1 inDims) (dim2 inDims))).
Definition grad_embedding : GradFunc := fun ins g =>
  let w := arr ins 1 in
  if negb (calc ins 1) then Ok []
  else
    let ip := t_flat (arr ins 0) in
    let n := elements (t_dims ip) in
    let deltas := t_moddims g (D4 (dim0 (t_dims w)) n 1 1) in
    give 1 (Ok (t_transpose (t_onehotT (a_as s32 ip) n (dim1 (t_dims w)) (a_type deltas) (t_transpose deltas)))).
Definition embedding (input embeddings : var) (h : heap) : OP :=
  match embedding_array (array input h) (array embeddings h) with
  | Throw e => Throw e
  | Ok r => Ok (makeOp r [(input, true); (embeddings, true)] grad_embedding h)
  end.

(** The dimensions and the place of the input after padding. *)
Fixpoint padFrom (i : Z) (pad : list (Z * Z)) (opDims : dim4) (inSeq : indices) : dim4 * indices :=
  match pad with
  | [] => (opDims, inSeq)
  | (before, after) :: r =>
      let d := dget opDims i + i32 (before + after) in
      padFrom (i + 1) r (dset opDims i d) (iset inSeq i (seq before (d - after - 1)))
  end.
Definition padding_array (input : A) (pad : list (Z * Z)) (val : K) : result A :=
  if (4 <? length pad)%nat then Throw Undefined
  else
    let '(opDims, inSeq) := padFrom 0 pad (t_dims input) spans in
    Ok (t_assign (t_const val opDims (a_type input)) inSeq input).
Definition grad_padding (inSeq : indices) : GradFunc := fun _ g => give 0 (Ok (t_index g inSeq)).
Definition padding (input : var) (pad : list (Z * Z)) (val : K) (h : heap) : OP :=
  shaped (padding_array (array input h) pad val) input false
    (grad_padding (snd (padFrom 0 pad (dims input h) spans))) h.

(** [randu] is the array of random numbers drawn. *)
Definition dropout (randu : A) (input : var) (p : K) (h : heap) : OP :=
  if negb (k_le p (k_of 0)) then
    let '(mask, h) := newVariable (a_as (type input h) (e_gt randu (e_const p randu))) false h in
    bindV (Kmul (k_div (k_of 1) (k_sub (k_of 1) p)) mask h) (fun m h => mul m input h)
  else Ok (input, h).

Definition grad_erf : GradFunc := fun ins g =>
  let x := arr ins 0 in
  give 0 (Ok (e_mul (e_div (e_mul g (e_const (k_of 2) g)) (e_const k_sqrt_pi g)) (e_exp (t_neg (e_mul x x))))).
Definition erf (input : var) (h : heap) : OP :=
  shaped (Ok (t_erf (adjust "erf" (array input h)))) input true grad_erf h.

Definition gelu (inp : var) (h : heap) : OP :=
  let '(input, h) := adjustVariable "gelu" inp h in
  bindV (Kmul (k_ratio 1 2) input h) (fun half h =>
  bindV (Kmul (k_ratio 44715 1000000) input h) (fun c h =>
  bindV (mul c input h) (fun c h =>
  bindV (mul c input h) (fun c h =>
  bindV (add input c h) (fun s h =>
  bindV (Kmul (k_ratio 7978845608 10000000000) s h) (fun s h =>
  bindV (tanh s h) (fun t h =>
  bindV (Kadd (k_of 1) t h) (fun t h => mul half t h)))))))).

(** * Attention *)

Definition rotate_array (data : A) : A :=
  let d := t_dims data in
  let '(n0, n1, n2, n3) := (i32 (dim0 d), i32 (dim1 d), i32 (dim2 d), i32 (dim3 d)) in
  let data := t_join0 data (t_const (k_of 0) (D4 n1 n1 n2 n3) (a_type data)) in
  let data := t_moddims data (D4 (i32 (i32 (n0 + n1) * n1)) 1 n2 n3) in
  let data := t_index data (iset spans 0 (seq 0 (i32 (i32 (n1 + n0 - 1) * n1 - 1)))) in
  t_moddims data (D4 (i32 (n0 + n1 - 1)) n1 n2 n3).
Definition grad_rotate (d : dim4) : GradFunc := fun _ g =>
  let '(n0, n1, n2, n3) := (i32 (dim0 d), i32 (dim1 d), i32 (dim2 d), i32 (dim3 d)) in
  let g := t_moddims g (D4 (i32 (i32 (n0 + n1 - 1) * n1)) 1 n2 n3) in
  let g := t_join0 g (t_const (k_of 0) (D4 n1 1 n2 n3) (a_type g)) in
  let g := t_moddims g (D4 (i32 (n0 + n1)) n1 n2 n3) in
  give 0 (Ok (t_index g (iset spans 0 (seq 0 (i32 (n0 - 1)))))).
Definition relativePositionEmbeddingRotate (input : var) (h : heap) : OP :=
  shaped (Ok (rotate_array (array input h))) input true (grad_rotate (dims input h)) h.

Definition isempty (v : var) (h : heap) : bool := elements (dims v h) =? 0.

(** [randu] is the array of random numbers [dropout] draws. *)
Definition multiheadAttention (randu : A) (query key value posEmb mask padMask : var) (nHeads : Z) (pDropout : K)
    (offset : Z) (h : heap) : OP :=
  let bsz := i32 (dim2 (dims query h)) in
  let modelDim := i32 (dim1 (dims query h)) in
  if nHeads =? 0 then Throw Undefined else
  let headDim := Z.quot modelDim nHeads in
  let split3 := D4 (-1) headDim (i32 (nHeads * bsz)) 1 in
  bindV (moddims query split3 h) (fun q h =>
  bindV (moddims key split3 h) (fun k h =>
  bindV (moddims value split3 h) (fun v h =>
  bindV (divK q (k_sqrt (k_of headDim)) h) (fun q h =>
  bindV (matmulNT q k h) (fun scores h =>
  bindV (if isempty posEmb h then Ok (scores, h)
         else
           let n := i32 (Z.quot (dim0 (dims posEmb h)) 2 - offset) in
           let '(pe, h) := as_ posEmb (type q h) h in
           bindV (matmulNT pe q h) (fun s h =>
           bindV (relativePositionEmbeddingRotate s h) (fun pscores h =>
           bindV (rows pscores n (i32 (n + dim0 (dims k h) - 1)) h) (fun r h =>
           bindV (transpose r h) (fun t h => add scores t h))))) (fun scores h =>
  bindV (if isempty mask h then Ok (scores, h)
         else
           let '(m, h) := as_ mask (type scores h) h in
           bindV (tileAsV m scores h) (fun t h => add scores t h)) (fun scores h =>
  bindV (if isempty padMask h then Ok (scores, h)
         else
           let n := dim0 (dims padMask h) in
           if negb (n =? dim0 (dims query h)) then Throw InvalidArgument
           else
             bindV (moddims padMask (D4 1 n 1 bsz) h) (fun t h =>
             bindV (tileAs t (D4 n n nHeads bsz) h) (fun t h =>
             let '(t, h) := as_ t (type scores h) h in
             bindV (moddims t (D4 n n (i32 (nHeads * bsz)) 1) h) (fun t h => add scores t h)))) (fun scores h =>
  bindV (softmax scores 1 h) (fun s h =>
  bindV (dropout randu s pDropout h) (fun attn h =>
  let '(attn, h) := as_ attn (type v h) h in
  bindV (matmul attn v h) (fun result h =>
  moddims result (D4 (-1) (i32 (headDim * nHeads)) bsz 1) h))))))))))).
End Functions.
