(* ===== verification/TensorSpace.v ===== *)
(** Tensors of reals: indices and sums over them, what ArrayFire documents of the
    functions of [TensorOps] when elements are exact reals ([RealTensors]), and
    tensors as a space with directions in the sense of [AutogradPrograms].

    [rep a d v] says that the array [a] has dimensions [d] and elements [v]; the
    laws of a function state what represents its result. *)
From S2P Require Import Prelude Autograd AutogradFunctions AutogradReal RealSum AutogradPrograms TensorFunctions.
From Stdlib Require Import Reals Lra.

#[local] Open Scope Z_scope.

(** * Indices *)

Definition inside (d i : dim4) : Prop :=
  0 <= dim0 i < dim0 d /\ 0 <= dim1 i < dim1 d /\ 0 <= dim2 i < dim2 d /\ 0 <= dim3 i < dim3 d.

Definition grid (d : dim4) : list dim4 :=
  flat_map (fun i3 => flat_map (fun i2 => flat_map (fun i1 => map (fun i0 => D4 i0 i1 i2 i3)
    (zrange 0 (dim0 d))) (zrange 0 (dim1 d))) (zrange 0 (dim2 d))) (zrange 0 (dim3 d)).

Definition dmap2 (f : Z -> Z -> Z) (a b : dim4) : dim4 :=
  D4 (f (dim0 a) (dim0 b)) (f (dim1 a) (dim1 b)) (f (dim2 a) (dim2 b)) (f (dim3 a) (dim3 b)).
Definition dall (P : Z -> Prop) (d : dim4) : Prop := P (dim0 d) /\ P (dim1 d) /\ P (dim2 d) /\ P (dim3 d).
Definition dmul := dmap2 Z.mul.
Definition dmod := dmap2 Z.modulo.

(** Position in column-major order and back. *)
Definition lin (d i : dim4) : Z := dim0 i + dim0 d * (dim1 i + dim1 d * (dim2 i + dim2 d * dim3 i)).
Definition unlin (d : dim4) (n : Z) : dim4 :=
  D4 (n mod dim0 d) (n / dim0 d mod dim1 d) (n / dim0 d / dim1 d mod dim2 d) (n / dim0 d / dim1 d / dim2 d).

Definition axis (k : Z) : Prop := k = 0 \/ k = 1 \/ k = 2 \/ k = 3.

(** Case analysis on an axis. *)
Ltac axes := repeat match goal with H : axis ?k |- _ => destruct H as [->|[->|[->| ->]]] end.

Lemma elem_of_flat_map {B C} (f : B -> list C) l c : c ∈ flat_map f l <-> exists b, b ∈ l /\ c ∈ f b.
Proof. rewrite list_elem_of_In, in_flat_map. setoid_rewrite list_elem_of_In. done. Qed.
Lemma elem_of_map {B C} (f : B -> C) l c : c ∈ map f l <-> exists b, b ∈ l /\ c = f b.
Proof. rewrite (list_elem_of_fmap f l c). naive_solver. Qed.

Lemma elem_of_indices d i : i ∈ grid d <-> inside d i.
Proof.
  unfold grid, inside. split.
  - intros (i3 & H3%elem_of_zrange & (i2 & H2%elem_of_zrange & (i1 & H1%elem_of_zrange & (i0 & H0%elem_of_zrange & ->)
      %elem_of_map)%elem_of_flat_map)%elem_of_flat_map)%elem_of_flat_map. done.
  - destruct i as [i0 i1 i2 i3]. cbn. intros (? & ? & ? & ?).
    apply elem_of_flat_map. exists i3. split; [by apply elem_of_zrange|].
    apply elem_of_flat_map. exists i2. split; [by apply elem_of_zrange|].
    apply elem_of_flat_map. exists i1. split; [by apply elem_of_zrange|].
    apply elem_of_map. exists i0. split; [by apply elem_of_zrange|done].
Qed.

Lemma NoDup_flat_map_key {B C} (l : list B) (f : B -> list C) (key : C -> B) :
  NoDup l -> (forall b c, b ∈ l -> c ∈ f b -> key c = b) -> (forall b, b ∈ l -> NoDup (f b)) -> NoDup (flat_map f l).
Proof.
  induction 1 as [|b l Hb _ IH]; intros Hk Hf; [constructor|]. cbn. apply NoDup_app. split_and!.
  - apply Hf. by left.
  - intros c Hc (b' & Hb' & Hc')%elem_of_flat_map. apply Hb.
    rewrite <- (Hk b c), (Hk b' c); [done|by right|done|by left|done].
  - apply IH; intros; [apply Hk|apply Hf]; try done; by right.
Qed.

Lemma NoDup_zrange a b : NoDup (zrange a b).
Proof. apply NoDup_seqZ. Qed.

Lemma NoDup_grid d : NoDup (grid d).
Proof.
  unfold grid. apply (NoDup_flat_map_key _ _ dim3); [apply NoDup_zrange|..].
  - intros i3 c _ (i2 & _ & (i1 & _ & (i0 & _ & ->)%elem_of_map)%elem_of_flat_map)%elem_of_flat_map. done.
  - intros i3 _. apply (NoDup_flat_map_key _ _ dim2); [apply NoDup_zrange|..].
    + intros i2 c _ (i1 & _ & (i0 & _ & ->)%elem_of_map)%elem_of_flat_map. done.
    + intros i2 _. apply (NoDup_flat_map_key _ _ dim1); [apply NoDup_zrange|..].
      * intros i1 c _ (i0 & _ & ->)%elem_of_map. done.
      * intros i1 _. apply NoDup_fmap_2; [|apply NoDup_zrange]. by intros a b [= ->].
Qed.

Lemma dget_dset d k e v : axis k -> axis e -> dget (dset d k v) e = if e =? k then v else dget d e.
Proof. intros Hk He. destruct d. by axes. Qed.
Lemma dget_dset_eq d k v : axis k -> dget (dset d k v) k = v.
Proof. intros Hk. destruct d. by axes. Qed.
Lemma dset_dset d k v w : axis k -> dset (dset d k v) k w = dset d k w.
Proof. intros Hk. destruct d. by axes. Qed.
Lemma dset_dget d k : axis k -> dset d k (dget d k) = d.
Proof. intros Hk. destruct d. by axes. Qed.
Lemma dset_comm d k e v w : axis k -> axis e -> k <> e -> dset (dset d k v) e w = dset (dset d e w) k v.
Proof. intros Hk He. destruct d. by axes. Qed.

Lemma dim4_ext d e : (forall k, axis k -> dget d k = dget e k) -> d = e.
Proof.
  intros H. destruct d, e. unfold axis in H.
  pose proof (H 0 ltac:(tauto)). pose proof (H 1 ltac:(tauto)). pose proof (H 2 ltac:(tauto)). pose proof (H 3 ltac:(tauto)).
  cbn in *. congruence.
Qed.

Lemma inside_dget d i : inside d i <-> forall k, axis k -> 0 <= dget i k < dget d k.
Proof.
  split.
  - intros (? & ? & ? & ?) k Hk. destruct d, i. axes; cbn in *; lia.
  - intros H. unfold axis in H. pose proof (H 0 ltac:(tauto)). pose proof (H 1 ltac:(tauto)).
    pose proof (H 2 ltac:(tauto)). pose proof (H 3 ltac:(tauto)). destruct d, i; unfold inside; cbn in *; lia.
Qed.

Lemma inside_dset d i k v n : axis k -> inside (dset d k n) i -> 0 <= v < dget d k -> inside d (dset i k v).
Proof.
  intros Hk Hi Hv. rewrite inside_dget in *. intros e He. specialize (Hi e He).
  rewrite !dget_dset in * by done. destruct (Z.eqb_spec e k); [by subst|done].
Qed.

Lemma inside_drop d i k : axis k -> inside d i -> inside (dset d k 1) (dset i k 0).
Proof.
  intros Hk Hi. rewrite inside_dget in *. intros e He. specialize (Hi e He).
  rewrite !dget_dset in * by done. destruct (Z.eqb_spec e k); lia.
Qed.

(** * Sums over indices *)

#[local] Open Scope R_scope.

(** Summing along an axis. *)
Definition alongsum (d : dim4) (k : Z) (v : dim4 -> R) : dim4 -> R :=
  fun i => Rsum (zrange 0 (dget d k)) (fun m => v (dset i k m)).

Lemma Rsum_bij {B C} (l : list B) (m : list C) (f : B -> C) (g : C -> B) v :
  NoDup l -> NoDup m -> (forall b, b ∈ l -> f b ∈ m /\ g (f b) = b) -> (forall c, c ∈ m -> g c ∈ l /\ f (g c) = c) ->
  Rsum l (fun b => v (f b)) = Rsum m v.
Proof.
  intros Hl Hm Hf Hg. rewrite <- Rsum_fmap. apply Rsum_perm. apply NoDup_Permutation; [|done|].
  - apply NoDup_fmap_2_strong; [|done]. intros x y Hx Hy E. rewrite <- (proj2 (Hf x Hx)), <- (proj2 (Hf y Hy)). by rewrite E.
  - intros c. split.
    + intros (b & -> & Hb)%list_elem_of_fmap. by apply Hf.
    + intros Hc. apply list_elem_of_fmap. exists (g c). destruct (Hg c Hc). by split.
Qed.

Lemma Rsum_prod {B C} (l : list B) (m : list C) (v : B -> C -> R) :
  Rsum l (fun b => Rsum m (v b)) = Rsum (list_prod l m) (fun p => v p.1 p.2).
Proof.
  induction l as [|b l IH]; [done|]. cbn [list_prod]. by rewrite Rsum_cons, Rsum_app, Rsum_map, IH.
Qed.

Lemma NoDup_list_prod {B C} (l : list B) (m : list C) : NoDup l -> NoDup m -> NoDup (list_prod l m).
Proof.
  intros Hl Hm. induction Hl as [|b l Hb _ IH]; [constructor|]. cbn. apply NoDup_app. split_and!.
  - apply NoDup_fmap_2; [by intros x y [= ->]|done].
  - intros p (c & <- & _)%list_elem_of_In%in_map_iff Hp%list_elem_of_In. apply in_prod_iff in Hp as [Hin _]. apply Hb.
    by apply list_elem_of_In.
  - done.
Qed.

(** A sum over a grid by the lines along an axis. *)
Lemma grid_along d k (v : dim4 -> R) :
  axis k -> Rsum (grid d) v = Rsum (grid (dset d k 1)) (alongsum d k v).
Proof.
  intros Hk. unfold alongsum. rewrite Rsum_prod. symmetry.
  apply (Rsum_bij (list_prod (grid (dset d k 1)) (zrange 0 (dget d k))) (grid d) (fun p => dset p.1 k p.2)
           (fun i => (dset i k 0, dget i k))).
  - apply NoDup_list_prod; [apply NoDup_grid|apply NoDup_zrange].
  - apply NoDup_grid.
  - intros [i m] [Hi Hm]%list_elem_of_In%in_prod_iff. apply list_elem_of_In in Hi, Hm.
    rewrite elem_of_indices in Hi. apply elem_of_zrange in Hm. cbn [fst snd].
    rewrite elem_of_indices. split; [by eapply inside_dset|]. rewrite dset_dset, dget_dset_eq by done. f_equal.
    rewrite inside_dget in Hi. specialize (Hi k Hk). rewrite dget_dset_eq in Hi by done.
    replace 0%Z with (dget i k) by lia. by apply dset_dget.
  - intros i Hi%elem_of_indices. cbn [fst snd]. rewrite dset_dset, dset_dget by done. split; [|done].
    apply list_elem_of_In, in_prod_iff. rewrite <- !list_elem_of_In, elem_of_indices, elem_of_zrange. split.
    + by apply inside_drop.
    + rewrite inside_dget in Hi. by apply Hi.
Qed.

(** ** Successive sums along several axes *)

Definition sumdims (d : dim4) (axes : list Z) : dim4 := fold_left (fun d k => dset d k 1) axes d.

Fixpoint sums (d : dim4) (axes : list Z) (v : dim4 -> R) : dim4 -> R :=
  match axes with
  | [] => v
  | k :: r => sums (dset d k 1) r (alongsum d k v)
  end.

Lemma sumdims_dget d axes e : Forall axis axes -> axis e -> dget (sumdims d axes) e = if bool_decide (e ∈ axes) then 1%Z else dget d e.
Proof.
  intros Ha He. revert d. induction Ha as [|k r Hk Hr IH]; intros d; [done|]. cbn [sumdims fold_left]. fold (sumdims (dset d k 1) r).
  rewrite IH, dget_dset by done. destruct (decide (e ∈ r)) as [Hin|Hin].
  - rewrite !bool_decide_eq_true_2; [done|by right|done].
  - rewrite (bool_decide_eq_false_2 (e ∈ r)) by done. destruct (Z.eqb_spec e k) as [->|Hne].
    + by rewrite bool_decide_eq_true_2 by (by left).
    + rewrite bool_decide_eq_false_2; [done|]. by intros [?|?]%elem_of_cons.
Qed.

(** The index an element is added to. *)
Lemma dmod_sum d k i m : axis k -> dget d k = 1%Z -> dmod (dset i k m) d = dmod i d.
Proof.
  intros Hk E. apply dim4_ext. intros e He. destruct i, d. unfold dmod, dmap2. axes; cbn in *; subst; rewrite ?Z.mod_1_r; done.
Qed.

Lemma dmod_inside d i : inside d i -> dmod i d = i.
Proof.
  intros (? & ? & ? & ?). destruct i. unfold dmod, dmap2. cbn in *. by rewrite !Z.mod_small.
Qed.

Lemma sums_adjoint d axes (g v : dim4 -> R) :
  Forall axis axes ->
  Rsum (grid (sumdims d axes)) (fun j => g j * sums d axes v j)
  = Rsum (grid d) (fun i => g (dmod i (sumdims d axes)) * v i).
Proof.
  intros Ha. revert d v. induction Ha as [|k r Hk Hr IH]; intros d v.
  { cbn. apply Rsum_ext. intros i Hi%elem_of_indices. by rewrite dmod_inside. }
  cbn [sums sumdims fold_left]. fold (sumdims (dset d k 1) r). rewrite IH.
  rewrite (grid_along d k _ Hk). apply Rsum_ext. intros i _. unfold alongsum.
  rewrite Rmult_comm, <- Rsum_scal. apply Rsum_ext. intros m _. rewrite Rmult_comm. do 2 f_equal. symmetry. apply dmod_sum; [done|].
  rewrite sumdims_dget, dget_dset_eq by done. by case_bool_decide.
Qed.

(** The elements added up into one. *)
Fixpoint count (d : dim4) (axes : list Z) : Z :=
  match axes with [] => 1%Z | k :: r => (dget d k * count (dset d k 1) r)%Z end.

Lemma deriv_Rsum {B} (l : list B) (f : B -> R -> R) (g : B -> R) t :
  (forall b, b ∈ l -> derivable_pt_lim (f b) t (g b)) ->
  derivable_pt_lim (fun u => Rsum l (fun b => f b u)) t (Rsum l g).
Proof.
  induction l as [|b l IH]; intros Hf; [exact (deriv_const 0 t)|].
  apply (deriv_add (f b) (fun u => Rsum l (fun b => f b u))); [apply Hf; by left|]. apply IH. intros c Hc. apply Hf. by right.
Qed.

Lemma deriv_scale f t a k : derivable_pt_lim f t a -> derivable_pt_lim (fun u => f u * k) t (a * k).
Proof. intros Hf. eapply deriv_eq; [apply (deriv_mul f (fun _ => k)); [exact Hf|apply deriv_const]|ring]. Qed.

Lemma sums_deriv d axes (c : R -> dim4 -> R) (v : dim4 -> R) t :
  Forall axis axes -> (forall i, inside d i -> derivable_pt_lim (fun u => c u i) t (v i)) ->
  forall i, inside (sumdims d axes) i -> derivable_pt_lim (fun u => sums d axes (c u) i) t (sums d axes v i).
Proof.
  intros Ha. revert d c v. induction Ha as [|k r Hk Hr IH]; intros d c v Hc i Hi; [by apply Hc|].
  cbn [sums sumdims fold_left] in *. apply (IH _ (fun u => alongsum d k (c u))); [|done]. intros j Hj. unfold alongsum.
  apply deriv_Rsum. intros m Hm%elem_of_zrange. apply Hc. by eapply inside_dset.
Qed.

Lemma sums_ext d axes (v w : dim4 -> R) :
  Forall axis axes -> (forall i, inside d i -> v i = w i) ->
  forall i, inside (sumdims d axes) i -> sums d axes v i = sums d axes w i.
Proof.
  intros Ha. revert d v w. induction Ha as [|k r Hk Hr IH]; intros d v w Hv i Hi; [by apply Hv|].
  cbn [sums sumdims fold_left] in *. apply IH; [|done]. intros j Hj. unfold alongsum.
  apply Rsum_ext. intros m Hm%elem_of_zrange. apply Hv. by eapply inside_dset.
Qed.

(** * Positions *)

Lemma lin_bounds d i : inside d i -> (0 <= lin d i < elements d)%Z.
Proof.
  destruct d as [a b c e], i as [x y z w]. unfold inside, lin, elements. cbn. intros (? & ? & ? & ?).
  assert (0 <= z + c * w < c * e)%Z by nia. assert (0 <= y + b * (z + c * w) < b * (c * e))%Z by nia. nia.
Qed.

Lemma unlin_lin d i : inside d i -> unlin d (lin d i) = i.
Proof.
  destruct d as [a b c e], i as [x y z w]. unfold inside, lin, unlin. cbn. intros (? & ? & ? & ?).
  rewrite (Z.mul_comm a), Z.mod_add, Z.div_add, Z.mod_small, (Z.div_small x) by lia. rewrite Z.add_0_l.
  rewrite (Z.mul_comm b), Z.mod_add, Z.div_add, Z.mod_small, (Z.div_small y) by lia. rewrite Z.add_0_l.
  rewrite (Z.mul_comm c), Z.mod_add, Z.div_add, Z.mod_small, (Z.div_small z) by lia. rewrite Z.add_0_l. done.
Qed.

Lemma lin_unlin d n : dall (Z.le 0) d -> (0 <= n < elements d)%Z -> inside d (unlin d n) /\ lin d (unlin d n) = n.
Proof.
  destruct d as [a b c e]. unfold dall, inside, lin, unlin, elements. cbn. intros (? & ? & ? & ?) Hn.
  assert (0 < a /\ 0 < b /\ 0 < c /\ 0 < e)%Z as (Ha & Hb & Hc & He) by nia.
  pose proof (Z.div_mod n a ltac:(lia)) as E1. pose proof (Z.mod_pos_bound n a Ha).
  pose proof (Z.div_mod (n / a) b ltac:(lia)) as E2. pose proof (Z.mod_pos_bound (n / a) b Hb).
  pose proof (Z.div_mod (n / a / b) c ltac:(lia)) as E3. pose proof (Z.mod_pos_bound (n / a / b) c Hc).
  assert (0 <= n / a / b / c < e)%Z.
  { split; [repeat (apply Z.div_pos; [|lia]); lia|]. rewrite !Z.div_div by lia. apply Z.div_lt_upper_bound; nia. }
  split; [lia|].
  replace ((n / a / b) mod c + c * (n / a / b / c))%Z with (n / a / b)%Z by lia.
  replace ((n / a) mod b + b * (n / a / b))%Z with (n / a)%Z by lia. lia.
Qed.

(** * Parts of an array *)

Definition isize (s : index) (n : Z) : Z := match s with span => n | seq f l => l - f + 1 end.
Definition istart (s : index) : Z := match s with span => 0 | seq f _ => f end.
Definition idims (s : indices) (d : dim4) : dim4 :=
  D4 (isize (s 0%Z) (dim0 d)) (isize (s 1%Z) (dim1 d)) (isize (s 2%Z) (dim2 d)) (isize (s 3%Z) (dim3 d)).
Definition istarts (s : indices) : dim4 := D4 (istart (s 0%Z)) (istart (s 1%Z)) (istart (s 2%Z)) (istart (s 3%Z)).
Definition iat (s : indices) (i : dim4) : dim4 := dmap2 Z.add i (istarts s).
Definition iback (s : indices) (i : dim4) : dim4 := dmap2 Z.sub i (istarts s).
Definition ivalid (s : indices) (d : dim4) : Prop :=
  forall k, axis k -> match s k with span => True | seq f l => (0 <= f <= l /\ l < dget d k)%Z end.
Definition iselected (s : indices) (d : dim4) (i : dim4) : bool :=
  forallb (fun k => (0 <=? dget (iback s i) k)%Z && (dget (iback s i) k <? dget (idims s d) k)%Z) four.

Arguments iselected : simpl never.

(** The index of an element before its dimensions are reordered. *)
Definition permuted (i0 i1 i2 i3 : Z) (i : dim4) : dim4 := dset (dset (dset (dset i i0 (dim0 i)) i1 (dim1 i)) i2 (dim2 i)) i3 (dim3 i).

Lemma dset_nonneg d k n : dall (Z.le 0) d -> (0 <= n)%Z -> dall (Z.le 0) (dset d k n).
Proof. destruct d. unfold dall, dset. cbn. intros (? & ? & ? & ?) Hn. repeat case_match; cbn; lia. Qed.

Lemma dget_nonneg d k : dall (Z.le 0) d -> (0 <= dget d k)%Z.
Proof. destruct d. unfold dall, dget. cbn. intros (? & ? & ? & ?). repeat case_match; lia. Qed.

Lemma dmod_mul_inside d t i : dall (Z.le 1) t -> inside (dmul d t) i -> inside d (dmod i d).
Proof.
  destruct d, t, i. unfold dall, inside. cbn. intros (? & ? & ? & ?) (? & ? & ? & ?).
  repeat split; apply Z.mod_pos_bound; nia.
Qed.

Lemma iat_inside s d i : ivalid s d -> inside (idims s d) i -> inside d (iat s i).
Proof.
  intros Hs. rewrite !inside_dget. intros Hi k Hk. specialize (Hi k Hk). specialize (Hs k Hk).
  destruct d, i. axes; cbn in *; destruct (s _); cbn in *; lia.
Qed.

Lemma iselected_inside s d i : iselected s d i = true <-> inside (idims s d) (iback s i).
Proof.
  unfold iselected, inside. cbn [four forallb dget]. rewrite !andb_true_iff, !Z.leb_le, !Z.ltb_lt.
  unfold dget. cbn. tauto.
Qed.

Lemma idims_nonneg s d : ivalid s d -> dall (Z.le 0) d -> dall (Z.le 0) (idims s d).
Proof.
  intros Hs Hd. unfold ivalid, axis in Hs. pose proof (Hs 0%Z ltac:(tauto)). pose proof (Hs 1%Z ltac:(tauto)).
  pose proof (Hs 2%Z ltac:(tauto)). pose proof (Hs 3%Z ltac:(tauto)). destruct d. unfold dall in *. cbn in *.
  destruct (s 0%Z), (s 1%Z), (s 2%Z), (s 3%Z); cbn; lia.
Qed.

Lemma permuted_inside d i0 i1 i2 i3 i :
  [i0; i1; i2; i3] ≡ₚ four -> inside (D4 (dget d i0) (dget d i1) (dget d i2) (dget d i3)) i ->
  inside d (permuted i0 i1 i2 i3 i).
Proof.
  intros Hp (H0 & H1 & H2 & H3).
  assert (Hnd : NoDup [i0; i1; i2; i3]) by (rewrite Hp; unfold four; repeat constructor; set_solver).
  assert (Hax : forall k, k ∈ [i0; i1; i2; i3] -> axis k) by (intros k; rewrite Hp; unfold four, axis; set_solver).
  assert (axis i0 /\ axis i1 /\ axis i2 /\ axis i3) as (A0 & A1 & A2 & A3) by (split_and!; apply Hax; set_solver).
  assert (i0 <> i1 /\ i0 <> i2 /\ i0 <> i3 /\ i1 <> i2 /\ i1 <> i3 /\ i2 <> i3)%Z as (? & ? & ? & ? & ? & ?).
  { rewrite !NoDup_cons in Hnd. set_solver. }
  apply inside_dget. intros k Hk. assert (Hin : k ∈ four) by (unfold four; axes; repeat (first [by left|right])).
  rewrite <- Hp in Hin.
  unfold permuted. rewrite !dget_dset by done.
  repeat match goal with |- context [(?x =? ?y)%Z] => destruct (Z.eqb_spec x y) end; subst; cbn in *; try done.
  set_solver.
Qed.

(** * Real tensors *)

(** The elements of an array. *)
Class Observed (A : Type) := obs : A -> dim4 -> R.

Section Rep.
Context {A K : Type} `{TensorOps A K, Observed A}.

Definition rep (a : A) (d : dim4) (v : dim4 -> R) : Prop := t_dims a = d /\ forall i, inside d i -> obs a i = v i.

Lemma rep_ext a d v e w : rep a d v -> d = e -> (forall i, inside e i -> v i = w i) -> rep a e w.
Proof. intros [Hd Hv] -> Hw. split; [done|]. intros i Hi. rewrite Hv by done. by apply Hw. Qed.
Lemma rep_obs a : rep a (t_dims a) (obs a).
Proof. by split. Qed.
Lemma rep_dims a d v : rep a d v -> t_dims a = d.
Proof. by intros []. Qed.
Lemma rep_at a d v i : rep a d v -> inside d i -> obs a i = v i.
Proof. intros []; auto. Qed.
End Rep.

Lemma Int_part_IZR n : Int_part (IZR n) = n.
Proof.
  unfold Int_part. assert (E : (n + 1)%Z = up (IZR n)); [|lia].
  apply tech_up; rewrite plus_IZR; lra.
Qed.

(** An array of indices: the integers [f]. *)
Definition integers (f : Z -> Z) : dim4 -> R := fun i => IZR (f (dim0 i)).

(** What ArrayFire documents of its functions, with exact real elements of one type;
    element-wise functions act on the elements as those of [real_ops]. *)
Class RealTensors (A : Type) `{Arrays A, ElementOps A R, TensorOps A R, Observed A} : Prop := {
  rt_dims : forall a : A, dall (Z.le 0) (t_dims a);
  rt_type : forall a b : A, a_type a = a_type b;
  rt_as : forall t (a : A) d v, rep a d v -> rep (a_as t a) d (fun i => v i);
  rt_k_of : forall n, k_of (A := A) n = IZR n;
  rt_k_opp : forall x, k_opp (A := A) x = - x;
  rt_k_sub : forall x y, k_sub (A := A) x y = x - y;
  rt_k_mul : forall x y, k_mul (A := A) x y = x * y;
  rt_k_div : forall x y, k_div (A := A) x y = x / y;
  rt_k_le : forall x y, k_le (A := A) x y = bool_decide (x <= y);
  rt_const_like : forall k (a : A) d v, rep a d v -> rep (e_const k a) d (fun i => k);
  rt_add : forall (a b : A) d v w, rep a d v -> rep b d w -> rep (a_add a b) d (fun i => v i + w i);
  rt_sub : forall (a b : A) d v w, rep a d v -> rep b d w -> rep (e_sub a b) d (fun i => v i - w i);
  rt_mul : forall (a b : A) d v w, rep a d v -> rep b d w -> rep (e_mul a b) d (fun i => v i * w i);
  rt_div : forall (a b : A) d v w, rep a d v -> rep b d w -> rep (e_div a b) d (fun i => v i / w i);
  rt_max : forall (a b : A) d v w, rep a d v -> rep b d w -> rep (e_max a b) d (fun i => e_max (v i) (w i));
  rt_min : forall (a b : A) d v w, rep a d v -> rep b d w -> rep (e_min a b) d (fun i => e_min (v i) (w i));
  rt_gt : forall (a b : A) d v w, rep a d v -> rep b d w -> rep (e_gt a b) d (fun i => e_gt (v i) (w i));
  rt_lt : forall (a b : A) d v w, rep a d v -> rep b d w -> rep (e_lt a b) d (fun i => e_lt (v i) (w i));
  rt_ge : forall (a b : A) d v w, rep a d v -> rep b d w -> rep (e_ge a b) d (fun i => e_ge (v i) (w i));
  rt_le : forall (a b : A) d v w, rep a d v -> rep b d w -> rep (e_le a b) d (fun i => e_le (v i) (w i));
  rt_and : forall (a b : A) d v w, rep a d v -> rep b d w -> rep (e_and a b) d (fun i => e_and (v i) (w i));
  rt_not : forall (a : A) d v, rep a d v -> rep (e_not a) d (fun i => e_not (v i));
  rt_exp : forall (a : A) d v, rep a d v -> rep (e_exp a) d (fun i => e_exp (v i));
  rt_log : forall (a : A) d v, rep a d v -> rep (e_log a) d (fun i => e_log (v i));
  rt_log1p : forall (a : A) d v, rep a d v -> rep (e_log1p a) d (fun i => e_log1p (v i));
  rt_sin : forall (a : A) d v, rep a d v -> rep (e_sin a) d (fun i => e_sin (v i));
  rt_cos : forall (a : A) d v, rep a d v -> rep (e_cos a) d (fun i => e_cos (v i));
  rt_tanh : forall (a : A) d v, rep a d v -> rep (e_tanh a) d (fun i => e_tanh (v i));
  rt_sqrt : forall (a : A) d v, rep a d v -> rep (e_sqrt a) d (fun i => e_sqrt (v i));
  rt_sigmoid : forall (a : A) d v, rep a d v -> rep (e_sigmoid a) d (fun i => e_sigmoid (v i));
  rt_abs : forall (a : A) d v, rep a d v -> rep (e_abs a) d (fun i => e_abs (v i));
  rt_sign : forall (a : A) d v, rep a d v -> rep (e_sign a) d (fun i => e_sign (v i));
  rt_pow : forall p (a : A) d v, rep a d v -> rep (e_pow a p) d (fun i => e_pow (v i) p);
  rt_clamp : forall lo hi (a : A) d v, rep a d v -> rep (e_clamp a lo hi) d (fun i => e_clamp (v i) lo hi);
  rt_replace : forall k (a b : A) d v w, rep a d v -> rep b d w -> rep (e_replace a b k) d (fun i => e_replace (v i) (w i) k);
  rt_eq : forall (a b : A) d v w, rep a d v -> rep b d w -> rep (t_eq a b) d (fun i => bool_R (bool_decide (v i = w i)));
  rt_neq : forall (a b : A) d v w, rep a d v -> rep b d w -> rep (t_neq a b) d (fun i => bool_R (negb (bool_decide (v i = w i))));
  rt_or : forall (a b : A) d v w, rep a d v -> rep b d w -> rep (t_or a b) d (fun i => bool_R (negb (bool_decide (v i = 0)) || negb (bool_decide (w i = 0))));
  rt_neg : forall (a : A) d v, rep a d v -> rep (t_neg a) d (fun i => - v i);
  rt_mask : forall k (a b : A) d v w, rep a d v -> rep b d w -> rep (t_mask a b k) d (fun i => if bool_decide (w i = 0) then v i else k);
  rt_tile : forall (a : A) d v t, rep a d v -> dall (Z.le 1) t -> rep (t_tile a t) (dmul d t) (fun i => v (dmod i d));
  rt_sum : forall (a : A) d v k, axis k -> rep a d v -> rep (t_sum a k) (dset d k 1) (alongsum d k v);
  rt_mean : forall (a : A) d v k, axis k -> rep a d v ->
    rep (t_mean a k) (dset d k 1) (fun i => alongsum d k v i / IZR (dget d k));
  rt_maxd : forall (a : A) k, axis k -> t_dims (t_maxd a k) = dset (t_dims a) k 1;
  rt_moddims : forall (a : A) d v e, rep a d v -> dall (Z.le 0) e -> elements e = elements d ->
    rep (t_moddims a e) e (fun i => v (unlin d (lin e i)));
  rt_flat : forall (a : A) d v, rep a d v -> rep (t_flat a) (D4 (elements d) 1 1 1) (fun i => v (unlin d (dim0 i)));
  rt_reorder : forall (a : A) d v i0 i1 i2 i3, rep a d v -> [i0; i1; i2; i3] ≡ₚ four ->
    rep (t_reorder a i0 i1 i2 i3) (D4 (dget d i0) (dget d i1) (dget d i2) (dget d i3)) (fun i => v (permuted i0 i1 i2 i3 i));
  rt_transpose : forall (a : A) d v, rep a d v ->
    rep (t_transpose a) (D4 (dim1 d) (dim0 d) (dim2 d) (dim3 d)) (fun i => v (D4 (dim1 i) (dim0 i) (dim2 i) (dim3 i)));
  rt_matmul : forall (a b : A) m n k p q v w, rep a (D4 m n p q) v -> rep b (D4 n k p q) w ->
    rep (t_matmul a b) (D4 m k p q) (fun i => Rsum (zrange 0 n) (fun j =>
      v (D4 (dim0 i) j (dim2 i) (dim3 i)) * w (D4 j (dim1 i) (dim2 i) (dim3 i))));
  rt_matmulTN : forall (a b : A) m n k p q v w, rep a (D4 n m p q) v -> rep b (D4 n k p q) w ->
    rep (t_matmulTN a b) (D4 m k p q) (fun i => Rsum (zrange 0 n) (fun j =>
      v (D4 j (dim0 i) (dim2 i) (dim3 i)) * w (D4 j (dim1 i) (dim2 i) (dim3 i))));
  rt_matmulNT : forall (a b : A) m n k p q v w, rep a (D4 m n p q) v -> rep b (D4 k n p q) w ->
    rep (t_matmulNT a b) (D4 m k p q) (fun i => Rsum (zrange 0 n) (fun j =>
      v (D4 (dim0 i) j (dim2 i) (dim3 i)) * w (D4 (dim1 i) j (dim2 i) (dim3 i))));
  rt_index : forall (a : A) d v s, ivalid s d -> rep a d v -> rep (t_index a s) (idims s d) (fun i => v (iat s i));
  rt_assign : forall (a b : A) d v w s, ivalid s d -> rep a d v -> rep b (idims s d) w ->
    rep (t_assign a s b) d (fun i => if iselected s d i then w (iback s i) else v i);
  rt_columns : forall (a b : A) m n c v f, rep a (D4 m n 1 1) v -> rep b (D4 c 1 1 1) (integers f) ->
    (forall j, 0 <= j < c -> 0 <= f j < n)%Z -> rep (t_columns a b) (D4 m c 1 1) (fun i => v (D4 (dim0 i) (f (dim1 i)) 0 0));
  rt_join0 : forall (a b : A) d v n w, rep a d v -> rep b (dset d 0 n) w ->
    rep (t_join0 a b) (dset d 0 (dim0 d + n))
      (fun i => if (dim0 i <? dim0 d)%Z then v i else w (dset i 0 (dim0 i - dim0 d)));
  rt_const : forall k d t, dall (Z.le 0) d -> rep (t_const (A := A) k d t) d (fun _ => k);
  rt_new : forall d t, dall (Z.le 0) d -> t_dims (t_new (A := A) d t) = d;
  rt_range : forall d, dall (Z.le 0) d -> rep (t_range (A := A) d) d (fun i => IZR (dim0 i));
  rt_batch_mul : forall (a b : A) d v e w, rep a d v -> rep b e w ->
    (forall k, axis k -> dget e k = dget d k \/ dget e k = 1%Z) -> rep (t_batch_mul a b) d (fun i => v i * w (dmod i e));
  rt_numdims : forall a : A, dim3 (t_dims a) = 1%Z -> (t_numdims a <= 3)%Z;
  rt_anyTrue : forall (a : A) d v, rep a d v -> t_anyTrue a = true <-> exists i, inside d i /\ v i <> 0;
  rt_onehotT : forall (a b : A) n m k w f t, (0 <= m)%Z -> rep a (D4 n 1 1 1) (integers f) -> rep b (D4 n k 1 1) w ->
    (forall j, 0 <= j < n -> 0 <= f j < m)%Z ->
    rep (t_onehotT a n m t b) (D4 m k 1 1)
      (fun i => Rsum (zrange 0 n) (fun r => if (f r =? dim0 i)%Z then w (D4 r (dim1 i) 0 0) else 0))
}.

(** * Tensors as a space *)

Section Space.
Context {A : Type} `{RT : RealTensors A}.

Definition tderiv (c : R -> A) (t : R) (v : dim4 -> R) : Prop :=
  (forall u, t_dims (c u) = t_dims (c t))
  /\ forall i, inside (t_dims (c t)) i -> derivable_pt_lim (fun u => obs (c u) i) t (v i).

#[export] Instance tensor_space : Space A (dim4 -> R) := {
  like a b := t_dims a = t_dims b;
  ip a v := Rsum (grid (t_dims a)) (fun i => obs a i * v i);
  value a := obs a;
  vzero := fun _ => 0;
  deriv := tderiv
}.

Lemma ip_rep a d v (w : dim4 -> R) : rep a d v -> ip a w = Rsum (grid d) (fun i => v i * w i).
Proof.
  intros [Hd Hv]. cbn. rewrite Hd. apply Rsum_ext. intros i Hi%elem_of_indices. by rewrite Hv.
Qed.

#[export] Instance tensor_space_laws : SpaceLaws A (dim4 -> R).
Proof.
  split.
  - cbn. split; red; congruence.
  - apply rt_type.
  - intros a b c Ha Hb. cbn in *. rewrite (rep_dims _ _ _ (rt_add a b (t_dims a) _ _ (rep_obs a) ltac:(rewrite Ha, <- Hb; apply rep_obs))). done.
  - intros a b v Hab. cbn in Hab. pose proof (rep_obs b) as Hb. rewrite <- Hab in Hb.
    rewrite (ip_rep _ _ _ v (rt_add a b _ _ _ (rep_obs a) Hb)), (ip_rep _ _ _ v (rep_obs a)), (ip_rep _ _ _ v Hb).
    rewrite <- Rsum_plus. apply Rsum_ext. intros. ring.
  - intros a. cbn. apply Rsum_all_zero. intros. ring.
  - intros x t. split; [done|]. intros i _. apply deriv_const.
  - intros c c' t d E [E1 E2]. split.
    + intros u. by rewrite <- !E.
    + intros i Hi. apply (derivable_pt_lim_ext (fun u => obs (c u) i)); [intros u; by rewrite E|]. apply E2. by rewrite E.
  - intros c t d s [E1 E2] Hs. cbn in *. rewrite Hs. apply deriv_Rsum. intros i Hi%elem_of_indices.
    eapply deriv_eq; [apply (deriv_mul (fun _ => obs s i) (fun u => obs (c u) i)); [apply deriv_const|by apply E2]|ring].
Qed.
End Space.

(** ** A concrete array type of real tensors: every law of [RealTensors] holds of it,
    so that the theorems over the laws speak about something. *)

#[local] Open Scope R_scope.

Record tensor := Tensor { shape : dim4; entry : dim4 -> R }.

Definition clamp4 (d : dim4) : dim4 := D4 (Z.max 0 (dim0 d)) (Z.max 0 (dim1 d)) (Z.max 0 (dim2 d)) (Z.max 0 (dim3 d)).
Definition tdims (a : tensor) : dim4 := clamp4 (shape a).
Arguments tdims : simpl never.

Definition lift1 (F : R -> R) (a : tensor) : tensor := Tensor (tdims a) (fun i => F (entry a i)).
Definition lift2 (F : R -> R -> R) (a b : tensor) : tensor := Tensor (tdims a) (fun i => F (entry a i) (entry b i)).

#[export] Instance tensor_arrays : Arrays tensor := {
  a_type _ := f64; a_as _ := lift1 (fun x => x); a_empty := Tensor (D4 0 0 0 0) (fun _ => 0); a_ones := lift1 (fun _ => 1);
  a_add := lift2 Rplus
}.

#[export] Instance tensor_elements : ElementOps tensor R := {
  k_of := IZR; k_ratio n d := IZR n / IZR d; k_opp := Ropp; k_sub := Rminus; e_const k := lift1 (fun _ => k);
  e_sub := lift2 Rminus; e_mul := lift2 Rmult; e_div := lift2 Rdiv; e_max := lift2 Rmax; e_min := lift2 Rmin;
  e_gt := lift2 (e_gt (A := R)); e_lt := lift2 (e_lt (A := R)); e_ge := lift2 (e_ge (A := R)); e_le := lift2 (e_le (A := R));
  e_and := lift2 (e_and (A := R)); e_not := lift1 (e_not (A := R));
  e_exp := lift1 (e_exp (A := R)); e_log := lift1 (e_log (A := R)); e_log1p := lift1 (e_log1p (A := R));
  e_sin := lift1 (e_sin (A := R)); e_cos := lift1 (e_cos (A := R)); e_tanh := lift1 (e_tanh (A := R));
  e_sqrt := lift1 (e_sqrt (A := R)); e_sigmoid := lift1 (e_sigmoid (A := R)); e_abs := lift1 (e_abs (A := R));
  e_sign := lift1 (e_sign (A := R)); e_pow a p := lift1 (fun x => e_pow x p) a;
  e_clamp a lo hi := lift1 (fun x => e_clamp x lo hi) a; e_replace a m k := lift2 (fun x m => e_replace x m k) a m
}.

Definition tvalue (a : tensor) : dim4 -> R := entry a.

(** The product of an [m x n] and an [n x k] matrix per pair of the last two indices. *)
Definition product (m n k p q : Z) (f g : Z -> Z -> dim4 -> R) : tensor :=
  Tensor (D4 m k p q) (fun i => Rsum (zrange 0 n) (fun j => f (dim0 i) j i * g j (dim1 i) i)).

#[export] Instance tensor_ops : TensorOps tensor R := {
  t_dims := tdims;
  t_numdims a := (if negb (dim3 (tdims a) =? 1) then 4 else if negb (dim2 (tdims a) =? 1) then 3
                  else if negb (dim1 (tdims a) =? 1) then 2 else 1)%Z;
  t_tile a t := Tensor (dmul (tdims a) t) (fun i => entry a (dmod i (tdims a)));
  t_sum a k := Tensor (dset (tdims a) k 1) (alongsum (tdims a) k (entry a));
  t_mean a k := Tensor (dset (tdims a) k 1) (fun i => alongsum (tdims a) k (entry a) i / IZR (dget (tdims a) k));
  t_maxd a k := Tensor (dset (tdims a) k 1)
    (fun i => fold_left Rmax (map (fun m => entry a (dset i k m)) (zrange 1 (dget (tdims a) k))) (entry a (dset i k 0)));
  t_moddims a e := Tensor e (fun i => entry a (unlin (tdims a) (lin e i)));
  t_flat a := Tensor (D4 (elements (tdims a)) 1 1 1) (fun i => entry a (unlin (tdims a) (dim0 i)));
  t_reorder a i0 i1 i2 i3 :=
    Tensor (D4 (dget (tdims a) i0) (dget (tdims a) i1) (dget (tdims a) i2) (dget (tdims a) i3))
      (fun i => entry a (permuted i0 i1 i2 i3 i));
  t_transpose a := Tensor (D4 (dim1 (tdims a)) (dim0 (tdims a)) (dim2 (tdims a)) (dim3 (tdims a)))
    (fun i => entry a (D4 (dim1 i) (dim0 i) (dim2 i) (dim3 i)));
  t_matmul a b := product (dim0 (tdims a)) (dim1 (tdims a)) (dim1 (tdims b)) (dim2 (tdims a)) (dim3 (tdims a))
    (fun x y i => entry a (D4 x y (dim2 i) (dim3 i))) (fun x y i => entry b (D4 x y (dim2 i) (dim3 i)));
  t_matmulTN a b := product (dim1 (tdims a)) (dim0 (tdims a)) (dim1 (tdims b)) (dim2 (tdims a)) (dim3 (tdims a))
    (fun x y i => entry a (D4 y x (dim2 i) (dim3 i))) (fun x y i => entry b (D4 x y (dim2 i) (dim3 i)));
  t_matmulNT a b := product (dim0 (tdims a)) (dim1 (tdims a)) (dim0 (tdims b)) (dim2 (tdims a)) (dim3 (tdims a))
    (fun x y i => entry a (D4 x y (dim2 i) (dim3 i))) (fun x y i => entry b (D4 y x (dim2 i) (dim3 i)));
  t_index a s := Tensor (idims s (tdims a)) (fun i => entry a (iat s i));
  t_assign a s b := Tensor (tdims a) (fun i => if iselected s (tdims a) i then entry b (iback s i) else entry a i);
  t_mask a m k := lift2 (fun x m => if bool_decide (m = 0) then x else k) a m;
  t_columns a b := Tensor (D4 (dim0 (tdims a)) (dim0 (tdims b)) 1 1)
    (fun i => entry a (D4 (dim0 i) (Int_part (entry b (D4 (dim1 i) 0 0 0))) 0 0));
  t_join0 a b := Tensor (dset (tdims a) 0 (dim0 (tdims a) + dim0 (tdims b)))
    (fun i => if (dim0 i <? dim0 (tdims a))%Z then entry a i else entry b (dset i 0 (dim0 i - dim0 (tdims a))));
  t_const k d _ := Tensor d (fun _ => k);
  t_new d _ := Tensor d (fun _ => 7);
  t_range d := Tensor d (fun i => IZR (dim0 i));
  t_eq := lift2 (fun x y => bool_R (bool_decide (x = y)));
  t_neq := lift2 (fun x y => bool_R (negb (bool_decide (x = y))));
  t_or := lift2 (fun x y => bool_R (negb (bool_decide (x = 0)) || negb (bool_decide (y = 0))));
  t_neg := lift1 Ropp;
  t_batch_mul a b := Tensor (tdims a) (fun i => entry a i * entry b (dmod i (tdims b)));
  t_anyTrue a := existsb (fun i => negb (bool_decide (entry a i = 0))) (grid (tdims a));
  t_onehotT a n m _ b := Tensor (D4 m (dim1 (tdims b)) 1 1)
    (fun i => Rsum (zrange 0 n) (fun r => if (Int_part (entry a (D4 r 0 0 0)) =? dim0 i)%Z then entry b (D4 r (dim1 i) 0 0) else 0));
  t_erf := lift1 (fun x => x);
  k_mul := Rmult; k_div := Rdiv; k_le x y := bool_decide (x <= y); k_sqrt_pi := R_sqrt.sqrt PI; k_sqrt := R_sqrt.sqrt
}.

#[export] Instance tensor_observed : Observed tensor := entry.

Lemma clamp4_id d : dall (Z.le 0) d -> clamp4 d = d.
Proof. destruct d. unfold dall, clamp4. cbn. intros (? & ? & ? & ?). f_equal; lia. Qed.
Lemma tdims_nonneg a : dall (Z.le 0) (tdims a).
Proof. unfold tdims, clamp4, dall. cbn. lia. Qed.
Lemma rep_nonneg (a : tensor) d v : rep a d v -> dall (Z.le 0) d.
Proof. intros [<- _]. apply tdims_nonneg. Qed.

(** An array built as [Tensor d w] represents [w]. *)
Lemma rep_tensor d w : dall (Z.le 0) d -> rep (Tensor d w) d w.
Proof. intros Hd. split; [by apply clamp4_id|done]. Qed.

Lemma lift1_rep F a d v : rep a d v -> rep (lift1 F a) d (fun i => F (v i)).
Proof.
  intros Ha. pose proof (rep_nonneg _ _ _ Ha). destruct Ha as [<- Hv].
  eapply rep_ext; [by apply rep_tensor|done|]. intros i Hi. cbn. f_equal. by apply Hv.
Qed.
Lemma lift2_rep F a b d v w : rep a d v -> rep b d w -> rep (lift2 F a b) d (fun i => F (v i) (w i)).
Proof.
  intros Ha [Eb Hw]. pose proof (rep_nonneg _ _ _ Ha). destruct Ha as [<- Hv].
  eapply rep_ext; [by apply rep_tensor|done|]. intros i Hi. cbn. f_equal; [by apply Hv|by apply Hw].
Qed.

Lemma alongsum_ext d k v w i :
  axis k -> inside (dset d k 1) i -> (forall j, inside d j -> v j = w j) -> alongsum d k v i = alongsum d k w i.
Proof. intros Hk Hi E. apply Rsum_ext. intros m Hm%elem_of_zrange. apply E. by eapply inside_dset. Qed.

#[export] Instance tensor_laws : RealTensors tensor.
Proof.
  split; try reflexivity; try (intros a d v; apply lift1_rep); try (intros a b d v w; apply lift2_rep).
  - apply tdims_nonneg.
  - intros a d v t Ha Ht. pose proof (rep_nonneg _ _ _ Ha) as Hn. destruct Ha as [<- Hv].
    eapply rep_ext; [apply rep_tensor|done|].
    + unfold dall in *. cbn in *. nia.
    + intros i Hi. apply Hv. by eapply dmod_mul_inside.
  - intros a d v k Hk Ha. pose proof (rep_nonneg _ _ _ Ha) as Hn. destruct Ha as [<- Hv].
    eapply rep_ext; [apply rep_tensor; by apply dset_nonneg|done|]. intros i Hi. by apply alongsum_ext.
  - intros a d v k Hk Ha. pose proof (rep_nonneg _ _ _ Ha) as Hn. destruct Ha as [<- Hv].
    eapply rep_ext; [apply rep_tensor; by apply dset_nonneg|done|]. intros i Hi. cbn. f_equal. by apply alongsum_ext.
  - intros a k Hk. apply clamp4_id, dset_nonneg; [apply tdims_nonneg|done].
  - intros a d v e Ha He El. pose proof (rep_nonneg _ _ _ Ha) as Hn. destruct Ha as [<- Hv].
    eapply rep_ext; [by apply rep_tensor|done|]. intros i Hi. apply Hv. apply lin_unlin; [done|]. cbn in *.
    rewrite <- El. by apply lin_bounds.
  - intros a d v Ha. pose proof (rep_nonneg _ _ _ Ha) as Hn. destruct Ha as [<- Hv].
    eapply rep_ext; [apply rep_tensor|done|].
    + unfold dall, elements. cbn in *. unfold dall in Hn. cbn in Hn. nia.
    + intros i Hi. apply Hv. apply lin_unlin; [done|]. destruct Hi as (Hi & _). exact Hi.
  - intros a d v i0 i1 i2 i3 Ha Hp. pose proof (rep_nonneg _ _ _ Ha) as Hn. destruct Ha as [<- Hv].
    eapply rep_ext; [apply rep_tensor|done|].
    + split_and!; by apply dget_nonneg.
    + intros i Hi. apply Hv. by apply permuted_inside.
  - intros a d v Ha. pose proof (rep_nonneg _ _ _ Ha) as Hn. destruct Ha as [<- Hv].
    eapply rep_ext; [apply rep_tensor|done|].
    + unfold dall in *. cbn in *. tauto.
    + intros i (? & ? & ? & ?). apply Hv. done.
  - intros a b m n k p q v w Ha Hb. pose proof (rep_nonneg _ _ _ Ha) as Hn. pose proof (rep_nonneg _ _ _ Hb) as Hm.
    destruct Ha as [Ea Hv], Hb as [Eb Hw]. cbn in *. rewrite Ea, Eb. cbn.
    eapply rep_ext; [apply rep_tensor; unfold dall in *; cbn in *; tauto|done|]. intros i (? & ? & ? & ?). cbn in *.
    apply Rsum_ext. intros j Hj%elem_of_zrange. f_equal; [apply Hv|apply Hw]; done.
  - intros a b m n k p q v w Ha Hb. pose proof (rep_nonneg _ _ _ Ha) as Hn. pose proof (rep_nonneg _ _ _ Hb) as Hm.
    destruct Ha as [Ea Hv], Hb as [Eb Hw]. cbn in *. rewrite Ea, Eb. cbn.
    eapply rep_ext; [apply rep_tensor; unfold dall in *; cbn in *; tauto|done|]. intros i (? & ? & ? & ?). cbn in *.
    apply Rsum_ext. intros j Hj%elem_of_zrange. f_equal; [apply Hv|apply Hw]; done.
  - intros a b m n k p q v w Ha Hb. pose proof (rep_nonneg _ _ _ Ha) as Hn. pose proof (rep_nonneg _ _ _ Hb) as Hm.
    destruct Ha as [Ea Hv], Hb as [Eb Hw]. cbn in *. rewrite Ea, Eb. cbn.
    eapply rep_ext; [apply rep_tensor; unfold dall in *; cbn in *; tauto|done|]. intros i (? & ? & ? & ?). cbn in *.
    apply Rsum_ext. intros j Hj%elem_of_zrange. f_equal; [apply Hv|apply Hw]; done.
  - intros a d v s Hs Ha. pose proof (rep_nonneg _ _ _ Ha) as Hn. destruct Ha as [<- Hv].
    eapply rep_ext; [apply rep_tensor; by apply idims_nonneg|done|]. intros i Hi. apply Hv. by apply iat_inside.
  - intros a b d v w s Hs Ha Hb. pose proof (rep_nonneg _ _ _ Ha) as Hn. destruct Ha as [<- Hv].
    eapply rep_ext; [by apply rep_tensor|done|]. intros i Hi. cbn. destruct (iselected s (tdims a) i) eqn:E; [|by apply Hv].
    apply Hb. by apply iselected_inside.
  - intros a b m n c v f Ha Hb Hf. pose proof (rep_nonneg _ _ _ Ha) as Hn. pose proof (rep_nonneg _ _ _ Hb) as Hm.
    destruct Ha as [Ea Hv], Hb as [Eb Hw]. cbn in *. rewrite Ea, Eb. cbn.
    eapply rep_ext; [apply rep_tensor; unfold dall in *; cbn in *; lia|done|]. intros i (? & ? & ? & ?). cbn in *.
    assert (E : obs b (D4 (dim1 i) 0 0 0) = IZR (f (dim1 i))) by (by apply Hw).
    unfold obs, tensor_observed in E. rewrite E, Int_part_IZR. apply Hv. specialize (Hf (dim1 i)).
    unfold inside. cbn. lia.
  - intros a b d v n w Ha Hb. pose proof (rep_nonneg _ _ _ Ha) as Hn. pose proof (rep_nonneg _ _ _ Hb) as Hm.
    destruct Ha as [<- Hv], Hb as [Eb Hw]. cbn in *. rewrite Eb. cbn.
    eapply rep_ext; [apply rep_tensor|done|].
    + unfold dall in *. cbn in *. lia.
    + intros i (? & ? & ? & ?). cbn in *. destruct (Z.ltb_spec (dim0 i) (dim0 (tdims a))).
      * apply Hv. unfold inside. cbn. lia.
      * apply Hw. unfold inside. cbn. lia.
  - intros k d t Hd. by apply rep_tensor.
  - intros d t Hd. by apply clamp4_id.
  - intros d Hd. by apply rep_tensor.
  - intros a b d v e w Ha Hb He. pose proof (rep_nonneg _ _ _ Ha) as Hn. destruct Ha as [<- Hv], Hb as [<- Hw].
    eapply rep_ext; [by apply rep_tensor|done|]. intros i Hi. cbn. f_equal; [by apply Hv|]. apply Hw.
    rewrite inside_dget in *. intros k Hk. specialize (Hi k Hk). specialize (He k Hk).
    assert (Em : dget (dmod i (tdims b)) k = (dget i k mod dget (tdims b) k)%Z) by (destruct i; axes; done).
    cbn in *. rewrite Em. apply Z.mod_pos_bound. lia.
  - intros a E. cbn in *. rewrite E. cbn. repeat case_match; lia.
  - intros a d v [<- Hv]. cbn. rewrite existsb_exists. setoid_rewrite <- list_elem_of_In. setoid_rewrite elem_of_indices. split.
    + intros (i & Hi & Hx). exists i. split; [done|]. rewrite <- Hv by done. unfold obs, tensor_observed.
      apply negb_true_iff, bool_decide_eq_false in Hx. done.
    + intros (i & Hi & Hx). exists i. split; [done|]. rewrite <- Hv in Hx by done. by apply negb_true_iff, bool_decide_eq_false.
  - intros a b n m k w f t Hm0 Ha Hb Hf. pose proof (rep_nonneg _ _ _ Ha) as Hn. pose proof (rep_nonneg _ _ _ Hb) as Hm.
    destruct Ha as [Ea Hv], Hb as [Eb Hw]. cbn in *. rewrite Eb. cbn.
    eapply rep_ext; [apply rep_tensor; unfold dall in *; cbn in *; lia|done|]. intros i (? & ? & ? & ?). cbn in *.
    apply Rsum_ext. intros r Hr%elem_of_zrange.
    assert (E : obs a (D4 r 0 0 0) = IZR (f r)) by (by apply Hv).
    unfold obs, tensor_observed in E. rewrite E, Int_part_IZR. case_match; [|done]. by apply Hw.
Qed.
