(* ===== verification/TensorSpecs.v ===== *)
(** Specifications of functions on tensors: what a function of the library
    computes, its derivative along directions, and when it is defined.  A
    specification is correct when the function builds the variable it says with a
    gradient function that is the adjoint of the derivative. *)
From S2P Require Import Prelude Autograd AutogradProofs AutogradFunctions AutogradReal RealSum AutogradPrograms TensorFunctions TensorSpace.
From Stdlib Require Import Reals Lra.

#[local] Open Scope R_scope.

Section Specs.
Context {A : Type} `{RT : RealTensors A}.
Abbreviation heap := (Autograd.heap (A := A)).
Abbreviation dirs := (dim4 -> R).
Abbreviation GradFunc := (Autograd.GradFunc (A := A)).

Record opspec := OpSpec {
  sp_run : list var -> heap -> result (var * heap);
  sp_fwd : list A -> A;
  sp_jvp : list A -> list dirs -> dirs;
  sp_dom : list A -> Prop;
  sp_frozen : nat -> Prop
}.

#[export] Instance spec_ops : Ops opspec A dirs := {
  run := sp_run; fwd := sp_fwd; jvp := sp_jvp; dom := sp_dom; frozen := sp_frozen
}.

Record correct (s : opspec) : Prop := { correct_run : runs_well s; correct_deriv : differentiates s }.

(** * Adjoints *)

(** [G] is the image of the gradient [g] under the adjoint of [J], for an operand of the
    shape of [x]. *)
Definition adjoint (x : A) (J : dirs -> dirs) (g G : A) : Prop := like G x /\ forall T, ip G T = ip g (J T).

Definition vnull (v : dirs) : Prop := forall i, v i = 0.

Lemma ip_null g v : vnull v -> ip (g : A) v = 0.
Proof. intros Hv. cbn. apply Rsum_all_zero. intros i _. rewrite Hv. ring. Qed.

Lemma ip_plus (g : A) v w : ip g (fun i => v i + w i) = ip g v + ip g w.
Proof. cbn. rewrite <- Rsum_plus. apply Rsum_ext. intros. ring. Qed.

Lemma ip_ext (g : A) v w : (forall i, inside (t_dims g) i -> v i = w i) -> ip g v = ip g w.
Proof. intros E. cbn. apply Rsum_ext. intros i Hi%elem_of_indices. by rewrite E. Qed.

Lemma ip_Rsum {B} (g : A) (l : list B) (v : B -> dirs) : ip g (fun i => Rsum l (fun b => v b i)) = Rsum l (fun b => ip g (v b)).
Proof.
  induction l as [|b l IH]; [by apply (ip_null g)|]. rewrite Rsum_cons, <- IH, <- ip_plus. done.
Qed.

(** The calls [l] answer the parts of the derivative: operand [k] with derivative [J]
    gets the image of [g], or nothing when it does not want it. *)
Inductive answers (cs : list bool) (xs : list A) (g : A) : list (nat * (dirs -> dirs)) -> list (nat * A) -> Prop :=
| ans_nil : answers cs xs g [] []
| ans_give k x J G ps l : xs !! k = Some x -> adjoint x J g G -> answers cs xs g ps l ->
    answers cs xs g ((k, J) :: ps) ((k, G) :: l)
| ans_skip k J ps l : cs !! k = Some false -> vnull (J vzero) -> answers cs xs g ps l -> answers cs xs g ((k, J) :: ps) l.

Lemma answers_sum cs xs g ps l T :
  answers cs xs g ps l -> length T = length xs -> (forall k, cs !! k = Some false -> T !! k = Some vzero) ->
  Rsum l (fun c => ip c.2 (dir T c.1)) = Rsum ps (fun q => ip g (q.2 (dir T q.1))).
Proof.
  intros Ha HT Hz. induction Ha as [|k x J G ps l Hx [_ HJ] _ IH|k J ps l Hk Hn _ IH]; [done|..];
    rewrite !Rsum_cons, ?IH; cbn [fst snd].
  - by rewrite HJ.
  - assert (Ed : dir T k = vzero) by (unfold dir; by rewrite (Hz k Hk)).
    rewrite Ed, (ip_null g (J vzero)) by done. ring.
Qed.

Lemma shares_parts (s : opspec) cs xs g ps l :
  answers cs xs g ps l ->
  (forall k, cs !! k = Some true -> exists J, (k, J) ∈ ps) ->
  (forall T, length T = length xs -> ip g (sp_jvp s xs T) = Rsum ps (fun q => ip g (q.2 (dir T q.1)))) ->
  shares s cs xs g l.
Proof.
  intros Ha Hk HJ. split_and!.
  - clear Hk HJ. induction Ha as [|k x J G ps l Hx [Hl _] _ IH|k J ps l _ _ _ IH]; [constructor|constructor; [by exists x|done]|done].
  - intros k Hc. destruct (Hk k Hc) as [J Hin]. clear Hk HJ.
    induction Ha as [|k' x J' G ps l Hx _ _ IH|k' J' ps l Hf _ _ IH]; [by apply elem_of_nil in Hin|..];
      apply elem_of_cons in Hin as [E|Hin].
    + injection E as -> ->. exists G. by left.
    + destruct (IH Hin) as [a Ha']. exists a. by right.
    + injection E as -> ->. congruence.
    + auto.
  - intros T HT Hz. cbn [jvp spec_ops]. rewrite HJ by done. by apply (answers_sum cs xs g ps l T).
Qed.

(** The calls to two operands that want their gradients. *)
Definition both (c0 c1 : bool) (x y : A) : list (nat * A) := (if c0 then [(0%nat, x)] else []) ++ (if c1 then [(1%nat, y)] else []).

Lemma answers_both c0 c1 x y g J0 J1 G0 G1 :
  adjoint x J0 g G0 -> adjoint y J1 g G1 -> (c0 = false -> vnull (J0 vzero)) -> (c1 = false -> vnull (J1 vzero)) ->
  answers [c0; c1] [x; y] g [(0%nat, J0); (1%nat, J1)] (both c0 c1 G0 G1).
Proof.
  intros A0 A1 N0 N1. unfold both.
  assert (E1 : answers [c0; c1] [x; y] g [(1%nat, J1)] (if c1 then [(1%nat, G1)] else [])).
  { destruct c1; [by apply (ans_give _ _ _ 1 y); [..|constructor]|by apply ans_skip; [|auto|constructor]]. }
  destruct c0; [by apply (ans_give _ _ _ 0 x)|by apply ans_skip; [|auto|]].
Qed.

(** The calls to three operands, the last first. *)
Lemma answers_three c0 c1 c2 x y z g J0 J1 J2 G0 G1 G2 :
  adjoint x J0 g G0 -> adjoint y J1 g G1 -> adjoint z J2 g G2 ->
  vnull (J2 vzero) -> vnull (J0 vzero) -> vnull (J1 vzero) ->
  answers [c0; c1; c2] [x; y; z] g [(2%nat, J2); (0%nat, J0); (1%nat, J1)]
    ((if c2 then [(2%nat, G2)] else []) ++ (if c0 then [(0%nat, G0)] else []) ++ (if c1 then [(1%nat, G1)] else [])).
Proof.
  intros A0 A1 A2 N2 N0 N1.
  assert (E1 : answers [c0; c1; c2] [x; y; z] g [(1%nat, J1)] (if c1 then [(1%nat, G1)] else [])).
  { destruct c1; [by apply (ans_give _ _ _ 1 y); [..|constructor]|by apply ans_skip; [| |constructor]]. }
  assert (E0 : answers [c0; c1; c2] [x; y; z] g [(0%nat, J0); (1%nat, J1)]
                 ((if c0 then [(0%nat, G0)] else []) ++ (if c1 then [(1%nat, G1)] else []))).
  { destruct c0; [by apply (ans_give _ _ _ 0 x)|by apply ans_skip]. }
  destruct c2; [by apply (ans_give _ _ _ 2 z)|by apply ans_skip].
Qed.

(** * Functions of one and of several operands *)

(** No operand is frozen. *)
Definition free : nat -> Prop := fun _ => False.

Definition unary_spec (r : var -> heap -> result (var * heap)) (F : A -> A) (J : A -> dirs -> dirs) (P : A -> Prop) : opspec :=
  OpSpec (fun vs h => match vs with [v] => r v h | _ => Throw Undefined end)
    (fun xs => match xs with [x] => F x | _ => a_empty end)
    (fun xs ds => match xs, ds with [x], [d] => J x d | _, _ => vzero end)
    (fun xs => match xs with [x] => P x | _ => False end)
    (fun _ => False).

(** The gradient function [f] of a function of one operand [x]. *)
Definition gives_adjoint (x y : A) (keep : bool) (f : GradFunc) (J : dirs -> dirs) : Prop :=
  forall a c g, (keep = true -> a = x) -> like g y -> exists G, f [(a, c)] g = Ok [(0%nat, G)] /\ adjoint x J g G.

Lemma unary_correct r F J P :
  (forall v h, P (array v h) -> exists keep f,
     r v h = Ok (makeOp (F (array v h)) [(v, keep)] f h)
     /\ gives_adjoint (array v h) (F (array v h)) keep f (J (array v h))) ->
  (forall c t d, P (c t) -> tderiv c t d -> tderiv (fun u => F (c u)) t (J (c t) d)) ->
  correct (unary_spec r F J P).
Proof.
  intros Hr HD. split.
  - intros vs h Hd _. destruct vs as [|v [|]]; try done. cbn in Hd. destruct (Hr v h Hd) as (keep & f & E & Hf).
    exists [keep], f. split; [done|]. split; [exact E|]. intros vws g Hg Hvw.
    apply Forall2_cons_inv_l in Hvw as ([a b] & t & [Hb Ha] & Hvw & ->). apply Forall2_nil_inv_l in Hvw as ->.
    cbn [fst snd] in *. destruct (Hf a b g Ha Hg) as (G & EG & HG). eexists. split; [done|].
    apply (shares_parts _ _ _ _ [(0%nat, J (array v h))]).
    + by apply (ans_give _ _ _ 0 (array v h)); [|done|constructor].
    + intros [|k]; [|done]. eexists. by left.
    + intros [|T [|]]; try done. intros _. cbn [Rsum foldr]. rewrite Rplus_0_r. done.
  - intros cs ds t Hd Hds _. destruct cs as [|c [|]]; try done.
    apply Forall2_cons_inv_l in Hds as (d & ? & Hc & Hds & ->). apply Forall2_nil_inv_l in Hds as ->. by apply HD.
Qed.

Definition binary_spec (r : var -> var -> heap -> result (var * heap)) (F : A -> A -> A)
    (J : A -> A -> dirs -> dirs -> dirs) (P : A -> A -> Prop) (fz : nat -> Prop) : opspec :=
  OpSpec (fun vs h => match vs with [v; w] => r v w h | _ => Throw Undefined end)
    (fun xs => match xs with [x; y] => F x y | _ => a_empty end)
    (fun xs ds => match xs, ds with [x; y], [d; e] => J x y d e | _, _ => vzero end)
    (fun xs => match xs with [x; y] => P x y | _ => False end)
    fz.

Lemma binary_correct r F J J0 J1 P fz :
  (forall v w h, P (array v h) (array w h) -> (fz 0%nat -> isCalcGrad v h = false) -> (fz 1%nat -> isCalcGrad w h = false) -> exists k0 k1 f,
     r v w h = Ok (makeOp (F (array v h) (array w h)) [(v, k0); (w, k1)] f h)
     /\ forall a b g, (k0 = true -> a = array v h) -> (k1 = true -> b = array w h) -> like g (F (array v h) (array w h)) ->
        exists l, f [(a, isCalcGrad v h); (b, isCalcGrad w h)] g = Ok l
          /\ answers [isCalcGrad v h; isCalcGrad w h] [array v h; array w h] g
               [(0%nat, J0 (array v h) (array w h)); (1%nat, J1 (array v h) (array w h))] l) ->
  (forall x y d e i, P x y -> inside (t_dims (F x y)) i -> J x y d e i = J0 x y d i + J1 x y e i) ->
  (forall c c' t d e, P (c t) (c' t) -> tderiv c t d -> tderiv c' t e ->
     (fz 0%nat -> forall u, c u = c t) -> (fz 1%nat -> forall u, c' u = c' t) ->
     tderiv (fun u => F (c u) (c' u)) t (J (c t) (c' t) d e)) ->
  correct (binary_spec r F J P fz).
Proof.
  intros Hr HJ HD. split.
  - intros vs h Hd Hz. destruct vs as [|v [|w [|]]]; try done. cbn in Hd.
    destruct (Hr v w h Hd (Hz 0%nat v eq_refl) (Hz 1%nat w eq_refl)) as (k0 & k1 & f & E & Hf).
    exists [k0; k1], f. split; [done|]. split; [exact E|]. intros vws g Hg Hvw.
    apply Forall2_cons_inv_l in Hvw as ([a b] & t & [Hb Ha] & Hvw & ->).
    apply Forall2_cons_inv_l in Hvw as ([a' b'] & t' & [Hb' Ha'] & Hvw & ->). apply Forall2_nil_inv_l in Hvw as ->.
    cbn [fst snd] in *. subst b b'. destruct (Hf a a' g Ha Ha' Hg) as (l & El & Hl). exists l. split; [done|].
    eapply shares_parts; [exact Hl|..].
    + intros [|[|k]]; [| |done]; intros _; eexists; [by left|]. right. by left.
    + intros [|T [|T' [|]]]; try done. intros _. cbn [Rsum foldr]. rewrite Rplus_0_r, <- ip_plus.
      apply ip_ext. intros i Hi. apply HJ; [done|]. change (t_dims g = t_dims (F (array v h) (array w h))) in Hg.
      by rewrite <- Hg.
  - intros cs ds t Hd Hds Hz. destruct cs as [|c [|c' [|]]]; try done.
    apply Forall2_cons_inv_l in Hds as (d & ? & Hc & Hds & ->). apply Forall2_cons_inv_l in Hds as (d' & ? & Hc' & Hds & ->).
    apply Forall2_nil_inv_l in Hds as ->. apply HD; try done; [apply (Hz 0%nat c eq_refl)|apply (Hz 1%nat c' eq_refl)].
Qed.

Definition ternary_spec (r : var -> var -> var -> heap -> result (var * heap)) (F : A -> A -> A -> A)
    (J : A -> A -> A -> dirs -> dirs -> dirs -> dirs) (P : A -> A -> A -> Prop) (fz : nat -> Prop) : opspec :=
  OpSpec (fun vs h => match vs with [u; v; w] => r u v w h | _ => Throw Undefined end)
    (fun xs => match xs with [x; y; z] => F x y z | _ => a_empty end)
    (fun xs ds => match xs, ds with [x; y; z], [d; e; f] => J x y z d e f | _, _ => vzero end)
    (fun xs => match xs with [x; y; z] => P x y z | _ => False end)
    fz.

(** The derivative is the sum of [parts], one per operand in any order. *)
Lemma ternary_correct r F J P fz (parts : A -> A -> A -> list (nat * (dirs -> dirs))) :
  (forall u v w h (x := array u h) (y := array v h) (z := array w h), P x y z ->
     (fz 0%nat -> isCalcGrad u h = false) -> (fz 1%nat -> isCalcGrad v h = false) -> (fz 2%nat -> isCalcGrad w h = false) ->
     exists k0 k1 k2 f,
     r u v w h = Ok (makeOp (F x y z) [(u, k0); (v, k1); (w, k2)] f h)
     /\ forall a b c g, (k0 = true -> a = x) -> (k1 = true -> b = y) -> (k2 = true -> c = z) -> like g (F x y z) ->
        exists l, f [(a, isCalcGrad u h); (b, isCalcGrad v h); (c, isCalcGrad w h)] g = Ok l
          /\ answers [isCalcGrad u h; isCalcGrad v h; isCalcGrad w h] [x; y; z] g (parts x y z) l) ->
  (forall x y z k, (k < 3)%nat -> exists J, (k, J) ∈ parts x y z) ->
  (forall x y z d e f i, P x y z -> inside (t_dims (F x y z)) i ->
     J x y z d e f i = Rsum (parts x y z) (fun q => q.2 (dir [d; e; f] q.1) i)) ->
  (forall c c' c'' t d e f, P (c t) (c' t) (c'' t) -> tderiv c t d -> tderiv c' t e -> tderiv c'' t f ->
     (fz 0%nat -> forall u, c u = c t) -> (fz 1%nat -> forall u, c' u = c' t) -> (fz 2%nat -> forall u, c'' u = c'' t) ->
     tderiv (fun u => F (c u) (c' u) (c'' u)) t (J (c t) (c' t) (c'' t) d e f)) ->
  correct (ternary_spec r F J P fz).
Proof.
  intros Hr Hk HJ HD. split.
  - intros vs h Hd Hz. destruct vs as [|u [|v [|w [|]]]]; try done. cbn in Hd.
    destruct (Hr u v w h Hd (Hz 0%nat u eq_refl) (Hz 1%nat v eq_refl) (Hz 2%nat w eq_refl)) as (k0 & k1 & k2 & f & E & Hf).
    exists [k0; k1; k2], f. split; [done|]. split; [exact E|]. intros vws g Hg Hvw.
    apply Forall2_cons_inv_l in Hvw as ([a b] & t & [Hb Ha] & Hvw & ->).
    apply Forall2_cons_inv_l in Hvw as ([a' b'] & t' & [Hb' Ha'] & Hvw & ->).
    apply Forall2_cons_inv_l in Hvw as ([a'' b''] & t'' & [Hb'' Ha''] & Hvw & ->). apply Forall2_nil_inv_l in Hvw as ->.
    cbn [fst snd] in *. subst b b' b''. destruct (Hf a a' a'' g Ha Ha' Ha'' Hg) as (l & El & Hl). exists l. split; [done|].
    eapply shares_parts; [exact Hl|..].
    + intros k Hc. apply Hk. by apply lookup_lt_Some in Hc.
    + intros [|T [|T' [|T'' [|]]]]; try done. intros _. cbn [sp_jvp ternary_spec].
      rewrite (ip_ext g _ (fun i => Rsum (parts (array u h) (array v h) (array w h)) (fun q => q.2 (dir [T; T'; T''] q.1) i))).
      * rewrite ip_Rsum. done.
      * intros i Hi. apply HJ; [done|]. change (t_dims g = t_dims (F (array u h) (array v h) (array w h))) in Hg. by rewrite <- Hg.
  - intros cs ds t Hd Hds Hz. destruct cs as [|c [|c' [|c'' [|]]]]; try done.
    apply Forall2_cons_inv_l in Hds as (d & ? & Hc & Hds & ->). apply Forall2_cons_inv_l in Hds as (d' & ? & Hc' & Hds & ->).
    apply Forall2_cons_inv_l in Hds as (d'' & ? & Hc'' & Hds & ->).
    apply Forall2_nil_inv_l in Hds as ->. apply HD; try done; [apply (Hz 0%nat c eq_refl)|apply (Hz 1%nat c' eq_refl)|apply (Hz 2%nat c'' eq_refl)].
Qed.

(** * Facts the specifications use *)

Lemma checked_rt f (a b : A) : checked f a b = Ok (f a b).
Proof. unfold checked. by rewrite bool_decide_eq_true_2 by apply rt_type. Qed.

(** An adjoint from representations: the pairing is over the grids. *)
Lemma adjoint_rep x J g G d dy v w :
  t_dims x = d -> rep G d v -> rep g dy w ->
  (forall T, Rsum (grid d) (fun i => v i * T i) = Rsum (grid dy) (fun j => w j * J T j)) -> adjoint x J g G.
Proof.
  intros Hx HG Hg E. split; [cbn; by rewrite (rep_dims _ _ _ HG)|].
  intros T. by rewrite (ip_rep _ _ _ _ HG), (ip_rep _ _ _ _ Hg).
Qed.

(** The derivative of a curve of arrays, from its elements. *)
Lemma tderiv_of (F : R -> A) (t : R) (e : dim4) (Phi : R -> dirs) (v : dirs) :
  (forall u, rep (F u) e (Phi u)) -> (forall i, inside e i -> derivable_pt_lim (fun u => Phi u i) t (v i)) -> tderiv F t v.
Proof.
  intros HF HD. split; [intros u; by rewrite !(rep_dims _ _ _ (HF _))|].
  rewrite (rep_dims _ _ _ (HF t)). intros i Hi.
  apply (derivable_pt_lim_ext (fun u => Phi u i)); [|by apply HD].
  intros u. symmetry. by apply (rep_at _ e).
Qed.

Lemma tderiv_rep (c : R -> A) (F : A -> A) (t : R) d (e : dim4) (Phi : dirs -> dirs) (v : dirs) :
  tderiv c t d -> (forall u, rep (F (c u)) e (Phi (obs (c u)))) ->
  (forall i, inside e i -> derivable_pt_lim (fun u => Phi (obs (c u)) i) t (v i)) ->
  tderiv (fun u => F (c u)) t v.
Proof. intros _. apply tderiv_of. Qed.

(** The array of a call that does not throw. *)
Definition val (r : result A) : A := match r with Ok a => a | Throw _ => a_empty end.

Lemma like_rep (x y : A) d v : rep y d v -> like x y -> rep x d (obs x).
Proof. intros [<- _] Hl. cbn in Hl. rewrite <- Hl. apply rep_obs. Qed.

(** A function that throws when the gradient does not fit. *)
Lemma shaped_run r v keep g (h : Autograd.heap (A := A)) y :
  r = Ok y -> shaped r v keep g h = Ok (makeOp (val r) [(v, keep)] g h).
Proof. by intros ->. Qed.

(** A curve of arrays seen as elements. *)
Lemma tderiv_curve (c : R -> A) t d : tderiv c t d -> forall u, rep (c u) (t_dims (c t)) (obs (c u)).
Proof. intros [E _] u. rewrite <- (E u). apply rep_obs. Qed.

(** * Functions that are linear in the elements, up to constants *)

(** The elements of the result are [Phi d v] for operands of dimensions [d] with elements [v];
    the derivative is [J d], and [K d] is its adjoint. *)
Lemma elements_correct (r : var -> heap -> result (var * heap)) (F : A -> A) (e : dim4 -> dim4)
    (Phi J K : dim4 -> dirs -> dirs) (P : dim4 -> Prop) :
  (forall x d v, P d -> rep x d v -> rep (F x) (e d) (Phi d v)) ->
  (forall v h, P (dims v h) -> exists keep f,
     r v h = Ok (makeOp (F (array v h)) [(v, keep)] f h)
     /\ forall a c g w, rep g (e (dims v h)) w ->
        exists G, f [(a, c)] g = Ok [(0%nat, G)] /\ rep G (dims v h) (K (dims v h) w)) ->
  (forall d w T, P d -> Rsum (grid d) (fun i => K d w i * T i) = Rsum (grid (e d)) (fun j => w j * J d T j)) ->
  (forall d (c : R -> dirs) v t, P d -> (forall i, inside d i -> derivable_pt_lim (fun u => c u i) t (v i)) ->
     forall i, inside (e d) i -> derivable_pt_lim (fun u => Phi d (c u) i) t (J d v i)) ->
  correct (unary_spec r F (fun x => J (t_dims x)) (fun x => P (t_dims x))).
Proof.
  intros HF Hr HK HD. apply unary_correct.
  - intros v h Hp. destruct (Hr v h Hp) as (keep & f & E & Hf). exists keep, f. split; [done|].
    intros a c g _ Hg. change (t_dims g = t_dims (F (array v h))) in Hg.
    pose proof (HF _ _ _ Hp (rep_obs (array v h))) as Hy. rewrite (rep_dims _ _ _ Hy) in Hg.
    assert (Hg' : rep g (e (dims v h)) (obs g)) by (unfold dims; rewrite <- Hg; apply rep_obs).
    destruct (Hf a c g _ Hg') as (G & EG & HG). exists G. split; [done|].
    eapply adjoint_rep; [reflexivity|exact HG|exact Hg'|]. intros T. by apply HK.
  - intros c t d Hp Hc. eapply (tderiv_rep c F t d (e (t_dims (c t))) (Phi (t_dims (c t)))); [done|..].
    + intros u. apply HF; [done|]. by apply (tderiv_curve c t d).
    + apply (HD _ (fun u => obs (c u))); [done|apply Hc].
Qed.
End Specs.

(** ** The element-wise functions on tensors: element by element they are the
    functions of [AutogradReal], and their gradient functions multiply element by
    element by the derivative. *)

#[local] Open Scope R_scope.

(** [rep] finds the elements of an array made with element-wise functions. *)
Ltac rep_step :=
  first [ eassumption
        | eapply rt_as | eapply rt_const_like | eapply rt_add | eapply rt_sub | eapply rt_mul | eapply rt_div
        | eapply rt_max | eapply rt_min | eapply rt_gt | eapply rt_lt | eapply rt_ge | eapply rt_le | eapply rt_and
        | eapply rt_not | eapply rt_exp | eapply rt_log | eapply rt_log1p | eapply rt_sin | eapply rt_cos | eapply rt_tanh
        | eapply rt_sqrt | eapply rt_sigmoid | eapply rt_abs | eapply rt_sign | eapply rt_pow | eapply rt_clamp
        | eapply rt_replace | eapply rt_eq | eapply rt_neq | eapply rt_or | eapply rt_neg | eapply rt_mask ].
Ltac rep := repeat rep_step.

(** [answer] evaluates a gradient function: its type checks pass. *)
Ltac head_of t := lazymatch t with ?f _ => head_of f | _ => t end.
Ltac answer :=
  lazymatch goal with |- ?lhs = _ => let f := head_of lhs in unfold f end;
  unfold giveIf, give, arr, calc; cbn;
  repeat (rewrite checked_rt; cbn); reflexivity.

(** Scalars of the array interface are reals. *)
Ltac scalars := rewrite ?rt_k_of, ?rt_k_opp, ?rt_k_sub, ?rt_k_mul, ?rt_k_div.

Section Elementwise.
Context {A : Type} `{RT : RealTensors A}.
Abbreviation dirs := (dim4 -> R).
Abbreviation GradFunc := (Autograd.GradFunc (A := A)).

Definition arrU (o : unop) (x : A) : A :=
  match o with
  | UAddK k => scalarR a_add x k | USubK k => scalarR e_sub x k | UKSub k => scalarL e_sub k x
  | UMulK k => scalarR e_mul x k | UDivK k => scalarR e_div x k | UKDiv k => scalarL e_div k x
  | UMaxK k => scalarR e_max x k | UMinK k => scalarR e_min x k | UNegate => vnegate (K := R) x
  | UReciprocal => vreciprocal (K := R) DEFAULT x | UExp => e_exp x | ULog => e_log x | ULog1p => e_log1p x
  | UPow p => e_pow x p | USin => e_sin x | UCos => e_cos x | UTanh => e_tanh x | UClamp lo hi => e_clamp x lo hi
  | USqrt => e_sqrt x | USigmoid => e_sigmoid x | UAbs => e_abs x
  end.

Definition arrB (o : binop) (x y : A) : A :=
  match o with
  | BAdd => a_add x y | BSub => e_sub x y | BMul => e_mul x y | BDiv => e_div x y | BMax => e_max x y | BMin => e_min x y
  end.

Lemma arrU_rep o x d v : rep x d v -> rep (arrU o x) d (fun i => fwdU o (v i)).
Proof.
  intros Hx. destruct o; cbn [arrU]; unfold scalarR, scalarL, vnegate, vreciprocal, adjustInputType;
    (eapply rep_ext; [rep|done|]; intros i _; cbn; scalars; cbn; try done; unfold Rdiv; try ring).
Qed.

Lemma arrB_rep o x y d v w : rep x d v -> rep y d w -> rep (arrB o x y) d (fun i => fwdB o (v i) (w i)).
Proof. intros Hx Hy. destruct o; cbn [arrB]; (eapply rep_ext; [rep|done|]); done. Qed.

Definition domAll (P : R -> Prop) (x : A) : Prop := forall i, inside (t_dims x) i -> P (obs x i).

(** The gradient of an element-wise function, from its elements. *)
Lemma adjoint_pointwise x g G d v w :
  t_dims x = d -> rep g d w -> rep G d (fun i => w i * v i) -> adjoint x (fun T i => v i * T i) g G.
Proof.
  intros Hx Hg HG. eapply adjoint_rep; [exact Hx|exact HG|exact Hg|]. intros T. apply Rsum_ext. intros. ring.
Qed.

Lemma run_unop o v (h : Autograd.heap (A := A)) :
  domAll (domU o) (array v h) -> exists keep f,
    runUn o v h = Ok (makeOp (arrU o (array v h)) [(v, keep)] f h)
    /\ gives_adjoint (array v h) (arrU o (array v h)) keep f (fun T i => pdU o (obs (array v h) i) * T i).
Proof.
  set (x := array v h). intros Hd. pose proof (rep_obs x) as Hx.
  assert (Hlike : forall g, like g (arrU o x) -> rep g (t_dims x) (obs g)).
  { intros g Hg. cbn in Hg. rewrite (rep_dims _ _ _ (arrU_rep o x _ _ Hx)) in Hg. rewrite <- Hg. apply rep_obs. }
  destruct o; eexists _, _; (split; [reflexivity|]); fold x;
    (intros a c g Ha Hg%Hlike; first [specialize (Ha eq_refl); subst a|clear Ha]; eexists;
     (split; [answer|]);
     apply (adjoint_pointwise x g _ (t_dims x) (fun i => pdU _ (obs x i)) (obs g)); [done|done|];
     unfold vreciprocal, vnegate, scalarR, scalarL, adjustInputType; (eapply rep_ext; [rep|done|]);
     intros i Hi; specialize (Hd i Hi); cbn in Hd; cbn [pdU]; scalars; cbn; try done; unfold Rdiv; try ring).
  - by rewrite Rplus_comm.
  - destruct Hd as [Hlh _]. rewrite clamp_mask by done. destruct (Rltb lo (obs x i) && Rltb (obs x i) hi); cbn.
    + rewrite bool_decide_false by lra. ring.
    + rewrite bool_decide_true by done. ring.
  - by rewrite (Rmult_comm (sqrt (obs x i))).
  - destruct (Rltb (obs x i) 0); cbn; ring.
Qed.

Lemma deriv_unop o c t d :
  domAll (domU o) (c t) -> tderiv c t d ->
  tderiv (fun u => arrU o (c u)) t (fun i => pdU o (obs (c t) i) * d i).
Proof.
  intros Hd Hc. eapply (tderiv_rep c _ t d (t_dims (c t)) (fun v i => fwdU o (v i))); [done|..].
  - intros u. by apply arrU_rep, (tderiv_curve c t d).
  - intros i Hi. apply (deriv_comp (fwdU o) (fun u => obs (c u) i)); [by apply Hc|]. by apply deriv_un, Hd.
Qed.

Definition unop_spec (o : unop) : opspec :=
  unary_spec (runUn o) (arrU o) (fun x T i => pdU o (obs x i) * T i) (domAll (domU o)).

Lemma unop_correct o : correct (unop_spec o).
Proof.
  apply unary_correct; [intros v h; apply run_unop|intros c t d; apply deriv_unop].
Qed.

(** * Two operands *)

Definition domBoth (o : binop) (x y : A) : Prop :=
  t_dims x = t_dims y /\ forall i, inside (t_dims x) i -> domB o (obs x i) (obs y i).

Lemma vnull_scaled (v : dirs) : vnull (fun i => v i * vzero i).
Proof. intros i. cbn. ring. Qed.

Lemma bool_R_not b : bool_R (bool_decide (bool_R b = 0)) = bool_R (negb b).
Proof. destruct b; cbn; [by rewrite bool_decide_false by lra|by rewrite bool_decide_true]. Qed.

(** One call of a binary element-wise function. *)
Ltac give_pointwise x y d :=
  first [ apply ans_nil
        | eapply (ans_give _ _ _ 0 x); [done|eapply (adjoint_pointwise x _ _ d); [done|eassumption|eapply rep_ext; [rep|done|]]|]
        | eapply (ans_give _ _ _ 1 y); [done|eapply (adjoint_pointwise y _ _ d); [done|eassumption|eapply rep_ext; [rep|done|]]|]
        | apply ans_skip; [done|apply vnull_scaled|] ].

Lemma run_binop o v w (h : Autograd.heap (A := A)) :
  domBoth o (array v h) (array w h) -> exists k0 k1 f,
    runBin o v w h = Ok (makeOp (arrB o (array v h) (array w h)) [(v, k0); (w, k1)] f h)
    /\ forall a b g, (k0 = true -> a = array v h) -> (k1 = true -> b = array w h) -> like g (arrB o (array v h) (array w h)) ->
       exists l, f [(a, isCalcGrad v h); (b, isCalcGrad w h)] g = Ok l
         /\ answers [isCalcGrad v h; isCalcGrad w h] [array v h; array w h] g
              [(0%nat, fun T i => pdB0 o (obs (array v h) i) (obs (array w h) i) * T i);
               (1%nat, fun T i => pdB1 o (obs (array v h) i) (obs (array w h) i) * T i)] l.
Proof.
  set (x := array v h). set (y := array w h). intros [Exy Hd]. pose proof (rep_obs x) as Hx.
  assert (Hy : rep y (t_dims x) (obs y)) by (rewrite Exy; apply rep_obs).
  assert (Hlike : forall g, like g (arrB o x y) -> rep g (t_dims x) (obs g)).
  { intros g Hg. cbn in Hg. rewrite (rep_dims _ _ _ (arrB_rep o x y _ _ _ Hx Hy)) in Hg. rewrite <- Hg. apply rep_obs. }
  assert (Ey : t_dims y = t_dims x) by done. clear Exy.
  destruct o; unfold runBin, add, sub, mul, div, AutogradFunctions.max, AutogradFunctions.min, binary;
    rewrite checked_rt; fold x y; eexists _, _, _; (split; [reflexivity|]);
    intros a b g H3 H4 Hg%Hlike;
    destruct (isCalcGrad v h), (isCalcGrad w h);
    try (specialize (H3 eq_refl); subst a); try (specialize (H4 eq_refl); subst b); eexists; (split; [answer|]);
    unfold vreciprocal, vnegate, vnot, scalarR, scalarL, adjustInputType;
    repeat give_pointwise x y (t_dims x); intros i Hi; specialize (Hd i Hi); cbn [domB] in Hd; cbn [pdB0 pdB1]; scalars; cbn;
    try done; try ring.
  all: try (field; done).
  all: rewrite bool_R_not; ring.
Qed.

Lemma deriv_binop o c c' t d e :
  domBoth o (c t) (c' t) -> tderiv c t d -> tderiv c' t e ->
  tderiv (fun u => arrB o (c u) (c' u)) t
    (fun i => pdB0 o (obs (c t) i) (obs (c' t) i) * d i + pdB1 o (obs (c t) i) (obs (c' t) i) * e i).
Proof.
  intros [Ed Hd] Hc Hc'. assert (HF : forall u, rep (arrB o (c u) (c' u)) (t_dims (c t)) (fun i => fwdB o (obs (c u) i) (obs (c' u) i))).
  { intros u. apply arrB_rep; [by apply (tderiv_curve c t d)|]. rewrite Ed. by apply (tderiv_curve c' t e). }
  split; [intros u; by rewrite !(rep_dims _ _ _ (HF _))|]. rewrite (rep_dims _ _ _ (HF t)). intros i Hi.
  apply (derivable_pt_lim_ext (fun u => fwdB o (obs (c u) i) (obs (c' u) i))).
  { intros u. symmetry. by apply (rep_at _ _ _ _ (HF u)). }
  apply deriv_bin; [by apply Hc|apply Hc'; by rewrite <- Ed|by apply Hd].
Qed.

Definition binop_spec (o : binop) : opspec :=
  binary_spec (runBin o) (arrB o)
    (fun x y T U i => pdB0 o (obs x i) (obs y i) * T i + pdB1 o (obs x i) (obs y i) * U i) (domBoth o) free.

Lemma binop_correct o : correct (binop_spec o).
Proof.
  apply (binary_correct _ _ _ (fun x y T i => pdB0 o (obs x i) (obs y i) * T i) (fun x y T i => pdB1 o (obs x i) (obs y i) * T i)).
  - intros v w h Hd _ _. by apply run_binop.
  - done.
  - intros c c' t d e Hd Hc Hc' _ _. by apply deriv_binop.
Qed.
End Elementwise.
