(* ===== verification/TensorReductions.v ===== *)
(** Tiling, summing to a shape, sums and means along axes: what they compute, and
    that each gradient function is the adjoint.  Tiling and summing are adjoint to
    each other where every dimension is kept or is 1 on one side. *)
From S2P Require Import Prelude Autograd AutogradProofs AutogradFunctions AutogradReal RealSum AutogradPrograms TensorFunctions TensorSpace TensorSpecs.
From Stdlib Require Import Reals Lra.

#[local] Open Scope R_scope.

(** Every dimension is kept or grows from 1. *)
Definition broadcasts (dx dy : dim4) : Prop :=
  forall k, axis k -> (1 <= dget dx k)%Z /\ (1 <= dget dy k)%Z /\ (dget dy k = dget dx k \/ dget dx k = 1%Z).

Lemma axes_four : Forall axis four.
Proof. unfold four, axis. repeat constructor; tauto. Qed.

Lemma tileAs_dims_ok dx dy :
  broadcasts dx dy -> exists ds, tileAs_dims dx dy = Ok ds /\ dmul dx ds = dy /\ dall (Z.le 1) ds.
Proof.
  intros Hb. unfold broadcasts, axis in Hb.
  pose proof (Hb 0%Z ltac:(tauto)) as H0. pose proof (Hb 1%Z ltac:(tauto)) as H1.
  pose proof (Hb 2%Z ltac:(tauto)) as H2. pose proof (Hb 3%Z ltac:(tauto)) as H3. clear Hb.
  destruct dx as [a b c d], dy as [a' b' c' d']. cbn in H0, H1, H2, H3.
  exists (D4 (a' / a) (b' / b) (c' / c) (d' / d)).
  assert (Hq : forall m n : Z, (1 <= m /\ 1 <= n /\ (n = m \/ m = 1) ->
    (m =? 0) = false /\ negb (Z.rem n m =? 0) = false /\ Z.quot n m = n / m /\ m * (n / m) = n /\ 1 <= n / m)%Z).
  { intros m n (Hm & Hn & Hor). split; [by apply Z.eqb_neq; lia|]. rewrite Z.rem_mod_nonneg, Z.quot_div_nonneg by lia.
    destruct Hor as [->| ->]; [rewrite Z.mod_same, Z.div_same by lia|rewrite Z.mod_1_r, Z.div_1_r]; cbn; lia. }
  destruct (Hq _ _ H0) as (E0 & F0 & G0 & M0 & N0). destruct (Hq _ _ H1) as (E1 & F1 & G1 & M1 & N1).
  destruct (Hq _ _ H2) as (E2 & F2 & G2 & M2 & N2). destruct (Hq _ _ H3) as (E3 & F3 & G3 & M3 & N3).
  unfold tileAs_dims. cbn [four foldM_result dget dim0 dim1 dim2 dim3 Z.eqb Pos.eqb].
  rewrite E0, F0, E1, F1, E2, F2, E3, F3, G0, G1, G2, G3. unfold dmul, dmap2, dall. cbn. rewrite M0, M1, M2, M3. done.
Qed.

Definition sumaxes (dy dx : dim4) : list Z := filter (fun k => dget dy k <> dget dx k) four.

Lemma sumaxes_axes dy dx : Forall axis (sumaxes dy dx).
Proof. apply Forall_forall. intros k [_ Hk]%list_elem_of_filter. by apply (proj1 (Forall_forall _ _) axes_four). Qed.

Lemma elem_of_four k : axis k <-> k ∈ four.
Proof. unfold axis, four. rewrite !elem_of_cons, elem_of_nil. tauto. Qed.

Lemma sumaxes_dims dx dy : broadcasts dx dy -> sumdims dy (sumaxes dy dx) = dx.
Proof.
  intros Hb. apply dim4_ext. intros k Hk. rewrite sumdims_dget by (done || apply sumaxes_axes).
  specialize (Hb k Hk) as (_ & _ & Hor). case_bool_decide as E.
  - apply list_elem_of_filter in E as [E _]. destruct Hor; congruence.
  - destruct (decide (dget dy k = dget dx k)); [done|]. exfalso. apply E. apply list_elem_of_filter. split; [done|].
    by apply elem_of_four.
Qed.

Lemma sums_same d axes v w : (forall j, v j = w j) -> forall i, sums d axes v i = sums d axes w i.
Proof.
  revert d v w. induction axes as [|k r IH]; intros d v w E i; [apply E|]. cbn [sums]. apply IH. intros j.
  apply Rsum_ext. intros m _. apply E.
Qed.

Lemma sums_scale d axes v c i : sums d axes (fun i => v i * c) i = sums d axes v i * c.
Proof.
  revert d v i. induction axes as [|k r IH]; intros d v i; [done|]. cbn [sums]. rewrite <- IH.
  apply sums_same. intros j. apply Rsum_scal.
Qed.

Lemma sums_plus d axes v w i : sums d axes (fun i => v i + w i) i = sums d axes v i + sums d axes w i.
Proof.
  revert d v w i. induction axes as [|k r IH]; intros d v w i; [done|]. cbn [sums]. rewrite <- IH.
  apply sums_same. intros j. apply Rsum_plus.
Qed.

Lemma sums_pos d axes v i :
  Forall axis axes -> dall (Z.le 1) d -> (forall j, 0 < v j) -> 0 < sums d axes v i.
Proof.
  intros Ha. revert d v. induction Ha as [|k r Hk Hr IH]; intros d v Hd Hv; [apply Hv|]. cbn [sums]. apply IH.
  - destruct d. unfold dall in *. axes; cbn in *; lia.
  - intros j. apply Rsum_pos; [|intros m _; apply Hv]. apply zrange_nonempty. destruct d. unfold dall in *. axes; cbn in *; lia.
Qed.

Lemma count_prod d axes :
  Forall axis axes -> dall (Z.le 1) d ->
  fold_left (fun c i => c * Z.quot (dget d i) (dget (sumdims d axes) i))%Z four 1%Z = count d axes.
Proof.
  intros Ha. revert d. induction Ha as [|k r Hk Hr IH]; intros d Hd.
  { destruct d. unfold dall in Hd. cbn in *. rewrite !Z.quot_same by lia. done. }
  cbn [sumdims fold_left count]. fold (sumdims (dset d k 1) r). rewrite <- IH.
  2: { destruct d. unfold dall in *. axes; cbn in *; lia. }
  set (e := sumdims (dset d k 1) r).
  assert (He : dget e k = 1%Z) by (unfold e; rewrite sumdims_dget, dget_dset_eq by done; by case_bool_decide).
  destruct d, e. axes; cbn in *; subst; rewrite ?Z.quot_1_r; ring.
Qed.

Lemma sumdims_pos d axes : Forall axis axes -> dall (Z.le 1) d -> dall (Z.le 1) (sumdims d axes).
Proof.
  intros Ha. revert d. induction Ha as [|k r Hk Hr IH]; intros d Hd; [done|]. cbn. apply IH.
  destruct d. unfold dall in *. axes; cbn in *; lia.
Qed.

Lemma dall_dget P d : dall P d <-> forall k, axis k -> P (dget d k).
Proof.
  split.
  - intros (? & ? & ? & ?) k Hk. destruct d. by axes.
  - intros Hd. unfold axis in Hd. pose proof (Hd 0%Z ltac:(tauto)). pose proof (Hd 1%Z ltac:(tauto)).
    pose proof (Hd 2%Z ltac:(tauto)). pose proof (Hd 3%Z ltac:(tauto)). done.
Qed.

Lemma sumdims_broadcasts d axes : Forall axis axes -> dall (Z.le 1) d -> broadcasts (sumdims d axes) d.
Proof.
  intros Ha Hd k Hk. pose proof (sumdims_pos d axes Ha Hd) as Hs. rewrite dall_dget in Hd, Hs.
  split_and!; [by apply Hs|by apply Hd|]. rewrite sumdims_dget by done. case_bool_decide; auto.
Qed.

Lemma count_pos d axes : Forall axis axes -> dall (Z.le 1) d -> (1 <= count d axes)%Z.
Proof.
  intros Ha. revert d. induction Ha as [|k r Hk Hr IH]; intros d Hd; cbn [count]; [lia|].
  assert (1 <= dget d k)%Z by (rewrite dall_dget in Hd; auto).
  assert (1 <= count (dset d k 1) r)%Z; [|nia]. apply IH. destruct d. unfold dall in *. axes; cbn in *; lia.
Qed.

Lemma inside_dmod d e i : broadcasts d e -> inside e i -> inside d (dmod i d).
Proof.
  intros Hb Hi. rewrite inside_dget in *. intros k Hk. specialize (Hb k Hk).
  assert (Em : dget (dmod i d) k = (dget i k mod dget d k)%Z) by (destruct i; by axes).
  rewrite Em. apply Z.mod_pos_bound. lia.
Qed.

Section Reductions.
Context {A : Type} `{RT : RealTensors A}.
Abbreviation dirs := (dim4 -> R).

Lemma vtileAs_rep (x : A) dx dy v :
  rep x dx v -> broadcasts dx dy -> exists y, vtileAs x dy = Ok y /\ rep y dy (fun i => v (dmod i dx)).
Proof.
  intros Hx Hb. destruct (tileAs_dims_ok dx dy Hb) as (ds & E & Em & Hp). unfold vtileAs.
  rewrite (rep_dims _ _ _ Hx), E. cbn [mbind result_bind]. eexists. split; [done|].
  eapply rep_ext; [by apply rt_tile|done|done].
Qed.

Lemma sums_rep (a : A) d axes v : rep a d v -> Forall axis axes -> rep (fold_left t_sum axes a) (sumdims d axes) (sums d axes v).
Proof.
  intros Ha Hx. revert a d v Ha. induction Hx as [|k r Hk Hr IH]; intros a d v Ha; [done|]. cbn. apply IH. by apply rt_sum.
Qed.

Lemma vsumAs_rep (g : A) dx dy w :
  rep g dy w -> broadcasts dx dy ->
  exists r, vsumAs DEFAULT g dx = Ok r /\ rep r dx (sums dy (sumaxes dy dx) w).
Proof.
  intros Hg Hb. unfold vsumAs, sumAs_array, adjustInputType. rewrite (rep_dims _ _ _ Hg).
  assert (E : forall l a, Forall axis l ->
    foldM_result (fun r i => if (dget dy i =? dget dx i)%Z then Ok r
                             else if negb (dget dx i =? 1)%Z then Throw InvalidArgument else Ok (t_sum r i)) a l
    = Ok (fold_left t_sum (filter (fun k => dget dy k <> dget dx k) l) a)).
  { intros l a Hl. revert a. induction Hl as [|k l Hk Hl IH]; intros a; [done|]. cbn [foldM_result].
    destruct (Hb k Hk) as (_ & _ & Hor). destruct (Z.eqb_spec (dget dy k) (dget dx k)) as [Ek|Ek].
    - rewrite filter_cons_False by tauto. apply IH.
    - rewrite filter_cons_True by done. destruct Hor as [?|E1]; [done|]. rewrite E1. cbn. apply IH. }
  rewrite E by apply axes_four. cbn [mbind result_bind]. eexists. split; [done|]. apply rt_as.
  eapply rep_ext; [by apply sums_rep, sumaxes_axes|by apply sumaxes_dims|done].
Qed.

(** ** Tiling *)

Lemma adjoint_tile (x g : A) dx dy v w :
  rep x dx v -> rep g dy w -> broadcasts dx dy ->
  exists G, vsumAs DEFAULT g dx = Ok G /\ adjoint x (fun T i => T (dmod i dx)) g G.
Proof.
  intros Hx Hg Hb. destruct (vsumAs_rep g dx dy w Hg Hb) as (G & E & HG). exists G. split; [done|].
  eapply adjoint_rep; [by eapply rep_dims|exact HG|exact Hg|]. intros T.
  pose proof (sums_adjoint dy (sumaxes dy dx) T w (sumaxes_axes dy dx)) as Ha. rewrite sumaxes_dims in Ha by done.
  rewrite (Rsum_ext _ _ (fun i => T i * sums dy (sumaxes dy dx) w i)) by (intros; ring).
  rewrite Ha. apply Rsum_ext. intros. ring.
Qed.

Lemma adjoint_as (x g G : A) J t : adjoint x J g G -> adjoint x J g (a_as t G).
Proof.
  intros [Hl HJ]. pose proof (rt_as t G _ _ (rep_obs G)) as HG. split.
  - change (t_dims (a_as t G) = t_dims x). rewrite (rep_dims _ _ _ HG). exact Hl.
  - intros T. rewrite <- HJ, (ip_rep _ _ _ T HG), (ip_rep _ _ _ T (rep_obs G)). done.
Qed.

Definition tileAs_spec (rdims : dim4) : opspec :=
  unary_spec (fun v h => tileAs (K := R) DEFAULT v rdims h) (fun x => val (vtileAs x rdims))
    (fun x T i => T (dmod i (t_dims x))) (fun x => broadcasts (t_dims x) rdims).

Lemma tileAs_correct rdims : correct (tileAs_spec rdims).
Proof.
  apply unary_correct.
  - intros v h Hb. set (x := array v h) in *. destruct (vtileAs_rep x _ _ _ (rep_obs x) Hb) as (y & E & Hy).
    exists false. eexists. unfold tileAs. fold x. split; [by eapply shaped_run|].
    intros a c g _ Hg. rewrite E in Hg. cbn [val] in Hg. pose proof (like_rep _ _ _ _ Hy Hg) as Hg'.
    destruct (adjoint_tile x g _ _ _ _ (rep_obs x) Hg' Hb) as (G & EG & HG). eexists. split.
    + unfold grad_tileAs, dims. fold x. rewrite EG. reflexivity.
    + by apply adjoint_as.
  - intros c t d Hb Hc. eapply (tderiv_rep c (fun x => val (vtileAs x rdims)) t d rdims (fun v i => v (dmod i (t_dims (c t))))); [done|..].
    + intros u. destruct (vtileAs_rep (c u) _ _ _ (tderiv_curve c t d Hc u) Hb) as (y & -> & Hy). done.
    + intros i Hi. apply Hc. by eapply inside_dmod.
Qed.

Definition tile_spec (ds : dim4) : opspec :=
  unary_spec (fun v h => tile (K := R) DEFAULT v ds h) (fun x => t_tile x ds)
    (fun x T i => T (dmod i (t_dims x))) (fun x => dall (Z.le 1) ds /\ broadcasts (t_dims x) (dmul (t_dims x) ds)).

Lemma tile_correct ds : correct (tile_spec ds).
Proof.
  apply unary_correct.
  - intros v h [Hp Hb]. set (x := array v h) in *. pose proof (rt_tile x _ _ ds (rep_obs x) Hp) as Hy.
    exists false. eexists. split; [reflexivity|]. fold x.
    intros a c g _ Hg. pose proof (like_rep _ _ _ _ Hy Hg) as Hg'.
    destruct (adjoint_tile x g _ _ _ _ (rep_obs x) Hg' Hb) as (G & EG & HG). eexists. split.
    + unfold grad_tileAs, dims. fold x. rewrite EG. reflexivity.
    + by apply adjoint_as.
  - intros c t d [Hp Hb] Hc. eapply (tderiv_rep c (fun x => t_tile x ds) t d _ (fun v i => v (dmod i (t_dims (c t))))); [done|..].
    + intros u. apply rt_tile; [by apply (tderiv_curve c t d)|done].
    + intros i Hi. apply Hc. by eapply inside_dmod.
Qed.

(** ** Sums *)

Lemma adjoint_sums (x g : A) d axes v w :
  rep x d v -> Forall axis axes -> dall (Z.le 1) d -> rep g (sumdims d axes) w ->
  exists G, vtileAs g d = Ok G /\ rep G d (fun i => w (dmod i (sumdims d axes))) /\ adjoint x (sums d axes) g G.
Proof.
  intros Hx Ha Hp Hg. destruct (vtileAs_rep g _ d _ Hg (sumdims_broadcasts d axes Ha Hp)) as (G & E & HG).
  exists G. split; [done|]. split; [done|]. eapply adjoint_rep; [by eapply rep_dims|exact HG|exact Hg|].
  intros T. symmetry. by apply sums_adjoint.
Qed.

Definition sumAs_spec (rdims : dim4) : opspec :=
  unary_spec (fun v h => sumAs (K := R) DEFAULT v rdims h) (fun x => val (vsumAs (K := R) DEFAULT x rdims))
    (fun x => sums (t_dims x) (sumaxes (t_dims x) rdims)) (fun x => broadcasts rdims (t_dims x)).

Lemma sumAs_correct rdims : correct (sumAs_spec rdims).
Proof.
  apply unary_correct.
  - intros v h Hb. set (x := array v h) in *. destruct (vsumAs_rep x _ _ _ (rep_obs x) Hb) as (y & E & Hy).
    exists false. eexists. unfold sumAs. fold x. split; [by eapply shaped_run|].
    intros a c g _ Hg. rewrite E in Hg. cbn [val] in Hg. pose proof (like_rep _ _ _ _ Hy Hg) as Hg'.
    rewrite <- (sumaxes_dims rdims (t_dims x) Hb) in Hg'.
    destruct (adjoint_sums x g _ _ _ _ (rep_obs x) (sumaxes_axes _ _) ltac:(apply dall_dget; intros k Hk; by apply Hb) Hg')
      as (G & EG & _ & HG). exists G. split; [|exact HG]. unfold grad_sumAs, dims. fold x. rewrite EG. reflexivity.
  - intros c t d Hb Hc.
    eapply (tderiv_rep c (fun x => val (vsumAs (K := R) DEFAULT x rdims)) t d rdims (sums (t_dims (c t)) (sumaxes (t_dims (c t)) rdims))); [done|..].
    + intros u. destruct (vsumAs_rep (c u) _ _ _ (tderiv_curve c t d Hc u) Hb) as (y & -> & Hy). done.
    + intros i Hi. apply (sums_deriv _ _ (fun u => obs (c u))); [apply sumaxes_axes|apply Hc|].
      by rewrite sumaxes_dims.
Qed.

Lemma vsum_rep (x : A) d axes v : rep x d v -> Forall axis axes -> rep (vsum DEFAULT x axes) (sumdims d axes) (sums d axes v).
Proof. intros Hx Ha. apply rt_as. by apply sums_rep. Qed.

Definition sum_spec (axes : list Z) : opspec :=
  unary_spec (fun v h => sum (K := R) DEFAULT v axes h) (fun x => vsum DEFAULT x axes)
    (fun x => sums (t_dims x) axes) (fun x => Forall axis axes /\ dall (Z.le 1) (t_dims x)).

Lemma sum_correct axes : correct (sum_spec axes).
Proof.
  apply unary_correct.
  - intros v h [Ha Hp]. set (x := array v h) in *. pose proof (vsum_rep x _ axes _ (rep_obs x) Ha) as Hy.
    exists false. eexists. split; [reflexivity|]. fold x.
    intros a c g _ Hg. pose proof (like_rep _ _ _ _ Hy Hg) as Hg'.
    destruct (adjoint_sums x g _ _ _ _ (rep_obs x) Ha Hp Hg') as (G & EG & _ & HG). exists G. split; [|exact HG].
    unfold grad_sumAs, dims. fold x. rewrite EG. reflexivity.
  - intros c t d [Ha Hp] Hc. eapply (tderiv_rep c (fun x => vsum (K := R) DEFAULT x axes) t d _ (sums (t_dims (c t)) axes)); [done|..].
    + intros u. apply vsum_rep; [by apply (tderiv_curve c t d)|done].
    + intros i Hi. apply (sums_deriv _ _ (fun u => obs (c u))); [done|apply Hc|done].
Qed.

(** ** Means *)

Lemma vmean_rep (x : A) d axes v :
  rep x d v -> Forall axis axes ->
  rep (vmean DEFAULT x axes) (sumdims d axes) (fun i => sums d axes v i / IZR (count d axes)).
Proof.
  intros Hx Ha. unfold vmean, adjustInputType. revert x d v Hx. induction Ha as [|k r Hk Hr IH]; intros x d v Hx.
  { eapply rep_ext; [exact Hx|done|]. intros i _. cbn. field. }
  cbn [fold_left sumdims sums count]. eapply rep_ext; [apply IH, rt_mean; [done|exact Hx]|done|]. intros i _.
  unfold Rdiv. rewrite (sums_scale _ _ (alongsum d k v) (/ IZR (dget d k)) i), mult_IZR, Rinv_mult. ring.
Qed.

Definition mean_spec (axes : list Z) : opspec :=
  unary_spec (fun v h => mean (K := R) DEFAULT v axes h) (fun x => vmean DEFAULT x axes)
    (fun x T i => sums (t_dims x) axes T i / IZR (count (t_dims x) axes))
    (fun x => Forall axis axes /\ dall (Z.le 1) (t_dims x)).

Lemma mean_correct axes : correct (mean_spec axes).
Proof.
  apply unary_correct.
  - intros v h [Ha Hp]. set (x := array v h) in *. pose proof (vmean_rep x _ axes _ (rep_obs x) Ha) as Hy.
    exists false. eexists. split; [reflexivity|]. fold x.
    intros a c g _ Hg. pose proof (like_rep _ _ _ _ Hy Hg) as Hg'.
    destruct (adjoint_sums x g _ _ _ _ (rep_obs x) Ha Hp Hg') as (G & EG & HG & Hadj).
    eexists. split.
    + unfold grad_mean, dims. fold x. rewrite (rep_dims _ _ _ Hg'), EG, count_prod by done.
      assert (existsb (fun i => (dget (sumdims (t_dims x) axes) i =? 0)%Z) four = false) as ->; [|reflexivity].
      apply not_true_iff_false. rewrite existsb_exists. intros (k & Hk%list_elem_of_In%elem_of_four & Ek%Z.eqb_eq).
      destruct (sumdims_broadcasts _ axes Ha Hp k Hk) as (? & _). lia.
    + unfold scalarR. eapply adjoint_rep; [reflexivity|rep|exact Hg'|]. intros T. cbn beta. scalars.
      rewrite (Rsum_ext _ _ (fun i => obs g (dmod i (sumdims (t_dims x) axes)) * (T i / IZR (count (t_dims x) axes))))
        by (intros; unfold Rdiv; ring).
      rewrite <- sums_adjoint by done. apply Rsum_ext. intros i _. unfold Rdiv. by rewrite sums_scale.
  - intros c t d [Ha Hp] Hc.
    eapply (tderiv_rep c (fun x => vmean (K := R) DEFAULT x axes) t d _ (fun v i => sums (t_dims (c t)) axes v i / IZR (count (t_dims (c t)) axes))); [done|..].
    + intros u. apply vmean_rep; [by apply (tderiv_curve c t d)|done].
    + intros i Hi. eapply deriv_eq.
      * apply (deriv_mul (fun u => sums (t_dims (c t)) axes (obs (c u)) i) (fun _ => / IZR (count (t_dims (c t)) axes))).
        -- apply (sums_deriv _ _ (fun u => obs (c u))); [done|apply Hc|done].
        -- apply deriv_const.
      * unfold Rdiv. ring.
Qed.
End Reductions.

(** ** Variances and norms along axes: what their gradient functions compute is, at
    every element, the gradient of its sum times the derivative at the element. *)

#[local] Open Scope R_scope.

(** A factor that is one number per sum. *)
Lemma sums_factor d axes c T j :
  Forall axis axes -> inside (sumdims d axes) j ->
  sums d axes (fun i => c (dmod i (sumdims d axes)) * T i) j = c j * sums d axes T j.
Proof.
  intros Ha. revert d T. induction Ha as [|k r Hk Hr IH]; intros d T Hj.
  { cbn. cbn in Hj. by rewrite dmod_inside. }
  cbn [sums sumdims fold_left] in *. fold (sumdims (dset d k 1) r) in *. rewrite <- IH by done. apply sums_same. intros i.
  unfold alongsum. rewrite (Rmult_comm (c _)), <- Rsum_scal. apply Rsum_ext. intros m _. rewrite Rmult_comm. do 2 f_equal.
  apply dmod_sum; [done|]. rewrite sumdims_dget, dget_dset_eq by done. by case_bool_decide.
Qed.

(** What is added at [i] comes back from the sum it is added to. *)
Lemma adjoint_weighted d axes f w T :
  Forall axis axes ->
  Rsum (grid d) (fun i => w (dmod i (sumdims d axes)) * f i * T i) = Rsum (grid (sumdims d axes)) (fun j => w j * sums d axes (fun i => f i * T i) j).
Proof. intros Ha. rewrite sums_adjoint by done. apply Rsum_ext. intros. ring. Qed.

(** ** The number of samples *)

Lemma count_product d axes :
  NoDup axes -> Forall axis axes -> count d axes = fold_right (fun k n => dget d k * n)%Z 1%Z axes.
Proof.
  intros Hnd Ha. revert d. induction Ha as [|k r Hk Hr IH]; intros d; [done|]. apply NoDup_cons in Hnd as [Hn Hnd].
  cbn [count fold_right]. rewrite IH by done. f_equal.
  clear IH Hnd. induction Hr as [|e r He Hr IH]; [done|]. cbn [fold_right]. rewrite IH by (intros ?; apply Hn; by right). f_equal.
  rewrite dget_dset by done. destruct (Z.eqb_spec e k) as [->|]; [|done]. exfalso. apply Hn. by left.
Qed.

Lemma var_count_from d axes n :
  Forall axis axes -> dall (Z.le 1) d -> (1 <= n)%Z -> (n * fold_right (fun k n => dget d k * n) 1 axes < 2 ^ 31)%Z ->
  fold_left (fun n ax => i32 (n * dget d ax)) axes n = (n * fold_right (fun k n => dget d k * n) 1 axes)%Z.
Proof.
  intros Ha Hd. rewrite dall_dget in Hd. revert n.
  induction Ha as [|k r Hk Hr IH]; intros n Hn Hb; cbn [fold_left fold_right] in *; [lia|].
  pose proof (Hd k Hk) as Hdk.
  assert (Hp : (1 <= fold_right (fun k n => dget d k * n) 1 r)%Z).
  { clear -Hr Hd. induction Hr as [|e r He _ IH]; cbn [fold_right]; [lia|]. specialize (Hd e He). nia. }
  rewrite i32_id by nia. rewrite IH; nia.
Qed.

Lemma var_count_ok d axes :
  NoDup axes -> Forall axis axes -> dall (Z.le 1) d -> (count d axes < 2 ^ 31)%Z -> var_count d axes = count d axes.
Proof.
  intros Hnd Ha Hd. rewrite count_product by done. intros Hb. unfold var_count. rewrite var_count_from; lia || done.
Qed.

Lemma axesDims_dget d axes k : Forall axis axes -> axis k -> dget (axesDims d axes) k = if bool_decide (k ∈ axes) then dget d k else 1%Z.
Proof.
  intros Ha Hk. unfold axesDims.
  assert (E : forall t, dget (fold_left (fun t ax => dset t ax (dget d ax)) axes t) k = if bool_decide (k ∈ axes) then dget d k else dget t k).
  { induction Ha as [|a r Hax Hr IH]; intros t; [done|]. cbn [fold_left]. rewrite IH, dget_dset by done.
    destruct (decide (k ∈ r)) as [Hin|Hin].
    - rewrite !bool_decide_eq_true_2; [done|by right|done].
    - rewrite (bool_decide_eq_false_2 (k ∈ r)) by done. destruct (Z.eqb_spec k a) as [->|Hne].
      + by rewrite bool_decide_eq_true_2 by (by left).
      + rewrite bool_decide_eq_false_2; [done|]. by intros [?|?]%elem_of_cons. }
  rewrite E. case_bool_decide; [done|]. axes; done.
Qed.

Lemma axesDims_mul d axes : Forall axis axes -> dmul (sumdims d axes) (axesDims d axes) = d.
Proof.
  intros Ha. apply dim4_ext. intros k Hk.
  assert (E : forall a b, dget (dmul a b) k = (dget a k * dget b k)%Z) by (intros [] []; by axes).
  rewrite E, sumdims_dget, axesDims_dget by done. case_bool_decide; lia.
Qed.

Lemma axesDims_pos d axes : Forall axis axes -> dall (Z.le 1) d -> dall (Z.le 1) (axesDims d axes).
Proof.
  intros Ha Hd. rewrite dall_dget in *. intros k Hk. rewrite axesDims_dget by done. case_bool_decide; [by apply Hd|lia].
Qed.

Section Moments.
Context {A : Type} `{RT : RealTensors A}.
Abbreviation dirs := (dim4 -> R).

Lemma axes_tiled (a : A) d axes v :
  Forall axis axes -> dall (Z.le 1) d -> rep a (sumdims d axes) v ->
  rep (t_tile a (axesDims d axes)) d (fun i => v (dmod i (sumdims d axes))).
Proof.
  intros Ha Hd Hx. eapply rep_ext; [apply rt_tile; [exact Hx|by apply axesDims_pos]|by apply axesDims_mul|done].
Qed.

(** ** Variance *)

Definition samples (d : dim4) (axes : list Z) : R := IZR (count d axes).
Definition meanOf (d : dim4) (axes : list Z) (v : dirs) : dirs := fun i => sums d axes v i / samples d axes.
Definition varScale (d : dim4) (axes : list Z) (isbiased : bool) : R := 1 / IZR (if isbiased then count d axes else count d axes - 1).
Definition varOf (d : dim4) (axes : list Z) (isbiased : bool) (v : dirs) : dirs := fun i =>
  (sums d axes (fun j => v j * v j) i - meanOf d axes v i * samples d axes * meanOf d axes v i) * varScale d axes isbiased.
Definition varSlope (d : dim4) (axes : list Z) (isbiased : bool) (v : dirs) : dirs := fun i =>
  2 * varScale d axes isbiased * (v i - meanOf d axes v (dmod i (sumdims d axes))).

(** More than one sample unless the variance is biased, and their number does not
    overflow. *)
Definition var_fits (d : dim4) (axes : list Z) (isbiased : bool) : Prop :=
  NoDup axes /\ Forall axis axes /\ dall (Z.le 1) d /\ (count d axes < 2 ^ 31)%Z /\ (isbiased = false -> count d axes <> 1%Z).

Lemma var_val_ok d axes isbiased : var_fits d axes isbiased -> var_val (A := A) (var_count d axes) isbiased = varScale d axes isbiased.
Proof.
  intros (Hn & Ha & Hd & Hb & _). pose proof (count_pos d axes Ha Hd). unfold var_val, varScale.
  rewrite var_count_ok, rt_k_div, !rt_k_of, i32_id by (done || lia). done.
Qed.

Lemma vvar_rep (x : A) d axes isbiased v :
  var_fits d axes isbiased -> rep x d v -> exists y, vvar (K := R) DEFAULT x axes isbiased = Ok y /\ rep y (sumdims d axes) (varOf d axes isbiased v).
Proof.
  intros Hf Hx. pose proof (var_val_ok d axes isbiased Hf) as Ev. destruct Hf as (Hn & Ha & Hd & Hb & H1').
  unfold vvar. rewrite (rep_dims _ _ _ Hx), !checked_rt, var_count_ok in * by done. cbn [mbind result_bind].
  assert (throw_if (negb isbiased && (count d axes =? 1)%Z) InvalidArgument = Ok tt) as ->.
  { destruct isbiased; [done|]. cbn. destruct (Z.eqb_spec (count d axes) 1); [by destruct H1'|done]. }
  cbn [mbind result_bind]. rewrite checked_rt. cbn [mbind result_bind].
  eexists. split; [reflexivity|]. rewrite Ev. unfold scalarR.
  pose proof (vmean_rep x d axes v Hx Ha) as Hm. pose proof (vsum_rep _ d axes _ (rt_mul _ _ _ _ _ Hx Hx) Ha) as Hs.
  eapply rep_ext; [rep|done|]. intros i _. cbv beta. by rewrite rt_k_of.
Qed.

Definition var_spec (axes : list Z) (isbiased : bool) : opspec :=
  unary_spec (fun v h => variance (K := R) DEFAULT v axes isbiased h) (fun x => val (vvar (K := R) DEFAULT x axes isbiased))
    (fun x T => sums (t_dims x) axes (fun i => varSlope (t_dims x) axes isbiased (obs x) i * T i))
    (fun x => var_fits (t_dims x) axes isbiased).

Lemma deriv_varOf d axes isbiased (c : R -> dirs) T t j :
  var_fits d axes isbiased -> (forall i, inside d i -> derivable_pt_lim (fun u => c u i) t (T i)) -> inside (sumdims d axes) j ->
  derivable_pt_lim (fun u => varOf d axes isbiased (c u) j) t (sums d axes (fun i => varSlope d axes isbiased (c t) i * T i) j).
Proof.
  intros (_ & Ha & Hd & _ & _) Hc Hj. pose proof (count_pos d axes Ha Hd) as Hn.
  assert (Hn0 : samples d axes <> 0) by (apply not_0_IZR; lia).
  assert (Hm : derivable_pt_lim (fun u => meanOf d axes (c u) j) t (sums d axes T j * / samples d axes)).
  { apply (deriv_scale (fun u => sums d axes (c u) j)). by apply (sums_deriv d axes c T). }
  unfold varOf. eapply deriv_eq.
  - apply (deriv_scale (fun u => sums d axes (fun i => c u i * c u i) j - meanOf d axes (c u) j * samples d axes * meanOf d axes (c u) j)).
    apply (deriv_sub (fun u => sums d axes (fun i => c u i * c u i) j) (fun u => meanOf d axes (c u) j * samples d axes * meanOf d axes (c u) j)).
    + apply (sums_deriv d axes (fun u i => c u i * c u i) (fun i => T i * c t i + c t i * T i)); [done| |done].
      intros i Hi. apply (deriv_mul (fun u => c u i) (fun u => c u i)); by apply Hc.
    + apply (deriv_mul (fun u => meanOf d axes (c u) j * samples d axes) (fun u => meanOf d axes (c u) j)); [|exact Hm].
      apply (deriv_scale (fun u => meanOf d axes (c u) j)). exact Hm.
  - set (s := varScale d axes isbiased). set (M := meanOf d axes (c t)).
    rewrite (sums_same d axes (fun i => T i * c t i + c t i * T i) (fun i => c t i * T i * 2)) by (intros; ring).
    rewrite (sums_same d axes (fun i => varSlope d axes isbiased (c t) i * T i)
               (fun i => c t i * T i * (2 * s) + M (dmod i (sumdims d axes)) * (T i * - (2 * s)))) by (intros; unfold varSlope; fold s M; ring).
    rewrite sums_plus, sums_factor, !sums_scale by done. field. done.
Qed.

Lemma var_correct axes isbiased : correct (var_spec axes isbiased).
Proof.
  apply unary_correct.
  - intros v h Hf. set (x := array v h) in *. destruct (vvar_rep x _ axes isbiased _ Hf (rep_obs x)) as (y & Ey & Hy).
    exists true. eexists. unfold variance, adjustVariable. fold x. split; [by eapply shaped_run|].
    intros a c g Ha0 Hl. rewrite (Ha0 eq_refl). rewrite Ey in Hl. cbn [val] in Hl. pose proof (like_rep _ _ _ _ Hy Hl) as Hg.
    unfold dims. fold x. rewrite var_val_ok by done. pose proof Hf as (Hn & Ha & Hd & _).
    pose proof (axes_tiled _ _ axes _ Ha Hd (vmean_rep x _ axes _ (rep_obs x) Ha)) as Hm.
    pose proof (axes_tiled g _ axes _ Ha Hd Hg) as Ht.
    eexists. split.
    + unfold grad_var, give. change (arr [(x, c)] 0) with x. rewrite checked_rt. cbn [mbind result_bind].
      rewrite checked_rt. reflexivity.
    + unfold scalarR. pose proof (rep_obs x) as Hx. eapply adjoint_rep; [reflexivity|rep|exact Hg|]. intros T.
      rewrite <- adjoint_weighted by done. apply Rsum_ext. intros i _. unfold varSlope, meanOf, samples. rewrite rt_k_mul, rt_k_of. ring.
  - intros c t d Hf Hc.
    apply (tderiv_of _ _ (sumdims (t_dims (c t)) axes) (fun u => varOf (t_dims (c t)) axes isbiased (obs (c u)))).
    + intros u. destruct (vvar_rep (c u) _ axes isbiased _ Hf (tderiv_curve c t d Hc u)) as (y & -> & Hy). exact Hy.
    + intros j Hj. apply (deriv_varOf _ _ _ (fun u => obs (c u))); [done|apply Hc|done].
Qed.

(** ** Norms *)

Definition powers (d : dim4) (axes : list Z) (p : R) (v : dirs) : dirs := sums d axes (fun i => Rpower (Rabs (v i)) p).
Definition normOf (d : dim4) (axes : list Z) (p : R) (v : dirs) : dirs := fun i => Rpower (powers d axes p v i) (1 / p).
Definition normSlope (d : dim4) (axes : list Z) (p : R) (v : dirs) : dirs := fun i =>
  v i * Rpower (Rabs (v i)) (p - 2) / Rpower (powers d axes p v (dmod i (sumdims d axes))) (1 - 1 / p).

Definition norm_fits (x : A) (axes : list Z) (p : R) : Prop :=
  0 < p /\ Forall axis axes /\ dall (Z.le 1) (t_dims x) /\ forall i, inside (t_dims x) i -> obs x i <> 0.

Lemma norm_sum_rep (x : A) d axes p v :
  Forall axis axes -> rep x d v -> rep (norm_sum (K := R) DEFAULT x axes p) (sumdims d axes) (powers d axes p v).
Proof. intros Ha Hx. apply sums_rep; [|done]. apply rt_pow, rt_abs. exact Hx. Qed.

Lemma norm_rep (x : A) d axes p v :
  Forall axis axes -> rep x d v -> rep (e_pow (norm_sum (K := R) DEFAULT x axes p) (k_div (k_of (A := A) 1) p)) (sumdims d axes) (normOf d axes p v).
Proof.
  intros Ha Hx. eapply rep_ext; [apply rt_pow, norm_sum_rep; [done|exact Hx]|done|]. intros i _. by rewrite rt_k_div, rt_k_of.
Qed.

Definition norm_spec (axes : list Z) (p : R) : opspec :=
  unary_spec (fun v h => norm (K := R) DEFAULT v axes p h) (fun x => e_pow (norm_sum (K := R) DEFAULT x axes p) (k_div (k_of (A := A) 1) p))
    (fun x T => sums (t_dims x) axes (fun i => normSlope (t_dims x) axes p (obs x) i * T i)) (fun x => norm_fits x axes p).

(** The derivative of the power of an absolute value. *)
Lemma deriv_abs_pow x p : x <> 0 -> derivable_pt_lim (fun y => Rpower (Rabs y) p) x (p * (x * Rpower (Rabs x) (p - 2))).
Proof.
  intros Hx. pose proof (Rabs_pos_lt x Hx) as Ha. eapply deriv_eq.
  - apply (deriv_comp (fun y => Rpower y p) Rabs); [by apply deriv_abs|by apply derivable_pt_lim_power].
  - replace (p - 1) with (p - 2 + 1) by ring. rewrite Rpower_plus, Rpower_1 by done.
    destruct (Rlt_dec x 0) as [Hlt|Hge]; [rewrite Rltb_true, (Rabs_left x) by done; ring|].
    rewrite Rltb_false, (Rabs_right x) by lra. ring.
Qed.

Lemma deriv_normOf d axes p (c : R -> dirs) T t j :
  0 < p -> Forall axis axes -> (forall i, inside d i -> c t i <> 0) -> 0 < powers d axes p (c t) j ->
  (forall i, inside d i -> derivable_pt_lim (fun u => c u i) t (T i)) -> inside (sumdims d axes) j ->
  derivable_pt_lim (fun u => normOf d axes p (c u) j) t (sums d axes (fun i => normSlope d axes p (c t) i * T i) j).
Proof.
  intros Hp Ha Hx Hpos Hc Hj. unfold normOf. set (S := powers d axes p (c t)) in *. eapply deriv_eq.
  - apply (deriv_comp (fun y => Rpower y (1 / p)) (fun u => powers d axes p (c u) j)); [|by apply derivable_pt_lim_power].
    apply (sums_deriv d axes (fun u i => Rpower (Rabs (c u i)) p) (fun i => p * (c t i * Rpower (Rabs (c t i)) (p - 2)) * T i)); [done| |done].
    intros i Hi. apply (deriv_comp (fun y => Rpower (Rabs y) p) (fun u => c u i)); [by apply Hc|]. by apply deriv_abs_pow, Hx.
  - fold S.
    rewrite (sums_same d axes (fun i => p * (c t i * Rpower (Rabs (c t i)) (p - 2)) * T i)
               (fun i => c t i * Rpower (Rabs (c t i)) (p - 2) * T i * p)) by (intros; ring).
    rewrite (sums_same d axes (fun i => normSlope d axes p (c t) i * T i)
               (fun i => (fun k => / Rpower (S k) (1 - 1 / p)) (dmod i (sumdims d axes)) * (c t i * Rpower (Rabs (c t i)) (p - 2) * T i)))
      by (intros; unfold normSlope; fold S; unfold Rdiv; ring).
    rewrite (sums_factor d axes (fun k => / Rpower (S k) (1 - 1 / p)) (fun i => c t i * Rpower (Rabs (c t i)) (p - 2) * T i)), sums_scale by done.
    replace (1 / p - 1) with (- (1 - 1 / p)) by ring. rewrite Rpower_Ropp.
    assert (0 < Rpower (S j) (1 - 1 / p)) by apply exp_pos. field. split; lra.
Qed.


Lemma norm_correct axes p : correct (norm_spec axes p).
Proof.
  apply unary_correct.
  - intros v h (Hp & Ha & Hd & Hx). set (x := array v h) in *. pose proof (rep_obs x) as Hr.
    pose proof (norm_rep x _ axes p _ Ha Hr) as Hy. pose proof (norm_sum_rep x _ axes p _ Ha Hr) as Hs.
    exists true. eexists. unfold norm. fold x. split.
    { rewrite rt_k_le, rt_k_of, bool_decide_eq_false_2 by lra. reflexivity. }
    intros a c g Ha0 Hl. rewrite (Ha0 eq_refl). pose proof (like_rep _ _ _ _ Hy Hl) as Hg.
    assert (Hq : rep (e_div g (e_pow (norm_sum (K := R) DEFAULT x axes p) (k_sub (A := A) (k_of (A := A) 1) (k_div (A := A) (k_of (A := A) 1) p))))
                   (sumdims (t_dims x) axes) (fun j => obs g j / Rpower (powers (t_dims x) axes p (obs x) j) (1 - 1 / p))).
    { eapply rep_ext; [rep|done|]. intros j _. cbv beta. by rewrite rt_k_sub, rt_k_div, rt_k_of. }
    destruct (vtileAs_rep _ _ (t_dims x) _ Hq (sumdims_broadcasts _ axes Ha Hd)) as (t & Et & Ht).
    eexists. split.
    + unfold grad_norm, give. change (arr [(x, c)] 0) with x. cbv zeta. rewrite checked_rt. cbn [mbind result_bind].
      rewrite checked_rt. cbn [mbind result_bind]. rewrite Et. cbn [mbind result_bind]. rewrite checked_rt. reflexivity.
    + unfold adjustInputType. eapply adjoint_rep; [reflexivity|rep|exact Hg|]. intros T.
      rewrite <- adjoint_weighted by done. apply Rsum_ext. intros i _. unfold normSlope. rewrite rt_k_sub, rt_k_of. cbn. unfold Rdiv. ring.
  - intros c t d (Hp & Ha & Hd & Hx) Hc.
    apply (tderiv_of _ _ (sumdims (t_dims (c t)) axes) (fun u => normOf (t_dims (c t)) axes p (obs (c u)))).
    + intros u. apply norm_rep; [done|]. by apply (tderiv_curve c t d).
    + intros j Hj. apply (deriv_normOf _ _ _ (fun u => obs (c u))); [done|done|done| |apply Hc|done].
      apply sums_pos; [done|done|]. intros i. apply exp_pos.
Qed.
End Moments.
