(* ===== verification/TensorLayout.v ===== *)
(** Functions that place the elements of an array elsewhere: transposing, reshaping,
    reordering, parts of an array, padding, the rotation of relative positions.
    Each element of the operand goes to at most one place, and the gradient is read
    at that place. *)
From S2P Require Import Prelude Autograd AutogradProofs AutogradFunctions AutogradReal RealSum AutogradPrograms TensorFunctions TensorSpace TensorSpecs TensorReductions.
From Stdlib Require Import Reals Lra.

#[local] Open Scope R_scope.

(** A sum over the places that are filled. *)
Lemma Rsum_filled {B C} (l : list B) (m : list C) (b : B -> C) (f : C -> B) (sel : C -> bool) v :
  NoDup l -> NoDup m ->
  (forall i, i ∈ l -> b i ∈ m /\ sel (b i) = true /\ f (b i) = i) ->
  (forall j, j ∈ m -> sel j = true -> f j ∈ l /\ b (f j) = j) ->
  Rsum l (fun i => v (b i)) = Rsum m (fun j => if sel j then v j else 0).
Proof.
  intros Hl Hm Hb Hf.
  assert (E : forall k, Rsum k (fun j => if sel j then v j else 0) = Rsum (filter (fun j => sel j = true) k) v).
  { induction k as [|j k IH]; [done|]. rewrite Rsum_cons, IH. destruct (sel j) eqn:Ej.
    - by rewrite filter_cons_True by done.
    - rewrite filter_cons_False by (rewrite Ej; done). ring. }
  rewrite E. apply (Rsum_bij l _ b f); [done|by apply NoDup_filter|..].
  - intros i Hi. destruct (Hb i Hi) as (Hin & Hs & Hfb). by rewrite list_elem_of_filter.
  - intros j [Hs Hj]%list_elem_of_filter. by apply Hf.
Qed.

Section Layout.
Context {A : Type} `{RT : RealTensors A}.
Abbreviation dirs := (dim4 -> R).

(** The places [b d i] are filled with the elements, the others hold [k]. *)
Lemma placed_correct r F e (sel : dim4 -> dim4 -> bool) f b k P :
  (forall (x : A) d v, P d -> rep x d v -> rep (F x) (e d) (fun j => if sel d j then v (f d j) else k)) ->
  (forall v h, P (dims v h) -> exists keep g,
     r v h = Ok (makeOp (F (array v h)) [(v, keep)] g h)
     /\ forall a c y w, rep y (e (dims v h)) w ->
        exists G, g [(a, c)] y = Ok [(0%nat, G)] /\ rep G (dims v h) (fun i => w (b (dims v h) i))) ->
  (forall d i, P d -> inside d i -> inside (e d) (b d i) /\ sel d (b d i) = true /\ f d (b d i) = i) ->
  (forall d j, P d -> inside (e d) j -> sel d j = true -> inside d (f d j) /\ b d (f d j) = j) ->
  correct (unary_spec r F (fun x T j => if sel (t_dims x) j then T (f (t_dims x) j) else 0) (fun x => P (t_dims x))).
Proof.
  intros HF Hr Hb Hf.
  apply (elements_correct r F e (fun d v j => if sel d j then v (f d j) else k)
           (fun d T j => if sel d j then T (f d j) else 0) (fun d w i => w (b d i)) P HF Hr).
  - intros d w T Hp. transitivity (Rsum (grid d) (fun i => w (b d i) * T (f d (b d i)))).
    { apply Rsum_ext. intros i Hi%elem_of_indices. by rewrite (proj2 (proj2 (Hb d i Hp Hi))). }
    rewrite (Rsum_filled (grid d) (grid (e d)) (b d) (f d) (sel d) (fun j => w j * T (f d j))); try apply NoDup_grid.
    + apply Rsum_ext. intros j _. destruct (sel d j); ring.
    + intros i Hi%elem_of_indices. rewrite elem_of_indices. auto.
    + intros j Hj%elem_of_indices. rewrite elem_of_indices. auto.
  - intros d c v t Hp Hc j Hj. destruct (sel d j) eqn:Es; [|apply deriv_const]. by apply Hc, Hf.
Qed.

(** Every place is filled. *)
Lemma moved_correct r F e f b P :
  (forall (x : A) d v, P d -> rep x d v -> rep (F x) (e d) (fun j => v (f d j))) ->
  (forall v h, P (dims v h) -> exists keep g,
     r v h = Ok (makeOp (F (array v h)) [(v, keep)] g h)
     /\ forall a c y w, rep y (e (dims v h)) w ->
        exists G, g [(a, c)] y = Ok [(0%nat, G)] /\ rep G (dims v h) (fun i => w (b (dims v h) i))) ->
  (forall d i, P d -> inside d i -> inside (e d) (b d i) /\ f d (b d i) = i) ->
  (forall d j, P d -> inside (e d) j -> inside d (f d j) /\ b d (f d j) = j) ->
  correct (unary_spec r F (fun x T j => T (f (t_dims x) j)) (fun x => P (t_dims x))).
Proof.
  intros HF Hr Hb Hf. apply (placed_correct r F e (fun _ _ => true) f b 0 P); try done.
  - intros d i Hp Hi. destruct (Hb d i Hp Hi). by split_and!.
  - intros d j Hp Hj _. by apply Hf.
Qed.

(** ** Transposing and reordering *)

Definition swap01 (i : dim4) : dim4 := D4 (dim1 i) (dim0 i) (dim2 i) (dim3 i).

Definition transpose_spec : opspec :=
  unary_spec transpose t_transpose (fun x T j => T (swap01 j)) (fun x => True).

Lemma transpose_correct : correct transpose_spec.
Proof.
  apply (moved_correct transpose t_transpose swap01 (fun _ => swap01) (fun _ => swap01) (fun _ => True)).
  - intros x d v _ Hx. by apply rt_transpose.
  - intros v h _. exists false. eexists. split; [reflexivity|]. intros a c y w Hy. eexists. split; [reflexivity|].
    eapply rep_ext; [by apply rt_transpose|by destruct (dims v h)|done].
  - intros d [] _ (? & ? & ? & ?). done.
  - intros d [] _ (? & ? & ? & ?). done.
Qed.

Definition reordered (i0 i1 i2 i3 : Z) (d : dim4) : dim4 := D4 (dget d i0) (dget d i1) (dget d i2) (dget d i3).

Definition reorder_spec (i0 i1 i2 i3 : Z) : opspec :=
  unary_spec (fun v h => reorder v i0 i1 i2 i3 h) (fun x => t_reorder x i0 i1 i2 i3)
    (fun x T j => T (permuted i0 i1 i2 i3 j)) (fun x => [i0; i1; i2; i3] ≡ₚ four).
End Layout.

Lemma orders i0 i1 i2 i3 :
  [i0; i1; i2; i3] ≡ₚ four ->
  (axis i0 /\ axis i1 /\ axis i2 /\ axis i3) /\ (i0 <> i1 /\ i0 <> i2 /\ i0 <> i3 /\ i1 <> i2 /\ i1 <> i3 /\ i2 <> i3)%Z.
Proof.
  intros Hp. assert (Hnd : NoDup [i0; i1; i2; i3]) by (rewrite Hp; unfold four; repeat constructor; set_solver).
  assert (Hax : forall k, k ∈ [i0; i1; i2; i3] -> axis k) by (intros k; rewrite Hp; unfold four, axis; set_solver).
  split; [split_and!; apply Hax; set_solver|]. rewrite !NoDup_cons in Hnd. set_solver.
Qed.

Lemma reordered_back i0 i1 i2 i3 i :
  [i0; i1; i2; i3] ≡ₚ four ->
  permuted i0 i1 i2 i3 (reordered i0 i1 i2 i3 i) = i /\ reordered i0 i1 i2 i3 (permuted i0 i1 i2 i3 i) = i.
Proof. intros ((? & ? & ? & ?) & ? & ? & ? & ? & ? & ?)%orders. destruct i. axes; done. Qed.

(** The dimensions computed for the gradient undo the reordering. *)
Lemma dimgrad_undoes i0 i1 i2 i3 i (r := dimgrad i0 i1 i2 i3) :
  [i0; i1; i2; i3] ≡ₚ four ->
  [dim0 r; dim1 r; dim2 r; dim3 r] ≡ₚ four
  /\ permuted (dim0 r) (dim1 r) (dim2 r) (dim3 r) i = reordered i0 i1 i2 i3 i
  /\ reordered (dim0 r) (dim1 r) (dim2 r) (dim3 r) (reordered i0 i1 i2 i3 i) = i.
Proof.
  intros ((? & ? & ? & ?) & ? & ? & ? & ? & ? & ?)%orders. destruct i. unfold r.
  axes; try done; (split; [apply (bool_decide_unpack _); vm_compute; exact I|split; reflexivity]).
Qed.

(** ** Reshaping: what dimensions are inferred *)

Lemma inferDims_elements d req e : inferDims d req = Ok e -> elements e = elements d.
Proof.
  unfold inferDims. destruct (inferRest _ _) as [[e' n]|]; [|done]. cbn [mbind result_bind].
  unfold throw_if. repeat case_match; try done. intros [= <-]. cbn in *.
  destruct (Z.eqb_spec (elements e') (elements d)); done.
Qed.

(** Positive dimensions are taken as they are. *)
Lemma inferDims_exact d e : dall (Z.le 1) e -> elements e = elements d -> inferDims d e = Ok e.
Proof.
  intros He E. assert (Hn : forall k, axis k -> (dget e k =? 0)%Z = false /\ (dget e k =? -1)%Z = false).
  { destruct e. unfold dall in He. cbn in He. intros k Hk. split; apply Z.eqb_neq; axes; cbn; lia. }
  unfold axis in Hn. destruct (Hn 0%Z ltac:(tauto)) as [Z0 M0]. destruct (Hn 1%Z ltac:(tauto)) as [Z1 M1].
  destruct (Hn 2%Z ltac:(tauto)) as [Z2 M2]. destruct (Hn 3%Z ltac:(tauto)) as [Z3 M3].
  assert (E0 : infer0 e d = e) by (unfold infer0; cbn [four fold_left]; by rewrite Z0, Z1, Z2, Z3).
  unfold inferDims, inferRest. rewrite E0. cbn [four foldM_result]. rewrite M0, M1, M2, M3. cbn [mbind result_bind].
  by rewrite E, Z.eqb_refl.
Qed.

Lemma unlin_column n m : (0 <= m < n)%Z -> unlin (D4 n 1 1 1) m = D4 m 0 0 0.
Proof.
  intros Hm. unfold unlin. cbn [dim0 dim1 dim2 dim3]. by rewrite !Z.mod_1_r, !Z.div_1_r, Z.mod_small, Z.div_small by lia.
Qed.

Lemma dall_weaken (m n : Z) d : (m <= n)%Z -> dall (Z.le n) d -> dall (Z.le m) d.
Proof. unfold dall. lia. Qed.

Lemma elements_pos d : dall (Z.le 1) d -> (1 <= elements d)%Z.
Proof. unfold dall, elements. intros (? & ? & ? & ?). assert (1 <= dim0 d * dim1 d)%Z by nia. nia. Qed.

Section Reshaping.
Context {A : Type} `{RT : RealTensors A}.
Abbreviation dirs := (dim4 -> R).

Lemma reorder_correct i0 i1 i2 i3 : correct (reorder_spec i0 i1 i2 i3).
Proof.
  apply (moved_correct (fun v h => reorder v i0 i1 i2 i3 h) (fun x => t_reorder x i0 i1 i2 i3) (reordered i0 i1 i2 i3)
           (fun _ => permuted i0 i1 i2 i3) (fun _ => reordered i0 i1 i2 i3) (fun _ => [i0; i1; i2; i3] ≡ₚ four)).
  - intros x d v Hp Hx. by apply rt_reorder.
  - intros v h Hp. exists false. eexists. split; [reflexivity|]. intros a c y w Hy. eexists. split; [reflexivity|].
    destruct (dimgrad_undoes i0 i1 i2 i3 (dims v h) Hp) as (Hr & _ & Hd).
    eapply rep_ext; [by apply rt_reorder|exact Hd|]. intros i _. cbv beta.
    f_equal. exact (proj1 (proj2 (dimgrad_undoes i0 i1 i2 i3 i Hp))).
  - intros d i Hp Hi. split; [|by apply reordered_back]. rewrite inside_dget in Hi.
    apply orders in Hp as ((? & ? & ? & ?) & _). unfold inside, reordered. cbn. auto.
  - intros d j Hp Hj. split; [|by apply reordered_back]. by apply permuted_inside.
Qed.

Lemma vmoddims_rep (y : A) d e w :
  rep y e w -> dall (Z.le 1) d -> elements d = elements e ->
  exists G, vmoddims y d = Ok G /\ rep G d (fun i => w (unlin e (lin d i))).
Proof.
  intros Hy Hd E. unfold vmoddims. rewrite (rep_dims _ _ _ Hy), inferDims_exact by done. cbn [mbind result_bind].
  eexists. split; [done|]. apply rt_moddims; [done|by apply (dall_weaken 0 1)|done].
Qed.

Definition flat_spec : opspec :=
  unary_spec flat t_flat (fun x T j => T (unlin (t_dims x) (dim0 j))) (fun x => dall (Z.le 1) (t_dims x)).

Lemma flat_correct : correct flat_spec.
Proof.
  apply (moved_correct flat t_flat (fun d => D4 (elements d) 1 1 1) (fun d j => unlin d (dim0 j))
           (fun d i => D4 (lin d i) 0 0 0) (dall (Z.le 1))).
  - intros x d v _ Hx. by apply rt_flat.
  - intros v h Hp. exists false. eexists. split; [reflexivity|]. intros a c y w Hy.
    destruct (vmoddims_rep y (dims v h) _ w Hy Hp) as (G & EG & HG).
    { unfold elements at 2. cbn. lia. }
    exists G. split; [unfold grad_moddims; by rewrite EG|]. eapply rep_ext; [exact HG|done|]. intros i Hi. cbn beta.
    by rewrite unlin_column by by apply lin_bounds.
  - intros d i Hp Hi. pose proof (lin_bounds d i Hi). split; [unfold inside; cbn; lia|]. by apply unlin_lin.
  - intros d [j0 j1 j2 j3] Hp (H0' & H1' & H2' & H3'). cbn in *.
    destruct (lin_unlin d j0) as [Hi El]; [by apply (dall_weaken 0 1)|done|]. split; [done|]. rewrite El. f_equal; lia.
Qed.

(** The dimensions [moddims] makes of [d]. *)
Definition moddimsTo (req d : dim4) : dim4 := match inferDims d req with Ok e => e | Throw _ => d end.

Definition moddims_spec (req : dim4) : opspec :=
  unary_spec (fun v h => moddims v req h) (fun x => val (vmoddims x req))
    (fun x T j => T (unlin (t_dims x) (lin (moddimsTo req (t_dims x)) j)))
    (fun x => dall (Z.le 1) (t_dims x) /\ exists e, inferDims (t_dims x) req = Ok e /\ dall (Z.le 1) e).

Lemma moddims_correct req : correct (moddims_spec req).
Proof.
  unfold moddims_spec. apply (moved_correct (fun v h => moddims v req h) (fun x => val (vmoddims x req)) (moddimsTo req)
           (fun d j => unlin d (lin (moddimsTo req d) j)) (fun d i => unlin (moddimsTo req d) (lin d i))
           (fun d => dall (Z.le 1) d /\ exists e, inferDims d req = Ok e /\ dall (Z.le 1) e)).
  - intros x d v (Hd & e & E & He) Hx. unfold vmoddims, moddimsTo. rewrite (rep_dims _ _ _ Hx), E. cbn.
    apply rt_moddims; [done|by apply (dall_weaken 0 1)|by eapply inferDims_elements].
  - intros v h (Hd & e & E & He). exists false. unfold dims in *. eexists. split.
    + unfold moddims. eapply shaped_run. unfold vmoddims. by rewrite E.
    + intros a c y w Hy. unfold moddimsTo in *. rewrite E in *. unfold dims.
      destruct (vmoddims_rep y (t_dims (array v h)) e w Hy Hd) as (G & EG & HG); [symmetry; by eapply inferDims_elements|].
      exists G. split; [unfold grad_moddims; by rewrite EG|exact HG].
  - intros d i (Hd & e & E & He) Hi. unfold moddimsTo. rewrite E. pose proof (lin_bounds d i Hi) as Hl.
    rewrite <- (inferDims_elements _ _ _ E) in Hl. destruct (lin_unlin e (lin d i)) as [Hin El]; [by apply (dall_weaken 0 1)|done|].
    split; [done|]. rewrite El. by apply unlin_lin.
  - intros d j (Hd & e & E & He) Hj. unfold moddimsTo in *. rewrite E in *. pose proof (lin_bounds e j Hj) as Hl.
    rewrite (inferDims_elements _ _ _ E) in Hl. destruct (lin_unlin d (lin e j)) as [Hin El]; [by apply (dall_weaken 0 1)|done|].
    split; [done|]. rewrite El. by apply unlin_lin.
Qed.
End Reshaping.

(** ** Parts *)

Lemma iback_iat s i : iback s (iat s i) = i.
Proof. destruct i. unfold iback, iat, dmap2. cbn. f_equal; lia. Qed.
Lemma iat_iback s i : iat s (iback s i) = i.
Proof. destruct i. unfold iback, iat, dmap2. cbn. f_equal; lia. Qed.

Lemma iselected_iat s d i : ivalid s d -> inside (idims s d) i -> inside d (iat s i) /\ iselected s d (iat s i) = true.
Proof. intros Hs Hi. split; [by apply iat_inside|]. apply iselected_inside. by rewrite iback_iat. Qed.

Lemma sum_part s d v :
  ivalid s d -> Rsum (grid (idims s d)) (fun i => v (iat s i)) = Rsum (grid d) (fun j => if iselected s d j then v j else 0).
Proof.
  intros Hs. apply (Rsum_filled _ _ _ (iback s)); try apply NoDup_grid.
  - intros i Hi%elem_of_indices. rewrite elem_of_indices, iback_iat. destruct (iselected_iat s d i Hs Hi). done.
  - intros j _ Hj%iselected_inside. by rewrite elem_of_indices, iat_iback.
Qed.

(** [n] positions from [s] on along an axis. *)
Definition seg (k s n : Z) : indices := iset spans k (seq s (s + n - 1)).

Lemma seg_valid k s n d : axis k -> (0 <= s)%Z -> (1 <= n)%Z -> (s + n <= dget d k)%Z -> ivalid (seg k s n) d.
Proof. intros Hk Hs Hn Hd e He. unfold seg, iset, spans. destruct (Z.eqb_spec e k) as [->|]; [lia|exact I]. Qed.

Lemma seg_dims k s n d : axis k -> idims (seg k s n) d = dset d k n.
Proof. intros Hk. unfold idims, seg, iset, spans. destruct d. axes; cbn; f_equal; lia. Qed.

Lemma seg_back k s n j : axis k -> iback (seg k s n) j = dset j k (dget j k - s)%Z.
Proof. intros Hk. unfold iback, istarts, seg, iset, spans, dmap2. destruct j. axes; cbn; f_equal; lia. Qed.

Lemma seg_selected k s n d j :
  axis k -> inside d j -> iselected (seg k s n) d j = ((s <=? dget j k) && (dget j k <? s + n))%Z.
Proof.
  intros Hk Hj. apply eq_true_iff_eq. rewrite iselected_inside, andb_true_iff, Z.leb_le, Z.ltb_lt, seg_dims, seg_back, inside_dget by done.
  rewrite inside_dget in Hj. split.
  - intros Hi. specialize (Hi k Hk). rewrite !dget_dset_eq in Hi by done. lia.
  - intros Hs e He. specialize (Hj e He). rewrite !dget_dset by done. destruct (Z.eqb_spec e k); [by subst; lia|done].
Qed.

(** ** Padding *)

Definition pad_ok (d : dim4) (pad : list (Z * Z)) : Prop :=
  dall (Z.le 1) d /\ (length pad <= 4)%nat /\ Forall (fun p => 0 <= p.1 /\ 0 <= p.2 /\ p.1 + p.2 < 2 ^ 31)%Z pad.

Definition padDims (pad : list (Z * Z)) (d : dim4) : dim4 := fst (padFrom 0 pad d spans).
Definition padSeq (pad : list (Z * Z)) (d : dim4) : indices := snd (padFrom 0 pad d spans).

(** The padded array has the operand at the place kept for it. *)
Lemma padFrom_ok pad d :
  pad_ok d pad -> ivalid (padSeq pad d) (padDims pad d) /\ idims (padSeq pad d) (padDims pad d) = d /\ dall (Z.le 1) (padDims pad d).
Proof.
  intros (Hd & Hl & Hp). unfold padSeq, padDims, ivalid.
  assert (Hw : forall p : Z * Z, (0 <= p.1 /\ 0 <= p.2 /\ p.1 + p.2 < 2 ^ 31)%Z -> i32 (p.1 + p.2) = (p.1 + p.2)%Z).
  { intros p (? & ? & ?). apply i32_id. lia. }
  destruct d as [a b c e]. unfold dall in *. cbn [dim0 dim1 dim2 dim3] in Hd.
  repeat (destruct pad as [|[? ?] pad]; [|cbn in Hl; try lia; apply Forall_cons in Hp as [Hq Hp];
    pose proof (Hw _ Hq); cbn [fst snd] in *; let n := fresh in rename Hq into n]);
    (cbn [padFrom fst snd]; change (0 + 1)%Z with 1%Z; change (1 + 1)%Z with 2%Z; change (2 + 1)%Z with 3%Z;
     unfold iset, dset, spans; cbn [dget dim0 dim1 dim2 dim3 Z.eqb Pos.eqb];
     repeat match goal with E : i32 _ = _ |- _ => rewrite E; clear E end;
     (split; [intros k Hk; axes; cbn; lia || exact I|split; [unfold idims; cbn; f_equal; lia|cbn; lia]])).
Qed.

(** ** Folding the second dimension into the first *)

Lemma lin_fold x y c e i : lin (D4 x y c e) i = lin (D4 (x * y) 1 c e) (D4 (dim0 i + x * dim1 i) 0 (dim2 i) (dim3 i)).
Proof. unfold lin. cbn [dim0 dim1 dim2 dim3]. ring. Qed.

Lemma inside_fold x y c e i :
  inside (D4 x y c e) i -> inside (D4 (x * y) 1 c e) (D4 (dim0 i + x * dim1 i) 0 (dim2 i) (dim3 i)).
Proof. unfold inside. cbn. intros (? & ? & ? & ?). assert (x * dim1 i <= x * (y - 1))%Z by nia. split_and!; nia. Qed.

Lemma inside_unfold x y c e i :
  (1 <= x)%Z -> inside (D4 (x * y) 1 c e) i -> inside (D4 x y c e) (D4 (dim0 i mod x) (dim0 i / x) (dim2 i) (dim3 i)).
Proof.
  unfold inside. cbn. intros Hx (? & ? & ? & ?). pose proof (Z.mod_pos_bound (dim0 i) x ltac:(lia)).
  split_and!; try lia; [apply Z.div_pos; lia|apply Z.div_lt_upper_bound; lia].
Qed.

Section Parts.
Context {A : Type} `{RT : RealTensors A}.
Abbreviation dirs := (dim4 -> R).

Definition part_spec (s : indices) : opspec :=
  unary_spec (part (K := R) s) (fun x => t_index x s) (fun x T j => T (iat s j)) (fun x => ivalid s (t_dims x)).

Lemma part_correct s : correct (part_spec s).
Proof.
  apply (elements_correct (part (K := R) s) (fun x => t_index x s) (idims s) (fun _ v j => v (iat s j)) (fun _ T j => T (iat s j))
           (fun d w i => if iselected s d i then w (iback s i) else 0) (ivalid s)).
  - intros x d v Hs Hx. by apply rt_index.
  - intros v h Hs. exists false. eexists. split; [reflexivity|]. intros a c g w Hg. eexists. split; [reflexivity|].
    eapply rep_ext; [eapply rt_assign; [exact Hs|apply rt_const, rt_dims|exact Hg]|done|].
    intros i _. cbv beta. by rewrite rt_k_of.
  - intros d w T Hs.
    transitivity (Rsum (grid (idims s d)) (fun i => w (iback s (iat s i)) * T (iat s i)));
      [|apply Rsum_ext; intros; by rewrite iback_iat].
    rewrite (sum_part s d (fun j => w (iback s j) * T j)) by done. apply Rsum_ext. intros i _. destruct (iselected s d i); ring.
  - intros d c v t Hs Hc i Hi. apply Hc. by apply iat_inside.
Qed.

Definition padding_spec (pad : list (Z * Z)) (k : R) : opspec :=
  unary_spec (fun v h => padding v pad k h) (fun x => val (padding_array x pad k))
    (fun x T j => if iselected (padSeq pad (t_dims x)) (padDims pad (t_dims x)) j then T (iback (padSeq pad (t_dims x)) j) else 0)
    (fun x => pad_ok (t_dims x) pad).

Lemma padding_correct pad k : correct (padding_spec pad k).
Proof.
  unfold padding_spec.
  apply (placed_correct (fun v h => padding v pad k h) (fun x => val (padding_array x pad k)) (padDims pad)
           (fun d => iselected (padSeq pad d) (padDims pad d)) (fun d => iback (padSeq pad d)) (fun d => iat (padSeq pad d)) k
           (fun d => pad_ok d pad)).
  - intros x d v Hp Hx. destruct (padFrom_ok pad d Hp) as (Hs & Ed & Hpos). destruct Hp as (_ & Hl & _).
    unfold padding_array. rewrite (rep_dims _ _ _ Hx). destruct (Nat.ltb_spec 4 (length pad)); [lia|].
    unfold padSeq, padDims in *. destruct (padFrom 0 pad d spans) as [e s]. cbn in *.
    eapply rep_ext; [eapply rt_assign; [exact Hs|apply rt_const; by apply (dall_weaken 0 1)|by rewrite Ed]|done|done].
  - intros v h Hp. exists false. destruct (padFrom_ok pad _ Hp) as (Hs & Ed & Hpos). eexists. split.
    + eapply shaped_run. unfold padding_array. destruct Hp as (_ & Hl & _). destruct (Nat.ltb_spec 4 (length pad)); [lia|].
      rewrite (surjective_pairing (padFrom 0 pad (t_dims (array v h)) spans)). reflexivity.
    + intros a c y w Hy. eexists. split; [reflexivity|]. eapply rep_ext; [by apply rt_index|exact Ed|done].
  - intros d i Hp Hi. destruct (padFrom_ok pad d Hp) as (Hs & Ed & _). rewrite iback_iat. rewrite <- Ed in Hi at 1.
    destruct (iselected_iat _ _ i Hs Hi). done.
  - intros d j Hp _ Hj%iselected_inside. destruct (padFrom_ok pad d Hp) as (Hs & Ed & _). rewrite iat_iback.
    by rewrite Ed in Hj.
Qed.

Lemma rep_fold (a : A) x y c e v :
  (1 <= x /\ 0 <= y /\ 0 <= c /\ 0 <= e)%Z -> rep a (D4 x y c e) v ->
  rep (t_moddims a (D4 (x * y) 1 c e)) (D4 (x * y) 1 c e) (fun i => v (D4 (dim0 i mod x) (dim0 i / x) (dim2 i) (dim3 i))).
Proof.
  intros Hn Ha. eapply rep_ext; [apply rt_moddims; [exact Ha|unfold dall; cbn; nia|unfold elements; cbn; ring]|done|].
  intros i Hi. cbv beta. f_equal. pose proof (inside_unfold x y c e i ltac:(lia) Hi) as Hu.
  assert (E : D4 (dim0 i mod x + x * (dim0 i / x)) 0 (dim2 i) (dim3 i) = i).
  { pose proof (Z.div_mod (dim0 i) x). destruct i, Hi as (_ & H1' & _). cbn in *. f_equal; lia. }
  rewrite <- (unlin_lin _ _ Hu), (lin_fold x y). cbn [dim0 dim1 dim2 dim3]. by rewrite E.
Qed.

Lemma rep_unfold (a : A) x y c e v :
  (0 <= x /\ 0 <= y /\ 0 <= c /\ 0 <= e)%Z -> rep a (D4 (x * y) 1 c e) v ->
  rep (t_moddims a (D4 x y c e)) (D4 x y c e) (fun i => v (D4 (dim0 i + x * dim1 i) 0 (dim2 i) (dim3 i))).
Proof.
  intros Hn Ha. eapply rep_ext; [apply rt_moddims; [exact Ha|unfold dall; cbn; lia|unfold elements; cbn; ring]|done|].
  intros i Hi. cbv beta. f_equal. rewrite lin_fold. by apply unlin_lin, inside_fold.
Qed.

(** The first [n] along dimension 0. *)
Lemma rep_first (a : A) m n y c e v :
  (1 <= n <= m)%Z -> rep a (D4 m y c e) v -> rep (t_index a (iset spans 0 (seq 0 (n - 1)))) (D4 n y c e) v.
Proof.
  intros Hn Ha. eapply rep_ext; [eapply rt_index; [|exact Ha]|..].
  - intros k Hk. unfold iset, spans. axes; cbn; try exact I. lia.
  - unfold idims, iset, spans. cbn. f_equal. lia.
  - intros i _. cbv beta. f_equal. destruct i. unfold iat, istarts, iset, spans, dmap2. cbn. f_equal; lia.
Qed.
End Parts.

(** ** The rotation of relative positions *)

(** Reading [n1] columns of [n0] elements, each followed by [n1] zeros, in columns one
    element shorter. *)
Definition rotate_ok (d : dim4) : Prop :=
  dall (Z.le 1) d /\ ((dim0 d + dim1 d) * dim1 d < 2 ^ 31 /\ dim2 d < 2 ^ 31 /\ dim3 d < 2 ^ 31)%Z.
Definition rotDims (d : dim4) : dim4 := D4 (dim0 d + dim1 d - 1) (dim1 d) (dim2 d) (dim3 d).
Definition rotSel (d j : dim4) : bool := ((dim0 j + (dim0 d + dim1 d - 1) * dim1 j) mod (dim0 d + dim1 d) <? dim0 d)%Z.
Definition refold (m n : Z) (i : dim4) : dim4 :=
  D4 ((dim0 i + m * dim1 i) mod n) ((dim0 i + m * dim1 i) / n) (dim2 i) (dim3 i).

Lemma refold_back m n i : (1 <= n)%Z -> (0 <= dim0 i < m)%Z -> refold n m (refold m n i) = i.
Proof.
  intros Hn Hi. unfold refold. cbn [dim0 dim1 dim2 dim3].
  pose proof (Z.div_mod (dim0 i + m * dim1 i) n ltac:(lia)) as E.
  replace ((dim0 i + m * dim1 i) mod n + n * ((dim0 i + m * dim1 i) / n))%Z with (dim0 i + m * dim1 i)%Z by lia.
  rewrite (Z.mul_comm m), Z.mod_add, Z.div_add, Z.mod_small, Z.div_small by lia. by destruct i.
Qed.

Lemma rot_forth d i :
  rotate_ok d -> inside d i -> let b := refold (dim0 d + dim1 d) (dim0 d + dim1 d - 1) i in inside (rotDims d) b /\ rotSel d b = true.
Proof.
  intros [(? & ? & ? & ?) _] (? & ? & ? & ?). set (n := (dim0 d + dim1 d)%Z).
  pose proof (Z.div_mod (dim0 i + n * dim1 i) (n - 1) ltac:(lia)) as E.
  pose proof (Z.mod_pos_bound (dim0 i + n * dim1 i) (n - 1) ltac:(lia)) as Hm.
  unfold rotSel. fold n. unfold refold, inside, rotDims. cbn [dim0 dim1 dim2 dim3]. fold n. split.
  - split_and!; try lia; [apply Z.div_pos; nia|apply Z.div_lt_upper_bound; [lia|]].
    assert (n * dim1 i <= n * (dim1 d - 1))%Z by nia. nia.
  - apply Z.ltb_lt. rewrite Z.add_comm, <- E, (Z.mul_comm n), Z.mod_add, Z.mod_small by lia. lia.
Qed.

Lemma rot_back d j :
  rotate_ok d -> inside (rotDims d) j -> rotSel d j = true -> inside d (refold (dim0 d + dim1 d - 1) (dim0 d + dim1 d) j).
Proof.
  intros [(? & ? & ? & ?) _] (? & ? & ? & ?) Hs%Z.ltb_lt. unfold rotDims in *. cbn in *. set (n := (dim0 d + dim1 d)%Z) in *.
  pose proof (Z.mod_pos_bound (dim0 j + (n - 1) * dim1 j) n ltac:(lia)).
  unfold refold, inside. cbn. split_and!; try lia; [apply Z.div_pos; nia|apply Z.div_lt_upper_bound; [lia|]].
  assert ((n - 1) * dim1 j <= (n - 1) * (dim1 d - 1))%Z by nia. nia.
Qed.

Section Rotate.
Context {A : Type} `{RT : RealTensors A}.

Definition rotate_spec : opspec :=
  unary_spec (relativePositionEmbeddingRotate (K := R)) (rotate_array (K := R))
    (fun x T j => if rotSel (t_dims x) j then T (refold (dim0 (t_dims x) + dim1 (t_dims x) - 1) (dim0 (t_dims x) + dim1 (t_dims x)) j) else 0)
    (fun x => rotate_ok (t_dims x)).

Lemma rotate_widths d :
  rotate_ok d -> let m := dim0 d in let n := dim1 d in
  i32 m = m /\ i32 n = n /\ i32 (m + n) = (m + n)%Z /\ i32 ((m + n) * n) = ((m + n) * n)%Z
  /\ i32 (n + m - 1) = (m + n - 1)%Z /\ i32 (m + n - 1) = (m + n - 1)%Z
  /\ i32 ((m + n - 1) * n - 1) = ((m + n - 1) * n - 1)%Z /\ i32 ((m + n - 1) * n) = ((m + n - 1) * n)%Z /\ i32 (m - 1) = (m - 1)%Z
  /\ i32 (dim2 d) = dim2 d /\ i32 (dim3 d) = dim3 d.
Proof.
  intros [(? & ? & ? & ?) (Hb & H2b & H3b)] m n. fold m n in H, H0, Hb.
  assert (m + n <= (m + n) * n)%Z by nia. assert ((m + n - 1) * n < (m + n) * n)%Z by nia. assert (0 <= (m + n - 1) * n)%Z by nia.
  rewrite !i32_id by lia. split_and!; try lia.
Qed.

Lemma rotate_array_rep (x : A) d v :
  rotate_ok d -> rep x d v ->
  rep (rotate_array (K := R) x) (rotDims d) (fun j => if rotSel d j then v (refold (dim0 d + dim1 d - 1) (dim0 d + dim1 d) j) else 0).
Proof.
  intros Hr Hx. pose proof (rotate_widths d Hr) as (E1 & E2 & E3 & E4 & E5 & E5' & E6 & E7 & _ & Ec & Ee). destruct Hr as [Hd _].
  unfold rotate_array. rewrite (rep_dims _ _ _ Hx). destruct d as [m n c e]. unfold dall in Hd. cbn [dim0 dim1 dim2 dim3] in *.
  rewrite E1, E2, Ec, Ee, E3, E4, E5, E5', E6.
  eapply rep_ext.
  - apply rep_unfold; [lia|]. apply (rep_first _ ((m + n) * n)); [nia|]. apply rep_fold; [lia|].
    apply (rt_join0 _ _ (D4 m n c e) v n (fun _ => 0)); [exact Hx|]. rewrite <- (rt_k_of 0).
    apply rt_const. unfold dall. cbn. lia.
  - done.
  - intros i _. reflexivity.
Qed.

Lemma grad_rotate_rep (g : A) d w :
  rotate_ok d -> rep g (rotDims d) w ->
  exists G, (forall ins, grad_rotate (K := R) d ins g = Ok [(0%nat, G)])
    /\ rep G d (fun i => w (refold (dim0 d + dim1 d) (dim0 d + dim1 d - 1) i)).
Proof.
  intros Hr Hg. pose proof (rotate_widths d Hr) as (E1 & E2 & E3 & E4 & _ & E5 & E6 & E7 & E8 & Ec & Ee). destruct Hr as [Hd _].
  eexists. split; [reflexivity|]. destruct d as [m n c e]. unfold dall, rotDims in *. cbn [dim0 dim1 dim2 dim3] in *.
  rewrite E1, E2, Ec, Ee, E3, E5, E7, E8.
  assert (Ej : dset (D4 ((m + n - 1) * n) 1 c e) 0 ((m + n - 1) * n + n) = D4 ((m + n) * n) 1 c e) by (unfold dset; cbn; f_equal; lia).
  eapply rep_ext.
  - apply (rep_first _ (m + n)); [lia|]. apply rep_unfold; [lia|]. rewrite <- Ej.
    eapply (rt_join0 _ _ (D4 ((m + n - 1) * n) 1 c e) _ n (fun _ => 0)); [apply rep_fold; [lia|exact Hg]|].
    rewrite <- (rt_k_of 0). apply rt_const. unfold dall. cbn. lia.
  - done.
  - intros i (? & ? & ? & ?). cbn in *. destruct (Z.ltb_spec (dim0 i + (m + n) * dim1 i) ((m + n - 1) * n)); [done|].
    assert ((m + n) * dim1 i <= (m + n) * (n - 1))%Z by nia. nia.
Qed.

Lemma rotate_correct : correct rotate_spec.
Proof.
  apply (placed_correct (relativePositionEmbeddingRotate (K := R)) (rotate_array (K := R)) rotDims rotSel
           (fun d => refold (dim0 d + dim1 d - 1) (dim0 d + dim1 d)) (fun d => refold (dim0 d + dim1 d) (dim0 d + dim1 d - 1)) 0 rotate_ok).
  - intros x d v Hr Hx. by apply rotate_array_rep.
  - intros v h Hr. exists true. eexists. split; [reflexivity|]. intros a c g w Hg.
    destruct (grad_rotate_rep g _ w Hr Hg) as (G & E & HG). exists G. split; [apply E|done].
  - intros d i Hr Hi. destruct (rot_forth d i Hr Hi). split_and!; [done|done|].
    destruct Hr as [(? & ? & _) _]. apply refold_back; [lia|]. destruct Hi as (? & _). lia.
  - intros d j Hr Hj Hs. split; [by apply rot_back|].
    destruct Hr as [(? & ? & _) _]. apply refold_back; [lia|]. destruct Hj as (? & _). unfold rotDims in *. cbn in *. lia.
Qed.
End Rotate.

(** ** Concatenation along a dimension: every operand is placed after the ones before
    it, and gets the part of the gradient at its place. *)

#[local] Open Scope R_scope.

(** The elements [v] at a place, 0 elsewhere. *)
Definition place (D : dim4) (s : indices) (v : dim4 -> R) : dim4 -> R := fun i => if iselected s D i then v (iback s i) else 0.

(** Operands of dimensions [ds] from position [s] on. *)
Fixpoint joined (k : Z) (D : dim4) (s : Z) (ds : list dim4) (vs : list (dim4 -> R)) : dim4 -> R :=
  match ds, vs with
  | d :: ds, v :: vs => fun i => place D (seg k s (dget d k)) v i + joined k D (s + dget d k) ds vs i
  | _, _ => fun _ => 0
  end.

Fixpoint sizes (k : Z) (ds : list dim4) : Z :=
  match ds with [] => 0%Z | d :: ds => (dget d k + sizes k ds)%Z end.

(** Dimensions that fit between [s] and the end. *)
Definition fits_from (k : Z) (D : dim4) (s : Z) (ds : list dim4) : Prop :=
  axis k /\ (0 <= s)%Z /\ (s + sizes k ds = dget D k)%Z /\ Forall (fun d => d = dset D k (dget d k) /\ (1 <= dget d k)%Z) ds.

Lemma sizes_nonneg k ds : Forall (fun d => 1 <= dget d k)%Z ds -> (0 <= sizes k ds)%Z.
Proof. induction 1; cbn; lia. Qed.

Lemma fits_tail k D s d ds :
  fits_from k D s (d :: ds) ->
  fits_from k D (s + dget d k) ds /\ ivalid (seg k s (dget d k)) D /\ idims (seg k s (dget d k)) D = d /\ (1 <= dget d k)%Z.
Proof.
  intros (Hk & Hs & E & Hf). apply Forall_cons in Hf as [[Ed Hd] Hf]. cbn in E.
  assert (Hn : (0 <= sizes k ds)%Z) by (apply sizes_nonneg; eapply Forall_impl; [exact Hf|by intros ? []]).
  assert (Ht : fits_from k D (s + dget d k) ds) by (unfold fits_from; split_and!; done || lia).
  split_and!; [done|apply seg_valid; done || lia|by rewrite seg_dims|done].
Qed.

(** Before the first place there is nothing. *)
Lemma joined_before k D s ds vs i : axis k -> inside D i -> (dget i k < s)%Z -> Forall (fun d => 1 <= dget d k)%Z ds -> joined k D s ds vs i = 0.
Proof.
  intros Hk Hi Hs Hf. revert s vs Hs. induction Hf as [|d ds Hd Hf IH]; intros s [|v vs] Hs; try done. cbn [joined].
  unfold place. rewrite seg_selected by done. destruct (Z.leb_spec s (dget i k)); [lia|]. cbn. rewrite IH by lia. ring.
Qed.

Lemma adjoint_place D s w T :
  ivalid s D -> Rsum (grid (idims s D)) (fun i => w (iat s i) * T i) = Rsum (grid D) (fun j => w j * place D s T j).
Proof.
  intros Hs. transitivity (Rsum (grid (idims s D)) (fun i => (fun j => w j * T (iback s j)) (iat s i))).
  { apply Rsum_ext. intros i _. by rewrite iback_iat. }
  rewrite (sum_part s D (fun j => w j * T (iback s j))) by done. apply Rsum_ext. intros j _. unfold place. destruct (iselected s D j); ring.
Qed.

Section Join.
Context {A : Type} `{RT : RealTensors A}.
Abbreviation dirs := (dim4 -> R).

(** ** What is concatenated *)

Definition concat_fits (k : Z) (ds : list dim4) : Prop :=
  exists d rest, ds = d :: rest /\ rest <> []
    /\ fits_from k (dset d k (sizes k ds)) 0 ds /\ (sizes k ds < 2 ^ 31)%Z /\ dall (Z.le 1) d.

Lemma fill_rep k D (xs : list A) s r f :
  fits_from k D s (t_dims <$> xs) -> (dget D k < 2 ^ 31)%Z -> rep r D f ->
  rep (fst (fold_left (fun '(r, start) a =>
         (t_assign r (iset spans k (seq start (start + dget (t_dims a) k - 1))) a, i32 (start + dget (t_dims a) k))) xs (r, s))) D
    (fun i => if (dget i k <? s)%Z then f i else joined k D s (t_dims <$> xs) (obs <$> xs) i).
Proof.
  revert s r f. induction xs as [|x xs IH]; intros s r f Hf Hb Hr.
  - cbn [fold_left fst]. destruct Hf as (Hk & _ & E & _). cbn in E. eapply rep_ext; [exact Hr|done|]. intros i Hi.
    rewrite inside_dget in Hi. specialize (Hi k Hk). destruct (Z.ltb_spec (dget i k) s); [done|lia].
  - cbn [fold_left]. rewrite !fmap_cons in *. pose proof (fits_tail _ _ _ _ _ Hf) as (Ht & Hv & Hd & Hn).
    pose proof Ht as (Hk & Hs & E & Hl).
    assert (Hsz : (0 <= sizes k (t_dims <$> xs))%Z) by (apply sizes_nonneg; eapply Forall_impl; [exact Hl|by intros ? []]).
    destruct Hf as (_ & Hs0 & _). fold (seg k s (dget (t_dims x) k)). rewrite i32_id by lia.
    eapply rep_ext; [eapply IH; [exact Ht|exact Hb|eapply rt_assign; [exact Hv|exact Hr|]]|done|].
    + rewrite Hd. apply rep_obs.
    + intros i Hi. cbv beta. cbn [joined]. unfold place. rewrite seg_selected by done.
      assert (Hl' : Forall (fun d => 1 <= dget d k)%Z (t_dims <$> xs)) by (eapply Forall_impl; [exact Hl|by intros ? []]).
      destruct (Z.ltb_spec (dget i k) (s + dget (t_dims x) k)), (Z.leb_spec s (dget i k)), (Z.ltb_spec (dget i k) s); cbn; try lia; try done.
      * rewrite joined_before by done. ring.
      * ring.
Qed.

Lemma concatSize_ok k D d ds s :
  fits_from k D s ds -> d = dset D k (dget d k) -> (dget D k < 2 ^ 31)%Z ->
  foldM_result (fun size e =>
    _ ← throw_if (existsb (fun a => negb (a =? k)%Z && negb (dget e a =? dget d a)%Z) four) InvalidArgument;
    Ok (i32 (size + dget e k))) s ds = Ok (dget D k).
Proof.
  revert s. induction ds as [|e ds IH]; intros s Hf Ed Hb.
  - destruct Hf as (_ & _ & E & _). cbn in *. f_equal. lia.
  - pose proof (fits_tail _ _ _ _ _ Hf) as (Ht & _ & _ & Hn). pose proof Ht as (Hk & Hs & E & Hl).
    assert (Hsz : (0 <= sizes k ds)%Z) by (apply sizes_nonneg; eapply Forall_impl; [exact Hl|by intros ? []]).
    destruct Hf as (_ & Hs0 & _ & Hf). apply Forall_cons in Hf as [[Ee _] _]. cbn [foldM_result].
    assert (existsb (fun a => negb (a =? k)%Z && negb (dget e a =? dget d a)%Z) four = false) as ->.
    { apply not_true_iff_false. rewrite existsb_exists. intros (a & Ha%list_elem_of_In%elem_of_four & Hx).
      apply andb_true_iff in Hx as [Hak Hne]. rewrite Ee, Ed in Hne. rewrite !dget_dset in Hne by done.
      destruct (a =? k)%Z; [done|]. by rewrite Z.eqb_refl in Hne. }
    cbn [throw_if mbind result_bind]. rewrite i32_id by lia. by apply IH.
Qed.

Lemma concat_array_rep k x xs :
  concat_fits k (t_dims <$> x :: xs) ->
  exists y, concat_array (K := R) k x xs = Ok y
    /\ rep y (dset (t_dims x) k (sizes k (t_dims <$> x :: xs))) (joined k (dset (t_dims x) k (sizes k (t_dims <$> x :: xs))) 0 (t_dims <$> x :: xs) (obs <$> x :: xs)).
Proof.
  rewrite !fmap_cons. intros (d & rest & [= <- <-] & _ & Hf & Hb & Hp). set (n := sizes k _) in *. set (D := dset _ k n) in *.
  pose proof Hf as (Hk & _). assert (En : dget D k = n) by (by apply dget_dset_eq). rewrite <- En in Hb.
  pose proof (fits_tail _ _ _ _ _ Hf) as (Ht & _ & _ & Hn). rewrite Z.add_0_l in Ht.
  assert (Ex : t_dims x = dset D k (dget (t_dims x) k)) by (unfold D; by rewrite dset_dset, dset_dget).
  pose proof Ht as (_ & _ & E & Hl).
  assert (Hsz : (0 <= sizes k (t_dims <$> xs))%Z) by (apply sizes_nonneg; eapply Forall_impl; [exact Hl|by intros ? []]).
  unfold concat_array, concatSize. rewrite i32_id by lia. rewrite (concatSize_ok k D (t_dims x)) by done.
  cbn [mbind result_bind]. rewrite En. fold D. eexists. split; [reflexivity|]. unfold concatFill.
  assert (HD : dall (Z.le 0) D).
  { rewrite dall_dget in *. intros a Ha. specialize (Hp a Ha). unfold D. rewrite dget_dset by done. destruct (a =? k)%Z; lia. }
  assert (Hnew : rep (t_new (A := A) D (a_type x)) D (obs (t_new (A := A) D (a_type x)))).
  { rewrite <- (rt_new D (a_type x)) at 2 by done. apply rep_obs. }
  eapply rep_ext; [apply (fill_rep k D (x :: xs) 0 _ _ Hf Hb Hnew)|done|]. intros i Hi. cbv beta.
  rewrite inside_dget in Hi. specialize (Hi k Hk). destruct (Z.ltb_spec (dget i k) 0); [lia|]. by rewrite fmap_cons.
Qed.

(** ** Its gradient *)

Fixpoint concatParts (k : Z) (D : dim4) (m : nat) (s : Z) (ds : list dim4) : list (nat * (dirs -> dirs)) :=
  match ds with [] => [] | d :: ds => (m, place D (seg k s (dget d k))) :: concatParts k D (S m) (s + dget d k) ds end.

Lemma concatParts_has k D m s ds j : (j < length ds)%nat -> exists J, ((m + j)%nat, J) ∈ concatParts k D m s ds.
Proof.
  revert m s j. induction ds as [|d ds IH]; intros m s j Hj; [cbn in Hj; lia|]. destruct j as [|j].
  - eexists. rewrite Nat.add_0_r. left.
  - cbn in Hj. destruct (IH (S m) (s + dget d k)%Z j) as [J HJ]; [lia|]. exists J. right. by rewrite Nat.add_succ_r.
Qed.

Lemma joined_parts k D s ds pre Ts i :
  length Ts = length ds ->
  joined k D s ds Ts i = Rsum (concatParts k D (length pre) s ds) (fun q => q.2 (dir (pre ++ Ts) q.1) i).
Proof.
  revert s pre Ts. induction ds as [|d ds IH]; intros s pre [|T Ts] Hl; try done. cbn [joined concatParts]. rewrite Rsum_cons. cbn [fst snd].
  injection Hl as Hl. rewrite (IH _ (pre ++ [T]) Ts Hl), length_app, Nat.add_1_r, <- app_assoc. f_equal.
  unfold dir. by rewrite list_lookup_middle.
Qed.

Lemma concat_answers k D s cs pre ys g w :
  fits_from k D s (t_dims <$> ys) -> (dget D k < 2 ^ 31)%Z -> rep g D w ->
  answers cs (pre ++ ys) g (concatParts k D (length pre) s (t_dims <$> ys)) (concatGive (K := R) k g (length pre) s (t_dims <$> ys)).
Proof.
  revert s pre. induction ys as [|y ys IH]; intros s pre Hf Hb Hg; [constructor|]. rewrite fmap_cons in *. cbn [concatParts concatGive].
  pose proof (fits_tail _ _ _ _ _ Hf) as (Ht & Hv & Hd & Hn). pose proof Ht as (Hk & Hs & E & Hl).
  assert (Hsz : (0 <= sizes k (t_dims <$> ys))%Z) by (apply sizes_nonneg; eapply Forall_impl; [exact Hl|by intros ? []]).
  destruct Hf as (_ & Hs0 & _). rewrite i32_id by lia. fold (seg k s (dget (t_dims y) k)).
  apply (ans_give _ _ _ _ y).
  - by rewrite list_lookup_middle.
  - eapply adjoint_rep; [symmetry; exact Hd|by apply rt_index|exact Hg|]. intros T. by apply adjoint_place.
  - specialize (IH (s + dget (t_dims y) k)%Z (pre ++ [y]) Ht Hb Hg).
    by rewrite length_app, Nat.add_1_r, <- app_assoc in IH.
Qed.

Definition concat_fwd (k : Z) (xs : list A) : A := match xs with x :: xs => val (concat_array (K := R) k x xs) | [] => a_empty end.
Definition concatDims (k : Z) (ds : list dim4) : dim4 := match ds with d :: _ => dset d k (sizes k ds) | [] => ones4 end.

Definition concat_spec (k : Z) : opspec :=
  OpSpec (fun vs h => concatenate (K := R) vs k h) (concat_fwd k)
    (fun xs Ts => joined k (concatDims k (t_dims <$> xs)) 0 (t_dims <$> xs) Ts) (fun xs => concat_fits k (t_dims <$> xs)) free.

Lemma concat_fwd_rep k xs :
  concat_fits k (t_dims <$> xs) ->
  rep (concat_fwd k xs) (concatDims k (t_dims <$> xs)) (joined k (concatDims k (t_dims <$> xs)) 0 (t_dims <$> xs) (obs <$> xs))
  /\ fits_from k (concatDims k (t_dims <$> xs)) 0 (t_dims <$> xs) /\ (dget (concatDims k (t_dims <$> xs)) k < 2 ^ 31)%Z.
Proof.
  destruct xs as [|x xs]; [by intros (? & ? & ? & _)|]. intros Hf. destruct (concat_array_rep k x xs Hf) as (y & E & Hy).
  unfold concat_fwd. rewrite E. split; [exact Hy|]. destruct Hf as (d & rest & Ed & _ & Hf & Hb & _). rewrite !fmap_cons in *.
  injection Ed as <- <-. cbn [concatDims]. pose proof Hf as (Hk & _). by rewrite dget_dset_eq.
Qed.

Lemma run_concat k vs (h : Autograd.heap (A := A)) :
  concat_fits k (t_dims <$> arrays h vs) ->
  concatenate (K := R) vs k h
  = Ok (makeOp (concat_fwd k (arrays h vs)) (zip vs (replicate (length vs) false)) (grad_concatenate (K := R) k (t_dims <$> arrays h vs)) h).
Proof.
  intros Hf. unfold arrays in *. destruct vs as [|v vs]; [by destruct Hf as (? & ? & ? & _)|]. rewrite fmap_cons in *.
  destruct (concat_array_rep k _ _ Hf) as (y & E & _). unfold concat_fwd.
  destruct Hf as (d & rest & Ed & Hne & (Hk & _) & _). rewrite fmap_cons in Ed. injection Ed as <- <-.
  unfold concatenate. destruct vs as [|v' vs]; [done|].
  assert (((k <? 0) || (3 <? k))%Z = false) as -> by (clear -Hk; axes; done).
  assert (existsb (fun w => negb (bool_decide (type w h = type v h))) (v :: v' :: vs) = false) as ->.
  { apply not_true_iff_false. rewrite existsb_exists. intros (w & _ & Hw). unfold type in Hw.
    by rewrite (bool_decide_eq_true_2 (a_type _ = a_type _)) in Hw by apply rt_type. }
  rewrite E. cbn [val]. do 2 f_equal.
  - clear. cbn. do 2 f_equal. induction vs as [|w vs IH]; [done|]. cbn. by rewrite IH.
  - clear. f_equal. unfold dims. cbn. do 2 f_equal. by rewrite <- list_fmap_compose.
Qed.

Lemma deriv_joined k D s ds (cs : list (R -> A)) vs t i :
  fits_from k D s ds -> Forall2 (fun c v => tderiv c t v) cs vs -> ds = (fun c => t_dims (c t)) <$> cs -> inside D i ->
  derivable_pt_lim (fun u => joined k D s ds ((fun c => obs (c u)) <$> cs) i) t (joined k D s ds vs i).
Proof.
  intros Hf Hd -> Hi. revert s Hf. induction Hd as [|c v cs vs Hc Hd IH]; intros s Hf; [exact (deriv_const 0 t)|].
  rewrite !fmap_cons in *. pose proof (fits_tail _ _ _ _ _ Hf) as (Ht & Hv & Ed & Hn). cbn [joined].
  apply (deriv_add (fun u => place D (seg k s (dget (t_dims (c t)) k)) (obs (c u)) i)); [|by apply IH].
  unfold place. destruct (iselected _ D i) eqn:Es; [|apply deriv_const]. apply Hc. apply iselected_inside in Es. by rewrite Ed in Es.
Qed.

Lemma concat_correct k : correct (concat_spec k).
Proof.
  split.
  - intros vs h Hf _. cbn [dom spec_ops sp_dom concat_spec] in Hf. destruct (concat_fwd_rep k _ Hf) as (Hy & Hfit & Hb).
    exists (replicate (length vs) false). eexists. split; [by rewrite length_replicate|]. split; [by apply run_concat|].
    intros vws g Hg _. change (like g (concat_fwd k (arrays h vs))) in Hg. pose proof (like_rep _ _ _ _ Hy Hg) as Hr.
    eexists. split; [reflexivity|].
    pose proof (concat_answers k _ 0 (flags h vs) [] (arrays h vs) g _ Hfit Hb Hr) as Ha. cbn [app length] in Ha.
    eapply shares_parts; [exact Ha|..].
    + intros j Hj. apply (concatParts_has k _ 0). unfold flags, arrays in *. rewrite !length_fmap.
      apply lookup_lt_Some in Hj. by rewrite length_fmap in Hj.
    + intros T HT. rewrite <- ip_Rsum. apply ip_ext. intros i _. cbn [sp_jvp concat_spec].
      apply (joined_parts k _ 0 _ [] T). by rewrite HT, length_fmap.
  - intros cs ds t Hf Hd _. cbn [dom jvp spec_ops sp_dom sp_jvp concat_spec] in *. set (xs := (fun c => c t) <$> cs) in *.
    destruct (concat_fwd_rep k _ Hf) as (_ & Hfit & _).
    assert (Ed : forall u, t_dims <$> ((fun c => c u) <$> cs) = t_dims <$> xs).
    { intros u. unfold xs. rewrite <- !list_fmap_compose. clear -Hd. induction Hd as [|c v cs vs [Hc _] _ IH]; [done|]. cbn. by rewrite IH, (Hc u). }
    apply (tderiv_of _ _ (concatDims k (t_dims <$> xs)) (fun u => joined k (concatDims k (t_dims <$> xs)) 0 (t_dims <$> xs) ((fun c => obs (c u)) <$> cs))).
    + intros u. pose proof (concat_fwd_rep k ((fun c => c u) <$> cs)) as Hu. rewrite Ed in Hu. specialize (Hu Hf) as (Hu & _).
      by rewrite <- list_fmap_compose in Hu.
    + intros i Hi. apply deriv_joined; [done|done| |done]. unfold xs. by rewrite <- list_fmap_compose.
Qed.
End Join.
