(* ===== verification/TensorSoftmax.v ===== *)
(** Softmax and log-softmax along a dimension.  The maximum that is subtracted first
    does not change the result. *)
From S2P Require Import Prelude Autograd AutogradProofs AutogradFunctions AutogradReal RealSum AutogradPrograms TensorFunctions TensorSpace TensorSpecs TensorReductions TensorLayout.
From Stdlib Require Import Reals Lra.

#[local] Open Scope R_scope.

Lemma Rsum_minus {B} (l : list B) (f g : B -> R) : Rsum l (fun b => f b - g b) = Rsum l f - Rsum l g.
Proof. induction l as [|b l IH]; [cbn; ring|]. rewrite !Rsum_cons, IH. ring. Qed.

(** The sum along the line of an element. *)
Definition line (d : dim4) (k : Z) (v : dim4 -> R) : dim4 -> R := fun i => alongsum d k v (dset i k 0).

Lemma line_swap d k a b : axis k -> Rsum (grid d) (fun i => a i * line d k b i) = Rsum (grid d) (fun i => b i * line d k a i).
Proof.
  intros Hk. rewrite !(grid_along d k _ Hk).
  assert (E : forall a b, Rsum (grid (dset d k 1)) (alongsum d k (fun i => a i * line d k b i))
                          = Rsum (grid (dset d k 1)) (fun i => alongsum d k a i * alongsum d k b i)).
  { clear a b. intros a b. apply Rsum_ext. intros i Hi%elem_of_indices. 
    change (alongsum d k a i) with (Rsum (zrange 0 (dget d k)) (fun m => a (dset i k m))). rewrite <- Rsum_scal.
    apply Rsum_ext. intros m _. unfold line. rewrite dset_dset by done. do 2 f_equal.
    rewrite inside_dget in Hi. specialize (Hi k Hk). rewrite dget_dset_eq in Hi by done.
    replace 0%Z with (dget i k) by lia. by apply dset_dget. }
  rewrite !E. apply Rsum_ext. intros. ring.
Qed.

Lemma line_ext d k a b i : axis k -> inside d i -> (forall j, inside d j -> a j = b j) -> line d k a i = line d k b i.
Proof.
  intros Hk Hi E. apply Rsum_ext. intros m Hm%elem_of_zrange. apply E. rewrite dset_dset by done.
  rewrite inside_dget in *. intros e He. specialize (Hi e He). rewrite dget_dset by done. destruct (Z.eqb_spec e k); [by subst|done].
Qed.

Lemma line_scale d k a c i : line d k (fun j => a j * c) i = line d k a i * c.
Proof. apply Rsum_scal. Qed.

(** A factor that is one number per line. *)
Lemma line_scale_line d k a c i :
  axis k -> inside d i -> line d k (fun j => a j * c (dset j k 0)) i = line d k a i * c (dset i k 0).
Proof.
  intros Hk Hi. unfold line, alongsum. rewrite <- (Rsum_scal _ _ (c (dset i k 0))). apply Rsum_ext. intros m _. f_equal. f_equal.
  by rewrite !dset_dset.
Qed.

Lemma line_pos d k v i : axis k -> inside d i -> (forall j, 0 < v j) -> 0 < line d k v i.
Proof.
  intros Hk Hi Hv. apply Rsum_pos; [|intros m _; apply Hv]. apply zrange_nonempty.
  rewrite inside_dget in Hi. specialize (Hi k Hk). lia.
Qed.

Lemma deriv_line d k (c : R -> dim4 -> R) v t i :
  axis k -> inside d i -> (forall j, inside d j -> derivable_pt_lim (fun u => c u j) t (v j)) ->
  derivable_pt_lim (fun u => line d k (c u) i) t (line d k v i).
Proof.
  intros Hk Hi Hc. apply deriv_Rsum. intros m Hm%elem_of_zrange. apply Hc. rewrite dset_dset by done.
  rewrite inside_dget in *. intros e He. specialize (Hi e He). rewrite dget_dset by done. destruct (Z.eqb_spec e k); [by subst|done].
Qed.

Lemma along_tiled d k i : axis k -> inside d i -> dmod i (dset d k 1) = dset i k 0.
Proof.
  intros Hk Hi. apply dim4_ext. intros e He. rewrite dget_dset by done.
  assert (Em : dget (dmod i (dset d k 1)) e = (dget i e mod dget (dset d k 1) e)%Z) by (destruct i; by axes).
  rewrite Em, dget_dset by done. rewrite inside_dget in Hi. specialize (Hi e He).
  destruct (Z.eqb_spec e k); [apply Z.mod_1_r|by apply Z.mod_small].
Qed.

Lemma along_dims d k : axis k -> dmul (dset d k 1) (alongDims d k) = d.
Proof. intros Hk. destruct d. unfold dmul, dmap2, alongDims. axes; cbn; f_equal; lia. Qed.

Lemma alongDims_pos d k : axis k -> (1 <= dget d k)%Z -> dall (Z.le 1) (alongDims d k).
Proof. intros Hk Hd. unfold alongDims, dall. axes; cbn in *; lia. Qed.

Section Softmax.
Context {A : Type} `{RT : RealTensors A}.
Abbreviation dirs := (dim4 -> R).

(** One number per line, repeated along the line. *)
Lemma tiled_rep (a : A) d k v :
  axis k -> (1 <= dget d k)%Z -> rep a (dset d k 1) v -> rep (t_tile a (alongDims d k)) d (fun i => v (dset i k 0)).
Proof.
  intros Hk Hd Ha. eapply rep_ext; [apply rt_tile; [exact Ha|by apply alongDims_pos]|by apply along_dims|].
  intros i Hi. cbv beta. by rewrite (along_tiled d).
Qed.

Lemma line_rep (a : A) d k v : axis k -> (1 <= dget d k)%Z -> rep a d v -> rep (t_tile (t_sum a k) (alongDims d k)) d (line d k v).
Proof. intros Hk Hd Ha. apply tiled_rep; [done|done|]. by apply rt_sum. Qed.

Definition soft (d : dim4) (k : Z) (v : dirs) : dirs := fun i => exp (v i) / line d k (fun j => exp (v j)) i.
Definition logsoft (d : dim4) (k : Z) (v : dirs) : dirs := fun i => v i - ln (line d k (fun j => exp (v j)) i).

Lemma line_exp_pos d k v i : axis k -> inside d i -> 0 < line d k (fun j => exp (v j)) i.
Proof. intros Hk Hi. apply line_pos; [done|done|]. intros j. apply exp_pos. Qed.

(** The maxima, whatever they are. *)
Lemma shifted d k v m i :
  axis k -> inside d i -> line d k (fun j => exp (v j - m (dset j k 0))) i = line d k (fun j => exp (v j)) i * / exp (m (dset i k 0)).
Proof.
  intros Hk Hi. rewrite <- (line_scale_line d k (fun j => exp (v j)) (fun j => / exp (m j))) by done.
  apply line_ext; [done|done|]. intros j _. unfold Rminus. by rewrite exp_plus, exp_Ropp.
Qed.

Lemma softmax_array_rep (x : A) d k v :
  axis k -> (1 <= dget d k)%Z -> rep x d v -> rep (softmax_array (K := R) DEFAULT x k) d (soft d k v).
Proof.
  intros Hk Hd Hx. unfold softmax_array, adjustInputType. rewrite (rep_dims _ _ _ Hx).
  assert (Hm : rep (t_maxd x k) (dset d k 1) (obs (t_maxd x k))).
  { rewrite <- (rep_dims _ _ _ Hx), <- (rt_maxd x k Hk). apply rep_obs. }
  pose proof (tiled_rep _ _ _ _ Hk Hd Hm) as Ht.
  assert (He : rep (e_exp (e_sub x (t_tile (t_maxd x k) (alongDims d k)))) d (fun i => exp (v i - obs (t_maxd x k) (dset i k 0)))) by rep.
  eapply rep_ext; [apply rt_div; [exact He|by apply line_rep]|done|]. intros i Hi. cbv beta.
  rewrite shifted by done. unfold soft. pose proof (line_exp_pos d k v i Hk Hi). unfold Rminus. rewrite exp_plus, exp_Ropp.
  pose proof (exp_pos (obs (t_maxd x k) (dset i k 0))). field. lra.
Qed.

Lemma logSoftmax_array_rep (x : A) d k v :
  axis k -> (1 <= dget d k)%Z -> rep x d v -> rep (logSoftmax_array (K := R) DEFAULT x k) d (logsoft d k v).
Proof.
  intros Hk Hd Hx. unfold logSoftmax_array, adjustInputType. rewrite (rep_dims _ _ _ Hx).
  assert (Hm : rep (t_maxd x k) (dset d k 1) (obs (t_maxd x k))).
  { rewrite <- (rep_dims _ _ _ Hx), <- (rt_maxd x k Hk). apply rep_obs. }
  pose proof (tiled_rep _ _ _ _ Hk Hd Hm) as Ht.
  assert (He : rep (e_exp (e_sub x (t_tile (t_maxd x k) (alongDims d k)))) d (fun i => exp (v i - obs (t_maxd x k) (dset i k 0)))) by rep.
  eapply rep_ext; [apply rt_sub; [exact Hx|apply tiled_rep; [done|done|]]|done|].
  { apply rt_add; [apply rt_log, rt_sum; [done|exact He]|exact Hm]. }
  intros i Hi. cbv beta. fold (line d k (fun j => exp (v j - obs (t_maxd x k) (dset j k 0))) i). rewrite shifted by done.
  unfold logsoft. pose proof (line_exp_pos d k v i Hk Hi). pose proof (exp_pos (obs (t_maxd x k) (dset i k 0))).
  change (v i - (ln (line d k (fun j => exp (v j)) i * / exp (obs (t_maxd x k) (dset i k 0))) + obs (t_maxd x k) (dset i k 0))
          = v i - ln (line d k (fun j => exp (v j)) i)).
  rewrite ln_mult by (try apply Rinv_0_lt_compat; lra). rewrite ln_Rinv, ln_exp by lra. ring.
Qed.

Lemma exp_logsoft d k v i : axis k -> inside d i -> exp (logsoft d k v i) = soft d k v i.
Proof.
  intros Hk Hi. pose proof (line_exp_pos d k v i Hk Hi). unfold logsoft, soft, Rminus. by rewrite exp_plus, exp_Ropp, exp_ln.
Qed.

Lemma line_soft d k v T i :
  axis k -> inside d i ->
  line d k (fun j => soft d k v j * T j) i = line d k (fun j => exp (v j) * T j) i / line d k (fun j => exp (v j)) i.
Proof.
  intros Hk Hi. unfold Rdiv.
  rewrite <- (line_scale_line d k (fun j => exp (v j) * T j) (fun p => / alongsum d k (fun j => exp (v j)) p)) by done.
  apply line_ext; [done|done|]. intros j _. unfold soft, Rdiv, line. ring.
Qed.

Definition soft_fits (k : Z) (d : dim4) : Prop := axis k /\ (1 <= dget d k)%Z.

Definition softmax_spec (k : Z) : opspec :=
  unary_spec (fun v h => softmax (K := R) DEFAULT v k h) (fun x => softmax_array (K := R) DEFAULT x k)
    (fun x T i => let s := soft (t_dims x) k (obs x) in s i * (T i - line (t_dims x) k (fun j => s j * T j) i))
    (fun x => soft_fits k (t_dims x)).

Lemma softmax_correct k : correct (softmax_spec k).
Proof.
  apply unary_correct.
  - intros v h [Hk Hd]. set (x := array v h) in *. pose proof (softmax_array_rep x _ k _ Hk Hd (rep_obs x)) as Hy.
    exists false. eexists. split; [reflexivity|]. fold x. intros a c g _ Hl. pose proof (like_rep _ _ _ _ Hy Hl) as Hg.
    eexists. split; [reflexivity|]. apply adjoint_as. unfold dims. fold x. set (s := soft _ _ _) in *.
    assert (Hr : rep (e_mul g (softmax_array (K := R) DEFAULT x k)) (t_dims x) (fun i => obs g i * s i)) by rep.
    eapply adjoint_rep; [reflexivity|apply rt_sub; [exact Hr|apply rt_mul; [exact Hy|by apply line_rep]]|exact Hg|].
    intros T. cbn zeta.
    transitivity (Rsum (grid (t_dims x)) (fun i => obs g i * s i * T i - (s i * T i) * line (t_dims x) k (fun j => obs g j * s j) i)).
    { apply Rsum_ext. intros. ring. }
    rewrite Rsum_minus, line_swap, <- Rsum_minus by done. apply Rsum_ext. intros. ring.
  - intros c t d [Hk Hd] Hc. apply (tderiv_of _ _ (t_dims (c t)) (fun u => soft (t_dims (c t)) k (obs (c u)))).
    + intros u. apply softmax_array_rep; [done|done|]. by apply (tderiv_curve c t d).
    + intros i Hi. set (e := t_dims (c t)) in *. set (L := line e k (fun j => exp (obs (c t) j)) i).
      pose proof (line_exp_pos e k (obs (c t)) i Hk Hi) as HL. fold L in HL.
      eapply deriv_eq.
      * apply (deriv_div (fun u => exp (obs (c u) i)) (fun u => line e k (fun j => exp (obs (c u) j)) i)
                 t (exp (obs (c t) i) * d i) (line e k (fun j => exp (obs (c t) j) * d j) i)).
        -- apply (deriv_comp exp (fun u => obs (c u) i)); [by apply Hc|apply derivable_pt_lim_exp].
        -- apply (deriv_line e k (fun u j => exp (obs (c u) j))); [done|done|]. intros j Hj.
           apply (deriv_comp exp (fun u => obs (c u) j)); [by apply Hc|apply derivable_pt_lim_exp].
        -- fold L. lra.
      * cbn zeta. rewrite line_soft by done. unfold soft. fold L. field. lra.
Qed.


Definition logSoftmax_spec (k : Z) : opspec :=
  unary_spec (fun v h => logSoftmax (K := R) DEFAULT v k h) (fun x => logSoftmax_array (K := R) DEFAULT x k)
    (fun x T i => T i - line (t_dims x) k (fun j => soft (t_dims x) k (obs x) j * T j) i)
    (fun x => soft_fits k (t_dims x)).

Lemma logSoftmax_correct k : correct (logSoftmax_spec k).
Proof.
  apply unary_correct.
  - intros v h [Hk Hd]. set (x := array v h) in *. pose proof (logSoftmax_array_rep x _ k _ Hk Hd (rep_obs x)) as Hy.
    exists false. eexists. split; [reflexivity|]. fold x. intros a c g _ Hl. pose proof (like_rep _ _ _ _ Hy Hl) as Hg.
    eexists. split; [reflexivity|]. apply adjoint_as. unfold dims. fold x. set (s := soft (t_dims x) k (obs x)).
    assert (He : rep (e_exp (logSoftmax_array (K := R) DEFAULT x k)) (t_dims x) s).
    { eapply rep_ext; [apply rt_exp; exact Hy|done|]. intros i Hi. by apply exp_logsoft. }
    eapply adjoint_rep; [reflexivity|apply rt_sub; [exact Hg|apply rt_mul; [exact He|by apply line_rep]]|exact Hg|].
    intros T. transitivity (Rsum (grid (t_dims x)) (fun i => obs g i * T i - (s i * T i) * line (t_dims x) k (obs g) i)).
    { apply Rsum_ext. intros. ring. }
    rewrite Rsum_minus, line_swap, <- Rsum_minus by done. apply Rsum_ext. intros. ring.
  - intros c t d [Hk Hd] Hc. apply (tderiv_of _ _ (t_dims (c t)) (fun u => logsoft (t_dims (c t)) k (obs (c u)))).
    + intros u. apply logSoftmax_array_rep; [done|done|]. by apply (tderiv_curve c t d).
    + intros i Hi. set (e := t_dims (c t)) in *. pose proof (line_exp_pos e k (obs (c t)) i Hk Hi) as HL.
      apply (deriv_sub (fun u => obs (c u) i) (fun u => ln (line e k (fun j => exp (obs (c u) j)) i))); [by apply Hc|].
      eapply deriv_eq.
      * apply (deriv_comp ln (fun u => line e k (fun j => exp (obs (c u) j)) i) t
                 (line e k (fun j => exp (obs (c t) j) * d j) i)); [|by apply derivable_pt_lim_ln].
        apply (deriv_line e k (fun u j => exp (obs (c u) j))); [done|done|]. intros j Hj.
        apply (deriv_comp exp (fun u => obs (c u) j)); [by apply Hc|apply derivable_pt_lim_exp].
      * rewrite line_soft by done. unfold Rdiv. ring.
Qed.
End Softmax.

(** ** Gated linear units: the first half along a dimension, each element times the
    sigmoid of its partner in the second half. *)

#[local] Open Scope R_scope.

(** The dimension has an even positive size. *)
Definition glu_fits (k : Z) (d : dim4) : Prop := axis k /\ exists n, (1 <= n)%Z /\ dget d k = (2 * n)%Z.

Definition half (d : dim4) (k : Z) : Z := Z.quot (dget d k) 2.
Definition lower (d : dim4) (k : Z) : indices := iset spans k (seq 0 (half d k - 1)).
Definition upper (d : dim4) (k : Z) : indices := iset spans k (seq (half d k) (dget d k - 1)).

Lemma half_ok k d n : dget d k = (2 * n)%Z -> half d k = n.
Proof. intros E. unfold half. rewrite E, Z.mul_comm. by apply Z.quot_mul. Qed.

Lemma halves k d :
  glu_fits k d ->
  (ivalid (lower d k) d /\ idims (lower d k) d = dset d k (half d k))
  /\ (ivalid (upper d k) d /\ idims (upper d k) d = dset d k (half d k))
  /\ forall j, inside d j -> iselected (lower d k) d j = negb (iselected (upper d k) d j).
Proof.
  intros (Hk & n & Hn & E). unfold lower, upper. rewrite (half_ok k d n E), E.
  change (seq 0 (n - 1)) with (seq 0 (0 + n - 1)). replace (seq n (2 * n - 1)) with (seq n (n + n - 1)) by (f_equal; lia).
  fold (seg k 0 n) (seg k n n). split_and!; try (apply seg_valid; done || lia); try (by apply seg_dims).
  intros j Hj. rewrite !seg_selected by done. rewrite inside_dget in Hj. specialize (Hj k Hk).
  destruct (Z.leb_spec 0 (dget j k)), (Z.ltb_spec (dget j k) (0 + n)), (Z.leb_spec n (dget j k)), (Z.ltb_spec (dget j k) (n + n)); done || lia.
Qed.

(** A sum by halves, the upper filled with [X] and the lower with [Y]. *)
Lemma sum_halves k d X Y N T :
  glu_fits k d ->
  Rsum (grid d) (fun j => (if iselected (upper d k) d j then X (iback (upper d k) j)
                           else if iselected (lower d k) d j then Y (iback (lower d k) j) else N j) * T j)
  = Rsum (grid (dset d k (half d k))) (fun i => X i * T (iat (upper d k) i) + Y i * T (iat (lower d k) i)).
Proof.
  intros Hf. destruct (halves k d Hf) as ((V1 & D1) & (V2 & D2) & Hs). rewrite Rsum_plus.
  pose proof (sum_part (upper d k) d (fun j => X (iback (upper d k) j) * T j) V2) as Eu.
  pose proof (sum_part (lower d k) d (fun j => Y (iback (lower d k) j) * T j) V1) as El.
  rewrite D2 in Eu. rewrite D1 in El.
  rewrite (Rsum_ext _ _ (fun i => X i * T (iat (upper d k) i))) in Eu by (intros; by rewrite iback_iat).
  rewrite (Rsum_ext _ _ (fun i => Y i * T (iat (lower d k) i))) in El by (intros; by rewrite iback_iat).
  rewrite Eu, El, <- Rsum_plus. apply Rsum_ext. intros j Hj%elem_of_indices. rewrite (Hs j Hj).
  destruct (iselected (upper d k) d j); cbn; ring.
Qed.

Section Gates.
Context {A : Type} `{RT : RealTensors A}.
Abbreviation dirs := (dim4 -> R).
Abbreviation sig x := (/ (1 + exp (- x))).

Definition glu (x : A) (k : Z) : A := let '(f, s) := glu_halves (K := R) x k in e_mul f s.

Lemma halves_rep (x : A) d k v :
  glu_fits k d -> rep x d v ->
  let '(f, s) := glu_halves (K := R) x k in
  rep f (dset d k (half d k)) (fun i => v (iat (lower d k) i)) /\ rep s (dset d k (half d k)) (fun i => sig (v (iat (upper d k) i))).
Proof.
  intros Hf Hx. destruct (halves k d Hf) as ((V1 & D1) & (V2 & D2) & _). unfold glu_halves. rewrite (rep_dims _ _ _ Hx).
  fold (half d k) (lower d k) (upper d k). rewrite <- D1 at 1. rewrite <- D2 at 1. split; [by apply rt_index|].
  eapply rep_ext; [apply rt_sigmoid, rt_index; [exact V2|exact Hx]|done|done].
Qed.

Lemma glu_rep (x : A) d k v :
  glu_fits k d -> rep x d v -> rep (glu x k) (dset d k (half d k)) (fun i => v (iat (lower d k) i) * sig (v (iat (upper d k) i))).
Proof. intros Hf Hx. pose proof (halves_rep x d k v Hf Hx). unfold glu. destruct (glu_halves x k) as [f s], H3. by apply rt_mul. Qed.

Definition glu_jvp (k : Z) (x : A) (T : dirs) : dirs := fun i =>
  let d := t_dims x in
  T (iat (lower d k) i) * sig (obs x (iat (upper d k) i))
  + obs x (iat (lower d k) i) * (sig (obs x (iat (upper d k) i)) * (1 - sig (obs x (iat (upper d k) i))) * T (iat (upper d k) i)).

Definition glu_spec (k : Z) : opspec :=
  unary_spec (fun v h => gatedlinearunit (K := R) v k h) (fun x => glu x k) (glu_jvp k) (fun x => glu_fits k (t_dims x)).

Lemma glu_correct k : correct (glu_spec k).
Proof.
  apply unary_correct.
  - intros v h Hf. set (x := array v h) in *. pose proof (glu_rep x _ k _ Hf (rep_obs x)) as Hy. unfold glu in *.
    pose proof (halves_rep x _ k _ Hf (rep_obs x)) as Hh. destruct (halves k _ Hf) as ((V1 & D1) & (V2 & D2) & Hs).
    unfold gatedlinearunit, dims. fold x. destruct (glu_halves x k) as [f s]. destruct Hh as [Hlo Hup].
    exists false. eexists. split.
    { assert ((Z.rem (dget (t_dims x) k) 2 =? 1)%Z = false) as ->; [|reflexivity].
      destruct Hf as (_ & n & Hn & E). by rewrite E, Z.mul_comm, Z.rem_mul by lia. }
    intros a c g _ Hl. pose proof (like_rep _ _ _ _ Hy Hl) as Hg. eexists. split; [reflexivity|].
    fold (half (t_dims x) k) (lower (t_dims x) k) (upper (t_dims x) k).
    assert (Hn : rep (t_new (t_dims x) (type v h)) (t_dims x) (obs (t_new (t_dims x) (type v h)))).
    { rewrite <- (rt_new (t_dims x) (type v h)) at 2 by apply rt_dims. apply rep_obs. }
    eapply adjoint_rep; [reflexivity|eapply rt_assign; [exact V2|eapply rt_assign; [exact V1|exact Hn|]|]|exact Hg|].
    + rewrite D1. apply rt_mul; [exact Hup|exact Hg].
    + rewrite D2. apply rt_mul; [|exact Hg]. apply rt_mul; [|exact Hlo]. apply rt_mul; [exact Hup|].
      apply rt_sub; [|exact Hup]. by eapply rt_const_like.
    + intros T. set (sg := fun i => sig (obs x (iat (upper (t_dims x) k) i))).
      etransitivity; [exact (sum_halves k _ (fun i => sg i * (k_of (A := A) 1 - sg i) * obs x (iat (lower (t_dims x) k) i) * obs g i)
                               (fun i => sg i * obs g i) _ T Hf)|]. unfold sg.
      apply Rsum_ext. intros i _. unfold glu_jvp. cbn. rewrite rt_k_of. ring.
  - intros c t d Hf Hc. set (e := t_dims (c t)) in *.
    apply (tderiv_of _ _ (dset e k (half e k)) (fun u i => obs (c u) (iat (lower e k) i) * sig (obs (c u) (iat (upper e k) i)))).
    + intros u. apply glu_rep; [done|]. by apply (tderiv_curve c t d).
    + destruct (halves k _ Hf) as ((V1 & D1) & (V2 & D2) & _). intros i Hi.
      apply (deriv_mul (fun u => obs (c u) (iat (lower e k) i)) (fun u => sig (obs (c u) (iat (upper e k) i)))).
      * apply Hc. apply iat_inside; [done|]. fold e. by rewrite D1.
      * apply (deriv_comp (fun y => sig y) (fun u => obs (c u) (iat (upper e k) i))); [|apply deriv_sigmoid].
        apply Hc. apply iat_inside; [done|]. fold e. by rewrite D2.
Qed.
End Gates.
