(* ===== verification/TensorProducts.v ===== *)
(** Products of matrices, the linear layer and the embedding. *)
From S2P Require Import Prelude Autograd AutogradProofs AutogradFunctions AutogradReal RealSum AutogradPrograms TensorFunctions TensorSpace TensorSpecs TensorReductions TensorLayout.
From Stdlib Require Import Reals Lra.

#[local] Open Scope R_scope.

(** [K] is the adjoint of [J] from elements on [d] to elements on [e]. *)
Definition adj (d e : dim4) (K J : (dim4 -> R) -> dim4 -> R) : Prop :=
  forall w T, Rsum (grid d) (fun i => K w i * T i) = Rsum (grid e) (fun j => w j * J T j).

Lemma adj_compose d e f K J K' J' : adj d e K J -> adj e f K' J' -> adj d f (fun w => K (K' w)) (fun T => J' (J T)).
Proof. intros E E' w T. by rewrite E, E'. Qed.

Lemma adj_reshape d e :
  dall (Z.le 0) d -> dall (Z.le 0) e -> elements d = elements e ->
  adj d e (fun w i => w (unlin e (lin d i))) (fun T j => T (unlin d (lin e j))).
Proof.
  intros Hd He E w T.
  transitivity (Rsum (grid d) (fun i => (fun j => w j * T (unlin d (lin e j))) (unlin e (lin d i)))).
  - apply Rsum_ext. intros i Hi%elem_of_indices. pose proof (lin_bounds d i Hi) as Hl. rewrite E in Hl. f_equal. f_equal.
    destruct (lin_unlin e _ He Hl) as [_ ->]. by rewrite unlin_lin.
  - apply (Rsum_bij (grid d) (grid e) (fun i => unlin e (lin d i)) (fun j => unlin d (lin e j))
             (fun j => w j * T (unlin d (lin e j)))); try apply NoDup_grid.
    + intros i Hi%elem_of_indices. pose proof (lin_bounds d i Hi) as Hl. rewrite E in Hl.
      destruct (lin_unlin e _ He Hl) as [Hin ->]. by rewrite elem_of_indices, unlin_lin.
    + intros j Hj%elem_of_indices. pose proof (lin_bounds e j Hj) as Hl. rewrite <- E in Hl.
      destruct (lin_unlin d _ Hd Hl) as [Hin ->]. by rewrite elem_of_indices, unlin_lin.
Qed.

(** ** Sums over three indices *)

Lemma grid_sum m n p q (f : dim4 -> R) :
  Rsum (grid (D4 m n p q)) f
  = Rsum (zrange 0 q) (fun l => Rsum (zrange 0 p) (fun z => Rsum (zrange 0 n) (fun y => Rsum (zrange 0 m) (fun x => f (D4 x y z l))))).
Proof.
  unfold grid. cbn [dim0 dim1 dim2 dim3]. rewrite Rsum_flat_map. apply Rsum_ext. intros l _.
  rewrite Rsum_flat_map. apply Rsum_ext. intros z _. rewrite Rsum_flat_map. apply Rsum_ext. intros y _. by rewrite Rsum_map.
Qed.

(** Per matrix, [adj] is about the sums over the first two indices. *)
Lemma adj_matrices m n m' n' p q K J :
  (forall w T l z, Rsum (zrange 0 n) (fun y => Rsum (zrange 0 m) (fun x => K w (D4 x y z l) * T (D4 x y z l)))
                   = Rsum (zrange 0 n') (fun y => Rsum (zrange 0 m') (fun x => w (D4 x y z l) * J T (D4 x y z l)))) ->
  adj (D4 m n p q) (D4 m' n' p q) K J.
Proof. intros E w T. rewrite !grid_sum. apply Rsum_ext. intros l _. apply Rsum_ext. intros z _. apply E. Qed.

Section Triple.
Context (X Y J : list Z).

Lemma tri_inner (f : Z -> Z -> Z -> R) :
  Rsum Y (fun y => Rsum X (fun x => Rsum J (f y x))) = Rsum Y (fun y => Rsum J (fun j => Rsum X (fun x => f y x j))).
Proof. apply Rsum_ext. intros y _. apply Rsum_swap. Qed.

Lemma tri_left (f : Z -> Z -> Z -> R) :
  Rsum Y (fun y => Rsum X (fun x => Rsum J (f y x))) = Rsum X (fun x => Rsum J (fun j => Rsum Y (fun y => f y x j))).
Proof. rewrite Rsum_swap. apply Rsum_ext. intros x _. apply Rsum_swap. Qed.

(** A product with the sum over [J] inside, on one side and on the other. *)
Lemma expand_left (a b : Z -> Z -> Z -> R) (t : Z -> Z -> R) :
  Rsum Y (fun y => Rsum X (fun x => Rsum J (fun j => a y x j * b y x j) * t x y))
  = Rsum Y (fun y => Rsum X (fun x => Rsum J (fun j => a y x j * b y x j * t x y))).
Proof. apply Rsum_ext. intros y _. apply Rsum_ext. intros x _. symmetry. apply (Rsum_scal J (fun j => a y x j * b y x j)). Qed.

Lemma expand_right (a b : Z -> Z -> Z -> R) (t : Z -> Z -> R) :
  Rsum Y (fun y => Rsum X (fun x => t x y * Rsum J (fun j => a y x j * b y x j)))
  = Rsum Y (fun y => Rsum X (fun x => Rsum J (fun j => a y x j * b y x j * t x y))).
Proof. rewrite <- expand_left. apply Rsum_ext. intros y _. apply Rsum_ext. intros x _. apply Rmult_comm. Qed.
End Triple.

Lemma tri_ext (X Y J : list Z) (f g : Z -> Z -> Z -> R) :
  (forall y x j, f y x j = g y x j) ->
  Rsum Y (fun y => Rsum X (fun x => Rsum J (f y x))) = Rsum Y (fun y => Rsum X (fun x => Rsum J (g y x))).
Proof. intros E. apply Rsum_ext. intros y _. apply Rsum_ext. intros x _. apply Rsum_ext. intros j _. apply E. Qed.

(** The element of the product of [v] and [w] with [n] terms. *)
Definition mm (n : Z) (v w : dim4 -> R) : dim4 -> R := fun i =>
  Rsum (zrange 0 n) (fun j => v (D4 (dim0 i) j (dim2 i) (dim3 i)) * w (D4 j (dim1 i) (dim2 i) (dim3 i))).
Definition mmTN (n : Z) (v w : dim4 -> R) : dim4 -> R := fun i =>
  Rsum (zrange 0 n) (fun j => v (D4 j (dim0 i) (dim2 i) (dim3 i)) * w (D4 j (dim1 i) (dim2 i) (dim3 i))).
Definition mmNT (n : Z) (v w : dim4 -> R) : dim4 -> R := fun i =>
  Rsum (zrange 0 n) (fun j => v (D4 (dim0 i) j (dim2 i) (dim3 i)) * w (D4 (dim1 i) j (dim2 i) (dim3 i))).

Ltac contract tri :=
  intros; apply adj_matrices; intros; unfold mm, mmTN, mmNT; cbn [dim0 dim1 dim2 dim3];
  rewrite expand_left, expand_right; tri; apply tri_ext; intros; ring.

Lemma adj_mm0 m n k p q y : adj (D4 m n p q) (D4 m k p q) (fun w => mmNT k w y) (fun T => mm n T y).
Proof. contract ltac:(rewrite tri_left, Rsum_swap). Qed.
Lemma adj_mm1 m n k p q x : adj (D4 n k p q) (D4 m k p q) (fun w => mmTN m x w) (fun T => mm n x T).
Proof. contract ltac:(rewrite tri_inner). Qed.
Lemma adj_mmTN0 m n k p q y : adj (D4 n m p q) (D4 m k p q) (fun w => mmNT k y w) (fun T => mmTN n T y).
Proof. contract ltac:(rewrite tri_left, tri_left). Qed.
Lemma adj_mmTN1 m n k p q x : adj (D4 n k p q) (D4 m k p q) (fun w => mm m x w) (fun T => mmTN n x T).
Proof. contract ltac:(rewrite tri_inner). Qed.
Lemma adj_mmNT0 m n k p q y : adj (D4 m n p q) (D4 m k p q) (fun w => mm k w y) (fun T => mmNT n T y).
Proof. contract ltac:(rewrite tri_left, Rsum_swap). Qed.
Lemma adj_mmNT1 m n k p q x : adj (D4 k n p q) (D4 m k p q) (fun w => mmTN m w x) (fun T => mmNT n x T).
Proof. contract ltac:(rewrite tri_left). Qed.

Section Products.
Context {A : Type} `{RT : RealTensors A}.
Abbreviation dirs := (dim4 -> R).
Abbreviation GradFunc := (Autograd.GradFunc (A := A)).

(** A function linear in each operand: [B] on elements, with [K0] and [K1] the adjoints for
    a gradient and the elements of the other operand. *)
Lemma bilinear_correct (F : A -> A -> A) (grad : GradFunc) (e : dim4 -> dim4 -> dim4) (B K0 K1 : dim4 -> dim4 -> dirs -> dirs -> dirs)
    (G0 G1 : A -> A -> A -> A) (P : dim4 -> dim4 -> Prop) :
  (forall x y g c0 c1, grad [(x, c0); (y, c1)] g = Ok (both c0 c1 (G0 x y g) (G1 x y g))) ->
  (forall d d' v, vnull (B d d' vzero v) /\ vnull (B d d' v vzero)) ->
  (forall x y d d' v w, P d d' -> rep x d v -> rep y d' w -> rep (F x y) (e d d') (B d d' v w)) ->
  (forall x y g d d' v w u, P d d' -> rep x d v -> rep y d' w -> rep g (e d d') u -> rep (G0 x y g) d (K0 d d' w u)) ->
  (forall x y g d d' v w u, P d d' -> rep x d v -> rep y d' w -> rep g (e d d') u -> rep (G1 x y g) d' (K1 d d' v u)) ->
  (forall d d' w, P d d' -> adj d (e d d') (K0 d d' w) (fun T => B d d' T w)) ->
  (forall d d' v, P d d' -> adj d' (e d d') (K1 d d' v) (B d d' v)) ->
  (forall d d' (c c' : R -> dirs) v w t, P d d' ->
     (forall i, inside d i -> derivable_pt_lim (fun s => c s i) t (v i)) ->
     (forall i, inside d' i -> derivable_pt_lim (fun s => c' s i) t (w i)) ->
     forall i, inside (e d d') i -> derivable_pt_lim (fun s => B d d' (c s) (c' s) i) t (B d d' v (c' t) i + B d d' (c t) w i)) ->
  correct (binary_spec (fun v w h => binary F v w true true grad h) F
    (fun x y T U i => B (t_dims x) (t_dims y) T (obs y) i + B (t_dims x) (t_dims y) (obs x) U i)
    (fun x y => P (t_dims x) (t_dims y)) free).
Proof.
  intros Hg Hz HF H0' H1' HK0 HK1 HD.
  apply (binary_correct _ _ _ (fun x y T => B (t_dims x) (t_dims y) T (obs y)) (fun x y => B (t_dims x) (t_dims y) (obs x))).
  - intros v w h Hp _ _. set (x := array v h) in *. set (y := array w h) in *. exists true, true, grad. split.
    { unfold binary. by rewrite checked_rt. }
    intros a b g Ha Hb Hl. rewrite (Ha eq_refl), (Hb eq_refl), Hg.
    pose proof (HF x y _ _ _ _ Hp (rep_obs x) (rep_obs y)) as Hy. pose proof (like_rep _ _ _ _ Hy Hl) as Hg'.
    assert (A0 : adjoint x (fun T => B (t_dims x) (t_dims y) T (obs y)) g (G0 x y g)).
    { eapply adjoint_rep; [reflexivity|by eapply H0', Hg'; [|apply rep_obs..]|exact Hg'|]. intros T. by apply HK0. }
    assert (A1 : adjoint y (B (t_dims x) (t_dims y) (obs x)) g (G1 x y g)).
    { eapply adjoint_rep; [reflexivity|by eapply H1', Hg'; [|apply rep_obs..]|exact Hg'|]. intros T. by apply HK1. }
    eexists. split; [reflexivity|]. apply answers_both; try done; intros _; [apply (Hz _ _ (obs y))|apply (Hz _ _ (obs x))].
  - done.
  - intros c c' t d d' Hp Hc Hc' _ _. apply (tderiv_of _ _ (e (t_dims (c t)) (t_dims (c' t))) (fun u => B (t_dims (c t)) (t_dims (c' t)) (obs (c u)) (obs (c' u)))).
    + intros u. apply HF; [done|by apply (tderiv_curve c t d)|by apply (tderiv_curve c' t d')].
    + apply (HD _ _ (fun u => obs (c u)) (fun u => obs (c' u))); [done|apply Hc|apply Hc'].
Qed.

Lemma deriv_sum_mul (l : list Z) (f g : Z -> R -> R) f' g' t :
  (forall j, j ∈ l -> derivable_pt_lim (f j) t (f' j) /\ derivable_pt_lim (g j) t (g' j)) ->
  derivable_pt_lim (fun s => Rsum l (fun j => f j s * g j s)) t (Rsum l (fun j => f' j * g j t) + Rsum l (fun j => f j t * g' j)).
Proof.
  intros Hf. rewrite <- Rsum_plus. apply deriv_Rsum. intros j Hj. destruct (Hf j Hj). by apply (deriv_mul (f j) (g j)).
Qed.
(** The operation [f] with the gradient function [grad] and the product [B] of the elements. *)
Definition product_spec (f : A -> A -> A) (grad : GradFunc) (B : dim4 -> dim4 -> dirs -> dirs -> dirs) (P : dim4 -> dim4 -> Prop) : opspec :=
  binary_spec (fun v w h => binary f v w true true grad h) f
    (fun x y T U i => B (t_dims x) (t_dims y) T (obs y) i + B (t_dims x) (t_dims y) (obs x) U i)
    (fun x y => P (t_dims x) (t_dims y)) free.

Definition same_batch (d e : dim4) : Prop := dim2 d = dim2 e /\ dim3 d = dim3 e.
Definition fitsNN (d e : dim4) : Prop := dim1 d = dim0 e /\ same_batch d e.
Definition fitsTN (d e : dim4) : Prop := dim0 d = dim0 e /\ same_batch d e.
Definition fitsNT (d e : dim4) : Prop := dim1 d = dim1 e /\ same_batch d e.
Definition dimsNN (d e : dim4) : dim4 := D4 (dim0 d) (dim1 e) (dim2 d) (dim3 d).
Definition dimsTN (d e : dim4) : dim4 := D4 (dim1 d) (dim1 e) (dim2 d) (dim3 d).
Definition dimsNT (d e : dim4) : dim4 := D4 (dim0 d) (dim0 e) (dim2 d) (dim3 d).

Definition matmul_spec : opspec := product_spec t_matmul (grad_matmul (K := R)) (fun d _ => mm (dim1 d)) fitsNN.
Definition matmulTN_spec : opspec := product_spec t_matmulTN (grad_matmulTN (K := R)) (fun d _ => mmTN (dim0 d)) fitsTN.
Definition matmulNT_spec : opspec := product_spec t_matmulNT (grad_matmulNT (K := R)) (fun d _ => mmNT (dim1 d)) fitsNT.

(** Where the operands fit, [d] and [e] are named by five numbers. *)
Ltac fits := unfold fitsNN, fitsTN, fitsNT, same_batch, dimsNN, dimsTN, dimsNT in *;
  repeat match goal with d : dim4 |- _ => destruct d end; cbn [dim0 dim1 dim2 dim3] in *; destruct_and?; subst.

Ltac null_product := intros; split; intros i; apply Rsum_all_zero; intros j _; cbn; ring.

Ltac deriv_product :=
  intros d d' c c' v w t Hp Hc Hc' i Hi; fits; unfold inside in *; cbn [dim0 dim1 dim2 dim3] in *; unfold mm, mmTN, mmNT;
  cbn [dim0 dim1 dim2 dim3];
  lazymatch goal with
  | |- derivable_pt_lim (fun s => Rsum ?l (fun j => c s (@?p j) * c' s (@?q j))) _ _ =>
      apply (deriv_sum_mul l (fun j s => c s (p j)) (fun j s => c' s (q j)) (fun j => v (p j)) (fun j => w (q j)))
  end;
  intros j Hj%elem_of_zrange; split; [apply Hc|apply Hc']; cbn; lia.

Ltac grad_product :=
  intros x y g [] []; unfold grad_matmul, grad_matmulTN, grad_matmulNT, vmatmul, vmatmulTN, vmatmulNT, giveIf, give, arr, calc;
  cbn; rewrite ?checked_rt; reflexivity.

Lemma matmul_correct : correct matmul_spec.
Proof.
  apply (bilinear_correct t_matmul grad_matmul dimsNN (fun d _ => mm (dim1 d)) (fun _ e y u => mmNT (dim1 e) u y)
           (fun d _ x u => mmTN (dim0 d) x u) (fun x y g => t_matmulNT g y) (fun x y g => t_matmulTN x g) fitsNN).
  - grad_product.
  - null_product.
  - intros x y d d' v w Hp Hx Hy. fits. by apply rt_matmul.
  - intros x y g d d' v w u Hp Hx Hy Hg. fits. by eapply rt_matmulNT.
  - intros x y g d d' v w u Hp Hx Hy Hg. fits. by eapply rt_matmulTN.
  - intros d d' w Hp. fits. apply adj_mm0.
  - intros d d' v Hp. fits. apply adj_mm1.
  - deriv_product.
Qed.

Lemma matmulTN_correct : correct matmulTN_spec.
Proof.
  apply (bilinear_correct t_matmulTN grad_matmulTN dimsTN (fun d _ => mmTN (dim0 d)) (fun _ e y u => mmNT (dim1 e) y u)
           (fun d _ x u => mm (dim1 d) x u) (fun x y g => t_matmulNT y g) (fun x y g => t_matmul x g) fitsTN).
  - grad_product.
  - null_product.
  - intros x y d d' v w Hp Hx Hy. fits. by apply rt_matmulTN.
  - intros x y g d d' v w u Hp Hx Hy Hg. fits. by eapply rt_matmulNT.
  - intros x y g d d' v w u Hp Hx Hy Hg. fits. by eapply rt_matmul.
  - intros d d' w Hp. fits. apply adj_mmTN0.
  - intros d d' v Hp. fits. apply adj_mmTN1.
  - deriv_product.
Qed.

Lemma matmulNT_correct : correct matmulNT_spec.
Proof.
  apply (bilinear_correct t_matmulNT grad_matmulNT dimsNT (fun d _ => mmNT (dim1 d)) (fun _ e y u => mm (dim0 e) u y)
           (fun d _ x u => mmTN (dim0 d) u x) (fun x y g => t_matmul g y) (fun x y g => t_matmulTN g x) fitsNT).
  - grad_product.
  - null_product.
  - intros x y d d' v w Hp Hx Hy. fits. by apply rt_matmulNT.
  - intros x y g d d' v w u Hp Hx Hy Hg. fits. by eapply rt_matmul.
  - intros x y g d d' v w u Hp Hx Hy Hg. fits. by eapply rt_matmulTN.
  - intros d d' w Hp. fits. apply adj_mmNT0.
  - intros d d' v Hp. fits. apply adj_mmNT1.
  - deriv_product.
Qed.
End Products.

(** ** The linear layer: a product with the input folded to two dimensions, plus a
    bias for every column. *)

#[local] Open Scope R_scope.

(** [d] folded to columns of [n] elements. *)
Definition frames (d : dim4) : Z := dim1 d * dim2 d * dim3 d.
Definition folded (n : Z) (d : dim4) : dim4 := D4 n (frames d) 1 1.
Definition reshaped (d e : dim4) (v : dim4 -> R) : dim4 -> R := fun i => v (unlin d (lin e i)).

(** Input [d], weight [w], bias [b]. *)
Definition linear_fits (d w b : dim4) : Prop :=
  dall (Z.le 1) d /\ (1 <= dim0 w)%Z /\ w = D4 (dim0 w) (dim0 d) 1 1 /\ b = D4 (dim0 w) 1 1 1.

Definition linDims (d w : dim4) : dim4 := dset d 0 (dim0 w).

(** The product of the weight [m] with the input [v]. *)
Definition linmul (d w : dim4) (m v : dim4 -> R) : dim4 -> R :=
  reshaped (folded (dim0 w) d) (linDims d w) (mm (dim0 d) m (reshaped d (folded (dim0 d) d) v)).

Lemma elements_folded n d : elements (folded n d) = elements (dset d 0 n).
Proof. unfold folded, frames, elements. destruct d. cbn. ring. Qed.

Lemma elements_self d : elements (folded (dim0 d) d) = elements d.
Proof. rewrite elements_folded. by destruct d. Qed.

Lemma folded_pos n d : (1 <= n)%Z -> dall (Z.le 1) d -> dall (Z.le 1) (folded n d).
Proof.
  intros Hn (_ & ? & ? & ?). unfold folded, frames, dall. cbn. assert (1 <= dim1 d * dim2 d)%Z by nia. nia.
Qed.

Lemma linDims_pos d w b : linear_fits d w b -> dall (Z.le 1) (linDims d w).
Proof. intros ((_ & ? & ? & ?) & Hm & _). unfold linDims, dall. destruct d. by cbn. Qed.

Lemma adj_reshaped d e :
  dall (Z.le 1) d -> dall (Z.le 1) e -> elements d = elements e -> adj d e (reshaped e d) (reshaped d e).
Proof. intros Hd He E. apply adj_reshape; [by apply (dall_weaken 0 1)..|done]. Qed.

Lemma adj_linear_input d w b m :
  linear_fits d w b ->
  adj d (linDims d w) (fun u => reshaped (folded (dim0 d) d) d (mmTN (dim0 w) m (reshaped (linDims d w) (folded (dim0 w) d) u)))
    (linmul d w m).
Proof.
  intros Hf. pose proof (linDims_pos d w b Hf) as Hl. destruct Hf as (Hd & Hm & _). pose proof Hd as (Hn & _).
  apply (adj_compose d (folded (dim0 d) d) (linDims d w) _ (reshaped d (folded (dim0 d) d))
           (fun u => mmTN (dim0 w) m (reshaped (linDims d w) (folded (dim0 w) d) u))
           (fun T => reshaped (folded (dim0 w) d) (linDims d w) (mm (dim0 d) m T))).
  - apply adj_reshaped; [done|by apply folded_pos|symmetry; apply elements_self].
  - apply (adj_compose _ (folded (dim0 w) d) _ (mmTN (dim0 w) m) (mm (dim0 d) m)); [apply adj_mm1|].
    apply adj_reshaped; [by apply folded_pos|done|apply elements_folded].
Qed.

Lemma adj_linear_weight d w b v :
  linear_fits d w b ->
  adj w (linDims d w) (fun u => mmNT (frames d) (reshaped (linDims d w) (folded (dim0 w) d) u) (reshaped d (folded (dim0 d) d) v))
    (fun T => linmul d w T v).
Proof.
  intros Hf. pose proof (linDims_pos d w b Hf) as Hl. destruct Hf as (Hd & Hm & Ew & _). rewrite Ew at 1.
  apply (adj_compose _ (folded (dim0 w) d) _ (fun u => mmNT (frames d) u (reshaped d (folded (dim0 d) d) v))
           (fun T => mm (dim0 d) T (reshaped d (folded (dim0 d) d) v))); [apply adj_mm0|].
  apply adj_reshaped; [by apply folded_pos|done|apply elements_folded].
Qed.

Lemma linear_broadcasts d w b : linear_fits d w b -> broadcasts b (linDims d w).
Proof.
  intros (Hd & Hm & Ew & ->) k Hk. unfold linDims. rewrite Ew. destruct d. unfold dall in Hd. cbn in *. axes; cbn; lia.
Qed.

Section Linear.
Context {A : Type} `{RT : RealTensors A}.
Abbreviation dirs := (dim4 -> R).

Lemma to2d_ok d : dall (Z.le 1) d -> to2d d = Ok (folded (dim0 d) d).
Proof.
  intros (Hn & _). unfold to2d. destruct (Z.eqb_spec (dim0 d) 0); [lia|].
  unfold folded, elements, frames. replace (dim0 d * dim1 d * dim2 d * dim3 d)%Z with (dim1 d * dim2 d * dim3 d * dim0 d)%Z by ring.
  by rewrite Z.quot_mul.
Qed.

Lemma reshaped_rep (a : A) d e v :
  rep a d v -> dall (Z.le 1) e -> elements e = elements d -> rep (t_moddims a e) e (reshaped d e v).
Proof. intros Ha He E. apply rt_moddims; [done|by apply (dall_weaken 0 1)|done]. Qed.

Lemma linear_array_rep (x wt bs : A) d w b v m u :
  linear_fits d w b -> rep x d v -> rep wt w m -> rep bs b u ->
  exists y, linear_array x wt bs = Ok y /\ rep y (linDims d w) (fun i => linmul d w m v i + u (dmod i b)).
Proof.
  intros Hf Hx Hw Hb. pose proof (linDims_pos d w b Hf) as Hl. pose proof Hf as (Hd & Hm & Ew & Eb). pose proof Hd as (Hn & _).
  unfold linear_array. rewrite (rep_dims _ _ _ Hx), (rep_dims _ _ _ Hw), to2d_ok by done. cbn [mbind result_bind].
  assert (Hy : rep (t_moddims (t_matmul wt (t_moddims x (folded (dim0 d) d))) (linDims d w)) (linDims d w) (linmul d w m v)).
  { apply reshaped_rep; [|done|symmetry; apply elements_folded]. rewrite Ew in Hw. apply (rt_matmul _ _ _ _ _ _ _ _ _ Hw).
    apply reshaped_rep; [done|by apply folded_pos|]. apply elements_self. }
  assert (Hh : hasElements bs = true).
  { unfold hasElements. rewrite (rep_dims _ _ _ Hb), Eb. apply Z.ltb_lt. unfold elements. cbn. lia. }
  eexists. split; [reflexivity|]. rewrite Hh. fold (linDims d w). rewrite (rep_dims _ _ _ Hy). apply rt_add; [done|].
  eapply rep_ext; [apply rt_tile; [exact Hb|]|..|done].
  - destruct Hl as (_ & ? & ? & ?). unfold dall. destruct d. cbn in *. lia.
  - rewrite Eb. unfold linDims, dmul, dmap2. destruct d. cbn. f_equal; lia.
Qed.

Definition linear_spec : opspec :=
  ternary_spec (linear3 (K := R) DEFAULT) (fun x w b => val (linear_array x w b))
    (fun x w b T U V i => linmul (t_dims x) (t_dims w) (obs w) T i + linmul (t_dims x) (t_dims w) U (obs x) i + V (dmod i (t_dims b)))
    (fun x w b => linear_fits (t_dims x) (t_dims w) (t_dims b)) free.

#[local] Arguments vsumAs : simpl never.
#[local] Arguments vmoddims : simpl never.
#[local] Arguments checked : simpl never.

(** What the gradient function of the layer computes for [g]. *)
Lemma grad_linear_ok (x wt bs g : A) d w b v m u :
  linear_fits d w b -> rep x d v -> rep wt w m -> rep bs b u -> rep g (linDims d w) (obs g) ->
  exists Gx Gw Gb,
    (forall c0 c1 c2, grad_linear (K := R) DEFAULT true [(x, c0); (wt, c1); (bs, c2)] g
       = Ok ((if c2 then [(2%nat, Gb)] else []) ++ (if c0 then [(0%nat, Gx)] else []) ++ (if c1 then [(1%nat, Gw)] else [])))
    /\ adjoint x (linmul d w m) g Gx /\ adjoint wt (fun T => linmul d w T v) g Gw /\ adjoint bs (fun T i => T (dmod i b)) g Gb.
Proof.
  intros Hf Hx Hw Hb Hg. pose proof (linDims_pos d w b Hf) as Hl. pose proof Hf as (Hd & Hm & Ew & Eb). pose proof Hd as (Hn & _).
  assert (Eq : Z.quot (elements d) (dim0 d) = frames d).
  { unfold elements, frames. replace (dim0 d * dim1 d * dim2 d * dim3 d)%Z with (dim1 d * dim2 d * dim3 d * dim0 d)%Z by ring.
    apply Z.quot_mul. lia. }
  destruct (adjoint_tile bs g b (linDims d w) _ _ Hb Hg (linear_broadcasts d w b Hf)) as (Gb & EGb & HGb).
  destruct (vmoddims_rep g (folded (dim0 w) d) _ _ Hg) as (g2 & Eg2 & Hg2); [by apply folded_pos|apply elements_folded|].
  destruct (vmoddims_rep x (folded (dim0 d) d) _ _ Hx) as (x2 & Ex2 & Hx2); [by apply folded_pos|apply elements_self|].
  assert (Hw' : rep wt (D4 (dim0 w) (dim0 d) 1 1) m) by (by rewrite <- Ew).
  destruct (vmoddims_rep (t_matmulTN wt g2) d _ _ (rt_matmulTN _ _ _ _ _ _ _ _ _ Hw' Hg2)) as (Gx & EGx & HGx);
    [done|symmetry; apply (elements_self d)|].
  exists Gx, (t_matmulNT g2 x2), Gb. split; [|split_and!].
  - intros c0 c1 c2. unfold grad_linear, arr, calc. cbn [lookup list_lookup default from_option fst snd].
    cbn. rewrite (rep_dims _ _ _ Hx), (rep_dims _ _ _ Hw), (rep_dims _ _ _ Hb), Eq.
    destruct (Z.eqb_spec (dim0 d) 0); [lia|]. assert (E1 : dim1 w = dim0 d) by (by rewrite Ew).
    unfold folded in Eg2, Ex2. rewrite EGb, Eg2, E1, Ex2. unfold vmatmulTN, vmatmulNT. cbn. rewrite !checked_rt. cbn. rewrite EGx.
    by destruct c0, c1, c2.
  - eapply adjoint_rep; [by eapply rep_dims|exact HGx|exact Hg|]. intros T.
    exact (adj_linear_input d w b m Hf (obs g) T).
  - eapply adjoint_rep; [exact (rep_dims _ _ _ Hw)| |exact Hg|intros T; exact (adj_linear_weight d w b v Hf (obs g) T)].
    eapply rep_ext; [by eapply rt_matmulNT|done|done].
  - exact HGb.
Qed.

Lemma linmul_null d w v : vnull (linmul d w v vzero) /\ vnull (linmul d w vzero v).
Proof. split; intros i; apply Rsum_all_zero; intros j _; unfold reshaped, vzero; cbn; ring. Qed.

Lemma deriv_linmul d w b (c m : R -> dirs) v n t :
  linear_fits d w b ->
  (forall i, inside d i -> derivable_pt_lim (fun s => c s i) t (v i)) ->
  (forall i, inside w i -> derivable_pt_lim (fun s => m s i) t (n i)) ->
  forall i, inside (linDims d w) i -> derivable_pt_lim (fun s => linmul d w (m s) (c s) i) t (linmul d w (m t) v i + linmul d w n (c t) i).
Proof.
  intros Hf Hc Hm i Hi. pose proof (linDims_pos d w b Hf) as Hl. destruct Hf as (Hd & Hmw & Ew & _). pose proof Hd as (Hn & _).
  unfold linmul, reshaped, mm. pose proof (lin_bounds _ i Hi) as Hb.
  change (elements (linDims d w)) with (elements (dset d 0 (dim0 w))) in Hb. rewrite <- (elements_folded (dim0 w) d) in Hb.
  destruct (lin_unlin (folded (dim0 w) d) _ (dall_weaken 0 1 _ ltac:(lia) (folded_pos _ _ Hmw Hd)) Hb) as [(H0' & H1' & H2' & H3') _].
  set (p := unlin (folded (dim0 w) d) (lin (linDims d w) i)) in *. cbn in H0', H1', H2', H3'.
  rewrite Rplus_comm.
  apply (deriv_sum_mul (zrange 0 (dim0 d)) (fun j s => m s (D4 (dim0 p) j (dim2 p) (dim3 p)))
           (fun j s => c s (unlin d (lin (folded (dim0 d) d) (D4 j (dim1 p) (dim2 p) (dim3 p)))))
           (fun j => n (D4 (dim0 p) j (dim2 p) (dim3 p)))
           (fun j => v (unlin d (lin (folded (dim0 d) d) (D4 j (dim1 p) (dim2 p) (dim3 p)))))).
  intros j Hj%elem_of_zrange. split.
  - apply Hm. rewrite Ew. unfold inside. cbn. lia.
  - apply Hc. apply lin_unlin; [by apply (dall_weaken 0 1)|]. replace (elements d) with (elements (folded (dim0 d) d)).
    + apply lin_bounds. unfold inside, folded. cbn. lia.
    + apply elements_self.
Qed.

Lemma linear_correct : correct linear_spec.
Proof.
  apply (ternary_correct _ _ _ _ _ (fun x w b => [(2%nat, fun T i => T (dmod i (t_dims b))); (0%nat, linmul (t_dims x) (t_dims w) (obs w));
                                              (1%nat, fun T => linmul (t_dims x) (t_dims w) T (obs x))])).
  - intros u v w h x wt bs Hp _ _ _. exists true, true, true, (grad_linear (K := R) DEFAULT true).
    destruct (linear_array_rep x wt bs _ _ _ _ _ _ Hp (rep_obs x) (rep_obs wt) (rep_obs bs)) as (y & Ey & Hy). split.
    + unfold linear3, adjustVariable, type. rewrite !(bool_decide_eq_true_2 (a_type _ = a_type _)) by apply rt_type.
      cbn. fold x wt bs. rewrite Ey. cbn [val]. destruct Hp as (_ & ? & _ & Eb). unfold hasElements. rewrite Eb.
      assert ((0 <? elements (D4 (dim0 (t_dims wt)) 1 1 1))%Z = true) as ->; [|reflexivity].
      apply Z.ltb_lt. unfold elements. cbn. lia.
    + intros a b c g Ha Hb Hc Hl. rewrite (Ha eq_refl), (Hb eq_refl), (Hc eq_refl).
      rewrite Ey in Hl. cbn [val] in Hl. pose proof (like_rep _ _ _ _ Hy Hl) as Hg.
      destruct (grad_linear_ok x wt bs g _ _ _ _ _ _ Hp (rep_obs x) (rep_obs wt) (rep_obs bs) Hg) as (Gx & Gw & Gb & E & Ax & Aw & Ab).
      eexists. split; [apply E|]. apply answers_three; [done..| |apply linmul_null|apply linmul_null]. by intros i.
  - intros x w b [|[|[|]]] Hk; [..|lia]; eexists; [right; left|right; right; left|left].
  - intros x w b T U V i _ _. cbn. ring.
  - intros c c' c'' t d e f Hp Hc Hc' Hc'' _ _ _.
    apply (tderiv_of _ _ (linDims (t_dims (c t)) (t_dims (c' t)))
             (fun u i => linmul (t_dims (c t)) (t_dims (c' t)) (obs (c' u)) (obs (c u)) i + obs (c'' u) (dmod i (t_dims (c'' t))))).
    + intros u. destruct (linear_array_rep (c u) (c' u) (c'' u) _ _ _ _ _ _ Hp (tderiv_curve c t d Hc u) (tderiv_curve c' t e Hc' u)
                            (tderiv_curve c'' t f Hc'' u)) as (y & -> & Hy). exact Hy.
    + intros i Hi. apply (deriv_add (fun u => linmul _ _ _ _ i) (fun u => obs (c'' u) _)).
      * apply (deriv_linmul _ _ _ (fun u => obs (c u)) (fun u => obs (c' u)) d e t Hp); [apply Hc|apply Hc'|done].
      * apply Hc''. eapply inside_dmod; [|exact Hi]. by apply linear_broadcasts.
Qed.
End Linear.

(** ** The embedding: columns of a matrix selected by an array of integers, which gets
    no gradient. *)

#[local] Open Scope R_scope.

(** The column an element selects, by its position. *)
Definition picked (d : dim4) (v : dim4 -> R) (p : Z) : Z := Int_part (v (unlin d p)).

Definition indexes (d : dim4) (v : dim4 -> R) (n : Z) : Prop :=
  forall i, inside d i -> exists z, v i = IZR z /\ (0 <= z < n)%Z.

Lemma picked_ok d v n p :
  dall (Z.le 1) d -> indexes d v n -> (0 <= p < elements d)%Z -> v (unlin d p) = IZR (picked d v p) /\ (0 <= picked d v p < n)%Z.
Proof.
  intros Hd Hv Hp. destruct (lin_unlin d p (dall_weaken 0 1 _ ltac:(lia) Hd) Hp) as [Hi _].
  destruct (Hv _ Hi) as (z & E & Hz). unfold picked. by rewrite E, Int_part_IZR.
Qed.

(** Selecting columns and adding up what was selected. *)
Lemma adj_columns m n c f :
  (forall r, (0 <= r < c)%Z -> (0 <= f r < n)%Z) ->
  adj (D4 m n 1 1) (D4 m c 1 1)
    (fun w i => Rsum (zrange 0 c) (fun r => if (f r =? dim1 i)%Z then w (D4 (dim0 i) r 0 0) else 0))
    (fun T i => T (D4 (dim0 i) (f (dim1 i)) 0 0)).
Proof.
  intros Hf w T. rewrite !grid_sum. change (zrange 0 1) with [0%Z]. rewrite !Rsum_cons, !Rsum_nil, !Rplus_0_r. cbn [dim0 dim1].
  transitivity (Rsum (zrange 0 n) (fun y => Rsum (zrange 0 m) (fun x => Rsum (zrange 0 c)
                  (fun r => (if (f r =? y)%Z then w (D4 x r 0 0) else 0) * T (D4 x y 0 0))))).
  { apply Rsum_ext. intros y _. apply Rsum_ext. intros x _. symmetry. apply Rsum_scal. }
  rewrite tri_left, Rsum_swap. apply Rsum_ext. intros r Hr%elem_of_zrange. apply Rsum_ext. intros x _.
  rewrite (Rsum_single 0 n _ (f r)); [by rewrite Z.eqb_refl|by apply Hf|].
  intros y _ Hne. destruct (Z.eqb_spec (f r) y); [congruence|ring].
Qed.

(** Indices of dimensions [d], a matrix of dimensions [e]. *)
Definition embedding_fits (d e : dim4) (v : dim4 -> R) : Prop :=
  dall (Z.le 1) d /\ dim3 d = 1%Z /\ (1 <= dim0 e)%Z /\ e = D4 (dim0 e) (dim1 e) 1 1 /\ indexes d v (dim1 e).

Definition embDims (d e : dim4) : dim4 := D4 (dim0 e) (dim0 d) (dim1 d) (dim2 d).
Definition columnDims (d e : dim4) : dim4 := D4 (dim0 e) (elements d) 1 1.

(** The elements selected from [T]. *)
Definition selected (d e : dim4) (v : dim4 -> R) (T : dim4 -> R) : dim4 -> R := fun i =>
  let q := unlin (columnDims d e) (lin (embDims d e) i) in T (D4 (dim0 q) (picked d v (dim1 q)) 0 0).

Lemma embDims_elements d e : dim3 d = 1%Z -> elements (embDims d e) = elements (columnDims d e).
Proof. intros E. unfold embDims, columnDims, elements. cbn. rewrite E. ring. Qed.

Lemma columnDims_pos d e v : embedding_fits d e v -> dall (Z.le 1) (columnDims d e) /\ dall (Z.le 1) (embDims d e).
Proof.
  intros (Hd & _ & Hm & _). pose proof (elements_pos d Hd). destruct Hd as (? & ? & ? & ?).
  unfold columnDims, embDims, dall. cbn. lia.
Qed.

Section Embedding.
Context {A : Type} `{RT : RealTensors A}.
Abbreviation dirs := (dim4 -> R).

Lemma flat_integers (x : A) d v n :
  dall (Z.le 1) d -> indexes d v n -> rep x d v -> rep (t_flat x) (D4 (elements d) 1 1 1) (integers (picked d v)).
Proof.
  intros Hd Hv Hx. eapply rep_ext; [by apply rt_flat|done|]. intros i (Hi & _). by apply (picked_ok d v n).
Qed.

Lemma embedding_array_rep (x y : A) d e v w :
  embedding_fits d e v -> rep x d v -> rep y e w ->
  exists r, embedding_array x y = Ok r /\ rep r (embDims d e) (selected d e v w).
Proof.
  intros Hf Hx Hy. pose proof (columnDims_pos d e v Hf) as [Hc He]. destruct Hf as (Hd & E3 & Hm & Ee & Hv).
  unfold embedding_array. rewrite (rep_dims _ _ _ Hx), (rep_dims _ _ _ Hy).
  assert ((4 <=? t_numdims x)%Z = false) as ->.
  { apply Z.leb_gt. pose proof (rt_numdims x) as Hn. rewrite (rep_dims _ _ _ Hx) in Hn. specialize (Hn E3). lia. }
  cbn [throw_if mbind result_bind]. eexists. split; [reflexivity|]. fold (embDims d e). rewrite Ee in Hy.
  eapply rep_ext; [apply rt_moddims; [eapply rt_columns; [exact Hy|exact (flat_integers x d v _ Hd Hv Hx)|]|..]|done|].
  - intros j Hj. by apply (picked_ok d v).
  - by apply (dall_weaken 0 1).
  - by apply embDims_elements.
  - intros i _. reflexivity.
Qed.

Lemma grad_embedding_ok (x y g : A) d e v w u c0 :
  embedding_fits d e v -> rep x d v -> rep y e w -> rep g (embDims d e) u ->
  exists G, grad_embedding [(x, c0); (y, true)] g = Ok [(1%nat, G)] /\ adjoint y (selected d e v) g G.
Proof.
  intros Hf Hx Hy Hg. pose proof (columnDims_pos d e v Hf) as [Hc He]. destruct Hf as (Hd & E3 & Hm & Ee & Hv).
  unfold grad_embedding, arr, calc. cbn. rewrite (rep_dims _ _ _ Hy).
  pose proof (flat_integers x d v _ Hd Hv Hx) as Hfl. rewrite (rep_dims _ _ _ Hfl).
  assert (En : elements (D4 (elements d) 1 1 1) = elements d) by (unfold elements at 1; cbn; lia). rewrite En.
  fold (columnDims d e). set (K := fun u : dirs => fun i => u (unlin (embDims d e) (lin (columnDims d e) i))).
  assert (Hde : rep (t_moddims g (columnDims d e)) (columnDims d e) (K u)).
  { apply rt_moddims; [done|by apply (dall_weaken 0 1)|by rewrite embDims_elements]. }
  pose proof (rt_transpose _ _ _ Hde) as Ht. cbn [dim0 dim1 dim2 dim3 columnDims] in Ht.
  eexists. split; [reflexivity|]. pose proof (elements_pos d Hd).
  eapply (adjoint_rep y _ g _ (D4 (dim0 e) (dim1 e) 1 1)); [rewrite (rep_dims _ _ _ Hy); exact Ee| |exact Hg|].
  - eapply rep_ext; [apply rt_transpose; eapply rt_onehotT; [|apply rt_as; exact Hfl|exact Ht|]|done|].
    + destruct (picked_ok d v (dim1 e) 0 Hd Hv) as [_ ?]; lia.
    + intros j Hj. by apply (picked_ok d v).
    + intros i _. cbn. reflexivity.
  - intros T. apply (adj_compose _ (columnDims d e) _
      (fun w i => Rsum (zrange 0 (elements d)) (fun r => if (picked d v r =? dim1 i)%Z then w (D4 (dim0 i) r 0 0) else 0))
      (fun T i => T (D4 (dim0 i) (picked d v (dim1 i)) 0 0)) K (fun T i => T (unlin (columnDims d e) (lin (embDims d e) i)))).
    + apply adj_columns. intros r Hr. by apply (picked_ok d v).
    + apply adj_reshape; [by apply (dall_weaken 0 1)..|by rewrite embDims_elements].
Qed.

Definition embedding_spec : opspec :=
  binary_spec (embedding (K := R)) (fun x y => val (embedding_array x y))
    (fun x y _ U => selected (t_dims x) (t_dims y) (obs x) U)
    (fun x y => embedding_fits (t_dims x) (t_dims y) (obs x)) (fun k => k = 0%nat).

Lemma embedding_correct : correct embedding_spec.
Proof.
  apply (binary_correct _ _ _ (fun _ _ _ => vzero) (fun x y => selected (t_dims x) (t_dims y) (obs x))).
  - intros v w h Hp H0' _. set (x := array v h) in *. set (y := array w h) in *.
    destruct (embedding_array_rep x y _ _ _ _ Hp (rep_obs x) (rep_obs y)) as (r & Er & Hr).
    exists true, true, (grad_embedding (K := R)). split.
    { unfold embedding. fold x y. by rewrite Er. }
    intros a b g Ha Hb Hl. rewrite (Ha eq_refl), (Hb eq_refl), H0' by done. rewrite Er in Hl. cbn [val] in Hl.
    pose proof (like_rep _ _ _ _ Hr Hl) as Hg. destruct (isCalcGrad w h).
    + destruct (grad_embedding_ok x y g _ _ _ _ _ false Hp (rep_obs x) (rep_obs y) Hg) as (G & E & HG).
      eexists. split; [exact E|]. apply ans_skip; [done|by intros i|]. by apply (ans_give _ _ _ 1 y); [| |constructor].
    + eexists. split; [reflexivity|]. apply ans_skip; [done|by intros i|]. apply ans_skip; [done|by intros i|constructor].
  - intros x y d e i _ _. unfold vzero. cbn. ring.
  - intros c c' t d e Hp Hc Hc' Hz _. specialize (Hz eq_refl).
    apply (tderiv_of _ _ (embDims (t_dims (c t)) (t_dims (c' t))) (fun u => selected (t_dims (c t)) (t_dims (c' t)) (obs (c t)) (obs (c' u)))).
    + intros u. rewrite Hz. destruct (embedding_array_rep (c t) (c' u) _ _ _ _ Hp (rep_obs _) (tderiv_curve c' t e Hc' u)) as (r & -> & Hr).
      exact Hr.
    + intros i Hi. pose proof (columnDims_pos _ _ _ Hp) as [Hcd Hed]. destruct Hp as (Hd & E3 & Hm & Ee & Hv).
      apply Hc'. pose proof (lin_bounds _ i Hi) as Hl. rewrite embDims_elements in Hl by done.
      destruct (lin_unlin (columnDims (t_dims (c t)) (t_dims (c' t))) _ (dall_weaken 0 1 _ ltac:(lia) Hcd) Hl) as [(Q0 & Q1 & _) _].
      rewrite Ee at 1. unfold inside. cbn in *. destruct (picked_ok _ _ _ _ Hd Hv Q1). lia.
Qed.
End Embedding.
