(* ===== verification/TensorLosses.v ===== *)
(** Cross entropies of integer targets: the element of the target's class in every
    column, with a sign, except ignored targets.  Targets and weights get no
    gradient. *)
From S2P Require Import Prelude Autograd AutogradProofs AutogradFunctions AutogradReal RealSum AutogradPrograms TensorFunctions TensorSpace TensorSpecs TensorReductions TensorLayout TensorProducts.
From Stdlib Require Import Reals Lra.

#[local] Open Scope R_scope.

(** One number per column of a [C x X] matrix: a combination of its elements. *)
Definition combine (C : Z) (m : Z -> Z -> R) (T : dim4 -> R) : dim4 -> R := fun i =>
  Rsum (zrange 0 C) (fun c => m c (dim0 i) * T (D4 c (dim0 i) 0 0)).

Lemma adj_combine C X m :
  adj (D4 C X 1 1) (D4 X 1 1 1) (fun w i => w (D4 (dim1 i) 0 0 0) * m (dim0 i) (dim1 i)) (combine C m).
Proof.
  intros w T. rewrite !grid_sum. change (zrange 0 1) with [0%Z]. rewrite !Rsum_cons, !Rsum_nil, !Rplus_0_r. cbn [dim0 dim1].
  apply Rsum_ext. intros p _. unfold combine. cbn [dim0]. rewrite Rmult_comm, <- Rsum_scal. apply Rsum_ext. intros. ring.
Qed.

(** Adding all the numbers up. *)
Lemma adj_total X k : adj (D4 X 1 1 1) ones4 (fun w _ => w (D4 0 0 0 0) * k) (fun T _ => Rsum (zrange 0 X) (fun p => T (D4 p 0 0 0)) * k).
Proof.
  intros w T. unfold ones4. rewrite !grid_sum. change (zrange 0 1) with [0%Z]. rewrite !Rsum_cons, !Rsum_nil, !Rplus_0_r.
  rewrite <- (Rsum_scal _ _ k), (Rmult_comm _ (Rsum _ _)), <- Rsum_scal. apply Rsum_ext. intros. ring.
Qed.

(** Input of dimensions [d], targets of dimensions [t]. *)
Definition loss_fits (d t : dim4) : Prop :=
  dall (Z.le 1) d /\ t = D4 (dim1 d) (dim2 d) (dim3 d) 1 /\ (elements d < 2 ^ 31)%Z.

Definition classes (d : dim4) : dim4 := D4 (dim0 d) (frames d) 1 1.

(** Whether the target at position [p] is the class [c]. *)
Definition hit (t : dim4) (v : dim4 -> R) (c p : Z) : R := bool_R (bool_decide (IZR c = v (unlin t p))).
Definition skip (t : dim4) (v : dim4 -> R) (ignoreIndex p : Z) : bool := bool_decide (v (unlin t p) = IZR ignoreIndex).

Lemma loss_targets d t : loss_fits d t -> dall (Z.le 1) t /\ elements t = frames d.
Proof.
  intros (Hd & -> & _). destruct Hd as (? & ? & ? & ?). unfold dall, elements, frames. cbn. lia.
Qed.

Lemma loss_widths d t : loss_fits d t -> i32 (dim0 d) = dim0 d /\ i32 (elements t) = frames d /\ (1 <= frames d)%Z.
Proof.
  intros Hf. destruct (loss_targets d t Hf) as [Ht E]. pose proof (elements_pos t Ht). destruct Hf as (Hd & -> & Hb).
  rewrite E in *. destruct Hd as (? & _). assert (elements d = dim0 d * frames d)%Z by (unfold elements, frames; ring).
  rewrite !i32_id by nia. done.
Qed.

Lemma classes_pos d : dall (Z.le 1) d -> dall (Z.le 1) (classes d).
Proof. intros Hd. pose proof Hd as (? & _). by apply (folded_pos (dim0 d) d). Qed.

Lemma targets_match_ok d t : loss_fits d t -> targets_match d t = true.
Proof. intros (_ & -> & _). unfold targets_match. destruct d. cbn. by rewrite !Z.eqb_refl. Qed.

Lemma unlin_row X p : (0 <= p < X)%Z -> unlin (D4 1 X 1 1) p = D4 0 p 0 0.
Proof.
  intros Hp. unfold unlin. cbn [dim0 dim1 dim2 dim3]. by rewrite !Z.mod_1_r, !Z.div_1_r, Z.mod_small, Z.div_small by lia.
Qed.

Lemma lin_row X i : inside (D4 1 X 1 1) i -> lin (D4 1 X 1 1) i = dim1 i.
Proof. intros (? & ? & ? & ?). unfold lin. cbn in *. nia. Qed.

Lemma bool_R_zero b : bool_decide (bool_R b = 0) = negb b.
Proof. destruct b; cbn; [by rewrite bool_decide_false by lra|by rewrite bool_decide_true]. Qed.

Section Losses.
Context {A : Type} `{RT : RealTensors A}.
Abbreviation dirs := (dim4 -> R).

Lemma row_rep (a : A) t X v :
  rep a t v -> elements t = X -> (0 <= X)%Z -> rep (t_moddims a (D4 1 X 1 1)) (D4 1 X 1 1) (fun i => v (unlin t (dim1 i))).
Proof.
  intros Ha E HX. eapply rep_ext; [apply rt_moddims; [exact Ha|unfold dall; cbn; lia|]|done|].
  - rewrite E. unfold elements. cbn. lia.
  - intros i Hi. cbv beta. by rewrite lin_row.
Qed.

(** A row repeated in every row of a matrix. *)
Lemma rows_rep (a : A) C X v :
  (1 <= C)%Z -> rep a (D4 1 X 1 1) v -> rep (t_tile a (D4 C 1 1 1)) (D4 C X 1 1) (fun i => v (D4 0 (dim1 i) 0 0)).
Proof.
  intros HC Ha. eapply rep_ext; [apply rt_tile; [exact Ha|unfold dall; cbn; lia]|unfold dmul, dmap2; cbn; f_equal; lia|].
  intros i (? & ? & ? & ?). cbv beta. f_equal. unfold dmod, dmap2. cbn in *. rewrite !Z.mod_1_r, Z.mod_small by lia. done.
Qed.

Lemma class_mask_rep (a : A) d t v :
  loss_fits d t -> rep a t v ->
  rep (class_mask (K := R) (dim0 d) (frames d) (t_moddims a (D4 1 (frames d) 1 1))) (classes d) (fun i => - hit t v (dim0 i) (dim1 i)).
Proof.
  intros Hf Ha. destruct (loss_targets d t Hf) as [_ E]. destruct (loss_widths d t Hf) as (_ & _ & HX). destruct Hf as (Hd & _).
  pose proof (classes_pos d Hd) as Hc. destruct Hd as (? & _). unfold class_mask. apply rt_neg.
  pose proof (rows_rep _ (dim0 d) _ _ ltac:(lia) (row_rep a t (frames d) v Ha E ltac:(lia))) as Hr.
  eapply rep_ext; [eapply rt_eq; [apply rt_range; by apply (dall_weaken 0 1)|exact Hr]|done|done].
Qed.

Lemma ignore_rep (a : A) d t v k :
  loss_fits d t -> rep a t v ->
  rep (t_eq (t_moddims a (D4 1 (frames d) 1 1)) (vs_int (K := R) k (t_moddims a (D4 1 (frames d) 1 1)))) (D4 1 (frames d) 1 1)
    (fun i => bool_R (skip t v k (dim1 i))).
Proof.
  intros Hf Ha. destruct (loss_targets d t Hf) as [_ E]. destruct (loss_widths d t Hf) as (_ & _ & HX).
  pose proof (row_rep a t (frames d) v Ha E ltac:(lia)) as Hy.
  eapply rep_ext; [eapply rt_eq; [exact Hy|eapply rt_const_like; exact Hy]|done|]. intros i _. cbv beta. by rewrite rt_k_of.
Qed.

Lemma flat_row_rep (a : A) X v :
  (0 <= X)%Z -> rep a (D4 1 X 1 1) v -> rep (t_flat a) (D4 X 1 1 1) (fun i => v (D4 0 (dim0 i) 0 0)).
Proof.
  intros HX Ha. eapply rep_ext; [apply rt_flat; exact Ha|unfold elements; cbn; f_equal; lia|].
  intros i (? & _). cbv beta. by rewrite unlin_row.
Qed.

(** The positions that count. *)
Definition counted (t : dim4) (v : dirs) (k : Z) (X : Z) : R := Rsum (zrange 0 X) (fun p => bool_R (negb (skip t v k p))).

Lemma cce_parts_rep (a : A) d t v k :
  loss_fits d t -> rep a t v ->
  let '(mask, ignoreMask, denominator) := cce_parts (K := R) (dim0 d) (frames d) k a in
  rep mask (classes d) (fun i => - hit t v (dim0 i) (dim1 i))
  /\ rep ignoreMask (D4 (frames d) 1 1 1) (fun i => bool_R (skip t v k (dim0 i)))
  /\ rep denominator ones4 (fun _ => counted t v k (frames d)).
Proof.
  intros Hf Ha. destruct (loss_widths d t Hf) as (_ & _ & HX). unfold cce_parts.
  pose proof (flat_row_rep _ (frames d) _ ltac:(lia) (ignore_rep a d t v k Hf Ha)) as Hi. split_and!; [by apply class_mask_rep|exact Hi|].
  eapply rep_ext; [apply rt_sum; [by left|apply rt_as, rt_not; exact Hi]|done|].
  intros i _. unfold alongsum, counted. apply Rsum_ext. intros p _. cbn. by destruct (skip t v k p); cbn; case_bool_decide; lra || done.
Qed.

(** The coefficients of a column: minus one at its class, nothing when it is ignored. *)
Definition cce_coeff (t : dim4) (v : dirs) (k : Z) : Z -> Z -> R := fun c p => if skip t v k p then 0 else - hit t v c p.

(** The numbers before the reduction. *)
Definition cce_terms (d t : dim4) (v : dirs) (k : Z) (x : dirs) : dirs :=
  combine (dim0 d) (cce_coeff t v k) (reshaped d (classes d) x).

Definition reduceDims (r : ReduceMode) (t : dim4) : dim4 := match r with NONE => t | _ => ones4 end.
Definition total (X : Z) (u : dirs) (c : R) : dirs := fun _ => Rsum (zrange 0 X) (fun p => u (D4 p 0 0 0)) * c.
Definition reduce (r : ReduceMode) (t : dim4) (X : Z) (n : R) (u : dirs) : dirs :=
  match r with NONE => reshaped (D4 X 1 1 1) t u | MEAN => total X u (/ n) | SUM => total X u 1 end.
Definition spread (r : ReduceMode) (t : dim4) (X : Z) (n : R) (w : dirs) : dirs :=
  match r with
  | NONE => reshaped t (D4 X 1 1 1) w
  | MEAN => fun _ => w (D4 0 0 0 0) * / n
  | SUM => fun _ => w (D4 0 0 0 0) * 1
  end.

Lemma adj_reduce r t X n :
  dall (Z.le 1) t -> elements t = X -> adj (D4 X 1 1 1) (reduceDims r t) (spread r t X n) (reduce r t X n).
Proof.
  intros Ht E. destruct r; [|apply adj_total..]. pose proof (elements_pos t Ht).
  apply adj_reshaped; [unfold dall; cbn; lia|done|]. unfold elements at 1. cbn. lia.
Qed.

Lemma terms_rep (x y : A) d t v w k :
  loss_fits d t -> rep x d v -> rep y t w ->
  let '(mask, ignoreMask, _) := cce_parts (K := R) (dim0 d) (frames d) k y in
  rep (t_mask (t_flat (t_sum (e_mul mask (t_moddims x (classes d))) 0)) ignoreMask (k_of (A := A) 0)) (D4 (frames d) 1 1 1)
    (cce_terms d t w k v).
Proof.
  intros Hf Hx Hy. pose proof (cce_parts_rep y d t w k Hf Hy) as Hp. destruct (loss_widths d t Hf) as (_ & _ & HX).
  destruct (cce_parts _ _ _ _) as [[mask ig] den]. destruct Hp as (Hm & Hi & _). destruct Hf as (Hd & _).
  assert (Hr : rep (t_moddims x (classes d)) (classes d) (reshaped d (classes d) v)).
  { apply reshaped_rep; [done|by apply classes_pos|apply elements_self]. }
  pose proof (rt_sum _ _ _ 0 ltac:(by left) (rt_mul _ _ _ _ _ Hm Hr)) as Hs.
  eapply rep_ext; [apply rt_mask; [apply (flat_row_rep _ (frames d)); [lia|exact Hs]|exact Hi]|done|].
  intros i _. cbv beta. unfold cce_terms, combine, cce_coeff, alongsum. rewrite rt_k_of.
  destruct (skip t w k (dim0 i)); cbn.
  - rewrite bool_decide_eq_false_2 by lra. symmetry. apply Rsum_all_zero. intros. ring.
  - by rewrite bool_decide_eq_true_2.
Qed.

(** The targets are classes or ignored, and not all are ignored when the mean is taken. *)
Definition cce_fits (d t : dim4) (v : dirs) (r : ReduceMode) (k : Z) : Prop :=
  loss_fits d t
  /\ (forall i, inside t i -> (0 <= v i /\ v i < IZR (dim0 d)) \/ v i = IZR k)
  /\ (r = MEAN -> counted t v k (frames d) <> 0).

Lemma cce_valid (y : A) d t v r k : cce_fits d t v r k -> rep y t v -> cce_invalid (K := R) (dim0 d) k y = false.
Proof.
  intros (_ & Hv & _) Hy. apply not_true_iff_false. unfold cce_invalid, vs_int.
  assert (Hc : forall n, rep (e_const (k_of (A := A) n) y) t (fun _ => IZR n)).
  { intros n. rewrite rt_k_of. eapply rt_const_like. exact Hy. }
  rewrite (rt_anyTrue _ _ _ (rt_and _ _ _ _ _ (rt_or _ _ _ _ _ (rt_lt _ _ _ _ _ Hy (Hc 0%Z)) (rt_ge _ _ _ _ _ Hy (Hc (dim0 d))))
                              (rt_neq _ _ _ _ _ Hy (Hc k)))).
  intros (i & Hi & Hn). apply Hn. cbn. rewrite !bool_R_zero. destruct (Hv i Hi) as [[Hlo Hhi]|Hk].
  - rewrite Rltb_false by done. unfold Rleb. by rewrite (bool_decide_eq_false_2 (IZR (dim0 d) <= v i)) by lra.
  - by rewrite (bool_decide_eq_true_2 (v i = IZR k)), andb_false_r.
Qed.

Definition cce_value (d t : dim4) (v : dirs) (r : ReduceMode) (k : Z) (x : dirs) : dirs :=
  reduce r t (frames d) (counted t v k (frames d)) (cce_terms d t v k x).

Lemma cce_array_rep (x y : A) d t v w r k :
  cce_fits d t w r k -> rep x d v -> rep y t w ->
  exists a, cce_array (K := R) x y r k = Ok a /\ rep a (reduceDims r t) (cce_value d t w r k v).
Proof.
  intros Hc Hx Hy. pose proof (cce_valid y d t w r k Hc Hy) as Hi. destruct Hc as (Hf & _).
  destruct (loss_widths d t Hf) as (E1 & E2 & HX). destruct (loss_targets d t Hf) as [Ht Et].
  pose proof (terms_rep x y d t v w k Hf Hx Hy) as Hr. pose proof (cce_parts_rep y d t w k Hf Hy) as Hp.
  unfold cce_array. rewrite (rep_dims _ _ _ Hx), (rep_dims _ _ _ Hy), E1, E2, targets_match_ok, Hi by done.
  cbn [negb throw_if mbind result_bind]. fold (classes d).
  destruct (cce_parts _ _ _ _) as [[mask ig] den]. destruct Hp as (_ & _ & Hd). eexists. split; [reflexivity|].
  unfold cce_value, reduce, reduceDims. destruct r.
  - apply reshaped_rep; [exact Hr|done|]. rewrite Et. unfold elements. cbn. lia.
  - eapply rep_ext; [apply rt_div; [apply rt_sum; [by left|exact Hr]|exact Hd]|done|]. intros i _. done.
  - eapply rep_ext; [apply rt_sum; [by left|exact Hr]|done|]. intros i _. unfold total. by rewrite Rmult_1_r.
Qed.

(** The gradient of the terms, back on the input. *)
Definition cce_back (d t : dim4) (v : dirs) (r : ReduceMode) (k : Z) (w : dirs) : dirs :=
  reshaped (classes d) d (fun i => spread r t (frames d) (counted t v k (frames d)) w (D4 (dim1 i) 0 0 0) * cce_coeff t v k (dim0 i) (dim1 i)).

Lemma adj_cce d t v r k : cce_fits d t v r k -> adj d (reduceDims r t) (cce_back d t v r k) (cce_value d t v r k).
Proof.
  intros (Hf & _). destruct (loss_targets d t Hf) as [Ht Et]. destruct Hf as (Hd & _).
  apply (adj_compose d (classes d) _ (reshaped (classes d) d) (reshaped d (classes d))
    (fun w i => spread r t (frames d) (counted t v k (frames d)) w (D4 (dim1 i) 0 0 0) * cce_coeff t v k (dim0 i) (dim1 i))
    (fun T => reduce r t (frames d) (counted t v k (frames d)) (combine (dim0 d) (cce_coeff t v k) T))).
  - apply adj_reshaped; [done|by apply classes_pos|symmetry; apply elements_self].
  - apply (adj_compose _ (D4 (frames d) 1 1 1) _ (fun w i => w (D4 (dim1 i) 0 0 0) * cce_coeff t v k (dim0 i) (dim1 i))
             (combine (dim0 d) (cce_coeff t v k))); [apply adj_combine|by apply adj_reduce].
Qed.

Lemma spread_rep (y g : A) d t r v k w den :
  loss_fits d t -> rep g (reduceDims r t) w -> rep den ones4 (fun _ => counted t v k (frames d)) ->
  rep (match r with
       | NONE => t_moddims g (D4 (frames d) 1 1 1)
       | MEAN => t_tile (e_div g den) (D4 (frames d) 1 1 1)
       | SUM => t_tile g (D4 (frames d) 1 1 1)
       end) (D4 (frames d) 1 1 1) (spread r t (frames d) (counted t v k (frames d)) w).
Proof.
  intros Hf Hg Hd. destruct (loss_widths d t Hf) as (_ & _ & HX). destruct (loss_targets d t Hf) as [Ht Et].
  assert (Htile : forall (a : A) u, rep a ones4 u -> rep (t_tile a (D4 (frames d) 1 1 1)) (D4 (frames d) 1 1 1) (fun _ => u (D4 0 0 0 0))).
  { intros a u Ha. eapply rep_ext; [apply rt_tile; [exact Ha|unfold dall; cbn; lia]|unfold dmul, dmap2; cbn; f_equal; lia|].
    intros i _. cbv beta. f_equal. unfold dmod, dmap2. cbn. by rewrite !Z.mod_1_r. }
  destruct r; unfold spread, reduceDims in *.
  - apply reshaped_rep; [exact Hg|unfold dall; cbn; lia|]. rewrite Et. unfold elements. cbn. lia.
  - exact (Htile _ _ (rt_div _ _ _ _ _ Hg Hd)).
  - eapply rep_ext; [exact (Htile _ _ Hg)|done|]. intros i _. cbv beta. by rewrite Rmult_1_r.
Qed.

Lemma grad_cce_rep (y g : A) d t v r k w :
  loss_fits d t -> rep y t v -> rep g (reduceDims r t) w ->
  let '(mask, ig, den) := cce_parts (K := R) (dim0 d) (frames d) k y in
  exists G, (forall ins, grad_cce (K := R) (dim0 d) (frames d) mask ig den r d ins g = Ok [(0%nat, G)]) /\ rep G d (cce_back d t v r k w).
Proof.
  intros Hf Hy Hg. pose proof (cce_parts_rep y d t v k Hf Hy) as Hp. destruct (cce_parts _ _ _ _) as [[mask ig] den].
  destruct Hp as (Hm & Hi & Hd). eexists. split; [reflexivity|].
  pose proof (spread_rep y g d t r v k w den Hf Hg Hd) as Hs. destruct (loss_widths d t Hf) as (_ & _ & HX). destruct Hf as (Hd1 & _).
  pose proof Hd1 as (HC & _).
  pose proof (rt_mask (k_of (A := A) 0) _ _ _ _ _ Hs Hi) as Hk.
  pose proof (row_rep _ _ (frames d) _ Hk ltac:(unfold elements; cbn; lia) ltac:(lia)) as Hr.
  eapply rep_ext; [apply reshaped_rep; [apply rt_mul; [exact (rows_rep _ (dim0 d) _ _ ltac:(lia) Hr)|exact Hm]|done|symmetry; apply elements_self]|done|].
  intros i Hin. unfold cce_back, reshaped. cbv beta.
  pose proof (lin_bounds d i Hin) as Hl. rewrite <- (elements_self d) in Hl.
  destruct (lin_unlin (classes d) _ (dall_weaken 0 1 _ ltac:(lia) (classes_pos d Hd1)) Hl) as [(_ & H1' & _) _].
  fold (classes d). set (q := unlin (classes d) (lin d i)) in *. cbn in H1'. cbn [dim1]. rewrite unlin_column by done. cbn [dim0].
  rewrite rt_k_of, bool_R_zero. unfold cce_coeff. destruct (skip t v k (dim1 q)); cbn; ring.
Qed.

Definition cce_spec (r : ReduceMode) (k : Z) : opspec :=
  binary_spec (fun v w h => categoricalCrossEntropy (K := R) DEFAULT v w r k h) (fun x y => val (cce_array (K := R) x y r k))
    (fun x y T _ => cce_value (t_dims x) (t_dims y) (obs y) r k T)
    (fun x y => cce_fits (t_dims x) (t_dims y) (obs y) r k) (fun j => j = 1%nat).

Lemma vnull_cce d t v r k : vnull (cce_value d t v r k vzero).
Proof.
  intros i. unfold cce_value, reduce, total, cce_terms, reshaped.
  assert (E : forall j, combine (dim0 d) (cce_coeff t v k) (fun _ => vzero (unlin d (lin (classes d) j))) j = 0).
  { intros j. apply Rsum_all_zero. intros c _. unfold vzero. cbn. ring. }
  destruct r; [exact (E _)|..]; rewrite (Rsum_all_zero _ (fun p => combine _ _ _ _)); try ring; intros p _; exact (E _).
Qed.

Lemma deriv_cce d t v r k (c : R -> dirs) n s :
  cce_fits d t v r k -> (forall i, inside d i -> derivable_pt_lim (fun u => c u i) s (n i)) ->
  forall i, inside (reduceDims r t) i -> derivable_pt_lim (fun u => cce_value d t v r k (c u) i) s (cce_value d t v r k n i).
Proof.
  intros (Hf & _) Hc. destruct (loss_widths d t Hf) as (_ & _ & HX). destruct (loss_targets d t Hf) as [Ht Et]. destruct Hf as (Hd & _).
  assert (E : forall p, (0 <= p < frames d)%Z ->
    derivable_pt_lim (fun u => cce_terms d t v k (c u) (D4 p 0 0 0)) s (cce_terms d t v k n (D4 p 0 0 0))).
  { intros p Hp. unfold cce_terms, combine. apply deriv_Rsum. intros m Hm%elem_of_zrange. cbn [dim0].
    eapply deriv_eq; [apply (deriv_mul (fun _ => cce_coeff t v k m p) (fun u => reshaped d (classes d) (c u) (D4 m p 0 0)));
      [apply deriv_const|apply (Hc (unlin d (lin (classes d) (D4 m p 0 0))))]|unfold reshaped; cbn; ring].
    apply lin_unlin; [by apply (dall_weaken 0 1)|]. rewrite <- (elements_self d). apply lin_bounds. unfold inside. cbn. lia. }
  intros i Hi. unfold cce_value. destruct r; unfold reduce, reduceDims in *.
  - unfold reshaped. pose proof (lin_bounds t i Hi) as Hl. rewrite Et in Hl. rewrite unlin_column by done. by apply E.
  - apply (deriv_scale (fun u => Rsum (zrange 0 (frames d)) (fun p => cce_terms d t v k (c u) (D4 p 0 0 0)))).
    apply deriv_Rsum. intros p Hp%elem_of_zrange. by apply E.
  - apply (deriv_scale (fun u => Rsum (zrange 0 (frames d)) (fun p => cce_terms d t v k (c u) (D4 p 0 0 0)))).
    apply deriv_Rsum. intros p Hp%elem_of_zrange. by apply E.
Qed.

Lemma cce_correct r k : correct (cce_spec r k).
Proof.
  apply (binary_correct _ _ _ (fun x y => cce_value (t_dims x) (t_dims y) (obs y) r k) (fun _ _ _ => vzero)).
  - intros v w h Hp _ H1'. set (x := array v h) in *. set (y := array w h) in *.
    destruct (cce_array_rep x y _ _ _ _ _ _ Hp (rep_obs x) (rep_obs y)) as (a & Ea & Ha).
    pose proof Hp as (Hf & _). destruct (loss_widths _ _ Hf) as (E1 & E2 & _).
    pose proof (fun g => grad_cce_rep y g _ _ _ r k (obs g) Hf (rep_obs y)) as Hg.
    unfold categoricalCrossEntropy, adjustVariable, dims. fold x y. rewrite E1, E2, Ea.
    destruct (cce_parts _ _ _ _) as [[mask ig] den]. exists false, true. eexists. split; [reflexivity|].
    intros a0 b g _ Hb Hl. rewrite (H1' eq_refl). cbn [val] in Hl. pose proof (like_rep _ _ _ _ Ha Hl) as Hg'.
    destruct (Hg g Hg') as (G & EG & HG). eexists. split; [apply EG|].
    apply (ans_give _ _ _ 0 x); [done| |apply ans_skip; [done|by intros i|constructor]].
    eapply adjoint_rep; [reflexivity|exact HG|exact Hg'|]. intros T. by apply adj_cce.
  - intros x y d e i _ _. unfold vzero. cbn. ring.
  - intros c c' t d e Hp Hc Hc' _ Hz. specialize (Hz eq_refl).
    apply (tderiv_of _ _ (reduceDims r (t_dims (c' t))) (fun u => cce_value (t_dims (c t)) (t_dims (c' t)) (obs (c' t)) r k (obs (c u)))).
    + intros u. rewrite Hz. destruct (cce_array_rep (c u) (c' t) _ _ _ _ _ _ Hp (tderiv_curve c t d Hc u) (rep_obs _)) as (a & -> & Ha). exact Ha.
    + apply (deriv_cce _ _ _ _ _ (fun u => obs (c u))); [done|apply Hc].
Qed.
End Losses.

(** ** The cross entropy with a weight per class: the weighted sum over the columns that
    count, divided by the weight of all targets. *)

#[local] Open Scope R_scope.

Section Weighted.
Context {A : Type} `{RT : RealTensors A}.
Abbreviation dirs := (dim4 -> R).

Definition weight_of (m : dirs) (c : Z) : R := m (D4 c 0 0 0).
Definition targetWeight (d t : dim4) (v m : dirs) : R :=
  Rsum (zrange 0 (frames d)) (fun p => Rsum (zrange 0 (dim0 d)) (fun c => hit t v c p * weight_of m c)).
Definition wcce_coeff (t : dim4) (v m : dirs) (k : Z) : Z -> Z -> R := fun c p =>
  bool_R (negb (skip t v k p)) * (- hit t v c p * weight_of m c).
Definition wcce_value (d t : dim4) (v m : dirs) (k : Z) (x : dirs) : dirs :=
  total (frames d) (combine (dim0 d) (wcce_coeff t v m k) (reshaped d (classes d) x)) (/ targetWeight d t v m).

(** All targets are classes, and together have a weight. *)
Definition wcce_fits (d t e : dim4) (v m : dirs) : Prop :=
  loss_fits d t /\ e = D4 (dim0 d) 1 1 1 /\ (forall i, inside t i -> 0 <= v i /\ v i < IZR (dim0 d)) /\ targetWeight d t v m <> 0.

Lemma wcce_parts_rep (y z : A) d t v m k :
  loss_fits d t -> rep y t v -> rep z (D4 (dim0 d) 1 1 1) m ->
  let '(mask, den, ig) := wcce_parts (K := R) (dim0 d) (frames d) k y z in
  rep mask (classes d) (fun i => - hit t v (dim0 i) (dim1 i))
  /\ rep den ones4 (fun _ => targetWeight d t v m)
  /\ rep ig (D4 1 (frames d) 1 1) (fun i => bool_R (negb (skip t v k (dim1 i)))).
Proof.
  intros Hf Hy Hz. destruct (loss_widths d t Hf) as (_ & _ & HX). destruct (loss_targets d t Hf) as [_ Et].
  pose proof (class_mask_rep y d t v Hf Hy) as Hm. pose proof (row_rep y t (frames d) v Hy Et ltac:(lia)) as Hr.
  unfold wcce_parts. split_and!; [exact Hm|..].
  - assert (Hw : rep (t_tile z (D4 1 (frames d) 1 1)) (classes d) (fun i => weight_of m (dim0 i))).
    { eapply rep_ext; [apply rt_tile; [exact Hz|unfold dall; cbn; lia]|unfold dmul, dmap2, classes; cbn; f_equal; lia|].
      intros i (? & ? & ? & ?). unfold weight_of. cbv beta. f_equal. unfold dmod, dmap2. cbn in *. rewrite !Z.mod_1_r, Z.mod_small by lia. done. }
    pose proof (rt_sum _ _ _ 1 ltac:(right; by left) (rt_sum _ _ _ 0 ltac:(by left) (rt_mul _ _ _ _ _ (rt_neg _ _ _ Hm) Hw))) as Hs.
    eapply rep_ext; [exact Hs|done|]. intros i _. unfold alongsum, targetWeight. cbn. apply Rsum_ext. intros p _. apply Rsum_ext.
    intros c _. unfold dset. cbn. ring.
  - eapply rep_ext; [apply rt_as; eapply rt_neq; [exact Hr|eapply rt_const_like; exact Hr]|done|]. intros i _. cbv beta. by rewrite rt_k_of.
Qed.

Lemma weighted_rep (a z : A) d v m :
  dall (Z.le 1) d -> rep a d v -> rep z (D4 (dim0 d) 1 1 1) m -> rep (t_batch_mul a z) d (fun i => v i * weight_of m (dim0 i)).
Proof.
  intros Hd Ha Hz. eapply rep_ext; [apply rt_batch_mul; [exact Ha|exact Hz|]|done|].
  - intros k Hk. destruct d. axes; cbn; auto.
  - intros i (? & _). cbv beta. unfold weight_of. do 2 f_equal. unfold dmod, dmap2. cbn in *. rewrite !Z.mod_1_r, Z.mod_small by lia. done.
Qed.

Lemma wcce_array_rep (x y z : A) d t e v w m k :
  wcce_fits d t e w m -> rep x d v -> rep y t w -> rep z e m ->
  exists a, wcce_array (K := R) x y z k = Ok a /\ rep a ones4 (wcce_value d t w m k v).
Proof.
  intros (Hf & -> & Hv & _) Hx Hy Hz. destruct (loss_widths d t Hf) as (E1 & E2 & HX). destruct (loss_targets d t Hf) as [Ht Et].
  pose proof (wcce_parts_rep y z d t w m k Hf Hy Hz) as Hp.
  assert (Hc : forall n, rep (e_const (k_of (A := A) n) y) t (fun _ => IZR n)).
  { intros n. rewrite rt_k_of. eapply rt_const_like. exact Hy. }
  assert (Ha : t_anyTrue (t_or (e_lt y (vs_int (K := R) 0 y)) (e_ge y (vs_int (K := R) (dim0 d) y))) = false).
  { apply not_true_iff_false. unfold vs_int.
    rewrite (rt_anyTrue _ _ _ (rt_or _ _ _ _ _ (rt_lt _ _ _ _ _ Hy (Hc 0%Z)) (rt_ge _ _ _ _ _ Hy (Hc (dim0 d))))).
    intros (i & Hi & Hn). apply Hn. cbn. rewrite !bool_R_zero. destruct (Hv i Hi) as [Hlo Hhi].
    rewrite Rltb_false by done. unfold Rleb. by rewrite (bool_decide_eq_false_2 (IZR (dim0 d) <= w i)) by lra. }
  unfold wcce_array. rewrite (rep_dims _ _ _ Hx), (rep_dims _ _ _ Hy), (rep_dims _ _ _ Hz), E1, E2, targets_match_ok, Ha by done.
  cbn [dim0]. rewrite Z.eqb_refl. cbn [negb throw_if mbind result_bind]. fold (classes d).
  destruct (wcce_parts _ _ _ _ _) as [[mask den] ig]. destruct Hp as (Hm & Hd & Hi). eexists. split; [reflexivity|].
  destruct Hf as (Hd1 & _).
  assert (Hr : rep (t_moddims x (classes d)) (classes d) (reshaped d (classes d) v)).
  { apply reshaped_rep; [done|by apply classes_pos|apply elements_self]. }
  pose proof (weighted_rep _ z (classes d) _ m (classes_pos d Hd1) (rt_mul _ _ _ _ _ Hm Hr) Hz) as Hb.
  pose proof (rt_mul _ _ _ _ _ Hi (rt_sum _ _ _ 0 ltac:(by left) Hb)) as Hs.
  eapply rep_ext; [apply rt_div; [apply rt_sum; [right; by left|exact Hs]|exact Hd]|done|].
  intros i (_ & _ & ? & ?). unfold wcce_value, total, Rdiv, alongsum. f_equal. apply Rsum_ext. intros p _. unfold combine, wcce_coeff.
  cbn in *. rewrite Rmult_comm, <- Rsum_scal. apply Rsum_ext. intros c _. replace (dim2 i) with 0%Z by lia. replace (dim3 i) with 0%Z by lia. ring.
Qed.

(** The gradient of the value, back on the input. *)
Definition wcce_back (d t : dim4) (v m : dirs) (k : Z) (w : dirs) : dirs :=
  reshaped (classes d) d (fun i => w (D4 0 0 0 0) * / targetWeight d t v m * wcce_coeff t v m k (dim0 i) (dim1 i)).

Lemma adj_wcce d t v m k : dall (Z.le 1) d -> adj d ones4 (wcce_back d t v m k) (wcce_value d t v m k).
Proof.
  intros Hd.
  apply (adj_compose d (classes d) _ (reshaped (classes d) d) (reshaped d (classes d))
    (fun w i => w (D4 0 0 0 0) * / targetWeight d t v m * wcce_coeff t v m k (dim0 i) (dim1 i))
    (fun T => total (frames d) (combine (dim0 d) (wcce_coeff t v m k) T) (/ targetWeight d t v m))).
  - apply adj_reshaped; [done|by apply classes_pos|symmetry; apply elements_self].
  - apply (adj_compose _ (D4 (frames d) 1 1 1) _ (fun w i => w (D4 (dim1 i) 0 0 0) * wcce_coeff t v m k (dim0 i) (dim1 i))
             (combine (dim0 d) (wcce_coeff t v m k)) (fun w _ => w (D4 0 0 0 0) * / targetWeight d t v m)
             (fun T => total (frames d) T (/ targetWeight d t v m))); [apply adj_combine|apply adj_total].
Qed.

(** Reshaping to columns keeps the place in a column. *)
Lemma classes_dim0 d i : inside d i -> dim0 (unlin (classes d) (lin d i)) = dim0 i.
Proof.
  intros (? & _). unfold unlin, classes, lin. cbn. rewrite (Z.mul_comm (dim0 d)), Z.mod_add by lia. by rewrite Z.mod_small.
Qed.

Lemma reshape_same (a : A) d v : dall (Z.le 1) d -> rep a d v -> rep (t_moddims a d) d v.
Proof.
  intros Hd Ha. eapply rep_ext; [apply rt_moddims; [exact Ha|by apply (dall_weaken 0 1)|done]|done|]. intros i Hi. cbv beta.
  by rewrite unlin_lin.
Qed.

Lemma grad_wcce_rep (x y z g : A) c0 c1 c2 d t v m k w :
  loss_fits d t -> rep y t v -> rep z (D4 (dim0 d) 1 1 1) m -> rep g ones4 w ->
  let '(mask, den, ig) := wcce_parts (K := R) (dim0 d) (frames d) k y z in
  exists G, grad_wcce (K := R) (dim0 d) (frames d) mask ig den d [(x, c0); (y, c1); (z, c2)] g = Ok [(0%nat, G)]
    /\ rep G d (wcce_back d t v m k w).
Proof.
  intros Hf Hy Hz Hg. pose proof (wcce_parts_rep y z d t v m k Hf Hy Hz) as Hp. destruct (wcce_parts _ _ _ _ _) as [[mask den] ig].
  destruct Hp as (Hm & Hd & Hi). eexists. split; [reflexivity|]. unfold arr. cbn [lookup list_lookup fst default from_option].
  destruct (loss_widths d t Hf) as (_ & _ & HX). destruct Hf as (Hd1 & _). pose proof Hd1 as (HC & _).
  assert (Ht : rep (t_tile (e_div g den) (D4 1 (frames d) 1 1)) (D4 1 (frames d) 1 1) (fun _ => w (D4 0 0 0 0) / targetWeight d t v m)).
  { eapply rep_ext; [apply rt_tile; [exact (rt_div _ _ _ _ _ Hg Hd)|unfold dall; cbn; lia]|unfold dmul, dmap2; cbn; f_equal; lia|].
    intros i _. cbv beta. do 2 f_equal. unfold dmod, dmap2. cbn. by rewrite !Z.mod_1_r. }
  pose proof (rows_rep _ (dim0 d) _ _ ltac:(lia) (rt_mul _ _ _ _ _ Ht Hi)) as Hr.
  pose proof (reshaped_rep _ _ d _ (rt_mul _ _ _ _ _ Hr Hm) Hd1 ltac:(symmetry; apply elements_self)) as Hb.
  eapply rep_ext; [apply reshape_same; [exact Hd1|exact (weighted_rep _ z d _ m Hd1 Hb Hz)]|done|].
  intros i Hin. unfold wcce_back, reshaped. cbv beta. rewrite <- (classes_dim0 d i) by done.
  fold (classes d). set (q := unlin (classes d) (lin d i)). cbn [dim1]. unfold wcce_coeff, Rdiv. ring.
Qed.

Definition wcce_spec (k : Z) : opspec :=
  ternary_spec (fun u v w h => weightedCategoricalCrossEntropy (K := R) u v w k h) (fun x y z => val (wcce_array (K := R) x y z k))
    (fun x y z T _ _ => wcce_value (t_dims x) (t_dims y) (obs y) (obs z) k T)
    (fun x y z => wcce_fits (t_dims x) (t_dims y) (t_dims z) (obs y) (obs z)) (fun j => j = 1%nat \/ j = 2%nat).

Lemma deriv_wcce d t v m k (c : R -> dirs) n s i :
  dall (Z.le 1) d -> (forall i, inside d i -> derivable_pt_lim (fun u => c u i) s (n i)) ->
  derivable_pt_lim (fun u => wcce_value d t v m k (c u) i) s (wcce_value d t v m k n i).
Proof.
  intros Hd Hc. unfold wcce_value, total.
  apply (deriv_scale (fun u => Rsum (zrange 0 (frames d)) (fun p => combine (dim0 d) (wcce_coeff t v m k) (reshaped d (classes d) (c u)) (D4 p 0 0 0)))).
  apply deriv_Rsum. intros p Hp%elem_of_zrange. unfold combine. apply deriv_Rsum. intros j Hj%elem_of_zrange. cbn [dim0].
  eapply deriv_eq; [apply (deriv_mul (fun _ => wcce_coeff t v m k j p) (fun u => reshaped d (classes d) (c u) (D4 j p 0 0)));
    [apply deriv_const|apply (Hc (unlin d (lin (classes d) (D4 j p 0 0))))]|unfold reshaped; cbn; ring].
  apply lin_unlin; [by apply (dall_weaken 0 1)|]. rewrite <- (elements_self d). apply lin_bounds. unfold inside. cbn. lia.
Qed.

Lemma wcce_correct k : correct (wcce_spec k).
Proof.
  apply (ternary_correct _ _ _ _ _ (fun x y z => [(0%nat, wcce_value (t_dims x) (t_dims y) (obs y) (obs z) k); (1%nat, fun _ => vzero); (2%nat, fun _ => vzero)])).
  - intros u v w h x y z Hp _ H1' H2'.
    destruct (wcce_array_rep x y z _ _ _ _ _ _ k Hp (rep_obs x) (rep_obs y) (rep_obs z)) as (a & Ea & Ha).
    pose proof Hp as (Hf & Ez & _). destruct (loss_widths _ _ Hf) as (E1 & E2 & _).
    assert (Hz : rep z (D4 (dim0 (t_dims x)) 1 1 1) (obs z)) by (rewrite <- Ez; apply rep_obs).
    pose proof (fun a g => grad_wcce_rep a y z g (isCalcGrad u h) false false _ _ _ _ k (obs g) Hf (rep_obs y) Hz) as Hg.
    unfold weightedCategoricalCrossEntropy, dims. fold x y z. rewrite E1, E2, Ea.
    destruct (wcce_parts _ _ _ _ _) as [[mask den] ig]. exists false, true, true. eexists. split; [reflexivity|].
    intros a0 b c g _ Hb Hc Hl. rewrite (Hb eq_refl), (Hc eq_refl), H1', H2' by auto. cbn [val] in Hl.
    pose proof (like_rep _ _ _ _ Ha Hl) as Hg'. destruct (Hg a0 g Hg') as (G & EG & HG). eexists. split; [exact EG|].
    apply (ans_give _ _ _ 0 x); [done| |apply ans_skip; [done|by intros i|apply ans_skip; [done|by intros i|constructor]]].
    eapply adjoint_rep; [reflexivity|exact HG|exact Hg'|]. intros T. apply adj_wcce. by destruct Hf.
  - intros x y z [|[|[|]]] Hk; [..|lia]; eexists; [left|right; left|right; right; left].
  - intros x y z T U V i _ _. unfold vzero. cbn. ring.
  - intros c c' c'' t d e f Hp Hc Hc' Hc'' _ Hz1 Hz2. specialize (Hz1 ltac:(auto)). specialize (Hz2 ltac:(auto)).
    apply (tderiv_of _ _ ones4 (fun u => wcce_value (t_dims (c t)) (t_dims (c' t)) (obs (c' t)) (obs (c'' t)) k (obs (c u)))).
    + intros u. rewrite Hz1, Hz2.
      destruct (wcce_array_rep (c u) (c' t) (c'' t) _ _ _ _ _ _ k Hp (tderiv_curve c t d Hc u) (rep_obs _) (rep_obs _)) as (a & -> & Ha). exact Ha.
    + intros i _. destruct Hp as ((Hd & _) & _). apply (deriv_wcce _ _ _ _ _ (fun u => obs (c u))); [done|apply Hc].
Qed.
End Weighted.
