(* ===== verification/TensorDerivative.v ===== *)
(** [backward] differentiates programs of tensor functions: one interface for all
    the functions, and the theorem about programs of them. *)
From S2P Require Import Prelude Autograd AutogradProofs AutogradFunctions AutogradReal RealSum AutogradPrograms AutogradAdjoint TensorFunctions TensorSpecs TensorReductions TensorLayout TensorSoftmax TensorProducts TensorLosses TensorSpace.
From Stdlib Require Import Reals Lra.

#[local] Open Scope R_scope.

(** The functions of the library that build one variable. *)
Inductive top :=
| TUn (o : unop) | TBin (o : binop) | TAs (newType : dtype)
| TTileAs (rdims : dim4) | TSumAs (rdims : dim4) | TTile (ds : dim4) | TSum (axes : list Z) | TMean (axes : list Z)
| TVar (axes : list Z) (isbiased : bool) | TNorm (axes : list Z) (p : R)
| TTranspose | TReorder (i0 i1 i2 i3 : Z) | TModdims (d : dim4) | TFlat | TPart (s : indices) | TConcatenate (dim : Z)
| TPadding (pad : list (Z * Z)) (val : R) | TRotate
| TMatmul | TMatmulTN | TMatmulNT | TLinear | TSoftmax (dim : Z) | TLogSoftmax (dim : Z) | TGlu (dim : Z) | TEmbedding
| TCce (reduction : ReduceMode) (ignoreIndex : Z) | TWcce (ignoreIndex : Z).

Section Functions.
Context {A : Type} `{RT : RealTensors A}.
Abbreviation dirs := (dim4 -> R).

Definition as_spec (t : dtype) : opspec :=
  unary_spec (fun v h => Ok (as_ v t h)) (a_as t) (fun _ T => T) (fun _ => True).

Lemma as_correct t : correct (as_spec t).
Proof.
  apply unary_correct.
  - intros v h _. exists false. eexists. split; [reflexivity|]. intros a c g _ Hl. eexists. split; [reflexivity|].
    pose proof (rt_as t (array v h) _ _ (rep_obs _)) as Hy. pose proof (like_rep _ _ _ _ Hy Hl) as Hg.
    apply adjoint_as. eapply adjoint_rep; [reflexivity|exact Hg|exact Hg|done].
  - intros c u d _ Hc. apply (tderiv_of _ _ (t_dims (c u)) (fun w => obs (c w))); [|apply Hc].
    intros w. eapply rep_ext; [apply rt_as; by apply (tderiv_curve c u d)|done|done].
Qed.

Definition spec (o : top) : opspec :=
  match o with
  | TUn o => unop_spec o | TBin o => binop_spec o | TAs t => as_spec t
  | TTileAs d => tileAs_spec d | TSumAs d => sumAs_spec d | TTile d => tile_spec d | TSum axes => sum_spec axes
  | TMean axes => mean_spec axes | TVar axes b => var_spec axes b | TNorm axes p => norm_spec axes p
  | TTranspose => transpose_spec | TReorder i0 i1 i2 i3 => reorder_spec i0 i1 i2 i3 | TModdims d => moddims_spec d
  | TFlat => flat_spec | TPart s => part_spec s | TConcatenate k => concat_spec k | TPadding pad k => padding_spec pad k
  | TRotate => rotate_spec | TMatmul => matmul_spec | TMatmulTN => matmulTN_spec | TMatmulNT => matmulNT_spec
  | TLinear => linear_spec | TSoftmax k => softmax_spec k | TLogSoftmax k => logSoftmax_spec k | TGlu k => glu_spec k
  | TEmbedding => embedding_spec | TCce r k => cce_spec r k | TWcce k => wcce_spec k
  end.

Lemma spec_correct o : correct (spec o).
Proof.
  destruct o; [apply unop_correct|apply binop_correct|apply as_correct|apply tileAs_correct|apply sumAs_correct|apply tile_correct
    |apply sum_correct|apply mean_correct|apply var_correct|apply norm_correct|apply transpose_correct|apply reorder_correct
    |apply moddims_correct|apply flat_correct|apply part_correct|apply concat_correct|apply padding_correct|apply rotate_correct
    |apply matmul_correct|apply matmulTN_correct|apply matmulNT_correct|apply linear_correct|apply softmax_correct
    |apply logSoftmax_correct|apply glu_correct|apply embedding_correct|apply cce_correct|apply wcce_correct].
Qed.

#[export] Instance tensor_functions : Ops top A dirs := {
  run o := sp_run (spec o); fwd o := sp_fwd (spec o); jvp o := sp_jvp (spec o); dom o := sp_dom (spec o);
  frozen o := sp_frozen (spec o)
}.

#[export] Instance tensor_functions_laws : OpLaws top A dirs.
Proof. split; intros o; [exact (correct_run _ (spec_correct o))|exact (correct_deriv _ (spec_correct o))]. Qed.

(** The pairing of a gradient, 0 when there is none, with a direction. *)
Definition pairing (g : option A) (T : dirs) : R :=
  match g with Some g => Rsum (grid (t_dims g)) (fun i => obs g i * T i) | None => 0 end.

(** C1. [backward] differentiates programs of tensor functions: run a
    straight-line program of the functions of the library over tensors of
    reals, from element-wise functions to products, reductions, softmax,
    losses and reshapings, each applied where its documentation and
    differentiability allow; call [backward] on any of its variables that
    depends on a leaf that wants its gradient, with a gradient [s] of the
    variable's shape. The call succeeds, and the gradient it leaves at every
    such leaf, 0 where it leaves none, pairs with every direction to the
    derivative, along that direction, of the result paired with [s]. This
    holds of every array type that behaves as ArrayFire documents on exact
    reals. *)
Theorem backward_gradient_tensors (p : list (instr top A)) k x r s retain :
  good p -> p !! k = Some (ILeaf x true) -> wanted p !! r = Some true -> t_dims s = t_dims (at_ (eval p) r) ->
  exists env h v vk h', exec p = Ok (env, h) /\ env !! r = Some v /\ env !! k = Some vk
    /\ (let '(g, h) := newVariable s false h in backward v g retain h) = Ok h'
    /\ forall c t T, c t = x -> tderiv c t T ->
         derivable_pt_lim
           (fun u => Rsum (grid (t_dims s)) (fun i => obs s i * obs (at_ (eval (with_leaf k (c u) p)) r) i)) t
           (pairing (gradval (grad_ vk) h') T).
Proof.
  intros Hg Hk Hr Hs. assert (Hl : like s (at_ (eval p) r)) by exact Hs.
  destruct (backward_program p k x r s retain Hg Hk Hr Hl) as (env & h & v & vk & h' & E & Hv & Hvk & Eb & Hd).
  exists env, h, v, vk, h'. split_and!; [done|done|done|done|]. intros c t T Hc HT.
  specialize (Hd c t T Hc HT). unfold pairing. by destruct (gradval (grad_ vk) h').
Qed.
End Functions.

(** * A concrete program: a linear classifier and its loss *)

Definition demo_input : tensor := Tensor (D4 2 3 1 1) (fun i => IZR (dim0 i + 2 * dim1 i)).
Definition demo_weight : tensor := Tensor (D4 2 2 1 1) (fun i => IZR (dim0 i - dim1 i)).
Definition demo_targets : tensor := Tensor (D4 3 1 1 1) (fun i => IZR (dim0 i mod 2)).

Definition demo_classifier : list (instr top tensor) :=
  [ILeaf demo_input false; ILeaf demo_weight true; IOp TMatmul [1%nat; 0%nat]; IOp (TLogSoftmax 0) [2%nat];
   ILeaf demo_targets false; IOp (TCce MEAN (-1)) [3%nat; 4%nat]].

Lemma demo_targets_fit : cce_fits (D4 2 3 1 1) (t_dims demo_targets) (obs demo_targets) MEAN (-1).
Proof.
  assert (Ht : t_dims demo_targets = D4 3 1 1 1) by reflexivity.
  assert (Hv : forall i, obs demo_targets i = IZR (dim0 i mod 2)) by reflexivity.
  split; [|split].
  - rewrite Ht. split; [unfold dall; cbn; lia|]. done.
  - intros i _. left. rewrite Hv. split; [apply IZR_le|apply IZR_lt]; (apply Z.mod_pos_bound; cbn; lia).
  - intros _. unfold counted. rewrite (Rsum_ext _ _ (fun _ => 1)).
    { replace (zrange 0 (frames (D4 2 3 1 1))) with [0%Z; 1%Z; 2%Z] by reflexivity. cbn. lra. }
   
    intros p _. unfold skip. rewrite Hv, bool_decide_eq_false_2; [done|]. intros E%eq_IZR.
    pose proof (Z.mod_pos_bound (dim0 (unlin (t_dims demo_targets) p)) 2 ltac:(lia)). lia.
Qed.

Lemma demo_classifier_good : good demo_classifier.
Proof.
  change demo_classifier with (((((([] ++ [ILeaf demo_input false]) ++ [ILeaf demo_weight true]) ++ [IOp TMatmul [1%nat; 0%nat]])
    ++ [IOp (TLogSoftmax 0) [2%nat]]) ++ [ILeaf demo_targets false]) ++ [IOp (TCce MEAN (-1)) [3%nat; 4%nat]]).
  repeat apply good_snoc; try exact I; [constructor|..].
  - split; [repeat constructor|]. split; [split; [|split]; reflexivity|]. done.
  - split; [repeat constructor|]. split; [split; [by left|vm_compute; done]|]. done.
  - split; [repeat constructor|]. split; [exact demo_targets_fit|]. intros [|[|[|]]] j; try done; intros [= <-] _; [reflexivity].
Qed.

Lemma demo_result_dims : t_dims (Tensor ones4 (fun _ => 1)) = t_dims (at_ (eval demo_classifier) 5).
Proof.
  set (x := at_ (eval demo_classifier) 3). change (at_ (eval demo_classifier) 5) with (val (cce_array (K := R) x demo_targets MEAN (-1))).
  assert (Hx : rep x (D4 2 3 1 1) (obs x)) by (split; [vm_compute; reflexivity|done]).
  destruct (cce_array_rep x demo_targets _ _ _ _ _ _ demo_targets_fit Hx (rep_obs _)) as (a & Ea & Ha).
  rewrite Ea. symmetry. exact (rep_dims _ _ _ Ha).
Qed.

Lemma backward_gradient_tensors_witness :
  let s := Tensor ones4 (fun _ => 1) in
  exists env h v vk h', exec demo_classifier = Ok (env, h) /\ env !! 5%nat = Some v /\ env !! 1%nat = Some vk
    /\ (let '(g, h) := newVariable s false h in backward v g false h) = Ok h'
    /\ forall c t T, c t = demo_weight -> tderiv c t T ->
         derivable_pt_lim
           (fun u => Rsum (grid (t_dims s)) (fun i => obs s i * obs (at_ (eval (with_leaf 1 (c u) demo_classifier)) 5) i)) t
           (pairing (gradval (grad_ vk) h') T).
Proof.
  exact (backward_gradient_tensors demo_classifier 1 demo_weight 5 (Tensor ones4 (fun _ => 1)) false
           demo_classifier_good eq_refl eq_refl demo_result_dims).
Defined.

(** ** Where the tensor functions fail: the gradient of a tiling that repeats a
    dimension that is already larger than one, and ignored targets of the weighted
    cross entropy. *)

#[local] Open Scope Z_scope.

Section Failing.
Context {A : Type} `{Arrays A}.

(** An operation on one leaf whose gradient function throws. *)
Lemma backward_throws (x y g : A) f e retain :
  a_type g = a_type y -> (forall ins, f ins g = Throw e) ->
  let '(v, h0) := newVariable x true empty_heap in
  let '(r, h1) := makeOp y [(v, false)] f h0 in
  let '(gv, h2) := newVariable g false h1 in backward r gv retain h2 = Throw e.
Proof.
  intros Ht Hf. cbn. set (h2 := MkHeap _ _ _).
  assert (E2 : sg 2 h2 = MkSharedGrad true [Var 1 0] None (Some f) None) by reflexivity.
  assert (Ey : array (Var 2 2) h2 = y) by reflexivity. assert (Eg : array (Var 3 3) h2 = g) by reflexivity.
  unfold backward, addGrad. cbn [grad_ data_]. rewrite E2. cbn [calcGrad negb grad].
  unfold type. rewrite Ey, Eg, bool_decide_eq_true_2 by done. cbn [negb].
  set (h3 := upd _ _ _).
  assert (Eb : exists l, reverse (build (Var 2 2) h3) = Var 2 2 :: l) by (eexists; reflexivity).
  destruct Eb as [l ->]. cbn [foldM_result]. unfold backwardStep, calcGradInputs. cbn [grad_].
  assert (E3 : sg 2 h3 = MkSharedGrad true [Var 1 0] (Some (Var 3 3)) (Some f) None) by reflexivity.
  rewrite E3. cbn [gradFunc grad]. assert (Eg3 : array (Var 3 3) h3 = g) by reflexivity. by rewrite Eg3, Hf.
Qed.
End Failing.

Section Errors.
Context {A : Type} `{RT : RealTensors A}.

Lemma sumAs_mismatch (a : A) (d : dim4) k :
  axis k -> dget d k <> 1 -> dget (t_dims a) k <> dget d k -> vsumAs (K := R) DEFAULT a d = Throw InvalidArgument.
Proof.
  intros Hk H1' Hne. unfold vsumAs, sumAs_array, adjustInputType.
  assert (E : forall l r, k ∈ l -> foldM_result (fun r i =>
     if dget (t_dims a) i =? dget d i then Ok r else if negb (dget d i =? 1) then Throw InvalidArgument else Ok (t_sum r i)) r l = Throw InvalidArgument).
  { induction l as [|j l IH]; intros r Hin; [by apply elem_of_nil in Hin|]. cbn [foldM_result].
    destruct (Z.eqb_spec (dget (t_dims a) j) (dget d j)) as [Ej|Ej].
    - apply IH. apply elem_of_cons in Hin as [->|Hin]; [congruence|done].
    - destruct (Z.eqb_spec (dget d j) 1); [|done]. cbn. apply IH. apply elem_of_cons in Hin as [->|Hin]; [congruence|done]. }
  rewrite E; [done|]. by apply elem_of_four.
Qed.

(** C36. [tile] accepts to repeat a dimension that is already larger than one,
    but the result cannot be differentiated: for a leaf that wants its
    gradient with more than one element along a dimension that is repeated
    more than once, [tile] succeeds and [backward] from its result, with any
    gradient of the result's shape, throws [std::invalid_argument]. *)
Theorem tile_backward_throws (x g : A) ds k retain :
  axis k -> dall (Z.le 1) ds -> 1 < dget (t_dims x) k -> 1 < dget ds k -> t_dims g = t_dims (t_tile x ds) ->
  let '(v, h0) := newVariable x true empty_heap in
  exists r h1, tile (K := R) DEFAULT v ds h0 = Ok (r, h1)
    /\ (let '(gv, h2) := newVariable g false h1 in backward r gv retain h2 = Throw InvalidArgument).
Proof.
  intros Hk Hp Hx Hds Hg.
  pose proof (backward_throws x (t_tile x ds) g (grad_tileAs (K := R) DEFAULT (t_dims x)) InvalidArgument retain (rt_type _ _)) as Hb.
  specialize (Hb ltac:(intros ins; unfold grad_tileAs, give; rewrite (sumAs_mismatch g (t_dims x) k); [done|done|lia|];
    rewrite Hg, (rep_dims _ _ _ (rt_tile x _ _ ds (rep_obs x) Hp));
    assert (E : dget (dmul (t_dims x) ds) k = dget (t_dims x) k * dget ds k) by (destruct (t_dims x), ds; by axes); rewrite E; nia)).
  destruct (newVariable x true empty_heap) as [v h0] eqn:Ev. 
  unfold tile, shaped, dims. injection Ev as <- <-. eexists _, _. split; [reflexivity|]. exact Hb.
Qed.
End Errors.

Lemma tile_backward_throws_witness :
  let x := Tensor (D4 2 1 1 1) (fun i => IZR (dim0 i)) in
  let g := Tensor (D4 4 1 1 1) (fun _ => 1%R) in
  (1 < dget (t_dims x) 0 /\ t_dims g = t_dims (t_tile x (D4 2 1 1 1)))
  /\ let '(v, h0) := newVariable x true empty_heap in
     exists r h1, tile (K := R) DEFAULT v (D4 2 1 1 1) h0 = Ok (r, h1)
       /\ (let '(gv, h2) := newVariable g false h1 in backward r gv false h2 = Throw InvalidArgument).
Proof.
  split; [split; [by vm_compute|reflexivity]|].
  refine (tile_backward_throws (Tensor (D4 2 1 1 1) (fun i => IZR (dim0 i))) (Tensor (D4 4 1 1 1) (fun _ => 1%R)) (D4 2 1 1 1) 0 false _ _ _ _ _).
  - by left.
  - unfold dall. cbn. lia.
  - by vm_compute.
  - by vm_compute.
  - reflexivity.
Defined.
