(* ===== verification/Optimizers.v ===== *)
(** [fl/optim]: the first-order optimisers and gradient clipping.

    Parameters are variables that share their array and gradient with the model
    ([Autograd.var]); a step writes both in place.  The running averages of an
    optimiser are arrays of its own, one per parameter.  ArrayFire's element-wise
    operations and the scalars are a parameter ([OptimOps]); [float] and [double]
    scalars are not told apart.  A division by zero, such as NAG's by the learning
    rate of the step before, has the value its instance gives it: infinite or not a
    number with the special values of IEEE 754 ([LmTrainer.xreal_optim]); the theorems
    over exact reals assume the divisors that can be zero not to be.  [fl::eval] only forces a lazy array. *)
From S2P Require Import Prelude Autograd.

Open Scope Z_scope.

Class OptimOps (A K : Type) := {
  o_zeros : A -> A;                    (* [af::constant(0, a.dims(), a.type())] *)
  o_scale : K -> A -> A;
  o_divk : A -> K -> A;
  o_addk : A -> K -> A;
  o_sub : A -> A -> A;
  o_mul : A -> A -> A;
  o_div : A -> A -> A;
  o_max : A -> A -> A;
  o_sqrt : A -> A;
  o_sum : A -> K;                      (* [af::sum<double>] *)
  s_of : Z -> K;
  s_micro : K;                         (* [1e-6] *)
  s_add : K -> K -> K;
  s_sub : K -> K -> K;
  s_mul : K -> K -> K;
  s_div : K -> K -> K;
  s_sqrt : K -> K;
  s_pow : K -> Z -> K;
  s_nonzero : K -> bool;               (* [!= 0] *)
  s_le : K -> K -> bool
}.

Section Optimizers.
Context {A K : Type} `{Arrays A, OptimOps A K}.
Abbreviation heap := (Autograd.heap (A := A)).

(** [v.array() = a] *)
Definition setArray (v : var) (a : A) (h : heap) : heap := MkHeap (<[data_ v := a]> (datas h)) (grads h) (next h).

(** [const] arrays of zeros like the parameters. *)
Definition zerosLike (ps : list var) (h : heap) : list A := (fun p => o_zeros (array p h)) <$> ps.

(** * The base class *)

Record FirstOrderOptimizer := FOO { parameters_ : list var; lr_ : K }.

Definition setLrBase (lr : K) (b : FirstOrderOptimizer) : FirstOrderOptimizer := FOO (parameters_ b) lr.
Definition zeroGrads (b : FirstOrderOptimizer) (h : heap) : heap := fold_left (fun h p => zeroGrad p h) (parameters_ b) h.

(** The loop of every [step()]: the parameters without a gradient are skipped; the
    body gets the index, the parameter and its gradient. *)
Definition forGradients {S} (ps : list var) (body : nat -> var -> var -> S -> heap -> result (S * heap))
    (s : S) (h : heap) : result (S * heap) :=
  foldM_result (fun '(s, h) '(i, p) =>
    if negb (isGradAvailable p h) then Ok (s, h)
    else g ← getGrad p h; body i p g s h) (s, h) (imap pair ps).

(** [xs[i]] on a vector of an optimiser, and its update *)
Definition at_ {X} (l : list X) (i : nat) : result X := match l !! i with Some x => Ok x | None => Throw Undefined end.

(** * SGD *)

Record SGDOptimizer := SGD {
  sgd_base : FirstOrderOptimizer; sgd_useNesterov_ : bool; sgd_mu_ : K; sgd_wd_ : K; sgd_velocities_ : list A }.

Definition newSGD (ps : list var) (learningRate momentum weightDecay : K) (useNesterov : bool) (h : heap) : SGDOptimizer :=
  SGD (FOO ps learningRate) useNesterov momentum weightDecay (if s_nonzero momentum then zerosLike ps h else []).

Definition SGD_body (lr mu wd : K) (useNesterov : bool) (i : nat) (p g : var) (velocities : list A) (h : heap)
    : result (list A * heap) :=
  let h := if s_nonzero wd then setArray g (a_add (array g h) (o_scale wd (array p h))) h else h in
  '(velocities, h) ←
    (if s_nonzero mu then
       velocity ← at_ velocities i;
       let velocity := a_add (o_scale mu velocity) (array g h) in
       Ok (<[i := velocity]> velocities,
           if useNesterov then setArray g (a_add (array g h) (o_scale mu velocity)) h else setArray g velocity h)
     else Ok (velocities, h));
  Ok (velocities, setArray p (o_sub (array p h) (o_scale lr (array g h))) h).

Definition SGD_step (o : SGDOptimizer) (h : heap) : result (SGDOptimizer * heap) :=
  '(v, h) ← forGradients (parameters_ (sgd_base o))
             (SGD_body (lr_ (sgd_base o)) (sgd_mu_ o) (sgd_wd_ o) (sgd_useNesterov_ o)) (sgd_velocities_ o) h;
  Ok (SGD (sgd_base o) (sgd_useNesterov_ o) (sgd_mu_ o) (sgd_wd_ o) v, h).

(** * NAG *)

Record NAGOptimizer := NAG {
  nag_base : FirstOrderOptimizer; nag_mu_ : K; nag_wd_ : K; nag_velocities_ : list A; nag_oldLr_ : K }.

Definition newNAG (ps : list var) (learningRate momentum weightDecay : K) (h : heap) : result NAGOptimizer :=
  if s_le momentum (s_of 0) then Throw RuntimeError
  else Ok (NAG (FOO ps learningRate) momentum weightDecay (zerosLike ps h) learningRate).

Definition NAG_body (lr mu wd correctedLr : K) (i : nat) (p g : var) (velocities : list A) (h : heap)
    : result (list A * heap) :=
  let h := if s_nonzero wd then setArray p (o_scale (s_sub (s_of 1) (s_mul lr wd)) (array p h)) h else h in
  velocity ← at_ velocities i;
  let velocity := a_add (o_scale correctedLr (o_scale mu velocity)) (o_scale lr (array g h)) in
  let h := setArray g (a_add (o_scale lr (array g h)) (o_scale mu velocity)) h in
  Ok (<[i := velocity]> velocities, setArray p (o_sub (array p h) (array g h)) h).

Definition NAG_step (o : NAGOptimizer) (h : heap) : result (NAGOptimizer * heap) :=
  let correctedLr := s_div (lr_ (nag_base o)) (nag_oldLr_ o) in
  '(v, h) ← forGradients (parameters_ (nag_base o))
             (NAG_body (lr_ (nag_base o)) (nag_mu_ o) (nag_wd_ o) correctedLr) (nag_velocities_ o) h;
  Ok (NAG (nag_base o) (nag_mu_ o) (nag_wd_ o) v (lr_ (nag_base o)), h).

(** * Adam *)

Record AdamOptimizer := Adam {
  adam_base : FirstOrderOptimizer; adam_beta1_ : K; adam_beta2_ : K; adam_eps_ : K; adam_wd_ : K; adam_count_ : Z;
  adam_biasedFirst_ : list A; adam_biasedSecond_ : list A }.

Definition newAdam (ps : list var) (learningRate beta1 beta2 epsilon weightDecay : K) (h : heap) : AdamOptimizer :=
  Adam (FOO ps learningRate) beta1 beta2 epsilon weightDecay 0 (zerosLike ps h) (zerosLike ps h).

(** [beta * acc + (1 - beta) * grad] and [beta * acc + (1 - beta) * grad * grad] *)
Definition average (beta : K) (acc grad : A) : A := a_add (o_scale beta acc) (o_scale (s_sub (s_of 1) beta) grad).
Definition averageSq (beta : K) (acc grad : A) : A :=
  a_add (o_scale beta acc) (o_mul (o_scale (s_sub (s_of 1) beta) grad) grad).

Definition Adam_body (lr correctedLr beta1 beta2 eps wd : K) (i : nat) (p g : var) (s : list A * list A) (h : heap)
    : result ((list A * list A) * heap) :=
  let h := if s_nonzero wd then setArray p (o_sub (array p h) (o_scale (s_mul wd lr) (array p h))) h else h in
  first ← at_ s.1 i; second ← at_ s.2 i;
  let first := average beta1 first (array g h) in
  let second := averageSq beta2 second (array g h) in
  Ok ((<[i := first]> s.1, <[i := second]> s.2),
      setArray p (o_sub (array p h) (o_div (o_scale correctedLr first) (o_addk (o_sqrt second) eps))) h).

(** [int] wraps. *)
Definition incr (count : Z) : Z := (count + 1 + 2 ^ 31) mod 2 ^ 32 - 2 ^ 31.

Definition Adam_step (o : AdamOptimizer) (h : heap) : result (AdamOptimizer * heap) :=
  let count := incr (adam_count_ o) in
  let correctedBias1 := s_sub (s_of 1) (s_pow (adam_beta1_ o) count) in
  let correctedBias2 := s_sub (s_of 1) (s_pow (adam_beta2_ o) count) in
  let correctedLr := s_div (s_mul (lr_ (adam_base o)) (s_sqrt correctedBias2)) correctedBias1 in
  '(s, h) ← forGradients (parameters_ (adam_base o))
             (Adam_body (lr_ (adam_base o)) correctedLr (adam_beta1_ o) (adam_beta2_ o) (adam_eps_ o) (adam_wd_ o))
             (adam_biasedFirst_ o, adam_biasedSecond_ o) h;
  Ok (Adam (adam_base o) (adam_beta1_ o) (adam_beta2_ o) (adam_eps_ o) (adam_wd_ o) count s.1 s.2, h).

(** The weight decay of the other optimisers, [data = data - wd * data] *)
Definition decayed (wd : K) (p : var) (h : heap) : heap :=
  if s_nonzero wd then setArray p (o_sub (array p h) (o_scale wd (array p h))) h else h.

(** * AMSgrad *)

Record AMSgradOptimizer := AMSgrad {
  ams_base : FirstOrderOptimizer; ams_beta1_ : K; ams_beta2_ : K; ams_eps_ : K; ams_wd_ : K;
  ams_biasedFirst_ : list A; ams_biasedSecond_ : list A; ams_maxExpAvgSq_ : list A }.

Definition newAMSgrad (ps : list var) (learningRate beta1 beta2 epsilon weightDecay : K) (h : heap) : AMSgradOptimizer :=
  AMSgrad (FOO ps learningRate) beta1 beta2 epsilon weightDecay (zerosLike ps h) (zerosLike ps h) (zerosLike ps h).

Definition AMSgrad_body (lr beta1 beta2 eps wd : K) (i : nat) (p g : var) (s : list A * list A * list A) (h : heap)
    : result ((list A * list A * list A) * heap) :=
  let h := decayed wd p h in
  first ← at_ s.1.1 i; second ← at_ s.1.2 i; top ← at_ s.2 i;
  let first := average beta1 first (array g h) in
  let second := averageSq beta2 second (array g h) in
  let top := o_max top second in
  Ok ((<[i := first]> s.1.1, <[i := second]> s.1.2, <[i := top]> s.2),
      setArray p (o_sub (array p h) (o_div (o_scale lr first) (o_addk (o_sqrt top) eps))) h).

Definition AMSgrad_step (o : AMSgradOptimizer) (h : heap) : result (AMSgradOptimizer * heap) :=
  '(s, h) ← forGradients (parameters_ (ams_base o))
             (AMSgrad_body (lr_ (ams_base o)) (ams_beta1_ o) (ams_beta2_ o) (ams_eps_ o) (ams_wd_ o))
             (ams_biasedFirst_ o, ams_biasedSecond_ o, ams_maxExpAvgSq_ o) h;
  Ok (AMSgrad (ams_base o) (ams_beta1_ o) (ams_beta2_ o) (ams_eps_ o) (ams_wd_ o) s.1.1 s.1.2 s.2, h).

(** * Adadelta *)

Record AdadeltaOptimizer := Adadelta {
  adadelta_base : FirstOrderOptimizer; adadelta_rho_ : K; adadelta_eps_ : K; adadelta_wd_ : K;
  adadelta_accGrad_ : list A; adadelta_accDelta_ : list A }.

Definition newAdadelta (ps : list var) (learningRate rho epsilon weightDecay : K) (h : heap) : AdadeltaOptimizer :=
  Adadelta (FOO ps learningRate) rho epsilon weightDecay (zerosLike ps h) (zerosLike ps h).

Definition Adadelta_body (lr rho eps wd : K) (i : nat) (p g : var) (s : list A * list A) (h : heap)
    : result ((list A * list A) * heap) :=
  let h := decayed wd p h in
  accGrad ← at_ s.1 i; accDelta ← at_ s.2 i;
  let accGrad := averageSq rho accGrad (array g h) in
  let delta := o_mul (o_div (o_sqrt (o_addk accDelta eps)) (o_sqrt (o_addk accGrad eps))) (array g h) in
  let h := setArray p (o_sub (array p h) (o_scale lr delta)) h in
  Ok ((<[i := accGrad]> s.1, <[i := averageSq rho accDelta delta]> s.2), h).

Definition Adadelta_step (o : AdadeltaOptimizer) (h : heap) : result (AdadeltaOptimizer * heap) :=
  '(s, h) ← forGradients (parameters_ (adadelta_base o))
             (Adadelta_body (lr_ (adadelta_base o)) (adadelta_rho_ o) (adadelta_eps_ o) (adadelta_wd_ o))
             (adadelta_accGrad_ o, adadelta_accDelta_ o) h;
  Ok (Adadelta (adadelta_base o) (adadelta_rho_ o) (adadelta_eps_ o) (adadelta_wd_ o) s.1 s.2, h).

(** * Adagrad *)

Record AdagradOptimizer := Adagrad {
  adagrad_base : FirstOrderOptimizer; adagrad_eps_ : K; adagrad_wd_ : K; adagrad_variance_ : list A }.

Definition newAdagrad (ps : list var) (learningRate epsilon weightDecay : K) (h : heap) : AdagradOptimizer :=
  Adagrad (FOO ps learningRate) epsilon weightDecay (zerosLike ps h).

Definition Adagrad_body (lr eps wd : K) (i : nat) (p g : var) (variances : list A) (h : heap) : result (list A * heap) :=
  v ← at_ variances i;
  let h := decayed wd p h in
  let v := a_add v (o_mul (array g h) (array g h)) in
  Ok (<[i := v]> variances,
      setArray p (o_sub (array p h) (o_div (o_scale lr (array g h)) (o_addk (o_sqrt v) eps))) h).

Definition Adagrad_step (o : AdagradOptimizer) (h : heap) : result (AdagradOptimizer * heap) :=
  '(v, h) ← forGradients (parameters_ (adagrad_base o))
             (Adagrad_body (lr_ (adagrad_base o)) (adagrad_eps_ o) (adagrad_wd_ o)) (adagrad_variance_ o) h;
  Ok (Adagrad (adagrad_base o) (adagrad_eps_ o) (adagrad_wd_ o) v, h).

(** * RMSProp *)

Record RMSPropOptimizer := RMSProp {
  rms_base : FirstOrderOptimizer; rms_useFirst_ : bool; rms_rho_ : K; rms_eps_ : K; rms_wd_ : K;
  rms_first_ : list A; rms_second_ : list A }.

Definition newRMSProp (ps : list var) (learningRate rho epsilon weightDecay : K) (use_first : bool) (h : heap)
    : RMSPropOptimizer :=
  RMSProp (FOO ps learningRate) use_first rho epsilon weightDecay (if use_first then zerosLike ps h else []) (zerosLike ps h).

Definition RMSProp_body (lr rho eps wd : K) (useFirst : bool) (i : nat) (p g : var) (s : list A * list A) (h : heap)
    : result ((list A * list A) * heap) :=
  let h := decayed wd p h in
  second ← at_ s.2 i;
  let second := averageSq rho second (array g h) in
  '(firsts, moments) ←
    (if useFirst then
       first ← at_ s.1 i;
       let first := average rho first (array g h) in
       Ok (<[i := first]> s.1, o_sub second (o_mul first first))
     else Ok (s.1, second));
  Ok ((firsts, <[i := second]> s.2),
      setArray p (o_sub (array p h) (o_div (o_scale lr (array g h)) (o_addk (o_sqrt moments) eps))) h).

Definition RMSProp_step (o : RMSPropOptimizer) (h : heap) : result (RMSPropOptimizer * heap) :=
  '(s, h) ← forGradients (parameters_ (rms_base o))
             (RMSProp_body (lr_ (rms_base o)) (rms_rho_ o) (rms_eps_ o) (rms_wd_ o) (rms_useFirst_ o))
             (rms_first_ o, rms_second_ o) h;
  Ok (RMSProp (rms_base o) (rms_useFirst_ o) (rms_rho_ o) (rms_eps_ o) (rms_wd_ o) s.1 s.2, h).

(** * Novograd *)

Record NovogradOptimizer := Novograd {
  novo_base : FirstOrderOptimizer; novo_beta1_ : K; novo_beta2_ : K; novo_eps_ : K; novo_wd_ : K;
  novo_accGradNorm_ : list K; novo_accGrad_ : list A }.

Definition newNovograd (ps : list var) (learningRate beta1 beta2 epsilon weightDecay : K) (h : heap) : NovogradOptimizer :=
  Novograd (FOO ps learningRate) beta1 beta2 epsilon weightDecay ((fun _ => s_of 0) <$> ps) (zerosLike ps h).

Definition Novograd_body (lr beta1 beta2 eps wd : K) (i : nat) (p g : var) (s : list K * list A) (h : heap)
    : result ((list K * list A) * heap) :=
  accGrad ← at_ s.2 i;
  let gradNorm := o_sum (o_mul (array g h) (array g h)) in
  accGradNorm ← at_ s.1 i;
  let accGradNorm := s_add (s_mul beta2 accGradNorm) (s_mul (s_sub (s_of 1) beta2) gradNorm) in
  let accGrad := a_add (o_scale beta1 accGrad)
    (o_scale (s_sub (s_of 1) beta1)
       (a_add (o_divk (array g h) (s_add (s_sqrt accGradNorm) eps)) (o_scale wd (array p h)))) in
  Ok ((<[i := accGradNorm]> s.1, <[i := accGrad]> s.2),
      setArray p (o_sub (array p h) (o_scale lr accGrad)) h).

Definition Novograd_step (o : NovogradOptimizer) (h : heap) : result (NovogradOptimizer * heap) :=
  '(s, h) ← forGradients (parameters_ (novo_base o))
             (Novograd_body (lr_ (novo_base o)) (novo_beta1_ o) (novo_beta2_ o) (novo_eps_ o) (novo_wd_ o))
             (novo_accGradNorm_ o, novo_accGrad_ o) h;
  Ok (Novograd (novo_base o) (novo_beta1_ o) (novo_beta2_ o) (novo_eps_ o) (novo_wd_ o) s.1 s.2, h).

(** * Gradient clipping *)

Definition sumSquares (ps : list var) (h : heap) : result K :=
  foldM_result (fun n p =>
    if negb (isGradAvailable p h) then Ok n
    else g ← getGrad p h; Ok (s_add n (o_sum (o_mul (array g h) (array g h))))) (s_of 0) ps.

Definition scaleGrads (scale : K) (ps : list var) (h : heap) : result heap :=
  foldM_result (fun h p =>
    if negb (isGradAvailable p h) then Ok h
    else g ← getGrad p h; Ok (setArray g (o_scale scale (array g h)) h)) h ps.

Definition clipGradNorm (ps : list var) (maxNorm : K) (h : heap) : result (K * heap) :=
  gradNorm ← sumSquares ps h;
  let gradNorm := s_sqrt gradNorm in
  let scale := s_div maxNorm (s_add gradNorm s_micro) in
  if s_le (s_of 1) scale then Ok (gradNorm, h)
  else h ← scaleGrads scale ps h; Ok (gradNorm, h).
End Optimizers.
