(* ===== verification/OptimizerProofs.v ===== *)
(** What the optimisers of [fl/optim] compute: every [step()] acts on each parameter
    by itself, so that training is an iteration of a rule on one array; over the
    reals, closed forms of these iterations, the equivalence of NAG and SGD with
    Nesterov momentum, and the bound clipping enforces. *)
From S2P Require Import Prelude Autograd AutogradFunctions AutogradReal RealSum Optimizers.
From Stdlib Require Import Reals Lra.

#[local] Open Scope Z_scope.

(** * Steps on separate parameters *)

Section Local.
Context {A : Type} `{Arrays A}.
Abbreviation heap := (Autograd.heap (A := A)).

(** The arrays a step on [p] can touch. *)
Definition cells (h : heap) (p : var) : list nat :=
  data_ p :: match getGrad p h with Ok g => [data_ g] | Throw _ => [] end.

Definition separate (h : heap) (ps : list var) : Prop :=
  (forall p g, p ∈ ps -> getGrad p h = Ok g -> data_ g <> data_ p)
  /\ (forall i j p q, i <> j -> ps !! i = Some p -> ps !! j = Some q -> forall c, c ∈ cells h p -> c ∉ cells h q).

Lemma separate_cons h p ps :
  separate h (p :: ps) -> (forall g, getGrad p h = Ok g -> data_ g <> data_ p)
    /\ (forall q c, q ∈ ps -> c ∈ cells h p -> c ∉ cells h q) /\ separate h ps.
Proof.
  intros [Hg Hd]. split; [|split; [|split]].
  - intros g. apply Hg. by left.
  - intros q c Hq. apply list_elem_of_lookup in Hq as [j Hj]. by apply (Hd 0%nat (S j)).
  - intros q g Hq. apply Hg. by right.
  - intros i j q r Hne Hi Hj. apply (Hd (S i) (S j)); [lia|done|done].
Qed.

Lemma isGradAvailable_getGrad p (h : heap) : isGradAvailable p h = match getGrad p h with Ok _ => true | Throw _ => false end.
Proof. unfold isGradAvailable, getGrad. destruct (calcGrad _); [|done]. by destruct (grad _). Qed.

Lemma getGrad_grads p (h h' : heap) : grads h' = grads h -> getGrad p h' = getGrad p h.
Proof. intros E. unfold getGrad, sg. by rewrite E. Qed.
Lemma cells_grads p (h h' : heap) : grads h' = grads h -> cells h' p = cells h p.
Proof. intros E. unfold cells. by rewrite (getGrad_grads p h h'). Qed.

Lemma array_set v w a (h : heap) : array v (setArray w a h) = if decide (data_ v = data_ w) then a else array v h.
Proof.
  unfold array, setArray. cbn. destruct (decide (data_ v = data_ w)) as [->|].
  - by rewrite lookup_insert_eq.
  - by rewrite lookup_insert_ne.
Qed.

(** A body that, for one parameter, turns its array [x] and gradient [g] and the
    optimiser's slot [l] into [rule l x g], and leaves the rest alone. *)
Definition local_body {S L} (slot : S -> nat -> option L) (rule : L -> A -> A -> L * A)
    (body : nat -> var -> var -> S -> heap -> result (S * heap)) : Prop :=
  forall i p g s h l, data_ g <> data_ p -> slot s i = Some l ->
  exists s' h', body i p g s h = Ok (s', h')
    /\ grads h' = grads h /\ next h' = next h
    /\ slot s' i = Some (rule l (array p h) (array g h)).1
    /\ (forall j, j <> i -> slot s' j = slot s j)
    /\ array p h' = (rule l (array p h) (array g h)).2
    /\ (forall v, data_ v <> data_ p -> data_ v <> data_ g -> array v h' = array v h).

Context {S L : Type} (slot : S -> nat -> option L) (rule : L -> A -> A -> L * A)
  (body : nat -> var -> var -> S -> heap -> result (S * heap)) (Hbody : local_body slot rule body).

(** What the loop leaves of a parameter with index [i]. *)
Definition stepped (s : S) (h : heap) (s' : S) (h' : heap) (i : nat) (p : var) : Prop :=
  match getGrad p h, slot s i with
  | Ok g, Some l => slot s' i = Some (rule l (array p h) (array g h)).1 /\ array p h' = (rule l (array p h) (array g h)).2
  | _, _ => slot s' i = slot s i /\ array p h' = array p h
  end.

Definition loop (l : list (nat * var)) (s : S) (h : heap) : result (S * heap) :=
  foldM_result (fun '(s, h) '(i, p) =>
    if negb (isGradAvailable p h) then Ok (s, h)
    else g ← getGrad p h; body i p g s h) (s, h) l.

Lemma loop_local l s h :
  NoDup l.*1 -> separate h l.*2 -> (forall i, i ∈ l.*1 -> is_Some (slot s i)) ->
  exists s' h', loop l s h = Ok (s', h') /\ grads h' = grads h /\ next h' = next h
    /\ (forall i p, (i, p) ∈ l -> stepped s h s' h' i p)
    /\ (forall j, j ∉ l.*1 -> slot s' j = slot s j)
    /\ (forall v, (forall p, p ∈ l.*2 -> data_ v ∉ cells h p) -> array v h' = array v h).
Proof.
  revert s h. induction l as [|[i p] l IH]; intros s h Hnd Hsep Hs; cbn [fmap list_fmap fst snd] in *.
  { eexists s, h. split; [done|]. split_and!; try done. by intros i p Hi%not_elem_of_nil. }
  apply NoDup_cons in Hnd as [Hi Hnd]. apply separate_cons in Hsep as (Hg & Hd & Hsep).
  assert (Hrest : exists s1 h1, loop [(i, p)] s h = Ok (s1, h1) /\ grads h1 = grads h /\ next h1 = next h
      /\ stepped s h s1 h1 i p /\ (forall j, j <> i -> slot s1 j = slot s j)
      /\ (forall v, data_ v ∉ cells h p -> array v h1 = array v h)).
  { cbn. rewrite isGradAvailable_getGrad. unfold stepped, cells. destruct (getGrad p h) as [g|e] eqn:Eg; cbn.
    - destruct (Hs i) as [l0 El]; [by left|].
      destruct (Hbody i p g s h l0 (Hg g eq_refl) El) as (s1 & h1 & E & Gr & Nx & Sl & So & Ap & Ao).
      exists s1, h1. rewrite E, El. split_and!; try done. intros v Hv. apply Ao; intros E'; apply Hv; rewrite E'; [by left|right; by left].
    - by eexists s, h. }
  destruct Hrest as (s1 & h1 & E1 & Gr1 & Nx1 & St1 & So1 & Ao1).
  assert (Hc : forall q, cells h1 q = cells h q) by (intros q; by apply cells_grads).
  destruct (IH s1 h1) as (s2 & h2 & E2 & Gr2 & Nx2 & St2 & So2 & Ao2).
  { done. }
  { destruct Hsep as [Sg Sd]. split.
    - intros q g Hq Eg. apply (Sg q g Hq). by rewrite <- (getGrad_grads q h h1 Gr1).
    - intros j k q r Hjk Hj Hk. rewrite !Hc. by apply (Sd j k). }
  { intros j Hj. rewrite So1; [apply Hs; by right|]. by intros ->. }
  exists s2, h2. change ((i, p) :: l) with ([(i, p)] ++ l). unfold loop in *. rewrite foldM_result_app, E1, E2.
  split_and!; try done; [by rewrite Gr2|by rewrite Nx2|..].
  - intros j q [[= -> ->]|Hq]%elem_of_cons.
    + assert (slot s2 i = slot s1 i /\ array p h2 = array p h1) as [Ks Ka].
      { split; [by apply So2|]. apply Ao2. intros q Hq. rewrite Hc. apply Hd; [done|by left]. }
      unfold stepped in *. by rewrite Ks, Ka.
    + assert (Hin : q ∈ l.*2) by (apply list_elem_of_fmap; by exists (j, q)).
      assert (Hji : j <> i) by (intros ->; apply Hi; apply list_elem_of_fmap; by exists (i, q)).
      specialize (St2 j q Hq). unfold stepped in *. rewrite (getGrad_grads q h h1 Gr1), (So1 j Hji) in St2.
      assert (Haq : forall v, data_ v ∈ cells h q -> array v h1 = array v h).
      { intros v Hv. apply Ao1. intros Hv'. by apply (Hd q (data_ v)). }
      rewrite (Haq q) in St2 by (by left).
      destruct (getGrad q h) as [g|] eqn:Eg; [|done].
      rewrite (Haq g) in St2; [done|]. unfold cells. rewrite Eg. right. by left.
  - intros j Hj. rewrite So2, So1; [done| |]; [intros ->; apply Hj; by left|intros ?; apply Hj; by right].
  - intros v Hv. rewrite Ao2, Ao1; [done| |]; [apply Hv; by left|]. intros q Hq. rewrite Hc. apply Hv. by right.
Qed.
End Local.

(** * Training *)

(** What the loops of all optimisers have in common: [s] stands for the vectors
    of averages, [slot] for one parameter's share of them, [rule] for what a step
    does to one array, [tick] for what it does to the other members. *)
Class Optimizer (A K O S L : Type) `{Arrays A} := {
  base : O -> FirstOrderOptimizer (K := K);
  setLr : K -> O -> O;
  step : O -> Autograd.heap (A := A) -> result (O * Autograd.heap (A := A));
  get : O -> S;
  put : S -> O -> O;
  tick : O -> O;
  slot : O -> S -> nat -> option L;
  rule : O -> L -> A -> A -> L * A;
  body : O -> nat -> var -> var -> S -> Autograd.heap (A := A) -> result (S * Autograd.heap (A := A))
}.

Class OptimizerLaws (A K O S L : Type) `{Optimizer A K O S L} : Prop := {
  base_setLr : forall lr o, base (setLr lr o) = setLrBase lr (base o);
  base_put : forall s o, base (put s o) = base o;
  parameters_tick : forall o, parameters_ (base (tick o)) = parameters_ (base o);
  get_setLr : forall lr o, get (setLr lr o) = get o;
  put_get : forall o, put (get o) o = o;
  get_put : forall s o, get (put s o) = s;
  put_put : forall s s' o, put s (put s' o) = put s o;
  setLr_put : forall lr s o, setLr lr (put s o) = put s (setLr lr o);
  tick_put : forall s o, tick (put s o) = put s (tick o);
  slot_put : forall s o, slot (put s o) = slot o;
  slot_setLr : forall lr o, slot (setLr lr o) = slot o;
  slot_tick : forall o, slot (tick o) = slot o;
  rule_put : forall s o, rule (put s o) = rule o;
  step_loop : forall o h, step o h = ('(s, h) ← forGradients (parameters_ (base o)) (body o) (get o) h; Ok (put s (tick o), h));
  body_local : forall o, local_body (slot o) (rule o) (body o)
}.

Section Training.
Context {A K O S L : Type} `{OptimizerLaws A K O S L} (one_type : forall a b : A, a_type a = a_type b).
Abbreviation heap := (Autograd.heap (A := A)).

(** One round: the gradients are reset, [backward] leaves the arrays [gs] as the
    gradients, the learning rate is set, the optimiser steps. *)
Definition giveGrads (ps : list var) (gs : list A) (h : heap) : result heap :=
  foldM_result (fun h '(p, g) => let '(t, h) := newVariable g false h in addGrad p t h) h (zip ps gs).

Definition round (st : O * heap) (lg : K * list A) : result (O * heap) :=
  let '(o, h) := st in
  h ← giveGrads (parameters_ (base o)) lg.2 (zeroGrads (base o) h);
  step (setLr lg.1 o) h.

Definition train (o : O) (h : heap) (rounds : list (K * list A)) : result (O * heap) := foldM_result round (o, h) rounds.

(** The same for parameter [i] alone: the members of the optimiser, the
    parameter's slot and its array. *)
Definition trainOne (i : nat) (st : O * L * A) (lg : K * list A) : O * L * A :=
  let '(o, l, x) := st in
  let '(l, x) := rule (setLr lg.1 o) l x (default a_empty (lg.2 !! i)) in (tick (setLr lg.1 o), l, x).

(** Variables that can be parameters: no sharing, and they want gradients. *)
Definition independent (ps : list var) (h : heap) : Prop :=
  NoDup (data_ <$> ps) /\ NoDup (grad_ <$> ps)
  /\ forall p, p ∈ ps -> isCalcGrad p h = true /\ (data_ p < next h)%nat /\ (grad_ p < next h)%nat.

Lemma sg_upd_eq u f (h : heap) : sg u (upd u f h) = f (sg u h).
Proof. unfold sg, upd. cbn. by rewrite lookup_insert_eq. Qed.
Lemma sg_upd_ne u v f (h : heap) : v <> u -> sg v (upd u f h) = sg v h.
Proof. intros. unfold sg, upd. cbn. by rewrite lookup_insert_ne. Qed.

Lemma zeroGrads_spec ps (h : heap) :
  let h' := fold_left (fun h p => zeroGrad p h) ps h in
  datas h' = datas h /\ next h' = next h /\ (forall v, calcGrad (sg (grad_ v) h') = calcGrad (sg (grad_ v) h))
  /\ (forall v, grad_ v ∈ grad_ <$> ps -> grad (sg (grad_ v) h') = None).
Proof.
  cbn. revert h. induction ps as [|p ps IH]; intros h; cbn [fold_left].
  { split_and!; try done. by intros v Hv%not_elem_of_nil. }
  destruct (IH (zeroGrad p h)) as (E1 & E2 & E3 & E4). split_and!; try done.
  - intros v. rewrite E3. unfold zeroGrad. destruct (decide (grad_ v = grad_ p)) as [->|]; [by rewrite sg_upd_eq|by rewrite sg_upd_ne].
  - intros v Hv. destruct (decide (grad_ v ∈ grad_ <$> ps)) as [Hin|Hin]; [by apply E4|].
    apply elem_of_cons in Hv as [Hv|]; [|done]. 
    assert (Hkeep : forall ps (h : heap), grad_ v ∉ grad_ <$> ps -> sg (grad_ v) (fold_left (fun h p => zeroGrad p h) ps h) = sg (grad_ v) h).
    { clear. induction ps as [|q ps IH]; intros h Hn; cbn; [done|]. apply not_elem_of_cons in Hn as [? ?].
      rewrite IH by done. by apply sg_upd_ne. }
    rewrite Hkeep by done. unfold zeroGrad. by rewrite Hv, sg_upd_eq.
Qed.

Lemma giveGrads_spec ps gs (h : heap) :
  length gs = length ps -> NoDup (grad_ <$> ps) ->
  (forall p, p ∈ ps -> isCalcGrad p h = true /\ grad (sg (grad_ p) h) = None /\ (data_ p < next h)%nat /\ (grad_ p < next h)%nat) ->
  exists h', giveGrads ps gs h = Ok h' /\ next h' = (next h + length ps)%nat
    /\ (forall v, (data_ v < next h)%nat -> array v h' = array v h)
    /\ (forall v, (grad_ v < next h)%nat -> grad_ v ∉ grad_ <$> ps -> sg (grad_ v) h' = sg (grad_ v) h)
    /\ (forall i p, ps !! i = Some p -> isCalcGrad p h' = true
          /\ getGrad p h' = Ok (Var (next h + i) (next h + i)) /\ array (Var (next h + i) (next h + i)) h' = default a_empty (gs !! i)).
Proof.
  revert gs h. induction ps as [|p ps IH]; intros [|g gs] h Hlen Hnd Hp; try discriminate.
  { exists h. split_and!; cbn; try done; try lia. }
  apply NoDup_cons in Hnd as [Hp0 Hnd]. fold (fmap grad_ ps) in *. destruct (Hp p) as (Hc & Hg & Hd & Hgr); [by left|].
  unfold giveGrads. cbn [zip_with zip foldM_result]. unfold addGrad at 1. cbn -[upd].
  set (h1 := MkHeap (<[next h:=g]> (datas h)) (<[next h:=MkSharedGrad false [] None None None]> (grads h)) (Datatypes.S (next h))).
  assert (Hsg : forall u, (u < next h)%nat -> sg u h1 = sg u h).
  { intros u Hu. unfold sg, h1. cbn. by rewrite lookup_insert_ne by lia. }
  assert (Har : forall v, (data_ v < next h)%nat -> array v h1 = array v h).
  { intros v Hv. unfold array, h1. cbn. by rewrite lookup_insert_ne by lia. }
  unfold isCalcGrad in Hc. rewrite (Hsg (grad_ p)), Hc, Hg by done. cbn [negb].
  rewrite bool_decide_eq_true_2 by (unfold type; apply one_type). cbn [negb].
  set (h2 := upd (grad_ p) (set_grad (Some (Var (next h) (next h)))) h1).
  destruct (IH gs h2) as (h' & E & Nx & Ar & Sg & Gr).
  { by injection Hlen. }
  { done. }
  { intros q Hq. destruct (Hp q) as (Hcq & Hgq & Hdq & Hgrq); [by right|]. unfold isCalcGrad, h2 in *.
    assert (grad_ q <> grad_ p) by (intros Eq; apply Hp0; rewrite <- Eq; by apply list_elem_of_fmap_2).
    rewrite sg_upd_ne, Hsg by done. cbn. split_and!; [done|done|lia|lia]. }
  exists h'. split; [exact E|]. cbn in Nx. split_and!.
  - cbn. lia.
  - intros v Hv. rewrite Ar by (cbn; lia). by apply Har.
  - intros v Hv [Hne Hn]%not_elem_of_cons. rewrite Sg by (done || (cbn; lia)). unfold h2. by rewrite sg_upd_ne, Hsg.
  - intros [|i] q Hq.
    + injection Hq as <-. rewrite Nat.add_0_r. 
      assert (Esg : sg (grad_ p) h' = set_grad (Some (Var (next h) (next h))) (sg (grad_ p) h)).
      { rewrite Sg; [|cbn; lia|done]. unfold h2. by rewrite sg_upd_eq, Hsg. }
      unfold isCalcGrad, getGrad. rewrite Esg. cbn. rewrite Hc. split_and!; [done|done|].
      rewrite Ar by (cbn; lia). unfold array, h2, h1. cbn. by rewrite lookup_insert_eq.
    + cbn in Hq. destruct (Gr i q Hq) as (? & Hgq & Haq). cbn [next upd h2 h1] in Hgq, Haq. cbn in Hgq, Haq.
      replace (next h + Datatypes.S i)%nat with (Datatypes.S (next h + i)) by lia. done.
Qed.

Lemma indices_of {X} (l : list X) : (imap pair l).*1 = List.seq 0 (length l) /\ (imap pair l).*2 = l.
Proof.
  split; apply list_eq; intros i; rewrite list_lookup_fmap, list_lookup_imap.
  - destruct (l !! i) as [x|] eqn:E; cbn; symmetry.
    + apply lookup_lt_Some in E. by rewrite lookup_seq_lt.
    + apply lookup_ge_None in E. by rewrite lookup_seq_ge.
  - by destruct (l !! i).
Qed.

Lemma separate_given ps (h : heap) n :
  NoDup (data_ <$> ps) -> (forall p, p ∈ ps -> (data_ p < n)%nat) ->
  (forall i p, ps !! i = Some p -> getGrad p h = Ok (Var (n + i) (n + i))) -> separate h ps.
Proof.
  intros Hnd Hlt Hg. split.
  - intros p g [i Hi]%list_elem_of_lookup. rewrite (Hg i p Hi). intros [= <-]. cbn.
    assert (data_ p < n)%nat by (apply Hlt; by eapply list_elem_of_lookup_2). lia.
  - intros i j p q Hne Hi Hj c. unfold cells. rewrite (Hg i p Hi), (Hg j q Hj). cbn.
    assert (data_ p < n)%nat by (apply Hlt; by eapply list_elem_of_lookup_2).
    assert (data_ q < n)%nat by (apply Hlt; by eapply list_elem_of_lookup_2).
    assert (data_ p <> data_ q).
    { intros E. apply Hne. eapply (NoDup_lookup _ _ _ (data_ p) Hnd); rewrite list_lookup_fmap, ?Hi, ?Hj; cbn; congruence. }
    intros Hc Hd. apply elem_of_cons in Hc as [->|Hc%list_elem_of_singleton]; apply elem_of_cons in Hd as [?|Hd%list_elem_of_singleton];
      lia || congruence.
Qed.

Lemma step_separate o (h : heap) :
  let ps := parameters_ (base o) in
  separate h ps -> (forall i, (i < length ps)%nat -> is_Some (slot o (get o) i)) ->
  exists s' h', step o h = Ok (put s' (tick o), h') /\ grads h' = grads h /\ next h' = next h
    /\ forall i p, ps !! i = Some p -> stepped (slot o) (rule o) (get o) h s' h' i p.
Proof.
  intros ps Hsep Hs. destruct (indices_of ps) as [I1 I2].
  destruct (loop_local (slot o) (rule o) (body o) (body_local o) (imap pair ps) (get o) h) as (s' & h' & E2 & Gr & Nx & St & _ & _).
  { rewrite I1. apply NoDup_ListNoDup, seq_NoDup. }
  { by rewrite I2. }
  { intros i. rewrite I1. intros Hi%elem_of_seq. apply Hs. lia. }
  exists s', h'. split_and!; [|done|done|].
  - rewrite step_loop. unfold forGradients, loop, mbind, result_bind in *. fold ps. by rewrite E2.
  - intros i p Hi. apply St, elem_of_lookup_imap. by eexists i, p.
Qed.

Lemma round_local o (h : heap) lr gs :
  let ps := parameters_ (base o) in
  independent ps h -> length gs = length ps -> (forall i, (i < length ps)%nat -> is_Some (slot o (get o) i)) ->
  exists s' h', round (o, h) (lr, gs) = Ok (put s' (tick (setLr lr o)), h') /\ independent ps h'
    /\ forall i p l, ps !! i = Some p -> slot o (get o) i = Some l ->
       slot o s' i = Some (rule (setLr lr o) l (array p h) (default a_empty (gs !! i))).1
       /\ array p h' = (rule (setLr lr o) l (array p h) (default a_empty (gs !! i))).2.
Proof.
  intros ps (Hd & Hgr & Hps) Hlen Hs. destruct (zeroGrads_spec ps h) as (Z1 & Z2 & Z3 & Z4).
  set (h0 := zeroGrads (base o) h) in *. change (fold_left _ ps h) with h0 in *. 
  assert (Za : forall v, array v h0 = array v h) by (intros v; unfold array; by rewrite Z1).
  destruct (giveGrads_spec ps gs h0 Hlen Hgr) as (h1 & E1 & N1 & A1 & _ & G1).
  { intros p Hp. destruct (Hps p Hp) as (? & ? & ?). rewrite Z2. unfold isCalcGrad. rewrite Z3. split_and!; [done| |done|done].
    apply Z4. by apply list_elem_of_fmap_2. }
  rewrite Z2 in *.
  assert (Hsep : separate h1 ps) by (apply (separate_given ps h1 (next h)); [done|by apply Hps|intros i p Hi; by apply G1]).
  destruct (step_separate (setLr lr o) h1) as (s' & h' & E2 & Gr & Nx & St); rewrite ?base_setLr, ?slot_setLr, ?get_setLr; try done.
  exists s', h'. split_and!.
  - unfold round, mbind, result_bind. cbn [fst snd]. fold ps h0. by rewrite E1, E2.
  - split; [done|split; [done|]]. intros p Hp. destruct (Hps p Hp) as (? & ? & ?).
    pose proof Hp as [i Hi]%list_elem_of_lookup. destruct (G1 i p Hi) as (Hc & _). unfold isCalcGrad, sg. rewrite Gr, Nx, N1.
    split_and!; [exact Hc|lia|lia].
  - intros i p l Hi Hl. rewrite base_setLr, slot_setLr, get_setLr in St. specialize (St i p Hi).
    destruct (G1 i p Hi) as (_ & Hg & Ha). unfold stepped in St. rewrite Hg, Hl, Ha in St.
    rewrite A1, Za in St; [done|]. apply Hps. by eapply list_elem_of_lookup_2.
Qed.

Lemma train_put rounds s o (h : heap) :
  let ps := parameters_ (base o) in
  independent ps h -> (forall lg, lg ∈ rounds -> length lg.2 = length ps) ->
  (forall i, (i < length ps)%nat -> is_Some (slot o s i)) ->
  exists o' h', train (put s o) h rounds = Ok (o', h')
    /\ forall i p l, ps !! i = Some p -> slot o s i = Some l ->
       let '(_, l', x') := fold_left (trainOne i) rounds (o, l, array p h) in
       slot o (get o') i = Some l' /\ array p h' = x'.
Proof.
  revert s o h. induction rounds as [|[lr gs] rounds IH]; intros s o h ps Hi Hlen Hs.
  { eexists _, h. split; [done|]. intros i p l Hp Hl. cbn. by rewrite get_put. }
  destruct (round_local (put s o) h lr gs) as (s1 & h1 & E1 & Hi1 & Hr).
  { by rewrite base_put. }
  { rewrite base_put. apply (Hlen (lr, gs)). by left. }
  { by rewrite base_put, slot_put, get_put. }
  rewrite base_put, slot_put, get_put, setLr_put, rule_put in Hr. rewrite base_put in Hi1.
  rewrite setLr_put, tick_put, put_put in E1.
  assert (Eps : parameters_ (base (tick (setLr lr o))) = ps) by (rewrite parameters_tick, base_setLr; done).
  assert (Esl : slot (tick (setLr lr o)) = slot o) by by rewrite slot_tick, slot_setLr.
  assert (Hs1 : forall i, (i < length ps)%nat -> is_Some (slot o s1 i)).
  { intros i Hlt. destruct (lookup_lt_is_Some_2 ps i Hlt) as [p Hp]. destruct (Hs i Hlt) as [l Hl].
    eexists. by apply (Hr i p l). }
  destruct (IH s1 (tick (setLr lr o)) h1) as (o' & h' & E2 & Hf).
  { by rewrite Eps. }
  { rewrite Eps. intros lg Hin. apply Hlen. by right. }
  { by rewrite Eps, Esl. }
  exists o', h'. unfold train in *. cbn [foldM_result]. rewrite E1, E2. split; [done|].
  intros i p l Hp Hl. rewrite Eps, Esl in Hf. destruct (Hr i p l Hp Hl) as [R1 R2]. specialize (Hf i p _ Hp R1).
  cbn [fold_left trainOne fst snd]. rewrite R2 in Hf. by destruct (rule _ _ _ _).
Qed.

(** Training acts on every parameter by itself. *)
Theorem train_local rounds o (h : heap) :
  let ps := parameters_ (base o) in
  independent ps h -> (forall lg, lg ∈ rounds -> length lg.2 = length ps) ->
  (forall i, (i < length ps)%nat -> is_Some (slot o (get o) i)) ->
  exists o' h', train o h rounds = Ok (o', h')
    /\ forall i p l, ps !! i = Some p -> slot o (get o) i = Some l ->
       let '(_, l', x') := fold_left (trainOne i) rounds (o, l, array p h) in
       slot o (get o') i = Some l' /\ array p h' = x'.
Proof. pose proof (train_put rounds (get o) o h) as T. by rewrite put_get in T. Qed.
End Training.

(** * The optimisers as rules *)

Section Rules.
Context {A K : Type} `{Arrays A, OptimOps A K}.
Abbreviation heap := (Autograd.heap (A := A)).

Lemma at_Ok {X} (l : list X) i x : l !! i = Some x -> at_ l i = Ok x.
Proof. unfold at_. by intros ->. Qed.

Lemma slot_insert {X} (l : list X) i x : is_Some (l !! i) -> <[i := x]> l !! i = Some x.
Proof. intros [y Hy]. apply list_lookup_insert_eq. by eapply lookup_lt_Some. Qed.

(** Reads of arrays after the writes of a body. *)
Ltac reads := repeat (rewrite array_set; cbn [data_]); repeat case_decide; try congruence.

(** [local_body] once the vectors' elements are known. *)
Ltac run_body :=
  eexists _, _; split; [reflexivity|]; cbn [grads next setArray]; split; [done|split; [done|]];
  split_and!; [cbn; rewrite ?slot_insert by done; cbn; by reads|intros ? ?; cbn; by rewrite ?list_lookup_insert_ne
              |cbn; by reads|intros ? ? ?; by reads].

#[export] Program Instance SGD_optimizer : Optimizer A K SGDOptimizer (list A) (option A) := {
  base := sgd_base;
  setLr lr o := SGD (setLrBase lr (sgd_base o)) (sgd_useNesterov_ o) (sgd_mu_ o) (sgd_wd_ o) (sgd_velocities_ o);
  step := SGD_step;
  get := sgd_velocities_;
  put s o := SGD (sgd_base o) (sgd_useNesterov_ o) (sgd_mu_ o) (sgd_wd_ o) s;
  tick o := o;
  slot o s i := if s_nonzero (sgd_mu_ o) then Some <$> s !! i else Some None;
  rule o l x g :=
    let g := if s_nonzero (sgd_wd_ o) then a_add g (o_scale (sgd_wd_ o) x) else g in
    match l with
    | None => (None, o_sub x (o_scale (lr_ (sgd_base o)) g))
    | Some v =>
        let v := a_add (o_scale (sgd_mu_ o) v) g in
        (Some v, o_sub x (o_scale (lr_ (sgd_base o)) (if sgd_useNesterov_ o then a_add g (o_scale (sgd_mu_ o) v) else v)))
    end;
  body o := SGD_body (lr_ (sgd_base o)) (sgd_mu_ o) (sgd_wd_ o) (sgd_useNesterov_ o)
}.

#[export] Instance SGD_laws : OptimizerLaws A K SGDOptimizer (list A) (option A).
Proof.
  split; try (by intros; cbn; try destruct o).
  intros [[ps lr] nest mu wd vs] i p g s h l Hne Hl. cbn in *. unfold SGD_body.
  destruct (s_nonzero mu).
  - apply fmap_Some in Hl as (v & Hv & ->). rewrite (at_Ok _ _ _ Hv). destruct (s_nonzero wd), nest; run_body.
  - injection Hl as <-. destruct (s_nonzero wd); run_body.
Qed.

#[export] Program Instance NAG_optimizer : Optimizer A K NAGOptimizer (list A) A := {
  base := nag_base;
  setLr lr o := NAG (setLrBase lr (nag_base o)) (nag_mu_ o) (nag_wd_ o) (nag_velocities_ o) (nag_oldLr_ o);
  step := NAG_step;
  get := nag_velocities_;
  put s o := NAG (nag_base o) (nag_mu_ o) (nag_wd_ o) s (nag_oldLr_ o);
  tick o := NAG (nag_base o) (nag_mu_ o) (nag_wd_ o) (nag_velocities_ o) (lr_ (nag_base o));
  slot _ s i := s !! i;
  rule o v x g :=
    let lr := lr_ (nag_base o) in
    let x := if s_nonzero (nag_wd_ o) then o_scale (s_sub (s_of 1) (s_mul lr (nag_wd_ o))) x else x in
    let v := a_add (o_scale (s_div lr (nag_oldLr_ o)) (o_scale (nag_mu_ o) v)) (o_scale lr g) in
    (v, o_sub x (a_add (o_scale lr g) (o_scale (nag_mu_ o) v)));
  body o := NAG_body (lr_ (nag_base o)) (nag_mu_ o) (nag_wd_ o) (s_div (lr_ (nag_base o)) (nag_oldLr_ o))
}.

#[export] Instance NAG_laws : OptimizerLaws A K NAGOptimizer (list A) A.
Proof.
  split; try (by intros; cbn; try destruct o).
  intros [[ps lr] mu wd vs old] i p g s h v Hne Hv. cbn in *. unfold NAG_body. rewrite (at_Ok _ _ _ Hv).
  destruct (s_nonzero wd); run_body.
Qed.

(** One step of Adam's averages with the learning rates it uses. *)
Definition adam_lr (lr beta1 beta2 : K) (count : Z) : K :=
  s_div (s_mul lr (s_sqrt (s_sub (s_of 1) (s_pow beta2 count)))) (s_sub (s_of 1) (s_pow beta1 count)).

Definition decay (wd : K) (x : A) : A := if s_nonzero wd then o_sub x (o_scale wd x) else x.

Definition slot2 {X Y} (s : list X * list Y) (i : nat) : option (X * Y) := x ← s.1 !! i; y ← s.2 !! i; Some (x, y).

Lemma slot2_Some {X Y} (s : list X * list Y) i l : slot2 s i = Some l -> s.1 !! i = Some l.1 /\ s.2 !! i = Some l.2.
Proof. unfold slot2. destruct (s.1 !! i); cbn; [|done]. destruct (s.2 !! i); cbn; [|done]. by intros [= <-]. Qed.

#[export] Program Instance Adam_optimizer : Optimizer A K AdamOptimizer (list A * list A) (A * A) := {
  base := adam_base;
  setLr lr o := Adam (setLrBase lr (adam_base o)) (adam_beta1_ o) (adam_beta2_ o) (adam_eps_ o) (adam_wd_ o) (adam_count_ o)
                  (adam_biasedFirst_ o) (adam_biasedSecond_ o);
  step := Adam_step;
  get o := (adam_biasedFirst_ o, adam_biasedSecond_ o);
  put s o := Adam (adam_base o) (adam_beta1_ o) (adam_beta2_ o) (adam_eps_ o) (adam_wd_ o) (adam_count_ o) s.1 s.2;
  tick o := Adam (adam_base o) (adam_beta1_ o) (adam_beta2_ o) (adam_eps_ o) (adam_wd_ o) (incr (adam_count_ o))
                  (adam_biasedFirst_ o) (adam_biasedSecond_ o);
  slot _ := slot2;
  rule o l x g :=
    let lr := lr_ (adam_base o) in
    let x := if s_nonzero (adam_wd_ o) then o_sub x (o_scale (s_mul (adam_wd_ o) lr) x) else x in
    let first := average (adam_beta1_ o) l.1 g in
    let second := averageSq (adam_beta2_ o) l.2 g in
    ((first, second),
     o_sub x (o_div (o_scale (adam_lr lr (adam_beta1_ o) (adam_beta2_ o) (incr (adam_count_ o))) first)
                    (o_addk (o_sqrt second) (adam_eps_ o))));
  body o := Adam_body (lr_ (adam_base o)) (adam_lr (lr_ (adam_base o)) (adam_beta1_ o) (adam_beta2_ o) (incr (adam_count_ o)))
              (adam_beta1_ o) (adam_beta2_ o) (adam_eps_ o) (adam_wd_ o)
}.

#[export] Instance Adam_laws : OptimizerLaws A K AdamOptimizer (list A * list A) (A * A).
Proof.
  split; try (by intros; cbn; try destruct o; repeat match goal with s : _ * _ |- _ => destruct s end).
  intros [[ps lr] b1 b2 eps wd c f s2] i p g s h l Hne [H1 H2]%slot2_Some. cbn in *. unfold Adam_body.
  destruct (s_nonzero wd); rewrite (at_Ok _ _ _ H1), (at_Ok _ _ _ H2); unfold slot2; run_body.
Qed.

#[export] Program Instance AMSgrad_optimizer : Optimizer A K AMSgradOptimizer (list A * list A * list A) (A * A * A) := {
  base := ams_base;
  setLr lr o := AMSgrad (setLrBase lr (ams_base o)) (ams_beta1_ o) (ams_beta2_ o) (ams_eps_ o) (ams_wd_ o)
                  (ams_biasedFirst_ o) (ams_biasedSecond_ o) (ams_maxExpAvgSq_ o);
  step := AMSgrad_step;
  get o := (ams_biasedFirst_ o, ams_biasedSecond_ o, ams_maxExpAvgSq_ o);
  put s o := AMSgrad (ams_base o) (ams_beta1_ o) (ams_beta2_ o) (ams_eps_ o) (ams_wd_ o) s.1.1 s.1.2 s.2;
  tick o := o;
  slot _ s i := l ← slot2 s.1 i; z ← s.2 !! i; Some (l, z);
  rule o l x g :=
    let first := average (ams_beta1_ o) l.1.1 g in
    let second := averageSq (ams_beta2_ o) l.1.2 g in
    let top := o_max l.2 second in
    ((first, second, top),
     o_sub (decay (ams_wd_ o) x) (o_div (o_scale (lr_ (ams_base o)) first) (o_addk (o_sqrt top) (ams_eps_ o))));
  body o := AMSgrad_body (lr_ (ams_base o)) (ams_beta1_ o) (ams_beta2_ o) (ams_eps_ o) (ams_wd_ o)
}.

#[export] Instance AMSgrad_laws : OptimizerLaws A K AMSgradOptimizer (list A * list A * list A) (A * A * A).
Proof.
  split; try (by intros; cbn; try destruct o; repeat match goal with s : _ * _ |- _ => destruct s end).
  intros [[ps lr] b1 b2 eps wd f s2 t] i p g s h l Hne Hl. cbn in *.
  apply bind_Some in Hl as (l' & [H1 H2]%slot2_Some & (z & H3 & [= <-])%bind_Some).
  unfold AMSgrad_body, decayed, decay, slot2.
  destruct (s_nonzero wd); rewrite (at_Ok _ _ _ H1), (at_Ok _ _ _ H2), (at_Ok _ _ _ H3); run_body.
Qed.

#[export] Program Instance Adadelta_optimizer : Optimizer A K AdadeltaOptimizer (list A * list A) (A * A) := {
  base := adadelta_base;
  setLr lr o := Adadelta (setLrBase lr (adadelta_base o)) (adadelta_rho_ o) (adadelta_eps_ o) (adadelta_wd_ o)
                  (adadelta_accGrad_ o) (adadelta_accDelta_ o);
  step := Adadelta_step;
  get o := (adadelta_accGrad_ o, adadelta_accDelta_ o);
  put s o := Adadelta (adadelta_base o) (adadelta_rho_ o) (adadelta_eps_ o) (adadelta_wd_ o) s.1 s.2;
  tick o := o;
  slot _ := slot2;
  rule o l x g :=
    let eps := adadelta_eps_ o in
    let accGrad := averageSq (adadelta_rho_ o) l.1 g in
    let delta := o_mul (o_div (o_sqrt (o_addk l.2 eps)) (o_sqrt (o_addk accGrad eps))) g in
    ((accGrad, averageSq (adadelta_rho_ o) l.2 delta),
     o_sub (decay (adadelta_wd_ o) x) (o_scale (lr_ (adadelta_base o)) delta));
  body o := Adadelta_body (lr_ (adadelta_base o)) (adadelta_rho_ o) (adadelta_eps_ o) (adadelta_wd_ o)
}.

#[export] Instance Adadelta_laws : OptimizerLaws A K AdadeltaOptimizer (list A * list A) (A * A).
Proof.
  split; try (by intros; cbn; try destruct o; repeat match goal with s : _ * _ |- _ => destruct s end).
  intros [[ps lr] rho eps wd f s2] i p g s h l Hne [H1 H2]%slot2_Some. cbn in *.
  unfold Adadelta_body, decayed, decay, slot2.
  destruct (s_nonzero wd); rewrite (at_Ok _ _ _ H1), (at_Ok _ _ _ H2); run_body.
Qed.

#[export] Program Instance Adagrad_optimizer : Optimizer A K AdagradOptimizer (list A) A := {
  base := adagrad_base;
  setLr lr o := Adagrad (setLrBase lr (adagrad_base o)) (adagrad_eps_ o) (adagrad_wd_ o) (adagrad_variance_ o);
  step := Adagrad_step;
  get := adagrad_variance_;
  put s o := Adagrad (adagrad_base o) (adagrad_eps_ o) (adagrad_wd_ o) s;
  tick o := o;
  slot _ s i := s !! i;
  rule o v x g :=
    let v := a_add v (o_mul g g) in
    (v, o_sub (decay (adagrad_wd_ o) x) (o_div (o_scale (lr_ (adagrad_base o)) g) (o_addk (o_sqrt v) (adagrad_eps_ o))));
  body o := Adagrad_body (lr_ (adagrad_base o)) (adagrad_eps_ o) (adagrad_wd_ o)
}.

#[export] Instance Adagrad_laws : OptimizerLaws A K AdagradOptimizer (list A) A.
Proof.
  split; try (by intros; cbn; try destruct o).
  intros [[ps lr] eps wd vs] i p g s h v Hne Hv. cbn in *. unfold Adagrad_body, decayed, decay. rewrite (at_Ok _ _ _ Hv).
  destruct (s_nonzero wd); run_body.
Qed.

#[export] Program Instance RMSProp_optimizer : Optimizer A K RMSPropOptimizer (list A * list A) (option A * A) := {
  base := rms_base;
  setLr lr o := RMSProp (setLrBase lr (rms_base o)) (rms_useFirst_ o) (rms_rho_ o) (rms_eps_ o) (rms_wd_ o)
                  (rms_first_ o) (rms_second_ o);
  step := RMSProp_step;
  get o := (rms_first_ o, rms_second_ o);
  put s o := RMSProp (rms_base o) (rms_useFirst_ o) (rms_rho_ o) (rms_eps_ o) (rms_wd_ o) s.1 s.2;
  tick o := o;
  slot o s i := f ← (if rms_useFirst_ o then Some <$> s.1 !! i else Some None); z ← s.2 !! i; Some (f, z);
  rule o l x g :=
    let second := averageSq (rms_rho_ o) l.2 g in
    let first := average (rms_rho_ o) (default a_empty l.1) g in
    let moments := match l.1 with Some _ => o_sub second (o_mul first first) | None => second end in
    ((match l.1 with Some _ => Some first | None => None end, second),
     o_sub (decay (rms_wd_ o) x) (o_div (o_scale (lr_ (rms_base o)) g) (o_addk (o_sqrt moments) (rms_eps_ o))));
  body o := RMSProp_body (lr_ (rms_base o)) (rms_rho_ o) (rms_eps_ o) (rms_wd_ o) (rms_useFirst_ o)
}.

#[export] Instance RMSProp_laws : OptimizerLaws A K RMSPropOptimizer (list A * list A) (option A * A).
Proof.
  split; try (by intros; cbn; try destruct o; repeat match goal with s : _ * _ |- _ => destruct s end).
  intros [[ps lr] b rho eps wd f s2] i p g s h l Hne Hl. cbn in *.
  apply bind_Some in Hl as (f' & Hf & (z & H2 & [= <-])%bind_Some).
  unfold RMSProp_body, decayed, decay. destruct b.
  - apply fmap_Some in Hf as (y & H1 & ->). destruct (s_nonzero wd); rewrite (at_Ok _ _ _ H2), (at_Ok _ _ _ H1); run_body.
  - injection Hf as <-. destruct (s_nonzero wd); rewrite (at_Ok _ _ _ H2); run_body.
Qed.

#[export] Program Instance Novograd_optimizer : Optimizer A K NovogradOptimizer (list K * list A) (K * A) := {
  base := novo_base;
  setLr lr o := Novograd (setLrBase lr (novo_base o)) (novo_beta1_ o) (novo_beta2_ o) (novo_eps_ o) (novo_wd_ o)
                  (novo_accGradNorm_ o) (novo_accGrad_ o);
  step := Novograd_step;
  get o := (novo_accGradNorm_ o, novo_accGrad_ o);
  put s o := Novograd (novo_base o) (novo_beta1_ o) (novo_beta2_ o) (novo_eps_ o) (novo_wd_ o) s.1 s.2;
  tick o := o;
  slot _ := slot2;
  rule o l x g :=
    let norm := s_add (s_mul (novo_beta2_ o) l.1) (s_mul (s_sub (s_of 1) (novo_beta2_ o)) (o_sum (o_mul g g))) in
    let acc := a_add (o_scale (novo_beta1_ o) l.2)
      (o_scale (s_sub (s_of 1) (novo_beta1_ o))
         (a_add (o_divk g (s_add (s_sqrt norm) (novo_eps_ o))) (o_scale (novo_wd_ o) x))) in
    ((norm, acc), o_sub x (o_scale (lr_ (novo_base o)) acc));
  body o := Novograd_body (lr_ (novo_base o)) (novo_beta1_ o) (novo_beta2_ o) (novo_eps_ o) (novo_wd_ o)
}.

#[export] Instance Novograd_laws : OptimizerLaws A K NovogradOptimizer (list K * list A) (K * A).
Proof.
  split; try (by intros; cbn; try destruct o; repeat match goal with s : _ * _ |- _ => destruct s end).
  intros [[ps lr] b1 b2 eps wd f s2] i p g s h l Hne [H1 H2]%slot2_Some. cbn in *. unfold Novograd_body.
  rewrite (at_Ok _ _ _ H1), (at_Ok _ _ _ H2); unfold slot2; run_body.
Qed.
End Rules.

(** * The gradients clipping touches *)

Section Gradients.
Context {A K : Type} `{Arrays A, OptimOps A K}.
Abbreviation heap := (Autograd.heap (A := A)).

Definition gradients (ps : list var) (h : heap) : list var :=
  flat_map (fun p => match getGrad p h with Ok g => [g] | Throw _ => [] end) ps.

Lemma gradients_cons p ps (h : heap) :
  gradients (p :: ps) h = match getGrad p h with Ok g => [g] | Throw _ => [] end ++ gradients ps h.
Proof. done. Qed.

Lemma gradients_grads ps (h h' : heap) : grads h' = grads h -> gradients ps h' = gradients ps h.
Proof. intros E. unfold gradients. induction ps as [|p ps IH]; cbn; [done|]. by rewrite IH, (getGrad_grads p h h'). Qed.

Lemma sumSquares_Ok ps (h : heap) : exists n, sumSquares (K := K) ps h = Ok n.
Proof.
  unfold sumSquares. generalize (s_of (A := A) (K := K) 0). induction ps as [|p ps IH]; intros n; cbn [foldM_result]; [by eexists|].
  rewrite isGradAvailable_getGrad. destruct (getGrad p h); apply IH.
Qed.

Lemma scaleGrads_spec k ps (h : heap) :
  NoDup (data_ <$> gradients ps h) ->
  exists h', scaleGrads k ps h = Ok h' /\ grads h' = grads h /\ next h' = next h
    /\ (forall g, g ∈ gradients ps h -> array g h' = o_scale k (array g h))
    /\ (forall v, data_ v ∉ data_ <$> gradients ps h -> array v h' = array v h).
Proof.
  revert h. induction ps as [|p ps IH]; intros h Hnd; [exists h; split_and!; try done; by intros g Hg%not_elem_of_nil|].
  unfold scaleGrads. cbn [foldM_result]. rewrite gradients_cons, fmap_app in *.
  rewrite isGradAvailable_getGrad. destruct (getGrad p h) as [g|] eqn:Eg; cbn in *; [|by apply IH].
  apply NoDup_cons in Hnd as [Hg Hnd]. set (h1 := setArray g (o_scale k (array g h)) h).
  assert (Egr : gradients ps h1 = gradients ps h) by by apply gradients_grads.
  destruct (IH h1) as (h' & E & Gr & Nx & Sc & Ot); [by rewrite Egr|]. rewrite Egr in *.
  exists h'. split; [exact E|]. split; [by rewrite Gr|]. split; [by rewrite Nx|]. split.
  - intros v [->|Hv]%elem_of_cons.
    + rewrite Ot by done. unfold h1. by rewrite array_set, decide_True.
    + rewrite Sc by done. unfold h1. rewrite array_set, decide_False; [done|]. intros E'. apply Hg. rewrite <- E'.
      by apply list_elem_of_fmap_2.
  - intros v [Hv Hn]%not_elem_of_cons. rewrite Ot by done. unfold h1. by rewrite array_set, decide_False.
Qed.

(** Clipping returns, and changes at most the arrays of gradients. *)
Lemma clipGradNorm_frame ps maxNorm (h : heap) :
  NoDup (data_ <$> gradients ps h) ->
  exists n h', clipGradNorm (K := K) ps maxNorm h = Ok (n, h') /\ grads h' = grads h /\ next h' = next h
    /\ (forall v, data_ v ∉ data_ <$> gradients ps h -> array v h' = array v h).
Proof.
  intros Hnd. unfold clipGradNorm. destruct (sumSquares_Ok ps h) as [n ->]. cbn. destruct (s_le _ _); [by eexists _, h|].
  destruct (scaleGrads_spec (s_div maxNorm (s_add (s_sqrt n) s_micro)) ps h Hnd) as (h' & -> & Gr & Nx & _ & Ot).
  by eexists _, h'.
Qed.
End Gradients.

(** * Real arrays *)

(** Arrays of reals over any set of positions; [all] lists the positions. *)
#[local] Open Scope R_scope.

Definition fun_arrays (I : Type) : Arrays (I -> R) := {|
  a_type _ := f64; a_as _ x := x; a_empty _ := 0; a_ones _ _ := 1; a_add x y e := x e + y e |}.

Definition fun_optim {I : Type} (all : list I) : OptimOps (I -> R) R := {|
  o_zeros _ _ := 0; o_scale k x e := k * x e; o_divk x k e := x e / k; o_addk x k e := x e + k;
  o_sub x y e := x e - y e; o_mul x y e := x e * y e; o_div x y e := x e / y e; o_max x y e := Rmax (x e) (y e);
  o_sqrt x e := sqrt (x e); o_sum x := Rsum all x;
  s_of := IZR; s_micro := / 1000000; s_add := Rplus; s_sub := Rminus; s_mul := Rmult; s_div := Rdiv; s_sqrt := sqrt;
  s_pow := powerRZ; s_nonzero x := negb (bool_decide (x = 0)); s_le x y := bool_decide (x <= y) |}.

#[local] Existing Instance fun_arrays.

Section Reals.
Context {I : Type} (all : list I).
#[local] Instance optim_reals : OptimOps (I -> R) R := fun_optim all.
Abbreviation array_t := (I -> R).
Abbreviation heap := (Autograd.heap (A := array_t)).

Lemma one_type_reals (a b : array_t) : a_type a = a_type b.
Proof. done. Qed.

Lemma zerosLike_lookup ps (h : heap) i : (i < length ps)%nat -> zerosLike ps h !! i = Some (fun _ => 0).
Proof. intros Hi. destruct (lookup_lt_is_Some_2 ps i Hi) as [p Hp]. unfold zerosLike. by rewrite list_lookup_fmap, Hp. Qed.

Lemma s_nonzero_true x : x <> 0 -> s_nonzero x = true.
Proof. intros Hx. cbn. by rewrite bool_decide_eq_false_2. Qed.
Lemma s_nonzero_0 : s_nonzero 0 = false.
Proof. cbn. by rewrite bool_decide_eq_true_2. Qed.

(** Two folds over the same list stay related. *)
Lemma fold_left_related {X Y Z} (P : X -> Y -> Prop) (f : X -> Z -> X) (g : Y -> Z -> Y) l x y :
  (forall x y z, z ∈ l -> P x y -> P (f x z) (g y z)) -> P x y -> P (fold_left f l x) (fold_left g l y).
Proof.
  revert x y. induction l as [|z l IH]; intros x y Hs Hp; cbn; [done|].
  apply IH; [intros ? ? ? ?; apply Hs; by right|apply Hs; [by left|done]].
Qed.

(** ** NAG and SGD with Nesterov momentum *)

Definition nesterov_related (mu : R) (s : SGDOptimizer (A := array_t) (K := R) * option array_t * array_t)
    (n : NAGOptimizer (A := array_t) (K := R) * array_t * array_t) : Prop :=
  let '(o, l, x) := s in let '(o', v', x') := n in
  sgd_useNesterov_ o = true /\ sgd_mu_ o = mu /\ sgd_wd_ o = 0 /\ nag_mu_ o' = mu /\ nag_wd_ o' = 0 /\ nag_oldLr_ o' <> 0
  /\ exists v, l = Some v /\ forall e, x e = x' e /\ v' e = nag_oldLr_ o' * v e.

Lemma nesterov_step mu i s n lg :
  lg.1 <> 0 -> nesterov_related mu s n -> nesterov_related mu (trainOne i s lg) (trainOne i n lg).
Proof.
  destruct s as [[o l] x], n as [[o' v'] x'], lg as [lr gs]. intros Hlr (Hn & Hm & Hw & Hm' & Hw' & Hold & v & -> & He).
  unfold trainOne, nesterov_related. cbn -[s_nonzero]. rewrite Hn, Hw, Hw', s_nonzero_0, Hm, Hm'. cbn -[s_nonzero].
  split_and!; try done. eexists. split; [done|]. intros e. destruct (He e) as [-> ->].
  cbn in *. split; field; done.
Qed.

(** C19. NAG computes what SGD with Nesterov momentum computes: started on the
    same independent parameters with a non-zero learning rate and without
    weight decay, and given the same gradients and the same non-zero, possibly
    changing learning rates, both leave the same values in every parameter,
    although NAG folds the learning rate into its velocity and rescales it
    when the rate changes. *)
Theorem nag_is_nesterov ps lr0 mu (rounds : list (R * list array_t)) (h : heap) :
  0 < mu -> lr0 <> 0 -> (forall lg, lg ∈ rounds -> lg.1 <> 0 /\ length lg.2 = length ps) -> independent ps h ->
  exists sgd' h1 nag nag' h2,
    train (newSGD ps lr0 mu 0 true h) h rounds = Ok (sgd', h1)
    /\ newNAG ps lr0 mu 0 h = Ok nag /\ train nag h rounds = Ok (nag', h2)
    /\ forall p e, p ∈ ps -> array p h1 e = array p h2 e.
Proof.
  intros Hmu Hlr0 Hr Hind.
  assert (Hz : s_nonzero mu = true) by (apply s_nonzero_true; lra).
  destruct (train_local one_type_reals rounds (newSGD ps lr0 mu 0 true h) h) as (sgd' & h1 & E1 & R1); cbn -[s_nonzero].
  { done. }
  { by intros lg [_ ?]%Hr. }
  { intros i Hi. rewrite Hz, zerosLike_lookup by done. by eexists. }
  set (nag := NAG (FOO ps lr0) mu 0 (zerosLike ps h) lr0).
  destruct (train_local one_type_reals rounds nag h) as (nag' & h2 & E2 & R2); cbn.
  { done. }
  { by intros lg [_ ?]%Hr. }
  { intros i Hi. rewrite zerosLike_lookup by done. by eexists. }
  exists sgd', h1, nag, nag', h2. split_and!; try done.
  { unfold newNAG. cbn. by rewrite bool_decide_eq_false_2 by lra. }
  intros p e [i Hi]%list_elem_of_lookup. pose proof (lookup_lt_Some _ _ _ Hi) as Hlt.
  assert (Hrel : nesterov_related mu
    (fold_left (trainOne i) rounds (newSGD ps lr0 mu 0 true h, Some (fun _ => 0), array p h))
    (fold_left (trainOne i) rounds (nag, (fun _ => 0), array p h))).
  { apply fold_left_related; [intros ? ? lg Hin; apply nesterov_step; by apply Hr|].
    cbn. split_and!; try done. eexists. split; [done|]. intros e'. split; [done|]. lra. }
  specialize (R1 i p (Some (fun _ => 0)) Hi). specialize (R2 i p (fun _ => 0) Hi). cbn -[s_nonzero] in R1, R2.
  rewrite Hz, zerosLike_lookup in R1 by done. rewrite zerosLike_lookup in R2 by done.
  specialize (R1 eq_refl). specialize (R2 eq_refl).
  destruct (fold_left _ _ (newSGD _ _ _ _ _ _, _, _)) as [[o l] x], (fold_left _ _ (nag, _, _)) as [[o' v'] x'].
  destruct R1 as [_ ->], R2 as [_ ->], Hrel as (_ & _ & _ & _ & _ & _ & v & _ & Hx). apply Hx.
Qed.

(** ** Adam's averages *)

(** [sum_k b^(n-1-k) g_k] and the mean with these weights. *)
Definition weighted (b : R) (g : list R) : R :=
  Rsum (List.seq 0 (length g)) (fun k => b ^ (length g - 1 - k) * nth k g 0).
Definition weighted_mean (b : R) (g : list R) : R := weighted b g / weighted b (replicate (length g) 1).

(** The gradients of one element of parameter [i] *)
Definition grads_at (i : nat) (e : I) (rounds : list (R * list array_t)) : list R :=
  (fun lg => default a_empty (lg.2 !! i) e) <$> rounds.

Lemma grads_at_snoc i e rounds lg : grads_at i e (rounds ++ [lg]) = grads_at i e rounds ++ [default (fun _ => 0) (lg.2 !! i) e].
Proof. unfold grads_at. by rewrite fmap_app. Qed.

Lemma weighted_snoc b g x : weighted b (g ++ [x]) = b * weighted b g + x.
Proof.
  unfold weighted. rewrite length_app, seq_app, Rsum_app. cbn [length List.seq Nat.add]. rewrite Rsum_cons, Rsum_nil.
  rewrite app_nth2, Nat.sub_diag by lia. replace (length g + 1 - 1 - length g)%nat with 0%nat by lia. cbn [pow nth].
  rewrite (Rmult_comm b), <- Rsum_scal. replace (1 * x + 0) with x by ring. f_equal.
  apply Rsum_ext. intros k [_ Hk]%elem_of_seq. rewrite app_nth1 by lia.
  replace (length g + 1 - 1 - k)%nat with (Datatypes.S (length g - 1 - k)) by lia. cbn [pow]. ring.
Qed.

Lemma weighted_ones b n : (1 - b) * weighted b (replicate n 1) = 1 - b ^ n.
Proof.
  induction n as [|n IH]; [cbn; ring|]. rewrite replicate_S_end, weighted_snoc. cbn [pow].
  replace ((1 - b) * (b * weighted b (replicate n 1) + 1)) with (b * ((1 - b) * weighted b (replicate n 1)) + (1 - b)) by ring.
  rewrite IH. ring.
Qed.

Lemma pow_lt_1 b n : 0 <= b < 1 -> b ^ Datatypes.S n < 1.
Proof.
  intros Hb. cbn. assert (b ^ n <= 1) by (rewrite <- (pow1 n); apply pow_incr; lra).
  assert (0 <= b ^ n) by (apply pow_le; lra). nra.
Qed.

(** The bias of an average of [S n] values is divided out exactly. *)
Lemma weighted_mean_bias b g : 0 <= b < 1 -> g <> [] -> (1 - b) * weighted b g = (1 - b ^ length g) * weighted_mean b g.
Proof.
  intros Hb Hg. unfold weighted_mean. pose proof (weighted_ones b (length g)) as E.
  destruct g as [|x g]; [done|]. cbn [length] in *. pose proof (pow_lt_1 b (length g) Hb).
  rewrite <- E. field. intros E0. rewrite E0 in E. lra.
Qed.

Lemma incr_small n : (0 <= n < 2 ^ 31 - 1)%Z -> incr n = (n + 1)%Z.
Proof. intros Hn. unfold incr. rewrite Z.mod_small by lia. lia. Qed.

Abbreviation Adam_t := (AdamOptimizer (A := array_t) (K := R)).

Lemma adam_averages i rounds (o0 : Adam_t) x0 :
  adam_count_ o0 = 0%Z -> (Z.of_nat (length rounds) < 2 ^ 31)%Z ->
  let '(o, l, x) := fold_left (trainOne i) rounds (o0, ((fun _ => 0), (fun _ => 0)), x0) in
  adam_beta1_ o = adam_beta1_ o0 /\ adam_beta2_ o = adam_beta2_ o0 /\ adam_eps_ o = adam_eps_ o0 /\ adam_wd_ o = adam_wd_ o0
  /\ adam_count_ o = Z.of_nat (length rounds)
  /\ forall e, l.1 e = (1 - adam_beta1_ o0) * weighted (adam_beta1_ o0) (grads_at i e rounds)
     /\ l.2 e = (1 - adam_beta2_ o0) * weighted (adam_beta2_ o0) ((fun g => g * g) <$> grads_at i e rounds).
Proof.
  intros Hc. induction rounds as [|[lr gs] rounds IH] using rev_ind; intros Hlen.
  { cbn. rewrite Hc. split_and!; try done. intros e. unfold weighted. cbn. split; ring. }
  rewrite length_app in Hlen. cbn [length] in Hlen. specialize (IH ltac:(lia)). rewrite fold_left_app.
  destruct (fold_left _ rounds _) as [[o l] x]. destruct IH as (E1 & E2 & E3 & E4 & Ec & Ew).
  cbn -[weighted incr Z.of_nat]. rewrite E1, E2, E3, E4, Ec, length_app. cbn [length]. split_and!; try done.
  - rewrite incr_small by lia. lia.
  - intros e. destruct (Ew e) as [W1 W2]. unfold average, averageSq.
    rewrite grads_at_snoc, fmap_app. cbn -[weighted grads_at]. rewrite !weighted_snoc, W1, W2. split; ring.
Qed.

Lemma weighted_nonneg b g : 0 <= b -> Forall (Rle 0) g -> 0 <= weighted b g.
Proof.
  intros Hb. induction g as [|x g IH] using rev_ind; intros Hg; [unfold weighted; cbn; lra|].
  apply Forall_app in Hg as [Hg [Hx _]%Forall_cons_1]. rewrite weighted_snoc. specialize (IH Hg).
  pose proof (Rmult_le_pos b _ Hb IH). lra.
Qed.

Lemma squares_nonneg g : Forall (Rle 0) ((fun x => x * x) <$> g).
Proof. apply Forall_fmap, Forall_forall. intros x _. cbn. nra. Qed.

(** Dividing both averages by their biases is what the corrected learning rate does. *)
Lemma adam_update lr b1 b2 eps g :
  0 <= b1 < 1 -> 0 <= b2 < 1 -> 0 < eps -> g <> [] ->
  let sq := (fun x => x * x) <$> g in
  adam_lr (A := array_t) lr b1 b2 (Z.of_nat (length g)) * ((1 - b1) * weighted b1 g) / (sqrt ((1 - b2) * weighted b2 sq) + eps)
  = lr * weighted_mean b1 g / (sqrt (weighted_mean b2 sq) + eps / sqrt (1 - b2 ^ length g)).
Proof.
  intros Hb1 Hb2 Heps Hg sq. assert (El : length sq = length g) by apply length_fmap.
  assert (Hsq : sq <> []) by (intros E; rewrite E in El; by destruct g).
  assert (Hc : forall b, 0 <= b < 1 -> 0 < 1 - b ^ length g).
  { intros b Hb. destruct g; [done|]. pose proof (pow_lt_1 b (length g) Hb). cbn [length]. lra. }
  assert (Hv : 0 <= weighted_mean b2 sq).
  { pose proof (weighted_nonneg b2 sq ltac:(lra) (squares_nonneg g)) as Hw.
    pose proof (weighted_mean_bias b2 sq Hb2 Hsq) as Hm. pose proof (Hc b2 Hb2). rewrite El in Hm.
    assert (0 <= (1 - b2) * weighted b2 sq) by (apply Rmult_le_pos; lra). nra. }
  rewrite !weighted_mean_bias, El by done. rewrite sqrt_mult by (done || (apply Rlt_le; by apply Hc)).
  cbn. rewrite <- !pow_powerRZ. 
  pose proof (Hc b1 Hb1). pose proof (sqrt_lt_R0 _ (Hc b2 Hb2)). pose proof (sqrt_pos (weighted_mean b2 sq)).
  set (c := sqrt (1 - b2 ^ length g)) in *. set (v := sqrt (weighted_mean b2 sq)) in *.
  field. split; [lra|]. split; [|lra]. nra.
Qed.

(** C20. The [n]-th step of Adam moves every element by [lr * m / (sqrt v +
    eps / sqrt (1 - beta2^n))], where [m] and [v] are the means of the past
    gradients and of their squares with exactly the weights [beta^k]: the
    corrected learning rate divides out the bias of both averages; decoupled
    weight decay comes on top. *)
Theorem adam_bias_corrected ps lr0 b1 b2 eps wd (rounds : list (R * list array_t)) lr gs (h : heap) :
  0 <= b1 < 1 -> 0 <= b2 < 1 -> 0 < eps -> independent ps h ->
  (forall lg, lg ∈ rounds ++ [(lr, gs)] -> length lg.2 = length ps) -> (Z.of_nat (length rounds) < 2 ^ 31 - 1)%Z ->
  let o := newAdam ps lr0 b1 b2 eps wd h in
  exists o1 h1 o2 h2, train o h rounds = Ok (o1, h1) /\ train o h (rounds ++ [(lr, gs)]) = Ok (o2, h2)
    /\ forall i p e, ps !! i = Some p ->
       let g := grads_at i e (rounds ++ [(lr, gs)]) in
       array p h2 e = array p h1 e - wd * lr * array p h1 e
         - lr * weighted_mean b1 g / (sqrt (weighted_mean b2 ((fun g => g * g) <$> g)) + eps / sqrt (1 - b2 ^ length g)).
Proof.
  intros Hb1 Hb2 Heps Hind Hlen Hn o.
  assert (Hsl : forall i, (i < length ps)%nat -> slot o (get o) i = Some ((fun _ => 0), (fun _ => 0))).
  { intros i Hi. cbn. unfold slot2. cbn. by rewrite zerosLike_lookup. }
  destruct (train_local one_type_reals rounds o h) as (o1 & h1 & E1 & R1); [done| |intros i Hi; by rewrite Hsl|].
  { intros lg Hin. apply Hlen. apply elem_of_app. by left. }
  destruct (train_local one_type_reals (rounds ++ [(lr, gs)]) o h) as (o2 & h2 & E2 & R2); [done|exact Hlen|intros i Hi; by rewrite Hsl|].
  exists o1, h1, o2, h2. split; [done|split; [done|]]. intros i p e Hi g.
  pose proof (lookup_lt_Some _ _ _ Hi) as Hlt. specialize (R1 i p _ Hi (Hsl i Hlt)). specialize (R2 i p _ Hi (Hsl i Hlt)).
  pose proof (adam_averages i (rounds ++ [(lr, gs)]) o (array p h) eq_refl) as Av2.
  pose proof (adam_averages i rounds o (array p h) eq_refl ltac:(lia)) as Av1.
  rewrite length_app in Av2. cbn [length] in Av2. specialize (Av2 ltac:(lia)).
  rewrite fold_left_app in R2, Av2. destruct (fold_left _ rounds _) as [[o' l] x].
  destruct R1 as [_ ->], Av1 as (F1 & F2 & F3 & F4 & Fc & _). cbn [fold_left] in *.
  cbn -[weighted incr average averageSq adam_lr s_nonzero] in R2, Av2. destruct R2 as [_ ->], Av2 as (_ & _ & _ & _ & _ & Ew).
  destruct (Ew e) as [W1 W2]. fold g in W1, W2. 
  rewrite F1, F2, F3, F4, Fc in *. cbn [adam_beta1_ adam_beta2_ adam_eps_ adam_wd_ o newAdam] in *.
  rewrite W1, W2, incr_small by lia.
  replace (Z.of_nat (length rounds) + 1)%Z with (Z.of_nat (length g)) by (subst g; unfold grads_at; rewrite length_fmap, length_app; cbn; lia).
  rewrite <- (adam_update lr b1 b2 eps g) by (done || (subst g; rewrite grads_at_snoc; by destruct (grads_at i e rounds))).
  f_equal. cbn. destruct (decide (wd = 0)) as [->|]; [rewrite bool_decide_eq_true_2 by done; cbn; ring|by rewrite bool_decide_eq_false_2].
Qed.

(** ** SGD with momentum *)

Lemma sgd_velocity mu i rounds (o0 : SGDOptimizer (A := array_t) (K := R)) x0 :
  sgd_mu_ o0 = mu -> mu <> 0 -> sgd_wd_ o0 = 0 -> sgd_useNesterov_ o0 = false ->
  let '(o, l, x) := fold_left (trainOne i) rounds (o0, Some (fun _ => 0), x0) in
  sgd_mu_ o = mu /\ sgd_wd_ o = 0 /\ sgd_useNesterov_ o = false
  /\ (exists v, l = Some v /\ forall e, v e = weighted mu (grads_at i e rounds))
  /\ forall e, x e = x0 e - Rsum (List.seq 0 (length rounds)) (fun k =>
       (nth k (rounds.*1) 0) * weighted mu (grads_at i e (take (Datatypes.S k) rounds))).
Proof.
  intros Hmu Hnz Hwd Hn. induction rounds as [|[lr gs] rounds IH] using rev_ind.
  { cbn. split_and!; try done; [|intros e; ring]. eexists. split; [done|]. by intros e. }
  rewrite fold_left_app. destruct (fold_left _ rounds _) as [[o l] x]. destruct IH as (E1 & E2 & E3 & (v & -> & Hv) & Hx).
  cbn -[weighted s_nonzero Rsum]. rewrite E1, E2, E3, s_nonzero_0. split_and!; try done.
  - eexists. split; [done|]. intros e. rewrite grads_at_snoc, weighted_snoc. cbn. by rewrite Hv.
  - intros e. rewrite length_app, seq_app, Rsum_app. cbn [length List.seq Nat.add]. rewrite Rsum_cons, Rsum_nil.
    rewrite fmap_app, app_nth2 by (rewrite length_fmap; lia). rewrite length_fmap, Nat.sub_diag.
    rewrite (take_ge (rounds ++ [(lr, gs)])) by (rewrite length_app; cbn; lia).
    rewrite grads_at_snoc, weighted_snoc, Hv, Hx. cbn [fmap list_fmap nth fst snd].
    rewrite (Rsum_ext (List.seq 0 (length rounds)) _ (fun k =>
      nth k (rounds.*1 ++ [lr]) 0 * weighted mu (grads_at i e (take (Datatypes.S k) (rounds ++ [(lr, gs)]))))); [lra|].
    intros k [_ Hk]%elem_of_seq. rewrite app_nth1 by (rewrite length_fmap; lia). by rewrite take_app_le by lia.
Qed.

(** SGD with momentum moves a parameter by the sum over the steps of the
    learning rate of the step times the gradients so far, weighted by powers of the
    momentum. *)
Theorem sgd_momentum ps lr0 mu (rounds : list (R * list array_t)) (h : heap) :
  mu <> 0 -> independent ps h -> (forall lg, lg ∈ rounds -> length lg.2 = length ps) ->
  exists o' h', train (newSGD ps lr0 mu 0 false h) h rounds = Ok (o', h')
    /\ forall i p e, ps !! i = Some p ->
       array p h' e = array p h e - Rsum (List.seq 0 (length rounds)) (fun k =>
         nth k (rounds.*1) 0 * weighted mu (grads_at i e (take (Datatypes.S k) rounds))).
Proof.
  intros Hmu Hind Hlen. pose proof (s_nonzero_true mu Hmu) as Hz.
  assert (Hsl : forall i, (i < length ps)%nat -> slot (newSGD ps lr0 mu 0 false h) (get (newSGD ps lr0 mu 0 false h)) i
      = Some (Some (fun _ => 0))).
  { intros i Hi. cbn -[s_nonzero]. by rewrite Hz, zerosLike_lookup. }
  destruct (train_local one_type_reals rounds (newSGD ps lr0 mu 0 false h) h) as (o' & h' & E & Hr);
    [done|exact Hlen|intros i Hi; by rewrite Hsl|].
  exists o', h'. split; [done|]. intros i p e Hi. pose proof (lookup_lt_Some _ _ _ Hi) as Hlt.
  specialize (Hr i p _ Hi (Hsl i Hlt)).
  pose proof (sgd_velocity mu i rounds (newSGD ps lr0 mu 0 false h) (array p h) eq_refl Hmu eq_refl eq_refl) as Hv.
  destruct (fold_left _ rounds _) as [[o l] x]. destruct Hr as [_ ->], Hv as (_ & _ & _ & _ & Hx). apply Hx.
Qed.

(** ** RMSProp divides by a real number *)

(** With centred moments, over exact reals, RMSProp takes square roots of non-negative
    numbers only (rounding may make the difference negative): whatever the gradients were, the square of the running mean
    never exceeds the running mean of the squares. *)
Theorem rmsprop_moments_nonneg ps lr0 rho eps wd (rounds : list (R * list array_t)) (h : heap) :
  0 <= rho <= 1 -> independent ps h -> (forall lg, lg ∈ rounds -> length lg.2 = length ps) ->
  exists o' h', train (newRMSProp ps lr0 rho eps wd true h) h rounds = Ok (o', h')
    /\ forall i, (i < length ps)%nat -> exists first second,
       rms_first_ o' !! i = Some first /\ rms_second_ o' !! i = Some second /\ forall e, first e * first e <= second e.
Proof.
  intros Hrho Hind Hlen. set (o := newRMSProp ps lr0 rho eps wd true h).
  assert (Hsl : forall i, (i < length ps)%nat -> slot o (get o) i = Some (Some (fun _ => 0), (fun _ => 0))).
  { intros i Hi. cbn. by rewrite zerosLike_lookup. }
  destruct (train_local one_type_reals rounds o h) as (o' & h' & E & Hr); [done|exact Hlen|intros i Hi; by rewrite Hsl|].
  exists o', h'. split; [done|]. intros i Hi. destruct (lookup_lt_is_Some_2 ps i Hi) as [p Hp].
  specialize (Hr i p _ Hp (Hsl i Hi)).
  assert (Hinv : let '(o1, l, _) := fold_left (trainOne i) rounds (o, (Some (fun _ => 0), (fun _ => 0)), array p h) in
    rms_rho_ o1 = rho /\ exists first, l.1 = Some first /\ forall e, first e * first e <= l.2 e).
  { clear -Hrho. induction rounds as [|[lr gs] rounds IH] using rev_ind.
    { cbn. split; [done|]. eexists. split; [done|]. intros e. lra. }
    rewrite fold_left_app. destruct (fold_left _ rounds _) as [[o1 l] x]. destruct IH as (E1 & f & E2 & Hf).
    cbn. rewrite E1, E2. split; [done|]. eexists. split; [done|]. intros e. specialize (Hf e). cbn.
    set (g := default _ _ e). 
    assert (0 <= rho * (1 - rho) * ((f e - g) * (f e - g))).
    { apply Rmult_le_pos; [apply Rmult_le_pos; lra|apply Rle_0_sqr]. }
    assert (rho * (f e * f e) <= rho * l.2 e) by (apply Rmult_le_compat_l; lra). lra. }
  destruct (fold_left _ rounds _) as [[o1 l] x]. destruct Hr as [Hs _], Hinv as (_ & f & Ef & Hf).
  cbn in Hs. apply bind_Some in Hs as (f' & (f2 & H1 & ->)%fmap_Some & (z & H2 & Hl)%bind_Some).
  injection Hl as <-. injection Ef as ->. by exists f, z.
Qed.

(** ** Clipping *)

Definition normOf (gs : list var) (h : heap) : R := sqrt (Rsum gs (fun g => Rsum all (fun e => array g h e * array g h e))).

Lemma sumSquares_spec ps (h : heap) n :
  foldM_result (fun n p =>
    if negb (isGradAvailable p h) then Ok n
    else g ← getGrad p h; Ok (s_add n (o_sum (o_mul (array g h) (array g h))))) n ps
  = Ok (n + Rsum (gradients ps h) (fun g => Rsum all (fun e => array g h e * array g h e))).
Proof.
  revert n. induction ps as [|p ps IH]; intros n; cbn [foldM_result]; [f_equal; cbn; ring|].
  rewrite gradients_cons, isGradAvailable_getGrad, Rsum_app.
  destruct (getGrad p h) as [g|]; cbn; rewrite IH; f_equal; unfold Rsum; cbn; ring.
Qed.

Lemma Rsum_squares_nonneg {X} (l : list X) (f : X -> R) : 0 <= Rsum l (fun e => f e * f e).
Proof. apply Rsum_nonneg. intros x _. apply Rle_0_sqr. Qed.

Lemma normOf_scale gs k (h h' : heap) :
  0 <= k -> (forall g e, g ∈ gs -> array g h' e = k * array g h e) -> normOf gs h' = k * normOf gs h.
Proof.
  intros Hk Hs. unfold normOf. 
  rewrite <- (sqrt_square k) at 1 by done.
  rewrite <- sqrt_mult; [|nra|apply Rsum_nonneg; intros; apply Rsum_squares_nonneg]. f_equal.
  rewrite Rmult_comm, <- Rsum_scal. apply Rsum_ext. intros g Hg. rewrite <- Rsum_scal. apply Rsum_ext. intros e _.
  rewrite !Hs by done. ring.
Qed.

(** C21. [clipGradNorm] returns the norm of all gradients together and leaves
    gradients whose norm is at most [maxNorm]; all of them are scaled by one
    factor between 0 and 1, which is 1 when the norm was below the bound, and
    no other array changes. *)
Theorem clipGradNorm_bounds ps maxNorm (h : heap) :
  0 <= maxNorm -> NoDup (data_ <$> gradients ps h) ->
  exists h', clipGradNorm ps maxNorm h = Ok (normOf (gradients ps h) h, h')
    /\ normOf (gradients ps h') h' <= maxNorm
    /\ (exists k, 0 <= k <= 1 /\ (normOf (gradients ps h) h + / 1000000 <= maxNorm -> k = 1)
         /\ forall g e, g ∈ gradients ps h -> array g h' e = k * array g h e)
    /\ (forall v, data_ v ∉ data_ <$> gradients ps h -> array v h' = array v h).
Proof.
  intros Hm Hnd. unfold clipGradNorm. unfold sumSquares. rewrite sumSquares_spec. cbn -[Rsum gradients].
  rewrite Rplus_0_l. fold (normOf (gradients ps h) h). set (n := normOf (gradients ps h) h).
  assert (Hn : 0 <= n) by apply sqrt_pos. set (scale := maxNorm / (n + / 1000000)).
  assert (Esc : scale * (n + / 1000000) = maxNorm) by (unfold scale; field; lra).
  assert (Hsc : 0 <= scale) by (apply Rmult_le_pos; [done|apply Rlt_le, Rinv_0_lt_compat; lra]).
  destruct (decide (1 <= scale)) as [Hle|Hgt].
  - rewrite bool_decide_eq_true_2 by done. exists h. split; [done|]. split; [fold n; nra|]. split; [|done].
    exists 1. split_and!; try done; try lra. intros; ring.
  - rewrite bool_decide_eq_false_2 by done. destruct (scaleGrads_spec scale ps h Hnd) as (h' & E & Gr & _ & Sc & Ot).
    rewrite E. exists h'. split; [done|]. rewrite (gradients_grads ps h h' Gr). split; [|split; [|done]].
    + rewrite (normOf_scale _ scale h h'); [fold n; nra|done|]. intros g e Hg. by rewrite Sc.
    + exists scale. split_and!; try done; try lra; [intros Hle; exfalso; apply Hgt; nra|]. intros g e Hg. by rewrite Sc.
Qed.
End Reals.

(** ** Concrete runs *)

(** One parameter with one element *)
Lemma one_independent (a : unit -> R) :
  independent [fst (newVariable a true empty_heap)] (snd (newVariable a true empty_heap)).
Proof.
  split; [|split]; [apply NoDup_singleton|apply NoDup_singleton|]. intros p ->%list_elem_of_singleton. cbn.
  split_and!; [done|lia|lia].
Qed.

#[local] Hint Extern 0 (OptimOps (unit -> R) _) => exact (optim_reals [tt]) : typeclass_instances.

Lemma nag_is_nesterov_witness :
  let '(p, h) := newVariable (fun _ : unit => 1) true empty_heap in
  let rounds := [(1, [fun _ => 2]); (/ 2, [fun _ => 3])] in
  exists sgd' h1 nag nag' h2,
    train (newSGD [p] 1 (/ 2) 0 true h) h rounds = Ok (sgd', h1)
    /\ newNAG [p] 1 (/ 2) 0 h = Ok nag /\ train nag h rounds = Ok (nag', h2)
    /\ forall q e, q ∈ [p] -> array q h1 e = array q h2 e.
Proof.
  apply (nag_is_nesterov [tt]); [lra|lra| |apply one_independent].
  intros lg [->|[->|[]%not_elem_of_nil]%elem_of_cons]%elem_of_cons; (split; [cbn; lra|done]).
Defined.

Lemma adam_bias_corrected_witness :
  let '(p, h) := newVariable (fun _ : unit => 1) true empty_heap in
  let o := newAdam [p] (/ 10) (9 / 10) (99 / 100) (/ 1000) 0 h in
  let rounds := [(/ 10, [fun _ => 2])] in let last := (/ 20, [fun _ => 3]) in
  exists o1 h1 o2 h2, train o h rounds = Ok (o1, h1) /\ train o h (rounds ++ [last]) = Ok (o2, h2)
    /\ forall i q e, [p] !! i = Some q ->
       let g := grads_at i e (rounds ++ [last]) in
       array q h2 e = array q h1 e - 0 * / 20 * array q h1 e
         - / 20 * weighted_mean (9 / 10) g
           / (sqrt (weighted_mean (99 / 100) ((fun g => g * g) <$> g)) + / 1000 / sqrt (1 - (99 / 100) ^ length g)).
Proof.
  apply (adam_bias_corrected [tt]); [lra|lra|lra|apply one_independent| |cbn; lia].
  intros lg [->|[->|[]%not_elem_of_nil]%elem_of_cons]%elem_of_cons; done.
Defined.

Lemma rmsprop_moments_nonneg_witness :
  let '(p, h) := newVariable (fun _ : unit => 1) true empty_heap in
  exists o' h', train (newRMSProp [p] 1 (/ 2) (/ 100) 0 true h) h [(1, [fun _ => 2]); (1, [fun _ => -3])] = Ok (o', h')
    /\ forall i, (i < length [p])%nat -> exists first second,
       rms_first_ o' !! i = Some first /\ rms_second_ o' !! i = Some second /\ forall e, first e * first e <= second e.
Proof.
  apply (rmsprop_moments_nonneg [tt]); [lra|apply one_independent|].
  intros lg [->|[->|[]%not_elem_of_nil]%elem_of_cons]%elem_of_cons; done.
Defined.

Lemma clipGradNorm_bounds_witness :
  let '(p, h) := newVariable (fun _ : unit => 1) true empty_heap in
  let '(g, h) := newVariable (fun _ : unit => 5) false h in
  exists h0, addGrad p g h = Ok h0 /\ gradients [p] h0 = [g] /\
  exists h', clipGradNorm [p] 2 h0 = Ok (normOf [tt] (gradients [p] h0) h0, h')
    /\ normOf [tt] (gradients [p] h') h' <= 2
    /\ (exists k, 0 <= k <= 1 /\ (normOf [tt] (gradients [p] h0) h0 + / 1000000 <= 2 -> k = 1)
         /\ forall g e, g ∈ gradients [p] h0 -> array g h' e = k * array g h0 e)
    /\ (forall v, data_ v ∉ data_ <$> gradients [p] h0 -> array v h' = array v h0).
Proof. cbn zeta. eexists. split; [reflexivity|]. split; [reflexivity|]. apply (clipGradNorm_bounds [tt]); [lra|]. apply NoDup_singleton. Defined.
