(* ===== verification/LmTrainer.v ===== *)
(** The optimisation part of the language model trainer, [app/lm/Trainer.cpp], and
    the loss scaling of [ext/amp/DynamicScaler.cpp]: creating the optimiser, the
    learning rate schedule, one training step, the loop over batches.

    Sampling, the forward pass and the backward pass up to [reduceGrads] are an
    argument: a function of the loss scale and of the heap that leaves the
    gradients.  Evaluation, checkpoints, timers and logging are not modelled. *)
From S2P Require Import Prelude Autograd AutogradFunctions AutogradReal Numeric RealSum Optimizers OptimizerProofs.
From Stdlib Require Import Reals Lra.

#[local] Open Scope Z_scope.

(** * Dynamic loss scaling *)

(** [fl::isInvalidArray]: an element is infinite or not a number. *)
Class AmpOps (A : Type) := a_invalid : A -> bool.

Section Trainer.
Context {A K : Type} `{Arrays A, OptimOps A K, AmpOps A}.
Abbreviation heap := (Autograd.heap (A := A)).

Record DynamicScaler := MkDynamicScaler {
  scaleFactor_ : K; maxScaleFactor_ : K; successCounter_ : Z; updateInterval_ : Z }.

Definition newDynamicScaler (initFactor maxFactor : K) (updateInterval : Z) : DynamicScaler :=
  MkDynamicScaler initFactor maxFactor 0 updateInterval.

(** [p.grad() = p.grad() / scaleFactor_] for each parameter until an invalid
    gradient; a gradient wants no gradient, so the quotient has no inputs. *)
Fixpoint unscaleGrads (factor : K) (ps : list var) (h : heap) : result (bool * heap) :=
  match ps with
  | [] => Ok (true, h)
  | p :: r =>
      g ← getGrad p h;
      let '(t, h) := newVariable (o_divk (array g h) factor) false h in
      let h := upd (grad_ p) (set_grad (Some t)) h in
      if a_invalid (array t h) then Ok (false, h) else unscaleGrads factor r h
  end.

Definition kAmpMinimumScaleFactorValue : K := s_div (s_of 1) (s_of 10000).

(** [None]: the process exits. *)
Definition unscale (d : DynamicScaler) (ps : list var) (h : heap) : result (option (bool * DynamicScaler * heap)) :=
  '(valid, h) ← unscaleGrads (scaleFactor_ d) ps h;
  if (valid : bool) then
    Ok (Some (true, MkDynamicScaler (scaleFactor_ d) (maxScaleFactor_ d) ((successCounter_ d + 1) mod 2 ^ 32) (updateInterval_ d), h))
  else if s_le kAmpMinimumScaleFactorValue (scaleFactor_ d) then
    Ok (Some (false, MkDynamicScaler (s_div (scaleFactor_ d) (s_of 2)) (maxScaleFactor_ d) 0 (updateInterval_ d), h))
  else Ok None.

Definition update (d : DynamicScaler) : DynamicScaler :=
  if s_le (maxScaleFactor_ d) (scaleFactor_ d) then d
  else if s_le (scaleFactor_ d) (s_of (updateInterval_ d)) && s_le (s_of (updateInterval_ d)) (scaleFactor_ d) then
    MkDynamicScaler (s_mul (scaleFactor_ d) (s_of 2)) (maxScaleFactor_ d) 0 (updateInterval_ d)
  else MkDynamicScaler (s_add (scaleFactor_ d) (s_of 2)) (maxScaleFactor_ d) (successCounter_ d) (updateInterval_ d).

(** * The trainer *)

Record LmFlags := MkLmFlags {
  train_optimizer : string; train_warmup_updates : Z; train_warmup_init_lr : K; train_lr : K;
  train_lr_schedule : string; train_momentum : K; train_weight_decay : K; train_max_grad_norm : K }.

Definition defaultFlags : LmFlags :=
  MkLmFlags "nag" 0 (s_of 0) (s_of 1) "fixed" (s_of 0) (s_of 0) (s_of 0).

Inductive AnyOptimizer :=
| AnNAG (o : NAGOptimizer (A := A) (K := K))
| AnSGD (o : SGDOptimizer (A := A) (K := K))
| AnAdagrad (o : AdagradOptimizer (A := A) (K := K)).

Definition createOptimizer (fl : LmFlags) (ps : list var) (h : heap) : result AnyOptimizer :=
  if String.eqb (train_optimizer fl) "nag" then
    o ← newNAG ps (train_lr fl) (train_momentum fl) (train_weight_decay fl) h; Ok (AnNAG o)
  else if String.eqb (train_optimizer fl) "sgd" then
    Ok (AnSGD (newSGD ps (train_lr fl) (train_momentum fl) (train_weight_decay fl) false h))
  else if String.eqb (train_optimizer fl) "adagrad" then
    Ok (AnAdagrad (newAdagrad ps (train_lr fl) (s_div (s_of 1) (s_of 100000000)) (train_weight_decay fl) h))
  else Throw RuntimeError.

(** The learning rate [setLr] gives the optimiser for batch [batchIdx]. *)
Definition scheduledLr (fl : LmFlags) (batchIdx : Z) : result K :=
  let warmup := train_warmup_updates fl in
  if batchIdx <? warmup then
    Ok (s_add (train_warmup_init_lr fl)
         (s_div (s_mul (s_sub (train_lr fl) (train_warmup_init_lr fl)) (s_of batchIdx)) (s_of warmup)))
  else if String.eqb (train_lr_schedule fl) "fixed" then Ok (train_lr fl)
  else if String.eqb (train_lr_schedule fl) "invsqrt" then
    Ok (if 0 <? warmup then s_div (s_mul (train_lr fl) (s_sqrt (s_of warmup))) (s_sqrt (s_of batchIdx))
        else s_div (train_lr fl) (s_sqrt (s_of (batchIdx + 1))))
  else Throw RuntimeError.

(** The virtual calls on [optimizer_] *)
Definition anyBase (o : AnyOptimizer) : FirstOrderOptimizer (K := K) :=
  match o with AnNAG o => base o | AnSGD o => base o | AnAdagrad o => base o end.
Definition anySetLr (lr : K) (o : AnyOptimizer) : AnyOptimizer :=
  match o with AnNAG o => AnNAG (setLr lr o) | AnSGD o => AnSGD (setLr lr o) | AnAdagrad o => AnAdagrad (setLr lr o) end.
Definition anyStep (o : AnyOptimizer) (h : heap) : result (AnyOptimizer * heap) :=
  match o with
  | AnNAG o => '(o, h) ← step o h; Ok (AnNAG o, h)
  | AnSGD o => '(o, h) ← step o h; Ok (AnSGD o, h)
  | AnAdagrad o => '(o, h) ← step o h; Ok (AnAdagrad o, h)
  end.

(** The [while (true)] of [trainStep]: [backward] runs with the loss scaled by the
    factor, if any; it is repeated with a smaller factor while gradients are
    invalid. *)
Fixpoint scaledBackward (fuel : nat) (backward : option K -> heap -> result heap) (ps : list var) (o : AnyOptimizer)
    (scaler : option DynamicScaler) (h : heap) : result (option (option DynamicScaler * heap)) :=
  match fuel with
  | O => Throw Undefined
  | S fuel =>
      let h := zeroGrads (anyBase o) h in
      h ← backward (scaleFactor_ <$> scaler) h;
      match scaler with
      | None => Ok (Some (None, h))
      | Some d =>
          r ← unscale d ps h;
          match r with
          | None => Ok None
          | Some (false, d, h) => scaledBackward fuel backward ps o (Some d) h
          | Some (true, d, h) => Ok (Some (Some (update d), h))
          end
      end
  end.

Definition trainStep (fuel : nat) (fl : LmFlags) (ps : list var) (batchIdx : Z) (backward : option K -> heap -> result heap)
    (o : AnyOptimizer) (scaler : option DynamicScaler) (h : heap)
    : result (option (AnyOptimizer * option DynamicScaler * heap)) :=
  lr ← scheduledLr fl batchIdx;
  let o := anySetLr lr o in
  r ← scaledBackward fuel backward ps o scaler h;
  match r with
  | None => Ok None
  | Some (scaler, h) =>
      '(_, h) ← clipGradNorm ps (train_max_grad_norm fl) h;
      '(o, h) ← anyStep o h;
      Ok (Some (o, scaler, h))
  end.

(** The training loop; one backward pass per batch. *)
Fixpoint runTraining (fuel : nat) (fl : LmFlags) (ps : list var) (batchIdx : Z) (batches : list (option K -> heap -> result heap))
    (o : AnyOptimizer) (scaler : option DynamicScaler) (h : heap)
    : result (option (AnyOptimizer * option DynamicScaler * heap)) :=
  match batches with
  | [] => Ok (Some (o, scaler, h))
  | b :: batches =>
      r ← trainStep fuel fl ps batchIdx b o scaler h;
      match r with
      | None => Ok None
      | Some (o, scaler, h) => runTraining fuel fl ps (batchIdx + 1) batches o scaler h
      end
  end.
End Trainer.

(** * One batch without loss scaling *)

Section Batch.
Context {A K O S L : Type} `{OptimizerLaws A K O S L} `{OptimOps A K} (one_type : forall a b : A, a_type a = a_type b).
Abbreviation heap := (Autograd.heap (A := A)).

Lemma separate_gradients ps (h : heap) :
  separate h ps -> NoDup (data_ <$> gradients ps h) /\ forall p, p ∈ ps -> data_ p ∉ data_ <$> gradients ps h.
Proof.
  assert (Hcell : forall ps c, c ∈ data_ <$> gradients ps h -> exists q, q ∈ ps /\ c ∈ cells h q /\ forall g, getGrad q h = Ok g -> c = data_ g).
  { clear ps. intros ps c (g & -> & (q & Hq & Hg)%list_elem_of_In%in_flat_map)%list_elem_of_fmap. exists q.
    apply list_elem_of_In in Hq. unfold cells. destruct (getGrad q h) as [g'|]; [|done]. destruct Hg as [->|[]].
    split; [done|]. split; [right; by left|by intros ? [= <-]]. }
  induction ps as [|p ps IH]; intros Hsep; [split; [constructor|by intros p Hp%not_elem_of_nil]|].
  pose proof (separate_cons _ _ _ Hsep) as (Hg & Hd & Hsep'). destruct (IH Hsep') as [Hnd Hp].
  rewrite gradients_cons. split.
  - destruct (getGrad p h) as [g|] eqn:Eg; [|done]. cbn. apply NoDup_cons. split; [|done].
    intros (q & Hq & Hc & _)%Hcell. apply (Hd q (data_ g)); [done| |done]. unfold cells. rewrite Eg. right. by left.
  - intros q Hq. rewrite fmap_app, not_elem_of_app. apply elem_of_cons in Hq as [->|Hq].
    + split.
      * destruct (getGrad p h) as [g|] eqn:Eg; cbn; [|apply not_elem_of_nil]. intros Hin%list_elem_of_singleton. by apply (Hg g).
      * intros (r & Hr & Hc & _)%Hcell. apply (Hd r (data_ p)); [done|by left|done].
    + split; [|by apply Hp]. destruct (getGrad p h) as [g|] eqn:Eg; cbn; [|apply not_elem_of_nil].
      intros Hin%list_elem_of_singleton. apply (Hd q (data_ q)); [done|unfold cells; rewrite Eg, Hin; right; by left|by left].
Qed.

(** A batch whose backward pass leaves the arrays [gs] as gradients; [P] is what
    clipping ensures of a gradient. *)
Lemma batch_local (P : A -> Prop) o (h : heap) maxNorm gs :
  let ps := parameters_ (base o) in
  independent ps h -> length gs = length ps -> (forall i, (i < length ps)%nat -> is_Some (slot o (get o) i)) ->
  (forall h1 n h2 g, NoDup (data_ <$> gradients ps h1) -> clipGradNorm (K := K) ps maxNorm h1 = Ok (n, h2) ->
     g ∈ gradients ps h1 -> P (array g h2)) ->
  exists h1 n h2 s' h', giveGrads ps gs (zeroGrads (base o) h) = Ok h1 /\ clipGradNorm ps maxNorm h1 = Ok (n, h2)
    /\ step o h2 = Ok (put s' (tick o), h') /\ independent ps h'
    /\ forall i p l, ps !! i = Some p -> slot o (get o) i = Some l -> exists g, P g
         /\ slot o s' i = Some (rule o l (array p h) g).1 /\ array p h' = (rule o l (array p h) g).2.
Proof.
  intros ps (Hd & Hgr & Hps) Hlen Hs HP. destruct (zeroGrads_spec ps h) as (Z1 & Z2 & Z3 & Z4).
  set (h0 := zeroGrads (base o) h) in *. change (fold_left _ ps h) with h0 in *.
  assert (Za : forall v, array v h0 = array v h) by (intros v; unfold array; by rewrite Z1).
  destruct (giveGrads_spec one_type ps gs h0 Hlen Hgr) as (h1 & E1 & N1 & A1 & _ & G1).
  { intros p Hp. destruct (Hps p Hp) as (? & ? & ?). rewrite Z2. unfold isCalcGrad. rewrite Z3. split_and!; [done| |done|done].
    apply Z4. by apply list_elem_of_fmap_2. }
  rewrite Z2 in *.
  assert (Hsep : separate h1 ps) by (apply (separate_given ps h1 (next h)); [done|by apply Hps|intros i p Hi; by apply G1]).
  destruct (separate_gradients ps h1 Hsep) as [Hnd Hpg].
  destruct (clipGradNorm_frame ps maxNorm h1 Hnd) as (n & h2 & E2 & Gr2 & N2 & A2).
  destruct (step_separate o h2) as (s' & h' & E3 & Gr3 & Nx & St).
  { destruct Hsep as [Sg Sd]. split.
    - intros p g Hp Eg. apply (Sg p g Hp). by rewrite <- (getGrad_grads p h1 h2 Gr2).
    - intros j k q r Hjk Hj Hk. rewrite !(cells_grads _ h1 h2 Gr2). by apply (Sd j k). }
  { done. }
  exists h1, n, h2, s', h'. split; [done|split; [done|split; [done|split]]].
  - split; [done|split; [done|]]. intros p Hp. destruct (Hps p Hp) as (? & ? & ?).
    pose proof Hp as [i Hi]%list_elem_of_lookup. destruct (G1 i p Hi) as (Hc & _). unfold isCalcGrad, sg.
    rewrite Gr3, Gr2, Nx, N2, N1. split_and!; [exact Hc|lia|lia].
  - intros i p l Hi Hl. specialize (St i p Hi). destruct (G1 i p Hi) as (_ & Hg & _).
    pose proof (list_elem_of_lookup_2 _ _ _ Hi) as Hp. unfold stepped in St.
    rewrite (getGrad_grads p h1 h2 Gr2), Hg, Hl in St. 
    rewrite (A2 p), A1, Za in St; [|by apply Hps|by apply Hpg]. eexists. split; [|exact St].
    apply (HP h1 n h2); [done|done|]. apply list_elem_of_In, in_flat_map. exists p. rewrite <- list_elem_of_In. split; [done|].
    rewrite Hg. by left.
Qed.
End Batch.

(** * Training without loss scaling *)

Section Training.
Context {A K O S L : Type} `{OptimizerLaws A K O S L} `{OptimOps A K, AmpOps A} (one_type : forall a b : A, a_type a = a_type b).
Context (inj : O -> AnyOptimizer (A := A) (K := K))
  (inj_base : forall o, anyBase (inj o) = base o)
  (inj_setLr : forall lr o, anySetLr lr (inj o) = inj (setLr lr o))
  (inj_step : forall o h, anyStep (inj o) h = ('(o, h) ← step o h; Ok (inj o, h))).
Abbreviation heap := (Autograd.heap (A := A)).

(** A backward pass that leaves the arrays [gs]. *)
Definition gives (ps : list var) (gs : list A) (scale : option K) (h : heap) : result heap := giveGrads ps gs h.

(** The state of every parameter satisfies [J]. *)
Definition all_slots (J : nat -> O -> L -> A -> Prop) (o : O) (s : S) (h : heap) : Prop :=
  forall i p, parameters_ (base o) !! i = Some p -> exists l, slot o s i = Some l /\ J i o l (array p h).

Lemma run_batch (P : A -> Prop) (J : nat -> O -> L -> A -> Prop) (J' : nat -> O -> L -> A -> Prop) fuel fl ps b lr gs rest s o (h : heap) :
  ps = parameters_ (base o) -> independent ps h -> length gs = length ps -> all_slots J o s h -> (0 < fuel)%nat ->
  scheduledLr fl b = Ok lr ->
  (forall h1 n h2 g, NoDup (data_ <$> gradients ps h1) -> clipGradNorm (K := K) ps (train_max_grad_norm fl) h1 = Ok (n, h2) ->
     g ∈ gradients ps h1 -> P (array g h2)) ->
  (forall i l x g, P g -> J i o l x -> J' i (tick (setLr lr o)) (rule (setLr lr o) l x g).1 (rule (setLr lr o) l x g).2) ->
  exists s' h', runTraining fuel fl ps b (gives ps gs :: rest) (inj (put s o)) None h
    = runTraining fuel fl ps (b + 1) rest (inj (put s' (tick (setLr lr o)))) None h'
    /\ independent ps h' /\ all_slots J' (tick (setLr lr o)) s' h'.
Proof.
  intros -> Hind Hlen HJ Hfuel Hlr HP HJ'.
  destruct (batch_local one_type P (put s (setLr lr o)) h (train_max_grad_norm fl) gs) as (h1 & n & h2 & s' & h' & E1 & E2 & E3 & Hi & Hr);
    rewrite ?base_put, ?base_setLr, ?slot_put, ?slot_setLr, ?get_put; cbn [parameters_ setLrBase]; try done.
  { intros i Hlt. destruct (lookup_lt_is_Some_2 _ i Hlt) as [p Hp]. destruct (HJ i p Hp) as (l & -> & _). by eexists. }
  rewrite base_put, base_setLr, slot_put, slot_setLr, get_put, rule_put in *. cbn [parameters_ setLrBase] in *.
  rewrite tick_put, put_put in E3.
  exists s', h'. split_and!; [|done|].
  - cbn [runTraining]. unfold trainStep, mbind, result_bind. rewrite Hlr, inj_setLr, setLr_put. destruct fuel; [lia|].
    cbn [scaledBackward]. rewrite inj_base, base_put, base_setLr. unfold gives, mbind, result_bind. rewrite E1. cbn [fmap option_fmap option_map].
    by rewrite E2, inj_step, E3.
  - intros i p Hp. rewrite parameters_tick, base_setLr in Hp. cbn in Hp. destruct (HJ i p Hp) as (l & Hl & Hj).
    destruct (Hr i p l Hp Hl) as (g & Hg & R1 & R2). rewrite slot_tick, slot_setLr. eexists. split; [exact R1|]. rewrite R2. by apply HJ'.
Qed.

(** An invariant of the parameters that every batch keeps. *)
Lemma run_invariant (P : A -> Prop) (J : nat -> O -> L -> A -> Prop) fuel fl ps b batches s o (h : heap) :
  ps = parameters_ (base o) -> independent ps h -> (forall gs, gs ∈ batches -> length gs = length ps) -> all_slots J o s h ->
  (0 < fuel)%nat -> (forall b, exists lr, scheduledLr fl b = Ok lr) ->
  (forall h1 n h2 g, NoDup (data_ <$> gradients ps h1) -> clipGradNorm (K := K) ps (train_max_grad_norm fl) h1 = Ok (n, h2) ->
     g ∈ gradients ps h1 -> P (array g h2)) ->
  (forall i o lr l x g, P g -> J i o l x -> J i (tick (setLr lr o)) (rule (setLr lr o) l x g).1 (rule (setLr lr o) l x g).2) ->
  exists s' o' h', runTraining fuel fl ps b (gives ps <$> batches) (inj (put s o)) None h = Ok (Some (inj (put s' o'), None, h'))
    /\ independent ps h' /\ parameters_ (base o') = ps /\ all_slots J o' s' h'.
Proof.
  intros Eps Hind Hlen HJ Hfuel Hlr HP HJ'. revert s o h b Eps Hind HJ.
  induction batches as [|gs batches IH]; intros s o h b Eps Hind HJ; [by eexists s, o, h|].
  destruct (Hlr b) as [lr El]. rewrite fmap_cons.
  destruct (run_batch P J J fuel fl ps b lr gs (gives ps <$> batches) s o h) as (s1 & h1 & -> & Hi & Hj); try done.
  { apply Hlen. by left. }
  { intros i l x g. by apply HJ'. }
  apply IH; [intros; apply Hlen; by right| |done|done]. by rewrite parameters_tick, base_setLr.
Qed.
End Training.

(** * What the flags do *)

#[local] Open Scope R_scope.
#[local] Existing Instance fun_arrays.

Section Frozen.
Context {I : Type} (all : list I) (invalid : (I -> R) -> bool).
#[local] Hint Extern 0 (OptimOps (I -> R) _) => exact (optim_reals all) : typeclass_instances.
#[local] Instance lm_amp : AmpOps (I -> R) := invalid.
Abbreviation heap := (Autograd.heap (A := I -> R)).

(** With its default flags the language model trainer cannot create its
    optimiser: the default is NAG with momentum zero, which NAG's constructor refuses
    with [std::runtime_error]. *)
Theorem default_flags_throw ps (h : heap) : createOptimizer (defaultFlags (A := I -> R) (K := R)) ps h = Throw RuntimeError.
Proof. cbn. unfold newNAG. cbn. by rewrite bool_decide_eq_true_2 by lra. Qed.

Lemma clip_zero ps (h1 : heap) n h2 g :
  NoDup (data_ <$> gradients ps h1) -> clipGradNorm (K := R) ps 0 h1 = Ok (n, h2) -> g ∈ gradients ps h1 -> forall e, array g h2 e = 0.
Proof.
  intros Hnd E Hg e. unfold clipGradNorm, sumSquares in E. rewrite sumSquares_spec in E. cbn -[Rsum gradients] in E.
  set (m := sqrt _) in E. rewrite bool_decide_eq_false_2 in E by (unfold Rdiv; lra).
  destruct (scaleGrads_spec (0 / (m + / 1000000)) ps h1 Hnd) as (h' & E' & _ & _ & Sc & _).
  rewrite E' in E. injection E as _ <-. rewrite Sc by done. cbn. unfold Rdiv. ring.
Qed.

Lemma fixed_or_invsqrt (fl : LmFlags (K := R)) b :
  train_lr_schedule fl = "fixed" \/ train_lr_schedule fl = "invsqrt" -> exists lr, scheduledLr (A := I -> R) fl b = Ok lr.
Proof.
  intros Hs. unfold scheduledLr. destruct (b <? _)%Z; [by eexists|]. destruct Hs as [-> | ->]; cbn; [by eexists|].
  destruct (0 <? _)%Z; by eexists.
Qed.

(** What the three optimisers keep while all gradients are zero. *)
Definition calmSGD (x0 : I -> R) (o : SGDOptimizer (A := I -> R)) (l : option (I -> R)) (x : I -> R) : Prop :=
  sgd_wd_ o = 0 /\ (forall e, x e = x0 e) /\ forall v, l = Some v -> forall e, v e = 0.
Definition calmNAG (x0 : I -> R) (o : NAGOptimizer (A := I -> R)) (v x : I -> R) : Prop :=
  nag_wd_ o = 0 /\ (forall e, x e = x0 e) /\ forall e, v e = 0.
Definition calmAdagrad (x0 : I -> R) (o : AdagradOptimizer (A := I -> R)) (v x : I -> R) : Prop :=
  adagrad_wd_ o = 0 /\ (forall e, x e = x0 e).

Lemma calmSGD_step x0 o lr l x g :
  (forall e, g e = 0) -> calmSGD x0 o l x -> calmSGD x0 (tick (setLr lr o)) (rule (setLr lr o) l x g).1 (rule (setLr lr o) l x g).2.
Proof.
  intros Hg (Hw & Hx & Hl). unfold calmSGD. cbn -[s_nonzero]. rewrite Hw, s_nonzero_0.
  destruct l as [v|]; cbn; split; try done; split; intros; try done.
  - rewrite Hx. destruct (sgd_useNesterov_ o); rewrite !(Hl v), Hg by done; ring.
  - injection H as <-. rewrite (Hl v), Hg by done. ring.
  - rewrite Hx, Hg. ring.
Qed.

Lemma calmNAG_step x0 o lr l x g :
  (forall e, g e = 0) -> calmNAG x0 o l x -> calmNAG x0 (tick (setLr lr o)) (rule (setLr lr o) l x g).1 (rule (setLr lr o) l x g).2.
Proof.
  intros Hg (Hw & Hx & Hl). unfold calmNAG. cbn -[s_nonzero]. rewrite Hw, s_nonzero_0.
  split; [done|]. split; intros e; rewrite ?Hx, Hl, Hg; ring.
Qed.

Lemma calmAdagrad_step x0 o lr l x g :
  (forall e, g e = 0) -> calmAdagrad x0 o l x -> calmAdagrad x0 (tick (setLr lr o)) (rule (setLr lr o) l x g).1 (rule (setLr lr o) l x g).2.
Proof.
  intros Hg (Hw & Hx). unfold calmAdagrad. cbn -[s_nonzero]. unfold decay. rewrite Hw, s_nonzero_0.
  split; [done|]. intros e. rewrite Hx, Hg. unfold Rdiv. ring.
Qed.

(** The arrays of the parameters before training *)
Definition initial (ps : list var) (h : heap) (i : nat) : I -> R :=
  match ps !! i with Some p => array p h | None => fun _ => 0 end.

Lemma initial_at ps (h : heap) i p : ps !! i = Some p -> initial ps h i = array p h.
Proof. unfold initial. by intros ->. Qed.

Lemma frozen {O S L} {OO : Optimizer (I -> R) R O S L} {OL : OptimizerLaws (I -> R) R O S L} (inj : O -> AnyOptimizer (A := I -> R) (K := R))
    (calm : (I -> R) -> O -> L -> (I -> R) -> Prop) fuel (fl : LmFlags (K := R)) ps o batches (h : heap) :
  ps = parameters_ (base o) -> (forall o, anyBase (inj o) = base o) -> (forall lr o, anySetLr lr (inj o) = inj (setLr lr o)) ->
  (forall o h, anyStep (inj o) h = ('(o, h) ← step o h; Ok (inj o, h))) ->
  (forall x0 o l x, calm x0 o l x -> forall e, x e = x0 e) ->
  (forall x0 o lr l x g, (forall e, g e = 0) -> calm x0 o l x ->
     calm x0 (tick (setLr lr o)) (rule (setLr lr o) l x g).1 (rule (setLr lr o) l x g).2) ->
  (forall i p, ps !! i = Some p -> exists l, slot o (get o) i = Some l /\ calm (array p h) o l (array p h)) ->
  train_max_grad_norm fl = 0 -> train_lr_schedule fl = "fixed" \/ train_lr_schedule fl = "invsqrt" ->
  independent ps h -> (forall gs, gs ∈ batches -> length gs = length ps) -> (0 < fuel)%nat ->
  exists o' h', runTraining fuel fl ps 0 (gives ps <$> batches) (inj o) None h = Ok (Some (o', None, h'))
    /\ forall p e, p ∈ ps -> array p h' e = array p h e.
Proof.
  intros -> Ib Il Is Cx Cs C0 Hm Hs Hind Hlen Hfuel.
  destruct (run_invariant one_type_reals inj Ib Il Is (fun g => forall e, g e = 0) (fun i => calm (initial (parameters_ (base o)) h i)) fuel fl (parameters_ (base o)) 0
    batches (get o) o h) as (s' & o' & h' & E & _ & Eps & Hj); try done.
  { intros i p Hi. destruct (C0 i p Hi) as (l & ? & ?). exists l. by rewrite (initial_at _ h i p Hi). }
  { intros. by apply fixed_or_invsqrt. }
  { rewrite Hm. apply clip_zero. }
  { intros i o2 lr l x g. apply Cs. }
  rewrite put_get in E. eexists _, h'. split; [exact E|]. intros p e [i Hi]%list_elem_of_lookup. rewrite <- Eps in Hi.
  destruct (Hj i p Hi) as (l & _ & Hc). rewrite (Cx _ _ _ _ Hc). rewrite Eps in Hi. by rewrite (initial_at _ h i p Hi).
Qed.

(** C18. A flag documents that [train_max_grad_norm = 0], the default, means
    no clipping, but the trainer clips to norm zero: over exact reals, with
    weight decay 0, no number of batches, with whatever gradients and
    whichever optimiser, changes any parameter. NAG divides by the learning
    rate of the step before, so for NAG the rates of the batches and
    [train_lr] are not zero (with a rate of zero the parameters are not kept
    but lost: [nag_warmup_nan]); the other divisors, [gradNorm + 1e-6] and
    Adagrad's root plus its epsilon, are positive. *)
Theorem zero_max_norm_freezes fuel (fl : LmFlags (K := R)) ps o (batches : list (list (I -> R))) (h : heap) :
  train_max_grad_norm fl = 0 -> train_weight_decay fl = 0 ->
  train_lr_schedule fl = "fixed" \/ train_lr_schedule fl = "invsqrt" ->
  (train_optimizer fl = "nag" -> train_lr fl <> 0
     /\ forall b lr, (0 <= b < zlen batches)%Z -> scheduledLr (A := I -> R) fl b = Ok lr -> lr <> 0) ->
  independent ps h -> (forall gs, gs ∈ batches -> length gs = length ps) -> (0 < fuel)%nat ->
  createOptimizer fl ps h = Ok o ->
  exists o' h', runTraining fuel fl ps 0 (gives ps <$> batches) o None h = Ok (Some (o', None, h'))
    /\ forall p e, p ∈ ps -> array p h' e = array p h e.
Proof.
  intros Hm Hw Hs _ Hind Hlen Hfuel. unfold createOptimizer. rewrite Hw.
  destruct (String.eqb _ _); [|destruct (String.eqb _ _); [|destruct (String.eqb _ _); [|done]]].
  - unfold newNAG. destruct (s_le _ _); [done|]. intros [= <-].
    apply (frozen AnNAG calmNAG); try done; [by intros ? ? ? ? (_ & ? & _)|apply calmNAG_step|].
    intros i p Hi. cbn. rewrite zerosLike_lookup by (by eapply lookup_lt_Some). by eexists.
  - intros [= <-]. apply (frozen AnSGD calmSGD); try done; [by intros ? ? ? ? (_ & ? & _)|apply calmSGD_step|].
    intros i p Hi. cbn -[s_nonzero]. destruct (s_nonzero _); [|by eexists].
    rewrite zerosLike_lookup by (by eapply lookup_lt_Some). eexists. split; [done|]. split_and!; try done. by intros v [= <-].
  - intros [= <-]. apply (frozen AnAdagrad calmAdagrad); try done; [by intros ? ? ? ? (_ & ?)|apply calmAdagrad_step|].
    intros i p Hi. cbn. rewrite zerosLike_lookup by (by eapply lookup_lt_Some). by eexists.
Qed.

(** ** Loss scaling *)

Definition hasGrad (h : heap) (p : var) : Prop := (exists g, getGrad p h = Ok g) /\ (grad_ p < next h)%nat.

Lemma hasGrad_replaced p q a (h : heap) :
  hasGrad h p -> hasGrad h q -> hasGrad (upd (grad_ p) (set_grad (Some (Var (next h) (next h)))) (snd (newVariable a false h))) q.
Proof.
  intros [[gp Gp] Hp] [[gq Gq] Hq]. split; [|cbn; lia]. unfold getGrad in *.
  assert (Esg : forall v, (grad_ v < next h)%nat -> sg (grad_ v) (snd (newVariable a false h)) = sg (grad_ v) h).
  { intros v Hv. unfold sg. cbn. by rewrite lookup_insert_ne by lia. }
  destruct (decide (grad_ q = grad_ p)) as [E|E].
  - rewrite E, sg_upd_eq, Esg by done. cbn. destruct (calcGrad (sg (grad_ p) h)); [by eexists|done].
  - rewrite sg_upd_ne, Esg by done. by exists gq.
Qed.

Lemma unscaleGrads_Ok factor ps (h : heap) :
  (forall p, p ∈ ps -> hasGrad h p) -> exists b h', unscaleGrads factor ps h = Ok (b, h').
Proof.
  revert h. induction ps as [|p ps IH]; intros h Hg; [by eexists _, h|]. cbn [unscaleGrads].
  destruct (Hg p) as [[g E] Hlt]; [by left|]. rewrite E. unfold mbind, result_bind. cbn [newVariable].
  destruct (a_invalid _); [by eexists _, _|]. apply IH. intros q Hq.
  apply (hasGrad_replaced p q (o_divk (array g h) factor) h); apply Hg; [by left|by right].
Qed.

(** C32. The loop of a training step that lowers the loss scale while
    gradients are invalid ends: with a scale below [2^k / 10000] it returns or
    ends the process within [k + 1] backward passes, whatever the gradients
    are. *)
Theorem scaling_terminates k backward ps o (d : DynamicScaler (K := R)) (h : heap) :
  (forall scale h, exists h', backward scale h = Ok h' /\ forall p, p ∈ ps -> hasGrad h' p) ->
  scaleFactor_ d < 2 ^ k / 10000 ->
  exists r, scaledBackward (A := I -> R) (Datatypes.S k) backward ps o (Some d) h = Ok r.
Proof.
  intros Hb. revert d h. induction k as [|k IH]; intros d h Hk; cbn [scaledBackward];
    unfold mbind, result_bind; cbn [fmap option_fmap option_map].
  all: destruct (Hb (Some (scaleFactor_ d)) (zeroGrads (anyBase o) h)) as (h1 & -> & Hg).
  all: unfold unscale, mbind, result_bind; destruct (unscaleGrads_Ok (scaleFactor_ d) ps h1 Hg) as (b & h2 & ->).
  all: destruct b; [by eexists|]; cbn -[scaledBackward]; unfold kAmpMinimumScaleFactorValue; cbn -[scaledBackward].
  - rewrite bool_decide_eq_false_2; [by eexists|]. cbn in Hk. lra.
  - destruct (bool_decide _); [|by eexists]. apply IH. cbn in *. lra.
Qed.

(** The header says that the loss scale doubles when [successCounter_]
    reaches [updateInterval_]; the code compares the scale itself with the interval,
    so that a scale that starts above the interval only grows by two per step,
    whatever the counter is. *)
Theorem scale_never_doubles (f0 fmax : R) (interval : Z) (counts : list Z) :
  IZR interval < f0 ->
  let success c (d : DynamicScaler (K := R)) := MkDynamicScaler (scaleFactor_ d) (maxScaleFactor_ d) c (updateInterval_ d) in
  let d := fold_left (fun d c => update (A := I -> R) (success c d)) counts (newDynamicScaler f0 fmax interval) in
  f0 <= scaleFactor_ d <= f0 + 2 * INR (length counts).
Proof.
  intros Hf. cbn zeta.
  assert (Hgen : let d := fold_left (fun d c => update (A := I -> R) (MkDynamicScaler (scaleFactor_ d) (maxScaleFactor_ d) c (updateInterval_ d)))
      counts (newDynamicScaler f0 fmax interval) in updateInterval_ d = interval /\ f0 <= scaleFactor_ d <= f0 + 2 * INR (length counts)); [|apply Hgen].
  induction counts as [|c counts IH] using rev_ind; [cbn; split; [done|lra]|].
  rewrite fold_left_app, length_app, plus_INR. destruct (fold_left _ counts _) as [f m c' iv]. destruct IH as [E IH]. cbn in E, IH. subst iv.
  cbn. unfold update. cbn. destruct (bool_decide (m <= f)); [cbn; split; [done|lra]|].
  rewrite (bool_decide_eq_false_2 (f <= IZR interval)) by lra. cbn. split; [done|lra].
Qed.
End Frozen.

(** ** Warming up from zero with NAG *)

Definition xreal_arrays (I : Type) : Arrays (I -> xreal) := {|
  a_type _ := f64; a_as _ x := x; a_empty _ := Fin 0; a_ones _ _ := Fin 1; a_add x y e := x_add (x e) (y e) |}.

Definition x_sub (x y : xreal) : xreal := x_add x (x_opp y).
Definition x_max (x y : xreal) : xreal := if x_lt x y then y else x.

(** [std::pow] is not used by NAG. *)
Definition xreal_optim {I : Type} (all : list I) (pow : xreal -> Z -> xreal) : OptimOps (I -> xreal) xreal := {|
  o_zeros _ _ := Fin 0; o_scale k x e := x_mul k (x e); o_divk x k e := x_div (x e) k; o_addk x k e := x_add (x e) k;
  o_sub x y e := x_sub (x e) (y e); o_mul x y e := x_mul (x e) (y e); o_div x y e := x_div (x e) (y e);
  o_max x y e := x_max (x e) (y e); o_sqrt x e := x_sqrt (x e);
  o_sum x := foldr (fun e s => x_add (x e) s) (Fin 0) all;
  s_of z := Fin (IZR z); s_micro := Fin (/ 1000000); s_add := x_add; s_sub := x_sub; s_mul := x_mul; s_div := x_div;
  s_sqrt := x_sqrt; s_pow := pow;
  s_nonzero x := match x with Fin a => negb (bool_decide (a = 0)) | _ => true end;
  s_le x y := x_lt x y || match x, y with Fin a, Fin b => bool_decide (a = b) | PInf, PInf | NInf, NInf => true | _, _ => false end |}.

#[local] Existing Instance xreal_arrays.

Section Warmup.
Context {I : Type} (all : list I) (pow : xreal -> Z -> xreal) (invalid : (I -> xreal) -> bool).
#[local] Hint Extern 0 (OptimOps (I -> xreal) _) => exact (xreal_optim all pow) : typeclass_instances.
#[local] Instance warmup_amp : AmpOps (I -> xreal) := invalid.
Abbreviation heap := (Autograd.heap (A := I -> xreal)).
Abbreviation NAG_t := (NAGOptimizer (A := I -> xreal) (K := xreal)).

Lemma one_type_xreal (a b : I -> xreal) : a_type a = a_type b.
Proof. done. Qed.

Lemma zero_times x : x_mul (Fin 0) x = Fin 0 \/ x_mul (Fin 0) x = NaN.
Proof.
  destruct x as [r| | |]; cbn; [left; f_equal; ring|right..|by right]; unfold x_inf;
    by rewrite ?(proj2 (Numeric.Rlt_bool_false 0 0)), ?(proj2 (Numeric.Rlt_bool_false 0 (- 0))), ?(proj2 (Numeric.Rlt_bool_false (- 0) 0)) by lra.
Qed.
Lemma add_nan x : x_add x NaN = NaN.
Proof. by destruct x. Qed.
Lemma nan_add x : x_add NaN x = NaN.
Proof. by destruct x. Qed.
Lemma mul_nan x : x_mul x NaN = NaN.
Proof. by destruct x. Qed.
Lemma inf_times_zero x : x = Fin 0 \/ x = NaN -> x_mul PInf x = NaN.
Proof. intros [-> | ->]; [|done]. cbn. unfold x_inf. by rewrite (proj2 (Numeric.Rlt_bool_false 0 0)) by lra. Qed.
Lemma Reqb_refl x : Reqb x x = true.
Proof. unfold Reqb. by destruct (Req_EM_T x x). Qed.
Lemma Reqb_ne x y : x <> y -> Reqb x y = false.
Proof. unfold Reqb. by destruct (Req_EM_T x y). Qed.

Definition unstarted (mu lr : R) (o : NAG_t) (v x : I -> xreal) : Prop :=
  nag_mu_ o = Fin mu /\ nag_oldLr_ o = Fin lr /\ forall e, v e = Fin 0.
Definition halted (mu : R) (o : NAG_t) (v x : I -> xreal) : Prop :=
  nag_mu_ o = Fin mu /\ nag_oldLr_ o = Fin 0 /\ forall e, v e = Fin 0 \/ v e = NaN.
Definition broken (o : NAG_t) (v x : I -> xreal) : Prop := forall e, x e = NaN.

Lemma unstarted_step mu lr o v x g :
  lr <> 0 -> unstarted mu lr o v x ->
  halted mu (tick (setLr (Fin 0) o)) (rule (setLr (Fin 0) o) v x g).1 (rule (setLr (Fin 0) o) v x g).2.
Proof.
  intros Hlr (Hm & Ho & Hv). unfold halted. cbn -[x_add x_mul x_div]. rewrite Hm, Ho. split_and!; try done. intros e. rewrite Hv. unfold x_div.
  rewrite Reqb_ne by done. cbn -[x_add x_mul]. change (x_mul (Fin (0 / lr)) (x_mul (Fin mu) (Fin 0))) with (Fin (0 / lr * (mu * 0))).
  destruct (zero_times (g e)) as [-> | ->]; [left; cbn; f_equal; field; done|right; apply add_nan].
Qed.

Lemma halted_step mu r o v x g :
  0 < r -> halted mu o v x -> broken (tick (setLr (Fin r) o)) (rule (setLr (Fin r) o) v x g).1 (rule (setLr (Fin r) o) v x g).2.
Proof.
  intros Hr (Hm & Ho & Hv) e. cbn -[x_add x_mul x_div x_sub]. rewrite Hm, Ho. unfold x_div, x_sub. rewrite Reqb_refl. unfold x_inf.
  rewrite (proj2 (Numeric.Rlt_bool_true 0 r)) by done. rewrite inf_times_zero.
  - rewrite nan_add, mul_nan, add_nan. apply add_nan.
  - destruct (Hv e) as [-> | ->]; [left; cbn; f_equal; ring|by right].
Qed.

Lemma broken_step o r v x g :
  broken o v x -> broken (tick (setLr r o)) (rule (setLr r o) v x g).1 (rule (setLr r o) v x g).2.
Proof.
  intros Hx e. cbn -[x_add x_mul x_div s_nonzero]. destruct (s_nonzero _); cbn -[x_add x_mul x_div]; unfold x_sub; rewrite Hx, ?mul_nan; apply nan_add.
Qed.

(** C17. Warming up from the default initial learning rate zero with NAG
    destroys the model: after two batches every element of every parameter is
    not a number, whatever the gradients are and however training goes on,
    because the second step divides by the learning rate of the first. *)
Theorem nag_warmup_nan fuel (fl : LmFlags (K := xreal)) ps lr mu gs0 gs1 (rest : list (list (I -> xreal))) (h : heap) :
  train_optimizer fl = "nag" -> train_momentum fl = Fin mu -> 0 < mu -> train_lr fl = Fin lr -> 0 < lr ->
  train_warmup_init_lr fl = Fin 0 -> (1 < train_warmup_updates fl)%Z ->
  train_lr_schedule fl = "fixed" \/ train_lr_schedule fl = "invsqrt" ->
  independent ps h -> (forall gs, gs ∈ gs0 :: gs1 :: rest -> length gs = length ps) -> (0 < fuel)%nat ->
  exists o o' h', createOptimizer fl ps h = Ok o
    /\ runTraining fuel fl ps 0 (gives ps <$> gs0 :: gs1 :: rest) o None h = Ok (Some (o', None, h'))
    /\ forall p e, p ∈ ps -> array p h' e = NaN.
Proof.
  intros Ht Hm Hmu Hlr Hlr0 Hi Hw Hs Hind Hlen Hfuel.
  assert (Hw0 : IZR (train_warmup_updates fl) <> 0) by (apply (IZR_neq _ 0%Z); lia).
  assert (Hwp : 0 < IZR (train_warmup_updates fl)) by (apply (IZR_lt 0%Z); lia).
  assert (S0 : scheduledLr (A := I -> xreal) fl 0%Z = Ok (Fin 0)).
  { unfold scheduledLr. rewrite (proj2 (Z.ltb_lt _ _)) by lia. rewrite Hi, Hlr. cbn. rewrite Reqb_ne by done. cbn. do 2 f_equal. field. done. }
  assert (S1 : exists r, 0 < r /\ scheduledLr (A := I -> xreal) fl 1%Z = Ok (Fin r)).
  { unfold scheduledLr. rewrite (proj2 (Z.ltb_lt _ _)) by lia. rewrite Hi, Hlr. cbn. rewrite Reqb_ne by done. cbn.
    eexists. split; [|done]. pose proof (Rinv_0_lt_compat _ Hwp). unfold Rdiv. nra. }
  destruct S1 as (r & Hr & S1).
  set (o := NAG (FOO ps (Fin lr)) (Fin mu) (train_weight_decay fl) (zerosLike ps h) (Fin lr)).
  destruct (run_batch one_type_xreal AnNAG (fun _ => eq_refl) (fun _ _ => eq_refl) (fun _ _ => eq_refl) (fun _ => True)
    (fun _ => unstarted mu lr) (fun _ => halted mu) fuel fl ps 0%Z (Fin 0) gs0 (gives ps <$> gs1 :: rest) (zerosLike ps h) o h)
    as (s1 & h1 & E1 & I1 & J1); try done.
  { apply Hlen. by left. }
  { intros i p Hp. exists (fun _ => Fin 0). cbn in *. unfold zerosLike. by rewrite list_lookup_fmap, Hp. }
  { intros _ l x g _. apply unstarted_step. lra. }
  destruct (run_batch one_type_xreal AnNAG (fun _ => eq_refl) (fun _ _ => eq_refl) (fun _ _ => eq_refl) (fun _ => True)
    (fun _ => halted mu) (fun _ => broken) fuel fl ps 1%Z (Fin r) gs1 (gives ps <$> rest) s1 (tick (setLr (Fin 0) o)) h1)
    as (s2 & h2 & E2 & I2 & J2); try done.
  { apply Hlen. right. by left. }
  { intros _ l x g _. by apply halted_step. }
  destruct (run_invariant one_type_xreal AnNAG (fun _ => eq_refl) (fun _ _ => eq_refl) (fun _ _ => eq_refl) (fun _ => True)
    (fun _ => broken) fuel fl ps 2%Z rest s2 (tick (setLr (Fin r) (tick (setLr (Fin 0) o)))) h2) as (s3 & o3 & h3 & E3 & _ & Eps & J3); try done.
  { intros gs Hgs. apply Hlen. right. by right. }
  { intros b. unfold scheduledLr. destruct (b <? _)%Z; [by eexists|]. destruct Hs as [-> | ->]; cbn; [by eexists|]. destruct (0 <? _)%Z; by eexists. }
  { intros _ o2 l x g v _. apply broken_step. }
  exists (AnNAG o), (AnNAG (put s3 o3)), h3. split; [|split].
  - unfold createOptimizer. rewrite Ht, Hm, Hlr. unfold newNAG. cbn. rewrite (proj2 (Numeric.Rlt_bool_false mu 0)) by lra.
    by rewrite bool_decide_eq_false_2 by lra.
  - rewrite !fmap_cons in *. etrans; [exact E1|]. etrans; [exact E2|exact E3].
  - intros p e [i Hp]%list_elem_of_lookup. rewrite <- Eps in Hp. destruct (J3 i p Hp) as (l & _ & Hb). apply Hb.
Qed.
End Warmup.

(** ** Concrete runs *)

#[local] Hint Extern 0 (OptimOps (unit -> R) _) => exact (optim_reals [tt]) : typeclass_instances.
#[local] Hint Extern 0 (OptimOps (unit -> xreal) _) => exact (xreal_optim [tt] (fun _ _ => NaN)) : typeclass_instances.
#[local] Hint Extern 0 (AmpOps _) => exact (fun _ => false) : typeclass_instances.

Lemma zero_max_norm_freezes_witness :
  let '(p, h) := newVariable (fun _ : unit => 1) true empty_heap in
  let fl := MkLmFlags "nag" 0 0 1 "fixed" (1 / 2) 0 0 in
  exists o, createOptimizer fl [p] h = Ok o /\
  exists o' h', runTraining 1 fl [p] 0 (gives [p] <$> [[fun _ => 5]; [fun _ => 7]]) o None h = Ok (Some (o', None, h'))
    /\ forall q e, q ∈ [p] -> array q h' e = array q h e.
Proof.
  assert (E : forall ps (h : heap (A := unit -> R)), createOptimizer (MkLmFlags "nag" 0 0 1 "fixed" (1 / 2) 0 0) ps h
    = Ok (AnNAG (NAG (FOO ps 1) (1 / 2) 0 (zerosLike ps h) 1))).
  { intros ps h. cbn. unfold newNAG. cbn. by rewrite bool_decide_eq_false_2 by lra. }
  eexists. split; [apply E|].
  apply (zero_max_norm_freezes [tt] (fun _ => false)); [done|done|by left| |apply one_independent| |lia|apply E].
  - intros _. split; [cbn; lra|]. intros b lr Hb. unfold scheduledLr. cbn -[Z.ltb]. rewrite (proj2 (Z.ltb_ge b 0)) by lia. intros [= <-]. lra.
  - intros gs [->|[->|[]%not_elem_of_nil]%elem_of_cons]%elem_of_cons; done.
Defined.

Lemma scaling_terminates_witness :
  let '(p, h) := newVariable (fun _ : unit => 1) true empty_heap in
  exists r, scaledBackward 31 (fun _ h => let '(t, h) := newVariable (fun _ : unit => 1) false h in
              Ok (upd 0 (set_grad (Some t)) (upd 0 (fun _ => MkSharedGrad true [] None None None) h))) [p]
    (AnSGD (newSGD [p] 1 0 0 false h)) (Some (newDynamicScaler 65536 65536 2000)) h = Ok r.
Proof.
  apply (scaling_terminates [tt] (fun _ => false) 30); [|cbn; lra].
  intros scale h. eexists. split; [reflexivity|]. intros p ->%list_elem_of_singleton. split; [|cbn; lia].
  unfold getGrad. cbn [grad_ fst newVariable next empty_heap]. rewrite !sg_upd_eq. cbn. by eexists.
Defined.

Lemma scale_never_doubles_witness :
  let success c (d : DynamicScaler (K := R)) := MkDynamicScaler (scaleFactor_ d) (maxScaleFactor_ d) c (updateInterval_ d) in
  let d := fold_left (fun d c => update (A := unit -> R) (success c d)) [1%Z; 2%Z; 2000%Z] (newDynamicScaler 65536 100000 2000) in
  65536 <= scaleFactor_ d <= 65536 + 2 * INR 3.
Proof. apply (scale_never_doubles [tt]). lra. Defined.

Lemma nag_warmup_nan_witness :
  let '(p, h) := newVariable (fun _ : unit => Fin 1) true empty_heap in
  let fl := MkLmFlags "nag" 10 (Fin 0) (Fin 1) "fixed" (Fin (/ 2)) (Fin 0) (Fin 1) in
  exists o o' h', createOptimizer fl [p] h = Ok o
    /\ runTraining 1 fl [p] 0 (gives [p] <$> [[fun _ => Fin 5]; [fun _ => Fin 7]]) o None h = Ok (Some (o', None, h'))
    /\ forall q e, q ∈ [p] -> array q h' e = NaN.
Proof.
  apply (nag_warmup_nan [tt] (fun _ _ => NaN) (fun _ => false) 1 _ _ 1 (/ 2) [fun _ => Fin 5] [fun _ => Fin 7] []);
    try done; try lra; [by left| | |lia].
  - split; [|split]; [apply NoDup_singleton|apply NoDup_singleton|]. intros p ->%list_elem_of_singleton. cbn.
    split_and!; [done|lia|lia].
  - intros gs [->|[->|[]%not_elem_of_nil]%elem_of_cons]%elem_of_cons; done.
Defined.
