(* ===== verification/Meters.v ===== *)
(** The other meters of [fl/meter] and their synchronisation between workers,
    [ext/common/DistributedUtils.cpp].

    Numbers of type [double] are an abstract scalar ([Numeric.Num]); the theorems on
    averages are over the reals.  Arrays and the clock are arguments: what a meter
    reads of an array is the class [MeterArrays], a time is a scalar in seconds. *)
From S2P Require Import Prelude Numeric RealSum TensorFunctions.
From Stdlib Require Import Reals Lra.

#[local] Open Scope Z_scope.

Class MeterArrays (A F : Type) := {
  ma_dims : A -> dim4;
  ma_numdims : A -> Z;
  ma_elements : A -> Z;
  ma_sum : A -> F;                  (* [af::sum<double>(a)] *)
  ma_sum_squares : A -> F;          (* [af::sum<double>(a * a)] *)
  ma_sub : A -> A -> A;
  ma_count_ne : A -> A -> Z         (* [af::count<int64_t>(a != b)] *)
}.

Section Meters.
Context {A F : Type} `{Num F, MeterArrays A F}.

Definition is_zero (x : F) : bool := negb (n_lt x n_zero) && negb (n_lt n_zero x) && negb (n_isnan x).

(** * AverageValueMeter *)

Record AverageValueMeter := AVM { curMean_ : F; curMeanSquaredSum_ : F; curWeightSum_ : F; curWeightSquaredSum_ : F }.

Definition avm_reset : AverageValueMeter := AVM n_zero n_zero n_zero n_zero.

Definition avm_add (m : AverageValueMeter) (val w : F) : AverageValueMeter :=
  let sum := (curWeightSum_ m + w)%num in
  let sq := (curWeightSquaredSum_ m + w * w)%num in
  if is_zero sum then AVM (curMean_ m) (curMeanSquaredSum_ m) sum sq
  else AVM (curMean_ m + w * (val - curMean_ m) / sum)%num
           (curMeanSquaredSum_ m + w * (val * val - curMeanSquaredSum_ m) / sum)%num sum sq.

Definition avm_addArray (m : AverageValueMeter) (vals : A) : AverageValueMeter :=
  let w := n_of (ma_elements vals) in
  let sum := (curWeightSum_ m + w)%num in
  let sq := (curWeightSquaredSum_ m + w)%num in
  if is_zero sum then AVM (curMean_ m) (curMeanSquaredSum_ m) sum sq
  else AVM (curMean_ m + (ma_sum vals - w * curMean_ m) / sum)%num
           (curMeanSquaredSum_ m + (ma_sum_squares vals - w * curMeanSquaredSum_ m) / sum)%num sum sq.

Definition avm_value (m : AverageValueMeter) : list F :=
  [curMean_ m;
   ((curMeanSquaredSum_ m - curMean_ m * curMean_ m)
     / (n_one - curWeightSquaredSum_ m / (curWeightSum_ m * curWeightSum_ m)))%num;
   curWeightSum_ m].

(** * CountMeter *)

(** [int64_t] wraps. *)
Definition i64 (z : Z) : Z := (z + 2 ^ 63) mod 2 ^ 64 - 2 ^ 63.

Definition count_new (num : Z) : list Z := replicate (Z.to_nat num) 0.
Definition count_add (counts : list Z) (id val : Z) : result (list Z) :=
  if negb ((0 <=? id) && (id <? zlen counts)) then Throw OutOfRange
  else Ok (alter (fun c => i64 (c + val)) (Z.to_nat id) counts).
Definition count_reset (counts : list Z) : list Z := (fun _ => 0) <$> counts.

(** * FrameErrorMeter *)

Record FrameErrorMeter := FEM { fem_n_ : Z; fem_sum_ : Z; accuracy_ : bool }.

Definition fem_new (accuracy : bool) : FrameErrorMeter := FEM 0 0 accuracy.
Definition fem_add (m : FrameErrorMeter) (output target : A) : result FrameErrorMeter :=
  if negb (bool_decide (ma_dims output = ma_dims target)) then Throw InvalidArgument
  else if negb (ma_numdims target =? 1) then Throw InvalidArgument
  else Ok (FEM (i64 (fem_n_ m + dget (ma_dims target) 0)) (i64 (fem_sum_ m + ma_count_ne output target)) (accuracy_ m)).
Definition fem_value (m : FrameErrorMeter) : F :=
  let error := if 0 <? fem_n_ m then (n_of (fem_sum_ m) * n_of 100 / n_of (fem_n_ m))%num else n_zero in
  if accuracy_ m then (n_of 100 - error)%num else error.

(** * MSEMeter *)

Record MSEMeter := MSE { mse_curN_ : Z; mse_curValue_ : F }.

Definition mse_reset : MSEMeter := MSE 0 n_zero.
Definition mse_add (m : MSEMeter) (output target : A) : result MSEMeter :=
  if negb (bool_decide (ma_dims output = ma_dims target)) then Throw InvalidArgument
  else
    let n := i64 (mse_curN_ m + 1) in
    Ok (MSE n ((mse_curValue_ m * n_of (n - 1) + ma_sum_squares (ma_sub output target)) / n_of n)%num).

(** * TimeMeter *)

Record TimeMeter := TM { start_ : F; tm_curN_ : Z; tm_curValue_ : F; useUnit_ : bool; isStopped_ : bool }.

Definition tm_reset (m : TimeMeter) : TimeMeter := TM (start_ m) 0 n_zero (useUnit_ m) true.
Definition tm_new (unit_ : bool) : TimeMeter := tm_reset (TM n_zero 0 n_zero unit_ true).
Definition tm_set (m : TimeMeter) (now val : F) (num : Z) : TimeMeter := TM now num val (useUnit_ m) (isStopped_ m).
Definition tm_value (m : TimeMeter) (now : F) : F :=
  let val := if isStopped_ m then tm_curValue_ m else (tm_curValue_ m + (now - start_ m))%num in
  if useUnit_ m then (if 0 <? tm_curN_ m then (val / n_of (tm_curN_ m))%num else n_zero) else val.
Definition tm_stop (m : TimeMeter) (now : F) : TimeMeter :=
  if isStopped_ m then m else TM (start_ m) (tm_curN_ m) (tm_curValue_ m + (now - start_ m))%num (useUnit_ m) true.
Definition tm_resume (m : TimeMeter) (now : F) : TimeMeter :=
  if isStopped_ m then TM now (tm_curN_ m) (tm_curValue_ m) (useUnit_ m) false else m.
Definition tm_incUnit (m : TimeMeter) (num : Z) : TimeMeter :=
  TM (start_ m) (i64 (tm_curN_ m + num)) (tm_curValue_ m) (useUnit_ m) (isStopped_ m).
Definition tm_stopAndIncUnit (m : TimeMeter) (num : Z) (now : F) : TimeMeter := tm_incUnit (tm_stop m now) num.

(** * Synchronisation *)

(** [allreduceGet] and [allreduceSet]; the array between them is summed over the
    workers element by element. *)
Definition avm_get (m : AverageValueMeter) : list F :=
  match avm_value m with [v0; v1; v2] => [(v0 * v2)%num; v1; v2] | l => l end.
Definition avm_set (val : list F) : result AverageValueMeter :=
  match val with
  | [v0; _; v2] => Ok (avm_add avm_reset (if is_zero v2 then v0 else v0 / v2)%num v2)
  | _ => Throw Undefined
  end.

Definition count_set (counts val : list Z) : result (list Z) :=
  foldM_result (fun c '(i, v) => count_add c (Z.of_nat i) v) (count_reset counts) (imap pair val).

Definition tm_get (m : TimeMeter) (now : F) : F := tm_value m now.
Definition tm_allset (m : TimeMeter) (now : F) (worldSize : Z) (val : F) : TimeMeter :=
  tm_set (tm_reset m) now (val / n_of worldSize)%num 1.

(** The sum over the workers *)
Definition sumOver (rows : list (list F)) : list F :=
  match rows with [] => [] | r :: rest => fold_left (zip_with n_add) rest r end.
End Meters.

(** * Averages over the reals *)

#[local] Open Scope R_scope.

(** The operations of the reals; meters have no use for infinity. *)
#[local] Instance R_num : Num R := {
  n_zero := 0; n_one := 1; n_ninf := 0; n_add := Rplus; n_sub := Rminus; n_mul := Rmult; n_div := Rdiv;
  n_lt x y := Rltb x y; n_isnan _ := false; n_of := IZR }.

Abbreviation meter_t := (AverageValueMeter (F := R)).

Definition weights (l : list (R * R)) : R := Rsum l snd.
Definition wmean (l : list (R * R)) (f : R -> R) : R := Rsum l (fun p => snd p * f (fst p)) / weights l.

Definition avm_all (l : list (R * R)) (m : meter_t) : meter_t := fold_left (fun m p => avm_add m (fst p) (snd p)) l m.

Lemma is_zero_R x : is_zero x = true <-> x = 0.
Proof.
  unfold is_zero. cbn. unfold Rltb. destruct (Rlt_dec x 0), (Rlt_dec 0 x); cbn; split; intros; try done; try (exfalso; lra); lra.
Qed.

Lemma weights_pos l : l <> [] -> Forall (fun p => 0 < snd p) l -> 0 < weights l.
Proof. intros Hl Hp. apply Rsum_pos; [done|]. intros x Hx. by eapply Forall_forall in Hp. Qed.

Lemma avm_all_spec l :
  Forall (fun p => 0 < snd p) l -> l <> [] ->
  avm_all l avm_reset = AVM (wmean l (fun x => x)) (wmean l (fun x => x * x)) (weights l) (Rsum l (fun p => snd p * snd p)).
Proof.
  intros Hp. induction l as [|[v w] l IH] using rev_ind; [done|]. intros _. apply Forall_app in Hp as [Hp [Hw _]%Forall_cons_1]. cbn in Hw.
  assert (Hpos : 0 < weights (l ++ [(v, w)])).
  { apply weights_pos; [by destruct l|]. apply Forall_app. split; [done|by repeat constructor]. }
  unfold avm_all, wmean, weights in *. rewrite fold_left_app, !Rsum_app, !Rsum_singleton in *. cbn [fold_left fst snd] in *.
  destruct (decide (l = [])) as [->|Hne].
  - cbn in *. unfold avm_add, avm_reset. cbn. destruct (is_zero (0 + w)) eqn:Ez; [apply is_zero_R in Ez; lra|]. f_equal; try field; lra.
  - rewrite IH by done. pose proof (weights_pos l Hne Hp) as Hwl. unfold weights in Hwl.
    unfold avm_add. cbn. destruct (is_zero (Rsum l snd + w)) eqn:Ez; [apply is_zero_R in Ez; lra|].
    f_equal; try field; lra.
Qed.

(** Adding an array is adding its elements one by one. *)
Section ArrayAdd.
Context {A : Type} `{MeterArrays A R} (elems : A -> list R)
  (elements_ok : forall a, ma_elements a = zlen (elems a))
  (sum_ok : forall a, ma_sum a = Rsum (elems a) (fun x => x))
  (sum_squares_ok : forall a, ma_sum_squares a = Rsum (elems a) (fun x => x * x)).

Lemma adds_of_ones xs (m : meter_t) :
  0 <= curWeightSum_ m -> xs <> [] ->
  fold_left (fun m x => avm_add m x 1) xs m =
  AVM (curMean_ m + (Rsum xs (fun x => x) - INR (length xs) * curMean_ m) / (curWeightSum_ m + INR (length xs)))
      (curMeanSquaredSum_ m + (Rsum xs (fun x => x * x) - INR (length xs) * curMeanSquaredSum_ m) / (curWeightSum_ m + INR (length xs)))
      (curWeightSum_ m + INR (length xs)) (curWeightSquaredSum_ m + INR (length xs)).
Proof.
  intros Hw. induction xs as [|x xs IH] using rev_ind; [done|]. intros _.
  rewrite fold_left_app, length_app, plus_INR, !Rsum_app, !Rsum_singleton. cbn [fold_left length INR].
  pose proof (pos_INR (length xs)) as Hn. destruct (decide (xs = [])) as [->|Hne].
  - cbn. unfold avm_add. cbn. destruct (is_zero (curWeightSum_ m + 1)) eqn:Ez; [apply is_zero_R in Ez; lra|]. f_equal; field; lra.
  - assert (0 < INR (length xs)) by (apply (lt_INR 0); destruct xs; cbn; [done|lia]).
    rewrite IH by done. unfold avm_add. cbn [curMean_ curMeanSquaredSum_ curWeightSum_ curWeightSquaredSum_ n_add n_sub n_mul n_div R_num].
    destruct (is_zero (curWeightSum_ m + INR (length xs) + 1)) eqn:Ez; [apply is_zero_R in Ez; lra|]. f_equal; field; lra || (split; lra).
Qed.

Theorem avm_addArray_elements (m : meter_t) (a : A) :
  0 <= curWeightSum_ m -> elems a <> [] -> avm_addArray m a = fold_left (fun m x => avm_add m x 1) (elems a) m.
Proof.
  intros Hw Ha. rewrite adds_of_ones by done. unfold avm_addArray. cbn. rewrite elements_ok, sum_ok, sum_squares_ok. unfold zlen.
  rewrite <- INR_IZR_INZ. assert (0 < INR (length (elems a))) by (apply (lt_INR 0); destruct (elems a); cbn; [done|lia]).
  destruct (is_zero (curWeightSum_ m + INR (length (elems a)))) eqn:Ez; [apply is_zero_R in Ez; lra|done].
Qed.
End ArrayAdd.

(** * Synchronising averages *)

Definition positive (l : list (R * R)) : Prop := l <> [] /\ Forall (fun p => 0 < snd p) l.

Lemma avm_get_all l :
  positive l -> exists v, avm_get (avm_all l avm_reset) = [Rsum l (fun p => snd p * fst p); v; weights l].
Proof.
  intros [Hl Hp]. rewrite avm_all_spec by done. eexists. unfold avm_get, avm_value. cbn. f_equal.
  unfold wmean. field. pose proof (weights_pos l Hl Hp). lra.
Qed.

(** Synchronising the average meters of several workers gives the weighted mean
    and the total weight of all samples of all workers together; the second moment
    becomes the square of the mean, so that the variance of the samples is lost. *)
Theorem avm_sync (samples : list (list (R * R))) :
  samples <> [] -> Forall positive samples ->
  exists m, avm_set (sumOver ((fun l => avm_get (avm_all l avm_reset)) <$> samples)) = Ok m
    /\ curMean_ m = wmean (concat samples) (fun x => x) /\ curWeightSum_ m = weights (concat samples)
    /\ curMeanSquaredSum_ m = curMean_ m * curMean_ m.
Proof.
  intros Hne Hp. 
  assert (Hex : exists v, sumOver ((fun l => avm_get (avm_all l avm_reset)) <$> samples)
    = [Rsum (concat samples) (fun p => snd p * fst p); v; weights (concat samples)]).
  { destruct samples as [|l samples]; [done|]. apply Forall_cons in Hp as [Hl Hp]. rewrite fmap_cons. cbn [sumOver concat].
    destruct (avm_get_all l Hl) as [v ->]. unfold weights. rewrite !Rsum_app.
    generalize (Rsum l (fun p => snd p * fst p)), v, (Rsum l snd). clear -Hp.
    induction Hp as [|k samples Hk Hp IH]; intros a b c; cbn [concat].
    - eexists. unfold Rsum. cbn. by rewrite !Rplus_0_r.
    - rewrite fmap_cons. cbn [fold_left]. destruct (avm_get_all k Hk) as [v ->]. cbn [zip_with n_add R_num].
      destruct (IH (a + Rsum k (fun p => snd p * fst p)) (b + v) (c + weights k)) as [v' E].
      exists v'. etrans; [exact E|]. unfold weights. by rewrite !Rsum_app, !Rplus_assoc. }
  assert (Hw : 0 < weights (concat samples)).
  { clear Hex. destruct samples as [|l samples]; [done|]. apply Forall_cons in Hp as [[Hl Hlp] Hp]. apply weights_pos.
    - cbn. by destruct l.
    - cbn. apply Forall_app. split; [done|]. apply Forall_concat. eapply Forall_impl; [exact Hp|]. by intros k []. }
  destruct Hex as [v ->]. eexists. split; [reflexivity|].
  destruct (is_zero (weights (concat samples))) eqn:Ez; [apply is_zero_R in Ez; lra|].
  unfold avm_add, avm_reset. cbn. destruct (is_zero (0 + weights (concat samples))) eqn:Ez2; [apply is_zero_R in Ez2; lra|].
  cbn. unfold wmean. split_and!; field; lra.
Qed.

(** * Time and counts *)

(** A stopped meter that is run over intervals holds the sum of their lengths. *)
Lemma tm_intervals (ts : list (R * R)) (m : TimeMeter (F := R)) :
  isStopped_ m = true ->
  let m' := fold_left (fun m t => tm_stop (tm_resume m (fst t)) (snd t)) ts m in
  isStopped_ m' = true /\ tm_curN_ m' = tm_curN_ m /\ useUnit_ m' = useUnit_ m
  /\ tm_curValue_ m' = tm_curValue_ m + Rsum ts (fun t => snd t - fst t).
Proof.
  revert m. induction ts as [|[t1 t2] ts IH]; intros m Hs; cbn zeta; [cbn; split_and!; try done; ring|].
  cbn [fold_left fst snd]. destruct (IH (tm_stop (tm_resume m t1) t2)) as (E1 & E2 & E3 & E4).
  { unfold tm_resume. by rewrite Hs. }
  cbn zeta in *. rewrite E1, E2, E3, E4. unfold tm_resume. rewrite Hs. unfold tm_stop. cbn. rewrite Rplus_assoc. done.
Qed.

(** While it runs, its value includes the time since it was resumed, and reading it
    does not stop it. *)
Lemma tm_value_running (ts : list (R * R)) t now :
  tm_value (tm_resume (fold_left (fun m t => tm_stop (tm_resume m (fst t)) (snd t)) ts (tm_new false)) t) now
  = Rsum ts (fun t => snd t - fst t) + (now - t).
Proof.
  destruct (tm_intervals ts (tm_new false) eq_refl) as (E1 & _ & E3 & E4). cbn zeta in *.
  unfold tm_resume at 1. rewrite E1. unfold tm_value. cbn. rewrite E3, E4. cbn. ring.
Qed.

Lemma count_add_at counts id val c :
  counts !! id = Some c -> count_add counts (Z.of_nat id) val = Ok (<[id := i64 (c + val)]> counts).
Proof.
  intros Hc. unfold count_add. pose proof (lookup_lt_Some _ _ _ Hc). unfold zlen.
  rewrite (proj2 (Z.leb_le 0 (Z.of_nat id))), (proj2 (Z.ltb_lt (Z.of_nat id) (Z.of_nat (length counts)))) by lia.
  cbn. rewrite Nat2Z.id. f_equal.
  apply list_eq. intros i. destruct (decide (i = id)) as [->|Hne].
  - rewrite list_lookup_alter_eq, Hc, list_lookup_insert_eq; done.
  - rewrite list_lookup_alter_ne, list_lookup_insert_ne; done.
Qed.

(** Synchronised counts are the values received. *)
Lemma count_set_spec counts val :
  length val = length counts -> Forall (fun v => - 2 ^ 63 <= v < 2 ^ 63)%Z val -> count_set counts val = Ok val.
Proof.
  intros Hlen Hv. unfold count_set.
  enough (Hgen : forall front rest, Forall (fun v => - 2 ^ 63 <= v < 2 ^ 63)%Z rest ->
    foldM_result (fun c '(i, v) => count_add c (Z.of_nat i) v) (front ++ replicate (length rest) 0%Z)
      (imap (fun i v => ((length front + i)%nat, v)) rest) = Ok (front ++ rest)).
  { replace (count_reset counts) with (replicate (length val) 0%Z); [by apply (Hgen [])|].
    rewrite Hlen. unfold count_reset. clear. induction counts as [|c counts IH]; cbn; [done|by rewrite IH]. }
  clear. intros front rest Hr. revert front. induction Hr as [|v rest Hv Hr IH]; intros front; [done|].
  cbn [imap length replicate foldM_result]. rewrite Nat.add_0_r, (count_add_at _ _ _ 0%Z); [|by apply list_lookup_middle].
  replace (<[length front := i64 (0 + v)]> (front ++ 0%Z :: replicate (length rest) 0%Z)) with ((front ++ [v]) ++ replicate (length rest) 0%Z).
  2:{ rewrite insert_app_r_alt, Nat.sub_diag by lia. rewrite <- app_assoc. cbn. do 2 f_equal. unfold i64. rewrite Z.mod_small by lia. lia. }
  replace (front ++ v :: rest) with ((front ++ [v]) ++ rest) by (by rewrite <- app_assoc). rewrite <- (IH (front ++ [v])). f_equal.
  rewrite length_app. apply imap_ext. intros i x _. cbn. f_equal. lia.
Qed.

Lemma avm_sync_witness :
  let samples := [[(1, 1); (2, 3)]; [(5, 2)]] in
  exists m, avm_set (sumOver ((fun l => avm_get (avm_all l avm_reset)) <$> samples)) = Ok m
    /\ curMean_ m = wmean (concat samples) (fun x => x) /\ curWeightSum_ m = weights (concat samples)
    /\ curMeanSquaredSum_ m = curMean_ m * curMean_ m.
Proof. apply avm_sync; [done|]. repeat constructor; cbn; (done || lra). Defined.
