(* ===== verification/Distributed.v ===== *)
(** Gradient reducers: [fl/distributed/reducers] and the wrappers of
    [fl/distributed/DistributedApi.cpp].

    What a worker does to take part in the collective operations is the list of its
    calls ([call]), in order.  The exceptions are those of the three backends
    ([allReduceArray], [allReduceMultipleArrays], [syncBackend]).  The collective
    operations behind them are those of Gloo and NCCL; [runWorld] gives them the
    documented meaning: every worker makes the same calls in the same order, and a
    call replaces the arrays of the workers by their sum.  With asynchronous or
    contiguous reduction the sum is there after [syncDistributed], and ArrayFire
    evaluates [var.array() *= scale] after it; the model does both at the call. *)
From S2P Require Import Prelude Autograd Optimizers.

Open Scope Z_scope.

(** [var.bytes()] *)
Class ByteSize (A : Type) := a_bytes : A -> Z.

Section Reducers.
Context {A K : Type} `{Arrays A, OptimOps A K, ByteSize A}.
Abbreviation heap := (Autograd.heap (A := A)).

Definition bytes (v : var) (h : heap) : Z := a_bytes (array v h).

(** Calls of [fl::allReduce(Variable&, ...)], [fl::allReduceMultiple(vector<Variable>, ...)]
    and [fl::syncDistributed]. *)
Inductive call :=
| AllReduce (v : var) (scale : K) (async : bool)
| AllReduceMultiple (vars : list var) (scale : K) (async contiguous : bool)
| SyncDistributed.

(** * The reducers *)

Record CoalescingReducer := MkCoalescing {
  scale_ : K; async_ : bool; contiguous_ : bool; cacheThresholdBytes_ : Z; cache_ : list var; currCacheSize_ : Z }.

Definition newCoalescing (scale : K) (async contiguous : bool) (kCoalesceCacheSize : Z) : CoalescingReducer :=
  MkCoalescing scale async contiguous kCoalesceCacheSize [] 0.

Definition flush (r : CoalescingReducer) : CoalescingReducer * list call :=
  (MkCoalescing (scale_ r) (async_ r) (contiguous_ r) (cacheThresholdBytes_ r) [] 0,
   [AllReduceMultiple (cache_ r) (scale_ r) (async_ r) (contiguous_ r)]).

(** [size_t] arithmetic wraps. *)
Definition addVar (r : CoalescingReducer) (v : var) (h : heap) : CoalescingReducer * list call :=
  let '(r, c) := if cacheThresholdBytes_ r <? Prelude.u64 (currCacheSize_ r + bytes v h) then flush r else (r, []) in
  if cacheThresholdBytes_ r <? bytes v h then (r, c ++ [AllReduce v (scale_ r) (async_ r)])
  else (MkCoalescing (scale_ r) (async_ r) (contiguous_ r) (cacheThresholdBytes_ r) (cache_ r ++ [v])
          (Prelude.u64 (currCacheSize_ r + bytes v h)), c).

Definition synchronize (r : CoalescingReducer) : list call :=
  if async_ r || contiguous_ r then [SyncDistributed] else [].

Definition finalize (r : CoalescingReducer) : CoalescingReducer * list call :=
  let '(r, c) := flush r in (r, c ++ synchronize r).

(** [InlineReducer::add] *)
Definition inlineAdd (scale : K) (v : var) : list call := [AllReduce v scale false].

(** * Using a reducer *)

Fixpoint addAll (r : CoalescingReducer) (vs : list var) (h : heap) : CoalescingReducer * list call :=
  match vs with
  | [] => (r, [])
  | v :: vs => let '(r, c) := addVar r v h in let '(r, c') := addAll r vs h in (r, c ++ c')
  end.

Definition reduceAll (r : CoalescingReducer) (vs : list var) (h : heap) : CoalescingReducer * list call :=
  let '(r, c) := addAll r vs h in let '(r, c') := finalize r in (r, c ++ c').

(** * The collective operations *)

(** The variables a call reduces *)
Definition reduced (c : call) : list var :=
  match c with AllReduce v _ _ => [v] | AllReduceMultiple vs _ _ _ => vs | SyncDistributed => [] end.

(** ** Backends

    [DistributedBackend]: [backend/cpu], [backend/cuda] and [backend/stub].  More than
    one worker means that the environment is initialised. *)
Inductive DistributedBackend := GLOO | NCCL | STUB.

Definition getWorldSize (b : DistributedBackend) (workers : Z) : Z := match b with STUB => 1 | _ => workers end.

(** The element types of the backend's reduction. *)
Definition supportsType (b : DistributedBackend) (t : dtype) : bool :=
  match b, t with
  | GLOO, (f32 | f64 | s32 | s64) => true
  | NCCL, (f16 | f32 | f64 | s32 | s64) => true
  | _, _ => false
  end.

(** [allReduce(af::array&, bool)]: what it throws. *)
Definition allReduceArray (b : DistributedBackend) (async : bool) (x : A) : result unit :=
  match b with
  | GLOO => if async then Throw RuntimeError else throw_if (negb (supportsType b (a_type x))) RuntimeError
  | NCCL => throw_if (negb (supportsType b (a_type x))) RuntimeError
  | STUB => Throw RuntimeError
  end.

Definition sizeOf (xs : list A) : Z := foldr (fun x n => a_bytes x + n) 0 xs.

(** [allReduceMultiple(std::vector<af::array*>, bool, bool)]; [kCoalesceCacheSize] is
    the size of NCCL's coalescing buffer. *)
Definition allReduceMultipleArrays (b : DistributedBackend) (kCoalesceCacheSize : Z) (async contiguous : bool) (xs : list A)
    : result unit :=
  match b with
  | GLOO => if contiguous then Throw RuntimeError else foldM_result (fun _ x => allReduceArray b async x) tt xs
  | NCCL =>
      match xs with
      | [] => Ok tt
      | x0 :: _ =>
          if negb contiguous then foldM_result (fun _ x => allReduceArray b async x) tt xs
          else if forallb (fun x => supportsType b (a_type x) && bool_decide (a_type x = a_type x0)) xs
          then throw_if (kCoalesceCacheSize <? Prelude.u64 (sizeOf xs)) RuntimeError
          else Throw RuntimeError
      end
  | STUB => Throw RuntimeError
  end.

Definition syncBackend (b : DistributedBackend) : result unit := match b with STUB => Throw RuntimeError | _ => Ok tt end.

(** What a call of one of [workers] workers throws. *)
Definition checkCall (b : DistributedBackend) (kCoalesceCacheSize workers : Z) (c : call) (h : heap) : result unit :=
  match c with
  | AllReduce v _ async => if 1 <? getWorldSize b workers then allReduceArray b async (array v h) else Ok tt
  | AllReduceMultiple vs _ async contiguous =>
      if 1 <? getWorldSize b workers
      then allReduceMultipleArrays b kCoalesceCacheSize async contiguous ((fun v => array v h) <$> vs) else Ok tt
  | SyncDistributed => syncBackend b
  end.

(** Calls that can meet: of one kind, with equally many arrays. *)
Definition matching (c d : call) : bool :=
  match c, d with
  | AllReduce _ _ a, AllReduce _ _ b => eqb a b
  | AllReduceMultiple vs _ a x, AllReduceMultiple ws _ b y => bool_decide (length vs = length ws) && eqb a b && eqb x y
  | SyncDistributed, SyncDistributed => true
  | _, _ => false
  end.

Fixpoint matchingAll (cs ds : list call) : bool :=
  match cs, ds with
  | [], [] => true
  | c :: cs, d :: ds => matching c d && matchingAll cs ds
  | _, _ => false
  end.

(** The sum of the arrays of all workers, in their order *)
Definition total (xs : list A) : A := match xs with [] => a_empty | x :: xs => fold_left a_add xs x end.

(** What the workers do to their [k]-th variable: with more than one worker its
    array is replaced by the sum; [var.array() *= scale]. *)
Inductive step := Collect (k : nat) | Scale (k : nat).

Definition worldStep (b : DistributedBackend) (scale : K) (gs : list (list var)) (hs : list heap) (s : step) : list heap :=
  match s with
  | Collect k =>
      let vs := omap (fun g => g !! k) gs in
      if 1 <? getWorldSize b (zlen hs) then
        let sum := total (zip_with array vs hs) in zip_with (fun v h => setArray v sum h) vs hs
      else hs
  | Scale k => zip_with (fun v h => setArray v (o_scale scale (array v h)) h) (omap (fun g => g !! k) gs) hs
  end.

(** The steps of a call that reduces the [n] variables from the [p]-th on. *)
Definition callSteps (p n : nat) : list step := (Collect <$> List.seq p n) ++ (Scale <$> List.seq p n).

Fixpoint allSteps (p : nat) (cs : list call) : list step :=
  match cs with
  | [] => []
  | c :: cs => callSteps p (length (reduced c)) ++ allSteps (p + length (reduced c)) cs
  end.

(** All workers make their [k]-th call. *)
Definition checkCalls (b : DistributedBackend) (kCoalesceCacheSize : Z) (calls : list (list call)) (k : nat) (hs : list heap)
    : result unit :=
  foldM_result (fun _ p => match p.1 !! k with Some c => checkCall b kCoalesceCacheSize (zlen hs) c p.2 | None => Ok tt end) tt
    (zip calls hs).

(** The calls [cs] from the [k]-th on, which reduce the variables from the [p]-th on. *)
Fixpoint runCalls (b : DistributedBackend) (kCoalesceCacheSize : Z) (scale : K) (calls : list (list call)) (k p : nat)
    (cs : list call) (hs : list heap) : result (list heap) :=
  match cs with
  | [] => Ok hs
  | c :: cs =>
      _ ← checkCalls b kCoalesceCacheSize calls k hs;
      runCalls b kCoalesceCacheSize scale calls (S k) (p + length (reduced c)) cs
        (fold_left (worldStep b scale ((fun cs => flat_map reduced cs) <$> calls)) (callSteps p (length (reduced c))) hs)
  end.

(** Each worker with its calls, all with the same scale; calls that do not match
    never return. *)
Definition runWorld (b : DistributedBackend) (kCoalesceCacheSize : Z) (scale : K) (calls : list (list call)) (hs : list heap)
    : result (list heap) :=
  match calls with
  | [] => Ok hs
  | cs :: rest =>
      if forallb (matchingAll cs) rest then runCalls b kCoalesceCacheSize scale calls 0 0 cs hs else Throw Undefined
  end.
End Reducers.

(** * The calls of the coalescing reducer *)

Section Calls.
Context {A K : Type} `{Arrays A, OptimOps A K, ByteSize A}.
Abbreviation heap := (Autograd.heap (A := A)).
Abbreviation reducer := (CoalescingReducer (K := K)).

Definition totalBytes (vs : list var) (h : heap) : Z := foldr (fun v n => bytes v h + n) 0 vs.

#[local] Arguments totalBytes : simpl never.

(** Bytes are counted, and never exceed the threshold. *)
Definition reducer_ok (r : reducer) (h : heap) : Prop :=
  currCacheSize_ r = totalBytes (cache_ r) h /\ 0 <= currCacheSize_ r <= cacheThresholdBytes_ r
  /\ cacheThresholdBytes_ r < 2 ^ 63.

Definition sized (h : heap) (v : var) : Prop := 0 <= bytes v h < 2 ^ 63.

Lemma totalBytes_snoc vs v (h : heap) : totalBytes (vs ++ [v]) h = totalBytes vs h + bytes v h.
Proof. unfold totalBytes. induction vs as [|w vs IH]; cbn in *; lia. Qed.

(** A call holds one variable or at most as many bytes as the threshold. *)
Definition call_bounded (threshold : Z) (h : heap) (c : call (K := K)) : Prop :=
  match c with
  | AllReduce _ _ _ => True
  | AllReduceMultiple vs _ _ _ => totalBytes vs h <= threshold
  | SyncDistributed => True
  end.

Lemma addVar_spec (r : reducer) v h :
  reducer_ok r h -> sized h v ->
  let '(r', c) := addVar r v h in
  reducer_ok r' h /\ cacheThresholdBytes_ r' = cacheThresholdBytes_ r
  /\ flat_map reduced c ++ cache_ r' = cache_ r ++ [v] /\ Forall (call_bounded (cacheThresholdBytes_ r) h) c.
Proof.
  intros (Hc & Hr & Ht) Hv. unfold addVar, flush, sized, Prelude.u64 in *.
  rewrite (Z.mod_small (currCacheSize_ r + bytes v h)) by lia.
  destruct (Z.ltb_spec (cacheThresholdBytes_ r) (currCacheSize_ r + bytes v h)); cbn;
    destruct (Z.ltb_spec (cacheThresholdBytes_ r) (bytes v h)); cbn; unfold reducer_ok; cbn; rewrite ?app_nil_r.
  - split_and!; try done; try lia. repeat constructor. cbn. lia.
  - rewrite Z.mod_small by lia. split_and!; try done; try lia; [unfold totalBytes; cbn; lia|]. repeat constructor. cbn. lia.
  - lia.
  - rewrite Z.mod_small by lia. rewrite totalBytes_snoc. split_and!; try done; try lia; by constructor.
Qed.

Lemma addAll_spec vs (r : reducer) h :
  reducer_ok r h -> Forall (sized h) vs ->
  let '(r', c) := addAll r vs h in
  reducer_ok r' h /\ cacheThresholdBytes_ r' = cacheThresholdBytes_ r
  /\ flat_map reduced c ++ cache_ r' = cache_ r ++ vs /\ Forall (call_bounded (cacheThresholdBytes_ r) h) c.
Proof.
  intros Hr Hv. revert r Hr. induction Hv as [|v vs Hv Hvs IH]; intros r Hr; cbn [addAll].
  { split_and!; [by apply Hr..|done|by rewrite app_nil_r|constructor]. }
  pose proof (addVar_spec r v h Hr Hv) as Ha. destruct (addVar r v h) as [r1 c1]. destruct Ha as (O1 & E1 & F1 & B1).
  pose proof (IH r1 O1) as Hb. destruct (addAll r1 vs h) as [r2 c2]. destruct Hb as (O2 & E2 & F2 & B2).
  split; [done|]. split; [congruence|]. split.
  - rewrite flat_map_app, <- app_assoc, F2, app_assoc, F1, <- app_assoc. done.
  - apply Forall_app. split; [done|by rewrite <- E1].
Qed.
End Calls.

(** * What the world computes *)

Section World.
Context {A K : Type} `{Arrays A, OptimOps A K, ByteSize A} (b : DistributedBackend) (scale : K).
Abbreviation heap := (Autograd.heap (A := A)).

(** The collective operations are called. *)
Definition many (W : nat) : bool := 1 <? getWorldSize b (Z.of_nat W).

(** The arrays of the workers' variables are [M]; [W] workers, [n] variables each. *)
Definition observes (gs : list (list var)) (hs : list heap) (M : nat -> nat -> A) : Prop :=
  length hs = length gs
  /\ forall w g h k v, gs !! w = Some g -> hs !! w = Some h -> g !! k = Some v -> array v h = M w k.

Definition rectangular (gs : list (list var)) (n : nat) : Prop :=
  forall g, g ∈ gs -> length g = n /\ NoDup (data_ <$> g).

Lemma column gs n k : rectangular gs n -> (k < n)%nat ->
  exists vs, omap (fun g : list var => g !! k) gs = vs /\ length vs = length gs
    /\ forall w v, vs !! w = Some v <-> exists g, gs !! w = Some g /\ g !! k = Some v.
Proof.
  intros Hr Hk. eexists. split; [done|]. induction gs as [|g gs IH].
  { split; [done|]. intros w v. split; [done|]. by intros (g & ? & _). }
  destruct (Hr g) as [Hg _]; [by left|]. destruct (lookup_lt_is_Some_2 g k) as [v Hv]; [lia|].
  cbn. rewrite Hv. destruct IH as [El Ew]; [intros g' Hg'; apply Hr; by right|]. split; [cbn; by f_equal|].
  intros [|w] u; cbn.
  - split; [intros [= <-]; by exists g|]. intros (g' & [= <-] & E). congruence.
  - apply Ew.
Qed.

(** A step changes column [k] to what it writes. *)
Lemma observes_write gs n k hs M (f : nat -> A) (F : var -> heap -> A) :
  rectangular gs n -> (k < n)%nat -> observes gs hs M ->
  (forall w g h v, gs !! w = Some g -> hs !! w = Some h -> g !! k = Some v -> F v h = f w) ->
  observes gs (zip_with (fun v h => setArray v (F v h) h) (omap (fun g => g !! k) gs) hs)
    (fun w k' => if Nat.eqb k' k then f w else M w k').
Proof.
  intros Hr Hk [Hl HM] Hf. destruct (column gs n k Hr Hk) as (vs & -> & Lv & Hv). split.
  - rewrite length_zip_with. lia.
  - intros w g h k' v Hg Hh Hk'. apply lookup_zip_with_Some in Hh as (u & h0 & -> & Hu & Hh0).
    apply Hv in Hu as (g' & Hg' & Hu). assert (g' = g) as -> by congruence.
    unfold array, setArray. cbn. destruct (Nat.eqb_spec k' k) as [->|Hne].
    + assert (u = v) as -> by congruence. rewrite lookup_insert_eq. cbn. by eapply Hf.
    + rewrite lookup_insert_ne; [by eapply HM|]. intros E. apply Hne. destruct (Hr g) as [_ Hnd]; [by eapply list_elem_of_lookup_2|].
      eapply (NoDup_lookup _ _ _ (data_ v) Hnd); rewrite list_lookup_fmap, ?Hk', ?Hu; cbn; congruence.
Qed.

Definition sumColumn (W : nat) (M : nat -> nat -> A) (k : nat) : A := total ((fun w => M w k) <$> List.seq 0 W).

Lemma zip_column gs n k hs M :
  rectangular gs n -> (k < n)%nat -> observes gs hs M ->
  zip_with array (omap (fun g => g !! k) gs) hs = (fun w => M w k) <$> List.seq 0 (length gs).
Proof.
  intros Hr Hk [Hl HM]. destruct (column gs n k Hr Hk) as (vs & -> & Lv & Hv).
  apply list_eq. intros w. rewrite list_lookup_fmap. destruct (decide (w < length gs)%nat) as [Hw|Hw].
  - destruct (lookup_lt_is_Some_2 vs w) as [v Ev]; [lia|]. destruct (lookup_lt_is_Some_2 hs w) as [h Eh]; [lia|].
    rewrite lookup_zip_with, Ev, Eh. cbn. rewrite lookup_seq_lt by done. cbn. f_equal.
    destruct (proj1 (Hv w v) Ev) as (g & Hg & Hgk). by apply (HM w g h k v).
  - rewrite lookup_zip_with, (lookup_ge_None_2 vs) by lia. cbn. by rewrite lookup_seq_ge by lia.
Qed.

(** What the steps make of [M] *)
Definition stepMatrix (W : nat) (M : nat -> nat -> A) (s : step) : nat -> nat -> A :=
  match s with
  | Collect k => if many W then fun w k' => if Nat.eqb k' k then sumColumn W M k else M w k' else M
  | Scale k => fun w k' => if Nat.eqb k' k then o_scale scale (M w k) else M w k'
  end.

Lemma observes_step gs n hs M s :
  rectangular gs n -> (match s with Collect k | Scale k => k < n end)%nat -> observes gs hs M ->
  observes gs (worldStep b scale gs hs s) (stepMatrix (length gs) M s).
Proof.
  intros Hr Hs HM. pose proof (proj1 HM) as Hl. destruct s as [k|k]; cbn [worldStep stepMatrix].
  - unfold zlen. rewrite Hl. fold (many (length gs)). destruct (many (length gs)); [|done].
    rewrite (zip_column gs n k hs M) by done.
    apply (observes_write gs n k hs M (fun _ => sumColumn (length gs) M k) (fun _ _ => total ((fun w => M w k) <$> List.seq 0 (length gs)))); try done.
  - apply (observes_write gs n k hs M (fun w => o_scale scale (M w k)) (fun v h => o_scale scale (array v h))); try done.
    intros w g h v Hg Hh Hk. f_equal. by eapply (proj2 HM).
Qed.

Lemma observes_steps gs n hs M ss :
  rectangular gs n -> Forall (fun s => match s with Collect k | Scale k => k < n end)%nat ss -> observes gs hs M ->
  observes gs (fold_left (worldStep b scale gs) ss hs) (fold_left (stepMatrix (length gs)) ss M).
Proof.
  intros Hr Hs. revert hs M. induction Hs as [|s ss Hs _ IH]; intros hs M HM; [done|]. cbn [fold_left]. apply IH.
  by eapply observes_step.
Qed.

Lemma sumColumn_ext W M N k : (forall w, M w k = N w k) -> sumColumn W M k = sumColumn W N k.
Proof. intros E. unfold sumColumn. f_equal. apply list_fmap_ext. intros i w _. apply E. Qed.

Definition inBlock (p n k : nat) : bool := (p <=? k)%nat && (k <? p + n)%nat.

Lemma inBlock_snoc p n k : inBlock p (S n) k = Nat.eqb k (p + n) || inBlock p n k.
Proof. unfold inBlock. destruct (Nat.eqb_spec k (p + n)), (Nat.leb_spec p k), (Nat.ltb_spec k (p + S n)), (Nat.ltb_spec k (p + n)); cbn; lia. Qed.
Lemma inBlock_end p n : inBlock p n (p + n) = false.
Proof. unfold inBlock. destruct (Nat.leb_spec p (p + n)), (Nat.ltb_spec (p + n) (p + n)); cbn; lia. Qed.

Lemma collects W p n M w k :
  fold_left (stepMatrix W) (Collect <$> List.seq p n) M w k = if inBlock p n k && many W then sumColumn W M k else M w k.
Proof.
  revert w k. induction n as [|n IH]; intros w k.
  { cbn. unfold inBlock. destruct (Nat.leb_spec p k), (Nat.ltb_spec k (p + 0)); cbn; lia || done. }
  rewrite seq_S, fmap_app, fold_left_app, inBlock_snoc. cbn [fmap list_fmap fold_left stepMatrix].
  destruct (many W).
  - destruct (Nat.eqb_spec k (p + n)) as [->|Hne]; cbn; [|apply IH].
    apply sumColumn_ext. intros w'. by rewrite IH, inBlock_end.
  - rewrite IH. by rewrite !andb_false_r.
Qed.

Lemma scales W p n M w k :
  fold_left (stepMatrix W) (Scale <$> List.seq p n) M w k = if inBlock p n k then o_scale scale (M w k) else M w k.
Proof.
  revert w k. induction n as [|n IH]; intros w k.
  { cbn. unfold inBlock. destruct (Nat.leb_spec p k), (Nat.ltb_spec k (p + 0)); cbn; lia || done. }
  rewrite seq_S, fmap_app, fold_left_app, inBlock_snoc. cbn [fmap list_fmap fold_left stepMatrix].
  destruct (Nat.eqb_spec k (p + n)) as [->|Hne]; cbn; [|apply IH]. by rewrite IH, inBlock_end.
Qed.

(** The scaled sum over the workers of their [k]-th arrays *)
Definition averaged (W : nat) (M : nat -> nat -> A) (w k : nat) : A :=
  o_scale scale (if many W then sumColumn W M k else M w k).

Lemma steps_matrix W (cs : list (call (K := K))) p M w k :
  fold_left (stepMatrix W) (allSteps p cs) M w k
  = if inBlock p (length (flat_map reduced cs)) k then averaged W M w k else M w k.
Proof.
  revert p M w k. induction cs as [|c cs IH]; intros p M w k; cbn [allSteps flat_map].
  { cbn. unfold inBlock. destruct (Nat.leb_spec p k), (Nat.ltb_spec k (p + 0)); cbn; lia || done. }
  rewrite fold_left_app, IH. unfold callSteps. rewrite length_app.
  set (n := length (reduced c)). set (m := length (flat_map reduced cs)).
  assert (Hb : forall w k, fold_left (stepMatrix W) ((Collect <$> List.seq p n) ++ (Scale <$> List.seq p n)) M w k
    = if inBlock p n k then averaged W M w k else M w k).
  { intros w' k'. rewrite fold_left_app, scales, collects. unfold averaged. by destruct (inBlock p n k'), (many W). }
  destruct (inBlock (p + n) m k) eqn:E1.
  - assert (inBlock p n k = false /\ inBlock p (n + m) k = true) as [E2 E3].
    { revert E1. unfold inBlock. destruct (Nat.leb_spec (p + n) k), (Nat.ltb_spec k (p + n + m)), (Nat.leb_spec p k),
        (Nat.ltb_spec k (p + n)), (Nat.ltb_spec k (p + (n + m))); cbn; intros; try done; lia. }
    rewrite E3. unfold averaged. rewrite Hb, E2. f_equal. destruct (many W); [|done].
    apply sumColumn_ext. intros w'. by rewrite Hb, E2.
  - rewrite Hb. replace (inBlock p (n + m) k) with (inBlock p n k); [done|].
    revert E1. unfold inBlock. destruct (Nat.leb_spec (p + n) k), (Nat.ltb_spec k (p + n + m)), (Nat.leb_spec p k),
        (Nat.ltb_spec k (p + n)), (Nat.ltb_spec k (p + (n + m))); cbn; intros; try done; lia.
Qed.
End World.

(** * Reducing over the world *)

Section Reduce.
Context {A K : Type} `{Arrays A, OptimOps A K, ByteSize A}.
Abbreviation heap := (Autograd.heap (A := A)).
Abbreviation reducer := (CoalescingReducer (K := K)).

(** Reducers of two workers that cached as many variables of the same sizes. *)
Definition alike (r s : reducer) : Prop :=
  async_ r = async_ s /\ contiguous_ r = contiguous_ s /\ cacheThresholdBytes_ r = cacheThresholdBytes_ s
  /\ currCacheSize_ r = currCacheSize_ s /\ length (cache_ r) = length (cache_ s).

Lemma flat_map_nil_sync (r : reducer) : flat_map reduced (synchronize r) = [].
Proof. unfold synchronize. by destruct (_ || _). Qed.

Lemma matchingAll_app cs ds cs' ds' :
  matchingAll (K := K) cs ds = true -> matchingAll cs' ds' = true -> matchingAll (cs ++ cs') (ds ++ ds') = true.
Proof.
  revert ds. induction cs as [|c cs IH]; intros [|d ds]; cbn; try done. intros [? ?]%andb_true_iff ?.
  apply andb_true_iff. split; [done|by apply IH].
Qed.

Lemma addVar_alike (r s : reducer) v w h k :
  alike r s -> bytes v h = bytes w k ->
  let '(r', c) := addVar r v h in let '(s', d) := addVar s w k in alike r' s' /\ matchingAll c d = true.
Proof.
  destruct r as [sc1 a1 c1 t1 l1 n1], s as [sc2 a2 c2 t2 l2 n2]. unfold alike. cbn. intros (<- & <- & <- & <- & E) Eb.
  unfold addVar, flush. cbn. rewrite Eb. destruct (t1 <? Prelude.u64 _); cbn; destruct (t1 <? bytes w k); cbn;
    rewrite ?length_app, ?E; cbn; rewrite ?bool_decide_eq_true_2, ?eqb_reflx by done; done.
Qed.

Lemma addAll_alike vs ws (r s : reducer) h k :
  alike r s -> Forall2 (fun v w => bytes v h = bytes w k) vs ws ->
  let '(r', c) := addAll r vs h in let '(s', d) := addAll s ws k in alike r' s' /\ matchingAll c d = true.
Proof.
  intros Ha Hb. revert r s Ha. induction Hb as [|v w vs ws Hb _ IH]; intros r s Ha; cbn [addAll]; [done|].
  pose proof (addVar_alike r s v w h k Ha Hb) as P. destruct (addVar r v h) as [r1 c1], (addVar s w k) as [s1 d1].
  destruct P as [Ha1 M1]. specialize (IH r1 s1 Ha1). destruct (addAll r1 vs h) as [r2 c2], (addAll s1 ws k) as [s2 d2].
  destruct IH as [Ha2 M2]. split; [done|by apply matchingAll_app].
Qed.

Lemma reduceAll_alike vs ws (r s : reducer) h k :
  alike r s -> Forall2 (fun v w => bytes v h = bytes w k) vs ws ->
  matchingAll (reduceAll r vs h).2 (reduceAll s ws k).2 = true.
Proof.
  intros Ha Hb. unfold reduceAll. pose proof (addAll_alike vs ws r s h k Ha Hb) as P.
  destruct (addAll r vs h) as [r1 c1], (addAll s ws k) as [s1 d1]. destruct P as [(E1 & E2 & E3 & E4 & E5) M1]. cbn.
  apply matchingAll_app; [done|]. unfold synchronize. cbn. rewrite E1, E2, E5, bool_decide_eq_true_2, !eqb_reflx by done. cbn.
  by destruct (async_ s1 || contiguous_ s1).
Qed.

(** Every variable is reduced once, in the order in which it was added. *)
Lemma reduceAll_order (r : reducer) vs h :
  reducer_ok r h -> Forall (sized h) vs -> cache_ r = [] ->
  flat_map reduced (reduceAll r vs h).2 = vs /\ Forall (call_bounded (cacheThresholdBytes_ r) h) (reduceAll r vs h).2.
Proof.
  intros Hr Hv Hc. unfold reduceAll. pose proof (addAll_spec vs r h Hr Hv) as P.
  destruct (addAll r vs h) as [r1 c1]. destruct P as ((B1 & B2 & B3) & Et & Ef & Fb). cbn. rewrite Hc in Ef. split.
  - rewrite flat_map_app. cbn. rewrite flat_map_nil_sync, app_nil_r. done.
  - apply Forall_app. split; [done|]. constructor; [cbn; rewrite <- B1, <- Et; lia|]. unfold synchronize. destruct (_ || _); by repeat constructor.
Qed.

(** Every call carries the flags of the reducer, and the last reducing call is a flush. *)
Definition flagged (async contiguous : bool) (c : call (K := K)) : Prop :=
  match c with AllReduce _ _ a => a = async | AllReduceMultiple _ _ a x => a = async /\ x = contiguous | SyncDistributed => async || contiguous = true end.

Lemma addAll_flagged vs (r : reducer) h :
  let '(r', c) := addAll r vs h in
  async_ r' = async_ r /\ contiguous_ r' = contiguous_ r /\ Forall (flagged (async_ r) (contiguous_ r)) c.
Proof.
  revert r. induction vs as [|v vs IH]; intros r; cbn [addAll]; [done|].
  destruct (addVar r v h) as [r1 c1] eqn:E1. specialize (IH r1). destruct (addAll r1 vs h) as [r2 c2].
  assert (async_ r1 = async_ r /\ contiguous_ r1 = contiguous_ r /\ Forall (flagged (async_ r) (contiguous_ r)) c1) as (Ea & Ec & Hc).
  { revert E1. unfold addVar, flush. destruct (cacheThresholdBytes_ r <? Prelude.u64 _), (_ <? bytes v h);
      intros [= <- <-]; cbn; split_and!; try done; by repeat constructor. }
  rewrite Ea, Ec in IH. destruct IH as (? & ? & ?). split_and!; [done|done|]. by apply Forall_app.
Qed.

Lemma reduceAll_flagged vs (r : reducer) h :
  Forall (flagged (async_ r) (contiguous_ r)) (reduceAll r vs h).2
  /\ (exists ws, AllReduceMultiple ws (scale_ (addAll r vs h).1) (async_ r) (contiguous_ r) ∈ (reduceAll r vs h).2)
  /\ (async_ r || contiguous_ r = true -> SyncDistributed ∈ (reduceAll r vs h).2).
Proof.
  unfold reduceAll. pose proof (addAll_flagged vs r h) as P. destruct (addAll r vs h) as [r1 c1]. cbn. destruct P as (Ea & Ec & Hc).
  unfold synchronize. cbn. rewrite Ea, Ec. split_and!.
  - apply Forall_app. split; [done|]. constructor; [done|]. destruct (async_ r || contiguous_ r) eqn:E; by repeat constructor.
  - exists (cache_ r1). apply elem_of_app. right. by left.
  - intros ->. apply elem_of_app. right. right. by left.
Qed.

(** ** Running the calls *)

Lemma allSteps_app p (cs ds : list (call (K := K))) :
  allSteps p (cs ++ ds) = allSteps p cs ++ allSteps (p + length (flat_map reduced cs)) ds.
Proof.
  revert p. induction cs as [|c cs IH]; intros p; cbn [allSteps flat_map app length]; [by rewrite Nat.add_0_r|].
  rewrite IH, length_app, <- app_assoc. by rewrite Nat.add_assoc.
Qed.

(** Calls of which none throws. *)
Lemma runCalls_ok b th (scale : K) calls pre cs (hs0 : list heap) :
  let state := fun pre => fold_left (worldStep b scale ((fun cs => flat_map reduced cs) <$> calls)) (allSteps 0 pre) hs0 in
  (forall pre' c post, pre' ++ c :: post = pre ++ cs -> checkCalls b th calls (length pre') (state pre') = Ok tt) ->
  runCalls b th scale calls (length pre) (length (flat_map reduced pre)) cs (state pre) = Ok (state (pre ++ cs)).
Proof.
  intros state. revert pre. induction cs as [|c cs IH]; intros pre Hc; cbn [runCalls]; [by rewrite app_nil_r|].
  rewrite (Hc pre c cs eq_refl). cbn [mbind result_bind]. specialize (IH (pre ++ [c])). rewrite <- app_assoc in IH. cbn [app] in IH.
  assert (flat_map reduced (pre ++ [c]) = flat_map reduced pre ++ reduced c) as E by (rewrite flat_map_app; cbn; by rewrite app_nil_r).
  rewrite <- (IH Hc), E, !length_app. cbn [length]. replace (length pre + 1)%nat with (S (length pre)) by lia. f_equal.
  unfold state. rewrite allSteps_app, fold_left_app. cbn [allSteps Nat.add]. by rewrite app_nil_r.
Qed.

(** Backends only throw [RuntimeError]. *)
Definition quiet (m : result unit) : Prop := m = Ok tt \/ m = Throw RuntimeError.

Lemma quiet_fold {B} (f : unit -> B -> result unit) l : (forall u x, x ∈ l -> quiet (f u x)) -> quiet (foldM_result f tt l).
Proof.
  induction l as [|x l IH]; intros Hf; [by left|]. cbn. destruct (Hf tt x) as [-> | ->]; [by left| |by right].
  apply IH. intros u y Hy. apply Hf. by right.
Qed.

Lemma fold_ok {B} (f : unit -> B -> result unit) l : (forall x, x ∈ l -> f tt x = Ok tt) -> foldM_result f tt l = Ok tt.
Proof. induction l as [|x l IH]; intros Hf; [done|]. cbn. rewrite (Hf x) by left. apply IH. intros y Hy. apply Hf. by right. Qed.

Lemma quiet_throw_if c : quiet (throw_if c RuntimeError).
Proof. destruct c; [by right|by left]. Qed.

Lemma checkCall_quiet b th W (c : call (K := K)) (h : heap) : quiet (checkCall b th W c h).
Proof.
  assert (Ha : forall a x, quiet (allReduceArray b a x)).
  { intros a x. unfold allReduceArray. destruct b; [destruct a; [by right|]| |by right]; apply quiet_throw_if. }
  destruct c as [v sc a|vs sc a x|]; cbn.
  - destruct (1 <? _); [apply Ha|by left].
  - destruct (1 <? _); [|by left]. unfold allReduceMultipleArrays. destruct b; [| |by right].
    + destruct x; [by right|]. apply quiet_fold. auto.
    + destruct ((fun v => array v h) <$> vs) as [|x0 xs]; [by left|]. destruct x; cbn [negb].
      * destruct (forallb _ _); [apply quiet_throw_if|by right].
      * apply quiet_fold. auto.
  - destruct b; [by left|by left|by right].
Qed.

(** A call of the first worker that throws in whatever state. *)
Lemma runCalls_throws b th (scale : K) cs0 calls pre cs c (hs0 : list heap) :
  let state := fun pre => fold_left (worldStep b scale ((fun cs => flat_map reduced cs) <$> (cs0 :: calls))) (allSteps 0 pre) hs0 in
  (forall pre post, pre ++ post = cs0 -> length (state pre) = length hs0) -> hs0 <> [] ->
  cs0 = pre ++ cs -> c ∈ cs -> (forall h : heap, checkCall b th (zlen hs0) c h = Throw RuntimeError) ->
  runCalls b th scale (cs0 :: calls) (length pre) (length (flat_map reduced pre)) cs (state pre) = Throw RuntimeError.
Proof.
  intros state Hlen Hne E Hin Hc. revert pre E. induction cs as [|d cs IH]; intros pre E; [by apply elem_of_nil in Hin|].
  cbn [runCalls]. destruct (checkCalls b th (cs0 :: calls) (length pre) (state pre)) as [[]|e] eqn:Ek.
  - cbn [mbind result_bind]. apply elem_of_cons in Hin as [->|Hin].
    + exfalso. pose proof (Hlen pre (d :: cs) (eq_sym E)) as Hl. unfold checkCalls in Ek. destruct (state pre) as [|h hs] eqn:Es.
      { destruct hs0; [done|]. done. }
      cbn [zip zip_with foldM_result fst snd] in Ek. rewrite E, list_lookup_middle in Ek by done.
      unfold zlen in Ek, Hc. rewrite Hl, Hc in Ek. done.
    + assert (flat_map reduced (pre ++ [d]) = flat_map reduced pre ++ reduced d) as E' by (rewrite flat_map_app; cbn; by rewrite app_nil_r).
      specialize (IH Hin (pre ++ [d])). rewrite E', !length_app, <- app_assoc in IH. cbn [length app] in IH. rewrite <- (IH E).
      replace (length pre + 1)%nat with (S (length pre)) by lia. f_equal.
      unfold state. rewrite allSteps_app, fold_left_app. cbn [allSteps Nat.add]. by rewrite app_nil_r.
  - cbn [mbind result_bind]. assert (quiet (checkCalls b th (cs0 :: calls) (length pre) (state pre))) as [?|Hq]; [|congruence|congruence].
    unfold checkCalls. apply quiet_fold. intros u [cs' h] _. cbn. destruct (cs' !! length pre); [apply checkCall_quiet|by left].
Qed.

(** ** The world after the calls *)

Section Runs.
Context (b : DistributedBackend) (th : Z) (scale : K) (calls : list (list (call (K := K)))) (gs : list (list var)) (hs : list heap) (n : nat).
Hypothesis Hl : length hs = length gs.
Hypothesis Hr : rectangular gs n.
Hypothesis Hgs : (fun cs => flat_map reduced cs) <$> calls = gs.
Hypothesis Hm : forall cs ds, cs ∈ calls -> ds ∈ calls -> matchingAll cs ds = true.

Abbreviation state pre := (fold_left (worldStep b scale gs) (allSteps 0 pre) hs).

(** The arrays before the calls. *)
Definition initially (w k : nat) : A :=
  match gs !! w, hs !! w with
  | Some g, Some h => match g !! k with Some v => array v h | None => a_empty end | _, _ => a_empty end.

Lemma state_observes cs pre post :
  cs ∈ calls -> cs = pre ++ post ->
  observes gs (state pre)
    (fun w k => if (k <? length (flat_map reduced pre))%nat then averaged b scale (length gs) initially w k else initially w k).
Proof.
  intros Hcs ->.
  assert (Hn : (length (flat_map reduced pre) <= n)%nat).
  { rewrite <- (proj1 (Hr (flat_map reduced (pre ++ post)) ltac:(rewrite <- Hgs; apply list_elem_of_fmap; eauto))).
    rewrite flat_map_app, length_app. lia. }
  assert (Hsteps : Forall (fun s => match s with Collect k | Scale k => k < n end)%nat (allSteps 0 pre)).
  { assert (forall p, (p + length (flat_map reduced pre) <= n)%nat ->
      Forall (fun s => match s with Collect k | Scale k => k < n end)%nat (allSteps p pre)) as Hs; [|by apply Hs].
    clear. induction pre as [|c cs IH]; intros p; cbn [allSteps flat_map]; [constructor|]. rewrite length_app. intros Hp.
    apply Forall_app. split; [|apply IH; lia].
    unfold callSteps. apply Forall_app. split; apply Forall_fmap, Forall_forall; intros k Hk%elem_of_seq; cbn; lia. }
  destruct (observes_steps b scale gs n hs initially (allSteps 0 pre) Hr Hsteps) as [Hl' Ho].
  { split; [done|]. intros w g h k v Hg Hh Hk. unfold initially. by rewrite Hg, Hh, Hk. }
  split; [done|]. intros w g h k v Hg Hh Hk. rewrite (Ho w g h k v Hg Hh Hk), steps_matrix. unfold inBlock. done.
Qed.

Lemma matchingAll_prefix (cs ds : list (call (K := K))) pre c post :
  matchingAll cs ds = true -> ds = pre ++ c :: post -> length (flat_map reduced pre) = length (flat_map reduced (take (length pre) cs)).
Proof.
  revert cs ds. induction pre as [|d pre IH]; intros [|c0 cs] ds; [done|done|by intros Hmm ->|].
  intros Hmm ->. cbn in Hmm. apply andb_true_iff in Hmm as [M1 M2]. cbn [length take flat_map]. rewrite !length_app. f_equal; [|by eapply IH].
  destruct c0, d; cbn in M1 |- *; try done. apply andb_true_iff in M1 as [[M1%bool_decide_eq_true_1 _]%andb_true_iff _]. done.
Qed.

(** Workers that make matching calls, each on its own gradients in order. *)
Lemma world_sums :
  (forall w pre c post h h', calls !! w = Some (pre ++ c :: post) -> hs !! w = Some h ->
     (forall v, v ∈ reduced c -> array v h' = array v h) -> checkCall b th (zlen hs) c h' = Ok tt) ->
  exists hs', runWorld b th scale calls hs = Ok hs' /\ length hs' = length gs
    /\ forall w g h h' k v, gs !! w = Some g -> hs !! w = Some h -> hs' !! w = Some h' -> g !! k = Some v ->
       array v h' = o_scale scale (if many b (length gs) then total (zip_with array (omap (fun g => g !! k) gs) hs) else array v h).
Proof.
  intros Hcheck. pose proof state_observes as Hso. destruct calls as [|cs rest].
  { exists hs. split; [done|]. split; [done|]. intros w g h h' k v Hg. rewrite <- Hgs in Hg. by destruct w. }
  cbn [runWorld]. rewrite (proj2 (forallb_forall _ _)).
  2:{ intros ds Hds%list_elem_of_In. apply Hm; [by left|by right]. }
  pose proof (runCalls_ok b th scale (cs :: rest) [] cs hs) as Hrun. rewrite Hgs in Hrun. cbn zeta in Hrun. cbn [length flat_map app allSteps fold_left] in Hrun.
  rewrite Hrun.
  - eexists. split; [reflexivity|]. destruct (Hso cs cs [] ltac:(by left) ltac:(by rewrite app_nil_r)) as [Hl' Ho].
    split; [done|]. intros w g h h' k v Hg Hh Hh' Hk. rewrite (Ho w g h' k v Hg Hh' Hk).
    assert ((k <? length (flat_map reduced cs))%nat = true) as ->.
    { apply Nat.ltb_lt. destruct (Hr g) as [Hgn _]; [by eapply list_elem_of_lookup_2|].
      destruct (Hr (flat_map reduced cs)) as [-> _]; [rewrite <- Hgs; by left|]. rewrite <- Hgn. by eapply lookup_lt_Some. }
    assert (Hk' : (k < n)%nat) by (destruct (Hr g) as [<- _]; [by eapply list_elem_of_lookup_2|by eapply lookup_lt_Some]).
    unfold averaged, sumColumn. rewrite (zip_column gs n k hs initially) by
      (done || (split; [done|]; intros w' g' h0 k' v' Hg' Hh0 Hk0; unfold initially; by rewrite Hg', Hh0, Hk0)).
    unfold initially at 2. by rewrite Hg, Hh, Hk.
  - intros pre c post E. destruct (Hso cs pre (c :: post) ltac:(by left) (eq_sym E)) as [Hl' Ho].
    unfold checkCalls. apply fold_ok. intros [ds h'] [w Hw]%list_elem_of_lookup. cbn [fst snd].
    apply lookup_zip_with_Some in Hw as (ds0 & h0 & [= <- <-] & Hds & Hh'). destruct (ds !! length pre) as [d|] eqn:Ed; [|done].
    pose proof (take_drop_middle ds (length pre) d Ed) as Esplit.
    set (pre' := take (length pre) ds) in *. assert (Lp : length pre' = length pre).
    { unfold pre'. rewrite length_take. apply lookup_lt_Some in Ed. lia. }
    assert (Hdsc : ds ∈ cs :: rest) by (by eapply list_elem_of_lookup_2).
    assert (Hg : gs !! w = Some (flat_map reduced ds)) by (rewrite <- Hgs, list_lookup_fmap, Hds; done).
    destruct (lookup_lt_is_Some_2 hs w) as [h Hh]; [rewrite Hl; by eapply lookup_lt_Some|].
    unfold zlen. rewrite Hl', <- Hl. apply (Hcheck w pre' d (drop (S (length pre)) ds) h h'); [by rewrite Esplit|done|].
    intros v [j Hj]%list_elem_of_lookup.
    assert (Hv : flat_map reduced ds !! (length (flat_map reduced pre') + j)%nat = Some v).
    { rewrite <- Esplit, flat_map_app, lookup_app_r by lia. cbn [flat_map].
      replace (length (flat_map reduced pre') + j - length (flat_map reduced pre'))%nat with j by lia.
      apply lookup_app_l_Some, Hj. }
    rewrite (Ho w _ h' _ v Hg Hh' Hv).
    rewrite (matchingAll_prefix cs ds pre' d _ (Hm _ _ (list_elem_of_here _ _) Hdsc) (eq_sym Esplit)).
    rewrite Lp, <- E, take_app_length. rewrite (proj2 (Nat.ltb_ge _ _)) by lia.
    rewrite (matchingAll_prefix cs ds pre' d _ (Hm _ _ (list_elem_of_here _ _) Hdsc) (eq_sym Esplit)), Lp, <- E, take_app_length in Hv.
    unfold initially. by rewrite Hg, Hh, Hv.
Qed.
End Runs.

(** The gradients of all workers have the same sizes. *)
Definition sameSizes (size : nat -> Z) (gs : list (list var)) (hs : list heap) : Prop :=
  forall w g h k v, gs !! w = Some g -> hs !! w = Some h -> g !! k = Some v -> bytes v h = size k /\ 0 <= size k < 2 ^ 63.

Lemma sameSizes_sized size gs hs w g h :
  sameSizes size gs hs -> gs !! w = Some g -> hs !! w = Some h -> Forall (sized h) g.
Proof.
  intros Hs Hg Hh. apply Forall_forall. intros v [k Hk]%list_elem_of_lookup. unfold sized.
  destruct (Hs w g h k v Hg Hh Hk) as [-> ?]. done.
Qed.

(** ** What a backend accepts *)

(** The flags a backend can serve [W] workers with. *)
Definition accepts (b : DistributedBackend) (W : Z) (async contiguous : bool) : bool :=
  match b with GLOO => (W <=? 1) || negb (async || contiguous) | NCCL => true | STUB => negb (async || contiguous) end.

(** The gradients [g] have types that the backend reduces, and one type when they
    are copied into one buffer; only several workers reduce. *)
Definition typed (b : DistributedBackend) (W : Z) (contiguous : bool) (g : list var) (h : heap) : Prop :=
  1 < getWorldSize b W ->
  (forall v, v ∈ g -> supportsType b (a_type (array v h)) = true)
  /\ (contiguous = true -> forall v u, v ∈ g -> u ∈ g -> a_type (array v h) = a_type (array u h)).

Lemma sizeOf_totalBytes vs (h : heap) : sizeOf ((fun v => array v h) <$> vs) = totalBytes vs h.
Proof. unfold sizeOf, totalBytes, bytes. induction vs as [|v vs IH]; [done|]. cbn. by rewrite IH. Qed.

Lemma totalBytes_nonneg vs (h : heap) : Forall (sized h) vs -> 0 <= totalBytes vs h.
Proof. induction 1 as [|v vs [? ?] _ IH]; unfold totalBytes in *; cbn; lia. Qed.

Lemma arrays_accepted b async x : b <> STUB -> (b = GLOO -> async = false) -> supportsType b (a_type x) = true -> allReduceArray b async x = Ok tt.
Proof. intros Hb Ha Ht. unfold allReduceArray. destruct b; [rewrite Ha by done|..]; by rewrite ?Ht. Qed.

Lemma checkCall_accepted b th W async contiguous (c : call (K := K)) (h h' : heap) :
  accepts b W async contiguous = true -> flagged async contiguous c -> 0 <= th < 2 ^ 63 -> call_bounded th h c ->
  Forall (sized h) (reduced c) -> typed b W contiguous (reduced c) h -> (forall v, v ∈ reduced c -> array v h' = array v h) ->
  checkCall b th W c h' = Ok tt.
Proof.
  intros Hacc Hf Hth Hb Hsz Hty Hsame.
  assert (Hgloo : 1 < getWorldSize b W -> b <> STUB /\ (b = GLOO -> async = false /\ contiguous = false)).
  { destruct b; cbn in *; [|done|lia]. intros HW. split; [done|]. intros _. rewrite (proj2 (Z.leb_gt _ _)) in Hacc by done.
    by destruct async, contiguous. }
  destruct c as [v sc a|vs sc a x|]; cbn [checkCall reduced flagged] in *.
  - subst a. destruct (Z.ltb_spec 1 (getWorldSize b W)) as [HW|]; [|done]. destruct (Hgloo HW) as [Hs Hg]. destruct (Hty HW) as [Ht _].
    apply arrays_accepted; [done|naive_solver|]. rewrite Hsame by left. apply Ht. by left.
  - destruct Hf as [-> ->]. destruct (Z.ltb_spec 1 (getWorldSize b W)) as [HW|]; [|done]. destruct (Hgloo HW) as [Hs Hg].
    destruct (Hty HW) as [Ht Ht'].
    assert (Hall : foldM_result (fun _ x => allReduceArray b async x) tt ((fun v => array v h') <$> vs) = Ok tt).
    { apply fold_ok. intros x (v & -> & Hv)%list_elem_of_fmap. apply arrays_accepted; [done|naive_solver|]. rewrite Hsame by done. by apply Ht. }
    unfold allReduceMultipleArrays. destruct b; [by rewrite (proj2 (Hg eq_refl))| |done].
    destruct ((fun v => array v h') <$> vs) as [|x0 xs] eqn:Exs; [done|]. destruct contiguous; cbn [negb]; [|done]. rewrite <- Exs.
    assert (Hx0 : exists u, u ∈ vs /\ x0 = array u h').
    { destruct vs as [|u vs]; [done|]. injection Exs as <- _. exists u. split; [by left|done]. }
    destruct Hx0 as (u & Hu & ->). rewrite (proj2 (forallb_forall _ _)).
    + rewrite sizeOf_totalBytes. replace (totalBytes vs h') with (totalBytes vs h).
      * pose proof (totalBytes_nonneg vs h Hsz). rewrite u64_id by (cbn in Hb; lia). unfold throw_if. by rewrite (proj2 (Z.ltb_ge _ _)).
      * clear -Hsame. induction vs as [|v vs IH]; [done|]. unfold totalBytes in *. cbn. unfold bytes. rewrite (Hsame v) by left. f_equal.
        apply IH. intros w Hw. apply Hsame. by right.
    + intros y (v & -> & Hv)%list_elem_of_In%list_elem_of_fmap. rewrite !Hsame by done. apply andb_true_iff. split; [by apply Ht|].
      apply bool_decide_eq_true_2. by apply Ht'.
  - destruct b; [done|done|]. cbn in Hacc. by rewrite Hf in Hacc.
Qed.

(** A reducer whose flags the backend does not accept makes a call that throws. *)
Lemma refused_call b th W (r : reducer) vs (h : heap) :
  accepts b W (async_ r) (contiguous_ r) = false -> flat_map reduced (reduceAll r vs h).2 <> [] ->
  exists c, c ∈ (reduceAll r vs h).2 /\ forall h' : heap, checkCall b th W c h' = Throw RuntimeError.
Proof.
  intros Hacc Hne. destruct (reduceAll_flagged vs r h) as (Hf & (ws & Hws) & Hsync). destruct b; cbn in Hacc; [|done|].
  - apply orb_false_iff in Hacc as [HW Hac]. apply Z.leb_gt in HW. destruct (contiguous_ r) eqn:Ec.
    + eexists. split; [exact Hws|]. intros h'. cbn. by rewrite (proj2 (Z.ltb_lt _ _)).
    + destruct (async_ r) eqn:Ea; [|done].
      assert (exists c, c ∈ (reduceAll r vs h).2 /\ reduced c <> []) as (c & Hin & Hc).
      { revert Hne. clear. induction (reduceAll r vs h).2 as [|c cs IH]; [done|]. cbn. intros Hne.
        destruct (reduced c) eqn:E; [|exists c; split; [by left|congruence]]. destruct (IH Hne) as (c' & ? & ?). exists c'. split; [by right|done]. }
      exists c. split; [done|]. intros h'. pose proof (proj1 (Forall_forall _ _) Hf c Hin) as Hfc.
      destruct c as [v sc a|us sc a x|]; cbn in Hfc, Hc |- *; [..|done]; rewrite (proj2 (Z.ltb_lt _ _)) by done.
      * by subst a.
      * destruct Hfc as [-> ->]. by destruct us.
  - exists SyncDistributed. split; [|done]. apply Hsync. by destruct (_ || _).
Qed.

(** ** The calls of all workers *)

Section Coalescing.
Context (scale : K) (async contiguous : bool) (threshold : Z) (size : nat -> Z) (gs : list (list var)) (hs : list heap) (n : nat).
Hypothesis Hl : length hs = length gs.
Hypothesis Hr : rectangular gs n.
Hypothesis Ht : 0 <= threshold < 2 ^ 63.
Hypothesis Hs : sameSizes size gs hs.

Abbreviation reducer0 := (newCoalescing scale async contiguous threshold).

Definition allCalls : list (list call) := zip_with (fun g h => (reduceAll reducer0 g h).2) gs hs.

Lemma coalescing_order w g h :
  gs !! w = Some g -> hs !! w = Some h ->
  flat_map reduced (reduceAll reducer0 g h).2 = g /\ Forall (call_bounded threshold h) (reduceAll reducer0 g h).2.
Proof.
  intros Hg Hh. apply (reduceAll_order reducer0 g h); [unfold reducer_ok; cbn; lia|by eapply sameSizes_sized|done].
Qed.

Lemma coalescing_reduced : (fun cs => flat_map reduced cs) <$> allCalls = gs.
Proof.
  apply list_eq. intros w. rewrite list_lookup_fmap. unfold allCalls. rewrite lookup_zip_with.
  destruct (gs !! w) as [g|] eqn:Eg; [|done]. cbn. destruct (lookup_lt_is_Some_2 hs w) as [h Eh].
  { apply lookup_lt_Some in Eg. lia. }
  rewrite Eh. cbn. f_equal. by apply (coalescing_order w).
Qed.

Lemma coalescing_matching cs ds : cs ∈ allCalls -> ds ∈ allCalls -> matchingAll cs ds = true.
Proof.
  intros [w Hc]%list_elem_of_lookup [u Hd]%list_elem_of_lookup.
  apply lookup_zip_with_Some in Hc as (g & h & -> & Hg & Hh). apply lookup_zip_with_Some in Hd as (g' & h' & -> & Hg' & Hh').
  apply reduceAll_alike; [done|]. apply Forall2_same_length_lookup. split.
  - destruct (Hr g) as [-> _]; [by eapply list_elem_of_lookup_2|]. destruct (Hr g') as [-> _]; [by eapply list_elem_of_lookup_2|done].
  - intros k v v' Hv Hv'. destruct (Hs w g h k v Hg Hh Hv) as [-> _]. by destruct (Hs u g' h' k v' Hg' Hh' Hv') as [-> _].
Qed.
End Coalescing.

(** C16. Workers that each add their gradients to a [CoalescingReducer] and
    finalize it make the same sequence of collective calls, none of which
    coalesces more bytes than the threshold. When the backend accepts the
    reducer's flags (NCCL any, Gloo with several workers and the stub neither
    asynchronous nor contiguous) and the gradients' types, no call throws and
    they end with the scaled sum of the gradients of all workers in every
    gradient: each is reduced exactly once, in the order of the calls of
    [add], however the sizes fall into the cache. With flags it does not
    accept, the run throws [std::runtime_error]. *)
Theorem coalescing_sums b (scale : K) async contiguous threshold size (gs : list (list var)) (hs : list heap) n :
  length hs = length gs -> rectangular gs n -> 0 <= threshold < 2 ^ 63 -> sameSizes size gs hs ->
  (forall w g h, gs !! w = Some g -> hs !! w = Some h -> typed b (zlen gs) contiguous g h) ->
  let calls := zip_with (fun g h => (reduceAll (newCoalescing scale async contiguous threshold) g h).2) gs hs in
  (forall w cs h, calls !! w = Some cs -> hs !! w = Some h -> Forall (call_bounded threshold h) cs)
  /\ (accepts b (zlen gs) async contiguous = true ->
      exists hs', runWorld b threshold scale calls hs = Ok hs' /\ length hs' = length gs
      /\ forall w g h h' k v, gs !! w = Some g -> hs !! w = Some h -> hs' !! w = Some h' -> g !! k = Some v ->
         array v h' = o_scale scale (if many b (length gs) then total (zip_with array (omap (fun g => g !! k) gs) hs) else array v h))
  /\ (accepts b (zlen gs) async contiguous = false -> gs <> [] -> (0 < n)%nat ->
      runWorld b threshold scale calls hs = Throw RuntimeError).
Proof.
  intros Hl Hr Ht Hs Hty calls. set (r := newCoalescing scale async contiguous threshold).
  pose proof (coalescing_order scale async contiguous threshold size gs hs Hl Ht Hs) as Hord. fold r in Hord.
  pose proof (coalescing_reduced scale async contiguous threshold size gs hs Hl Ht Hs) as Hgs.
  pose proof (coalescing_matching scale async contiguous threshold size gs hs n Hr Hs) as Hm.
  change (allCalls scale async contiguous threshold gs hs) with calls in Hgs, Hm.
  split_and!.
  - intros w cs h Hc Hh. apply lookup_zip_with_Some in Hc as (g & h2 & -> & Hg & Hh2). assert (h2 = h) as -> by congruence.
    by apply (Hord w).
  - intros Hacc. apply (world_sums b threshold scale calls gs hs n Hl Hr Hgs Hm).
    intros w pre c post h h' Hc Hh Hsame. apply lookup_zip_with_Some in Hc as (g & h2 & Ec & Hg & Hh2). assert (h2 = h) as -> by congruence.
    destruct (Hord w g h Hg Hh) as [Eg Hb]. fold r in Ec. rewrite <- Ec in Eg, Hb.
    destruct (reduceAll_flagged g r h) as [Hf _]. rewrite <- Ec in Hf.
    assert (Hsub : forall v, v ∈ reduced c -> v ∈ g).
    { intros v Hv. rewrite <- Eg, flat_map_app. cbn. set_solver. }
    unfold zlen. rewrite Hl. apply (checkCall_accepted b threshold _ async contiguous c h h'); [done| |lia| | | |done].
    + by apply Forall_app in Hf as [_ [? _]%Forall_cons].
    + by apply Forall_app in Hb as [_ [? _]%Forall_cons].
    + apply Forall_forall. intros v Hv. apply (proj1 (Forall_forall _ _) (sameSizes_sized size gs hs w g h Hs Hg Hh)). auto.
    + intros HW. destruct (Hty w g h Hg Hh HW) as [T1 T2]. split; auto.
  - intros Hacc Hne Hn. destruct gs as [|g gs']; [done|]. destruct hs as [|h hs']; [done|].
    destruct (Hord 0%nat g h eq_refl eq_refl) as [Eg _].
    destruct (refused_call b threshold (zlen (h :: hs')) r g h) as (c & Hc & Hthrow).
    { unfold zlen in *. by rewrite Hl. }
    { rewrite Eg. destruct (Hr g) as [Hg _]; [by left|]. intros ->. cbn in Hg. lia. }
    pose proof (runCalls_throws b threshold scale (reduceAll r g h).2
      (zip_with (fun g h => (reduceAll r g h).2) gs' hs') [] (reduceAll r g h).2 c (h :: hs')) as Hrun.
    change ((reduceAll r g h).2 :: zip_with (fun g h => (reduceAll r g h).2) gs' hs') with calls in Hrun. rewrite Hgs in Hrun.
    cbn zeta in Hrun. unfold runWorld. change calls with ((reduceAll r g h).2 :: zip_with (fun g h => (reduceAll r g h).2) gs' hs') at 1.
    cbn iota. rewrite (proj2 (forallb_forall _ _)); [|intros ds Hds%list_elem_of_In; apply Hm; [by left|by right]].
    apply Hrun; [|done|done|done|done]. intros pre post E.
    destruct (state_observes b scale calls (g :: gs') (h :: hs') n Hl Hr Hgs (reduceAll r g h).2 pre post) as [-> _]; [by left|done|done].
Qed.
End Reduce.

(** ** A run with two workers *)

(** Arrays of one integer, whose size in bytes is ten *)
Definition int_arrays : Arrays Z := {| a_type _ := s32; a_as _ x := x; a_empty := 0; a_ones _ := 1; a_add := Z.add |}.
Definition int_ops : OptimOps Z Z := {|
  o_zeros _ := 0; o_scale := Z.mul; o_divk := Z.div; o_addk := Z.add; o_sub := Z.sub; o_mul := Z.mul; o_div := Z.div;
  o_max := Z.max; o_sqrt := Z.sqrt; o_sum x := x; s_of z := z; s_micro := 0; s_add := Z.add; s_sub := Z.sub; s_mul := Z.mul;
  s_div := Z.div; s_sqrt := Z.sqrt; s_pow := Z.pow; s_nonzero x := negb (x =? 0); s_le := Z.leb |}.
Definition ten_bytes : ByteSize Z := fun _ => 10.

#[local] Existing Instances int_arrays int_ops ten_bytes.

Definition threeCells (x y z : Z) : heap (A := Z) := MkHeap (<[0%nat := x]> (<[1%nat := y]> {[2%nat := z]})) ∅ 3.
Definition threeVars : list var := [Var 0 0; Var 1 1; Var 2 2].

Lemma coalescing_sums_witness :
  let gs := [threeVars; threeVars] in
  let hs := [threeCells 1 2 3; threeCells 10 20 30] in
  let calls := zip_with (fun g h => (reduceAll (newCoalescing 1 false true 20) g h).2) gs hs in
  length (nth 0 calls []) = 3%nat
  /\ (exists hs', runWorld NCCL 20 1 calls hs = Ok hs' /\ forall h', hs' !! 0%nat = Some h' -> array (Var 1 1) h' = 1 * (2 + 20))
  /\ runWorld GLOO 20 1 calls hs = Throw RuntimeError.
Proof.
  assert (Hsum : forall b, b = NCCL \/ b = GLOO ->
    (accepts b 2 false true = true ->
       exists hs', runWorld b 20 1 (zip_with (fun g h => (reduceAll (newCoalescing 1 false true 20) g h).2) [threeVars; threeVars]
           [threeCells 1 2 3; threeCells 10 20 30]) [threeCells 1 2 3; threeCells 10 20 30] = Ok hs'
         /\ forall h', hs' !! 0%nat = Some h' -> array (Var 1 1) h' = 1 * (2 + 20))
    /\ (accepts b 2 false true = false ->
       runWorld b 20 1 (zip_with (fun g h => (reduceAll (newCoalescing 1 false true 20) g h).2) [threeVars; threeVars]
           [threeCells 1 2 3; threeCells 10 20 30]) [threeCells 1 2 3; threeCells 10 20 30] = Throw RuntimeError)).
  { intros b Hb. destruct (coalescing_sums b 1 false true 20 (fun _ => 10) [threeVars; threeVars]
      [threeCells 1 2 3; threeCells 10 20 30] 3) as (_ & H1 & H2); [done| |lia| | |].
    - intros g [->|[->|[]%not_elem_of_nil]%elem_of_cons]%elem_of_cons; (split; [done|]); repeat constructor; set_solver.
    - intros w g h k v _ _ _. by vm_compute.
    - intros w g h _ _ _. split; [|done]. intros v _. destruct Hb as [-> | ->]; done.
    - split.
      + intros Ha. destruct (H1 Ha) as (hs' & E & _ & Hv). exists hs'. split; [exact E|]. intros h' Hh'.
        rewrite (Hv 0%nat threeVars (threeCells 1 2 3) h' 1%nat (Var 1 1) eq_refl eq_refl Hh' eq_refl).
        destruct Hb as [-> | ->]; vm_compute; reflexivity.
      + intros Ha. apply (H2 Ha); [done|lia]. }
  split; [by vm_compute|]. split; [apply (Hsum NCCL); [by left|done]|apply (Hsum GLOO); [by right|done]].
Defined.
